(* ===== verification/_CoqProject ===== *)
-Q . S2P
Prelude.v
Time.v
Rfc3339.v
Determinism.v
MessageId.v
Ids.v
Retry.v
Event.v
Outbox.v
Clock.v
Session.v
Barrier.v
Idle.v
Fault.v
Tenancy.v
Limits.v
Codec.v
Hash.v
PushId.v
Base32.v
Text.v
PathPattern.v
PsName.v
PsFilter.v
PsMessage.v
PsSubscription.v
PsPull.v
PsLog.v
PsDelivery.v
PsIam.v
PsPagination.v
PsLabel.v
PsState.v
PsSnapshot.v
PsPublish.v
PsRegistry.v
PsInvariant.v
PsCommit.v
PsDispatch.v
PsBroker.v
DbKey.v
DbPath.v
DbNumber.v
DbNode.v
DbServerValue.v
DbTree.v
DbUpdate.v
DbQuery.v
Lex.v
FsValue.v
FsFieldPath.v
FsDocPath.v
FsSize.v
FsDocument.v
FsUsage.v
FsListing.v
FsTrie.v
FsValidate.v
FsFilter.v
FsQuery.v
FsSelect.v
FsScope.v
FsHistory.v
FsLedger.v
FsLedgerWf.v
FsTransaction.v
FsRun.v
FsStore.v
FsPublish.v
FsCommit.v
FsReach.v
FsReclaim.v
FsReserve.v
