(* ===== verification/Prelude.v ===== *)
(** * fireemu: a verification library of the core crates

    fireemu is a Firebase emulator in Rust: deterministic, sans-I/O core crates
    (under [crates/fireemu-core-*]) that hold the logic, and adapters that serve
    HTTP, gRPC and WebSocket clients from them.  This library models the cores
    that every product shares, time, identifiers, events, sessions and limits, and
    the cores of the Realtime Database, of Pub/Sub and of Firestore (values, paths,
    documents and queries), and proves what they promise.

    ** How the parts work together

    A session ([Session.v]) has a lifecycle and an epoch.  A reset begins a new
    epoch; work of an older one must never change the session again.  Requests are
    admitted through a barrier ([Barrier.v]) that a reset takes exclusively.
    Work in flight is registered in a ledger ([Idle.v]), which the await-idle
    fence reads.  Writes enqueue logical events in the outbox ([Outbox.v]), whose
    records move through the delivery states ([Event.v]) under a retry policy
    ([Retry.v]); a reset sweeps the stale ones away.  Timers and time stamps come
    from the virtual clock ([Clock.v]), identifiers from a seeded source
    ([Determinism.v]) whose seed a session derives per epoch.  Faults can be
    injected per session ([Fault.v]); [Tenancy.v] says which session owns a
    project, a bucket or an API key; [Limits.v] judges usage against the limits
    catalog.

    The Realtime Database keeps one tree ([DbNode.v], [DbTree.v]): a write is
    validated and its placeholders resolved ([DbServerValue.v]) before the tree
    changes ([DbUpdate.v]); queries ([DbQuery.v]) order the children of a node.
    The Pub/Sub registry ([PsState.v]) maps topics and subscriptions to entries; a
    publication is prepared, checked against the capacity of every subscription and
    committed ([PsPublish.v], [PsCommit.v]); each subscription has a log
    ([PsSubscription.v]) from which pulls lease messages ([PsPull.v]).  A Firestore
    document ([FsDocument.v]) maps field names to values ([FsValue.v]) under a path
    ([FsDocPath.v]); a query is canonicalized ([FsFilter.v], [FsQuery.v]) and
    selects documents from a scan ([FsSelect.v]).  The database keeps the versions of
    each document ([FsHistory.v]), indexes of their paths ([FsScope.v]) and its open
    transactions ([FsLedger.v]); a commit ([FsStore.v]) validates its transaction,
    checks the locks of the others, stages its writes ([FsDocument.v]), projects its
    usage ([FsUsage.v]), publishes a version and compacts ([FsHistory.v]).

    ** Files

    - [Prelude.v]: machine integers, results, the state monad of mutating methods and
      the monad of those that may panic, Rust's [Ord] (the class [RustOrd]) and
      ordered collections, stable sorting, bytes and decimal text, 64-bit words.
    - [Time.v], [Rfc3339.v]: [fireemu-core-types/src/time.rs].  Calendar functions
      are inverse to each other; the RFC 3339 reader inverts the printer; which
      instants print, and what the reader's instants are bounded by.
    - [Determinism.v]: [fireemu-core-types/src/determinism.rs].  Identifiers of one
      source never repeat; [next_below] always returns and is unbiased.  [IdSource]
      is the trait as a class, and the 128-bit source its instance.
    - [MessageId.v]: [pubsub_message_id.rs].  Message identifiers are distinct
      within and across the two publishers.
    - [Ids.v]: [ids.rs].  Identifier syntax, byte-order successors, epochs.
    - [Codec.v]: [codec.rs].  Percent decoding and the strict check agree.
    - [Hash.v]: [hash.rs].  The sliced CRC is the bitwise one; digests do not depend on
      how their input was cut; the text encodings lose nothing.
    - [Retry.v], [Event.v], [Outbox.v]: [fireemu-core-events/src].  The backoff is
      its documented formula; the delivery methods refine the state diagram (a step
      relation); a failing event ends dead-lettered exactly when its policy gives up; the
      outbox never panics, its five indexes stay views of its records, and dispatch,
      the retry sweep, the queue heads and the stale sweep are exact.
    - [Clock.v]: [fireemu-core-session/src/clock.rs].  Time never goes backwards
      unless told to; moves are accounted for exactly and published once to each
      live observer; a refused call changes no axis.
    - [Session.v]: [session.rs].  The methods refine the lifecycle; stale work never
      proceeds; identifiers do not repeat, across epochs either.
    - [Barrier.v]: [barrier.rs].  No admitted request straddles a reset, in every
      interleaving of threads; [admit_since] refuses what a reset overtook.
    - [Idle.v]: [idle.rs].  The verdict is exact; a hand-off is never seen idle;
      tokens are never revived.
    - [Fault.v]: [fault.rs].  Decisions follow the plan and the history; sessions
      do not disturb each other.
    - [Tenancy.v]: [tenancy.rs].  Ownership is unique; removal undoes registration.
    - [Limits.v]: [fireemu-core-limits/src].  The disposition of a usage, exact and
      monotone.
    - [Text.v], [PathPattern.v]: the standard library's text operations, and
      [fireemu-core-functions/src/pattern.rs].  [parse] accepts exactly the pattern
      language; matching is exact and never slices out of range.
    - [Base32.v]: [fireemu-core-auth/src/base32.rs].  Decoding undoes encoding.
    - [PushId.v], [DbKey.v], [DbPath.v]: [fireemu-core-database/src] push_id.rs,
      key.rs, path.rs and the overlap check of tree.rs.  Push ids strictly increase;
      the key order is total; paths parse exactly and print back; overlapping
      updates are found.
    - [DbNumber.v], [DbNode.v]: number.rs and node.rs.  The mixed order of integers
      and doubles is that of the exact numbers; what reads from JSON is well formed
      and within the limits; an exported node imports as itself.
    - [DbServerValue.v], [DbTree.v], [DbUpdate.v]: server_value.rs and tree.rs.  A
      write changes its location and nothing else, the tree stays well formed, a
      multipath update is exact, a restored scope is as it was.
    - [DbQuery.v]: query.rs.  A query selects a range of its order, pages cover it,
      and validation refuses exactly the combinations it documents.
    - [PsName.v], [PsMessage.v], [PsFilter.v], [PsLabel.v], [PsPagination.v],
      [PsIam.v]: [fireemu-core-pubsub/src] name.rs, message.rs, filter.rs,
      label_value.rs with configuration.rs, pagination.rs and iam.rs.  Names parse
      exactly, filters parse exactly their grammar, list pages cover the list, a
      policy write is a compare and swap.
    - [PsSubscription.v], [PsPull.v]: subscription.rs.  [PsLog.v] proves the invariant
      of the log and [PsDelivery.v] what delivery promises: order within a key, no
      message lost before it is acknowledged, bounded attempts, exact seeks.
    - [PsState.v], [PsSnapshot.v], [PsPublish.v]: state.rs, in the monad of calls that
      may panic.  [PsRegistry.v], [PsInvariant.v], [PsCommit.v] and [PsDispatch.v]
      preserve the invariant of the registry operation by operation, and [PsBroker.v]
      concludes: no sequence of calls panics, a publication reaches every
      subscription or none, a stale one none, and no dead letter is lost.
    - [Lex.v]: trees compared lexicographically, into which the orders of Firestore
      embed.
    - [FsValue.v]: [fireemu-core-firestore/src/value.rs].  The canonical order of
      values, stored identity and nesting.
    - [FsFieldPath.v], [FsDocPath.v]: field_path.rs and path.rs.  Both notations
      parse exactly; the ranges of descendants.
    - [FsSize.v]: size.rs.  The charge of a document is the official formula.
    - [FsDocument.v]: the write path of store.rs.  Masked writes and transforms.
    - [FsValidate.v]: validation in store.rs accepts exactly the storable documents.
    - [FsFilter.v], [FsQuery.v]: query.rs, and the evaluation of store.rs.  Canonical
      forms, the disjunctive normal form and the effective order.
    - [FsSelect.v]: the selection of store.rs with its bounded heap, cursors and
      aggregations.  Selection is exact and resumes exactly.
    - [FsUsage.v], [FsListing.v], [FsScope.v], [FsHistory.v]: the multi-version history
      of store.rs.  What a compaction reclaims is computed exactly from the versions
      it drops; scans of a scope list exactly its paths; the listing hierarchy is a
      view of the retained and the live paths ([FsTrie.v]); compaction is invisible to
      every read that is still served, and keeps the accounting exact.
    - [FsRun.v]: query execution in store.rs.  A query answers what it would over the
      whole database, whichever index or named documents it reads.
    - [FsLedger.v]: the transactions of store.rs.  [FsLedgerWf.v] is their invariant
      (every index and total is what the transactions say, and the budgets hold),
      [FsTransaction.v] what reads, queries and rollbacks do.
    - [FsStore.v]: the database as a whole, up to its commit.  [FsPublish.v] shows that
      the usage a commit projects is what it publishes and that compaction is
      invisible, [FsCommit.v] specifies each stage of a commit, and [FsReach.v]
      concludes over every sequence of requests: the database stays well formed, a
      commit does exactly its writes or nothing, and transactions are serializable.
      [FsReclaim.v] and [FsReserve.v] show that the usage a commit reserves is a ceiling
      of what the history holds after it, so that a database never outgrows its limits.

    ** Conventions

    A Rust integer is a [Z] with the range of its type; [checked], [saturating] and
    [wrapping] are the families of operators, and a plain operator wraps, as the
    release profile compiles it.  A [&mut self] method is a function of the state
    that returns its outcome and the state it leaves, on success and failure.  A
    panic is an outer [None], and theorems show it unreachable.  [BTreeMap] and
    [BTreeSet] are [gmap] and [gset], iterated in key order; hash maps are [gmap]; a
    [BinaryHeap] is the ascending list of its elements.  A double is a [spec_float].
    A string is its bytes, or its characters where the code asks for them.  A
    theorem's hypotheses are its component's invariant, which is shown to hold
    initially and to be preserved, or machine bounds; each such theorem is followed
    by an instance, named after it, in which they hold.

    ** Fuel and bounds

    Most loops recurse on their data.  Those with fuel: [dec_aux], as many steps as
    the number has bits ([log2_fuel], [decimal_value]); [next_below], where 2^64
    draws suffice from every state ([next_below_total]); the fraction digits of a
    time stamp and the lexer of filters, one step per byte of the text
    ([fraction_loop_read], [filter_parse_exact]); the parser of filters, whose
    recursion the depth limit bounds ([PARSE_FUEL]); the binary searches, by the
    size of their table; the reading of a node ([build]), by the depth limit; the
    search for a free name, one more than there are names ([available_name_total]);
    and the nesting depth of a value, one step per node of it ([nesting_loop_spec]).

    ** Parameters and contracts

    The clock's time source is an arbitrary function from the number of the call to
    a reading; theorems about a following clock suppose that there is room in
    [i128] for what it will add ([clock_wf], [op_ok]).  [RwLock] is its contract,
    any number of readers or one writer, as the guards of the barrier's steps.  Sizes
    of types and capacities of strings are the class [Memory]; the identity of a
    shared allocation is the counter that numbers it.

    For the database: the nearest-neighbour search, what the index catalog says of a
    document ([index_usage]) and of a delete ([delete_check]), the admission of
    coupled events ([admission]), the requests that still wait ([waits]) and the size
    of a recorded query ([bytes_of_query]) are arbitrary functions.  A commit is
    supposed to find a version left in [u64] and room in [i128] for the next commit
    time ([has_room]), and its writes to name documents of its own database
    ([writes_ok]).

    ** What is not modelled

    Error message texts, [Display] of errors, JSON encodings of limits, the byte
    estimate of fault states and lock poisoning; the delivery observers and the
    retention report of Pub/Sub; of Firestore, listings of collections and partitions,
    imports and snapshots, the nearest-neighbour stage, pipelines, index planning,
    text search and expiry: engines of their own over the store that is modelled.  The
    account, object and function stores, security rules and App Check are subsystems
    that share only the modelled foundations.  Adapters, generated protocol types,
    file formats and the command line are I/O. *)From Stdlib Require Export ZArith Lia ZifyBool.
From Stdlib Require Import OrderedTypeEx.
From Stdlib Require Ascii.
From stdpp Require Export base decidable list gmap strings sorting fin_maps.

Export Stdlib.Strings.Ascii (ascii(..), N_of_ascii, ascii_of_N, N_ascii_bounded, N_ascii_embedding, ascii_N_embedding).
Export (notations) Stdlib.Strings.Ascii.

#[global] Open Scope Z_scope.
#[global] Set Warnings "-clear-no-such-hyp".

(** ** Machine integers

    A Rust integer is a [Z] together with the range of its type.  [checked],
    [saturating] and [wrapping] are the three families of Rust operators:
    [a.checked_add(b)] is [checked t (a + b)], and so on.  A plain [+] is
    [wrapping], which is what the release profile compiles it to. *)

Record int_ty := IntTy { int_min : Z; int_max : Z }.

Definition u8 : int_ty := IntTy 0 (2 ^ 8 - 1).
Definition u16 : int_ty := IntTy 0 (2 ^ 16 - 1).
Definition u32 : int_ty := IntTy 0 (2 ^ 32 - 1).
Definition u64 : int_ty := IntTy 0 (2 ^ 64 - 1).
Definition u128 : int_ty := IntTy 0 (2 ^ 128 - 1).
Definition usize : int_ty := u64.
Definition i32 : int_ty := IntTy (- 2 ^ 31) (2 ^ 31 - 1).
Definition i64 : int_ty := IntTy (- 2 ^ 63) (2 ^ 63 - 1).
Definition i128 : int_ty := IntTy (- 2 ^ 127) (2 ^ 127 - 1).

Definition fits (t : int_ty) (z : Z) : Prop := int_min t <= z <= int_max t.

#[global] Instance fits_dec t z : Decision (fits t z).
Proof. unfold fits; apply _. Defined.

Definition checked (t : int_ty) (z : Z) : option Z :=
  if decide (fits t z) then Some z else None.

Definition saturating (t : int_ty) (z : Z) : Z :=
  Z.max (int_min t) (Z.min (int_max t) z).

Definition wrapping (t : int_ty) (z : Z) : Z :=
  int_min t + (z - int_min t) mod (int_max t - int_min t + 1).

(** [a.abs_diff(b)]. *)
Definition abs_diff (a b : Z) : Z := Z.abs (a - b).

(** ** Results and the state monad of [&mut self] methods

    A method that takes [&mut self] and returns [Result<A, E>] is a function of
    the state that returns the outcome together with the state it leaves, on
    success and on failure: an early return keeps every assignment made before
    it, so that an error leaves the state unchanged is a theorem and not part of
    the model. *)

Inductive result (A E : Type) :=
| Ok (a : A)
| Err (e : E).
Arguments Ok {A E} a.
Arguments Err {A E} e.

Definition is_ok {A E} (r : result A E) : bool :=
  match r with Ok _ => true | Err _ => false end.

Definition M (S E A : Type) := S -> result A E * S.

Definition st_ret {S E A} (a : A) : M S E A := fun s => (Ok a, s).
Definition st_fail {S E A} (e : E) : M S E A := fun s => (Err e, s).
Definition st_get {S E} : M S E S := fun s => (Ok s, s).
Definition st_put {S E} (s : S) : M S E unit := fun _ => (Ok tt, s).
Definition st_bind {S E A B} (m : M S E A) (f : A -> M S E B) : M S E B :=
  fun s => match m s with
           | (Ok a, s') => f a s'
           | (Err e, s') => (Err e, s')
           end.
(** [opt.ok_or(e)?] *)
Definition ok_or {S E A} (o : option A) (e : E) : M S E A :=
  match o with Some a => st_ret a | None => st_fail e end.
(** [res?] for a pure result. *)
Definition lift_res {S E A} (r : result A E) : M S E A :=
  match r with Ok a => st_ret a | Err e => st_fail e end.

Declare Scope rust_scope.
Delimit Scope rust_scope with rust.
Notation "'let!' x := c1 'in' c2" := (st_bind c1 (fun x => c2))
  (at level 10, x name, c1 at level 100, c2 at level 200) : rust_scope.
Notation "'do!' c1 'in' c2" := (st_bind c1 (fun _ => c2))
  (at level 10, c1 at level 100, c2 at level 200) : rust_scope.
#[global] Open Scope rust_scope.

(** ** Methods that can also panic

    As above, with an outer [option]: [None] is a panic ([unwrap], [expect], an index out
    of range).  [wp m Q s] says that [m] does not panic in [s] and that [Q] holds of what it
    returns and leaves. *)

Definition PM (S E A : Type) := S -> option (result A E * S).

Definition p_ret {S E A} (a : A) : PM S E A := fun s => Some (Ok a, s).
Definition p_fail {S E A} (e : E) : PM S E A := fun s => Some (Err e, s).
Definition p_bind {S E A B} (m : PM S E A) (f : A -> PM S E B) : PM S E B :=
  fun s => match m s with
           | Some (Ok a, s') => f a s'
           | Some (Err e, s') => Some (Err e, s')
           | None => None
           end.
Definition gets {S E A} (f : S -> A) : PM S E A := fun s => Some (Ok (f s), s).
Definition modify {S E} (f : S -> S) : PM S E unit := fun s => Some (Ok tt, f s).
(** [res?] *)
Definition p_lift {S E A} (r : result A E) : PM S E A := fun s => Some (r, s).
(** [opt.ok_or(e)?] *)
Definition found {S E A} (o : option A) (e : E) : PM S E A :=
  match o with Some a => p_ret a | None => p_fail e end.
(** [opt.expect()] *)
Definition unwrap {S E A} (o : option A) : PM S E A := fun s => (fun a => (Ok a, s)) <$> o.
(** [if b { return Err(e) }] *)
Definition refuse {S E} (b : bool) (e : E) : PM S E unit := if b then p_fail e else p_ret tt.
(** A call whose error is a value: [if let Ok(a) = call], [let _ = call]. *)
Definition attempt {S E A} (m : PM S E A) : PM S E (result A E) :=
  fun s => (fun '(r, s) => (Ok r, s)) <$> m s.

Notation "'let?' x := c1 'in' c2" := (p_bind c1 (fun x => c2))
  (at level 10, x pattern, c1 at level 100, c2 at level 200) : rust_scope.
Notation "'do?' c1 'in' c2" := (p_bind c1 (fun _ => c2))
  (at level 10, c1 at level 100, c2 at level 200) : rust_scope.

(** [for x in l { f(x)? }] *)
Fixpoint p_each {S E A} (f : A -> PM S E unit) (l : list A) : PM S E unit :=
  match l with [] => p_ret tt | x :: l => do? f x in p_each f l end.

(** ** Results of pure code: [res?] and the loops that stop at the first error *)

Definition r_bind {A B E} (r : result A E) (f : A -> result B E) : result B E := match r with Ok a => f a | Err e => Err e end.

Notation "'let*' x := c1 'in' c2" := (r_bind c1 (fun x => c2))
  (at level 10, x pattern, c1 at level 100, c2 at level 200) : rust_scope.
Notation "'do*' c1 'in' c2" := (r_bind c1 (fun _ => c2))
  (at level 10, c1 at level 100, c2 at level 200) : rust_scope.

(** [if b { return Err(e) }] *)
Definition r_refuse {E} (b : bool) (e : E) : result unit E := if b then Err e else Ok tt.
(** [for x in l { f(x)? }] *)
Fixpoint r_each {A E} (f : A -> result unit E) (l : list A) : result unit E :=
  match l with [] => Ok tt | x :: l => do* f x in r_each f l end.
(** [for x in l { acc = f(acc, x)? }] *)
Fixpoint r_fold {A B E} (f : B -> A -> result B E) (l : list A) (acc : B) : result B E :=
  match l with [] => Ok acc | x :: l => let* acc := f acc x in r_fold f l acc end.

Definition wp {S E A} (m : PM S E A) (Q : result A E -> S -> Prop) (s : S) : Prop :=
  match m s with Some (r, s') => Q r s' | None => False end.

(** ** Rust's [Ord]

    The collections of the source iterate in key order, so the order is part of
    what the program computes.  An instance is the comparison function with the
    laws of the trait. *)

Class RustOrd (A : Type) := {
  ord_cmp : A -> A -> comparison;
  ord_cmp_eq : forall x y, ord_cmp x y = Eq <-> x = y;
  ord_cmp_opp : forall x y, ord_cmp y x = CompOpp (ord_cmp x y);
  ord_cmp_trans : forall x y z, ord_cmp x y = Lt -> ord_cmp y z = Lt -> ord_cmp x z = Lt;
}.

Definition ord_lt `{RustOrd A} (x y : A) : Prop := ord_cmp x y = Lt.
Definition ord_le `{RustOrd A} (x y : A) : Prop := ord_cmp x y <> Gt.

#[global] Instance ord_lt_dec `{RustOrd A} (x y : A) : Decision (ord_lt x y).
Proof. unfold ord_lt; solve_decision. Defined.
#[global] Instance ord_le_dec `{RustOrd A} (x y : A) : Decision (ord_le x y).
Proof. unfold ord_le; solve_decision. Defined.

#[global, refine] Instance Z_RustOrd : RustOrd Z := {| ord_cmp := Z.compare |}.
Proof.
  - apply Z.compare_eq_iff.
  - intros; apply Z.compare_antisym.
  - intros x y z; rewrite !Z.compare_lt_iff; lia.
Defined.

#[global, refine] Instance string_RustOrd : RustOrd string := {| ord_cmp := String.compare |}.
Proof.
  - apply String_as_OT.cmp_eq.
  - intros; apply String.compare_antisym.
  - intros x y z.
    rewrite !(String_as_OT.cmp_lt : forall a b, String.compare a b = Lt <-> _).
    apply String_as_OT.lt_trans.
Defined.

(** [c.then_with(|| d)] *)
Definition then_with (c d : comparison) : comparison := match c with Eq => d | _ => c end.

Definition pair_cmp `{RustOrd A, RustOrd B} (p q : A * B) : comparison :=
  match ord_cmp p.1 q.1 with Eq => ord_cmp p.2 q.2 | c => c end.

#[global, refine] Instance pair_RustOrd `{RustOrd A, RustOrd B} : RustOrd (A * B) :=
  {| ord_cmp := pair_cmp |}.
Proof.
  all: unfold pair_cmp.
  - intros [a b] [a' b']; simpl.
    destruct (ord_cmp a a') eqn:E.
    + apply ord_cmp_eq in E as ->. rewrite ord_cmp_eq. naive_solver.
    + split; [done|]. intros [= -> ->].
      by rewrite (proj2 (ord_cmp_eq a' a') eq_refl) in E.
    + split; [done|]. intros [= -> ->].
      by rewrite (proj2 (ord_cmp_eq a' a') eq_refl) in E.
  - intros [a b] [a' b']; simpl. rewrite (ord_cmp_opp a a').
    destruct (ord_cmp a a'); simpl; auto using ord_cmp_opp.
  - intros [a b] [a' b'] [a'' b'']; simpl.
    destruct (ord_cmp a a') eqn:E1, (ord_cmp a' a'') eqn:E2; try done.
    + apply ord_cmp_eq in E1 as ->. rewrite E2. apply ord_cmp_trans.
    + apply ord_cmp_eq in E1 as ->. by rewrite E2.
    + apply ord_cmp_eq in E2 as ->. by rewrite E1.
    + by rewrite (ord_cmp_trans _ _ _ E1 E2).
Defined.

(** [Vec<A>] and slices: the derived, lexicographic order. *)
Fixpoint list_cmp `{RustOrd A} (l m : list A) : comparison :=
  match l, m with
  | [], [] => Eq
  | [], _ :: _ => Lt
  | _ :: _, [] => Gt
  | x :: l, y :: m => match ord_cmp x y with Eq => list_cmp l m | c => c end
  end.

#[global, refine] Instance list_RustOrd `{RustOrd A} : RustOrd (list A) := {| ord_cmp := list_cmp |}.
Proof.
  - induction x as [|a x IH]; intros [|b y]; cbn; try done.
    destruct (ord_cmp a b) eqn:E.
    + apply ord_cmp_eq in E as ->. rewrite IH. naive_solver.
    + split; [done|]. intros [= -> _]. by rewrite (proj2 (ord_cmp_eq b b) eq_refl) in E.
    + split; [done|]. intros [= -> _]. by rewrite (proj2 (ord_cmp_eq b b) eq_refl) in E.
  - induction x as [|a x IH]; intros [|b y]; cbn; try done.
    rewrite (ord_cmp_opp a b). destruct (ord_cmp a b); cbn; auto.
  - induction x as [|a x IH]; intros [|b y] [|c z]; cbn; try done.
    destruct (ord_cmp a b) eqn:E1, (ord_cmp b c) eqn:E2; try done.
    + apply ord_cmp_eq in E1 as ->. rewrite E2. apply IH.
    + apply ord_cmp_eq in E1 as ->. by rewrite E2.
    + apply ord_cmp_eq in E2 as ->. by rewrite E1.
    + by rewrite (ord_cmp_trans _ _ _ E1 E2).
Defined.

Section order.
Context `{RustOrd A}.
Implicit Types x y z : A.

Lemma ord_cmp_refl x : ord_cmp x x = Eq.
Proof. by apply ord_cmp_eq. Qed.

Lemma ord_lt_irrefl x : ~ ord_lt x x.
Proof. unfold ord_lt. by rewrite ord_cmp_refl. Qed.

Lemma ord_lt_trans x y z : ord_lt x y -> ord_lt y z -> ord_lt x z.
Proof. apply ord_cmp_trans. Qed.

Lemma ord_gt_lt x y : ord_cmp x y = Gt <-> ord_lt y x.
Proof. unfold ord_lt. rewrite (ord_cmp_opp x y). by destruct (ord_cmp x y). Qed.

Lemma ord_le_lt_eq x y : ord_le x y <-> ord_lt x y \/ x = y.
Proof.
  unfold ord_le, ord_lt. rewrite <- ord_cmp_eq.
  destruct (ord_cmp x y); intuition congruence.
Qed.

Lemma ord_not_lt x y : ~ ord_lt x y <-> ord_le y x.
Proof.
  unfold ord_le, ord_lt. rewrite (ord_cmp_opp x y).
  destruct (ord_cmp x y); simpl; intuition congruence.
Qed.

#[global] Instance ord_le_trans : Transitive (ord_le (A := A)).
Proof.
  intros x y z. rewrite !ord_le_lt_eq.
  intros [?| ->] [?| ->]; eauto using ord_lt_trans.
Qed.

#[global] Instance ord_le_total : Total (ord_le (A := A)).
Proof.
  intros x y. destruct (decide (ord_lt x y)).
  - left. rewrite ord_le_lt_eq. auto.
  - right. by apply ord_not_lt.
Qed.

#[global] Instance ord_le_antisymm : AntiSymm (=) (ord_le (A := A)).
Proof.
  intros x y. rewrite !ord_le_lt_eq. intros [H1|?] [H2|?]; try done.
  destruct (ord_lt_irrefl x). by apply (ord_lt_trans _ _ _ H1).
Qed.
End order.

(** ** Ordered collections

    [BTreeSet<A>] is a [gset A] and [BTreeMap<K, V>] a [gmap K V]; iterating
    them is enumerating the elements in the order of the key. *)

Section btree.
Context `{RustOrd A, Countable A}.
Implicit Types (s : gset A) (x y : A) (l : list A).

Definition btree_iter s : list A := merge_sort ord_le (elements s).

(** [range(..=x)] *)
Definition btree_range_to s x : list A := filter (fun y => ord_le y x) (btree_iter s).

(** [range((Excluded(x), Unbounded)).next()] *)
Definition btree_next_after s x : option A := head (filter (fun y => ord_lt x y) (btree_iter s)).

Lemma btree_iter_perm s : btree_iter s ≡ₚ elements s.
Proof. apply merge_sort_Permutation. Qed.

Lemma elem_of_btree_iter s x : x ∈ btree_iter s <-> x ∈ s.
Proof. rewrite btree_iter_perm. apply elem_of_elements. Qed.

Lemma NoDup_btree_iter s : NoDup (btree_iter s).
Proof. rewrite btree_iter_perm. apply NoDup_elements. Qed.

Lemma length_btree_iter s : length (btree_iter s) = size s.
Proof. by rewrite btree_iter_perm. Qed.

Lemma StronglySorted_le_lt l :
  NoDup l -> StronglySorted ord_le l -> StronglySorted ord_lt l.
Proof.
  induction l as [|x l IH]; [constructor|].
  rewrite NoDup_cons, StronglySorted_cons. intros [Hx Hl] [Hle Hs].
  constructor; [auto|]. rewrite Forall_forall in *. intros y Hy.
  destruct (proj1 (ord_le_lt_eq x y) (Hle y Hy)) as [?| ->]; [done|].
  by destruct Hx.
Qed.

Lemma btree_iter_sorted s : StronglySorted ord_lt (btree_iter s).
Proof.
  apply StronglySorted_le_lt; [apply NoDup_btree_iter|].
  apply StronglySorted_merge_sort; apply _.
Qed.

(** A strictly sorted list with the elements of the set is its iteration. *)
Lemma btree_iter_unique s l :
  StronglySorted ord_lt l -> (forall x, x ∈ l <-> x ∈ s) -> btree_iter s = l.
Proof.
  intros Hs Hl.
  assert (Hle : StronglySorted ord_le l).
  { clear Hl. induction Hs as [|x l ? IH Hf]; constructor; auto.
    eapply Forall_impl; [apply Hf|]. intros. apply ord_le_lt_eq. auto. }
  assert (Hnd : NoDup l).
  { clear Hl Hle. induction Hs as [|x l ? IH Hf]; constructor; auto.
    rewrite Forall_forall in Hf. intros Hx%Hf. by apply ord_lt_irrefl in Hx. }
  apply (StronglySorted_unique ord_le).
  - apply StronglySorted_merge_sort; apply _.
  - done.
  - apply NoDup_Permutation; auto using NoDup_btree_iter.
    intros x. rewrite Hl. apply elem_of_btree_iter.
Qed.

Lemma elem_of_btree_range_to s x y : y ∈ btree_range_to s x <-> ord_le y x /\ y ∈ s.
Proof. unfold btree_range_to. by rewrite list_elem_of_filter, elem_of_btree_iter. Qed.

Lemma StronglySorted_filter (P : A -> Prop) `{forall x, Decision (P x)} l :
  StronglySorted ord_lt l -> StronglySorted ord_lt (filter P l).
Proof.
  induction 1 as [|x l Hl IH Hx]; [constructor|]. rewrite filter_cons. case_decide; [|done].
  constructor; [done|]. rewrite Forall_forall in *. intros y [_ Hy]%list_elem_of_filter. auto.
Qed.

Lemma sorted_head l x :
  StronglySorted ord_lt l -> head l = Some x <-> x ∈ l /\ forall y, y ∈ l -> ord_le x y.
Proof.
  intros Hs. destruct l as [|z l]; cbn.
  - split; [done|]. intros [[]%elem_of_nil _].
  - apply StronglySorted_cons in Hs as [Hz Hs]. rewrite Forall_forall in Hz. split.
    + intros [= ->]. split; [left|]. intros y [->|Hy]%elem_of_cons; apply ord_le_lt_eq; auto.
    + intros [[->|Hx]%elem_of_cons Hmin]; [done|]. f_equal. apply (anti_symm ord_le).
      * apply ord_le_lt_eq. auto.
      * apply Hmin. left.
Qed.

(** [first()]: the least element. *)
Lemma btree_first_spec s x :
  head (btree_iter s) = Some x <-> x ∈ s /\ forall y, y ∈ s -> ord_le x y.
Proof.
  rewrite sorted_head by apply btree_iter_sorted. setoid_rewrite elem_of_btree_iter. done.
Qed.

Lemma btree_next_after_spec s a x :
  btree_next_after s a = Some x <->
    x ∈ s /\ ord_lt a x /\ forall y, y ∈ s -> ord_lt a y -> ord_le x y.
Proof.
  unfold btree_next_after. rewrite sorted_head by apply StronglySorted_filter, btree_iter_sorted.
  setoid_rewrite list_elem_of_filter. setoid_rewrite elem_of_btree_iter. naive_solver.
Qed.

Lemma btree_first_exists s : s <> ∅ -> is_Some (head (btree_iter s)).
Proof.
  intros [x Hx]%set_choose_L. apply elem_of_btree_iter in Hx.
  destruct (btree_iter s); [by apply elem_of_nil in Hx|by eexists].
Qed.
End btree.

(** ** Sorting by a relation that is an order on the elements sorted only *)

Section merge_sort_ext.
Context {A} (P : A -> Prop) (R R' : A -> A -> Prop).
Context `{forall x y, Decision (R x y)} `{forall x y, Decision (R' x y)}.
Context (HR : forall x y, P x -> P y -> R x y <-> R' x y).

Lemma list_merge_ext l1 : Forall P l1 -> forall l2, Forall P l2 -> list_merge R l1 l2 = list_merge R' l1 l2.
Proof.
  induction 1 as [|x l1 Hx Hl1 IH1]; [by intros [|]|]. induction 1 as [|y l2 Hy Hl2 IH2]; [done|].
  rewrite !list_merge_cons. specialize (HR x y Hx Hy).
  destruct (decide (R x y)), (decide (R' x y)); try tauto; f_equal; [|done]. apply IH1. by constructor.
Qed.

Definition stack_all (st : list (option (list A))) : Prop := Forall (fun o => Forall P (default [] o)) st.

Lemma list_merge_all l1 l2 : Forall P l1 -> Forall P l2 -> Forall P (list_merge R l1 l2).
Proof. intros H1 H2. rewrite merge_Permutation. by apply Forall_app. Qed.

Lemma merge_list_to_stack_ext st : forall l, stack_all st -> Forall P l ->
  merge_list_to_stack R st l = merge_list_to_stack R' st l /\ stack_all (merge_list_to_stack R st l).
Proof.
  induction st as [|[l'|] st IH]; intros l Hst Hl; cbn [merge_list_to_stack].
  - split; [done|by repeat constructor].
  - inversion_clear Hst as [|? ? Hl' Hst']. cbn in Hl'. rewrite <- (list_merge_ext l' Hl' l Hl).
    destruct (IH (list_merge R l' l) Hst' (list_merge_all l' l Hl' Hl)) as [<- Hall].
    split; [done|]. constructor; [by constructor|done].
  - inversion_clear Hst. split; [done|by constructor].
Qed.

Lemma merge_stack_ext st : stack_all st -> merge_stack R st = merge_stack R' st /\ Forall P (merge_stack R st).
Proof.
  induction st as [|[l|] st IH]; intros Hst; cbn [merge_stack]; [by split|..]; inversion_clear Hst as [|? ? Hl Hst'].
  - destruct (IH Hst') as [<- Hall]. cbn in Hl. split; [by apply list_merge_ext|by apply list_merge_all].
  - by apply IH.
Qed.

Lemma merge_sort_ext l : Forall P l -> merge_sort R l = merge_sort R' l.
Proof.
  intros Hl. unfold merge_sort. assert (Hst : stack_all []) by constructor. revert Hst. generalize (@nil (option (list A))).
  induction Hl as [|x l Hx _ IH]; intros st Hst; cbn [merge_sort_aux]; [by apply merge_stack_ext|].
  destruct (merge_list_to_stack_ext st [x] Hst) as [<- Hall]; [by repeat constructor|]. by apply IH.
Qed.
End merge_sort_ext.

(** A list sorted by a key holds the elements of an interval next to each other. *)
Lemma filter_interval {A} (le : A -> A -> Prop) (P : A -> Prop) `{forall x, Decision (P x)} (l : list A) :
  StronglySorted le l ->
  (forall x y z, x ∈ l -> y ∈ l -> z ∈ l -> le x y -> le y z -> P x -> P z -> P y) ->
  exists before after, l = before ++ filter P l ++ after.
Proof.
  induction 1 as [|x l Hs IH Hx]; intros Hconv; [by exists [], []|].
  destruct IH as (before & after & Hl); [intros a b c ? ? ?; apply Hconv; by right|].
  destruct (decide (P x)) as [Hp|Hp].
  - rewrite filter_cons_True by done. destruct before as [|y before].
    + exists [], after. by rewrite Hl at 1.
    + destruct (filter P l) as [|z f] eqn:Hf; [exists [], ((y :: before) ++ after); by rewrite Hl at 1|]. exfalso.
      assert (Hy : y ∈ l) by (rewrite Hl; by left).
      assert (Hz : z ∈ filter P l) by (rewrite Hf; by left). apply list_elem_of_filter in Hz as [Hpz Hz].
      assert (Hyz : le y z).
      { rewrite Hl in Hs. cbn [app] in Hs. apply StronglySorted_cons in Hs as [Hs _]. rewrite Forall_forall in Hs.
        apply Hs. apply elem_of_app. right. by left. }
      rewrite Forall_forall in Hx. assert (Hpy : P y).
      { apply (Hconv x y z); [by left|by right|by right|by apply Hx|done|done|done]. }
      assert (Hcount : length (filter P l) = length (filter P (y :: before) ++ filter P (z :: f) ++ filter P after)).
      { rewrite Hl at 1. by rewrite !filter_app. }
      rewrite Hf, filter_cons_True in Hcount by done.
      assert (Hzf : filter P (z :: f) = z :: f).
      { rewrite <- Hf. apply list_filter_filter_l. auto. }
      rewrite Hzf in Hcount. cbn [app length] in Hcount. rewrite !length_app in Hcount. cbn [length] in Hcount. rewrite length_app in Hcount. lia.
  - rewrite filter_cons_False by done. exists (x :: before), after. by rewrite Hl at 1.
Qed.

Definition btree_map_iter `{RustOrd K, Countable K} {V} (m : gmap K V) : list (K * V) :=
  omap (fun k => (fun v => (k, v)) <$> m !! k) (btree_iter (dom m)).

Lemma elem_of_btree_map_iter `{RustOrd K, Countable K} {V} (m : gmap K V) k v :
  (k, v) ∈ btree_map_iter m <-> m !! k = Some v.
Proof.
  unfold btree_map_iter. rewrite list_elem_of_omap. split.
  - intros (k' & _ & Hk'). destruct (m !! k') eqn:E; naive_solver.
  - intros Hk. exists k. rewrite elem_of_btree_iter, elem_of_dom, Hk. eauto.
Qed.

Lemma omap_total {A B} (f : A -> option B) (g : B -> A) (l : list A) :
  (forall x, x ∈ l -> exists y, f x = Some y /\ g y = x) -> map g (omap f l) = l.
Proof.
  induction l as [|x l IH]; intros Hf; [done|].
  destruct (Hf x ltac:(left)) as (y & Hy & Hg). cbn. rewrite Hy. cbn.
  rewrite Hg, IH; [done|]. intros z Hz. apply Hf. by right.
Qed.

(** The keys of a map iteration are the iteration of the keys. *)
Lemma btree_map_iter_keys `{RustOrd K, Countable K} {V} (m : gmap K V) :
  map fst (btree_map_iter m) = btree_iter (dom m).
Proof.
  unfold btree_map_iter. apply omap_total. intros k Hk%elem_of_btree_iter.
  apply elem_of_dom in Hk as [v Hv]. exists (k, v). by rewrite Hv.
Qed.

Lemma btree_map_iter_perm `{RustOrd K, Countable K} {V} (m : gmap K V) :
  btree_map_iter m ≡ₚ map_to_list m.
Proof.
  apply NoDup_Permutation; [|apply NoDup_map_to_list|].
  - apply (NoDup_fmap_1 fst). change (fst <$> btree_map_iter m) with (map fst (btree_map_iter m)).
    rewrite btree_map_iter_keys. apply NoDup_btree_iter.
  - intros [k v]. by rewrite elem_of_btree_map_iter, elem_of_map_to_list.
Qed.

Lemma btree_map_iter_fmap `{RustOrd K, Countable K} {V W} (f : V -> W) (m : gmap K V) :
  btree_map_iter (f <$> m) = map (fun p => (p.1, f p.2)) (btree_map_iter m).
Proof.
  unfold btree_map_iter. rewrite dom_fmap_L. induction (btree_iter (dom m)) as [|k l IH]; [done|]. cbn.
  rewrite lookup_fmap. destruct (m !! k); cbn; by rewrite IH.
Qed.

Lemma map_fold_max_ge `{Countable K} {A} (f : A -> nat) (m : gmap K A) (k : K) c :
  m !! k = Some c -> (f c <= map_fold (fun _ c d => Nat.max (f c) d) 0 m)%nat.
Proof.
  revert k c. induction m as [|j x m Hj Hfold IH] using map_first_key_ind; intros k c; [by rewrite lookup_empty|].
  rewrite map_fold_insert_first_key by done. rewrite lookup_insert_Some. intros [[<- <-]|[_ Hk]]; [lia|].
  specialize (IH k c Hk). lia.
Qed.

Lemma foldr_max_ge {A} (f : A -> nat) (l : list A) x :
  x ∈ l -> (f x <= foldr (fun i d => Nat.max (f i) d) 0 l)%nat.
Proof. induction 1; cbn; lia. Qed.

Lemma list_filter_ext_in {A} (P Q : A -> Prop) `{forall x, Decision (P x), forall x, Decision (Q x)} (l : list A) :
  (forall x, x ∈ l -> P x <-> Q x) -> filter P l = filter Q l.
Proof.
  induction l as [|x l IH]; intros Heq; [done|]. rewrite !filter_cons.
  rewrite IH by (intros y Hy; apply Heq; by right). pose proof (Heq x ltac:(left)).
  repeat case_decide; (done || tauto).
Qed.

Lemma list_filter_none {A} (P : A -> Prop) `{forall x, Decision (P x)} (l : list A) : (forall x, x ∈ l -> ~ P x) -> filter P l = [].
Proof. intros Hl. induction l as [|x l IH]; [done|]. rewrite filter_cons_False by (apply Hl; by left). apply IH. intros y Hy. apply Hl. by right. Qed.

Lemma sublist_elem_of {A} (l m : list A) x : sublist l m -> x ∈ l -> x ∈ m.
Proof. induction 1 as [|y l m _ IH|y l m _ IH]; [done| |by right; apply IH]. intros [->|Hx]%elem_of_cons; [by left|right; by apply IH]. Qed.

Lemma Forall2_elem_of_l {A B} (R : A -> B -> Prop) l m x : Forall2 R l m -> x ∈ l -> exists y, y ∈ m /\ R x y.
Proof. induction 1 as [|a b l m Hab _ IH]; [by intros ?%not_elem_of_nil|]. intros [->|Hx]%elem_of_cons; [exists b; split; [by left|done]|]. destruct (IH Hx) as (y & ? & ?). exists y. split; [by right|done]. Qed.

Lemma Forall2_elem_of_r {A B} (R : A -> B -> Prop) l m y : Forall2 R l m -> y ∈ m -> exists x, x ∈ l /\ R x y.
Proof. induction 1 as [|a b l m Hab _ IH]; [by intros ?%not_elem_of_nil|]. intros [->|Hy]%elem_of_cons; [exists a; split; [by left|done]|]. destruct (IH Hy) as (x & ? & ?). exists x. split; [by right|done]. Qed.

Lemma list_filter_all {A} (P : A -> Prop) `{forall x, Decision (P x)} (l : list A) : (forall x, x ∈ l -> P x) -> filter P l = l.
Proof. intros Hl. induction l as [|x l IH]; [done|]. rewrite filter_cons_True by (apply Hl; by left). f_equal. apply IH. intros y Hy. apply Hl. by right. Qed.

(** [v.sort_by(cmp)], which is stable. *)
Fixpoint insert_by {A} (cmp : A -> A -> comparison) (x : A) (l : list A) : list A :=
  match l with
  | [] => [x]
  | y :: l' => match cmp x y with Gt => y :: insert_by cmp x l' | _ => x :: l end
  end.

Definition sort_by {A} (cmp : A -> A -> comparison) (l : list A) : list A := foldr (insert_by cmp) [] l.

(** [v.dedup()], with the [==] of the elements. *)
Fixpoint dedup_from {A} (eq : A -> A -> bool) (kept : A) (l : list A) : list A :=
  match l with
  | [] => []
  | x :: l => if eq x kept then dedup_from eq kept l else x :: dedup_from eq x l
  end.

Definition dedup {A} (eq : A -> A -> bool) (l : list A) : list A := match l with [] => [] | x :: l => x :: dedup_from eq x l end.

Lemma take_insert_by {A} (cmp : A -> A -> comparison) n c l : take n (insert_by cmp c l) = take n (insert_by cmp c (take n l)).
Proof.
  revert n. induction l as [|x l IH]; intros [|n]; [done|done|done|]. cbn [insert_by take]. destruct (cmp c x); cbn [take]; try (f_equal; destruct n; [done|]; cbn [take]; f_equal; rewrite take_take; f_equal; lia).
  f_equal. apply IH.
Qed.

Section sort_by.
Context {A : Type} (cmp : A -> A -> comparison).

Lemma insert_by_perm x l : insert_by cmp x l ≡ₚ x :: l.
Proof. induction l as [|y l IH]; [done|]. cbn. destruct (cmp x y); [done..|]. rewrite IH. apply Permutation_swap. Qed.

Lemma sort_by_perm l : sort_by cmp l ≡ₚ l.
Proof. induction l as [|x l IH]; [done|]. cbn. by rewrite insert_by_perm, IH. Qed.

(** Sorted input stays as it is. *)
Lemma sort_by_sorted l : StronglySorted (fun x y => cmp x y <> Gt) l -> sort_by cmp l = l.
Proof.
  induction 1 as [|x l Hl IH Hx]; [done|]. cbn. fold (sort_by cmp l). rewrite IH. destruct l as [|y l]; [done|]. cbn.
  apply Forall_cons in Hx as [Hxy _]. by destruct (cmp x y).
Qed.

Context (P : A -> Prop) (Hopp : forall x y, P x -> P y -> cmp x y = Gt -> cmp y x <> Gt)
  (Htrans : forall x y z, P x -> P y -> P z -> cmp x y <> Gt -> cmp y z <> Gt -> cmp x z <> Gt).

Lemma insert_by_sorted x l : P x -> Forall P l -> StronglySorted (fun x y => cmp x y <> Gt) l -> StronglySorted (fun x y => cmp x y <> Gt) (insert_by cmp x l).
Proof.
  intros Hx Hl. induction 1 as [|y l Hs IH Hy]; [by repeat constructor|]. apply Forall_cons in Hl as [HPy HPl]. cbn.
  assert (Hup : cmp x y <> Gt -> StronglySorted (fun x y => cmp x y <> Gt) (x :: y :: l)).
  { intros Hxy. constructor; [by constructor|]. constructor; [done|]. rewrite Forall_forall in Hy, HPl |- *. intros z Hz. by eapply (Htrans x y z); auto. }
  destruct (cmp x y) eqn:Hxy; [by apply Hup..|]. constructor; [by apply IH|].
  rewrite Forall_forall in Hy |- *. intros z Hz. rewrite insert_by_perm in Hz. apply elem_of_cons in Hz as [->|Hz]; [by apply Hopp|by apply Hy].
Qed.

Lemma sort_by_strongly l : Forall P l -> StronglySorted (fun x y => cmp x y <> Gt) (sort_by cmp l).
Proof.
  induction 1 as [|x l Hx Hl IH]; [constructor|]. cbn [sort_by foldr]. fold (sort_by cmp l). apply insert_by_sorted; [done| |done].
  rewrite Forall_forall in Hl |- *. intros y Hy. rewrite sort_by_perm in Hy. by apply Hl.
Qed.

End sort_by.

(** ** Bytes and decimal text

    A Rust [&str] is its UTF-8 bytes; a byte is a [Z] in [0, 256). *)

Definition ch (c : ascii) : Z := Z.of_N (N_of_ascii c).
Arguments ch c%_char_scope.

Definition bytes_of (s : string) : list Z := map ch (String.list_ascii_of_string s).

Definition string_of (l : list Z) : string :=
  String.string_of_list_ascii (map (fun b => ascii_of_N (Z.to_N b)) l).

Definition is_ascii_digit (b : Z) : bool := (ch "0" <=? b) && (b <=? ch "9").
Definition is_ascii_uppercase (b : Z) : bool := (ch "A" <=? b) && (b <=? ch "Z").
Definition is_ascii_lowercase (b : Z) : bool := (ch "a" <=? b) && (b <=? ch "z").
Definition is_ascii_alphanumeric (b : Z) : bool :=
  is_ascii_digit b || is_ascii_uppercase b || is_ascii_lowercase b.

(** [iter().position(p)] *)
Fixpoint position (p : Z -> bool) (l : list Z) : option nat :=
  match l with
  | [] => None
  | b :: l => if p b then Some 0%nat else S <$> position p l
  end.

(** [s.starts_with(p)], [s.ends_with(p)] and [s.contains(b)]. *)
Definition starts_with (p l : list Z) : bool := bool_decide (p `prefix_of` l).
Definition ends_with (p l : list Z) : bool := bool_decide (p `suffix_of` l).
Definition contains_byte (b : Z) (l : list Z) : bool := existsb (Z.eqb b) l.

(** [n.to_string()] of a non-negative integer, as digits, least significant
    digit last. *)
Fixpoint dec_aux (fuel : nat) (n : Z) (acc : list Z) : list Z :=
  match fuel with
  | O => acc
  | S fuel =>
      let acc := (48 + n mod 10) :: acc in
      if n <? 10 then acc else dec_aux fuel (n / 10) acc
  end.
Definition decimal (n : Z) : list Z := dec_aux (S (Z.to_nat (Z.log2 n))) n [].

(** [format!("{n:0w$}")] of a non-negative integer. *)
Definition decimal_pad (w : nat) (n : Z) : list Z :=
  let d := decimal n in replicate (w - length d) 48 ++ d.

Definition dec_step (v b : Z) : Z := v * 10 + (b - 48).
Definition dec_value (l : list Z) : Z := fold_left dec_step l 0.

Definition digits_ok (l : list Z) : Prop := Forall (fun b => 48 <= b <= 57) l.

Lemma ch_range c : 0 <= ch c < 256.
Proof. unfold ch. pose proof (N_ascii_bounded c). lia. Qed.

Lemma bytes_of_string_of l :
  Forall (fun b => 0 <= b < 256) l -> bytes_of (string_of l) = l.
Proof.
  unfold bytes_of, string_of. intros Hl.
  rewrite String.list_ascii_of_string_of_list_ascii, map_map.
  induction Hl as [|b l Hb Hl IH]; simpl; [done|].
  f_equal; [|done]. unfold ch. rewrite N_ascii_embedding by lia. lia.
Qed.

Lemma string_of_bytes_of s : string_of (bytes_of s) = s.
Proof.
  unfold bytes_of, string_of. rewrite map_map.
  rewrite <- (String.string_of_list_ascii_of_string s) at 2. f_equal.
  induction (String.list_ascii_of_string s) as [|c l IH]; simpl; [done|].
  f_equal; [|done]. unfold ch. by rewrite N2Z.id, ascii_N_embedding.
Qed.

Lemma bytes_of_app s t : bytes_of (s +:+ t) = bytes_of s ++ bytes_of t.
Proof.
  unfold bytes_of. rewrite <- map_app. f_equal.
  induction s as [|c s IH]; [done|]. 
  change (String c s +:+ t) with (String c (s +:+ t)). cbn. by rewrite IH.
Qed.

Lemma digits_ok_bytes l : digits_ok l -> Forall (fun b => 0 <= b < 256) l.
Proof. intros H. eapply Forall_impl; [exact H|]. simpl. lia. Qed.

Lemma is_ascii_digit_spec b : is_ascii_digit b = true <-> 48 <= b <= 57.
Proof. unfold is_ascii_digit, ch; simpl. lia. Qed.

Lemma fold_dec_app l m v : fold_left dec_step (l ++ m) v = fold_left dec_step m (fold_left dec_step l v).
Proof. apply fold_left_app. Qed.

Lemma fold_dec_shift l v :
  fold_left dec_step l v = v * 10 ^ Z.of_nat (length l) + dec_value l.
Proof.
  unfold dec_value. revert v.
  induction l as [|b l IH]; intros v; [simpl; lia|].
  cbn [fold_left length]. rewrite IH, (IH (dec_step 0 b)), Nat2Z.inj_succ, Z.pow_succ_r by lia.
  unfold dec_step. ring.
Qed.

Lemma dec_aux_value fuel n acc :
  0 <= n < 2 ^ Z.of_nat fuel ->
  dec_value (dec_aux fuel n acc) = n * 10 ^ Z.of_nat (length acc) + dec_value acc /\
  (digits_ok acc -> digits_ok (dec_aux fuel n acc)).
Proof.
  revert n acc. induction fuel as [|fuel IH]; intros n acc Hn.
  - replace n with 0 by (change (2 ^ Z.of_nat 0) with 1 in Hn; lia). simpl. auto with lia.
  - rewrite Nat2Z.inj_succ, Z.pow_succ_r in Hn by lia. cbn [dec_aux].
    assert (Hd : 0 <= n mod 10 < 10) by (apply Z.mod_pos_bound; lia).
    assert (Hone : dec_value ((48 + n mod 10) :: acc) =
              (n mod 10) * 10 ^ Z.of_nat (length acc) + dec_value acc).
    { unfold dec_value at 1. cbn [fold_left]. rewrite fold_dec_shift. unfold dec_step. ring. }
    destruct (Z.ltb_spec n 10).
    + split; [|intros; by constructor; [lia|]].
      rewrite Hone, Z.mod_small by lia. done.
    + destruct (IH (n / 10) ((48 + n mod 10) :: acc)) as [IHv IHd].
      { split; [apply Z.div_pos; lia|]. apply Z.div_lt_upper_bound; lia. }
      split; [|intros; apply IHd; by constructor; [lia|]].
      rewrite IHv, Hone. cbn [length]. rewrite Nat2Z.inj_succ, Z.pow_succ_r by lia.
      rewrite (Z.div_mod n 10) at 3 by lia. ring.
Qed.

Lemma log2_fuel n : 0 <= n -> 0 <= n < 2 ^ Z.of_nat (S (Z.to_nat (Z.log2 n))).
Proof.
  intros Hn. rewrite Nat2Z.inj_succ, Z2Nat.id by apply Z.log2_nonneg.
  split; [done|]. destruct (decide (n = 0)) as [->|]; [done|].
  apply Z.log2_spec. lia.
Qed.

Lemma decimal_value n : 0 <= n -> dec_value (decimal n) = n.
Proof.
  intros Hn. unfold decimal. destruct (dec_aux_value _ _ [] (log2_fuel n Hn)) as [-> _].
  unfold dec_value. simpl. lia.
Qed.

Lemma decimal_digits n : 0 <= n -> digits_ok (decimal n).
Proof.
  intros Hn. unfold decimal. destruct (dec_aux_value _ _ [] (log2_fuel n Hn)) as [_ H].
  apply H. constructor.
Qed.

Lemma dec_aux_length fuel n acc (w : nat) :
  0 <= n < 10 ^ Z.of_nat w -> (1 <= w)%nat ->
  (length (dec_aux fuel n acc) <= w + length acc)%nat.
Proof.
  revert n acc w. induction fuel as [|fuel IH]; intros n acc w Hn Hw; simpl; [lia|].
  destruct (Z.ltb_spec n 10); [simpl; lia|].
  destruct w as [|[|w]]; [lia| |].
  - change (10 ^ Z.of_nat 1) with 10 in Hn. lia.
  - rewrite Nat2Z.inj_succ, Z.pow_succ_r in Hn by lia.
    specialize (IH (n / 10) ((48 + n mod 10) :: acc) (S w)). simpl in IH.
    etransitivity; [apply IH; [|lia]|lia].
    split; [apply Z.div_pos; lia|]. apply Z.div_lt_upper_bound; lia.
Qed.

Lemma dec_value_replicate0 k l : dec_value (replicate k 48 ++ l) = dec_value l.
Proof.
  unfold dec_value. rewrite fold_dec_app. f_equal.
  induction k; simpl; [done|]. unfold dec_step at 2. done.
Qed.

Lemma decimal_pad_spec (w : nat) n :
  0 <= n < 10 ^ Z.of_nat w -> (1 <= w)%nat ->
  dec_value (decimal_pad w n) = n /\ length (decimal_pad w n) = w /\ digits_ok (decimal_pad w n).
Proof.
  intros Hn Hw. unfold decimal_pad.
  rewrite dec_value_replicate0, length_app, length_replicate, decimal_value by lia.
  pose proof (dec_aux_length (S (Z.to_nat (Z.log2 n))) n [] w Hn Hw) as Hlen.
  change (dec_aux (S (Z.to_nat (Z.log2 n))) n []) with (decimal n) in Hlen.
  change (length (@nil Z)) with 0%nat in Hlen.
  split_and!; [done|lia|]. apply Forall_app. split; [|apply decimal_digits; lia].
  apply Forall_replicate. lia.
Qed.

Lemma dec_value_bound l :
  digits_ok l -> 0 <= dec_value l < 10 ^ Z.of_nat (length l).
Proof.
  induction l as [|b l IH] using rev_ind; intros Hl; [done|].
  apply Forall_app in Hl as [Hl Hb]. apply Forall_cons in Hb as [Hb _].
  unfold dec_value in *. rewrite fold_dec_app, length_app, Nat2Z.inj_add, Z.pow_add_r by lia.
  change (10 ^ Z.of_nat (length [b])) with 10. cbn [fold_left]. unfold dec_step at 1.
  unfold dec_step at 2. specialize (IH Hl). lia.
Qed.

(** ** Integer lemmas *)

(** Unfolds the bounds of the integer types. *)
Ltac int_simpl :=
  unfold fits, usize, u8, u16, u32, u64, u128, i32, i64, i128 in *; cbn [int_min int_max] in *.
Ltac int_lia := int_simpl; lia.

Lemma wrapping_id t z : fits t z -> wrapping t z = z.
Proof. unfold fits, wrapping. intros. rewrite Z.mod_small; lia. Qed.

Lemma checked_Some t z v : checked t z = Some v <-> v = z /\ fits t z.
Proof. unfold checked. case_decide; intuition congruence. Qed.

Lemma checked_None t z : checked t z = None <-> ~ fits t z.
Proof. unfold checked. case_decide; intuition congruence. Qed.

Lemma saturating_id t z : fits t z -> saturating t z = z.
Proof. unfold fits, saturating. lia. Qed.

Lemma saturating_fits t z : int_min t <= int_max t -> fits t (saturating t z).
Proof. unfold fits, saturating. lia. Qed.

(** ** Reasoning about the state monad *)

Section wp.
Context {S E : Type}.

Lemma wp_bind {A B} (m : PM S E A) (f : A -> PM S E B) Q s :
  wp m (fun r s' => match r with Ok a => wp (f a) Q s' | Err e => Q (Err e) s' end) s -> wp (p_bind m f) Q s.
Proof. unfold wp, p_bind. by destruct (m s) as [[[a|e] s']|]. Qed.

Lemma wp_mono {A} (m : PM S E A) (Q Q' : result A E -> S -> Prop) s : (forall r s', Q r s' -> Q' r s') -> wp m Q s -> wp m Q' s.
Proof. unfold wp. destruct (m s) as [[r s']|]; auto. Qed.

Lemma wp_and {A} (m : PM S E A) (P Q : result A E -> S -> Prop) s : wp m P s -> wp m Q s -> wp m (fun r s' => P r s' /\ Q r s') s.
Proof. unfold wp. by destruct (m s) as [[r s']|]. Qed.

Lemma wp_trace {A} (m : PM S E A) (P Q : result A E -> S -> Prop) s :
  wp m P s -> (forall r s', m s = Some (r, s') -> P r s' -> Q r s') -> wp m Q s.
Proof. unfold wp. destruct (m s) as [[r s']|]; auto. Qed.

Lemma wp_found {A} (o : option A) (e : E) (Q : result A E -> S -> Prop) s :
  (forall a, o = Some a -> Q (Ok a) s) -> (o = None -> Q (Err e) s) -> wp (found o e) Q s.
Proof. destruct o; cbn; auto. Qed.

Lemma wp_refuse (b : bool) (e : E) (Q : result unit E -> S -> Prop) s :
  (b = true -> Q (Err e) s) -> (b = false -> Q (Ok tt) s) -> wp (refuse b e) Q s.
Proof. destruct b; cbn; auto. Qed.

Lemma wp_unwrap {A} (o : option A) (a : A) (Q : result A E -> S -> Prop) s : o = Some a -> Q (Ok a) s -> wp (unwrap o) Q s.
Proof. intros ->. done. Qed.

Lemma wp_attempt {A} (m : PM S E A) (Q : result (result A E) E -> S -> Prop) s : wp m (fun r => Q (Ok r)) s -> wp (attempt m) Q s.
Proof. unfold wp, attempt. by destruct (m s) as [[r s']|]. Qed.

Lemma wp_run {A} (m : PM S E A) Q s : wp m Q s <-> exists r s', m s = Some (r, s') /\ Q r s'.
Proof.
  unfold wp. split; [|by intros (r & s' & -> & H)]. destruct (m s) as [[r s']|]; [by exists r, s'|done].
Qed.

Section steps.
Context {A B : Type} (Q : result B E -> S -> Prop) (f : A -> PM S E B) (s : S).

Lemma wp_gets (g : S -> A) : wp (f (g s)) Q s -> wp (p_bind (gets g) f) Q s.
Proof. done. Qed.

Lemma wp_lift (r : result A E) : (forall a, r = Ok a -> wp (f a) Q s) -> (forall e, r = Err e -> Q (Err e) s) -> wp (p_bind (p_lift r) f) Q s.
Proof. intros H1 H2. destruct r; [by apply H1|by apply H2]. Qed.

Lemma wp_find (o : option A) (e : E) :
  (forall a, o = Some a -> wp (f a) Q s) -> (o = None -> Q (Err e) s) -> wp (p_bind (found o e) f) Q s.
Proof. intros H1 H2. destruct o; [by apply H1|by apply H2]. Qed.

Lemma wp_expect (o : option A) (a : A) : o = Some a -> wp (f a) Q s -> wp (p_bind (unwrap o) f) Q s.
Proof. by intros ->. Qed.
End steps.

Lemma wp_modify {B} (Q : result B E -> S -> Prop) (f : unit -> PM S E B) (g : S -> S) s : wp (f tt) Q (g s) -> wp (p_bind (modify g) f) Q s.
Proof. done. Qed.

Lemma wp_check {B} (Q : result B E -> S -> Prop) (f : unit -> PM S E B) (b : bool) (e : E) s :
  (b = true -> Q (Err e) s) -> (b = false -> wp (f tt) Q s) -> wp (p_bind (refuse b e) f) Q s.
Proof. intros H1 H2. destruct b; [by apply H1|by apply H2]. Qed.

(** A loop keeps an invariant that every step keeps, errors included. *)
Lemma wp_each {A} (f : A -> PM S E unit) (l : list A) (I : S -> Prop) s :
  (forall x s, x ∈ l -> I s -> wp (f x) (fun _ s' => I s') s) -> I s -> wp (p_each f l) (fun _ s' => I s') s.
Proof.
  revert s. induction l as [|x l IH]; intros s Hf Hs; [done|]. cbn [p_each]. apply wp_bind.
  eapply wp_mono; [|apply Hf; [by left|done]]. intros [[]|e] s' Hs'; [|done]. apply IH; [|done].
  intros y s0 Hy. apply Hf. by right.
Qed.
End wp.

(** One step of a method; the error branches that the context settles are closed. *)
Ltac wp_step_with tac :=
  cbv beta zeta;
  lazymatch goal with
  | |- wp (p_bind (gets _) _) _ _ => apply wp_gets
  | |- wp (p_bind (modify _) _) _ _ => apply wp_modify
  | |- wp (p_bind (p_lift _) _) _ _ => apply wp_lift; [intros ? ?|intros ? ?; try solve [tac]]
  | |- wp (p_bind (found _ _) _) _ _ => apply wp_find; [intros ? ?|intros ?; try solve [tac]]
  | |- wp (p_bind (refuse _ _) _) _ _ => apply wp_check; [intros ?; try solve [tac]|intros ?]
  end.
Ltac wp_steps := repeat (wp_step_with ltac:(assumption)).

Lemma st_bind_Ok {S E A B} (m : M S E A) (f : A -> M S E B) s a s' :
  m s = (Ok a, s') -> st_bind m f s = f a s'.
Proof. unfold st_bind. by intros ->. Qed.

Lemma st_bind_Err {S E A B} (m : M S E A) (f : A -> M S E B) s e s' :
  m s = (Err e, s') -> st_bind m f s = (Err e, s').
Proof. unfold st_bind. by intros ->. Qed.

Lemma st_bind_inv_Ok {S E A B} (m : M S E A) (f : A -> M S E B) s b s'' :
  st_bind m f s = (Ok b, s'') -> exists a s', m s = (Ok a, s') /\ f a s' = (Ok b, s'').
Proof. unfold st_bind. destruct (m s) as [[a|e] s']; naive_solver. Qed.

(** ** Words

    Bit operations on 64-bit words: [shl] drops the bits that leave the word,
    as Rust's [<<] does. *)

Definition wrap64 (z : Z) : Z := z mod 2 ^ 64.
Definition is_u64 (z : Z) : Prop := 0 <= z < 2 ^ 64.
Definition rotate_left64 (z k : Z) : Z := Z.lor (wrap64 (Z.shiftl z k)) (Z.shiftr z (64 - k)).

Lemma wrapping_u64 z : wrapping u64 z = wrap64 z.
Proof. unfold wrapping, wrap64, u64; cbn [int_min int_max]. rewrite Z.sub_0_r. f_equal. Qed.

Lemma wrap64_range z : is_u64 (wrap64 z).
Proof. apply Z.mod_pos_bound. lia. Qed.

Lemma wrap64_id z : is_u64 z -> wrap64 z = z.
Proof. apply Z.mod_small. Qed.

(** A word is below [2 ^ n] when no bit from [n] up is set. *)
Lemma below_pow2_bits n z :
  0 <= n -> 0 <= z -> (z < 2 ^ n <-> forall i, n <= i -> Z.testbit z i = false).
Proof.
  intros Hn Hz. split.
  - intros Hlt i Hi. destruct (decide (z = 0)) as [->|]; [apply Z.bits_0|].
    apply Z.bits_above_log2; [done|].
    apply Z.lt_le_trans with n; [|done]. apply Z.log2_lt_pow2; lia.
  - intros Hbits. destruct (decide (z = 0)) as [->|]; [apply Z.pow_pos_nonneg; lia|].
    apply Z.log2_lt_pow2; [lia|]. destruct (decide (Z.log2 z < n)); [done|].
    specialize (Hbits (Z.log2 z) ltac:(lia)). rewrite Z.bit_log2 in Hbits; [done|lia].
Qed.

Lemma lxor_u64 a b : is_u64 a -> is_u64 b -> is_u64 (Z.lxor a b).
Proof.
  intros [Ha Ha'] [Hb Hb']. assert (0 <= Z.lxor a b) by (apply Z.lxor_nonneg; lia).
  split; [done|]. apply below_pow2_bits; [lia|done|]. intros i Hi. rewrite Z.lxor_spec.
  by rewrite (proj1 (below_pow2_bits 64 a ltac:(lia) Ha) Ha'),
    (proj1 (below_pow2_bits 64 b ltac:(lia) Hb) Hb').
Qed.

Lemma shiftr_u64 a k : is_u64 a -> 0 <= k -> is_u64 (Z.shiftr a k).
Proof.
  intros [Ha Ha'] Hk. rewrite Z.shiftr_div_pow2 by done.
  assert (0 < 2 ^ k) by (apply Z.pow_pos_nonneg; lia).
  split; [apply Z.div_pos; lia|]. apply Z.div_lt_upper_bound; [done|nia].
Qed.

(** What stays a 64-bit word. *)
Create HintDb words.
#[export] Hint Resolve wrap64_range lxor_u64 : words.
#[export] Hint Extern 2 (is_u64 (Z.shiftr _ _)) => (apply shiftr_u64; [|lia]) : words.

(** [z ^ (z >> k)] loses nothing. *)
Lemma xorshift_inj k x y :
  0 < k -> 0 <= x -> 0 <= y ->
  Z.lxor x (Z.shiftr x k) = Z.lxor y (Z.shiftr y k) -> x = y.
Proof.
  intros Hk Hx Hy Heq.
  assert (Hd : Z.lxor x y = Z.shiftr (Z.lxor x y) k).
  { apply Z.lxor_eq. rewrite Z.shiftr_lxor.
    transitivity (Z.lxor (Z.lxor x (Z.shiftr x k)) (Z.lxor y (Z.shiftr y k))).
    - rewrite !Z.lxor_assoc. f_equal. rewrite <- !Z.lxor_assoc. f_equal. apply Z.lxor_comm.
    - by rewrite Heq, Z.lxor_nilpotent. }
  apply Z.lxor_eq. assert (0 <= Z.lxor x y) by (apply Z.lxor_nonneg; lia).
  rewrite Z.shiftr_div_pow2 in Hd by lia.
  assert (2 <= 2 ^ k) by (rewrite <- (Z.pow_1_r 2) at 1; apply Z.pow_le_mono_r; lia).
  destruct (decide (Z.lxor x y = 0)); [done|].
  pose proof (Z.div_lt (Z.lxor x y) (2 ^ k)). lia.
Qed.

(** Multiplication by an odd word loses nothing. *)
Lemma mul_wrap64_inj c cinv x y :
  wrap64 (c * cinv) = 1 -> is_u64 x -> is_u64 y ->
  wrap64 (x * c) = wrap64 (y * c) -> x = y.
Proof.
  unfold wrap64. intros Hc Hx Hy Heq.
  assert (Hred : forall z, is_u64 z -> ((z * c) mod 2 ^ 64 * cinv) mod 2 ^ 64 = z).
  { intros z Hz. rewrite Z.mul_mod_idemp_l, <- Z.mul_assoc, <- Z.mul_mod_idemp_r, Hc by lia.
    rewrite Z.mul_1_r. by apply Z.mod_small. }
  by rewrite <- (Hred x Hx), <- (Hred y Hy), Heq.
Qed.

(** ** Byte searches *)

Lemma position_Some p l i :
  position p l = Some i <->
  exists b, l !! i = Some b /\ p b = true /\ forall j b', (j < i)%nat -> l !! j = Some b' -> p b' = false.
Proof.
  revert i. induction l as [|b l IH]; intros i; cbn [position].
  - split; [done|]. by intros (? & ? & _).
  - destruct (p b) eqn:Hb; [split|].
    + intros [= <-]. exists b. split_and!; [done..|lia].
    + intros (b' & Hb' & Hp & Hlt). destruct i as [|i]; [done|].
      specialize (Hlt 0%nat b). rewrite Hlt in Hb; [done|lia|done].
    + rewrite fmap_Some. split.
      * intros (i' & (b' & Hl & Hp & Hlt)%IH & ->). exists b'. split_and!; [done..|].
        intros [|j] b'' Hj; [by intros [= <-]|]. apply Hlt. lia.
      * intros (b' & Hl & Hp & Hlt). destruct i as [|i]; [simplify_eq/=; congruence|].
        exists i. split; [|done]. apply IH. exists b'. split_and!; [done..|].
        intros j b'' Hj. apply (Hlt (S j)). lia.
Qed.

Lemma position_None p l : position p l = None <-> Forall (fun b => p b = false) l.
Proof.
  induction l as [|b l IH]; cbn [position]; [done|].
  destruct (p b) eqn:Hb; rewrite Forall_cons; [split; [done|]; intros [? _]; congruence|].
  rewrite fmap_None, IH. tauto.
Qed.
