(* ===== verification/Time.v ===== *)
(** * Logical time

    Models [crates/fireemu-core-types/src/time.rs]: [LogicalDuration] and
    [LogicalInstant] (nanoseconds in an [i128]), the proleptic Gregorian
    calendar.  The RFC 3339 text is in [Rfc3339.v].  A duration and an instant are
    the [Z] of their nanoseconds; arithmetic that can leave [i128] is [checked],
    as in the source.  The calendar functions are exact on [Z]: for a day count
    or a year that an instant, or a four digit year, can have, every
    intermediate value is far inside its type. *)
From S2P Require Import Prelude.

(** ** LogicalDuration *)

Definition LogicalDuration := Z.

Definition dur_from_millis (millis : Z) : LogicalDuration := millis * 1000000.
Definition dur_from_seconds (seconds : Z) : LogicalDuration := seconds * 1000000000.
Definition dur_as_millis (d : LogicalDuration) : Z := Z.quot d 1000000.
Definition dur_as_seconds (d : LogicalDuration) : Z := Z.quot d 1000000000.
Definition dur_is_positive (d : LogicalDuration) : bool := 0 <? d.
Definition dur_checked_add (a b : LogicalDuration) : option LogicalDuration := checked i128 (a + b).

(** ** LogicalInstant *)

Definition LogicalInstant := Z.

Definition UNIX_EPOCH : LogicalInstant := 0.
Definition inst_MAX : LogicalInstant := int_max i128.
Definition inst_MIN : LogicalInstant := int_min i128.
Definition from_unix_seconds (seconds : Z) : LogicalInstant := seconds * 1000000000.
Definition inst_checked_add (t : LogicalInstant) (d : LogicalDuration) : option LogicalInstant :=
  checked i128 (t + d).
Definition checked_duration_since (t earlier : LogicalInstant) : option LogicalDuration :=
  checked i128 (t - earlier).

(** ** The calendar *)

Definition days_from_civil (year month day : Z) : Z :=
  let year := if month <=? 2 then year - 1 else year in
  let era := year / 400 in
  let year_of_era := year mod 400 in
  let month_prime := Z.rem (month + 9) 12 in
  let day_of_year := Z.quot (153 * month_prime + 2) 5 + day - 1 in
  let day_of_era :=
    year_of_era * 365 + Z.quot year_of_era 4 - Z.quot year_of_era 100 + day_of_year in
  era * 146097 + day_of_era - 719468.

Definition civil_from_days_wide (days : Z) : Z * Z * Z :=
  let days := days + 719468 in
  let era := days / 146097 in
  let day_of_era := days mod 146097 in
  let year_of_era :=
    Z.quot (day_of_era - Z.quot day_of_era 1460 + Z.quot day_of_era 36524
            - Z.quot day_of_era 146096) 365 in
  let year := year_of_era + era * 400 in
  let day_of_year :=
    day_of_era - (365 * year_of_era + Z.quot year_of_era 4 - Z.quot year_of_era 100) in
  let month_prime := Z.quot (5 * day_of_year + 2) 153 in
  let day := day_of_year - Z.quot (153 * month_prime + 2) 5 + 1 in
  let month := if month_prime <? 10 then month_prime + 3 else month_prime - 9 in
  (if month <=? 2 then year + 1 else year, month, day).

Definition civil_from_days (days : Z) : Z * Z * Z :=
  let '(year, month, day) := civil_from_days_wide days in
  (default (if year <? 0 then int_min i64 else int_max i64) (checked i64 year),
   default 1 (checked i64 month),
   default 1 (checked i64 day)).

Definition is_leap (y : Z) : bool :=
  ((Z.rem y 4 =? 0) && negb (Z.rem y 100 =? 0)) || (Z.rem y 400 =? 0).

Definition days_in_month (y m : Z) : Z :=
  if (m =? 1) || (m =? 3) || (m =? 5) || (m =? 7) || (m =? 8) || (m =? 10) || (m =? 12) then 31
  else if (m =? 4) || (m =? 6) || (m =? 9) || (m =? 11) then 30
  else if m =? 2 then if is_leap y then 29 else 28
  else 0.

(** ** Calendar lemmas *)

Definition valid_date (y m d : Z) : Prop := 1 <= m <= 12 /\ 1 <= d <= days_in_month y m.

(** Gregorian leap years, with the floor modulus. *)
Definition leap_spec (y : Z) : Prop := (y mod 4 = 0 /\ y mod 100 <> 0) \/ y mod 400 = 0.

(** The year of an era that [civil_from_days_wide] reads off a day of the era. *)
Definition yoe_of (doe : Z) : Z :=
  Z.quot (doe - Z.quot doe 1460 + Z.quot doe 36524 - Z.quot doe 146096) 365.
Definition era_days (yoe : Z) : Z := 365 * yoe + Z.quot yoe 4 - Z.quot yoe 100.

Section calendar.
Ltac Zify.zify_post_hook ::= Z.to_euclidean_division_equations.

Lemma yoe_range doe :
  0 <= doe < 146097 -> 0 <= yoe_of doe < 400 /\ 0 <= doe - era_days (yoe_of doe) <= 365.
Proof. unfold yoe_of, era_days. lia. Qed.

Lemma leap_day doe :
  0 <= doe < 146097 -> doe - era_days (yoe_of doe) = 365 -> leap_spec (yoe_of doe + 1).
Proof. unfold yoe_of, era_days, leap_spec. lia. Qed.

Lemma yoe_unique yoe doy :
  0 <= yoe < 400 -> 0 <= doy <= 365 -> (doy = 365 -> leap_spec (yoe + 1)) ->
  0 <= era_days yoe + doy < 146097 /\ yoe_of (era_days yoe + doy) = yoe.
Proof. unfold yoe_of, era_days, leap_spec. intros. split; lia. Qed.

Lemma is_leap_spec y : is_leap y = true <-> leap_spec y.
Proof. unfold is_leap, leap_spec. lia. Qed.

Lemma leap_spec_era y e : leap_spec (y + e * 400) <-> leap_spec y.
Proof. unfold leap_spec. lia. Qed.

(** Months counted from March; [mp] is the month and [doy] the day of the year. *)
Lemma month_prime_range doy :
  0 <= doy <= 365 ->
  let mp := Z.quot (5 * doy + 2) 153 in
  0 <= mp <= 11 /\ 1 <= doy - Z.quot (153 * mp + 2) 5 + 1 <= 31.
Proof. cbn zeta. lia. Qed.

Lemma month_prime_unique mp d :
  0 <= mp <= 11 -> 1 <= d ->
  d <= (if decide (mp = 1 \/ mp = 3 \/ mp = 6 \/ mp = 8) then 30 else 31) ->
  (mp = 11 -> d <= 29) ->
  let doy := Z.quot (153 * mp + 2) 5 + d - 1 in
  Z.quot (5 * doy + 2) 153 = mp /\ 0 <= doy <= 365 /\ (doy = 365 -> mp = 11 /\ d = 29).
Proof. cbn zeta. case_decide; lia. Qed.

Lemma month_length doy :
  0 <= doy <= 365 ->
  let mp := Z.quot (5 * doy + 2) 153 in
  let d := doy - Z.quot (153 * mp + 2) 5 + 1 in
  d <= (if decide (mp = 1 \/ mp = 3 \/ mp = 6 \/ mp = 8) then 30 else 31) /\
  (mp = 11 -> d <= 29) /\ (mp = 11 -> d = 29 -> doy = 365).
Proof. cbn zeta. case_decide; lia. Qed.

Lemma valid_date_fields y m d : valid_date y m d -> 0 <= m < 100 /\ 0 <= d < 100.
Proof. unfold valid_date, days_in_month. intros [Hm Hd]. repeat case_match; lia. Qed.

(** The civil month and the year of a month counted from March. *)
Lemma civil_month y mp :
  0 <= mp <= 11 ->
  let m := if mp <? 10 then mp + 3 else mp - 9 in
  let y' := if m <=? 2 then y + 1 else y in
  1 <= m <= 12 /\ Z.rem (m + 9) 12 = mp /\ (if m <=? 2 then y' - 1 else y') = y /\
  days_in_month y' m =
    (if decide (mp = 11) then (if is_leap (y + 1) then 29 else 28)
     else if decide (mp = 1 \/ mp = 3 \/ mp = 6 \/ mp = 8) then 30 else 31).
Proof.
  intros Hmp.
  assert (mp = 0 \/ mp = 1 \/ mp = 2 \/ mp = 3 \/ mp = 4 \/ mp = 5 \/ mp = 6 \/ mp = 7 \/
          mp = 8 \/ mp = 9 \/ mp = 10 \/ mp = 11) as Hcases by lia.
  repeat destruct Hcases as [->|Hcases]; [..|subst mp]; cbn -[is_leap];
    split_and!; try (done || lia); rewrite (proj2 (Z.leb_le _ 2)) by lia; lia.
Qed.

Lemma month_prime_of m :
  1 <= m <= 12 ->
  let mp := Z.rem (m + 9) 12 in
  0 <= mp <= 11 /\ (if mp <? 10 then mp + 3 else mp - 9) = m.
Proof. cbn zeta. intros. split; [lia|]. case_match; lia. Qed.
End calendar.

Lemma days_from_civil_eq y m d :
  let y' := if m <=? 2 then y - 1 else y in
  days_from_civil y m d =
    (y' / 400) * 146097 + (era_days (y' mod 400) + (Z.quot (153 * Z.rem (m + 9) 12 + 2) 5 + d - 1))
    - 719468.
Proof. unfold days_from_civil, era_days. lia. Qed.

Lemma civil_from_days_eq era yoe doy :
  0 <= yoe < 400 -> 0 <= doy <= 365 -> (doy = 365 -> leap_spec (yoe + 1)) ->
  civil_from_days_wide (era * 146097 + (era_days yoe + doy) - 719468) =
    let mp := Z.quot (5 * doy + 2) 153 in
    let m := if mp <? 10 then mp + 3 else mp - 9 in
    let y := yoe + era * 400 in
    (if m <=? 2 then y + 1 else y, m, doy - Z.quot (153 * mp + 2) 5 + 1).
Proof.
  intros Hy Hd Hl. destruct (yoe_unique yoe doy Hy Hd Hl) as [Hr Hu].
  unfold civil_from_days_wide.
  replace (era * 146097 + (era_days yoe + doy) - 719468 + 719468)
    with (era_days yoe + doy + era * 146097) by lia.
  rewrite Z.div_add, Z.mod_add, Z.div_small, Z.mod_small, Z.add_0_l by lia.
  fold (yoe_of (era_days yoe + doy)). rewrite Hu. cbn zeta. fold (era_days yoe).
  by replace (era_days yoe + doy - era_days yoe) with doy by lia.
Qed.

(** Every day count is an era, a year of the era and a day of that year. *)
Lemma day_decompose days :
  exists era yoe doy, 0 <= yoe < 400 /\ 0 <= doy <= 365 /\ (doy = 365 -> leap_spec (yoe + 1)) /\
    days = era * 146097 + (era_days yoe + doy) - 719468.
Proof.
  set (doe := (days + 719468) mod 146097).
  assert (Hdoe : 0 <= doe < 146097) by (apply Z.mod_pos_bound; lia).
  destruct (yoe_range doe Hdoe) as [Hy Hd].
  exists ((days + 719468) / 146097), (yoe_of doe), (doe - era_days (yoe_of doe)).
  split_and!; auto using leap_day; try lia.
  pose proof (Z.div_mod (days + 719468) 146097). lia.
Qed.

Lemma civil_round_trip_lemma days :
  let '(y, m, d) := civil_from_days_wide days in
  valid_date y m d /\ days_from_civil y m d = days.
Proof.
  destruct (day_decompose days) as (era & yoe & doy & Hy & Hd & Hl & ->).
  rewrite civil_from_days_eq by done. cbn zeta.
  destruct (month_prime_range doy Hd) as [Hmp Hday].
  destruct (month_length doy Hd) as (Hlen & H29 & H365).
  set (mp := Z.quot (5 * doy + 2) 153) in *. cbn zeta in *.
  destruct (civil_month (yoe + era * 400) mp Hmp) as (Hm & Hmp' & Hy' & Hdim). cbn zeta in *.
  set (m := if mp <? 10 then mp + 3 else mp - 9) in *.
  set (y' := if m <=? 2 then yoe + era * 400 + 1 else yoe + era * 400) in *.
  unfold valid_date. rewrite Hdim. split.
  - split; [done|]. split; [lia|]. case_decide; [|lia].
    destruct (is_leap _) eqn:Hleap; [auto|].
    destruct (decide (doy - Z.quot (153 * mp + 2) 5 + 1 = 29)); [|lia].
    exfalso. apply not_true_iff_false in Hleap. apply Hleap, is_leap_spec.
    replace (yoe + era * 400 + 1) with (yoe + 1 + era * 400) by lia.
    apply leap_spec_era, Hl. auto.
  - rewrite days_from_civil_eq. cbn zeta. rewrite Hy', Hmp'.
    rewrite Z.div_add, Z.mod_add, Z.div_small, Z.mod_small by lia. lia.
Qed.

Lemma civil_unique_lemma y m d :
  valid_date y m d -> civil_from_days_wide (days_from_civil y m d) = (y, m, d).
Proof.
  intros [Hm Hd]. rewrite days_from_civil_eq. cbn zeta.
  destruct (month_prime_of m Hm) as [Hmp Hmm].
  set (mp := Z.rem (m + 9) 12) in *. cbn zeta in Hmm.
  set (y0 := if m <=? 2 then y - 1 else y).
  assert (Hy0 : (if m <=? 2 then y0 + 1 else y0) = y) by (unfold y0; destruct (m <=? 2); lia).
  destruct (civil_month y0 mp Hmp) as (_ & _ & _ & Hdim). cbn zeta in Hdim.
  rewrite Hmm, Hy0 in Hdim. rewrite Hdim in Hd.
  assert (Hy0m : 0 <= y0 mod 400 < 400) by (apply Z.mod_pos_bound; lia).
  destruct (month_prime_unique mp d) as (Hu & Hdoy & H365); try lia.
  { repeat case_decide; try lia. destruct (is_leap _); lia. }
  { intros ->. rewrite decide_True in Hd by done. destruct (is_leap _); lia. }
  rewrite civil_from_days_eq; try done.
  - cbn zeta. rewrite Hu, Hmm.
    replace (y0 mod 400 + y0 / 400 * 400) with y0
      by (pose proof (Z.div_mod y0 400); lia).
    rewrite Hy0. f_equal. lia.
  - intros [-> ->]%H365. rewrite decide_True in Hd by done.
    destruct (is_leap (y0 + 1)) eqn:Hl; [|lia]. apply is_leap_spec in Hl.
    apply (leap_spec_era _ (y0 / 400)).
    by replace (y0 mod 400 + 1 + y0 / 400 * 400) with (y0 + 1)
      by (pose proof (Z.div_mod y0 400); lia).
Qed.

Section years.
Ltac Zify.zify_post_hook ::= Z.to_euclidean_division_equations.

(** The first day of a year. *)
Lemma year_start y :
  days_from_civil y 1 1 = 365 * y + (y - 1) / 4 - (y - 1) / 100 + (y - 1) / 400 - 719527.
Proof.
  unfold days_from_civil. cbn -[Z.div Z.modulo Z.mul Z.add Z.sub Z.quot]. lia.
Qed.

Lemma year_start_mono x y : x <= y -> days_from_civil x 1 1 <= days_from_civil y 1 1.
Proof. intros. rewrite !year_start. lia. Qed.

(** A date lies inside its year. *)
Lemma date_in_year y m d :
  valid_date y m d -> days_from_civil y 1 1 <= days_from_civil y m d < days_from_civil (y + 1) 1 1.
Proof.
  intros [Hm Hd]. rewrite (days_from_civil_eq y m d), !year_start.
  replace (y + 1 - 1) with y by lia. unfold era_days.
  assert (Hc : m = 1 \/ m = 2 \/ m = 3 \/ m = 4 \/ m = 5 \/ m = 6 \/ m = 7 \/ m = 8 \/
               m = 9 \/ m = 10 \/ m = 11 \/ m = 12) by lia.
  repeat destruct Hc as [->|Hc]; [..|subst m];
    cbn -[Z.div Z.modulo Z.mul Z.add Z.sub Z.quot is_leap] in *;
    try destruct (is_leap y); lia.
Qed.
End years.

Lemma civil_year_range lo hi days :
  let '(y, _, _) := civil_from_days_wide days in
  lo <= y <= hi <-> days_from_civil lo 1 1 <= days < days_from_civil (hi + 1) 1 1.
Proof.
  pose proof (civil_round_trip_lemma days) as H.
  destruct (civil_from_days_wide days) as [[y m] d]. destruct H as [Hv <-].
  pose proof (date_in_year _ _ _ Hv) as [H1 H2]. split; intros [Hlo Hhi].
  - pose proof (year_start_mono lo y Hlo).
    pose proof (year_start_mono (y + 1) (hi + 1) ltac:(lia)). lia.
  - split.
    + destruct (decide (lo <= y)); [done|].
      pose proof (year_start_mono (y + 1) lo ltac:(lia)). lia.
    + destruct (decide (y <= hi)); [done|].
      pose proof (year_start_mono (hi + 1) y ltac:(lia)). lia.
Qed.

(** ** Properties *)

(** The day count and the civil date are inverse to each other: every day
    count gives a valid date (month 1 to 12, day inside the month, leap years
    included) whose day count is the one given, and every valid date is the one
    its day count gives. *)
Theorem civil_round_trip :
  (forall days, let '(y, m, d) := civil_from_days_wide days in
                valid_date y m d /\ days_from_civil y m d = days) /\
  (forall y m d, valid_date y m d -> civil_from_days_wide (days_from_civil y m d) = (y, m, d)).
Proof. split; [apply civil_round_trip_lemma|apply civil_unique_lemma]. Qed.

Example civil_epoch_ex : civil_from_days 0 = (1970, 1, 1).
Proof. reflexivity. Qed.

Example civil_leap_ex : civil_from_days_wide (days_from_civil 2024 2 29) = (2024, 2, 29).
Proof. reflexivity. Qed.
