(* ===== verification/Rfc3339.v ===== *)
(** * RFC 3339 text

    Models the module [rfc3339] of [crates/fireemu-core-types/src/time.rs]: the
    reader is a cursor over the bytes in the state monad, so an error carries the
    offset the cursor stands at; the printer writes nine fractional digits or
    none.  The main results are that the reader inverts the printer on every
    instant the printer accepts, and which instants those are. *)
From S2P Require Import Prelude Time.

(** ** RFC 3339 *)

Definition NANOS_PER_SEC : Z := 1000000000.
Definition SECS_PER_DAY : Z := 86400.

Record TimeParseError := { offset : Z; expected : string }.
Record TimeFormatError := { year : Z }.

(** The cursor of the reader. *)
Record Cursor := { bytes : list Z; pos : nat }.

Definition Read := M Cursor TimeParseError.

Definition cursor_err (c : Cursor) (e : string) : TimeParseError :=
  {| offset := Z.of_nat (pos c); expected := e |}.

Definition bump (c : Cursor) : Cursor := {| bytes := bytes c; pos := S (pos c) |}.

Definition peek (c : Cursor) : option Z := bytes c !! pos c.

Fixpoint digits_loop (n : nat) (e : string) (value : Z) : Read Z :=
  match n with
  | O => st_ret value
  | S n => fun c =>
      match peek c with
      | None => (Err (cursor_err c e), c)
      | Some b =>
          if negb (is_ascii_digit b) then (Err (cursor_err c e), c)
          else digits_loop n e (wrapping u32 (value * 10 + (b - ch "0"))) (bump c)
      end
  end.
Definition digits (n : nat) (e : string) : Read Z := digits_loop n e 0.

Definition expect (b : Z) (e : string) : Read unit := fun c =>
  match peek c with
  | Some b' => if b' =? b then (Ok tt, bump c) else (Err (cursor_err c e), c)
  | None => (Err (cursor_err c e), c)
  end.

(** The date and time separator. *)
Definition separator : Read unit := fun c =>
  match peek c with
  | Some b => if (b =? ch "T") || (b =? ch "t") then (Ok tt, bump c)
              else (Err (cursor_err c "'T' date-time separator"), c)
  | None => (Err (cursor_err c "'T' date-time separator"), c)
  end.

(** The [while let Some(b) = c.peek()] loop over the fraction.  [fuel] bounds
    its iterations: each one moves the cursor, so the bytes of the input are
    enough ([fraction_loop_read]). *)
Fixpoint fraction_loop (fuel : nat) (nanos scale : Z) : Read Z := fun c =>
  match fuel with
  | O => (Ok nanos, c)
  | S fuel =>
      match peek c with
      | None => (Ok nanos, c)
      | Some b =>
          if negb (is_ascii_digit b) then (Ok nanos, c)
          else if scale =? 0 then (Err (cursor_err c "at most nine fractional digits"), c)
          else fraction_loop fuel (nanos + (b - ch "0") * scale) (Z.quot scale 10) (bump c)
      end
  end.

Definition fraction : Read Z := fun c =>
  if bool_decide (peek c = Some (ch ".")) then
    let c := bump c in
    let start := pos c in
    match fraction_loop (S (length (bytes c))) 0 (Z.quot NANOS_PER_SEC 10) c with
    | (Err e, c) => (Err e, c)
    | (Ok nanos, c) =>
        if bool_decide (pos c = start) then (Err (cursor_err c "fractional digits after '.'"), c)
        else (Ok nanos, c)
    end
  else (Ok 0, c).

Definition zone_offset : Read Z := fun c =>
  match peek c with
  | None => (Err (cursor_err c "'Z' or numeric offset"), c)
  | Some sign =>
      if (sign =? ch "Z") || (sign =? ch "z") then (Ok 0, bump c)
      else if (sign =? ch "+") || (sign =? ch "-") then
        (let! oh := digits 2 "two-digit offset hour" in
         do! expect (ch ":") "':' in offset" in
         let! om := digits 2 "two-digit offset minute" in
         let! c := st_get in
         if (23 <? oh) || (59 <? om) then st_fail (cursor_err c "offset within +-23:59")
         else
           let secs := oh * 3600 + om * 60 in
           st_ret (if sign =? ch "+" then secs else - secs)) (bump c)
      else (Err (cursor_err c "'Z' or numeric offset"), c)
  end.

(** The range checks and the arithmetic after the text has been read. *)
Definition assemble (year month day hour minute second nanos offset_secs : Z)
    : result LogicalInstant TimeParseError :=
  if negb ((1 <=? month) && (month <=? 12)) then Err {| offset := 5; expected := "month 01-12" |}
  else if (day =? 0) || (days_in_month year month <? day) then
    Err {| offset := 8; expected := "valid day of month" |}
  else if 23 <? hour then Err {| offset := 11; expected := "hour 00-23" |}
  else if 59 <? minute then Err {| offset := 14; expected := "minute 00-59" |}
  else if 59 <? second then Err {| offset := 17; expected := "second 00-59" |}
  else
    let days := days_from_civil year month day in
    let local_secs := days * SECS_PER_DAY + hour * 3600 + minute * 60 + second in
    let utc_secs := local_secs - offset_secs in
    Ok (utc_secs * NANOS_PER_SEC + nanos).

Definition parse_read : Read LogicalInstant :=
  let! year := digits 4 "four-digit year" in
  do! expect (ch "-") "'-' after year" in
  let! month := digits 2 "two-digit month" in
  do! expect (ch "-") "'-' after month" in
  let! day := digits 2 "two-digit day" in
  do! separator in
  let! hour := digits 2 "two-digit hour" in
  do! expect (ch ":") "':' after hour" in
  let! minute := digits 2 "two-digit minute" in
  do! expect (ch ":") "':' after minute" in
  let! second := digits 2 "two-digit second" in
  let! nanos := fraction in
  let! offset_secs := zone_offset in
  let! c := st_get in
  if negb (bool_decide (pos c = length (bytes c))) then st_fail (cursor_err c "end of input")
  else lift_res (assemble year month day hour minute second nanos offset_secs).

Definition parse_rfc3339 (input : string) : result LogicalInstant TimeParseError :=
  fst (parse_read {| bytes := bytes_of input; pos := 0 |}).

(** The stamp of a date and time, without its fraction. *)
Definition stamp (y mo d h mi s : Z) : list Z :=
  decimal_pad 4 y ++ [ch "-"] ++ decimal_pad 2 mo ++ [ch "-"] ++ decimal_pad 2 d ++
  [ch "T"] ++ decimal_pad 2 h ++ [ch ":"] ++ decimal_pad 2 mi ++ [ch ":"] ++ decimal_pad 2 s.

Definition format_bytes (t : LogicalInstant) : result (list Z) TimeFormatError :=
  let secs := t / NANOS_PER_SEC in
  let nanos := t mod NANOS_PER_SEC in
  let days := secs / SECS_PER_DAY in
  let sod := secs mod SECS_PER_DAY in
  let '(y, month, day) := civil_from_days_wide days in
  if negb ((0 <=? y) && (y <=? 9999)) then Err {| year := y |}
  else
    let hour := Z.quot sod 3600 in
    let minute := Z.quot (Z.rem sod 3600) 60 in
    let second := Z.rem sod 60 in
    let stamp := stamp y month day hour minute second in
    Ok (if nanos =? 0 then stamp ++ [ch "Z"]
        else stamp ++ [ch "."] ++ decimal_pad 9 nanos ++ [ch "Z"]).

Definition to_rfc3339 (t : LogicalInstant) : result string TimeFormatError :=
  match format_bytes t with Ok l => Ok (string_of l) | Err e => Err e end.

Example parse_offset_ex :
  parse_rfc3339 "2026-08-29T21:01:00+09:00" = parse_rfc3339 "2026-08-29T12:01:00Z".
Proof. vm_compute. reflexivity. Qed.

Example format_ex :
  to_rfc3339 1788004860123000000 = Ok "2026-08-29T12:01:00.123000000Z".
Proof. vm_compute. reflexivity. Qed.

Example parse_leap_ex :
  parse_rfc3339 "2023-02-29T00:00:00Z" = Err {| offset := 8; expected := "valid day of month" |}.
Proof. vm_compute. reflexivity. Qed.


(** ** The cursor over a known text

    [drop (pos c) (bytes c)] is the text that is left.  Each lemma reads one
    element of it. *)

Lemma peek_drop B p : peek {| bytes := B; pos := p |} = head (drop p B).
Proof.
  unfold peek; simpl. rewrite <- (Nat.add_0_r p) at 1. rewrite <- lookup_drop.
  by destruct (drop p B).
Qed.

Lemma drop_add_app {A} (B l rest : list A) (p : nat) :
  drop p B = l ++ rest -> drop (p + length l) B = rest.
Proof. intros H. by rewrite <- drop_drop, H, drop_app_length. Qed.

Lemma drop_S {A} (B rest : list A) (b : A) (p : nat) : drop p B = b :: rest -> drop (S p) B = rest.
Proof. intros H. replace (S p) with (p + length [b])%nat by (simpl; lia). by apply drop_add_app. Qed.

Lemma fold_dec_mono l v : digits_ok l -> 0 <= v -> v <= fold_left dec_step l v.
Proof.
  revert v. induction l as [|b l IH]; intros v Hl Hv; simpl; [lia|].
  apply Forall_cons in Hl as [Hb Hl].
  assert (0 <= dec_step v b /\ v <= dec_step v b) as [? ?] by (unfold dec_step; lia).
  etransitivity; [|apply IH; auto]. lia.
Qed.

Lemma digits_loop_read B l rest e p v :
  drop p B = l ++ rest -> digits_ok l -> 0 <= v -> fold_left dec_step l v <= int_max u32 ->
  digits_loop (length l) e v {| bytes := B; pos := p |} =
    (Ok (fold_left dec_step l v), {| bytes := B; pos := p + length l |}).
Proof.
  revert p v. induction l as [|b l IH]; intros p v Hd Hl Hv Hmax.
  - by rewrite Nat.add_0_r.
  - apply Forall_cons in Hl as [Hb Hl]. cbn [digits_loop length fold_left] in *.
    rewrite peek_drop, Hd. cbn [head app].
    rewrite (proj2 (is_ascii_digit_spec b)) by lia. cbn [negb].
    assert (Hstep : 0 <= dec_step v b) by (unfold dec_step; lia).
    pose proof (fold_dec_mono l (dec_step v b) Hl Hstep).
    change (v * 10 + (b - ch "0")) with (dec_step v b).
    rewrite wrapping_id by (unfold fits; change (int_min u32) with 0; lia).
    unfold bump; cbn [bytes pos]. rewrite IH; auto.
    + do 2 f_equal. lia.
    + by apply drop_S in Hd.
Qed.

Lemma digits_read B n l rest e p :
  drop p B = l ++ rest -> digits_ok l -> length l = n -> (n <= 9)%nat ->
  digits n e {| bytes := B; pos := p |} = (Ok (dec_value l), {| bytes := B; pos := p + n |}).
Proof.
  intros Hd Hl <- Hlen. unfold digits. rewrite (digits_loop_read _ l rest); try done.
  destruct (dec_value_bound l Hl) as [_ Hb]. unfold dec_value in Hb.
  assert (10 ^ Z.of_nat (length l) <= 10 ^ 9) by (apply Z.pow_le_mono_r; lia).
  change (int_max u32) with 4294967295. lia.
Qed.

Lemma expect_read B b rest e p :
  drop p B = b :: rest ->
  expect b e {| bytes := B; pos := p |} = (Ok tt, {| bytes := B; pos := S p |}).
Proof. intros Hd. unfold expect. by rewrite peek_drop, Hd; simpl; rewrite Z.eqb_refl. Qed.

Lemma separator_read B rest p :
  drop p B = ch "T" :: rest ->
  separator {| bytes := B; pos := p |} = (Ok tt, {| bytes := B; pos := S p |}).
Proof. intros Hd. unfold separator. by rewrite peek_drop, Hd. Qed.

(** The weighted sum of fractional digits, from the weight [scale] down. *)
Fixpoint frac_value (scale : Z) (l : list Z) : Z :=
  match l with [] => 0 | b :: l => (b - 48) * scale + frac_value (Z.quot scale 10) l end.

(** The loop stops where the digits do, with any fuel above their number. *)
Lemma fraction_loop_read B l b rest p fuel nanos (k : nat) :
  drop p B = l ++ b :: rest -> digits_ok l -> is_ascii_digit b = false ->
  (length l <= k)%nat -> (length l < fuel)%nat ->
  fraction_loop fuel nanos (10 ^ Z.of_nat k / 10) {| bytes := B; pos := p |} =
    (Ok (nanos + frac_value (10 ^ Z.of_nat k / 10) l), {| bytes := B; pos := p + length l |}).
Proof.
  revert p fuel nanos k. induction l as [|d l IH]; intros p fuel nanos k Hd Hl Hb Hk Hf;
    (destruct fuel as [|fuel]; [simpl in Hf; lia|]); cbn [fraction_loop length frac_value] in *;
    rewrite peek_drop, Hd; cbn [head app].
  - rewrite Hb. cbn [negb]. by rewrite Z.add_0_r, Nat.add_0_r.
  - apply Forall_cons in Hl as [Hdig Hl].
    rewrite (proj2 (is_ascii_digit_spec d)) by lia. cbn [negb].
    destruct k as [|k]; [lia|].
    assert (Hs : 10 ^ Z.of_nat (S k) / 10 = 10 ^ Z.of_nat k).
    { rewrite Nat2Z.inj_succ, Z.pow_succ_r, Z.mul_comm, Z.div_mul; lia. }
    assert (0 < 10 ^ Z.of_nat k) by (apply Z.pow_pos_nonneg; lia).
    rewrite Hs, (proj2 (Z.eqb_neq _ 0)) by lia. change (ch "0") with 48.
    rewrite Z.quot_div_nonneg by lia. unfold bump; cbn [bytes pos].
    rewrite IH; auto with lia.
    + f_equal; [f_equal; lia|f_equal; lia].
    + by apply drop_S in Hd.
Qed.

Lemma frac_value_dec l (k : nat) :
  (length l <= k)%nat ->
  frac_value (10 ^ Z.of_nat k / 10) l = dec_value l * 10 ^ Z.of_nat (k - length l).
Proof.
  revert k. induction l as [|b l IH]; intros k Hk; [done|].
  destruct k as [|k]; [simpl in Hk; lia|]. cbn [frac_value length] in *.
  assert (Hs : 10 ^ Z.of_nat (S k) / 10 = 10 ^ Z.of_nat k).
  { rewrite Nat2Z.inj_succ, Z.pow_succ_r, Z.mul_comm, Z.div_mul; lia. }
  assert (0 < 10 ^ Z.of_nat k) by (apply Z.pow_pos_nonneg; lia).
  rewrite Hs, Z.quot_div_nonneg, IH by lia.
  unfold dec_value at 2. cbn [fold_left]. rewrite fold_dec_shift. unfold dec_step.
  replace (Z.of_nat k) with (Z.of_nat (length l) + Z.of_nat (k - length l)) at 1 by lia.
  rewrite Z.pow_add_r by lia. rewrite Nat.sub_succ. ring.
Qed.

Lemma fraction_read B l b rest p :
  drop p B = ch "." :: l ++ b :: rest -> digits_ok l -> is_ascii_digit b = false ->
  (1 <= length l <= 9)%nat ->
  fraction {| bytes := B; pos := p |} =
    (Ok (dec_value l * 10 ^ Z.of_nat (9 - length l)), {| bytes := B; pos := S p + length l |}).
Proof.
  intros Hd Hl Hb Hlen. unfold fraction. rewrite peek_drop, Hd. cbn [head].
  rewrite bool_decide_eq_true_2 by done. unfold bump; cbn [bytes pos].
  apply drop_S in Hd. change (Z.quot NANOS_PER_SEC 10) with (10 ^ Z.of_nat 9 / 10).
  assert (length l <= length B)%nat.
  { pose proof (f_equal length Hd) as Hlen'. rewrite length_drop, length_app in Hlen'. lia. }
  rewrite (fraction_loop_read _ l b rest) by (done || lia).
  cbn [pos]. rewrite bool_decide_eq_false_2 by lia.
  by rewrite frac_value_dec, Z.add_0_l by lia.
Qed.

Lemma fraction_absent B b rest p :
  drop p B = b :: rest -> b <> ch "." ->
  fraction {| bytes := B; pos := p |} = (Ok 0, {| bytes := B; pos := p |}).
Proof.
  intros Hd Hb. unfold fraction. rewrite peek_drop, Hd. cbn [head].
  by rewrite bool_decide_eq_false_2 by congruence.
Qed.

Lemma zone_read_Z B rest p :
  drop p B = ch "Z" :: rest ->
  zone_offset {| bytes := B; pos := p |} = (Ok 0, {| bytes := B; pos := S p |}).
Proof. intros Hd. unfold zone_offset. by rewrite peek_drop, Hd. Qed.

(** Steps the cursor over one element of the text. *)
Ltac read_num n v :=
  let Hv := fresh in let Hlen := fresh in let Hdig := fresh in
  destruct (decimal_pad_spec n v) as (Hv & Hlen & Hdig); [lia|lia|];
  match goal with Hd : drop ?p ?B = _ |- _ =>
    erewrite st_bind_Ok by (eapply (digits_read B n); [exact Hd|exact Hdig|exact Hlen|lia]);
    apply drop_add_app in Hd; rewrite Hlen in Hd; rewrite Hv; clear Hv Hlen Hdig
  end.
Ltac read_ch lem :=
  match goal with Hd : drop ?p ?B = _ |- _ =>
    cbn [app] in Hd; erewrite st_bind_Ok by (eapply lem; exact Hd); apply drop_S in Hd
  end.

(** What the reader does on a text that begins with a stamp. *)
Lemma parse_read_stamp y mo d h mi s rest :
  0 <= y <= 9999 -> 0 <= mo < 100 -> 0 <= d < 100 -> 0 <= h < 100 -> 0 <= mi < 100 ->
  0 <= s < 100 ->
  let B := stamp y mo d h mi s ++ rest in
  parse_read {| bytes := B; pos := 0 |} =
    (let! nanos := fraction in
     let! offset_secs := zone_offset in
     let! c := st_get in
     if negb (bool_decide (pos c = length (bytes c))) then st_fail (cursor_err c "end of input")
     else lift_res (assemble y mo d h mi s nanos offset_secs)) {| bytes := B; pos := 19 |}.
Proof.
  intros Hy Hmo Hd Hh Hmi Hs B.
  assert (HB : drop 0 B = stamp y mo d h mi s ++ rest) by done.
  unfold stamp in HB. rewrite <- !app_assoc in HB. generalize dependent B. intros B HB.
  unfold parse_read.
  read_num 4%nat y. read_ch expect_read. read_num 2%nat mo. read_ch expect_read.
  read_num 2%nat d. read_ch separator_read. read_num 2%nat h. read_ch expect_read.
  read_num 2%nat mi. read_ch expect_read. read_num 2%nat s.
  reflexivity.
Qed.

Lemma stamp_length y mo d h mi s :
  0 <= y <= 9999 -> 0 <= mo < 100 -> 0 <= d < 100 -> 0 <= h < 100 -> 0 <= mi < 100 ->
  0 <= s < 100 -> length (stamp y mo d h mi s) = 19%nat.
Proof.
  intros. unfold stamp. rewrite !length_app.
  destruct (decimal_pad_spec 4 y) as (_ & -> & _); [lia..|].
  destruct (decimal_pad_spec 2 mo) as (_ & -> & _); [lia..|].
  destruct (decimal_pad_spec 2 d) as (_ & -> & _); [lia..|].
  destruct (decimal_pad_spec 2 h) as (_ & -> & _); [lia..|].
  destruct (decimal_pad_spec 2 mi) as (_ & -> & _); [lia..|].
  destruct (decimal_pad_spec 2 s) as (_ & -> & _); [lia..|]. done.
Qed.

Lemma stamp_bytes y mo d h mi s :
  0 <= y <= 9999 -> 0 <= mo < 100 -> 0 <= d < 100 -> 0 <= h < 100 -> 0 <= mi < 100 ->
  0 <= s < 100 -> Forall (fun b => 0 <= b < 256) (stamp y mo d h mi s).
Proof.
  intros. unfold stamp.
  rewrite !Forall_app. split_and!;
    first [apply Forall_singleton, ch_range | apply digits_ok_bytes, decimal_pad_spec; lia].
Qed.

(** The clock fields of a second of the day. *)
Lemma clock_fields sod :
  0 <= sod < 86400 ->
  let h := Z.quot sod 3600 in
  let mi := Z.quot (Z.rem sod 3600) 60 in
  let s := Z.rem sod 60 in
  0 <= h <= 23 /\ 0 <= mi <= 59 /\ 0 <= s <= 59 /\ h * 3600 + mi * 60 + s = sod.
Proof.
  cbn zeta. intros H. rewrite !Z.rem_mod_nonneg by lia.
  rewrite !Z.quot_div_nonneg by (try apply Z.mod_pos_bound; lia).
  assert (0 <= sod mod 3600 < 3600) by (apply Z.mod_pos_bound; lia).
  assert (sod mod 60 = (sod mod 3600) mod 60) as -> by
    (rewrite (Z.mod_mod_divide sod 3600 60); [done|by exists 60]).
  pose proof (Z.div_mod sod 3600). pose proof (Z.div_mod (sod mod 3600) 60).
  assert (0 <= (sod mod 3600) mod 60 < 60) by (apply Z.mod_pos_bound; lia).
  lia.
Qed.

Lemma assemble_ok y mo d h mi s nanos off :
  valid_date y mo d -> 0 <= h <= 23 -> 0 <= mi <= 59 -> 0 <= s <= 59 ->
  assemble y mo d h mi s nanos off =
    Ok ((days_from_civil y mo d * SECS_PER_DAY + h * 3600 + mi * 60 + s - off) * NANOS_PER_SEC
        + nanos).
Proof.
  intros [Hm Hd] Hh Hmi Hs. unfold assemble.
  rewrite (proj2 (Z.leb_le 1 mo)), (proj2 (Z.leb_le mo 12)) by lia. simpl.
  rewrite (proj2 (Z.eqb_neq d 0)), (proj2 (Z.ltb_ge _ d)) by lia. simpl.
  by rewrite (proj2 (Z.ltb_ge 23 h)), (proj2 (Z.ltb_ge 59 mi)), (proj2 (Z.ltb_ge 59 s)) by lia.
Qed.

(** The reader on a stamp with [Z] and no fraction, and on one with nine
    fractional digits. *)
Lemma parse_plain y mo d h mi s :
  0 <= y <= 9999 -> valid_date y mo d -> 0 <= h <= 23 -> 0 <= mi <= 59 -> 0 <= s <= 59 ->
  fst (parse_read {| bytes := stamp y mo d h mi s ++ [ch "Z"]; pos := 0 |}) =
    assemble y mo d h mi s 0 0.
Proof.
  intros Hy Hv Hh Hmi Hs. pose proof (valid_date_fields _ _ _ Hv).
  rewrite parse_read_stamp by lia. cbn zeta.
  pose proof (stamp_length y mo d h mi s) as Hlen.
  set (B := stamp y mo d h mi s ++ [ch "Z"]).
  assert (HB : drop 19 B = [ch "Z"]).
  { unfold B. replace 19%nat with (length (stamp y mo d h mi s)) by (apply Hlen; lia).
    apply drop_app_length. }
  erewrite st_bind_Ok by (eapply fraction_absent; [exact HB|done]).
  erewrite st_bind_Ok by (eapply zone_read_Z; exact HB).
  erewrite st_bind_Ok by reflexivity. cbn [pos bytes].
  rewrite bool_decide_eq_true_2 by (unfold B; rewrite length_app, Hlen by lia; done).
  unfold lift_res. by destruct (assemble _ _ _ _ _ _ _ _).
Qed.

Lemma parse_fraction y mo d h mi s n :
  0 <= y <= 9999 -> valid_date y mo d -> 0 <= h <= 23 -> 0 <= mi <= 59 -> 0 <= s <= 59 ->
  0 <= n < NANOS_PER_SEC ->
  fst (parse_read {| bytes := stamp y mo d h mi s ++ [ch "."] ++ decimal_pad 9 n ++ [ch "Z"];
                     pos := 0 |}) =
    assemble y mo d h mi s n 0.
Proof.
  intros Hy Hv Hh Hmi Hs Hn. pose proof (valid_date_fields _ _ _ Hv).
  rewrite parse_read_stamp by lia. cbn zeta.
  pose proof (stamp_length y mo d h mi s) as Hlen.
  destruct (decimal_pad_spec 9 n) as (Hv9 & Hl9 & Hd9); [exact Hn|lia|].
  set (B := stamp y mo d h mi s ++ [ch "."] ++ decimal_pad 9 n ++ [ch "Z"]).
  assert (HB : drop 19 B = ch "." :: decimal_pad 9 n ++ [ch "Z"]).
  { unfold B. replace 19%nat with (length (stamp y mo d h mi s)) by (apply Hlen; lia).
    apply drop_app_length. }
  erewrite st_bind_Ok by (eapply fraction_read; [exact HB|exact Hd9|done|lia]).
  apply drop_S, drop_add_app in HB. rewrite Hl9 in HB |- *.
  erewrite st_bind_Ok by (eapply zone_read_Z; exact HB).
  erewrite st_bind_Ok by reflexivity. cbn [pos bytes].
  rewrite bool_decide_eq_true_2
    by (unfold B; rewrite !length_app, Hlen, Hl9 by lia; done).
  rewrite Hv9. replace (n * 10 ^ Z.of_nat (9 - 9)) with n by (simpl; lia).
  unfold lift_res. by destruct (assemble _ _ _ _ _ _ _ _).
Qed.

Lemma rfc3339_round_trip_bytes t l :
  format_bytes t = Ok l ->
  Forall (fun b => 0 <= b < 256) l /\ fst (parse_read {| bytes := l; pos := 0 |}) = Ok t.
Proof.
  unfold format_bytes. set (secs := t / NANOS_PER_SEC). set (nanos := t mod NANOS_PER_SEC).
  assert (Hn : 0 <= nanos < NANOS_PER_SEC) by (apply Z.mod_pos_bound; unfold NANOS_PER_SEC; lia).
  assert (Ht : t = secs * NANOS_PER_SEC + nanos)
    by (pose proof (Z.div_mod t NANOS_PER_SEC); unfold NANOS_PER_SEC in *; lia).
  set (sod := secs mod SECS_PER_DAY).
  assert (Hsod : 0 <= sod < SECS_PER_DAY) by (apply Z.mod_pos_bound; unfold SECS_PER_DAY; lia).
  assert (Hsecs : secs = secs / SECS_PER_DAY * SECS_PER_DAY + sod)
    by (pose proof (Z.div_mod secs SECS_PER_DAY); unfold SECS_PER_DAY in *; lia).
  pose proof (civil_round_trip_lemma (secs / SECS_PER_DAY)) as Hciv.
  destruct (civil_from_days_wide (secs / SECS_PER_DAY)) as [[y mo] d]. destruct Hciv as [Hv Hdays].
  destruct (clock_fields sod Hsod) as (Hh & Hmi & Hs & Hsum). cbn zeta in *.
  set (h := Z.quot sod 3600) in *. set (mi := Z.quot (Z.rem sod 3600) 60) in *.
  set (s := Z.rem sod 60) in *.
  destruct (negb _) eqn:Hy; [done|]. assert (0 <= y <= 9999) by lia.
  pose proof (valid_date_fields _ _ _ Hv) as Hf.
  assert (Hval : forall n, n = nanos -> assemble y mo d h mi s n 0 = Ok t).
  { intros n ->. rewrite assemble_ok by done. f_equal. rewrite Hdays, Ht. nia. }
  destruct (nanos =? 0) eqn:Hz; intros [= <-].
  - rewrite parse_plain by done. split; [|apply Hval; lia].
    apply Forall_app. split; [apply stamp_bytes; lia|apply Forall_singleton, ch_range].
  - split; [|etransitivity; [by apply parse_fraction|by apply Hval]].
    rewrite Forall_app, Forall_cons, Forall_app. split_and!.
    + apply stamp_bytes; lia.
    + apply (ch_range ".").
    + apply (ch_range ".").
    + apply digits_ok_bytes, decimal_pad_spec; [exact Hn|lia].
    + apply Forall_singleton, ch_range.
Qed.

(** ** Bounds of what the reader accepts *)

Lemma digits_loop_bound n e v c v' c' :
  digits_loop n e v c = (Ok v', c') -> 0 <= v -> v * 10 ^ Z.of_nat n + 10 ^ Z.of_nat n <= 10 ^ 9 ->
  0 <= v' < v * 10 ^ Z.of_nat n + 10 ^ Z.of_nat n.
Proof.
  revert v c. induction n as [|n IH]; intros v c; cbn [digits_loop].
  - intros [= <- <-]. change (10 ^ Z.of_nat 0) with 1. lia.
  - destruct (peek c) as [b|]; [|done]. destruct (is_ascii_digit b) eqn:Hb; [|done].
    cbn [negb]. apply is_ascii_digit_spec in Hb. change (ch "0") with 48.
    rewrite Nat2Z.inj_succ, Z.pow_succ_r by lia.
    assert (0 < 10 ^ Z.of_nat n) by (apply Z.pow_pos_nonneg; lia).
    intros Hd Hv Hmax.
    rewrite wrapping_id in Hd
      by (unfold fits; change (int_min u32) with 0; change (int_max u32) with 4294967295; nia).
    apply IH in Hd; nia.
Qed.

Lemma digits_bound n e c v c' :
  digits n e c = (Ok v, c') -> (n <= 9)%nat -> 0 <= v < 10 ^ Z.of_nat n.
Proof.
  intros Hd Hn. apply digits_loop_bound in Hd; [lia..|].
  assert (10 ^ Z.of_nat n <= 10 ^ 9) by (apply Z.pow_le_mono_r; lia). lia.
Qed.

Lemma fraction_loop_bound fuel nanos c v c' (k : nat) :
  fraction_loop fuel nanos (10 ^ Z.of_nat k / 10) c = (Ok v, c') ->
  0 <= nanos -> 0 <= v /\ v < nanos + 10 ^ Z.of_nat k.
Proof.
  revert nanos c k. induction fuel as [|fuel IH]; intros nanos c k; cbn [fraction_loop];
    assert (0 < 10 ^ Z.of_nat k) by (apply Z.pow_pos_nonneg; lia).
  - intros [= <- <-]. lia.
  - destruct (peek c) as [b|]; [|intros [= <- <-]; lia].
    destruct (is_ascii_digit b) eqn:Hb; cbn [negb]; [|intros [= <- <-]; lia].
    apply is_ascii_digit_spec in Hb. change (ch "0") with 48.
    destruct k as [|k]; [done|].
    assert (Hs : 10 ^ Z.of_nat (S k) / 10 = 10 ^ Z.of_nat k).
    { rewrite Nat2Z.inj_succ, Z.pow_succ_r, Z.mul_comm, Z.div_mul; lia. }
    assert (0 < 10 ^ Z.of_nat k) by (apply Z.pow_pos_nonneg; lia).
    rewrite Hs, (proj2 (Z.eqb_neq _ 0)), Z.quot_div_nonneg by lia.
    rewrite Nat2Z.inj_succ, Z.pow_succ_r by lia.
    intros Hf Hn. apply IH in Hf; nia.
Qed.

Lemma fraction_bound c v c' : fraction c = (Ok v, c') -> 0 <= v < NANOS_PER_SEC.
Proof.
  unfold fraction. case_bool_decide; [|intros [= <- <-]; unfold NANOS_PER_SEC; lia].
  destruct (fraction_loop _ _ _ _) as [[n|e] c''] eqn:Hf; [|done].
  case_bool_decide; [done|]. intros [= <- <-].
  change (Z.quot NANOS_PER_SEC 10) with (10 ^ Z.of_nat 9 / 10) in Hf.
  apply fraction_loop_bound in Hf; [|lia].
  change (10 ^ Z.of_nat 9) with NANOS_PER_SEC in Hf. lia.
Qed.

Lemma zone_offset_bound c v c' : zone_offset c = (Ok v, c') -> - SECS_PER_DAY < v < SECS_PER_DAY.
Proof.
  unfold zone_offset, SECS_PER_DAY. destruct (peek c) as [b|]; [|done].
  destruct ((b =? ch "Z") || (b =? ch "z")); [intros [= <- <-]; lia|].
  destruct ((b =? ch "+") || (b =? ch "-")); [|done].
  intros H. apply st_bind_inv_Ok in H as (oh & c1 & Hoh & H).
  apply st_bind_inv_Ok in H as ([] & c2 & _ & H).
  apply st_bind_inv_Ok in H as (om & c3 & Hom & H). cbn in H.
  apply digits_bound in Hoh; [|lia]. apply digits_bound in Hom; [|lia].
  destruct ((23 <? oh) || (59 <? om)) eqn:Hr; [done|]. injection H as <- <-.
  destruct (b =? ch "+"); lia.
Qed.

Lemma assemble_inv y mo d h mi s nanos off t :
  assemble y mo d h mi s nanos off = Ok t -> 0 <= d -> 0 <= h -> 0 <= mi -> 0 <= s ->
  valid_date y mo d /\ h <= 23 /\ mi <= 59 /\ s <= 59 /\
  t = (days_from_civil y mo d * SECS_PER_DAY + h * 3600 + mi * 60 + s - off) * NANOS_PER_SEC
      + nanos.
Proof.
  unfold assemble, valid_date. intros H ????.
  destruct (negb _) eqn:?; [done|]. destruct (_ || _) eqn:?; [done|].
  destruct (23 <? h) eqn:?; [done|]. destruct (59 <? mi) eqn:?; [done|].
  destruct (59 <? s) eqn:?; [done|]. injection H as <-. split_and!; lia.
Qed.

Lemma parse_read_inv c t c' :
  parse_read c = (Ok t, c') ->
  exists y mo d h mi s nanos off,
    0 <= y <= 9999 /\ valid_date y mo d /\ 0 <= h <= 23 /\ 0 <= mi <= 59 /\ 0 <= s <= 59 /\
    0 <= nanos < NANOS_PER_SEC /\ - SECS_PER_DAY < off < SECS_PER_DAY /\
    t = (days_from_civil y mo d * SECS_PER_DAY + h * 3600 + mi * 60 + s - off) * NANOS_PER_SEC
        + nanos.
Proof.
  unfold parse_read. intros H.
  apply st_bind_inv_Ok in H as (y & ? & Hy%digits_bound & H); [|lia].
  apply st_bind_inv_Ok in H as ([] & ? & _ & H).
  apply st_bind_inv_Ok in H as (mo & ? & Hmo%digits_bound & H); [|lia].
  apply st_bind_inv_Ok in H as ([] & ? & _ & H).
  apply st_bind_inv_Ok in H as (d & ? & Hd%digits_bound & H); [|lia].
  apply st_bind_inv_Ok in H as ([] & ? & _ & H).
  apply st_bind_inv_Ok in H as (h & ? & Hh%digits_bound & H); [|lia].
  apply st_bind_inv_Ok in H as ([] & ? & _ & H).
  apply st_bind_inv_Ok in H as (mi & ? & Hmi%digits_bound & H); [|lia].
  apply st_bind_inv_Ok in H as ([] & ? & _ & H).
  apply st_bind_inv_Ok in H as (s & ? & Hs%digits_bound & H); [|lia].
  apply st_bind_inv_Ok in H as (nanos & ? & Hn%fraction_bound & H).
  apply st_bind_inv_Ok in H as (off & ? & Ho%zone_offset_bound & H).
  apply st_bind_inv_Ok in H as (c0 & ? & _ & H).
  destruct (negb _); [done|]. unfold lift_res in H.
  destruct (assemble y mo d h mi s nanos off) eqn:Ha; [|done]. injection H as <- <-.
  apply assemble_inv in Ha as (Hv & ? & ? & ? & ->); [|lia..].
  exists y, mo, d, h, mi, s, nanos, off. change (10 ^ Z.of_nat 4) with 10000 in Hy.
  split_and!; try lia; apply Hv.
Qed.

(** ** Properties *)

(** Printing an instant and reading the text back gives the instant: for
    every instant that [to_rfc3339] accepts, [parse_rfc3339] of its output
    returns exactly that instant, to the nanosecond. *)
Theorem rfc3339_round_trip t s : to_rfc3339 t = Ok s -> parse_rfc3339 s = Ok t.
Proof.
  unfold to_rfc3339, parse_rfc3339. destruct (format_bytes t) as [l|] eqn:Hf; [|done].
  intros [= <-]. apply rfc3339_round_trip_bytes in Hf as [Hb Hp].
  by rewrite bytes_of_string_of.
Qed.

Lemma rfc3339_round_trip_witness :
  to_rfc3339 1788004860123000000 = Ok "2026-08-29T12:01:00.123000000Z" /\
  parse_rfc3339 "2026-08-29T12:01:00.123000000Z" = Ok 1788004860123000000.
Proof. split; [vm_compute; reflexivity|]. apply rfc3339_round_trip. vm_compute. reflexivity. Defined.

(** Exactly the instants of the years 0000 to 9999 print; any other one is
    refused with its year, which is outside 0..=9999, and never printed as text
    the reader would reject. *)
Theorem rfc3339_printable_range t :
  let lo := -62167219200 * NANOS_PER_SEC in
  let hi := 253402300800 * NANOS_PER_SEC in
  (lo <= t < hi -> exists s, to_rfc3339 t = Ok s) /\
  (~ (lo <= t < hi) -> exists y, to_rfc3339 t = Err {| year := y |} /\ ~ (0 <= y <= 9999)).
Proof.
  cbn zeta. unfold to_rfc3339, format_bytes.
  pose proof (civil_year_range 0 9999 (t / NANOS_PER_SEC / SECS_PER_DAY)) as Hr.
  destruct (civil_from_days_wide _) as [[y mo] d].
  assert (Hiff : 0 <= y <= 9999 <->
            -62167219200 * NANOS_PER_SEC <= t < 253402300800 * NANOS_PER_SEC).
  { rewrite Hr. change (days_from_civil 0 1 1) with (-719528).
    change (days_from_civil (9999 + 1) 1 1) with 2932897.
    unfold NANOS_PER_SEC, SECS_PER_DAY. rewrite Z.div_div by lia.
    pose proof (Z.div_mod t (1000000000 * 86400)).
    pose proof (Z.mod_pos_bound t (1000000000 * 86400)). lia. }
  destruct (negb _) eqn:Hy.
  - split; [|intros; exists y; split; [done|lia]].
    intros [? ?]%Hiff. lia.
  - split; [eauto|]. intros []. apply Hiff. lia.
Qed.

(** Whatever text the reader accepts, the instant is the wall time of a
    valid date of the years 0000 to 9999 shifted by an offset of less than a day,
    so it is within a day of the printable range and far inside [i128]. *)
Theorem parse_rfc3339_bounds s t :
  parse_rfc3339 s = Ok t ->
  (-62167219200 - SECS_PER_DAY) * NANOS_PER_SEC < t < (253402300800 + SECS_PER_DAY) * NANOS_PER_SEC
  /\ fits i128 t.
Proof.
  unfold parse_rfc3339. destruct (parse_read _) as [r c'] eqn:Hp. cbn [fst]. intros ->.
  apply parse_read_inv in Hp as (y & mo & d & h & mi & sc & n & off & Hy & Hv & Hh & Hmi & Hs & Hn
                                 & Ho & ->).
  pose proof (date_in_year y mo d Hv) as [Hlo Hhi].
  pose proof (year_start_mono 0 y ltac:(lia)) as H0.
  pose proof (year_start_mono (y + 1) 10000 ltac:(lia)) as H1.
  change (days_from_civil 0 1 1) with (-719528) in H0.
  change (days_from_civil 10000 1 1) with 2932897 in H1.
  unfold fits. change (int_min i128) with (- 2 ^ 127). change (int_max i128) with (2 ^ 127 - 1).
  unfold NANOS_PER_SEC, SECS_PER_DAY in *. lia.
Qed.

Lemma parse_rfc3339_bounds_witness :
  parse_rfc3339 "0000-01-01T00:00:00+23:59" = Ok (-62167305540 * NANOS_PER_SEC) /\
  fits i128 (-62167305540 * NANOS_PER_SEC).
Proof.
  split; [vm_compute; reflexivity|].
  apply (parse_rfc3339_bounds "0000-01-01T00:00:00+23:59"). vm_compute. reflexivity.
Defined.
