(* ===== verification/Determinism.v ===== *)
(** * Deterministic randomness and identifiers

    Models [crates/fireemu-core-types/src/determinism.rs]: the [SplitMix64]
    generator, rejection sampling below a bound, and the identifier source that
    mixes session, seed, kind and counter into 128 bits.  A 64-bit word is a [Z]
    in [0, 2^64). *)
From S2P Require Import Prelude.

(** ** Random sources *)

(** The trait [DeterministicRng]: its required method. *)
Class DeterministicRng (G : Type) := next_u64 : G -> Z * G.

Definition zone_of (bound : Z) : Z := int_max u64 - int_max u64 mod bound.

(** The [loop] of [next_below].  [fuel] bounds the number of rejected draws;
    [next_below_total] shows that the loop ends for [SplitMix64]. *)
Fixpoint next_below_loop `{DeterministicRng G} (fuel : nat) (bound : Z) (g : G)
    : option (Z * G) :=
  match fuel with
  | O => None
  | S fuel =>
      let '(v, g) := next_u64 g in
      if v <? zone_of bound then Some (v mod bound, g) else next_below_loop fuel bound g
  end.

Definition next_below `{DeterministicRng G} (fuel : nat) (bound : Z) (g : G) : option (Z * G) :=
  if bound <=? 1 then Some (0, g) else next_below_loop fuel bound g.

Record SplitMix64 := { sm_state : Z }.

Definition splitmix_new (seed : Z) : SplitMix64 := {| sm_state := seed |}.

Definition GAMMA : Z := 0x9E3779B97F4A7C15.
Definition MIX1 : Z := 0xBF58476D1CE4E5B9.
Definition MIX2 : Z := 0x94D049BB133111EB.

Definition splitmix_next_u64 (g : SplitMix64) : Z * SplitMix64 :=
  let state := wrapping u64 (sm_state g + GAMMA) in
  let z := state in
  let z := wrapping u64 (Z.lxor z (Z.shiftr z 30) * MIX1) in
  let z := wrapping u64 (Z.lxor z (Z.shiftr z 27) * MIX2) in
  (Z.lxor z (Z.shiftr z 31), {| sm_state := state |}).

#[global] Instance SplitMix64_rng : DeterministicRng SplitMix64 := splitmix_next_u64.

(** ** Identifiers *)

Inductive IdKind := IdEvent | IdInvocation | IdTransaction | IdCorrelation.

#[global] Instance IdKind_eq_dec : EqDecision IdKind.
Proof. solve_decision. Defined.

(** [kind as u64] *)
Definition kind_value (k : IdKind) : Z :=
  match k with
  | IdEvent => 1 | IdInvocation => 2 | IdTransaction => 3 | IdCorrelation => 4
  end.

Record DeterministicIdSource := {
  ids_session : Z;
  ids_seed : Z;
  command_counter : Z;
  counters : list Z;
}.

Definition ids_new (session seed : Z) : DeterministicIdSource :=
  {| ids_session := session; ids_seed := seed; command_counter := 0; counters := [0; 0; 0; 0] |}.

Definition kind_slot (k : IdKind) : nat := Z.to_nat (kind_value k - 1).

(** [{ let mut g = SplitMix64::new(seed); g.next_u64() }] *)
Definition first_draw (seed : Z) : Z := fst (splitmix_next_u64 (splitmix_new seed)).

(** The seed of the generator that hashes session, seed and kind. *)
Definition hash_input (session seed : Z) (k : IdKind) : Z :=
  let lo := wrap64 session in
  let hi := wrap64 (Z.shiftr session 64) in
  Z.lxor (Z.lxor (Z.lxor lo (rotate_left64 hi 17)) seed) (wrap64 (Z.shiftl (kind_value k) 56)).

Definition session_hash (session seed : Z) (k : IdKind) : Z :=
  first_draw (hash_input session seed k).

Definition counter_hash (shash counter : Z) : Z := first_draw (Z.lxor shash counter).

(** The value [next_mixed] returns for a counter. *)
Definition mixed_id (session seed : Z) (k : IdKind) (counter : Z) : Z :=
  let shash := session_hash session seed k in
  Z.lor (Z.shiftl shash 64) (counter_hash shash counter).

Definition next_mixed (k : IdKind) (src : DeterministicIdSource) : Z * DeterministicIdSource :=
  let slot := kind_slot k in
  let counter := wrapping u64 (nth slot (counters src) 0 + 1) in
  let src := {| ids_session := ids_session src; ids_seed := ids_seed src;
                command_counter := command_counter src;
                counters := <[slot := counter]> (counters src) |} in
  (mixed_id (ids_session src) (ids_seed src) k counter, src).

Definition next_command_id (src : DeterministicIdSource) : Z * DeterministicIdSource :=
  let counter := wrapping u64 (command_counter src + 1) in
  (counter, {| ids_session := ids_session src; ids_seed := ids_seed src;
               command_counter := counter; counters := counters src |}).

(** The trait [IdSource]. *)
Class IdSource (S : Type) := {
  id_next_command : S -> Z * S;
  id_next_event : S -> Z * S;
  id_next_invocation : S -> Z * S;
  id_next_transaction : S -> Z * S;
  id_next_correlation : S -> Z * S;
}.

#[global] Instance DeterministicIdSource_ids : IdSource DeterministicIdSource := {|
  id_next_command := next_command_id;
  id_next_event := next_mixed IdEvent;
  id_next_invocation := next_mixed IdInvocation;
  id_next_transaction := next_mixed IdTransaction;
  id_next_correlation := next_mixed IdCorrelation;
|}.

(** A sequence of draws, of any kinds. *)
Fixpoint draw_all (ks : list IdKind) (src : DeterministicIdSource)
    : list Z * DeterministicIdSource :=
  match ks with
  | [] => ([], src)
  | k :: ks =>
      let '(id, src) := next_mixed k src in
      let '(ids, src) := draw_all ks src in
      (id :: ids, src)
  end.

(** ** The generator is a bijection of words *)

Definition mix (z : Z) : Z :=
  let z := wrap64 (Z.lxor z (Z.shiftr z 30) * MIX1) in
  let z := wrap64 (Z.lxor z (Z.shiftr z 27) * MIX2) in
  Z.lxor z (Z.shiftr z 31).

Lemma splitmix_next_eq s :
  splitmix_next_u64 {| sm_state := s |} = (mix (wrap64 (s + GAMMA)), {| sm_state := wrap64 (s + GAMMA) |}).
Proof. unfold splitmix_next_u64, mix. by rewrite !wrapping_u64. Qed.

Lemma xorshift_u64 k z : 0 <= k -> is_u64 z -> is_u64 (Z.lxor z (Z.shiftr z k)).
Proof. auto with words. Qed.

Lemma mix_range z : is_u64 (mix z).
Proof. apply xorshift_u64; [lia|apply wrap64_range]. Qed.

Lemma mix_inj x y : is_u64 x -> is_u64 y -> mix x = mix y -> x = y.
Proof.
  intros Hx Hy Heq. unfold mix in Heq.
  pose proof (wrap64_range (Z.lxor x (Z.shiftr x 30) * MIX1)) as Hx1.
  pose proof (wrap64_range (Z.lxor y (Z.shiftr y 30) * MIX1)) as Hy1.
  apply xorshift_inj in Heq; [|lia|apply wrap64_range..].
  apply (mul_wrap64_inj _ 0x319642B2D24D8EC3) in Heq;
    [|reflexivity|apply xorshift_u64; [lia|done]..].
  apply xorshift_inj in Heq; [|lia|apply Hx1|apply Hy1].
  apply (mul_wrap64_inj _ 0x96DE1B173F119089) in Heq;
    [|reflexivity|apply xorshift_u64; [lia|done]..].
  apply xorshift_inj in Heq; [done|lia|apply Hx|apply Hy].
Qed.

Lemma wrap64_add_inj c x y : is_u64 x -> is_u64 y -> wrap64 (x + c) = wrap64 (y + c) -> x = y.
Proof.
  unfold wrap64, is_u64. intros Hx Hy Heq.
  rewrite <- (Z.mod_small x (2 ^ 64)), <- (Z.mod_small y (2 ^ 64)) by done.
  replace x with (x + c - c) by lia. replace y with (y + c - c) by lia.
  by rewrite Zminus_mod, Heq, <- Zminus_mod.
Qed.

(** The first draw of a generator, as a function of its seed, is injective. *)
Lemma first_draw_inj x y :
  is_u64 x -> is_u64 y -> first_draw x = first_draw y -> x = y.
Proof.
  intros Hx Hy. unfold first_draw, splitmix_new. rewrite !splitmix_next_eq. cbn [fst].
  intros Heq%mix_inj; [|apply wrap64_range..]. by apply wrap64_add_inj in Heq.
Qed.

Lemma first_draw_range x : is_u64 (first_draw x).
Proof. unfold first_draw, splitmix_new. rewrite splitmix_next_eq. apply mix_range. Qed.

(** ** Identifiers do not collide *)

#[local] Opaque first_draw.

Lemma lor_shift64_inj a b c d :
  is_u64 b -> is_u64 d -> 0 <= a -> 0 <= c ->
  Z.lor (Z.shiftl a 64) b = Z.lor (Z.shiftl c 64) d -> a = c /\ b = d.
Proof.
  intros Hb Hd Ha Hc.
  assert (Hadd : forall x y, is_u64 y -> Z.lor (Z.shiftl x 64) y = x * 2 ^ 64 + y).
  { intros x y Hy. rewrite Z.shiftl_mul_pow2 by lia. symmetry. apply Z.add_nocarry_lor.
    apply Z.bits_inj'. intros i Hi. rewrite Z.land_spec, Z.bits_0.
    destruct (decide (i < 64)).
    - by rewrite Z.mul_pow2_bits_low by lia.
    - rewrite (proj1 (below_pow2_bits 64 y ltac:(lia) (proj1 Hy)) (proj2 Hy) i) by lia.
      apply andb_false_r. }
  rewrite !Hadd by done. unfold is_u64 in *. lia.
Qed.

Lemma lxor_inj_l a b c : Z.lxor a b = Z.lxor a c -> b = c.
Proof.
  intros H. apply (f_equal (Z.lxor a)) in H.
  by rewrite <- !Z.lxor_assoc, !Z.lxor_nilpotent, !Z.lxor_0_l in H.
Qed.

Lemma lxor_inj_r a b c : Z.lxor b a = Z.lxor c a -> b = c.
Proof. rewrite (Z.lxor_comm b), (Z.lxor_comm c). apply lxor_inj_l. Qed.

Lemma rotate_left64_u64 z k : is_u64 z -> 0 <= k <= 64 -> is_u64 (rotate_left64 z k).
Proof.
  intros Hz Hk. unfold rotate_left64. pose proof (wrap64_range (Z.shiftl z k)) as Hl.
  pose proof (shiftr_u64 z (64 - k) Hz ltac:(lia)) as Hr.
  assert (0 <= Z.lor (wrap64 (Z.shiftl z k)) (Z.shiftr z (64 - k)))
    by (apply Z.lor_nonneg; split; [apply Hl|apply Hr]).
  split; [done|]. apply below_pow2_bits; [lia|done|]. intros i Hi. rewrite Z.lor_spec.
  rewrite (proj1 (below_pow2_bits 64 _ ltac:(lia) (proj1 Hl)) (proj2 Hl)) by lia.
  by rewrite (proj1 (below_pow2_bits 64 _ ltac:(lia) (proj1 Hr)) (proj2 Hr)) by lia.
Qed.

Lemma hash_input_u64 session seed k : is_u64 seed -> is_u64 (hash_input session seed k).
Proof.
  intros Hs. unfold hash_input.
  repeat apply lxor_u64; try done; try apply wrap64_range.
  apply rotate_left64_u64; [apply wrap64_range|lia].
Qed.

Lemma session_hash_u64 session seed k : is_u64 (session_hash session seed k).
Proof. apply first_draw_range. Qed.

Lemma counter_hash_u64 h c : is_u64 (counter_hash h c).
Proof. apply first_draw_range. Qed.

Lemma counter_hash_inj h c1 c2 :
  is_u64 h -> is_u64 c1 -> is_u64 c2 -> counter_hash h c1 = counter_hash h c2 -> c1 = c2.
Proof. unfold counter_hash. intros Hh H1 H2 Heq%first_draw_inj; [by apply lxor_inj_l in Heq|by apply lxor_u64..]. Qed.

Lemma session_hash_inj session seed1 seed2 k1 k2 :
  is_u64 seed1 -> is_u64 seed2 -> session_hash session seed1 k1 = session_hash session seed2 k2 ->
  hash_input session seed1 k1 = hash_input session seed2 k2.
Proof. unfold session_hash. intros H1 H2 Heq%first_draw_inj; [done|by apply hash_input_u64..]. Qed.

Lemma mixed_id_inj session seed1 seed2 k1 k2 c1 c2 :
  is_u64 seed1 -> is_u64 seed2 -> is_u64 c1 -> is_u64 c2 ->
  mixed_id session seed1 k1 c1 = mixed_id session seed2 k2 c2 ->
  hash_input session seed1 k1 = hash_input session seed2 k2 /\ c1 = c2.
Proof.
  intros Hs1 Hs2 Hc1 Hc2. unfold mixed_id. intros Heq.
  apply lor_shift64_inj in Heq as [Hh Hc];
    [|apply counter_hash_u64..|apply session_hash_u64|apply session_hash_u64].
  rewrite Hh in Hc. apply counter_hash_inj in Hc; [|apply session_hash_u64|done..].
  by apply session_hash_inj in Hh.
Qed.

Lemma hash_input_kind_inj session seed k1 k2 :
  hash_input session seed k1 = hash_input session seed k2 -> k1 = k2.
Proof.
  unfold hash_input. intros H%lxor_inj_l. destruct k1, k2; first [done | by vm_compute in H].
Qed.

Lemma hash_input_seed_inj session seed1 seed2 k :
  hash_input session seed1 k = hash_input session seed2 k -> seed1 = seed2.
Proof. unfold hash_input. intros H%lxor_inj_r. by apply lxor_inj_l in H. Qed.

(** The counter of a kind, and what a draw does to it. *)
Definition counter_of (k : IdKind) (src : DeterministicIdSource) : Z :=
  nth (kind_slot k) (counters src) 0.

Definition src_wf (src : DeterministicIdSource) : Prop :=
  length (counters src) = 4%nat /\ is_u64 (ids_seed src).

Lemma kind_slot_lt k : (kind_slot k < 4)%nat.
Proof. destruct k; vm_compute; lia. Qed.

Lemma kind_slot_inj k1 k2 : kind_slot k1 = kind_slot k2 -> k1 = k2.
Proof. by destruct k1, k2. Qed.

Lemma counter_of_insert k k' c src :
  length (counters src) = 4%nat ->
  nth (kind_slot k') (<[kind_slot k := c]> (counters src)) 0 =
    if decide (k = k') then c else counter_of k' src.
Proof.
  intros Hl. pose proof (kind_slot_lt k). unfold counter_of.
  rewrite !nth_lookup. case_decide as Hk.
  - subst. by rewrite list_lookup_insert_eq by lia.
  - rewrite list_lookup_insert_ne; [done|]. contradict Hk. by apply kind_slot_inj.
Qed.

Lemma next_mixed_spec k src id src' :
  src_wf src -> 0 <= counter_of k src < 2 ^ 64 - 1 -> next_mixed k src = (id, src') ->
  src_wf src' /\ ids_session src' = ids_session src /\ ids_seed src' = ids_seed src /\
  id = mixed_id (ids_session src) (ids_seed src) k (counter_of k src + 1) /\
  forall k', counter_of k' src' = counter_of k' src + if decide (k = k') then 1 else 0.
Proof.
  intros [Hl Hs] Hc [= <- <-]. unfold src_wf; cbn [counters ids_seed ids_session].
  rewrite wrapping_u64, wrap64_id by (unfold is_u64, counter_of in *; lia).
  split_and!; try done; [by rewrite length_insert|].
  intros k'. unfold counter_of at 1; cbn [counters]. rewrite counter_of_insert by done.
  case_decide; [subst; done|lia].
Qed.

(** Every identifier of a run names a counter the run stepped over. *)
Lemma draw_all_ids ks src ids src' :
  src_wf src -> (forall k, 0 <= counter_of k src < 2 ^ 64 - Z.of_nat (length ks)) ->
  draw_all ks src = (ids, src') ->
  Forall (fun id => exists k c, counter_of k src < c < 2 ^ 64 /\
            id = mixed_id (ids_session src) (ids_seed src) k c) ids /\ NoDup ids.
Proof.
  revert src ids src'. induction ks as [|k ks IH]; intros src ids src' Hwf Hc; cbn [draw_all].
  - intros [= <- <-]. split; constructor.
  - destruct (next_mixed k src) as [id src1] eqn:Hn.
    cbn [length] in Hc. pose proof (Hc k) as Hck.
    apply next_mixed_spec in Hn as (Hwf1 & Hses & Hseed & -> & Hcnt); [|done|lia].
    destruct (draw_all ks src1) as [ids1 src2] eqn:Hd. intros [= <- <-].
    apply IH in Hd as [Hall Hnd]; [|done|intros k'; rewrite Hcnt; specialize (Hc k'); case_decide; lia].
    rewrite Hses, Hseed in Hall. rewrite Forall_forall in Hall. split.
    + constructor; [exists k, (counter_of k src + 1); split; [lia|done]|].
      apply Forall_forall. intros id Hid. destruct (Hall id Hid) as (k' & c & Hlt & ->).
      exists k', c. split; [|done]. rewrite Hcnt in Hlt. case_decide; lia.
    + constructor; [|done]. intros Hin. destruct (Hall _ Hin) as (k' & c & Hlt & Heq).
      destruct Hwf as [_ Hseedu]. rewrite Hcnt in Hlt. pose proof (Hc k').
      apply mixed_id_inj in Heq as [Hh Hcc];
        [|done|done|unfold is_u64; lia|unfold is_u64; case_decide; lia].
      apply hash_input_kind_inj in Hh as ->. rewrite decide_True in Hlt by done. lia.
Qed.

(** ** Sampling below a bound *)

Lemma zone_multiple bound : 1 < bound < 2 ^ 64 ->
  zone_of bound mod bound = 0 /\ 2 ^ 63 <= zone_of bound < 2 ^ 64.
Proof.
  intros Hb. unfold zone_of. change (int_max u64) with (2 ^ 64 - 1).
  pose proof (Z.mod_pos_bound (2 ^ 64 - 1) bound ltac:(lia)).
  pose proof (Z.div_mod (2 ^ 64 - 1) bound ltac:(lia)) as Hd.
  set (q := (2 ^ 64 - 1) / bound) in *. set (r := (2 ^ 64 - 1) mod bound) in *.
  assert (0 < q) by (apply Z.div_str_pos; lia).
  split; [|nia]. replace (2 ^ 64 - 1 - r) with (q * bound) by lia. apply Z.mod_mul. lia.
Qed.

(** The state after [n] draws. *)
Lemma splitmix_state_after s n :
  wrap64 (wrap64 (s + n * GAMMA) + GAMMA) = wrap64 (s + (n + 1) * GAMMA).
Proof. unfold wrap64. rewrite Z.add_mod_idemp_l by lia. f_equal. lia. Qed.

Lemma mix_0 : mix 0 = 0.
Proof. reflexivity. Qed.

#[local] Opaque mix.

Lemma next_below_loop_S fuel bound s :
  next_below_loop (S fuel) bound {| sm_state := s |} =
    let w := wrap64 (s + GAMMA) in
    if mix w <? zone_of bound then Some (mix w mod bound, {| sm_state := w |})
    else next_below_loop fuel bound {| sm_state := w |}.
Proof. cbn [next_below_loop]. unfold next_u64, SplitMix64_rng. by rewrite splitmix_next_eq. Qed.

Lemma next_below_loop_ends bound s (n : nat) :
  1 < bound < 2 ^ 64 -> wrap64 (s + (Z.of_nat n + 1) * GAMMA) = 0 ->
  exists v g, next_below_loop (S n) bound {| sm_state := wrap64 s |} = Some (v, g) /\ 0 <= v < bound.
Proof.
  intros Hb. pose proof (zone_multiple bound Hb) as [_ Hz]. revert s.
  induction n as [|n IH]; intros s Hs; rewrite next_below_loop_S; cbn zeta.
  - replace (wrap64 (wrap64 s + GAMMA)) with 0.
    2: { rewrite <- Hs. unfold wrap64. rewrite Z.add_mod_idemp_l by lia. f_equal; lia. }
    rewrite mix_0, (proj2 (Z.ltb_lt 0 _)) by lia.
    do 2 eexists. split; [done|]. rewrite Z.mod_0_l; lia.
  - destruct (mix _ <? zone_of bound).
    + do 2 eexists. split; [done|]. apply Z.mod_pos_bound. lia.
    + replace (wrap64 (wrap64 s + GAMMA)) with (wrap64 (s + GAMMA))
        by (unfold wrap64; by rewrite Z.add_mod_idemp_l by lia).
      apply IH. rewrite <- Hs. f_equal. lia.
Qed.

Lemma next_below_loop_more `{DeterministicRng G} (fuel fuel' : nat) bound (g : G) r :
  (fuel <= fuel')%nat -> next_below_loop fuel bound g = Some r -> next_below_loop fuel' bound g = Some r.
Proof.
  revert fuel' g. induction fuel as [|fuel IH]; intros fuel' g Hle; [done|].
  destruct fuel' as [|fuel']; [lia|]. cbn [next_below_loop].
  destruct (next_u64 g) as [v g']. destruct (v <? _); [done|]. apply IH. lia.
Qed.

(** The number of draws after which the generator passes through state zero. *)
Definition draws_to_zero (s : Z) : Z := wrap64 ((- s - GAMMA) * 0xF1DE83E19937733D).

Lemma draws_to_zero_spec s : wrap64 (s + (draws_to_zero s + 1) * GAMMA) = 0.
Proof.
  unfold draws_to_zero, wrap64.
  rewrite <- Z.add_mod_idemp_r by lia. rewrite Z.mul_add_distr_r, Z.mul_1_l.
  rewrite <- (Z.add_mod_idemp_l (_ * GAMMA)) by lia. rewrite Z.mul_mod_idemp_l by lia.
  rewrite <- Z.mul_assoc, <- (Z.mul_mod_idemp_r (- s - GAMMA)) by lia.
  change ((0xF1DE83E19937733D * GAMMA) mod 2 ^ 64) with 1. rewrite Z.mul_1_r.
  rewrite Z.add_mod_idemp_l, Z.add_mod_idemp_r by lia.
  by replace (s + (- s - GAMMA + GAMMA)) with 0 by lia.
Qed.

(** ** Properties *)

(** Identifiers of one source never repeat: over any sequence of fewer than
    2^64 draws of event, invocation, transaction and correlation identifiers, in
    any interleaving, all 128-bit values drawn are different. *)
Theorem draws_distinct session seed ks :
  is_u64 seed -> Z.of_nat (length ks) < 2 ^ 64 ->
  NoDup (fst (draw_all ks (ids_new session seed))).
Proof.
  intros Hs Hlen. destruct (draw_all ks (ids_new session seed)) as [ids src'] eqn:Hd. cbn [fst].
  eapply draw_all_ids; [| |exact Hd]; [by split|].
  intros k. unfold counter_of. replace (nth _ _ _) with 0 by by destruct k. lia.
Qed.

Lemma draws_distinct_witness :
  is_u64 7 /\ NoDup (fst (draw_all [IdEvent; IdInvocation; IdEvent; IdCorrelation] (ids_new 42 7))).
Proof.
  split; [unfold is_u64; lia|]. apply draws_distinct; [unfold is_u64; lia|simpl; lia].
Defined.

(** [next_below] always returns, and inside the bound: from every generator
    state a number of draws below 2^64 + 1 suffices, more fuel does not change
    the answer, and the accepted zone is a positive multiple of the bound, so
    every residue has the same number of accepted words (no modulo bias). *)
Theorem next_below_total bound s :
  1 < bound < 2 ^ 64 -> is_u64 s ->
  exists v g, 0 <= v < bound /\
    (forall fuel, 2 ^ 64 <= Z.of_nat fuel ->
       next_below fuel bound {| sm_state := s |} = Some (v, g)) /\
    zone_of bound mod bound = 0 /\ 2 ^ 63 <= zone_of bound < 2 ^ 64.
Proof.
  intros Hb Hs.
  destruct (next_below_loop_ends bound s (Z.to_nat (draws_to_zero s)) Hb) as (v & g & Hl & Hv).
  { rewrite Z2Nat.id by apply wrap64_range. apply draws_to_zero_spec. }
  exists v, g. split; [done|]. split; [|by apply zone_multiple].
  intros fuel Hf. unfold next_below. rewrite (proj2 (Z.leb_gt bound 1)) by lia.
  rewrite wrap64_id in Hl by done. eapply next_below_loop_more; [|exact Hl].
  pose proof (wrap64_range ((- s - GAMMA) * 0xF1DE83E19937733D)) as Hr.
  fold (draws_to_zero s) in Hr. unfold is_u64 in Hr. lia.
Qed.

Lemma next_below_total_witness :
  1 < 10 < 2 ^ 64 /\ is_u64 1 /\
  exists v g, 0 <= v < 10 /\
    (forall fuel, 2 ^ 64 <= Z.of_nat fuel -> next_below fuel 10 {| sm_state := 1 |} = Some (v, g)) /\
    zone_of 10 mod 10 = 0 /\ 2 ^ 63 <= zone_of 10 < 2 ^ 64.
Proof.
  split; [lia|]. split; [unfold is_u64; lia|].
  apply (next_below_total 10 1); [lia|unfold is_u64; lia].
Defined.

Example splitmix_ex : fst (splitmix_next_u64 (splitmix_new 0)) = 0xE220A8397B1DCDAF.
Proof. vm_compute. reflexivity. Qed.
