(* ===== verification/MessageId.v ===== *)
(** * Pub/Sub message identifiers

    Models [crates/fireemu-core-types/src/pubsub_message_id.rs]: the counter of
    the broker, or of the Functions runtime, is mapped by a fixed permutation
    into a range of seventeen digit decimals.  The two publishers own the two
    halves of the counter space. *)
From S2P Require Import Prelude.

Definition FIRST : Z := 22250000000000000.
Definition SPAN : Z := 10000000000000.
Definition STEP : Z := 6180339887499.
Definition BROKER_SPAN : Z := SPAN / 2.

Definition pubsub_message_id (counter : Z) : string :=
  let offset := (counter * STEP) mod SPAN in
  string_of (decimal (FIRST + offset)).

Definition runtime_message_id (counter : Z) : string :=
  let own := (Z.max counter 1 - 1) mod BROKER_SPAN + 1 in
  pubsub_message_id (BROKER_SPAN + own).

Example first_id_ex : pubsub_message_id 1 = "22256180339887499".
Proof. vm_compute. reflexivity. Qed.
Example second_id_ex : pubsub_message_id 2 = "22252360679774998".
Proof. vm_compute. reflexivity. Qed.
Example span_id_ex : pubsub_message_id SPAN = "22250000000000000".
Proof. vm_compute. reflexivity. Qed.

(** ** Lemmas *)

(** The step is invertible modulo the span. *)
Lemma step_inj x y : (x * STEP) mod SPAN = (y * STEP) mod SPAN -> x mod SPAN = y mod SPAN.
Proof.
  intros Heq.
  assert (Hred : forall z, ((z * STEP) mod SPAN * 1322628862499) mod SPAN = z mod SPAN).
  { intros z. rewrite Z.mul_mod_idemp_l, <- Z.mul_assoc, <- Z.mul_mod_idemp_r by done.
    change ((STEP * 1322628862499) mod SPAN) with 1. by rewrite Z.mul_1_r. }
  by rewrite <- (Hred x), <- (Hred y), Heq.
Qed.

Lemma id_number_range c : 10 ^ 16 <= FIRST + (c * STEP) mod SPAN < 10 ^ 17.
Proof.
  pose proof (Z.mod_pos_bound (c * STEP) SPAN ltac:(done)). unfold FIRST, SPAN in *. lia.
Qed.

Lemma message_id_eq_iff x y :
  pubsub_message_id x = pubsub_message_id y <-> x mod SPAN = y mod SPAN.
Proof.
  unfold pubsub_message_id. split.
  - intros Heq%(f_equal bytes_of).
    pose proof (id_number_range x). pose proof (id_number_range y).
    rewrite !bytes_of_string_of in Heq by (apply digits_ok_bytes, decimal_digits; lia).
    apply (f_equal dec_value) in Heq. rewrite !decimal_value in Heq by lia.
    apply step_inj. lia.
  - intros Heq. do 3 f_equal.
    by rewrite <- (Z.mul_mod_idemp_l x), <- (Z.mul_mod_idemp_l y), Heq by done.
Qed.

Lemma message_id_form c :
  exists l, bytes_of (pubsub_message_id c) = l /\ digits_ok l /\ length l = 17%nat /\
    FIRST <= dec_value l < FIRST + SPAN.
Proof.
  unfold pubsub_message_id. pose proof (id_number_range c) as Hr.
  assert (Hd : digits_ok (decimal (FIRST + (c * STEP) mod SPAN))) by (apply decimal_digits; lia).
  eexists. split; [done|]. rewrite bytes_of_string_of by by apply digits_ok_bytes.
  rewrite decimal_value by lia. split; [done|]. split.
  - pose proof (dec_value_bound _ Hd) as [_ Hb]. rewrite decimal_value in Hb by lia.
    pose proof (dec_aux_length (S (Z.to_nat (Z.log2 (FIRST + (c * STEP) mod SPAN))))
                  (FIRST + (c * STEP) mod SPAN) [] 17 ltac:(lia) ltac:(lia)) as Hle.
    fold (decimal (FIRST + (c * STEP) mod SPAN)) in Hle. cbn [length] in Hle.
    assert (16 < Z.of_nat (length (decimal (FIRST + (c * STEP) mod SPAN)))); [|lia].
    apply (Z.pow_lt_mono_r_iff 10); lia.
  - pose proof (Z.mod_pos_bound (c * STEP) SPAN ltac:(done)). lia.
Qed.

(** The counter slot a runtime publish takes. *)
Definition runtime_slot (counter : Z) : Z := BROKER_SPAN + ((Z.max counter 1 - 1) mod BROKER_SPAN + 1).

Lemma runtime_slot_range c : BROKER_SPAN < runtime_slot c <= SPAN.
Proof.
  unfold runtime_slot. pose proof (Z.mod_pos_bound (Z.max c 1 - 1) BROKER_SPAN ltac:(done)).
  change SPAN with (BROKER_SPAN + BROKER_SPAN). lia.
Qed.

Lemma slots_distinct x y : 0 < x <= SPAN -> 0 < y <= SPAN -> x mod SPAN = y mod SPAN -> x = y.
Proof.
  intros Hx Hy Heq. change SPAN with 10000000000000 in *.
  pose proof (Z.div_mod x 10000000000000). pose proof (Z.div_mod y 10000000000000). lia.
Qed.

(** ** Properties *)

(** Every message identifier, of either publisher, is a decimal of exactly
    seventeen digits in the recorded range; two different broker counters
    never share one, a broker message and a runtime message never share one
    whatever the order of their publishes, and the runtime repeats an identifier
    only after [BROKER_SPAN] publishes. *)
Theorem message_ids_distinct :
  (forall c, exists l, bytes_of (pubsub_message_id c) = l /\ digits_ok l /\ length l = 17%nat /\
     FIRST <= dec_value l < FIRST + SPAN) /\
  (forall c1 c2, 1 <= c1 <= BROKER_SPAN -> 1 <= c2 <= BROKER_SPAN ->
     pubsub_message_id c1 = pubsub_message_id c2 -> c1 = c2) /\
  (forall c r, 1 <= c <= BROKER_SPAN -> pubsub_message_id c <> runtime_message_id r) /\
  (forall r1 r2, 1 <= r1 -> 1 <= r2 -> Z.abs (r1 - r2) < BROKER_SPAN ->
     runtime_message_id r1 = runtime_message_id r2 -> r1 = r2).
Proof.
  assert (Hs : SPAN = BROKER_SPAN + BROKER_SPAN) by done.
  assert (Hb : 0 < BROKER_SPAN) by done.
  split_and!.
  - apply message_id_form.
  - intros c1 c2 H1 H2 Heq%message_id_eq_iff%slots_distinct; lia.
  - intros c r Hc Heq. change (runtime_message_id r) with (pubsub_message_id (runtime_slot r)) in Heq.
    pose proof (runtime_slot_range r). apply message_id_eq_iff, slots_distinct in Heq; lia.
  - intros r1 r2 H1 H2 Hgap Heq.
    change (pubsub_message_id (runtime_slot r1) = pubsub_message_id (runtime_slot r2)) in Heq.
    pose proof (runtime_slot_range r1). pose proof (runtime_slot_range r2).
    apply message_id_eq_iff, slots_distinct in Heq; [|lia..]. unfold runtime_slot in Heq.
    rewrite !Z.max_l in Heq by lia.
    change BROKER_SPAN with 5000000000000 in *.
    pose proof (Z.div_mod (r1 - 1) 5000000000000). pose proof (Z.div_mod (r2 - 1) 5000000000000).
    lia.
Qed.
