(* ===== verification/Ids.v ===== *)
(** * Identifiers

    Models [crates/fireemu-core-types/src/ids.rs]: the syntax checks behind the
    identifier newtypes and the session epoch.  A text is its UTF-8 bytes; the
    numeric identifiers are the [Z] they wrap. *)
From S2P Require Import Prelude.

Definition MAX_ID_UTF8_BYTES : Z := 1500.

Inductive IdSyntaxError :=
| IdEmpty
| TooManyBytes (nbytes maximum : Z)
| InvalidCharacter (offset : nat)
| LeadingOrTrailingHyphen
| ContainsSlash
| DotSegment
| ReservedDunder
| ControlCharacter (offset : nat).

Definition len (s : string) : Z := Z.of_nat (length (bytes_of s)).

Definition hyphenated_byte (b : Z) : bool :=
  is_ascii_lowercase b || is_ascii_digit b || (b =? ch "-").

Definition validate_lowercase_hyphenated (s : string) (max_bytes : Z) : result unit IdSyntaxError :=
  let bs := bytes_of s in
  if bool_decide (bs = []) then Err IdEmpty
  else if max_bytes <? len s then Err (TooManyBytes (len s) max_bytes)
  else match position (fun b => negb (hyphenated_byte b)) bs with
       | Some offset => Err (InvalidCharacter offset)
       | None =>
           if starts_with [ch "-"] bs || ends_with [ch "-"] bs then Err LeadingOrTrailingHyphen
           else Ok tt
       end.

(** [s.char_indices().find(|(_, c)| c.is_control())]: the control characters are
    U+0000 to U+001F, U+007F and U+0080 to U+009F.  The last group is encoded as
    the byte C2 followed by 80 to 9F, and in UTF-8 the byte C2 only starts a
    character, so the search runs over the bytes. *)
Fixpoint control_offset (i : nat) (bs : list Z) : option nat :=
  match bs with
  | [] => None
  | b :: rest =>
      if (b <? 32) || (b =? 127) then Some i
      else if (b =? 0xC2) && match rest with b' :: _ => (0x80 <=? b') && (b' <=? 0x9F) | [] => false end
      then Some i
      else control_offset (S i) rest
  end.

Definition is_reserved_dunder (s : string) : bool :=
  let bs := bytes_of s in
  (4 <=? len s) && starts_with [ch "_"; ch "_"] bs && ends_with [ch "_"; ch "_"] bs.

Definition validate_path_segment (s : string) : result unit IdSyntaxError :=
  let bs := bytes_of s in
  if bool_decide (bs = []) then Err IdEmpty
  else if MAX_ID_UTF8_BYTES <? len s then Err (TooManyBytes (len s) MAX_ID_UTF8_BYTES)
  else if contains_byte (ch "/") bs then Err ContainsSlash
  else match control_offset 0 bs with
       | Some offset => Err (ControlCharacter offset)
       | None =>
           if bool_decide (s = ".") || bool_decide (s = "..") then Err DotSegment
           else if is_reserved_dunder s then Err ReservedDunder
           else Ok tt
       end.

Definition DEFAULT_DATABASE : string := "(default)".

Definition validate_project_id (s : string) : result unit IdSyntaxError :=
  validate_lowercase_hyphenated s 63.

Definition validate_database_id (s : string) : result unit IdSyntaxError :=
  if bool_decide (s = DEFAULT_DATABASE) then Ok tt else validate_lowercase_hyphenated s 63.

Definition has_demo_prefix (s : string) : bool := starts_with (bytes_of "demo-") (bytes_of s).

(** [DocumentId::ordered_successor]: the text followed by U+0000. *)
Definition ordered_successor (s : string) : string := s +:+ String (ascii_of_N 0) EmptyString.

(** ** Epochs *)

Definition Epoch := Z.
Definition epoch_initial : Epoch := 0.
Definition epoch_next (e : Epoch) : option Epoch := checked u64 (e + 1).

Example dunder_ex : is_reserved_dunder "____" = true /\ is_reserved_dunder "___" = false.
Proof. split; vm_compute; reflexivity. Qed.
Example c1_control_ex :
  validate_path_segment (string_of [97; 0xC2; 0x85]) = Err (ControlCharacter 1).
Proof. vm_compute. reflexivity. Qed.

(** ** Lemmas *)

Lemma string_compare_cons c s t :
  String.compare (String c s) (String c t) = String.compare s t.
Proof. cbn. by rewrite (proj2 (OrderedTypeEx.Ascii_as_OT.cmp_eq c c) eq_refl : Ascii.compare c c = Eq). Qed.

Lemma ordered_successor_lt s : ord_lt s (ordered_successor s).
Proof.
  unfold ord_lt, ordered_successor, ord_cmp; cbn [string_RustOrd].
  induction s as [|c s IH]; [done|].
  change (String c s +:+ ?x) with (String c (s +:+ x)). by rewrite string_compare_cons.
Qed.

Lemma ordered_successor_least s t : ord_lt s t -> ord_le (ordered_successor s) t.
Proof.
  unfold ord_lt, ord_le, ordered_successor, ord_cmp; cbn [string_RustOrd].
  revert t. induction s as [|c s IH]; intros [|c' t]; try done.
  - intros _. change (EmptyString +:+ ?x) with x. cbn.
    destruct (Ascii.compare _ c') eqn:Hc; try done; [by destruct t|].
    unfold Ascii.compare in Hc. 
    by destruct (N_of_ascii c').
  - change (String c s +:+ ?x) with (String c (s +:+ x)). cbn.
    destruct (Ascii.compare c c'); auto; done.
Qed.

(** A control byte is always found. *)
Lemma control_offset_found i bs b :
  b ∈ bs -> b < 32 -> exists o, control_offset i bs = Some o.
Proof.
  intros Hin Hb. revert i. induction bs as [|b' bs IH]; intros i; [by apply not_elem_of_nil in Hin|].
  cbn [control_offset]. apply elem_of_cons in Hin as [<-|Hin].
  - rewrite (proj2 (Z.ltb_lt b 32)) by done. eauto.
  - destruct (_ || _); [eauto|]. destruct (_ && _); eauto.
Qed.

Lemma ordered_successor_bytes s : bytes_of (ordered_successor s) = bytes_of s ++ [0].
Proof. unfold ordered_successor. by rewrite bytes_of_app. Qed.

Lemma ordered_successor_invalid s : exists e, validate_path_segment (ordered_successor s) = Err e.
Proof.
  unfold validate_path_segment. rewrite ordered_successor_bytes.
  destruct (bool_decide _); [eauto|]. destruct (_ <? _); [eauto|].
  destruct (contains_byte _ _); [eauto|].
  destruct (control_offset_found 0 (bytes_of s ++ [0]) 0) as [o ->]; [set_solver|lia|eauto].
Qed.

(** ** Properties *)

(** [DocumentId::ordered_successor] is the immediate successor in byte
    order: it orders after the identifier, and nothing lies between the two, so
    as an exclusive bound it separates an identifier from every longer one
    (identifiers that extend it order after the successor, not before it), and it
    is never itself an identifier the syntax check accepts. *)
Theorem ordered_successor_immediate s :
  ord_lt s (ordered_successor s) /\
  (forall t, ord_lt s t -> ord_le (ordered_successor s) t) /\
  (forall x, ord_le (ordered_successor s) (s +:+ String x EmptyString)) /\
  (exists e, validate_path_segment (ordered_successor s) = Err e).
Proof.
  split_and!; [apply ordered_successor_lt|apply ordered_successor_least| |
               apply ordered_successor_invalid].
  intros x. apply ordered_successor_least. unfold ord_lt, ord_cmp; cbn [string_RustOrd].
  induction s as [|c s IH]; [done|].
  change (String c s +:+ ?y) with (String c (s +:+ y)). by rewrite string_compare_cons.
Qed.
