(* ===== verification/Retry.v ===== *)
(** * Retry policy

    Models [crates/fireemu-core-events/src/retry.rs]: the validated policy and
    the backoff of a failed attempt (doublings, then a fixed linear step, capped).
    Durations are nanoseconds; the arithmetic that can leave [i128] is checked or
    saturating as in the source. *)
From S2P Require Import Prelude Time.

Definition LINEAR_STEP_NANOS : Z := 2000000000.

Record RetryPolicy := {
  max_attempts : Z;
  base_backoff : LogicalDuration;
  max_backoff : LogicalDuration;
  max_doublings : option Z;
  max_retry_duration : option LogicalDuration;
}.

Inductive RetryPolicyError := ZeroAttempts | NegativeBackoff | BaseExceedsMax.

Definition try_new (attempts : Z) (base max : LogicalDuration) : result RetryPolicy RetryPolicyError :=
  if attempts =? 0 then Err ZeroAttempts
  else if (base <? 0) || (max <? 0) then Err NegativeBackoff
  else if max <? base then Err BaseExceedsMax
  else Ok {| max_attempts := attempts; base_backoff := base; max_backoff := max;
             max_doublings := None; max_retry_duration := None |}.

Definition try_with_limits (attempts : Z) (base max : LogicalDuration) (doublings : Z)
    (window : option LogicalDuration) : result RetryPolicy RetryPolicyError :=
  if match window with Some d => d <? 0 | None => false end then Err NegativeBackoff
  else match try_new attempts base max with
       | Err e => Err e
       | Ok p => Ok {| max_attempts := max_attempts p; base_backoff := base_backoff p;
                       max_backoff := max_backoff p; max_doublings := Some doublings;
                       max_retry_duration := window |}
       end.

Definition backoff_shift (attempt : Z) : Z := saturating u32 (attempt - 1).

Definition backoff_doublings (p : RetryPolicy) (shift : Z) : Z :=
  match max_doublings p with None => shift | Some limit => Z.min shift limit end.

Definition backoff_for_attempt (p : RetryPolicy) (attempt : Z) : LogicalDuration :=
  let base := base_backoff p in
  let cap := max_backoff p in
  let shift := backoff_shift attempt in
  let doublings := backoff_doublings p shift in
  let exponential := if doublings <? 120 then checked i128 (base * Z.shiftl 1 doublings) else None in
  let linear_steps := saturating u32 (shift - doublings) in
  let scaled :=
    match exponential with
    | Some unit => checked i128 (unit + saturating i128 (LINEAR_STEP_NANOS * linear_steps))
    | None => None
    end in
  match scaled with None => cap | Some v => Z.min v cap end.

Definition allows_retry_after (p : RetryPolicy) (attempt : Z) : bool := attempt <? max_attempts p.

Definition allows_retry_after_elapsed (p : RetryPolicy) (attempt : Z) (elapsed : LogicalDuration)
    : bool :=
  if allows_retry_after p attempt then true
  else match max_retry_duration p with
       | None => false
       | Some limit =>
           match dur_checked_add elapsed (backoff_for_attempt p attempt) with
           | None => false
           | Some next => next <=? limit
           end
       end.

(** ** Well-formed policies: what the constructors promise *)

Definition policy_wf (p : RetryPolicy) : Prop :=
  1 <= max_attempts p <= int_max u32 /\
  0 <= base_backoff p <= max_backoff p /\ max_backoff p <= int_max i128 /\
  (forall d, max_doublings p = Some d -> 0 <= d <= int_max u32) /\
  (forall w, max_retry_duration p = Some w -> 0 <= w).

Lemma try_with_limits_wf attempts base max doublings window p :
  fits u32 attempts -> fits i128 base -> fits i128 max -> fits u32 doublings ->
  try_with_limits attempts base max doublings window = Ok p \/ try_new attempts base max = Ok p ->
  policy_wf p.
Proof.
  unfold fits. change (int_min u32) with 0. intros Ha Hb Hm Hd.
  unfold try_with_limits, try_new, policy_wf.
  destruct (attempts =? 0) eqn:?; [by destruct (match window with Some _ => _ | None => _ end); intros [?|?]|].
  destruct ((base <? 0) || (max <? 0)) eqn:?;
    [by destruct (match window with Some _ => _ | None => _ end); intros [?|?]|].
  destruct (max <? base) eqn:?;
    [by destruct (match window with Some _ => _ | None => _ end); intros [?|?]|].
  destruct window as [w|]; [destruct (w <? 0) eqn:?|]; intros [[= <-]|[= <-]];
    cbn [max_attempts base_backoff max_backoff max_doublings max_retry_duration];
    split_and!; try lia; intros ? [= <-]; lia.
Qed.

(** The backoff before the cap: [base * 2^doublings] and then two seconds a step. *)
Definition backoff_spec (p : RetryPolicy) (attempt : Z) : Z :=
  let shift := Z.max 0 (attempt - 1) in
  let doublings := backoff_doublings p shift in
  base_backoff p * 2 ^ doublings + LINEAR_STEP_NANOS * (shift - doublings).

Lemma backoff_shift_eq attempt : 0 <= attempt <= int_max u32 -> backoff_shift attempt = Z.max 0 (attempt - 1).
Proof. unfold backoff_shift, saturating. change (int_min u32) with 0. lia. Qed.

Lemma doublings_range p shift :
  policy_wf p -> 0 <= shift -> 0 <= backoff_doublings p shift <= shift.
Proof.
  intros (_ & _ & _ & Hd & _) Hs. unfold backoff_doublings.
  destruct (max_doublings p) as [d|]; [specialize (Hd d eq_refl)|]; lia.
Qed.

(** The two outcomes of the computation: the doublings are counted, or the code
    takes the cap at once because there are 120 of them or more. *)
Lemma backoff_cases p attempt :
  policy_wf p -> 0 <= attempt <= int_max u32 ->
  let d := backoff_doublings p (Z.max 0 (attempt - 1)) in
  backoff_for_attempt p attempt =
    if d <? 120 then Z.min (backoff_spec p attempt) (max_backoff p) else max_backoff p.
Proof.
  intros Hwf Ha. cbn zeta. unfold backoff_for_attempt, backoff_spec.
  rewrite backoff_shift_eq by done. set (shift := Z.max 0 (attempt - 1)).
  pose proof (doublings_range p shift Hwf ltac:(lia)) as Hd.
  set (d := backoff_doublings p shift) in *. destruct Hwf as (_ & Hb & Hmax & _).
  destruct (Z.ltb_spec d 120) as [Hlt|]; [|done].
  rewrite Z.shiftl_1_l. assert (Hpow : 0 < 2 ^ d) by (apply Z.pow_pos_nonneg; lia).
  rewrite (saturating_id u32) by int_lia.
  assert (Hlin : 0 <= LINEAR_STEP_NANOS * (shift - d) <= 2 ^ 63)
    by (unfold LINEAR_STEP_NANOS; int_lia).
  rewrite (saturating_id i128) by int_lia.
  destruct (checked i128 (base_backoff p * 2 ^ d)) as [u|] eqn:Hu.
  - apply checked_Some in Hu as [-> _].
    destruct (checked i128 (_ + _)) as [v|] eqn:Hv; [by apply checked_Some in Hv as [-> _]|].
    apply checked_None in Hv. rewrite Z.min_r; int_simpl; nia.
  - apply checked_None in Hu. rewrite Z.min_r; int_simpl; nia.
Qed.

Lemma backoff_spec_mono p a b : policy_wf p -> a <= b -> backoff_spec p a <= backoff_spec p b.
Proof.
  intros Hwf Hab. unfold backoff_spec.
  set (sa := Z.max 0 (a - 1)). set (sb := Z.max 0 (b - 1)).
  assert (0 <= sa <= sb) as Hs by lia. destruct Hwf as (_ & Hb & _ & Hd & _).
  unfold backoff_doublings, LINEAR_STEP_NANOS.
  assert (Hmono : forall x y, 0 <= x <= y -> base_backoff p * 2 ^ x <= base_backoff p * 2 ^ y)
    by (intros; apply Z.mul_le_mono_nonneg_l; [lia|apply Z.pow_le_mono_r; lia]).
  destruct (max_doublings p) as [d|].
  - specialize (Hd d eq_refl). pose proof (Hmono (Z.min sa d) (Z.min sb d) ltac:(lia)). lia.
  - pose proof (Hmono sa sb ltac:(lia)). lia.
Qed.

Lemma backoff_spec_nonneg p a : policy_wf p -> 0 <= backoff_spec p a.
Proof.
  intros Hwf. pose proof (doublings_range p (Z.max 0 (a - 1)) Hwf ltac:(lia)).
  unfold backoff_spec, LINEAR_STEP_NANOS. destruct Hwf as (_ & Hb & _).
  assert (0 <= 2 ^ backoff_doublings p (Z.max 0 (a - 1))) by (apply Z.pow_nonneg; lia). nia.
Qed.

(** ** Properties *)

(** The backoff of every attempt lies between zero and the policy's maximum
    and never shrinks as attempts go on, for every policy the constructors
    accept. *)
Theorem backoff_bounded_monotone p a b :
  policy_wf p -> 0 <= a <= b -> b <= int_max u32 ->
  0 <= backoff_for_attempt p a <= backoff_for_attempt p b /\ backoff_for_attempt p b <= max_backoff p.
Proof.
  intros Hwf Hab Hb. rewrite !backoff_cases by (done || lia).
  pose proof (backoff_spec_nonneg p a Hwf). pose proof (backoff_spec_mono p a b Hwf ltac:(lia)).
  destruct (Hwf) as (_ & ? & ? & Hd & _).
  assert (backoff_doublings p (Z.max 0 (a - 1)) <= backoff_doublings p (Z.max 0 (b - 1)))
    by (unfold backoff_doublings; destruct (max_doublings p); lia).
  repeat case_match; lia.
Qed.

Definition sample_policy : RetryPolicy :=
  {| max_attempts := 5; base_backoff := 4000000000; max_backoff := 13000000000;
     max_doublings := Some 1; max_retry_duration := None |}.

Lemma sample_policy_wf : policy_wf sample_policy.
Proof. unfold policy_wf; cbn. int_simpl. split_and!; try lia; intros ? [= <-]; lia. Qed.

Lemma backoff_bounded_monotone_witness :
  policy_wf sample_policy /\
  0 <= backoff_for_attempt sample_policy 2 <= backoff_for_attempt sample_policy 5 /\
  backoff_for_attempt sample_policy 5 <= max_backoff sample_policy.
Proof.
  split; [apply sample_policy_wf|].
  apply backoff_bounded_monotone; [apply sample_policy_wf|lia|int_lia].
Defined.

Example backoff_sequence_ex :
  map (backoff_for_attempt sample_policy) [1; 2; 3; 4; 5] =
  [4000000000; 8000000000; 10000000000; 12000000000; 13000000000].
Proof. reflexivity. Qed.

(** The backoff is the documented formula, [base * 2^(attempt-1)] for the
    first doublings and two seconds more per step after them, capped, whenever
    the base is positive and the cap is below 2^120 ns. *)
Theorem backoff_is_formula p a :
  policy_wf p -> 0 <= a <= int_max u32 -> 0 < base_backoff p -> max_backoff p < 2 ^ 120 ->
  backoff_for_attempt p a = Z.min (backoff_spec p a) (max_backoff p).
Proof.
  intros Hwf Ha Hb Hm. rewrite backoff_cases by done.
  pose proof (doublings_range p (Z.max 0 (a - 1)) Hwf ltac:(lia)) as Hd.
  destruct (Z.ltb_spec (backoff_doublings p (Z.max 0 (a - 1))) 120); [done|].
  unfold backoff_spec, LINEAR_STEP_NANOS.
  assert (2 ^ 120 <= 2 ^ backoff_doublings p (Z.max 0 (a - 1))) by (apply Z.pow_le_mono_r; lia).
  rewrite Z.min_r; nia.
Qed.

Lemma backoff_is_formula_witness :
  backoff_for_attempt sample_policy 4 = Z.min (backoff_spec sample_policy 4) 13000000000.
Proof. apply (backoff_is_formula sample_policy 4); [apply sample_policy_wf|int_lia|cbn; lia..]. Defined.

(** A policy with a zero base and a positive maximum does not follow the
    formula: the backoff is zero for the first 120 attempts and the maximum from
    attempt 121 on, because 120 doublings are taken to overflow whatever the
    base. *)
Theorem zero_base_backoff_jumps attempts cap a :
  0 < cap <= int_max i128 -> 1 <= attempts <= int_max u32 -> 1 <= a <= int_max u32 ->
  exists p, try_new attempts 0 cap = Ok p /\ backoff_spec p a = 0 /\
    backoff_for_attempt p a = if a <=? 120 then 0 else cap.
Proof.
  intros Hc Hn Ha. unfold try_new.
  rewrite (proj2 (Z.eqb_neq attempts 0)), (proj2 (Z.ltb_ge cap 0)) by lia. cbn [orb Z.ltb Z.compare].
  eexists. split; [done|]. set (p := Build_RetryPolicy _ _ _ _ _).
  assert (Hwf : policy_wf p) by (unfold policy_wf; cbn; int_simpl; split_and!; try lia; by intros).
  assert (Hspec : backoff_spec p a = 0) by (unfold backoff_spec; cbn; lia).
  split; [done|]. rewrite backoff_cases, Hspec by (done || lia).
  cbn [backoff_doublings max_doublings max_backoff p].
  destruct (Z.ltb_spec (Z.max 0 (a - 1)) 120), (Z.leb_spec a 120); lia.
Qed.

Lemma zero_base_backoff_jumps_witness :
  exists p, try_new 200 0 1000 = Ok p /\ backoff_spec p 121 = 0 /\ backoff_for_attempt p 121 = 1000.
Proof. apply (zero_base_backoff_jumps 200 1000 121); int_lia. Defined.
