(* ===== verification/Event.v ===== *)
(** * Logical events and their delivery state

    Models [crates/fireemu-core-events/src/event.rs] and
    [crates/fireemu-core-events/src/state.rs]: the event, its validated type and
    the delivery state machine

    Pending -> Leased -> Running -> Succeeded
       |          |         |-> RetryWaiting -> Pending
       |          |         |-> DeadLettered
       |          |         `-> Cancelled
       `----------+-----------> DiscardedStaleEpoch

    Each transition is a [&mut self] method: a function of the record in the
    state monad, so that what an error leaves behind is visible. *)
From S2P Require Import Prelude Time Ids Retry.

Inductive EventSource :=
| SrcDatabase | SrcFirestore | SrcStorage | SrcScheduler | SrcManual | SrcPubSub | SrcAuth
| SrcEventarc.

(** ** Event types *)

Inductive EventTypeError :=
| EtEmpty
| EtTooLong
| EtInvalidCharacter (offset : nat).

Definition EventType := string.
Definition EVENT_TYPE_MAX_BYTES : Z := 256.

Definition event_type_byte (b : Z) : bool :=
  is_ascii_alphanumeric b || (b =? ch ".") || (b =? ch "_") || (b =? ch "-").

Definition event_type_try_new (value : string) : result EventType EventTypeError :=
  let bs := bytes_of value in
  if bool_decide (bs = []) then Err EtEmpty
  else if EVENT_TYPE_MAX_BYTES <? Z.of_nat (length bs) then Err EtTooLong
  else match position (fun b => negb (event_type_byte b)) bs with
       | Some offset => Err (EtInvalidCharacter offset)
       | None => Ok value
       end.

Record LogicalEvent := {
  event_id : Z;
  ev_session_id : Z;
  ev_epoch : Epoch;
  ev_source : EventSource;
  ev_type : EventType;
  ev_subject : string;
  logical_time : LogicalInstant;
  causation_id : option Z;
  correlation_id : Z;
  payload : list Z;
}.

(** ** Delivery states *)

Inductive EventState :=
| Pending
| Leased
| Running
| Succeeded
| RetryWaiting (retry_at : LogicalInstant)
| DeadLettered (attempts : Z)
| Cancelled
| DiscardedStaleEpoch.

#[global] Instance EventState_eq_dec : EqDecision EventState.
Proof. solve_decision. Defined.

Definition state_is_terminal (s : EventState) : bool :=
  match s with
  | Succeeded | DeadLettered _ | Cancelled | DiscardedStaleEpoch => true
  | _ => false
  end.

Definition state_name (s : EventState) : string :=
  match s with
  | Pending => "Pending"
  | Leased => "Leased"
  | Running => "Running"
  | Succeeded => "Succeeded"
  | RetryWaiting _ => "RetryWaiting"
  | DeadLettered _ => "DeadLettered"
  | Cancelled => "Cancelled"
  | DiscardedStaleEpoch => "DiscardedStaleEpoch"
  end.

Inductive EventTransitionError :=
| Terminal (state : string)
| InvalidTransition (from action : string)
| RetryNotDue
| EpochIsCurrent
| AttemptOverflow
| RetryInstantOverflow.

Inductive FailureOutcome :=
| RetryScheduled (retry_at : LogicalInstant)
| OutcomeDeadLettered.

Record EventRecord := { event : LogicalEvent; state : EventState; attempt : Z }.

Definition record_new (e : LogicalEvent) : EventRecord :=
  {| event := e; state := Pending; attempt := 0 |}.

Definition record_is_terminal (r : EventRecord) : bool := state_is_terminal (state r).

Definition set_state (s : EventState) (r : EventRecord) : EventRecord :=
  {| event := event r; state := s; attempt := attempt r |}.
Definition set_attempt (n : Z) (r : EventRecord) : EventRecord :=
  {| event := event r; state := state r; attempt := n |}.

Definition Ev := M EventRecord EventTransitionError.

Definition guard (action : string) (allowed : bool) : Ev unit := fun r =>
  if state_is_terminal (state r) then (Err (Terminal (state_name (state r))), r)
  else if negb allowed then (Err (InvalidTransition (state_name (state r)) action), r)
  else (Ok tt, r).

Definition is_pending (s : EventState) : bool := match s with Pending => true | _ => false end.
Definition is_leased (s : EventState) : bool := match s with Leased => true | _ => false end.
Definition is_running (s : EventState) : bool := match s with Running => true | _ => false end.
Definition is_retry_waiting (s : EventState) : bool :=
  match s with RetryWaiting _ => true | _ => false end.

Definition lease : Ev unit :=
  let! r := st_get in
  do! guard "lease" (is_pending (state r)) in
  st_put (set_state Leased r).

Definition start : Ev unit :=
  let! r := st_get in
  do! guard "start" (is_leased (state r)) in
  let! n := ok_or (checked u32 (attempt r + 1)) AttemptOverflow in
  do! st_put (set_attempt n r) in
  st_put (set_state Running (set_attempt n r)).

Definition succeed : Ev unit :=
  let! r := st_get in
  do! guard "succeed" (is_running (state r)) in
  st_put (set_state Succeeded r).

(** The time since the event, as [fail] measures it. *)
Definition elapsed_since (now earlier : LogicalInstant) : LogicalDuration :=
  if now <? earlier then 0 else default (int_max i128) (checked_duration_since now earlier).

Definition fail (policy : RetryPolicy) (now : LogicalInstant) : Ev FailureOutcome :=
  let! r := st_get in
  do! guard "fail" (is_running (state r)) in
  let elapsed := elapsed_since now (logical_time (event r)) in
  if allows_retry_after_elapsed policy (attempt r) elapsed then
    let! retry_at := ok_or (inst_checked_add now (backoff_for_attempt policy (attempt r)))
                           RetryInstantOverflow in
    do! st_put (set_state (RetryWaiting retry_at) r) in
    st_ret (RetryScheduled retry_at)
  else
    do! st_put (set_state (DeadLettered (attempt r)) r) in
    st_ret OutcomeDeadLettered.

Definition interrupt : Ev unit :=
  let! r := st_get in
  do! guard "interrupt" (is_running (state r)) in
  let r := set_attempt (saturating u32 (attempt r - 1)) r in
  st_put (set_state Pending r).

Definition retry_due (now : LogicalInstant) : Ev unit :=
  let! r := st_get in
  do! guard "retry" (is_retry_waiting (state r)) in
  match state r with
  | RetryWaiting retry_at =>
      if now <? retry_at then st_fail RetryNotDue else st_put (set_state Pending r)
  | _ => st_put (set_state Pending r)
  end.

Definition cancel : Ev unit :=
  let! r := st_get in
  do! guard "cancel" true in
  st_put (set_state Cancelled r).

Definition record_discard_stale (current_epoch : Epoch) : Ev unit :=
  let! r := st_get in
  do! guard "discard" true in
  if current_epoch <=? ev_epoch (event r) then st_fail EpochIsCurrent
  else st_put (set_state DiscardedStaleEpoch r).

(** ** The transitions as one interface *)

Inductive EventAction :=
| ALease | AStart | ASucceed | AInterrupt | ACancel
| AFail (policy : RetryPolicy) (now : LogicalInstant)
| ARetryDue (now : LogicalInstant)
| ADiscard (current : Epoch).

(** A call, without the outcome that [fail] returns. *)
Definition no_value {A E} (r : result A E) : result unit E := match r with Ok _ => Ok tt | Err e => Err e end.

Definition call (a : EventAction) (r : EventRecord) : result unit EventTransitionError * EventRecord :=
  match a with
  | ALease => lease r
  | AStart => start r
  | ASucceed => succeed r
  | AInterrupt => interrupt r
  | ACancel => cancel r
  | AFail p now => prod_map no_value id (fail p now r)
  | ARetryDue now => retry_due now r
  | ADiscard e => record_discard_stale e r
  end.

(** The record a call leaves, and whether it succeeded. *)
Definition apply_action (a : EventAction) (r : EventRecord) : bool * EventRecord := prod_map is_ok id (call a r).

(** The arrows of the diagram: the call that takes each one, under which condition on its arguments, and what it does to the
    attempt counter. *)
Inductive event_step : EventAction -> EventRecord -> EventRecord -> Prop :=
| step_lease e n : event_step ALease {| event := e; state := Pending; attempt := n |}
                                     {| event := e; state := Leased; attempt := n |}
| step_start e n : n + 1 <= int_max u32 ->
    event_step AStart {| event := e; state := Leased; attempt := n |}
                      {| event := e; state := Running; attempt := n + 1 |}
| step_succeed e n : event_step ASucceed {| event := e; state := Running; attempt := n |}
                                         {| event := e; state := Succeeded; attempt := n |}
| step_retry p now e n :
    allows_retry_after_elapsed p n (elapsed_since now (logical_time e)) = true ->
    fits i128 (now + backoff_for_attempt p n) ->
    event_step (AFail p now) {| event := e; state := Running; attempt := n |}
               {| event := e; state := RetryWaiting (now + backoff_for_attempt p n); attempt := n |}
| step_dead p now e n :
    allows_retry_after_elapsed p n (elapsed_since now (logical_time e)) = false ->
    event_step (AFail p now) {| event := e; state := Running; attempt := n |}
               {| event := e; state := DeadLettered n; attempt := n |}
| step_interrupt e n :
    event_step AInterrupt {| event := e; state := Running; attempt := n |}
               {| event := e; state := Pending; attempt := Z.max 0 (n - 1) |}
| step_retry_due now at_ e n : at_ <= now ->
    event_step (ARetryDue now) {| event := e; state := RetryWaiting at_; attempt := n |}
               {| event := e; state := Pending; attempt := n |}
| step_cancel e s n : state_is_terminal s = false ->
    event_step ACancel {| event := e; state := s; attempt := n |}
               {| event := e; state := Cancelled; attempt := n |}
| step_discard c e s n : state_is_terminal s = false -> ev_epoch e < c ->
    event_step (ADiscard c) {| event := e; state := s; attempt := n |}
               {| event := e; state := DiscardedStaleEpoch; attempt := n |}.

(** Why a call that takes no arrow is refused. *)
Definition action_name (a : EventAction) : string :=
  match a with
  | ALease => "lease" | AStart => "start" | ASucceed => "succeed" | AInterrupt => "interrupt" | ACancel => "cancel"
  | AFail _ _ => "fail" | ARetryDue _ => "retry" | ADiscard _ => "discard"
  end.

Definition refusal (a : EventAction) (r : EventRecord) : EventTransitionError :=
  if state_is_terminal (state r) then Terminal (state_name (state r))
  else match a, state r with
  | AStart, Leased => AttemptOverflow
  | AFail _ _, Running => RetryInstantOverflow
  | ARetryDue _, RetryWaiting _ => RetryNotDue
  | ADiscard _, _ => EpochIsCurrent
  | _, s => InvalidTransition (state_name s) (action_name a)
  end.

(** ** Lemmas *)

Create HintDb event.
#[global] Hint Constructors event_step : event.

(** Runs a transition on a record with a known state. *)
Ltac run_event :=
  unfold apply_action, call, lease, start, succeed, interrupt, cancel, fail, retry_due,
    record_discard_stale, guard, st_bind, st_get, st_put, st_ret, st_fail, ok_or;
  cbn [event state attempt set_state set_attempt state_is_terminal is_pending is_leased is_running
       is_retry_waiting negb prod_map no_value fst snd is_ok id].

(** Every call takes its arrow, or there is none and it is refused. *)
Lemma call_spec a r : fits u32 (attempt r) ->
  (exists r', event_step a r r' /\ call a r = (Ok tt, r')) \/ (forall r', ~ event_step a r r') /\ call a r = (Err (refusal a r), r).
Proof.
  destruct r as [e s n]; cbn [attempt]. intros Hn.
  destruct a, s; run_event; try (right; split; [intros r' Hs; by inversion Hs|done]);
    try (left; eexists; split; [by constructor|done]).
  - unfold checked. destruct (decide (fits u32 (n + 1))) as [Hf|Hf]; run_event; [left; eexists; split; [constructor; int_lia|done]|].
    right. split; [|done]. intros r' Hs. inversion Hs; subst. apply Hf. int_lia.
  - left. eexists. split; [constructor|]. assert (Hs : saturating u32 (n - 1) = Z.max 0 (n - 1)) by (unfold saturating; int_lia). by rewrite Hs.
  - destruct (allows_retry_after_elapsed _ _ _) eqn:Ha; run_event; [|left; eexists; split; [by apply step_dead|done]].
    unfold inst_checked_add, checked. destruct (decide _) as [Hf|Hf]; run_event; [left; eexists; split; [by apply step_retry|done]|].
    right. split; [|done]. intros r' Hs. inversion Hs; subst; congruence.
  - destruct (Z.ltb_spec now retry_at); run_event; [|left; eexists; split; [by constructor|done]]. right. split; [|done]. intros r' Hs. inversion Hs; subst. lia.
  - destruct (Z.leb_spec current (ev_epoch e)); run_event; [right; split; [intros r' Hs; inversion Hs; subst; lia|done]|left; eexists; split; [by constructor|done]].
  - destruct (Z.leb_spec current (ev_epoch e)); run_event; [right; split; [intros r' Hs; inversion Hs; subst; lia|done]|left; eexists; split; [by constructor|done]].
  - destruct (Z.leb_spec current (ev_epoch e)); run_event; [right; split; [intros r' Hs; inversion Hs; subst; lia|done]|left; eexists; split; [by constructor|done]].
  - destruct (Z.leb_spec current (ev_epoch e)); run_event; [right; split; [intros r' Hs; inversion Hs; subst; lia|done]|left; eexists; split; [by constructor|done]].
Qed.

(** Every call either fails and leaves the record as it was, or takes one arrow
    of the diagram. *)
Lemma apply_action_step a r : fits u32 (attempt r) ->
  (apply_action a r).1 = false /\ (apply_action a r).2 = r \/ (apply_action a r).1 = true /\ event_step a r (apply_action a r).2.
Proof. intros Hn. unfold apply_action. destruct (call_spec a r Hn) as [(r' & Hs & ->)|[_ ->]]; [right|left]; by split. Qed.

Lemma fail_outcome p now r o r' : fail p now r = (Ok o, r') -> state r' = match o with RetryScheduled at_ => RetryWaiting at_ | OutcomeDeadLettered => DeadLettered (attempt r) end.
Proof.
  destruct r as [e s n]. destruct s; run_event; try done. destruct (allows_retry_after_elapsed _ _ _); run_event; [|by intros [= <- <-]].
  destruct (inst_checked_add _ _); run_event; [|done]. by intros [= <- <-].
Qed.

Lemma event_step_attempt a r r' : event_step a r r' -> fits u32 (attempt r) -> fits u32 (attempt r').
Proof. destruct 1; cbn [attempt]; unfold saturating; int_simpl; lia. Qed.

Lemma event_step_event a r r' : event_step a r r' -> event r' = event r.
Proof. by destruct 1. Qed.

Lemma event_step_not_terminal a r r' : event_step a r r' -> record_is_terminal r = false.
Proof. by destruct 1. Qed.

(** ** Reachability *)

Definition run_actions (l : list EventAction) (r : EventRecord) : EventRecord :=
  fold_left (fun r a => (apply_action a r).2) l r.

Lemma run_actions_attempt l r : fits u32 (attempt r) -> fits u32 (attempt (run_actions l r)).
Proof.
  revert r. induction l as [|a l IH]; intros r Hr; cbn; [done|]. apply IH.
  destruct (apply_action_step a r) as [[_ ->]|[_ Hs]]; [done..|].
  by eapply event_step_attempt.
Qed.

Lemma run_actions_event l r : 0 <= attempt r -> fits u32 (attempt r) ->
  event (run_actions l r) = event r.
Proof.
  revert r. induction l as [|a l IH]; intros r H0 Hr; cbn; [done|].
  destruct (apply_action_step a r) as [[_ ->]|[_ Hs]]; [done|by apply IH|].
  pose proof (event_step_attempt _ _ _ Hs Hr).
  rewrite IH; [by eapply event_step_event|int_lia|done].
Qed.

(** What the attempt counter says in each state, under a policy with an attempt
    limit and no retry window. *)
Definition attempt_inv (p : RetryPolicy) (r : EventRecord) : Prop :=
  0 <= attempt r /\
  match state r with
  | Running => 1 <= attempt r <= max_attempts p
  | Pending | Leased | RetryWaiting _ => attempt r < max_attempts p
  | DeadLettered n => n = attempt r /\ attempt r = max_attempts p
  | Succeeded | Cancelled | DiscardedStaleEpoch => attempt r <= max_attempts p
  end.

(** The actions of one event under one policy. *)
Definition under_policy (p : RetryPolicy) (a : EventAction) : Prop :=
  match a with AFail p' _ => p' = p | _ => True end.

Lemma attempt_inv_step p a r :
  policy_wf p -> max_retry_duration p = None -> under_policy p a ->
  attempt_inv p r -> attempt_inv p (apply_action a r).2.
Proof.
  intros Hwf Hnw Hpol. destruct r as [e s n]. intros [H0 Hs]. cbn [attempt state] in H0, Hs.
  destruct Hwf as (Hmax & _).
  destruct a, s; run_event; cbn in Hs; unfold attempt_inv;
    cbn [attempt state set_state set_attempt]; try (split; lia); try done.
  - destruct (checked u32 (n + 1)) eqn:Hc; run_event; [|cbn; lia].
    apply checked_Some in Hc as [-> Hc]. cbn. lia.
  - unfold saturating. int_simpl. lia.
  - cbn in Hpol. subst policy. unfold allows_retry_after_elapsed, allows_retry_after. rewrite Hnw.
    destruct (Z.ltb_spec n (max_attempts p)); run_event; [|cbn; lia].
    destruct (inst_checked_add _ _); run_event; cbn; lia.
  - destruct (now <? retry_at); run_event; cbn; lia.
  - destruct (current <=? _); run_event; cbn; lia.
  - destruct (current <=? _); run_event; cbn; lia.
  - destruct (current <=? _); run_event; cbn; lia.
  - destruct (current <=? _); run_event; cbn; lia.
Qed.

Lemma run_actions_app l l' r : run_actions (l ++ l') r = run_actions l' (run_actions l r).
Proof. apply fold_left_app. Qed.

Lemma run_actions_terminal l r :
  fits u32 (attempt r) -> record_is_terminal r = true -> run_actions l r = r.
Proof.
  intros H0 Ht. induction l as [|a l IH]; [done|]. cbn.
  destruct (apply_action_step a r H0) as [[_ ->]|[_ Hs%event_step_not_terminal]]; [done|congruence].
Qed.

(** One delivery that fails at [now] and is offered again at [due]. *)
Definition failing_delivery (p : RetryPolicy) (failure : LogicalInstant * LogicalInstant) : list EventAction := [ALease; AStart; AFail p failure.1; ARetryDue failure.2].

(** The instants are representable, and the retry comes once the longest backoff has passed. *)
Definition failure_ok (p : RetryPolicy) (e : LogicalEvent) (failure : LogicalInstant * LogicalInstant) : Prop :=
  fits i128 (failure.1 - logical_time e) /\ fits i128 failure.1 /\ fits i128 (failure.1 + max_backoff p) /\ failure.1 + max_backoff p <= failure.2.

(** The [n]-th failure is retried while the attempts are not used up, or while the retry still falls into the retry duration of the event. *)
Definition may_retry (p : RetryPolicy) (e : LogicalEvent) (n : Z) (now : LogicalInstant) : Prop :=
  n < max_attempts p \/ match max_retry_duration p with Some w => Z.max 0 (now - logical_time e) + backoff_for_attempt p n <= w | None => False end.

#[global] Instance may_retry_dec p e n now : Decision (may_retry p e n now).
Proof. unfold may_retry. destruct (max_retry_duration p); apply _. Defined.

Lemma backoff_range p n : policy_wf p -> 1 <= n <= int_max u32 -> 0 <= backoff_for_attempt p n <= max_backoff p.
Proof.
  intros Hwf Hn. rewrite backoff_cases by (done || int_lia). pose proof (backoff_spec_nonneg p n Hwf). destruct Hwf as (_ & ? & _). case_match; lia.
Qed.

Lemma allows_may_retry p e n failure : policy_wf p -> (forall w, max_retry_duration p = Some w -> w <= int_max i128) -> 1 <= n <= int_max u32 -> failure_ok p e failure ->
  allows_retry_after_elapsed p n (elapsed_since failure.1 (logical_time e)) = bool_decide (may_retry p e n failure.1).
Proof.
  intros Hwf Hw Hn (H1 & H2 & _). pose proof (backoff_range p n Hwf Hn) as Hb. apply eq_true_iff_eq. rewrite bool_decide_eq_true. unfold allows_retry_after_elapsed, allows_retry_after, may_retry.
  assert (He : elapsed_since failure.1 (logical_time e) = Z.max 0 (failure.1 - logical_time e)).
  { unfold elapsed_since, checked_duration_since. destruct (Z.ltb_spec failure.1 (logical_time e)); [lia|]. unfold checked. rewrite decide_True by done. cbn [default from_option id]. lia. }
  rewrite He. destruct (Z.ltb_spec n (max_attempts p)); [by split; [left|]|]. destruct (max_retry_duration p) as [w|]; [|split; [done|intros [?|?]; [lia|done]]].
  specialize (Hw w eq_refl). unfold dur_checked_add, checked. case_decide as Hf; [rewrite Z.leb_le; lia|]. split; [done|]. intros [?|?]; [lia|]. destruct Hf. int_lia.
Qed.

Lemma failing_delivery_spec p e n failure : policy_wf p -> (forall w, max_retry_duration p = Some w -> w <= int_max i128) -> failure_ok p e failure -> 0 <= n < int_max u32 ->
  run_actions (failing_delivery p failure) {| event := e; state := Pending; attempt := n |} =
    {| event := e; state := (if decide (may_retry p e (n + 1) failure.1) then Pending else DeadLettered (n + 1)); attempt := n + 1 |}.
Proof.
  intros Hwf Hw Hok Hn. pose proof (allows_may_retry p e (n + 1) failure Hwf Hw ltac:(lia) Hok) as Ha. pose proof (backoff_range p (n + 1) Hwf ltac:(lia)) as Hb. destruct Hok as (_ & H2 & H3 & H4).
  unfold run_actions, failing_delivery. cbn [fold_left]. assert (Hstart : checked u32 (n + 1) = Some (n + 1)) by (unfold checked; rewrite decide_True; [done|int_lia]).
  run_event. rewrite Hstart. run_event. rewrite Ha. case_decide as Hm; [rewrite bool_decide_true by done|rewrite bool_decide_false by done]; run_event; [|done].
  unfold inst_checked_add, checked. rewrite decide_True by int_lia. run_event. by rewrite (proj2 (Z.ltb_ge _ _)) by lia.
Qed.

(** The number of the first failure that is not retried. *)
Fixpoint last_attempt (p : RetryPolicy) (e : LogicalEvent) (n : Z) (failures : list (LogicalInstant * LogicalInstant)) : option Z :=
  match failures with [] => None | failure :: failures => if decide (may_retry p e (n + 1) failure.1) then last_attempt p e (n + 1) failures else Some (n + 1) end.

Lemma failing_deliveries_spec p e failures : policy_wf p -> (forall w, max_retry_duration p = Some w -> w <= int_max i128) -> Forall (failure_ok p e) failures ->
  forall n, 0 <= n -> n + Z.of_nat (length failures) <= int_max u32 ->
  run_actions (flat_map (failing_delivery p) failures) {| event := e; state := Pending; attempt := n |} =
    match last_attempt p e n failures with
    | Some m => {| event := e; state := DeadLettered m; attempt := m |}
    | None => {| event := e; state := Pending; attempt := n + Z.of_nat (length failures) |}
    end.
Proof.
  intros Hwf Hw. induction 1 as [|failure failures Hok _ IH]; intros n H0 Hlen; [cbn; by rewrite Z.add_0_r|]. cbn [flat_map last_attempt length] in *. rewrite run_actions_app, failing_delivery_spec by (done || lia).
  case_decide as Hm; [|apply run_actions_terminal; [cbn; int_lia|done]]. rewrite IH by lia. destruct (last_attempt _ _ _ _); [done|]. f_equal. lia.
Qed.

Lemma last_attempt_Some p e failures m : forall n, last_attempt p e n failures = Some m -> exists i failure, m = n + Z.of_nat i + 1 /\ failures !! i = Some failure /\ ~ may_retry p e m failure.1 /\
  forall j failure', (j < i)%nat -> failures !! j = Some failure' -> may_retry p e (n + Z.of_nat j + 1) failure'.1.
Proof.
  induction failures as [|failure failures IH]; intros n; [done|]. cbn [last_attempt]. case_decide as Hm.
  - intros (i & f & -> & Hi & Hno & Hall)%IH. exists (S i), f. split_and!; [lia|done|done|]. intros [|j] f' Hj Hf'; [injection Hf' as <-; by rewrite Z.add_0_r|].
    replace (n + Z.of_nat (S j) + 1) with (n + 1 + Z.of_nat j + 1) by lia. apply (Hall j); [lia|done].
  - intros [= <-]. exists 0%nat, failure. split_and!; [lia|done|done|lia].
Qed.

Lemma last_attempt_None p e failures : forall n i failure, last_attempt p e n failures = None -> failures !! i = Some failure -> may_retry p e (n + Z.of_nat i + 1) failure.1.
Proof.
  induction failures as [|failure failures IH]; intros n [|i] f; try done; cbn [last_attempt]; case_decide as Hm; try done.
  - intros _ [= <-]. by rewrite Z.add_0_r.
  - intros Hn Hi. replace (n + Z.of_nat (S i) + 1) with (n + 1 + Z.of_nat i + 1) by lia. by apply IH.
Qed.

(** ** Properties *)

(** C28. The delivery methods implement the state diagram and nothing else: a call, with its arguments, takes its arrow of
    the diagram exactly when there is one - the retry is due, the current epoch is newer, the policy allows a retry at an
    instant that exists, an attempt can still be counted - and otherwise leaves the record exactly as it was and names the
    reason; and the outcome of a failed delivery is the state that it leaves.  The arrows are those of the methods'
    documentation, which has an interruption, from running back to pending, and a cancellation from every state that is
    not terminal; the diagram at the head of the source file draws neither. *)
Theorem event_methods_refine_diagram :
  (forall a r, fits u32 (attempt r) ->
     (exists r', event_step a r r' /\ call a r = (Ok tt, r')) \/ (forall r', ~ event_step a r r') /\ call a r = (Err (refusal a r), r)) /\
  (forall p now r o r', fail p now r = (Ok o, r') -> state r' = match o with RetryScheduled at_ => RetryWaiting at_ | OutcomeDeadLettered => DeadLettered (attempt r) end).
Proof. split; [apply call_spec|apply fail_outcome]. Qed.

(** Terminal states never regress: once a record is succeeded, dead-lettered,
    cancelled or discarded, no sequence of calls changes it, and the event inside
    a record never changes at all. *)
Theorem terminal_states_absorb l r :
  fits u32 (attempt r) ->
  event (run_actions l r) = event r /\ (record_is_terminal r = true -> run_actions l r = r).
Proof.
  intros Hr. split; [apply run_actions_event; [int_lia|done]|].
  by apply run_actions_terminal.
Qed.

Definition sample_event : LogicalEvent :=
  {| event_id := 1; ev_session_id := 0; ev_epoch := 0; ev_source := SrcManual; ev_type := "a.b";
     ev_subject := "s"; logical_time := 0; causation_id := None; correlation_id := 0;
     payload := [] |}.

Lemma terminal_states_absorb_witness :
  event (run_actions [ALease; AStart; ASucceed; ACancel] (record_new sample_event)) = sample_event.
Proof. apply (terminal_states_absorb _ (record_new sample_event)). cbn; int_lia. Defined.

(** A retry that is not due is refused, and one that is due is taken. *)
Lemma event_methods_refine_diagram_witness :
  let waiting := {| event := sample_event; state := RetryWaiting 10; attempt := 1 |} in
  call (ARetryDue 9) waiting = (Err RetryNotDue, waiting) /\ exists r', event_step (ARetryDue 10) waiting r' /\ call (ARetryDue 10) waiting = (Ok tt, r').
Proof.
  cbv zeta. set (waiting := {| event := sample_event; state := RetryWaiting 10; attempt := 1 |}). assert (Hf : fits u32 (attempt waiting)) by (cbn; int_lia).
  destruct event_methods_refine_diagram as [H _]. split.
  - destruct (H (ARetryDue 9) waiting Hf) as [(r' & _ & Hc)|[_ Hc]]; [discriminate Hc|exact Hc].
  - destruct (H (ARetryDue 10) waiting Hf) as [Hs|[_ Hc]]; [exact Hs|discriminate Hc].
Defined.

(** Attempts are bounded by the policy: under a policy with an attempt limit
    and no retry window, whatever calls are made on a fresh event, the attempts
    started never exceed [max_attempts], and an event is dead-lettered exactly
    when its last allowed attempt failed. *)
Theorem attempts_never_exceed_policy p l e :
  policy_wf p -> max_retry_duration p = None -> Forall (under_policy p) l ->
  let r := run_actions l (record_new e) in
  0 <= attempt r <= max_attempts p /\
  (forall n, state r = DeadLettered n -> n = max_attempts p /\ attempt r = max_attempts p).
Proof.
  intros Hwf Hnw Hl r.
  assert (Hinv : attempt_inv p r).
  { subst r. assert (H0 : attempt_inv p (record_new e)) by (destruct Hwf; split; cbn; lia).
    revert H0. generalize (record_new e). induction Hl as [|a l Ha Hl IH]; intros r0 H0; [done|].
    cbn. apply IH. by apply attempt_inv_step. }
  destruct Hinv as [H0 Hs]. split.
  - destruct (state r); lia.
  - intros n Hn. rewrite Hn in Hs. lia.
Qed.

Lemma attempts_never_exceed_policy_witness :
  let r := run_actions [ALease; AStart; AFail sample_policy 0] (record_new sample_event) in
  0 <= attempt r <= 5 /\ (forall n, state r = DeadLettered n -> n = 5 /\ attempt r = 5).
Proof.
  apply (attempts_never_exceed_policy sample_policy); [apply sample_policy_wf|done|].
  repeat constructor.
Defined.


(** Five failures, a second or more apart. *)
Definition sample_failures : list (LogicalInstant * LogicalInstant) :=
  map (fun i => let now := i * 1000000000000 in (now, now + max_backoff sample_policy)) [1; 2; 3; 4; 5].

