(* ===== verification/Outbox.v ===== *)
(** * The outbox

    Models [crates/fireemu-core-events/src/outbox.rs]: the event records of a
    session with the indexes dispatch and the retry sweep read.  The maps and
    sets are [gmap] and [gset]; an iteration is in key order ([btree_iter]).
    [reindex] unwraps the dispatch queue of a pending record with [expect]:
    [None] is that panic. *)
From S2P Require Import Prelude Time Ids Retry Event.

Definition DEFAULT_TERMINAL_RETENTION : Z := 1000.

Inductive OutboxError :=
| DuplicateEventId (id : Z)
| UnknownEventId (id : Z).

Definition PendingKey : Type := Z * Z.

Record Outbox := {
  records : gmap Z EventRecord;
  pending : gset PendingKey;
  pending_by_queue : gmap string (gset PendingKey);
  queue_by_id : gmap Z string;
  retrying : gset PendingKey;
  retry_at_by_id : gmap Z Z;
  active : gset Z;
  terminal : list Z;
  terminal_retention : Z;
  evicted : Z;
}.

Definition with_terminal_retention (retention : Z) : Outbox :=
  {| records := ∅; pending := ∅; pending_by_queue := ∅; queue_by_id := ∅; retrying := ∅;
     retry_at_by_id := ∅; active := ∅; terminal := []; terminal_retention := Z.max retention 1;
     evicted := 0 |}.

Definition outbox_new : Outbox := with_terminal_retention DEFAULT_TERMINAL_RETENTION.

Definition outbox_len (o : Outbox) : nat := size (records o).
Definition outbox_is_empty (o : Outbox) : bool := bool_decide (records o = ∅).
Definition dispatch_visits (o : Outbox) : nat := size (pending o).
Definition record (o : Outbox) (id : Z) : option EventRecord := records o !! id.

(** ** Indexing *)

(** The [while] loop of [evict]: each turn pops one identifier, so it is the
    recursion on the queue. *)
Fixpoint evict_loop (retention : Z) (queue : list Z) (recs : gmap Z EventRecord) (count : Z)
    : list Z * gmap Z EventRecord * Z :=
  match queue with
  | [] => ([], recs, count)
  | oldest :: rest =>
      if retention <? Z.of_nat (length queue)
      then evict_loop retention rest (delete oldest recs) (wrapping u64 (count + 1))
      else (queue, recs, count)
  end.

Definition evict (o : Outbox) : Outbox :=
  let '(queue, recs, count) :=
    evict_loop (terminal_retention o) (terminal o) (records o) (evicted o) in
  {| records := recs; pending := pending o; pending_by_queue := pending_by_queue o;
     queue_by_id := queue_by_id o; retrying := retrying o; retry_at_by_id := retry_at_by_id o;
     active := active o; terminal := queue; terminal_retention := terminal_retention o;
     evicted := count |}.

Definition remove_queued (key : PendingKey) (queue : option string)
    (by_queue : gmap string (gset PendingKey)) : gmap string (gset PendingKey) :=
  match queue with
  | Some q =>
      match by_queue !! q with
      | Some keys =>
          let keys := keys ∖ {[key]} in
          if bool_decide (keys = ∅) then delete q by_queue else <[q := keys]> by_queue
      | None => by_queue
      end
  | None => by_queue
  end.

(** [reindex] up to its [match]: the record leaves the pending and retry indexes. *)
Definition unindex (o : Outbox) (id : Z) (key : PendingKey) : Outbox :=
  {| records := records o;
     pending := pending o ∖ {[key]};
     pending_by_queue := remove_queued key (queue_by_id o !! id) (pending_by_queue o);
     queue_by_id := queue_by_id o;
     retrying := match retry_at_by_id o !! id with
                 | Some retry_at => retrying o ∖ {[(retry_at, id)]}
                 | None => retrying o
                 end;
     retry_at_by_id := delete id (retry_at_by_id o);
     active := active o; terminal := terminal o; terminal_retention := terminal_retention o;
     evicted := evicted o |}.

Definition index_pending (o : Outbox) (id : Z) (key : PendingKey) (queue : string) : Outbox :=
  {| records := records o;
     pending := {[key]} ∪ pending o;
     pending_by_queue :=
       <[queue := {[key]} ∪ default ∅ (pending_by_queue o !! queue)]> (pending_by_queue o);
     queue_by_id := queue_by_id o; retrying := retrying o; retry_at_by_id := retry_at_by_id o;
     active := {[id]} ∪ active o; terminal := terminal o;
     terminal_retention := terminal_retention o; evicted := evicted o |}.

Definition index_active (o : Outbox) (id : Z) : Outbox :=
  {| records := records o; pending := pending o; pending_by_queue := pending_by_queue o;
     queue_by_id := queue_by_id o; retrying := retrying o; retry_at_by_id := retry_at_by_id o;
     active := {[id]} ∪ active o; terminal := terminal o;
     terminal_retention := terminal_retention o; evicted := evicted o |}.

Definition index_retry (o : Outbox) (id : Z) (retry_at : LogicalInstant) : Outbox :=
  {| records := records o; pending := pending o; pending_by_queue := pending_by_queue o;
     queue_by_id := queue_by_id o;
     retrying := {[(retry_at, id)]} ∪ retrying o;
     retry_at_by_id := <[id := retry_at]> (retry_at_by_id o);
     active := {[id]} ∪ active o; terminal := terminal o;
     terminal_retention := terminal_retention o; evicted := evicted o |}.

(** The terminal arm before its [evict]. *)
Definition retire (o : Outbox) (id : Z) : Outbox :=
  {| records := records o; pending := pending o; pending_by_queue := pending_by_queue o;
     queue_by_id := delete id (queue_by_id o); retrying := retrying o;
     retry_at_by_id := retry_at_by_id o;
     active := active o ∖ {[id]};
     terminal := if bool_decide (id ∈ active o) then terminal o ++ [id] else terminal o;
     terminal_retention := terminal_retention o; evicted := evicted o |}.

Definition reindex (o : Outbox) (id : Z) : option Outbox :=
  match records o !! id with
  | None => Some o
  | Some r =>
      let key := (logical_time (event r), id) in
      let queue := queue_by_id o !! id in
      let o := unindex o id key in
      match state r with
      | Pending =>
          match queue with
          | None => None
          | Some q => Some (index_pending o id key q)
          end
      | Leased | Running => Some (index_active o id)
      | RetryWaiting retry_at => Some (index_retry o id retry_at)
      | Succeeded | DeadLettered _ | Cancelled | DiscardedStaleEpoch =>
          let o' := retire o id in
          Some (if bool_decide (id ∈ active o) then evict o' else o')
      end
  end.

(** ** Operations *)

Definition set_records (o : Outbox) (m : gmap Z EventRecord) : Outbox :=
  {| records := m; pending := pending o; pending_by_queue := pending_by_queue o;
     queue_by_id := queue_by_id o; retrying := retrying o; retry_at_by_id := retry_at_by_id o;
     active := active o; terminal := terminal o; terminal_retention := terminal_retention o;
     evicted := evicted o |}.

Definition set_queue (o : Outbox) (id : Z) (queue : string) : Outbox :=
  {| records := records o; pending := pending o; pending_by_queue := pending_by_queue o;
     queue_by_id := <[id := queue]> (queue_by_id o); retrying := retrying o;
     retry_at_by_id := retry_at_by_id o; active := active o; terminal := terminal o;
     terminal_retention := terminal_retention o; evicted := evicted o |}.

(** The outcome of an operation with the outbox it leaves; [None] is a panic. *)
Definition Outcome (A : Type) : Type := option (result A OutboxError * Outbox).

Definition enqueue_in_queue (o : Outbox) (e : LogicalEvent) (queue : string) : Outcome unit :=
  let id := event_id e in
  match records o !! id with
  | Some _ => Some (Err (DuplicateEventId id), o)
  | None =>
      let o := set_queue (set_records o (<[id := record_new e]> (records o))) id queue in
      o ← reindex o id; Some (Ok tt, o)
  end.

Definition enqueue (o : Outbox) (e : LogicalEvent) : Outcome unit := enqueue_in_queue o e "".

(** [f] is the closure on [&mut EventRecord]: its value and the record it leaves. *)
Definition update {R} (o : Outbox) (id : Z) (f : EventRecord -> R * EventRecord) : Outcome R :=
  match records o !! id with
  | None => Some (Err (UnknownEventId id), o)
  | Some r =>
      let (out, r') := f r in
      o ← reindex (set_records o (<[id := r']> (records o))) id; Some (Ok out, o)
  end.

Definition dispatchable (o : Outbox) : list LogicalEvent :=
  omap (fun '(_, id) => event <$> records o !! id) (btree_iter (pending o)).

Definition dispatchable_queue_heads (o : Outbox) : list (string * PendingKey) :=
  omap (fun '(queue, keys) => (fun key => (queue, key)) <$> head (btree_iter keys))
    (btree_map_iter (pending_by_queue o)).

Definition next_dispatchable_in_queue (o : Outbox) (queue : string) (after : PendingKey)
    : option PendingKey :=
  keys ← pending_by_queue o !! queue; btree_next_after keys after.

Definition retries_due (o : Outbox) (now : LogicalInstant) : list Z :=
  map snd (btree_range_to (retrying o) (now, int_max u128)).

Definition retry_sweep_visits (o : Outbox) (now : LogicalInstant) : nat :=
  length (btree_range_to (retrying o) (now, int_max u128)).

Definition discard_closure (current : Epoch) (r : EventRecord) : bool * EventRecord :=
  prod_map is_ok id (record_discard_stale current r).

Fixpoint discard_loop (current : Epoch) (ids : list Z) (discarded : nat) (o : Outbox)
    : option (nat * Outbox) :=
  match ids with
  | [] => Some (discarded, o)
  | id :: ids =>
      '(res, o) ← update o id (discard_closure current);
      let done := match res with Ok b => b | Err _ => false end in
      discard_loop current ids (if done then S discarded else discarded) o
  end.

Definition discard_stale (o : Outbox) (current : Epoch) : option (nat * Outbox) :=
  discard_loop current (btree_iter (active o)) 0 o.

Definition has_active (o : Outbox) : bool := negb (bool_decide (active o = ∅)).

Create HintDb outbox.

(** ** The index invariant

    Every index is a view of [records]: what the indexes say is determined by
    the states of the records, and the queue of terminal records is within the
    retention window ([k] more than it while [reindex] is about to evict). *)

Definition queued (m : gmap string (gset PendingKey)) (q : string) (k : PendingKey) : Prop :=
  exists keys, m !! q = Some keys /\ k ∈ keys.

Record outbox_wf_slack (k : Z) (o : Outbox) : Prop := {
  wf_keyed : forall id r, records o !! id = Some r -> event_id (event r) = id /\ fits u32 (attempt r);
  wf_pending : forall t id, (t, id) ∈ pending o <->
    exists r, records o !! id = Some r /\ state r = Pending /\ logical_time (event r) = t;
  wf_queue_nonempty : forall q keys, pending_by_queue o !! q = Some keys -> keys <> ∅;
  wf_queued : forall q t id, queued (pending_by_queue o) q (t, id) <->
    (t, id) ∈ pending o /\ queue_by_id o !! id = Some q;
  wf_queue : forall id, is_Some (queue_by_id o !! id) <-> id ∈ active o;
  wf_retry_at : forall t id, retry_at_by_id o !! id = Some t <->
    exists r, records o !! id = Some r /\ state r = RetryWaiting t;
  wf_retrying : forall t id, (t, id) ∈ retrying o <-> retry_at_by_id o !! id = Some t;
  wf_active : forall id, id ∈ active o <->
    exists r, records o !! id = Some r /\ record_is_terminal r = false;
  wf_terminal : forall id, id ∈ terminal o <->
    exists r, records o !! id = Some r /\ record_is_terminal r = true;
  wf_nodup : NoDup (terminal o);
  wf_bound : Z.of_nat (length (terminal o)) <= terminal_retention o + k;
  wf_retention : 1 <= terminal_retention o;
}.

Abbreviation outbox_wf := (outbox_wf_slack 0).
Arguments wf_keyed {k} o.
Arguments wf_pending {k} o.
Arguments wf_queue_nonempty {k} o.
Arguments wf_queued {k} o.
Arguments wf_queue {k} o.
Arguments wf_retry_at {k} o.
Arguments wf_retrying {k} o.
Arguments wf_active {k} o.
Arguments wf_terminal {k} o.
Arguments wf_nodup {k} o.
Arguments wf_bound {k} o.
Arguments wf_retention {k} o.

(** The outbox between the two halves of [reindex]: the record [r] of [id] is in
    no pending or retry index, everything else is as in [outbox_wf]. *)
Record unindexed (id : Z) (r : EventRecord) (o : Outbox) : Prop := {
  un_record : records o !! id = Some r;
  un_keyed : forall i r, records o !! i = Some r -> event_id (event r) = i /\ fits u32 (attempt r);
  un_pending : forall t i, (t, i) ∈ pending o <->
    i <> id /\ exists r, records o !! i = Some r /\ state r = Pending /\ logical_time (event r) = t;
  un_queue_nonempty : forall q keys, pending_by_queue o !! q = Some keys -> keys <> ∅;
  un_queued : forall q t i, queued (pending_by_queue o) q (t, i) <->
    (t, i) ∈ pending o /\ queue_by_id o !! i = Some q;
  un_queue : forall i, i <> id -> is_Some (queue_by_id o !! i) <-> i ∈ active o;
  un_queue_id : record_is_terminal r = false -> is_Some (queue_by_id o !! id);
  un_retry_at : forall t i, retry_at_by_id o !! i = Some t <->
    i <> id /\ exists r, records o !! i = Some r /\ state r = RetryWaiting t;
  un_retrying : forall t i, (t, i) ∈ retrying o <-> retry_at_by_id o !! i = Some t;
  un_active : forall i, i <> id -> i ∈ active o <->
    exists r, records o !! i = Some r /\ record_is_terminal r = false;
  un_terminal : forall i, i <> id -> i ∈ terminal o <->
    exists r, records o !! i = Some r /\ record_is_terminal r = true;
  un_terminal_id : id ∈ terminal o -> record_is_terminal r = true /\ id ∉ active o;
  un_retired : record_is_terminal r = true -> id ∈ active o \/ id ∈ terminal o;
  un_nodup : NoDup (terminal o);
  un_bound : Z.of_nat (length (terminal o)) <= terminal_retention o + 0;
  un_retention : 1 <= terminal_retention o;
}.

Lemma queued_lookup m q keys k : m !! q = Some keys -> queued m q k <-> k ∈ keys.
Proof. unfold queued. intros ->. naive_solver. Qed.

Lemma not_queued m q k : m !! q = None -> ~ queued m q k.
Proof. unfold queued. intros ->. naive_solver. Qed.

Lemma queued_ext m m' q k : m !! q = m' !! q -> queued m q k <-> queued m' q k.
Proof. unfold queued. by intros ->. Qed.

Lemma queued_remove key queue m q k :
  queued (remove_queued key queue m) q k <-> queued m q k /\ ~ (k = key /\ queue = Some q).
Proof.
  unfold remove_queued. destruct queue as [q0|]; [|naive_solver].
  destruct (m !! q0) as [keys|] eqn:E0.
  - case_bool_decide as He; destruct (decide (q = q0)) as [->|Hne].
    + rewrite (queued_lookup m q0 keys) by done.
      pose proof (not_queued (delete q0 m) q0 k (lookup_delete_eq _ _)).
      assert (k ∉ keys ∖ {[key]}) by (rewrite He; apply not_elem_of_empty).
      rewrite elem_of_difference, elem_of_singleton in *. naive_solver.
    + rewrite (queued_ext _ m) by (by apply lookup_delete_ne). naive_solver.
    + rewrite (queued_lookup _ q0 _ k (lookup_insert_eq _ _ _)), (queued_lookup m q0 keys) by done.
      rewrite elem_of_difference, elem_of_singleton. naive_solver.
    + rewrite (queued_ext _ m) by (by apply lookup_insert_ne). naive_solver.
  - destruct (decide (q = q0)) as [->|]; [|naive_solver].
    pose proof (not_queued m q0 k E0). naive_solver.
Qed.

Lemma remove_queued_nonempty key queue m :
  (forall q keys, m !! q = Some keys -> keys <> ∅) ->
  forall q keys, remove_queued key queue m !! q = Some keys -> keys <> ∅.
Proof.
  unfold remove_queued. intros Hm q keys. destruct queue as [q0|]; [|apply Hm].
  destruct (m !! q0) as [keys0|] eqn:E0; [|apply Hm].
  case_bool_decide as He.
  - rewrite lookup_delete_Some. naive_solver.
  - rewrite lookup_insert_Some. naive_solver.
Qed.

Lemma queued_insert m q k q' k' :
  queued (<[q := {[k]} ∪ default ∅ (m !! q)]> m) q' k' <-> queued m q' k' \/ (q' = q /\ k' = k).
Proof.
  destruct (decide (q' = q)) as [->|Hne].
  - rewrite (queued_lookup _ q _ k' (lookup_insert_eq _ _ _)), elem_of_union, elem_of_singleton.
    destruct (m !! q) as [keys|] eqn:E; cbn.
    + rewrite (queued_lookup m q keys) by done. naive_solver.
    + rewrite elem_of_empty. pose proof (not_queued m q k' E). naive_solver.
  - rewrite (queued_ext _ m) by (by apply lookup_insert_ne). naive_solver.
Qed.

(** Membership in an index, for the record that moves and for the others. *)
Lemma except_id (id i : Z) (P Q : Prop) :
  (i <> id -> P <-> Q) -> (i = id -> ~ P) -> P <-> i <> id /\ Q.
Proof. destruct (decide (i = id)); tauto. Qed.

(** What an operation does to the record of an identifier that is in the outbox. *)
Lemma update_unindexed o id r r' :
  outbox_wf o -> records o !! id = Some r ->
  event r' = event r -> fits u32 (attempt r') ->
  (record_is_terminal r = true -> record_is_terminal r' = true) ->
  unindexed id r' (unindex (set_records o (<[id := r']> (records o))) id
                     (logical_time (event r'), id)).
Proof.
  intros Hwf Hr Hev Hatt Hterm. destruct (wf_keyed o Hwf id r Hr) as [Hid _].
  assert (Hother : forall i, i <> id -> <[id:=r']> (records o) !! i = records o !! i)
    by (intros; by apply lookup_insert_ne).
  constructor; cbn.
  - apply lookup_insert_eq.
  - intros i r0 [[<- <-]|[_ ?]]%lookup_insert_Some; [by rewrite Hev|]. by apply (wf_keyed o Hwf).
  - intros t i. rewrite elem_of_difference, elem_of_singleton, (wf_pending o Hwf), Hev.
    apply except_id; [intros Hi; rewrite Hother by done|intros ->].
    + split; [tauto|]. intros ?; split; [done|congruence].
    + intros [(r0 & ? & _ & ?) Hn]. destruct Hn. congruence.
  - apply remove_queued_nonempty, (wf_queue_nonempty o Hwf).
  - intros q t i. rewrite queued_remove, (wf_queued o Hwf), elem_of_difference, elem_of_singleton.
    split; [|tauto]. intros [[? Hq] Hn]. split_and!; [done| |done]. intros [= -> ->]. auto.
  - intros i _. apply (wf_queue o Hwf).
  - intros Ht. apply (wf_queue o Hwf), (wf_active o Hwf). exists r. split; [done|].
    destruct (record_is_terminal r); [|done]. rewrite Hterm in Ht; done.
  - intros t i. rewrite lookup_delete_Some, (wf_retry_at o Hwf).
    apply except_id; [intros Hi; rewrite Hother by done|intros ->]; [|tauto].
    split; [tauto|]. intros ?; split; [congruence|done].
  - intros t i. rewrite lookup_delete_Some. destruct (retry_at_by_id o !! id) as [at_|] eqn:E;
      rewrite ?elem_of_difference, ?elem_of_singleton, (wf_retrying o Hwf).
    + split; [|intros [Hi ?]; split; [done|intros [= -> ->]; done]].
      intros [Ht Hn]. split; [|done]. intros <-. apply Hn. rewrite E in Ht. by injection Ht as ->.
    + split; [|tauto]. intros Ht. split; [|done]. intros <-. by rewrite E in Ht.
  - intros i Hi. rewrite Hother by done. apply (wf_active o Hwf).
  - intros i Hi. rewrite Hother by done. apply (wf_terminal o Hwf).
  - intros (r0 & Hr0 & Ht)%(wf_terminal o Hwf). rewrite (wf_active o Hwf).
    replace r0 with r in * by congruence. split; [auto|]. intros (r1 & ? & ?). congruence.
  - intros _. rewrite (wf_active o Hwf), (wf_terminal o Hwf).
    destruct (record_is_terminal r) eqn:Ht; eauto.
  - apply (wf_nodup o Hwf).
  - apply (wf_bound o Hwf).
  - apply (wf_retention o Hwf).
Qed.

Lemma enqueue_unindexed o e queue :
  outbox_wf o -> records o !! event_id e = None ->
  let id := event_id e in
  unindexed id (record_new e)
    (unindex (set_queue (set_records o (<[id := record_new e]> (records o))) id queue) id
       (logical_time e, id)).
Proof.
  intros Hwf Hr id. subst id. set (id := event_id e) in *.
  assert (Hother : forall i, i <> id -> <[id:=record_new e]> (records o) !! i = records o !! i)
    by (intros; by apply lookup_insert_ne).
  assert (Hnp : forall t, (t, id) ∉ pending o) by (intros t (? & ? & _)%(wf_pending o Hwf); congruence).
  assert (Hnr : retry_at_by_id o !! id = None).
  { apply eq_None_not_Some. intros [t (? & ? & _)%(wf_retry_at o Hwf)]. congruence. }
  constructor; cbn.
  - apply lookup_insert_eq.
  - intros i r0 [[<- <-]|[_ ?]]%lookup_insert_Some; [split; [done|cbn; int_lia]|].
    by apply (wf_keyed o Hwf).
  - intros t i. rewrite elem_of_difference, elem_of_singleton.
    apply except_id; [intros Hi; rewrite Hother by done|intros ->; naive_solver].
    rewrite (wf_pending o Hwf). split; [tauto|]. intros ?; split; [done|congruence].
  - apply remove_queued_nonempty, (wf_queue_nonempty o Hwf).
  - intros q t i. rewrite lookup_insert_eq, queued_remove, (wf_queued o Hwf), elem_of_difference,
      elem_of_singleton. destruct (decide (i = id)) as [->|Hne].
    + specialize (Hnp t). tauto.
    + rewrite lookup_insert_ne by done. assert ((t, i) <> (logical_time e, id)) by congruence. tauto.
  - intros i Hi. rewrite lookup_insert_ne by done. apply (wf_queue o Hwf).
  - intros _. rewrite lookup_insert_eq. eauto.
  - intros t i. rewrite lookup_delete_Some.
    apply except_id; [intros Hi; rewrite Hother by done|intros ->; tauto].
    rewrite (wf_retry_at o Hwf). split; [tauto|]. intros ?; split; [congruence|done].
  - intros t i. rewrite Hnr, delete_id by done. apply (wf_retrying o Hwf).
  - intros i Hi. rewrite Hother by done. apply (wf_active o Hwf).
  - intros i Hi. rewrite Hother by done. apply (wf_terminal o Hwf).
  - intros (r0 & Hr0 & Ht)%(wf_terminal o Hwf). congruence.
  - done.
  - apply (wf_nodup o Hwf).
  - apply (wf_bound o Hwf).
  - apply (wf_retention o Hwf).
Qed.

(** ** The second half of [reindex] *)

(** An index that gains the entries of the record that moved. *)
Lemma rejoin_id (id i : Z) (P Q : Prop) :
  (i <> id -> P <-> Q) -> (i = id -> Q) -> (P \/ i = id) <-> Q.
Proof. destruct (decide (i = id)); tauto. Qed.

Section second_half.
Context (o : Outbox) (id : Z) (r : EventRecord) (Hun : unindexed id r o).

Lemma unindexed_queue i : record_is_terminal r = false ->
  is_Some (queue_by_id o !! i) <-> i ∈ {[id]} ∪ active o.
Proof.
  intros Ht. rewrite elem_of_union, elem_of_singleton.
  destruct (decide (i = id)) as [->|Hi].
  - split; [auto|]. intros _. by apply (un_queue_id id r o Hun).
  - rewrite (un_queue id r o Hun i Hi). tauto.
Qed.

Lemma unindexed_active i : record_is_terminal r = false ->
  i ∈ {[id]} ∪ active o <-> exists r, records o !! i = Some r /\ record_is_terminal r = false.
Proof.
  intros Ht. rewrite elem_of_union, elem_of_singleton.
  destruct (decide (i = id)) as [->|Hi].
  - pose proof (un_record id r o Hun). split; eauto.
  - rewrite (un_active id r o Hun i Hi). tauto.
Qed.

Lemma unindexed_terminal i : record_is_terminal r = false ->
  i ∈ terminal o <-> exists r, records o !! i = Some r /\ record_is_terminal r = true.
Proof.
  intros Ht. destruct (decide (i = id)) as [->|Hi]; [|apply (un_terminal id r o Hun i Hi)].
  pose proof (un_record id r o Hun). split.
  - intros [? _]%(un_terminal_id id r o Hun). congruence.
  - intros (? & ? & ?). congruence.
Qed.

Lemma unindexed_pending t i : state r <> Pending ->
  (t, i) ∈ pending o <->
    exists r, records o !! i = Some r /\ state r = Pending /\ logical_time (event r) = t.
Proof.
  intros Hs. rewrite (un_pending id r o Hun). split; [tauto|]. intros (r0 & ? & ? & ?).
  split; [|by eauto]. pose proof (un_record id r o Hun). intros ->. congruence.
Qed.

Lemma unindexed_retry_at t i : (forall at_, state r <> RetryWaiting at_) ->
  retry_at_by_id o !! i = Some t <->
    exists r, records o !! i = Some r /\ state r = RetryWaiting t.
Proof.
  intros Hs. rewrite (un_retry_at id r o Hun). split; [tauto|]. intros (r0 & ? & ?).
  split; [|by eauto]. pose proof (un_record id r o Hun). intros ->. specialize (Hs t). congruence.
Qed.

Hint Resolve un_keyed un_queue_nonempty un_queued un_retrying un_nodup un_bound un_retention
  unindexed_queue unindexed_active unindexed_terminal unindexed_pending unindexed_retry_at : outbox.

Lemma index_active_wf :
  state r = Leased \/ state r = Running -> outbox_wf (index_active o id).
Proof.
  intros Hs. assert (Ht : record_is_terminal r = false)
    by (unfold record_is_terminal; by destruct Hs as [-> | ->]).
  assert (Hp : state r <> Pending) by (destruct Hs as [-> | ->]; done).
  assert (Hw : forall at_, state r <> RetryWaiting at_) by (intros; destruct Hs as [-> | ->]; done).
  constructor; cbn; eauto with outbox.
Qed.

Lemma index_pending_wf q :
  state r = Pending -> queue_by_id o !! id = Some q ->
  outbox_wf (index_pending o id (logical_time (event r), id) q).
Proof.
  intros Hs Hq. assert (Ht : record_is_terminal r = false)
    by (unfold record_is_terminal; by rewrite Hs).
  assert (Hw : forall at_, state r <> RetryWaiting at_) by (intros; by rewrite Hs).
  pose proof (un_record id r o Hun) as Hr.
  constructor; cbn; eauto with outbox.
  - intros t i. rewrite elem_of_union, elem_of_singleton, (un_pending id r o Hun).
    split; [intros [[= -> ->]|[_ ?]]; by eauto|]. intros (r0 & H0 & Hs0 & <-).
    destruct (decide (i = id)) as [->|]; [left|right; split; [done|by eauto]]. congruence.
  - intros q' keys [[<- <-]|[_ ?]]%lookup_insert_Some; [set_solver|].
    by eapply (un_queue_nonempty id r o Hun).
  - intros q' t i. rewrite queued_insert, (un_queued id r o Hun), elem_of_union, elem_of_singleton.
    split.
    + intros [[? ?]|[-> [= -> ->]]]; auto.
    + intros [[[= -> ->]|?] Hq']; [right|by left]. split; [congruence|done].
Qed.

Lemma index_retry_wf at_ :
  state r = RetryWaiting at_ -> outbox_wf (index_retry o id at_).
Proof.
  intros Hs. assert (Ht : record_is_terminal r = false)
    by (unfold record_is_terminal; by rewrite Hs).
  assert (Hp : state r <> Pending) by (by rewrite Hs).
  pose proof (un_record id r o Hun) as Hr.
  constructor; cbn; eauto with outbox.
  - intros t i. rewrite lookup_insert_Some, (un_retry_at id r o Hun). split.
    + intros [[<- <-]|[_ [_ ?]]]; eauto.
    + intros (r0 & ? & ?). destruct (decide (i = id)) as [->|]; [left|right].
      * split; congruence.
      * split_and!; [congruence|done|by eauto].
  - intros t i. rewrite elem_of_union, elem_of_singleton, lookup_insert_Some,
      (un_retrying id r o Hun). split.
    + intros [[= -> ->]|Hl]; [by left|right]. split; [|done]. intros <-.
      by apply (un_retry_at id r o Hun) in Hl as [? _].
    + intros [[<- <-]|[_ ?]]; auto.
Qed.

Lemma retire_wf :
  record_is_terminal r = true ->
  outbox_wf_slack (if bool_decide (id ∈ active o) then 1 else 0) (retire o id).
Proof.
  intros Ht. assert (Hp : state r <> Pending) by (intros Hs; unfold record_is_terminal in Ht; by rewrite Hs in Ht).
  assert (Hw : forall at_, state r <> RetryWaiting at_)
    by (intros at_ Hs; unfold record_is_terminal in Ht; by rewrite Hs in Ht).
  pose proof (un_record id r o Hun) as Hr.
  constructor; cbn; eauto with outbox.
  - intros q t i. rewrite (un_queued id r o Hun), lookup_delete_Some.
    split; [|tauto]. intros [Hk ?]. split_and!; [done| |done]. intros <-.
    by apply (un_pending id r o Hun) in Hk as [? _].
  - intros i. rewrite elem_of_difference, elem_of_singleton. unfold is_Some.
    setoid_rewrite lookup_delete_Some. destruct (decide (i = id)) as [->|Hi]; [naive_solver|].
    rewrite <- (un_queue id r o Hun i Hi). unfold is_Some. naive_solver.
  - intros i. rewrite elem_of_difference, elem_of_singleton.
    destruct (decide (i = id)) as [->|Hi].
    + split; [tauto|]. intros (? & ? & ?). congruence.
    + rewrite (un_active id r o Hun i Hi). tauto.
  - intros i. destruct (decide (i = id)) as [->|Hi].
    + split; [by eauto|]. intros _. pose proof (un_retired id r o Hun Ht).
      case_bool_decide; [|tauto]. rewrite elem_of_app. right. by apply list_elem_of_singleton.
    + rewrite <- (un_terminal id r o Hun i Hi). case_bool_decide; [|done].
      rewrite elem_of_app, list_elem_of_singleton. tauto.
  - pose proof (un_nodup id r o Hun). case_bool_decide as Ha; [|done].
    apply NoDup_app. split_and!; [done| |apply NoDup_singleton].
    intros i Hi ->%list_elem_of_singleton. by apply (un_terminal_id id r o Hun) in Hi as [_ ?].
  - pose proof (un_bound id r o Hun). case_bool_decide; rewrite ?length_app; cbn; lia.
Qed.
End second_half.

(** ** Eviction *)

(** With one record beyond the window, the loop runs once. *)
Lemma evict_loop_one ret queue recs count :
  1 <= ret -> Z.of_nat (length queue) <= ret + 1 ->
  evict_loop ret queue recs count =
    if ret <? Z.of_nat (length queue)
    then (tail queue, from_option (fun x => delete x recs) recs (head queue), wrapping u64 (count + 1))
    else (queue, recs, count).
Proof.
  intros Hret Hlen. destruct queue as [|x queue]; cbn [evict_loop length head tail from_option].
  - by rewrite (proj2 (Z.ltb_ge _ _)) by (cbn; lia).
  - destruct (Z.ltb_spec ret (Z.of_nat (S (length queue)))); [|done].
    destruct queue as [|y queue]; [done|]. cbn [evict_loop].
    rewrite (proj2 (Z.ltb_ge _ _)); [done|]. cbn [length] in *. lia.
Qed.

(** What [evict] keeps: a well-formed outbox, every active record, and the most
    recent terminal record. *)
Record evicted_to (o o' : Outbox) : Prop := {
  ev_wf : outbox_wf o';
  ev_sub : records o' ⊆ records o;
  ev_live : forall i r, records o !! i = Some r -> record_is_terminal r = false ->
    records o' !! i = Some r;
  ev_last : forall i, last (terminal o) = Some i -> records o' !! i = records o !! i;
  ev_retention : terminal_retention o' = terminal_retention o;
}.

Lemma evicted_to_refl o : outbox_wf o -> evicted_to o o.
Proof. by constructor. Qed.

Lemma evict_spec o : outbox_wf_slack 1 o -> evicted_to o (evict o).
Proof.
  intros Hwf. pose proof (wf_retention o Hwf) as Hret. pose proof (wf_bound o Hwf) as Hbd.
  unfold evict. rewrite evict_loop_one by done.
  destruct (Z.ltb_spec (terminal_retention o) (Z.of_nat (length (terminal o)))) as [Hover|Hfit].
  2:{ constructor; cbn; try done. destruct Hwf; constructor; cbn; (done || lia). }
  pose proof (wf_nodup o Hwf) as Hnd. pose proof (wf_terminal o Hwf) as Hterm.
  destruct (terminal o) as [|x queue] eqn:Eq; cbn in Hover, Hbd |- *; [lia|].
  apply NoDup_cons in Hnd as [Hx Hnd].
  destruct (proj1 (Hterm x) ltac:(left)) as (rx & Hrx & Htx).
  assert (Hlive : forall P : EventRecord -> Prop, (forall r, P r -> record_is_terminal r = false) ->
    forall i, (exists r, delete x (records o) !! i = Some r /\ P r) <->
              (exists r, records o !! i = Some r /\ P r)).
  { intros P HP i. setoid_rewrite lookup_delete_Some. split; [naive_solver|].
    intros (r & Hr & Hp). exists r. split_and!; [|done|done]. intros <-. apply HP in Hp. congruence. }
  constructor; cbn; [constructor; cbn|..].
  - intros i r [_ Hr]%lookup_delete_Some. by apply (wf_keyed o Hwf).
  - intros t i. rewrite (wf_pending o Hwf), Hlive; [done|]. intros r [Hs _].
    unfold record_is_terminal. by rewrite Hs.
  - apply (wf_queue_nonempty o Hwf).
  - apply (wf_queued o Hwf).
  - apply (wf_queue o Hwf).
  - intros t i. rewrite (wf_retry_at o Hwf), Hlive; [done|]. intros r Hs.
    unfold record_is_terminal. by rewrite Hs.
  - apply (wf_retrying o Hwf).
  - intros i. by rewrite (wf_active o Hwf), Hlive.
  - intros i. setoid_rewrite lookup_delete_Some. specialize (Hterm i). rewrite elem_of_cons in Hterm.
    split.
    + intros Hi. destruct (proj1 Hterm ltac:(by right)) as (r & ? & ?). exists r.
      split_and!; [congruence|done|done].
    + intros (r & [? ?] & ?). destruct (proj2 Hterm) as [?|?]; [by eauto|congruence|done].
  - done.
  - lia.
  - lia.
  - apply delete_subseteq.
  - intros i r Hr Ht. rewrite lookup_delete_ne; [done|]. congruence.
  - intros i Hi. apply lookup_delete_ne. intros <-.
    destruct queue as [|y queue]; [cbn in *; lia|]. rewrite Eq, last_cons_cons in Hi.
    by apply last_Some_elem_of in Hi.
  - done.
Qed.

(** ** [reindex] restores the invariant *)

Lemma reindex_spec o id r :
  records o !! id = Some r ->
  unindexed id r (unindex o id (logical_time (event r), id)) ->
  exists o', reindex o id = Some o' /\ outbox_wf o' /\ records o' ⊆ records o /\
    records o' !! id = Some r /\ terminal_retention o' = terminal_retention o /\
    (forall i r, records o !! i = Some r -> record_is_terminal r = false -> records o' !! i = Some r).
Proof.
  intros Hr Hun. unfold reindex. rewrite Hr. cbv zeta.
  set (o1 := unindex o id (logical_time (event r), id)) in *.
  assert (Hret : record_is_terminal r = true ->
    evicted_to (retire o1 id) (if bool_decide (id ∈ active o1) then evict (retire o1 id) else retire o1 id)).
  { intros Ht. pose proof (retire_wf o1 id r Hun Ht) as Hw.
    case_bool_decide; [by apply evict_spec|by apply evicted_to_refl]. }
  assert (Hterm : record_is_terminal r = true -> exists o',
    Some (if bool_decide (id ∈ active o1) then evict (retire o1 id) else retire o1 id) = Some o' /\
    outbox_wf o' /\ records o' ⊆ records o /\
    records o' !! id = Some r /\ terminal_retention o' = terminal_retention o /\
    (forall i r, records o !! i = Some r -> record_is_terminal r = false -> records o' !! i = Some r)).
  { intros Ht. destruct (Hret Ht) as [Hw Hsub Hlive Hlast Hre]. eexists. split; [done|].
    split_and!; [done|done| |done|done].
    case_bool_decide as Ha; [|done]. rewrite Hlast; [done|]. cbn.
    rewrite bool_decide_eq_true_2 by done. by rewrite last_snoc. }
  unfold record_is_terminal in Hterm. destruct (state r) eqn:Hs; try (by apply Hterm).
  - destruct (un_queue_id id r o1 Hun) as [q Hq]; [unfold record_is_terminal; by rewrite Hs|].
    cbn in Hq. rewrite Hq. eexists. split; [done|]. split_and!; try done.
    apply index_pending_wf; done.
  - eexists. split; [done|]. split_and!; try done. apply (index_active_wf o1 id r); auto.
  - eexists. split; [done|]. split_and!; try done. apply (index_active_wf o1 id r); auto.
  - eexists. split; [done|]. split_and!; try done. apply (index_retry_wf o1 id r); auto.
Qed.

(** ** The operations *)

(** The closures [update] is called with: compositions of the record's own
    transitions (the fields of [EventRecord] are private to its module). *)
Definition delivery_closure {R} (f : EventRecord -> R * EventRecord) : Prop :=
  forall r, fits u32 (attempt r) -> exists l, (f r).2 = run_actions l r.

Lemma delivery_closure_spec {R} (f : EventRecord -> R * EventRecord) r :
  delivery_closure f -> fits u32 (attempt r) ->
  event (f r).2 = event r /\ fits u32 (attempt (f r).2) /\
  (record_is_terminal r = true -> (f r).2 = r).
Proof.
  intros Hf Hr. destruct (Hf r Hr) as [l ->]. split_and!.
  - apply run_actions_event; [int_lia|done].
  - by apply run_actions_attempt.
  - apply run_actions_terminal. int_lia.
Qed.

Lemma discard_closure_delivery current : delivery_closure (discard_closure current).
Proof. intros r _. by exists [ADiscard current]. Qed.

(** What an operation leaves of the other records. *)
Definition keeps_live (id : Z) (o o' : Outbox) : Prop :=
  forall i, i <> id ->
    (forall r, record_is_terminal r = false -> records o !! i = Some r <-> records o' !! i = Some r) /\
    (forall r, records o' !! i = Some r -> records o !! i = Some r).

Lemma keeps_live_insert id r0 o o' :
  records o' ⊆ <[id := r0]> (records o) ->
  (forall i r, <[id := r0]> (records o) !! i = Some r -> record_is_terminal r = false ->
     records o' !! i = Some r) ->
  keeps_live id o o'.
Proof.
  intros Hsub Hlive i Hi.
  assert (Hback : forall r, records o' !! i = Some r -> records o !! i = Some r).
  { intros r Hr. eapply lookup_weaken in Hr; [|exact Hsub]. by rewrite lookup_insert_ne in Hr. }
  split; [|done]. intros r Ht. split; [|auto]. intros Hr.
  apply Hlive; [|done]. by rewrite lookup_insert_ne.
Qed.

Lemma update_spec {R} o id r (f : EventRecord -> R * EventRecord) :
  outbox_wf o -> delivery_closure f -> records o !! id = Some r ->
  exists o', update o id f = Some (Ok (f r).1, o') /\ outbox_wf o' /\
    records o' !! id = Some (f r).2 /\ terminal_retention o' = terminal_retention o /\
    keeps_live id o o'.
Proof.
  intros Hwf Hf Hr. destruct (wf_keyed o Hwf id r Hr) as [Hid Hfit].
  destruct (delivery_closure_spec f r Hf Hfit) as (Hev & Hatt & Hterm).
  unfold update. rewrite Hr. destruct (f r) as [out r'] eqn:Ef. cbn [fst snd] in *.
  set (o1 := set_records o (<[id:=r']> (records o))).
  destruct (reindex_spec o1 id r') as (o' & Ho' & Hwf' & Hsub & Hr' & Hre & Hlive).
  { apply lookup_insert_eq. }
  { apply (update_unindexed o id r r'); try done. intros Ht. by rewrite Hterm. }
  exists o'. rewrite Ho'. split_and!; try done. exact (keeps_live_insert id r' o o' Hsub Hlive).
Qed.

Lemma enqueue_spec o e queue :
  outbox_wf o -> records o !! event_id e = None ->
  exists o', enqueue_in_queue o e queue = Some (Ok tt, o') /\ outbox_wf o' /\
    records o' !! event_id e = Some (record_new e) /\
    terminal_retention o' = terminal_retention o /\ keeps_live (event_id e) o o'.
Proof.
  intros Hwf Hr. unfold enqueue_in_queue. rewrite Hr. set (id := event_id e) in *. cbv zeta.
  set (o1 := set_queue (set_records o (<[id:=record_new e]> (records o))) id queue).
  destruct (reindex_spec o1 id (record_new e)) as (o' & Ho' & Hwf' & Hsub & Hr' & Hre & Hlive).
  { apply lookup_insert_eq. }
  { by apply enqueue_unindexed. }
  exists o'. rewrite Ho'. split_and!; try done. exact (keeps_live_insert id _ o o' Hsub Hlive).
Qed.

(** ** Discarding an epoch *)

Definition stale (current : Epoch) (r : EventRecord) : bool :=
  negb (record_is_terminal r) && (ev_epoch (event r) <? current).

Lemma discard_closure_eq current r :
  discard_closure current r =
    if stale current r then (true, set_state DiscardedStaleEpoch r) else (false, r).
Proof.
  destruct r as [e s n]. unfold discard_closure, record_discard_stale, stale, record_is_terminal,
    guard, st_bind, st_get, st_fail, st_put, prod_map; cbn [state event negb].
  destruct (state_is_terminal s); [done|]. cbn [negb andb].
  rewrite Z.leb_antisym. by destruct (ev_epoch e <? current).
Qed.

Definition is_stale (current : Epoch) (o : Outbox) (id : Z) : bool :=
  from_option (stale current) false (records o !! id).

Lemma discard_loop_spec current ids n o :
  outbox_wf o -> NoDup ids -> (forall id, id ∈ ids -> id ∈ active o) ->
  exists o', discard_loop current ids n o =
      Some ((n + length (filter (fun id => is_stale current o id = true) ids))%nat, o') /\
    outbox_wf o' /\ terminal_retention o' = terminal_retention o /\
    (forall id r, record_is_terminal r = false ->
       records o' !! id = Some r <->
         records o !! id = Some r /\ ~ (id ∈ ids /\ stale current r = true)).
Proof.
  intros Hwf Hnd. revert n o Hwf.
  induction Hnd as [|id ids Hid Hnd IH]; intros n o Hwf Hact.
  { exists o. split; [cbn; by rewrite Nat.add_0_r|]. split_and!; [done|done|].
    intros i r _. set_unfold. naive_solver. }
  destruct (proj1 (wf_active o Hwf id) (Hact id ltac:(left))) as (r & Hr & Ht).
  destruct (update_spec o id r (discard_closure current) Hwf (discard_closure_delivery current) Hr)
    as (o1 & Hup & Hwf1 & Hr1 & Hre & Hkeep).
  rewrite discard_closure_eq in Hup, Hr1.
  destruct (IH (if stale current r then S n else n) o1 Hwf1) as (o' & Hl & Hwf' & Hre' & Hrec).
  { intros i Hi. assert (i <> id) by (intros ->; done).
    apply (wf_active o1 Hwf1). destruct (proj1 (wf_active o Hwf i)) as (ri & ? & ?).
    { apply Hact. by right. }
    exists ri. split; [|done]. by apply (Hkeep i). }
  exists o'. cbn [discard_loop].
  assert (Hfil : filter (fun i => is_stale current o1 i = true) ids =
                 filter (fun i => is_stale current o i = true) ids).
  { apply list_filter_ext_in. intros i Hi.
    assert (i <> id) by (intros ->; done). destruct (Hkeep i) as [Hk Hb]; [done|].
    destruct (proj1 (wf_active o Hwf i)) as (ri & Hri & Hti); [apply Hact; by right|].
    unfold is_stale. by rewrite Hri, (proj1 (Hk ri Hti) Hri). }
  split_and!; [|done|congruence|].
  - rewrite Hup, filter_cons, <- Hfil. cbn [mbind option_bind].
    assert (Hst : is_stale current o id = stale current r) by (unfold is_stale; by rewrite Hr).
    case_decide as Hd; rewrite Hst in Hd; destruct (stale current r); try done; cbn [fst]; rewrite Hl.
    cbn [length]. by rewrite Nat.add_succ_r.
  - intros i ri Hti. rewrite Hrec, elem_of_cons by done. destruct (decide (i = id)) as [->|Hi].
    + rewrite Hr1, Hr. destruct (stale current r) eqn:Hst; cbn [snd].
      * split; [intros [[= <-] _]; done|]. intros [[= <-] Hn]. by destruct Hn; auto.
      * split; [intros [[= <-] _]|intros [[= <-] _]]; (split; [done|]); rewrite Hst; naive_solver.
    + destruct (Hkeep i Hi) as [Hk _]. rewrite <- Hk by done. naive_solver.
Qed.

(** ** Sequences of operations *)

Inductive OutboxOp :=
| OpEnqueue (e : LogicalEvent) (queue : string)
| OpUpdate (id : Z) (l : list EventAction)
| OpDiscardStale (current : Epoch).

Definition apply_op (o : Outbox) (op : OutboxOp) : option Outbox :=
  match op with
  | OpEnqueue e queue => snd <$> enqueue_in_queue o e queue
  | OpUpdate id l => snd <$> update o id (fun r => (tt, run_actions l r))
  | OpDiscardStale current => snd <$> discard_stale o current
  end.

Fixpoint apply_ops (ops : list OutboxOp) (o : Outbox) : option Outbox :=
  match ops with
  | [] => Some o
  | op :: ops => o ← apply_op o op; apply_ops ops o
  end.

Lemma empty_wf retention : outbox_wf (with_terminal_retention retention).
Proof.
  constructor; cbn.
  - intros id r. by rewrite lookup_empty.
  - intros t id. rewrite elem_of_empty. setoid_rewrite lookup_empty. naive_solver.
  - intros q keys. by rewrite lookup_empty.
  - intros q t id. unfold queued. setoid_rewrite lookup_empty. rewrite elem_of_empty. naive_solver.
  - intros id. rewrite lookup_empty, elem_of_empty, is_Some_alt. done.
  - intros t id. setoid_rewrite lookup_empty. naive_solver.
  - intros t id. rewrite elem_of_empty, lookup_empty. done.
  - intros id. rewrite elem_of_empty. setoid_rewrite lookup_empty. naive_solver.
  - intros id. rewrite elem_of_nil. setoid_rewrite lookup_empty. naive_solver.
  - constructor.
  - lia.
  - lia.
Qed.

Lemma apply_op_wf o op :
  outbox_wf o -> exists o', apply_op o op = Some o' /\ outbox_wf o' /\
    terminal_retention o' = terminal_retention o.
Proof.
  intros Hwf. destruct op as [e queue|id l|current]; cbn [apply_op].
  - destruct (records o !! event_id e) eqn:Hr.
    + exists o. unfold enqueue_in_queue. by rewrite Hr.
    + destruct (enqueue_spec o e queue Hwf Hr) as (o' & -> & ? & _ & ? & _). by exists o'.
  - destruct (records o !! id) as [r|] eqn:Hr.
    + destruct (update_spec o id r (fun r => (tt, run_actions l r)) Hwf) as (o' & -> & ? & _ & ? & _);
        [intros r0 _; by exists l|done|]. by exists o'.
    + exists o. unfold update. by rewrite Hr.
  - destruct (discard_loop_spec current (btree_iter (active o)) 0 o Hwf) as (o' & Hl & ? & ? & _).
    + apply NoDup_btree_iter.
    + intros id. by rewrite elem_of_btree_iter.
    + exists o'. unfold discard_stale. by rewrite Hl.
Qed.

Lemma apply_ops_wf ops o :
  outbox_wf o -> exists o', apply_ops ops o = Some o' /\ outbox_wf o' /\
    terminal_retention o' = terminal_retention o.
Proof.
  revert o. induction ops as [|op ops IH]; intros o Hwf; cbn [apply_ops]; [by eauto|].
  destruct (apply_op_wf o op Hwf) as (o1 & -> & Hwf1 & Hr1).
  destruct (IH o1 Hwf1) as (o' & Ho' & Hwf' & Hr'). exists o'. cbn. split_and!; (done || congruence).
Qed.

(** ** Queries *)

Definition event_key (e : LogicalEvent) : PendingKey := (logical_time e, event_id e).

Lemma dispatchable_keys o : outbox_wf o -> map event_key (dispatchable o) = btree_iter (pending o).
Proof.
  intros Hwf. apply omap_total. intros [t id] Hk%elem_of_btree_iter.
  apply (wf_pending o Hwf) in Hk as (r & Hr & _ & Ht). exists (event r). rewrite Hr.
  split; [done|]. unfold event_key. rewrite Ht. by destruct (wf_keyed o Hwf id r Hr) as [-> _].
Qed.

Lemma elem_of_dispatchable o e : outbox_wf o ->
  e ∈ dispatchable o <->
    exists r, records o !! event_id e = Some r /\ event r = e /\ state r = Pending.
Proof.
  intros Hwf. unfold dispatchable. rewrite list_elem_of_omap. split.
  - intros ([t id] & Hk%elem_of_btree_iter & He). apply (wf_pending o Hwf) in Hk as (r & Hr & Hs & _).
    rewrite Hr in He. injection He as <-. destruct (wf_keyed o Hwf id r Hr) as [-> _]. eauto.
  - intros (r & Hr & He & Hs). exists (logical_time e, event_id e). rewrite elem_of_btree_iter.
    split; [|rewrite Hr; by f_equal/=]. apply (wf_pending o Hwf). exists r. by rewrite He.
Qed.

(** The retry timers that have elapsed, with their instants. *)
Lemma elem_of_retry_range o now t id : outbox_wf o -> fits u128 id ->
  (t, id) ∈ btree_range_to (retrying o) (now, int_max u128) <->
    t <= now /\ exists r, records o !! id = Some r /\ state r = RetryWaiting t.
Proof.
  intros Hwf Hid. rewrite elem_of_btree_range_to, (wf_retrying o Hwf), (wf_retry_at o Hwf).
  assert (Hle : ord_le (t, id) (now, int_max u128) <-> t <= now); [|by rewrite Hle].
  unfold ord_le, ord_cmp; cbn. unfold pair_cmp, ord_cmp; cbn.
  destruct (Z.compare_spec t now); int_simpl; [|split; [lia|done]|split; [done|lia]].
  split; [lia|]. intros _. rewrite Z.compare_gt_iff. lia.
Qed.

Lemma elem_of_queue_heads o q k : outbox_wf o ->
  (q, k) ∈ dispatchable_queue_heads o <->
    queued (pending_by_queue o) q k /\ forall k', queued (pending_by_queue o) q k' -> ord_le k k'.
Proof.
  intros Hwf. unfold dispatchable_queue_heads. rewrite list_elem_of_omap. split.
  - intros ([q' keys] & Hk%elem_of_btree_map_iter & He).
    destruct (head (btree_iter keys)) as [k0|] eqn:Hh; [|done]. injection He as <- <-.
    apply btree_first_spec in Hh as [Hin Hmin]. split; [by exists keys|].
    intros k' (keys' & ? & ?). apply Hmin. congruence.
  - intros [(keys & Hk & Hin) Hmin]. exists (q, keys). rewrite elem_of_btree_map_iter.
    split; [done|]. rewrite (proj2 (btree_first_spec keys k)); [done|].
    split; [done|]. intros k' Hk'. apply Hmin. by exists keys.
Qed.

(** The pending keys of one dispatch queue. *)
Definition in_queue (o : Outbox) (q : string) (k : PendingKey) : Prop :=
  k ∈ pending o /\ queue_by_id o !! k.2 = Some q.

Lemma queued_in_queue o q k : outbox_wf o -> queued (pending_by_queue o) q k <-> in_queue o q k.
Proof. intros Hwf. destruct k. apply (wf_queued o Hwf). Qed.

Lemma next_in_queue_spec o q a k : outbox_wf o ->
  next_dispatchable_in_queue o q a = Some k <->
    in_queue o q k /\ ord_lt a k /\ forall k', in_queue o q k' -> ord_lt a k' -> ord_le k k'.
Proof.
  intros Hwf. setoid_rewrite <- (fun k => queued_in_queue o q k Hwf).
  unfold next_dispatchable_in_queue. destruct (pending_by_queue o !! q) as [keys|] eqn:E; cbn.
  - setoid_rewrite (fun k => queued_lookup _ q keys k E). apply btree_next_after_spec.
  - pose proof (not_queued _ q k E). naive_solver.
Qed.

(** Every pending key is in the queue its record was enqueued in. *)
Lemma pending_in_queue o k : outbox_wf o -> k ∈ pending o -> exists q, in_queue o q k.
Proof.
  intros Hwf Hk. assert (Ha : k.2 ∈ active o).
  { destruct k as [t id]. apply (wf_pending o Hwf) in Hk as (r & Hr & Hs & _).
    apply (wf_active o Hwf). exists r. unfold record_is_terminal. by rewrite Hs. }
  apply (wf_queue o Hwf) in Ha as [q Hq]. by exists q.
Qed.

(** ** Properties *)

(** C7. No sequence of operations makes the outbox panic, and all indexes stay
    views of the records: from an empty outbox, any sequence of enqueues (duplicate
    identifiers included), updates (by any calls of the delivery methods, unknown
    identifiers included) and stale-epoch sweeps runs to the end and leaves a
    well-formed outbox with the retention window it was created with. *)
Theorem outbox_never_panics retention ops :
  exists o, apply_ops ops (with_terminal_retention retention) = Some o /\ outbox_wf o /\
    terminal_retention o = Z.max retention 1 /\
    Z.of_nat (length (terminal o)) <= Z.max retention 1.
Proof.
  destruct (apply_ops_wf ops (with_terminal_retention retention) (empty_wf retention))
    as (o & Ho & Hwf & Hre).
  exists o. pose proof (wf_bound o Hwf). cbn in Hre. split_and!; (done || lia).
Qed.

(** Dispatch offers exactly the pending events, in order: [dispatchable]
    contains an event exactly when its record is pending, strictly sorted by
    logical time and then by event identifier, and one pass visits as many
    entries as there are pending events. *)
Theorem dispatchable_exact_sorted o :
  outbox_wf o ->
  StronglySorted ord_lt (map event_key (dispatchable o)) /\
  (forall e, e ∈ dispatchable o <->
     exists r, records o !! event_id e = Some r /\ event r = e /\ state r = Pending) /\
  dispatch_visits o = length (dispatchable o).
Proof.
  intros Hwf. split_and!.
  - rewrite dispatchable_keys by done. apply btree_iter_sorted.
  - intros e. by apply elem_of_dispatchable.
  - unfold dispatch_visits. rewrite <- (length_map event_key), dispatchable_keys by done.
    by rewrite length_btree_iter.
Qed.

(** The retry sweep wakes exactly the events whose timer has elapsed: the
    identifiers [retries_due] returns are those of the records waiting for an
    instant not after [now], each once, by the instant they were due. *)
Theorem retries_due_exact o now :
  outbox_wf o -> (forall id, is_Some (records o !! id) -> fits u128 id) ->
  exists timers, retries_due o now = map snd timers /\ StronglySorted ord_lt timers /\
    length timers = retry_sweep_visits o now /\
    (forall t id, (t, id) ∈ timers <->
       t <= now /\ exists r, records o !! id = Some r /\ state r = RetryWaiting t).
Proof.
  intros Hwf Hids. exists (btree_range_to (retrying o) (now, int_max u128)).
  split_and!; [done|apply StronglySorted_filter, btree_iter_sorted|done|].
  intros t id. destruct (records o !! id) as [r|] eqn:Hr.
  - rewrite elem_of_retry_range, Hr; [done|done|]. apply Hids. by rewrite Hr.
  - rewrite elem_of_btree_range_to, (wf_retrying o Hwf), (wf_retry_at o Hwf), Hr. naive_solver.
Qed.

(** Draining the queues by their heads visits the pending work: a key is the
    head of a queue exactly when it is the least pending key of that queue;
    after a visited key the next one of the queue is the least pending key above
    it; and the least of all heads is the first dispatchable event, so merging
    heads preserves the global dispatch order. *)
Theorem queue_heads_merge o :
  outbox_wf o ->
  (forall q k, (q, k) ∈ dispatchable_queue_heads o <->
     in_queue o q k /\ forall k', in_queue o q k' -> ord_le k k') /\
  (forall q a k, next_dispatchable_in_queue o q a = Some k <->
     in_queue o q k /\ ord_lt a k /\ forall k', in_queue o q k' -> ord_lt a k' -> ord_le k k') /\
  (forall e, head (dispatchable o) = Some e ->
     exists q, (q, event_key e) ∈ dispatchable_queue_heads o /\
       forall q' k', (q', k') ∈ dispatchable_queue_heads o -> ord_le (event_key e) k').
Proof.
  intros Hwf. pose proof (fun q k => queued_in_queue o q k Hwf) as Hq.
  assert (Hheads : forall q k, (q, k) ∈ dispatchable_queue_heads o <->
     in_queue o q k /\ forall k', in_queue o q k' -> ord_le k k').
  { intros q k. rewrite elem_of_queue_heads by done. by setoid_rewrite Hq. }
  split_and!; [done|intros; by apply next_in_queue_spec|].
  intros e He. assert (Hf : head (btree_iter (pending o)) = Some (event_key e)).
  { rewrite <- dispatchable_keys by done. destruct (dispatchable o); [done|]. by injection He as ->. }
  apply btree_first_spec in Hf as [Hin Hmin].
  destruct (pending_in_queue o _ Hwf Hin) as [q Hk]. exists q. setoid_rewrite Hheads.
  split; [split; [done|]|]; [intros k' [? _]; by apply Hmin|].
  intros q' k' [[? _] _]. by apply Hmin.
Qed.

(** A reset's sweep is complete and spares the rest: after [discard_stale]
    the outstanding records are exactly those that were outstanding and belong to
    the current epoch or a later one, unchanged; the count it returns is the
    number of stale records; and nothing outstanding is left exactly when every
    outstanding record was stale. *)
Theorem discard_stale_complete o current :
  outbox_wf o ->
  exists o', discard_stale o current =
      Some (length (filter (fun id => is_stale current o id = true) (btree_iter (active o))), o') /\
    outbox_wf o' /\
    (forall id r, record_is_terminal r = false ->
       records o' !! id = Some r <-> records o !! id = Some r /\ current <= ev_epoch (event r)) /\
    (has_active o' = false <->
       forall id r, records o !! id = Some r -> record_is_terminal r = false ->
         ev_epoch (event r) < current).
Proof.
  intros Hwf. destruct (discard_loop_spec current (btree_iter (active o)) 0 o Hwf)
    as (o' & Hl & Hwf' & _ & Hrec).
  { apply NoDup_btree_iter. }
  { intros id. by rewrite elem_of_btree_iter. }
  assert (Hlive : forall id r, record_is_terminal r = false ->
    records o' !! id = Some r <-> records o !! id = Some r /\ current <= ev_epoch (event r)).
  { intros id r Ht. rewrite Hrec, elem_of_btree_iter, (wf_active o Hwf) by done.
    unfold stale. rewrite Ht. cbn [negb andb]. rewrite Z.ltb_lt. split.
    - intros [Hr Hn]. split; [done|]. apply Z.nlt_ge. intros Hlt. by eauto.
    - intros [Hr Hle]. split; [done|]. lia. }
  exists o'. split_and!; [done|done|done|].
  unfold has_active. rewrite negb_false_iff, bool_decide_eq_true. split.
  - intros He id r Hr Ht. apply Z.nle_gt. intros Hle.
    assert (id ∈ active o') by (apply (wf_active o' Hwf'); exists r; by rewrite Hlive). set_solver.
  - intros Hall. apply leibniz_equiv, elem_of_equiv_empty. intros id (r & Hr & Ht)%(wf_active o' Hwf').
    apply Hlive in Hr as [Hr Hle]; [|done]. specialize (Hall id r Hr Ht). lia.
Qed.

(** Each operation does its one thing: an enqueue of a fresh identifier adds
    a pending record, an update applies its closure to its record, both leave
    every other outstanding record alone, and the two errors (a duplicate and an
    unknown identifier) leave the outbox as it was. *)
Theorem outbox_operations_functional o :
  outbox_wf o ->
  (forall e queue,
     match records o !! event_id e with
     | Some _ => enqueue_in_queue o e queue = Some (Err (DuplicateEventId (event_id e)), o)
     | None => exists o', enqueue_in_queue o e queue = Some (Ok tt, o') /\
         records o' !! event_id e = Some (record_new e) /\ keeps_live (event_id e) o o'
     end) /\
  (forall id l,
     let f := fun r => (tt, run_actions l r) in
     match records o !! id with
     | None => update o id f = Some (Err (UnknownEventId id), o)
     | Some r => exists o', update o id f = Some (Ok tt, o') /\
         records o' !! id = Some (run_actions l r) /\ keeps_live id o o'
     end).
Proof.
  intros Hwf. split.
  - intros e queue. destruct (records o !! event_id e) eqn:Hr.
    + unfold enqueue_in_queue. by rewrite Hr.
    + destruct (enqueue_spec o e queue Hwf Hr) as (o' & ? & _ & ? & _ & ?). by exists o'.
  - intros id l f. destruct (records o !! id) as [r|] eqn:Hr.
    + destruct (update_spec o id r f Hwf) as (o' & ? & _ & ? & _ & ?);
        [intros r0 _; by exists l|done|]. by exists o'.
    + unfold update. by rewrite Hr.
Qed.

(** ** Witnesses *)

Definition sample_event_at (id t epoch : Z) : LogicalEvent :=
  {| event_id := id; ev_session_id := 0; ev_epoch := epoch; ev_source := SrcManual;
     ev_type := "a.b"; ev_subject := "s"; logical_time := t; causation_id := None;
     correlation_id := 0; payload := [] |}.

(** Three events, two queues: 2 is pending, 3 waits for its retry, 1 has succeeded. *)
Definition sample_ops : list OutboxOp :=
  [OpEnqueue (sample_event_at 2 50 1) "b"; OpEnqueue (sample_event_at 1 70 1) "a";
   OpEnqueue (sample_event_at 3 10 0) "b"; OpUpdate 1 [ALease; AStart; ASucceed];
   OpUpdate 3 [ALease; AStart; AFail sample_policy 100]].

Definition sample_outbox : Outbox := default outbox_new (apply_ops sample_ops outbox_new).

Lemma sample_outbox_wf : outbox_wf sample_outbox.
Proof.
  destruct (apply_ops_wf sample_ops outbox_new (empty_wf _)) as (o & Ho & Hwf & _).
  unfold sample_outbox. by rewrite Ho.
Qed.

Lemma dispatchable_exact_sorted_witness :
  map event_id (dispatchable sample_outbox) = [2] /\
  StronglySorted ord_lt (map event_key (dispatchable sample_outbox)).
Proof.
  split; [vm_compute; reflexivity|]. apply (dispatchable_exact_sorted sample_outbox), sample_outbox_wf.
Defined.

Lemma retries_due_exact_witness :
  retries_due sample_outbox (10 ^ 18) = [3] /\
  exists timers : list PendingKey, retries_due sample_outbox (10 ^ 18) = map snd timers /\
    length timers = retry_sweep_visits sample_outbox (10 ^ 18).
Proof.
  split; [vm_compute; reflexivity|].
  destruct (retries_due_exact sample_outbox (10 ^ 18) sample_outbox_wf) as (l & H1 & _ & H2 & _);
    [|exists l; exact (conj H1 H2)].
  intros id Hid%elem_of_dom. assert (Hd : dom (records sample_outbox) = {[1; 2; 3]})
    by (vm_compute; reflexivity).
  rewrite Hd in Hid. rewrite !elem_of_union, !elem_of_singleton in Hid. int_lia.
Defined.

Lemma queue_heads_merge_witness :
  dispatchable_queue_heads sample_outbox = [("b", (50, 2))] /\
  exists q, (q, (50, 2)) ∈ dispatchable_queue_heads sample_outbox.
Proof.
  split; [vm_compute; reflexivity|].
  destruct (queue_heads_merge sample_outbox sample_outbox_wf) as (_ & _ & H).
  destruct (H (sample_event_at 2 50 1)) as (q & ? & _); [vm_compute; reflexivity|]. exists q. assumption.
Defined.

Lemma discard_stale_complete_witness :
  option_map fst (discard_stale sample_outbox 1) = Some 1%nat /\
  exists o', option_map snd (discard_stale sample_outbox 1) = Some o' /\ outbox_wf o'.
Proof.
  split; [vm_compute; reflexivity|].
  destruct (discard_stale_complete sample_outbox 1 sample_outbox_wf) as (o' & H & Hwf & _).
  exists o'. rewrite H. exact (conj eq_refl Hwf).
Defined.

Lemma outbox_operations_functional_witness :
  update sample_outbox 9 (fun r => (tt, run_actions [ACancel] r)) =
    Some (Err (UnknownEventId 9), sample_outbox).
Proof.
  destruct (outbox_operations_functional sample_outbox sample_outbox_wf) as [_ H].
  specialize (H 9 [ACancel]). assert (Hn : records sample_outbox !! 9 = None) by (vm_compute; reflexivity).
  cbv zeta in H. rewrite Hn in H. exact H.
Defined.
