(* ===== verification/Clock.v ===== *)
(** * The virtual clock

    Models [crates/fireemu-core-session/src/clock.rs].  What the clock is given
    from outside is explicit: [source k] is what the [k]-th call of its time
    source returns ([TimeSource] is an arbitrary closure), the [World] counts the
    calls made, holds the messages observers were sent and says which observers
    were dropped (an [Arc<ClockObserver>] is its identifier).  A method is a
    function of the clock and the world: reading the clock calls the source and
    moves the [peak] cell, so even a [&self] method leaves a new state. *)
From S2P Require Import Prelude Time.

Record Sample := { s_instant : LogicalInstant; s_drift : Z; s_counted : Z }.

Record Follow := { f_at : Z; f_peak : Z }.

Record ClockSnapshot := {
  snap_instant : LogicalInstant;
  snap_elapsed_nanos : Z;
  snap_revision : Z;
}.

Inductive ClockError :=
| NegativeDuration
| Overflow
| OutOfRange
| WouldMoveBackwards (current requested : LogicalInstant).

Record VirtualClock := {
  now : LogicalInstant;
  follow : option Follow;
  backwards_sets : Z;
  elapsed_nanos : Z;
  revision : Z;
  observers : list Z;
  range : option (LogicalInstant * LogicalInstant);
}.

Record World := {
  reads : nat;
  dropped : gset Z;
  mailbox : list (Z * ClockSnapshot);
}.

(** The clock with its surroundings. *)
Record ClockState := { clk : VirtualClock; env : World }.

Definition clock_new (start : LogicalInstant) : VirtualClock :=
  {| now := start; follow := None; backwards_sets := 0; elapsed_nanos := 0; revision := 0;
     observers := []; range := None |}.

Definition following_with (start : LogicalInstant) (reading : Z) : VirtualClock :=
  {| now := start; follow := Some {| f_at := reading; f_peak := 0 |}; backwards_sets := 0;
     elapsed_nanos := 0; revision := 0; observers := []; range := None |}.

Definition clock_clone (c : VirtualClock) : VirtualClock :=
  {| now := now c; follow := follow c; backwards_sets := backwards_sets c;
     elapsed_nanos := elapsed_nanos c; revision := revision c; observers := [];
     range := range c |}.

Definition clock_eqb (c d : VirtualClock) : bool :=
  (now c =? now d) && (backwards_sets c =? backwards_sets d).

Definition is_following (c : VirtualClock) : bool :=
  match follow c with Some _ => true | None => false end.

(** Assignments to one field. *)
Definition set_follow (f : option Follow) (c : VirtualClock) : VirtualClock :=
  {| now := now c; follow := f; backwards_sets := backwards_sets c;
     elapsed_nanos := elapsed_nanos c; revision := revision c; observers := observers c;
     range := range c |}.
Definition set_backwards (n : Z) (c : VirtualClock) : VirtualClock :=
  {| now := now c; follow := follow c; backwards_sets := n;
     elapsed_nanos := elapsed_nanos c; revision := revision c; observers := observers c;
     range := range c |}.
Definition set_range (r : option (LogicalInstant * LogicalInstant)) (c : VirtualClock) : VirtualClock :=
  {| now := now c; follow := follow c; backwards_sets := backwards_sets c;
     elapsed_nanos := elapsed_nanos c; revision := revision c; observers := observers c;
     range := r |}.
Definition set_observers (l : list Z) (c : VirtualClock) : VirtualClock :=
  {| now := now c; follow := follow c; backwards_sets := backwards_sets c;
     elapsed_nanos := elapsed_nanos c; revision := revision c; observers := l;
     range := range c |}.
Definition set_clk (c : VirtualClock) (s : ClockState) : ClockState := {| clk := c; env := env s |}.

Definition called (w : World) : World :=
  {| reads := S (reads w); dropped := dropped w; mailbox := mailbox w |}.
Definition posted (o : Z) (snap : ClockSnapshot) (w : World) : World :=
  {| reads := reads w; dropped := dropped w; mailbox := mailbox w ++ [(o, snap)] |}.

Definition Ck := M ClockState ClockError.

Section clock.
Context (source : nat -> Z).

(** ** Reading *)

Definition drift_nanos (s : ClockState) : Z * ClockState :=
  match follow (clk s) with
  | None => (0, s)
  | Some f =>
      let drift := Z.max (wrapping i128 (source (reads (env s)) - f_at f)) (f_peak f) in
      (drift, {| clk := set_follow (Some {| f_at := f_at f; f_peak := drift |}) (clk s);
                 env := called (env s) |})
  end.

Definition sample_at (c : VirtualClock) (drift : Z) : Sample :=
  let instant := if drift =? 0 then now c else default (now c) (inst_checked_add (now c) drift) in
  let instant := match range c with Some (_, maximum) => Z.min instant maximum | None => instant end in
  {| s_instant := instant; s_drift := drift;
     s_counted := Z.max (saturating i128 (instant - now c)) 0 |}.

Definition sample (s : ClockState) : Sample * ClockState :=
  let (drift, s') := drift_nanos s in (sample_at (clk s') drift, s').

Definition live (s : ClockState) : LogicalInstant * ClockState :=
  let (smp, s') := sample s in (s_instant smp, s').

Definition snapshot (s : ClockState) : ClockSnapshot * ClockState :=
  let (smp, s') := sample s in
  ({| snap_instant := s_instant smp;
      snap_elapsed_nanos := saturating u128 (elapsed_nanos (clk s') + Z.abs (s_counted smp));
      snap_revision := revision (clk s') |}, s').

(** ** Publishing *)

Definition check (c : VirtualClock) (instant : LogicalInstant) (smp : Sample)
    : result unit ClockError :=
  if (revision c =? int_max u64)
     || ((s_instant smp <? instant)
         && match checked u128 (saturating u128 (elapsed_nanos c + Z.abs (s_counted smp))
                                + abs_diff instant (s_instant smp)) with
            | None => true
            | Some _ => false
            end)
  then Err Overflow
  else if match range c with
          | Some (minimum, maximum) => (instant <? minimum) || (maximum <? instant)
          | None => false
          end
  then Err OutOfRange
  else Ok tt.

Definition move (instant : LogicalInstant) (smp : Sample) (c : VirtualClock) : VirtualClock :=
  let elapsed := saturating u128 (elapsed_nanos c + Z.abs (s_counted smp)) in
  {| now := instant;
     follow := match follow c with
               | Some f => Some {| f_at := wrapping i128 (f_at f + s_drift smp); f_peak := 0 |}
               | None => None
               end;
     backwards_sets := backwards_sets c;
     elapsed_nanos := if s_instant smp <? instant
                      then saturating u128 (elapsed + abs_diff instant (s_instant smp))
                      else elapsed;
     revision := saturating u64 (revision c + 1);
     observers := observers c;
     range := range c |}.

(** [observers.retain(...)]: a dropped observer leaves the list, a live one is
    sent the snapshot. *)
Fixpoint notify (snap : ClockSnapshot) (obs : list Z) (w : World) : list Z * World :=
  match obs with
  | [] => ([], w)
  | o :: obs =>
      if bool_decide (o ∈ dropped w) then notify snap obs w
      else let (kept, w') := notify snap obs (posted o snap w) in (o :: kept, w')
  end.

Definition publish (instant : LogicalInstant) (smp : Sample) (s : ClockState) : ClockState :=
  let (snap, s1) := snapshot (set_clk (move instant smp (clk s)) s) in
  let (kept, w) := notify snap (observers (clk s1)) (env s1) in
  {| clk := set_observers kept (clk s1); env := w |}.

(** ** The methods *)

Definition get_sample : Ck Sample := fun s => let (smp, s') := sample s in (Ok smp, s').
Definition do_check (instant : LogicalInstant) (smp : Sample) : Ck unit :=
  fun s => (check (clk s) instant smp, s).
Definition do_publish (instant : LogicalInstant) (smp : Sample) : Ck unit :=
  fun s => (Ok tt, publish instant smp s).

Definition sync (s : ClockState) : bool * ClockState :=
  match follow (clk s) with
  | None => (false, s)
  | Some _ =>
      let (smp, s) := sample s in
      if (s_instant smp <=? now (clk s)) || negb (is_ok (check (clk s) (s_instant smp) smp))
      then (false, s)
      else (true, publish (s_instant smp) smp s)
  end.

Definition advance (duration : LogicalDuration) : Ck LogicalInstant :=
  if duration <? 0 then st_fail NegativeDuration
  else
    let! smp := get_sample in
    let! next := ok_or (inst_checked_add (s_instant smp) duration) Overflow in
    do! do_check next smp in
    do! do_publish next smp in
    st_ret next.

Definition advance_to (instant : LogicalInstant) : Ck LogicalInstant :=
  let! smp := get_sample in
  if instant <? s_instant smp then st_fail (WouldMoveBackwards (s_instant smp) instant)
  else
    do! do_check instant smp in
    do! do_publish instant smp in
    st_ret instant.

Definition set (instant : LogicalInstant) : Ck LogicalInstant := advance_to instant.

Definition count_backwards (instant : LogicalInstant) (smp : Sample) : Ck unit := fun s =>
  (Ok tt, if instant <? s_instant smp
          then set_clk (set_backwards (saturating u32 (backwards_sets (clk s) + 1)) (clk s)) s
          else s).

Definition try_set_allow_backwards (instant : LogicalInstant) : Ck unit :=
  let! smp := get_sample in
  do! do_check instant smp in
  do! count_backwards instant smp in
  do_publish instant smp.

Definition set_allow_backwards (instant : LogicalInstant) (s : ClockState) : ClockState :=
  (try_set_allow_backwards instant s).2.

Definition restrict_range (minimum maximum : LogicalInstant) : Ck unit := fun s =>
  let (minimum, maximum) :=
    match range (clk s) with
    | Some (low, high) => (Z.max low minimum, Z.min high maximum)
    | None => (minimum, maximum)
    end in
  let (t, s) := live s in
  if (maximum <? minimum) || (t <? minimum) || (maximum <? t) then (Err OutOfRange, s)
  else (Ok tt, set_clk (set_range (Some (minimum, maximum)) (clk s)) s).

Definition validate_target (instant : LogicalInstant) : Ck unit :=
  let! smp := get_sample in do_check instant smp.

Definition observe (observer : Z) (s : ClockState) : ClockState :=
  let (snap, s) := snapshot (set_clk (set_observers (observers (clk s) ++ [observer]) (clk s)) s) in
  {| clk := clk s; env := posted observer snap (env s) |}.

Definition tick : Ck LogicalInstant := advance 1.
End clock.

(** ** Sequences of calls *)

Inductive ClockOp :=
| OpRead | OpSnapshot | OpSync | OpTick
| OpAdvance (d : LogicalDuration)
| OpSet (t : LogicalInstant)
| OpSetBackwards (t : LogicalInstant)
| OpRestrict (lo hi : LogicalInstant)
| OpValidate (t : LogicalInstant)
| OpObserve (o : Z)
| OpDropObserver (o : Z).

(** The owner of an observer lets go of it. *)
Definition drop_observer (o : Z) (s : ClockState) : ClockState :=
  {| clk := clk s;
     env := {| reads := reads (env s); dropped := {[o]} ∪ dropped (env s); mailbox := mailbox (env s) |} |}.

Definition apply_clock_op (source : nat -> Z) (s : ClockState) (op : ClockOp) : ClockState :=
  match op with
  | OpRead => (live source s).2
  | OpSnapshot => (snapshot source s).2
  | OpSync => (sync source s).2
  | OpTick => (tick source s).2
  | OpAdvance d => (advance source d s).2
  | OpSet t => (set source t s).2
  | OpSetBackwards t => set_allow_backwards source t s
  | OpRestrict lo hi => (restrict_range source lo hi s).2
  | OpValidate t => (validate_target source t s).2
  | OpObserve o => observe source o s
  | OpDropObserver o => drop_observer o s
  end.

Definition run_clock (source : nat -> Z) (ops : list ClockOp) (s : ClockState) : ClockState :=
  fold_left (apply_clock_op source) ops s.

(** The arguments of a call are 128-bit values. *)
Definition op_ok (op : ClockOp) : Prop :=
  match op with
  | OpAdvance t | OpSet t | OpSetBackwards t | OpValidate t => fits i128 t
  | OpRestrict lo hi => fits i128 lo /\ fits i128 hi
  | _ => True
  end.

Definition is_forward (op : ClockOp) : bool :=
  match op with OpSetBackwards _ => false | _ => true end.

(** ** The clock as a value

    [run_instant c d] is the instant of a clock that has run for [d] nanoseconds
    since its last move; [peak_of] is the drift it has already reported. *)

Definition peak_of (c : VirtualClock) : Z :=
  match follow c with Some f => f_peak f | None => 0 end.

Definition run_instant (c : VirtualClock) (d : Z) : LogicalInstant :=
  match range c with Some (_, maximum) => Z.min (now c + d) maximum | None => now c + d end.

(** The instant the clock has reached, and the time it has counted. *)
Definition reached (c : VirtualClock) : LogicalInstant := run_instant c (peak_of c).
Definition counted_total (c : VirtualClock) : Z :=
  saturating u128 (elapsed_nanos c + (reached c - now c)).

Definition with_peak (d : Z) (c : VirtualClock) : VirtualClock :=
  set_follow (option_map (fun f => {| f_at := f_at f; f_peak := d |}) (follow c)) c.

(** A time source whose readings, and a runtime range whose end, leave room for
    their sum in 128 bits. *)
Definition READING_BOUND : Z := 2 ^ 125.

Definition range_ok (c : VirtualClock) (lo hi : Z) : Prop :=
  lo <= hi /\ lo <= now c + peak_of c /\ now c <= hi.

Record clock_wf (c : VirtualClock) : Prop := {
  cw_now : fits i128 (now c);
  cw_elapsed : fits u128 (elapsed_nanos c);
  cw_revision : fits u64 (revision c);
  cw_range : match range c with Some (lo, hi) => range_ok c lo hi | None => True end;
  cw_follow : match follow c with
              | None => True
              | Some f =>
                  - READING_BOUND <= f_at f /\ 0 <= f_peak f /\ f_at f + f_peak f <= READING_BOUND /\
                  match range c with
                  | Some (_, hi) => hi + 2 ^ 126 <= int_max i128
                  | None => False
                  end
              end;
}.

(** The drifts a reading of the clock can report. *)
Definition drift_ok (c : VirtualClock) (d : Z) : Prop :=
  match follow c with
  | None => d = 0
  | Some f => f_peak f <= d /\ f_at f + d <= READING_BOUND
  end.

Lemma with_peak_wf c d : clock_wf c -> drift_ok c d -> clock_wf (with_peak d c).
Proof.
  intros [Hn He Hr Hrg Hf] Hd. unfold drift_ok in *. constructor; cbn; try done.
  - unfold range_ok, peak_of in *. cbn. destruct (range c) as [[lo hi]|]; [|done].
    destruct (follow c); cbn in *; lia.
  - destruct (follow c); cbn in *; [|done]. split_and!; (lia || tauto).
Qed.

Lemma with_peak_reached c d : drift_ok c d -> reached (with_peak d c) = run_instant c d.
Proof.
  unfold reached, peak_of, with_peak, run_instant, drift_ok. cbn.
  destruct (follow c); cbn; [done|]. by intros ->.
Qed.

Lemma reached_le_run c d : drift_ok c d -> reached c <= run_instant c d.
Proof.
  unfold reached, run_instant, peak_of, drift_ok. destruct (follow c), (range c) as [[lo hi]|]; lia.
Qed.

Lemma now_le_reached c : clock_wf c -> now c <= reached c.
Proof.
  intros [_ _ _ Hrg Hf]. unfold reached, run_instant, peak_of, range_ok in *.
  destruct (follow c), (range c) as [[lo hi]|]; lia.
Qed.

Lemma drift_ok_peak c : clock_wf c -> drift_ok c (peak_of c).
Proof. intros [_ _ _ _ Hf]. unfold drift_ok, peak_of. destruct (follow c); [lia|done]. Qed.

Lemma run_instant_fits c d : clock_wf c -> drift_ok c d -> fits i128 (run_instant c d).
Proof.
  intros [Hn _ _ Hrg Hf] Hd. unfold run_instant, drift_ok, range_ok, peak_of, READING_BOUND in *.
  destruct (follow c), (range c) as [[lo hi]|]; int_lia.
Qed.

Lemma drift_le c d : clock_wf c -> drift_ok c d -> 0 <= d <= 2 ^ 126.
Proof.
  intros [_ _ _ _ Hf] Hd. unfold drift_ok, READING_BOUND in *. destruct (follow c); lia.
Qed.

Lemma run_instant_le c d : run_instant c d <= now c + d.
Proof. unfold run_instant. destruct (range c) as [[lo hi]|]; lia. Qed.

Lemma sample_at_spec c d : clock_wf c -> drift_ok c d ->
  sample_at c d =
    {| s_instant := run_instant c d; s_drift := d; s_counted := run_instant c d - now c |}.
Proof.
  intros Hwf Hd. pose proof (drift_le c d Hwf Hd). pose proof (run_instant_le c d).
  pose proof (reached_le_run c d Hd). pose proof (now_le_reached c Hwf).
  destruct Hwf as [Hn _ _ Hrg Hf]. unfold sample_at.
  assert (Hadd : (if d =? 0 then now c else default (now c) (inst_checked_add (now c) d)) = now c + d).
  { destruct (Z.eqb_spec d 0) as [->|Hd0]; [lia|]. unfold inst_checked_add, checked.
    rewrite decide_True; [done|]. unfold drift_ok, READING_BOUND, range_ok, peak_of in *.
    destruct (follow c), (range c) as [[lo hi]|]; int_lia. }
  rewrite Hadd. cbv zeta.
  change (match range c with Some (_, maximum) => Z.min (now c + d) maximum | None => now c + d end)
    with (run_instant c d).
  f_equal. rewrite saturating_id by int_lia. lia.
Qed.

Section clock_facts.
Context (source : nat -> Z) (Hsource : forall k, - READING_BOUND <= source k <= READING_BOUND).

(** ** Reading *)

(** What a read leaves: the clock with a later [peak], and the messages as they were. *)
Lemma sample_spec s : clock_wf (clk s) ->
  exists d s', sample source s =
      ({| s_instant := run_instant (clk s) d; s_drift := d;
          s_counted := run_instant (clk s) d - now (clk s) |}, s') /\
    drift_ok (clk s) d /\ clk s' = with_peak d (clk s) /\ clock_wf (clk s') /\
    mailbox (env s') = mailbox (env s) /\ dropped (env s') = dropped (env s).
Proof.
  intros Hwf. unfold sample, drift_nanos. pose proof (cw_follow _ Hwf) as Hf.
  destruct (follow (clk s)) as [f|] eqn:Ef.
  - assert (Hw : wrapping i128 (source (reads (env s)) - f_at f) = source (reads (env s)) - f_at f).
    { apply wrapping_id. specialize (Hsource (reads (env s))). unfold READING_BOUND in *. int_lia. }
    rewrite Hw. set (d := Z.max _ _).
    assert (Hd : drift_ok (clk s) d).
    { unfold drift_ok. rewrite Ef. specialize (Hsource (reads (env s))). lia. }
    assert (Hc : set_follow (Some {| f_at := f_at f; f_peak := d |}) (clk s) = with_peak d (clk s))
      by (unfold with_peak; by rewrite Ef).
    rewrite Hc. exists d. eexists. cbn [clk env]. split.
    { rewrite sample_at_spec; [done|by apply with_peak_wf|].
      unfold drift_ok in *. cbn. rewrite Ef in *. cbn. lia. }
    split_and!; [done|done|by apply with_peak_wf|done|done].
  - assert (Hd : drift_ok (clk s) 0) by (unfold drift_ok; by rewrite Ef).
    exists 0, s. rewrite sample_at_spec by done. split_and!; try done.
    unfold with_peak. rewrite Ef. cbn. rewrite <- Ef. by destruct (clk s).
Qed.

(** The reading of a clock that has just been sampled. *)
Definition sample_of (c : VirtualClock) : Sample :=
  {| s_instant := reached c; s_drift := peak_of c; s_counted := reached c - now c |}.

(** [c'] is [c] after some reads. *)
Definition read_from (c c' : VirtualClock) : Prop :=
  exists d, drift_ok c d /\ c' = with_peak d c.

Lemma read_from_reached c c' : read_from c c' -> reached c <= reached c'.
Proof. intros (d & Hd & ->). rewrite with_peak_reached by done. by apply reached_le_run. Qed.

Lemma read_from_fields c c' : read_from c c' ->
  now c' = now c /\ backwards_sets c' = backwards_sets c /\ elapsed_nanos c' = elapsed_nanos c /\
  revision c' = revision c /\ observers c' = observers c /\ range c' = range c /\
  f_at <$> follow c' = f_at <$> follow c.
Proof. intros (d & _ & ->). split_and!; try done. cbn. by destruct (follow c). Qed.

Lemma sample_reads s : clock_wf (clk s) ->
  exists s', sample source s = (sample_of (clk s'), s') /\ read_from (clk s) (clk s') /\
    clock_wf (clk s') /\ mailbox (env s') = mailbox (env s) /\ dropped (env s') = dropped (env s).
Proof.
  intros Hwf. destruct (sample_spec s Hwf) as (d & s' & Hs & Hd & Hc & Hwf' & Hm & Hdr).
  exists s'. split_and!; [|by exists d|done|done|done].
  rewrite Hs. unfold sample_of. rewrite Hc, with_peak_reached by done. do 2 f_equal.
  unfold peak_of, with_peak. cbn. unfold drift_ok in Hd. by destruct (follow (clk s)).
Qed.

(** ** Moving *)

Lemma check_Ok c t smp : check c t smp = Ok tt ->
  revision c <> int_max u64 /\
  (s_instant smp < t ->
     saturating u128 (elapsed_nanos c + Z.abs (s_counted smp)) + abs_diff t (s_instant smp)
       <= int_max u128) /\
  match range c with Some (lo, hi) => lo <= t <= hi | None => True end.
Proof.
  unfold check. intros H.
  destruct (Z.eqb_spec (revision c) (int_max u64)); [done|]. cbn [orb] in H.
  destruct (Z.ltb_spec (s_instant smp) t); cbn [andb] in H.
  - destruct (checked u128 _) as [v|] eqn:Hc; [|done]. apply checked_Some in Hc as [_ Hc].
    split_and!; [done|intros; apply Hc|]. destruct (range c) as [[lo hi]|]; [|done].
    destruct (Z.ltb_spec t lo), (Z.ltb_spec hi t); cbn in H; (done || lia).
  - split_and!; [done|lia|]. destruct (range c) as [[lo hi]|]; [|done].
    destruct (Z.ltb_spec t lo), (Z.ltb_spec hi t); cbn in H; (done || lia).
Qed.

Lemma move_wf c t : clock_wf c -> fits i128 t -> check c t (sample_of c) = Ok tt ->
  clock_wf (move t (sample_of c) c).
Proof.
  intros Hwf Ht (Hrev & Hel & Hrg)%check_Ok. pose proof (now_le_reached c Hwf).
  destruct Hwf as [Hn He Hr Hrange Hf].
  constructor; cbn.
  - done.
  - destruct (reached c <? t); by apply saturating_fits.
  - by apply saturating_fits.
  - destruct (range c) as [[lo hi]|]; [|done]. unfold range_ok, peak_of in *. cbn.
    destruct (follow c); cbn; lia.
  - unfold peak_of in *. destruct (follow c) as [f|]; [|done]. cbn. unfold READING_BOUND in *.
    rewrite wrapping_id by int_lia. split_and!; (lia || tauto).
Qed.

Lemma move_reached c t : clock_wf c -> check c t (sample_of c) = Ok tt ->
  reached (move t (sample_of c) c) = t.
Proof.
  intros Hwf (_ & _ & Hrg)%check_Ok. unfold reached, run_instant, peak_of. cbn.
  destruct (range c) as [[lo hi]|], (follow c); cbn; lia.
Qed.

(** The counted time after a move: a move forward adds exactly its length. *)
Lemma move_elapsed c t : clock_wf c -> check c t (sample_of c) = Ok tt ->
  elapsed_nanos (move t (sample_of c) c) =
    if reached c <? t then counted_total c + (t - reached c) else counted_total c.
Proof.
  intros Hwf (_ & Hel & _)%check_Ok. pose proof (now_le_reached c Hwf). cbn.
  cbn in Hel. rewrite !Z.abs_eq in * by lia. fold (counted_total c) in *.
  destruct (Z.ltb_spec (reached c) t); [|done].
  unfold abs_diff in *. rewrite Z.abs_eq in * by lia.
  apply saturating_id. specialize (Hel ltac:(done)).
  assert (0 <= counted_total c) by (unfold counted_total, saturating; int_lia). int_lia.
Qed.

(** ** Publishing *)

Lemma notify_spec snap obs w :
  notify snap obs w =
    (filter (fun o => o ∉ dropped w) obs,
     {| reads := reads w; dropped := dropped w;
        mailbox := mailbox w ++ map (fun o => (o, snap)) (filter (fun o => o ∉ dropped w) obs) |}).
Proof.
  revert w. induction obs as [|o obs IH]; intros w; cbn [notify].
  - rewrite filter_nil. cbn. rewrite app_nil_r. by destruct w.
  - rewrite filter_cons. case_bool_decide as Ho.
    + rewrite IH. by rewrite decide_False by tauto.
    + rewrite IH. cbn [posted dropped reads mailbox]. rewrite decide_True by done. cbn [map].
      by rewrite <- app_assoc.
Qed.

(** A publication: the clock is where it was told to be or has run on from
    there, its revision has grown by one, and each observer that is still alive
    has been sent the state once. *)
Lemma publish_spec s t : clock_wf (clk s) -> fits i128 t ->
  check (clk s) t (sample_of (clk s)) = Ok tt ->
  let s' := publish source t (sample_of (clk s)) s in
  let alive := filter (fun o => o ∉ dropped (env s)) (observers (clk s)) in
  exists c1 snap, read_from (move t (sample_of (clk s)) (clk s)) c1 /\
    clk s' = set_observers alive c1 /\ clock_wf (clk s') /\ dropped (env s') = dropped (env s) /\
    mailbox (env s') = mailbox (env s) ++ map (fun o => (o, snap)) alive /\
    snap_instant snap = reached (clk s') /\ snap_revision snap = revision (clk s') /\
    snap_elapsed_nanos snap = counted_total (clk s').
Proof.
  intros Hwf Ht Hok. set (c0 := move t (sample_of (clk s)) (clk s)).
  assert (Hwf0 : clock_wf c0) by (by apply move_wf).
  destruct (sample_reads (set_clk c0 s) Hwf0) as (s1 & Hs & Hrd & Hwf1 & Hm & Hd). cbn in Hrd, Hm, Hd.
  cbv zeta. unfold publish. fold c0. unfold snapshot. rewrite Hs, notify_spec. cbn [clk env s_instant s_counted sample_of].
  destruct (read_from_fields _ _ Hrd) as (_ & _ & _ & _ & Hobs & _ & _).
  pose proof (now_le_reached _ Hwf1).
  exists (clk s1). eexists. cbn [clk env mailbox dropped]. rewrite Hobs, Hm, Hd.
  split_and!; [done|done| |done|done|done|done|].
  - destruct Hwf1; constructor; done.
  - cbn. rewrite Z.abs_eq by lia. done.
Qed.

(** ** The methods

    A method leaves the clock quiet (only the reading has moved on) or publishes
    one instant. *)

Record quiet (s s1 : ClockState) : Prop := {
  q_wf : clock_wf (clk s1);
  q_reached : reached (clk s) <= reached (clk s1);
  q_now : now (clk s1) = now (clk s);
  q_elapsed : elapsed_nanos (clk s1) = elapsed_nanos (clk s);
  q_revision : revision (clk s1) = revision (clk s);
  q_observers : observers (clk s1) = observers (clk s);
  q_range : range (clk s1) = range (clk s);
  q_mailbox : mailbox (env s1) = mailbox (env s);
  q_dropped : dropped (env s1) = dropped (env s);
}.

Definition published (t : LogicalInstant) (s s' : ClockState) : Prop :=
  exists s1, quiet s s1 /\ fits i128 t /\ check (clk s1) t (sample_of (clk s1)) = Ok tt /\
    s' = publish source t (sample_of (clk s1)) s1.

Lemma quiet_refl s : clock_wf (clk s) -> quiet s s.
Proof. by constructor. Qed.

Lemma sample_quiet s : clock_wf (clk s) ->
  exists s1, sample source s = (sample_of (clk s1), s1) /\ quiet s s1 /\
    backwards_sets (clk s1) = backwards_sets (clk s) /\ f_at <$> follow (clk s1) = f_at <$> follow (clk s).
Proof.
  intros Hwf. destruct (sample_reads s Hwf) as (s1 & Hs & Hrd & Hwf1 & Hm & Hd). exists s1.
  destruct (read_from_fields _ _ Hrd) as (? & ? & ? & ? & ? & ? & ?).
  split_and!; try done. constructor; try done. by apply read_from_reached.
Qed.

Lemma saturating_mono t a b : a <= b -> saturating t a <= saturating t b.
Proof. unfold saturating. lia. Qed.

Lemma quiet_counted s s1 : quiet s s1 -> counted_total (clk s) <= counted_total (clk s1).
Proof.
  intros [_ Hr Hn He _ _ _ _ _]. unfold counted_total. rewrite Hn, He. apply saturating_mono. lia.
Qed.

Lemma published_effect t s s' : clock_wf (clk s) -> published t s s' ->
  clock_wf (clk s') /\ now (clk s') = t /\ t <= reached (clk s') /\
  counted_total (clk s) <= counted_total (clk s') /\
  revision (clk s') = revision (clk s) + 1 /\ range (clk s') = range (clk s) /\
  match range (clk s) with Some (lo, hi) => lo <= t <= hi | None => True end.
Proof.
  intros Hwf (s1 & Hq & Ht & Hok & ->). pose proof (q_wf _ _ Hq) as Hwf1.
  destruct (publish_spec s1 t Hwf1 Ht Hok) as (c1 & snap & Hrd & Hc & Hwf' & _).
  pose proof (move_reached (clk s1) t Hwf1 Hok) as Hmr.
  pose proof (move_elapsed (clk s1) t Hwf1 Hok) as Hme.
  pose proof (read_from_reached _ _ Hrd) as Hle. rewrite Hmr in Hle.
  destruct (read_from_fields _ _ Hrd) as (Hn & _ & He & Hr & _ & Hrg & _).
  destruct (check_Ok _ _ _ Hok) as (Hrev & _ & Hin).
  pose proof (cw_revision _ Hwf1). pose proof (quiet_counted _ _ Hq).
  rewrite Hc in *. cbn [set_observers now revision range] in *.
  split_and!; [done|by rewrite Hn|done| | |by rewrite Hrg, <- (q_range _ _ Hq)|].
  - assert (Hge : counted_total (clk s1) <= elapsed_nanos c1).
    { rewrite He, Hme. destruct (Z.ltb_spec (reached (clk s1)) t); lia. }
    pose proof (cw_elapsed _ Hwf') as Hfit. cbn in Hfit.
    transitivity (elapsed_nanos c1); [lia|]. rewrite <- (saturating_id u128 (elapsed_nanos c1)) by done.
    apply saturating_mono. change (reached (set_observers _ c1)) with (reached c1). cbn.
    rewrite Hn. cbn. lia.
  - rewrite Hr. cbn. rewrite saturating_id by int_lia. by rewrite (q_revision _ _ Hq).
  - by rewrite <- (q_range _ _ Hq).
Qed.

(** What each method does, by cases. *)
Definition sampled (s s1 : ClockState) : Prop :=
  quiet s s1 /\ backwards_sets (clk s1) = backwards_sets (clk s) /\
  f_at <$> follow (clk s1) = f_at <$> follow (clk s).

Lemma advance_cases d s : clock_wf (clk s) ->
  exists s1, sampled s s1 /\
  advance source d s =
    if d <? 0 then (Err NegativeDuration, s)
    else match inst_checked_add (reached (clk s1)) d with
         | None => (Err Overflow, s1)
         | Some t => match check (clk s1) t (sample_of (clk s1)) with
                     | Err e => (Err e, s1)
                     | Ok _ => (Ok t, publish source t (sample_of (clk s1)) s1)
                     end
         end.
Proof.
  intros Hwf. destruct (sample_quiet s Hwf) as (s1 & Hs & Hq). exists s1. split; [done|].
  unfold advance. destruct (d <? 0); [done|].
  unfold st_bind, get_sample. rewrite Hs. cbn [s_instant sample_of].
  destruct (inst_checked_add _ d) as [t|]; cbn; [|done].
  unfold do_check. destruct (check _ t _) as [[]|e]; done.
Qed.

Lemma advance_to_cases t s : clock_wf (clk s) ->
  exists s1, sampled s s1 /\
  advance_to source t s =
    if t <? reached (clk s1) then (Err (WouldMoveBackwards (reached (clk s1)) t), s1)
    else match check (clk s1) t (sample_of (clk s1)) with
         | Err e => (Err e, s1)
         | Ok _ => (Ok t, publish source t (sample_of (clk s1)) s1)
         end.
Proof.
  intros Hwf. destruct (sample_quiet s Hwf) as (s1 & Hs & Hq). exists s1. split; [done|].
  unfold advance_to, st_bind, get_sample. rewrite Hs. cbn [s_instant sample_of].
  destruct (t <? reached (clk s1)); [done|].
  unfold do_check. destruct (check _ t _) as [[]|e]; done.
Qed.

Lemma try_set_cases t s : clock_wf (clk s) ->
  exists s1, sampled s s1 /\
  try_set_allow_backwards source t s =
    match check (clk s1) t (sample_of (clk s1)) with
    | Err e => (Err e, s1)
    | Ok _ => (Ok tt, publish source t (sample_of (clk s1)) (count_backwards t (sample_of (clk s1)) s1).2)
    end.
Proof.
  intros Hwf. destruct (sample_quiet s Hwf) as (s1 & Hs & Hq). exists s1. split; [done|].
  unfold try_set_allow_backwards, st_bind, get_sample. rewrite Hs.
  unfold do_check. destruct (check _ t _) as [[]|e]; [|done].
  unfold count_backwards. by destruct (t <? _).
Qed.

Lemma sync_cases s : clock_wf (clk s) ->
  exists s1, sampled s s1 /\
  (sync source s = (false, s) \/ sync source s = (false, s1) \/
   sync source s = (true, publish source (reached (clk s1)) (sample_of (clk s1)) s1) /\
   now (clk s) < reached (clk s1) /\
   check (clk s1) (reached (clk s1)) (sample_of (clk s1)) = Ok tt).
Proof.
  intros Hwf. destruct (sample_quiet s Hwf) as (s1 & Hs & Hq). exists s1. split; [done|].
  unfold sync. destruct (follow (clk s)); [|auto]. rewrite Hs. cbn [s_instant sample_of].
  fold (sample_of (clk s1)). rewrite (q_now _ _ (proj1 Hq)).
  destruct (Z.leb_spec (reached (clk s1)) (now (clk s))); [auto|]. cbn [orb].
  destruct (check _ _ _) as [[]|e]; cbn [is_ok negb]; auto.
Qed.

(** ** One call *)

Definition range_within (r' r : option (LogicalInstant * LogicalInstant)) : Prop :=
  match r with
  | None => True
  | Some (lo, hi) => exists lo' hi', r' = Some (lo', hi') /\ lo <= lo' /\ hi' <= hi
  end.

(** What holds after every call. *)
Record progress (s s' : ClockState) : Prop := {
  p_wf : clock_wf (clk s');
  p_counted : counted_total (clk s) <= counted_total (clk s');
  p_revision : revision (clk s) <= revision (clk s');
  p_range : range_within (range (clk s')) (range (clk s));
}.

Lemma range_within_refl r : range_within r r.
Proof. destruct r as [[lo hi]|]; cbn; [|done]. exists lo, hi. auto with lia. Qed.

Lemma range_within_trans r1 r2 r3 : range_within r3 r2 -> range_within r2 r1 -> range_within r3 r1.
Proof.
  destruct r1 as [[lo hi]|]; cbn; [|done]. intros H32 (lo' & hi' & -> & ? & ?).
  destruct H32 as (lo'' & hi'' & -> & ? & ?). exists lo'', hi''. split_and!; [done|lia|lia].
Qed.

Lemma quiet_progress s s1 : quiet s s1 -> progress s s1.
Proof.
  intros Hq. pose proof (quiet_counted _ _ Hq). destruct Hq as [? ? ? ? Hr ? Hrg ? ?].
  constructor; [done|done|lia|]. rewrite Hrg. apply range_within_refl.
Qed.

Lemma published_progress t s s' : clock_wf (clk s) -> published t s s' -> progress s s'.
Proof.
  intros Hwf Hp. destruct (published_effect t s s' Hwf Hp) as (? & _ & _ & ? & Hr & Hrg & _).
  constructor; [done|done|lia|]. rewrite Hrg. apply range_within_refl.
Qed.

Lemma inst_checked_add_Some a b t : inst_checked_add a b = Some t -> t = a + b /\ fits i128 t.
Proof. intros [-> ?]%checked_Some. done. Qed.

(** A forward call that publishes has reached at least where the clock was. *)
Lemma published_reached t s s' s1 : clock_wf (clk s) -> quiet s s1 -> reached (clk s1) <= t ->
  published t s s' -> reached (clk s) <= reached (clk s').
Proof.
  intros Hwf Hq Hle Hp. destruct (published_effect t s s' Hwf Hp) as (_ & _ & ? & _).
  pose proof (q_reached _ _ Hq). lia.
Qed.

Lemma advance_progress d s : clock_wf (clk s) -> fits i128 d ->
  progress s (advance source d s).2 /\ reached (clk s) <= reached (clk (advance source d s).2).
Proof.
  intros Hwf Hd. destruct (advance_cases d s Hwf) as (s1 & [Hq _] & ->).
  pose proof (quiet_progress _ _ Hq). pose proof (quiet_progress _ _ (quiet_refl s Hwf)).
  pose proof (q_reached _ _ Hq).
  destruct (Z.ltb_spec d 0); [done|].
  destruct (inst_checked_add _ d) as [t|] eqn:Ht; [|done].
  apply inst_checked_add_Some in Ht as [-> Hfit].
  destruct (check _ _ _) as [[]|e] eqn:Hc; [|done]. cbn [snd].
  assert (Hp : published (reached (clk s1) + d) s (publish source (reached (clk s1) + d) (sample_of (clk s1)) s1))
    by (by exists s1).
  split; [by eapply published_progress|]. eapply published_reached; [done|done| |done]. lia.
Qed.

Lemma advance_to_progress t s : clock_wf (clk s) -> fits i128 t ->
  progress s (advance_to source t s).2 /\ reached (clk s) <= reached (clk (advance_to source t s).2).
Proof.
  intros Hwf Hd. destruct (advance_to_cases t s Hwf) as (s1 & [Hq _] & ->).
  pose proof (quiet_progress _ _ Hq). pose proof (q_reached _ _ Hq).
  destruct (Z.ltb_spec t (reached (clk s1))); [done|].
  destruct (check _ _ _) as [[]|e] eqn:Hc; [|done]. cbn [snd].
  assert (Hp : published t s (publish source t (sample_of (clk s1)) s1)) by (by exists s1).
  split; [by eapply published_progress|]. by eapply published_reached.
Qed.

(** Counting a rewind does not touch what a move reads. *)
Lemma count_backwards_quiet t smp s s1 : quiet s s1 ->
  quiet s (count_backwards t smp s1).2 /\
  sample_of (clk (count_backwards t smp s1).2) = sample_of (clk s1) /\
  (forall t', check (clk (count_backwards t smp s1).2) t' (sample_of (clk s1)) =
     check (clk s1) t' (sample_of (clk s1))).
Proof.
  intros Hq. unfold count_backwards. destruct (t <? s_instant smp); [|done]. cbn [snd].
  split_and!; [|done|done]. destruct Hq as [Hwf]. constructor; try done.
  destruct Hwf; constructor; done.
Qed.

Lemma try_set_published t s : clock_wf (clk s) -> fits i128 t ->
  let (res, s') := try_set_allow_backwards source t s in
  match res with Ok _ => published t s s' | Err _ => sampled s s' end.
Proof.
  intros Hwf Ht. destruct (try_set_cases t s Hwf) as (s1 & Hs1 & ->).
  destruct (check _ _ _) as [[]|e] eqn:Hc; [|done].
  destruct (count_backwards_quiet t (sample_of (clk s1)) s s1 (proj1 Hs1)) as (Hq & Hsm & Hck).
  eexists. split_and!; [exact Hq|done| |by rewrite Hsm]. by rewrite Hsm, Hck.
Qed.

Lemma restrict_progress lo hi s : clock_wf (clk s) ->
  progress s (restrict_range source lo hi s).2 /\
  reached (clk s) <= reached (clk (restrict_range source lo hi s).2).
Proof.
  intros Hwf. unfold restrict_range, live. destruct (sample_quiet s Hwf) as (s1 & Hs & Hq & _).
  rewrite Hs. cbn [s_instant sample_of]. fold (sample_of (clk s1)).
  pose proof (quiet_progress _ _ Hq) as Hpq. pose proof (quiet_counted _ _ Hq) as Hct.
  destruct Hq as [Hwf1 Hre Hn He Hr Ho Hrg _ _]. pose proof (now_le_reached _ Hwf1) as Hnr.
  destruct (match range (clk s) with Some _ => _ | None => _ end) as [lo' hi'] eqn:Er.
  destruct ((hi' <? lo') || (reached (clk s1) <? lo') || (hi' <? reached (clk s1))) eqn:Eb; [done|].
  apply orb_false_iff in Eb as [[E1%Z.ltb_ge E2%Z.ltb_ge]%orb_false_iff E3%Z.ltb_ge]. cbn [snd].
  assert (Hsame : reached (set_range (Some (lo', hi')) (clk s1)) = reached (clk s1)).
  { unfold reached, run_instant, peak_of in *. cbn. rewrite Hrg in *.
    destruct (range (clk s)) as [[low high]|]; injection Er as <- <-; destruct (follow (clk s1)); lia. }
  cbn [clk set_clk]. rewrite Hsame. split; [|done].
  assert (Hwf2 : clock_wf (set_range (Some (lo', hi')) (clk s1))).
  { destruct Hwf1 as [? ? ? Hrg1 Hf1]. constructor; cbn; try done.
    - unfold range_ok. cbn. change (peak_of (set_range (Some (lo', hi')) (clk s1))) with (peak_of (clk s1)).
      pose proof (run_instant_le (clk s1) (peak_of (clk s1))). unfold reached in *. lia.
    - destruct (follow (clk s1)) as [f|]; [|done]. rewrite Hrg in Hf1.
      destruct (range (clk s)) as [[low high]|]; [|tauto]. injection Er as <- <-.
      destruct Hf1 as (? & ? & ? & ?). split_and!; int_lia. }
  constructor; cbn [clk set_clk]; [done| |cbn; lia|].
  - unfold counted_total in *. rewrite Hsame. exact Hct.
  - cbn. unfold range_within. destruct (range (clk s)) as [[low high]|]; [|done].
    injection Er as <- <-. eexists _, _. split; [done|]. lia.
Qed.

Lemma observe_quiet_axes o s : clock_wf (clk s) ->
  progress s (observe source o s) /\ reached (clk s) <= reached (clk (observe source o s)).
Proof.
  intros Hwf. unfold observe, snapshot.
  set (s0 := set_clk (set_observers (observers (clk s) ++ [o]) (clk s)) s).
  assert (Hwf0 : clock_wf (clk s0)) by (destruct Hwf; constructor; done).
  destruct (sample_quiet s0 Hwf0) as (s1 & Hs & Hq & _). rewrite Hs. cbn [clk].
  destruct (quiet_progress _ _ Hq). split; [by constructor|]. apply (q_reached _ _ Hq).
Qed.

Lemma drop_progress o s : clock_wf (clk s) -> progress s (drop_observer o s).
Proof. intros Hwf. constructor; [done|done|cbn; lia|apply range_within_refl]. Qed.

Lemma read_progress s : clock_wf (clk s) ->
  progress s (sample source s).2 /\ reached (clk s) <= reached (clk (sample source s).2).
Proof.
  intros Hwf. destruct (sample_quiet s Hwf) as (s1 & -> & Hq & _).
  split; [by apply quiet_progress|apply (q_reached _ _ Hq)].
Qed.

Lemma sync_progress s : clock_wf (clk s) ->
  progress s (sync source s).2 /\ reached (clk s) <= reached (clk (sync source s).2).
Proof.
  intros Hwf. destruct (sync_cases s Hwf) as (s1 & [Hq _] & [->|[->|(-> & _ & Hc)]]); cbn [snd].
  - split; [apply quiet_progress, quiet_refl|]; done.
  - split; [by apply quiet_progress|apply (q_reached _ _ Hq)].
  - assert (Hp : published (reached (clk s1)) s
      (publish source (reached (clk s1)) (sample_of (clk s1)) s1)).
    { exists s1. split_and!; try done. pose proof (q_wf _ _ Hq).
      apply run_instant_fits; [done|by apply drift_ok_peak]. }
    split; [by eapply published_progress|]. by eapply published_reached.
Qed.

Lemma step_progress op s : clock_wf (clk s) -> op_ok op ->
  progress s (apply_clock_op source s op) /\
  (is_forward op = true -> reached (clk s) <= reached (clk (apply_clock_op source s op))).
Proof.
  intros Hwf Hok. pose proof (read_progress s Hwf) as Hrd.
  destruct op; cbn [apply_clock_op is_forward op_ok] in *.
  - unfold live. destruct (sample source s). tauto.
  - unfold snapshot. destruct (sample source s). tauto.
  - pose proof (sync_progress s Hwf). tauto.
  - destruct (advance_progress 1 s Hwf); [int_lia|]. done.
  - destruct (advance_progress d s Hwf Hok). done.
  - destruct (advance_to_progress t s Hwf Hok). done.
  - pose proof (try_set_published t s Hwf Hok) as Hp. unfold set_allow_backwards.
    destruct (try_set_allow_backwards source t s) as [[u|e] s']; cbn [snd].
    + split; [by eapply published_progress|done].
    + split; [apply quiet_progress, Hp|done].
  - pose proof (restrict_progress lo hi s Hwf). tauto.
  - unfold validate_target, st_bind, get_sample, do_check. destruct (sample source s). tauto.
  - pose proof (observe_quiet_axes o s Hwf). tauto.
  - pose proof (drop_progress o s Hwf). done.
Qed.

Lemma run_progress ops s : clock_wf (clk s) -> Forall op_ok ops ->
  progress s (run_clock source ops s) /\
  (Forall (fun op => is_forward op = true) ops ->
     reached (clk s) <= reached (clk (run_clock source ops s))).
Proof.
  intros Hwf Hops. revert s Hwf. induction Hops as [|op ops Hop Hops IH]; intros s Hwf.
  - cbn. split; [apply quiet_progress, quiet_refl; done|lia].
  - destruct (step_progress op s Hwf Hop) as [[Hwf1 Hc1 Hr1 Hg1] Hf1].
    destruct (IH _ Hwf1) as [[Hwf2 Hc2 Hr2 Hg2] Hf2]. 
    change (run_clock source (op :: ops) s) with (run_clock source ops (apply_clock_op source s op)).
    split; [constructor; [done|lia|lia|by eapply range_within_trans]|].
    intros [Hfo Hfos]%Forall_cons. specialize (Hf1 Hfo). specialize (Hf2 Hfos). lia.
Qed.

(** Reading the clock. *)
Lemma live_spec s : clock_wf (clk s) ->
  exists s1, live source s = (reached (clk s1), s1) /\ quiet s s1.
Proof.
  intros Hwf. unfold live. destruct (sample_quiet s Hwf) as (s1 & -> & Hq & _). by exists s1.
Qed.

Lemma snapshot_spec s : clock_wf (clk s) ->
  exists s1, snapshot source s =
    ({| snap_instant := reached (clk s1); snap_elapsed_nanos := counted_total (clk s1);
        snap_revision := revision (clk s1) |}, s1) /\ quiet s s1.
Proof.
  intros Hwf. unfold snapshot. destruct (sample_quiet s Hwf) as (s1 & -> & Hq & _).
  exists s1. split; [|done]. cbn. pose proof (now_le_reached _ (q_wf _ _ Hq)).
  by rewrite Z.abs_eq by lia.
Qed.

Lemma reached_in_range c lo hi : clock_wf c -> range c = Some (lo, hi) -> lo <= reached c <= hi.
Proof.
  intros [_ _ _ Hrg _] Hr. unfold reached, run_instant, range_ok in *. rewrite Hr in *. lia.
Qed.

(** ** Properties *)

(** C8. Time never goes backwards while its sums fit the machine: for a source
    whose readings, steps back included, stay within 2^125 nanoseconds of its
    origin, and a clock whose range, which a following clock has, ends at least
    2^126 before the end of 128 bits, once an instant has been read, no sequence
    of calls other than an explicit backwards set lets a later read, or a later
    published instant, be earlier.  Without that room a sum overflows and a read
    can step back ([overflowing_read_steps_back]). *)
Theorem clock_never_goes_back ops s :
  clock_wf (clk s) -> Forall op_ok ops -> Forall (fun op => is_forward op = true) ops ->
  let (t, s1) := live source s in
  let s2 := run_clock source ops s1 in
  t <= (live source s2).1 /\ t <= snap_instant (snapshot source s2).1.
Proof.
  intros Hwf Hops Hfwd. destruct (live_spec s Hwf) as (s1 & -> & Hq). cbv zeta.
  destruct (run_progress ops s1 (q_wf _ _ Hq) Hops) as [[Hwf2 _ _ _] Hf]. specialize (Hf Hfwd).
  destruct (live_spec _ Hwf2) as (s3 & -> & Hq3). destruct (snapshot_spec _ Hwf2) as (s4 & -> & Hq4).
  pose proof (q_reached _ _ Hq3). pose proof (q_reached _ _ Hq4). cbn. lia.
Qed.

(** The counted time and the revision never decrease, backwards sets included,
    and a configured range holds for every later read and only ever narrows. *)
Theorem clock_axes_monotone_in_range ops s :
  clock_wf (clk s) -> Forall op_ok ops ->
  let (before, s1) := snapshot source s in
  let (after, s2) := snapshot source (run_clock source ops s1) in
  snap_elapsed_nanos before <= snap_elapsed_nanos after /\
  snap_revision before <= snap_revision after /\
  (forall lo hi, range (clk s) = Some (lo, hi) -> lo <= snap_instant after <= hi).
Proof.
  intros Hwf Hops. destruct (snapshot_spec s Hwf) as (s1 & -> & Hq).
  destruct (run_progress ops s1 (q_wf _ _ Hq) Hops) as [[Hwf2 Hc Hr Hg] _].
  destruct (snapshot_spec _ Hwf2) as (s3 & -> & Hq3). cbn.
  pose proof (quiet_counted _ _ Hq3). pose proof (q_revision _ _ Hq3).
  split_and!; [lia|lia|]. intros lo hi Hrg. rewrite (q_range _ _ Hq), Hrg in Hg.
  destruct Hg as (lo' & hi' & Hr' & ? & ?). rewrite <- (q_range _ _ Hq3) in Hr'.
  pose proof (reached_in_range _ _ _ (q_wf _ _ Hq3) Hr'). lia.
Qed.

(** A refused call changes nothing but the reading: when [advance],
    [advance_to] or [try_set_allow_backwards] fails, the published instant, the
    counted time, the revision, the backwards counter, the range, the observers
    and what they were sent are as before. *)
Theorem clock_errors_change_no_axis t s :
  clock_wf (clk s) -> fits i128 t ->
  (forall e s', advance source t s = (Err e, s') -> sampled s s') /\
  (forall e s', advance_to source t s = (Err e, s') -> sampled s s') /\
  (forall e s', try_set_allow_backwards source t s = (Err e, s') -> sampled s s').
Proof.
  intros Hwf Ht. split_and!; intros e s'.
  - destruct (advance_cases t s Hwf) as (s1 & Hq & ->).
    destruct (t <? 0); [intros [= _ <-]; split_and!; [by apply quiet_refl|done|done]|].
    destruct (inst_checked_add _ t) as [t'|]; [|by intros [= _ <-]].
    destruct (check _ _ _); [done|by intros [= _ <-]].
  - destruct (advance_to_cases t s Hwf) as (s1 & Hq & ->).
    destruct (t <? _); [by intros [= _ <-]|]. destruct (check _ _ _); [done|by intros [= _ <-]].
  - pose proof (try_set_published t s Hwf Ht) as Hp. intros E. by rewrite E in Hp.
Qed.

(** What a forward move that succeeds does. *)
Record moved_forward (t : LogicalInstant) (s1 s' : ClockState) (snap : ClockSnapshot) : Prop := {
  m_forward : reached (clk s1) <= t;
  m_now : now (clk s') = t;
  m_elapsed : elapsed_nanos (clk s') = counted_total (clk s1) + (t - reached (clk s1));
  m_revision : revision (clk s') = revision (clk s1) + 1;
  m_observers : observers (clk s') = filter (fun o => o ∉ dropped (env s1)) (observers (clk s1));
  m_mailbox : mailbox (env s') = mailbox (env s1) ++ map (fun o => (o, snap)) (observers (clk s'));
  m_snap : snap = {| snap_instant := reached (clk s'); snap_elapsed_nanos := counted_total (clk s');
                     snap_revision := revision (clk s') |};
}.

Lemma publish_forward t s1 : clock_wf (clk s1) -> fits i128 t -> reached (clk s1) <= t ->
  check (clk s1) t (sample_of (clk s1)) = Ok tt ->
  exists snap, moved_forward t s1 (publish source t (sample_of (clk s1)) s1) snap.
Proof.
  intros Hwf Ht Hle Hok.
  destruct (publish_spec s1 t Hwf Ht Hok) as (c1 & snap & Hrd & Hc & _ & _ & Hm & Hs1 & Hs2 & Hs3).
  destruct (read_from_fields _ _ Hrd) as (Hn & _ & He & Hr & _ & _ & _).
  pose proof (move_elapsed (clk s1) t Hwf Hok) as Hme. pose proof (cw_revision _ Hwf).
  destruct (check_Ok _ _ _ Hok) as (Hrev & _ & _).
  exists snap. constructor; rewrite ?Hm, ?Hc; cbn [set_observers now elapsed_nanos revision observers].
  - done.
  - by rewrite Hn.
  - rewrite He, Hme. destruct (Z.ltb_spec (reached (clk s1)) t); lia.
  - rewrite Hr. cbn. apply saturating_id. int_lia.
  - done.
  - done.
  - destruct snap as [i e r]. cbn in *. by rewrite Hs1, Hs2, Hs3, Hc.
Qed.

(** A successful move is accounted for exactly: [advance] lands [d] after the
    instant it read and [advance_to] where it was told; the counted time grows by
    what the source ran plus the length of the move, without saturating; the
    revision grows by one; observers that were dropped are forgotten and each of
    the others is sent the published state exactly once. *)
Theorem clock_publication_exact s s' t d :
  clock_wf (clk s) -> fits i128 d ->
  (advance source d s = (Ok t, s') ->
     exists s1 snap, sampled s s1 /\ t = reached (clk s1) + d /\ moved_forward t s1 s' snap) /\
  (advance_to source d s = (Ok t, s') ->
     exists s1 snap, sampled s s1 /\ t = d /\ moved_forward t s1 s' snap).
Proof.
  intros Hwf Hd. split.
  - destruct (advance_cases d s Hwf) as (s1 & Hq & ->). destruct (Z.ltb_spec d 0); [done|].
    destruct (inst_checked_add _ d) as [t'|] eqn:Et; [|done].
    apply inst_checked_add_Some in Et as [-> Hfit].
    destruct (check _ _ _) as [[]|e] eqn:Hc; [|done]. intros [= <- <-].
    destruct (publish_forward (reached (clk s1) + d) s1) as [snap Hs];
      [apply Hq|done|lia|done|]. by exists s1, snap.
  - destruct (advance_to_cases d s Hwf) as (s1 & Hq & ->). destruct (Z.ltb_spec d (reached (clk s1))); [done|].
    destruct (check _ _ _) as [[]|e] eqn:Hc; [|done]. intros [= <- <-].
    destruct (publish_forward d s1) as [snap Hs]; [apply Hq|done|lia|done|]. by exists s1, snap.
Qed.
End clock_facts.

(** At the end of the representable time a running clock steps back: a read
    whose instant would leave 128 bits reports the last published instant, which
    is earlier than what the read before it reported. *)
Theorem overflowing_read_steps_back :
  let source := fun k => 5 + Z.of_nat k in
  let s := {| clk := following_with (int_max i128 - 5) 0;
              env := {| reads := 0; dropped := ∅; mailbox := [] |} |} in
  let (t1, s1) := live source s in
  let (t2, _) := live source s1 in
  t1 = int_max i128 /\ t2 = int_max i128 - 5.
Proof. vm_compute. done. Qed.

(** ** Witnesses *)

(** A source that steps back on every other call. *)
Definition sample_source (k : nat) : Z := if Nat.even k then 40 else 10.

Definition sample_clock : ClockState :=
  {| clk := {| now := 100; follow := Some {| f_at := 0; f_peak := 0 |}; backwards_sets := 0;
               elapsed_nanos := 0; revision := 0; observers := [7; 8]; range := Some (0, 1000000) |};
     env := {| reads := 0; dropped := {[8]}; mailbox := [] |} |}.

Lemma sample_source_bounded k : - READING_BOUND <= sample_source k <= READING_BOUND.
Proof. unfold sample_source, READING_BOUND. destruct (Nat.even k); lia. Qed.

Lemma sample_clock_wf : clock_wf (clk sample_clock).
Proof. constructor; cbn; unfold READING_BOUND, range_ok, peak_of; cbn; int_lia. Qed.

Lemma sample_calls_ok : Forall op_ok [OpRead; OpAdvance 5].
Proof. repeat constructor; int_lia. Qed.

Lemma sample_calls_forward : Forall (fun op => is_forward op = true) [OpRead; OpAdvance 5].
Proof. repeat constructor. Qed.

Lemma sample_rewind_ok : Forall op_ok [OpAdvance 5; OpSetBackwards 3].
Proof. repeat constructor; int_lia. Qed.

Lemma clock_never_goes_back_witness :
  (live sample_source sample_clock).1 = 140 /\
  let (t, s1) := live sample_source sample_clock in
  let s2 := run_clock sample_source [OpRead; OpAdvance 5] s1 in
  t <= (live sample_source s2).1 /\ t <= snap_instant (snapshot sample_source s2).1.
Proof.
  exact (conj eq_refl
    (clock_never_goes_back sample_source sample_source_bounded [OpRead; OpAdvance 5] sample_clock
       sample_clock_wf sample_calls_ok sample_calls_forward)).
Defined.

Lemma clock_axes_monotone_in_range_witness :
  let (before, s1) := snapshot sample_source sample_clock in
  let (after, s2) := snapshot sample_source (run_clock sample_source [OpAdvance 5; OpSetBackwards 3] s1) in
  snap_elapsed_nanos before <= snap_elapsed_nanos after /\
  snap_revision before <= snap_revision after /\
  (forall lo hi, range (clk sample_clock) = Some (lo, hi) -> lo <= snap_instant after <= hi).
Proof.
  exact (clock_axes_monotone_in_range sample_source sample_source_bounded
           [OpAdvance 5; OpSetBackwards 3] sample_clock sample_clock_wf sample_rewind_ok).
Defined.

Lemma clock_errors_change_no_axis_witness :
  exists s', advance_to sample_source 20 sample_clock = (Err (WouldMoveBackwards 140 20), s') /\
    sampled sample_clock s'.
Proof.
  exists (advance_to sample_source 20 sample_clock).2.
  assert (H : advance_to sample_source 20 sample_clock =
    (Err (WouldMoveBackwards 140 20), (advance_to sample_source 20 sample_clock).2))
    by (vm_compute; reflexivity).
  split; [exact H|].
  destruct (clock_errors_change_no_axis sample_source sample_source_bounded 20 sample_clock
              sample_clock_wf) as (_ & Hto & _); [int_lia|]. exact (Hto _ _ H).
Defined.

Lemma clock_publication_exact_witness :
  exists s1 snap, moved_forward 145 s1 (advance sample_source 5 sample_clock).2 snap.
Proof.
  destruct (clock_publication_exact sample_source sample_source_bounded sample_clock
              (advance sample_source 5 sample_clock).2 145 5 sample_clock_wf) as [H _]; [int_lia|].
  destruct H as (s1 & snap & _ & _ & H); [vm_compute; reflexivity|]. exists s1, snap. exact H.
Defined.
