(* ===== verification/Session.v ===== *)
(** * Session lifecycle and epochs

    Models [crates/fireemu-core-session/src/session.rs]: the lifecycle

    Creating -> Active -> Resetting -> Active -> Closing -> Closed

    the epoch a reset starts, the identifier stream of each epoch and the guard
    every work item passes before it changes state. *)
From S2P Require Import Prelude Time Determinism Ids Clock.

Inductive SessionState := Creating | Active | Resetting | Closing | Closed.

#[global] Instance SessionState_eq_dec : EqDecision SessionState.
Proof. solve_decision. Defined.

Inductive SessionAction := Activate | BeginReset | CompleteReset | BeginClose | CompleteClose.

#[global] Instance SessionAction_eq_dec : EqDecision SessionAction.
Proof. solve_decision. Defined.

Record SessionTransitionError := { err_from : SessionState; err_action : SessionAction }.

Inductive WorkResult :=
| Proceed
| WorkDiscardedStaleEpoch
| SessionNotActive (s : SessionState).

Record Session := {
  sess_id : Z;
  sess_seed : Z;
  sess_state : SessionState;
  sess_epoch : Epoch;
  sess_clock : VirtualClock;
  sess_ids : DeterministicIdSource;
}.

(** The seed of an epoch's identifier stream. *)
Definition epoch_seed (seed : Z) (epoch : Epoch) : Z := Z.lxor seed (rotate_left64 epoch 32).

Definition id_source_for (id seed : Z) (epoch : Epoch) : DeterministicIdSource :=
  ids_new id (epoch_seed seed epoch).

Definition create (id seed : Z) (clock_start : LogicalInstant) : Session :=
  {| sess_id := id; sess_seed := seed; sess_state := Creating; sess_epoch := epoch_initial;
     sess_clock := clock_new clock_start; sess_ids := id_source_for id seed epoch_initial |}.

Definition set_session_state (st : SessionState) (s : Session) : Session :=
  {| sess_id := sess_id s; sess_seed := sess_seed s; sess_state := st; sess_epoch := sess_epoch s;
     sess_clock := sess_clock s; sess_ids := sess_ids s |}.

Definition Sn := M Session SessionTransitionError.

Definition transition (action : SessionAction) (allowed_from : list SessionState)
    (to : SessionState) : Sn unit := fun s =>
  if bool_decide (sess_state s ∈ allowed_from) then (Ok tt, set_session_state to s)
  else (Err {| err_from := sess_state s; err_action := action |}, s).

Definition activate : Sn unit := transition Activate [Creating] Active.

Definition begin_reset : Sn Epoch := fun s =>
  let refused := {| err_from := sess_state s; err_action := BeginReset |} in
  if negb (bool_decide (sess_state s = Active)) then (Err refused, s)
  else match epoch_next (sess_epoch s) with
       | None => (Err refused, s)
       | Some next =>
           (Ok next,
            {| sess_id := sess_id s; sess_seed := sess_seed s; sess_state := Resetting;
               sess_epoch := next; sess_clock := sess_clock s;
               sess_ids := id_source_for (sess_id s) (sess_seed s) next |})
       end.

Definition complete_reset : Sn unit := transition CompleteReset [Resetting] Active.

Definition begin_close : Sn unit := transition BeginClose [Creating; Active; Resetting] Closing.

Definition complete_close : Sn unit := transition CompleteClose [Closing] Closed.

Definition check_work_epoch (s : Session) (work_epoch : Epoch) : WorkResult :=
  if negb (work_epoch =? sess_epoch s) then WorkDiscardedStaleEpoch
  else match sess_state s with
       | Active => Proceed
       | other => SessionNotActive other
       end.

(** A lifecycle call: whether it succeeded, and the session it leaves. *)
Definition lifecycle (a : SessionAction) (s : Session) : bool * Session :=
  match a with
  | Activate => prod_map is_ok id (activate s)
  | BeginReset => prod_map is_ok id (begin_reset s)
  | CompleteReset => prod_map is_ok id (complete_reset s)
  | BeginClose => prod_map is_ok id (begin_close s)
  | CompleteClose => prod_map is_ok id (complete_close s)
  end.

(** [ids().next_...()]: a draw from the session's own source. *)
Definition draw_id (k : IdKind) (s : Session) : Z * Session :=
  let (id, src) := next_mixed k (sess_ids s) in
  (id, {| sess_id := sess_id s; sess_seed := sess_seed s; sess_state := sess_state s;
          sess_epoch := sess_epoch s; sess_clock := sess_clock s; sess_ids := src |}).

(** What happens to a session: lifecycle calls and draws, in any order. *)
Inductive SessionOp := SLife (a : SessionAction) | SDraw (k : IdKind).

(** The identifiers a run draws, with their kinds, and the session it leaves. *)
Fixpoint run_session (ops : list SessionOp) (s : Session) : list (IdKind * Z) * Session :=
  match ops with
  | [] => ([], s)
  | SLife a :: ops => run_session ops (lifecycle a s).2
  | SDraw k :: ops =>
      let (id, s) := draw_id k s in
      let (ids, s) := run_session ops s in ((k, id) :: ids, s)
  end.

(** ** The lifecycle diagram *)

Inductive life_step : SessionAction -> SessionState * Epoch -> SessionState * Epoch -> Prop :=
| life_activate e : life_step Activate (Creating, e) (Active, e)
| life_begin_reset e : e < int_max u64 -> life_step BeginReset (Active, e) (Resetting, e + 1)
| life_complete_reset e : life_step CompleteReset (Resetting, e) (Active, e)
| life_begin_close st e : st <> Closing -> st <> Closed -> life_step BeginClose (st, e) (Closing, e)
| life_complete_close e : life_step CompleteClose (Closing, e) (Closed, e).

Definition session_view (s : Session) : SessionState * Epoch := (sess_state s, sess_epoch s).

Create HintDb session.
#[global] Hint Constructors life_step : session.

Ltac run_life :=
  unfold lifecycle, activate, begin_reset, complete_reset, begin_close, complete_close, transition,
    session_view; cbn [sess_state sess_epoch set_session_state prod_map fst snd is_ok id].

(** A call fails and changes nothing, or takes its arrow. *)
Lemma lifecycle_step a s : is_u64 (sess_epoch s) ->
  lifecycle a s = (false, s) \/
  (lifecycle a s).1 = true /\ life_step a (session_view s) (session_view (lifecycle a s).2).
Proof.
  destruct s as [i sd st e c src]. cbn [sess_epoch]. intros He.
  destruct a, st; run_life; cbn -[epoch_next]; auto with session.
  all: try (right; split; [done|]; constructor; done).
  unfold epoch_next. destruct (checked u64 (e + 1)) eqn:Hc; cbn; [|by left].
  apply checked_Some in Hc as [-> Hf]. right. split; [done|]. constructor. int_lia.
Qed.

Lemma life_step_taken a s v : life_step a (session_view s) v -> is_u64 (sess_epoch s) ->
  (lifecycle a s).1 = true /\ session_view (lifecycle a s).2 = v.
Proof.
  destruct s as [i sd st e c src]. unfold session_view; cbn [sess_state sess_epoch].
  intros Hl He. inversion Hl; subst; run_life; cbn -[epoch_next]; try done.
  - unfold epoch_next, checked. rewrite decide_True; [done|]. unfold is_u64 in He. int_lia.
  - by destruct st.
Qed.

Lemma lifecycle_identity a s :
  sess_id (lifecycle a s).2 = sess_id s /\ sess_seed (lifecycle a s).2 = sess_seed s.
Proof.
  destruct s as [i sd st e c src]. destruct a, st; run_life; cbn -[epoch_next]; try done.
  by destruct (epoch_next e).
Qed.

(** The source a call leaves is the old one, or a fresh one of the next epoch. *)
Lemma lifecycle_ids a s : is_u64 (sess_epoch s) ->
  let s' := (lifecycle a s).2 in
  sess_epoch s' = sess_epoch s /\ sess_ids s' = sess_ids s \/
  sess_epoch s' = sess_epoch s + 1 /\ is_u64 (sess_epoch s') /\
    sess_ids s' = id_source_for (sess_id s) (sess_seed s) (sess_epoch s').
Proof.
  destruct s as [i sd st e c src]. cbn [sess_epoch]. intros He.
  destruct a, st; run_life; cbn -[epoch_next]; auto.
  rewrite bool_decide_eq_true_2 by done. cbn -[epoch_next].
  unfold epoch_next. destruct (checked u64 (e + 1)) eqn:Hc; cbn; [|by left].
  apply checked_Some in Hc as [-> Hf]. right. unfold is_u64 in *. split_and!; (done || int_lia).
Qed.

(** ** Identifier streams of different epochs *)

Lemma testbit_above z i : is_u64 z -> 64 <= i -> Z.testbit z i = false.
Proof. intros [Hz Hz'] Hi. by apply (proj1 (below_pow2_bits 64 z ltac:(lia) Hz) Hz'). Qed.

Lemma rotate32_low z n : is_u64 z -> 0 <= n < 32 ->
  Z.testbit (rotate_left64 z 32) (n + 32) = Z.testbit z n.
Proof.
  intros Hz Hn. unfold rotate_left64, wrap64.
  rewrite Z.lor_spec, Z.mod_pow2_bits_low, Z.shiftl_spec, Z.shiftr_spec by lia.
  rewrite (testbit_above z (n + 32 + (64 - 32))) by (done || lia). rewrite orb_false_r. f_equal. lia.
Qed.

Lemma rotate32_high z n : is_u64 z -> 32 <= n < 64 ->
  Z.testbit (rotate_left64 z 32) (n - 32) = Z.testbit z n.
Proof.
  intros Hz Hn. unfold rotate_left64, wrap64.
  rewrite Z.lor_spec, Z.mod_pow2_bits_low, Z.shiftl_spec_low, Z.shiftr_spec by lia.
  cbn [orb]. f_equal. lia.
Qed.

Lemma rotate32_inj x y : is_u64 x -> is_u64 y ->
  rotate_left64 x 32 = rotate_left64 y 32 -> x = y.
Proof.
  intros Hx Hy Heq. apply Z.bits_inj'. intros n Hn.
  destruct (decide (n < 32)); [|destruct (decide (n < 64))].
  - by rewrite <- (rotate32_low x n), <- (rotate32_low y n), Heq by (done || lia).
  - by rewrite <- (rotate32_high x n), <- (rotate32_high y n), Heq by (done || lia).
  - by rewrite !testbit_above by (done || lia).
Qed.

Lemma epoch_seed_inj seed e1 e2 : is_u64 e1 -> is_u64 e2 ->
  epoch_seed seed e1 = epoch_seed seed e2 -> e1 = e2.
Proof. unfold epoch_seed. intros ? ? H%lxor_inj_l. by apply rotate32_inj. Qed.

Lemma epoch_seed_u64 seed e : is_u64 seed -> is_u64 e -> is_u64 (epoch_seed seed e).
Proof. intros. apply lxor_u64; [done|]. apply rotate_left64_u64; [done|lia]. Qed.

(** The kind's tag sits above what the first 2^24 epochs touch. *)
Lemma rotate32_small e : 0 <= e < 2 ^ 24 -> Z.shiftr (rotate_left64 e 32) 56 = 0.
Proof.
  intros He. unfold rotate_left64, wrap64. rewrite Z.shiftl_mul_pow2, !Z.shiftr_div_pow2 by lia.
  rewrite (Z.div_small e) by lia. rewrite Z.lor_0_r, Z.mod_small by lia.
  apply Z.div_small. lia.
Qed.

Lemma epoch_kind_inj session seed e1 e2 k1 k2 : 0 <= e1 < 2 ^ 24 -> 0 <= e2 < 2 ^ 24 ->
  hash_input session (epoch_seed seed e1) k1 = hash_input session (epoch_seed seed e2) k2 -> k1 = k2.
Proof.
  intros H1 H2. unfold hash_input, epoch_seed. rewrite !Z.lxor_assoc.
  intros H%lxor_inj_l%lxor_inj_l%lxor_inj_l.
  apply (f_equal (fun z => Z.shiftr z 56)) in H. rewrite !Z.shiftr_lxor in H.
  rewrite !rotate32_small, !Z.lxor_0_l in H by done.
  destruct k1, k2; first [done | by vm_compute in H].
Qed.

(** ** What a run draws *)

#[local] Opaque mixed_id epoch_seed.

Record session_wf (s : Session) : Prop := {
  sw_epoch : is_u64 (sess_epoch s);
  sw_seed : is_u64 (sess_seed s);
  sw_session : ids_session (sess_ids s) = sess_id s;
  sw_ids_seed : ids_seed (sess_ids s) = epoch_seed (sess_seed s) (sess_epoch s);
  sw_counters : length (counters (sess_ids s)) = 4%nat;
}.

(** [id] is the [c]-th identifier of kind [k] of epoch [e], drawn after [s]. *)
Definition drawn_after (s : Session) (n : nat) (k : IdKind) (id : Z) : Prop :=
  exists e c, is_u64 e /\ is_u64 c /\ sess_epoch s <= e <= sess_epoch s + Z.of_nat n /\
    (e = sess_epoch s -> counter_of k (sess_ids s) < c) /\
    id = mixed_id (sess_id s) (epoch_seed (sess_seed s) e) k c.

Lemma fresh_counter id seed epoch k : counter_of k (id_source_for id seed epoch) = 0.
Proof. by destruct k. Qed.

Lemma create_wf id seed start : is_u64 seed -> session_wf (create id seed start).
Proof. intros Hs. constructor; cbn; try done; unfold is_u64, epoch_initial; lia. Qed.

Lemma lifecycle_wf a s : session_wf s -> session_wf (lifecycle a s).2.
Proof.
  intros [He Hs Hi Hd Hc]. destruct (lifecycle_identity a s) as [Hid Hse].
  destruct (lifecycle_ids a s He) as [[He' Hi']|(He' & Hu & Hi')];
    constructor; rewrite ?Hid, ?Hse, ?He', ?Hi'; try done; by rewrite <- He'.
Qed.

(** Ids of an epoch that a run reaches are drawn after its start. *)
Lemma drawn_after_lifecycle a s n k id : session_wf s ->
  (forall k, 0 <= counter_of k (sess_ids s)) ->
  drawn_after (lifecycle a s).2 n k id -> drawn_after s (S n) k id.
Proof.
  intros [He _ _ _ _] Hcnt (e & c & Hue & Huc & Hle & Hc & ->).
  destruct (lifecycle_identity a s) as [Hid Hse]. exists e, c.
  rewrite Hid, Hse. destruct (lifecycle_ids a s He) as [[He' Hi']|(He' & Hu & Hi')].
  - rewrite He', Hi' in *. split_and!; (done || lia).
  - split_and!; (done || lia).
Qed.

Lemma draw_id_spec k s id s' : session_wf s -> 0 <= counter_of k (sess_ids s) < 2 ^ 64 - 1 ->
  draw_id k s = (id, s') ->
  session_wf s' /\ sess_id s' = sess_id s /\ sess_seed s' = sess_seed s /\
  sess_epoch s' = sess_epoch s /\
  id = mixed_id (sess_id s) (epoch_seed (sess_seed s) (sess_epoch s)) k (counter_of k (sess_ids s) + 1) /\
  forall k', counter_of k' (sess_ids s') = counter_of k' (sess_ids s) + if decide (k = k') then 1 else 0.
Proof.
  intros [He Hs Hi Hd Hc] Hcnt. unfold draw_id. destruct (next_mixed k (sess_ids s)) as [i src] eqn:Hn.
  apply next_mixed_spec in Hn as ([Hl Hsu] & Hses & Hseed & -> & Hct); [|split; [done|]|done].
  2:{ rewrite Hd. by apply epoch_seed_u64. }
  intros [= <- <-]. cbn [sess_id sess_seed sess_epoch sess_ids]. rewrite Hi, Hd. split_and!; try done.
  constructor; cbn; congruence.
Qed.

Lemma run_session_ids ops s ids s' :
  session_wf s -> (forall k, 0 <= counter_of k (sess_ids s) < 2 ^ 64 - Z.of_nat (length ops)) ->
  run_session ops s = (ids, s') ->
  Forall (fun p => drawn_after s (length ops) p.1 p.2) ids /\ NoDup ids.
Proof.
  revert s ids. induction ops as [|[a|k] ops IH]; intros s ids Hwf Hcnt; cbn [run_session length] in *.
  - intros [= <- _]. split; constructor.
  - intros Hr. apply IH in Hr as [Hall Hnd]; [|by apply lifecycle_wf|].
    + split; [|done]. eapply Forall_impl; [exact Hall|]. intros p Hp. cbn beta in *.
      eapply drawn_after_lifecycle; [done| |exact Hp]. intros k. apply Hcnt.
    + intros k. destruct (lifecycle_ids a s (sw_epoch s Hwf)) as [[_ ->]|(_ & _ & ->)].
      * specialize (Hcnt k). lia.
      * rewrite fresh_counter. specialize (Hcnt k). lia.
  - destruct (draw_id k s) as [id s1] eqn:Hd.
    pose proof (Hcnt k) as Hck.
    apply draw_id_spec in Hd as (Hwf1 & Hid & Hse & Hep & -> & Hct); [|done|lia].
    destruct (run_session ops s1) as [ids1 s2] eqn:Hr. intros [= <- <-].
    apply IH in Hr as [Hall Hnd];
      [|done|intros k'; rewrite Hct; specialize (Hcnt k'); case_decide; lia].
    rewrite Forall_forall in Hall. pose proof (sw_epoch s Hwf). split.
    + constructor.
      * exists (sess_epoch s), (counter_of k (sess_ids s) + 1). cbn [fst snd].
        unfold is_u64. split_and!; (done || lia || apply sw_epoch; done).
      * apply Forall_forall. intros p Hp. destruct (Hall p Hp) as (e & c & Hue & Huc & Hle & Hc & ->).
        exists e, c. rewrite Hid, Hse, Hep in *. rewrite Hct in Hc.
        split_and!; try done; [lia|lia|]. intros He. specialize (Hc He). case_decide; lia.
    + constructor; [|done]. intros Hin. destruct (Hall _ Hin) as (e & c & Hue & Huc & Hle & Hc & Heq).
      cbn [fst snd] in Hc, Heq. rewrite Hid, Hse, Hep, Hct in *. pose proof (sw_seed s Hwf).
      apply mixed_id_inj in Heq as [Hh Hcc];
        [|by apply epoch_seed_u64..|unfold is_u64; lia|done].
      apply hash_input_seed_inj, epoch_seed_inj in Hh as <-; [|done|done].
      specialize (Hc eq_refl). rewrite decide_True in Hc by done. lia.
Qed.

(** ** Sequences of lifecycle calls *)

Lemma draw_id_wf k s : session_wf s -> session_wf (draw_id k s).2.
Proof.
  intros [? ? ? ? ?]. constructor; cbn -[next_mixed]; try done.
  cbn. by rewrite length_insert.
Qed.

Lemma run_session_cons k ops s :
  (run_session (SDraw k :: ops) s).2 = (run_session ops (draw_id k s).2).2.
Proof.
  cbn [run_session]. destruct (draw_id k s) as [i s1]. cbn [snd]. by destruct (run_session ops s1).
Qed.

(** A run keeps the session well-formed, its epoch only grows, and a closed
    session stays as it is. *)
Lemma run_session_epoch ops s : session_wf s ->
  let s' := (run_session ops s).2 in
  session_wf s' /\ sess_epoch s <= sess_epoch s' /\
  (sess_state s = Closed -> sess_state s' = Closed /\ sess_epoch s' = sess_epoch s).
Proof.
  revert s. induction ops as [|[a|k] ops IH]; intros s Hwf; cbv zeta.
  - cbn. split_and!; (done || lia).
  - cbn [run_session]. destruct (IH _ (lifecycle_wf a s Hwf)) as (Hwf' & Hle & Hcl).
    pose proof (lifecycle_ids a s (sw_epoch s Hwf)) as Hids.
    split_and!; [done|destruct Hids as [[He _]|[He _]]; lia|].
    intros Hst. destruct (lifecycle_step a s (sw_epoch s Hwf)) as [E|[_ Hs]].
    + rewrite E in *. by apply Hcl.
    + unfold session_view in Hs. rewrite Hst in Hs. inversion Hs; congruence.
  - rewrite run_session_cons. pose proof (draw_id_wf k s Hwf) as Hwf1.
    assert (Hst : sess_state (draw_id k s).2 = sess_state s) by done.
    assert (He : sess_epoch (draw_id k s).2 = sess_epoch s) by done. destruct (IH _ Hwf1) as (Hwf' & Hle & Hcl). rewrite Hst, He in *. done.
Qed.

Lemma begin_reset_epoch s s1 next : session_wf s -> begin_reset s = (Ok next, s1) ->
  session_wf s1 /\ sess_epoch s < sess_epoch s1.
Proof.
  intros Hwf Hb. pose proof (lifecycle_wf BeginReset s Hwf) as Hwf1.
  change (lifecycle BeginReset s).2 with (begin_reset s).2 in Hwf1. rewrite Hb in Hwf1.
  split; [exact Hwf1|]. unfold begin_reset in Hb. destruct (negb _); [done|].
  destruct (epoch_next (sess_epoch s)) as [n|] eqn:Hn; [|done]. injection Hb as <- <-. cbn.
  apply checked_Some in Hn as [-> _]. lia.
Qed.

(** ** Properties *)

(** The lifecycle methods implement the diagram: a call that is not allowed
    fails and changes nothing; an allowed one takes its arrow, a reset being the
    only one that moves the epoch, by one; and every arrow can be taken. *)
Theorem session_methods_refine_lifecycle a s :
  is_u64 (sess_epoch s) ->
  (lifecycle a s = (false, s) \/
   (lifecycle a s).1 = true /\ life_step a (session_view s) (session_view (lifecycle a s).2)) /\
  (forall v, life_step a (session_view s) v ->
     (lifecycle a s).1 = true /\ session_view (lifecycle a s).2 = v).
Proof.
  intros He. split; [by apply lifecycle_step|]. intros v Hv. by apply life_step_taken.
Qed.

Lemma session_methods_refine_lifecycle_witness :
  (lifecycle BeginReset (lifecycle Activate (create 1 2 3)).2).1 = true /\
  session_view (lifecycle BeginReset (lifecycle Activate (create 1 2 3)).2).2 = (Resetting, 0 + 1).
Proof.
  destruct (session_methods_refine_lifecycle BeginReset (lifecycle Activate (create 1 2 3)).2)
    as [_ H]; [split; [vm_compute; discriminate|vm_compute; reflexivity]|].
  apply H. apply (life_begin_reset 0). int_lia.
Defined.

(** Work of an old epoch never mutates a session: after a reset has begun,
    whatever calls follow (later resets, draws, closing), the guard never lets a
    work item of the epoch before the reset proceed, and a closed session never
    lets any work proceed again. *)
Theorem stale_work_never_proceeds s s1 next ops :
  session_wf s -> begin_reset s = (Ok next, s1) ->
  let s' := (run_session ops s1).2 in
  check_work_epoch s' (sess_epoch s) = WorkDiscardedStaleEpoch /\
  (forall ops' e, sess_state s' = Closed ->
     check_work_epoch (run_session ops' s').2 e <> Proceed).
Proof.
  intros Hwf Hb. destruct (begin_reset_epoch s s1 next Hwf Hb) as [Hwf1 He].
  destruct (run_session_epoch ops s1 Hwf1) as (Hwf' & Hle & _). cbv zeta. split.
  - unfold check_work_epoch. rewrite (proj2 (Z.eqb_neq _ _)); [done|lia].
  - intros ops' e Hst. destruct (run_session_epoch ops' _ Hwf') as (_ & _ & Hcl).
    destruct (Hcl Hst) as [Hc _]. unfold check_work_epoch. rewrite Hc. by destruct (negb _).
Qed.

Definition sample_session : Session := (lifecycle Activate (create 1 2 3)).2.

Lemma sample_session_wf : session_wf sample_session.
Proof. apply lifecycle_wf, create_wf. unfold is_u64. lia. Qed.

Lemma stale_work_never_proceeds_witness :
  check_work_epoch (run_session [SLife CompleteReset; SDraw IdEvent] (begin_reset sample_session).2).2 0
    = WorkDiscardedStaleEpoch.
Proof.
  apply (stale_work_never_proceeds sample_session (begin_reset sample_session).2 1
           [SLife CompleteReset; SDraw IdEvent] sample_session_wf). vm_compute. reflexivity.
Defined.

(** A session never issues an identifier twice, resets included: over any
    interleaving of lifecycle calls and draws, no two draws of the same kind
    return the same 128-bit value; and within the first 2^24 operations no two
    draws of any kinds do. *)
Theorem session_ids_never_repeat id seed start ops :
  is_u64 seed -> Z.of_nat (length ops) < 2 ^ 64 ->
  let ids := (run_session ops (create id seed start)).1 in
  NoDup ids /\ (Z.of_nat (length ops) < 2 ^ 24 -> NoDup (map snd ids)).
Proof.
  intros Hs Hlen. set (s := create id seed start).
  assert (Hwf : session_wf s) by (by apply create_wf).
  assert (Hc : forall k, counter_of k (sess_ids s) = 0) by (intros; apply fresh_counter).
  destruct (run_session ops s) as [ids s'] eqn:Hr. cbn [fst].
  apply run_session_ids in Hr as [Hall Hnd]; [|done|intros k; rewrite Hc; lia].
  split; [done|]. intros Hsmall. apply NoDup_fmap_2_strong; [|done].
  intros [k1 i1] [k2 i2] H1 H2 Heq. cbn in Heq. subst i2.
  rewrite Forall_forall in Hall.
  destruct (Hall _ H1) as (e1 & c1 & He1 & Hc1 & Hle1 & _ & Hi1).
  destruct (Hall _ H2) as (e2 & c2 & He2 & Hc2 & Hle2 & _ & Hi2).
  cbn [fst snd] in Hi1, Hi2. rewrite Hi1 in Hi2. pose proof (sw_seed s Hwf).
  apply mixed_id_inj in Hi2 as [Hh _]; [|by apply epoch_seed_u64..|done|done].
  change (sess_epoch s) with 0 in *. apply epoch_kind_inj in Hh as ->; [done|lia|lia].
Qed.

Lemma session_ids_never_repeat_witness :
  NoDup (run_session [SDraw IdEvent; SLife Activate; SLife BeginReset; SDraw IdEvent]
           (create 1 2 3)).1.
Proof. apply session_ids_never_repeat; [unfold is_u64; lia|cbn; lia]. Defined.
