(* ===== verification/Barrier.v ===== *)
(** * The admission barrier

    Models [crates/fireemu-core-session/src/barrier.rs].  The barrier is shared
    by threads: a method is split where another thread can run, and a state gives
    the phase of every thread.  A method that blocks is an action that is not
    enabled.  [RwLock] is its contract: any number of readers or one writer;
    poisoning is ignored by the source ([PoisonError::into_inner]). *)
From S2P Require Import Prelude.

Inductive Phase :=
| ReadLocked (seen : option Z)   (* [admit]: the guard is taken, the epoch not yet loaded *)
| AdmittedAt (e : Z)               (* the request runs under its guard *)
| WriteLocked                    (* [exclusive]: the guard is taken, the epoch not yet bumped *)
| Exclusive                      (* the reset runs under its guard *)
| Paused.                        (* [pause]: a change that starts no epoch *)

#[global] Instance Phase_eq_dec : EqDecision Phase.
Proof. solve_decision. Defined.

Record AdmissionBarrier := { phases : gmap Z Phase; epoch : Z }.

Definition barrier_new : AdmissionBarrier := {| phases := ∅; epoch := 0 |}.

Definition reads (p : Phase) : bool :=
  match p with ReadLocked _ | AdmittedAt _ => true | _ => false end.

(** Whether [lock.read()] and [lock.write()] return. *)
Definition read_free (b : AdmissionBarrier) : bool :=
  bool_decide (map_Forall (fun _ p => reads p = true) (phases b)).
Definition write_free (b : AdmissionBarrier) : bool := bool_decide (phases b = ∅).

Inductive BarrierAction :=
| StartAdmit (t : Z) (seen : option Z)   (* [admit] ([None]) or [admit_since(seen)] *)
| LoadEpoch (t : Z)
| StartExclusive (t : Z)
| BumpEpoch (t : Z)
| StartPause (t : Z)
| DropGuard (t : Z).

Definition set_phase (t : Z) (p : Phase) (b : AdmissionBarrier) : AdmissionBarrier :=
  {| phases := <[t := p]> (phases b); epoch := epoch b |}.
Definition no_phase (t : Z) (b : AdmissionBarrier) : AdmissionBarrier :=
  {| phases := delete t (phases b); epoch := epoch b |}.

(** One atomic action; [None] when the thread is blocked or not there. *)
Definition barrier_step (b : AdmissionBarrier) (a : BarrierAction) : option AdmissionBarrier :=
  match a with
  | StartAdmit t seen =>
      match phases b !! t with
      | None => if read_free b then Some (set_phase t (ReadLocked seen) b) else None
      | Some _ => None
      end
  | LoadEpoch t =>
      match phases b !! t with
      | Some (ReadLocked None) => Some (set_phase t (AdmittedAt (epoch b)) b)
      | Some (ReadLocked (Some seen)) =>
          (* [ResetSince]: the [AdmittedAt] value is dropped with its guard *)
          if epoch b =? seen then Some (set_phase t (AdmittedAt (epoch b)) b) else Some (no_phase t b)
      | _ => None
      end
  | StartExclusive t =>
      match phases b !! t with
      | None => if write_free b then Some (set_phase t WriteLocked b) else None
      | Some _ => None
      end
  | BumpEpoch t =>
      match phases b !! t with
      | Some WriteLocked =>
          Some {| phases := <[t := Exclusive]> (phases b); epoch := wrapping u64 (epoch b + 1) |}
      | _ => None
      end
  | StartPause t =>
      match phases b !! t with
      | None => if write_free b then Some (set_phase t Paused b) else None
      | Some _ => None
      end
  | DropGuard t =>
      match phases b !! t with
      | Some (AdmittedAt _) | Some Exclusive | Some Paused => Some (no_phase t b)
      | _ => None
      end
  end.

Fixpoint barrier_run (acts : list BarrierAction) (b : AdmissionBarrier) : option AdmissionBarrier :=
  match acts with
  | [] => Some b
  | a :: acts => b ← barrier_step b a; barrier_run acts b
  end.

Definition is_bump (a : BarrierAction) : bool :=
  match a with BumpEpoch _ => true | _ => false end.

Definition resets (acts : list BarrierAction) : nat := length (filter (fun a => is_bump a = true) acts).

(** ** The invariant *)

Record barrier_inv (b : AdmissionBarrier) : Prop := {
  b_epoch : is_u64 (epoch b);
  (** a thread that holds the write guard is alone *)
  b_alone : forall t p t' p', phases b !! t = Some p -> reads p = false ->
    phases b !! t' = Some p' -> t' = t;
  b_admitted : forall t e, phases b !! t = Some (AdmittedAt e) -> e = epoch b;
}.

Lemma barrier_new_inv : barrier_inv barrier_new.
Proof. constructor; cbn; [unfold is_u64; lia|done|done]. Qed.

Lemma set_phase_inv t p b : barrier_inv b ->
  (reads p = false -> forall t' p', phases b !! t' = Some p' -> t' = t) ->
  (forall t' p', phases b !! t' = Some p' -> reads p' = false -> t' = t /\ reads p = false) ->
  (forall e, p = AdmittedAt e -> e = epoch b) ->
  barrier_inv (set_phase t p b).
Proof.
  intros [He Ha Had] Hw Hr Hp. constructor; cbn.
  - done.
  - intros t1 p1 t2 p2 [[<- <-]|[? H1]]%lookup_insert_Some Hf [[<- <-]|[? H2]]%lookup_insert_Some;
      [done|eauto| |eauto].
    symmetry. by apply (Hr t1 p1).
  - intros t' e [[<- ->]|[_ ?]]%lookup_insert_Some; eauto.
Qed.

Lemma no_phase_inv t b : barrier_inv b -> barrier_inv (no_phase t b).
Proof.
  intros [He Ha Had]. constructor; cbn; [done| |].
  - intros t1 p1 t2 p2 [_ H1]%lookup_delete_Some Hf [_ H2]%lookup_delete_Some. eauto.
  - intros t1 e [_ H]%lookup_delete_Some. eauto.
Qed.

Lemma barrier_step_inv b a b' : barrier_inv b -> barrier_step b a = Some b' ->
  barrier_inv b' /\ epoch b' = if is_bump a then wrapping u64 (epoch b + 1) else epoch b.
Proof.
  intros Hi. pose proof Hi as [He Ha Had].
  assert (Hread : forall t p seen, phases b !! t = Some (ReadLocked seen) -> reads p = true ->
    (forall e, p = AdmittedAt e -> e = epoch b) -> barrier_inv (set_phase t p b)).
  { intros t p seen Ht Hp Hpe. apply set_phase_inv; [done|congruence| |done].
    intros t' p' Ht' Hf. pose proof (Ha t' p' t _ Ht' Hf Ht). naive_solver. }
  assert (Hwrite : forall t p, write_free b = true -> reads p = false -> barrier_inv (set_phase t p b)).
  { intros t p Hw%bool_decide_eq_true Hp. apply set_phase_inv; [done|..].
    - intros _ t' p'. by rewrite Hw, lookup_empty.
    - intros t' p'. by rewrite Hw, lookup_empty.
    - intros e ->. done. }
  destruct a as [t seen|t|t|t|t|t]; cbn [barrier_step is_bump].
  - destruct (phases b !! t); [done|]. destruct (read_free b) eqn:Hf; [|done]. intros [= <-].
    apply bool_decide_eq_true in Hf. split; [|done]. apply set_phase_inv; [done|done| |done].
    intros t' p' Ht' Hr. rewrite (Hf t' p' Ht') in Hr. done.
  - destruct (phases b !! t) as [[[seen|]| | | |]|] eqn:Ht; try done.
    + destruct (epoch b =? seen); intros [= <-]; (split; [|done]).
      * eapply Hread; [done|done|]. by intros e [= ->].
      * by apply no_phase_inv.
    + intros [= <-]. split; [|done]. eapply Hread; [done|done|]. by intros e [= ->].
  - destruct (phases b !! t); [done|]. destruct (write_free b) eqn:Hf; [|done]. intros [= <-]. auto.
  - destruct (phases b !! t) as [[| | | |]|] eqn:Ht; try done. intros [= <-]. split; [|done].
    assert (Halone : forall t' p', phases b !! t' = Some p' -> t' = t) by (intros; by eapply Ha).
    constructor; cbn.
    + rewrite wrapping_u64. apply wrap64_range.
    + intros t1 p1 t2 p2 [[<- _]|[_ H1]]%lookup_insert_Some _ [[<- _]|[_ H2]]%lookup_insert_Some;
        rewrite ?(Halone _ _ H1), ?(Halone _ _ H2); try done.
    + intros t' e [[_ ?]|[? H1]]%lookup_insert_Some; [done|]. by apply Halone in H1.
  - destruct (phases b !! t); [done|]. destruct (write_free b) eqn:Hf; [|done]. intros [= <-]. auto.
  - destruct (phases b !! t) as [[| | | |]|] eqn:Ht; try done; intros [= <-]; split; try done;
      by apply no_phase_inv.
Qed.

Lemma resets_cons a acts : resets (a :: acts) = ((if is_bump a then 1 else 0) + resets acts)%nat.
Proof. unfold resets. rewrite filter_cons. by destruct (is_bump a). Qed.

Lemma barrier_run_inv acts b b' : barrier_inv b -> barrier_run acts b = Some b' ->
  barrier_inv b' /\ epoch b' = wrapping u64 (epoch b + Z.of_nat (resets acts)).
Proof.
  revert b. induction acts as [|a acts IH]; intros b Hi; cbn [barrier_run].
  - intros [= <-]. split; [done|]. cbn. rewrite Z.add_0_r, wrapping_u64.
    symmetry. apply wrap64_id, Hi.
  - destruct (barrier_step b a) as [b1|] eqn:Hs; [|done]. cbn [mbind option_bind]. intros Hr.
    apply barrier_step_inv in Hs as [Hi1 He1]; [|done].
    apply IH in Hr as [Hi' He']; [|done]. split; [done|]. rewrite He', He1, resets_cons, !wrapping_u64.
    unfold wrap64. destruct (is_bump a); [|done].
    rewrite Z.add_mod_idemp_l by lia. f_equal. lia.
Qed.

(** ** Properties *)

(** C6. No request straddles a reset: in every reachable state, an admitted
    request carries the current epoch, and while any thread holds the barrier
    exclusively (a reset, before or after it bumped the epoch, or a pause) no
    request is admitted and no other thread holds the barrier at all. *)
Theorem admitted_requests_never_straddle acts b :
  barrier_run acts barrier_new = Some b ->
  (forall t e, phases b !! t = Some (AdmittedAt e) -> e = epoch b) /\
  (forall t p, phases b !! t = Some p -> reads p = false -> phases b = {[t := p]}).
Proof.
  intros Hr. destruct (barrier_run_inv _ _ _ barrier_new_inv Hr) as [[_ Ha Had] _].
  split; [done|]. intros t p Ht Hp. apply map_eq. intros t'.
  destruct (decide (t' = t)) as [->|Hne]; [by rewrite lookup_singleton_eq|].
  rewrite lookup_singleton_ne by done. destruct (phases b !! t') as [p'|] eqn:Ht'; [|done].
  by destruct Hne; eapply Ha.
Qed.

(** [admit_since] refuses exactly the requests a reset overtook: a request
    that read the epoch in one state and loads it for its admission in a later
    one is admitted when no reset began in between and refused when one to
    2^64 - 1 did (a pause in between does not count). *)
Theorem admit_since_detects_resets acts acts' b b' t :
  barrier_run acts barrier_new = Some b -> barrier_run acts' b = Some b' ->
  phases b' !! t = Some (ReadLocked (Some (epoch b))) -> Z.of_nat (resets acts') < 2 ^ 64 ->
  barrier_step b' (LoadEpoch t) =
    Some (if bool_decide (resets acts' = 0%nat) then set_phase t (AdmittedAt (epoch b)) b'
          else no_phase t b').
Proof.
  intros Hr Hr' Ht Hlt. destruct (barrier_run_inv _ _ _ barrier_new_inv Hr) as [Hi _].
  destruct (barrier_run_inv _ _ _ Hi Hr') as [_ He]. pose proof (b_epoch _ Hi) as Hu.
  cbn [barrier_step]. rewrite Ht, He, wrapping_u64. unfold wrap64, is_u64 in *. case_bool_decide as H0.
  - rewrite H0, Z.add_0_r, Z.mod_small by lia. by rewrite Z.eqb_refl.
  - rewrite (proj2 (Z.eqb_neq _ _)); [done|]. intros Heq.
    assert (Hm : (epoch b + Z.of_nat (resets acts') - epoch b) mod 2 ^ 64 = 0).
    { rewrite Zminus_mod, Heq, (Z.mod_small (epoch b)), Z.sub_diag by lia. done. }
    rewrite Z.mod_small in Hm by lia. lia.
Qed.

(** ** Witnesses *)

Definition sample_before : list BarrierAction := [StartExclusive 1; BumpEpoch 1; DropGuard 1].
Definition sample_between : list BarrierAction :=
  [StartAdmit 2 None; LoadEpoch 2; DropGuard 2; StartPause 3; DropGuard 3;
   StartExclusive 1; BumpEpoch 1; DropGuard 1; StartAdmit 4 (Some 1)].

Definition sample_barrier (acts : list BarrierAction) (b : AdmissionBarrier) : AdmissionBarrier :=
  default b (barrier_run acts b).

Lemma admitted_requests_never_straddle_witness :
  let b := sample_barrier (sample_before ++ [StartAdmit 2 None; LoadEpoch 2]) barrier_new in
  phases b !! 2 = Some (AdmittedAt 1) /\ epoch b = 1 /\
  (forall t e, phases b !! t = Some (AdmittedAt e) -> e = epoch b).
Proof.
  split; [vm_compute; reflexivity|]. split; [vm_compute; reflexivity|].
  apply (admitted_requests_never_straddle (sample_before ++ [StartAdmit 2 None; LoadEpoch 2])).
  vm_compute. reflexivity.
Defined.

Lemma admit_since_detects_resets_witness :
  let b := sample_barrier sample_before barrier_new in
  let b' := sample_barrier sample_between b in
  barrier_step b' (LoadEpoch 4) = Some (no_phase 4 b').
Proof.
  apply (admit_since_detects_resets sample_before sample_between
           (sample_barrier sample_before barrier_new)
           (sample_barrier sample_between (sample_barrier sample_before barrier_new)) 4);
    vm_compute; reflexivity.
Defined.
