(* ===== verification/Idle.v ===== *)
(** * The idle fence

    Models [crates/fireemu-core-session/src/idle.rs]: the ledger of causal work
    and the verdict of [await-idle].  [active] is a map from tokens (their number)
    to work kinds; the counts are accumulated in token order as the source does. *)
From S2P Require Import Prelude Ids Time.

Inductive WorkKind :=
| FirestoreCommit | EventDispatch | EventRetryWait | FunctionInvocation | DueSchedule
| UploadFinalize | TextIndexBuild | SnapshotRestoreOrRulesetActivation | ChildEnqueueReservation
| ScheduledFutureWork.

(** Declaration order, which is the derived [Ord]. *)
Definition kind_index (k : WorkKind) : Z :=
  match k with
  | FirestoreCommit => 0 | EventDispatch => 1 | EventRetryWait => 2 | FunctionInvocation => 3
  | DueSchedule => 4 | UploadFinalize => 5 | TextIndexBuild => 6
  | SnapshotRestoreOrRulesetActivation => 7 | ChildEnqueueReservation => 8
  | ScheduledFutureWork => 9
  end.

Definition all_kinds : list WorkKind :=
  [FirestoreCommit; EventDispatch; EventRetryWait; FunctionInvocation; DueSchedule; UploadFinalize;
   TextIndexBuild; SnapshotRestoreOrRulesetActivation; ChildEnqueueReservation; ScheduledFutureWork].

#[global] Instance WorkKind_eq_dec : EqDecision WorkKind.
Proof. solve_decision. Defined.

#[global, refine] Instance WorkKind_countable : Countable WorkKind :=
  inj_countable' (fun k => Z.to_nat (kind_index k)) (fun n => nth n all_kinds FirestoreCommit) _.
Proof. by destruct x. Defined.

#[global, refine] Instance WorkKind_RustOrd : RustOrd WorkKind :=
  {| ord_cmp a b := Z.compare (kind_index a) (kind_index b) |}.
Proof.
  - intros x y. rewrite Z.compare_eq_iff. split; [|by intros ->]. by destruct x, y.
  - intros; apply Z.compare_antisym.
  - intros x y z. rewrite !Z.compare_lt_iff. lia.
Defined.

Inductive IdleWaitPolicy := Wait | Ignore.

Record AwaitIdleOptions := {
  include_scheduled_future_work : bool;
  text_index_builds : IdleWaitPolicy;
  timeout : LogicalDuration;
}.

Definition default_options : AwaitIdleOptions :=
  {| include_scheduled_future_work := false; text_index_builds := Wait;
     timeout := dur_from_seconds 30 |}.

Definition is_fenced (k : WorkKind) (options : AwaitIdleOptions) : bool :=
  match k with
  | TextIndexBuild => match text_index_builds options with Wait => true | Ignore => false end
  | ScheduledFutureWork => include_scheduled_future_work options
  | _ => true
  end.

Inductive IdleLedgerError :=
| UnknownToken (t : Z)
| StaleEpoch (current requested : Epoch)
| TokenExhausted
| NotAReservation (t : Z)
| EpochNotNewer (current requested : Epoch).

Inductive IdleVerdict :=
| IsIdle
| Busy (blocking : list (WorkKind * Z)).

Record WorkLedger := {
  ledger_epoch : Epoch;
  next_token : Z;
  active : gmap Z WorkKind;
}.

Definition ledger_new (epoch : Epoch) : WorkLedger :=
  {| ledger_epoch := epoch; next_token := 1; active := ∅ |}.

Definition Lg := M WorkLedger IdleLedgerError.

Definition set_next_token (n : Z) (l : WorkLedger) : WorkLedger :=
  {| ledger_epoch := ledger_epoch l; next_token := n; active := active l |}.
Definition set_active (m : gmap Z WorkKind) (l : WorkLedger) : WorkLedger :=
  {| ledger_epoch := ledger_epoch l; next_token := next_token l; active := m |}.

Definition begin (kind : WorkKind) (epoch : Epoch) : Lg Z :=
  let! l := st_get in
  if negb (epoch =? ledger_epoch l) then st_fail (StaleEpoch (ledger_epoch l) epoch)
  else
    let token := next_token l in
    let! n := ok_or (checked u64 (next_token l + 1)) TokenExhausted in
    do! st_put (set_next_token n l) in
    do! st_put (set_active (<[token := kind]> (active l)) (set_next_token n l)) in
    st_ret token.

Definition end_ (token : Z) : Lg WorkKind :=
  let! l := st_get in
  do! st_put (set_active (delete token (active l)) l) in
  ok_or (active l !! token) (UnknownToken token).

Definition handoff (reservation : Z) (child : WorkKind) : Lg Z :=
  let! l := st_get in
  match active l !! reservation with
  | Some ChildEnqueueReservation =>
      let! token := begin child (ledger_epoch l) in
      let! l := st_get in
      do! st_put (set_active (delete reservation (active l)) l) in
      st_ret token
  | Some _ => st_fail (NotAReservation reservation)
  | None => st_fail (UnknownToken reservation)
  end.

Definition reset (new_epoch : Epoch) : Lg unit :=
  let! l := st_get in
  if new_epoch <=? ledger_epoch l then st_fail (EpochNotNewer (ledger_epoch l) new_epoch)
  else st_put {| ledger_epoch := new_epoch; next_token := next_token l; active := ∅ |}.

Definition active_total (l : WorkLedger) : nat := size (active l).

(** [*counts.entry(kind).or_insert(0) += 1] on a [u32]. *)
Definition count_kind (counts : gmap WorkKind Z) (k : WorkKind) : gmap WorkKind Z :=
  <[k := wrapping u32 (default 0 (counts !! k) + 1)]> counts.

Definition verdict (options : AwaitIdleOptions) (l : WorkLedger) : IdleVerdict :=
  let kinds := filter (fun k => is_fenced k options = true) (map snd (btree_map_iter (active l))) in
  let counts := fold_left count_kind kinds ∅ in
  if bool_decide (counts = ∅) then IsIdle else Busy (btree_map_iter counts).

(** The calls as data, for sequences of them. *)
Inductive LedgerOp :=
| LBegin (kind : WorkKind) (epoch : Epoch)
| LEnd (token : Z)
| LHandoff (reservation : Z) (child : WorkKind)
| LReset (epoch : Epoch).

Definition apply_ledger_op (l : WorkLedger) (op : LedgerOp) : WorkLedger :=
  match op with
  | LBegin k e => (begin k e l).2
  | LEnd t => (end_ t l).2
  | LHandoff r k => (handoff r k l).2
  | LReset e => (reset e l).2
  end.

(** Whether the call succeeds. *)
Definition ledger_op_ok (l : WorkLedger) (op : LedgerOp) : bool :=
  match op with
  | LBegin k e => is_ok (begin k e l).1
  | LEnd t => is_ok (end_ t l).1
  | LHandoff r k => is_ok (handoff r k l).1
  | LReset e => is_ok (reset e l).1
  end.

Definition run_ledger (ops : list LedgerOp) (l : WorkLedger) : WorkLedger :=
  fold_left apply_ledger_op ops l.

(** ** Well-formed ledgers: tokens in use are below the next one *)

Record ledger_wf (l : WorkLedger) : Prop := {
  lw_next : 1 <= next_token l <= int_max u64;
  lw_active : forall t, is_Some (active l !! t) -> 1 <= t < next_token l;
}.

Lemma ledger_new_wf e : ledger_wf (ledger_new e).
Proof. constructor; cbn; [int_lia|]. intros t. rewrite lookup_empty. by intros [? ?]. Qed.

(** ** The calls by cases *)

Ltac run_ledger_call :=
  unfold begin, end_, handoff, reset, st_bind, st_get, st_put, st_ret, st_fail, ok_or.

Lemma begin_cases k e l :
  begin k e l =
    if negb (e =? ledger_epoch l) then (Err (StaleEpoch (ledger_epoch l) e), l)
    else if decide (fits u64 (next_token l + 1)) then
      (Ok (next_token l), {| ledger_epoch := ledger_epoch l; next_token := next_token l + 1;
                             active := <[next_token l := k]> (active l) |})
    else (Err TokenExhausted, l).
Proof.
  run_ledger_call. destruct (negb (e =? ledger_epoch l)); [done|].
  unfold checked. by case_decide.
Qed.

Lemma end_cases t l :
  end_ t l =
    match active l !! t with
    | Some k => (Ok k, set_active (delete t (active l)) l)
    | None => (Err (UnknownToken t), l)
    end.
Proof.
  run_ledger_call. destruct (active l !! t) eqn:E; [done|].
  rewrite delete_id by done. by destruct l.
Qed.

Lemma handoff_cases r k l :
  handoff r k l =
    match active l !! r with
    | Some ChildEnqueueReservation =>
        if decide (fits u64 (next_token l + 1)) then
          (Ok (next_token l), {| ledger_epoch := ledger_epoch l; next_token := next_token l + 1;
                                 active := delete r (<[next_token l := k]> (active l)) |})
        else (Err TokenExhausted, l)
    | Some _ => (Err (NotAReservation r), l)
    | None => (Err (UnknownToken r), l)
    end.
Proof.
  unfold handoff. unfold st_bind at 1. unfold st_get at 1.
  destruct (active l !! r) as [[]|]; try done.
  unfold st_bind at 1. rewrite begin_cases, Z.eqb_refl. cbn [negb]. by case_decide.
Qed.

Lemma reset_cases e l :
  reset e l =
    if e <=? ledger_epoch l then (Err (EpochNotNewer (ledger_epoch l) e), l)
    else (Ok tt, {| ledger_epoch := e; next_token := next_token l; active := ∅ |}).
Proof. run_ledger_call. by destruct (e <=? ledger_epoch l). Qed.

(** What every call keeps: well-formedness, tokens and epochs that only grow, and
    work that is only added under a token not used before. *)
Lemma op_keeps l op : ledger_wf l ->
  let l' := apply_ledger_op l op in
  ledger_wf l' /\ next_token l <= next_token l' /\ ledger_epoch l <= ledger_epoch l' /\
  (forall t k, active l' !! t = Some k -> t < next_token l -> active l !! t = Some k).
Proof.
  intros Hwf. pose proof Hwf as [Hn Ha]. destruct op; cbn [apply_ledger_op].
  - rewrite begin_cases. destruct (negb _); [split_and!; (done || lia)|].
    case_decide as Hf; [|split_and!; (done || lia)]. cbn. split_and!; try lia.
    + constructor; cbn; [int_lia|]. intros t [k0 [[<- _]|[_ Ht]]%lookup_insert_Some]; [lia|].
      specialize (Ha t ltac:(by eexists)). lia.
    + intros t k0 [[<- _]|[_ Ht]]%lookup_insert_Some ?; [lia|done].
  - rewrite end_cases. destruct (active l !! token) eqn:E; [|split_and!; (done || lia)].
    cbn. split_and!; try lia.
    + constructor; cbn; [done|]. intros t [k0 [_ Ht]%lookup_delete_Some]. by apply Ha.
    + by intros t k0 [_ Ht]%lookup_delete_Some.
  - rewrite handoff_cases. destruct (active l !! reservation) as [[]|] eqn:E;
      try (split_and!; (done || lia)).
    case_decide as Hf; [|split_and!; (done || lia)]. cbn. split_and!; try lia.
    + constructor; cbn; [int_lia|].
      intros t [k0 [_ [[<- _]|[_ Ht]]%lookup_insert_Some]%lookup_delete_Some]; [lia|].
      specialize (Ha t ltac:(by eexists)). lia.
    + intros t k0 [_ [[<- _]|[_ Ht]]%lookup_insert_Some]%lookup_delete_Some ?; [lia|done].
  - rewrite reset_cases. destruct (Z.leb_spec epoch (ledger_epoch l)); [split_and!; (done || lia)|].
    cbn. split_and!; try lia; [|intros t k0; by rewrite lookup_empty].
    constructor; cbn; [done|]. intros t. rewrite lookup_empty. by intros [? ?].
Qed.

Lemma failed_op_keeps l op : ledger_op_ok l op = false -> apply_ledger_op l op = l.
Proof.
  destruct op; cbn [ledger_op_ok apply_ledger_op].
  - rewrite begin_cases. destruct (negb _); [done|]. by case_decide.
  - rewrite end_cases. by destruct (active l !! token).
  - rewrite handoff_cases. destruct (active l !! reservation) as [[]|]; try done. by case_decide.
  - rewrite reset_cases. by destruct (epoch <=? ledger_epoch l).
Qed.

Lemma run_keeps ops l : ledger_wf l ->
  let l' := run_ledger ops l in
  ledger_wf l' /\ next_token l <= next_token l' /\ ledger_epoch l <= ledger_epoch l' /\
  (forall t k, active l' !! t = Some k -> t < next_token l -> active l !! t = Some k).
Proof.
  revert l. induction ops as [|op ops IH]; intros l Hwf; cbv zeta; [split_and!; (done || lia)|].
  destruct (op_keeps l op Hwf) as (Hwf1 & Hn1 & He1 & Ha1).
  destruct (IH _ Hwf1) as (Hwf2 & Hn2 & He2 & Ha2).
  change (run_ledger (op :: ops) l) with (run_ledger ops (apply_ledger_op l op)).
  split_and!; [done|lia|lia|]. intros t k Ht Hlt. apply Ha1; [|done]. apply Ha2; [done|lia].
Qed.

(** ** Counting *)

Definition occurrences (k : WorkKind) (l : list WorkKind) : Z :=
  Z.of_nat (length (filter (fun k' => k' = k) l)).

Lemma occurrences_cons k x l :
  occurrences k (x :: l) = (if decide (x = k) then 1 else 0) + occurrences k l.
Proof. unfold occurrences. rewrite filter_cons. case_decide; cbn [length]; lia. Qed.

Lemma count_kinds l m k :
  fold_left count_kind l m !! k =
    if occurrences k l =? 0 then m !! k
    else Some (wrapping u32 (default 0 (m !! k) + occurrences k l)).
Proof.
  revert m. induction l as [|x l IH]; intros m; [done|].
  cbn [fold_left]. rewrite IH, occurrences_cons. unfold count_kind.
  assert (0 <= occurrences k l) by (unfold occurrences; lia).
  destruct (decide (x = k)) as [->|Hne].
  - rewrite lookup_insert_eq. cbn [default]. rewrite (proj2 (Z.eqb_neq (1 + _) 0)) by lia.
    destruct (Z.eqb_spec (occurrences k l) 0) as [->|_]; [done|].
    cbn. f_equal. unfold wrapping, u32; cbn [int_min int_max]. rewrite !Z.sub_0_r, !Z.add_0_l.
    rewrite Z.add_mod_idemp_l by lia. f_equal. lia.
  - by rewrite lookup_insert_ne, Z.add_0_l.
Qed.

(** The outstanding work of one kind. *)
Definition work_of (k : WorkKind) (l : WorkLedger) : gmap Z WorkKind :=
  filter (fun p => p.2 = k) (active l).

Lemma occurrences_work options l k :
  occurrences k (filter (fun k => is_fenced k options = true) (map snd (btree_map_iter (active l)))) =
    if is_fenced k options then Z.of_nat (size (work_of k l)) else 0.
Proof.
  assert (Hocc : forall ks, occurrences k (filter (fun k => is_fenced k options = true) ks) =
    if is_fenced k options then occurrences k ks else 0).
  { induction ks as [|x ks IH]; [by destruct (is_fenced k options)|].
    rewrite filter_cons, occurrences_cons. case_decide as Hx.
    - rewrite occurrences_cons, IH. destruct (decide (x = k)) as [->|]; [by rewrite Hx|].
      by destruct (is_fenced k options).
    - rewrite IH. destruct (decide (x = k)) as [->|]; [|done].
      by destruct (is_fenced k options). }
  rewrite Hocc. destruct (is_fenced k options); [|done]. unfold occurrences. f_equal.
  assert (Hlen : forall ps : list (Z * WorkKind),
    length (filter (fun k' => k' = k) (map snd ps)) = length (filter (fun p => p.2 = k) ps)).
  { induction ps as [|p ps IH]; [done|]. cbn [map]. rewrite !filter_cons.
    case_decide; cbn [length]; by rewrite IH. }
  rewrite Hlen, btree_map_iter_perm. unfold work_of. rewrite <- length_map_to_list.
  apply Permutation_length, NoDup_Permutation.
  - apply NoDup_filter, NoDup_map_to_list.
  - apply NoDup_map_to_list.
  - intros [t k']. rewrite list_elem_of_filter, !elem_of_map_to_list, map_lookup_filter_Some. tauto.
Qed.

Lemma work_of_empty k l : size (work_of k l) = 0%nat <-> forall t, active l !! t <> Some k.
Proof.
  rewrite map_size_empty_iff. unfold work_of. split.
  - intros He t Ht. assert (Hl : filter (fun p => p.2 = k) (active l) !! t = Some k)
      by (by apply map_lookup_filter_Some). by rewrite He, lookup_empty in Hl.
  - intros Hn. apply map_eq. intros t. rewrite lookup_empty, map_lookup_filter_None.
    right. intros k' Ht Hk. cbn in Hk. subst k'. by apply (Hn t).
Qed.

(** The blocking counts of a verdict. *)
Definition blocking_counts (v : IdleVerdict) : list (WorkKind * Z) :=
  match v with IsIdle => [] | Busy b => b end.

Lemma verdict_counts options l k n :
  Z.of_nat (active_total l) < 2 ^ 32 ->
  (k, n) ∈ blocking_counts (verdict options l) <->
    is_fenced k options = true /\ n = Z.of_nat (size (work_of k l)) /\ 0 < n.
Proof.
  intros Htot. unfold verdict.
  set (kinds := filter _ _). set (counts := fold_left count_kind kinds ∅).
  assert (Hle : Z.of_nat (size (work_of k l)) < 2 ^ 32).
  { unfold active_total, work_of in *. pose proof (map_filter_subseteq (fun p => p.2 = k) (active l)) as Hs.
    apply map_subseteq_size in Hs. lia. }
  assert (Hc : counts !! k = Some n <->
    is_fenced k options = true /\ n = Z.of_nat (size (work_of k l)) /\ 0 < n).
  { subst counts kinds. rewrite count_kinds, occurrences_work, lookup_empty.
    destruct (is_fenced k options); [|naive_solver].
    destruct (Z.eqb_spec (Z.of_nat (size (work_of k l))) 0) as [E|E].
    - split; [done|]. intros (_ & ? & ?). lia.
    - cbn [default]. rewrite Z.add_0_l, wrapping_id by int_lia. split.
      + intros [= <-]. split_and!; (done || lia).
      + by intros (_ & -> & _). }
  case_bool_decide as He; cbn [blocking_counts].
  - rewrite elem_of_nil, <- Hc, He, lookup_empty. naive_solver.
  - by rewrite elem_of_btree_map_iter.
Qed.

Lemma verdict_idle_iff options l :
  Z.of_nat (active_total l) < 2 ^ 32 ->
  verdict options l = IsIdle <-> forall t k, active l !! t = Some k -> is_fenced k options = false.
Proof.
  intros Htot. split.
  - intros Hv t k Ht. destruct (is_fenced k options) eqn:Hf; [|done].
    pose proof (verdict_counts options l k (Z.of_nat (size (work_of k l))) Htot) as Hc.
    rewrite Hv in Hc. exfalso. apply (not_elem_of_nil (k, Z.of_nat (size (work_of k l)))), Hc.
    split_and!; [done|done|]. destruct (size (work_of k l)) eqn:Hs; [|lia].
    by apply (proj1 (work_of_empty k l) Hs) in Ht.
  - intros Hn. unfold verdict. rewrite bool_decide_eq_true_2; [done|].
    apply map_eq. intros k. rewrite count_kinds, occurrences_work, lookup_empty.
    destruct (is_fenced k options) eqn:Hf; [|done].
    rewrite (proj2 (work_of_empty k l)); [done|]. intros t Ht. by rewrite (Hn t k Ht) in Hf.
Qed.

(** ** Properties *)

(** The verdict is exact: a session is idle exactly when no registered work
    is of a kind the options fence, and otherwise the verdict lists each fenced
    kind that has work, in canonical order, with the number of its registrations
    (fewer than 2^32 in all). *)
Theorem verdict_exact options l :
  Z.of_nat (active_total l) < 2 ^ 32 ->
  (verdict options l = IsIdle <->
     forall t k, active l !! t = Some k -> is_fenced k options = false) /\
  (forall k n, (k, n) ∈ blocking_counts (verdict options l) <->
     is_fenced k options = true /\ n = Z.of_nat (size (work_of k l)) /\ 0 < n) /\
  StronglySorted ord_lt (map fst (blocking_counts (verdict options l))).
Proof.
  intros Htot. split_and!; [by apply verdict_idle_iff|intros; by apply verdict_counts|].
  unfold verdict. case_bool_decide; cbn [blocking_counts]; [constructor|].
  rewrite btree_map_iter_keys. apply btree_iter_sorted.
Qed.

(** A hand-off is never seen idle: from a child-enqueue reservation it
    registers the child under a fresh token and releases the reservation in one
    step that keeps the number of registrations, so a verdict that fences the
    child's kind is busy right after it as the reservation made it busy before. *)
Theorem handoff_never_idle options r k l :
  ledger_wf l -> next_token l < int_max u64 -> active l !! r = Some ChildEnqueueReservation ->
  Z.of_nat (active_total l) < 2 ^ 32 -> is_fenced k options = true ->
  exists l', handoff r k l = (Ok (next_token l), l') /\ ledger_wf l' /\
    active_total l' = active_total l /\ active l' !! next_token l = Some k /\ active l' !! r = None /\
    verdict options l <> IsIdle /\ verdict options l' <> IsIdle.
Proof.
  intros Hwf Hlt Hr Htot Hf. pose proof Hwf as [Hn Ha].
  assert (Hrt : r < next_token l) by (apply Ha; by eexists).
  assert (Hfresh : active l !! next_token l = None).
  { apply eq_None_not_Some. intros H%Ha. lia. }
  pose proof (op_keeps l (LHandoff r k) Hwf) as (Hwf' & _). cbn [apply_ledger_op] in Hwf'.
  rewrite handoff_cases, Hr, decide_True in * by int_lia. eexists. split; [done|].
  cbn [snd] in Hwf'. set (l' := Build_WorkLedger _ _ _) in *.
  assert (Hsz : active_total l' = active_total l).
  { unfold active_total. cbn. rewrite map_size_delete_Some.
    - by rewrite map_size_insert_None.
    - rewrite lookup_insert_ne by lia. by eexists. }
  assert (Hk : active l' !! next_token l = Some k).
  { cbn. rewrite lookup_delete_ne by lia. apply lookup_insert_eq. }
  split_and!; [done|done|done|cbn; apply lookup_delete_eq| |].
  - intros Hi. rewrite verdict_idle_iff in Hi by done. by apply Hi in Hr.
  - intros Hi. rewrite verdict_idle_iff in Hi by lia. apply Hi in Hk. congruence.
Qed.

(** A token is used once: work that was ended, and all work of an epoch that
    was reset, stays unknown whatever calls follow, so it can neither be ended
    twice nor keep a later epoch busy; a call that fails leaves the ledger as it
    was; and epochs only grow. *)
Theorem tokens_never_revived l ops t :
  ledger_wf l -> t < next_token l -> active l !! t = None ->
  let l' := run_ledger ops l in
  active l' !! t = None /\ end_ t l' = (Err (UnknownToken t), l') /\
  ledger_epoch l <= ledger_epoch l' /\
  (forall op, ledger_op_ok l' op = false -> apply_ledger_op l' op = l').
Proof.
  intros Hwf Hlt Ht l'. destruct (run_keeps ops l Hwf) as (_ & _ & He & Ha).
  assert (Hn : active l' !! t = None).
  { destruct (active l' !! t) as [k|] eqn:E; [|done]. by rewrite (Ha t k E Hlt) in Ht. }
  split_and!; [done| |done|apply failed_op_keeps]. by rewrite end_cases, Hn.
Qed.

(** ** Witnesses *)

Definition sample_ledger : WorkLedger :=
  run_ledger [LBegin ChildEnqueueReservation 1; LBegin EventDispatch 1; LBegin EventDispatch 1;
              LBegin ScheduledFutureWork 1; LEnd 2] (ledger_new 1).

Lemma sample_ledger_wf : ledger_wf sample_ledger.
Proof. apply run_keeps, ledger_new_wf. Qed.

Lemma verdict_exact_witness :
  verdict default_options sample_ledger = Busy [(EventDispatch, 1); (ChildEnqueueReservation, 1)] /\
  StronglySorted ord_lt (map fst (blocking_counts (verdict default_options sample_ledger))).
Proof.
  split; [vm_compute; reflexivity|]. apply (verdict_exact default_options sample_ledger).
  vm_compute. reflexivity.
Defined.

Lemma handoff_never_idle_witness :
  exists l', handoff 1 FunctionInvocation sample_ledger = (Ok 5, l') /\
    verdict default_options l' <> IsIdle.
Proof.
  destruct (handoff_never_idle default_options 1 FunctionInvocation sample_ledger sample_ledger_wf)
    as (l' & H & _ & _ & _ & _ & _ & Hv); [vm_compute; reflexivity..|].
  exists l'. split; [exact H|exact Hv].
Defined.

Lemma tokens_never_revived_witness :
  active (run_ledger [LReset 2; LBegin EventDispatch 2] sample_ledger) !! 2 = None.
Proof.
  apply (tokens_never_revived sample_ledger [LReset 2; LBegin EventDispatch 2] 2 sample_ledger_wf);
    vm_compute; reflexivity.
Defined.
