(* ===== verification/Fault.v ===== *)
(** * Fault injection plans

    Models [crates/fireemu-core-session/src/fault.rs]: the installed plan with its
    occurrence counters and its ring of fired records, and the registry that gives
    each session project its own state.  A [SharedFaults] handle is an address in
    a heap of states, since handles outlive their registration; a poisoned mutex
    (a thread that panicked while holding it) is not modelled, nor is
    [retained_bytes], which reads allocator capacities. *)
From S2P Require Import Prelude.

Inductive FaultAction :=
| ReturnError (code : string)
| Delay (seconds : Z)
| Duplicate (count : Z)
| CrashRunner
| Timeout
| DeadLetter
| TransactionConflict
| DropConnection.

Record FaultMatch := {
  m_operation : string;
  m_nth : option Z;
  m_function : option string;
  m_event_type : option string;
}.

Record FaultRule := { matches : FaultMatch; action : FaultAction }.
Record FaultPlan := { plan_seed : Z; rules : list FaultRule }.

Record FaultRecord := {
  r_operation : string;
  r_occurrence : Z;
  r_function_occurrence : option Z;
  r_function : option string;
  r_action : FaultAction;
}.

Definition MAX_FIRED_RECORDS : nat := 1000.

Record FaultState := {
  plan : option FaultPlan;
  counters : gmap string Z;
  fired : list FaultRecord;
  dropped : Z;
}.

Definition fault_default : FaultState :=
  {| plan := None; counters := ∅; fired := []; dropped := 0 |}.

Definition install (p : FaultPlan) (s : FaultState) : FaultState :=
  {| plan := Some p; counters := ∅; fired := []; dropped := 0 |}.

Definition clear (s : FaultState) : FaultState :=
  {| plan := None; counters := ∅; fired := []; dropped := 0 |}.

(** [*counters.entry(key).or_insert(0) += 1], with the count it leaves. *)
Definition bump (key : string) (c : gmap string Z) : Z * gmap string Z :=
  let n := wrapping u64 (default 0 (c !! key) + 1) in (n, <[key := n]> c).

(** [format!("{operation}|{f}")] *)
Definition function_key (operation f : string) : string := operation +:+ "|" +:+ f.

(** Whether the rule applies to an occurrence with these numbers. *)
Definition rule_fires (operation : string) (function event_type : option string)
    (occurrence : Z) (per_function : option Z) (r : FaultRule) : bool :=
  let m := matches r in
  if negb (bool_decide (m_operation m = operation))
     || match m_function m with Some f => negb (bool_decide (Some f = function)) | None => false end
     || match m_event_type m with Some t => negb (bool_decide (Some t = event_type)) | None => false end
  then false
  else
    let counted := match m_function m with
                   | Some _ => default occurrence per_function
                   | None => occurrence
                   end in
    match m_nth m with Some n => n =? counted | None => true end.

(** One turn of the ring: the oldest record leaves a full one. *)
Definition push_fired (rec : FaultRecord) (ring : list FaultRecord * Z) : list FaultRecord * Z :=
  let (fs, d) := ring in
  if bool_decide (MAX_FIRED_RECORDS <= length fs)%nat
  then (tail fs ++ [rec], saturating u64 (d + 1))
  else (fs ++ [rec], d).

(** The loop over the rules: the actions so far, and the ring. *)
Fixpoint decide_rules (operation : string) (function event_type : option string)
    (occurrence : Z) (per_function : option Z) (rs : list FaultRule)
    (ring : list FaultRecord * Z) : list FaultAction * (list FaultRecord * Z) :=
  match rs with
  | [] => ([], ring)
  | r :: rs =>
      if rule_fires operation function event_type occurrence per_function r then
        let ring := push_fired
          {| r_operation := operation; r_occurrence := occurrence;
             r_function_occurrence := per_function; r_function := function;
             r_action := action r |} ring in
        let (actions, ring) := decide_rules operation function event_type occurrence per_function rs ring in
        (action r :: actions, ring)
      else decide_rules operation function event_type occurrence per_function rs ring
  end.

(** [FaultState::decide]. *)
Definition fault_decide (operation : string) (function event_type : option string) (s : FaultState)
    : list FaultAction * FaultState :=
  match plan s with
  | None => ([], s)
  | Some p =>
      let (occurrence, c) := bump operation (counters s) in
      let '(per_function, c) :=
        match function with
        | Some f => let (n, c) := bump (function_key operation f) c in (Some n, c)
        | None => (None, c)
        end in
      let '(actions, (fs, d)) :=
        decide_rules operation function event_type occurrence per_function (rules p)
          (fired s, dropped s) in
      (actions, {| plan := plan s; counters := c; fired := fs; dropped := d |})
  end.

(** ** The registry *)

(** The heap of shared states; [next] is an address not yet used. *)
Record Heap := { cells : gmap Z FaultState; next : Z }.

Record FaultRegistry := { default_state : Z; others : gmap string Z }.

(** [SharedFaults::default()]: a new cell. *)
Definition alloc (h : Heap) : Z * Heap :=
  (next h, {| cells := <[next h := fault_default]> (cells h); next := next h + 1 |}).

Definition registry_new (h : Heap) : FaultRegistry * Heap :=
  let (a, h) := alloc h in ({| default_state := a; others := ∅ |}, h).

Definition register (project : string) (reg : FaultRegistry) (h : Heap) : Z * FaultRegistry * Heap :=
  match others reg !! project with
  | Some a => (a, reg, h)
  | None =>
      let (a, h) := alloc h in
      (a, {| default_state := default_state reg; others := <[project := a]> (others reg) |}, h)
  end.

Definition remove (project : string) (reg : FaultRegistry) : FaultRegistry :=
  {| default_state := default_state reg; others := delete project (others reg) |}.

Definition for_project (project : string) (reg : FaultRegistry) : Z :=
  default (default_state reg) (others reg !! project).

Definition decide_shared (handle : option Z) (operation : string) (function event_type : option string)
    (h : Heap) : list FaultAction * Heap :=
  match handle with
  | None => ([], h)
  | Some a =>
      match cells h !! a with
      | None => ([], h)
      | Some s =>
          let (actions, s) := fault_decide operation function event_type s in
          (actions, {| cells := <[a := s]> (cells h); next := next h |})
      end
  end.

Definition decide_for (reg : option FaultRegistry) (project operation : string)
    (function event_type : option string) (h : Heap) : list FaultAction * Heap :=
  decide_shared (for_project project <$> reg) operation function event_type h.

(** ** Histories

    The specification has no counters: what a call is decided to do is a function
    of the plan and of the calls made since it was installed. *)

Definition FaultCall : Type := string * option string * option string.

Fixpoint run_decides (calls : list FaultCall) (s : FaultState) : FaultState :=
  match calls with
  | [] => s
  | (op, f, t) :: calls => run_decides calls (fault_decide op f t s).2
  end.

(** How many of the calls are of the operation, and of the operation for the function. *)
Definition op_count (op : string) (calls : list FaultCall) : Z :=
  Z.of_nat (length (filter (fun c : FaultCall => c.1.1 = op) calls)).
Definition fn_count (op f : string) (calls : list FaultCall) : Z :=
  Z.of_nat (length (filter (fun c : FaultCall => c.1.1 = op /\ c.1.2 = Some f) calls)).

(** The rules that apply to a call after a history, by counting it. *)
Definition spec_fires (calls : list FaultCall) (c : FaultCall) (r : FaultRule) : bool :=
  let '(op, f, t) := c in
  rule_fires op f t (op_count op calls + 1) ((fun f => fn_count op f calls + 1) <$> f) r.

Definition spec_records (rs : list FaultRule) (calls : list FaultCall) (c : FaultCall)
    : list FaultRecord :=
  let '(op, f, t) := c in
  map (fun r => {| r_operation := op; r_occurrence := op_count op calls + 1;
                   r_function_occurrence := (fun f => fn_count op f calls + 1) <$> f;
                   r_function := f; r_action := action r |})
      (filter (fun r => spec_fires calls c r = true) rs).

(** Every record fired over a history, oldest first. *)
Fixpoint spec_history (rs : list FaultRule) (before calls : list FaultCall) : list FaultRecord :=
  match calls with
  | [] => []
  | c :: calls => spec_records rs before c ++ spec_history rs (before ++ [c]) calls
  end.

(** ** Counter keys

    Operation names without the separator never meet the key of another
    operation's function. *)

Definition plain (op : string) : Prop := contains_byte (ch "|") (bytes_of op) = false.

Lemma bytes_of_inj s t : bytes_of s = bytes_of t -> s = t.
Proof. intros H. by rewrite <- (string_of_bytes_of s), <- (string_of_bytes_of t), H. Qed.

Lemma contains_byte_app b l m : contains_byte b (l ++ m) = contains_byte b l || contains_byte b m.
Proof. apply existsb_app. Qed.

Lemma function_key_bytes op f : bytes_of (function_key op f) = bytes_of op ++ ch "|" :: bytes_of f.
Proof. unfold function_key. by rewrite !bytes_of_app. Qed.

Lemma function_key_not_plain op f op' : plain op' -> function_key op f <> op'.
Proof.
  intros Hp <-. unfold plain in Hp. rewrite function_key_bytes, contains_byte_app in Hp.
  cbn in Hp. by rewrite orb_true_r in Hp.
Qed.

Lemma split_at_byte b l1 l2 r1 r2 :
  contains_byte b l1 = false -> contains_byte b l2 = false ->
  l1 ++ b :: r1 = l2 ++ b :: r2 -> l1 = l2 /\ r1 = r2.
Proof.
  revert l2. induction l1 as [|x l1 IH]; intros [|y l2]; cbn; intros H1 H2 Heq.
  - by injection Heq.
  - injection Heq as <- _. by rewrite Z.eqb_refl in H2.
  - injection Heq as -> _. by rewrite Z.eqb_refl in H1.
  - injection Heq as <- Heq. apply orb_false_iff in H1 as [_ H1], H2 as [_ H2].
    by destruct (IH l2 H1 H2 Heq) as [-> ->].
Qed.

Lemma function_key_inj op f op' f' : plain op -> plain op' ->
  function_key op f = function_key op' f' -> op = op' /\ f = f'.
Proof.
  intros Hp Hp' H%(f_equal bytes_of). rewrite !function_key_bytes in H.
  apply split_at_byte in H as [H1%bytes_of_inj H2%bytes_of_inj]; done.
Qed.

(** ** The ring *)

(** What the ring holds after a history of fired records. *)
Definition ring_of (h : list FaultRecord) : list FaultRecord * Z :=
  (drop (length h - MAX_FIRED_RECORDS) h, saturating u64 (Z.of_nat (length h - MAX_FIRED_RECORDS))).

Lemma tail_drop {A} n (l : list A) : tail (drop n l) = drop (S n) l.
Proof. revert l. induction n as [|n IH]; intros [|x l]; cbn; try done. Qed.

Lemma push_fired_ring rec h : push_fired rec (ring_of h) = ring_of (h ++ [rec]).
Proof.
  unfold push_fired, ring_of. rewrite length_app, length_drop. cbn [length].
  assert (Hpos : (0 < MAX_FIRED_RECORDS)%nat) by (unfold MAX_FIRED_RECORDS; lia).
  case_bool_decide as Hb.
  - f_equal.
    + rewrite tail_drop. rewrite drop_app_le by lia. f_equal. f_equal. lia.
    + unfold saturating. int_simpl. lia.
  - replace (length h - MAX_FIRED_RECORDS)%nat with 0%nat by lia.
    replace (length h + 1 - MAX_FIRED_RECORDS)%nat with 0%nat by lia. done.
Qed.

(** The loop over the rules fires the records of the rules that apply, in order. *)
Lemma decide_rules_spec op f t n m rs h :
  decide_rules op f t n m rs (ring_of h) =
    (map action (filter (fun r => rule_fires op f t n m r = true) rs),
     ring_of (h ++ map (fun r => {| r_operation := op; r_occurrence := n; r_function_occurrence := m;
                                    r_function := f; r_action := action r |})
                       (filter (fun r => rule_fires op f t n m r = true) rs))).
Proof.
  revert h. induction rs as [|r rs IH]; intros h; cbn [decide_rules].
  - rewrite filter_nil. cbn [map]. by rewrite app_nil_r.
  - rewrite filter_cons. destruct (rule_fires op f t n m r) eqn:Hr.
    + rewrite decide_True by done. rewrite push_fired_ring, IH. cbn [map]. by rewrite <- app_assoc.
    + by rewrite decide_False, IH.
Qed.

(** ** The state after a history *)

Record after (p : FaultPlan) (calls : list FaultCall) (h : list FaultRecord) (s : FaultState) : Prop := {
  a_plan : plan s = Some p;
  a_ops : forall op, plain op -> default 0 (counters s !! op) = op_count op calls;
  a_fns : forall op f, plain op -> default 0 (counters s !! function_key op f) = fn_count op f calls;
  a_ring : (fired s, dropped s) = ring_of h;
}.

Lemma op_count_snoc op calls c :
  op_count op (calls ++ [c]) = op_count op calls + if decide (c.1.1 = op) then 1 else 0.
Proof.
  unfold op_count. rewrite filter_app, length_app, filter_cons, filter_nil.
  case_decide; cbn [length]; lia.
Qed.

Lemma fn_count_snoc op f calls c :
  fn_count op f (calls ++ [c]) =
    fn_count op f calls + if decide (c.1.1 = op /\ c.1.2 = Some f) then 1 else 0.
Proof.
  unfold fn_count. rewrite filter_app, length_app, filter_cons, filter_nil.
  case_decide; cbn [length]; lia.
Qed.

Lemma op_count_le op calls : 0 <= op_count op calls <= Z.of_nat (length calls).
Proof.
  unfold op_count. pose proof (length_filter (fun c : FaultCall => c.1.1 = op) calls). lia.
Qed.

Lemma fn_count_le op f calls : 0 <= fn_count op f calls <= Z.of_nat (length calls).
Proof.
  unfold fn_count.
  pose proof (length_filter (fun c : FaultCall => c.1.1 = op /\ c.1.2 = Some f) calls). lia.
Qed.

Lemma install_after p s : after p [] [] (install p s).
Proof. by constructor. Qed.

Lemma decide_after p calls h s op f t :
  after p calls h s -> plain op -> Z.of_nat (length calls) < int_max u64 ->
  let c : FaultCall := (op, f, t) in
  (fault_decide op f t s).1 = map action (filter (fun r => spec_fires calls c r = true) (rules p)) /\
  after p (calls ++ [c]) (h ++ spec_records (rules p) calls c) (fault_decide op f t s).2.
Proof.
  intros [Hp Ho Hf Hr] Hop Hlen c. subst c.
  pose proof (op_count_le op calls) as Hoc.
  assert (Hb : wrapping u64 (default 0 (counters s !! op) + 1) = op_count op calls + 1).
  { rewrite Ho by done. apply wrapping_id. int_lia. }
  assert (Hne : forall op' f', op <> function_key op' f')
    by (intros op' f' E; by apply (function_key_not_plain op' f' op)).
  unfold fault_decide. rewrite Hp. unfold bump. rewrite Hb.
  destruct f as [f|].
  - pose proof (fn_count_le op f calls).
    rewrite lookup_insert_ne, Hf, wrapping_id by (done || int_lia).
    rewrite Hr, decide_rules_spec. destruct (ring_of (h ++ _)) as [fs d] eqn:Er. cbn [fst snd].
    split; [done|]. constructor; cbn [plan counters fired dropped]; [done| | |done].
    + intros op' Hop'. rewrite op_count_snoc. cbn [fst].
      rewrite lookup_insert_ne by (by apply function_key_not_plain).
      destruct (decide (op = op')) as [->|]; [by rewrite lookup_insert_eq|].
      rewrite lookup_insert_ne, Ho by done. lia.
    + intros op' f' Hop'. rewrite fn_count_snoc. cbn [fst snd].
      destruct (decide (function_key op f = function_key op' f')) as [E|E].
      * rewrite E, lookup_insert_eq. apply function_key_inj in E as [-> ->]; [|done|done].
        by rewrite decide_True.
      * rewrite lookup_insert_ne by done. rewrite lookup_insert_ne by done.
        rewrite Hf, decide_False by (done || intros [-> [= ->]]; done). lia.
  - rewrite Hr, decide_rules_spec. destruct (ring_of (h ++ _)) as [fs d] eqn:Er. cbn [fst snd].
    split; [done|]. constructor; cbn [plan counters fired dropped]; [done| | |done].
    + intros op' Hop'. rewrite op_count_snoc. cbn [fst].
      destruct (decide (op = op')) as [->|]; [by rewrite lookup_insert_eq|].
      rewrite lookup_insert_ne, Ho by done. lia.
    + intros op' f' Hop'. rewrite fn_count_snoc. cbn [fst snd].
      rewrite lookup_insert_ne by done.
      rewrite Hf, decide_False by (done || by intros [_ ?]). lia.
Qed.

Lemma run_decides_after p before calls h s :
  after p before h s -> Forall (fun c : FaultCall => plain c.1.1) calls ->
  Z.of_nat (length before + length calls) < int_max u64 ->
  after p (before ++ calls) (h ++ spec_history (rules p) before calls) (run_decides calls s).
Proof.
  intros Ha Hp. revert before h s Ha. induction Hp as [|[[op f] t] calls Hop Hp IH];
    intros before h s Ha Hlen; cbn [run_decides spec_history].
  - by rewrite !app_nil_r.
  - cbn [length] in Hlen. destruct (decide_after p before h s op f t Ha Hop) as [_ Ha']; [lia|].
    apply IH in Ha'; [|rewrite length_app; cbn [length]; lia].
    by rewrite <- !app_assoc in Ha'.
Qed.

(** ** The heap of states *)

Record heap_ok (reg : FaultRegistry) (h : Heap) : Prop := {
  h_default : is_Some (cells h !! default_state reg);
  h_others : forall p a, others reg !! p = Some a -> is_Some (cells h !! a) /\ a <> default_state reg;
  h_distinct : forall p q a, others reg !! p = Some a -> others reg !! q = Some a -> p = q;
  h_next : forall a, is_Some (cells h !! a) -> a < next h;
}.

Definition state_of (project : string) (reg : FaultRegistry) (h : Heap) : option FaultState :=
  cells h !! for_project project reg.

Lemma registry_new_ok h : (forall a, is_Some (cells h !! a) -> a < next h) ->
  let (reg, h') := registry_new h in heap_ok reg h'.
Proof.
  intros Hn. constructor; cbn.
  - rewrite lookup_insert_eq. eauto.
  - intros p a. by rewrite lookup_empty.
  - intros p q a. by rewrite lookup_empty.
  - intros a [s [[<- _]|[_ Ha]]%lookup_insert_Some]; [lia|]. specialize (Hn a ltac:(by eexists)). lia.
Qed.

Lemma register_ok project reg h : heap_ok reg h ->
  let '(a, reg', h') := register project reg h in
  heap_ok reg' h' /\ others reg' !! project = Some a /\
  (forall q, q <> project -> state_of q reg' h' = state_of q reg h).
Proof.
  intros Hok. pose proof Hok as [[ds Hd] Ho Hdi Hn]. unfold register.
  destruct (others reg !! project) as [a|] eqn:Ea; [done|]. cbn.
  assert (Hfresh : forall a, is_Some (cells h !! a) -> a <> next h) by (intros a Ha%Hn; lia).
  assert (Hdn : default_state reg <> next h) by (apply Hfresh; by eexists).
  split_and!.
  - constructor; cbn.
    + rewrite lookup_insert_ne by done. by eexists.
    + intros p a [[<- <-]|[_ [Hs Hne]%Ho]]%lookup_insert_Some; [by rewrite lookup_insert_eq|].
      rewrite lookup_insert_ne by (by apply not_eq_sym, Hfresh). done.
    + intros p q a [[<- <-]|[_ Hp]]%lookup_insert_Some [[<- Hq']|[_ Hq]]%lookup_insert_Some; try done.
      * apply Ho in Hq as [Hq _]. by apply Hfresh in Hq.
      * subst a. apply Ho in Hp as [Hp _]. by apply Hfresh in Hp.
      * by eapply Hdi.
    + intros a [s [[<- _]|[_ Ha]]%lookup_insert_Some]; [lia|]. specialize (Hn a ltac:(by eexists)). lia.
  - apply lookup_insert_eq.
  - intros q Hq. unfold state_of, for_project. cbn. rewrite (lookup_insert_ne (others reg)) by done.
    rewrite lookup_insert_ne; [done|]. destruct (others reg !! q) as [a|] eqn:Eq; cbn; [|done].
    apply Ho in Eq as [Eq _]. by apply not_eq_sym, Hfresh.
Qed.

(** Two projects share a state exactly when neither has one of its own. *)
Lemma for_project_eq p q reg h : heap_ok reg h ->
  for_project p reg = for_project q reg <->
    p = q \/ (others reg !! p = None /\ others reg !! q = None).
Proof.
  intros [_ Ho Hd _]. unfold for_project.
  destruct (others reg !! p) as [a|] eqn:Ep, (others reg !! q) as [b|] eqn:Eq; cbn.
  - split; [intros <-; left; by eapply Hd|]. intros [->|[? _]]; congruence.
  - pose proof (proj2 (Ho p a Ep)). split; [done|]. intros [->|[? _]]; congruence.
  - pose proof (proj2 (Ho q b Eq)). split; [congruence|]. intros [->|[_ ?]]; congruence.
  - split; [auto|done].
Qed.

(** ** Properties *)

(** Fault decisions follow the plan and the history alone: after any sequence
    of calls since a plan was installed (operation names without the key
    separator, fewer than 2^64 calls), a call is answered with the actions of the
    rules that apply to it, in rule order, where a rule with [nth = n] applies
    exactly to the n-th call it counts; the retained records are the newest
    thousand of all records fired, and the rest are counted as dropped. *)
Theorem fault_decisions_follow_history p s (calls : list FaultCall) op f t :
  Forall (fun c : FaultCall => plain c.1.1) (calls ++ [(op, f, t)]) ->
  Z.of_nat (length calls) + 1 < int_max u64 ->
  let s' := run_decides calls (install p s) in
  let all := spec_history (rules p) [] calls in
  (fault_decide op f t s').1 =
    map action (filter (fun r => spec_fires calls (op, f, t) r = true) (rules p)) /\
  fired s' = drop (length all - MAX_FIRED_RECORDS) all /\
  dropped s' = saturating u64 (Z.of_nat (length all - MAX_FIRED_RECORDS)).
Proof.
  intros [Hcalls Hop]%Forall_app Hlen s' all. rewrite Forall_singleton in Hop.
  assert (Hl : Z.of_nat (length (@nil FaultCall) + length calls) < int_max u64)
    by (cbn [length Nat.add]; lia).
  pose proof (run_decides_after p [] calls [] (install p s) (install_after p s) Hcalls Hl) as Ha.
  cbn [app] in Ha. fold s' all in Ha.
  destruct (decide_after p calls all s' op f t Ha Hop) as [Hd _]; [lia|].
  pose proof (a_ring _ _ _ _ Ha) as Hr. injection Hr as Hf Hdr. by split_and!.
Qed.

(** Sessions do not disturb each other's faults: deciding for a project
    changes the state of that project, and of another one only when neither has
    a state of its own (both use the default session's). *)
Theorem fault_sessions_isolated reg h p q op f t :
  heap_ok reg h ->
  let h' := (decide_for (Some reg) p op f t h).2 in
  heap_ok reg h' /\
  state_of p reg h' = snd <$> (fault_decide op f t <$> state_of p reg h) /\
  (~ (p = q \/ (others reg !! p = None /\ others reg !! q = None)) ->
     state_of q reg h' = state_of q reg h).
Proof.
  intros Hok. pose proof Hok as [Hd Ho Hdi Hn]. unfold decide_for, decide_shared, state_of. cbn.
  assert (Hs : is_Some (cells h !! for_project p reg)).
  { unfold for_project. destruct (others reg !! p) eqn:E; cbn; [by apply (Ho p)|done]. }
  destruct Hs as [s Hs]. rewrite Hs. cbn. destruct (fault_decide op f t s) as [acts s1] eqn:Hdec.
  cbn. split_and!.
  - constructor; cbn.
    + apply lookup_insert_is_Some'. auto.
    + intros p' a Ha. split; [apply lookup_insert_is_Some'; right|]; by eapply Ho.
    + done.
    + intros a [<-|Ha]%lookup_insert_is_Some'; [|by apply Hn]. apply Hn. by eexists.
  - by rewrite lookup_insert_eq.
  - intros Hne. apply lookup_insert_ne. intros E. by apply (for_project_eq p q reg h Hok) in E.
Qed.

(** ** Witnesses *)

Definition sample_plan : FaultPlan :=
  {| plan_seed := 0;
     rules := [{| matches := {| m_operation := "firestore.commit"; m_nth := Some 2; m_function := None;
                                m_event_type := None |}; action := TransactionConflict |};
               {| matches := {| m_operation := "functions.invoke"; m_nth := Some 1;
                                m_function := Some "f"; m_event_type := None |};
                  action := CrashRunner |}] |}.

Definition sample_fault_calls : list FaultCall :=
  [("firestore.commit", None, None); ("functions.invoke", Some "g", None)].

Lemma fault_decisions_follow_history_witness :
  (fault_decide "firestore.commit" None None
     (run_decides sample_fault_calls (install sample_plan fault_default))).1 = [TransactionConflict] /\
  (fault_decide "functions.invoke" (Some "f") None
     (run_decides sample_fault_calls (install sample_plan fault_default))).1 =
    map action (filter (fun r => spec_fires sample_fault_calls ("functions.invoke", Some "f", None) r = true)
                  (rules sample_plan)).
Proof.
  split; [vm_compute; reflexivity|].
  apply (fault_decisions_follow_history sample_plan fault_default sample_fault_calls
           "functions.invoke" (Some "f") None); [|vm_compute; reflexivity].
  repeat constructor.
Defined.

Definition sample_heap : Heap := {| cells := {[1 := fault_default; 2 := install sample_plan fault_default]};
                                    next := 3 |}.
Definition sample_registry : FaultRegistry := {| default_state := 1; others := {["p" := 2]} |}.

Lemma sample_heap_ok : heap_ok sample_registry sample_heap.
Proof.
  constructor; cbn [others default_state sample_registry cells next sample_heap].
  - vm_compute. eauto.
  - intros p a [<- <-]%lookup_singleton_Some. split; [vm_compute; eauto|done].
  - intros p q a [<- _]%lookup_singleton_Some [<- _]%lookup_singleton_Some. done.
  - by intros a [s [[<- _]|[_ [<- _]%lookup_singleton_Some]]%lookup_insert_Some].
Qed.

Lemma fault_sessions_isolated_witness :
  state_of "q" sample_registry
    (decide_for (Some sample_registry) "p" "firestore.commit" None None sample_heap).2 =
  Some fault_default.
Proof.
  destruct (fault_sessions_isolated sample_registry sample_heap "p" "q" "firestore.commit" None None
              sample_heap_ok) as (_ & _ & H).
  etransitivity; [apply H|vm_compute; reflexivity].
  intros [E|[E _]]; [discriminate E|vm_compute in E; discriminate E].
Defined.
