(* ===== verification/Tenancy.v ===== *)
(** * Session tenancy

    Models [crates/fireemu-core-session/src/tenancy.rs]: which session owns which
    project, bucket and API key.  A refusal is the text of a message in the
    source; here it is a constructor with the values the message names. *)
From S2P Require Import Prelude.

Record Tenancy := {
  default_project : string;
  buckets : gmap string (gset string);
  api_keys : gmap string string;
  default_api_keys : gset string;
}.

Inductive Scope :=
| Project (p : string)
| AllExcept (registered : gset string).

Definition owns_project (s : Scope) (project : string) : bool :=
  match s with
  | Project p => bool_decide (p = project)
  | AllExcept registered => negb (bool_decide (project ∈ registered))
  end.

Definition scope_is_default (s : Scope) : bool :=
  match s with AllExcept _ => true | Project _ => false end.

Definition scope_project (s : Scope) : option string :=
  match s with Project p => Some p | AllExcept _ => None end.

(** [s.strip_suffix(suf)] *)
Definition strip_suffix (suf s : string) : option string :=
  let (sb, fb) := (bytes_of s, bytes_of suf) in
  if ends_with fb sb then Some (string_of (take (length sb - length fb) sb)) else None.

Definition conventional_bucket_project (bucket : string) : option string :=
  let stripped :=
    match strip_suffix ".appspot.com" bucket with
    | Some p => Some p
    | None => strip_suffix ".firebasestorage.app" bucket
    end in
  match stripped with
  | Some p => if bool_decide (p = "") then None else Some p
  | None => None
  end.

Definition tenancy_new (project : string) : Tenancy :=
  {| default_project := project; buckets := ∅; api_keys := ∅; default_api_keys := ∅ |}.

Definition declare_default_api_keys (keys : list string) (t : Tenancy) : Tenancy :=
  {| default_project := default_project t; buckets := buckets t; api_keys := api_keys t;
     default_api_keys := default_api_keys t ∪ list_to_set keys |}.

Definition is_default_api_key (t : Tenancy) (key : string) : bool :=
  bool_decide (key ∈ default_api_keys t).

Definition refuses_api_key (t : Tenancy) (key : string) : bool :=
  negb (bool_decide (default_api_keys t = ∅))
  && negb (bool_decide (key ∈ default_api_keys t))
  && negb (bool_decide (is_Some (api_keys t !! key))).

Definition is_registered (t : Tenancy) (project : string) : bool :=
  bool_decide (is_Some (buckets t !! project)).

Definition registered (t : Tenancy) : gset string := dom (buckets t).

Definition declared_buckets (t : Tenancy) (project : string) : list string :=
  match buckets t !! project with Some b => btree_iter b | None => [] end.

Definition project_of_bucket (t : Tenancy) (bucket : string) : string :=
  let declared :=
    match List.find (fun pb : string * gset string => bool_decide (bucket ∈ pb.2))
            (btree_map_iter (buckets t)) with
    | Some (p, _) => p
    | None => default_project t
    end in
  match conventional_bucket_project bucket with
  | Some p =>
      if bool_decide (p = default_project t) then default_project t
      else match buckets t !! p with Some _ => p | None => declared end
  | None => declared
  end.

Inductive TenancyConflict :=
| IsDefaultProject
| AlreadyRegistered (project : string)
| BucketOwned (bucket owner : string)
| BucketConventional (bucket : string)
| KeyOwned (key owner : string).

(** The two checking loops of [register]. *)
Fixpoint check_buckets (t : Tenancy) (project : string) (bs : list string)
    : result unit TenancyConflict :=
  match bs with
  | [] => Ok tt
  | b :: bs =>
      let owner := project_of_bucket t b in
      if negb (bool_decide (owner = default_project t)) && negb (bool_decide (owner = project))
      then Err (BucketOwned b owner)
      else match conventional_bucket_project b with
           | Some p => if bool_decide (p = project) then check_buckets t project bs
                       else Err (BucketConventional b)
           | None => check_buckets t project bs
           end
  end.

Fixpoint check_keys (t : Tenancy) (ks : list string) : result unit TenancyConflict :=
  match ks with
  | [] => Ok tt
  | k :: ks =>
      match api_keys t !! k with
      | Some owner => Err (KeyOwned k owner)
      | None => check_keys t ks
      end
  end.

Definition register (project : string) (bs ks : list string) : M Tenancy TenancyConflict unit := fun t =>
  if bool_decide (project = default_project t) then (Err IsDefaultProject, t)
  else if bool_decide (is_Some (buckets t !! project)) then (Err (AlreadyRegistered project), t)
  else match check_buckets t project bs with
       | Err e => (Err e, t)
       | Ok _ =>
           match check_keys t ks with
           | Err e => (Err e, t)
           | Ok _ =>
               (Ok tt,
                {| default_project := default_project t;
                   buckets := <[project := list_to_set bs]> (buckets t);
                   api_keys := fold_left (fun m k => <[k := project]> m) ks (api_keys t);
                   default_api_keys := default_api_keys t |})
           end
       end.

Definition api_key_for (t : Tenancy) (project : string) : option string :=
  if bool_decide (project = default_project t) then head (btree_iter (default_api_keys t))
  else fst <$> List.find (fun ko : string * string => bool_decide (ko.2 = project))
                 (btree_map_iter (api_keys t)).

Definition unregister (project : string) (t : Tenancy) : bool * Tenancy :=
  (bool_decide (is_Some (buckets t !! project)),
   {| default_project := default_project t;
      buckets := delete project (buckets t);
      api_keys := filter (fun kp => kp.2 <> project) (api_keys t);
      default_api_keys := default_api_keys t |}).

Definition project_of_api_key (t : Tenancy) (key : string) : option string := api_keys t !! key.

Definition default_scope (t : Tenancy) : Scope := AllExcept (registered t).

Definition scope_of (t : Tenancy) (project : string) : Scope :=
  if is_registered t project then Project project else default_scope t.

(** ** Well-formed tenancies *)

Record tenancy_wf (t : Tenancy) : Prop := {
  tw_default : buckets t !! default_project t = None;
  tw_conventional : forall p s b q, buckets t !! p = Some s -> b ∈ s ->
    conventional_bucket_project b = Some q -> q = p;
  tw_disjoint : forall p q s s' b, buckets t !! p = Some s -> buckets t !! q = Some s' ->
    b ∈ s -> b ∈ s' -> p = q;
  tw_keys : forall k p, api_keys t !! k = Some p -> is_Some (buckets t !! p);
}.

Lemma tenancy_new_wf p : tenancy_wf (tenancy_new p).
Proof. constructor; cbn; [by rewrite lookup_empty|..]; intros *; by rewrite lookup_empty. Qed.

Lemma declare_wf ks t : tenancy_wf t -> tenancy_wf (declare_default_api_keys ks t).
Proof. intros []. by constructor. Qed.

Lemma find_Some_elem {A} (f : A -> bool) l x : List.find f l = Some x -> x ∈ l /\ f x = true.
Proof. intros [Hx Hf]%List.find_some. split; [by apply list_elem_of_In|done]. Qed.

Lemma find_None_elem {A} (f : A -> bool) l x : List.find f l = None -> x ∈ l -> f x = false.
Proof. intros H Hx%list_elem_of_In. by apply (List.find_none f l H). Qed.

(** The owner of a bucket, by who declared it. *)
Lemma project_of_declared t p s b : tenancy_wf t -> buckets t !! p = Some s -> b ∈ s ->
  project_of_bucket t b = p.
Proof.
  intros [Hd Hc Hdis _] Hp Hb. unfold project_of_bucket.
  assert (Hfind : match List.find (fun pb : string * gset string => bool_decide (b ∈ pb.2))
            (btree_map_iter (buckets t)) with Some (p, _) => p | None => default_project t end = p).
  { destruct (List.find _ _) as [[q s']|] eqn:E.
    - apply find_Some_elem in E as [Hq%elem_of_btree_map_iter Hin%bool_decide_eq_true].
      by apply (Hdis q p s' s b).
    - pose proof (find_None_elem _ _ (p, s) E (proj2 (elem_of_btree_map_iter _ _ _) Hp)) as Hf.
      cbn in Hf. by rewrite bool_decide_eq_true_2 in Hf. }
  rewrite Hfind. destruct (conventional_bucket_project b) as [q|] eqn:Eq; [|done].
  rewrite (Hc p s b q Hp Hb Eq), Hp. case_bool_decide; [|done]. congruence.
Qed.

Lemma project_of_undeclared t b : tenancy_wf t ->
  (forall p s, buckets t !! p = Some s -> b ∉ s) ->
  project_of_bucket t b =
    match conventional_bucket_project b with
    | Some p => if decide (is_Some (buckets t !! p)) then p else default_project t
    | None => default_project t
    end.
Proof.
  intros [Hd _ _ _] Hno. unfold project_of_bucket.
  assert (Hfind : List.find (fun pb : string * gset string => bool_decide (b ∈ pb.2))
                    (btree_map_iter (buckets t)) = None).
  { destruct (List.find _ _) as [[q s']|] eqn:E; [|done].
    apply find_Some_elem in E as [Hq%elem_of_btree_map_iter Hin%bool_decide_eq_true].
    by apply Hno in Hq. }
  rewrite Hfind. destruct (conventional_bucket_project b) as [q|]; [|done].
  case_bool_decide as Hq.
  - subst q. rewrite Hd. by case_decide as H; [destruct H|].
  - destruct (buckets t !! q); [by rewrite decide_True by eauto|].
    by rewrite decide_False by (by intros [? ?]).
Qed.

Lemma check_buckets_Ok t p bs : check_buckets t p bs = Ok tt ->
  forall b, b ∈ bs -> (project_of_bucket t b = default_project t \/ project_of_bucket t b = p) /\
    (forall q, conventional_bucket_project b = Some q -> q = p).
Proof.
  induction bs as [|b bs IH]; cbn [check_buckets]; intros H b' Hb; [by apply elem_of_nil in Hb|].
  repeat case_bool_decide; cbn [negb andb] in H; try done;
    destruct (conventional_bucket_project b) as [q|] eqn:Eq; try case_bool_decide; try done;
    apply elem_of_cons in Hb as [->|Hb]; try (by apply IH); naive_solver.
Qed.

Lemma check_keys_Ok t ks : check_keys t ks = Ok tt -> forall k, k ∈ ks -> api_keys t !! k = None.
Proof.
  induction ks as [|k ks IH]; cbn [check_keys]; intros H k' Hk; [by apply elem_of_nil in Hk|].
  destruct (api_keys t !! k) eqn:E; [done|]. apply elem_of_cons in Hk as [->|Hk]; [done|by apply IH].
Qed.

Lemma fold_keys_lookup p ks (m : gmap string string) k :
  fold_left (fun m k => <[k := p]> m) ks m !! k = if decide (k ∈ ks) then Some p else m !! k.
Proof.
  revert m. induction ks as [|k' ks IH]; intros m; cbn [fold_left]; [done|].
  rewrite IH. destruct (decide (k ∈ ks)) as [Hk|Hk].
  - by rewrite decide_True by (by right).
  - destruct (decide (k = k')) as [->|Hne].
    + rewrite decide_True by left. apply lookup_insert_eq.
    + rewrite lookup_insert_ne, decide_False by (done || by rewrite elem_of_cons; intros [?|?]). done.
Qed.

(** What a registration that succeeds has checked, and what it leaves. *)
Lemma register_Ok p bs ks t t' : register p bs ks t = (Ok tt, t') ->
  p <> default_project t /\ buckets t !! p = None /\
  check_buckets t p bs = Ok tt /\ check_keys t ks = Ok tt /\
  t' = {| default_project := default_project t; buckets := <[p := list_to_set bs]> (buckets t);
          api_keys := fold_left (fun m k => <[k := p]> m) ks (api_keys t);
          default_api_keys := default_api_keys t |}.
Proof.
  unfold register. repeat case_bool_decide; try done.
  destruct (check_buckets t p bs) as [[]|] eqn:Eb; [|done].
  destruct (check_keys t ks) as [[]|] eqn:Ek; [|done]. intros [= <-].
  split_and!; try done. by apply eq_None_not_Some.
Qed.

Lemma register_wf p bs ks t t' : tenancy_wf t -> register p bs ks t = (Ok tt, t') -> tenancy_wf t'.
Proof.
  intros Hwf (Hp & Hn & Hb & Hk & ->)%register_Ok. pose proof (check_buckets_Ok t p bs Hb) as Hcb.
  assert (Hnew : forall q s b, buckets t !! q = Some s -> b ∈ s -> b ∈ bs -> False).
  { intros q s b Hq Hbs Hin. destruct (Hcb b Hin) as [Ho _].
    rewrite (project_of_declared t q s b Hwf Hq Hbs) in Ho.
    destruct Ho as [-> | ->]; [|congruence]. by rewrite (tw_default t Hwf) in Hq. }
  destruct Hwf as [Hd Hc Hdis Hkeys]. constructor; cbn.
  - by rewrite lookup_insert_ne.
  - intros q s b c [[<- <-]|[_ Hq]]%lookup_insert_Some Hin Hcv; [|by eapply Hc].
    apply elem_of_list_to_set in Hin. by apply (Hcb b Hin).
  - intros q1 q2 s1 s2 b [[<- <-]|[_ H1]]%lookup_insert_Some [[<- <-]|[_ H2]]%lookup_insert_Some;
      rewrite ?elem_of_list_to_set; intros; [done|exfalso; eauto..|eauto].
  - intros k q. rewrite fold_keys_lookup, lookup_insert_is_Some'. case_decide; [|by eauto].
    intros [= <-]. by left.
Qed.

Lemma unregister_wf p t : tenancy_wf t -> tenancy_wf (unregister p t).2.
Proof.
  intros [Hd Hc Hdis Hkeys]. constructor; cbn.
  - rewrite lookup_delete_None. auto.
  - intros q s b c [_ Hq]%lookup_delete_Some. by eapply Hc.
  - intros q1 q2 s1 s2 b [_ H1]%lookup_delete_Some [_ H2]%lookup_delete_Some. by eapply Hdis.
  - intros k q [Hk Hne]%map_lookup_filter_Some. cbn in Hne. rewrite lookup_delete_ne by done.
    by eapply Hkeys.
Qed.

(** ** Sequences of calls *)

Inductive TenancyOp :=
| TRegister (p : string) (bs ks : list string)
| TUnregister (p : string)
| TDeclare (ks : list string).

Definition apply_tenancy_op (t : Tenancy) (op : TenancyOp) : Tenancy :=
  match op with
  | TRegister p bs ks => (register p bs ks t).2
  | TUnregister p => (unregister p t).2
  | TDeclare ks => declare_default_api_keys ks t
  end.

Definition run_tenancy (ops : list TenancyOp) (t : Tenancy) : Tenancy :=
  fold_left apply_tenancy_op ops t.

Lemma register_err p bs ks t e t' : register p bs ks t = (Err e, t') -> t' = t.
Proof.
  unfold register. repeat case_bool_decide; try by (intros E; injection E).
  destruct (check_buckets t p bs); [|by intros E; injection E].
  by destruct (check_keys t ks); [|intros E; injection E].
Qed.

Lemma run_tenancy_wf ops t : tenancy_wf t -> tenancy_wf (run_tenancy ops t).
Proof.
  revert t. induction ops as [|op ops IH]; intros t Hwf; [done|]. apply IH.
  destruct op as [p bs ks|p|ks]; cbn; [|by apply unregister_wf|by apply declare_wf].
  destruct (register p bs ks t) as [[[]|e] t'] eqn:E; cbn.
  - by eapply register_wf.
  - by apply register_err in E as ->.
Qed.

(** ** Properties *)

(** Every bucket and project has exactly one owner, after any sequence of
    registrations (refused ones included), removals and key declarations: a
    bucket a registered project declared resolves to that project alone; one
    nobody declared resolves to the project its name is the default bucket of,
    if that is registered, and otherwise to the default project; and every
    project is in exactly one scope, that of its own session. *)
Theorem ownership_is_unique d ops :
  let t := run_tenancy ops (tenancy_new d) in
  (forall p s b, buckets t !! p = Some s -> b ∈ s ->
     project_of_bucket t b = p /\ forall q s', buckets t !! q = Some s' -> b ∈ s' -> q = p) /\
  (forall b, (forall p s, buckets t !! p = Some s -> b ∉ s) ->
     project_of_bucket t b =
       match conventional_bucket_project b with
       | Some p => if decide (is_Some (buckets t !! p)) then p else default_project t
       | None => default_project t
       end) /\
  (forall p q, owns_project (scope_of t p) q = true <-> scope_of t p = scope_of t q).
Proof.
  intros t. assert (Hwf : tenancy_wf t) by apply run_tenancy_wf, tenancy_new_wf. split_and!.
  - intros p s b Hp Hb. split; [by eapply project_of_declared|].
    intros q s' Hq Hb'. by eapply (tw_disjoint t Hwf).
  - intros b Hno. by apply project_of_undeclared.
  - intros p q. unfold scope_of, default_scope, is_registered.
    pose proof (elem_of_dom (buckets t) q) as Hdom.
    repeat case_bool_decide; cbn [owns_project registered];
      rewrite ?negb_true_iff, ?bool_decide_eq_true, ?bool_decide_eq_false;
      unfold registered; rewrite ?Hdom; naive_solver.
Qed.

(** Removing a project undoes its registration: from a tenancy reached by
    any calls, a registration that succeeds followed by the removal of the
    project gives back the tenancy, every bucket and API key included, and a
    registration that is refused leaves the tenancy as it was. *)
Theorem unregister_undoes_register d ops p bs ks :
  let t := run_tenancy ops (tenancy_new d) in
  match register p bs ks t with
  | (Ok _, t') => unregister p t' = (true, t) /\
      (forall b, b ∈ bs -> project_of_bucket t' b = p) /\
      (forall k, k ∈ ks -> project_of_api_key t' k = Some p)
  | (Err _, t') => t' = t
  end.
Proof.
  intros t. assert (Hwf : tenancy_wf t) by apply run_tenancy_wf, tenancy_new_wf.
  destruct (register p bs ks t) as [[[]|e] t'] eqn:E; [|by apply register_err in E].
  pose proof (register_wf p bs ks t t' Hwf E) as Hwf'.
  apply register_Ok in E as (Hp & Hn & Hb & Hk & ->). split_and!.
  - unfold unregister. cbn. rewrite lookup_insert_eq, bool_decide_eq_true_2 by eauto. f_equal.
    destruct t as [d' bkts keys dk] eqn:Et. cbn in *. f_equal; [by rewrite delete_insert_id|].
    apply map_eq. intros k. apply option_eq. intros q. rewrite map_lookup_filter_Some, fold_keys_lookup.
    pose proof (check_keys_Ok _ ks Hk k) as Hck. cbn in Hck |- *.
    split.
    + intros [Hq Hne]. case_decide; [congruence|done].
    + intros Hq. split; [case_decide; [|done]; rewrite Hck in Hq; done|].
      intros ->. apply (tw_keys _ Hwf) in Hq. cbn in Hq. rewrite Hn in Hq. by destruct Hq.
  - intros b Hin. eapply project_of_declared; [done|apply lookup_insert_eq|].
    by apply elem_of_list_to_set.
  - intros k Hin. unfold project_of_api_key. cbn. by rewrite fold_keys_lookup, decide_True.
Qed.
