(* ===== verification/Limits.v ===== *)
(** * Limits, dispositions and warnings

    Models [crates/fireemu-core-limits/src/model.rs], [plan.rs] and [evaluate.rs]:
    limit definitions, the plan that resolves their maximum, and the disposition
    of an observed usage.  The products of the ratio comparisons are 128-bit in
    the source and stay exact ([Z]): two 64-bit factors never leave that width. *)
From S2P Require Import Prelude.

(** ** The model *)

Inductive LimitClass :=
| IdentifierSyntax | HardResource | RuntimeBudget | TimeBudget | PlanCapacity | RateQuota
| BillingQuota | BackendOpaque.

Inductive EnforcementPrecision :=
| PrecExact | BoundaryConformance | Conservative | Estimated | OracleOnly | PrecNotApplicable
| PrecUnsupported.

Inductive LimitBoundary :=
| InclusiveMaximum | ExclusiveMaximum | Exact | RangeInclusive | SyntaxConstraint
| TruncatingMaximum.

Inductive LimitUnit :=
| Count | Utf8Bytes | LogicalBytes | Bytes | KiB | MiB | PublishedKilobytes | Seconds
| RequestsPerMinute | ReadUnits | WriteUnits | RealtimeUpdateUnits.

Inductive EnforcementStage :=
| ConfigLoad | Request | Commit | QueryPlan | RulesCompile | RulesRuntime | ManagementApi | Observe.

#[global] Instance EnforcementStage_eq_dec : EqDecision EnforcementStage.
Proof. solve_decision. Defined.

Inductive ImplementationStatus := Implemented | Unsupported | NotApplicable.

Inductive LimitMaximum :=
| Fixed (v : Z)
| PlanDependent (billing_disabled billing_enabled : Z)
| MaxNotApplicable.

Record LimitDefinition := {
  lim_id : string;
  class : LimitClass;
  boundary : LimitBoundary;
  unit_ : LimitUnit;
  lim_maximum : LimitMaximum;
  precision : EnforcementPrecision;
  enforcement_stage : EnforcementStage;
  implemented : ImplementationStatus;
  official_text : string;
  notes : string;
}.

Record LimitCatalogMeta := {
  meta_id : string;
  product : string;
  edition : string;
  official_revision : string;
  official_last_updated_utc : string;
  reviewed_at_utc : string;
  conformance_revision : string;
}.

Record LimitCatalog := { meta : LimitCatalogMeta; limits : list LimitDefinition }.

Definition find_limit (c : LimitCatalog) (id : string) : option LimitDefinition :=
  List.find (fun l => bool_decide (lim_id l = id)) (limits c).

(** ** Plans *)

Record FirestorePlanProfile := {
  billing : bool;
  composite_index_limit_override : option Z;
  single_field_config_limit_override : option Z;
  enterprise_index_limit_override : option Z;
}.

Definition override_value (p : FirestorePlanProfile) (id : string) : option Z :=
  if bool_decide (id = "FS-LIMIT-COMPOSITE-INDEXES") then composite_index_limit_override p
  else if bool_decide (id = "FS-LIMIT-SINGLE-FIELD-CONFIGS") then single_field_config_limit_override p
  else if bool_decide (id = "FS-ENT-LIMIT-INDEXES") then enterprise_index_limit_override p
  else None.

Definition resolve_maximum (p : FirestorePlanProfile) (def : LimitDefinition) : option Z :=
  match override_value p (lim_id def) with
  | Some v => Some v
  | None =>
      match lim_maximum def with
      | Fixed v => Some v
      | PlanDependent disabled enabled => Some (if billing p then enabled else disabled)
      | MaxNotApplicable => None
      end
  end.

Definition has_overrides (p : FirestorePlanProfile) : bool :=
  bool_decide (is_Some (composite_index_limit_override p))
  || bool_decide (is_Some (single_field_config_limit_override p))
  || bool_decide (is_Some (enterprise_index_limit_override p)).

(** ** Evaluation *)

Inductive WarningSeverity := Notice | Warning | Critical.

(** Declaration order, which is the derived [Ord]. *)
Definition severity_rank (s : WarningSeverity) : Z :=
  match s with Notice => 0 | Warning => 1 | Critical => 2 end.

Definition stable_code (s : WarningSeverity) : string :=
  match s with
  | Notice => "LIMIT_APPROACHING"
  | Warning => "LIMIT_NEAR"
  | Critical => "LIMIT_CRITICAL"
  end.

Record WarningThreshold := { basis_points : Z; threshold_severity : WarningSeverity }.

Definition DEFAULT_THRESHOLDS : list WarningThreshold :=
  [{| basis_points := 7500; threshold_severity := Notice |};
   {| basis_points := 8500; threshold_severity := Warning |};
   {| basis_points := 9500; threshold_severity := Critical |}].

Record SourceSpan := { file : string; line : Z; column : Z }.

Record Contributor := { name : string; amount : Z }.

Inductive RemediationCode := ReduceUsage | Split | UpgradePlan | SeeOfficialDocumentation.

Record LimitWarning := {
  w_limit_id : string;
  w_severity : WarningSeverity;
  w_current : Z;
  w_maximum : Z;
  w_ratio_micros : Z;
  w_precision : EnforcementPrecision;
  w_source_span : option SourceSpan;
  w_largest_contributors : list Contributor;
  w_remediation : RemediationCode;
}.

Record LimitViolation := {
  v_limit_id : string;
  v_current : Z;
  v_maximum : Z;
  v_boundary : LimitBoundary;
  v_precision : EnforcementPrecision;
  wire_mapping_revision : string;
}.

Inductive LimitDisposition :=
| Allow
| AllowWithWarnings (ws : list LimitWarning)
| Reject (v : LimitViolation)
| ObservedOverLimit (v : LimitViolation).

Definition WIRE_MAPPING_REVISION : string := "wire-mapping-2026-08-29-unverified".

Definition violates_boundary (b : LimitBoundary) (current maximum : Z) : bool :=
  match b with
  | InclusiveMaximum | SyntaxConstraint | RangeInclusive => maximum <? current
  | ExclusiveMaximum => maximum <=? current
  | Exact => negb (current =? maximum)
  | TruncatingMaximum => false
  end.

Definition reaches_threshold (current maximum bp : Z) : bool :=
  if maximum =? 0 then 0 <? current else maximum * bp <=? current * 10000.

(** [Iterator::max] over severities. *)
Definition max_severity (a : option WarningSeverity) (s : WarningSeverity) : option WarningSeverity :=
  match a with
  | None => Some s
  | Some a => Some (if severity_rank s <? severity_rank a then a else s)
  end.

Definition classify_severity (current maximum : Z) (thresholds : list WarningThreshold)
    : option WarningSeverity :=
  fold_left max_severity
    (map threshold_severity
       (filter (fun t => reaches_threshold current maximum (basis_points t) = true) thresholds))
    None.

Definition ratio_micros (current maximum : Z) : Z :=
  if maximum =? 0 then (if current =? 0 then 0 else int_max u32)
  else let micros := current * 1000000 / maximum in
       default (int_max u32) (checked u32 micros).

Definition default_remediation (def : LimitDefinition) : RemediationCode :=
  match class def, lim_maximum def with
  | PlanCapacity, PlanDependent _ _ => UpgradePlan
  | HardResource, _ | RuntimeBudget, _ => Split
  | BackendOpaque, _ => SeeOfficialDocumentation
  | _, _ => ReduceUsage
  end.

Definition evaluate (def : LimitDefinition) (current : Z) (plan : FirestorePlanProfile)
    (thresholds : list WarningThreshold) : LimitDisposition :=
  match resolve_maximum plan def with
  | None => Allow
  | Some maximum =>
      if violates_boundary (boundary def) current maximum then
        let violation :=
          {| v_limit_id := lim_id def; v_current := current; v_maximum := maximum;
             v_boundary := boundary def; v_precision := precision def;
             wire_mapping_revision := WIRE_MAPPING_REVISION |} in
        if bool_decide (enforcement_stage def = Observe) then ObservedOverLimit violation
        else Reject violation
      else
        match classify_severity current maximum thresholds with
        | None => Allow
        | Some severity =>
            AllowWithWarnings
              [{| w_limit_id := lim_id def; w_severity := severity; w_current := current;
                  w_maximum := maximum; w_ratio_micros := ratio_micros current maximum;
                  w_precision := precision def; w_source_span := None;
                  w_largest_contributors := []; w_remediation := default_remediation def |}]
        end
  end.

(** ** Severity as a number *)

(** 0 for no warning. *)
Definition opt_rank (s : option WarningSeverity) : Z :=
  match s with None => 0 | Some s => severity_rank s + 1 end.

Definition disposition_rank (d : LimitDisposition) : Z :=
  match d with
  | Allow => 0
  | AllowWithWarnings ws => fold_right (fun w acc => Z.max (severity_rank (w_severity w) + 1) acc) 0 ws
  | Reject _ | ObservedOverLimit _ => 4
  end.

Lemma severity_rank_bound s : 0 <= severity_rank s <= 2.
Proof. destruct s; cbn; lia. Qed.

Lemma max_severity_rank a s : opt_rank (max_severity a s) = Z.max (opt_rank a) (severity_rank s + 1).
Proof.
  destruct a as [a|]; cbn; [|pose proof (severity_rank_bound s); lia].
  destruct (Z.ltb_spec (severity_rank s) (severity_rank a)); cbn; lia.
Qed.

Lemma fold_severity_rank l a : opt_rank (fold_left max_severity l a) =
  fold_right (fun s acc => Z.max (severity_rank s + 1) acc) (opt_rank a) l.
Proof.
  revert a. induction l as [|s l IH]; intros a; [done|]. cbn [fold_left fold_right].
  rewrite IH, max_severity_rank. clear. induction l as [|x l IH]; cbn [fold_right]; lia.
Qed.

Lemma opt_rank_inj a b : opt_rank a = opt_rank b -> a = b.
Proof. destruct a as [[]|], b as [[]|]; cbn; (done || lia). Qed.

Lemma reaches_threshold_mono c c' m bp : 0 <= c <= c' ->
  reaches_threshold c m bp = true -> reaches_threshold c' m bp = true.
Proof. unfold reaches_threshold. destruct (Z.eqb_spec m 0); lia. Qed.

Lemma classify_rank c m ts : opt_rank (classify_severity c m ts) =
  fold_right (fun t acc => Z.max (if reaches_threshold c m (basis_points t)
                                  then severity_rank (threshold_severity t) + 1 else 0) acc) 0 ts.
Proof.
  unfold classify_severity. rewrite fold_severity_rank. cbn [opt_rank].
  induction ts as [|t ts IH]; [done|]. rewrite filter_cons. cbn [fold_right].
  destruct (reaches_threshold c m (basis_points t)) eqn:E.
  - rewrite decide_True by done. cbn [map fold_right]. by rewrite IH.
  - rewrite decide_False, IH by done.
    assert (0 <= fold_right (fun t acc => Z.max (if reaches_threshold c m (basis_points t)
               then severity_rank (threshold_severity t) + 1 else 0) acc) 0 ts); [|lia].
    clear. induction ts as [|x ts IH]; cbn [fold_right]; lia.
Qed.

Lemma classify_mono c c' m ts : 0 <= c <= c' ->
  opt_rank (classify_severity c m ts) <= opt_rank (classify_severity c' m ts).
Proof.
  intros Hc. rewrite !classify_rank. induction ts as [|t ts IH]; cbn [fold_right]; [lia|].
  destruct (reaches_threshold c m (basis_points t)) eqn:E.
  - rewrite (reaches_threshold_mono c c') by done. lia.
  - pose proof (severity_rank_bound (threshold_severity t)).
    destruct (reaches_threshold c' m (basis_points t)); lia.
Qed.

Lemma classify_bound c m ts : 0 <= opt_rank (classify_severity c m ts) <= 3.
Proof.
  destruct (classify_severity c m ts) as [s|]; cbn; [|lia].
  pose proof (severity_rank_bound s). lia.
Qed.

(** The rank of a disposition, from the boundary and the severity. *)
Lemma evaluate_rank def current plan ts :
  disposition_rank (evaluate def current plan ts) =
    match resolve_maximum plan def with
    | None => 0
    | Some maximum =>
        if violates_boundary (boundary def) current maximum then 4
        else opt_rank (classify_severity current maximum ts)
    end.
Proof.
  unfold evaluate. destruct (resolve_maximum plan def) as [m|]; [|done].
  destruct (violates_boundary _ _ _); [by case_bool_decide|].
  destruct (classify_severity current m ts) as [s|]; cbn; [|done].
  pose proof (severity_rank_bound s). lia.
Qed.

Lemma violates_mono b c c' m : b <> Exact -> c <= c' ->
  violates_boundary b c m = true -> violates_boundary b c' m = true.
Proof. destruct b; cbn; (done || lia). Qed.

(** ** What the numbers say *)

Lemma ratio_micros_spec c m : 0 <= c -> 0 < m -> c * 1000000 / m <= int_max u32 ->
  ratio_micros c m * m <= c * 1000000 < (ratio_micros c m + 1) * m.
Proof.
  intros Hc Hm Hle. unfold ratio_micros. rewrite (proj2 (Z.eqb_neq m 0)) by lia.
  assert (0 <= c * 1000000 / m) by (apply Z.div_pos; lia).
  unfold checked. rewrite decide_True by int_lia. cbn [from_option].
  pose proof (Z.div_mod (c * 1000000) m ltac:(lia)). pose proof (Z.mod_pos_bound (c * 1000000) m Hm).
  change (id (c * 1000000 / m)) with (c * 1000000 / m). lia.
Qed.

(** The severity is one of a reached threshold, and the highest of them. *)
Lemma fold_severity_in l a s : fold_left max_severity l a = Some s -> s ∈ l \/ a = Some s.
Proof.
  revert a. induction l as [|x l IH]; intros a; cbn [fold_left]; [auto|]. intros [?|Ha]%IH.
  - left. by right.
  - destruct a as [a|]; cbn in Ha; injection Ha as <-; [|left; left].
    destruct (severity_rank x <? severity_rank a); [by right|left; left].
Qed.

Lemma classify_reached c m ts s : classify_severity c m ts = Some s ->
  exists t, t ∈ ts /\ reaches_threshold c m (basis_points t) = true /\ threshold_severity t = s.
Proof.
  intros [Hs|?]%fold_severity_in; [|done]. apply list_elem_of_fmap in Hs as (t & -> & Ht).
  apply list_elem_of_filter in Ht as [? ?]. by exists t.
Qed.

Lemma classify_max c m ts s t : classify_severity c m ts = Some s -> t ∈ ts ->
  reaches_threshold c m (basis_points t) = true -> severity_rank (threshold_severity t) <= severity_rank s.
Proof.
  intros Hs Ht Hr. pose proof (classify_rank c m ts) as Hc. rewrite Hs in Hc. cbn [opt_rank] in Hc.
  assert (severity_rank (threshold_severity t) + 1 <= severity_rank s + 1); [|lia]. rewrite Hc. clear Hs Hc.
  induction Ht as [t ts|t x ts Ht IH]; cbn [fold_right]; [rewrite Hr; lia|].
  specialize (IH Hr). lia.
Qed.

(** A usage that has filled its maximum reaches every default threshold. *)
Lemma classify_full c m : 0 < c -> 0 <= m -> m <= c ->
  classify_severity c m DEFAULT_THRESHOLDS = Some Critical.
Proof.
  intros Hc Hm Hle.
  assert (Hr : forall bp, 0 <= bp <= 10000 -> reaches_threshold c m bp = true).
  { intros bp Hbp. unfold reaches_threshold. destruct (Z.eqb_spec m 0); [lia|]. nia. }
  unfold classify_severity. apply opt_rank_inj. unfold DEFAULT_THRESHOLDS. rewrite !filter_cons, filter_nil.
  cbn [basis_points]. rewrite !decide_True by (apply Hr; lia). done.
Qed.

(** ** Properties *)

(** Using more is never judged milder: for every boundary but the exact one,
    a larger usage under the same definition, plan and thresholds has a
    disposition at least as severe, no warning being below a notice, a warning,
    a critical warning and a violation, in that order. *)
Theorem disposition_monotone def plan ts c c' :
  boundary def <> Exact -> 0 <= c <= c' ->
  disposition_rank (evaluate def c plan ts) <= disposition_rank (evaluate def c' plan ts) <= 4.
Proof.
  intros Hb Hc. rewrite !evaluate_rank. destruct (resolve_maximum plan def) as [m|]; [|lia].
  pose proof (classify_mono c c' m ts Hc). pose proof (classify_bound c' m ts).
  destruct (violates_boundary (boundary def) c m) eqn:E.
  - rewrite (violates_mono _ c c') by (done || lia). lia.
  - destruct (violates_boundary (boundary def) c' m); lia.
Qed.

Definition sample_limit : LimitDefinition :=
  {| lim_id := "FS-LIMIT-X"; class := HardResource; boundary := InclusiveMaximum; unit_ := Count;
     lim_maximum := Fixed 200; precision := PrecExact; enforcement_stage := Commit;
     implemented := Implemented; official_text := ""; notes := "" |}.

Definition sample_profile : FirestorePlanProfile :=
  {| billing := false; composite_index_limit_override := None;
     single_field_config_limit_override := None; enterprise_index_limit_override := None |}.

Lemma disposition_monotone_witness :
  disposition_rank (evaluate sample_limit 160 sample_profile DEFAULT_THRESHOLDS) = 1 /\
  disposition_rank (evaluate sample_limit 160 sample_profile DEFAULT_THRESHOLDS) <=
    disposition_rank (evaluate sample_limit 201 sample_profile DEFAULT_THRESHOLDS) <= 4.
Proof.
  split; [vm_compute; reflexivity|].
  apply (disposition_monotone sample_limit sample_profile DEFAULT_THRESHOLDS 160 201); [discriminate|lia].
Defined.

(** A request is rejected exactly when its usage is outside the limit's
    boundary and the limit is enforced, and what is let through is graded by its
    ratio: a usage inside a positive maximum carries the highest severity whose
    threshold its exact ratio reaches, with a ratio in micro-units that is the
    exact one rounded down and at most one whole; full usage and truncated usage
    are critical under the default thresholds. *)
Theorem disposition_exact def plan ts c m :
  resolve_maximum plan def = Some m -> 0 <= c -> 0 <= m ->
  ((exists v, evaluate def c plan ts = Reject v) <->
     violates_boundary (boundary def) c m = true /\ enforcement_stage def <> Observe) /\
  (forall ws w, evaluate def c plan ts = AllowWithWarnings ws -> w ∈ ws ->
     (exists t, t ∈ ts /\ reaches_threshold c m (basis_points t) = true /\
        threshold_severity t = w_severity w) /\
     (forall t, t ∈ ts -> reaches_threshold c m (basis_points t) = true ->
        severity_rank (threshold_severity t) <= severity_rank (w_severity w)) /\
     (0 < m -> c <= m ->
        w_ratio_micros w * m <= c * 1000000 < (w_ratio_micros w + 1) * m /\
        w_ratio_micros w <= 1000000)) /\
  (0 < c -> violates_boundary (boundary def) c m = false -> m <= c ->
     exists w, evaluate def c plan DEFAULT_THRESHOLDS = AllowWithWarnings [w] /\
       w_severity w = Critical).
Proof.
  intros Hm Hc Hm0. unfold evaluate. rewrite Hm. split_and!.
  - destruct (violates_boundary (boundary def) c m); [case_bool_decide as Hs|].
    + split; [by intros [? ?]|by intros [_ ?]].
    + split; [done|by eexists].
    + destruct (classify_severity c m ts); (split; [by intros [? ?]|by intros [? _]]).
  - intros ws w. destruct (violates_boundary _ _ _); [by case_bool_decide|].
    destruct (classify_severity c m ts) as [s|] eqn:Es; [|done]. intros [= <-].
    rewrite list_elem_of_singleton. intros ->. cbn [w_severity w_ratio_micros].
    split_and!; [by apply classify_reached|by intros t; apply classify_max|].
    intros Hpos Hle. assert (Hr : c * 1000000 / m <= 1000000) by (apply Z.div_le_upper_bound; lia).
    pose proof (ratio_micros_spec c m Hc Hpos ltac:(int_lia)). split; [done|]. nia.
  - intros Hpos -> Hle. destruct (classify_severity c m DEFAULT_THRESHOLDS) as [s|] eqn:Es.
    + eexists. split; [done|]. cbn. rewrite classify_full in Es by done. by injection Es.
    + by rewrite classify_full in Es.
Qed.

Lemma disposition_exact_witness :
  (exists v, evaluate sample_limit 201 sample_profile DEFAULT_THRESHOLDS = Reject v) /\
  exists w, evaluate sample_limit 200 sample_profile DEFAULT_THRESHOLDS = AllowWithWarnings [w] /\
    w_severity w = Critical.
Proof.
  split.
  - apply (disposition_exact sample_limit sample_profile DEFAULT_THRESHOLDS 201 200);
      [vm_compute; reflexivity|lia|lia|]. split; [vm_compute; reflexivity|discriminate].
  - apply (disposition_exact sample_limit sample_profile DEFAULT_THRESHOLDS 200 200);
      [vm_compute; reflexivity|lia|lia|lia|vm_compute; reflexivity|lia].
Defined.
