(* ===== verification/Codec.v ===== *)
(** * Wire codecs

    Models [crates/fireemu-core-types/src/codec.rs]: percent and hexadecimal
    decoding, JSON string escapes and the echo of client text.  A [&str] is its
    bytes; every character the code tests is ASCII, and [json_escape_into] pushes
    any other character whole, so that working byte by byte is the same.
    [percent_decode] itself only passes [percent_decode_bytes] through
    [String::from_utf8_lossy], which is not modelled. *)
From S2P Require Import Prelude.

Inductive PlusMode := Space | Literal.

#[global] Instance PlusMode_eq_dec : EqDecision PlusMode.
Proof. solve_decision. Defined.

Inductive JsonControlEscape := Short | Unicode.

#[global] Instance JsonControlEscape_eq_dec : EqDecision JsonControlEscape.
Proof. solve_decision. Defined.

(** ** JSON strings *)

(** A digit of the [{:04x}] format. *)
Definition hex_digit (n : Z) : Z := if n <? 10 then ch "0" + n else ch "a" + (n - 10).

Definition hex4 (n : Z) : list Z :=
  [hex_digit (n / 4096 mod 16); hex_digit (n / 256 mod 16); hex_digit (n / 16 mod 16); hex_digit (n mod 16)].

(** The arms of the match, in order. *)
Definition json_escape_byte (control : JsonControlEscape) (b : Z) : list Z :=
  if b =? 0x22 then [0x5C; 0x22]
  else if b =? 0x5C then [0x5C; 0x5C]
  else if b =? 0x0A then [0x5C; ch "n"]
  else if b =? 0x0D then [0x5C; ch "r"]
  else if b =? 0x09 then [0x5C; ch "t"]
  else if (b =? 0x08) && bool_decide (control = Short) then [0x5C; ch "b"]
  else if (b =? 0x0C) && bool_decide (control = Short) then [0x5C; ch "f"]
  else if b <? 0x20 then [0x5C; ch "u"] ++ hex4 b
  else [b].

Definition json_escape_into (output text : list Z) (control : JsonControlEscape) : list Z :=
  fold_left (fun output b => output ++ json_escape_byte control b) text output.

Definition write_json_string (output text : list Z) (control : JsonControlEscape) : list Z :=
  json_escape_into (output ++ [0x22]) text control ++ [0x22].

(** ** Hexadecimal and percent decoding *)

Definition hex_nibble (byte : Z) : option Z :=
  if (ch "0" <=? byte) && (byte <=? ch "9") then Some (byte - ch "0")
  else if (ch "a" <=? byte) && (byte <=? ch "f") then Some (byte - ch "a" + 10)
  else if (ch "A" <=? byte) && (byte <=? ch "F") then Some (byte - ch "A" + 10)
  else None.

(** [(high << 4) | low] on bytes. *)
Definition join_nibbles (high low : Z) : Z := Z.lor (wrapping u8 (Z.shiftl high 4)) low.

(** [chunks_exact(2)] mapped and collected. *)
Fixpoint hex_pairs (bytes : list Z) : option (list Z) :=
  match bytes with
  | h :: l :: bytes =>
      match hex_nibble h, hex_nibble l with
      | Some high, Some low => cons (join_nibbles high low) <$> hex_pairs bytes
      | _, _ => None
      end
  | _ => Some []
  end.

Definition hex_decode (value : list Z) : option (list Z) :=
  if Nat.even (length value) then hex_pairs value else None.

Definition plain_byte (plus : PlusMode) (b : Z) : Z :=
  if (b =? ch "+") && bool_decide (plus = Space) then ch " " else b.

(** The loop, on the bytes from [index]: an escape needs two more bytes. *)
Fixpoint percent_decode_bytes (value : list Z) (plus : PlusMode) : list Z :=
  match value with
  | [] => []
  | b :: rest =>
      match rest with
      | h :: l :: rest' =>
          if b =? ch "%" then
            match hex_nibble h, hex_nibble l with
            | Some high, Some low => join_nibbles high low :: percent_decode_bytes rest' plus
            | _, _ => plain_byte plus b :: percent_decode_bytes rest plus
            end
          else plain_byte plus b :: percent_decode_bytes rest plus
      | _ => plain_byte plus b :: percent_decode_bytes rest plus
      end
  end.

Fixpoint percent_escapes_are_well_formed (value : list Z) : bool :=
  match value with
  | [] => true
  | b :: rest =>
      if b =? ch "%" then
        match rest with
        | h :: l :: rest' =>
            match hex_nibble h, hex_nibble l with
            | Some _, Some _ => percent_escapes_are_well_formed rest'
            | _, _ => false
            end
        | _ => false
        end
      else percent_escapes_are_well_formed rest
  end.

(** ** Echoed text *)

Definition MAX_ECHO_BYTES : nat := 1024.

Definition is_char_boundary (text : list Z) (i : nat) : bool :=
  match i with
  | O => true
  | _ => match text !! i with
         | None => (i =? length text)%nat
         | Some b => negb ((0x80 <=? b) && (b <? 0xC0))
         end
  end.

(** [while !text.is_char_boundary(end) { end -= 1 }] *)
Fixpoint echo_end (text : list Z) (last : nat) : nat :=
  match last with
  | O => O
  | S prev => if is_char_boundary text last then last else echo_end text prev
  end.

Definition echo (text : list Z) : list Z :=
  if (length text <=? MAX_ECHO_BYTES)%nat then text
  else take (echo_end text MAX_ECHO_BYTES) text ++ bytes_of "...".

Example json_ex :
  string_of (write_json_string [] [97; 1; 8; 12; 0x22; 0x5C; 10] Short) =
  string_of ([0x22; 97] ++ bytes_of "\u0001\b\f\" ++ [0x22] ++ bytes_of "\\\n" ++ [0x22]).
Proof. vm_compute. reflexivity. Qed.

Example percent_ex : percent_decode_bytes (bytes_of "a%20b+c%+f%2G%") Space = bytes_of "a b c%" ++ bytes_of " f%2G%".
Proof. vm_compute. reflexivity. Qed.

(** ** What an escape is *)

Inductive PercentToken := PlainByte (b : Z) | EscapedByte (h l : Z).

Definition token_ok (t : PercentToken) : Prop :=
  match t with
  | PlainByte b => b <> ch "%"
  | EscapedByte h l => is_Some (hex_nibble h) /\ is_Some (hex_nibble l)
  end.

Definition token_text (t : PercentToken) : list Z :=
  match t with PlainByte b => [b] | EscapedByte h l => [ch "%"; h; l] end.

Definition hex_value (h l : Z) : Z := default 0 (hex_nibble h) * 16 + default 0 (hex_nibble l).

Definition token_value (plus : PlusMode) (t : PercentToken) : Z :=
  match t with PlainByte b => plain_byte plus b | EscapedByte h l => hex_value h l end.

Definition percent_text (ts : list PercentToken) : list Z := concat (map token_text ts).

(** The two ASCII digits of a byte, in lower case. *)
Definition byte_digits (b : Z) : Z * Z := (hex_digit (b / 16), hex_digit (b mod 16)).

Lemma hex_nibble_range b n : hex_nibble b = Some n -> 0 <= n < 16.
Proof. unfold hex_nibble, ch. cbn -[Z.add Z.sub]. repeat case_match; intros [= <-]; lia. Qed.

Lemma hex_digit_nibble n : 0 <= n < 16 -> hex_nibble (hex_digit n) = Some n.
Proof.
  intros Hn. unfold hex_digit, hex_nibble, ch. cbn -[Z.add Z.sub].
  destruct (Z.ltb_spec n 10); repeat case_match; try lia; f_equal; lia.
Qed.

Lemma join_nibbles_eq high low : 0 <= high < 16 -> 0 <= low < 16 -> join_nibbles high low = high * 16 + low.
Proof.
  intros Hh Hl. unfold join_nibbles. rewrite wrapping_id by (rewrite Z.shiftl_mul_pow2 by lia; int_lia).
  rewrite Z.shiftl_mul_pow2 by lia. pose proof (Z.add_lor_land (high * 2 ^ 4) low) as Hadd.
  cut (Z.land (high * 2 ^ 4) low = 0); [lia|]. apply Z.bits_inj'. intros n Hn.
  rewrite Z.land_spec, Z.bits_0. destruct (Z.ltb_spec n 4).
  - by rewrite Z.mul_pow2_bits_low.
  - rewrite (proj1 (below_pow2_bits 4 low ltac:(lia) ltac:(lia)) ltac:(lia)) by lia. apply andb_false_r.
Qed.

Lemma join_hex_value h l high low :
  hex_nibble h = Some high -> hex_nibble l = Some low -> join_nibbles high low = hex_value h l.
Proof.
  intros Hh Hl. unfold hex_value. rewrite Hh, Hl. cbn.
  apply join_nibbles_eq; by eapply hex_nibble_range.
Qed.

Lemma byte_digits_spec b : 0 <= b < 256 ->
  token_ok (EscapedByte (byte_digits b).1 (byte_digits b).2) /\ hex_value (byte_digits b).1 (byte_digits b).2 = b.
Proof.
  intros Hb. unfold hex_value. cbn. rewrite !hex_digit_nibble by (Z.div_mod_to_equations; lia).
  cbn. split; [eauto|]. Z.div_mod_to_equations; lia.
Qed.

Lemma decode_escape h l s plus :
  token_ok (EscapedByte h l) ->
  percent_decode_bytes (ch "%" :: h :: l :: s) plus = hex_value h l :: percent_decode_bytes s plus.
Proof.
  intros [[high Hh] [low Hl]]. cbn [percent_decode_bytes]. rewrite Z.eqb_refl, Hh, Hl.
  by rewrite (join_hex_value _ _ _ _ Hh Hl).
Qed.

(** Where no escape starts, one byte is kept. *)
Definition escape_at (s : list Z) : Prop :=
  exists h l rest, s = ch "%" :: h :: l :: rest /\ token_ok (EscapedByte h l).

Lemma decode_plain b s plus :
  ~ escape_at (b :: s) -> percent_decode_bytes (b :: s) plus = plain_byte plus b :: percent_decode_bytes s plus.
Proof.
  intros Hn. destruct s as [|h [|l s]]; [done|done|]. cbn [percent_decode_bytes].
  destruct (Z.eqb_spec b (ch "%")) as [->|]; [|done].
  destruct (hex_nibble h) eqn:Hh; [|done]. destruct (hex_nibble l) eqn:Hl; [|done].
  destruct Hn. exists h, l, s. split; [done|]. split; eauto.
Qed.

Lemma well_formed_tokens (n : nat) : forall s, (length s <= n)%nat ->
  percent_escapes_are_well_formed s = true <-> exists ts, Forall token_ok ts /\ s = percent_text ts.
Proof.
  induction n as [|n IH]; intros s Hn.
  { destruct s; [|cbn in Hn; lia]. split; [|done]. intros _. exists []. by split. }
  destruct s as [|b s]; [split; [|done]; intros _; exists []; by split|]. cbn in Hn.
  cbn [percent_escapes_are_well_formed]. destruct (Z.eqb_spec b (ch "%")) as [->|Hb].
  - split.
    + destruct s as [|h [|l s]]; [done|done|]. destruct (hex_nibble h) eqn:Hh; [|done].
      destruct (hex_nibble l) eqn:Hl; [|done]. intros (ts & Hok & ->)%IH; [|cbn in Hn; lia].
      exists (EscapedByte h l :: ts). split; [|done]. constructor; [split; eauto|done].
    + intros (ts & Hok & Heq). destruct ts as [|[b|h l] ts]; [done| |];
        unfold percent_text in Heq; cbn [map concat token_text app] in Heq.
      * injection Heq as Hb _. inversion_clear Hok as [|? ? Hp _]. by destruct Hp.
      * injection Heq as ->. inversion_clear Hok as [|? ? Ht Hok']. destruct Ht as [[? Hh] [? Hl]].
        rewrite Hh, Hl. apply IH; [cbn in Hn; lia|]. by exists ts.
  - rewrite IH by lia. split.
    + intros (ts & Hok & ->). exists (PlainByte b :: ts). split; [by constructor|done].
    + intros (ts & Hok & Heq). destruct ts as [|[b'|h l] ts]; [done| |];
        unfold percent_text in Heq; cbn [map concat token_text app] in Heq.
      * injection Heq as -> ->. inversion_clear Hok. by exists ts.
      * by injection Heq as ? _.
Qed.

Lemma decode_tokens ts plus : Forall token_ok ts -> percent_decode_bytes (percent_text ts) plus = map (token_value plus) ts.
Proof.
  unfold percent_text. induction 1 as [|[b|h l] ts Hok Hall IH]; [done|..]; cbn [map concat token_text app].
  - rewrite decode_plain, IH; [done|]. intros (h & l & rest & Heq & _). by simplify_eq.
  - by rewrite decode_escape, IH.
Qed.

Lemma decode_kept s : (forall i, ~ escape_at (drop i s)) -> percent_decode_bytes s Literal = s.
Proof.
  induction s as [|b s IH]; intros Hno; [done|]. rewrite decode_plain by exact (Hno 0%nat).
  rewrite IH by (intros i; exact (Hno (S i))). f_equal. unfold plain_byte. rewrite bool_decide_false by done.
  by rewrite andb_false_r.
Qed.

(** Percent decoding and the strict check agree on what an escape is: the
    check accepts exactly the texts made of plain bytes other than the percent
    sign and of escapes of two hexadecimal digits of either case; on such a text
    the decoder replaces each escape by the byte it spells and keeps (or, for a
    form, maps from plus to space) the others; every text of bytes has an
    encoding that decodes to it; and a text in which no escape starts anywhere is
    kept byte for byte. *)
Theorem percent_decoding_exact :
  (forall s, percent_escapes_are_well_formed s = true <-> exists ts, Forall token_ok ts /\ s = percent_text ts) /\
  (forall ts plus, Forall token_ok ts -> percent_decode_bytes (percent_text ts) plus = map (token_value plus) ts) /\
  (forall bs plus, Forall (fun b => 0 <= b < 256) bs ->
     let ts := map (fun b => EscapedByte (byte_digits b).1 (byte_digits b).2) bs in
     Forall token_ok ts /\ percent_decode_bytes (percent_text ts) plus = bs) /\
  (forall s, (forall i, ~ escape_at (drop i s)) -> percent_decode_bytes s Literal = s).
Proof.
  split_and!; [intros s; by apply (well_formed_tokens (length s))|by intros; apply decode_tokens| |apply decode_kept].
  intros bs plus Hbs. cbv zeta.
  assert (Hok : Forall token_ok (map (fun b => EscapedByte (byte_digits b).1 (byte_digits b).2) bs)).
  { apply Forall_map. eapply Forall_impl; [exact Hbs|]. intros b Hb. by apply byte_digits_spec. }
  split; [done|]. rewrite decode_tokens by done. rewrite map_map. cbn [token_value].
  rewrite <- (map_id bs) at 2. apply map_ext_in. intros b Hb%list_elem_of_In.
  apply byte_digits_spec. by rewrite Forall_forall in Hbs; apply Hbs.
Qed.

(** [hex_decode] accepts exactly the pairs of hexadecimal digits. *)
Lemma hex_pairs_spec (n : nat) : forall s bs, (length s <= n)%nat -> Nat.even (length s) = true ->
  hex_pairs s = Some bs <->
    exists ps : list (Z * Z), s = concat (map (fun p => [p.1; p.2]) ps) /\
      Forall (fun p => token_ok (EscapedByte p.1 p.2)) ps /\ bs = map (fun p => hex_value p.1 p.2) ps.
Proof.
  induction n as [|n IH]; intros s bs Hn Heven.
  { destruct s; [|cbn in Hn; lia]. split; [intros [= <-]; by exists []|].
    intros (ps & Hs & _ & ->). by destruct ps. }
  destruct s as [|h [|l s]]; [|done|].
  { split; [intros [= <-]; by exists []|]. intros (ps & Hs & _ & ->). by destruct ps. }
  cbn in Hn, Heven. cbn [hex_pairs]. split.
  - destruct (hex_nibble h) eqn:Hh; [|done]. destruct (hex_nibble l) eqn:Hl; [|done].
    intros (bs' & (ps & -> & Hok & ->)%IH & ->)%fmap_Some; [|lia|done].
    exists ((h, l) :: ps). split_and!; [done|constructor; [split; eauto|done]|].
    cbn. f_equal. by apply join_hex_value.
  - intros (ps & Hs & Hok & ->). destruct ps as [|[h' l'] ps]; [done|]. cbn in Hs. injection Hs as -> -> ->.
    inversion_clear Hok as [|? ? Ht Hok']. destruct Ht as [[? Hh] [? Hl]]. cbn in Hh, Hl. rewrite Hh, Hl.
    apply fmap_Some. exists (map (fun p => hex_value p.1 p.2) ps).
    split; [apply IH; [lia|done|by exists ps]|]. cbn. f_equal. symmetry. by apply join_hex_value.
Qed.

(** Echoed text is the text, or its longest prefix of at most [MAX_ECHO_BYTES]
    bytes that ends at a character boundary, with an ellipsis. *)
Lemma echo_end_spec text last :
  (echo_end text last <= last)%nat /\ is_char_boundary text (echo_end text last) = true /\
  forall k, (k <= last)%nat -> is_char_boundary text k = true -> (k <= echo_end text last)%nat.
Proof.
  induction last as [|last (IH1 & IH2 & IH3)]; [cbn; split_and!; [lia|done|lia]|]. cbn [echo_end].
  destruct (is_char_boundary text (S last)) eqn:Hb; [split_and!; [lia|done|lia]|].
  split_and!; [lia|done|]. intros k Hk Hbk. destruct (decide (k = S last)) as [->|]; [congruence|].
  apply IH3; [lia|done].
Qed.
