(* ===== verification/Hash.v ===== *)
(** * Digests and byte encodings

    Models [crates/fireemu-core-types/src/hash.rs]: CRC32C by slices of eight bytes, the incremental
    MD5 and SHA-256 digests, base64 and hexadecimal text.  A [u32] is a [Z]; a slice is the list of
    its bytes.  Properties: the sliced CRC is the bit by bit one, a digest does not depend on how its
    input was cut, and the encodings are exact. *)
From S2P Require Import Prelude Codec.

(** ** Slices *)

(** [l.chunks_exact(n)] and its [remainder()]. *)
Definition blocks {A} (n : nat) (l : list A) : list (list A) := map (fun i => take n (drop (i * n) l)) (seq 0 (length l / n)).
Definition remainder {A} (n : nat) (l : list A) : list A := drop (length l / n * n) l.

(** [u64::from_le_bytes], [u32::from_be_bytes] and the like. *)
Definition from_le_bytes (l : list Z) : Z := foldr (fun b n => Z.lor b (Z.shiftl n 8)) 0 l.
Definition from_be_bytes (l : list Z) : Z := from_le_bytes (reverse l).
Fixpoint to_le_bytes (k : nat) (n : Z) : list Z := match k with O => [] | S k => Z.land n 0xff :: to_le_bytes k (Z.shiftr n 8) end.
Definition to_be_bytes (k : nat) (n : Z) : list Z := reverse (to_le_bytes k n).

Definition at_ (l : list Z) (i : Z) : Z := nth (Z.to_nat i) l 0.

(** ** CRC32C *)

Definition POLYNOMIAL : Z := 0x82f63b78.

(** One turn of the loop over the bits. *)
Definition crc_bit (v : Z) : Z := if Z.land v 1 =? 1 then Z.lxor (Z.shiftr v 1) POLYNOMIAL else Z.shiftr v 1.

Definition byte_table : list Z := map (fun i => Nat.iter 8 crc_bit (Z.of_nat i)) (seq 0 256).
Definition next_table (previous : list Z) : list Z := map (fun p => Z.lxor (Z.shiftr p 8) (at_ byte_table (Z.land p 0xff))) previous.
Definition CRC32C_TABLES : list (list Z) := map (fun table => Nat.iter table next_table byte_table) (seq 0 8).
Definition crc_table (table : nat) (i : Z) : Z := at_ (nth table CRC32C_TABLES []) i.

Definition crc_new : Z := int_max u32.

Definition crc_chunk (state : Z) (chunk : list Z) : Z :=
  let value := Z.lxor (from_le_bytes chunk) state in
  let byte k := Z.land (Z.shiftr value k) 0xff in
  foldr Z.lxor (crc_table 0 (Z.shiftr value 56))
    [crc_table 7 (Z.land value 0xff); crc_table 6 (byte 8); crc_table 5 (byte 16); crc_table 4 (byte 24); crc_table 3 (byte 32); crc_table 2 (byte 40); crc_table 1 (byte 48)].

Definition crc_byte (state byte : Z) : Z := Z.lxor (Z.shiftr state 8) (crc_table 0 (Z.land (Z.lxor state byte) 0xff)).

Definition crc_update (state : Z) (bytes : list Z) : Z := fold_left crc_byte (remainder 8 bytes) (fold_left crc_chunk (blocks 8 bytes) state).

(** [!state] on 32 bits. *)
Definition not32 (v : Z) : Z := Z.lxor v (int_max u32).
Definition crc_finalize (state : Z) : Z := not32 state.
Definition crc32c (bytes : list Z) : Z := crc_finalize (crc_update crc_new bytes).

(** ** Block digests *)

Definition wrap32 (v : Z) : Z := Z.land v (int_max u32).
Definition add32 (a b : Z) : Z := wrap32 (a + b).
Definition rotate_left (v k : Z) : Z := Z.lor (wrap32 (Z.shiftl v k)) (Z.shiftr v (32 - k)).
Definition rotate_right (v k : Z) : Z := rotate_left v (32 - k).

(** [Md5] and [Sha256], which differ in their compression and the order of their bytes. *)
Record Digest := { state : list Z; tail : list Z; tail_len : nat; byte_len : Z }.

Definition digest_new (init : list Z) : Digest := {| state := init; tail := replicate 64 0; tail_len := 0; byte_len := 0 |}.

(** [l[i..i + src.len()].copy_from_slice(src)] *)
Definition copy_at (l : list Z) (i : nat) (src : list Z) : list Z := take i l ++ src ++ drop (i + length src) l.

Section digest.
Context (compress : list Z -> list Z -> list Z) (init : list Z) (length_bytes : Z -> list Z) (word_bytes : Z -> list Z).

(** The whole blocks of the bytes, and what is left. *)
Definition absorb (d : Digest) (bytes : list Z) : Digest :=
  {| state := fold_left compress (blocks 64 bytes) (state d); tail := copy_at (tail d) 0 (remainder 64 bytes); tail_len := length (remainder 64 bytes);
     byte_len := byte_len d |}.

Definition update (d : Digest) (bytes : list Z) : Digest :=
  let d := {| state := state d; tail := tail d; tail_len := tail_len d; byte_len := wrapping u64 (byte_len d + Z.of_nat (length bytes)) |} in
  if (tail_len d =? 0)%nat then absorb d bytes
  else
    let n := Nat.min (64 - tail_len d) (length bytes) in
    let tail := copy_at (tail d) (tail_len d) (take n bytes) in
    if (tail_len d + n <? 64)%nat then {| state := state d; tail := tail; tail_len := (tail_len d + n)%nat; byte_len := byte_len d |}
    else absorb {| state := compress (state d) tail; tail := tail; tail_len := 0; byte_len := byte_len d |} (drop n bytes).

Definition finalize (d : Digest) : list Z :=
  let final_blocks := copy_at (copy_at (replicate 128 0) 0 (take (tail_len d) (tail d))) (tail_len d) [0x80] in
  let final_len := if (tail_len d <? 56)%nat then 64%nat else 128%nat in
  let final_blocks := copy_at final_blocks (final_len - 8) (length_bytes (wrapping u64 (byte_len d * 8))) in
  concat (map word_bytes (fold_left compress (blocks 64 (take final_len final_blocks)) (state d))).

End digest.

(** ** MD5 *)

Definition MD5_SHIFT : list Z := concat (replicate 4 [7; 12; 17; 22] ++ replicate 4 [5; 9; 14; 20] ++ replicate 4 [4; 11; 16; 23] ++ replicate 4 [6; 10; 15; 21]).

Definition MD5_CONSTANT : list Z :=
  [0xd76aa478; 0xe8c7b756; 0x242070db; 0xc1bdceee; 0xf57c0faf; 0x4787c62a; 0xa8304613; 0xfd469501;
   0x698098d8; 0x8b44f7af; 0xffff5bb1; 0x895cd7be; 0x6b901122; 0xfd987193; 0xa679438e; 0x49b40821;
   0xf61e2562; 0xc040b340; 0x265e5a51; 0xe9b6c7aa; 0xd62f105d; 0x02441453; 0xd8a1e681; 0xe7d3fbc8;
   0x21e1cde6; 0xc33707d6; 0xf4d50d87; 0x455a14ed; 0xa9e3e905; 0xfcefa3f8; 0x676f02d9; 0x8d2a4c8a;
   0xfffa3942; 0x8771f681; 0x6d9d6122; 0xfde5380c; 0xa4beea44; 0x4bdecfa9; 0xf6bb4b60; 0xbebfbc70;
   0x289b7ec6; 0xeaa127fa; 0xd4ef3085; 0x04881d05; 0xd9d4d039; 0xe6db99e5; 0x1fa27cf8; 0xc4ac5665;
   0xf4292244; 0x432aff97; 0xab9423a7; 0xfc93a039; 0x655b59c3; 0x8f0ccc92; 0xffeff47d; 0x85845dd1;
   0x6fa87e4f; 0xfe2ce6e0; 0xa3014314; 0x4e0811a1; 0xf7537e82; 0xbd3af235; 0x2ad7d2bb; 0xeb86d391].

Definition md5_round (words : list Z) (st : Z * Z * Z * Z) (i : Z) : Z * Z * Z * Z :=
  let '(a, b, c, d) := st in
  let '(function, word) :=
    if i <? 16 then (Z.lor (Z.land b c) (Z.land (not32 b) d), i)
    else if i <? 32 then (Z.lor (Z.land d b) (Z.land (not32 d) c), Z.land (5 * i + 1) 15)
    else if i <? 48 then (Z.lxor (Z.lxor b c) d, Z.land (3 * i + 5) 15)
    else (Z.lxor c (Z.lor b (not32 d)), Z.land (7 * i) 15) in
  let rotated := rotate_left (add32 (add32 (add32 function a) (at_ MD5_CONSTANT i)) (at_ words word)) (at_ MD5_SHIFT i) in
  (d, add32 b rotated, b, c).

Definition md5_compress (st : list Z) (block : list Z) : list Z :=
  let words := map from_le_bytes (blocks 4 block) in
  let '(a, b, c, d) := fold_left (md5_round words) (map Z.of_nat (seq 0 64)) (at_ st 0, at_ st 1, at_ st 2, at_ st 3) in
  [add32 (at_ st 0) a; add32 (at_ st 1) b; add32 (at_ st 2) c; add32 (at_ st 3) d].

Definition md5_init : list Z := [0x67452301; 0xefcdab89; 0x98badcfe; 0x10325476].
Definition md5_new : Digest := digest_new md5_init.
Definition md5_update : Digest -> list Z -> Digest := update md5_compress.
Definition md5_finalize : Digest -> list Z := finalize md5_compress (to_le_bytes 8) (to_le_bytes 4).
Definition md5 (bytes : list Z) : list Z := md5_finalize (md5_update md5_new bytes).

(** ** SHA-256 *)

(** The table of the source, eight words to a literal, the first one the most significant. *)
Definition SHA256_CONSTANTS : list Z :=
  Eval vm_compute in flat_map (fun row => map (fun i => Z.land (Z.shiftr row (32 * i)) 0xffffffff) [7; 6; 5; 4; 3; 2; 1; 0])
    [0x428a2f9871374491b5c0fbcfe9b5dba53956c25b59f111f1923f82a4ab1c5ed5;
     0xd807aa9812835b01243185be550c7dc372be5d7480deb1fe9bdc06a7c19bf174;
     0xe49b69c1efbe47860fc19dc6240ca1cc2de92c6f4a7484aa5cb0a9dc76f988da;
     0x983e5152a831c66db00327c8bf597fc7c6e00bf3d5a7914706ca635114292967;
     0x27b70a852e1b21384d2c6dfc53380d13650a7354766a0abb81c2c92e92722c85;
     0xa2bfe8a1a81a664bc24b8b70c76c51a3d192e819d6990624f40e3585106aa070;
     0x19a4c1161e376c082748774c34b0bcb5391c0cb34ed8aa4a5b9cca4f682e6ff3;
     0x748f82ee78a5636f84c878148cc7020890befffaa4506cebbef9a3f7c67178f2].

Definition sha256_word (words : list Z) (i : Z) : list Z :=
  let w15 := at_ words (i - 15) in
  let w2 := at_ words (i - 2) in
  let s0 := Z.lxor (Z.lxor (rotate_right w15 7) (rotate_right w15 18)) (Z.shiftr w15 3) in
  let s1 := Z.lxor (Z.lxor (rotate_right w2 17) (rotate_right w2 19)) (Z.shiftr w2 10) in
  words ++ [add32 (add32 (add32 (at_ words (i - 16)) s0) (at_ words (i - 7))) s1].

Definition sha256_round (words : list Z) (st : list Z) (i : Z) : list Z :=
  match st with
  | [a; b; c; d; e; f; g; h] =>
      let sum1 := Z.lxor (Z.lxor (rotate_right e 6) (rotate_right e 11)) (rotate_right e 25) in
      let choice := Z.lxor (Z.land e f) (Z.land (not32 e) g) in
      let first := add32 (add32 (add32 (add32 h sum1) choice) (at_ SHA256_CONSTANTS i)) (at_ words i) in
      let sum0 := Z.lxor (Z.lxor (rotate_right a 2) (rotate_right a 13)) (rotate_right a 22) in
      let majority := Z.lxor (Z.lxor (Z.land a b) (Z.land a c)) (Z.land b c) in
      let second := add32 sum0 majority in
      [add32 first second; a; b; c; add32 d first; e; f; g]
  | _ => st
  end.

Definition sha256_compress (st : list Z) (block : list Z) : list Z :=
  let words := fold_left sha256_word (map Z.of_nat (seq 16 48)) (map from_be_bytes (blocks 4 block)) in
  zip_with add32 st (fold_left (sha256_round words) (map Z.of_nat (seq 0 64)) st).

Definition sha256_init : list Z := [0x6a09e667; 0xbb67ae85; 0x3c6ef372; 0xa54ff53a; 0x510e527f; 0x9b05688c; 0x1f83d9ab; 0x5be0cd19].
Definition sha256_new : Digest := digest_new sha256_init.
Definition sha256_update : Digest -> list Z -> Digest := update sha256_compress.
Definition sha256_finalize : Digest -> list Z := finalize sha256_compress (to_be_bytes 8) (to_be_bytes 4).
Definition sha256 (bytes : list Z) : list Z := sha256_finalize (sha256_update sha256_new bytes).

(** ** Base64 and hexadecimal *)

Definition small_chunk (alphabet : list Z) (chunk : list Z) : list Z :=
  let first := at_ chunk 0 in
  let second := at_ chunk 1 in
  let third := at_ chunk 2 in
  [at_ alphabet (Z.shiftr first 2); at_ alphabet (Z.lor (Z.shiftl (Z.land first 3) 4) (Z.shiftr second 4));
   if (1 <? length chunk)%nat then at_ alphabet (Z.lor (Z.shiftl (Z.land second 15) 2) (Z.shiftr third 6)) else ch "=";
   if (2 <? length chunk)%nat then at_ alphabet (Z.land third 63) else ch "="].

(** [bytes.chunks(3)]: the last one may be short. *)
Definition chunks (n : nat) (l : list Z) : list (list Z) := blocks n l ++ (if bool_decide (remainder n l = []) then [] else [remainder n l]).

Definition base64_small (bytes alphabet : list Z) : list Z := flat_map (small_chunk alphabet) (chunks 3 bytes).

Definition full_chunk (alphabet : list Z) (chunk : list Z) : list Z :=
  let first := at_ chunk 0 in
  let second := at_ chunk 1 in
  let third := at_ chunk 2 in
  [at_ alphabet (Z.shiftr first 2); at_ alphabet (Z.lor (Z.shiftl (Z.land first 3) 4) (Z.shiftr second 4));
   at_ alphabet (Z.lor (Z.shiftl (Z.land second 15) 2) (Z.shiftr third 6)); at_ alphabet (Z.land third 63)].

Definition last_chunk (alphabet : list Z) (chunk : list Z) : list Z :=
  let second := at_ chunk 1 in
  [at_ alphabet (Z.shiftr (at_ chunk 0) 2); at_ alphabet (Z.lor (Z.shiftl (Z.land (at_ chunk 0) 3) 4) (Z.shiftr second 4));
   if (length chunk =? 2)%nat then at_ alphabet (Z.shiftl (Z.land second 15) 2) else ch "="; ch "="].

Definition base64_with_alphabet (data alphabet : list Z) : list Z :=
  if (length data <? 24)%nat then base64_small data alphabet
  else
    let output := flat_map (full_chunk alphabet) (blocks 3 data) in
    let chunk := remainder 3 data in
    if bool_decide (chunk = []) then output else output ++ last_chunk alphabet chunk.

Definition STANDARD : list Z := bytes_of "ABCDEFGHIJKLMNOPQRSTUVWXYZabcdefghijklmnopqrstuvwxyz0123456789+/".
Definition URL_SAFE : list Z := bytes_of "ABCDEFGHIJKLMNOPQRSTUVWXYZabcdefghijklmnopqrstuvwxyz0123456789-_".
Definition base64_standard (data : list Z) : list Z := base64_with_alphabet data STANDARD.
Definition base64_url_safe (data : list Z) : list Z := base64_with_alphabet data URL_SAFE.

Definition hex_with_alphabet (data alphabet : list Z) : list Z := flat_map (fun byte => [at_ alphabet (Z.shiftr byte 4); at_ alphabet (Z.land byte 0x0f)]) data.
Definition hex_lower (data : list Z) : list Z := hex_with_alphabet data (bytes_of "0123456789abcdef").
Definition hex_upper (data : list Z) : list Z := hex_with_alphabet data (bytes_of "0123456789ABCDEF").

Example hash_ex :
  crc32c (bytes_of "123456789") = 0xe3069283 /\
  string_of (hex_lower (md5 (bytes_of "abc"))) = "900150983cd24fb0d6963f7d28e17f72"%string /\
  string_of (hex_lower (sha256 (bytes_of "abc"))) = "ba7816bf8f01cfea414140de5dae2223b00361a396177a9cb410ff61f20015ad"%string /\
  string_of (base64_standard (bytes_of "light work")) = "bGlnaHQgd29yaw=="%string /\
  string_of (base64_standard (bytes_of "a text of twenty-five byte")) = "YSB0ZXh0IG9mIHR3ZW50eS1maXZlIGJ5dGU="%string.
Proof. vm_compute. split_and!; reflexivity. Qed.

(** ** Slices and their blocks *)

Section blocks.
Context {A : Type} (n : nat) (n_pos : (0 < n)%nat).
Implicit Types l m b : list A.

Lemma blocks_short l : (length l < n)%nat -> blocks n l = [] /\ remainder n l = l.
Proof using n_pos. intros Hl. unfold blocks, remainder. by rewrite Nat.div_small by done. Qed.

Lemma blocks_cons b l : length b = n -> blocks n (b ++ l) = b :: blocks n l /\ remainder n (b ++ l) = remainder n l.
Proof using n_pos.
  intros Hb. unfold blocks, remainder. rewrite length_app, Hb.
  assert (Hdiv : ((n + length l) / n)%nat = S (length l / n)) by (replace (n + length l)%nat with (length l + 1 * n)%nat by lia; rewrite Nat.div_add by lia; lia).
  rewrite Hdiv. split.
  - cbn [seq map]. f_equal; [change (0 * n)%nat with 0%nat; rewrite drop_0; by apply take_app_length'|]. rewrite <- seq_shift, map_map. apply map_ext. intros i. f_equal.
    cbn [Nat.mul]. rewrite <- drop_drop. f_equal. by apply drop_app_length'.
  - cbn [Nat.mul]. rewrite <- drop_drop. f_equal. by apply drop_app_length'.
Qed.

Lemma blocks_ind (P : list A -> Prop) : (forall l, (length l < n)%nat -> P l) -> (forall b l, length b = n -> P l -> P (b ++ l)) -> forall l, P l.
Proof using n_pos.
  intros Hshort Hcons l. remember (length l) as k eqn:Hk. revert l Hk. induction (lt_wf k) as [k _ IH]. intros l ->.
  destruct (Nat.lt_ge_cases (length l) n) as [Hl|Hl]; [by apply Hshort|]. rewrite <- (take_drop n l). apply Hcons; [rewrite length_take; lia|].
  eapply IH; [|reflexivity]. rewrite length_drop. lia.
Qed.

Lemma blocks_resume l m : blocks n (l ++ m) = blocks n l ++ blocks n (remainder n l ++ m) /\ remainder n (l ++ m) = remainder n (remainder n l ++ m).
Proof using n_pos.
  induction l as [l Hl|b l Hb IH] using blocks_ind; [by destruct (blocks_short l Hl) as [-> ->]|].
  rewrite <- app_assoc. destruct (blocks_cons b l Hb) as [-> ->], (blocks_cons b (l ++ m) Hb) as [-> ->], IH as [-> ->]. done.
Qed.

Lemma concat_blocks l : concat (blocks n l) ++ remainder n l = l.
Proof using n_pos.
  induction l as [l Hl|b l Hb IH] using blocks_ind; [by destruct (blocks_short l Hl) as [-> ->]|].
  destruct (blocks_cons b l Hb) as [-> ->]. cbn. by rewrite <- app_assoc, IH.
Qed.

Lemma length_remainder l : length (remainder n l) = (length l mod n)%nat.
Proof using n_pos. unfold remainder. rewrite length_drop. pose proof (Nat.div_mod_eq (length l) n). lia. Qed.

Lemma remainder_short l : (length (remainder n l) < n)%nat.
Proof using n_pos. rewrite length_remainder. by apply Nat.mod_upper_bound; lia. Qed.

Lemma length_block l b : b ∈ blocks n l -> length b = n.
Proof using n_pos.
  induction l as [l Hl|b' l Hb IH] using blocks_ind; [destruct (blocks_short l Hl) as [-> _]; by intros ?%not_elem_of_nil|].
  destruct (blocks_cons b' l Hb) as [-> _]. intros [->|]%elem_of_cons; [done|by apply IH].
Qed.

End blocks.

(** ** The sliced CRC is the bit by bit one *)

Definition is_byte (b : Z) : Prop := 0 <= b < 256.

Lemma crc_bit_lxor a b : crc_bit (Z.lxor a b) = Z.lxor (crc_bit a) (crc_bit b).
Proof.
  unfold crc_bit. assert (Hodd : forall v, (Z.land v 1 =? 1) = Z.odd v).
  { intros v. change 1 with (Z.ones 1). rewrite Z.land_ones by lia. change (2 ^ 1) with 2. rewrite Zmod_odd. by destruct (Z.odd v). }
  rewrite !Hodd, Z.shiftr_lxor, <- !Z.bit0_odd, Z.lxor_spec. destruct (Z.testbit a 0), (Z.testbit b 0); cbn [xorb]; apply Z.bits_inj'; intros i _;
    rewrite !Z.lxor_spec; by destruct (Z.testbit (Z.shiftr a 1) i), (Z.testbit (Z.shiftr b 1) i), (Z.testbit POLYNOMIAL i).
Qed.

Lemma crc_bits_lxor k a b : Nat.iter k crc_bit (Z.lxor a b) = Z.lxor (Nat.iter k crc_bit a) (Nat.iter k crc_bit b).
Proof. induction k as [|k IH]; [done|]. by rewrite !Nat.iter_succ, IH, crc_bit_lxor. Qed.

Lemma crc_bit_shift v : crc_bit (Z.shiftl v 1) = v.
Proof.
  unfold crc_bit. replace (Z.land (Z.shiftl v 1) 1) with 0; [cbn; rewrite Z.shiftr_shiftl_l by lia; apply Z.shiftl_0_r|].
  change 1 with (Z.ones 1) at 2. rewrite Z.land_ones, Z.shiftl_mul_pow2 by lia. by rewrite Z_mod_mult.
Qed.

Lemma crc_bits_shift k v : Nat.iter k crc_bit (Z.shiftl v (Z.of_nat k)) = v.
Proof.
  revert v. induction k as [|k IH]; intros v; [apply Z.shiftl_0_r|]. rewrite Nat.iter_succ_r.
  replace (Z.shiftl v (Z.of_nat (S k))) with (Z.shiftl (Z.shiftl v (Z.of_nat k)) 1) by (rewrite Z.shiftl_shiftl by lia; f_equal; lia). by rewrite crc_bit_shift, IH.
Qed.

Lemma crc_byte_shift v : Nat.iter 8 crc_bit (Z.shiftl v 8) = v.
Proof. exact (crc_bits_shift 8 v). Qed.

Lemma crc_bits_add j k v : Nat.iter j crc_bit (Nat.iter k crc_bit v) = Nat.iter (j + k) crc_bit v.
Proof. induction j as [|j IH]; [done|]. cbn [Nat.add]. by rewrite !Nat.iter_succ, IH. Qed.

Lemma split_byte v : v = Z.lxor (Z.land v 0xff) (Z.shiftl (Z.shiftr v 8) 8).
Proof.
  apply Z.bits_inj'. intros i Hi. change 0xff with (Z.ones 8). rewrite Z.lxor_spec, Z.land_spec, Z.shiftl_spec by lia. destruct (Z.ltb_spec i 8).
  - rewrite Z.ones_spec_low, (Z.testbit_neg_r _ (i - 8)) by lia. by rewrite andb_true_r, xorb_false_r.
  - rewrite Z.ones_spec_high by lia. rewrite Z.shiftr_spec by lia. rewrite andb_false_r, xorb_false_l. f_equal. lia.
Qed.

Lemma land_byte v : is_byte (Z.land v 0xff).
Proof. change 0xff with (Z.ones 8). rewrite Z.land_ones by lia. unfold is_byte. change 256 with (2 ^ 8). by apply Z.mod_pos_bound. Qed.

(** Eight bits of a value: those of its low byte, and the rest moved down. *)
Lemma crc_bits_split k v : Nat.iter (8 + k) crc_bit v = Z.lxor (Nat.iter (8 + k) crc_bit (Z.land v 0xff)) (Nat.iter k crc_bit (Z.shiftr v 8)).
Proof.
  rewrite (split_byte v) at 1. rewrite crc_bits_lxor. f_equal. rewrite (Nat.add_comm 8 k), <- crc_bits_add.
  by rewrite crc_byte_shift.
Qed.

Lemma crc_bits_8 v : Nat.iter 8 crc_bit v = Z.lxor (Z.shiftr v 8) (Nat.iter 8 crc_bit (Z.land v 0xff)).
Proof. rewrite Z.lxor_comm. exact (crc_bits_split 0 v). Qed.

Lemma nth_map_seq {A} (f : nat -> A) n k d : (k < n)%nat -> nth k (map f (seq 0 n)) d = f k.
Proof. intros Hk. rewrite (nth_indep _ d (f 0%nat)) by (rewrite length_map, length_seq; lia). by rewrite map_nth, seq_nth. Qed.

Lemma at_seq (f : nat -> Z) n i : 0 <= i < Z.of_nat n -> at_ (map f (seq 0 n)) i = f (Z.to_nat i).
Proof. intros Hi. apply nth_map_seq. lia. Qed.

Lemma byte_table_exact i : is_byte i -> at_ byte_table i = Nat.iter 8 crc_bit i.
Proof. intros Hi. unfold byte_table. rewrite at_seq by (unfold is_byte in Hi; lia). unfold is_byte in Hi. by rewrite Z2Nat.id by lia. Qed.

Lemma crc_table_exact k i : (k < 8)%nat -> is_byte i -> crc_table k i = Nat.iter (8 + 8 * k) crc_bit i.
Proof.
  intros Hk Hi. unfold crc_table, CRC32C_TABLES. rewrite nth_map_seq by done. clear Hk.
  assert (Hmap : Nat.iter k next_table byte_table = map (fun j => Nat.iter (8 + 8 * k) crc_bit (Z.of_nat j)) (seq 0 256)).
  { induction k as [|k IH]; [done|]. rewrite Nat.iter_succ, IH. unfold next_table. rewrite map_map. apply map_ext. intros j.
    rewrite byte_table_exact by apply land_byte. replace (8 + 8 * S k)%nat with (8 + (8 + 8 * k))%nat by lia. rewrite <- (crc_bits_add 8 (8 + 8 * k)).
    by rewrite <- crc_bits_8. }
  rewrite Hmap, at_seq by (unfold is_byte in Hi; lia). unfold is_byte in Hi. by rewrite Z2Nat.id by lia.
Qed.

Lemma crc_byte_exact state byte : is_byte byte -> crc_byte state byte = Nat.iter 8 crc_bit (Z.lxor state byte).
Proof.
  intros Hb. unfold crc_byte. rewrite crc_table_exact by (lia || apply land_byte). rewrite (crc_bits_8 (Z.lxor state byte)). f_equal.
  rewrite Z.shiftr_lxor. replace (Z.shiftr byte 8) with 0; [by rewrite Z.lxor_0_r|]. rewrite Z.shiftr_div_pow2 by lia. symmetry. by apply Z.div_small.
Qed.

Lemma crc_value_exact value : 0 <= value < 2 ^ 64 ->
  Nat.iter 64 crc_bit value =
  foldr Z.lxor (crc_table 0 (Z.shiftr value 56))
    [crc_table 7 (Z.land value 0xff); crc_table 6 (Z.land (Z.shiftr value 8) 0xff); crc_table 5 (Z.land (Z.shiftr value 16) 0xff); crc_table 4 (Z.land (Z.shiftr value 24) 0xff);
     crc_table 3 (Z.land (Z.shiftr value 32) 0xff); crc_table 2 (Z.land (Z.shiftr value 40) 0xff); crc_table 1 (Z.land (Z.shiftr value 48) 0xff)].
Proof.
  intros Hv. rewrite !crc_table_exact by (lia || apply land_byte || (unfold is_byte; rewrite Z.shiftr_div_pow2 by lia; change (2 ^ 64) with (256 * 2 ^ 56) in Hv; split; [apply Z.div_pos; lia|apply Z.div_lt_upper_bound; lia])).
  cbn [foldr]. change 64%nat with (8 + 56)%nat. rewrite (crc_bits_split 56 value). f_equal.
  do 6 (match goal with |- Nat.iter ?k _ _ = _ => let j := eval cbv in (k - 8)%nat in change k with (8 + j)%nat end; rewrite crc_bits_split; f_equal; rewrite Z.shiftr_shiftr by lia).
Qed.

Definition is_word (v : Z) : Prop := 0 <= v < 2 ^ 32.

Lemma below_bits n v : 0 <= n -> 0 <= v -> (forall i, n <= i -> Z.testbit v i = false) -> v < 2 ^ n.
Proof.
  intros Hn Hv Hbits. destruct (Z.eq_dec v 0) as [->|]; [by apply Z.pow_pos_nonneg|]. apply Z.log2_lt_pow2; [lia|]. destruct (Z.lt_ge_cases (Z.log2 v) n); [done|].
  assert (Hlog : Z.testbit v (Z.log2 v) = true) by (apply Z.bit_log2; lia). by rewrite Hbits in Hlog.
Qed.

Lemma bits_below n v i : 0 <= v < 2 ^ n -> n <= i -> Z.testbit v i = false.
Proof.
  intros Hv Hi. destruct (Z.eq_dec v 0) as [->|]; [apply Z.testbit_0_l|]. apply Z.bits_above_log2; [lia|].
  assert (Z.log2 v < n); [|lia]. apply Z.log2_lt_pow2; lia.
Qed.

Lemma lxor_below n a b : 0 <= n -> 0 <= a < 2 ^ n -> 0 <= b < 2 ^ n -> 0 <= Z.lxor a b < 2 ^ n.
Proof.
  intros Hn Ha Hb. assert (Hpos : 0 <= Z.lxor a b) by (apply Z.lxor_nonneg; lia). split; [done|]. apply below_bits; [done..|].
  intros i Hi. by rewrite Z.lxor_spec, (bits_below n a), (bits_below n b).
Qed.

Lemma fold_bits l : forall state, Forall is_byte l -> fold_left (fun s b => Nat.iter 8 crc_bit (Z.lxor s b)) l state = Nat.iter (8 * length l) crc_bit (Z.lxor (from_le_bytes l) state).
Proof.
  induction l as [|b l IH]; intros state; [by cbn; rewrite Z.lxor_0_l|]. intros [Hb Hl]%Forall_cons. cbn [fold_left]. rewrite IH by done.
  cbn [length from_le_bytes foldr]. fold (from_le_bytes l). replace (8 * S (length l))%nat with (8 * length l + 8)%nat by lia. rewrite <- (crc_bits_add (8 * length l) 8).
  f_equal. replace (Z.lor b (Z.shiftl (from_le_bytes l) 8)) with (Z.lxor b (Z.shiftl (from_le_bytes l) 8)).
  - by rewrite (Z.lxor_comm b), Z.lxor_assoc, (crc_bits_lxor 8 (Z.shiftl _ 8)), crc_byte_shift, (Z.lxor_comm b).
  - apply Z.lxor_lor. apply Z.bits_inj'. intros i Hi. rewrite Z.land_spec, Z.bits_0. destruct (Z.ltb_spec i 8); [rewrite Z.shiftl_spec_low by done; apply andb_false_r|].
    unfold is_byte in Hb. by rewrite (bits_below 8 b) by lia.
Qed.

Lemma crc_bits_word k v : is_word v -> is_word (Nat.iter k crc_bit v).
Proof.
  intros Hv. induction k as [|k IH]; [done|]. rewrite Nat.iter_succ. generalize dependent (Nat.iter k crc_bit v). clear v Hv. intros v Hv. unfold crc_bit, is_word in *.
  assert (Hs : 0 <= Z.shiftr v 1 < 2 ^ 32) by (rewrite Z.shiftr_div_pow2 by lia; split; [by apply Z.div_pos; lia|apply Z.div_lt_upper_bound; lia]).
  destruct (_ =? _); [|done]. apply lxor_below; [lia|done|split; [discriminate|reflexivity]].
Qed.

Lemma from_le_bytes_range l : Forall is_byte l -> 0 <= from_le_bytes l < 2 ^ (8 * Z.of_nat (length l)).
Proof.
  induction l as [|b l IH]; [done|]. intros [Hb Hl]%Forall_cons. specialize (IH Hl). cbn [from_le_bytes foldr length]. fold (from_le_bytes l). unfold is_byte in Hb.
  assert (Hpos : 0 <= Z.lor b (Z.shiftl (from_le_bytes l) 8)) by (apply Z.lor_nonneg; split; [lia|apply Z.shiftl_nonneg; lia]).
  split; [done|]. apply below_bits; [lia|done|]. intros i Hi. rewrite Z.lor_spec, (bits_below 8 b) by lia.
  destruct (Z.ltb_spec i 8); [by rewrite Z.shiftl_spec_low|]. rewrite Z.shiftl_spec by lia. eapply bits_below; [exact IH|lia].
Qed.

(** The bytes one by one, bit by bit. *)
Definition crc_bits (state : Z) (bytes : list Z) : Z := fold_left (fun s b => Nat.iter 8 crc_bit (Z.lxor s b)) bytes state.

Lemma byte_word b : is_byte b -> is_word b.
Proof. unfold is_byte, is_word. lia. Qed.

Lemma crc_bits_range bytes : forall state, Forall is_byte bytes -> is_word state -> is_word (crc_bits state bytes).
Proof.
  induction bytes as [|b bytes IH]; intros state; [done|]. intros [Hb Hbs]%Forall_cons Hs. apply IH; [done|]. apply crc_bits_word, lxor_below; [lia|done|by apply byte_word].
Qed.

Lemma crc_chunk_exact state chunk : length chunk = 8%nat -> Forall is_byte chunk -> is_word state -> crc_chunk state chunk = crc_bits state chunk.
Proof.
  intros Hl Hc Hs. unfold crc_bits. rewrite fold_bits, Hl by done. change (8 * 8)%nat with 64%nat. rewrite crc_value_exact; [reflexivity|].
  apply lxor_below; [lia| |unfold is_word in Hs; lia]. pose proof (from_le_bytes_range chunk Hc). rewrite Hl in *. done.
Qed.

Lemma crc_update_exact bytes : forall state, Forall is_byte bytes -> is_word state -> crc_update state bytes = crc_bits state bytes.
Proof.
  unfold crc_update. induction bytes as [l Hl|b l Hb IH] using (blocks_ind 8 ltac:(lia)); intros state Hbytes Hs.
  - destruct (blocks_short 8 ltac:(lia) l Hl) as [-> ->]. cbn [fold_left]. unfold crc_bits. clear Hl Hs. revert state. induction Hbytes as [|x l Hx Hl IH]; intros state; [done|].
    cbn [fold_left]. by rewrite crc_byte_exact, IH.
  - destruct (blocks_cons 8 ltac:(lia) b l Hb) as [-> ->]. apply Forall_app in Hbytes as [Hb8 Hl]. cbn [fold_left]. rewrite crc_chunk_exact by done.
    rewrite IH by (done || by apply crc_bits_range). unfold crc_bits. by rewrite fold_left_app.
Qed.

(** C39. The CRC by slices of eight bytes is the bit by bit one of the polynomial, from every state and for every length, so
    that it does not depend on how its input was cut; it stays within 32 bits. *)
Theorem crc_exact (bytes more : list Z) (state : Z) : Forall is_byte bytes -> Forall is_byte more -> is_word state ->
  crc_update state bytes = crc_bits state bytes /\ crc_update (crc_update state bytes) more = crc_update state (bytes ++ more) /\ is_word (crc_update state bytes).
Proof.
  intros Hb Hm Hs. assert (Happ : Forall is_byte (bytes ++ more)) by by apply Forall_app. rewrite !crc_update_exact; try done; try by apply crc_bits_range.
  split_and!; [done| |by apply crc_bits_range]. unfold crc_bits. by rewrite fold_left_app.
Qed.

Example crc_exact_witness : crc_update (crc_update crc_new (bytes_of "12345")) (bytes_of "6789") = crc_update crc_new (bytes_of "123456789").
Proof.
  assert (Hb : forall s, Forall is_byte (bytes_of s)) by (intros s; apply Forall_map, Forall_forall; intros c _; apply ch_range).
  assert (Hs : is_word crc_new) by (split; [discriminate|reflexivity]).
  destruct (crc_exact (bytes_of "12345") (bytes_of "6789") crc_new (Hb _) (Hb _) Hs) as (_ & H & _). exact H.
Defined.

(** ** Incremental digests *)

Lemma copy_at_full l i src : (i + length src <= length l)%nat -> length (copy_at l i src) = length l /\ take (i + length src) (copy_at l i src) = take i l ++ src.
Proof.
  intros Hl. unfold copy_at. split; [rewrite !length_app, length_take, length_drop; lia|].
  rewrite app_assoc. apply take_app_length'. rewrite length_app, length_take. lia.
Qed.

Lemma length_to_le_bytes k : forall n, length (to_le_bytes k n) = k.
Proof. induction k as [|k IH]; intros n; [done|]. cbn. by rewrite IH. Qed.

Lemma wrapping_u64_mul a b : wrapping u64 (wrapping u64 a * b) = wrapping u64 (a * b).
Proof. rewrite !wrapping_u64. apply Z.mul_mod_idemp_l. lia. Qed.

Lemma wrapping_u64_add a b : wrapping u64 (wrapping u64 a + b) = wrapping u64 (a + b).
Proof. rewrite !wrapping_u64. apply Z.add_mod_idemp_l. lia. Qed.

Section incremental.
Context (compress : list Z -> list Z -> list Z) (init : list Z) (length_bytes : Z -> list Z) (word_bytes : Z -> list Z).
Context (length_bytes_8 : forall n, length (length_bytes n) = 8%nat).

(** What is hashed: the message, a one bit, zeros up to eight bytes before the end of a block, and the length in bits. *)
Definition pad (m : list Z) : list Z :=
  m ++ [0x80] ++ replicate ((119 - length m mod 64) mod 64) 0 ++ length_bytes (wrapping u64 (Z.of_nat (length m) * 8)).

Definition digest_of (m : list Z) : list Z := concat (map word_bytes (fold_left compress (blocks 64 (pad m)) init)).

(** The digest has taken in the bytes [m]. *)
Definition represents (d : Digest) (m : list Z) : Prop :=
  state d = fold_left compress (blocks 64 m) init /\ tail_len d = length (remainder 64 m) /\ take (tail_len d) (tail d) = remainder 64 m /\
  length (tail d) = 64%nat /\ byte_len d = wrapping u64 (Z.of_nat (length m)).

Lemma absorb_represents d m bytes : state d = fold_left compress (blocks 64 m) init -> remainder 64 m = [] -> length (tail d) = 64%nat ->
  byte_len d = wrapping u64 (Z.of_nat (length (m ++ bytes))) -> represents (absorb compress d bytes) (m ++ bytes).
Proof.
  intros Hs Hr Ht Hb. destruct (blocks_resume 64 ltac:(lia) m bytes) as [Hblocks Hrem]. rewrite Hr in Hblocks, Hrem. cbn [app] in Hblocks, Hrem.
  assert (Hshort : (length (remainder 64 bytes) < 64)%nat) by (apply remainder_short; lia).
  unfold represents, absorb. cbn [state tail tail_len byte_len]. rewrite Hblocks, Hrem, fold_left_app, Hs. destruct (copy_at_full (tail d) 0 (remainder 64 bytes)) as [Hl Htake]; [lia|].
  split_and!; [done|done|exact Htake|by rewrite Hl|done].
Qed.

Lemma update_represents d m bytes : represents d m -> represents (update compress d bytes) (m ++ bytes).
Proof.
  intros (Hs & Hn & Ht & Hl & Hb). unfold update. cbn [state tail tail_len byte_len]. rewrite Hb, wrapping_u64_add, <- Nat2Z.inj_add, <- length_app.
  assert (Hshort : (length (remainder 64 m) < 64)%nat) by (apply remainder_short; lia). destruct (Nat.eqb_spec (tail_len d) 0) as [H0|H0].
  { apply absorb_represents; [done| |done|done]. apply nil_length_inv. by rewrite <- Hn. }
  set (n := Nat.min (64 - tail_len d) (length bytes)). assert (Hlen : length (take n bytes) = n) by (rewrite length_take; lia).
  destruct (copy_at_full (tail d) (tail_len d) (take n bytes)) as [Hl' Htake]; [lia|]. rewrite Hlen, Ht in Htake. destruct (blocks_resume 64 ltac:(lia) m (take n bytes)) as [Hblocks Hrem].
  assert (Hext : length (remainder 64 m ++ take n bytes) = (tail_len d + n)%nat) by (rewrite length_app, Hlen; lia).
  destruct (Nat.ltb_spec (tail_len d + n) 64) as [Hlt|Hge].
  - assert (Hall : take n bytes = bytes) by (apply take_ge; lia). rewrite Hall in *. destruct (blocks_short 64 ltac:(lia) (remainder 64 m ++ bytes)) as [Hb1 Hb2]; [lia|].
    rewrite Hb1, app_nil_r in Hblocks. rewrite Hb2 in Hrem. unfold represents. cbn [state tail tail_len byte_len]. rewrite Hblocks, Hrem. split_and!; [done|lia|done|lia|done].
  - replace (m ++ bytes) with ((m ++ take n bytes) ++ drop n bytes) by (by rewrite <- app_assoc, take_drop). destruct (blocks_cons 64 ltac:(lia) (remainder 64 m ++ take n bytes) []) as [Hb1 Hb2]; [lia|].
    rewrite app_nil_r in Hb1, Hb2. rewrite Hb1 in Hblocks. apply absorb_represents; cbn [state tail byte_len].
    + rewrite Hblocks, fold_left_app, <- Hs, <- Htake, (take_ge (copy_at _ _ _)) by lia. done.
    + rewrite Hrem, Hb2. done.
    + lia.
    + done.
Qed.

Lemma final_blocks_pad r len (f : nat) : length len = 8%nat -> (length r + 9 <= f <= 128)%nat ->
  take f (copy_at (copy_at (copy_at (replicate 128 0) 0 r) (length r) [0x80]) (f - 8) len) = r ++ [0x80] ++ replicate (f - 9 - length r) 0 ++ len.
Proof.
  intros Hlen Hf. replace (copy_at (copy_at (replicate 128 0) 0 r) (length r) [0x80]) with (r ++ [0x80] ++ replicate (127 - length r) 0).
  - set (base := r ++ [0x80] ++ replicate (127 - length r) 0). assert (Hbase : length base = 128%nat) by (unfold base; rewrite !length_app, length_replicate; cbn; lia).
    destruct (copy_at_full base (f - 8) len) as [_ Htake]; [lia|]. replace (f - 8 + length len)%nat with f in Htake by lia. rewrite Htake. unfold base.
    rewrite take_app_ge, <- app_assoc by lia. f_equal. rewrite take_app_ge by (cbn; lia). rewrite <- app_assoc. f_equal. cbn [length]. rewrite take_replicate. f_equal. f_equal. lia.
  - unfold copy_at. rewrite take_0, app_nil_l, Nat.add_0_l, drop_replicate, (take_app_length' r) by done. f_equal. cbn [length]. rewrite drop_app_ge, drop_replicate by lia. cbn [app]. f_equal. f_equal. lia.
Qed.

Lemma finalize_represents d m : represents d m -> finalize compress length_bytes word_bytes d = digest_of m.
Proof.
  intros (Hs & Hn & Ht & Hl & Hb). unfold finalize, digest_of, pad. rewrite Ht, Hn, Hs, Hb, wrapping_u64_mul. f_equal. f_equal. set (r := remainder 64 m). set (len := length_bytes _).
  assert (Hr : length r = (length m mod 64)%nat) by (apply length_remainder; lia). assert (Hshort : (length r < 64)%nat) by (apply remainder_short; lia).
  destruct (blocks_resume 64 ltac:(lia) m ([0x80] ++ replicate ((119 - length m mod 64) mod 64) 0 ++ len)) as [-> _]. rewrite fold_left_app. fold r. f_equal. f_equal.
  assert (Hlen : length len = 8%nat) by apply length_bytes_8. rewrite <- Hr.
  assert (Hz : ((119 - length r) mod 64)%nat = ((if (length r <? 56)%nat then 64 else 128) - 9 - length r)%nat).
  { destruct (Nat.ltb_spec (length r) 56); [|rewrite Nat.mod_small by lia; lia].
    replace (119 - length r)%nat with (55 - length r + 1 * 64)%nat by lia. rewrite Nat.Div0.mod_add, Nat.mod_small by lia. lia. }
  rewrite final_blocks_pad; [by rewrite <- Hz|done|]. destruct (Nat.ltb_spec (length r) 56); lia.
Qed.

Lemma new_represents : represents (digest_new init) [].
Proof. done. Qed.

Lemma fold_represents chunks : forall d m, represents d m -> represents (fold_left (update compress) chunks d) (m ++ concat chunks).
Proof.
  induction chunks as [|c chunks IH]; intros d m Hd; [by rewrite app_nil_r|]. cbn [fold_left concat]. rewrite app_assoc. by apply IH, update_represents.
Qed.

End incremental.

(** C40. A digest does not depend on how its input was cut: after any sequence of updates, MD5 and SHA-256 alike are the
    compression folded over the blocks of the padded concatenation of the chunks, and equal the digest of it at once;
    the internal state, too, is that of the bytes taken in: the words after their whole blocks, the bytes of the unfinished
    block at the front of its buffer, and their number modulo 2^64; only what the buffer holds behind them is left from
    earlier blocks. *)
Theorem digests_exact (chunks : list (list Z)) :
  md5_finalize (fold_left md5_update chunks md5_new) = digest_of md5_compress md5_init (to_le_bytes 8) (to_le_bytes 4) (concat chunks) /\
  sha256_finalize (fold_left sha256_update chunks sha256_new) = digest_of sha256_compress sha256_init (to_be_bytes 8) (to_be_bytes 4) (concat chunks) /\
  md5 (concat chunks) = md5_finalize (fold_left md5_update chunks md5_new) /\ sha256 (concat chunks) = sha256_finalize (fold_left sha256_update chunks sha256_new) /\
  represents md5_compress md5_init (fold_left md5_update chunks md5_new) (concat chunks) /\ represents sha256_compress sha256_init (fold_left sha256_update chunks sha256_new) (concat chunks).
Proof.
  assert (Hle : forall n, length (to_le_bytes 8 n) = 8%nat) by (intros; apply length_to_le_bytes).
  assert (Hbe : forall n, length (to_be_bytes 8 n) = 8%nat) by (intros; unfold to_be_bytes; by rewrite length_reverse, length_to_le_bytes).
  assert (Hone : forall compress init, represents compress init (update compress (digest_new init) (concat chunks)) (concat chunks)) by (intros c i; apply (update_represents c i _ []), new_represents).
  assert (Hall : forall compress init, represents compress init (fold_left (update compress) chunks (digest_new init)) (concat chunks)) by (intros c i; apply (fold_represents c i chunks _ []), new_represents).
  pose proof (fun d => finalize_represents md5_compress md5_init _ (to_le_bytes 4) Hle d (concat chunks)) as Hmd5.
  pose proof (fun d => finalize_represents sha256_compress sha256_init _ (to_be_bytes 4) Hbe d (concat chunks)) as Hsha.
  split_and!; [exact (Hmd5 _ (Hall _ _))|exact (Hsha _ (Hall _ _))|..].
  - exact (eq_trans (Hmd5 _ (Hone _ _)) (eq_sym (Hmd5 _ (Hall _ _)))).
  - exact (eq_trans (Hsha _ (Hone _ _)) (eq_sym (Hsha _ (Hall _ _)))).
  - exact (Hall _ _).
  - exact (Hall _ _).
Qed.

(** ** Base64 and hexadecimal *)

(** The six-bit digits of a chunk, and the chunk from them. *)
Definition join_digits (d : list Z) : list Z :=
  [Z.land (Z.lor (Z.shiftl (at_ d 0) 2) (Z.shiftr (at_ d 1) 4)) 0xff; Z.land (Z.lor (Z.shiftl (at_ d 1) 4) (Z.shiftr (at_ d 2) 2)) 0xff;
   Z.land (Z.lor (Z.shiftl (at_ d 2) 6) (at_ d 3)) 0xff].

Lemma full_small alphabet chunk : length chunk = 3%nat -> small_chunk alphabet chunk = full_chunk alphabet chunk.
Proof. intros H. unfold small_chunk, full_chunk. by rewrite H. Qed.

Lemma last_small alphabet chunk : Forall is_byte chunk -> (0 < length chunk < 3)%nat -> small_chunk alphabet chunk = last_chunk alphabet chunk.
Proof.
  intros Hc Hl. destruct chunk as [|a [|b [|c chunk]]]; cbn [length] in Hl; try lia; [reflexivity|]. unfold small_chunk, last_chunk, at_. cbn.
  do 2 f_equal. by rewrite Z.lor_0_r.
Qed.

(** Both implementations of base64 are the same function. *)
Lemma base64_same data alphabet : Forall is_byte data -> base64_with_alphabet data alphabet = base64_small data alphabet.
Proof.
  intros Hd. unfold base64_with_alphabet. destruct (_ <? _)%nat; [done|]. unfold base64_small, chunks. rewrite flat_map_app.
  assert (Hfull : flat_map (full_chunk alphabet) (blocks 3 data) = flat_map (small_chunk alphabet) (blocks 3 data)).
  { rewrite !flat_map_concat_map. f_equal. apply map_ext_in. intros b Hb%list_elem_of_In. symmetry. apply full_small. by apply (length_block 3 ltac:(lia) data). }
  rewrite Hfull. case_bool_decide as Hr; [cbn; by rewrite app_nil_r|]. cbn [flat_map]. rewrite app_nil_r. f_equal. symmetry. apply last_small.
  - rewrite <- (concat_blocks 3 ltac:(lia) data) in Hd. by apply Forall_app in Hd as [_ Hd].
  - pose proof (remainder_short 3 ltac:(lia) data). destruct (remainder 3 data); [done|]. cbn [length] in *. lia.
Qed.

(** The four digits of three bytes as numbers: the shifted parts do not overlap. *)
Definition bytes256 : list Z := map Z.of_nat (seq 0 256).

Lemma elem_of_bytes256 b : is_byte b -> b ∈ bytes256.
Proof. intros Hb. unfold is_byte in Hb. apply list_elem_of_fmap. exists (Z.to_nat b). split; [lia|]. apply elem_of_seq. lia. Qed.

Lemma all_bytes (P : Z -> bool) b : forallb P bytes256 = true -> is_byte b -> P b = true.
Proof. intros HP Hb. rewrite forallb_forall in HP. by apply HP, list_elem_of_In, elem_of_bytes256. Qed.

Lemma all_byte_pairs (P : Z -> Z -> bool) a b : forallb (fun a => forallb (P a) bytes256) bytes256 = true -> is_byte a -> is_byte b -> P a b = true.
Proof. intros HP Ha Hb. apply (all_bytes (P a)); [|done]. by apply (all_bytes (fun a => forallb (P a) bytes256)). Qed.

Lemma digits_exact f s t : is_byte f -> is_byte s -> is_byte t ->
  Z.shiftr f 2 = f / 4 /\ Z.lor (Z.shiftl (Z.land f 3) 4) (Z.shiftr s 4) = f mod 4 * 16 + s / 16 /\
  Z.lor (Z.shiftl (Z.land s 15) 2) (Z.shiftr t 6) = s mod 16 * 4 + t / 64 /\ Z.land t 63 = t mod 64.
Proof.
  intros Hf Hs Ht. split_and!; [by apply Z.shiftr_div_pow2| | |by apply (Z.land_ones t 6)]; apply Z.eqb_eq.
  - apply (all_byte_pairs (fun f s => Z.lor (Z.shiftl (Z.land f 3) 4) (Z.shiftr s 4) =? f mod 4 * 16 + s / 16)); [vm_compute; reflexivity|done..].
  - apply (all_byte_pairs (fun s t => Z.lor (Z.shiftl (Z.land s 15) 2) (Z.shiftr t 6) =? s mod 16 * 4 + t / 64)); [vm_compute; reflexivity|done..].
Qed.

Section base64.
Context (alphabet : list Z) (alphabet_64 : length alphabet = 64%nat) (alphabet_nodup : NoDup alphabet) (no_pad : ch "=" ∉ alphabet).

Lemma at_alphabet d e : 0 <= d < 64 -> 0 <= e < 64 -> at_ alphabet d = at_ alphabet e -> d = e.
Proof using alphabet_64 alphabet_nodup.
  intros Hd He. unfold at_. rewrite !nth_lookup. destruct (alphabet !! Z.to_nat d) eqn:Hl; [|apply lookup_ge_None in Hl; lia].
  destruct (alphabet !! Z.to_nat e) eqn:Hl'; [|apply lookup_ge_None in Hl'; lia]. cbn. intros ->. pose proof (NoDup_lookup _ _ _ _ alphabet_nodup Hl Hl'). lia.
Qed.

Lemma at_not_pad d : 0 <= d < 64 -> at_ alphabet d <> ch "=".
Proof using alphabet_64 no_pad. intros Hd H. apply no_pad. rewrite <- H. unfold at_. apply list_elem_of_In, nth_In. lia. Qed.

Lemma small_chunk_inj c c' : Forall is_byte c -> Forall is_byte c' -> (0 < length c <= 3)%nat -> (0 < length c' <= 3)%nat -> small_chunk alphabet c = small_chunk alphabet c' -> c = c'.
Proof using alphabet_64 alphabet_nodup no_pad.
  intros Hc Hc' Hl Hl'. assert (H0 : is_byte 0) by (unfold is_byte; lia).
  assert (Hat : forall l i, Forall is_byte l -> is_byte (at_ l i)).
  { intros l i Hb. unfold at_. destruct (nth_in_or_default (Z.to_nat i) l 0) as [Hi| ->]; [|done]. rewrite Forall_forall in Hb. by apply Hb, list_elem_of_In. }
  unfold small_chunk. destruct (digits_exact (at_ c 0) (at_ c 1) (at_ c 2)) as (-> & -> & -> & ->); [by apply Hat..|].
  destruct (digits_exact (at_ c' 0) (at_ c' 1) (at_ c' 2)) as (-> & -> & -> & ->); [by apply Hat..|].
  assert (HA : forall d e, 0 <= d < 64 -> 0 <= e < 64 -> at_ alphabet d = at_ alphabet e -> d = e) by apply at_alphabet.
  assert (HP : forall d, 0 <= d < 64 -> at_ alphabet d <> ch "=") by apply at_not_pad.
  set (A := at_ alphabet) in *. set (pad := ch "=") in *. clearbody A pad. unfold is_byte in *.
  destruct c as [|x [|y [|z [|? ?]]]], c' as [|x' [|y' [|z' [|? ?]]]]; cbn [length] in Hl, Hl'; try lia; cbn; intros H; injection H; clear H; intros;
    rewrite ?Forall_cons in Hc, Hc'; destruct_and?;
    repeat match goal with
    | H : A ?d = A ?e |- _ => apply HA in H; [|Z.div_mod_to_equations; lia..]
    | H : A ?d = pad |- _ => exfalso; apply (HP d); [Z.div_mod_to_equations; lia|done]
    | H : pad = A ?d |- _ => exfalso; apply (HP d); [Z.div_mod_to_equations; lia|done]
    end; repeat f_equal; Z.div_mod_to_equations; lia.
Qed.
End base64.

Lemma flat_map_inj {A B} (P : A -> Prop) (f : A -> list B) n : (0 < n)%nat -> (forall x, length (f x) = n) -> (forall x y, P x -> P y -> f x = f y -> x = y) ->
  forall l m, Forall P l -> Forall P m -> flat_map f l = flat_map f m -> l = m.
Proof.
  intros Hn Hlen Hinj. induction l as [|x l IH]; intros [|y m] Hl Hm; cbn; [done|..].
  - intros H. apply (f_equal length) in H. rewrite length_app, Hlen in H. cbn in H. lia.
  - intros H. apply (f_equal length) in H. rewrite length_app, Hlen in H. cbn in H. lia.
  - intros H. apply Forall_cons in Hl as [Hx Hl], Hm as [Hy Hm]. apply app_inj_1 in H as [H1 H2]; [|by rewrite !Hlen]. f_equal; [by apply Hinj|by apply IH].
Qed.

Lemma chunks_bytes data : Forall is_byte data -> Forall (fun c => Forall is_byte c /\ (0 < length c <= 3)%nat) (chunks 3 data) /\ concat (chunks 3 data) = data.
Proof.
  intros Hd. assert (Hcat : concat (chunks 3 data) = data).
  { etransitivity; [|apply (concat_blocks 3 ltac:(lia))]. unfold chunks. rewrite concat_app. f_equal. case_bool_decide as H; [by rewrite H|]. cbn. apply app_nil_r. }
  split; [|done]. apply Forall_forall. intros c Hc. split.
  - rewrite <- Hcat in Hd. rewrite Forall_forall in *. intros b Hb. apply Hd, list_elem_of_In, in_concat. exists c. by split; apply list_elem_of_In.
  - unfold chunks in Hc. apply elem_of_app in Hc as [Hc|Hc]; [rewrite (length_block 3 ltac:(lia) data c Hc); lia|].
    pose proof (remainder_short 3 ltac:(lia) data). case_bool_decide; [by apply not_elem_of_nil in Hc|]. apply list_elem_of_singleton in Hc as ->.
    destruct (remainder 3 data); [done|]. cbn [length] in *. lia.
Qed.

Lemma base64_inj alphabet data data' : length alphabet = 64%nat -> NoDup alphabet -> ch "=" ∉ alphabet -> Forall is_byte data -> Forall is_byte data' ->
  base64_with_alphabet data alphabet = base64_with_alphabet data' alphabet -> data = data'.
Proof.
  intros H64 Hnd Hpad Hd Hd'. rewrite !base64_same by done. unfold base64_small. intros H. destruct (chunks_bytes data Hd) as [Hc Hcat], (chunks_bytes data' Hd') as [Hc' Hcat'].
  rewrite <- Hcat, <- Hcat'. f_equal. revert Hc Hc' H. apply (flat_map_inj _ _ 4); [lia|done|]. intros x y [Hx Hlx] [Hy Hly]. by apply small_chunk_inj.
Qed.

Lemma hex_roundtrip alphabet data : forallb (fun b => bool_decide (hex_pairs [at_ alphabet (Z.shiftr b 4); at_ alphabet (Z.land b 0x0f)] = Some [b])) bytes256 = true ->
  Forall is_byte data -> hex_decode (hex_with_alphabet data alphabet) = Some data.
Proof.
  intros Hall Hd. unfold hex_decode, hex_with_alphabet. replace (Nat.even _) with true by (clear; induction data; [done|by cbn]).
  induction Hd as [|b data Hb Hd IH]; [done|]. pose proof (all_bytes _ b Hall Hb) as H. apply bool_decide_eq_true in H. cbn [flat_map app hex_pairs] in H |- *.
  destruct (hex_nibble (at_ alphabet (Z.shiftr b 4))), (hex_nibble (at_ alphabet (Z.land b 0x0f))); try done. cbn in H. rewrite IH. cbn. injection H as H. by rewrite H.
Qed.

(** The text encodings lose nothing: both base64 alphabets give different texts to different bytes, and the two code paths,
    for short and for long values, are one function; hexadecimal text of either case decodes to the bytes it was made of. *)
Theorem encodings_exact (data data' : list Z) : Forall is_byte data -> Forall is_byte data' ->
  (base64_standard data = base64_standard data' -> data = data') /\ (base64_url_safe data = base64_url_safe data' -> data = data') /\
  base64_standard data = base64_small data STANDARD /\ hex_decode (hex_lower data) = Some data /\ hex_decode (hex_upper data) = Some data.
Proof.
  intros Hd Hd'.
  assert (Hs : bool_decide (NoDup STANDARD /\ ch "=" ∉ STANDARD) = true) by (vm_compute; reflexivity). apply bool_decide_eq_true in Hs as [Hs1 Hs2].
  assert (Hu : bool_decide (NoDup URL_SAFE /\ ch "=" ∉ URL_SAFE) = true) by (vm_compute; reflexivity). apply bool_decide_eq_true in Hu as [Hu1 Hu2].
  split_and!; [by apply base64_inj|by apply base64_inj|by apply base64_same|..]; (apply hex_roundtrip; [vm_compute; reflexivity|done]).
Qed.

Example encodings_exact_witness : hex_decode (hex_lower (bytes_of "light")) = Some (bytes_of "light").
Proof.
  assert (Hb : Forall is_byte (bytes_of "light")) by (apply Forall_map, Forall_forall; intros c _; apply ch_range).
  destruct (encodings_exact (bytes_of "light") (bytes_of "light") Hb Hb) as (_ & _ & _ & H & _). exact H.
Defined.
