(* ===== verification/PushId.v ===== *)
(** * Push ids

    Models [crates/fireemu-core-database/src/push_id.rs]: the generator of the
    keys that [POST] creates, 8 characters of time and 12 of randomness in an
    alphabet that is in ASCII order. *)
From S2P Require Import Prelude Determinism.

Definition PUSH_CHARS : string := "-0123456789ABCDEFGHIJKLMNOPQRSTUVWXYZ_abcdefghijklmnopqrstuvwxyz".

Record PushIdGenerator := {
  last_time : Z;
  last_random : list Z;
  rng : Z;
}.

Definition from_state (time : Z) (random : list Z) (seed : Z) : PushIdGenerator :=
  {| last_time := time; last_random := random; rng := seed |}.

Definition push_new (seed : Z) : PushIdGenerator := from_state 0 (replicate 12 0) seed.

(** [alphabet[i]]; every index the code uses is below 64. *)
Definition push_char (i : Z) : Z := nth (Z.to_nat i) (bytes_of PUSH_CHARS) 0.

(** The loop that fills [stamp] from the last slot to the first. *)
Fixpoint time_digits (slots : nat) (time : Z) (acc : list Z) : list Z :=
  match slots with
  | O => acc
  | S slots => time_digits slots (time / 64) (time mod 64 :: acc)
  end.

Definition current (g : PushIdGenerator) : string :=
  string_of (map push_char (time_digits 8 (last_time g) []) ++ map push_char (last_random g)).

Definition split_mix (state : Z) : Z * Z :=
  let state := wrapping u64 (state + 0x9E3779B97F4A7C15) in
  let z := state in
  let z := wrapping u64 (Z.lxor z (Z.shiftr z 30) * 0xBF58476D1CE4E5B9) in
  let z := wrapping u64 (Z.lxor z (Z.shiftr z 27) * 0x94D049BB133111EB) in
  (Z.lxor z (Z.shiftr z 31), state).

(** The loop of [fresh_random], over the slots that remain. *)
Fixpoint random_loop (slots : nat) (state : Z) : list Z * Z :=
  match slots with
  | O => ([], state)
  | S slots =>
      let (z, state) := split_mix state in
      let (rest, state) := random_loop slots state in
      (wrapping u8 (Z.shiftr z 58) :: rest, state)
  end.

Definition fresh_random (g : PushIdGenerator) : PushIdGenerator :=
  let (random, state) := random_loop (length (last_random g)) (rng g) in
  {| last_time := last_time g; last_random := random; rng := state |}.

(** The loop of [increment_random], over the slots from the last one. *)
Fixpoint increment_loop (slots : list Z) : bool * list Z :=
  match slots with
  | [] => (false, [])
  | slot :: slots =>
      if slot =? 63 then let (done, slots) := increment_loop slots in (done, 0 :: slots)
      else (true, wrapping u8 (slot + 1) :: slots)
  end.

Definition increment_random (g : PushIdGenerator) : bool * PushIdGenerator :=
  let (done, slots) := increment_loop (rev (last_random g)) in
  (done, {| last_time := last_time g; last_random := rev slots; rng := rng g |}).

Definition set_time (t : Z) (g : PushIdGenerator) : PushIdGenerator :=
  {| last_time := t; last_random := last_random g; rng := rng g |}.

Definition next_id (now_millis : Z) (g : PushIdGenerator) : string * PushIdGenerator :=
  let g :=
    if last_time g <? now_millis then fresh_random (set_time now_millis g)
    else
      let (done, g) := increment_random g in
      if done then g else fresh_random (set_time (wrapping u64 (last_time g + 1)) g) in
  (current g, g).

(** A sequence of requests at these instants. *)
Fixpoint next_ids (nows : list Z) (g : PushIdGenerator) : list string :=
  match nows with
  | [] => []
  | t :: nows => let (id, g) := next_id t g in id :: next_ids nows g
  end.

(** The id pinned by the repository's own test. *)
Example pinned_id_ex : fst (next_id 1792408481564 (push_new 42)) = "-P4IriwRj9GL1rCnKbCU".
Proof. vm_compute. reflexivity. Qed.

(** ** Order *)

(** The order of texts of one length: the first difference decides. *)
Fixpoint lex_lt (l m : list Z) : Prop :=
  match l, m with
  | x :: l, y :: m => x < y \/ x = y /\ lex_lt l m
  | _, _ => False
  end.

(** The number that base-64 digits spell. *)
Definition base64 (l : list Z) : Z := fold_left (fun v d => v * 64 + d) l 0.

Definition digits64 (l : list Z) : Prop := Forall (fun d => 0 <= d < 64) l.

Lemma base64_acc l v :
  fold_left (fun v d => v * 64 + d) l v = v * 64 ^ Z.of_nat (length l) + base64 l.
Proof.
  unfold base64. revert v. induction l as [|d l IH]; intros v; cbn [fold_left length]; [lia|].
  rewrite IH, (IH (0 * 64 + d)), Nat2Z.inj_succ, Z.pow_succ_r by lia. ring.
Qed.

Lemma base64_cons d l : base64 (d :: l) = d * 64 ^ Z.of_nat (length l) + base64 l.
Proof. unfold base64 at 1. cbn [fold_left]. by rewrite base64_acc. Qed.

Lemma base64_app l m : base64 (l ++ m) = base64 l * 64 ^ Z.of_nat (length m) + base64 m.
Proof. unfold base64 at 1. by rewrite fold_left_app, base64_acc. Qed.

Lemma base64_bound l : digits64 l -> 0 <= base64 l < 64 ^ Z.of_nat (length l).
Proof.
  induction 1 as [|d l Hd Hl IH]; [done|].
  rewrite base64_cons. cbn [length]. rewrite Nat2Z.inj_succ, Z.pow_succ_r by lia. nia.
Qed.

(** Numbers of one width are in the order of their digits. *)
Lemma base64_lex l m : digits64 l -> digits64 m -> length l = length m ->
  base64 l < base64 m -> lex_lt l m.
Proof.
  intros Hl. revert m. induction Hl as [|d l Hd Hl IH]; intros m Hm Hlen Hlt.
  - destruct m; [|done]. done.
  - destruct m as [|e m]; [done|]. apply Forall_cons in Hm as [He Hm]. injection Hlen as Hlen.
    rewrite !base64_cons, Hlen in Hlt. pose proof (base64_bound l Hl) as Hbl. rewrite Hlen in Hbl.
    pose proof (base64_bound m Hm). cbn [lex_lt]. destruct (Z.compare_spec d e) as [->| |].
    + right. split; [done|]. apply IH; [done|done|lia].
    + by left.
    + exfalso. nia.
Qed.

Lemma push_char_mono d e : 0 <= d -> d < e -> e < 64 -> 0 <= push_char d < push_char e /\ push_char e < 128.
Proof.
  intros Hd Hlt He.
  assert (Hall : forallb (fun i => (push_char (Z.of_nat i) <? push_char (Z.of_nat (S i)))
                           && (0 <=? push_char (Z.of_nat i)) && (push_char (Z.of_nat (S i)) <? 128))
                   (seq 0 63) = true) by (vm_compute; reflexivity).
  rewrite forallb_forall in Hall.
  assert (Hstep : forall i : nat, (i < 63)%nat ->
    push_char (Z.of_nat i) < push_char (Z.of_nat (S i)) /\ 0 <= push_char (Z.of_nat i) /\
    push_char (Z.of_nat (S i)) < 128).
  { intros i Hi. specialize (Hall i). rewrite in_seq in Hall. specialize (Hall ltac:(lia)). lia. }
  assert (Hgo : forall (k i : nat), (i + S k < 64)%nat ->
    push_char (Z.of_nat i) < push_char (Z.of_nat (i + S k))).
  { induction k as [|k IH]; intros i Hi.
    - rewrite Nat.add_1_r. apply Hstep. lia.
    - transitivity (push_char (Z.of_nat (i + S k))); [apply IH; lia|].
      replace (i + S (S k))%nat with (S (i + S k)) by lia. apply Hstep. lia. }
  specialize (Hgo (Z.to_nat e - Z.to_nat d - 1)%nat (Z.to_nat d) ltac:(lia)).
  replace (Z.of_nat (Z.to_nat d + S (Z.to_nat e - Z.to_nat d - 1))) with e in Hgo by lia.
  rewrite Z2Nat.id in Hgo by lia.
  destruct (Hstep (Z.to_nat d) ltac:(lia)) as (_ & H0 & _). rewrite Z2Nat.id in H0 by lia.
  destruct (Hstep (Z.to_nat e - 1)%nat ltac:(lia)) as (_ & _ & H1).
  replace (Z.of_nat (S (Z.to_nat e - 1))) with e in H1 by lia. lia.
Qed.

Lemma push_char_byte d : 0 <= d < 64 -> 0 <= push_char d < 128.
Proof.
  intros Hd. destruct (decide (d = 63)) as [->|]; [split; [vm_compute; discriminate|vm_compute; reflexivity]|].
  pose proof (push_char_mono d 63). lia.
Qed.

Lemma lex_lt_map l m : digits64 l -> digits64 m -> lex_lt l m ->
  lex_lt (map push_char l) (map push_char m).
Proof.
  intros Hl. revert m. induction Hl as [|d l Hd Hl IH]; intros m Hm Hlt; [done|].
  destruct m as [|e m]; [done|]. apply Forall_cons in Hm as [He Hm]. cbn [lex_lt map] in *.
  destruct Hlt as [Hlt|[-> Hlt]]; [left|right; auto]. pose proof (push_char_mono d e). lia.
Qed.

Lemma lex_lt_string l m : Forall (fun b => 0 <= b < 128) l -> Forall (fun b => 0 <= b < 128) m ->
  lex_lt l m -> ord_lt (string_of l) (string_of m).
Proof.
  unfold ord_lt, ord_cmp; cbn [string_RustOrd]. intros Hl. revert m.
  induction Hl as [|x l Hx Hl IH]; intros m Hm Hlt; [done|].
  destruct m as [|y m]; [done|]. apply Forall_cons in Hm as [Hy Hm]. cbn [lex_lt] in Hlt.
  change (string_of (x :: l)) with (String (ascii_of_N (Z.to_N x)) (string_of l)).
  change (string_of (y :: m)) with (String (ascii_of_N (Z.to_N y)) (string_of m)).
  cbn [String.compare]. unfold Ascii.compare. rewrite !N_ascii_embedding by lia.
  destruct Hlt as [Hlt|[-> Hlt]].
  - by rewrite (proj2 (N.compare_lt_iff _ _)) by lia.
  - rewrite N.compare_refl. by apply IH.
Qed.

(** ** The generator's number

    An id is the number its 20 digits spell: the time, then the random part. *)

Record push_wf (g : PushIdGenerator) : Prop := {
  pw_time : 0 <= last_time g;
  pw_random : digits64 (last_random g);
  pw_slots : length (last_random g) = 12%nat;
}.

Definition id_number (g : PushIdGenerator) : Z :=
  last_time g * 64 ^ 12 + base64 (last_random g).

Lemma time_digits_spec slots t acc :
  0 <= t -> digits64 acc ->
  digits64 (time_digits slots t acc) /\ length (time_digits slots t acc) = (slots + length acc)%nat /\
  base64 (time_digits slots t acc) =
    t mod 64 ^ Z.of_nat slots * 64 ^ Z.of_nat (length acc) + base64 acc.
Proof.
  revert t acc. induction slots as [|slots IH]; intros t acc Ht Hacc; cbn [time_digits].
  - split_and!; [done|done|]. change (64 ^ Z.of_nat 0) with 1. rewrite Z.mod_1_r. lia.
  - pose proof (Z.mod_pos_bound t 64 ltac:(lia)).
    destruct (IH (t / 64) (t mod 64 :: acc)) as (Hd & Hl & Hb);
      [apply Z.div_pos; lia|by constructor|].
    split_and!; [done|rewrite Hl; cbn [length]; lia|].
    rewrite Hb, base64_cons. cbn [length]. rewrite !Nat2Z.inj_succ, !Z.pow_succ_r by lia.
    rewrite (Z.rem_mul_r t 64 (64 ^ Z.of_nat slots)) by (lia || apply Z.pow_pos_nonneg; lia). ring.
Qed.

(** The digits of an id. *)
Definition id_digits (g : PushIdGenerator) : list Z :=
  time_digits 8 (last_time g) [] ++ last_random g.

Lemma id_digits_spec g : push_wf g -> last_time g < 2 ^ 48 ->
  digits64 (id_digits g) /\ length (id_digits g) = 20%nat /\ base64 (id_digits g) = id_number g.
Proof.
  intros [Ht Hr Hs] Hlt. destruct (time_digits_spec 8 (last_time g) [] Ht) as (Hd & Hl & Hb);
    [constructor|]. unfold id_digits. split_and!.
  - by apply Forall_app.
  - rewrite length_app, Hl, Hs. done.
  - rewrite base64_app, Hb, Hs. change (64 ^ Z.of_nat 8) with (2 ^ 48).
    rewrite Z.mod_small by lia.
    change (base64 []) with 0. change (Z.of_nat (length [])) with 0.
    change (Z.of_nat 12) with 12. unfold id_number. lia.
Qed.

Lemma current_digits g : current g = string_of (map push_char (id_digits g)).
Proof. unfold current, id_digits. by rewrite map_app. Qed.

Lemma current_lt g g' : push_wf g -> push_wf g' -> last_time g < 2 ^ 48 -> last_time g' < 2 ^ 48 ->
  id_number g < id_number g' -> ord_lt (current g) (current g').
Proof.
  intros Hw Hw' Ht Ht' Hlt. rewrite !current_digits.
  destruct (id_digits_spec g Hw Ht) as (Hd & Hl & Hb).
  destruct (id_digits_spec g' Hw' Ht') as (Hd' & Hl' & Hb').
  assert (Hbytes : forall l, digits64 l -> Forall (fun b => 0 <= b < 128) (map push_char l)).
  { intros l Hl0. apply Forall_fmap. eapply Forall_impl; [exact Hl0|]. intros d. apply push_char_byte. }
  apply lex_lt_string; [by apply Hbytes..|]. apply lex_lt_map; [done|done|].
  apply base64_lex; [done|done|congruence|lia].
Qed.

Lemma current_length g : push_wf g -> last_time g < 2 ^ 48 -> length (bytes_of (current g)) = 20%nat.
Proof.
  intros Hw Ht. rewrite current_digits. destruct (id_digits_spec g Hw Ht) as (Hd & Hl & _).
  rewrite bytes_of_string_of; [by rewrite length_map|].
  apply Forall_fmap. eapply Forall_impl; [exact Hd|]. intros d Hdd.
  change (0 <= push_char d < 256). pose proof (push_char_byte d Hdd). lia.
Qed.

(** ** One request *)

Lemma split_mix_range s : is_u64 (split_mix s).1.
Proof.
  unfold split_mix. cbn [fst]. rewrite !wrapping_u64.
  apply xorshift_u64; [lia|apply wrap64_range].
Qed.

Lemma random_loop_spec slots s :
  digits64 (random_loop slots s).1 /\ length (random_loop slots s).1 = slots.
Proof.
  revert s. induction slots as [|slots IH]; intros s; cbn [random_loop]; [split; [constructor|done]|].
  pose proof (split_mix_range s) as [Hz Hz']. destruct (split_mix s) as [z s1]. cbn [fst] in Hz, Hz'.
  destruct (IH s1) as [Hd Hl]. destruct (random_loop slots s1) as [rest s2]. cbn [fst] in *.
  split; [|cbn; lia]. constructor; [|done].
  assert (0 <= Z.shiftr z 58 < 64).
  { rewrite Z.shiftr_div_pow2 by lia. split; [apply Z.div_pos; lia|apply Z.div_lt_upper_bound; lia]. }
  by rewrite wrapping_id by int_lia.
Qed.

Lemma fresh_random_wf g : 0 <= last_time g -> length (last_random g) = 12%nat ->
  push_wf (fresh_random g) /\ last_time (fresh_random g) = last_time g.
Proof.
  intros Ht Hl. unfold fresh_random. destruct (random_loop_spec (length (last_random g)) (rng g)) as [Hd Hn].
  destruct (random_loop _ _) as [random s]. cbn [fst] in *. split; [|done]. constructor; cbn; [done|done|by rewrite Hn].
Qed.

Lemma increment_loop_spec l : digits64 l ->
  let (done, l') := increment_loop l in
  digits64 l' /\ length l' = length l /\
  (done = true -> base64 (rev l') = base64 (rev l) + 1).
Proof.
  induction 1 as [|d l Hd Hl IH]; cbn [increment_loop]; [split_and!; [constructor|done|done]|].
  destruct (Z.eqb_spec d 63) as [->|Hne].
  - destruct (increment_loop l) as [done l']. destruct IH as (Hd' & Hl' & Hb).
    split_and!; [by constructor|cbn; lia|]. intros Hdone. specialize (Hb Hdone). cbn [rev].
    rewrite !base64_app, Hb. cbn [length]. change (Z.of_nat 1) with 1.
    change (base64 [0]) with 0. change (base64 [63]) with 63. lia.
  - rewrite wrapping_id by int_lia. split_and!; [constructor; [lia|done]|done|]. intros _.
    cbn [rev]. rewrite !base64_app. rewrite !base64_cons. cbn [length].
    change (base64 []) with 0. change (64 ^ Z.of_nat 0) with 1. lia.
Qed.

(** A request leaves a later number, within one millisecond of the later of the
    two clocks. *)
Lemma next_id_spec now g : push_wf g -> 0 <= now < 2 ^ 48 -> last_time g < 2 ^ 48 - 1 ->
  let (id, g') := next_id now g in
  push_wf g' /\ id = current g' /\ id_number g < id_number g' /\
  now <= last_time g' <= Z.max now (last_time g + 1).
Proof.
  intros Hw Hnow Ht. pose proof Hw as [Ht0 Hr Hs]. unfold next_id.
  assert (Hbase : base64 (last_random g) < 64 ^ 12).
  { pose proof (base64_bound _ Hr) as Hb. rewrite Hs in Hb. exact (proj2 Hb). }
  assert (Hlater : forall g', push_wf g' -> last_time g < last_time g' -> id_number g < id_number g').
  { intros g' [_ Hr' _] Hlt. unfold id_number. pose proof (base64_bound _ Hr'). nia. }
  destruct (Z.ltb_spec (last_time g) now) as [Hlt|Hge].
  - destruct (fresh_random_wf (set_time now g)) as [Hw' Ht']; [cbn; lia|done|].
    cbn in Ht'. split_and!; [done|done|apply Hlater; [done|lia]|lia|lia].
  - unfold increment_random.
    pose proof (increment_loop_spec (rev (last_random g)) ltac:(by apply Forall_rev)) as Hi.
    destruct (increment_loop (rev (last_random g))) as [done l']. destruct Hi as (Hd & Hl & Hb).
    rewrite length_rev, Hs in Hl. destruct done.
    + cbn [last_time]. rewrite rev_involutive in Hb. split_and!; [|done| |lia|lia].
      * constructor; cbn; [done|by apply Forall_rev|by rewrite length_rev].
      * unfold id_number. cbn [last_time last_random]. rewrite Hb by done. lia.
    + cbn [last_time]. rewrite wrapping_id by int_lia.
      set (g1 := set_time _ _). destruct (fresh_random_wf g1) as [Hw' Ht'];
        [cbn; lia|cbn; by rewrite length_rev|]. cbn in Ht'.
      split_and!; [done|done|apply Hlater; [done|lia]|lia|lia].
Qed.

(** ** Properties *)

(** Push ids strictly increase: whatever the clock does (equal milliseconds,
    steps back), as long as it and the number of requests stay below the range of
    the eight time characters, every id a generator hands out is 20 characters
    long and orders after all earlier ones. *)
Theorem push_ids_strictly_increase g nows (limit : Z) :
  push_wf g -> last_time g <= limit -> Forall (fun t => 0 <= t <= limit) nows ->
  limit + Z.of_nat (length nows) < 2 ^ 48 - 1 ->
  StronglySorted ord_lt (current g :: next_ids nows g) /\
  Forall (fun id => length (bytes_of id) = 20%nat) (next_ids nows g).
Proof.
  intros Hw Ht Hnows. revert g limit Hw Ht Hnows.
  induction nows as [|t nows IH]; intros g limit Hw Ht Hnows Hlim; cbn [next_ids length] in *.
  { split; repeat constructor. }
  apply Forall_cons in Hnows as [Hti Hnows].
  pose proof (next_id_spec t g Hw ltac:(lia) ltac:(lia)) as Hn.
  destruct (next_id t g) as [id g']. destruct Hn as (Hw' & -> & Hlt & Hle & Hub).
  destruct (IH g' (limit + 1)) as [Hs Hl].
  { done. }
  { lia. }
  { eapply Forall_impl; [exact Hnows|]. cbn. lia. }
  { lia. }
  assert (Hgt : ord_lt (current g) (current g')) by (apply current_lt; (done || lia)).
  split.
  - constructor; [done|]. constructor; [done|].
    apply StronglySorted_cons in Hs as [Hs _]. eapply Forall_impl; [exact Hs|].
    intros x. by apply ord_lt_trans.
  - constructor; [|done]. apply current_length; [done|lia].
Qed.

Lemma push_new_wf seed : push_wf (push_new seed).
Proof. constructor; [done| |done]. by apply Forall_replicate. Qed.

Lemma push_ids_strictly_increase_witness :
  StronglySorted ord_lt
    (current (push_new 7) :: next_ids [1700000000000; 1700000000000; 5] (push_new 7)).
Proof.
  apply (push_ids_strictly_increase (push_new 7) [1700000000000; 1700000000000; 5] 1700000000000
           (push_new_wf 7)); [cbn; lia| |cbn; lia].
  repeat constructor; lia.
Defined.
