(* ===== verification/Base32.v ===== *)
(** * Base32

    Models [crates/fireemu-core-auth/src/base32.rs] (RFC 4648, the encoding of
    TOTP secrets). *)
From S2P Require Import Prelude.

Definition ALPHABET : string := "ABCDEFGHIJKLMNOPQRSTUVWXYZ234567".

Record Base32Error := { b32_offset : Z }.

(** [u64::from_be_bytes([0, 0, 0, buf...])] of five bytes. *)
Definition be_bytes (buf : list Z) : Z := fold_left (fun v b => v * 256 + b) buf 0.

(** How many characters carry the bits of a chunk. *)
Definition chunk_chars (n : nat) : nat :=
  match n with 1 => 2 | 2 => 4 | 3 => 5 | 4 => 7 | _ => 8 end%nat.

Definition char_at (bits : Z) (i : nat) : Z :=
  nth (Z.to_nat (Z.land (Z.shiftr bits (35 - Z.of_nat i * 5)) 0x1F)) (bytes_of ALPHABET) 0.

Definition encode_chunk (chunk : list Z) : list Z :=
  let buf := chunk ++ replicate (5 - length chunk) 0 in
  let bits := be_bytes buf in
  let chars := chunk_chars (length chunk) in
  map (fun i => if (i <? chars)%nat then char_at bits i else ch "=") (seq 0 8).

(** [data.chunks(5)]: the slice pattern that takes five at a time is the
    recursion; the last, shorter chunk is the other case. *)
Fixpoint encode_chunks (data : list Z) : list Z :=
  match data with
  | [] => []
  | a :: b :: c :: d :: e :: rest => encode_chunk [a; b; c; d; e] ++ encode_chunks rest
  | short => encode_chunk short
  end.

Definition encode (data : list Z) : string := string_of (encode_chunks data).

Definition to_ascii_uppercase (b : Z) : Z := if is_ascii_lowercase b then b - 32 else b.

Definition char_value (c : Z) : option Z :=
  let c := to_ascii_uppercase c in
  if is_ascii_uppercase c then Some (c - ch "A")
  else if (ch "2" <=? c) && (c <=? ch "7") then Some (c - ch "2" + 26)
  else None.

(** The loop of [decode] over the bytes from [offset]: what it pushes. *)
Fixpoint decode_loop (offset : Z) (text : list Z) (buffer bits : Z)
    : result (list Z) Base32Error :=
  match text with
  | [] => Ok []
  | c :: text =>
      if c =? ch "=" then Ok []
      else match char_value c with
           | None => Err {| b32_offset := offset |}
           | Some value =>
               let buffer := Z.lor (wrap64 (Z.shiftl buffer 5)) value in
               let bits := wrapping u32 (bits + 5) in
               if 8 <=? bits then
                 let bits := wrapping u32 (bits - 8) in
                 match decode_loop (offset + 1) text buffer bits with
                 | Ok out => Ok (wrapping u8 (Z.land (Z.shiftr buffer bits) 0xFF) :: out)
                 | Err e => Err e
                 end
               else decode_loop (offset + 1) text buffer bits
           end
  end.

Definition decode (text : string) : result (list Z) Base32Error := decode_loop 0 (bytes_of text) 0 0.

Example encode_ex : encode (bytes_of "foobar") = "MZXW6YTBOI======".
Proof. vm_compute. reflexivity. Qed.

Example decode_ex : decode "mzxw6ytboi" = Ok (bytes_of "foobar").
Proof. vm_compute. reflexivity. Qed.

(** ** The characters of a chunk *)

Definition is_byte (b : Z) : Prop := 0 <= b < 256.

(** The five-bit groups of five bytes. *)
Definition groups (a b c d e : Z) : list Z :=
  [a / 8; a mod 8 * 4 + b / 64; b / 2 mod 32; b mod 2 * 16 + c / 16; c mod 16 * 2 + d / 128;
   d / 4 mod 32; d mod 4 * 8 + e / 32; e mod 32].

Lemma group_at a b c d e (i : nat) :
  is_byte a -> is_byte b -> is_byte c -> is_byte d -> is_byte e -> (i < 8)%nat ->
  Z.land (Z.shiftr (be_bytes [a; b; c; d; e]) (35 - Z.of_nat i * 5)) 0x1F =
    nth i (groups a b c d e) 0 /\ 0 <= nth i (groups a b c d e) 0 < 32.
Proof.
  unfold is_byte. intros Ha Hb Hc Hd He Hi. change 0x1F with (Z.ones 5).
  rewrite Z.land_ones, Z.shiftr_div_pow2 by lia. unfold be_bytes. cbn [fold_left].
  destruct i as [|[|[|[|[|[|[|[|i]]]]]]]]; [..|lia];
    cbn [nth groups]; cbn -[Z.div Z.modulo Z.mul Z.add];
    (split; [|Z.div_mod_to_equations; lia]); Z.div_mod_to_equations; lia.
Qed.

(** A character of the alphabet reads back as its index. *)
Lemma alphabet_value v : 0 <= v < 32 ->
  let c := nth (Z.to_nat v) (bytes_of ALPHABET) 0 in
  char_value c = Some v /\ c <> ch "=" /\ is_byte c.
Proof.
  intros Hv. assert (Hall : forallb (fun i =>
      let c := nth i (bytes_of ALPHABET) 0 in
      bool_decide (char_value c = Some (Z.of_nat i)) && negb (c =? ch "=") && (0 <=? c) && (c <? 256))
    (seq 0 32) = true) by (vm_compute; reflexivity).
  rewrite forallb_forall in Hall. specialize (Hall (Z.to_nat v)). rewrite in_seq in Hall.
  specialize (Hall ltac:(lia)). cbv zeta in Hall |- *.
  rewrite !andb_true_iff, bool_decide_eq_true, Z2Nat.id in Hall by lia. unfold is_byte.
  destruct Hall as [[[-> H1] H2] H3]. split_and!; (done || lia).
Qed.

(** ** What the decoder reads

    Only the low [bits] bits of the buffer matter: [r] is their value. *)

Fixpoint take_values (vs : list Z) (r bits : Z) : list Z :=
  match vs with
  | [] => []
  | v :: vs =>
      if 3 <=? bits then (r * 32 + v) / 2 ^ (bits - 3) :: take_values vs ((r * 32 + v) mod 2 ^ (bits - 3)) (bits - 3)
      else take_values vs (r * 32 + v) (bits + 5)
  end.

Fixpoint end_bits (vs : list Z) (bits : Z) : Z :=
  match vs with
  | [] => bits
  | v :: vs => end_bits vs (if 3 <=? bits then bits - 3 else bits + 5)
  end.

Definition prepend (l : list Z) (r : result (list Z) Base32Error) : result (list Z) Base32Error :=
  match r with Ok out => Ok (l ++ out) | Err e => Err e end.

(** Appending five bits to the buffer. *)
Lemma push_bits B v : is_u64 B -> 0 <= v < 32 ->
  Z.lor (wrap64 (Z.shiftl B 5)) v = (B * 32 + v) mod 2 ^ 64.
Proof.
  intros [HB HB'] Hv. unfold wrap64. rewrite Z.shiftl_mul_pow2 by lia. change (2 ^ 5) with 32.
  assert (Hdiv : B * 32 mod 2 ^ 64 = B mod 2 ^ 59 * 32).
  { change (2 ^ 64) with (2 ^ 59 * 32). by rewrite Z.mul_mod_distr_r by lia. }
  assert (Hadd : (B * 32 + v) mod 2 ^ 64 = B * 32 mod 2 ^ 64 + v).
  { pose proof (Z.mod_pos_bound B (2 ^ 59) ltac:(lia)). rewrite <- Z.add_mod_idemp_l by lia.
    apply Z.mod_small. lia. }
  rewrite Hadd, Hdiv. symmetry. rewrite <- Z.add_lor_land.
  replace (Z.land (B mod 2 ^ 59 * 32) v) with 0; [lia|]. symmetry. apply Z.bits_inj'. intros n Hn.
  rewrite Z.land_spec, Z.bits_0. change 32 with (2 ^ 5). destruct (decide (n < 5)).
  - by rewrite Z.mul_pow2_bits_low.
  - rewrite (proj1 (below_pow2_bits 5 v ltac:(lia) ltac:(lia)) ltac:(lia)) by lia. apply andb_false_r.
Qed.

Lemma mod_mod_pow2 x a b : 0 <= a <= b -> (x mod 2 ^ b) mod 2 ^ a = x mod 2 ^ a.
Proof.
  intros Hab. replace (2 ^ b) with (2 ^ a * 2 ^ (b - a)) by (rewrite <- Z.pow_add_r by lia; f_equal; lia).
  assert (0 < 2 ^ a) by (apply Z.pow_pos_nonneg; lia).
  assert (0 < 2 ^ (b - a)) by (apply Z.pow_pos_nonneg; lia).
  rewrite Z.rem_mul_r by lia. rewrite Z.mul_comm, Z.mod_add, Z.mod_mod by lia. done.
Qed.

Lemma div_mod_pow2 x k : 0 <= k -> (x / 2 ^ k) mod 256 = x mod 2 ^ (k + 8) / 2 ^ k.
Proof.
  intros Hk. assert (0 < 2 ^ k) by (apply Z.pow_pos_nonneg; lia).
  rewrite Z.pow_add_r by lia. change (2 ^ 8) with 256. rewrite Z.rem_mul_r by lia.
  rewrite (Z.mul_comm (2 ^ k)), Z.div_add by lia.
  rewrite (Z.div_small (x mod 2 ^ k)) by (apply Z.mod_pos_bound; lia). lia.
Qed.

(** Reading the characters of the values [vs]. *)
Lemma decode_values cs vs : Forall2 (fun c v => char_value c = Some v /\ c <> ch "=" /\ 0 <= v < 32) cs vs ->
  forall off text B bits, is_u64 B -> 0 <= bits < 8 ->
  exists B', is_u64 B' /\
    decode_loop off (cs ++ text) B bits =
      prepend (take_values vs (B mod 2 ^ bits) bits)
        (decode_loop (off + Z.of_nat (length cs)) text B' (end_bits vs bits)).
Proof.
  induction 1 as [|c v cs vs (Hc & Hne & Hv) Hall IH]; intros off text B bits HB Hbits.
  - exists B. split; [done|]. cbn. rewrite Z.add_0_r. by destruct (decode_loop off text B bits).
  - cbn [app decode_loop]. rewrite (proj2 (Z.eqb_neq _ _)) by done. rewrite Hc. cbv zeta.
    rewrite push_bits by done. set (B1 := (B * 32 + v) mod 2 ^ 64).
    assert (HB1 : is_u64 B1) by (apply Z.mod_pos_bound; lia).
    assert (Hr : forall n, 0 <= n <= bits + 5 -> B1 mod 2 ^ n = (B mod 2 ^ bits * 32 + v) mod 2 ^ n).
    { intros n Hn. subst B1. rewrite mod_mod_pow2 by lia.
      rewrite <- (mod_mod_pow2 (B * 32 + v) n (bits + 5)) by lia.
      rewrite <- (mod_mod_pow2 (B mod 2 ^ bits * 32 + v) n (bits + 5)) by lia. f_equal.
      rewrite <- (Z.add_mod_idemp_l (B * 32)), <- (Z.add_mod_idemp_l (B mod 2 ^ bits * 32))
        by (apply Z.pow_nonzero; lia).
      rewrite Z.pow_add_r by lia. change (2 ^ 5) with 32.
      assert (0 < 2 ^ bits) by (apply Z.pow_pos_nonneg; lia).
      by rewrite !Z.mul_mod_distr_r, Z.mod_mod by lia. }
    assert (Hsmall : 0 <= B mod 2 ^ bits * 32 + v < 2 ^ (bits + 5)).
    { rewrite Z.pow_add_r by lia. change (2 ^ 5) with 32.
      pose proof (Z.mod_pos_bound B (2 ^ bits) ltac:(apply Z.pow_pos_nonneg; lia)). lia. }
    rewrite wrapping_id by int_lia.
    cbn [take_values end_bits length]. rewrite Nat2Z.inj_succ.
    destruct (Z.leb_spec 8 (bits + 5)).
    + rewrite wrapping_id by int_lia. rewrite (proj2 (Z.leb_le 3 bits)) by lia.
      destruct (IH (off + 1) text B1 (bits + 5 - 8) HB1 ltac:(lia)) as (B' & HB' & ->).
      exists B'. split; [done|]. replace (bits + 5 - 8) with (bits - 3) by lia.
      assert (Hout : wrapping u8 (Z.land (Z.shiftr B1 (bits - 3)) 0xFF) =
                     (B mod 2 ^ bits * 32 + v) / 2 ^ (bits - 3)).
      { change 0xFF with (Z.ones 8). rewrite Z.land_ones, Z.shiftr_div_pow2 by lia.
        change (2 ^ 8) with 256. rewrite wrapping_id
          by (pose proof (Z.mod_pos_bound (B1 / 2 ^ (bits - 3)) 256); int_lia).
        rewrite div_mod_pow2 by lia. rewrite Hr by lia.
        replace (bits - 3 + 8) with (bits + 5) by lia. by rewrite Z.mod_small. }
      rewrite Hout, Hr by lia. replace (off + 1 + Z.of_nat (length cs)) with (off + Z.succ (Z.of_nat (length cs))) by lia.
      destruct (decode_loop _ _ _ _); done.
    + rewrite (proj2 (Z.leb_gt 3 bits)) by lia.
      destruct (IH (off + 1) text B1 (bits + 5) HB1 ltac:(lia)) as (B' & HB' & ->).
      exists B'. split; [done|]. rewrite Hr, Z.mod_small by lia.
      replace (off + 1 + Z.of_nat (length cs)) with (off + Z.succ (Z.of_nat (length cs))) by lia. done.
Qed.

(** The characters of a whole or short chunk, as the values they read as. *)
Lemma chunk_values a b c d e (n : nat) :
  is_byte a -> is_byte b -> is_byte c -> is_byte d -> is_byte e -> (n <= 8)%nat ->
  Forall2 (fun c v => char_value c = Some v /\ c <> ch "=" /\ 0 <= v < 32)
    (map (char_at (be_bytes [a; b; c; d; e])) (seq 0 n)) (take n (groups a b c d e)).
Proof.
  intros Ha Hb Hc Hd He Hn. apply Forall2_lookup. intros i.
  destruct (decide (i < n)%nat) as [Hi|Hi].
  - assert (Hs : seq 0 n !! i = Some i) by (apply lookup_seq; lia).
    rewrite list_lookup_fmap, Hs, lookup_take_lt by lia. cbn [fmap option_fmap option_map].
    destruct (group_at a b c d e i Ha Hb Hc Hd He ltac:(lia)) as [Hg Hr].
    assert (Hl : groups a b c d e !! i = Some (nth i (groups a b c d e) 0)).
    { destruct (nth_lookup_or_length (groups a b c d e) i 0) as [?|Hlen]; [done|cbn in Hlen; lia]. }
    rewrite Hl. constructor. unfold char_at. rewrite Hg.
    destruct (alphabet_value _ Hr) as (? & ? & ?). done.
  - rewrite !(proj2 (lookup_ge_None _ _)); [constructor| |].
    + rewrite length_take. lia.
    + rewrite length_map, length_seq. lia.
Qed.

Lemma take_out v vs r bits o r' :
  3 <= bits -> r * 32 + v = o * 2 ^ (bits - 3) + r' -> 0 <= r' < 2 ^ (bits - 3) ->
  take_values (v :: vs) r bits = o :: take_values vs r' (bits - 3).
Proof.
  intros Hb Heq Hr. cbn [take_values]. rewrite (proj2 (Z.leb_le 3 bits)), Heq by lia. f_equal.
  - rewrite Z.div_add_l, Z.div_small by lia. lia.
  - f_equal. rewrite Z.add_comm, Z.mod_add by lia. by apply Z.mod_small.
Qed.

Lemma take_in v vs r bits r' :
  bits < 3 -> r * 32 + v = r' -> take_values (v :: vs) r bits = take_values vs r' (bits + 5).
Proof. intros Hb <-. cbn [take_values]. by rewrite (proj2 (Z.leb_gt 3 bits)) by lia. Qed.

Ltac group_arith := first [lia | cbn -[Z.div Z.modulo]; Z.div_mod_to_equations; lia].

(** What the five bytes' groups, whole or cut short, read as. *)
Lemma groups_take a b c d e (n : nat) :
  is_byte a -> is_byte b -> is_byte c -> is_byte d -> is_byte e ->
  (n = 2 \/ n = 4 \/ n = 5 \/ n = 7 \/ n = 8)%nat ->
  take_values (take n (groups a b c d e)) 0 0 = take (n * 5 / 8) [a; b; c; d; e].
Proof.
  unfold is_byte. intros Ha Hb Hc Hd He Hn. unfold groups.
  destruct_or! Hn; subst n; cbn [take];
    rewrite (take_in _ _ 0 0 (a / 8)) by lia;
    rewrite (take_out _ _ _ (0 + 5) a (b / 64)) by group_arith;
    try (rewrite (take_in _ _ _ (0 + 5 - 3) (b / 2)) by group_arith);
    try (rewrite (take_out _ _ _ (0 + 5 - 3 + 5) b (c / 16)) by group_arith);
    try (rewrite (take_out _ _ _ (0 + 5 - 3 + 5 - 3) c (d / 128)) by group_arith);
    try (rewrite (take_in _ _ _ (0 + 5 - 3 + 5 - 3 - 3) (d / 4)) by group_arith);
    try (rewrite (take_out _ _ _ (0 + 5 - 3 + 5 - 3 - 3 + 5) d (e / 32)) by group_arith);
    try (rewrite (take_out _ _ _ (0 + 5 - 3 + 5 - 3 - 3 + 5 - 3) e 0) by group_arith);
    reflexivity.
Qed.

Lemma byte_at chunk i : Forall is_byte chunk -> is_byte (nth i chunk 0).
Proof.
  intros Hall. destruct (nth_lookup_or_length chunk i 0) as [Hl|Hlen].
  - by apply (Forall_lookup_1 _ _ _ _ Hall Hl).
  - rewrite nth_overflow by lia. by unfold is_byte.
Qed.

(** The encoded text is made of bytes. *)
Lemma char_at_byte bits i : is_byte (char_at bits i).
Proof.
  unfold char_at. apply alphabet_value. change 0x1F with (Z.ones 5). rewrite Z.land_ones by lia.
  apply Z.mod_pos_bound. lia.
Qed.

Lemma encode_chunk_bytes chunk : Forall is_byte (encode_chunk chunk).
Proof.
  unfold encode_chunk. apply Forall_map, Forall_forall. intros i _. unfold compose.
  destruct (i <? _)%nat; [apply char_at_byte|by unfold is_byte].
Qed.

Lemma encoded_bytes data : Forall is_byte (encode_chunks data).
Proof.
  induction data as [data IH] using (induction_ltof1 _ (@length Z)). unfold ltof in IH.
  destruct data as [|a [|b [|c [|d [|e rest]]]]]; [constructor|..]; try apply encode_chunk_bytes.
  cbn [encode_chunks]. apply Forall_app. split; [apply encode_chunk_bytes|].
  apply IH. cbn. lia.
Qed.

(** A whole chunk is eight characters, which read as its five bytes and leave no
    bits over. *)
Lemma decode_whole a b c d e off text B :
  is_byte a -> is_byte b -> is_byte c -> is_byte d -> is_byte e -> is_u64 B ->
  exists B', is_u64 B' /\
    decode_loop off (encode_chunk [a; b; c; d; e] ++ text) B 0 =
      prepend [a; b; c; d; e] (decode_loop (off + 8) text B' 0).
Proof.
  intros Ha Hb Hc Hd He HB.
  destruct (decode_values _ _ (chunk_values a b c d e 8 Ha Hb Hc Hd He ltac:(lia)) off text B 0 HB
    ltac:(lia)) as (B' & HB' & Hdec).
  exists B'. split; [done|].
  rewrite Z.mod_1_r, (groups_take a b c d e 8) in Hdec by (done || lia). exact Hdec.
Qed.

(** The last, shorter chunk: its padding ends the text. *)
Lemma decode_short chunk off B :
  Forall is_byte chunk -> (1 <= length chunk <= 4)%nat -> is_u64 B ->
  decode_loop off (encode_chunk chunk) B 0 = Ok chunk.
Proof.
  intros Hall Hlen HB.
  destruct (decode_values _ _ (chunk_values (nth 0 chunk 0) (nth 1 chunk 0) (nth 2 chunk 0) (nth 3 chunk 0)
      0 (chunk_chars (length chunk)) ltac:(by apply byte_at) ltac:(by apply byte_at) ltac:(by apply byte_at)
      ltac:(by apply byte_at) ltac:(by unfold is_byte) ltac:(by destruct (length chunk) as [|[|[|[|[|]]]]]; cbn; lia))
    off (map (fun _ => ch "=") (seq (chunk_chars (length chunk)) (8 - chunk_chars (length chunk)))) B 0 HB
    ltac:(lia)) as (B' & HB' & Hdec).
  rewrite Z.mod_1_r in Hdec.
  rewrite groups_take in Hdec by (try (by apply byte_at); try (by unfold is_byte);
    destruct (length chunk) as [|[|[|[|[|]]]]]; cbn; lia).
  destruct chunk as [|a [|b [|c [|d [|]]]]]; cbn in Hlen; try lia; exact Hdec.
Qed.

Lemma decode_chunks (n : nat) : forall data off B, (length data <= n)%nat -> Forall is_byte data -> is_u64 B ->
  decode_loop off (encode_chunks data) B 0 = Ok data.
Proof.
  induction n as [|n IH]; intros data off B Hn Hall HB.
  - destruct data; [done|cbn in Hn; lia].
  - destruct data as [|a [|b [|c [|d [|e rest]]]]]; [done|..].
    1-4: apply decode_short; [done|cbn; lia|done].
    cbn [encode_chunks]. rewrite !Forall_cons in Hall. destruct Hall as (Ha & Hb & Hc & Hd & He & Hrest).
    destruct (decode_whole a b c d e off (encode_chunks rest) B Ha Hb Hc Hd He HB) as (B' & HB' & ->).
    rewrite IH by first [done | cbn in Hn; lia]. done.
Qed.

(** [decode] undoes [encode] on every list of bytes, of every length modulo
    five: what [encode] writes is read back whole, padding included. *)
Theorem base32_round_trip (data : list Z) : Forall is_byte data -> decode (encode data) = Ok data.
Proof.
  intros Hall. unfold decode, encode. rewrite bytes_of_string_of.
  - apply (decode_chunks (length data)); [done|done|unfold is_u64; lia].
  - by apply encoded_bytes.
Qed.

Lemma base32_round_trip_witness :
  decode (encode (bytes_of "12345678901234567890ab")) = Ok (bytes_of "12345678901234567890ab").
Proof.
  apply base32_round_trip. repeat constructor; cbv; discriminate.
Defined.
