(* ===== verification/Text.v ===== *)
(** * Text operations of the standard library

    [str::split], [join], [trim_matches], [strip_prefix], [strip_suffix] and
    [split_once] for a one-character pattern.  A text is a list of numbers: the
    bytes of a [&str] in some components, its characters in others; for an ASCII
    pattern the operations are the same on both. *)
From S2P Require Import Prelude.

Abbreviation text := (list Z).

(** The characters of an ASCII literal. *)
Definition chars (s : string) : text := bytes_of s.

Definition is_scalar (c : Z) : Prop := 0 <= c < 0xD800 \/ 0xE000 <= c < 0x110000.

(** [s.len()]: the number of UTF-8 bytes. *)
Definition len_utf8 (c : Z) : Z :=
  if c <? 0x80 then 1 else if c <? 0x800 then 2 else if c <? 0x10000 then 3 else 4.

Definition str_len (s : text) : Z := fold_right (fun c n => len_utf8 c + n) 0 s.

(** [s.split(sep).collect()] *)
Fixpoint split_on (sep : Z) (s : text) : list text :=
  match s with
  | [] => [[]]
  | b :: s =>
      if b =? sep then [] :: split_on sep s
      else match split_on sep s with p :: ps => (b :: p) :: ps | [] => [[b]] end
  end.

(** [parts.join(sep)] *)
Fixpoint join (sep : Z) (parts : list text) : text :=
  match parts with
  | [] => []
  | [p] => p
  | p :: ps => p ++ sep :: join sep ps
  end.

Fixpoint trim_start (c : Z) (s : text) : text :=
  match s with b :: s' => if b =? c then trim_start c s' else s | [] => [] end.

(** [s.trim_matches(c)] *)
Definition trim_matches (c : Z) (s : text) : text := rev (trim_start c (rev (trim_start c s))).

Definition strip_prefix (c : Z) (s : text) : option text :=
  match s with b :: s' => if b =? c then Some s' else None | [] => None end.

Definition strip_suffix (c : Z) (s : text) : option text := @rev Z <$> strip_prefix c (rev s).

(** [s.split_once(c)] *)
Fixpoint split_once (c : Z) (s : text) : option (text * text) :=
  match s with
  | [] => None
  | b :: s =>
      if b =? c then Some ([], s)
      else (fun p : text * text => (b :: p.1, p.2)) <$> split_once c s
  end.

(** [s.strip_prefix(prefix)] *)
Fixpoint strip_text (prefix s : text) : option text :=
  match prefix, s with
  | [], _ => Some s
  | p :: prefix, c :: s => if c =? p then strip_text prefix s else None
  | _ :: _, [] => None
  end.

(** [s.split_once(pattern)] *)
Fixpoint split_once_at (pattern s : text) : option (text * text) :=
  match strip_text pattern s with
  | Some rest => Some ([], rest)
  | None =>
      match s with
      | [] => None
      | c :: s => '(before, after) ← split_once_at pattern s; Some (c :: before, after)
      end
  end.

(** ** Their laws *)

Lemma split_on_cons_ne sep s : split_on sep s <> [].
Proof. destruct s as [|b s]; [done|]. cbn. destruct (b =? sep); [done|]. by destruct (split_on sep s). Qed.

Lemma join_cons sep p ps : ps <> [] -> join sep (p :: ps) = p ++ sep :: join sep ps.
Proof. by destruct ps. Qed.

Lemma join_split sep s : join sep (split_on sep s) = s.
Proof.
  induction s as [|b s IH]; [done|]. cbn [split_on]. pose proof (split_on_cons_ne sep s) as Hne.
  destruct (Z.eqb_spec b sep) as [->|].
  - by rewrite join_cons, IH.
  - destruct (split_on sep s) as [|p ps]; [done|]. rewrite <- IH. by destruct ps.
Qed.

Lemma split_on_no_sep sep s : Forall (fun p => sep ∉ p) (split_on sep s).
Proof.
  induction s as [|b s IH]; [repeat constructor; set_solver|]. cbn [split_on].
  destruct (Z.eqb_spec b sep) as [->|]; [constructor; [set_solver|done]|].
  destruct (split_on sep s) as [|p ps]; [repeat constructor; set_solver|].
  inversion_clear IH. constructor; [set_solver|done].
Qed.

Lemma split_on_word sep p : sep ∉ p -> split_on sep p = [p].
Proof.
  induction p as [|b p IH]; [done|]. intros Hp. cbn. rewrite (proj2 (Z.eqb_neq _ _)) by set_solver.
  by rewrite IH by set_solver.
Qed.

Lemma split_on_app sep p s : sep ∉ p -> split_on sep (p ++ sep :: s) = p :: split_on sep s.
Proof.
  induction p as [|b p IH]; intros Hp; cbn; [by rewrite Z.eqb_refl|].
  rewrite (proj2 (Z.eqb_neq _ _)) by set_solver. by rewrite IH by set_solver.
Qed.

Lemma split_join sep ps : ps <> [] -> Forall (fun p => sep ∉ p) ps -> split_on sep (join sep ps) = ps.
Proof.
  intros Hne Hall. induction Hall as [|p ps Hp Hall IH]; [done|].
  destruct (decide (ps = [])) as [->|Hps]; [by apply split_on_word|].
  by rewrite join_cons, split_on_app, IH.
Qed.

Lemma strip_text_Some prefix : forall s r, strip_text prefix s = Some r <-> s = prefix ++ r.
Proof.
  induction prefix as [|p prefix IH]; intros s r; cbn; [split; by intros [= ->]|].
  destruct s as [|c s]; [done|]. destruct (Z.eqb_spec c p) as [->|Hne].
  - rewrite IH. split; [by intros ->|by intros [= ->]].
  - split; [done|]. by intros [= -> _].
Qed.

Lemma split_once_None c s : split_once c s = None <-> c ∉ s.
Proof.
  induction s as [|b s IH]; [cbn; set_solver|]. cbn. destruct (Z.eqb_spec b c) as [->|].
  - split; [done|]. set_solver.
  - rewrite fmap_None, IH. set_solver.
Qed.

Lemma split_once_Some c s n r : split_once c s = Some (n, r) <-> s = n ++ c :: r /\ c ∉ n.
Proof.
  revert n. induction s as [|b s IH]; intros n; cbn; [split; [done|]; by intros [Hs _]; destruct n|].
  destruct (Z.eqb_spec b c) as [->|Hb].
  - split; [intros [= <- <-]; set_solver|]. intros [Hs Hn]. destruct n; [by simplify_eq/=|].
    simplify_eq/=. set_solver.
  - rewrite fmap_Some. split.
    + intros ([n' r'] & Hsp & [= -> ->]). apply IH in Hsp as [-> ?]. set_solver.
    + intros [Hs Hn]. destruct n as [|b' n]; [by simplify_eq/=|]. simplify_eq/=.
      exists (n, r). split; [apply IH; set_solver|done].
Qed.

Lemma strip_both p inner c d :
  (strip_prefix c p ≫= strip_suffix d) = Some inner <-> p = c :: inner ++ [d].
Proof.
  unfold strip_suffix. destruct p as [|b p]; cbn; [split; [done|by destruct inner]|].
  destruct (Z.eqb_spec b c) as [->|]; cbn; [|split; [done|by intros [= ]]].
  split.
  - intros (s & Hs & ->)%fmap_Some. destruct (rev p) as [|x r] eqn:Hr; cbn in Hs; [done|].
    destruct (Z.eqb_spec x d) as [->|]; [|done]. simplify_eq.
    by rewrite <- (rev_involutive p), Hr.
  - intros [= ->]. rewrite rev_app_distr. cbn. rewrite Z.eqb_refl. cbn. by rewrite rev_involutive.
Qed.

Lemma contains_byte_false c s : contains_byte c s = false -> c ∉ s.
Proof.
  unfold contains_byte. intros Hc Hin%list_elem_of_In. rewrite <- not_true_iff_false, existsb_exists in Hc.
  apply Hc. exists c. by rewrite Z.eqb_refl.
Qed.
