(* ===== verification/PathPattern.v ===== *)
(** * Document path patterns

    Models [crates/fireemu-core-functions/src/pattern.rs]: the patterns that
    Firestore event triggers name documents with.  A [&str] is its bytes; every
    character the code looks for is ASCII, so that a byte of the text is the
    character or part of another one.  [matches] slices [parts[i..]], which
    panics when [i] is out of range: the outer [None] of [matches] is that
    panic. *)
From S2P Require Import Prelude Text.

Inductive Segment :=
| Literal (l : text)
| Wildcard
| MultiWildcard
| Capture (name : text)
| MultiCapture (name : text).

#[global] Instance Segment_eq_dec : EqDecision Segment.
Proof. solve_decision. Defined.

Record PathPattern := { segments : list Segment; source : text }.

Inductive PatternError :=
| EmptySegment
| MultiNotLast
| MalformedCapture (s : text)
| DuplicateCapture (s : text).

(** ** Parsing *)

Definition name_char (b : Z) : bool := is_ascii_alphanumeric b || (b =? ch "_").

Definition is_multi (seg : Segment) : bool :=
  match seg with MultiWildcard | MultiCapture _ => true | _ => false end.

(** The capture arm of [parse]: a part that starts with an opening brace. *)
Definition parse_capture (p : text) (names : list text) : result (Segment * list text) PatternError :=
  match strip_prefix (ch "{") p ≫= strip_suffix (ch "}") with
  | None => Err (MalformedCapture p)
  | Some inner =>
      match (match split_once (ch "=") inner with
             | Some (n, r) => if decide (r = bytes_of "**") then Some (n, true) else None
             | None => Some (inner, false)
             end) with
      | None => Err (MalformedCapture p)
      | Some (name, multi) =>
          if bool_decide (name = []) || negb (forallb name_char name) then Err (MalformedCapture p)
          else if existsb (fun n => bool_decide (n = name)) names then Err (DuplicateCapture name)
          else Ok (if multi : bool then MultiCapture name else Capture name, names ++ [name])
      end
  end.

(** One part of the pattern, with the capture names seen so far. *)
Definition parse_segment (part : text) (names : list text) : result (Segment * list text) PatternError :=
  if decide (part = []) then Err EmptySegment
  else if decide (part = bytes_of "*") then Ok (Wildcard, names)
  else if decide (part = bytes_of "**") then Ok (MultiWildcard, names)
  else if starts_with [ch "{"] part then parse_capture part names
  else Ok (Literal part, names).

(** The loop over the parts; [last] is that none follows. *)
Fixpoint parse_loop (parts names : list text) (segments : list Segment)
    : result (list Segment) PatternError :=
  match parts with
  | [] => Ok segments
  | part :: parts =>
      match parse_segment part names with
      | Err e => Err e
      | Ok (seg, names) =>
          let last := match parts with [] => true | _ => false end in
          if is_multi seg && negb last then Err MultiNotLast
          else parse_loop parts names (segments ++ [seg])
      end
  end.

Definition parse (pattern : text) : result PathPattern PatternError :=
  let trimmed := trim_matches (ch "/") pattern in
  if decide (trimmed = []) then Err EmptySegment
  else match parse_loop (split_on (ch "/") trimmed) [] [] with
       | Err e => Err e
       | Ok segments => Ok {| segments := segments; source := trimmed |}
       end.

Definition as_str (p : PathPattern) : text := source p.

(** ** Matching *)

(** The loop of [matches] from part [i]. *)
Fixpoint match_loop (segs : list Segment) (parts : list text) (i : nat) (params : gmap text text)
    : option (option (gmap text text)) :=
  match segs with
  | [] => Some (if decide (i = length parts) then Some params else None)
  | MultiWildcard :: _ => Some (Some params)
  | MultiCapture name :: _ =>
      if (length parts <? i)%nat then None
      else Some (Some (<[name := join (ch "/") (drop i parts)]> params))
  | Literal l :: segs =>
      if decide (parts !! i = Some l) then match_loop segs parts (S i) params else Some None
  | Wildcard :: segs =>
      match parts !! i with None => Some None | Some _ => match_loop segs parts (S i) params end
  | Capture name :: segs =>
      match parts !! i with
      | None => Some None
      | Some value => match_loop segs parts (S i) (<[name := value]> params)
      end
  end.

Definition matches (p : PathPattern) (path : text) : option (option (gmap text text)) :=
  match_loop (segments p) (split_on (ch "/") (trim_matches (ch "/") path)) 0 ∅.

Definition is_document_pattern (p : PathPattern) : bool :=
  match last (segments p) with
  | Some MultiWildcard | Some (MultiCapture _) => true
  | _ => Nat.even (length (segments p))
  end.

Example parse_ex :
  segments <$> (match parse (bytes_of "/posts/{id}/comments/{rest=**}/") with Ok p => Some p | Err _ => None end) =
    Some [Literal (bytes_of "posts"); Capture (bytes_of "id"); Literal (bytes_of "comments");
          MultiCapture (bytes_of "rest")].
Proof. vm_compute. reflexivity. Qed.

Example parse_multi_ex : parse (bytes_of "a/**/b") = Err MultiNotLast.
Proof. vm_compute. reflexivity. Qed.

Example parse_duplicate_ex : parse (bytes_of "{a}/{a}") = Err (DuplicateCapture (bytes_of "a")).
Proof. vm_compute. reflexivity. Qed.

(** ** What a pattern is

    The text of a segment, and the segments the syntax has. *)

Definition segment_text (seg : Segment) : text :=
  match seg with
  | Literal l => l
  | Wildcard => bytes_of "*"
  | MultiWildcard => bytes_of "**"
  | Capture name => ch "{" :: name ++ [ch "}"]
  | MultiCapture name => ch "{" :: (name ++ bytes_of "=**") ++ [ch "}"]
  end.

Definition capture_name (seg : Segment) : list text :=
  match seg with Capture n | MultiCapture n => [n] | _ => [] end.

Definition name_ok (n : text) : Prop := n <> [] /\ forallb name_char n = true.

Definition segment_ok (seg : Segment) : Prop :=
  match seg with
  | Literal l => l <> [] /\ l <> bytes_of "*" /\ l <> bytes_of "**" /\
                 starts_with [ch "{"] l = false /\ ch "/" ∉ l
  | Wildcard | MultiWildcard => True
  | Capture n | MultiCapture n => name_ok n
  end.

(** A multi-segment wildcard only at the end. *)
Fixpoint multi_last (segs : list Segment) : Prop :=
  match segs with
  | [] => True
  | seg :: segs => (is_multi seg = true -> segs = []) /\ multi_last segs
  end.

Definition capture_names (segs : list Segment) : list text := segs ≫= capture_name.

Definition pattern_ok (segs : list Segment) : Prop :=
  segs <> [] /\ Forall segment_ok segs /\ multi_last segs /\ NoDup (capture_names segs).

(** ** One segment *)

Lemma name_lacks c n : name_char c = false -> forallb name_char n = true -> c ∉ n.
Proof.
  intros Hc Hn Hin. rewrite forallb_forall in Hn. apply list_elem_of_In, Hn in Hin. congruence.
Qed.

Lemma existsb_names (name : text) (names : list text) :
  existsb (fun n => bool_decide (n = name)) names = false <-> name ∉ names.
Proof.
  rewrite <- not_true_iff_false, existsb_exists. setoid_rewrite <- list_elem_of_In.
  setoid_rewrite bool_decide_eq_true. naive_solver.
Qed.

Lemma name_test (name : text) : bool_decide (name = []) || negb (forallb name_char name) = false <-> name_ok name.
Proof.
  unfold name_ok. rewrite orb_false_iff, negb_false_iff, bool_decide_eq_false. done.
Qed.

(** The two ways in which a capture is written. *)
Lemma parse_capture_Ok p names seg names' :
  parse_capture p names = Ok (seg, names') ->
  exists n, (seg = Capture n \/ seg = MultiCapture n) /\ p = segment_text seg /\ name_ok n /\
            (n ∉ names) /\ names' = names ++ [n].
Proof.
  unfold parse_capture. destruct (strip_prefix _ _ ≫= strip_suffix _) as [inner|] eqn:Hs; [|done]. apply strip_both in Hs as ->.
  destruct (split_once _ inner) as [[n r]|] eqn:Ho.
  - destruct (decide _) as [->|]; [|done]. apply split_once_Some in Ho as [-> _].
    destruct (_ || _) eqn:Hn; [done|]. destruct (existsb _ _) eqn:He; [done|]. intros [= <- <-].
    apply name_test in Hn. apply existsb_names in He. exists n. cbn. naive_solver.
  - destruct (_ || _) eqn:Hn; [done|]. destruct (existsb _ _) eqn:He; [done|]. intros [= <- <-].
    apply name_test in Hn. apply existsb_names in He. exists inner. cbn. naive_solver.
Qed.

Lemma parse_capture_text seg n names :
  seg = Capture n \/ seg = MultiCapture n -> name_ok n -> n ∉ names ->
  parse_capture (segment_text seg) names = Ok (seg, names ++ [n]).
Proof.
  intros Hseg Hn Hin. assert (Heq : ch "=" ∉ n) by (apply name_lacks; [done|apply Hn]). unfold parse_capture.
  pose proof (proj2 (name_test n) Hn) as Ht. pose proof (proj2 (existsb_names n names) Hin) as He.
  destruct Hseg as [-> | ->]; cbn [segment_text].
  - rewrite (proj2 (strip_both _ n _ _) eq_refl), (proj2 (split_once_None _ _) Heq). by rewrite Ht, He.
  - rewrite (proj2 (strip_both _ (n ++ bytes_of "=**") _ _) eq_refl).
    rewrite (proj2 (split_once_Some (ch "=") (n ++ bytes_of "=**") n (bytes_of "**")) (conj eq_refl Heq)).
    by rewrite decide_True, Ht, He.
Qed.

Lemma parse_segment_Ok part names seg names' :
  ch "/" ∉ part -> parse_segment part names = Ok (seg, names') ->
  part = segment_text seg /\ segment_ok seg /\ names' = names ++ capture_name seg /\
  (forall n, n ∈ capture_name seg -> n ∉ names).
Proof.
  intros Hslash. unfold parse_segment. repeat case_decide; [done|..].
  1-2: intros [= <- <-]; rewrite app_nil_r; set_solver.
  destruct (starts_with _ part) eqn:Hs.
  - intros (n & Hseg & -> & Hn & Hin & ->)%parse_capture_Ok.
    destruct Hseg as [-> | ->]; cbn; set_solver.
  - intros [= <- <-]. rewrite app_nil_r. cbn. set_solver.
Qed.

Lemma parse_segment_text seg names :
  segment_ok seg -> (forall n, n ∈ capture_name seg -> n ∉ names) ->
  parse_segment (segment_text seg) names = Ok (seg, names ++ capture_name seg).
Proof.
  intros Hok Hin. destruct seg as [l| | |n|n]; cbn [capture_name] in *; rewrite ?app_nil_r; try done.
  - destruct Hok as (H1 & H2 & H3 & H4 & _). unfold parse_segment, segment_text.
    by rewrite !decide_False, H4 by done.
  - unfold parse_segment. rewrite !decide_False by (cbn; destruct Hok as [? _]; intros ?; by simplify_eq).
    apply (parse_capture_text (Capture n)); [auto|done|set_solver].
  - unfold parse_segment. rewrite !decide_False by (cbn; destruct Hok as [? _]; intros ?; by simplify_eq).
    apply (parse_capture_text (MultiCapture n)); [auto|done|set_solver].
Qed.

Lemma segment_text_no_slash seg : segment_ok seg -> ch "/" ∉ segment_text seg.
Proof.
  assert (Hname : forall n, name_ok n -> ch "/" ∉ n) by (intros n [_ Hn]; by apply name_lacks).
  destruct seg as [l| | |n|n]; cbn [segment_ok segment_text]; [naive_solver|..].
  1-2: intros _; by apply contains_byte_false.
  all: intros Hn%Hname Hc; rewrite elem_of_cons, ?elem_of_app, ?list_elem_of_singleton in Hc;
    destruct_or! Hc; try done; revert Hc; by apply contains_byte_false.
Qed.

(** ** The whole pattern *)

Lemma parse_loop_Ok parts : forall names acc out,
  Forall (fun p => ch "/" ∉ p) parts -> parse_loop parts names acc = Ok out ->
  exists segs, out = acc ++ segs /\ parts = map segment_text segs /\ Forall segment_ok segs /\
    multi_last segs /\ NoDup (capture_names segs) /\ (forall n, n ∈ capture_names segs -> n ∉ names).
Proof.
  induction parts as [|part parts IH]; intros names acc out Hall; cbn [parse_loop].
  - intros [= <-]. exists []. rewrite app_nil_r. split_and!; try done; [constructor|cbn; set_solver].
  - inversion_clear Hall. destruct (parse_segment part names) as [[seg names']|] eqn:Hp; [|done].
    apply parse_segment_Ok in Hp as (-> & Hok & -> & Hin); [|done]. cbv zeta.
    destruct (is_multi seg && _) eqn:Hm; [done|]. intros (segs & -> & -> & Hoks & Hml & Hnd & Hnew)%IH; [|done].
    exists (seg :: segs). rewrite <- (assoc_L (++)). split_and!; try done.
    + by constructor.
    + split; [|done]. intros Hmt. rewrite Hmt in Hm. by destruct segs.
    + cbn. apply NoDup_app. split_and!; [destruct seg; cbn; repeat constructor; set_solver| |done].
      intros n Hn Hn'. apply (Hnew n); set_solver.
    + cbn. intros n [Hn|Hn]%elem_of_app; [by apply Hin|]. specialize (Hnew n Hn). set_solver.
Qed.

Lemma parse_loop_text segs : forall names acc,
  Forall segment_ok segs -> multi_last segs -> NoDup (capture_names segs) ->
  (forall n, n ∈ capture_names segs -> n ∉ names) ->
  parse_loop (map segment_text segs) names acc = Ok (acc ++ segs).
Proof.
  induction segs as [|seg segs IH]; intros names acc Hok Hml Hnd Hin; cbn [map parse_loop].
  - by rewrite app_nil_r.
  - inversion_clear Hok. destruct Hml as [Hm Hml]. cbn in Hnd, Hin. apply NoDup_app in Hnd as (_ & Hdis & Hnd).
    rewrite parse_segment_text by (done || set_solver). cbv zeta.
    destruct (is_multi seg) eqn:Hmt; [rewrite (Hm eq_refl) in *|]; cbn [map andb negb]; [done|].
    rewrite IH; [|done..|set_solver]. by rewrite <- (assoc_L (++)).
Qed.

Lemma parse_ok pattern pat :
  parse pattern = Ok pat ->
  pattern_ok (segments pat) /\ source pat = trim_matches (ch "/") pattern /\
  source pat = join (ch "/") (map segment_text (segments pat)).
Proof.
  unfold parse, pattern_ok. case_decide; [done|].
  destruct (parse_loop _ _ _) as [segs|] eqn:Hl; [|done]. intros [= <-]. cbn.
  apply parse_loop_Ok in Hl as (segs' & -> & Hparts & Hok & Hml & Hnd & _); [|apply split_on_no_sep].
  cbn in *. rewrite <- Hparts, join_split. split_and!; try done.
  intros ->. by apply (split_on_cons_ne (ch "/") (trim_matches (ch "/") pattern)).
Qed.

(** [parse] accepts exactly the pattern language: it returns a pattern just
    when the trimmed text is the segments' text joined by slashes and the
    segments are well formed (a multi-segment wildcard only last, every capture
    name an identifier, no name twice), and what it returns prints back to the
    trimmed text; every other text is refused. *)
Theorem parse_accepts_pattern_language pattern pat :
  parse pattern = Ok pat <->
    pattern_ok (segments pat) /\ as_str pat = trim_matches (ch "/") pattern /\
    as_str pat = join (ch "/") (map segment_text (segments pat)).
Proof.
  split; [apply parse_ok|]. unfold parse, as_str, pattern_ok.
  intros ((Hne & Hok & Hml & Hnd) & Htrim & Htext). rewrite <- Htrim, Htext.
    assert (Hsplit : split_on (ch "/") (join (ch "/") (map segment_text (segments pat))) =
                     map segment_text (segments pat)).
    { apply split_join; [by destruct (segments pat)|]. apply Forall_map.
      eapply Forall_impl; [exact Hok|]. apply segment_text_no_slash. }
    case_decide as Hempty.
    + exfalso. rewrite Hempty in Hsplit. cbn in Hsplit.
      destruct (segments pat) as [|seg [|]]; [done| |done]. simplify_eq/=.
      inversion_clear Hok as [|? ? Hs _]. destruct seg; cbn in *; naive_solver.
    + rewrite Hsplit, parse_loop_text by (done || set_solver). cbn. rewrite <- Htext. by destruct pat.
Qed.

(** ** What a pattern matches

    [covers segs parts ps]: the segments cover the parts of a path one by one,
    the last one any number of them, capturing [ps]. *)

Inductive covers : list Segment -> list text -> list (text * text) -> Prop :=
| covers_end : covers [] [] []
| covers_literal l segs parts ps :
    covers segs parts ps -> covers (Literal l :: segs) (l :: parts) ps
| covers_wildcard p segs parts ps :
    covers segs parts ps -> covers (Wildcard :: segs) (p :: parts) ps
| covers_capture n p segs parts ps :
    covers segs parts ps -> covers (Capture n :: segs) (p :: parts) ((n, p) :: ps)
| covers_multi parts : covers [MultiWildcard] parts []
| covers_multi_capture n parts : covers [MultiCapture n] parts [(n, join (ch "/") parts)].

Lemma covers_names segs parts ps : covers segs parts ps -> map fst ps = capture_names segs.
Proof. induction 1; cbn; by f_equal. Qed.

Lemma covers_length segs parts ps :
  covers segs parts ps -> Forall (fun seg => is_multi seg = false) segs -> length parts = length segs.
Proof. induction 1; intros Hall; inversion_clear Hall; cbn in *; try done; auto. Qed.

(** The parameters that [ps] gives. *)
Definition captured (ps : list (text * text)) : gmap text text := list_to_map ps.

(** The first part that the loop looks at. *)
Lemma drop_at {A} (l : list A) i x : l !! i = Some x -> drop i l = x :: drop (S i) l.
Proof. apply drop_S. Qed.

(** The captures found so far stay below the ones that follow. *)
Lemma no_captures (m : gmap text text) : captured [] ∪ m = m.
Proof. apply (left_id_L ∅ (∪)). Qed.

Lemma capture_first (ps : list (text * text)) (n p : text) (m : gmap text text) :
  n ∉ map fst ps -> captured ps ∪ <[n:=p]> m = captured ((n, p) :: ps) ∪ m.
Proof.
  intros Hn. unfold captured. cbn [list_to_map foldr]. rewrite <- insert_union_r, <- insert_union_l; [done|].
  by apply not_elem_of_list_to_map.
Qed.

(** What the loop answers about [parts]: the captures of the one way to cover
    them, if there is one. *)
Definition answers (segs : list Segment) (parts : list text) (params : gmap text text)
    (r : option (gmap text text)) : Prop :=
  forall out, r = Some out <-> exists ps, covers segs parts ps /\ out = captured ps ∪ params.

Lemma answers_none segs parts params :
  (forall ps, ~ covers segs parts ps) -> answers segs parts params None.
Proof. intros Hc out. split; [done|]. intros (ps & Hps & _). by destruct (Hc ps). Qed.

Lemma answers_one segs parts params ps out :
  (forall ps', covers segs parts ps' <-> ps' = ps) -> out = captured ps ∪ params ->
  answers segs parts params (Some out).
Proof.
  intros Hc -> out'. split; [intros [= <-]; exists ps; by rewrite Hc|]. by intros (ps' & ->%Hc & ->).
Qed.

Lemma answers_step seg segs p parts params params' r (f : list (text * text) -> list (text * text)) :
  (forall ps, covers (seg :: segs) (p :: parts) ps <-> exists ps', covers segs parts ps' /\ ps = f ps') ->
  (forall ps, map fst ps = capture_names segs -> captured (f ps) ∪ params = captured ps ∪ params') ->
  answers segs parts params' r -> answers (seg :: segs) (p :: parts) params r.
Proof.
  intros Hc Hmap Hr out. rewrite (Hr out). setoid_rewrite Hc. split.
  - intros (ps & Hps & ->). exists (f ps). rewrite Hmap by (by eapply covers_names). eauto.
  - intros (ps' & (ps & Hps & ->) & ->). exists ps. by rewrite Hmap by (by eapply covers_names).
Qed.

(** A segment that takes one part finds none. *)
Lemma answers_short seg segs params : is_multi seg = false -> answers (seg :: segs) [] params None.
Proof. intros Hm. apply answers_none. intros ps Hc. by inversion Hc; subst. Qed.

Lemma match_loop_answers segs parts : forall i params,
  multi_last segs -> NoDup (capture_names segs) -> (i <= length parts)%nat ->
  exists r, match_loop segs parts i params = Some r /\ answers segs (drop i parts) params r.
Proof.
  induction segs as [|seg segs IH]; intros i params Hml Hnd Hi.
  - cbn. eexists; split; [done|]. case_decide as Hend.
    + rewrite drop_ge by lia. apply (answers_one _ _ _ []); [|by rewrite no_captures].
      split; [by inversion 1|]. intros ->. constructor.
    + apply answers_none. intros ps Hc%covers_length; [|constructor]. rewrite length_drop in Hc. cbn in Hc. lia.
  - destruct Hml as [Hm Hml].
    assert (Hone : is_multi seg = false -> forall params' (f : list (text * text) -> list (text * text)),
      NoDup (capture_names segs) ->
      (forall p ps, parts !! i = Some p ->
         covers (seg :: segs) (p :: drop (S i) parts) ps <-> exists ps', covers segs (drop (S i) parts) ps' /\ ps = f ps') ->
      (forall ps, map fst ps = capture_names segs -> captured (f ps) ∪ params = captured ps ∪ params') ->
      exists r, (if parts !! i is Some _ then match_loop segs parts (S i) params' else Some None) = Some r /\
        answers (seg :: segs) (drop i parts) params r).
    { intros Hs params' f Hnd' Hc Hmap. destruct (parts !! i) as [p|] eqn:Hl.
      - destruct (IH (S i) params' Hml Hnd') as (r & Hr & Ha); [apply lookup_lt_Some in Hl; lia|].
        exists r. split; [done|]. rewrite (drop_at _ _ _ Hl). eapply answers_step; eauto.
      - exists None. split; [done|]. apply lookup_ge_None in Hl. rewrite drop_ge by lia. by apply answers_short. }
    destruct seg as [l| | |n|n]; cbn [match_loop].
    + case_decide as Hl.
      * rewrite Hl in Hone. apply (Hone eq_refl params id Hnd); [|done]. intros p ps [= <-].
        split; [inversion 1; subst; by eexists|]. intros (? & ? & ->). by constructor.
      * eexists; split; [done|]. apply answers_none. intros ps Hc. inversion Hc as [|? ? rest ? ? Hs Hd| | | |].
        apply Hl. by rewrite <- (Nat.add_0_r i), <- lookup_drop, <- Hd.
    + apply (Hone eq_refl params id Hnd); [|done]. intros p ps _.
      split; [inversion 1; subst; by eexists|]. intros (? & ? & ->). by constructor.
    + eexists; split; [done|]. rewrite (Hm eq_refl). apply (answers_one _ _ _ []); [|by rewrite no_captures].
      split; [by inversion 1|]. intros ->. constructor.
    + cbn in Hnd. apply NoDup_cons in Hnd as [Hn Hnd].
      destruct (parts !! i) as [p|] eqn:Hl.
      * apply (Hone eq_refl (<[n:=p]> params) (cons (n, p)) Hnd).
        -- intros p' ps [= <-]. split; [inversion 1; subst; by eexists|]. intros (? & ? & ->). by constructor.
        -- intros ps Hps. symmetry. apply capture_first. by rewrite Hps.
      * exists None. split; [done|]. apply lookup_ge_None in Hl. rewrite drop_ge by lia. by apply answers_short.
    + rewrite (proj2 (Nat.ltb_ge _ _)) by lia. eexists; split; [done|]. rewrite (Hm eq_refl).
      eapply answers_one; [split; [by inversion 1|intros ->; constructor]|].
      rewrite <- capture_first by (cbn; set_solver). by rewrite no_captures.
Qed.

Lemma last_not_multi segs :
  multi_last segs -> (forall seg, last segs = Some seg -> is_multi seg = false) ->
  Forall (fun seg => is_multi seg = false) segs.
Proof.
  induction segs as [|seg segs IH]; [constructor|]. intros [Hm Hml] Hlast.
  destruct (is_multi seg) eqn:Hs.
  - pose proof (Hm eq_refl) as ->. by rewrite (Hlast seg eq_refl) in Hs.
  - constructor; [done|]. apply IH; [done|]. intros seg' Hl. apply Hlast. rewrite last_cons. by rewrite Hl.
Qed.

(** The parts of a path that [matches] compares. *)
Definition path_parts (path : text) : list text := split_on (ch "/") (trim_matches (ch "/") path).

(** A parsed pattern matches exactly the paths that its segments cover, and
    returns the captures of the cover: no path makes [matches] slice out of
    range, a match assigns every capture the part it stands for (the joined rest
    for a multi-segment capture), and a path that no cover exists for is not
    matched.  [is_document_pattern] is right about them: a pattern it refuses
    matches only paths of an odd number of parts (collections), and one it
    accepts that has no multi-segment wildcard only paths of an even number. *)
Theorem pattern_matching_exact pattern pat path :
  parse pattern = Ok pat ->
  exists r, matches pat path = Some r /\
    (forall params, r = Some params <->
       exists ps, covers (segments pat) (path_parts path) ps /\ params = captured ps) /\
    (is_document_pattern pat = false -> r <> None -> Nat.even (length (path_parts path)) = false) /\
    (is_document_pattern pat = true -> Forall (fun seg => is_multi seg = false) (segments pat) ->
       r <> None -> Nat.even (length (path_parts path)) = true).
Proof.
  intros ((Hne & Hok & Hml & Hnd) & _ & _)%parse_ok.
  destruct (match_loop_answers (segments pat) (path_parts path) 0 ∅ Hml Hnd ltac:(lia)) as (r & Hr & Ha).
  rewrite drop_0 in Ha.
  assert (Hlen : Forall (fun seg => is_multi seg = false) (segments pat) -> r <> None ->
            length (path_parts path) = length (segments pat)).
  { intros Hs Hn. destruct r as [out|]; [|done]. destruct (proj1 (Ha out) eq_refl) as (ps & Hc & _).
    by apply (covers_length _ _ _ Hc). }
  exists r. split_and!; [done|..].
  - intros params. rewrite (Ha params). by setoid_rewrite (right_id_L ∅ (∪)).
  - intros Hd Hn. unfold is_document_pattern in Hd. rewrite Hlen; [|apply last_not_multi|done]; [|done|].
    + by destruct (last (segments pat)) as [[]|].
    + intros seg Hl. rewrite Hl in Hd. by destruct seg.
  - intros Hd Hs Hn. rewrite Hlen by done. unfold is_document_pattern in Hd.
    destruct (last (segments pat)) as [seg|] eqn:Hl; [|done].
    assert (is_multi seg = false).
    { rewrite Forall_forall in Hs. apply Hs. rewrite last_lookup in Hl. by eapply list_elem_of_lookup_2. }
    by destruct seg.
Qed.

Definition capture_example : result PathPattern PatternError := parse (bytes_of "posts/{id}/{rest=**}").

Lemma pattern_matching_exact_witness :
  exists pat, capture_example = Ok pat /\
    matches pat (bytes_of "/posts/p1/a/b") =
      Some (Some {[ bytes_of "id" := bytes_of "p1"; bytes_of "rest" := bytes_of "a/b" ]}) /\
    exists r, matches pat (bytes_of "/posts/p1/a/b") = Some r /\
      (forall params, r = Some params <->
         exists ps, covers (segments pat) (path_parts (bytes_of "/posts/p1/a/b")) ps /\ params = captured ps) /\
      (is_document_pattern pat = false -> r <> None ->
         Nat.even (length (path_parts (bytes_of "/posts/p1/a/b"))) = false) /\
      (is_document_pattern pat = true -> Forall (fun seg => is_multi seg = false) (segments pat) ->
         r <> None -> Nat.even (length (path_parts (bytes_of "/posts/p1/a/b"))) = true).
Proof.
  eexists. split; [vm_compute; reflexivity|]. split; [vm_compute; reflexivity|].
  apply (pattern_matching_exact (bytes_of "posts/{id}/{rest=**}")). vm_compute. reflexivity.
Defined.
