(* ===== verification/PsName.v ===== *)
(** * Pub/Sub resource names

    Models [crates/fireemu-core-pubsub/src/name.rs] and the status codes of error.rs:
    the identifiers of projects, topics and subscriptions and the full names made of
    them.  A text is the list of its characters.  An error is its [Code]; the message
    texts are not modelled. *)
From S2P Require Import Prelude Text.

(** error.rs *)
Inductive Code :=
| InvalidArgument
| NotFound
| AlreadyExists
| FailedPrecondition
| ResourceExhausted
| Unimplemented.

#[global] Instance Code_eq_dec : EqDecision Code.
Proof. solve_decision. Defined.

Abbreviation PubSubError := Code.

Definition MIN_ID_LEN : Z := 3.
Definition MAX_ID_LEN : Z := 255.
Definition MAX_PROJECT_LEN : Z := 255.

(** [char::is_control]: the general category Cc. *)
Definition is_control (c : Z) : bool := ((0 <=? c) && (c <=? 0x1F)) || ((0x7F <=? c) && (c <=? 0x9F)).

Definition validate_project (project : text) : result unit PubSubError :=
  if bool_decide (project = []) then Err InvalidArgument
  else if MAX_PROJECT_LEN <? str_len project then Err InvalidArgument
  else if contains_byte (ch "/") project then Err InvalidArgument
  else if existsb is_control project then Err InvalidArgument
  else Ok tt.

(** [u8::is_ascii_alphabetic], on the first byte; the first byte of a character
    beyond ASCII is no letter. *)
Definition is_ascii_alphabetic (c : Z) : bool := ((65 <=? c) && (c <=? 90)) || ((97 <=? c) && (c <=? 122)).

Definition is_id_byte (c : Z) : bool :=
  is_ascii_alphabetic c || is_ascii_digit c || existsb (Z.eqb c) (chars "._~%+-").

(** [s.starts_with(prefix)] *)
Definition starts_with (prefix s : text) : bool := bool_decide (prefix `prefix_of` s).

Definition validate_resource_id (id : text) : result unit PubSubError :=
  if (str_len id <? MIN_ID_LEN) || (MAX_ID_LEN <? str_len id) then Err InvalidArgument
  else match id with
       | [] => Err InvalidArgument (* not reached: the length is checked *)
       | first :: _ =>
           if negb (is_ascii_alphabetic first) then Err InvalidArgument
           else if existsb (fun c => negb (is_id_byte c)) id then Err InvalidArgument
           else if starts_with (chars "goog") id then Err InvalidArgument
           else Ok tt
       end.

Record TopicName := { topic_project : text; topic : text }.

Record SubscriptionName := { sub_project : text; subscription : text }.

#[global] Instance TopicName_eq_dec : EqDecision TopicName.
Proof. solve_decision. Defined.
#[global] Instance SubscriptionName_eq_dec : EqDecision SubscriptionName.
Proof. solve_decision. Defined.

Definition DELETED_TOPIC : text := chars "_deleted-topic_".

(** [validate_project(p).and_then(|()| validate_resource_id(id, kind))] with the error
    mapped to that of the full name. *)
Definition validate_parts (project id : text) : result unit PubSubError :=
  match validate_project project with
  | Ok _ => match validate_resource_id id with Ok _ => Ok tt | Err _ => Err InvalidArgument end
  | Err _ => Err InvalidArgument
  end.

Definition topic_new (project id : text) : result TopicName PubSubError :=
  match validate_parts project id with
  | Ok _ => Ok {| topic_project := project; topic := id |}
  | Err e => Err e
  end.

Definition subscription_new (project id : text) : result SubscriptionName PubSubError :=
  match validate_parts project id with
  | Ok _ => Ok {| sub_project := project; subscription := id |}
  | Err e => Err e
  end.

Definition split_two (full collection : text) : option (text * text) :=
  rest ← strip_text (chars "projects/") full;
  '(project, tail) ← split_once (ch "/") rest;
  id ← strip_text collection tail ≫= strip_prefix (ch "/");
  if bool_decide (project = []) || bool_decide (id = []) || contains_byte (ch "/") id then None
  else Some (project, id).

Definition TOPICS : text := chars "topics".
Definition SUBSCRIPTIONS : text := chars "subscriptions".

Definition topic_parse (full : text) : result TopicName PubSubError :=
  if bool_decide (full = DELETED_TOPIC) then Ok {| topic_project := []; topic := DELETED_TOPIC |}
  else match split_two full TOPICS with
       | None => Err InvalidArgument
       | Some (project, id) => topic_new project id
       end.

Definition subscription_parse (full : text) : result SubscriptionName PubSubError :=
  match split_two full SUBSCRIPTIONS with
  | None => Err InvalidArgument
  | Some (project, id) => subscription_new project id
  end.

Definition is_deleted_sentinel (n : TopicName) : bool := bool_decide (topic n = DELETED_TOPIC).

Definition full_name (project collection id : text) : text :=
  chars "projects/" ++ project ++ ch "/" :: collection ++ ch "/" :: id.

Definition topic_to_full (n : TopicName) : text :=
  if is_deleted_sentinel n then DELETED_TOPIC else full_name (topic_project n) TOPICS (topic n).

Definition subscription_to_full (n : SubscriptionName) : text :=
  full_name (sub_project n) SUBSCRIPTIONS (subscription n).

Example names_ex :
  topic_parse (chars "projects/demo-app/topics/orders") = Ok {| topic_project := chars "demo-app"; topic := chars "orders" |} /\
  map (fun s => is_ok (topic_parse (chars s)))
    ["projects/p/topics/ab"; "projects/p/topics/google"; "projects/p/topics/1ab"; "projects//topics/abc";
     "projects/p/topics/abc/d"; "_deleted-topic_"] = [false; false; false; false; false; true].
Proof. vm_compute. split; reflexivity. Qed.

(** ** Names and their texts *)

(** What [validate_project] and [validate_resource_id] accept. *)
Definition project_ok (p : text) : Prop :=
  p <> [] /\ str_len p <= MAX_PROJECT_LEN /\ (ch "/" ∉ p) /\ Forall (fun c => is_control c = false) p.

Definition id_ok (id : text) : Prop :=
  MIN_ID_LEN <= str_len id <= MAX_ID_LEN /\ (exists c r, id = c :: r /\ is_ascii_alphabetic c = true) /\
  Forall (fun c => is_id_byte c = true) id /\ ~ (chars "goog" `prefix_of` id).

Lemma existsb_false_Forall {A} (f : A -> bool) l : existsb f l = false <-> Forall (fun x => f x = false) l.
Proof.
  rewrite Forall_forall. split.
  - intros H x Hx%list_elem_of_In. apply not_true_iff_false. intros Hf.
    rewrite <- not_true_iff_false, existsb_exists in H. apply H. by exists x.
  - intros H. apply not_true_iff_false. rewrite existsb_exists. intros (x & Hx%list_elem_of_In & Hf).
    by rewrite H in Hf.
Qed.

Lemma contains_byte_iff c s : contains_byte c s = false <-> c ∉ s.
Proof.
  split; [apply contains_byte_false|]. intros Hc. apply existsb_false_Forall, Forall_forall.
  intros x Hx. apply Z.eqb_neq. intros ->. done.
Qed.

Lemma validate_project_ok p : validate_project p = Ok tt <-> project_ok p.
Proof.
  unfold validate_project, project_ok. rewrite <- contains_byte_iff, <- existsb_false_Forall.
  case_bool_decide; [split; [done|tauto]|]. destruct (Z.ltb_spec MAX_PROJECT_LEN (str_len p)); [split; [done|lia]|].
  destruct (contains_byte _ p); [split; [done|by intros (_ & _ & ? & _)]|].
  destruct (existsb is_control p); [split; [done|by intros (_ & _ & _ & ?)]|]. tauto.
Qed.

Lemma validate_resource_id_ok id : validate_resource_id id = Ok tt <-> id_ok id.
Proof.
  unfold validate_resource_id, id_ok. destruct (_ || _) eqn:Hlen.
  - split; [done|]. apply orb_true_iff in Hlen. lia.
  - apply orb_false_iff in Hlen. destruct id as [|c r]; [split; [done|]; by intros (_ & (? & ? & ? & _) & _)|].
    destruct (is_ascii_alphabetic c) eqn:Hc; cbn [negb];
      [|split; [done|]; intros (_ & (? & ? & [= <- <-] & H) & _); congruence].
    destruct (existsb _ (c :: r)) eqn:Hx.
    + split; [done|]. intros (_ & _ & Hall & _). apply not_false_iff_true in Hx. exfalso. apply Hx.
      apply existsb_false_Forall. eapply Forall_impl; [exact Hall|]. by intros x ->.
    + apply existsb_false_Forall in Hx. unfold starts_with. case_bool_decide as Hg; [split; [done|tauto]|].
      split; [|done]. intros _. split_and!; [lia|lia|by eexists _, _| |done].
      eapply Forall_impl; [exact Hx|]. intros x Hn. by apply negb_false_iff in Hn.
Qed.

(** A full name has exactly one reading. *)
Lemma split_two_Some full collection project id : ch "/" ∉ collection ->
  split_two full collection = Some (project, id) <->
  full = full_name project collection id /\ project <> [] /\ id <> [] /\ (ch "/" ∉ project) /\ ch "/" ∉ id.
Proof.
  intros Hcol. unfold split_two, full_name. split.
  - destruct (strip_text (chars "projects/") full) as [rest|] eqn:H1; [|done]. apply strip_text_Some in H1 as ->.
    cbn [mbind option_bind]. destruct (split_once (ch "/") rest) as [[p tail]|] eqn:H2; [|done].
    apply split_once_Some in H2 as [-> Hp]. cbn [mbind option_bind].
    destruct (strip_text collection tail) as [t|] eqn:H3; [|done]. apply strip_text_Some in H3 as ->.
    cbn [mbind option_bind]. destruct t as [|c i]; [done|]. cbn [strip_prefix].
    destruct (Z.eqb_spec c (ch "/")) as [->|]; [|done]. cbn [mbind option_bind].
    destruct (_ || _) eqn:Hb; [done|]. intros [= -> ->].
    rewrite !orb_false_iff, !bool_decide_eq_false, contains_byte_iff in Hb. by destruct Hb as [[? ?] ?].
  - intros (-> & Hpne & Hine & Hp & Hi). rewrite (proj2 (strip_text_Some _ _ _) eq_refl). cbn [mbind option_bind].
    rewrite (proj2 (split_once_Some _ _ project (collection ++ ch "/" :: id))) by done. cbn [mbind option_bind].
    rewrite (proj2 (strip_text_Some _ _ _) eq_refl). cbn [mbind option_bind strip_prefix]. rewrite Z.eqb_refl.
    cbn [mbind option_bind]. rewrite !bool_decide_eq_false_2 by done. by rewrite (proj2 (contains_byte_iff _ _) Hi).
Qed.

Lemma id_ok_parts id : id_ok id -> id <> [] /\ ch "/" ∉ id.
Proof.
  intros (_ & (c & r & -> & _) & Hall & _). split; [done|]. intros Hin.
  rewrite Forall_forall in Hall. by specialize (Hall _ Hin).
Qed.

Lemma validate_parts_ok project id :
  validate_parts project id = Ok tt <-> project_ok project /\ id_ok id.
Proof.
  unfold validate_parts. rewrite <- validate_project_ok, <- validate_resource_id_ok.
  destruct (validate_project project) as [[]|], (validate_resource_id id) as [[]|]; (split; [done|by intros []]) || done.
Qed.

Lemma validate_parts_err project id e : validate_parts project id = Err e -> e = InvalidArgument.
Proof. unfold validate_parts. destruct (validate_project project), (validate_resource_id id); by intros [= <-]. Qed.

(** The only topic that is not [projects/p/topics/t] with valid parts. *)
Definition deleted_topic : TopicName := {| topic_project := []; topic := DELETED_TOPIC |}.

Lemma deleted_not_id : ~ id_ok DELETED_TOPIC.
Proof. intros (_ & (c & r & [= <- _] & H) & _). vm_compute in H. done. Qed.

(** Names round trip: a text parses as a topic or subscription just when it is the full
    name of valid parts (or the reserved name of a deleted topic), the name it parses to
    prints as that text, and every other text is an invalid argument. *)
Theorem names_round_trip full :
  (forall n, topic_parse full = Ok n <->
     topic_to_full n = full /\ (n = deleted_topic \/ project_ok (topic_project n) /\ id_ok (topic n))) /\
  (forall n, subscription_parse full = Ok n <->
     subscription_to_full n = full /\ project_ok (sub_project n) /\ id_ok (subscription n)) /\
  (is_ok (topic_parse full) = false -> topic_parse full = Err InvalidArgument) /\
  (is_ok (subscription_parse full) = false -> subscription_parse full = Err InvalidArgument).
Proof.
  assert (Hsplit : forall col p i, ch "/" ∉ col -> project_ok p /\ id_ok i -> split_two (full_name p col i) col = Some (p, i)).
  { intros col p i Hcol [Hp Hi]. apply split_two_Some; [done|]. apply id_ok_parts in Hi as [? ?].
    destruct Hp as (? & _ & ? & _). done. }
  assert (Htc : ch "/" ∉ TOPICS) by by apply contains_byte_iff.
  assert (Hsc : ch "/" ∉ SUBSCRIPTIONS) by by apply contains_byte_iff.
  split_and!.
  - intros n. unfold topic_parse, topic_to_full, is_deleted_sentinel, topic_new. split.
    + case_bool_decide as Hd; [intros [= <-]; subst; split; [done|by left]|].
      destruct (split_two full TOPICS) as [[p i]|] eqn:Hs; [|done].
      destruct (validate_parts p i) as [[]|] eqn:Hv; [|done]. intros [= <-]. apply validate_parts_ok in Hv as Hok.
      apply split_two_Some in Hs as [-> _]; [|done]. cbn [topic topic_project].
      rewrite bool_decide_eq_false_2; [split; [done|by right]|]. intros ->. by apply deleted_not_id, Hok.
    + intros [Hf [->|Hok]]; [subst; by vm_compute|]. rewrite bool_decide_eq_false_2 in Hf.
      * subst full. rewrite bool_decide_eq_false_2 by (intros Heq; discriminate Heq).
        rewrite Hsplit by done. apply validate_parts_ok in Hok as ->. by destruct n.
      * intros Heq. rewrite Heq in Hok. by apply deleted_not_id, Hok.
  - intros n. unfold subscription_parse, subscription_to_full, subscription_new. split.
    + destruct (split_two full SUBSCRIPTIONS) as [[p i]|] eqn:Hs; [|done].
      destruct (validate_parts p i) as [[]|] eqn:Hv; [|done]. intros [= <-]. apply validate_parts_ok in Hv as Hok.
      by apply split_two_Some in Hs as [-> _].
    + intros [<- Hok]. rewrite Hsplit by done. apply validate_parts_ok in Hok as ->. by destruct n.
  - unfold topic_parse, topic_new. case_bool_decide; [done|]. destruct (split_two _ _) as [[p i]|]; [|done].
    destruct (validate_parts p i) eqn:Hv; [done|]. by apply validate_parts_err in Hv as ->.
  - unfold subscription_parse, subscription_new. destruct (split_two _ _) as [[p i]|]; [|done].
    destruct (validate_parts p i) eqn:Hv; [done|]. by apply validate_parts_err in Hv as ->.
Qed.
