(* ===== verification/PsFilter.v ===== *)
(** * Pub/Sub subscription filters

    Models [crates/fireemu-core-pubsub/src/filter.rs]: the lexer, the recursive-descent
    parser with its depth guard, and the evaluation of a filter on the attributes of
    a message.  The input is the list of its characters; every token starts with an ASCII
    character, so reading characters is reading bytes.  The methods of the parser call
    each other through [parse_call], which hands each call one unit of fuel less;
    [PARSE_FUEL] covers every input ([parse_call_total]).  The offsets of the tokens, used
    in message texts only, are not modelled. *)
From S2P Require Import Prelude Text PsName.

Definition MAX_FILTER_BYTES : Z := 256.
Definition MAX_DEPTH : nat := 64.

Inductive Expr :=
| EHas (key : text)
| EEq (key value : text)
| ENe (key value : text)
| EHasPrefix (key prefix : text)
| ENot (e : Expr)
| EAnd (a b : Expr)
| EOr (a b : Expr).

Record Filter := { filter_root : option Expr; filter_source : text }.

#[global] Instance Expr_eq_dec : EqDecision Expr.
Proof. solve_decision. Defined.
#[global] Instance Filter_eq_dec : EqDecision Filter.
Proof. solve_decision. Defined.

Definition always : Filter := {| filter_root := None; filter_source := [] |}.

Fixpoint eval (e : Expr) (attrs : gmap text text) : bool :=
  match e with
  | EHas k => bool_decide (is_Some (attrs !! k))
  | EEq k v => match attrs !! k with Some a => bool_decide (a = v) | None => false end
  | ENe k v => negb (bool_decide (attrs !! k = Some v))
  | EHasPrefix k p => match attrs !! k with Some a => starts_with p a | None => false end
  | ENot e => negb (eval e attrs)
  | EAnd a b => eval a attrs && eval b attrs
  | EOr a b => eval a attrs || eval b attrs
  end.

Definition matches (f : Filter) (attributes : gmap text text) : bool :=
  match filter_root f with Some e => eval e attributes | None => true end.

(** ** The lexer *)

Inductive Token :=
| Ident (w : text) | Str (s : text) | Attributes | Dot | Colon | Equal | NotEqual | LParen | RParen | Comma.

#[global] Instance Token_eq_dec : EqDecision Token.
Proof. solve_decision. Defined.

Definition is_ident_start (c : Z) : bool := is_ascii_alphabetic c || (c =? ch "_").

Definition is_ident_byte (c : Z) : bool :=
  is_ascii_alphabetic c || is_ascii_digit c || existsb (Z.eqb c) (chars "_-~%+").

Definition is_blank (c : Z) : bool := (c =? 32) || (c =? 9) || (c =? 10) || (c =? 13).

(** The double quote. *)
Definition QUOTE : Z := 34.

(** The loop of [lex_string] from after the opening quote. *)
Fixpoint lex_string (out input : text) : result (text * text) PubSubError :=
  match input with
  | [] => Err InvalidArgument
  | c :: rest =>
      if c =? QUOTE then Ok (out, rest)
      else if c =? ch "\" then
        match rest with
        | [] => Err InvalidArgument
        | next :: rest =>
            if (next =? QUOTE) || (next =? ch "\") then lex_string (out ++ [next]) rest
            else Err InvalidArgument
        end
      else lex_string (out ++ [c]) rest
  end.

(** The word at the start of the input and what follows it. *)
Fixpoint span_ident (input : text) : text * text :=
  match input with
  | c :: rest => if is_ident_byte c then let '(w, r) := span_ident rest in (c :: w, r) else ([], input)
  | [] => ([], [])
  end.

Definition ATTRIBUTES : text := chars "attributes".

(** One token at the start of an input that is not blank there. *)
Definition lex_token (c : Z) (rest : text) : result (Token * text) PubSubError :=
  if c =? ch "(" then Ok (LParen, rest)
  else if c =? ch ")" then Ok (RParen, rest)
  else if c =? ch "." then Ok (Dot, rest)
  else if c =? ch ":" then Ok (Colon, rest)
  else if c =? ch "," then Ok (Comma, rest)
  else if c =? ch "=" then Ok (Equal, rest)
  else if c =? ch "!" then
    match rest with
    | e :: rest => if e =? ch "=" then Ok (NotEqual, rest) else Err InvalidArgument
    | [] => Err InvalidArgument
    end
  else if c =? QUOTE then
    match lex_string [] rest with Ok (s, next) => Ok (Str s, next) | Err e => Err e end
  else if is_ident_start c then
    let '(w, next) := span_ident (c :: rest) in
    Ok (if bool_decide (w = ATTRIBUTES) then Attributes else Ident w, next)
  else Err InvalidArgument.

Fixpoint lex_loop (fuel : nat) (input : text) : result (list Token) PubSubError :=
  match fuel with
  | O => Err InvalidArgument (* not reached: every step reads a character *)
  | S fuel =>
      match input with
      | [] => Ok []
      | c :: rest =>
          if is_blank c then lex_loop fuel rest
          else match lex_token c rest with
               | Err e => Err e
               | Ok (token, next) =>
                   match lex_loop fuel next with Ok tokens => Ok (token :: tokens) | Err e => Err e end
               end
      end
  end.

Definition lex (input : text) : result (list Token) PubSubError := lex_loop (S (length input)) input.

(** ** The parser

    A method leaves the parser at the rest of the tokens.  The depth is the same after a
    successful call as before it, so it is an argument. *)

Definition to_ascii_lowercase (c : Z) : Z := if (65 <=? c) && (c <=? 90) then c + 32 else c.

Definition eq_ignore_ascii_case (a b : text) : bool :=
  bool_decide (map to_ascii_lowercase a = map to_ascii_lowercase b).

Definition eat_keyword (kw : text) (ts : list Token) : option (list Token) :=
  match ts with
  | Ident w :: ts => if eq_ignore_ascii_case w kw then Some ts else None
  | _ => None
  end.

Abbreviation Parsed := (option (result (Expr * list Token) PubSubError)).

(** The calls of the parser that are under way: [OrLoop] and [AndLoop] are the [while]
    loops of [parse_or] and [parse_and]. *)
Inductive Call := ParseOr | OrLoop (lhs : Expr) | ParseAnd | AndLoop (lhs : Expr) | ParseNot | ParsePrimary.

Definition and_then (p : Parsed) (k : Expr -> list Token -> Parsed) : Parsed :=
  match p with Some (Ok (e, ts)) => k e ts | other => other end.

Definition parse_err : Parsed := Some (Err InvalidArgument).
Definition parse_ok (e : Expr) (ts : list Token) : Parsed := Some (Ok (e, ts)).

Section methods.
Variable self : Call -> nat -> list Token -> Parsed.

Definition parse_or (depth : nat) (ts : list Token) : Parsed :=
  and_then (self ParseAnd depth ts) (fun lhs ts => self (OrLoop lhs) depth ts).

Definition or_loop (lhs : Expr) (depth : nat) (ts : list Token) : Parsed :=
  match eat_keyword (chars "OR") ts with
  | Some ts => and_then (self ParseAnd depth ts) (fun rhs ts => self (OrLoop (EOr lhs rhs)) depth ts)
  | None => parse_ok lhs ts
  end.

Definition parse_and (depth : nat) (ts : list Token) : Parsed :=
  and_then (self ParseNot depth ts) (fun lhs ts => self (AndLoop lhs) depth ts).

Definition and_loop (lhs : Expr) (depth : nat) (ts : list Token) : Parsed :=
  match eat_keyword (chars "AND") ts with
  | Some ts => and_then (self ParseNot depth ts) (fun rhs ts => self (AndLoop (EAnd lhs rhs)) depth ts)
  | None => parse_ok lhs ts
  end.

(** [enter], then the call one level below. *)
Definition enter (depth : nat) (k : nat -> Parsed) : Parsed :=
  if (MAX_DEPTH <? S depth)%nat then parse_err else k (S depth).

Definition parse_not (depth : nat) (ts : list Token) : Parsed :=
  match eat_keyword (chars "NOT") ts with
  | Some ts => enter depth (fun depth => and_then (self ParseNot depth ts) (fun inner ts => parse_ok (ENot inner) ts))
  | None => self ParsePrimary depth ts
  end.

Definition attr_key (t : Token) : option text :=
  match t with Ident w => Some w | Str s => Some s | _ => None end.

Definition parse_has_prefix (ts : list Token) : Parsed :=
  match ts with
  | LParen :: Attributes :: Dot :: key :: Comma :: Str prefix :: RParen :: ts =>
      match attr_key key with Some k => parse_ok (EHasPrefix k prefix) ts | None => parse_err end
  | _ => parse_err
  end.

Definition parse_attribute_term (ts : list Token) : Parsed :=
  match ts with
  | Colon :: key :: ts => match attr_key key with Some k => parse_ok (EHas k) ts | None => parse_err end
  | Dot :: key :: Equal :: Str v :: ts =>
      match attr_key key with Some k => parse_ok (EEq k v) ts | None => parse_err end
  | Dot :: key :: NotEqual :: Str v :: ts =>
      match attr_key key with Some k => parse_ok (ENe k v) ts | None => parse_err end
  | _ => parse_err
  end.

Definition HAS_PREFIX : text := chars "hasPrefix".

Definition parse_primary (depth : nat) (ts : list Token) : Parsed :=
  match ts with
  | LParen :: ts =>
      enter depth (fun depth =>
        and_then (self ParseOr depth ts) (fun inner ts =>
          match ts with RParen :: ts => parse_ok inner ts | _ => parse_err end))
  | Ident w :: ts => if bool_decide (w = HAS_PREFIX) then parse_has_prefix ts else parse_err
  | Attributes :: ts => parse_attribute_term ts
  | _ => parse_err
  end.
End methods.

Fixpoint parse_call (fuel : nat) (c : Call) (depth : nat) (ts : list Token) : Parsed :=
  match fuel with
  | O => None
  | S fuel =>
      let self := parse_call fuel in
      match c with
      | ParseOr => parse_or self depth ts
      | OrLoop lhs => or_loop self lhs depth ts
      | ParseAnd => parse_and self depth ts
      | AndLoop lhs => and_loop self lhs depth ts
      | ParseNot => parse_not self depth ts
      | ParsePrimary => parse_primary self depth ts
      end
  end.

(** Fuel that covers any call on the tokens. *)
Definition PARSE_FUEL (ts : list Token) : nat := 8 * length ts + 8.

(** [char::is_whitespace] *)
Definition is_whitespace (c : Z) : bool :=
  ((9 <=? c) && (c <=? 13)) || (c =? 32) || (c =? 0x85) || (c =? 0xA0) || (c =? 0x1680) ||
  ((0x2000 <=? c) && (c <=? 0x200A)) || (c =? 0x2028) || (c =? 0x2029) || (c =? 0x202F) ||
  (c =? 0x205F) || (c =? 0x3000).

Definition parse (input : text) : result Filter PubSubError :=
  if MAX_FILTER_BYTES <? str_len input then Err InvalidArgument
  else if forallb is_whitespace input then Ok always
  else
    match lex input with
    | Err e => Err e
    | Ok tokens =>
        match parse_call (PARSE_FUEL tokens) ParseOr 0 tokens with
        | Some (Ok (e, [])) => Ok {| filter_root := Some e; filter_source := input |}
        | Some (Ok (_, _ :: _)) => Err InvalidArgument
        | Some (Err e) => Err e
        | None => Err InvalidArgument (* not reached: the fuel covers every input *)
        end
    end.

(** An input written with single quotes for the double ones. *)
Definition quoted (s : string) : text := map (fun c => if c =? 39 then QUOTE else c) (chars s).

Definition run_filter (s : string) (attrs : list (string * string)) : option bool :=
  match parse (quoted s) with
  | Ok f => Some (matches f (list_to_map (map (fun '(k, v) => (chars k, chars v)) attrs)))
  | Err _ => None
  end.

Example filter_ex :
  run_filter "attributes:a AND NOT attributes.b = 'x' OR hasPrefix(attributes.'c.d', 'p')" [("a", "1"); ("b", "y")] = Some true /\
  run_filter "not (attributes:a or attributes:b)" [("b", "")] = Some false /\
  run_filter "attributes.a != '1'" [] = Some true /\
  run_filter "  " [] = Some true /\
  run_filter "attributes:a attributes:b" [] = None.
Proof. vm_compute. repeat split. Qed.

(** ** The fuel covers every input *)

Definition rank (c : Call) : nat :=
  match c with ParsePrimary => 0 | ParseNot => 1 | AndLoop _ => 2 | ParseAnd => 3 | OrLoop _ => 4 | ParseOr => 5 end.

(** A call consumes a token, a loop may consume none. *)
Definition consumes (c : Call) (ts rest : list Token) : Prop :=
  match c with
  | OrLoop _ | AndLoop _ => (length rest <= length ts)%nat
  | _ => (length rest < length ts)%nat
  end.

Lemma eat_keyword_Some kw ts rest : eat_keyword kw ts = Some rest <->
  exists w, ts = Ident w :: rest /\ eq_ignore_ascii_case w kw = true.
Proof.
  unfold eat_keyword. split.
  - destruct ts as [|[w| | | | | | | | |] ts]; try done. destruct (eq_ignore_ascii_case w kw) eqn:Hw; [|done].
    intros [= <-]. by exists w.
  - intros (w & -> & ->). done.
Qed.

Lemma parse_attribute_term_spec ts e rest :
  parse_attribute_term ts = Some (Ok (e, rest)) <->
  exists key k, attr_key key = Some k /\
    ((ts = Colon :: key :: rest /\ e = EHas k) \/
     (exists v, ts = Dot :: key :: Equal :: Str v :: rest /\ e = EEq k v) \/
     (exists v, ts = Dot :: key :: NotEqual :: Str v :: rest /\ e = ENe k v)).
Proof.
  split.
  - unfold parse_attribute_term, parse_ok, parse_err. intros H.
    repeat (case_match; simplify_eq; try done); eexists _, _; (split; [eassumption|]); eauto 6.
  - intros (key & k & Hk & [[-> ->]|[[v [-> ->]]|[v [-> ->]]]]); cbn [parse_attribute_term]; by rewrite Hk.
Qed.

Lemma parse_has_prefix_spec ts e rest :
  parse_has_prefix ts = Some (Ok (e, rest)) <->
  exists key k p, attr_key key = Some k /\ e = EHasPrefix k p /\
    ts = LParen :: Attributes :: Dot :: key :: Comma :: Str p :: RParen :: rest.
Proof.
  split.
  - unfold parse_has_prefix, parse_ok, parse_err. intros H.
    repeat (case_match; simplify_eq; try done). by eexists _, _, _.
  - intros (key & k & p & Hk & -> & ->). cbn [parse_has_prefix]. by rewrite Hk.
Qed.

Lemma parse_terms_total ts : is_Some (parse_attribute_term ts) /\ is_Some (parse_has_prefix ts).
Proof. unfold parse_attribute_term, parse_has_prefix. split; repeat case_match; by eexists. Qed.

(** What a call with enough fuel gives: an answer, and fewer tokens. *)
Definition answers (c : Call) (ts : list Token) (p : Parsed) : Prop :=
  exists r, p = Some r /\ forall e rest, r = Ok (e, rest) -> consumes c ts rest.

Lemma answers_err c ts : answers c ts parse_err.
Proof. by eexists. Qed.

Lemma answers_and_then c c' ts p k :
  answers c' ts p -> (forall e rest, consumes c' ts rest -> answers c ts (k e rest)) -> answers c ts (and_then p k).
Proof.
  intros (r & -> & Hr) Hk. destruct r as [[e rest]|e]; cbn [and_then]; [|by eexists]. apply Hk. by apply (Hr e).
Qed.

Lemma answers_weaken c c' ts ts' p :
  answers c' ts' p -> (forall rest, consumes c' ts' rest -> consumes c ts rest) -> answers c ts p.
Proof. intros (r & -> & Hr) Hw. exists r. split; [done|]. intros e rest Heq. by apply Hw, (Hr e). Qed.

Lemma answers_enter c ts depth k : (forall d, answers c ts (k d)) -> answers c ts (enter depth k).
Proof. intros Hk. unfold enter. case_match; [apply answers_err|apply Hk]. Qed.

Lemma parse_call_total fuel : forall c depth ts,
  (8 * length ts + rank c < fuel)%nat -> answers c ts (parse_call fuel c depth ts).
Proof.
  induction fuel as [|fuel IH]; intros c depth ts Hf; [lia|]. cbn [parse_call].
  destruct c as [|lhs| |lhs| |]; cbn [rank] in Hf.
  - apply (answers_and_then _ ParseAnd); [apply IH; cbn; lia|]. cbn [consumes]. intros e rest Hr.
    eapply answers_weaken; [apply IH; cbn; lia|cbn; lia].
  - unfold or_loop. destruct (eat_keyword _ ts) as [ts'|] eqn:Hk; [|eexists; split; [done|]; intros e rest [= <- <-]; cbn; lia].
    apply eat_keyword_Some in Hk as (w & -> & _). cbn [length] in Hf.
    eapply (answers_weaken _ (OrLoop lhs) _ ts'); [|cbn; lia].
    apply (answers_and_then _ ParseAnd); [apply IH; cbn; lia|]. cbn [consumes]. intros e rest Hr.
    eapply answers_weaken; [apply IH; cbn; lia|cbn; lia].
  - apply (answers_and_then _ ParseNot); [apply IH; cbn; lia|]. cbn [consumes]. intros e rest Hr.
    eapply answers_weaken; [apply IH; cbn; lia|cbn; lia].
  - unfold and_loop. destruct (eat_keyword _ ts) as [ts'|] eqn:Hk; [|eexists; split; [done|]; intros e rest [= <- <-]; cbn; lia].
    apply eat_keyword_Some in Hk as (w & -> & _). cbn [length] in Hf.
    eapply (answers_weaken _ (AndLoop lhs) _ ts'); [|cbn; lia].
    apply (answers_and_then _ ParseNot); [apply IH; cbn; lia|]. cbn [consumes]. intros e rest Hr.
    eapply answers_weaken; [apply IH; cbn; lia|cbn; lia].
  - unfold parse_not. destruct (eat_keyword _ ts) as [ts'|] eqn:Hk.
    + apply eat_keyword_Some in Hk as (w & -> & _). cbn [length] in Hf. apply answers_enter. intros d.
      eapply (answers_weaken _ ParseNot _ ts'); [|cbn; lia].
      apply (answers_and_then _ ParseNot); [apply IH; cbn; lia|]. intros e rest Hr.
      eexists. split; [done|]. intros ? ? [= <- <-]. cbn in *. lia.
    + eapply answers_weaken; [apply IH; cbn; lia|done].
  - unfold parse_primary. destruct ts as [|t ts]; [apply answers_err|]. cbn [length] in Hf.
    destruct t as [w| | | | | | | | |]; try apply answers_err.
    + case_bool_decide; [|apply answers_err]. destruct (parse_terms_total ts) as [_ [r Hr]]. exists r.
      split; [done|]. intros e rest ->. apply parse_has_prefix_spec in Hr as (? & ? & ? & _ & _ & ->). cbn. lia.
    + destruct (parse_terms_total ts) as [[r Hr] _]. exists r.
      split; [done|]. intros e rest ->.
      apply parse_attribute_term_spec in Hr as (? & ? & _ & [[-> _]|[[? [-> _]]|[? [-> _]]]]); cbn; lia.
    + apply answers_enter. intros d. eapply (answers_weaken _ ParseOr _ ts); [|cbn; lia].
      apply (answers_and_then _ ParseOr); [apply IH; cbn; lia|]. cbn [consumes]. intros e rest Hr.
      destruct rest as [|[] rest]; try apply answers_err. eexists. split; [done|]. intros ? ? [= <- <-]. cbn in *. lia.
Qed.

(** ** The grammar

    The documented precedence: [OR] lowest, then [AND], then [NOT], then a term; both
    connectives associate to the left; [d] levels are open around an expression. *)

Inductive Level := LOr | LAnd | LNot | LPrimary.

Definition keyword (kw w : text) : Prop := eq_ignore_ascii_case w kw = true.

Inductive grammar : Level -> nat -> list Token -> Expr -> Prop :=
| g_or_one d ts e : grammar LAnd d ts e -> grammar LOr d ts e
| g_or d ts w ts' a b :
    grammar LOr d ts a -> keyword (chars "OR") w -> grammar LAnd d ts' b ->
    grammar LOr d (ts ++ Ident w :: ts') (EOr a b)
| g_and_one d ts e : grammar LNot d ts e -> grammar LAnd d ts e
| g_and d ts w ts' a b :
    grammar LAnd d ts a -> keyword (chars "AND") w -> grammar LNot d ts' b ->
    grammar LAnd d (ts ++ Ident w :: ts') (EAnd a b)
| g_not_one d ts e : grammar LPrimary d ts e -> grammar LNot d ts e
| g_not d w ts e :
    keyword (chars "NOT") w -> (d < MAX_DEPTH)%nat -> grammar LNot (S d) ts e ->
    grammar LNot d (Ident w :: ts) (ENot e)
| g_group d ts e :
    (d < MAX_DEPTH)%nat -> grammar LOr (S d) ts e -> grammar LPrimary d (LParen :: ts ++ [RParen]) e
| g_has d key k : attr_key key = Some k -> grammar LPrimary d [Attributes; Colon; key] (EHas k)
| g_eq d key k v : attr_key key = Some k -> grammar LPrimary d [Attributes; Dot; key; Equal; Str v] (EEq k v)
| g_ne d key k v : attr_key key = Some k -> grammar LPrimary d [Attributes; Dot; key; NotEqual; Str v] (ENe k v)
| g_prefix d key k p : attr_key key = Some k ->
    grammar LPrimary d [Ident HAS_PREFIX; LParen; Attributes; Dot; key; Comma; Str p; RParen] (EHasPrefix k p).

(** What a call has read when it succeeds; a loop continues what is to its left. *)
Definition reads (c : Call) (d : nat) (read : list Token) (e : Expr) : Prop :=
  match c with
  | ParseOr => grammar LOr d read e
  | ParseAnd => grammar LAnd d read e
  | ParseNot => grammar LNot d read e
  | ParsePrimary => grammar LPrimary d read e
  | OrLoop lhs => forall pre, grammar LOr d pre lhs -> grammar LOr d (pre ++ read) e
  | AndLoop lhs => forall pre, grammar LAnd d pre lhs -> grammar LAnd d (pre ++ read) e
  end.

Lemma and_then_Ok p k e rest :
  and_then p k = Some (Ok (e, rest)) -> exists e' ts, p = Some (Ok (e', ts)) /\ k e' ts = Some (Ok (e, rest)).
Proof. destruct p as [[[e' ts]|]|]; [|done..]. intros H. by exists e', ts. Qed.

Lemma enter_Ok depth k e rest :
  enter depth k = Some (Ok (e, rest)) -> (depth < MAX_DEPTH)%nat /\ k (S depth) = Some (Ok (e, rest)).
Proof. unfold enter. destruct (Nat.ltb_spec MAX_DEPTH (S depth)); [done|]. intros H'. split; [lia|done]. Qed.

Lemma parse_sound fuel : forall c d ts e rest,
  parse_call fuel c d ts = Some (Ok (e, rest)) -> exists read, ts = read ++ rest /\ reads c d read e.
Proof.
  induction fuel as [|fuel IH]; intros c d ts e rest; [done|]. cbn [parse_call]. destruct c as [|lhs| |lhs| |].
  - intros (e' & ts' & (r1 & -> & H1)%IH & (r2 & -> & H2)%IH)%and_then_Ok. exists (r1 ++ r2).
    split; [by rewrite <- (assoc_L (++))|]. cbn in *. by apply H2, g_or_one.
  - unfold or_loop. destruct (eat_keyword _ ts) as [ts0|] eqn:Hk.
    + apply eat_keyword_Some in Hk as (w & -> & Hw).
      intros (e' & ts' & (r1 & -> & H1)%IH & (r2 & -> & H2)%IH)%and_then_Ok. exists (Ident w :: r1 ++ r2).
      split; [by cbn; rewrite <- app_assoc|]. intros pre Hpre. cbn in *.
      replace (pre ++ Ident w :: r1 ++ r2) with ((pre ++ Ident w :: r1) ++ r2) by (by rewrite <- app_assoc).
      by apply H2, g_or.
    + intros [= <- <-]. exists []. split; [done|]. intros pre Hpre. by rewrite app_nil_r.
  - intros (e' & ts' & (r1 & -> & H1)%IH & (r2 & -> & H2)%IH)%and_then_Ok. exists (r1 ++ r2).
    split; [by rewrite <- (assoc_L (++))|]. cbn in *. by apply H2, g_and_one.
  - unfold and_loop. destruct (eat_keyword _ ts) as [ts0|] eqn:Hk.
    + apply eat_keyword_Some in Hk as (w & -> & Hw).
      intros (e' & ts' & (r1 & -> & H1)%IH & (r2 & -> & H2)%IH)%and_then_Ok. exists (Ident w :: r1 ++ r2).
      split; [by cbn; rewrite <- app_assoc|]. intros pre Hpre. cbn in *.
      replace (pre ++ Ident w :: r1 ++ r2) with ((pre ++ Ident w :: r1) ++ r2) by (by rewrite <- app_assoc).
      by apply H2, g_and.
    + intros [= <- <-]. exists []. split; [done|]. intros pre Hpre. by rewrite app_nil_r.
  - unfold parse_not. destruct (eat_keyword _ ts) as [ts0|] eqn:Hk.
    + apply eat_keyword_Some in Hk as (w & -> & Hw).
      intros [Hd (e' & ts' & (r1 & -> & H1)%IH & [= <- <-])%and_then_Ok]%enter_Ok.
      exists (Ident w :: r1). split; [done|]. by apply g_not.
    + intros (r & -> & Hr)%IH. exists r. split; [done|]. by apply g_not_one.
  - unfold parse_primary. destruct ts as [|t ts]; [done|]. destruct t as [w| | | | | | | | |]; try done.
    + case_bool_decide as Hw; [|done]. subst w. intros (key & k & p & Hk & -> & ->)%parse_has_prefix_spec.
      exists [Ident HAS_PREFIX; LParen; Attributes; Dot; key; Comma; Str p; RParen]. split; [done|]. by apply g_prefix.
    + intros (key & k & Hk & [[-> ->]|[[v [-> ->]]|[v [-> ->]]]])%parse_attribute_term_spec.
      * exists [Attributes; Colon; key]. split; [done|]. by apply g_has.
      * exists [Attributes; Dot; key; Equal; Str v]. split; [done|]. by apply g_eq.
      * exists [Attributes; Dot; key; NotEqual; Str v]. split; [done|]. by apply g_ne.
    + intros [Hd (e' & ts' & (r1 & -> & H1)%IH & Hk)%and_then_Ok]%enter_Ok. cbn in H1.
      destruct ts' as [|[] ts']; try done. injection Hk as -> ->.
      exists (LParen :: r1 ++ [RParen]). split; [by cbn; rewrite <- app_assoc|]. by apply g_group.
Qed.

(** ** Every expression of the grammar is read *)

Lemma parse_call_mono f : forall f' c d ts x,
  (f <= f')%nat -> parse_call f c d ts = Some x -> parse_call f' c d ts = Some x.
Proof.
  induction f as [|f IH]; intros f' c d ts x Hf; [done|]. destruct f' as [|f']; [lia|]. cbn [parse_call].
  assert (IH' : forall c d ts x, parse_call f c d ts = Some x -> parse_call f' c d ts = Some x).
  { intros c' d' ts' x'. apply IH. lia. }
  assert (Hand : forall p p' k k' x, (forall y, p = Some y -> p' = Some y) -> (forall e r y, k e r = Some y -> k' e r = Some y) ->
    and_then p k = Some x -> and_then p' k' = Some x).
  { intros p p' k k' y Hp Hk. destruct p as [[[e r]|e]|]; [|by intros [= <-]; rewrite (Hp _ eq_refl)|done].
    cbn [and_then]. rewrite (Hp _ eq_refl). cbn [and_then]. apply Hk. }
  destruct c; unfold parse_or, or_loop, parse_and, and_loop, parse_not, parse_primary, enter;
    repeat case_match; try done; try (apply Hand; eauto); eauto.
  all: intros; simplify_eq; eauto.
Qed.

Definition gives (c : Call) (d : nat) (ts : list Token) (x : result (Expr * list Token) PubSubError) : Prop :=
  exists f, parse_call f c d ts = Some x.

(** A call whose first step is another call and whose last step is a third. *)
Lemma gives_seq c d ts x c1 d1 ts1 e rest c2 d2 :
  (forall f, parse_call (S f) c d ts =
     and_then (parse_call f c1 d1 ts1) (fun e rest => parse_call f (c2 e) d2 rest)) ->
  gives c1 d1 ts1 (Ok (e, rest)) -> gives (c2 e) d2 rest x -> gives c d ts x.
Proof.
  intros Hstep [f1 H1] [f2 H2]. exists (S (Nat.max f1 f2)). rewrite Hstep.
  rewrite (parse_call_mono f1 _ _ _ _ _ (Nat.le_max_l _ _) H1). cbn [and_then].
  by rewrite (parse_call_mono f2 _ _ _ _ _ (Nat.le_max_r _ _) H2).
Qed.

Lemma gives_or d ts l rest x : gives ParseAnd d ts (Ok (l, rest)) -> gives (OrLoop l) d rest x -> gives ParseOr d ts x.
Proof. by apply gives_seq. Qed.

Lemma gives_and d ts l rest x : gives ParseNot d ts (Ok (l, rest)) -> gives (AndLoop l) d rest x -> gives ParseAnd d ts x.
Proof. by apply gives_seq. Qed.

Lemma eat_word kw w ts : keyword kw w -> eat_keyword kw (Ident w :: ts) = Some ts.
Proof. intros Hw. by rewrite (proj2 (eat_keyword_Some kw (Ident w :: ts) ts)) by eauto. Qed.

Lemma gives_or_loop d w ts a b rest x : keyword (chars "OR") w ->
  gives ParseAnd d ts (Ok (b, rest)) -> gives (OrLoop (EOr a b)) d rest x -> gives (OrLoop a) d (Ident w :: ts) x.
Proof.
  intros Hw. apply (gives_seq _ _ _ _ _ _ _ _ _ (fun b => OrLoop (EOr a b))). intros f. cbn [parse_call].
  unfold or_loop. by rewrite eat_word.
Qed.

Lemma gives_and_loop d w ts a b rest x : keyword (chars "AND") w ->
  gives ParseNot d ts (Ok (b, rest)) -> gives (AndLoop (EAnd a b)) d rest x -> gives (AndLoop a) d (Ident w :: ts) x.
Proof.
  intros Hw. apply (gives_seq _ _ _ _ _ _ _ _ _ (fun b => AndLoop (EAnd a b))). intros f. cbn [parse_call].
  unfold and_loop. by rewrite eat_word.
Qed.

Lemma gives_loop_end d a rest :
  (eat_keyword (chars "OR") rest = None -> gives (OrLoop a) d rest (Ok (a, rest))) /\
  (eat_keyword (chars "AND") rest = None -> gives (AndLoop a) d rest (Ok (a, rest))).
Proof. split; intros Hk; exists 1%nat; cbn [parse_call]; unfold or_loop, and_loop; by rewrite Hk. Qed.

Lemma enter_below d k : (d < MAX_DEPTH)%nat -> enter d k = k (S d).
Proof. intros Hd. unfold enter. destruct (Nat.ltb_spec MAX_DEPTH (S d)); [lia|done]. Qed.

(** Only one keyword can start a token list. *)
Lemma keywords_differ ts ts' : eat_keyword (chars "OR") ts = Some ts' -> eat_keyword (chars "AND") ts = None.
Proof.
  intros (w & -> & Hw)%eat_keyword_Some. cbn [eat_keyword]. unfold eq_ignore_ascii_case in *.
  apply bool_decide_eq_true in Hw. by rewrite Hw.
Qed.

Lemma primary_start d ts e rest : grammar LPrimary d ts e -> eat_keyword (chars "NOT") (ts ++ rest) = None.
Proof. by inversion 1. Qed.

Lemma grammar_complete level d ts e : grammar level d ts e ->
  match level with
  | LOr => forall rest x, eat_keyword (chars "AND") rest = None ->
      gives (OrLoop e) d rest x -> gives ParseOr d (ts ++ rest) x
  | LAnd => forall rest x, gives (AndLoop e) d rest x -> gives ParseAnd d (ts ++ rest) x
  | LNot => forall rest, gives ParseNot d (ts ++ rest) (Ok (e, rest))
  | LPrimary => forall rest, gives ParsePrimary d (ts ++ rest) (Ok (e, rest))
  end.
Proof.
  induction 1 as [d ts e _ IH|d ts w ts' a b _ IH1 Hw _ IH2|d ts e _ IH|d ts w ts' a b _ IH1 Hw _ IH2|d ts e Hg IH
    |d w ts e Hw Hd _ IH|d ts e Hd _ IH|d key k Hk|d key k v Hk|d key k v Hk|d key k p Hk].
  - intros rest x Hrest Hx. eapply gives_or; [|exact Hx]. apply IH. by apply gives_loop_end.
  - intros rest x Hrest Hx. rewrite <- app_assoc. apply IH1.
    + apply (keywords_differ _ (ts' ++ rest)). by apply eat_word.
    + eapply gives_or_loop; [done| |exact Hx]. apply IH2. by apply gives_loop_end.
  - intros rest x Hx. by eapply gives_and.
  - intros rest x Hx. rewrite <- app_assoc. apply IH1. by eapply gives_and_loop.
  - intros rest. destruct (IH rest) as [f Hf]. exists (S f). cbn [parse_call]. unfold parse_not.
    by rewrite (primary_start d ts e rest).
  - intros rest. destruct (IH rest) as [f Hf]. exists (S f). cbn [parse_call app]. unfold parse_not.
    rewrite eat_word, enter_below by done. by rewrite Hf.
  - intros rest. destruct (IH (RParen :: rest) (Ok (e, RParen :: rest))) as [f Hf]; [done|by apply gives_loop_end|].
    exists (S f). cbn [parse_call app]. unfold parse_primary. rewrite enter_below by done.
    rewrite <- app_assoc. cbn [app]. by rewrite Hf.
  - intros rest. exists 1%nat. cbn [parse_call app]. unfold parse_primary.
    apply parse_attribute_term_spec. exists key, k. split; [done|]. by left.
  - intros rest. exists 1%nat. cbn [parse_call app]. unfold parse_primary.
    apply parse_attribute_term_spec. exists key, k. split; [done|]. right. left. by exists v.
  - intros rest. exists 1%nat. cbn [parse_call app]. unfold parse_primary.
    apply parse_attribute_term_spec. exists key, k. split; [done|]. right. right. by exists v.
  - intros rest. exists 1%nat. cbn [parse_call app]. unfold parse_primary. rewrite bool_decide_true by done.
    apply parse_has_prefix_spec. by exists key, k, p.
Qed.

(** The only error is an invalid argument. *)
Lemma parse_call_err f : forall c d ts e, parse_call f c d ts = Some (Err e) -> e = InvalidArgument.
Proof.
  induction f as [|f IH]; intros c d ts e; [done|]. cbn [parse_call].
  assert (Hand : forall p k, (forall e, p = Some (Err e) -> e = InvalidArgument) ->
    (forall e' r e, k e' r = Some (Err e) -> e = InvalidArgument) -> forall e, and_then p k = Some (Err e) -> e = InvalidArgument).
  { intros p k Hp Hk e'. destruct p as [[[e'' r]|e'']|]; cbn [and_then]; [apply Hk|apply Hp|done]. }
  destruct c; unfold parse_or, or_loop, parse_and, and_loop, parse_not, parse_primary, enter;
    repeat case_match; try (by intros [= <-]); try (apply Hand; [intros; eapply IH; eassumption|]); try (by intros ? ? ? [= <-]); eauto.
  - unfold parse_has_prefix, parse_err, parse_ok. repeat case_match; by intros [= <-].
  - unfold parse_attribute_term, parse_err, parse_ok. repeat case_match; by intros [= <-].
  - intros e' r e0. repeat case_match; by intros [= <-].
Qed.

Lemma lex_string_err input : forall out e, lex_string out input = Err e -> e = InvalidArgument.
Proof.
  induction input as [input IH] using (induction_ltof1 _ (@length Z)). unfold ltof in IH. intros out e.
  destruct input as [|c rest]; [by intros [= <-]|]. cbn [lex_string].
  destruct (c =? QUOTE); [done|]. destruct (c =? ch "\").
  - destruct rest as [|next rest]; [by intros [= <-]|]. case_match; [|by intros [= <-]]. apply IH. cbn. lia.
  - apply IH. cbn. lia.
Qed.

Lemma lex_loop_err f : forall input e, lex_loop f input = Err e -> e = InvalidArgument.
Proof.
  induction f as [|f IH]; intros input e; [by intros [= <-]|]. cbn [lex_loop].
  destruct input as [|c rest]; [done|]. destruct (is_blank c); [apply IH|].
  destruct (lex_token c rest) as [[t next]|e'] eqn:Ht.
  - destruct (lex_loop f next) eqn:Hl; [done|]. intros [= <-]. by eapply IH.
  - intros [= <-]. unfold lex_token in Ht. repeat case_match; simplify_eq; try done. by eapply lex_string_err.
Qed.

(** C31. The filter parser accepts exactly the documented grammar: a filter of at most 256
    bytes that is not blank parses to an expression just when its tokens are an
    expression of the grammar, nested at most 64 levels deep, and that is the expression
    it parses to; a blank one matches everything; all else is an invalid argument; and the
    parser always comes to an answer. *)
Theorem filter_parse_exact input f :
  (parse input = Ok f <->
    str_len input <= MAX_FILTER_BYTES /\
    if forallb is_whitespace input then f = always
    else exists ts e, lex input = Ok ts /\ grammar LOr 0 ts e /\ f = {| filter_root := Some e; filter_source := input |}) /\
  (is_ok (parse input) = false -> parse input = Err InvalidArgument) /\
  (forall ts, is_Some (parse_call (PARSE_FUEL ts) ParseOr 0 ts)).
Proof.
  assert (Htotal : forall ts, is_Some (parse_call (PARSE_FUEL ts) ParseOr 0 ts)).
  { intros ts. destruct (parse_call_total (PARSE_FUEL ts) ParseOr 0 ts) as (r & -> & _); [|by eexists].
    unfold PARSE_FUEL. cbn [rank]. lia. }
  split_and!; [| |done].
  - unfold parse. destruct (Z.ltb_spec MAX_FILTER_BYTES (str_len input)); [split; [done|lia]|].
    destruct (forallb is_whitespace input); [split; [by intros [= <-]|by intros [_ ->]]|].
    destruct (lex input) as [ts|] eqn:Hl; [|split; [done|]; by intros (_ & ? & ? & ? & _)]. split.
    + destruct (parse_call _ _ _ _) as [[[e [|t rest]]|]|] eqn:Hp; try done. intros [= <-]. split; [done|].
      apply parse_sound in Hp as (read & -> & Hr). rewrite app_nil_r in *. by exists read, e.
    + intros (_ & ts' & e & [= <-] & Hg & ->).
      destruct (grammar_complete _ _ _ _ Hg [] (Ok (e, []))) as [f' Hf']; [done|by apply gives_loop_end|].
      rewrite app_nil_r in Hf'. destruct (Htotal ts) as [r Hr].
      pose proof (parse_call_mono _ _ _ _ _ _ (Nat.le_max_l (PARSE_FUEL ts) f') Hr) as H1.
      pose proof (parse_call_mono _ _ _ _ _ _ (Nat.le_max_r (PARSE_FUEL ts) f') Hf') as H2.
      rewrite H1 in H2. injection H2 as ->. by rewrite Hr.
  - unfold parse. repeat case_match; try done; intros _; f_equal; [by eapply parse_call_err|by eapply lex_loop_err].
Qed.

(** Sixty-five groups fit into the byte limit and exceed the depth limit. *)
Theorem short_filter_too_deep :
  let s := repeat (ch "(") 65 ++ chars "attributes:a" ++ repeat (ch ")") 65 in
  str_len s = 142 /\ 142 <= MAX_FILTER_BYTES /\ parse s = Err InvalidArgument.
Proof. vm_compute. repeat split. discriminate. Qed.
