(* ===== verification/PsMessage.v ===== *)
(** * Pub/Sub messages

    Models [crates/fireemu-core-pubsub/src/message.rs]: the published message, its
    validation, and the message a broker stores.  Attributes are checked in key order;
    every error is an invalid argument. *)
From S2P Require Import Prelude Time Text PsName.

Definition MAX_DATA_BYTES : Z := 10000000.
Definition MAX_TOTAL_BYTES : Z := 10000000.
Definition MAX_ATTRIBUTES : Z := 100.
Definition MAX_ATTR_KEY_BYTES : Z := 256.
Definition MAX_ATTR_VALUE_BYTES : Z := 1024.
Definition MAX_ORDERING_KEY_BYTES : Z := 1024.

Record PubsubMessage := { data : list Z; attributes : gmap text text; ordering_key : text }.

Record StoredMessage := { message_id : text; publish_time : LogicalInstant; message : PubsubMessage }.

Definition validate_attribute (key value : text) : result unit PubSubError :=
  if bool_decide (key = []) then Err InvalidArgument
  else if MAX_ATTR_KEY_BYTES <? str_len key then Err InvalidArgument
  else if MAX_ATTR_VALUE_BYTES <? str_len value then Err InvalidArgument
  else if starts_with (chars "goog") key then Err InvalidArgument
  else if contains_byte 0 key then Err InvalidArgument
  else if contains_byte 0 value then Err InvalidArgument
  else Ok tt.

Definition validate_ordering_key (key : text) : result unit PubSubError :=
  if MAX_ORDERING_KEY_BYTES <? str_len key then Err InvalidArgument
  else if contains_byte 0 key then Err InvalidArgument
  else Ok tt.

(** The loop over the attributes that are left, [total] counted so far. *)
Fixpoint validate_attributes (attrs : list (text * text)) (total : Z) : result Z PubSubError :=
  match attrs with
  | [] => Ok total
  | (key, value) :: attrs =>
      match validate_attribute key value with
      | Err e => Err e
      | Ok _ => validate_attributes attrs (saturating usize (saturating usize (total + str_len key) + str_len value))
      end
  end.

Definition validate (m : PubsubMessage) : result unit PubSubError :=
  let data_len := Z.of_nat (length (data m)) in
  if bool_decide (data m = []) && bool_decide (attributes m = ∅) then Err InvalidArgument
  else if MAX_DATA_BYTES <? data_len then Err InvalidArgument
  else if MAX_ATTRIBUTES <? Z.of_nat (size (attributes m)) then Err InvalidArgument
  else
    match validate_attributes (btree_map_iter (attributes m)) data_len with
    | Err e => Err e
    | Ok total =>
        if MAX_TOTAL_BYTES <? total then Err InvalidArgument
        else validate_ordering_key (ordering_key m)
    end.
