(* ===== verification/PsSubscription.v ===== *)
(** * Pub/Sub subscriptions

    Models the configuration, the log and the retention of one subscription, of
    [crates/fireemu-core-pubsub/src/subscription.rs]; [PsPull] models its delivery.
    [Arc<StoredMessage>] is the message with the address of its allocation, which
    [Arc::ptr_eq] compares.  Slicing and indexing out of range panic: the outer [option]
    of an operation that does either is that panic, and [sub_wf] of [PsLog] rules it out.
    An error is its [Code]. *)
From S2P Require Import Prelude Time Text PsName PsFilter PsMessage.

Definition MIN_ACK_DEADLINE_SECONDS : Z := 10.
Definition MAX_ACK_DEADLINE_SECONDS : Z := 600.
Definition MIN_DEAD_LETTER_ATTEMPTS : Z := 5.
Definition MAX_DEAD_LETTER_ATTEMPTS : Z := 100.
Definition MAX_RETRY_BACKOFF_SECONDS : Z := 600.
Definition DEFAULT_PUSH_MINIMUM_REDELIVERY_INTERVAL_MILLIS : Z := 0.
Definition MAX_RETAINED_PER_SUB : Z := 100000.
Definition MAX_RETAINED_BYTES_PER_SUB : Z := 1024 * 1024 * 1024.

Record DeadLetterPolicy := { dead_letter_topic : TopicName; max_delivery_attempts : Z }.

Record RetryPolicy := { minimum_backoff : LogicalDuration; maximum_backoff : LogicalDuration }.

Record PushConfig := { push_endpoint : text; push_attributes : gmap text text }.

Record ExpirationPolicy := { ttl : option LogicalDuration }.

Record SubscriptionConfig := {
  name : SubscriptionName;
  config_topic : TopicName;
  ack_deadline_seconds : Z;
  labels : gmap text text;
  expiration_policy : option ExpirationPolicy;
  retain_acked_messages : bool;
  message_retention_duration : option LogicalDuration;
  enable_message_ordering : bool;
  filter_ : Filter;
  dead_letter_policy : option DeadLetterPolicy;
  retry_policy : option RetryPolicy;
  push_config : PushConfig;
}.

(** configuration.rs *)
Definition validate_retention (duration : LogicalDuration) : result unit PubSubError :=
  if (duration <? dur_from_seconds 600) || (dur_from_seconds 2678400 <? duration) then Err InvalidArgument
  else Ok tt.

Definition validate_dead_letter (dl : DeadLetterPolicy) : result unit PubSubError :=
  if max_delivery_attempts dl <? MIN_DEAD_LETTER_ATTEMPTS then Err InvalidArgument
  else if MAX_DEAD_LETTER_ATTEMPTS <? max_delivery_attempts dl then Err InvalidArgument
  else Ok tt.

Definition validate_retry (rp : RetryPolicy) : result unit PubSubError :=
  let maximum := dur_from_seconds MAX_RETRY_BACKOFF_SECONDS in
  if existsb (fun value => (value <? 0) || (maximum <? value)) [minimum_backoff rp; maximum_backoff rp]
  then Err InvalidArgument
  else if maximum_backoff rp <? minimum_backoff rp then Err InvalidArgument
  else Ok tt.

(** [if let Some(x) = o { check(x)? }] *)
Definition if_some {A} (o : option A) (check : A -> result unit PubSubError) : result unit PubSubError :=
  match o with Some x => check x | None => Ok tt end.

Definition config_validate (c : SubscriptionConfig) : result unit PubSubError :=
  if (ack_deadline_seconds c =? 0) || (MAX_ACK_DEADLINE_SECONDS <? ack_deadline_seconds c) then Err InvalidArgument
  else
    match if_some (message_retention_duration c) validate_retention with
    | Err e => Err e
    | Ok _ =>
        match if_some (dead_letter_policy c) validate_dead_letter with
        | Err e => Err e
        | Ok _ => if_some (retry_policy c) validate_retry
        end
    end.

Definition resolved_retention (c : SubscriptionConfig) : LogicalDuration :=
  default (dur_from_seconds 604800) (message_retention_duration c).

Definition is_push (c : SubscriptionConfig) : bool := negb (bool_decide (push_endpoint (push_config c) = [])).

Definition ack_deadline (c : SubscriptionConfig) : LogicalDuration := dur_from_seconds (ack_deadline_seconds c).

(** The doubling loop of [redelivery_backoff]. *)
Fixpoint double_backoff (steps : nat) (backoff maximum : LogicalDuration) : LogicalDuration :=
  match steps with
  | O => backoff
  | S steps =>
      if maximum <=? backoff then backoff
      else double_backoff steps (Z.min (saturating i128 (backoff * 2)) maximum) maximum
  end.

Definition redelivery_backoff (c : SubscriptionConfig) (delivery_attempt : Z) (push_minimum : LogicalDuration) : LogicalDuration :=
  match retry_policy c with
  | None => if is_push c then push_minimum else 0
  | Some policy =>
      if (minimum_backoff policy =? 0) || (maximum_backoff policy =? 0) then 0
      else
        let steps := Z.min (saturating u32 (delivery_attempt - 1)) 127 in
        double_backoff (Z.to_nat steps) (minimum_backoff policy) (maximum_backoff policy)
  end.

(** [Arc<StoredMessage>] *)
Record Shared := { address : Z; value : StoredMessage }.

Definition ptr_eq (a b : Shared) : bool := address a =? address b.

Inductive Delivery :=
| Available (available_at : LogicalInstant)
| Outstanding (ack_id : text) (deadline : LogicalInstant)
| Acked
| ForwardPending.

Record Entry := { stored : Shared; state : Delivery; delivery_attempt : Z }.

Record ReceivedMessage := { received_ack_id : text; received_message : Shared; received_attempt : Z }.

Record PullOutcome := { received : list ReceivedMessage; dead_lettered : list Shared }.

Inductive OrderedPullBatching := Mixed | SeparateUnkeyed.

Record SubscriptionState := {
  config : SubscriptionConfig;
  entries : list Entry;
  first_unacked : nat;
  outstanding : gmap text nat;
  retained_bytes : Z;
  push_minimum_redelivery_interval : LogicalDuration;
}.

Definition sub_new (c : SubscriptionConfig) : SubscriptionState :=
  {| config := c; entries := []; first_unacked := 0; outstanding := ∅; retained_bytes := 0;
     push_minimum_redelivery_interval := dur_from_millis DEFAULT_PUSH_MINIMUM_REDELIVERY_INTERVAL_MILLIS |}.

Definition set_config (c : SubscriptionConfig) (s : SubscriptionState) : SubscriptionState :=
  {| config := c; entries := entries s; first_unacked := first_unacked s; outstanding := outstanding s;
     retained_bytes := retained_bytes s; push_minimum_redelivery_interval := push_minimum_redelivery_interval s |}.

Definition set_entries (es : list Entry) (s : SubscriptionState) : SubscriptionState :=
  {| config := config s; entries := es; first_unacked := first_unacked s; outstanding := outstanding s;
     retained_bytes := retained_bytes s; push_minimum_redelivery_interval := push_minimum_redelivery_interval s |}.

Definition set_first (n : nat) (s : SubscriptionState) : SubscriptionState :=
  {| config := config s; entries := entries s; first_unacked := n; outstanding := outstanding s;
     retained_bytes := retained_bytes s; push_minimum_redelivery_interval := push_minimum_redelivery_interval s |}.

Definition set_outstanding (o : gmap text nat) (s : SubscriptionState) : SubscriptionState :=
  {| config := config s; entries := entries s; first_unacked := first_unacked s; outstanding := o;
     retained_bytes := retained_bytes s; push_minimum_redelivery_interval := push_minimum_redelivery_interval s |}.

Definition set_push_minimum_redelivery_interval (i : LogicalDuration) (s : SubscriptionState) : SubscriptionState :=
  {| config := config s; entries := entries s; first_unacked := first_unacked s; outstanding := outstanding s;
     retained_bytes := retained_bytes s; push_minimum_redelivery_interval := i |}.

Definition with_ack_deadline (seconds : Z) (c : SubscriptionConfig) : SubscriptionConfig :=
  {| name := name c; config_topic := config_topic c; ack_deadline_seconds := seconds; labels := labels c;
     expiration_policy := expiration_policy c; retain_acked_messages := retain_acked_messages c;
     message_retention_duration := message_retention_duration c; enable_message_ordering := enable_message_ordering c;
     filter_ := filter_ c; dead_letter_policy := dead_letter_policy c; retry_policy := retry_policy c;
     push_config := push_config c |}.

Definition with_push_config (push : PushConfig) (c : SubscriptionConfig) : SubscriptionConfig :=
  {| name := name c; config_topic := config_topic c; ack_deadline_seconds := ack_deadline_seconds c; labels := labels c;
     expiration_policy := expiration_policy c; retain_acked_messages := retain_acked_messages c;
     message_retention_duration := message_retention_duration c; enable_message_ordering := enable_message_ordering c;
     filter_ := filter_ c; dead_letter_policy := dead_letter_policy c; retry_policy := retry_policy c;
     push_config := push |}.

Definition with_topic (t : TopicName) (c : SubscriptionConfig) : SubscriptionConfig :=
  {| name := name c; config_topic := t; ack_deadline_seconds := ack_deadline_seconds c; labels := labels c;
     expiration_policy := expiration_policy c; retain_acked_messages := retain_acked_messages c;
     message_retention_duration := message_retention_duration c; enable_message_ordering := enable_message_ordering c;
     filter_ := filter_ c; dead_letter_policy := dead_letter_policy c; retry_policy := retry_policy c;
     push_config := push_config c |}.

Definition set_ack_deadline (seconds : Z) (s : SubscriptionState) : SubscriptionState :=
  set_config (with_ack_deadline seconds (config s)) s.

Definition set_push_config (push : PushConfig) (s : SubscriptionState) : SubscriptionState :=
  set_config (with_push_config push (config s)) s.

Definition replace_config (c : SubscriptionConfig) (s : SubscriptionState) : SubscriptionState := set_config c s.

(** The parse of the sentinel that [expect] unwraps. *)
Definition mark_topic_deleted (s : SubscriptionState) : option SubscriptionState :=
  match topic_parse DELETED_TOPIC with
  | Ok t => Some (set_config (with_topic t (config s)) s)
  | Err _ => None
  end.

(** ** Retention *)

Definition message_bytes (m : StoredMessage) : Z :=
  let attrs := map (fun '(key, v) => saturating usize (str_len key + str_len v)) (btree_map_iter (attributes (message m))) in
  saturating usize
    (saturating usize (Z.of_nat (length (data (message m))) + str_len (ordering_key (message m)))
     + wrapping usize (foldr Z.add 0 attrs)).

Definition entry_bytes (e : Entry) : Z := message_bytes (value (stored e)).

Definition is_acked (d : Delivery) : bool := match d with Acked => true | _ => false end.
Definition is_forward_pending (d : Delivery) : bool := match d with ForwardPending => true | _ => false end.

(** The number of acknowledged entries at the start of the log. *)
Fixpoint leading_acked (es : list Entry) : nat :=
  match es with e :: es => if is_acked (state e) then S (leading_acked es) else 0 | [] => 0 end.

(** The loop of [rebuild_indexes] over the entries from [index]. *)
Fixpoint index_outstanding (es : list Entry) (index : nat) (o : gmap text nat) : gmap text nat :=
  match es with
  | [] => o
  | e :: es =>
      index_outstanding es (S index)
        (match state e with Outstanding ack_id _ => <[ack_id := index]> o | _ => o end)
  end.

Definition rebuild_indexes (s : SubscriptionState) : SubscriptionState :=
  {| config := config s; entries := entries s; first_unacked := leading_acked (entries s);
     outstanding := index_outstanding (entries s) 0 ∅;
     retained_bytes := wrapping usize (foldr Z.add 0 (map entry_bytes (entries s)));
     push_minimum_redelivery_interval := push_minimum_redelivery_interval s |}.

Definition advance_first_unacked (s : SubscriptionState) : SubscriptionState :=
  set_first (first_unacked s + leading_acked (drop (first_unacked s) (entries s))) s.

Definition unacked (e : Entry) : Prop := is_acked (state e) = false.

#[global] Instance unacked_dec e : Decision (unacked e).
Proof. unfold unacked. apply _. Defined.

Definition reclaim_acked_entries (s : SubscriptionState) : SubscriptionState :=
  rebuild_indexes (set_entries (filter unacked (entries s)) s).

(** [fits] of [ensure_enqueue_capacity]: both sums within [usize] and the limits. *)
Definition capacity_fits (additional_count additional_bytes count bytes : Z) : bool :=
  match checked usize (count + additional_count), checked usize (bytes + additional_bytes) with
  | Some n, Some b => (n <=? MAX_RETAINED_PER_SUB) && (b <=? MAX_RETAINED_BYTES_PER_SUB)
  | _, _ => false
  end.

(** [try_fold] over the messages of a batch. *)
Fixpoint count_batch (messages : list StoredMessage) (count bytes : Z) : option (Z * Z) :=
  match messages with
  | [] => Some (count, bytes)
  | m :: messages =>
      count ← checked usize (count + 1);
      bytes ← checked usize (bytes + message_bytes m);
      count_batch messages count bytes
  end.

Definition ensure_enqueue_capacity (s : SubscriptionState) (messages : list StoredMessage) : result unit PubSubError :=
  match count_batch messages 0 0 with
  | None => Err ResourceExhausted
  | Some (additional_count, additional_bytes) =>
      let fits := capacity_fits additional_count additional_bytes in
      let count := Z.of_nat (length (entries s)) in
      if fits count (retained_bytes s) then Ok tt
      else
        let acked := filter (fun e => is_acked (state e)) (entries s) in
        let acked_count := saturating usize (Z.of_nat (length acked)) in
        let acked_bytes := fold_left (fun bytes e => saturating usize (bytes + entry_bytes e)) acked 0 in
        if fits (saturating usize (count - acked_count)) (saturating usize (retained_bytes s - acked_bytes)) then Ok tt
        else Err ResourceExhausted
  end.

Definition exceeds_bytes (s : SubscriptionState) (bytes : Z) : bool :=
  match checked usize (retained_bytes s + bytes) with
  | None => true
  | Some total => MAX_RETAINED_BYTES_PER_SUB <? total
  end.

Definition exceeds_entries (s : SubscriptionState) : bool := MAX_RETAINED_PER_SUB <=? Z.of_nat (length (entries s)).

Definition push_entry (m : Shared) (now : LogicalInstant) (s : SubscriptionState) : SubscriptionState :=
  {| config := config s;
     entries := entries s ++ [{| stored := m; state := Available now; delivery_attempt := 0 |}];
     first_unacked := first_unacked s; outstanding := outstanding s;
     retained_bytes := wrapping usize (retained_bytes s + message_bytes (value m));
     push_minimum_redelivery_interval := push_minimum_redelivery_interval s |}.

Definition enqueue (s : SubscriptionState) (m : Shared) (now : LogicalInstant) : result unit PubSubError * SubscriptionState :=
  let bytes := message_bytes (value m) in
  let s :=
    if (exceeds_entries s || exceeds_bytes s bytes) && existsb (fun e => is_acked (state e)) (entries s)
    then reclaim_acked_entries s else s in
  if exceeds_entries s then (Err ResourceExhausted, s)
  else if exceeds_bytes s bytes then (Err ResourceExhausted, s)
  else (Ok tt, push_entry m now s).

Definition admits (s : SubscriptionState) (attrs : gmap text text) : bool := matches (filter_ (config s)) attrs.
