(* ===== verification/PsPull.v ===== *)
(** * Pub/Sub delivery

    Models the delivery state machine of a subscription, of
    [crates/fireemu-core-pubsub/src/subscription.rs]: observing, lease expiry, pulls with
    dead-letter forwarding, acknowledgements, deadline changes and seeks.  The closure that
    draws acknowledgement ids is the function of the number of draws, the admission check a
    predicate. *)
From S2P Require Import Prelude Time Text PsName PsFilter PsMessage PsSubscription.

(** ** Observing *)

(** [self.entries[self.first_unacked..]] *)
Definition unacked_slice (s : SubscriptionState) : option (list Entry) :=
  if (first_unacked s <=? length (entries s))%nat then Some (drop (first_unacked s) (entries s)) else None.

Definition has_pending (s : SubscriptionState) (now : LogicalInstant) : option bool :=
  es ← unacked_slice s;
  Some (existsb (fun e =>
    match state e with
    | Outstanding _ _ => true
    | Available available_at => available_at <=? now
    | Acked | ForwardPending => false
    end) es).

(** [Iterator::min] *)
Definition min_instant (l : list LogicalInstant) : option LogicalInstant :=
  match l with [] => None | x :: l => Some (fold_left Z.min l x) end.

Definition entry_key (e : Entry) : text := ordering_key (message (value (stored e))).

(** The [filter_map] of [next_available_at]. *)
Fixpoint available_instants (ordered : bool) (blocked : gset text) (es : list Entry) : list LogicalInstant :=
  match es with
  | [] => []
  | e :: es =>
      if is_acked (state e) then available_instants ordered blocked es
      else if ordered && negb (bool_decide (entry_key e = [])) && bool_decide (entry_key e ∈ blocked)
      then available_instants ordered blocked es
      else
        let blocked :=
          if ordered && negb (bool_decide (entry_key e = [])) then {[entry_key e]} ∪ blocked else blocked in
        match state e with
        | Available available_at => available_at :: available_instants ordered blocked es
        | _ => available_instants ordered blocked es
        end
  end.

Definition next_available_at (s : SubscriptionState) : option (option LogicalInstant) :=
  es ← unacked_slice s;
  Some (min_instant (available_instants (enable_message_ordering (config s)) ∅ es)).

Definition next_pull_deadline (s : SubscriptionState) (now : LogicalInstant) : option (option LogicalInstant) :=
  es ← unacked_slice s;
  Some (min_instant (filter (fun deadline => now < deadline)
    (omap (fun e => match state e with
                    | Available available_at => Some available_at
                    | Outstanding _ deadline => Some deadline
                    | Acked | ForwardPending => None
                    end) es))).

Definition outstanding_count (s : SubscriptionState) : Z := Z.of_nat (size (outstanding s)).

(** ** Deadlines *)

Definition redeliver (e : Entry) (available_at : LogicalInstant) : Entry :=
  {| stored := stored e; state := Available available_at; delivery_attempt := delivery_attempt e |}.

Definition with_state (d : Delivery) (e : Entry) : Entry :=
  {| stored := stored e; state := d; delivery_attempt := delivery_attempt e |}.

(** [now.checked_add(backoff).unwrap_or(now)] for an entry that is given back. *)
Definition back_at (s : SubscriptionState) (e : Entry) (now : LogicalInstant) : LogicalInstant :=
  default now (inst_checked_add now
    (redelivery_backoff (config s) (delivery_attempt e) (push_minimum_redelivery_interval s))).

(** The filter of [expire_deadlines] over the leases. *)
Fixpoint expired_ids (es : list Entry) (leases : list (text * nat)) (now : LogicalInstant) : option (list text) :=
  match leases with
  | [] => Some []
  | (ack_id, index) :: leases =>
      e ← es !! index;
      rest ← expired_ids es leases now;
      Some (match state e with
            | Outstanding _ deadline => if deadline <=? now then ack_id :: rest else rest
            | _ => rest
            end)
  end.

Definition expire_one (now : LogicalInstant) (s : SubscriptionState) (ack_id : text) : option SubscriptionState :=
  match outstanding s !! ack_id with
  | None => Some s
  | Some index =>
      e ← entries s !! index;
      Some (set_entries (<[index := redeliver e (back_at s e now)]> (entries s))
             (set_outstanding (delete ack_id (outstanding s)) s))
  end.

(** [for x in l { s = f(s, x)? }] *)
Fixpoint each {A S} (f : S -> A -> option S) (l : list A) (s : S) : option S :=
  match l with [] => Some s | x :: l => s ← f s x; each f l s end.

Definition expire_deadlines (s : SubscriptionState) (now : LogicalInstant) : option SubscriptionState :=
  expired ← expired_ids (entries s) (btree_map_iter (outstanding s)) now;
  each (expire_one now) expired s.

Definition retain_outstanding_ack_ids (s : SubscriptionState) (ack_ids : gset text) (now : LogicalInstant)
    : option (gset text * SubscriptionState) :=
  s ← expire_deadlines s now;
  Some (filter (fun id => is_Some (outstanding s !! id)) ack_ids, s).

(** ** Pulling *)

(** What the selection loop of a pull knows of it. *)
Record PullPlan := {
  plan_config : SubscriptionConfig;
  plan_max : nat;
  plan_now : LogicalInstant;
  plan_max_attempts : option Z;
  unkeyed_only : bool;
}.

Definition is_available (e : Entry) (now : LogicalInstant) : bool :=
  match state e with Available available_at => available_at <=? now | _ => false end.

(** [max_attempts.is_some_and(|limit| entry.delivery_attempt >= limit)] *)
Definition exhausted (max_attempts : option Z) (e : Entry) : bool :=
  match max_attempts with Some limit => limit <=? delivery_attempt e | None => false end.

(** [ordered && !ordering_key.is_empty()] *)
Definition holds_key (c : SubscriptionConfig) (e : Entry) : bool :=
  enable_message_ordering c && negb (bool_decide (entry_key e = [])).

(** [set.insert(key)] when the entry has an ordering key to hold. *)
Definition insert_key (c : SubscriptionConfig) (e : Entry) (ks : gset text) : gset text :=
  if holds_key c e then {[entry_key e]} ∪ ks else ks.

(** The selection loop over the entries from index [i]: the indexes to deliver and those to
    forward, each in order; [chosen] counts the ones selected so far. *)
Fixpoint select (p : PullPlan) (es : list Entry) (i : nat) (blocked emitted : gset text) (chosen : nat) : list nat * list nat :=
  match es with
  | [] => ([], [])
  | e :: es =>
      let next blocked emitted := select p es (S i) blocked emitted chosen in
      if (plan_max p <=? chosen)%nat then ([], [])
      else if is_acked (state e) then next blocked emitted
      else if unkeyed_only p && negb (bool_decide (entry_key e = [])) then next blocked emitted
      else if holds_key (plan_config p) e && bool_decide (entry_key e ∈ blocked) then next blocked emitted
      else if negb (is_available e (plan_now p)) then next (insert_key (plan_config p) e blocked) emitted
      else if exhausted (plan_max_attempts p) e then
        let blocked' := insert_key (plan_config p) e blocked in
        if holds_key (plan_config p) e && bool_decide (entry_key e ∈ emitted) then next blocked' emitted
        else let '(selected, forwarded) := next blocked' emitted in (selected, i :: forwarded)
      else
        let blocked' :=
          if is_push (plan_config p) || (0 <? delivery_attempt e) then insert_key (plan_config p) e blocked
          else blocked in
        let '(selected, forwarded) :=
          select p es (S i) blocked' (insert_key (plan_config p) e emitted) (S chosen) in
        (i :: selected, forwarded)
  end.

(** Without authority to forward, reserved entries are available again. *)
Definition release_forwards (now : LogicalInstant) (s : SubscriptionState) : SubscriptionState :=
  set_entries (map (fun e => if is_forward_pending (state e) then with_state (Available now) e else e) (entries s)) s.

Definition forward_one (s : SubscriptionState) (i : nat) : option SubscriptionState :=
  e ← entries s !! i; Some (set_entries (<[i := with_state ForwardPending e]> (entries s)) s).

(** The lease of the [n]th selected entry. *)
Definition lease_one (deadline : LogicalInstant) (s : SubscriptionState) (i : nat) (ack_id : text)
    : option (ReceivedMessage * SubscriptionState) :=
  e ← entries s !! i;
  let e' := {| stored := stored e; state := Outstanding ack_id deadline;
              delivery_attempt := wrapping u32 (delivery_attempt e + 1) |} in
  Some ({| received_ack_id := ack_id; received_message := stored e; received_attempt := delivery_attempt e' |},
        set_outstanding (<[ack_id := i]> (outstanding s)) (set_entries (<[i := e']> (entries s)) s)).

Fixpoint lease_all (deadline : LogicalInstant) (next_ack_id : nat -> text) (drawn : nat) (selected : list nat) (s : SubscriptionState)
    : option (list ReceivedMessage * SubscriptionState) :=
  match selected with
  | [] => Some ([], s)
  | i :: selected =>
      '(r, s) ← lease_one deadline s i (next_ack_id drawn);
      '(rs, s) ← lease_all deadline next_ack_id (S drawn) selected s;
      Some (r :: rs, s)
  end.

Definition stored_at (s : SubscriptionState) (is_ : list nat) : option (list Shared) :=
  mapM (fun i => stored <$> entries s !! i) is_.

Definition plan_pull (s : SubscriptionState) (max : nat) (now : LogicalInstant) (authorized : bool)
    (batching : OrderedPullBatching) : option PullPlan :=
  let max_attempts := if authorized then max_delivery_attempts <$> dead_letter_policy (config s) else None in
  only ← (if enable_message_ordering (config s) && match batching with SeparateUnkeyed => true | Mixed => false end then
            es ← unacked_slice s;
            Some (existsb (fun e => bool_decide (entry_key e = []) && is_available e now && negb (exhausted max_attempts e)) es)
          else Some false);
  Some {| plan_config := config s; plan_max := max; plan_now := now; plan_max_attempts := max_attempts; unkeyed_only := only |}.

Definition pull_with_admission (s : SubscriptionState) (max : nat) (now : LogicalInstant) (forwarding_authorized : bool)
    (batching : OrderedPullBatching) (next_ack_id : nat -> text) (admission : list StoredMessage -> bool)
    : option (PullOutcome * SubscriptionState) :=
  let s := if forwarding_authorized then s else release_forwards now s in
  let nothing := {| received := []; dead_lettered := [] |} in
  if (max =? 0)%nat then Some (nothing, s)
  else
    let deadline := default inst_MAX (inst_checked_add now (ack_deadline (config s))) in
    plan ← plan_pull s max now forwarding_authorized batching;
    let '(selected, forwarded) := select plan (drop (first_unacked s) (entries s)) (first_unacked s) ∅ ∅ 0 in
    candidates ← stored_at s selected;
    if negb (bool_decide (selected = [])) && negb (admission (map value candidates)) then Some (nothing, s)
    else
      dead ← stored_at s forwarded;
      s ← each forward_one forwarded s;
      '(rs, s) ← lease_all deadline next_ack_id 0 selected s;
      Some ({| received := rs; dead_lettered := dead |}, advance_first_unacked s).

Definition pull_with_forwarding (s : SubscriptionState) (max : nat) (now : LogicalInstant) (forwarding_authorized : bool)
    (batching : OrderedPullBatching) (next_ack_id : nat -> text) : option (PullOutcome * SubscriptionState) :=
  pull_with_admission s max now forwarding_authorized batching next_ack_id (fun _ => true).

Definition pull (s : SubscriptionState) (max : nat) (now : LogicalInstant) (next_ack_id : nat -> text)
    : option (PullOutcome * SubscriptionState) :=
  pull_with_forwarding s max now true Mixed next_ack_id.

(** ** Acknowledging *)

Definition acknowledge_one (s : SubscriptionState) (ack_id : text) : option SubscriptionState :=
  match outstanding s !! ack_id with
  | None => Some s
  | Some index =>
      e ← entries s !! index;
      Some (set_entries (<[index := with_state Acked e]> (entries s)) (set_outstanding (delete ack_id (outstanding s)) s))
  end.

(** The loop of [acknowledge]; [acked] counts the entries it has acknowledged. *)
Fixpoint acknowledge_loop (ack_ids : list text) (acked : Z) (s : SubscriptionState) : option (Z * SubscriptionState) :=
  match ack_ids with
  | [] => Some (acked, s)
  | ack_id :: ack_ids =>
      let acked := match outstanding s !! ack_id with Some _ => acked + 1 | None => acked end in
      s ← acknowledge_one s ack_id;
      acknowledge_loop ack_ids acked s
  end.

Definition acknowledge (s : SubscriptionState) (ack_ids : list text) : option (Z * SubscriptionState) :=
  '(acked, s) ← acknowledge_loop ack_ids 0 s;
  Some (acked, advance_first_unacked s).

Definition complete_forward (s : SubscriptionState) (id : text) : bool * SubscriptionState :=
  match list_find (fun e => message_id (value (stored e)) = id /\ is_forward_pending (state e) = true) (entries s) with
  | None => (false, s)
  | Some (i, e) => (true, advance_first_unacked (set_entries (<[i := with_state Acked e]> (entries s)) s))
  end.

Definition forwarding_attempt (s : SubscriptionState) (m : Shared) : option Z :=
  (fun p => delivery_attempt p.2) <$>
    list_find (fun e => is_forward_pending (state e) && ptr_eq (stored e) m = true) (entries s).

Definition resume_forward (s : SubscriptionState) (m : Shared) (now : LogicalInstant) : SubscriptionState :=
  set_entries (map (fun e => if is_forward_pending (state e) && ptr_eq (stored e) m then with_state (Available now) e else e)
                 (entries s)) s.

Definition pending_forwards (s : SubscriptionState) : list Shared :=
  map stored (filter (fun e => is_forward_pending (state e)) (entries s)).

Definition modify_ack_deadline (s : SubscriptionState) (ack_id : text) (seconds : Z) (now : LogicalInstant) : option SubscriptionState :=
  match outstanding s !! ack_id with
  | None => Some s
  | Some index =>
      e ← entries s !! index;
      if seconds =? 0 then
        Some (set_entries (<[index := redeliver e (back_at s e now)]> (entries s))
               (set_outstanding (delete ack_id (outstanding s)) s))
      else
        match state e with
        | Outstanding id _ =>
            let deadline := default inst_MAX (inst_checked_add now (dur_from_seconds seconds)) in
            Some (set_entries (<[index := with_state (Outstanding id deadline) e]> (entries s)) s)
        | _ => Some s
        end
  end.

(** ** Seeking *)

Definition replayed (now : LogicalInstant) (e : Entry) : Entry :=
  {| stored := stored e; state := Available now; delivery_attempt := 0 |}.

Definition seek_to_time (s : SubscriptionState) (time now : LogicalInstant) : result unit PubSubError * SubscriptionState :=
  if enable_message_ordering (config s) then (Err Unimplemented, s)
  else
    (Ok tt, rebuild_indexes (set_entries
      (map (fun e => if publish_time (value (stored e)) <? time then with_state Acked e else replayed now e) (entries s)) s)).

Definition retention_accounting (s : SubscriptionState) : Z * Z * Z :=
  fold_left (fun '(unacked, unacked_bytes, acked_bytes) e =>
    let bytes := Z.of_nat (length (data (message (value (stored e))))) in
    if is_acked (state e) then (unacked, unacked_bytes, saturating u64 (acked_bytes + bytes))
    else (unacked + 1, saturating u64 (unacked_bytes + bytes), acked_bytes)) (entries s) (0, 0, 0).

Definition entry_id (e : Entry) : text := message_id (value (stored e)).

Definition unacknowledged_message_ids (s : SubscriptionState) : gset text :=
  list_to_set (map entry_id (filter unacked (entries s))).

Definition retained_message_ids (s : SubscriptionState) : gset text := list_to_set (map entry_id (entries s)).

Definition retained_messages (s : SubscriptionState) : list Shared := map stored (entries s).

Definition oldest_unacknowledged_publish_time (s : SubscriptionState) : option LogicalInstant :=
  min_instant (map (fun e => publish_time (value (stored e))) (filter unacked (entries s))).

(** The messages of the snapshot that the subscription no longer retains. *)
Definition missing_messages (s : SubscriptionState) (captured : list Shared) (retained_ids : gset text) : list Shared :=
  filter (fun m => (message_id (value m) ∈ retained_ids) /\ (message_id (value m) ∉ retained_message_ids s) /\
                   admits s (attributes (message (value m))) = true) captured.

(** Published after the snapshot. *)
Definition newer (retained_ids : gset text) (created_at : LogicalInstant) (e : Entry) : Prop :=
  (entry_id e ∉ retained_ids) /\ created_at <= publish_time (value (stored e)).

#[global] Instance newer_dec ids t e : Decision (newer ids t e).
Proof. unfold newer. apply _. Defined.

Definition sum_bytes (es : list Entry) : Z := wrapping usize (foldr Z.add 0 (map entry_bytes es)).

Definition seek_to_snapshot (s : SubscriptionState) (captured : list Shared) (retained_ids unacked_ids : gset text)
    (created_at now : LogicalInstant) : result unit PubSubError * SubscriptionState :=
  let missing := missing_messages s captured retained_ids in
  let acked := filter (fun e => is_acked (state e)) (entries s) in
  let acked_count := Z.of_nat (length acked) in
  let acked_bytes := sum_bytes acked in
  let missing_count := Z.of_nat (length missing) in
  let missing_bytes := wrapping usize (foldr Z.add 0 (map (fun m => message_bytes (value m)) missing)) in
  let count := Z.of_nat (length (entries s)) in
  let entries_without_acked := saturating usize (count - acked_count) in
  let bytes_without_acked := saturating usize (retained_bytes s - acked_bytes) in
  let entries_after := saturating usize (count + missing_count) in
  let bytes_after := saturating usize (retained_bytes s + missing_bytes) in
  let can_reclaim_acked := (MAX_RETAINED_PER_SUB <? entries_after) || (MAX_RETAINED_BYTES_PER_SUB <? bytes_after) in
  if can_reclaim_acked && ((MAX_RETAINED_PER_SUB <? saturating usize (entries_without_acked + missing_count))
                           || (MAX_RETAINED_BYTES_PER_SUB <? saturating usize (bytes_without_acked + missing_bytes)))
  then (Err ResourceExhausted, s)
  else
    let s := if can_reclaim_acked then reclaim_acked_entries s else s in
    let insertion_index := match list_find (newer retained_ids created_at) (entries s) with
                           | Some (i, _) => i
                           | None => length (entries s)
                           end in
    let es := take insertion_index (entries s) ++
              map (fun m => {| stored := m; state := Available now; delivery_attempt := 0 |}) missing ++
              drop insertion_index (entries s) in
    let es := map (fun e => if decide (entry_id e ∈ unacked_ids \/ newer retained_ids created_at e)
                            then replayed now e else with_state Acked e) es in
    (Ok tt, rebuild_indexes (set_entries es s)).
