(* ===== verification/PsLog.v ===== *)
(** * The log of a subscription

    The invariant of a subscription's state ([PsSubscription]): its first unacknowledged
    entry, its table of leases and its retained bytes are those of its log, which stays
    within the limits.  Every operation preserves it, and under it no operation panics. *)
From S2P Require Import Prelude Time Text PsName PsFilter PsMessage PsSubscription PsPull.

(** ** The indexes of the log *)

Definition outstanding_ok (es : list Entry) (o : gmap text nat) : Prop :=
  forall id i, o !! id = Some i <-> exists e d, es !! i = Some e /\ state e = Outstanding id d.

Definition total_bytes (es : list Entry) : Z := foldr Z.add 0 (map entry_bytes es).
#[global] Arguments total_bytes : simpl never.

(** What holds between the steps of a loop, ... *)
Record sub_lax (s : SubscriptionState) : Prop := {
  lax_first : (first_unacked s <= leading_acked (entries s))%nat;
  lax_outstanding : outstanding_ok (entries s) (outstanding s);
  lax_bytes : retained_bytes s = total_bytes (entries s);
  lax_max_bytes : retained_bytes s <= MAX_RETAINED_BYTES_PER_SUB;
  lax_max_entries : Z.of_nat (length (entries s)) <= MAX_RETAINED_PER_SUB;
  lax_attempts : Forall (fun e => fits u32 (delivery_attempt e)) (entries s);
}.

(** ... and between operations. *)
Record sub_wf (s : SubscriptionState) : Prop := {
  wf_lax : sub_lax s;
  wf_first : first_unacked s = leading_acked (entries s);
}.

Lemma message_bytes_bounds m : fits usize (message_bytes m).
Proof. unfold message_bytes. apply saturating_fits. done. Qed.

Lemma total_bytes_nonneg es : 0 <= total_bytes es.
Proof.
  induction es as [|e es IH]; [done|]. change (total_bytes (e :: es)) with (entry_bytes e + total_bytes es).
  pose proof (message_bytes_bounds (value (stored e))). unfold entry_bytes. int_lia.
Qed.

Lemma total_bytes_app es es' : total_bytes (es ++ es') = total_bytes es + total_bytes es'.
Proof.
  induction es as [|e es IH]; [done|]. change (total_bytes ((e :: es) ++ es')) with (entry_bytes e + total_bytes (es ++ es')).
  rewrite IH. change (total_bytes (e :: es)) with (entry_bytes e + total_bytes es). lia.
Qed.

Lemma total_bytes_map (f : Entry -> Entry) es : (forall e, stored (f e) = stored e) -> total_bytes (map f es) = total_bytes es.
Proof.
  intros Hf. unfold total_bytes. rewrite map_map. f_equal. apply map_ext. intros e. unfold entry_bytes. by rewrite Hf.
Qed.

Lemma total_bytes_insert es i e e' :
  es !! i = Some e -> stored e' = stored e -> total_bytes (<[i := e']> es) = total_bytes es.
Proof.
  intros Hi Hs. rewrite insert_take_drop by (by eapply lookup_lt_Some). rewrite <- (take_drop_middle es i e Hi) at 3.
  rewrite !total_bytes_app. f_equal. unfold total_bytes. cbn. unfold entry_bytes. by rewrite Hs.
Qed.

Lemma leading_le es : (leading_acked es <= length es)%nat.
Proof. induction es as [|e es IH]; cbn; [lia|]. destruct (is_acked (state e)); lia. Qed.

Lemma leading_spec es : (forall i e, es !! i = Some e -> (i < leading_acked es)%nat -> is_acked (state e) = true) /\
  (forall e, es !! leading_acked es = Some e -> is_acked (state e) = false).
Proof.
  induction es as [|e es [IH1 IH2]]; [split; [intros i x ?; done|done]|]. cbn [leading_acked].
  destruct (is_acked (state e)) eqn:He.
  - split; [|exact IH2]. intros [|i] x; cbn; [by intros [= <-]|]. intros Hi Hlt. apply (IH1 i); [done|lia].
  - split; [intros i x _ Hlt; lia|]. by intros x [= <-].
Qed.

(** The first unacknowledged entry, by the flags of the entries only. *)
Lemma leading_map (f : Entry -> Entry) es :
  (forall e, e ∈ es -> is_acked (state (f e)) = is_acked (state e)) -> leading_acked (map f es) = leading_acked es.
Proof.
  induction es as [|e es IH]; intros Hf; [done|]. cbn. rewrite Hf by by left.
  destruct (is_acked (state e)); [|done]. f_equal. apply IH. intros x Hx. apply Hf. by right.
Qed.

Lemma leading_insert es i e e' : es !! i = Some e -> is_acked (state e') = is_acked (state e) ->
  leading_acked (<[i := e']> es) = leading_acked es.
Proof.
  revert i. induction es as [|x es IH]; intros [|i] Hi He; try done.
  - cbn in Hi |- *. injection Hi as ->. by rewrite He.
  - cbn in Hi |- *. destruct (is_acked (state x)); [|done]. f_equal. by apply IH.
Qed.

Lemma leading_app es es' : leading_acked (es ++ es') =
  if forallb (fun e => is_acked (state e)) es then (length es + leading_acked es')%nat else leading_acked es.
Proof.
  induction es as [|e es IH]; [done|]. cbn. destruct (is_acked (state e)); cbn; [|done]. rewrite IH.
  by destruct (forallb _ es).
Qed.

Lemma leading_drop es n : (n <= leading_acked es)%nat -> (n + leading_acked (drop n es))%nat = leading_acked es.
Proof.
  revert n. induction es as [|e es IH]; intros [|n] Hn; try done; cbn in Hn |- *; [lia|].
  destruct (is_acked (state e)); [|lia]. rewrite <- (IH n) by lia. lia.
Qed.

Lemma leading_acked_at es i : (forall j e, es !! j = Some e -> (j < i)%nat -> is_acked (state e) = true) ->
  (i <= length es)%nat -> (i <= leading_acked es)%nat.
Proof.
  revert i. induction es as [|e es IH]; intros [|i] H Hi; cbn in *; try lia.
  rewrite (H 0%nat e) by (done || lia). enough (i <= leading_acked es)%nat by lia. apply IH; [|lia].
  intros j x Hj Hlt. apply (H (S j) x); [done|lia].
Qed.

(** Changing one entry. *)
Lemma outstanding_release es o i e e' id d :
  outstanding_ok es o -> es !! i = Some e -> state e = Outstanding id d ->
  (forall id d, state e' <> Outstanding id d) -> outstanding_ok (<[i := e']> es) (delete id o).
Proof.
  intros Ho Hi Hs He' id' j. rewrite lookup_delete_Some. split.
  - intros [Hne Hj]. apply Ho in Hj as (x & dx & Hx & Hsx). exists x, dx. split; [|done].
    rewrite list_lookup_insert_ne; [done|]. intros ->. rewrite Hx in Hi. injection Hi as ->. congruence.
  - intros (x & dx & Hx & Hsx). destruct (decide (i = j)) as [->|Hij].
    + rewrite list_lookup_insert_eq in Hx by (by eapply lookup_lt_Some). injection Hx as <-. by apply He' in Hsx.
    + rewrite list_lookup_insert_ne in Hx by done. split; [|apply Ho; by exists x, dx].
      intros <-. assert (Hoi : o !! id = Some i) by (apply Ho; by exists e, d).
      assert (Hoj : o !! id = Some j) by (apply Ho; by exists x, dx). congruence.
Qed.

Lemma outstanding_lease es o i e e' id d :
  outstanding_ok es o -> es !! i = Some e -> (forall id d, state e <> Outstanding id d) ->
  state e' = Outstanding id d -> o !! id = None -> outstanding_ok (<[i := e']> es) (<[id := i]> o).
Proof.
  intros Ho Hi Hs He' Hid id' j. rewrite lookup_insert_Some. split.
  - intros [[<- <-]|[Hne Hj]]; [exists e', d; by rewrite list_lookup_insert_eq by (by eapply lookup_lt_Some)|].
    apply Ho in Hj as (x & dx & Hx & Hsx). exists x, dx. split; [|done].
    rewrite list_lookup_insert_ne; [done|]. intros ->. rewrite Hx in Hi. injection Hi as ->. by apply Hs in Hsx.
  - intros (x & dx & Hx & Hsx). destruct (decide (i = j)) as [->|Hij].
    + rewrite list_lookup_insert_eq in Hx by (by eapply lookup_lt_Some). injection Hx as <-. left. split; congruence.
    + rewrite list_lookup_insert_ne in Hx by done. right. assert (Hoj : o !! id' = Some j) by (apply Ho; by exists x, dx).
      split; [congruence|done].
Qed.

Lemma outstanding_same es o i e e' :
  outstanding_ok es o -> es !! i = Some e -> (forall id, (exists d, state e' = Outstanding id d) <-> exists d, state e = Outstanding id d) ->
  outstanding_ok (<[i := e']> es) o.
Proof.
  intros Ho Hi Hs id j. rewrite (Ho id j). destruct (decide (i = j)) as [->|Hij].
  - rewrite list_lookup_insert_eq by (by eapply lookup_lt_Some). split.
    + intros (x & d & Hx & Hd). rewrite Hx in Hi. injection Hi as ->.
      destruct (proj2 (Hs id)) as [d' Hd']; [by exists d|]. by exists e', d'.
    + intros (x & d & [= <-] & Hd). destruct (proj1 (Hs id)) as [d' Hd']; [by exists d|]. by exists e, d'.
  - by rewrite list_lookup_insert_ne by done.
Qed.

Lemma outstanding_map es o (f : Entry -> Entry) :
  outstanding_ok es o -> (forall e, e ∈ es -> forall id, (exists d, state (f e) = Outstanding id d) <-> exists d, state e = Outstanding id d) ->
  outstanding_ok (map f es) o.
Proof.
  intros Ho Hf id j. rewrite (Ho id j). change (map f es) with (f <$> es). rewrite list_lookup_fmap. split.
  - intros (x & d & Hx & Hd). destruct (proj2 (Hf x (list_elem_of_lookup_2 _ _ _ Hx) id)) as [d' Hd']; [by exists d|].
    exists (f x), d'. by rewrite Hx.
  - intros (y & d & Hy & Hd). apply fmap_Some in Hy as (x & Hx & ->).
    destruct (proj1 (Hf x (list_elem_of_lookup_2 _ _ _ Hx) id)) as [d' Hd']; [by exists d|]. by exists x, d'.
Qed.

Lemma index_outstanding_spec es : forall i o,
  (forall j k e e' id d d', es !! j = Some e -> es !! k = Some e' -> state e = Outstanding id d -> state e' = Outstanding id d' -> j = k) ->
  forall id n, index_outstanding es i o !! id = Some n <->
    (exists j e d, es !! j = Some e /\ state e = Outstanding id d /\ n = (i + j)%nat) \/
    ((forall j e d, es !! j = Some e -> state e <> Outstanding id d) /\ o !! id = Some n).
Proof.
  induction es as [|e es IH]; intros i o Huniq id n; cbn [index_outstanding].
  - split; [intros H; right; split; [by intros j e d|done]|]. intros [(j & e & d & He & _)|[_ H]]; done.
  - rewrite IH; [|intros j k x x' id' d d' Hj Hk Hx Hx'; assert (S j = S k) by (by eapply Huniq); lia].
    split.
    + intros [(j & x & d & Hj & Hx & ->)|[Hnone Ho]]; [left; exists (S j), x, d; split_and!; [done|done|lia]|].
      destruct (state e) as [|id' d'| |] eqn:He; try (right; split; [intros [|j] x d Hx; [injection Hx as <-; congruence|by apply (Hnone j)]|done]).
      apply lookup_insert_Some in Ho as [[-> <-]|[Hne Ho]]; [left; exists 0%nat, e, d'; split_and!; [done|done|lia]|].
      right. split; [|done]. intros [|j] x d Hx; [injection Hx as <-; congruence|by apply (Hnone j)].
    + intros [(j & x & d & Hj & Hx & ->)|[Hnone Ho]].
      * destruct j as [|j]; [|left; exists j, x, d; split_and!; [done|done|lia]]. injection Hj as <-.
        right. rewrite Hx. split; [|rewrite lookup_insert_eq; f_equal; lia].
        intros k y d' Hk Hy. assert (0%nat = S k) by (by eapply (Huniq 0%nat (S k))). done.
      * right. split; [intros j x d Hx; by apply (Hnone (S j))|].
        destruct (state e) as [|id' d'| |] eqn:He; try done. rewrite lookup_insert_ne; [done|].
        intros ->. by apply (Hnone 0%nat e d').
Qed.

Lemma outstanding_app es es' o : outstanding_ok es o -> (forall e, e ∈ es' -> forall id d, state e <> Outstanding id d) ->
  outstanding_ok (es ++ es') o.
Proof.
  intros Ho Hn id j. rewrite (Ho id j). split; intros (x & d & Hx & Hd); exists x, d; split; try done.
  - by apply lookup_app_l_Some.
  - apply lookup_app_Some in Hx as [Hx|[_ Hx]]; [done|]. exfalso. by apply (Hn x (list_elem_of_lookup_2 _ _ _ Hx) id d).
Qed.

(** ** Building the indexes *)

Definition lease_id (e : Entry) : option text := match state e with Outstanding id _ => Some id | _ => None end.

Definition distinct_leases (es : list Entry) : Prop := NoDup (omap lease_id es).

Lemma lease_id_Some e id : lease_id e = Some id <-> exists d, state e = Outstanding id d.
Proof.
  unfold lease_id. split; [destruct (state e) as [|i d| |] eqn:H; intros [= <-]; by exists d|]. by intros [d ->].
Qed.

Lemma distinct_leases_at es : distinct_leases es <->
  (forall j k e e' id d d', es !! j = Some e -> es !! k = Some e' -> state e = Outstanding id d -> state e' = Outstanding id d' -> j = k).
Proof.
  unfold distinct_leases. induction es as [|e es IH]; cbn [omap list_omap]; [split; [intros _ j k x y|constructor]; done|]. split.
  - intros Hnd [|j] [|k] x y id d d' Hj Hk Hx Hy; [done| | |].
    + injection Hj as <-. assert (He : lease_id e = Some id) by (apply lease_id_Some; by exists d). rewrite He in Hnd.
      apply NoDup_cons in Hnd as [Hni _]. destruct Hni. apply list_elem_of_omap. exists y.
      split; [by eapply list_elem_of_lookup_2|]. apply lease_id_Some. by exists d'.
    + injection Hk as <-. assert (He : lease_id e = Some id) by (apply lease_id_Some; by exists d'). rewrite He in Hnd.
      apply NoDup_cons in Hnd as [Hni _]. destruct Hni. apply list_elem_of_omap. exists x.
      split; [by eapply list_elem_of_lookup_2|]. apply lease_id_Some. by exists d.
    + f_equal. eapply (proj1 IH); [|exact Hj|exact Hk|exact Hx|exact Hy].
      destruct (lease_id e); [by apply NoDup_cons in Hnd as [_ ?]|done].
  - intros H. assert (Hes : NoDup (omap lease_id es)).
    { apply IH. intros j k x y id d d' Hj Hk Hx Hy. assert (S j = S k) by (by eapply H). lia. }
    destruct (lease_id e) as [id|] eqn:He; [|done]. constructor; [|done]. intros (x & Hin & Hx)%list_elem_of_omap.
    apply list_elem_of_lookup_1 in Hin as [k Hk]. apply lease_id_Some in He as [d Hd]. apply lease_id_Some in Hx as [d' Hd'].
    assert (0%nat = S k) by (by eapply (H 0%nat (S k))). done.
Qed.

Lemma outstanding_distinct es o : outstanding_ok es o -> distinct_leases es.
Proof.
  intros Ho. apply distinct_leases_at. intros j k e e' id d d' Hj Hk Hx Hy.
  assert (o !! id = Some j) by (apply Ho; by exists e, d). assert (o !! id = Some k) by (apply Ho; by exists e', d'). congruence.
Qed.

Lemma index_outstanding_ok es : distinct_leases es -> outstanding_ok es (index_outstanding es 0 ∅).
Proof.
  intros Hd id j. rewrite index_outstanding_spec by (by apply distinct_leases_at). split.
  - intros [(k & e & d & He & Hs & ->)|[_ H]]; [by exists e, d|done].
  - intros (e & d & He & Hs). left. by exists j, e, d.
Qed.

Lemma total_bytes_filter es : total_bytes (filter unacked es) <= total_bytes es.
Proof.
  induction es as [|e es IH]; [done|]. rewrite filter_cons. pose proof (message_bytes_bounds (value (stored e))).
  assert (0 <= entry_bytes e) by (unfold entry_bytes; int_lia).
  change (total_bytes (e :: es)) with (entry_bytes e + total_bytes es). case_decide; [|lia].
  change (total_bytes (e :: filter unacked es)) with (entry_bytes e + total_bytes (filter unacked es)). lia.
Qed.

Lemma max_bytes_fits b : 0 <= b <= MAX_RETAINED_BYTES_PER_SUB -> fits usize b.
Proof. unfold MAX_RETAINED_BYTES_PER_SUB. int_lia. Qed.

Lemma sum_bytes_total es : total_bytes es <= MAX_RETAINED_BYTES_PER_SUB -> sum_bytes es = total_bytes es.
Proof.
  intros H. unfold sum_bytes. apply wrapping_id, max_bytes_fits. split; [apply total_bytes_nonneg|done].
Qed.

Lemma wf_rebuild s : distinct_leases (entries s) -> total_bytes (entries s) <= MAX_RETAINED_BYTES_PER_SUB ->
  Z.of_nat (length (entries s)) <= MAX_RETAINED_PER_SUB -> Forall (fun e => fits u32 (delivery_attempt e)) (entries s) ->
  sub_wf (rebuild_indexes s).
Proof.
  intros Hd Hb Hn Ha. split; [split|]; cbn; try done.
  - by apply index_outstanding_ok.
  - by apply sum_bytes_total.
  - fold (sum_bytes (entries s)). by rewrite sum_bytes_total.
Qed.

Lemma lease_ids_filter es : sublist (omap lease_id (filter unacked es)) (omap lease_id es).
Proof.
  induction es as [|e es IH]; [constructor|]. rewrite filter_cons. case_decide; cbn; destruct (lease_id e); try done;
    by constructor.
Qed.

Lemma wf_reclaim s : sub_lax s -> sub_wf (reclaim_acked_entries s).
Proof.
  intros [_ Ho Hb Hm Hn Ha]. apply wf_rebuild; cbn.
  - unfold distinct_leases. eapply sublist_NoDup; [by eapply outstanding_distinct|]. apply lease_ids_filter.
  - etrans; [apply total_bytes_filter|]. by rewrite <- Hb.
  - pose proof (length_filter unacked (entries s)). lia.
  - apply Forall_forall. intros e [_ He]%list_elem_of_filter. by apply (proj1 (Forall_forall _ _) Ha).
Qed.

Lemma exceeds_bytes_false s b : exceeds_bytes s b = false -> fits usize (retained_bytes s + b) /\ retained_bytes s + b <= MAX_RETAINED_BYTES_PER_SUB.
Proof.
  unfold exceeds_bytes. destruct (checked usize _) as [t|] eqn:Hc; [|done]. apply checked_Some in Hc as [-> Hf].
  intros H%Z.ltb_ge. done.
Qed.

Lemma wf_push m now s : sub_wf s -> exceeds_entries s = false -> exceeds_bytes s (message_bytes (value m)) = false ->
  sub_wf (push_entry m now s).
Proof.
  intros [[_ Ho Hb Hm Hn Ha] Hf] He [Hfit Hle]%exceeds_bytes_false. apply Z.leb_gt in He.
  assert (Hl : leading_acked (entries s ++ [{| stored := m; state := Available now; delivery_attempt := 0 |}]) = leading_acked (entries s)).
  { rewrite leading_app. cbn. destruct (forallb _ _) eqn:Hall; [|done].
    enough (length (entries s) <= leading_acked (entries s))%nat by (pose proof (leading_le (entries s)); lia).
    apply leading_acked_at; [|lia]. intros j e Hj _. apply list_elem_of_lookup_2 in Hj.
    apply list_elem_of_In in Hj. by eapply forallb_forall in Hall. }
  split; [split|]; cbn.
  - by rewrite Hl, Hf.
  - apply outstanding_app; [done|]. by intros e ->%list_elem_of_singleton.
  - rewrite wrapping_id, total_bytes_app, Hb by done. unfold total_bytes, entry_bytes. cbn. lia.
  - by rewrite wrapping_id.
  - rewrite length_app. cbn. lia.
  - apply Forall_app. split; [done|]. constructor; [|done]. cbn. int_lia.
  - by rewrite Hl.
Qed.

Lemma wf_enqueue s m now : sub_wf s -> sub_wf (enqueue s m now).2.
Proof.
  intros Hs. unfold enqueue. set (s1 := if _ && _ then _ else _).
  assert (H1 : sub_wf s1) by (subst s1; destruct (_ && _); [apply wf_reclaim, Hs|done]).
  destruct (exceeds_entries s1) eqn:He; [done|]. destruct (exceeds_bytes s1 _) eqn:Hb; [done|]. cbn. by apply wf_push.
Qed.

(** ** Changing entries in place *)

(** An entry replaced by one of the same message, with the leases that go with it. *)
Definition put (i : nat) (e' : Entry) (o : gmap text nat) (s : SubscriptionState) : SubscriptionState :=
  set_outstanding o (set_entries (<[i := e']> (entries s)) s).

Lemma lax_put s i e e' o :
  sub_lax s -> entries s !! i = Some e -> stored e' = stored e -> is_acked (state e) = false -> fits u32 (delivery_attempt e') ->
  outstanding_ok (<[i := e']> (entries s)) o -> sub_lax (put i e' o s).
Proof.
  intros [Hf Ho Hb Hm Hn Ha] Hi Hs Hu Hatt Ho'. split; cbn; try done.
  - destruct (is_acked (state e')) eqn:He'; [|rewrite leading_insert with (e := e); [done|done|congruence]].
    apply leading_acked_at; [|rewrite length_insert; pose proof (leading_le (entries s)); lia].
    intros j x Hj Hlt. destruct (decide (i = j)) as [->|Hij].
    + rewrite list_lookup_insert_eq in Hj by (by eapply lookup_lt_Some). congruence.
    + rewrite list_lookup_insert_ne in Hj by done. eapply leading_spec; [done|lia].
  - by erewrite total_bytes_insert.
  - by rewrite length_insert.
  - by apply Forall_insert.
Qed.

Lemma wf_put s i e e' o :
  sub_wf s -> entries s !! i = Some e -> stored e' = stored e -> is_acked (state e) = false -> is_acked (state e') = false ->
  fits u32 (delivery_attempt e') -> outstanding_ok (<[i := e']> (entries s)) o -> sub_wf (put i e' o s).
Proof.
  intros [Hl Hf] Hi Hs Hu Hu' Ha Ho. split; [by eapply lax_put|]. cbn. rewrite Hf. symmetry. eapply leading_insert; [done|congruence].
Qed.

Lemma wf_map (f : Entry -> Entry) s :
  sub_wf s -> (forall e, stored (f e) = stored e /\ delivery_attempt (f e) = delivery_attempt e /\ is_acked (state (f e)) = is_acked (state e) /\
    forall id, (exists d, state (f e) = Outstanding id d) <-> exists d, state e = Outstanding id d) ->
  sub_wf (set_entries (map f (entries s)) s).
Proof.
  intros [[Hf Ho Hb Hm Hn Ha] Hfe] H. assert (Hl : leading_acked (map f (entries s)) = leading_acked (entries s)) by (apply leading_map; naive_solver).
  split; [split|]; cbn; rewrite ?Hl, ?length_map, ?total_bytes_map by naive_solver; try done.
  - apply outstanding_map; [done|]. naive_solver.
  - apply Forall_map. eapply Forall_impl; [exact Ha|]. intros e He. cbn. by rewrite (proj1 (proj2 (H e))).
Qed.

Lemma wf_advance s : sub_lax s -> sub_wf (advance_first_unacked s).
Proof.
  intros [Hf Ho Hb Hm Hn Ha]. pose proof (leading_drop _ _ Hf). split; [split|]; cbn; try done. lia.
Qed.

(** The entry of a lease. *)
Lemma lease_entry s id i : sub_lax s -> outstanding s !! id = Some i ->
  exists e d, entries s !! i = Some e /\ state e = Outstanding id d.
Proof. intros [_ Ho _ _ _ _] H. by apply Ho in H. Qed.

Lemma attempt_at s i e : sub_lax s -> entries s !! i = Some e -> fits u32 (delivery_attempt e).
Proof. intros [_ _ _ _ _ Ha] H. by eapply Forall_lookup in Ha. Qed.

(** [release s id] of a lease with a new state for its entry. *)
Lemma lax_release s id i e e' d : sub_lax s -> outstanding s !! id = Some i -> entries s !! i = Some e -> state e = Outstanding id d ->
  stored e' = stored e -> delivery_attempt e' = delivery_attempt e -> (forall id d, state e' <> Outstanding id d) ->
  sub_lax (put i e' (delete id (outstanding s)) s).
Proof.
  intros Hs Hid Hi Hd Hst Hat He'. eapply lax_put; try done; [by rewrite Hd|rewrite Hat; by eapply attempt_at|].
  eapply outstanding_release; try done. apply Hs.
Qed.

Lemma wf_release s id i e e' d : sub_wf s -> outstanding s !! id = Some i -> entries s !! i = Some e -> state e = Outstanding id d ->
  stored e' = stored e -> delivery_attempt e' = delivery_attempt e -> (forall id d, state e' <> Outstanding id d) ->
  is_acked (state e') = false -> sub_wf (put i e' (delete id (outstanding s)) s).
Proof.
  intros Hs Hid Hi Hd Hst Hat He' Hu. eapply wf_put; try done; [by rewrite Hd|rewrite Hat; eapply (attempt_at s i e); [apply Hs|done]|].
  eapply outstanding_release; try done. apply Hs.
Qed.

(** ** Every operation returns, and keeps the invariant *)

Lemma each_total {A S} (P : S -> Prop) (f : S -> A -> option S) :
  (forall s x, P s -> exists s', f s x = Some s' /\ P s') -> forall l s, P s -> exists s', each f l s = Some s' /\ P s'.
Proof.
  intros Hf l. induction l as [|x l IH]; intros s Hs; [by exists s|]. destruct (Hf s x Hs) as (s' & Hfs & Hs'). cbn. rewrite Hfs. cbn.
  by apply IH.
Qed.

Lemma expired_ids_total es leases now :
  Forall (fun p => is_Some (es !! p.2)) leases -> is_Some (expired_ids es leases now).
Proof.
  induction leases as [|[id i] leases IH]; intros H; [by eexists|]. apply Forall_cons in H as [[e He] H].
  destruct (IH H) as [r Hr]. cbn in He |- *. rewrite He. cbn. rewrite Hr. cbn. by eexists.
Qed.

Lemma leases_in_log s : sub_lax s -> Forall (fun p => is_Some (entries s !! p.2)) (btree_map_iter (outstanding s)).
Proof.
  intros Hs. apply Forall_forall. intros [id i] Hin%elem_of_btree_map_iter.
  destruct (lease_entry s id i Hs Hin) as (e & d & He & _). by exists e.
Qed.

Lemma expire_one_wf now s id : sub_wf s -> exists s', expire_one now s id = Some s' /\ sub_wf s'.
Proof.
  intros Hs. unfold expire_one. destruct (outstanding s !! id) as [i|] eqn:Hid; [|by exists s].
  destruct (lease_entry s id i (wf_lax _ Hs) Hid) as (e & d & He & Hd). rewrite He. cbn. eexists. split; [done|].
  by eapply (wf_release s id i e (redeliver e (back_at s e now)) d).
Qed.

Lemma expire_wf s now : sub_wf s -> exists s', expire_deadlines s now = Some s' /\ sub_wf s'.
Proof.
  intros Hs. unfold expire_deadlines. destruct (expired_ids_total (entries s) (btree_map_iter (outstanding s)) now) as [l Hl].
  { apply leases_in_log, Hs. }
  rewrite Hl. cbn. apply each_total; [|done]. intros s' id. apply expire_one_wf.
Qed.

Lemma unacked_slice_wf s : sub_wf s -> unacked_slice s = Some (drop (first_unacked s) (entries s)).
Proof.
  intros [[Hf _ _ _ _ _] _]. unfold unacked_slice. pose proof (leading_le (entries s)). destruct (Nat.leb_spec (first_unacked s) (length (entries s))); [done|lia].
Qed.

Lemma modify_wf s id seconds now : sub_wf s -> exists s', modify_ack_deadline s id seconds now = Some s' /\ sub_wf s'.
Proof.
  intros Hs. unfold modify_ack_deadline. destruct (outstanding s !! id) as [i|] eqn:Hid; [|by exists s].
  destruct (lease_entry s id i (wf_lax _ Hs) Hid) as (e & d & He & Hd). rewrite He. cbn. destruct (seconds =? 0).
  - eexists. split; [done|]. by eapply (wf_release s id i e (redeliver e (back_at s e now)) d).
  - rewrite Hd. eexists. split; [done|]. set (dl := default _ _).
    eapply (wf_put s i e (with_state (Outstanding id dl) e) (outstanding s)); try done; [by rewrite Hd|..].
    + eapply (attempt_at s i e); [apply Hs|done].
    + eapply outstanding_same; [apply Hs|done|]. intros id'. cbn. rewrite Hd. split; intros [x [= <- _]]; eauto.
Qed.

Lemma acknowledge_loop_wf ids : forall acked s, sub_lax s ->
  exists n s', acknowledge_loop ids acked s = Some (n, s') /\ sub_lax s'.
Proof.
  induction ids as [|id ids IH]; intros acked s Hs; [by exists acked, s|]. cbn. unfold acknowledge_one.
  destruct (outstanding s !! id) as [i|] eqn:Hid; [|by apply IH].
  destruct (lease_entry s id i Hs Hid) as (e & d & He & Hd). rewrite He. cbn. apply IH.
  by eapply (lax_release s id i e (with_state Acked e) d).
Qed.

Lemma acknowledge_wf s ids : sub_wf s -> exists n s', acknowledge s ids = Some (n, s') /\ sub_wf s'.
Proof.
  intros [Hs _]. destruct (acknowledge_loop_wf ids 0 s Hs) as (n & s' & Hl & Hs'). unfold acknowledge. rewrite Hl. cbn.
  eexists _, _. split; [done|]. by apply wf_advance.
Qed.

Lemma complete_forward_wf s id : sub_wf s -> sub_wf (complete_forward s id).2.
Proof.
  intros Hs. unfold complete_forward. destruct (list_find _ _) as [[i e]|] eqn:Hf; [|done]. cbn.
  apply list_find_Some in Hf as (Hi & [_ Hp] & _). destruct (state e) eqn:He; try done.
  apply wf_advance. eapply (lax_put s i e (with_state Acked e) (outstanding s)); try done; [apply Hs|by rewrite He|eapply (attempt_at s i e); [apply Hs|done]|].
  eapply outstanding_same; [apply Hs|done|]. intros id'. cbn. rewrite He. split; intros [x ?]; congruence.
Qed.

Lemma resume_forward_wf s m now : sub_wf s -> sub_wf (resume_forward s m now).
Proof.
  intros Hs. apply wf_map; [done|]. intros e. destruct (state e) eqn:He; cbn; try (split_and!; done || (by rewrite He)).
  destruct (ptr_eq _ _); cbn; rewrite ?He; split_and!; try done; intros id; split; intros [x ?]; congruence.
Qed.

Lemma release_forwards_wf s now : sub_wf s -> sub_wf (release_forwards now s).
Proof.
  intros Hs. apply wf_map; [done|]. intros e. destruct (state e) eqn:He; cbn; try (split_and!; done || (by rewrite He)).
  split_and!; try done. intros id; split; intros [x ?]; congruence.
Qed.

Lemma no_leases es : (forall e, e ∈ es -> lease_id e = None) -> distinct_leases es.
Proof.
  unfold distinct_leases. induction es as [|e es IH]; intros H; [constructor|]. cbn. rewrite H by by left. apply IH.
  intros x Hx. apply H. by right.
Qed.

Lemma seek_to_time_wf s t now : sub_wf s -> sub_wf (seek_to_time s t now).2.
Proof.
  intros Hs. unfold seek_to_time. destruct (enable_message_ordering _); [done|]. cbn. destruct Hs as [[_ _ Hb Hm Hn Ha] _].
  apply wf_rebuild; cbn.
  - apply no_leases. intros e. change (map ?f ?l) with (f <$> l). rewrite list_elem_of_fmap. intros (x & -> & _). by destruct (_ <? t).
  - rewrite total_bytes_map; [by rewrite <- Hb|]. intros e. by destruct (_ <? t).
  - by rewrite length_map.
  - apply Forall_map. eapply Forall_impl; [exact Ha|]. intros e He. cbn. destruct (_ <? t); cbn; [done|int_lia].
Qed.

(** ** What a pull selects *)

(** The entry at [j] of a log whose tail from [i] is [es]. *)
Definition entry_at (es : list Entry) (i j : nat) (e : Entry) : Prop := (i <= j)%nat /\ es !! (j - i)%nat = Some e.

Lemma entry_at_cons x es i j e : entry_at es (S i) j e -> entry_at (x :: es) i j e.
Proof. intros [Hle He]. split; [lia|]. by replace (j - i)%nat with (S (j - S i)) by lia. Qed.

Lemma entry_at_head e es i : entry_at (e :: es) i i e.
Proof. split; [lia|]. by rewrite Nat.sub_diag. Qed.

Lemma entry_at_inv x es i j e : entry_at (x :: es) i j e -> (j = i /\ e = x) \/ entry_at es (S i) j e.
Proof.
  intros [Hle He]. destruct (decide (j = i)) as [->|Hne]; [left; rewrite Nat.sub_diag in He; by injection He|].
  right. split; [lia|]. by replace (j - i)%nat with (S (j - S i)) in He by lia.
Qed.

Lemma entry_at_drop es i j e : entry_at (drop i es) i j e -> es !! j = Some e.
Proof. intros [Hle He]. rewrite lookup_drop in He. by replace (i + (j - i))%nat with j in He by lia. Qed.

Lemma drop_entry_at es i j e : (i <= j)%nat -> es !! j = Some e -> entry_at (drop i es) i j e.
Proof. intros Hle He. split; [done|]. rewrite lookup_drop. by replace (i + (j - i))%nat with j by lia. Qed.

(** The state of an entry a pull may choose. *)
Definition choosable (p : PullPlan) (fwd : bool) (e : Entry) : Prop :=
  is_acked (state e) = false /\ unkeyed_only p && negb (bool_decide (entry_key e = [])) = false /\
  is_available e (plan_now p) = true /\ exhausted (plan_max_attempts p) e = fwd.

Definition chosen_from (p : PullPlan) (es : list Entry) (i : nat) (fwd : bool) (l : list nat) : Prop :=
  StronglySorted lt l /\ Forall (fun j => exists e, entry_at es i j e /\ choosable p fwd e) l.

Lemma chosen_from_skip p x es i fwd l : chosen_from p es (S i) fwd l -> chosen_from p (x :: es) i fwd l.
Proof.
  intros [Hs Hf]. split; [done|]. eapply Forall_impl; [exact Hf|]. intros j (e & He & Hc). exists e. split; [by apply entry_at_cons|done].
Qed.

Lemma chosen_from_take p e es i fwd l : choosable p fwd e -> chosen_from p es (S i) fwd l -> chosen_from p (e :: es) i fwd (i :: l).
Proof.
  intros Hc [Hs Hf]. split; [constructor; [done|]|constructor; [exists e; split; [apply entry_at_head|done]|by apply chosen_from_skip]].
  eapply Forall_impl; [exact Hf|]. intros j (x & [Hle _] & _). lia.
Qed.

Lemma chosen_from_nil p es i fwd : chosen_from p es i fwd [].
Proof. split; constructor. Qed.

Lemma select_spec p es : forall i blocked emitted ch sel fwd,
  select p es i blocked emitted ch = (sel, fwd) -> chosen_from p es i false sel /\ chosen_from p es i true fwd.
Proof.
  induction es as [|e es IH]; intros i b em ch sel fwd; cbn [select]; [intros [= <- <-]; split; apply chosen_from_nil|].
  destruct (_ <=? _)%nat; [intros [= <- <-]; split; apply chosen_from_nil|].
  assert (Hskip : forall b em, select p es (S i) b em ch = (sel, fwd) -> chosen_from p (e :: es) i false sel /\ chosen_from p (e :: es) i true fwd).
  { intros b' em' H. destruct (IH _ _ _ _ _ _ H). split; by apply chosen_from_skip. }
  destruct (is_acked (state e)) eqn:Ha; [apply Hskip|]. destruct (unkeyed_only p && _) eqn:Hun; [apply Hskip|].
  destruct (holds_key _ e && _); [apply Hskip|]. destruct (is_available e (plan_now p)) eqn:Hav; cbn [negb]; [|apply Hskip].
  destruct (exhausted _ e) eqn:Hx.
  - destruct (holds_key _ e && _); [apply Hskip|]. destruct (select p es _ _ _ _) as [s f] eqn:Hsel. intros [= <- <-].
    destruct (IH _ _ _ _ _ _ Hsel). split; [by apply chosen_from_skip|by apply chosen_from_take].
  - destruct (select p es _ _ _ _) as [s f] eqn:Hsel. intros [= <- <-].
    destruct (IH _ _ _ _ _ _ Hsel). split; [by apply chosen_from_take|by apply chosen_from_skip].
Qed.

Lemma select_length p es : forall i blocked emitted ch sel fwd,
  select p es i blocked emitted ch = (sel, fwd) -> (length sel <= plan_max p - ch)%nat.
Proof.
  induction es as [|e es IH]; intros i b em ch sel fwd; cbn [select]; [intros [= <- <-]; cbn; lia|].
  destruct (Nat.leb_spec (plan_max p) ch); [intros [= <- <-]; cbn; lia|].
  destruct (is_acked (state e)); [apply IH|]. destruct (unkeyed_only p && _); [apply IH|].
  destruct (holds_key _ e && _); [apply IH|]. destruct (negb _); [apply IH|]. destruct (exhausted _ e).
  - destruct (holds_key _ e && _); [apply IH|]. destruct (select p es _ _ _ _) as [s f] eqn:Hsel. intros [= <- <-]. by eapply IH.
  - destruct (select p es _ _ _ _) as [s f] eqn:Hsel. intros [= <- <-]. apply IH in Hsel. cbn. lia.
Qed.

Lemma chosen_in_log p es f fwd l : chosen_from p (drop f es) f fwd l ->
  NoDup l /\ forall j, j ∈ l -> exists e, es !! j = Some e /\ choosable p fwd e.
Proof.
  intros [Hs Hf]. split.
  - induction Hs as [|j l Hs IH Hj]; [constructor|]. constructor; [|apply IH; by inversion Hf].
    intros Hin. eapply Forall_forall in Hin; [|exact Hj]. lia.
  - intros j Hj. eapply Forall_forall in Hj; [|exact Hf]. destruct Hj as (e & He & Hc). exists e. split; [by eapply entry_at_drop|done].
Qed.

(** ** What a pull does to the log *)

Definition idle_entry (e : Entry) : Prop := is_acked (state e) = false /\ lease_id e = None.

Lemma forward_put_wf s j e : sub_wf s -> entries s !! j = Some e -> idle_entry e ->
  sub_wf (put j (with_state ForwardPending e) (outstanding s) s).
Proof.
  intros Hs Hj [Ha Hl]. eapply (wf_put s j e); try done; [eapply (attempt_at s j e); [apply Hs|done]|].
  eapply outstanding_same; [apply Hs|done|]. intros id. rewrite <- !lease_id_Some, Hl. cbn. split; intros H; done.
Qed.

Lemma each_forward fwd : forall s, sub_wf s -> NoDup fwd -> (forall j, j ∈ fwd -> exists e, entries s !! j = Some e /\ idle_entry e) ->
  exists s', each forward_one fwd s = Some s' /\ sub_wf s' /\ s' = set_entries (entries s') s /\
    (forall j, entries s' !! j = if decide (j ∈ fwd) then with_state ForwardPending <$> entries s !! j else entries s !! j).
Proof.
  induction fwd as [|i fwd IH]; intros s Hs Hnd Hin.
  - exists s. split; [done|]. split; [done|]. split; [by destruct s|]. intros j. by rewrite decide_False by apply not_elem_of_nil.
  - apply NoDup_cons in Hnd as [Hni Hnd]. destruct (Hin i) as (e & He & Hidle); [by left|]. cbn. unfold forward_one. rewrite He. cbn.
    set (s1 := set_entries _ s). destruct (IH s1) as (s' & Hs' & Hwf & Heq & Hl); [by apply (forward_put_wf s i e)|done|..].
    { intros j Hj. cbn. rewrite list_lookup_insert_ne by congruence. apply Hin. by right. }
    exists s'. split; [done|]. split; [done|]. split; [rewrite Heq; by destruct s|]. intros j. rewrite Hl. cbn.
    destruct (decide (i = j)) as [->|Hij].
    + rewrite list_lookup_insert_eq by (by eapply lookup_lt_Some). rewrite decide_False by done.
      rewrite decide_True by by left. by rewrite He.
    + rewrite list_lookup_insert_ne by done. destruct (decide (j ∈ fwd)); [by rewrite decide_True by by right|].
      rewrite decide_False; [done|]. rewrite elem_of_cons. intros [->|?]; done.
Qed.

Definition leased (deadline : LogicalInstant) (ack_id : text) (e : Entry) : Entry :=
  {| stored := stored e; state := Outstanding ack_id deadline; delivery_attempt := wrapping u32 (delivery_attempt e + 1) |}.

Definition receipt (ack_id : text) (e : Entry) : ReceivedMessage :=
  {| received_ack_id := ack_id; received_message := stored e; received_attempt := wrapping u32 (delivery_attempt e + 1) |}.

(** An identifier source whose next [k] draws repeat neither each other nor an outstanding lease. *)
Definition fresh_ids (k : nat) (next_ack_id : nat -> text) (s : SubscriptionState) : Prop :=
  (forall a b, (a < k)%nat -> (b < k)%nat -> next_ack_id a = next_ack_id b -> a = b) /\
  forall n, (n < k)%nat -> outstanding s !! next_ack_id n = None.

Lemma fresh_ids_le (k k' : nat) next_ack_id s : (k' <= k)%nat -> fresh_ids k next_ack_id s -> fresh_ids k' next_ack_id s.
Proof. intros Hk [Hinj Hfresh]. split; [intros a b Ha Hb; apply Hinj; lia|intros n Hn; apply Hfresh; lia]. Qed.

Lemma wrapping_u32_fits z : fits u32 (wrapping u32 z).
Proof. unfold wrapping, fits, u32. cbn [int_min int_max]. pose proof (Z.mod_pos_bound (z - 0) (2 ^ 32 - 1 - 0 + 1)). lia. Qed.

Lemma lease_put_wf s j e deadline id : sub_wf s -> entries s !! j = Some e -> idle_entry e ->
  outstanding s !! id = None -> sub_wf (put j (leased deadline id e) (<[id := j]> (outstanding s)) s).
Proof.
  intros Hs Hj [Ha Hl] Hid. eapply (wf_put s j e); try done; [apply wrapping_u32_fits|].
  eapply outstanding_lease; try done; [apply Hs|]. intros id' d' Hd. assert (lease_id e = Some id') by (apply lease_id_Some; by exists d').
  congruence.
Qed.

Lemma lease_all_spec deadline next_ack_id sel : forall drawn s,
  (forall a b, (a < drawn + length sel)%nat -> (b < drawn + length sel)%nat -> next_ack_id a = next_ack_id b -> a = b) ->
  sub_wf s -> NoDup sel ->
  (forall j, j ∈ sel -> exists e, entries s !! j = Some e /\ idle_entry e) ->
  (forall n, (drawn <= n < drawn + length sel)%nat -> outstanding s !! next_ack_id n = None) ->
  exists rs s', lease_all deadline next_ack_id drawn sel s = Some (rs, s') /\ sub_wf s' /\ config s' = config s /\
    push_minimum_redelivery_interval s' = push_minimum_redelivery_interval s /\
    (forall n r, rs !! n = Some r <->
       exists j e, sel !! n = Some j /\ entries s !! j = Some e /\ r = receipt (next_ack_id (drawn + n)%nat) e) /\
    (forall n j, sel !! n = Some j -> exists e, entries s !! j = Some e /\
       entries s' !! j = Some (leased deadline (next_ack_id (drawn + n)%nat) e)) /\
    (forall j, j ∉ sel -> entries s' !! j = entries s !! j).
Proof.
  induction sel as [|i sel IH]; intros drawn s Hinj Hs Hnd Hin Hfresh.
  { exists [], s. split_and!; try done. intros n r. split; [done|]. by intros (j & e & H & _). }
  apply NoDup_cons in Hnd as [Hni Hnd]. destruct (Hin i) as (e & He & Hidle); [by left|].
  cbn. unfold lease_one. rewrite He. cbn. fold (leased deadline (next_ack_id drawn) e) (receipt (next_ack_id drawn) e).
  set (s1 := set_outstanding _ _).
  assert (Hs1 : sub_wf s1) by (apply (lease_put_wf s i e); [done..|]; apply Hfresh; cbn; lia).
  assert (Hsame : forall j, j <> i -> entries s1 !! j = entries s !! j) by (intros j Hj; cbn; by rewrite list_lookup_insert_ne).
  cbn [length] in Hinj, Hfresh.
  destruct (IH (S drawn) s1)  as (rs & s' & Hall & Hs' & Hc & Hp & Hrs & Hsel & Hrest); [intros a b Ha Hb; apply Hinj; lia|done|done|..].
  { intros j Hj. rewrite Hsame by congruence. apply Hin. by right. }
  { intros n Hn. cbn. rewrite lookup_insert_ne; [apply Hfresh; lia|]. intros Heq%Hinj; lia. }
  rewrite Hall. cbn. eexists _, s'. split; [done|]. split; [done|]. split; [done|]. split; [done|]. split; [|split].
  - intros [|n] r; cbn.
    + rewrite Nat.add_0_r. split; [intros [= <-]; by exists i, e|]. intros (j & x & [= <-] & Hx & ->). congruence.
    + rewrite Hrs. replace (S drawn + n)%nat with (drawn + S n)%nat by lia.
      split; intros (j & x & Hj & Hx & ->); exists j, x; split_and!; try done; [rewrite <- Hsame; [done|]|rewrite Hsame; [done|]];
        intros ->; apply Hni; by eapply list_elem_of_lookup_2.
  - intros [|n] j; cbn.
    + intros [= <-]. exists e. split; [done|]. rewrite Hrest by done. cbn. rewrite Nat.add_0_r.
      by rewrite list_lookup_insert_eq by (by eapply lookup_lt_Some).
    + intros Hj. destruct (Hsel n j Hj) as (x & Hx & Hx'). exists x. replace (drawn + S n)%nat with (S drawn + n)%nat by lia.
      split; [|done]. rewrite <- Hsame; [done|]. intros ->. apply Hni. by eapply list_elem_of_lookup_2.
  - intros j [Hji Hj]%not_elem_of_cons. rewrite Hrest by done. by apply Hsame.
Qed.

Lemma choosable_idle p fwd e : choosable p fwd e -> idle_entry e.
Proof. intros (Ha & _ & Hav & _). split; [done|]. unfold is_available in Hav. unfold lease_id. by destruct (state e). Qed.

Lemma stored_at_spec s l : (forall j, j ∈ l -> exists e, entries s !! j = Some e) ->
  exists ms, stored_at s l = Some ms /\ forall m, m ∈ ms <-> exists j e, j ∈ l /\ entries s !! j = Some e /\ m = stored e.
Proof.
  intros Hin. unfold stored_at. destruct (mapM_is_Some_2 (fun i => stored <$> entries s !! i) l) as [ms Hms].
  { apply Forall_forall. intros j Hj. destruct (Hin j Hj) as [e He]. exists (stored e). cbn. by rewrite He. }
  exists ms. split; [done|]. apply mapM_Some_1 in Hms. intros m. split.
  - intros [n Hn]%list_elem_of_lookup_1. destruct (Forall2_lookup_r _ _ _ _ _ Hms Hn) as (j & Hj & Hm).
    apply fmap_Some in Hm as (e & He & ->). exists j, e. split; [by eapply list_elem_of_lookup_2|done].
  - intros (j & e & [n Hn]%list_elem_of_lookup_1 & He & ->). destruct (Forall2_lookup_l _ _ _ _ _ Hms Hn) as (m & Hm & Hj).
    rewrite He in Hj. injection Hj as <-. by eapply list_elem_of_lookup_2.
Qed.

Definition nothing : PullOutcome := {| received := []; dead_lettered := [] |}.

(** The state a pull works on. *)
Definition pull_start (authorized : bool) (now : LogicalInstant) (s : SubscriptionState) : SubscriptionState :=
  if authorized then s else release_forwards now s.

Definition pull_deadline (now : LogicalInstant) (s : SubscriptionState) : LogicalInstant :=
  default inst_MAX (inst_checked_add now (ack_deadline (config s))).

(** The outcome [out] and the state [s'] of a pull that delivers [sel] and forwards [fwd] of [s]. *)
Record delivered (s : SubscriptionState) (deadline : LogicalInstant) (next_ack_id : nat -> text) (sel fwd : list nat)
    (out : PullOutcome) (s' : SubscriptionState) : Prop := {
  delivered_config : config s' = config s;
  delivered_interval : push_minimum_redelivery_interval s' = push_minimum_redelivery_interval s;
  delivered_received : forall n r, received out !! n = Some r <->
    exists j e, sel !! n = Some j /\ entries s !! j = Some e /\ r = receipt (next_ack_id n) e;
  delivered_leased : forall n j, sel !! n = Some j ->
    exists e, entries s !! j = Some e /\ entries s' !! j = Some (leased deadline (next_ack_id n) e);
  delivered_forwarded : forall j, j ∈ fwd -> exists e, entries s !! j = Some e /\ entries s' !! j = Some (with_state ForwardPending e);
  delivered_others : forall j, j ∉ sel -> j ∉ fwd -> entries s' !! j = entries s !! j;
  delivered_dead : forall m, m ∈ dead_lettered out <-> exists j e, j ∈ fwd /\ entries s !! j = Some e /\ m = stored e;
}.

Lemma pull_start_wf authorized now s : sub_wf s -> sub_wf (pull_start authorized now s).
Proof. destruct authorized; [done|]. apply release_forwards_wf. Qed.

Lemma plan_pull_wf s max now authorized batching : sub_wf s -> exists plan, plan_pull s max now authorized batching = Some plan /\
  plan_config plan = config s /\ plan_max plan = max /\ plan_now plan = now /\
  plan_max_attempts plan = (if authorized then max_delivery_attempts <$> dead_letter_policy (config s) else None) /\
  (unkeyed_only plan = true -> enable_message_ordering (config s) = true /\ batching = SeparateUnkeyed).
Proof.
  intros Hs. unfold plan_pull. rewrite (unacked_slice_wf s Hs). cbn. destruct (enable_message_ordering (config s)), batching; cbn;
    eexists; split_and!; try done.
Qed.

Lemma chosen_length p es f fwd l : chosen_from p (drop f es) f fwd l -> (length l <= length es)%nat.
Proof.
  intros [Hnd Hin]%chosen_in_log. rewrite <- (length_seq (length es) 0). apply NoDup_incl_length; [by apply NoDup_ListNoDup|].
  intros j Hj%list_elem_of_In. destruct (Hin j Hj) as (e & He%lookup_lt_Some & _). apply in_seq. lia.
Qed.

Lemma pull_start_length authorized now s : length (entries (pull_start authorized now s)) = length (entries s).
Proof. destruct authorized; [done|]. apply length_map. Qed.

(** A pull, once an admission check lets it through: it draws no more identifiers than it may deliver. *)
Lemma pull_draws_spec s max now authorized batching next_ack_id admission :
  sub_wf s -> fresh_ids (Nat.min max (length (entries s))) next_ack_id s -> exists out s',
  pull_with_admission s max now authorized batching next_ack_id admission = Some (out, s') /\ sub_wf s' /\
  let s0 := pull_start authorized now s in
  ((out = nothing /\ s' = s0 /\
    (max = 0%nat \/ exists plan sel fwd messages, plan_pull s0 max now authorized batching = Some plan /\
       select plan (drop (first_unacked s0) (entries s0)) (first_unacked s0) ∅ ∅ 0 = (sel, fwd) /\
       stored_at s0 sel = Some messages /\ sel <> [] /\ admission (map value messages) = false)) \/
   exists plan sel fwd, plan_pull s0 max now authorized batching = Some plan /\ max <> 0%nat /\
     select plan (drop (first_unacked s0) (entries s0)) (first_unacked s0) ∅ ∅ 0 = (sel, fwd) /\
     delivered s0 (pull_deadline now s0) next_ack_id sel fwd out s').
Proof.
  intros Hs [Hinj Hfresh]. unfold pull_with_admission. fold (pull_start authorized now s).
  set (s0 := pull_start authorized now s). assert (H0 : sub_wf s0) by (by apply pull_start_wf).
  assert (Ho : outstanding s0 = outstanding s) by (subst s0; by destruct authorized).
  destruct (Nat.eqb_spec max 0) as [->|Hmax]; [exists nothing, s0; split_and!; [done|done|left; split_and!; auto]|].
  destruct (plan_pull_wf s0 max now authorized batching H0) as (plan & Hplan & _ & Hpm & _). rewrite Hplan. cbn.
  destruct (select plan _ _ _ _ _) as [sel fwd] eqn:Hsel. pose proof (select_length _ _ _ _ _ _ _ _ Hsel) as Hlen. rewrite Hpm, Nat.sub_0_r in Hlen.
  pose proof (chosen_length _ _ _ _ _ (proj1 (select_spec _ _ _ _ _ _ _ _ Hsel))) as Hlen'. subst s0. rewrite pull_start_length in Hlen'. set (s0 := pull_start authorized now s) in *.
  destruct (select_spec _ _ _ _ _ _ _ _ Hsel) as [[Hnds Hins]%chosen_in_log [Hndf Hinf]%chosen_in_log].
  destruct (stored_at_spec s0 sel) as (ms & Hms & _); [intros j (e & He & _)%Hins; by exists e|]. rewrite Hms. cbn.
  destruct (negb (bool_decide (sel = [])) && negb (admission (map value ms))) eqn:Hadm.
  { apply andb_prop in Hadm as [Hne Hadm]. exists nothing, s0. split_and!; [done|done|]. left. split_and!; [done|done|]. right.
    exists plan, sel, fwd, ms. split_and!; try done; [by intros ->|by apply negb_true_iff]. }
  destruct (stored_at_spec s0 fwd) as (dead & Hdead & Hdm); [intros j (e & He & _)%Hinf; by exists e|]. rewrite Hdead. cbn.
  assert (Hdisj : forall j, j ∈ sel -> j ∉ fwd).
  { intros j (e & He & _ & _ & _ & Hx)%Hins (e' & He' & _ & _ & _ & Hx')%Hinf. congruence. }
  destruct (each_forward fwd s0) as (s1 & Hs1 & Hwf1 & Heq1 & Hl1); [done|done|..].
  { intros j (e & He & Hc)%Hinf. exists e. split; [done|by eapply choosable_idle]. }
  rewrite Hs1. cbn.
  assert (Hl1s : forall j, j ∈ sel -> entries s1 !! j = entries s0 !! j) by (intros j Hj; rewrite Hl1, decide_False by (by apply Hdisj); done).
  destruct (lease_all_spec (pull_deadline now s0) next_ack_id sel 0 s1) as (rs & s2 & Hall & Hwf2 & Hc2 & Hp2 & Hrs & Hsel2 & Hrest); try done.
  { intros a b Ha Hb. apply Hinj; lia. }
  { intros j Hj. rewrite Hl1s by done. destruct (Hins j Hj) as (e & He & Hc). exists e. split; [done|by eapply choosable_idle]. }
  { intros n Hn. rewrite Heq1. cbn. rewrite Ho. apply Hfresh. lia. }
  match goal with |- context [lease_all ?d _ _ _ _] => change d with (pull_deadline now s0) end.
  rewrite Hall. cbn. eexists _, _. split; [done|]. split; [apply wf_advance, Hwf2|]. right.
  exists plan, sel, fwd. split_and!; try done. split; cbn; try done.
  - rewrite Hc2, Heq1. done.
  - rewrite Hp2, Heq1. done.
  - intros n r. rewrite Hrs. split; intros (j & e & Hj & He & ->); exists j, e; split_and!; try done.
    + rewrite <- Hl1s; [done|]. by eapply list_elem_of_lookup_2.
    + rewrite Hl1s; [done|]. by eapply list_elem_of_lookup_2.
  - intros n j Hj. destruct (Hsel2 n j Hj) as (e & He & He'). exists e. split; [|done].
    rewrite <- Hl1s; [done|]. by eapply list_elem_of_lookup_2.
  - intros j Hj. destruct (Hinf j Hj) as (e & He & _). exists e. split; [done|]. rewrite Hrest.
    + by rewrite Hl1, decide_True, He by done.
    + intros Hjs. by apply (Hdisj j).
  - intros j Hjs Hjf. by rewrite Hrest, Hl1, decide_False by done.
Qed.

Lemma pull_spec s max now authorized batching next_ack_id admission :
  sub_wf s -> fresh_ids max next_ack_id s -> exists out s',
  pull_with_admission s max now authorized batching next_ack_id admission = Some (out, s') /\ sub_wf s' /\
  let s0 := pull_start authorized now s in
  ((out = nothing /\ s' = s0 /\
    (max = 0%nat \/ exists plan sel fwd messages, plan_pull s0 max now authorized batching = Some plan /\
       select plan (drop (first_unacked s0) (entries s0)) (first_unacked s0) ∅ ∅ 0 = (sel, fwd) /\
       stored_at s0 sel = Some messages /\ sel <> [] /\ admission (map value messages) = false)) \/
   exists plan sel fwd, plan_pull s0 max now authorized batching = Some plan /\ max <> 0%nat /\
     select plan (drop (first_unacked s0) (entries s0)) (first_unacked s0) ∅ ∅ 0 = (sel, fwd) /\
     delivered s0 (pull_deadline now s0) next_ack_id sel fwd out s').
Proof. intros Hs Hf. apply pull_draws_spec; [done|]. eapply fresh_ids_le; [|exact Hf]. lia. Qed.

(** ** Seeking to a snapshot *)

Definition new_entry (now : LogicalInstant) (m : Shared) : Entry := {| stored := m; state := Available now; delivery_attempt := 0 |}.

Definition shared_bytes (ms : list Shared) : Z := foldr Z.add 0 (map (fun m => message_bytes (value m)) ms).
#[global] Arguments shared_bytes : simpl never.

Lemma total_bytes_new now ms : total_bytes (map (new_entry now) ms) = shared_bytes ms.
Proof. unfold total_bytes, shared_bytes. by rewrite map_map. Qed.

Lemma shared_bytes_filter (P : Shared -> Prop) `{!forall m, Decision (P m)} ms :
  0 <= shared_bytes (filter P ms) <= shared_bytes ms.
Proof.
  induction ms as [|m ms IH]; [done|]. pose proof (message_bytes_bounds (value m)) as [Hb _]. change (int_min usize) with 0 in Hb.
  assert (Hc : shared_bytes (m :: ms) = message_bytes (value m) + shared_bytes ms) by done. rewrite filter_cons. case_decide; [|lia].
  change (shared_bytes (m :: filter P ms)) with (message_bytes (value m) + shared_bytes (filter P ms)). lia.
Qed.

Lemma acked_split es :
  total_bytes es = total_bytes (filter unacked es) + total_bytes (filter (fun e => is_acked (state e)) es) /\
  length es = (length (filter unacked es) + length (filter (fun e => is_acked (state e)) es))%nat.
Proof.
  induction es as [|e es [IHb IHl]]; [done|]. rewrite !filter_cons.
  assert (Hc : forall l, total_bytes (e :: l) = entry_bytes e + total_bytes l) by done.
  destruct (decide (unacked e)) as [Hu|Hu]; destruct (decide (is_acked (state e))) as [Ha|Ha]; unfold unacked in Hu;
    destruct (is_acked (state e)); try done; cbn [length]; rewrite !Hc; split; lia.
Qed.

Lemma total_bytes_mono (es es' : list Entry) : sublist es es' -> total_bytes es <= total_bytes es'.
Proof.
  induction 1 as [|e l l' _ IH|e l l' _ IH]; [done|..];
    pose proof (message_bytes_bounds (value (stored e))) as [Hb _]; change (int_min usize) with 0 in Hb;
    assert (Hc : forall l, total_bytes (e :: l) = entry_bytes e + total_bytes l) by done; rewrite !Hc; unfold entry_bytes; lia.
Qed.

(** The branch of a snapshot seek: what it works on, and that what it restores fits. *)
Definition snapshot_base (s : SubscriptionState) (missing : list Shared) : option SubscriptionState :=
  let over n b := (MAX_RETAINED_PER_SUB <? n) || (MAX_RETAINED_BYTES_PER_SUB <? b) in
  if over (Z.of_nat (length (entries s)) + Z.of_nat (length missing)) (retained_bytes s + shared_bytes missing) then
    if over (Z.of_nat (length (filter unacked (entries s))) + Z.of_nat (length missing))
            (total_bytes (filter unacked (entries s)) + shared_bytes missing)
    then None else Some (reclaim_acked_entries s)
  else Some s.

(** The log a snapshot seek leaves. *)
Definition snapshot_log (es : list Entry) (missing : list Shared) (retained_ids unacked_ids : gset text) (created_at now : LogicalInstant) : list Entry :=
  let insertion_index := match list_find (newer retained_ids created_at) es with Some (i, _) => i | None => length es end in
  map (fun e => if decide (entry_id e ∈ unacked_ids \/ newer retained_ids created_at e) then replayed now e else with_state Acked e)
    (take insertion_index es ++ map (new_entry now) missing ++ drop insertion_index es).

Lemma saturating_usize_nonneg z : 0 <= z -> saturating usize z = Z.min (int_max usize) z.
Proof. unfold saturating. change (int_min usize) with 0. change (int_max usize) with (2 ^ 64 - 1). lia. Qed.

Lemma over_limit limit z : 0 <= z -> 0 <= limit < int_max usize -> (limit <? saturating usize z) = (limit <? z).
Proof.
  intros Hz Hl. rewrite saturating_usize_nonneg by done. destruct (Z.ltb_spec limit z), (Z.ltb_spec limit (Z.min (int_max usize) z)); lia.
Qed.

Lemma seek_to_snapshot_spec s captured retained_ids unacked_ids created_at now :
  sub_wf s -> fits usize (shared_bytes captured) ->
  let missing := missing_messages s captured retained_ids in
  seek_to_snapshot s captured retained_ids unacked_ids created_at now =
    match snapshot_base s missing with
    | None => (Err ResourceExhausted, s)
    | Some s0 => (Ok tt, rebuild_indexes (set_entries (snapshot_log (entries s0) missing retained_ids unacked_ids created_at now) s0))
    end.
Proof.
  intros [[_ _ Hb Hm Hn _] _] Hc missing. unfold seek_to_snapshot, snapshot_base. fold missing.
  assert (Hmb : 0 <= shared_bytes missing <= shared_bytes captured) by apply shared_bytes_filter.
  destruct (acked_split (entries s)) as [Hsb Hsl].
  set (acked := filter (fun e => is_acked (state e)) (entries s)) in *.
  pose proof (total_bytes_nonneg (filter unacked (entries s))) as Hp1. pose proof (total_bytes_nonneg acked) as Hp2.
  assert (Hab : sum_bytes acked = total_bytes acked) by (apply sum_bytes_total; lia). rewrite Hab.
  assert (Hcap : 0 <= MAX_RETAINED_BYTES_PER_SUB < int_max usize) by done.
  assert (Hcap' : 0 <= MAX_RETAINED_PER_SUB < int_max usize) by done.
  fold (shared_bytes missing). rewrite (wrapping_id usize (shared_bytes missing)) by int_lia.
  rewrite (saturating_id usize (retained_bytes s - _)) by int_lia.
  rewrite (saturating_id usize (Z.of_nat (length (entries s)) - _)) by int_lia.
  rewrite !over_limit by lia.
  replace (Z.of_nat (length (entries s)) - Z.of_nat (length acked)) with (Z.of_nat (length (filter unacked (entries s)))) by lia.
  replace (retained_bytes s - total_bytes acked) with (total_bytes (filter unacked (entries s))) by lia.
  set (over := (MAX_RETAINED_PER_SUB <? Z.of_nat (length (entries s)) + _) || _).
  set (stuck := (MAX_RETAINED_PER_SUB <? Z.of_nat (length (filter unacked (entries s))) + _) || _).
  by destruct over, stuck.
Qed.

Lemma snapshot_base_wf s missing s0 : sub_wf s -> snapshot_base s missing = Some s0 ->
  sub_wf s0 /\ total_bytes (entries s0) + shared_bytes missing <= MAX_RETAINED_BYTES_PER_SUB /\
  Z.of_nat (length (entries s0)) + Z.of_nat (length missing) <= MAX_RETAINED_PER_SUB.
Proof.
  intros Hs. pose proof Hs as [[_ _ Hb _ _ _] _]. unfold snapshot_base.
  set (over := (MAX_RETAINED_PER_SUB <? Z.of_nat (length (entries s)) + _) || _).
  set (stuck := (MAX_RETAINED_PER_SUB <? Z.of_nat (length (filter unacked (entries s))) + _) || _).
  destruct over eqn:Hover; [destruct stuck eqn:Hstuck; [done|]|]; intros [= <-].
  - apply orb_false_iff in Hstuck as [H1%Z.ltb_ge H2%Z.ltb_ge]. split_and!; [apply wf_reclaim, Hs|exact H2|exact H1].
  - apply orb_false_iff in Hover as [H1%Z.ltb_ge H2%Z.ltb_ge]. rewrite Hb in H2. split_and!; [done|exact H2|exact H1].
Qed.

Lemma snapshot_log_map es missing retained_ids unacked_ids created_at now : exists n (f : Entry -> Entry),
  (forall e, stored (f e) = stored e /\ lease_id (f e) = None /\ (f e = replayed now e \/ f e = with_state Acked e)) /\
  snapshot_log es missing retained_ids unacked_ids created_at now = map f (take n es ++ map (new_entry now) missing ++ drop n es).
Proof.
  unfold snapshot_log. eexists _, _. split; [|reflexivity]. intros e. cbn.
  destruct (decide _); (split_and!; [done|done|]); [by left|by right].
Qed.

Lemma snapshot_log_wf s missing retained_ids unacked_ids created_at now :
  sub_wf s -> total_bytes (entries s) + shared_bytes missing <= MAX_RETAINED_BYTES_PER_SUB ->
  Z.of_nat (length (entries s)) + Z.of_nat (length missing) <= MAX_RETAINED_PER_SUB ->
  sub_wf (rebuild_indexes (set_entries (snapshot_log (entries s) missing retained_ids unacked_ids created_at now) s)).
Proof.
  intros [[_ _ _ _ _ Ha] _] Hb Hn. destruct (snapshot_log_map (entries s) missing retained_ids unacked_ids created_at now) as (n & f & Hf & ->).
  assert (Hsplit : total_bytes (entries s) = total_bytes (take n (entries s)) + total_bytes (drop n (entries s)))
    by (rewrite <- total_bytes_app; by rewrite take_drop).
  apply wf_rebuild; cbn.
  - apply no_leases. intros e. change (map f ?l) with (f <$> l). rewrite list_elem_of_fmap. intros (x & -> & _). apply Hf.
  - rewrite total_bytes_map by (intros e; apply Hf). rewrite !total_bytes_app, total_bytes_new. lia.
  - rewrite length_map, !length_app, length_map, length_take, length_drop. lia.
  - apply Forall_map, Forall_forall. intros e He. cbn. destruct (Hf e) as (_ & _ & [-> | ->]); cbn; [int_lia|].
    rewrite !elem_of_app in He. destruct He as [He|[He|He]].
    + apply (proj1 (Forall_forall _ _) Ha). eapply elem_of_take in He as (i & He & _). by eapply list_elem_of_lookup_2.
    + change (map ?f ?l) with (f <$> l) in He. apply list_elem_of_fmap in He as (x & -> & _). cbn. int_lia.
    + apply (proj1 (Forall_forall _ _) Ha). apply list_elem_of_lookup_1 in He as [i He]. rewrite lookup_drop in He. by eapply list_elem_of_lookup_2.
Qed.

Lemma seek_to_snapshot_wf s captured retained_ids unacked_ids created_at now :
  sub_wf s -> fits usize (shared_bytes captured) -> sub_wf (seek_to_snapshot s captured retained_ids unacked_ids created_at now).2.
Proof.
  intros Hs Hc. rewrite seek_to_snapshot_spec by done. destruct (snapshot_base s _) as [s0|] eqn:Hb; [|done].
  destruct (snapshot_base_wf _ _ _ Hs Hb) as (H0 & Hbytes & Hn). by apply snapshot_log_wf.
Qed.

(** ** Runs *)

(** The mutating methods of a subscription. *)
Inductive SubOp :=
| SopReplaceConfig (c : SubscriptionConfig)
| SopInterval (interval : LogicalDuration)
| SopMarkTopicDeleted
| SopEnqueue (m : Shared) (now : LogicalInstant)
| SopExpire (now : LogicalInstant)
| SopRetainIds (ids : gset text) (now : LogicalInstant)
| SopPull (max : nat) (now : LogicalInstant) (authorized : bool) (batching : OrderedPullBatching)
    (next_ack_id : nat -> text) (admission : list StoredMessage -> bool)
| SopAcknowledge (ids : list text)
| SopModify (id : text) (seconds : Z) (now : LogicalInstant)
| SopCompleteForward (id : text)
| SopResumeForward (m : Shared) (now : LogicalInstant)
| SopSeekTime (time now : LogicalInstant)
| SopSeekSnapshot (captured : list Shared) (retained_ids unacked_ids : gset text) (created_at now : LogicalInstant).

Definition perform (op : SubOp) (s : SubscriptionState) : option SubscriptionState :=
  match op with
  | SopReplaceConfig c => Some (replace_config c s)
  | SopInterval interval => Some (set_push_minimum_redelivery_interval interval s)
  | SopMarkTopicDeleted => mark_topic_deleted s
  | SopEnqueue m now => Some (enqueue s m now).2
  | SopExpire now => expire_deadlines s now
  | SopRetainIds ids now => snd <$> retain_outstanding_ack_ids s ids now
  | SopPull max now authorized batching next_ack_id admission =>
      snd <$> pull_with_admission s max now authorized batching next_ack_id admission
  | SopAcknowledge ids => snd <$> acknowledge s ids
  | SopModify id seconds now => modify_ack_deadline s id seconds now
  | SopCompleteForward id => Some (complete_forward s id).2
  | SopResumeForward m now => Some (resume_forward s m now)
  | SopSeekTime time now => Some (seek_to_time s time now).2
  | SopSeekSnapshot captured retained_ids unacked_ids created_at now =>
      Some (seek_to_snapshot s captured retained_ids unacked_ids created_at now).2
  end.

(** The callers' side: a pull draws fresh identifiers, a snapshot fits in memory. *)
Definition op_ok (op : SubOp) (s : SubscriptionState) : Prop :=
  match op with
  | SopPull max _ _ _ next_ack_id _ => fresh_ids max next_ack_id s
  | SopSeekSnapshot captured _ _ _ _ => fits usize (shared_bytes captured)
  | _ => True
  end.

Inductive sub_reachable (c : SubscriptionConfig) : SubscriptionState -> Prop :=
| reach_new : sub_reachable c (sub_new c)
| reach_step op s s' : sub_reachable c s -> op_ok op s -> perform op s = Some s' -> sub_reachable c s'.

Lemma sub_new_wf c : sub_wf (sub_new c).
Proof.
  split; [split|]; cbn; try done. intros id i. split; [by intros ?%lookup_empty_Some|]. by intros (e & d & ? & _).
Qed.

Lemma wf_set_config c s : sub_wf s -> sub_wf (set_config c s).
Proof. by intros [[] ?]. Qed.

Lemma perform_wf op s : sub_wf s -> op_ok op s -> exists s', perform op s = Some s' /\ sub_wf s'.
Proof.
  intros Hs Hop. destruct op; cbn in Hop |- *.
  - eexists. split; [done|]. by apply wf_set_config.
  - eexists. split; [done|]. by destruct Hs as [[] ?].
  - unfold mark_topic_deleted. destruct (topic_parse DELETED_TOPIC) as [t|e] eqn:Ht; [|by vm_compute in Ht]. eexists. split; [done|].
    by apply wf_set_config.
  - eexists. split; [done|]. by apply wf_enqueue.
  - by apply expire_wf.
  - unfold retain_outstanding_ack_ids. destruct (expire_wf s now Hs) as (s' & -> & Hs'). by exists s'.
  - destruct (pull_spec s max now authorized batching next_ack_id admission Hs Hop) as (out & s' & -> & Hs' & _). by exists s'.
  - destruct (acknowledge_wf s ids Hs) as (n & s' & -> & Hs'). by exists s'.
  - by apply modify_wf.
  - eexists. split; [done|]. by apply complete_forward_wf.
  - eexists. split; [done|]. by apply resume_forward_wf.
  - eexists. split; [done|]. by apply seek_to_time_wf.
  - eexists. split; [done|]. by apply seek_to_snapshot_wf.
Qed.

Lemma sub_reachable_wf c s : sub_reachable c s -> sub_wf s.
Proof.
  induction 1 as [|op s s' _ IH Hop Hs']; [apply sub_new_wf|]. destruct (perform_wf op s IH Hop) as (s'' & Hs'' & Hwf). congruence.
Qed.
