(* ===== verification/PsDelivery.v ===== *)
(** * Delivery

    What a Pub/Sub subscription ([PsSubscription]) promises of the messages of its log:
    ordered keys are delivered in order, unacknowledged messages come back, attempts
    stay within the dead-letter policy, acknowledgements and snapshots act on exactly
    the entries they name, and an admitted batch is stored whole. *)
From S2P Require Import Prelude Time Text PsName PsFilter PsMessage PsSubscription PsPull PsLog.

(** ** The selection loop and ordering keys *)

Lemma insert_key_mono (c : SubscriptionConfig) (e : Entry) (ks : gset text) (k : text) : k ∈ ks -> k ∈ insert_key c e ks.
Proof. unfold insert_key. destruct (holds_key c e); set_solver. Qed.

Lemma insert_key_own (c : SubscriptionConfig) (e : Entry) (ks : gset text) : holds_key c e = true -> entry_key e ∈ insert_key c e ks.
Proof. unfold insert_key. intros ->. set_solver. Qed.

Lemma chosen_from_lt p es i fwd l j : chosen_from p es i fwd l -> j ∈ l -> (i <= j)%nat.
Proof. intros [_ Hf] Hj. eapply Forall_forall in Hj; [|exact Hf]. by destruct Hj as (e & [Hle _] & _). Qed.

(** An entry whose key is blocked is neither delivered nor forwarded. *)
Lemma select_blocked (p : PullPlan) (es : list Entry) : forall (i : nat) (blocked emitted : gset text) (ch : nat) (sel fwd : list nat) (k : nat) (e : Entry),
  select p es i blocked emitted ch = (sel, fwd) -> entry_at es i k e -> holds_key (plan_config p) e = true ->
  entry_key e ∈ blocked -> (k ∉ sel) /\ (k ∉ fwd).
Proof.
  induction es as [|x es IH]; intros i b em ch sel fwd k e Hsel Hk Hh Hb; [by destruct Hk as [_ ?]|].
  cbn [select] in Hsel. destruct (_ <=? _)%nat; [injection Hsel as <- <-; split; apply not_elem_of_nil|].
  assert (Hnext : forall b' em' ch' s f, select p es (S i) b' em' ch' = (s, f) -> (k = i \/ entry_key e ∈ b') -> (k ∉ s) /\ (k ∉ f)).
  { intros b' em' ch' s f Hs Hc. destruct (select_spec _ _ _ _ _ _ _ _ Hs) as [Hcs Hcf].
    destruct (entry_at_inv _ _ _ _ _ Hk) as [[-> _]|Hk'].
    - split; intros Hin; [eapply chosen_from_lt in Hin; [|exact Hcs]|eapply chosen_from_lt in Hin; [|exact Hcf]]; lia.
    - destruct Hc as [-> |Hc]; [destruct Hk' as [? _]; lia|]. by eapply IH. }
  destruct (is_acked (state x)); [by eapply Hnext; [exact Hsel|right]|].
  destruct (unkeyed_only p && _); [by eapply Hnext; [exact Hsel|right]|].
  destruct (holds_key (plan_config p) x && bool_decide (entry_key x ∈ b)) eqn:Hbx; [by eapply Hnext; [exact Hsel|right]|].
  assert (Hki : k <> i).
  { intros ->. destruct (entry_at_inv _ _ _ _ _ Hk) as [[_ ->]|[? _]]; [|lia]. rewrite Hh, bool_decide_true in Hbx by done. done. }
  assert (Hmono : forall x, entry_key e ∈ insert_key (plan_config p) x b) by (intros y; by apply insert_key_mono).
  destruct (is_available x (plan_now p)); cbn [negb] in Hsel; [|eapply Hnext; [exact Hsel|by right]].
  destruct (exhausted _ x).
  - destruct (holds_key _ x && bool_decide (entry_key x ∈ em)); [eapply Hnext; [exact Hsel|by right]|].
    destruct (select p es _ _ _ _) as [s f] eqn:Hs. injection Hsel as <- <-.
    destruct (Hnext _ _ _ _ _ Hs) as [H1 H2]; [by right|]. split; [done|]. by apply not_elem_of_cons.
  - destruct (select p es _ _ _ _) as [s f] eqn:Hs. injection Hsel as <- <-.
    destruct (Hnext _ _ _ _ _ Hs) as [H1 H2]; [right; by destruct (_ || _)|]. split; [|done]. by apply not_elem_of_cons.
Qed.

(** Of two unacknowledged entries with one key, the later is delivered only with the earlier. *)
Lemma select_in_order (p : PullPlan) (es : list Entry) : forall (i : nat) (blocked emitted : gset text) (ch : nat) (sel fwd : list nat) (j k : nat) (ej ek : Entry),
  select p es i blocked emitted ch = (sel, fwd) -> entry_at es i j ej -> entry_at es i k ek -> (j < k)%nat ->
  enable_message_ordering (plan_config p) = true -> entry_key ek <> [] -> entry_key ej = entry_key ek ->
  is_acked (state ej) = false -> k ∈ sel -> j ∈ sel.
Proof.
  induction es as [|x es IH]; intros i b em ch sel fwd j k ej ek Hsel Hj Hk Hjk Hord Hkey Heq Ha Hin; [by destruct Hk as [_ ?]|].
  assert (Hh : forall e, entry_key e = entry_key ek -> holds_key (plan_config p) e = true).
  { intros e He. unfold holds_key. rewrite Hord, He, bool_decide_false by done. done. }
  destruct (select_spec _ _ _ _ _ _ _ _ Hsel) as [[_ Hcs] _].
  assert (Hun : unkeyed_only p && negb (bool_decide (entry_key ek = [])) = false).
  { eapply Forall_forall in Hin; [|exact Hcs]. destruct Hin as (e & [_ He] & _ & Hu & _). destruct Hk as [_ Hk]. rewrite He in Hk. injection Hk as ->. exact Hu. }
  rewrite <- Heq in Hun. destruct (entry_at_inv _ _ _ _ _ Hk) as [[-> _]|Hk']; [destruct Hj as [? _]; lia|].
  cbn [select] in Hsel. destruct (_ <=? _)%nat; [injection Hsel as <- <-; by apply not_elem_of_nil in Hin|].
  assert (Hout : forall b' em' ch' s f, select p es (S i) b' em' ch' = (s, f) -> entry_key ek ∈ b' -> k ∉ s).
  { intros b' em' ch' s f Hs Hb. by destruct (select_blocked p es (S i) b' em' ch' s f k ek Hs Hk' (Hh ek eq_refl) Hb). }
  destruct (entry_at_inv _ _ _ _ _ Hj) as [[-> <-]|Hj'].
  - rewrite Ha, Hun in Hsel. rewrite (Hh _ Heq) in Hsel. cbn [andb] in Hsel.
    assert (Hown : forall ks : gset text, entry_key ek ∈ insert_key (plan_config p) ej ks) by (intros ks; rewrite <- Heq; by apply insert_key_own, Hh).
    destruct (bool_decide (entry_key ej ∈ b)) eqn:Hb; [apply bool_decide_eq_true in Hb; exfalso; eapply Hout; [exact Hsel|by rewrite <- Heq|done]|].
    destruct (is_available ej (plan_now p)); cbn [negb] in Hsel; [|exfalso; by eapply Hout].
    destruct (exhausted _ ej); [|destruct (select p es _ _ _ _) as [s f]; injection Hsel as <- <-; by left].
    destruct (bool_decide (entry_key ej ∈ em)); [exfalso; by eapply Hout|]. destruct (select p es _ _ _ _) as [s f] eqn:Hs. injection Hsel as <- <-. exfalso; by eapply Hout.
  - assert (Hnext : forall b' em' ch' f, select p es (S i) b' em' ch' = (sel, f) -> j ∈ sel) by (intros b' em' ch' f Hs; by apply (IH (S i) b' em' ch' sel f j k ej ek)).
    destruct (is_acked (state x)); [by eapply Hnext|]. destruct (unkeyed_only p && _); [by eapply Hnext|].
    destruct (holds_key (plan_config p) x && _); [by eapply Hnext|]. destruct (negb _); [by eapply Hnext|].
    destruct (exhausted _ x).
    + destruct (holds_key _ x && _); [by eapply Hnext|]. destruct (select p es _ _ _ _) as [s f] eqn:Hs. injection Hsel as <- <-. by eapply Hnext.
    + destruct (select p es _ _ _ _) as [s f] eqn:Hs. injection Hsel as <- <-.
      apply elem_of_cons in Hin as [-> |Hin]; [destruct Hk' as [? _]; lia|]. right. by eapply (IH (S i) _ _ _ s f j k ej ek).
Qed.

(** ** The state a pull starts from *)

Lemma pull_start_lookup authorized now s (i : nat) (e : Entry) : entries s !! i = Some e -> exists e0,
  entries (pull_start authorized now s) !! i = Some e0 /\ stored e0 = stored e /\ is_acked (state e0) = is_acked (state e) /\
  delivery_attempt e0 = delivery_attempt e.
Proof.
  intros He. destruct authorized; [by exists e|]. cbn. change (map ?f ?l) with (f <$> l). rewrite list_lookup_fmap, He. cbn.
  eexists. split; [done|]. destruct (is_forward_pending (state e)) eqn:Hp; [|done]. by destruct (state e).
Qed.

Lemma unacked_beyond s (j : nat) (e : Entry) : sub_wf s -> entries s !! j = Some e -> is_acked (state e) = false -> (first_unacked s <= j)%nat.
Proof.
  intros [_ Hf] He Ha. rewrite Hf. destruct (Nat.le_gt_cases (leading_acked (entries s)) j) as [?|Hlt]; [done|].
  pose proof (proj1 (leading_spec (entries s)) j e He Hlt). congruence.
Qed.

Lemma sorted_lookup (l : list nat) : StronglySorted lt l -> forall a b x y, l !! a = Some x -> l !! b = Some y -> (x < y)%nat -> (a < b)%nat.
Proof.
  induction 1 as [|z l Hs IH Hz]; [done|]. intros [|a] [|b] x y Hx Hy Hlt; cbn in Hx, Hy; try lia.
  - simplify_eq. lia.
  - simplify_eq. eapply Forall_lookup in Hx; [|exact Hz]. lia.
  - enough (a < b)%nat by lia. by eapply IH.
Qed.

(** The lease of the [n]th received message is on the [n]th selected entry. *)
Lemma lease_of_received s0 deadline next_ack_id sel fwd out s' (n : nat) r i :
  sub_wf s' -> delivered s0 deadline next_ack_id sel fwd out s' -> received out !! n = Some r ->
  outstanding s' !! received_ack_id r = Some i -> sel !! n = Some i.
Proof.
  intros [[_ Ho _ _ _ _] _] D Hr Hi. apply D in Hr as (j & e & Hj & He & ->). cbn in Hi.
  destruct (delivered_leased _ _ _ _ _ _ _ D n j Hj) as (x & _ & Hx).
  assert (outstanding s' !! next_ack_id n = Some j) by (apply Ho; by eexists _, _). congruence.
Qed.

(** ** Giving leases back *)

(** One step of [expire_deadlines] and of [acknowledge]: the lease ends, its entry changes. *)
Definition release_with (g : Entry -> Entry) (s : SubscriptionState) (ack_id : text) : option SubscriptionState :=
  match outstanding s !! ack_id with
  | None => Some s
  | Some index => e ← entries s !! index; Some (put index (g e) (delete ack_id (outstanding s)) s)
  end.

(** The entry after the leases [ids] ended. *)
Definition released (g : Entry -> Entry) (ids : list text) (e : Entry) : Entry :=
  match state e with
  | Outstanding ack_id _ => if decide (ack_id ∈ ids) then g e else e
  | _ => e
  end.

Definition ends_lease (g : Entry -> Entry) : Prop :=
  forall e, stored (g e) = stored e /\ delivery_attempt (g e) = delivery_attempt e /\ forall id d, state (g e) <> Outstanding id d.

Lemma release_with_spec (g : Entry -> Entry) (s : SubscriptionState) (id : text) : ends_lease g -> sub_lax s ->
  exists s', release_with g s id = Some s' /\ sub_lax s' /\ config s' = config s /\ first_unacked s' = first_unacked s /\
    push_minimum_redelivery_interval s' = push_minimum_redelivery_interval s /\
    entries s' = map (released g [id]) (entries s) /\ outstanding s' = delete id (outstanding s).
Proof.
  intros Hg Hs. unfold release_with. destruct (outstanding s !! id) as [i|] eqn:Hid.
  - destruct (lease_entry s id i Hs Hid) as (e & d & He & Hd). rewrite He. cbn. eexists. split; [done|].
    split; [eapply (lax_release s id i e (g e) d); try done; apply Hg|]. cbn. split_and!; try done.
    apply list_eq. intros j. change (map ?f ?l) with (f <$> l). rewrite list_lookup_fmap. destruct (decide (i = j)) as [<-|Hij].
    + rewrite list_lookup_insert_eq by (by eapply lookup_lt_Some). rewrite He. cbn. unfold released.
      rewrite Hd, decide_True by by constructor. done.
    + rewrite list_lookup_insert_ne by done. destruct (entries s !! j) as [x|] eqn:Hx; [|done]. cbn. f_equal. unfold released.
      destruct (state x) as [|id' d'| |] eqn:Hx'; try done. rewrite decide_False; [done|].
      rewrite list_elem_of_singleton. intros ->. destruct Hs as [_ Ho _ _ _ _].
      assert (outstanding s !! id = Some j) by (apply Ho; by exists x, d'). congruence.
  - exists s. split_and!; try done; [|by rewrite delete_id]. rewrite <- (map_id (entries s)) at 1. apply map_ext_in. intros e He.
    apply list_elem_of_In in He. unfold released. destruct (state e) as [|id' d'| |] eqn:Hx; try done. rewrite decide_False; [done|].
    rewrite list_elem_of_singleton. intros ->. apply list_elem_of_lookup_1 in He as [j Hj]. destruct Hs as [_ Ho _ _ _ _].
    assert (outstanding s !! id = Some j) by (apply Ho; by exists e, d'). congruence.
Qed.

Lemma released_cons g id ids e : ends_lease g -> released g ids (released g [id] e) = released g (id :: ids) e.
Proof.
  intros Hg. unfold released at 2 3. destruct (state e) as [|id' d'| |] eqn:He; try (unfold released; by rewrite He).
  destruct (decide (id' = id)) as [->|Hne].
  - rewrite !decide_True by constructor. unfold released. destruct (state (g e)) as [|x y| |] eqn:Hge; try done.
    by apply Hg in Hge.
  - rewrite decide_False by (by rewrite list_elem_of_singleton). unfold released. rewrite He.
    destruct (decide (id' ∈ ids)); [by rewrite decide_True by by right|]. rewrite decide_False; [done|].
    rewrite elem_of_cons. naive_solver.
Qed.

(** Leases left after the leases [ids] ended. *)
Definition remaining (ids : list text) (o : gmap text nat) : gmap text nat := filter (fun p => p.1 ∉ ids) o.

Lemma remaining_cons id ids o : remaining ids (delete id o) = remaining (id :: ids) o.
Proof.
  apply map_eq. intros k. apply option_eq. intros i. unfold remaining. rewrite !map_lookup_filter_Some, lookup_delete_Some. cbn.
  rewrite elem_of_cons. naive_solver.
Qed.

Lemma each_release (g : Entry -> Entry) (f : SubscriptionState -> text -> option SubscriptionState) (c : SubscriptionConfig) (push : LogicalDuration) :
  ends_lease g ->
  (forall s id, config s = c -> push_minimum_redelivery_interval s = push -> f s id = release_with g s id) ->
  forall ids s, sub_lax s -> config s = c -> push_minimum_redelivery_interval s = push ->
  exists s', each f ids s = Some s' /\ sub_lax s' /\ config s' = config s /\ first_unacked s' = first_unacked s /\
    push_minimum_redelivery_interval s' = push_minimum_redelivery_interval s /\
    entries s' = map (released g ids) (entries s) /\ outstanding s' = remaining ids (outstanding s).
Proof.
  intros Hg Hf ids. induction ids as [|id ids IH]; intros s Hs Hc Hp.
  - exists s. split_and!; try done.
    + rewrite <- (map_id (entries s)) at 1. apply map_ext. intros e. unfold released. destruct (state e); try done.
    + unfold remaining. symmetry. apply map_filter_id. intros i x _. apply not_elem_of_nil.
  - cbn. rewrite Hf by done. destruct (release_with_spec g s id Hg Hs) as (s1 & -> & Hs1 & Hc1 & Hf1 & Hp1 & He1 & Ho1). cbn.
    destruct (IH s1 Hs1) as (s2 & -> & Hs2 & Hc2 & Hf2 & Hp2 & He2 & Ho2); [congruence..|].
    exists s2. split_and!; try done; [congruence..| |].
    + rewrite He2, He1, map_map. apply map_ext. intros e. by apply released_cons.
    + rewrite Ho2, Ho1. apply remaining_cons.
Qed.

Lemma expired_ids_elem es leases now ids : expired_ids es leases now = Some ids ->
  forall id, id ∈ ids <-> exists i e id' d, (id, i) ∈ leases /\ es !! i = Some e /\ state e = Outstanding id' d /\ d <= now.
Proof.
  revert ids. induction leases as [|[id0 i0] leases IH]; intros ids; cbn.
  - intros [= <-] id. split; [by intros ?%not_elem_of_nil|]. by intros (i & e & id' & d & ?%not_elem_of_nil & _).
  - destruct (es !! i0) as [e0|] eqn:He0; [|done]. cbn. destruct (expired_ids es leases now) as [rest|]; [|done]. cbn. intros [= <-] id.
    specialize (IH rest eq_refl id).
    assert (Hlt : (exists id' d, state e0 = Outstanding id' d /\ d <= now) \/
                  ~ (exists id' d, state e0 = Outstanding id' d /\ d <= now)).
    { destruct (state e0) as [|id' d| |]; try (right; by intros (x & y & ? & _)).
      destruct (Z.le_gt_cases d now) as [Hd|Hd]; [left; by exists id', d|right; intros (x & y & [= _ <-] & ?); lia]. }
    destruct Hlt as [(id' & d & Hd & Hle)|Hno].
    + rewrite Hd. rewrite (proj2 (Z.leb_le d now) Hle), elem_of_cons, IH. split.
      * intros [->|(i & e & x & y & Hin & Hr)]; [exists i0, e0, id', d; split; [by left|done]|exists i, e, x, y; split; [by right|done]].
      * intros (i & e & x & y & [[= -> ->]|Hin]%elem_of_cons & Hr); [by left|right; by exists i, e, x, y].
    + assert (Hsame : (match state e0 with Outstanding _ deadline => if deadline <=? now then id0 :: rest else rest | _ => rest end) = rest).
      { destruct (state e0) as [|id' d| |] eqn:Hs; try done. destruct (Z.leb_spec d now); [|done]. destruct Hno. by exists id', d. }
      rewrite Hsame, IH. split; intros (i & e & x & y & Hin & He & Hs & Hd); exists i, e, x, y; (split; [|done]); [by right|].
      apply elem_of_cons in Hin as [[= -> ->]|Hin]; [|done]. destruct Hno. exists x, y. split; congruence.
Qed.

(** ** Acknowledging *)

Lemma ack_ends : ends_lease (with_state Acked).
Proof. done. Qed.

Lemma acknowledge_one_release s id : acknowledge_one s id = release_with (with_state Acked) s id.
Proof. done. Qed.

Lemma acknowledge_loop_spec ids : forall n s, sub_lax s -> exists s', each acknowledge_one ids s = Some s' /\
  acknowledge_loop ids n s = Some (n + Z.of_nat (size (outstanding s)) - Z.of_nat (size (outstanding s')), s').
Proof.
  induction ids as [|id ids IH]; intros n s Hs; [exists s; split; [done|]; cbn; do 2 f_equal; lia|]. cbn.
  rewrite acknowledge_one_release. destruct (release_with_spec _ s id ack_ends Hs) as (s1 & -> & Hs1 & _ & _ & _ & _ & Ho1). cbn.
  destruct (outstanding s !! id) as [i|] eqn:Hid.
  - destruct (IH (n + 1) s1 Hs1) as (s' & He & Hl). exists s'. split; [done|]. rewrite Hl. do 2 f_equal.
    rewrite Ho1, map_size_delete, Hid. assert (size (outstanding s) <> 0%nat); [|lia].
    intros H0%map_size_empty_iff. by rewrite H0, lookup_empty in Hid.
  - destruct (IH n s1 Hs1) as (s' & He & Hl). exists s'. split; [done|]. rewrite Hl. do 2 f_equal.
    by rewrite Ho1, delete_id.
Qed.

Lemma acknowledge_spec s ids : sub_wf s -> exists n s', acknowledge s ids = Some (n, s') /\
  entries s' = map (released (with_state Acked) ids) (entries s) /\ outstanding s' = remaining ids (outstanding s) /\
  n = Z.of_nat (size (outstanding s)) - Z.of_nat (size (outstanding s')).
Proof.
  intros [Hs _]. destruct (acknowledge_loop_spec ids 0 s Hs) as (s1 & He & Hl).
  destruct (each_release _ acknowledge_one (config s) (push_minimum_redelivery_interval s) ack_ends (fun s id _ _ => acknowledge_one_release s id) ids s Hs eq_refl eq_refl)
    as (s' & He' & _ & _ & _ & _ & Hes & Ho). assert (s1 = s') as -> by congruence.
  unfold acknowledge. rewrite Hl. cbn. eexists _, _. split; [done|]. cbn. split_and!; [done|done|]. lia.
Qed.

(** ** Expiry *)

Lemma redeliver_ends s now : ends_lease (fun e => redeliver e (back_at s e now)).
Proof. done. Qed.

Lemma expire_spec s now : sub_wf s -> exists s', expire_deadlines s now = Some s' /\ sub_wf s' /\ config s' = config s /\
  push_minimum_redelivery_interval s' = push_minimum_redelivery_interval s /\
  entries s' = map (fun e => match state e with
                             | Outstanding _ deadline => if deadline <=? now then redeliver e (back_at s e now) else e
                             | _ => e
                             end) (entries s).
Proof.
  intros Hs. destruct (expire_wf s now Hs) as (s' & Hx & Hwf). exists s'. unfold expire_deadlines in Hx.
  destruct (expired_ids _ _ now) as [ids|] eqn:Hids; [|done]. cbn in Hx.
  destruct (each_release (fun e => redeliver e (back_at s e now)) (expire_one now) (config s) (push_minimum_redelivery_interval s)
    (redeliver_ends s now)) with (ids := ids) (s := s) as (s1 & Hs1 & _ & Hc & _ & Hp & Hes & _); [|apply Hs|done|done|].
  { intros s1 id Hc Hp. unfold expire_one, release_with. destruct (outstanding s1 !! id) as [i|]; [|done].
    destruct (entries s1 !! i) as [e|]; [|done]. cbn. unfold back_at. by rewrite Hc, Hp. }
  assert (s1 = s') as -> by congruence. split_and!; try done; [unfold expire_deadlines; by rewrite Hids|].
  rewrite Hes. apply map_ext_in. intros e He. apply list_elem_of_In in He.
  unfold released. destruct (state e) as [|id d| |] eqn:Hd; try done.
  assert (Hin : id ∈ ids <-> d <= now).
  { rewrite (expired_ids_elem _ _ _ _ Hids id). apply list_elem_of_lookup_1 in He as [j Hj].
    destruct Hs as [[_ Ho _ _ _ _] _]. split.
    - intros (i & x & id' & d' & Hlease & Hx' & Hd' & Hle). apply elem_of_btree_map_iter in Hlease.
      apply Ho in Hlease as (y & dy & Hy & Hdy). assert (outstanding s !! id = Some j) by (apply Ho; by exists e, d).
      assert (outstanding s !! id = Some i) by (apply Ho; by exists y, dy). congruence.
    - intros Hle. exists j, e, id, d. split_and!; try done. apply elem_of_btree_map_iter, Ho. by exists e, d. }
  destruct (decide (id ∈ ids)) as [H|H]; rewrite Hin in H; destruct (Z.leb_spec d now); done || lia.
Qed.

(** ** Backoff *)

Lemma double_backoff_exact (maximum : LogicalDuration) (steps : nat) : forall backoff, fits i128 (maximum * 2) -> 0 <= backoff <= maximum ->
  double_backoff steps backoff maximum = Z.min (backoff * 2 ^ Z.of_nat steps) maximum.
Proof.
  induction steps as [|steps IH]; intros b Hm Hb; [cbn; lia|]. cbn [double_backoff]. rewrite Nat2Z.inj_succ, Z.pow_succ_r by lia.
  pose proof (Z.pow_pos_nonneg 2 (Z.of_nat steps)) as Hp. destruct (Z.leb_spec maximum b); [nia|].
  rewrite saturating_id by int_lia. rewrite IH; [nia|done|lia].
Qed.

Lemma double_backoff_le (maximum : LogicalDuration) (steps : nat) : forall backoff, backoff <= maximum -> double_backoff steps backoff maximum <= maximum.
Proof.
  induction steps as [|steps IH]; intros b Hb; [done|]. cbn. destruct (maximum <=? b); [done|]. apply IH. lia.
Qed.

Lemma config_retry_bounds c policy : config_validate c = Ok tt -> retry_policy c = Some policy ->
  0 <= minimum_backoff policy <= maximum_backoff policy /\ maximum_backoff policy <= dur_from_seconds MAX_RETRY_BACKOFF_SECONDS.
Proof.
  unfold config_validate. destruct (_ || _); [done|]. destruct (if_some (message_retention_duration c) _); [|done].
  destruct (if_some (dead_letter_policy c) _); [|done]. intros H Hp. rewrite Hp in H. cbn in H. unfold validate_retry in H.
  destruct (existsb _ _) eqn:Hx; [done|]. destruct (Z.ltb_spec (maximum_backoff policy) (minimum_backoff policy)); [done|].
  cbn [existsb] in Hx. rewrite orb_false_r in Hx. apply orb_false_iff in Hx as [H1 H2]. apply orb_false_iff in H1 as [H1 _].
  apply orb_false_iff in H2 as [_ H2]. lia.
Qed.

Lemma redelivery_backoff_le c attempt push : config_validate c = Ok tt -> 0 <= push ->
  redelivery_backoff c attempt push <= Z.max (dur_from_seconds MAX_RETRY_BACKOFF_SECONDS) push.
Proof.
  intros Hc Hp. assert (0 <= dur_from_seconds MAX_RETRY_BACKOFF_SECONDS) by done. unfold redelivery_backoff. destruct (retry_policy c) as [policy|] eqn:Hr; [|destruct (is_push c); lia].
  destruct (config_retry_bounds _ _ Hc Hr). destruct (_ || _); [lia|].
  pose proof (double_backoff_le (maximum_backoff policy) (Z.to_nat (Z.min (saturating u32 (attempt - 1)) 127)) (minimum_backoff policy)). lia.
Qed.

(** ** Progress *)

(** No earlier unacknowledged entry of [es] holds the key of the entry at [j]. *)
Definition key_head (c : SubscriptionConfig) (es : list Entry) (i j : nat) (e : Entry) : Prop :=
  holds_key c e = true -> forall j' e', entry_at es i j' e' -> (j' < j)%nat -> entry_key e' = entry_key e -> is_acked (state e') = true.

Lemma insert_key_other (c : SubscriptionConfig) (x : Entry) (k : text) (ks : gset text) : k ∉ ks -> entry_key x <> k -> k ∉ insert_key c x ks.
Proof. unfold insert_key. destruct (holds_key c x); set_solver. Qed.

Lemma select_progress (p : PullPlan) (es : list Entry) : forall (i : nat) (blocked emitted : gset text) (ch : nat) (sel fwd : list nat) (j : nat) (e : Entry),
  select p es i blocked emitted ch = (sel, fwd) -> entry_at es i j e -> is_acked (state e) = false -> unkeyed_only p = false ->
  is_available e (plan_now p) = true -> key_head (plan_config p) es i j e ->
  (holds_key (plan_config p) e = true -> (entry_key e ∉ blocked) /\ (entry_key e ∉ emitted)) ->
  (ch + length es <= plan_max p)%nat -> j ∈ sel \/ j ∈ fwd.
Proof.
  induction es as [|x es IH]; intros i b em ch sel fwd j e Hsel Hj Ha Hun Hav Hhead Hkey Hroom; [by destruct Hj as [_ ?]|].
  cbn [select] in Hsel. cbn [length] in Hroom. destruct (Nat.leb_spec (plan_max p) ch); [lia|]. rewrite Hun in Hsel. cbn [andb] in Hsel.
  destruct (entry_at_inv _ _ _ _ _ Hj) as [[-> <-]|Hj'].
  - rewrite Ha, Hav in Hsel. cbn [negb] in Hsel. destruct (holds_key (plan_config p) e) eqn:Hh; cbn [andb] in Hsel.
    + destruct (Hkey eq_refl) as [Hb Hem]. rewrite (bool_decide_false _ Hb), (bool_decide_false _ Hem) in Hsel.
      destruct (exhausted _ e), (select p es _ _ _ _) as [s f]; injection Hsel as <- <-; [right|left]; by constructor.
    + destruct (exhausted _ e), (select p es _ _ _ _) as [s f]; injection Hsel as <- <-; [right|left]; by constructor.
  - assert (Hhead' : key_head (plan_config p) es (S i) j e).
    { intros Hh j' e' Hj2. apply (Hhead Hh j' e'). by apply entry_at_cons. }
    assert (Hx : is_acked (state x) = true \/ (holds_key (plan_config p) e = true -> entry_key x <> entry_key e)).
    { destruct (is_acked (state x)) eqn:Hax; [by left|right]. intros Hh Hk. destruct Hj' as [Hle _].
      enough (is_acked (state x) = true) by congruence. by apply (Hhead Hh i x (entry_at_head x es i)); [lia|]. }
    assert (Hnext : forall b' em' ch' s f, select p es (S i) b' em' ch' = (s, f) -> (ch' <= S ch)%nat ->
      (holds_key (plan_config p) e = true -> (entry_key e ∉ b') /\ (entry_key e ∉ em')) -> j ∈ s \/ j ∈ f).
    { intros b' em' ch' s f Hs Hch Hk. eapply (IH (S i) b' em' ch' s f j e); try done. lia. }
    destruct (is_acked (state x)) eqn:Hax; [by eapply Hnext; [exact Hsel|lia|]|]. destruct Hx as [?|Hx]; [done|].
    assert (Hb : holds_key (plan_config p) e = true -> entry_key e ∉ insert_key (plan_config p) x b) by (intros Hh; apply insert_key_other; naive_solver).
    assert (Hem : holds_key (plan_config p) e = true -> entry_key e ∉ insert_key (plan_config p) x em) by (intros Hh; apply insert_key_other; naive_solver).
    destruct (holds_key (plan_config p) x && _); [by eapply Hnext; [exact Hsel|lia|]|].
    destruct (negb _); [eapply Hnext; [exact Hsel|lia|naive_solver]|]. destruct (exhausted _ x).
    + destruct (holds_key _ x && _); [eapply Hnext; [exact Hsel|lia|naive_solver]|].
      destruct (select p es _ _ _ _) as [s f] eqn:Hs. injection Hsel as <- <-.
      destruct (Hnext _ _ _ _ _ Hs) as [?|?]; [lia|naive_solver|by left|right; by right].
    + destruct (select p es _ _ _ _) as [s f] eqn:Hs. injection Hsel as <- <-.
      destruct (Hnext _ _ _ _ _ Hs) as [?|?]; [lia| |left; by right|by right].
      intros Hh. split; [destruct (_ || _); [by apply Hb|by apply Hkey]|by apply Hem].
Qed.

(** ** Unordered subscriptions *)

Definition deliverable (now : LogicalInstant) (max_attempts : option Z) (e : Entry) : bool :=
  is_available e now && negb (exhausted max_attempts e).

Lemma filter_bool_cons {A} (P : A -> bool) x l :
  filter (fun y => P y) (x :: l) = if P x then x :: filter (fun y => P y) l else filter (fun y => P y) l.
Proof. rewrite filter_cons. destruct (decide (P x)) as [H|H], (P x); done. Qed.

Lemma select_unordered (p : PullPlan) (es : list Entry) : enable_message_ordering (plan_config p) = false -> unkeyed_only p = false ->
  forall (i : nat) (b em : gset text) (ch : nat) (sel fwd : list nat), select p es i b em ch = (sel, fwd) ->
  Forall2 (entry_at es i) sel (take (plan_max p - ch) (filter (fun e => deliverable (plan_now p) (plan_max_attempts p) e) es)).
Proof.
  intros Hord Hun. assert (Hh : forall e, holds_key (plan_config p) e = false) by (intros e; unfold holds_key; by rewrite Hord).
  induction es as [|e es IH]; intros i b em ch sel fwd; cbn [select]; [intros [= <- <-]; rewrite filter_nil, take_nil; constructor|].
  destruct (Nat.leb_spec (plan_max p) ch); [intros [= <- <-]; replace (plan_max p - ch)%nat with 0%nat by lia; constructor|].
  assert (Hskip : forall b em l (s f : list nat), select p es (S i) b em l = (s, f) ->
    Forall2 (entry_at (e :: es) i) s (take (plan_max p - l) (filter (fun e => deliverable (plan_now p) (plan_max_attempts p) e) es))).
  { intros b' em' l s f Hs. eapply Forall2_impl; [by eapply IH|]. intros j x. apply entry_at_cons. }
  rewrite Hun, (Hh e), filter_bool_cons. unfold deliverable at 1. cbn [andb].
  destruct (is_acked (state e)) eqn:Ha.
  { intros Hs. assert (Hav : is_available e (plan_now p) = false) by (unfold is_available; by destruct (state e)). rewrite Hav. by eapply Hskip. }
  destruct (is_available e (plan_now p)); cbn [negb andb]; [|by eapply Hskip].
  destruct (exhausted _ e); cbn [negb].
  - destruct (select p es _ _ _ _) as [s f] eqn:Hs. intros [= <- <-]. by eapply Hskip.
  - destruct (select p es _ _ _ _) as [s f] eqn:Hs. intros [= <- <-].
    destruct (plan_max p - ch)%nat as [|n] eqn:Hn; [lia|]. cbn. constructor; [apply entry_at_head|].
    replace n with (plan_max p - S ch)%nat by lia. by eapply Hskip.
Qed.

(** ** Admission of a batch *)

(** What is not acknowledged and [ms] fit together. *)
Definition room (s : SubscriptionState) (ms : list Shared) : Prop :=
  Z.of_nat (length (filter unacked (entries s))) + Z.of_nat (length ms) <= MAX_RETAINED_PER_SUB /\
  total_bytes (filter unacked (entries s)) + shared_bytes ms <= MAX_RETAINED_BYTES_PER_SUB.

Lemma shared_bytes_cons m ms : shared_bytes (m :: ms) = message_bytes (value m) + shared_bytes ms.
Proof. done. Qed.

Lemma shared_bytes_nonneg ms : 0 <= shared_bytes ms.
Proof.
  induction ms as [|m ms IH]; [done|]. rewrite shared_bytes_cons. pose proof (message_bytes_bounds (value m)) as [Hb _].
  change (int_min usize) with 0 in Hb. lia.
Qed.

Lemma count_batch_spec ms : forall count bytes n b, count_batch (map value ms) count bytes = Some (n, b) ->
  n = count + Z.of_nat (length ms) /\ b = bytes + shared_bytes ms.
Proof.
  induction ms as [|m ms IH]; intros count bytes n b; cbn [count_batch map].
  - intros [= <- <-]. change (shared_bytes []) with 0. cbn. lia.
  - destruct (checked usize (count + 1)) as [c|] eqn:Hc; [|done]. cbn [mbind option_bind].
    destruct (checked usize (bytes + _)) as [d|] eqn:Hd; [|done]. cbn [mbind option_bind].
    apply checked_Some in Hc as [-> _]. apply checked_Some in Hd as [-> _]. intros [-> ->]%IH. rewrite shared_bytes_cons. cbn [length]. lia.
Qed.

Lemma capacity_fits_true n b count bytes : capacity_fits n b count bytes = true ->
  count + n <= MAX_RETAINED_PER_SUB /\ bytes + b <= MAX_RETAINED_BYTES_PER_SUB.
Proof.
  unfold capacity_fits. destruct (checked usize (count + n)) as [x|] eqn:Hx; [|done]. destruct (checked usize (bytes + b)) as [y|] eqn:Hy; [|done].
  apply checked_Some in Hx as [-> _]. apply checked_Some in Hy as [-> _]. intros [H1%Z.leb_le H2%Z.leb_le]%andb_prop. done.
Qed.

Lemma saturating_sum es : forall acc, 0 <= acc -> acc + total_bytes es <= MAX_RETAINED_BYTES_PER_SUB ->
  fold_left (fun bytes e => saturating usize (bytes + entry_bytes e)) es acc = acc + total_bytes es.
Proof.
  induction es as [|e es IH]; intros acc Ha Hm; [change (total_bytes []) with 0; cbn; lia|].
  change (total_bytes (e :: es)) with (entry_bytes e + total_bytes es) in *. pose proof (total_bytes_nonneg es) as Hp.
  pose proof (message_bytes_bounds (value (stored e))) as [Hb _]. change (int_min usize) with 0 in Hb. fold (entry_bytes e) in Hb.
  cbn [fold_left]. rewrite (saturating_id usize (acc + entry_bytes e)) by (apply max_bytes_fits; lia). rewrite IH by lia. lia.
Qed.

Lemma capacity_room s ms : sub_wf s -> ensure_enqueue_capacity s (map value ms) = Ok tt -> room s ms.
Proof.
  intros [[_ _ Hb Hm Hn _] _]. unfold ensure_enqueue_capacity, room. destruct (count_batch _ 0 0) as [[n b]|] eqn:Hc; [|done].
  apply count_batch_spec in Hc as [-> ->]. rewrite !Z.add_0_l. destruct (acked_split (entries s)) as [Hsb Hsl].
  set (acked := filter (fun e => is_acked (state e)) (entries s)) in *.
  pose proof (total_bytes_nonneg (filter unacked (entries s))). pose proof (total_bytes_nonneg acked).
  destruct (capacity_fits _ _ (Z.of_nat _) _) eqn:Hf; [apply capacity_fits_true in Hf as [? ?]; intros _; lia|].
  rewrite saturating_sum by lia. rewrite (saturating_id usize (Z.of_nat (length acked))) by (unfold MAX_RETAINED_PER_SUB in *; int_lia).
  rewrite (saturating_id usize (Z.of_nat _ - _)) by (unfold MAX_RETAINED_PER_SUB in *; int_lia).
  rewrite (saturating_id usize (retained_bytes s - _)) by (apply max_bytes_fits; lia).
  clear Hf. destruct (capacity_fits _ _ _ _) eqn:Hf; [|done]. apply capacity_fits_true in Hf as [? ?]. intros _. lia.
Qed.

Lemma filter_unacked_twice (es : list Entry) : filter unacked (filter unacked es) = filter unacked es.
Proof.
  induction es as [|e es IH]; [done|]. rewrite filter_cons. destruct (decide (unacked e)); [|done].
  by rewrite filter_cons, decide_True, IH.
Qed.

Lemma all_unacked (es : list Entry) : existsb (fun e => is_acked (state e)) es = false -> filter unacked es = es.
Proof.
  induction es as [|e es IH]; [done|]. cbn [existsb]. intros [He Hes]%orb_false_iff. rewrite filter_cons, decide_True by done. by rewrite IH.
Qed.

Lemma enqueue_room s m ms now : sub_wf s -> room s (m :: ms) -> exists s', enqueue s m now = (Ok tt, s') /\ sub_wf s' /\ room s' ms /\
  filter unacked (entries s') = filter unacked (entries s) ++ [new_entry now m].
Proof.
  intros Hs [Hn Hb]. rewrite shared_bytes_cons in Hb. cbn [length] in Hn. pose proof (shared_bytes_nonneg ms) as Hms. unfold enqueue.
  set (s1 := if _ && _ then _ else _).
  assert (H1 : sub_wf s1 /\ filter unacked (entries s1) = filter unacked (entries s) /\ exceeds_entries s1 = false /\
               exceeds_bytes s1 (message_bytes (value m)) = false).
  { assert (Hfit : forall s2, sub_wf s2 -> entries s2 = filter unacked (entries s) -> exceeds_entries s2 = false /\ exceeds_bytes s2 (message_bytes (value m)) = false).
    { intros s2 [[_ _ Hb2 _ _ _] _] He. unfold exceeds_entries, exceeds_bytes. rewrite Hb2, He. split; [apply Z.leb_gt; lia|].
      pose proof (message_bytes_bounds (value m)) as [Hmb _]. change (int_min usize) with 0 in Hmb.
      pose proof (total_bytes_nonneg (filter unacked (entries s))).
      rewrite (proj2 (checked_Some _ _ _)) by (split; [reflexivity|apply max_bytes_fits; lia]). apply Z.ltb_ge. lia. }
    subst s1. destruct (exceeds_entries s || exceeds_bytes s _) eqn:Hx; cbn [andb].
    - destruct (existsb _ _) eqn:Ha.
      + pose proof (wf_reclaim s (wf_lax _ Hs)) as Hr. split; [done|]. split; [apply filter_unacked_twice|]. by apply Hfit.
      + rewrite (all_unacked _ Ha) in *. destruct (Hfit s Hs); [done|]. split_and!; done.
    - apply orb_false_iff in Hx as [? ?]. split_and!; done. }
  destruct H1 as (Hwf & Hf & He & Hbytes). rewrite He, Hbytes. eexists. split; [done|].
  assert (Hlog : filter unacked (entries (push_entry m now s1)) = filter unacked (entries s) ++ [new_entry now m]).
  { cbn [entries push_entry]. rewrite filter_app, Hf. done. }
  split; [by apply wf_push|]. split; [|done]. split; rewrite Hlog.
  - rewrite length_app. cbn. lia.
  - rewrite total_bytes_app. unfold total_bytes at 2, entry_bytes. cbn. lia.
Qed.

(** The publication of a batch to one subscription. *)
Fixpoint enqueue_all (ms : list Shared) (now : LogicalInstant) (s : SubscriptionState) : result unit PubSubError * SubscriptionState :=
  match ms with
  | [] => (Ok tt, s)
  | m :: ms => match enqueue s m now with (Ok _, s) => enqueue_all ms now s | (Err e, s) => (Err e, s) end
  end.

Lemma enqueue_all_room now ms : forall s, sub_wf s -> room s ms -> exists s', enqueue_all ms now s = (Ok tt, s') /\ sub_wf s' /\
  filter unacked (entries s') = filter unacked (entries s) ++ map (new_entry now) ms.
Proof.
  induction ms as [|m ms IH]; intros s Hs Hr; [exists s; by rewrite app_nil_r|]. cbn.
  destruct (enqueue_room s m ms now Hs Hr) as (s1 & -> & H1 & Hr1 & Hl1). destruct (IH s1 H1 Hr1) as (s2 & -> & H2 & Hl2).
  exists s2. split_and!; [done|done|]. rewrite Hl2, Hl1, <- app_assoc. done.
Qed.

(** ** Properties *)

(** In every state a subscription can reach — configuration changes, enqueues, expiry, pulls with or without
    forwarding authority, acknowledgements, deadline changes, forwarding, seeks, in any order — the first
    unacknowledged index, the table of leases and the retained bytes are those of the log, the log is within
    its limits, and no method panics: every one returns. *)
Theorem subscription_invariant c s : sub_reachable c s ->
  sub_wf s /\ forall op, op_ok op s -> is_Some (perform op s).
Proof.
  intros Hs%sub_reachable_wf. split; [done|]. intros op Hop. destruct (perform_wf op s Hs Hop) as (s' & -> & _). by exists s'.
Qed.

(** C26. Ordering: when a pull of an ordered subscription delivers a message, every unacknowledged message before
    it in the log with the same non-empty key is delivered by the same pull, earlier in the response. *)
Theorem ordered_pull_in_order s max now authorized batching next_ack_id admission out s' n (r : ReceivedMessage) (i j : nat) (e e' : Entry) :
  sub_wf s -> fresh_ids max next_ack_id s -> enable_message_ordering (config s) = true ->
  pull_with_admission s max now authorized batching next_ack_id admission = Some (out, s') ->
  received out !! n = Some r -> outstanding s' !! received_ack_id r = Some i -> entries s !! i = Some e -> entry_key e <> [] ->
  entries s !! j = Some e' -> entry_key e' = entry_key e -> is_acked (state e') = false -> (j < i)%nat ->
  exists m r', (m < n)%nat /\ received out !! m = Some r' /\ received_message r' = stored e'.
Proof.
  intros Hs Hf Hord Hpull Hr Hi He Hk He' Heq Ha Hji.
  destruct (pull_spec s max now authorized batching next_ack_id admission Hs Hf) as (out0 & s0' & Hpull' & Hwf & Hcase).
  rewrite Hpull in Hpull'. injection Hpull' as <- <-. destruct Hcase as [(-> & _)|(plan & sel & fwd & Hplan & _ & Hsel & D)]; [done|].
  set (s0 := pull_start authorized now s) in *. assert (H0 : sub_wf s0) by by apply pull_start_wf.
  assert (Hc0 : config s0 = config s) by (by subst s0; destruct authorized).
  destruct (plan_pull_wf s0 max now authorized batching H0) as (plan' & Hplan' & Hc & _). rewrite Hplan in Hplan'. injection Hplan' as <-.
  destruct (pull_start_lookup authorized now s i e He) as (x & Hx & Hsx & _).
  destruct (pull_start_lookup authorized now s j e' He') as (x' & Hx' & Hsx' & Hax' & _). fold s0 in Hx, Hx'.
  pose proof (lease_of_received _ _ _ _ _ _ _ _ _ _ Hwf D Hr Hi) as Hin. rewrite Ha in Hax'.
  pose proof (unacked_beyond s0 j x' H0 Hx' Hax') as Hfj.
  assert (Hj : j ∈ sel).
  { eapply (select_in_order plan _ _ _ _ _ _ _ j i x' x Hsel); try done.
    - by apply drop_entry_at.
    - apply drop_entry_at; [lia|done].
    - by rewrite Hc, Hc0.
    - unfold entry_key. by rewrite Hsx.
    - unfold entry_key in *. congruence.
    - by eapply list_elem_of_lookup_2. }
  apply list_elem_of_lookup_1 in Hj as [m Hm]. destruct (select_spec _ _ _ _ _ _ _ _ Hsel) as [[Hsorted _] _].
  exists m, (receipt (next_ack_id m) x'). split; [by eapply sorted_lookup|]. split; [|done].
  apply D. by exists j, x'.
Qed.

(** C27. Redelivery: an unacknowledged message that is the oldest of its key comes back. Once its lease has run out
    by [t1] and the longest backoff has passed by [t2], the next pull that is as large as the log delivers it, or
    hands it to the dead-letter topic when its attempts are spent. *)
Theorem unacked_delivered_again s (i : nat) (e : Entry) ack_id deadline t1 t2 max next_ack_id :
  sub_wf s -> config_validate (config s) = Ok tt -> 0 <= push_minimum_redelivery_interval s ->
  entries s !! i = Some e -> state e = Outstanding ack_id deadline -> deadline <= t1 ->
  t1 + Z.max (dur_from_seconds MAX_RETRY_BACKOFF_SECONDS) (push_minimum_redelivery_interval s) <= t2 ->
  key_head (config s) (entries s) 0 i e -> (length (entries s) <= max)%nat ->
  (forall s1, expire_deadlines s t1 = Some s1 -> fresh_ids max next_ack_id s1) ->
  exists s1 out s2, expire_deadlines s t1 = Some s1 /\ pull s1 max t2 next_ack_id = Some (out, s2) /\
    (stored e ∈ map received_message (received out) \/ stored e ∈ dead_lettered out).
Proof.
  intros Hs Hcfg Hp He Hd Hdl Ht Hhead Hmax Hfresh.
  destruct (expire_spec s t1 Hs) as (s1 & Hx & H1 & Hc1 & _ & Hes). specialize (Hfresh s1 Hx).
  assert (He1 : entries s1 !! i = Some (redeliver e (back_at s e t1))).
  { rewrite Hes. change (map ?f ?l) with (f <$> l). rewrite list_lookup_fmap, He. cbn. by rewrite Hd, (proj2 (Z.leb_le deadline t1)). }
  assert (Hback : back_at s e t1 <= t2).
  { pose proof (redelivery_backoff_le (config s) (delivery_attempt e) _ Hcfg Hp). unfold back_at, inst_checked_add, checked.
    assert (0 <= dur_from_seconds MAX_RETRY_BACKOFF_SECONDS) by done. case_decide; cbn; lia. }
  assert (Hlen : length (entries s1) = length (entries s)) by (by rewrite Hes, length_map).
  destruct (pull_spec s1 max t2 true Mixed next_ack_id (fun _ => true) H1 Hfresh) as (out & s2 & Hpull & _ & Hcase).
  exists s1, out, s2. split; [done|]. split; [done|]. cbn in Hcase.
  assert (Hil : (i < length (entries s))%nat) by by eapply lookup_lt_Some.
  destruct Hcase as [(_ & _ & [?|(? & ? & ? & ? & _ & _ & _ & _ & ?)])|(plan & sel & fwd & Hplan & _ & Hsel & D)]; [lia|done|].
  destruct (plan_pull_wf s1 max t2 true Mixed H1) as (plan' & Hplan' & Hpc & Hpm & Hpn & _ & Hpu). rewrite Hplan in Hplan'. injection Hplan' as <-.
  destruct (select_progress plan _ _ _ _ _ _ _ i (redeliver e (back_at s e t1)) Hsel) as [Hi|Hi].
  - apply drop_entry_at; [|done]. by eapply unacked_beyond.
  - done.
  - destruct (unkeyed_only plan); [|done]. by destruct (Hpu eq_refl).
  - cbn. rewrite Hpn. by apply Z.leb_le.
  - rewrite Hpc, Hc1. intros Hh j' e' Hj' Hlt Hke. apply entry_at_drop in Hj'. rewrite Hes in Hj'. change (map ?f ?l) with (f <$> l) in Hj'.
    rewrite list_lookup_fmap in Hj'. apply fmap_Some in Hj' as (x & Hx' & ->).
    assert (Hsx : is_acked (state x) = true).
    { apply (Hhead Hh j' x); [split; [lia|by rewrite Nat.sub_0_r]|done|].
      destruct (state x); try done. unfold entry_key in *. by destruct (_ <=? t1). }
    destruct (state x) eqn:Hst; try done. by rewrite Hst.
  - intros _. split; apply not_elem_of_empty.
  - rewrite length_drop, Hpm. lia.
  - left. apply list_elem_of_lookup_1 in Hi as [n Hn]. change (map ?f ?l) with (f <$> l). apply list_elem_of_fmap.
    exists (receipt (next_ack_id n) (redeliver e (back_at s e t1))). split; [done|]. apply (list_elem_of_lookup_2 _ n), D. by exists i, (redeliver e (back_at s e t1)).
  - right. apply D. by exists i, (redeliver e (back_at s e t1)).
Qed.

Lemma filter_none {A} (P : A -> bool) l : (forall x, x ∈ l -> P x = false) -> filter (fun x => P x) l = [].
Proof.
  induction l as [|x l IH]; intros H; [done|]. rewrite filter_bool_cons, (H x) by by constructor. apply IH. intros y Hy. apply H. by right.
Qed.

Lemma deliverable_beyond s now limit : sub_wf s ->
  filter (fun e => deliverable now limit e) (drop (first_unacked s) (entries s)) = filter (fun e => deliverable now limit e) (entries s).
Proof.
  intros [_ Hf]. rewrite <- (take_drop (first_unacked s) (entries s)) at 2. rewrite filter_app, (filter_none _ (take (first_unacked s) (entries s))); [done|].
  intros e (i & Hi & Hlt)%elem_of_take. rewrite Hf in Hlt. pose proof (proj1 (leading_spec (entries s)) i e Hi Hlt) as Ha.
  unfold deliverable, is_available. by destruct (state e).
Qed.

Lemma Forall2_map_eq {A B C} (P : A -> B -> Prop) (f : A -> C) (g : B -> C) l k :
  Forall2 P l k -> (forall x y, P x y -> f x = g y) -> map f l = map g k.
Proof. intros H Hf. induction H as [|x y l k Hxy _ IH]; [done|]. cbn. f_equal; [by apply Hf|done]. Qed.

(** A pull of an unordered subscription delivers exactly the first [max] entries of the log, in publication
    order, that are available by [now] and below the dead-letter limit, with the identifiers drawn in order; each
    is then leased under its identifier until the acknowledgement deadline, one attempt further. *)
Theorem unordered_pull_exact s max now authorized batching next_ack_id :
  sub_wf s -> fresh_ids max next_ack_id s -> enable_message_ordering (config s) = false ->
  let s0 := pull_start authorized now s in
  let limit := if authorized then max_delivery_attempts <$> dead_letter_policy (config s) else None in
  exists out s', pull_with_forwarding s max now authorized batching next_ack_id = Some (out, s') /\
    map received_message (received out) = map stored (take max (filter (fun e => deliverable now limit e) (entries s0))) /\
    forall n r, received out !! n = Some r -> received_ack_id r = next_ack_id n /\
      exists i e, entries s0 !! i = Some e /\ stored e = received_message r /\
        entries s' !! i = Some (leased (pull_deadline now s) (next_ack_id n) e).
Proof.
  intros Hs Hf Hord s0 limit. assert (H0 : sub_wf s0) by by apply pull_start_wf.
  assert (Hc0 : config s0 = config s) by (by subst s0; destruct authorized).
  destruct (pull_spec s max now authorized batching next_ack_id (fun _ => true) Hs Hf) as (out & s' & Hpull & _ & Hcase).
  exists out, s'. split; [done|]. cbv zeta in Hcase. fold s0 in Hcase.
  destruct Hcase as [(-> & _ & [-> |(? & ? & ? & ? & _ & _ & _ & _ & ?)])|(plan & sel & fwd & Hplan & _ & Hsel & D)]; [done|done|].
  destruct (plan_pull_wf s0 max now authorized batching H0) as (plan' & Hplan' & Hpc & Hpm & Hpn & Hpa & Hpu). rewrite Hplan in Hplan'. injection Hplan' as <-.
  assert (Hun : unkeyed_only plan = false).
  { destruct (unkeyed_only plan); [|done]. destruct (Hpu eq_refl) as [H _]. congruence. }
  assert (Hpo : enable_message_ordering (plan_config plan) = false) by congruence.
  pose proof (select_unordered plan _ Hpo Hun _ _ _ _ _ _ Hsel) as Hall. rewrite Hpm, Hpn, Hpa, Nat.sub_0_r, Hc0, deliverable_beyond in Hall by done.
  fold limit in Hall. split.
  - assert (Hrec : Forall2 (fun r j => exists e, entries s0 !! j = Some e /\ received_message r = stored e) (received out) sel).
    { apply Forall2_same_length_lookup. split.
      - apply Nat.le_antisymm; apply Nat.nlt_ge; intros Hlt.
        + destruct (lookup_lt_is_Some_2 (received out) _ Hlt) as [r Hr]. apply D in Hr as (j & e & Hj & _).
          apply lookup_lt_Some in Hj. lia.
        + destruct (lookup_lt_is_Some_2 sel _ Hlt) as [j Hj]. destruct (delivered_leased _ _ _ _ _ _ _ D _ _ Hj) as (e & He & _).
          assert (Hr : received out !! length (received out) = Some (receipt (next_ack_id (length (received out))) e)) by (apply D; by exists j, e).
          apply lookup_lt_Some in Hr. lia.
      - intros n r j Hr Hj. apply D in Hr as (j' & e & Hj' & He & ->). exists e. split; [congruence|done]. }
    assert (Hboth : Forall2 (fun r e => received_message r = stored e) (received out)
                      (take max (filter (fun e => deliverable now limit e) (entries s0)))).
    { eapply Forall2_trans; [|exact Hrec|exact Hall]. intros r j e (x & Hx & ->) He. apply entry_at_drop in He. congruence. }
    eapply Forall2_map_eq; [exact Hboth|done].
  - intros n r Hr. apply D in Hr as (j & e & Hj & He & ->). split; [done|]. exists j, e. split_and!; [done|done|].
    destruct (delivered_leased _ _ _ _ _ _ _ D n j Hj) as (e' & He' & Hl). unfold pull_deadline in Hl |- *. rewrite Hc0 in Hl. congruence.
Qed.

(** Acknowledging ends exactly the leases that are named: their entries become acknowledged and their
    identifiers go, every other entry and lease stays, unknown, repeated and stale identifiers do nothing, and the
    count returned is the number of leases ended. *)
Theorem acknowledge_exact s ids : sub_wf s -> exists n s', acknowledge s ids = Some (n, s') /\
  (forall i, entries s' !! i = (fun e => match state e with
                                       | Outstanding ack_id _ => if decide (ack_id ∈ ids) then with_state Acked e else e
                                       | _ => e
                                       end) <$> entries s !! i) /\
  outstanding s' = filter (fun p => p.1 ∉ ids) (outstanding s) /\
  n = Z.of_nat (size (outstanding s)) - Z.of_nat (size (outstanding s')).
Proof.
  intros Hs. destruct (acknowledge_spec s ids Hs) as (n & s' & Ha & He & Ho & Hn). exists n, s'. split_and!; try done.
  intros i. rewrite He. change (map ?f ?l) with (f <$> l). apply list_lookup_fmap.
Qed.

(** With forwarding authority, a pull never delivers a message more often than the dead-letter policy allows, and
    what it hands to the dead-letter topic has used up its attempts and is reserved until the transfer completes. *)
Theorem attempts_bounded s max now batching next_ack_id admission out s' policy :
  sub_wf s -> fresh_ids max next_ack_id s -> config_validate (config s) = Ok tt -> dead_letter_policy (config s) = Some policy ->
  pull_with_admission s max now true batching next_ack_id admission = Some (out, s') ->
  Forall (fun r => 1 <= received_attempt r <= max_delivery_attempts policy) (received out) /\
  forall m, m ∈ dead_lettered out -> exists i e, entries s !! i = Some e /\ m = stored e /\
    max_delivery_attempts policy <= delivery_attempt e /\ entries s' !! i = Some (with_state ForwardPending e).
Proof.
  intros Hs Hf Hcfg Hp Hpull. destruct (pull_spec s max now true batching next_ack_id admission Hs Hf) as (out0 & s0' & Hpull' & _ & Hcase).
  rewrite Hpull in Hpull'. injection Hpull' as <- <-. cbn in Hcase.
  destruct Hcase as [(-> & _)|(plan & sel & fwd & Hplan & _ & Hsel & D)]; [split; [constructor|by intros m ?%not_elem_of_nil]|].
  destruct (plan_pull_wf s max now true batching Hs) as (plan' & Hplan' & _ & _ & _ & Hpa & _). rewrite Hplan in Hplan'. injection Hplan' as <-.
  rewrite Hp in Hpa. cbn in Hpa.
  assert (Hmax : max_delivery_attempts policy <= MAX_DEAD_LETTER_ATTEMPTS).
  { unfold config_validate in Hcfg. destruct (_ || _); [done|]. destruct (if_some (message_retention_duration _) _); [|done].
    rewrite Hp in Hcfg. cbn in Hcfg. unfold validate_dead_letter in Hcfg. destruct (_ <? MIN_DEAD_LETTER_ATTEMPTS); [done|].
    destruct (Z.ltb_spec MAX_DEAD_LETTER_ATTEMPTS (max_delivery_attempts policy)); [done|lia]. }
  unfold MAX_DEAD_LETTER_ATTEMPTS in Hmax. destruct (select_spec _ _ _ _ _ _ _ _ Hsel) as [[_ Hsels]%chosen_in_log [_ Hfwds]%chosen_in_log]. split.
  - apply Forall_forall. intros r [n Hr]%list_elem_of_lookup_1. apply D in Hr as (j & e & Hj & He & ->). cbn.
    destruct (Hsels j) as (x & Hx & _ & _ & _ & Hex); [by eapply list_elem_of_lookup_2|]. assert (x = e) as -> by congruence.
    unfold exhausted in Hex. rewrite Hpa in Hex. apply Z.leb_gt in Hex. pose proof (attempt_at s j e (wf_lax _ Hs) He).
    rewrite wrapping_id by int_lia. int_lia.
  - intros m Hm. apply D in Hm as (j & e & Hj & He & ->). exists j, e. split_and!; try done.
    + destruct (Hfwds j Hj) as (x & Hx & _ & _ & _ & Hex). assert (x = e) as -> by congruence. unfold exhausted in Hex. rewrite Hpa in Hex. by apply Z.leb_le.
    + destruct (delivered_forwarded _ _ _ _ _ _ _ D j Hj) as (x & Hx & Hx'). congruence.
Qed.

(** A batch that [ensure_enqueue_capacity] admits is stored whole: every [enqueue] of it succeeds, reclaiming
    acknowledged entries where it must, and the unacknowledged log grows by the batch in order. *)
Theorem admitted_batch_is_stored s ms now : sub_wf s -> ensure_enqueue_capacity s (map value ms) = Ok tt ->
  exists s', enqueue_all ms now s = (Ok tt, s') /\ sub_wf s' /\
    filter unacked (entries s') = filter unacked (entries s) ++ map (new_entry now) ms.
Proof. intros Hs Hc. by apply enqueue_all_room, capacity_room. Qed.

(** For a valid retry policy the backoff of the [n]th attempt is the minimum doubled [n - 1] times, up to the
    maximum; the cap on the doubling steps never shows. *)
Theorem redelivery_backoff_exact c policy attempt push : config_validate c = Ok tt -> retry_policy c = Some policy ->
  1 <= attempt <= int_max u32 ->
  redelivery_backoff c attempt push = Z.min (minimum_backoff policy * 2 ^ (attempt - 1)) (maximum_backoff policy).
Proof.
  intros Hc Hr Ha. destruct (config_retry_bounds c policy Hc Hr) as [Hb Hmax]. unfold redelivery_backoff. rewrite Hr.
  pose proof (Z.pow_pos_nonneg 2 (attempt - 1)) as Hpow.
  destruct (Z.eqb_spec (minimum_backoff policy) 0) as [->|Hmin]; [cbn [orb]; lia|]. cbn [orb].
  destruct (Z.eqb_spec (maximum_backoff policy) 0) as [H0|_]; [nia|].
  change (dur_from_seconds MAX_RETRY_BACKOFF_SECONDS) with 600000000000 in Hmax.
  rewrite saturating_id by int_lia. rewrite double_backoff_exact by (try int_lia; lia). rewrite Z2Nat.id by lia.
  destruct (Z.le_gt_cases (attempt - 1) 127) as [Hle|Hgt]; [by rewrite (Z.min_l (attempt - 1) 127) by done|]. rewrite (Z.min_r (attempt - 1) 127) by lia.
  assert (2 ^ 127 <= 2 ^ (attempt - 1)) by (apply Z.pow_le_mono_r; lia). assert (600000000000 <= 2 ^ 127) by done.
  generalize dependent (2 ^ 127). generalize dependent (2 ^ (attempt - 1)). intros x ? y ? ?. rewrite !Z.min_r by nia. done.
Qed.

(** ** Snapshots *)

(** The log has room for what the snapshot restores. *)
Definition snapshot_fits (s : SubscriptionState) (missing : list Shared) : Prop :=
  Z.of_nat (length (entries s)) + Z.of_nat (length missing) <= MAX_RETAINED_PER_SUB /\
  retained_bytes s + shared_bytes missing <= MAX_RETAINED_BYTES_PER_SUB.

Lemma snapshot_base_fits s missing : snapshot_fits s missing -> snapshot_base s missing = Some s.
Proof.
  intros [H1 H2]. unfold snapshot_base. set (over := _ || _) at 1. assert (over = false) as ->; [|done].
  apply orb_false_iff. split; by apply Z.ltb_ge.
Qed.

Lemma elem_of_restored (es : list Entry) (missing : list Shared) (now : LogicalInstant) (n : nat) (e : Entry) :
  e ∈ take n es ++ map (new_entry now) missing ++ drop n es <-> e ∈ es \/ exists m, m ∈ missing /\ e = new_entry now m.
Proof.
  change (map ?f ?l) with (f <$> l). rewrite !elem_of_app, list_elem_of_fmap. rewrite <- (take_drop n es) at 3. rewrite elem_of_app. naive_solver.
Qed.

(** The state a snapshot seek gives every entry of the log. *)
Lemma snapshot_log_states (es : list Entry) (missing : list Shared) (retained_ids unacked_ids : gset text) (created_at now : LogicalInstant) (e : Entry) :
  e ∈ snapshot_log es missing retained_ids unacked_ids created_at now <->
  exists x, (x ∈ es \/ exists m, m ∈ missing /\ x = new_entry now m) /\
    e = if decide (entry_id x ∈ unacked_ids \/ newer retained_ids created_at x) then replayed now x else with_state Acked x.
Proof.
  unfold snapshot_log. change (map ?f (_ ++ _)) with (f <$> (take (match list_find (newer retained_ids created_at) es with Some (i, _) => i | None => length es end) es ++ map (new_entry now) missing ++ drop (match list_find (newer retained_ids created_at) es with Some (i, _) => i | None => length es end) es)).
  rewrite list_elem_of_fmap. setoid_rewrite elem_of_restored. naive_solver.
Qed.

Lemma missing_not_retained s captured retained_ids (m : Shared) : m ∈ missing_messages s captured retained_ids <->
  m ∈ captured /\ message_id (value m) ∈ retained_ids /\ (message_id (value m) ∉ retained_message_ids s) /\
  admits s (attributes (message (value m))) = true.
Proof. unfold missing_messages. rewrite list_elem_of_filter. naive_solver. Qed.

Lemma elem_of_retained s (k : text) : k ∈ retained_message_ids s <-> exists e, e ∈ entries s /\ entry_id e = k.
Proof.
  unfold retained_message_ids. rewrite elem_of_list_to_set. change (map ?f ?l) with (f <$> l). rewrite list_elem_of_fmap. naive_solver.
Qed.

Lemma elem_of_unacknowledged s (k : text) :
  k ∈ unacknowledged_message_ids s <-> exists e, e ∈ entries s /\ is_acked (state e) = false /\ entry_id e = k.
Proof.
  unfold unacknowledged_message_ids. rewrite elem_of_list_to_set. change (map ?f ?l) with (f <$> l). rewrite list_elem_of_fmap.
  setoid_rewrite list_elem_of_filter. unfold unacked. naive_solver.
Qed.

(** A snapshot seek that fits beside the retained log restores the snapshot: the log keeps its messages and gains
    the captured ones it had lost, every message the snapshot holds unacknowledged (or published after it) is
    available again from its first attempt, and every other one is acknowledged. *)
Theorem seek_to_snapshot_restores (s : SubscriptionState) (captured : list Shared) (retained_ids unacked_ids : gset text) (created_at now : LogicalInstant) :
  sub_wf s -> fits usize (shared_bytes captured) -> snapshot_fits s (missing_messages s captured retained_ids) ->
  exists s', seek_to_snapshot s captured retained_ids unacked_ids created_at now = (Ok tt, s') /\
    (forall k : text, k ∈ retained_message_ids s' <->
       k ∈ retained_message_ids s \/ exists m, m ∈ missing_messages s captured retained_ids /\ message_id (value m) = k) /\
    (forall e : Entry, e ∈ entries s' ->
       if decide (entry_id e ∈ unacked_ids \/ newer retained_ids created_at e)
       then state e = Available now /\ delivery_attempt e = 0 else state e = Acked) /\
    (forall m : Shared, m ∈ captured -> message_id (value m) ∈ retained_ids -> message_id (value m) ∈ unacked_ids ->
       admits s (attributes (message (value m))) = true -> message_id (value m) ∈ unacknowledged_message_ids s').
Proof.
  intros Hs Hc Hfit. eexists. split; [rewrite seek_to_snapshot_spec, snapshot_base_fits by done; reflexivity|].
  set (s' := rebuild_indexes _). set (missing := missing_messages s captured retained_ids) in *.
  assert (He : forall e : Entry, e ∈ entries s' <-> exists x, (x ∈ entries s \/ exists m, m ∈ missing /\ x = new_entry now m) /\
    e = if decide (entry_id x ∈ unacked_ids \/ newer retained_ids created_at x) then replayed now x else with_state Acked x).
  { intros e. subst s'. cbn [rebuild_indexes set_entries entries]. apply snapshot_log_states. }
  assert (Hid : forall x : Entry, entry_id (if decide (entry_id x ∈ unacked_ids \/ newer retained_ids created_at x) then replayed now x else with_state Acked x) = entry_id x).
  { intros x. by destruct (decide _). }
  split_and!.
  - intros k. rewrite !elem_of_retained. split.
    + intros (e & (x & [Hx|(m & Hm & ->)] & ->)%He & <-); rewrite Hid; [left; by exists x|right; by exists m].
    + intros Hk. assert (Hx : exists x, (x ∈ entries s \/ exists m, m ∈ missing /\ x = new_entry now m) /\ entry_id x = k).
      { destruct Hk as [(x & Hx & <-)|(m & Hm & <-)]; [exists x|exists (new_entry now m)]; (split; [|done]); [by left|right; by exists m]. }
      destruct Hx as (x & Hx & <-). eexists. split; [apply He; by exists x|apply Hid].
  - intros e (x & _ & ->)%He. destruct (decide (entry_id x ∈ unacked_ids \/ newer retained_ids created_at x)) as [H|H].
    + by rewrite decide_True.
    + by rewrite decide_False.
  - intros m Hm Hret Hun Hadm. apply elem_of_unacknowledged.
    assert (Hin : exists x, (x ∈ entries s \/ exists m, m ∈ missing /\ x = new_entry now m) /\ entry_id x = message_id (value m)).
    { destruct (decide (message_id (value m) ∈ retained_message_ids s)) as [(x & Hx & Hid')%elem_of_retained|Hn].
      - exists x. split; [by left|done].
      - exists (new_entry now m). split; [|done]. right. exists m. split; [|done]. by apply missing_not_retained. }
    destruct Hin as (x & Hx & Hidx). exists (replayed now x). split_and!; [|done|done]. apply He. exists x. split; [done|].
    rewrite decide_True; [done|]. left. by rewrite Hidx.
Qed.

(** When the log has to reclaim its acknowledged entries to make room, a message the snapshot holds unacknowledged
    and the subscription acknowledged since is lost: the captured messages to restore were chosen before. *)
Theorem snapshot_seek_loses_message (s : SubscriptionState) (captured : list Shared) (retained_ids unacked_ids : gset text) (created_at now : LogicalInstant) (s' : SubscriptionState) (x : Entry) :
  sub_wf s -> fits usize (shared_bytes captured) ->
  snapshot_base s (missing_messages s captured retained_ids) = Some (reclaim_acked_entries s) ->
  seek_to_snapshot s captured retained_ids unacked_ids created_at now = (Ok tt, s') ->
  x ∈ entries s -> (forall y, y ∈ entries s -> entry_id y = entry_id x -> is_acked (state y) = true) ->
  entry_id x ∉ retained_message_ids s'.
Proof.
  intros Hs Hc Hbase Hseek Hx Hall. rewrite seek_to_snapshot_spec, Hbase in Hseek by done. injection Hseek as <-.
  rewrite elem_of_retained. cbn [entries rebuild_indexes set_entries]. intros (e & (y & Hy & ->)%snapshot_log_states & Hid).
  assert (Hyx : entry_id y = entry_id x) by (by destruct (decide _)). destruct Hy as [Hy|(m & Hm & ->)].
  - cbn in Hy. apply list_elem_of_filter in Hy as [Hun Hy]. unfold unacked in Hun. specialize (Hall y Hy Hyx). congruence.
  - apply missing_not_retained in Hm as (_ & _ & Hn & _). apply Hn. rewrite elem_of_retained. by exists x.
Qed.

(** ** Concrete runs *)

Definition demo_config (ordered : bool) : SubscriptionConfig :=
  {| name := {| sub_project := chars "demo"; subscription := chars "sub-one" |};
     config_topic := {| topic_project := chars "demo"; topic := chars "topic-one" |};
     ack_deadline_seconds := 10; labels := ∅; expiration_policy := None; retain_acked_messages := false;
     message_retention_duration := None; enable_message_ordering := ordered; filter_ := always;
     dead_letter_policy := Some {| dead_letter_topic := {| topic_project := chars "demo"; topic := chars "dead" |}; max_delivery_attempts := 5 |};
     retry_policy := Some {| minimum_backoff := dur_from_seconds 10; maximum_backoff := dur_from_seconds 60 |};
     push_config := {| push_endpoint := []; push_attributes := ∅ |} |}.

Definition demo_message (n : Z) : Shared :=
  {| address := n;
     value := {| message_id := [48 + n]; publish_time := n;
                 message := {| data := [n]; attributes := ∅; ordering_key := chars "k" |} |} |}.

Definition demo_ids (n : nat) : text := [Z.of_nat n].

Definition demo_state (ordered : bool) : SubscriptionState :=
  (enqueue_all [demo_message 1; demo_message 2] 5 (sub_new (demo_config ordered))).2.

Lemma demo_reachable ordered : sub_reachable (demo_config ordered) (demo_state ordered).
Proof.
  apply (reach_step _ (SopEnqueue (demo_message 2) 5) (enqueue (sub_new (demo_config ordered)) (demo_message 1) 5).2).
  - by apply (reach_step _ (SopEnqueue (demo_message 1) 5) (sub_new (demo_config ordered))); [apply reach_new|..].
  - done.
  - destruct ordered; vm_compute; reflexivity.
Qed.

Lemma demo_wf ordered : sub_wf (demo_state ordered).
Proof. eapply sub_reachable_wf, demo_reachable. Qed.

Lemma demo_ids_inj a b : demo_ids a = demo_ids b -> a = b.
Proof. intros [= H]. lia. Qed.

Lemma demo_fresh k ordered : fresh_ids k demo_ids (demo_state ordered).
Proof. split; [intros a b _ _; apply demo_ids_inj|]. intros n _. destruct ordered; vm_compute; reflexivity. Qed.

(** Both messages leased. *)
Definition demo_leased : SubscriptionState :=
  match pull (demo_state false) 2 5 demo_ids with Some (_, s) => s | None => demo_state false end.

Lemma demo_leased_wf : sub_wf demo_leased.
Proof.
  eapply (sub_reachable_wf (demo_config false)), (reach_step _ (SopPull 2 5 true Mixed demo_ids (fun _ => true)));
    [apply demo_reachable|apply demo_fresh|vm_compute; reflexivity].
Qed.

Lemma subscription_invariant_witness : sub_reachable (demo_config false) (demo_state false) /\ sub_wf (demo_state false).
Proof.
  assert (H : sub_reachable (demo_config false) (demo_state false)) by apply demo_reachable. split; [exact H|].
  exact (proj1 (subscription_invariant (demo_config false) (demo_state false) H)).
Defined.

Lemma ordered_pull_in_order_witness : exists out s',
  pull_with_admission (demo_state true) 2 5 true Mixed demo_ids (fun _ => true) = Some (out, s') /\
  exists m r', (m < 1)%nat /\ received out !! m = Some r' /\ received_message r' = demo_message 1.
Proof.
  eexists _, _. split; [vm_compute; reflexivity|].
  eapply (ordered_pull_in_order (demo_state true) 2 5 true Mixed demo_ids (fun _ => true) _ _ 1 _ 1 0
    (new_entry 5 (demo_message 2)) (new_entry 5 (demo_message 1)) (demo_wf true) (demo_fresh _ true)); try (vm_compute; reflexivity).
  done.
Defined.

Lemma unacked_delivered_again_witness : exists s1 out s2,
  expire_deadlines demo_leased (dur_from_seconds 20) = Some s1 /\ pull s1 2 (dur_from_seconds 620) demo_ids = Some (out, s2) /\
  (demo_message 2 ∈ map received_message (received out) \/ demo_message 2 ∈ dead_lettered out).
Proof.
  assert (H : exists e, entries demo_leased !! 1%nat = Some e /\ stored e = demo_message 2 /\ exists id, state e = Outstanding id (5 + dur_from_seconds 10)).
  { vm_compute. eexists. split; [reflexivity|]. split; [reflexivity|]. by eexists. }
  destruct H as (e & He & Hst & id & Hid). rewrite <- Hst.
  apply (unacked_delivered_again demo_leased 1 e id (5 + dur_from_seconds 10) (dur_from_seconds 20) (dur_from_seconds 620) 2 demo_ids demo_leased_wf).
  - reflexivity.
  - vm_compute. discriminate.
  - exact He.
  - exact Hid.
  - vm_compute. discriminate.
  - vm_compute. discriminate.
  - intros Hh. unfold holds_key in Hh. vm_compute in Hh. discriminate.
  - vm_compute. lia.
  - intros s1 Hs1. vm_compute in Hs1. injection Hs1 as <-. split; [intros a b _ _; apply demo_ids_inj|]. intros n _. reflexivity.
Defined.

Lemma unordered_pull_exact_witness : exists out s',
  pull_with_forwarding (demo_state false) 1 5 true Mixed demo_ids = Some (out, s') /\
  map received_message (received out) = [demo_message 1].
Proof.
  destruct (unordered_pull_exact (demo_state false) 1 5 true Mixed demo_ids (demo_wf false) (demo_fresh _ false)) as (out & s' & Hp & Hm & _); [reflexivity|].
  exists out, s'. split; [exact Hp|]. rewrite Hm. vm_compute. reflexivity.
Defined.

Lemma acknowledge_exact_witness : exists n s', acknowledge demo_leased [demo_ids 0; demo_ids 7] = Some (n, s') /\ n = 1.
Proof.
  destruct (acknowledge_exact demo_leased [demo_ids 0; demo_ids 7] demo_leased_wf) as (n & s' & Ha & _ & Ho & Hn).
  exists n, s'. split; [exact Ha|]. rewrite Hn, Ho. vm_compute. reflexivity.
Defined.

Lemma attempts_bounded_witness : exists out s',
  pull_with_admission (demo_state false) 2 5 true Mixed demo_ids (fun _ => true) = Some (out, s') /\
  Forall (fun r => 1 <= received_attempt r <= 5) (received out).
Proof.
  eexists _, _. split; [vm_compute; reflexivity|].
  eapply (attempts_bounded (demo_state false) 2 5 Mixed demo_ids (fun _ => true) _ _
    {| dead_letter_topic := {| topic_project := chars "demo"; topic := chars "dead" |}; max_delivery_attempts := 5 |} (demo_wf false) (demo_fresh _ false));
    vm_compute; reflexivity.
Defined.

Lemma admitted_batch_is_stored_witness : exists s', enqueue_all [demo_message 3; demo_message 4] 9 (demo_state true) = (Ok tt, s') /\ sub_wf s'.
Proof.
  destruct (admitted_batch_is_stored (demo_state true) [demo_message 3; demo_message 4] 9 (demo_wf true)) as (s' & He & Hs & _); [reflexivity|].
  exists s'. split; [exact He|exact Hs].
Defined.

Lemma redelivery_backoff_exact_witness : redelivery_backoff (demo_config false) 3 0 = dur_from_seconds 40.
Proof.
  rewrite (redelivery_backoff_exact (demo_config false) {| minimum_backoff := dur_from_seconds 10; maximum_backoff := dur_from_seconds 60 |} 3 0);
    [reflexivity|reflexivity|reflexivity|]. vm_compute. split; discriminate.
Defined.

Lemma seek_to_snapshot_restores_witness : exists s',
  seek_to_snapshot (demo_state false) [demo_message 3] {[ [51%Z] ]} {[ [51%Z] ]} 0 9 = (Ok tt, s') /\ [51] ∈ unacknowledged_message_ids s'.
Proof.
  destruct (seek_to_snapshot_restores (demo_state false) [demo_message 3] {[ [51%Z] ]} {[ [51%Z] ]} 0 9 (demo_wf false)) as (s' & Hs & _ & _ & Hu).
  - vm_compute. split; discriminate.
  - vm_compute. split; discriminate.
  - exists s'. split; [exact Hs|]. apply (Hu (demo_message 3)); [constructor|cbn; set_solver|cbn; set_solver|reflexivity].
Defined.

(** A full log that lost message 3, with message 1 acknowledged after the snapshot and every other one not. *)
Definition full_log (n : nat) : SubscriptionState :=
  rebuild_indexes (set_entries (with_state Acked (new_entry 5 (demo_message 1)) :: replicate n (new_entry 5 (demo_message 2)))
    (sub_new (demo_config false))).

Lemma total_bytes_replicate n e : total_bytes (replicate n e) = Z.of_nat n * entry_bytes e.
Proof.
  induction n as [|n IH]; [done|]. change (total_bytes (replicate (S n) e)) with (entry_bytes e + total_bytes (replicate n e)). rewrite IH. lia.
Qed.

Lemma full_log_bytes n : total_bytes (entries (full_log n)) = 2 + 2 * Z.of_nat n.
Proof.
  change (total_bytes (entries (full_log n))) with (2 + total_bytes (replicate n (new_entry 5 (demo_message 2)))).
  rewrite total_bytes_replicate. change (entry_bytes (new_entry 5 (demo_message 2))) with 2. lia.
Qed.

Lemma full_log_length n : length (entries (full_log n)) = S n.
Proof. cbn [full_log rebuild_indexes set_entries entries length]. by rewrite length_replicate. Qed.

Lemma full_log_wf n : Z.of_nat n = 99999 -> sub_wf (full_log n).
Proof.
  intros Hn. apply wf_rebuild.
  - apply no_leases. cbn [entries set_entries]. intros e [-> |[-> _]%elem_of_replicate]%elem_of_cons; done.
  - pose proof (full_log_bytes n) as Hb. cbn [full_log rebuild_indexes entries set_entries] in *. rewrite Hb. unfold MAX_RETAINED_BYTES_PER_SUB. lia.
  - cbn [entries set_entries length]. rewrite length_replicate. unfold MAX_RETAINED_PER_SUB. lia.
  - apply Forall_forall. cbn [entries set_entries]. intros e [-> |[-> _]%elem_of_replicate]%elem_of_cons; cbn; int_lia.
Qed.

Lemma full_log_missing n : missing_messages (full_log n) [demo_message 1; demo_message 3] {[ [49%Z]; [51%Z] ]} = [demo_message 3].
Proof.
  unfold missing_messages. rewrite filter_cons, decide_False.
  - rewrite filter_cons, decide_True; [done|]. split_and!; [cbn; set_solver| |done].
    rewrite elem_of_retained. intros (e & He & Hid). cbn in He.
    apply elem_of_cons in He as [-> |[-> _]%elem_of_replicate]; by cbn in Hid.
  - intros (_ & Hn & _). apply Hn, elem_of_retained. exists (with_state Acked (new_entry 5 (demo_message 1))). split; [by constructor|done].
Qed.

Example snapshot_seek_loss : exists s s', sub_wf s /\
  seek_to_snapshot s [demo_message 1; demo_message 3] {[ [49%Z]; [51%Z] ]} {[ [49%Z]; [51%Z] ]} 0 9 = (Ok tt, s') /\
  ([49] ∉ retained_message_ids s').
Proof.
  assert (exists n, Z.of_nat n = 99999) as [n Hn] by (exists (Z.to_nat 99999); by rewrite Z2Nat.id).
  assert (Hu : length (filter unacked (entries (full_log n))) = n /\ total_bytes (filter unacked (entries (full_log n))) = 2 * Z.of_nat n).
  { destruct (acked_split (entries (full_log n))) as [Hb Hl]. rewrite full_log_bytes in Hb.
    assert (Hf : filter (fun e => is_acked (state e)) (entries (full_log n)) = [with_state Acked (new_entry 5 (demo_message 1))]).
    { cbn [full_log rebuild_indexes set_entries entries]. rewrite filter_bool_cons. cbn [with_state state is_acked].
      rewrite filter_none; [done|]. by intros x [-> _]%elem_of_replicate. }
    rewrite Hf in Hb, Hl. cbn [length] in Hl. change (total_bytes [_]) with 2 in Hb.
    rewrite full_log_length in Hl. split; lia. }
  destruct Hu as [Hul Hub]. pose proof (full_log_wf n Hn) as Hwf.
  assert (Hbase : snapshot_base (full_log n) [demo_message 3] = Some (reclaim_acked_entries (full_log n))).
  { unfold snapshot_base. rewrite Hul, Hub. cbn [length]. change (shared_bytes [demo_message 3]) with 2.
    assert (Hlen : Z.of_nat (length (entries (full_log n))) = 100000) by (rewrite full_log_length; lia).
    rewrite Hlen, Hn. reflexivity. }
  exists (full_log n). eexists. split; [done|]. split.
  - rewrite seek_to_snapshot_spec; [|done|vm_compute; split; discriminate]. cbv zeta. rewrite full_log_missing, Hbase. reflexivity.
  - change [49] with (entry_id (with_state Acked (new_entry 5 (demo_message 1)))).
    eapply (snapshot_seek_loses_message (full_log n) [demo_message 1; demo_message 3] {[ [49%Z]; [51%Z] ]} {[ [49%Z]; [51%Z] ]} 0 9); [done|vm_compute; split; discriminate|..].
    + by rewrite full_log_missing.
    + rewrite seek_to_snapshot_spec; [|done|vm_compute; split; discriminate]. cbv zeta. rewrite full_log_missing, Hbase. reflexivity.
    + by constructor.
    + intros y Hy Hid. cbn in Hy. apply elem_of_cons in Hy as [-> |[-> _]%elem_of_replicate]; [done|by cbn in Hid].
Qed.
