(* ===== verification/PsIam.v ===== *)
(** * Pub/Sub resource policies

    Models [crates/fireemu-core-pubsub/src/iam.rs]: the policy of a topic or subscription,
    replaced by compare-and-swap on an opaque etag, and the grants it makes.  Etags never
    repeat, so a policy that changed in between is never overwritten. *)
From S2P Require Import Prelude Text PsName.

Record PolicyBinding := { role : text; members : list text }.

Record ResourcePolicy := { version : option Z; bindings : list PolicyBinding; policy_etag : text }.

Record PolicyState := { incarnation : Z; revision : Z; policy : ResourcePolicy }.

Definition ETAG_ALPHABET : text := chars "ABCDEFGHIJKLMNOPQRSTUVWXYZabcdefghijklmnopqrstuvwxyz0123456789+/".

(** [ALPHABET[((n >> shift) & 63) as usize]] *)
Definition etag_char (n shift : Z) : Z := nth (Z.to_nat (Z.land (Z.shiftr n shift) 63)) ETAG_ALPHABET 0.

(** [bytes.chunks_exact(3)] *)
Fixpoint etag (bytes : list Z) : text :=
  match bytes with
  | a :: b :: c :: bytes =>
      let n := Z.lor (Z.lor (Z.shiftl a 16) (Z.shiftl b 8)) c in
      map (etag_char n) [18; 12; 6; 0] ++ etag bytes
  | _ => []
  end.

(** The last [width] bytes of [n.to_be_bytes()]. *)
Fixpoint be_bytes (width : nat) (n : Z) : list Z :=
  match width with O => [] | S width => n / 256 ^ Z.of_nat width mod 256 :: be_bytes width n end.

Definition policy_new (incarnation : Z) : PolicyState :=
  {| incarnation := incarnation; revision := 0;
     policy := {| version := None; bindings := []; policy_etag := etag (be_bytes 3 incarnation) |} |}.

Definition policy_get (s : PolicyState) : ResourcePolicy := policy s.

Definition supported_version (v : option Z) : bool :=
  match v with None => true | Some n => (n =? 0) || (n =? 1) || (n =? 3) end.

Definition policy_set (s : PolicyState) (expected : text) (v : option Z) (bs : list PolicyBinding)
    : result ResourcePolicy PubSubError * PolicyState :=
  if negb (bool_decide (expected = policy_etag (policy s))) then (Err FailedPrecondition, s)
  else if negb (supported_version v) then (Err InvalidArgument, s)
  else
    match checked u64 (revision s + 1) with
    | Some revision =>
        if revision <? 2 ^ 48 then
          let p := {| version := Some 1; bindings := bs;
                      policy_etag := etag (be_bytes 3 (incarnation s) ++ be_bytes 6 revision) |} in
          (Ok p, {| incarnation := incarnation s; revision := revision; policy := p |})
        else (Err ResourceExhausted, s)
    | None => (Err ResourceExhausted, s)
    end.

Definition grants (s : PolicyState) (r member : text) : bool :=
  existsb (fun b => bool_decide (role b = r) && existsb (fun m => bool_decide (m = member)) (members b)) (bindings (policy s)).

Example etag_ex : etag [0; 0; 1] = chars "AAAB" /\ etag [1; 2; 3; 255; 255; 255] = chars "AQID////".
Proof. by vm_compute. Qed.

(** ** Etags determine the revision *)

Definition is_byte (b : Z) : Prop := 0 <= b < 256.

Lemma alphabet_inj i j : 0 <= i < 64 -> 0 <= j < 64 ->
  nth (Z.to_nat i) ETAG_ALPHABET 0 = nth (Z.to_nat j) ETAG_ALPHABET 0 -> i = j.
Proof.
  intros Hi Hj. assert (Hnd : List.NoDup ETAG_ALPHABET) by (apply NoDup_ListNoDup, (bool_decide_unpack _); by vm_compute).
  intros H. apply (NoDup_nth ETAG_ALPHABET 0) in H; [lia|done|change (length ETAG_ALPHABET) with 64%nat; lia..].
Qed.

Lemma etag_char_range n shift : 0 <= shift -> Z.land (Z.shiftr n shift) 63 = n / 2 ^ shift mod 64.
Proof. intros Hs. rewrite Z.shiftr_div_pow2 by done. change 63 with (Z.ones 6). by rewrite Z.land_ones. Qed.

Lemma etag_char_inj n n' shift : 0 <= shift -> etag_char n shift = etag_char n' shift -> n / 2 ^ shift mod 64 = n' / 2 ^ shift mod 64.
Proof.
  intros Hs H. unfold etag_char in H. rewrite !etag_char_range in H by done.
  apply alphabet_inj in H; [done|apply Z.mod_pos_bound; lia..].
Qed.

Lemma lor_low x y k : 0 <= k -> 0 <= y < 2 ^ k -> Z.lor (x * 2 ^ k) y = x * 2 ^ k + y.
Proof.
  intros Hk Hy. assert (H0 : Z.land (x * 2 ^ k) y = 0).
  { apply Z.bits_inj'. intros n Hn. rewrite Z.land_spec, Z.bits_0. destruct (Z.lt_ge_cases n k).
    - by rewrite Z.mul_pow2_bits_low by lia.
    - rewrite <- (Z.mod_small y (2 ^ k)) by done. rewrite Z.mod_pow2_bits_high by lia. by rewrite andb_false_r. }
  by rewrite <- Z.lxor_lor, <- Z.add_nocarry_lxor by done.
Qed.

Lemma lor_bytes a b c : is_byte a -> is_byte b -> is_byte c ->
  Z.lor (Z.lor (Z.shiftl a 16) (Z.shiftl b 8)) c = a * 65536 + b * 256 + c.
Proof.
  unfold is_byte. intros Ha Hb Hc. rewrite !Z.shiftl_mul_pow2 by lia. rewrite lor_low by (cbn; lia).
  replace (a * 2 ^ 16 + b * 2 ^ 8) with ((a * 256 + b) * 2 ^ 8) by lia. rewrite lor_low by (cbn; lia). lia.
Qed.

Lemma group_inj n n' : 0 <= n < 2 ^ 24 -> 0 <= n' < 2 ^ 24 ->
  map (etag_char n) [18; 12; 6; 0] = map (etag_char n') [18; 12; 6; 0] -> n = n'.
Proof.
  intros Hn Hn' H. cbn [map] in H. injection H as H18 H12 H6 H0.
  apply etag_char_inj in H18, H12, H6, H0; [|lia..]. change (2 ^ 24) with 16777216 in *.
  change (2 ^ 18) with 262144 in *. change (2 ^ 12) with 4096 in *. change (2 ^ 6) with 64 in *. change (2 ^ 0) with 1 in *.
  Z.div_mod_to_equations. lia.
Qed.

(** Lists of whole groups of bytes with the same etag are the same. *)
Lemma etag_inj k : forall l l', length l = (3 * k)%nat -> length l' = (3 * k)%nat -> Forall is_byte l -> Forall is_byte l' ->
  etag l = etag l' -> l = l'.
Proof.
  induction k as [|k IH]; intros l l' Hl Hl' Hb Hb' H; [by destruct l, l'|].
  destruct l as [|a [|b [|c l]]]; cbn in Hl; try lia. destruct l' as [|a' [|b' [|c' l']]]; cbn in Hl'; try lia.
  repeat match goal with H : Forall _ (_ :: _) |- _ => apply Forall_cons in H as [? H] end.
  cbn [etag] in H. apply app_inj_1 in H as [Hg H]; [|done]. rewrite !lor_bytes in Hg by done.
  unfold is_byte in *. apply group_inj in Hg; [|lia..].
  assert (a = a' /\ b = b' /\ c = c') as (-> & -> & ->) by lia. do 3 f_equal. apply IH; [lia|lia|done..].
Qed.

Lemma etag_length k : forall l, length l = (3 * k)%nat -> length (etag l) = (4 * k)%nat.
Proof.
  induction k as [|k IH]; intros l Hl; [by destruct l|]. destruct l as [|a [|b [|c l]]]; cbn in Hl; try lia.
  cbn [etag]. rewrite length_app, (IH l) by lia. cbn. lia.
Qed.

Lemma be_bytes_length width n : length (be_bytes width n) = width.
Proof. induction width as [|width IH]; [done|]. cbn. by rewrite IH. Qed.

Lemma be_bytes_are_bytes width n : Forall is_byte (be_bytes width n).
Proof. induction width as [|width IH]; constructor; [apply Z.mod_pos_bound; lia|done]. Qed.

Lemma be_bytes_inj width n n' : be_bytes width n = be_bytes width n' -> n mod 256 ^ Z.of_nat width = n' mod 256 ^ Z.of_nat width.
Proof.
  induction width as [|width IH]; [by rewrite !Z.mod_1_r|]. cbn [be_bytes]. intros [= Hd Hr]. specialize (IH Hr).
  rewrite Nat2Z.inj_succ, Z.pow_succ_r by lia. rewrite (Z.mul_comm 256). set (m := 256 ^ Z.of_nat width) in *.
  assert (0 < m) by (apply Z.pow_pos_nonneg; lia). rewrite !Z.rem_mul_r by lia. by rewrite IH, Hd.
Qed.

(** ** The policies of one broker *)

Definition policy_etag_of (s : PolicyState) : text :=
  etag (be_bytes 3 (incarnation s) ++ (if revision s =? 0 then [] else be_bytes 6 (revision s))).

Record policy_wf (s : PolicyState) : Prop := {
  wf_incarnation : 0 <= incarnation s < 2 ^ 24;
  wf_revision : 0 <= revision s < 2 ^ 48;
  wf_etag : policy_etag (policy s) = policy_etag_of s;
}.

Lemma policy_new_wf n : 0 <= n < 2 ^ 24 -> policy_wf (policy_new n).
Proof. intros Hn. split; cbn; [done|lia|]. done. Qed.

Lemma policy_set_Ok s expected v bs p s' : policy_wf s -> policy_set s expected v bs = (Ok p, s') ->
  expected = policy_etag (policy s) /\ supported_version v = true /\ policy_wf s' /\ incarnation s' = incarnation s /\
  revision s' = revision s + 1 /\ policy s' = p /\ bindings p = bs.
Proof.
  intros [Hi Hr He]. unfold policy_set. destruct (bool_decide (expected = _)) eqn:Hx; cbn [negb]; [|done]. apply bool_decide_eq_true in Hx.
  destruct (supported_version v) eqn:Hv; cbn [negb]; [|done]. destruct (checked u64 _) as [r|] eqn:Hc; [|done].
  apply checked_Some in Hc as [-> _]. destruct (Z.ltb_spec (revision s + 1) (2 ^ 48)); [|done]. intros [= <- <-].
  split_and!; try done. split; cbn; [done|lia|]. unfold policy_etag_of. cbn.
  destruct (Z.eqb_spec (revision s + 1) 0); [lia|done].
Qed.

Lemma policy_etags_distinct s s' : policy_wf s -> policy_wf s' -> policy_etag (policy s) = policy_etag (policy s') ->
  incarnation s = incarnation s' /\ revision s = revision s'.
Proof.
  intros [Hi Hr He] [Hi' Hr' He']. rewrite He, He'. unfold policy_etag_of. intros H.
  assert (Hinj : forall x y : Z, 0 <= x < 2 ^ 24 -> 0 <= y < 2 ^ 24 -> be_bytes 3 x = be_bytes 3 y -> x = y).
  { intros x y Hx Hy Hxy%be_bytes_inj. rewrite !Z.mod_small in Hxy; (done || exact Hx || exact Hy). }
  pose proof (be_bytes_length 3) as H3. pose proof (be_bytes_length 6) as H6.
  destruct (Z.eqb_spec (revision s) 0) as [Hz|Hz], (Z.eqb_spec (revision s') 0) as [Hz'|Hz'].
  - rewrite !app_nil_r in H. apply (etag_inj 1) in H; [|apply be_bytes_length..|apply be_bytes_are_bytes|apply be_bytes_are_bytes].
    split; [by apply Hinj|congruence].
  - apply (f_equal length) in H. rewrite (etag_length 1), (etag_length 3) in H; [done|by rewrite length_app, H3, H6|by rewrite app_nil_r].
  - apply (f_equal length) in H. rewrite (etag_length 3), (etag_length 1) in H; [done|by rewrite app_nil_r|by rewrite length_app, H3, H6].
  - apply (etag_inj 3) in H; [|by rewrite length_app, H3, H6|by rewrite length_app, H3, H6|apply Forall_app; split; apply be_bytes_are_bytes|apply Forall_app; split; apply be_bytes_are_bytes].
    apply app_inj_1 in H as [Ha Hb]; [|by rewrite !H3]. split; [by apply Hinj|]. apply be_bytes_inj in Hb.
    rewrite !Z.mod_small in Hb; (done || exact Hr || exact Hr').
Qed.

(** The policies a resource goes through: sets with any etag, in any order. *)
Inductive policy_reachable (n : Z) : PolicyState -> Prop :=
| policy_start : policy_reachable n (policy_new n)
| policy_next s expected v bs : policy_reachable n s -> policy_reachable n (policy_set s expected v bs).2.

Lemma policy_set_Err s expected v bs e s' : policy_set s expected v bs = (Err e, s') -> s' = s.
Proof. unfold policy_set. repeat case_match; by intros [= _ <-]. Qed.

Lemma policy_reachable_wf n s : 0 <= n < 2 ^ 24 -> policy_reachable n s -> policy_wf s /\ incarnation s = n.
Proof.
  intros Hn. induction 1 as [|s expected v bs _ [Hwf Hi]]; [split; [by apply policy_new_wf|done]|].
  destruct (policy_set s expected v bs) as [[p|e] s'] eqn:Hs; cbn.
  - apply policy_set_Ok in Hs as (_ & _ & Hwf' & Hi' & _); [|done]. split; [done|congruence].
  - by apply policy_set_Err in Hs as ->.
Qed.

(** Policies are compared and swapped: a set succeeds only on the etag of the policy it read, a refused one
    changes nothing, a successful one installs its bindings, and the etag of a policy is never that of another
    revision or of another resource, so of two writers who read one policy at most one succeeds. *)
Theorem policy_compare_and_swap n m s s' expected v bs :
  0 <= n < 2 ^ 24 -> 0 <= m < 2 ^ 24 -> policy_reachable n s -> policy_reachable m s' ->
  (policy_etag (policy s) = policy_etag (policy s') -> n = m /\ revision s = revision s') /\
  match policy_set s expected v bs with
  | (Ok p, s1) => expected = policy_etag (policy s) /\ policy s1 = p /\ bindings p = bs /\ revision s1 = revision s + 1 /\
      forall v' bs', policy_set s1 expected v' bs' = (Err FailedPrecondition, s1)
  | (Err e, s1) => s1 = s /\ (e = FailedPrecondition <-> expected <> policy_etag (policy s))
  end.
Proof.
  intros Hn Hm [Hs Hi]%policy_reachable_wf [Hs' Hi']%policy_reachable_wf; [|done|done]. split.
  { intros H. apply policy_etags_distinct in H as [H1 H2]; [|done..]. split; congruence. }
  destruct (policy_set s expected v bs) as [[p|e] s1] eqn:Hset.
  - apply policy_set_Ok in Hset as (Hx & Hv & Hwf & Hinc & Hrev & Hp & Hb); [|done]. split_and!; try done.
    intros v' bs'. unfold policy_set. rewrite bool_decide_eq_false_2; [done|]. rewrite Hx. intros H.
    apply policy_etags_distinct in H as [_ H]; [lia|done..].
  - pose proof (policy_set_Err _ _ _ _ _ _ Hset) as ->. split; [done|]. unfold policy_set in Hset.
    destruct (decide (expected = policy_etag (policy s))) as [Heq|Hne].
    + rewrite bool_decide_eq_true_2 in Hset by done. cbn [negb] in Hset. split; [|done]. intros ->. repeat case_match; done.
    + rewrite bool_decide_eq_false_2 in Hset by done. injection Hset as <-. done.
Qed.

Lemma policy_compare_and_swap_witness :
  let s := (policy_set (policy_new 7) (policy_etag (policy (policy_new 7))) None []).2 in
  (policy_etag (policy s) = policy_etag (policy (policy_new 9)) -> 7 = 9 /\ revision s = 0) /\ revision s = 1.
Proof.
  cbv zeta. split; [|reflexivity].
  refine (proj1 (policy_compare_and_swap 7 9 _ (policy_new 9) [] None [] _ _ _ _)); try (split; [discriminate|reflexivity]).
  - apply policy_next, policy_start.
  - apply policy_start.
Defined.
