(* ===== verification/PsPagination.v ===== *)
(** * Pub/Sub list pages

    Models [crates/fireemu-core-pubsub/src/pagination.rs]: pages of a list that is in name
    order, with the opaque cursors of production (after the last resource returned) or the
    inclusive name cursors of the official emulator.  Indexing out of range panics: the
    outer [option]. *)
From S2P Require Import Prelude Text PsName.

Inductive PagingPolicy := Strict | Emulator.

#[global] Instance PagingPolicy_eq_dec : EqDecision PagingPolicy.
Proof. solve_decision. Defined.

Record Page (T : Type) := { resources : list T; next_page_token : text }.
#[global] Arguments resources {T}.
#[global] Arguments next_page_token {T}.

(** [str::bytes]: the UTF-8 form of the characters. *)
Definition utf8_char (c : Z) : list Z :=
  if c <? 0x80 then [c]
  else if c <? 0x800 then [0xC0 + c / 64; 0x80 + c mod 64]
  else if c <? 0x10000 then [0xE0 + c / 4096; 0x80 + c / 64 mod 64; 0x80 + c mod 64]
  else [0xF0 + c / 262144; 0x80 + c / 4096 mod 64; 0x80 + c / 64 mod 64; 0x80 + c mod 64].

Definition utf8 (s : text) : list Z := flat_map utf8_char s.

Definition SEEDS : list Z := [0xcbf29ce484222325; 0x84222325cbf29ce4; 0x9e3779b97f4a7c15].

(** One hash of the name. *)
Definition name_hash (name : text) (seed : Z) : Z :=
  fold_left (fun hash byte => wrapping u64 (Z.lxor hash byte * 0x100000001b3)) (utf8 name) seed.

(** [hash.to_be_bytes()] *)
Definition hash_bytes (hash : Z) : list Z := map (fun i => hash / 256 ^ i mod 256) [7; 6; 5; 4; 3; 2; 1; 0].

(** The 19 bytes: two whole hashes and three bytes of the last. *)
Definition token_bytes (name : text) : list Z := take 19 (flat_map (fun seed => hash_bytes (name_hash name seed)) SEEDS).

Definition TOKEN_ALPHABET : text := chars "ABCDEFGHIJKLMNOPQRSTUVWXYZabcdefghijklmnopqrstuvwxyz0123456789-_".

(** The characters of one chunk of at most three bytes, one more than its bytes. *)
Definition token_chunk (chunk : list Z) : text :=
  let at_ i := nth i chunk 0 in
  let bits := Z.lor (Z.lor (Z.shiftl (at_ 0%nat) 16) (Z.shiftl (at_ 1%nat) 8)) (at_ 2%nat) in
  map (fun index => nth (Z.to_nat (Z.land (Z.shiftr bits (18 - Z.of_nat index * 6)) 63)) TOKEN_ALPHABET 0)
    (seq 0 (S (length chunk))).

(** [bytes.chunks(3)] *)
Fixpoint token_chunks (bytes : list Z) : text :=
  match bytes with
  | [] => []
  | a :: b :: c :: bytes => token_chunk [a; b; c] ++ token_chunks bytes
  | short => token_chunk short
  end.

Definition opaque_token (name : text) : text := token_chunks (token_bytes name).

Definition page_limit (policy : PagingPolicy) (page_size : Z) : result Z PubSubError :=
  match policy with
  | Strict =>
      if (page_size <? 0) || (1000 <? page_size) then Err InvalidArgument
      else if page_size =? 0 then Ok (int_max usize) else Ok page_size
  | Emulator => if page_size <=? 0 then Ok 1000 else Ok page_size
  end.

(** [position(|r| found(r))] *)
Definition index_where {T} (found : T -> bool) (rs : list T) : option nat := fst <$> list_find (fun r => found r) rs.

Definition or_end {T} (rs : list T) (i : option nat) : nat := default (length rs) i.

Definition page_start {T} (rs : list T) (page_token : text) (policy : PagingPolicy) (name : T -> text) (issued_boundary : option text)
    : result nat PubSubError :=
  if bool_decide (page_token = []) then Ok 0%nat
  else
    match policy with
    | Strict =>
        match index_where (fun r => bool_decide (opaque_token (name r) = page_token)) rs with
        | Some i => Ok (S i)
        | None =>
            match issued_boundary with
            | Some boundary => Ok (or_end rs (index_where (fun r => bool_decide (ord_lt boundary (name r))) rs))
            | None => Err InvalidArgument
            end
        end
    | Emulator => Ok (or_end rs (index_where (fun r => bool_decide (ord_le page_token (name r))) rs))
    end.

(** [skip(start).take(limit)]: no more than the list has is taken. *)
Definition page_slice {T} (rs : list T) (start : nat) (limit : Z) : list T :=
  take (Z.to_nat (Z.min limit (Z.of_nat (length rs)))) (drop start rs).

Definition paginate_after {T} (rs : list T) (page_size : Z) (page_token : text) (policy : PagingPolicy) (name : T -> text)
    (issued_boundary : option text) : option (result (Page T) PubSubError) :=
  match page_limit policy page_size with
  | Err e => Some (Err e)
  | Ok limit =>
      match page_start rs page_token policy name issued_boundary with
      | Err e => Some (Err e)
      | Ok start =>
          let end_ := Z.min (saturating usize (Z.of_nat start + limit)) (Z.of_nat (length rs)) in
          token ← (if end_ <? Z.of_nat (length rs) then
                     match policy with
                     | Strict => if end_ <=? 0 then None else (fun r => opaque_token (name r)) <$> rs !! Z.to_nat (end_ - 1)
                     | Emulator => name <$> rs !! Z.to_nat end_
                     end
                   else Some []);
          Some (Ok {| resources := page_slice rs start limit; next_page_token := token |})
      end
  end.

Definition paginate {T} (rs : list T) (page_size : Z) (page_token : text) (policy : PagingPolicy) (name : T -> text)
    : option (result (Page T) PubSubError) :=
  paginate_after rs page_size page_token policy name None.

Definition named (s : string) : text := chars ("projects/p/topics/" +:+ s).

Example paginate_ex :
  let rs := [named "a"; named "b"; named "c"] in
  (match paginate rs 2 [] Strict id with
   | Some (Ok p) => resources p = [named "a"; named "b"] /\ length (next_page_token p) = 26%nat /\
       paginate rs 2 (next_page_token p) Strict id = Some (Ok {| resources := [named "c"]; next_page_token := [] |})
   | _ => False
   end) /\
  paginate rs 1 (named "b") Emulator id = Some (Ok {| resources := [named "b"]; next_page_token := named "c" |}) /\
  paginate rs 1001 [] Strict id = Some (Err InvalidArgument) /\
  paginate rs 1 (chars "garbage") Strict id = Some (Err InvalidArgument).
Proof. by vm_compute. Qed.

(** ** Walking through the pages *)

Lemma opaque_token_nonempty name : opaque_token name <> [].
Proof.
  unfold opaque_token, token_bytes. cbn [SEEDS flat_map hash_bytes map app take]. cbn [token_chunks]. unfold token_chunk at 1.
  cbn [seq map length]. done.
Qed.

Lemma page_limit_pos policy size limit : page_limit policy size = Ok limit -> 1 <= limit.
Proof.
  destruct policy; cbn; [destruct (_ || _) eqn:Hr; [done|]; apply orb_false_iff in Hr as [? ?]; destruct (Z.eqb_spec size 0)|destruct (Z.leb_spec size 0)];
    intros [= <-]; int_lia.
Qed.

(** What a list of resources must satisfy for its cursors to work: production tokens of
    different resources differ; the emulator's names are in strict order and not empty. *)
Definition cursors_ok {T} (policy : PagingPolicy) (name : T -> text) (rs : list T) : Prop :=
  match policy with
  | Strict => NoDup (map (fun r => opaque_token (name r)) rs)
  | Emulator => StronglySorted (fun x y => ord_lt (name x) (name y)) rs /\ Forall (fun r => name r <> []) rs
  end.

(** The cursor of the page that starts at [k]. *)
Definition cursor_of {T} (policy : PagingPolicy) (name : T -> text) (rs : list T) (k : nat) : text :=
  match k with
  | O => []
  | S j => default [] (match policy with
                       | Strict => (fun r => opaque_token (name r)) <$> rs !! j
                       | Emulator => name <$> rs !! k
                       end)
  end.

Lemma index_where_spec {T} (f : T -> bool) rs i r : rs !! i = Some r -> f r = true ->
  (forall j x, rs !! j = Some x -> (j < i)%nat -> f x = false) -> index_where f rs = Some i.
Proof.
  intros Hi Hf Hb. unfold index_where. assert (H : list_find (fun r => f r) rs = Some (i, r)); [|by rewrite H].
  apply list_find_Some. split_and!; [done|by rewrite Hf|]. intros j x Hx Hlt. rewrite (Hb j x) by done. intros [].
Qed.

Lemma sorted_lt_lookup {T} (R : T -> T -> Prop) l : StronglySorted R l -> forall i j x y, l !! i = Some x -> l !! j = Some y -> (i < j)%nat -> R x y.
Proof.
  induction 1 as [|z l Hs IH Hz]; [done|]. intros [|i] [|j] x y Hx Hy Hij; cbn in *; try lia; simplify_eq.
  - by eapply Forall_lookup in Hy.
  - eapply IH; [done..|lia].
Qed.

Lemma page_start_cursor {T} (rs : list T) policy name (k : nat) : cursors_ok policy name rs -> (k < length rs)%nat ->
  page_start rs (cursor_of policy name rs k) policy name None = Ok k /\ (k <> 0%nat -> cursor_of policy name rs k <> []).
Proof.
  intros Hok Hk. destruct k as [|j]; [done|]. destruct (lookup_lt_is_Some_2 rs (S j) Hk) as [r Hr].
  destruct (lookup_lt_is_Some_2 rs j) as [r' Hr']; [lia|]. destruct policy; cbn [cursor_of]; rewrite ?Hr, ?Hr'; cbn [fmap option_fmap option_map default].
  - pose proof (opaque_token_nonempty (name r')) as Hne. split; [|done]. unfold page_start. rewrite bool_decide_eq_false_2 by done.
    rewrite (index_where_spec _ rs j r'); [done|done|by apply bool_decide_eq_true|]. intros i x Hx Hlt. apply bool_decide_eq_false. intros Heq.
    cbn in Hok. enough (i = j) by lia. eapply (NoDup_lookup _ i j (opaque_token (name r')) Hok);
      change (map ?f ?l) with (f <$> l); rewrite list_lookup_fmap; [rewrite Hx; cbn [fmap option_fmap option_map]; f_equal; exact Heq|by rewrite Hr'].
  - destruct Hok as [Hs Hn]. pose proof (proj1 (Forall_lookup _ _) Hn (S j) r Hr) as Hne. cbn in Hne. split; [|done].
    unfold page_start. rewrite bool_decide_eq_false_2 by done.
    rewrite (index_where_spec _ rs (S j) r); [done|done|apply bool_decide_eq_true; unfold ord_le; by rewrite ord_cmp_refl|].
    intros i x Hx Hlt. apply bool_decide_eq_false. intros Hle. apply Hle. rewrite ord_cmp_opp.
    pose proof (sorted_lt_lookup _ _ Hs i (S j) x r Hx Hr Hlt) as Hxr. cbv beta in Hxr. unfold ord_lt in Hxr. unfold id. by rewrite Hxr.
Qed.

Lemma paginate_at {T} (rs : list T) size policy name limit (k : nat) :
  page_limit policy size = Ok limit -> cursors_ok policy name rs -> Z.of_nat (length rs) < int_max usize ->
  (k < length rs)%nat \/ (k = 0%nat /\ rs = []) ->
  paginate rs size (cursor_of policy name rs k) policy name =
    Some (Ok {| resources := take (Z.to_nat (Z.min limit (Z.of_nat (length rs)))) (drop k rs);
                next_page_token := if Z.of_nat k + limit <? Z.of_nat (length rs)
                                   then cursor_of policy name rs (k + Z.to_nat limit) else [] |}).
Proof.
  intros Hlim Hok Hlen Hk. pose proof (page_limit_pos _ _ _ Hlim) as Hpos. unfold paginate, paginate_after. rewrite Hlim.
  assert (Hstart : page_start rs (cursor_of policy name rs k) policy name None = Ok k).
  { destruct Hk as [Hk|[-> ->]]; [by apply page_start_cursor|done]. }
  rewrite Hstart. cbv zeta.
  assert (Hend : Z.min (saturating usize (Z.of_nat k + limit)) (Z.of_nat (length rs)) = Z.min (Z.of_nat k + limit) (Z.of_nat (length rs))).
  { unfold saturating. int_simpl. lia. }
  rewrite Hend. destruct (Z.ltb_spec (Z.of_nat k + limit) (Z.of_nat (length rs))) as [Hlt|Hge].
  - rewrite Z.min_l by lia. rewrite (proj2 (Z.ltb_lt (Z.of_nat k + limit) _)) by done.
    replace (k + Z.to_nat limit)%nat with (S (Z.to_nat (Z.of_nat k + limit - 1))) by lia.
    destruct (lookup_lt_is_Some_2 rs (Z.to_nat (Z.of_nat k + limit - 1))) as [r Hr]; [lia|].
    destruct (lookup_lt_is_Some_2 rs (S (Z.to_nat (Z.of_nat k + limit - 1)))) as [r' Hr']; [lia|].
    destruct policy; cbn [cursor_of].
    + rewrite (proj2 (Z.leb_gt (Z.of_nat k + limit) 0)) by lia. rewrite Hr. done.
    + replace (Z.to_nat (Z.of_nat k + limit)) with (S (Z.to_nat (Z.of_nat k + limit - 1))) by lia. rewrite Hr'. done.
  - rewrite Z.min_r by lia. rewrite Z.ltb_irrefl. done.
Qed.

(** A client that asks for page after page until there is no further token. *)
Fixpoint all_pages {T} (fuel : nat) (rs : list T) (size : Z) (token : text) (policy : PagingPolicy) (name : T -> text) : option (list T) :=
  match fuel with
  | O => None
  | S fuel =>
      match paginate rs size token policy name with
      | Some (Ok p) =>
          if decide (next_page_token p = []) then Some (resources p)
          else rest ← all_pages fuel rs size (next_page_token p) policy name; Some (resources p ++ rest)
      | _ => None
      end
  end.

Lemma all_pages_from {T} (rs : list T) size policy name limit : 
  page_limit policy size = Ok limit -> cursors_ok policy name rs -> Z.of_nat (length rs) < int_max usize ->
  forall fuel k, (length rs - k < fuel)%nat -> (k < length rs)%nat \/ (k = 0%nat /\ rs = []) ->
  all_pages fuel rs size (cursor_of policy name rs k) policy name = Some (drop k rs).
Proof.
  intros Hlim Hok Hlen. pose proof (page_limit_pos _ _ _ Hlim) as Hpos. induction fuel as [|fuel IH]; intros k Hf Hk; [lia|].
  cbn [all_pages]. rewrite (paginate_at rs size policy name limit k) by done. cbn [next_page_token resources].
  destruct (Z.ltb_spec (Z.of_nat k + limit) (Z.of_nat (length rs))) as [Hlt|Hge].
  - destruct (page_start_cursor rs policy name (k + Z.to_nat limit)) as [_ Hne]; [done|lia|]. rewrite decide_False by (apply Hne; lia).
    rewrite IH by lia. cbn [mbind option_bind]. f_equal. rewrite Z.min_l by lia. rewrite <- drop_drop. apply take_drop.
  - rewrite decide_True by done. f_equal. apply take_ge. rewrite length_drop. lia.
Qed.

(** The pages of a list partition it: whatever page size is accepted, asking for the first page and then for each
    next token comes to an end within as many requests as there are resources (and one), and the pages together are the
    whole list, in order, with nothing twice. *)
Theorem list_pages_cover {T} (rs : list T) size policy name limit :
  page_limit policy size = Ok limit -> cursors_ok policy name rs -> Z.of_nat (length rs) < int_max usize ->
  all_pages (S (length rs)) rs size [] policy name = Some rs.
Proof.
  intros Hlim Hok Hlen. apply (all_pages_from rs size policy name limit Hlim Hok Hlen (S (length rs)) 0); [lia|].
  destruct rs; [by right|]. left. cbn. lia.
Qed.

Lemma filter_all {T} (P : T -> Prop) `{!forall x, Decision (P x)} l : Forall P l -> filter P l = l.
Proof. induction 1 as [|x l Hx _ IH]; [done|]. by rewrite filter_cons, decide_True, IH. Qed.

(** A cursor that was issued after a resource since deleted goes on with the first name after it. *)
Theorem deleted_cursor_resumes {T} (rs : list T) size token name limit boundary :
  page_limit Strict size = Ok limit -> StronglySorted (fun x y => ord_lt (name x) (name y)) rs -> token <> [] ->
  Z.of_nat (length rs) < int_max usize ->
  Forall (fun r => opaque_token (name r) <> token) rs ->
  exists p, paginate_after rs size token Strict name (Some boundary) = Some (Ok p) /\
    resources p = take (Z.to_nat (Z.min limit (Z.of_nat (length rs)))) (filter (fun r => ord_lt boundary (name r)) rs).
Proof.
  intros Hlim Hs Ht Hlen Hno. pose proof (page_limit_pos _ _ _ Hlim) as Hpos. unfold paginate_after. rewrite Hlim. unfold page_start.
  rewrite bool_decide_eq_false_2 by done.
  assert (Hnone : index_where (fun r => bool_decide (opaque_token (name r) = token)) rs = None).
  { unfold index_where. assert (Hf : list_find (fun r => bool_decide (opaque_token (name r) = token)) rs = None); [|by rewrite Hf].
    apply list_find_None. eapply Forall_impl; [exact Hno|]. intros r Hr H. by apply bool_decide_unpack in H. }
  rewrite Hnone. set (start := or_end rs _).
  assert (Hdrop : drop start rs = filter (fun r => ord_lt boundary (name r)) rs).
  { clear - Hs. subst start. unfold or_end, index_where. induction Hs as [|r rs Hs IH Hr]; [done|]. rewrite filter_cons. cbn [list_find].
    destruct (decide (ord_lt boundary (name r))) as [Hlt|Hge].
    - rewrite decide_True by (by apply bool_decide_pack). cbn. f_equal. symmetry. apply filter_all.
      eapply Forall_impl; [exact Hr|]. intros x Hx. cbn in Hx. by apply (ord_lt_trans boundary (name r) (name x)).
    - rewrite decide_False by (intros H; by apply bool_decide_unpack in H). rewrite <- IH.
      destruct (list_find _ rs) as [[i x]|]; done. }
  assert (Htok : exists tok, (if Z.min (saturating usize (Z.of_nat start + limit)) (Z.of_nat (length rs)) <? Z.of_nat (length rs)
    then if Z.min (saturating usize (Z.of_nat start + limit)) (Z.of_nat (length rs)) <=? 0 then None
         else (fun r => opaque_token (name r)) <$> rs !! Z.to_nat (Z.min (saturating usize (Z.of_nat start + limit)) (Z.of_nat (length rs)) - 1)
    else Some []) = Some tok).
  { set (e := Z.min _ _). destruct (Z.ltb_spec e (Z.of_nat (length rs))) as [He|]; [|by eexists].
    assert (1 <= e) by (subst e; unfold saturating in *; int_simpl; lia). rewrite (proj2 (Z.leb_gt e 0)) by lia.
    destruct (lookup_lt_is_Some_2 rs (Z.to_nat (e - 1))) as [r ->]; [lia|]. by eexists. }
  destruct Htok as [tok Htok]. cbv zeta. rewrite Htok. cbn [mbind option_bind]. eexists. split; [done|]. cbn [resources].
  unfold page_slice. by rewrite Hdrop.
Qed.

Lemma list_pages_cover_witness :
  all_pages 4 [named "a"; named "b"; named "c"] 2 [] Strict id = Some [named "a"; named "b"; named "c"] /\
  all_pages 4 [named "a"; named "b"; named "c"] 2 [] Emulator id = Some [named "a"; named "b"; named "c"].
Proof.
  split.
  - apply (list_pages_cover [named "a"; named "b"; named "c"] 2 Strict id 2); [reflexivity| |reflexivity].
    apply (bool_decide_unpack _). vm_compute. exact I.
  - apply (list_pages_cover [named "a"; named "b"; named "c"] 2 Emulator id 2); [reflexivity| |reflexivity].
    split; repeat constructor; vm_compute; discriminate.
Defined.
