(* ===== verification/PsLabel.v ===== *)
(** * Pub/Sub label characters and label validation

    Models [crates/fireemu-core-pubsub/src/label_value.rs], whose tables of Unicode ranges
    are copied, and [validate_labels] and [human_duration] of configuration.rs, with the
    production check of a subscription's configuration.  The standard library's binary
    search is its halving loop. *)
From S2P Require Import Prelude Time Text PsName PsFilter PsMessage PsSubscription.

Definition LETTER_OR_NUMBER_RANGES : list (Z * Z) := [
  (0x0030, 0x0039); (0x0061, 0x007A); (0x00AA, 0x00AA); (0x00B2, 0x00B3); (0x00B5, 0x00B5); (0x00B9, 0x00BA);
  (0x00BC, 0x00BE); (0x00DF, 0x00F6); (0x00F8, 0x00FF); (0x0101, 0x0101); (0x0103, 0x0103); (0x0105, 0x0105);
  (0x0107, 0x0107); (0x0109, 0x0109); (0x010B, 0x010B); (0x010D, 0x010D); (0x010F, 0x010F); (0x0111, 0x0111);
  (0x0113, 0x0113); (0x0115, 0x0115); (0x0117, 0x0117); (0x0119, 0x0119); (0x011B, 0x011B); (0x011D, 0x011D);
  (0x011F, 0x011F); (0x0121, 0x0121); (0x0123, 0x0123); (0x0125, 0x0125); (0x0127, 0x0127); (0x0129, 0x0129);
  (0x012B, 0x012B); (0x012D, 0x012D); (0x012F, 0x012F); (0x0131, 0x0131); (0x0133, 0x0133); (0x0135, 0x0135);
  (0x0137, 0x0138); (0x013A, 0x013A); (0x013C, 0x013C); (0x013E, 0x013E); (0x0140, 0x0140); (0x0142, 0x0142);
  (0x0144, 0x0144); (0x0146, 0x0146); (0x0148, 0x0149); (0x014B, 0x014B); (0x014D, 0x014D); (0x014F, 0x014F);
  (0x0151, 0x0151); (0x0153, 0x0153); (0x0155, 0x0155); (0x0157, 0x0157); (0x0159, 0x0159); (0x015B, 0x015B);
  (0x015D, 0x015D); (0x015F, 0x015F); (0x0161, 0x0161); (0x0163, 0x0163); (0x0165, 0x0165); (0x0167, 0x0167);
  (0x0169, 0x0169); (0x016B, 0x016B); (0x016D, 0x016D); (0x016F, 0x016F); (0x0171, 0x0171); (0x0173, 0x0173);
  (0x0175, 0x0175); (0x0177, 0x0177); (0x017A, 0x017A); (0x017C, 0x017C); (0x017E, 0x0180); (0x0183, 0x0183);
  (0x0185, 0x0185); (0x0188, 0x0188); (0x018C, 0x018D); (0x0192, 0x0192); (0x0195, 0x0195); (0x0199, 0x019B);
  (0x019E, 0x019E); (0x01A1, 0x01A1); (0x01A3, 0x01A3); (0x01A5, 0x01A5); (0x01A8, 0x01A8); (0x01AA, 0x01AB);
  (0x01AD, 0x01AD); (0x01B0, 0x01B0); (0x01B4, 0x01B4); (0x01B6, 0x01B6); (0x01B9, 0x01BB); (0x01BD, 0x01C3);
  (0x01C6, 0x01C6); (0x01C9, 0x01C9); (0x01CC, 0x01CC); (0x01CE, 0x01CE); (0x01D0, 0x01D0); (0x01D2, 0x01D2);
  (0x01D4, 0x01D4); (0x01D6, 0x01D6); (0x01D8, 0x01D8); (0x01DA, 0x01DA); (0x01DC, 0x01DD); (0x01DF, 0x01DF);
  (0x01E1, 0x01E1); (0x01E3, 0x01E3); (0x01E5, 0x01E5); (0x01E7, 0x01E7); (0x01E9, 0x01E9); (0x01EB, 0x01EB);
  (0x01ED, 0x01ED); (0x01EF, 0x01F0); (0x01F3, 0x01F3); (0x01F5, 0x01F5); (0x01F9, 0x01F9); (0x01FB, 0x01FB);
  (0x01FD, 0x01FD); (0x01FF, 0x01FF); (0x0201, 0x0201); (0x0203, 0x0203); (0x0205, 0x0205); (0x0207, 0x0207);
  (0x0209, 0x0209); (0x020B, 0x020B); (0x020D, 0x020D); (0x020F, 0x020F); (0x0211, 0x0211); (0x0213, 0x0213);
  (0x0215, 0x0215); (0x0217, 0x0217); (0x0219, 0x0219); (0x021B, 0x021B); (0x021D, 0x021D); (0x021F, 0x021F);
  (0x0221, 0x0221); (0x0223, 0x0223); (0x0225, 0x0225); (0x0227, 0x0227); (0x0229, 0x0229); (0x022B, 0x022B);
  (0x022D, 0x022D); (0x022F, 0x022F); (0x0231, 0x0231); (0x0233, 0x0239); (0x023C, 0x023C); (0x023F, 0x0240);
  (0x0242, 0x0242); (0x0247, 0x0247); (0x0249, 0x0249); (0x024B, 0x024B); (0x024D, 0x024D); (0x024F, 0x02AF);
  (0x0371, 0x0371); (0x0373, 0x0373); (0x0377, 0x0377); (0x037B, 0x037D); (0x0390, 0x0390); (0x03AC, 0x03CE);
  (0x03D0, 0x03D1); (0x03D5, 0x03D7); (0x03D9, 0x03D9); (0x03DB, 0x03DB); (0x03DD, 0x03DD); (0x03DF, 0x03DF);
  (0x03E1, 0x03E1); (0x03E3, 0x03E3); (0x03E5, 0x03E5); (0x03E7, 0x03E7); (0x03E9, 0x03E9); (0x03EB, 0x03EB);
  (0x03ED, 0x03ED); (0x03EF, 0x03F3); (0x03F5, 0x03F5); (0x03F8, 0x03F8); (0x03FB, 0x03FC); (0x0430, 0x045F);
  (0x0461, 0x0461); (0x0463, 0x0463); (0x0465, 0x0465); (0x0467, 0x0467); (0x0469, 0x0469); (0x046B, 0x046B);
  (0x046D, 0x046D); (0x046F, 0x046F); (0x0471, 0x0471); (0x0473, 0x0473); (0x0475, 0x0475); (0x0477, 0x0477);
  (0x0479, 0x0479); (0x047B, 0x047B); (0x047D, 0x047D); (0x047F, 0x047F); (0x0481, 0x0481); (0x048B, 0x048B);
  (0x048D, 0x048D); (0x048F, 0x048F); (0x0491, 0x0491); (0x0493, 0x0493); (0x0495, 0x0495); (0x0497, 0x0497);
  (0x0499, 0x0499); (0x049B, 0x049B); (0x049D, 0x049D); (0x049F, 0x049F); (0x04A1, 0x04A1); (0x04A3, 0x04A3);
  (0x04A5, 0x04A5); (0x04A7, 0x04A7); (0x04A9, 0x04A9); (0x04AB, 0x04AB); (0x04AD, 0x04AD); (0x04AF, 0x04AF);
  (0x04B1, 0x04B1); (0x04B3, 0x04B3); (0x04B5, 0x04B5); (0x04B7, 0x04B7); (0x04B9, 0x04B9); (0x04BB, 0x04BB);
  (0x04BD, 0x04BD); (0x04BF, 0x04BF); (0x04C2, 0x04C2); (0x04C4, 0x04C4); (0x04C6, 0x04C6); (0x04C8, 0x04C8);
  (0x04CA, 0x04CA); (0x04CC, 0x04CC); (0x04CE, 0x04CF); (0x04D1, 0x04D1); (0x04D3, 0x04D3); (0x04D5, 0x04D5);
  (0x04D7, 0x04D7); (0x04D9, 0x04D9); (0x04DB, 0x04DB); (0x04DD, 0x04DD); (0x04DF, 0x04DF); (0x04E1, 0x04E1);
  (0x04E3, 0x04E3); (0x04E5, 0x04E5); (0x04E7, 0x04E7); (0x04E9, 0x04E9); (0x04EB, 0x04EB); (0x04ED, 0x04ED);
  (0x04EF, 0x04EF); (0x04F1, 0x04F1); (0x04F3, 0x04F3); (0x04F5, 0x04F5); (0x04F7, 0x04F7); (0x04F9, 0x04F9);
  (0x04FB, 0x04FB); (0x04FD, 0x04FD); (0x04FF, 0x04FF); (0x0501, 0x0501); (0x0503, 0x0503); (0x0505, 0x0505);
  (0x0507, 0x0507); (0x0509, 0x0509); (0x050B, 0x050B); (0x050D, 0x050D); (0x050F, 0x050F); (0x0511, 0x0511);
  (0x0513, 0x0513); (0x0515, 0x0515); (0x0517, 0x0517); (0x0519, 0x0519); (0x051B, 0x051B); (0x051D, 0x051D);
  (0x051F, 0x051F); (0x0521, 0x0521); (0x0523, 0x0523); (0x0525, 0x0525); (0x0527, 0x0527); (0x0529, 0x0529);
  (0x052B, 0x052B); (0x052D, 0x052D); (0x052F, 0x052F); (0x0560, 0x0588); (0x05D0, 0x05EA); (0x05EF, 0x05F2);
  (0x0620, 0x063F); (0x0641, 0x064A); (0x0660, 0x0669); (0x066E, 0x066F); (0x0671, 0x06D3); (0x06D5, 0x06D5);
  (0x06EE, 0x06FC); (0x06FF, 0x06FF); (0x0710, 0x0710); (0x0712, 0x072F); (0x074D, 0x07A5); (0x07B1, 0x07B1);
  (0x07C0, 0x07EA); (0x0800, 0x0815); (0x0840, 0x0858); (0x0860, 0x086A); (0x0870, 0x0887); (0x0889, 0x088E);
  (0x08A0, 0x08C8); (0x0904, 0x0939); (0x093D, 0x093D); (0x0950, 0x0950); (0x0958, 0x0961); (0x0966, 0x096F);
  (0x0972, 0x0980); (0x0985, 0x098C); (0x098F, 0x0990); (0x0993, 0x09A8); (0x09AA, 0x09B0); (0x09B2, 0x09B2);
  (0x09B6, 0x09B9); (0x09BD, 0x09BD); (0x09CE, 0x09CE); (0x09DC, 0x09DD); (0x09DF, 0x09E1); (0x09E6, 0x09F1);
  (0x09F4, 0x09F9); (0x09FC, 0x09FC); (0x0A05, 0x0A0A); (0x0A0F, 0x0A10); (0x0A13, 0x0A28); (0x0A2A, 0x0A30);
  (0x0A32, 0x0A33); (0x0A35, 0x0A36); (0x0A38, 0x0A39); (0x0A59, 0x0A5C); (0x0A5E, 0x0A5E); (0x0A66, 0x0A6F);
  (0x0A72, 0x0A74); (0x0A85, 0x0A8D); (0x0A8F, 0x0A91); (0x0A93, 0x0AA8); (0x0AAA, 0x0AB0); (0x0AB2, 0x0AB3);
  (0x0AB5, 0x0AB9); (0x0ABD, 0x0ABD); (0x0AD0, 0x0AD0); (0x0AE0, 0x0AE1); (0x0AE6, 0x0AEF); (0x0AF9, 0x0AF9);
  (0x0B05, 0x0B0C); (0x0B0F, 0x0B10); (0x0B13, 0x0B28); (0x0B2A, 0x0B30); (0x0B32, 0x0B33); (0x0B35, 0x0B39);
  (0x0B3D, 0x0B3D); (0x0B5C, 0x0B5D); (0x0B5F, 0x0B61); (0x0B66, 0x0B6F); (0x0B71, 0x0B77); (0x0B83, 0x0B83);
  (0x0B85, 0x0B8A); (0x0B8E, 0x0B90); (0x0B92, 0x0B95); (0x0B99, 0x0B9A); (0x0B9C, 0x0B9C); (0x0B9E, 0x0B9F);
  (0x0BA3, 0x0BA4); (0x0BA8, 0x0BAA); (0x0BAE, 0x0BB9); (0x0BD0, 0x0BD0); (0x0BE6, 0x0BF2); (0x0C05, 0x0C0C);
  (0x0C0E, 0x0C10); (0x0C12, 0x0C28); (0x0C2A, 0x0C39); (0x0C3D, 0x0C3D); (0x0C58, 0x0C5A); (0x0C5D, 0x0C5D);
  (0x0C60, 0x0C61); (0x0C66, 0x0C6F); (0x0C78, 0x0C7E); (0x0C80, 0x0C80); (0x0C85, 0x0C8C); (0x0C8E, 0x0C90);
  (0x0C92, 0x0CA8); (0x0CAA, 0x0CB3); (0x0CB5, 0x0CB9); (0x0CBD, 0x0CBD); (0x0CDD, 0x0CDE); (0x0CE0, 0x0CE1);
  (0x0CE6, 0x0CEF); (0x0CF1, 0x0CF2); (0x0D04, 0x0D0C); (0x0D0E, 0x0D10); (0x0D12, 0x0D3A); (0x0D3D, 0x0D3D);
  (0x0D4E, 0x0D4E); (0x0D54, 0x0D56); (0x0D58, 0x0D61); (0x0D66, 0x0D78); (0x0D7A, 0x0D7F); (0x0D85, 0x0D96);
  (0x0D9A, 0x0DB1); (0x0DB3, 0x0DBB); (0x0DBD, 0x0DBD); (0x0DC0, 0x0DC6); (0x0DE6, 0x0DEF); (0x0E01, 0x0E30);
  (0x0E32, 0x0E33); (0x0E40, 0x0E45); (0x0E50, 0x0E59); (0x0E81, 0x0E82); (0x0E84, 0x0E84); (0x0E86, 0x0E8A);
  (0x0E8C, 0x0EA3); (0x0EA5, 0x0EA5); (0x0EA7, 0x0EB0); (0x0EB2, 0x0EB3); (0x0EBD, 0x0EBD); (0x0EC0, 0x0EC4);
  (0x0ED0, 0x0ED9); (0x0EDC, 0x0EDF); (0x0F00, 0x0F00); (0x0F20, 0x0F33); (0x0F40, 0x0F47); (0x0F49, 0x0F6C);
  (0x0F88, 0x0F8C); (0x1000, 0x102A); (0x103F, 0x1049); (0x1050, 0x1055); (0x105A, 0x105D); (0x1061, 0x1061);
  (0x1065, 0x1066); (0x106E, 0x1070); (0x1075, 0x1081); (0x108E, 0x108E); (0x1090, 0x1099); (0x10D0, 0x10FA);
  (0x10FD, 0x1248); (0x124A, 0x124D); (0x1250, 0x1256); (0x1258, 0x1258); (0x125A, 0x125D); (0x1260, 0x1288);
  (0x128A, 0x128D); (0x1290, 0x12B0); (0x12B2, 0x12B5); (0x12B8, 0x12BE); (0x12C0, 0x12C0); (0x12C2, 0x12C5);
  (0x12C8, 0x12D6); (0x12D8, 0x1310); (0x1312, 0x1315); (0x1318, 0x135A); (0x1369, 0x137C); (0x1380, 0x138F);
  (0x13F8, 0x13FD); (0x1401, 0x166C); (0x166F, 0x167F); (0x1681, 0x169A); (0x16A0, 0x16EA); (0x16EE, 0x16F8);
  (0x1700, 0x1711); (0x171F, 0x1731); (0x1740, 0x1751); (0x1760, 0x176C); (0x176E, 0x1770); (0x1780, 0x17B3);
  (0x17DC, 0x17DC); (0x17E0, 0x17E9); (0x17F0, 0x17F9); (0x1810, 0x1819); (0x1820, 0x1842); (0x1844, 0x1878);
  (0x1880, 0x1884); (0x1887, 0x18A8); (0x18AA, 0x18AA); (0x18B0, 0x18F5); (0x1900, 0x191E); (0x1946, 0x196D);
  (0x1970, 0x1974); (0x1980, 0x19AB); (0x19B0, 0x19C9); (0x19D0, 0x19DA); (0x1A00, 0x1A16); (0x1A20, 0x1A54);
  (0x1A80, 0x1A89); (0x1A90, 0x1A99); (0x1B05, 0x1B33); (0x1B45, 0x1B4C); (0x1B50, 0x1B59); (0x1B83, 0x1BA0);
  (0x1BAE, 0x1BE5); (0x1C00, 0x1C23); (0x1C40, 0x1C49); (0x1C4D, 0x1C77); (0x1C80, 0x1C88); (0x1C8A, 0x1C8A);
  (0x1CE9, 0x1CEC); (0x1CEE, 0x1CF3); (0x1CF5, 0x1CF6); (0x1CFA, 0x1CFA); (0x1D00, 0x1D2B); (0x1D6B, 0x1D77);
  (0x1D79, 0x1D9A); (0x1E01, 0x1E01); (0x1E03, 0x1E03); (0x1E05, 0x1E05); (0x1E07, 0x1E07); (0x1E09, 0x1E09);
  (0x1E0B, 0x1E0B); (0x1E0D, 0x1E0D); (0x1E0F, 0x1E0F); (0x1E11, 0x1E11); (0x1E13, 0x1E13); (0x1E15, 0x1E15);
  (0x1E17, 0x1E17); (0x1E19, 0x1E19); (0x1E1B, 0x1E1B); (0x1E1D, 0x1E1D); (0x1E1F, 0x1E1F); (0x1E21, 0x1E21);
  (0x1E23, 0x1E23); (0x1E25, 0x1E25); (0x1E27, 0x1E27); (0x1E29, 0x1E29); (0x1E2B, 0x1E2B); (0x1E2D, 0x1E2D);
  (0x1E2F, 0x1E2F); (0x1E31, 0x1E31); (0x1E33, 0x1E33); (0x1E35, 0x1E35); (0x1E37, 0x1E37); (0x1E39, 0x1E39);
  (0x1E3B, 0x1E3B); (0x1E3D, 0x1E3D); (0x1E3F, 0x1E3F); (0x1E41, 0x1E41); (0x1E43, 0x1E43); (0x1E45, 0x1E45);
  (0x1E47, 0x1E47); (0x1E49, 0x1E49); (0x1E4B, 0x1E4B); (0x1E4D, 0x1E4D); (0x1E4F, 0x1E4F); (0x1E51, 0x1E51);
  (0x1E53, 0x1E53); (0x1E55, 0x1E55); (0x1E57, 0x1E57); (0x1E59, 0x1E59); (0x1E5B, 0x1E5B); (0x1E5D, 0x1E5D);
  (0x1E5F, 0x1E5F); (0x1E61, 0x1E61); (0x1E63, 0x1E63); (0x1E65, 0x1E65); (0x1E67, 0x1E67); (0x1E69, 0x1E69);
  (0x1E6B, 0x1E6B); (0x1E6D, 0x1E6D); (0x1E6F, 0x1E6F); (0x1E71, 0x1E71); (0x1E73, 0x1E73); (0x1E75, 0x1E75);
  (0x1E77, 0x1E77); (0x1E79, 0x1E79); (0x1E7B, 0x1E7B); (0x1E7D, 0x1E7D); (0x1E7F, 0x1E7F); (0x1E81, 0x1E81);
  (0x1E83, 0x1E83); (0x1E85, 0x1E85); (0x1E87, 0x1E87); (0x1E89, 0x1E89); (0x1E8B, 0x1E8B); (0x1E8D, 0x1E8D);
  (0x1E8F, 0x1E8F); (0x1E91, 0x1E91); (0x1E93, 0x1E93); (0x1E95, 0x1E9D); (0x1E9F, 0x1E9F); (0x1EA1, 0x1EA1);
  (0x1EA3, 0x1EA3); (0x1EA5, 0x1EA5); (0x1EA7, 0x1EA7); (0x1EA9, 0x1EA9); (0x1EAB, 0x1EAB); (0x1EAD, 0x1EAD);
  (0x1EAF, 0x1EAF); (0x1EB1, 0x1EB1); (0x1EB3, 0x1EB3); (0x1EB5, 0x1EB5); (0x1EB7, 0x1EB7); (0x1EB9, 0x1EB9);
  (0x1EBB, 0x1EBB); (0x1EBD, 0x1EBD); (0x1EBF, 0x1EBF); (0x1EC1, 0x1EC1); (0x1EC3, 0x1EC3); (0x1EC5, 0x1EC5);
  (0x1EC7, 0x1EC7); (0x1EC9, 0x1EC9); (0x1ECB, 0x1ECB); (0x1ECD, 0x1ECD); (0x1ECF, 0x1ECF); (0x1ED1, 0x1ED1);
  (0x1ED3, 0x1ED3); (0x1ED5, 0x1ED5); (0x1ED7, 0x1ED7); (0x1ED9, 0x1ED9); (0x1EDB, 0x1EDB); (0x1EDD, 0x1EDD);
  (0x1EDF, 0x1EDF); (0x1EE1, 0x1EE1); (0x1EE3, 0x1EE3); (0x1EE5, 0x1EE5); (0x1EE7, 0x1EE7); (0x1EE9, 0x1EE9);
  (0x1EEB, 0x1EEB); (0x1EED, 0x1EED); (0x1EEF, 0x1EEF); (0x1EF1, 0x1EF1); (0x1EF3, 0x1EF3); (0x1EF5, 0x1EF5);
  (0x1EF7, 0x1EF7); (0x1EF9, 0x1EF9); (0x1EFB, 0x1EFB); (0x1EFD, 0x1EFD); (0x1EFF, 0x1F07); (0x1F10, 0x1F15);
  (0x1F20, 0x1F27); (0x1F30, 0x1F37); (0x1F40, 0x1F45); (0x1F50, 0x1F57); (0x1F60, 0x1F67); (0x1F70, 0x1F7D);
  (0x1F80, 0x1F87); (0x1F90, 0x1F97); (0x1FA0, 0x1FA7); (0x1FB0, 0x1FB4); (0x1FB6, 0x1FB7); (0x1FBE, 0x1FBE);
  (0x1FC2, 0x1FC4); (0x1FC6, 0x1FC7); (0x1FD0, 0x1FD3); (0x1FD6, 0x1FD7); (0x1FE0, 0x1FE7); (0x1FF2, 0x1FF4);
  (0x1FF6, 0x1FF7); (0x2070, 0x2070); (0x2074, 0x2079); (0x2080, 0x2089); (0x210A, 0x210A); (0x210E, 0x210F);
  (0x2113, 0x2113); (0x212F, 0x212F); (0x2134, 0x2139); (0x213C, 0x213D); (0x2146, 0x2149); (0x214E, 0x214E);
  (0x2150, 0x2182); (0x2184, 0x2189); (0x2460, 0x249B); (0x24EA, 0x24FF); (0x2776, 0x2793); (0x2C30, 0x2C5F);
  (0x2C61, 0x2C61); (0x2C65, 0x2C66); (0x2C68, 0x2C68); (0x2C6A, 0x2C6A); (0x2C6C, 0x2C6C); (0x2C71, 0x2C71);
  (0x2C73, 0x2C74); (0x2C76, 0x2C7B); (0x2C81, 0x2C81); (0x2C83, 0x2C83); (0x2C85, 0x2C85); (0x2C87, 0x2C87);
  (0x2C89, 0x2C89); (0x2C8B, 0x2C8B); (0x2C8D, 0x2C8D); (0x2C8F, 0x2C8F); (0x2C91, 0x2C91); (0x2C93, 0x2C93);
  (0x2C95, 0x2C95); (0x2C97, 0x2C97); (0x2C99, 0x2C99); (0x2C9B, 0x2C9B); (0x2C9D, 0x2C9D); (0x2C9F, 0x2C9F);
  (0x2CA1, 0x2CA1); (0x2CA3, 0x2CA3); (0x2CA5, 0x2CA5); (0x2CA7, 0x2CA7); (0x2CA9, 0x2CA9); (0x2CAB, 0x2CAB);
  (0x2CAD, 0x2CAD); (0x2CAF, 0x2CAF); (0x2CB1, 0x2CB1); (0x2CB3, 0x2CB3); (0x2CB5, 0x2CB5); (0x2CB7, 0x2CB7);
  (0x2CB9, 0x2CB9); (0x2CBB, 0x2CBB); (0x2CBD, 0x2CBD); (0x2CBF, 0x2CBF); (0x2CC1, 0x2CC1); (0x2CC3, 0x2CC3);
  (0x2CC5, 0x2CC5); (0x2CC7, 0x2CC7); (0x2CC9, 0x2CC9); (0x2CCB, 0x2CCB); (0x2CCD, 0x2CCD); (0x2CCF, 0x2CCF);
  (0x2CD1, 0x2CD1); (0x2CD3, 0x2CD3); (0x2CD5, 0x2CD5); (0x2CD7, 0x2CD7); (0x2CD9, 0x2CD9); (0x2CDB, 0x2CDB);
  (0x2CDD, 0x2CDD); (0x2CDF, 0x2CDF); (0x2CE1, 0x2CE1); (0x2CE3, 0x2CE4); (0x2CEC, 0x2CEC); (0x2CEE, 0x2CEE);
  (0x2CF3, 0x2CF3); (0x2CFD, 0x2CFD); (0x2D00, 0x2D25); (0x2D27, 0x2D27); (0x2D2D, 0x2D2D); (0x2D30, 0x2D67);
  (0x2D80, 0x2D96); (0x2DA0, 0x2DA6); (0x2DA8, 0x2DAE); (0x2DB0, 0x2DB6); (0x2DB8, 0x2DBE); (0x2DC0, 0x2DC6);
  (0x2DC8, 0x2DCE); (0x2DD0, 0x2DD6); (0x2DD8, 0x2DDE); (0x3006, 0x3007); (0x3021, 0x3029); (0x3038, 0x303A);
  (0x303C, 0x303C); (0x3041, 0x3096); (0x309F, 0x309F); (0x30A1, 0x30FA); (0x30FF, 0x30FF); (0x3105, 0x312F);
  (0x3131, 0x318E); (0x3192, 0x3195); (0x31A0, 0x31BF); (0x31F0, 0x31FF); (0x3220, 0x3229); (0x3248, 0x324F);
  (0x3251, 0x325F); (0x3280, 0x3289); (0x32B1, 0x32BF); (0x3400, 0x4DBF); (0x4E00, 0xA014); (0xA016, 0xA48C);
  (0xA4D0, 0xA4F7); (0xA500, 0xA60B); (0xA610, 0xA62B); (0xA641, 0xA641); (0xA643, 0xA643); (0xA645, 0xA645);
  (0xA647, 0xA647); (0xA649, 0xA649); (0xA64B, 0xA64B); (0xA64D, 0xA64D); (0xA64F, 0xA64F); (0xA651, 0xA651);
  (0xA653, 0xA653); (0xA655, 0xA655); (0xA657, 0xA657); (0xA659, 0xA659); (0xA65B, 0xA65B); (0xA65D, 0xA65D);
  (0xA65F, 0xA65F); (0xA661, 0xA661); (0xA663, 0xA663); (0xA665, 0xA665); (0xA667, 0xA667); (0xA669, 0xA669);
  (0xA66B, 0xA66B); (0xA66D, 0xA66E); (0xA681, 0xA681); (0xA683, 0xA683); (0xA685, 0xA685); (0xA687, 0xA687);
  (0xA689, 0xA689); (0xA68B, 0xA68B); (0xA68D, 0xA68D); (0xA68F, 0xA68F); (0xA691, 0xA691); (0xA693, 0xA693);
  (0xA695, 0xA695); (0xA697, 0xA697); (0xA699, 0xA699); (0xA69B, 0xA69B); (0xA6A0, 0xA6EF); (0xA723, 0xA723);
  (0xA725, 0xA725); (0xA727, 0xA727); (0xA729, 0xA729); (0xA72B, 0xA72B); (0xA72D, 0xA72D); (0xA72F, 0xA731);
  (0xA733, 0xA733); (0xA735, 0xA735); (0xA737, 0xA737); (0xA739, 0xA739); (0xA73B, 0xA73B); (0xA73D, 0xA73D);
  (0xA73F, 0xA73F); (0xA741, 0xA741); (0xA743, 0xA743); (0xA745, 0xA745); (0xA747, 0xA747); (0xA749, 0xA749);
  (0xA74B, 0xA74B); (0xA74D, 0xA74D); (0xA74F, 0xA74F); (0xA751, 0xA751); (0xA753, 0xA753); (0xA755, 0xA755);
  (0xA757, 0xA757); (0xA759, 0xA759); (0xA75B, 0xA75B); (0xA75D, 0xA75D); (0xA75F, 0xA75F); (0xA761, 0xA761);
  (0xA763, 0xA763); (0xA765, 0xA765); (0xA767, 0xA767); (0xA769, 0xA769); (0xA76B, 0xA76B); (0xA76D, 0xA76D);
  (0xA76F, 0xA76F); (0xA771, 0xA778); (0xA77A, 0xA77A); (0xA77C, 0xA77C); (0xA77F, 0xA77F); (0xA781, 0xA781);
  (0xA783, 0xA783); (0xA785, 0xA785); (0xA787, 0xA787); (0xA78C, 0xA78C); (0xA78E, 0xA78F); (0xA791, 0xA791);
  (0xA793, 0xA795); (0xA797, 0xA797); (0xA799, 0xA799); (0xA79B, 0xA79B); (0xA79D, 0xA79D); (0xA79F, 0xA79F);
  (0xA7A1, 0xA7A1); (0xA7A3, 0xA7A3); (0xA7A5, 0xA7A5); (0xA7A7, 0xA7A7); (0xA7A9, 0xA7A9); (0xA7AF, 0xA7AF);
  (0xA7B5, 0xA7B5); (0xA7B7, 0xA7B7); (0xA7B9, 0xA7B9); (0xA7BB, 0xA7BB); (0xA7BD, 0xA7BD); (0xA7BF, 0xA7BF);
  (0xA7C1, 0xA7C1); (0xA7C3, 0xA7C3); (0xA7C8, 0xA7C8); (0xA7CA, 0xA7CA); (0xA7CD, 0xA7CD); (0xA7D1, 0xA7D1);
  (0xA7D3, 0xA7D3); (0xA7D5, 0xA7D5); (0xA7D7, 0xA7D7); (0xA7D9, 0xA7D9); (0xA7DB, 0xA7DB); (0xA7F6, 0xA7F7);
  (0xA7FA, 0xA801); (0xA803, 0xA805); (0xA807, 0xA80A); (0xA80C, 0xA822); (0xA830, 0xA835); (0xA840, 0xA873);
  (0xA882, 0xA8B3); (0xA8D0, 0xA8D9); (0xA8F2, 0xA8F7); (0xA8FB, 0xA8FB); (0xA8FD, 0xA8FE); (0xA900, 0xA925);
  (0xA930, 0xA946); (0xA960, 0xA97C); (0xA984, 0xA9B2); (0xA9D0, 0xA9D9); (0xA9E0, 0xA9E4); (0xA9E7, 0xA9FE);
  (0xAA00, 0xAA28); (0xAA40, 0xAA42); (0xAA44, 0xAA4B); (0xAA50, 0xAA59); (0xAA60, 0xAA6F); (0xAA71, 0xAA76);
  (0xAA7A, 0xAA7A); (0xAA7E, 0xAAAF); (0xAAB1, 0xAAB1); (0xAAB5, 0xAAB6); (0xAAB9, 0xAABD); (0xAAC0, 0xAAC0);
  (0xAAC2, 0xAAC2); (0xAADB, 0xAADC); (0xAAE0, 0xAAEA); (0xAAF2, 0xAAF2); (0xAB01, 0xAB06); (0xAB09, 0xAB0E);
  (0xAB11, 0xAB16); (0xAB20, 0xAB26); (0xAB28, 0xAB2E); (0xAB30, 0xAB5A); (0xAB60, 0xAB68); (0xAB70, 0xABE2);
  (0xABF0, 0xABF9); (0xAC00, 0xD7A3); (0xD7B0, 0xD7C6); (0xD7CB, 0xD7FB); (0xF900, 0xFA6D); (0xFA70, 0xFAD9);
  (0xFB00, 0xFB06); (0xFB13, 0xFB17); (0xFB1D, 0xFB1D); (0xFB1F, 0xFB28); (0xFB2A, 0xFB36); (0xFB38, 0xFB3C);
  (0xFB3E, 0xFB3E); (0xFB40, 0xFB41); (0xFB43, 0xFB44); (0xFB46, 0xFBB1); (0xFBD3, 0xFD3D); (0xFD50, 0xFD8F);
  (0xFD92, 0xFDC7); (0xFDF0, 0xFDFB); (0xFE70, 0xFE74); (0xFE76, 0xFEFC); (0xFF10, 0xFF19); (0xFF41, 0xFF5A);
  (0xFF66, 0xFF6F); (0xFF71, 0xFF9D); (0xFFA0, 0xFFBE); (0xFFC2, 0xFFC7); (0xFFCA, 0xFFCF); (0xFFD2, 0xFFD7);
  (0xFFDA, 0xFFDC); (0x10000, 0x1000B); (0x1000D, 0x10026); (0x10028, 0x1003A); (0x1003C, 0x1003D); (0x1003F, 0x1004D);
  (0x10050, 0x1005D); (0x10080, 0x100FA); (0x10107, 0x10133); (0x10140, 0x10178); (0x1018A, 0x1018B);
  (0x10280, 0x1029C); (0x102A0, 0x102D0); (0x102E1, 0x102FB); (0x10300, 0x10323); (0x1032D, 0x1034A);
  (0x10350, 0x10375); (0x10380, 0x1039D); (0x103A0, 0x103C3); (0x103C8, 0x103CF); (0x103D1, 0x103D5);
  (0x10428, 0x1049D); (0x104A0, 0x104A9); (0x104D8, 0x104FB); (0x10500, 0x10527); (0x10530, 0x10563);
  (0x10597, 0x105A1); (0x105A3, 0x105B1); (0x105B3, 0x105B9); (0x105BB, 0x105BC); (0x105C0, 0x105F3);
  (0x10600, 0x10736); (0x10740, 0x10755); (0x10760, 0x10767); (0x10800, 0x10805); (0x10808, 0x10808);
  (0x1080A, 0x10835); (0x10837, 0x10838); (0x1083C, 0x1083C); (0x1083F, 0x10855); (0x10858, 0x10876);
  (0x10879, 0x1089E); (0x108A7, 0x108AF); (0x108E0, 0x108F2); (0x108F4, 0x108F5); (0x108FB, 0x1091B);
  (0x10920, 0x10939); (0x10980, 0x109B7); (0x109BC, 0x109CF); (0x109D2, 0x10A00); (0x10A10, 0x10A13);
  (0x10A15, 0x10A17); (0x10A19, 0x10A35); (0x10A40, 0x10A48); (0x10A60, 0x10A7E); (0x10A80, 0x10A9F);
  (0x10AC0, 0x10AC7); (0x10AC9, 0x10AE4); (0x10AEB, 0x10AEF); (0x10B00, 0x10B35); (0x10B40, 0x10B55);
  (0x10B58, 0x10B72); (0x10B78, 0x10B91); (0x10BA9, 0x10BAF); (0x10C00, 0x10C48); (0x10CC0, 0x10CF2);
  (0x10CFA, 0x10D23); (0x10D30, 0x10D39); (0x10D40, 0x10D4D); (0x10D4F, 0x10D4F); (0x10D70, 0x10D85);
  (0x10E60, 0x10E7E); (0x10E80, 0x10EA9); (0x10EB0, 0x10EB1); (0x10EC2, 0x10EC4); (0x10F00, 0x10F27);
  (0x10F30, 0x10F45); (0x10F51, 0x10F54); (0x10F70, 0x10F81); (0x10FB0, 0x10FCB); (0x10FE0, 0x10FF6);
  (0x11003, 0x11037); (0x11052, 0x1106F); (0x11071, 0x11072); (0x11075, 0x11075); (0x11083, 0x110AF);
  (0x110D0, 0x110E8); (0x110F0, 0x110F9); (0x11103, 0x11126); (0x11136, 0x1113F); (0x11144, 0x11144);
  (0x11147, 0x11147); (0x11150, 0x11172); (0x11176, 0x11176); (0x11183, 0x111B2); (0x111C1, 0x111C4);
  (0x111D0, 0x111DA); (0x111DC, 0x111DC); (0x111E1, 0x111F4); (0x11200, 0x11211); (0x11213, 0x1122B);
  (0x1123F, 0x11240); (0x11280, 0x11286); (0x11288, 0x11288); (0x1128A, 0x1128D); (0x1128F, 0x1129D);
  (0x1129F, 0x112A8); (0x112B0, 0x112DE); (0x112F0, 0x112F9); (0x11305, 0x1130C); (0x1130F, 0x11310);
  (0x11313, 0x11328); (0x1132A, 0x11330); (0x11332, 0x11333); (0x11335, 0x11339); (0x1133D, 0x1133D);
  (0x11350, 0x11350); (0x1135D, 0x11361); (0x11380, 0x11389); (0x1138B, 0x1138B); (0x1138E, 0x1138E);
  (0x11390, 0x113B5); (0x113B7, 0x113B7); (0x113D1, 0x113D1); (0x113D3, 0x113D3); (0x11400, 0x11434);
  (0x11447, 0x1144A); (0x11450, 0x11459); (0x1145F, 0x11461); (0x11480, 0x114AF); (0x114C4, 0x114C5);
  (0x114C7, 0x114C7); (0x114D0, 0x114D9); (0x11580, 0x115AE); (0x115D8, 0x115DB); (0x11600, 0x1162F);
  (0x11644, 0x11644); (0x11650, 0x11659); (0x11680, 0x116AA); (0x116B8, 0x116B8); (0x116C0, 0x116C9);
  (0x116D0, 0x116E3); (0x11700, 0x1171A); (0x11730, 0x1173B); (0x11740, 0x11746); (0x11800, 0x1182B);
  (0x118C0, 0x118F2); (0x118FF, 0x11906); (0x11909, 0x11909); (0x1190C, 0x11913); (0x11915, 0x11916);
  (0x11918, 0x1192F); (0x1193F, 0x1193F); (0x11941, 0x11941); (0x11950, 0x11959); (0x119A0, 0x119A7);
  (0x119AA, 0x119D0); (0x119E1, 0x119E1); (0x119E3, 0x119E3); (0x11A00, 0x11A00); (0x11A0B, 0x11A32);
  (0x11A3A, 0x11A3A); (0x11A50, 0x11A50); (0x11A5C, 0x11A89); (0x11A9D, 0x11A9D); (0x11AB0, 0x11AF8);
  (0x11BC0, 0x11BE0); (0x11BF0, 0x11BF9); (0x11C00, 0x11C08); (0x11C0A, 0x11C2E); (0x11C40, 0x11C40);
  (0x11C50, 0x11C6C); (0x11C72, 0x11C8F); (0x11D00, 0x11D06); (0x11D08, 0x11D09); (0x11D0B, 0x11D30);
  (0x11D46, 0x11D46); (0x11D50, 0x11D59); (0x11D60, 0x11D65); (0x11D67, 0x11D68); (0x11D6A, 0x11D89);
  (0x11D98, 0x11D98); (0x11DA0, 0x11DA9); (0x11EE0, 0x11EF2); (0x11F02, 0x11F02); (0x11F04, 0x11F10);
  (0x11F12, 0x11F33); (0x11F50, 0x11F59); (0x11FB0, 0x11FB0); (0x11FC0, 0x11FD4); (0x12000, 0x12399);
  (0x12400, 0x1246E); (0x12480, 0x12543); (0x12F90, 0x12FF0); (0x13000, 0x1342F); (0x13441, 0x13446);
  (0x13460, 0x143FA); (0x14400, 0x14646); (0x16100, 0x1611D); (0x16130, 0x16139); (0x16800, 0x16A38);
  (0x16A40, 0x16A5E); (0x16A60, 0x16A69); (0x16A70, 0x16ABE); (0x16AC0, 0x16AC9); (0x16AD0, 0x16AED);
  (0x16B00, 0x16B2F); (0x16B50, 0x16B59); (0x16B5B, 0x16B61); (0x16B63, 0x16B77); (0x16B7D, 0x16B8F);
  (0x16D43, 0x16D6A); (0x16D70, 0x16D79); (0x16E60, 0x16E96); (0x16F00, 0x16F4A); (0x16F50, 0x16F50);
  (0x17000, 0x187F7); (0x18800, 0x18CD5); (0x18CFF, 0x18D08); (0x1B000, 0x1B122); (0x1B132, 0x1B132);
  (0x1B150, 0x1B152); (0x1B155, 0x1B155); (0x1B164, 0x1B167); (0x1B170, 0x1B2FB); (0x1BC00, 0x1BC6A);
  (0x1BC70, 0x1BC7C); (0x1BC80, 0x1BC88); (0x1BC90, 0x1BC99); (0x1CCF0, 0x1CCF9); (0x1D2C0, 0x1D2D3);
  (0x1D2E0, 0x1D2F3); (0x1D360, 0x1D378); (0x1D41A, 0x1D433); (0x1D44E, 0x1D454); (0x1D456, 0x1D467);
  (0x1D482, 0x1D49B); (0x1D4B6, 0x1D4B9); (0x1D4BB, 0x1D4BB); (0x1D4BD, 0x1D4C3); (0x1D4C5, 0x1D4CF);
  (0x1D4EA, 0x1D503); (0x1D51E, 0x1D537); (0x1D552, 0x1D56B); (0x1D586, 0x1D59F); (0x1D5BA, 0x1D5D3);
  (0x1D5EE, 0x1D607); (0x1D622, 0x1D63B); (0x1D656, 0x1D66F); (0x1D68A, 0x1D6A5); (0x1D6C2, 0x1D6DA);
  (0x1D6DC, 0x1D6E1); (0x1D6FC, 0x1D714); (0x1D716, 0x1D71B); (0x1D736, 0x1D74E); (0x1D750, 0x1D755);
  (0x1D770, 0x1D788); (0x1D78A, 0x1D78F); (0x1D7AA, 0x1D7C2); (0x1D7C4, 0x1D7C9); (0x1D7CB, 0x1D7CB);
  (0x1D7CE, 0x1D7FF); (0x1DF00, 0x1DF1E); (0x1DF25, 0x1DF2A); (0x1E100, 0x1E12C); (0x1E140, 0x1E149);
  (0x1E14E, 0x1E14E); (0x1E290, 0x1E2AD); (0x1E2C0, 0x1E2EB); (0x1E2F0, 0x1E2F9); (0x1E4D0, 0x1E4EA);
  (0x1E4F0, 0x1E4F9); (0x1E5D0, 0x1E5ED); (0x1E5F0, 0x1E5FA); (0x1E7E0, 0x1E7E6); (0x1E7E8, 0x1E7EB);
  (0x1E7ED, 0x1E7EE); (0x1E7F0, 0x1E7FE); (0x1E800, 0x1E8C4); (0x1E8C7, 0x1E8CF); (0x1E922, 0x1E943);
  (0x1E950, 0x1E959); (0x1EC71, 0x1ECAB); (0x1ECAD, 0x1ECAF); (0x1ECB1, 0x1ECB4); (0x1ED01, 0x1ED2D);
  (0x1ED2F, 0x1ED3D); (0x1EE00, 0x1EE03); (0x1EE05, 0x1EE1F); (0x1EE21, 0x1EE22); (0x1EE24, 0x1EE24);
  (0x1EE27, 0x1EE27); (0x1EE29, 0x1EE32); (0x1EE34, 0x1EE37); (0x1EE39, 0x1EE39); (0x1EE3B, 0x1EE3B);
  (0x1EE42, 0x1EE42); (0x1EE47, 0x1EE47); (0x1EE49, 0x1EE49); (0x1EE4B, 0x1EE4B); (0x1EE4D, 0x1EE4F);
  (0x1EE51, 0x1EE52); (0x1EE54, 0x1EE54); (0x1EE57, 0x1EE57); (0x1EE59, 0x1EE59); (0x1EE5B, 0x1EE5B);
  (0x1EE5D, 0x1EE5D); (0x1EE5F, 0x1EE5F); (0x1EE61, 0x1EE62); (0x1EE64, 0x1EE64); (0x1EE67, 0x1EE6A);
  (0x1EE6C, 0x1EE72); (0x1EE74, 0x1EE77); (0x1EE79, 0x1EE7C); (0x1EE7E, 0x1EE7E); (0x1EE80, 0x1EE89);
  (0x1EE8B, 0x1EE9B); (0x1EEA1, 0x1EEA3); (0x1EEA5, 0x1EEA9); (0x1EEAB, 0x1EEBB); (0x1F100, 0x1F10C);
  (0x1FBF0, 0x1FBF9); (0x20000, 0x2A6DF); (0x2A700, 0x2B739); (0x2B740, 0x2B81D); (0x2B820, 0x2CEA1);
  (0x2CEB0, 0x2EBE0); (0x2EBF0, 0x2EE5D); (0x2F800, 0x2FA1D); (0x30000, 0x3134A); (0x31350, 0x323AF)
].

Definition LETTER_RANGES : list (Z * Z) := [
  (0x0061, 0x007A); (0x00AA, 0x00AA); (0x00B5, 0x00B5); (0x00BA, 0x00BA); (0x00DF, 0x00F6); (0x00F8, 0x00FF);
  (0x0101, 0x0101); (0x0103, 0x0103); (0x0105, 0x0105); (0x0107, 0x0107); (0x0109, 0x0109); (0x010B, 0x010B);
  (0x010D, 0x010D); (0x010F, 0x010F); (0x0111, 0x0111); (0x0113, 0x0113); (0x0115, 0x0115); (0x0117, 0x0117);
  (0x0119, 0x0119); (0x011B, 0x011B); (0x011D, 0x011D); (0x011F, 0x011F); (0x0121, 0x0121); (0x0123, 0x0123);
  (0x0125, 0x0125); (0x0127, 0x0127); (0x0129, 0x0129); (0x012B, 0x012B); (0x012D, 0x012D); (0x012F, 0x012F);
  (0x0131, 0x0131); (0x0133, 0x0133); (0x0135, 0x0135); (0x0137, 0x0138); (0x013A, 0x013A); (0x013C, 0x013C);
  (0x013E, 0x013E); (0x0140, 0x0140); (0x0142, 0x0142); (0x0144, 0x0144); (0x0146, 0x0146); (0x0148, 0x0149);
  (0x014B, 0x014B); (0x014D, 0x014D); (0x014F, 0x014F); (0x0151, 0x0151); (0x0153, 0x0153); (0x0155, 0x0155);
  (0x0157, 0x0157); (0x0159, 0x0159); (0x015B, 0x015B); (0x015D, 0x015D); (0x015F, 0x015F); (0x0161, 0x0161);
  (0x0163, 0x0163); (0x0165, 0x0165); (0x0167, 0x0167); (0x0169, 0x0169); (0x016B, 0x016B); (0x016D, 0x016D);
  (0x016F, 0x016F); (0x0171, 0x0171); (0x0173, 0x0173); (0x0175, 0x0175); (0x0177, 0x0177); (0x017A, 0x017A);
  (0x017C, 0x017C); (0x017E, 0x0180); (0x0183, 0x0183); (0x0185, 0x0185); (0x0188, 0x0188); (0x018C, 0x018D);
  (0x0192, 0x0192); (0x0195, 0x0195); (0x0199, 0x019B); (0x019E, 0x019E); (0x01A1, 0x01A1); (0x01A3, 0x01A3);
  (0x01A5, 0x01A5); (0x01A8, 0x01A8); (0x01AA, 0x01AB); (0x01AD, 0x01AD); (0x01B0, 0x01B0); (0x01B4, 0x01B4);
  (0x01B6, 0x01B6); (0x01B9, 0x01BB); (0x01BD, 0x01C3); (0x01C6, 0x01C6); (0x01C9, 0x01C9); (0x01CC, 0x01CC);
  (0x01CE, 0x01CE); (0x01D0, 0x01D0); (0x01D2, 0x01D2); (0x01D4, 0x01D4); (0x01D6, 0x01D6); (0x01D8, 0x01D8);
  (0x01DA, 0x01DA); (0x01DC, 0x01DD); (0x01DF, 0x01DF); (0x01E1, 0x01E1); (0x01E3, 0x01E3); (0x01E5, 0x01E5);
  (0x01E7, 0x01E7); (0x01E9, 0x01E9); (0x01EB, 0x01EB); (0x01ED, 0x01ED); (0x01EF, 0x01F0); (0x01F3, 0x01F3);
  (0x01F5, 0x01F5); (0x01F9, 0x01F9); (0x01FB, 0x01FB); (0x01FD, 0x01FD); (0x01FF, 0x01FF); (0x0201, 0x0201);
  (0x0203, 0x0203); (0x0205, 0x0205); (0x0207, 0x0207); (0x0209, 0x0209); (0x020B, 0x020B); (0x020D, 0x020D);
  (0x020F, 0x020F); (0x0211, 0x0211); (0x0213, 0x0213); (0x0215, 0x0215); (0x0217, 0x0217); (0x0219, 0x0219);
  (0x021B, 0x021B); (0x021D, 0x021D); (0x021F, 0x021F); (0x0221, 0x0221); (0x0223, 0x0223); (0x0225, 0x0225);
  (0x0227, 0x0227); (0x0229, 0x0229); (0x022B, 0x022B); (0x022D, 0x022D); (0x022F, 0x022F); (0x0231, 0x0231);
  (0x0233, 0x0239); (0x023C, 0x023C); (0x023F, 0x0240); (0x0242, 0x0242); (0x0247, 0x0247); (0x0249, 0x0249);
  (0x024B, 0x024B); (0x024D, 0x024D); (0x024F, 0x02AF); (0x0371, 0x0371); (0x0373, 0x0373); (0x0377, 0x0377);
  (0x037B, 0x037D); (0x0390, 0x0390); (0x03AC, 0x03CE); (0x03D0, 0x03D1); (0x03D5, 0x03D7); (0x03D9, 0x03D9);
  (0x03DB, 0x03DB); (0x03DD, 0x03DD); (0x03DF, 0x03DF); (0x03E1, 0x03E1); (0x03E3, 0x03E3); (0x03E5, 0x03E5);
  (0x03E7, 0x03E7); (0x03E9, 0x03E9); (0x03EB, 0x03EB); (0x03ED, 0x03ED); (0x03EF, 0x03F3); (0x03F5, 0x03F5);
  (0x03F8, 0x03F8); (0x03FB, 0x03FC); (0x0430, 0x045F); (0x0461, 0x0461); (0x0463, 0x0463); (0x0465, 0x0465);
  (0x0467, 0x0467); (0x0469, 0x0469); (0x046B, 0x046B); (0x046D, 0x046D); (0x046F, 0x046F); (0x0471, 0x0471);
  (0x0473, 0x0473); (0x0475, 0x0475); (0x0477, 0x0477); (0x0479, 0x0479); (0x047B, 0x047B); (0x047D, 0x047D);
  (0x047F, 0x047F); (0x0481, 0x0481); (0x048B, 0x048B); (0x048D, 0x048D); (0x048F, 0x048F); (0x0491, 0x0491);
  (0x0493, 0x0493); (0x0495, 0x0495); (0x0497, 0x0497); (0x0499, 0x0499); (0x049B, 0x049B); (0x049D, 0x049D);
  (0x049F, 0x049F); (0x04A1, 0x04A1); (0x04A3, 0x04A3); (0x04A5, 0x04A5); (0x04A7, 0x04A7); (0x04A9, 0x04A9);
  (0x04AB, 0x04AB); (0x04AD, 0x04AD); (0x04AF, 0x04AF); (0x04B1, 0x04B1); (0x04B3, 0x04B3); (0x04B5, 0x04B5);
  (0x04B7, 0x04B7); (0x04B9, 0x04B9); (0x04BB, 0x04BB); (0x04BD, 0x04BD); (0x04BF, 0x04BF); (0x04C2, 0x04C2);
  (0x04C4, 0x04C4); (0x04C6, 0x04C6); (0x04C8, 0x04C8); (0x04CA, 0x04CA); (0x04CC, 0x04CC); (0x04CE, 0x04CF);
  (0x04D1, 0x04D1); (0x04D3, 0x04D3); (0x04D5, 0x04D5); (0x04D7, 0x04D7); (0x04D9, 0x04D9); (0x04DB, 0x04DB);
  (0x04DD, 0x04DD); (0x04DF, 0x04DF); (0x04E1, 0x04E1); (0x04E3, 0x04E3); (0x04E5, 0x04E5); (0x04E7, 0x04E7);
  (0x04E9, 0x04E9); (0x04EB, 0x04EB); (0x04ED, 0x04ED); (0x04EF, 0x04EF); (0x04F1, 0x04F1); (0x04F3, 0x04F3);
  (0x04F5, 0x04F5); (0x04F7, 0x04F7); (0x04F9, 0x04F9); (0x04FB, 0x04FB); (0x04FD, 0x04FD); (0x04FF, 0x04FF);
  (0x0501, 0x0501); (0x0503, 0x0503); (0x0505, 0x0505); (0x0507, 0x0507); (0x0509, 0x0509); (0x050B, 0x050B);
  (0x050D, 0x050D); (0x050F, 0x050F); (0x0511, 0x0511); (0x0513, 0x0513); (0x0515, 0x0515); (0x0517, 0x0517);
  (0x0519, 0x0519); (0x051B, 0x051B); (0x051D, 0x051D); (0x051F, 0x051F); (0x0521, 0x0521); (0x0523, 0x0523);
  (0x0525, 0x0525); (0x0527, 0x0527); (0x0529, 0x0529); (0x052B, 0x052B); (0x052D, 0x052D); (0x052F, 0x052F);
  (0x0560, 0x0588); (0x05D0, 0x05EA); (0x05EF, 0x05F2); (0x0620, 0x063F); (0x0641, 0x064A); (0x066E, 0x066F);
  (0x0671, 0x06D3); (0x06D5, 0x06D5); (0x06EE, 0x06EF); (0x06FA, 0x06FC); (0x06FF, 0x06FF); (0x0710, 0x0710);
  (0x0712, 0x072F); (0x074D, 0x07A5); (0x07B1, 0x07B1); (0x07CA, 0x07EA); (0x0800, 0x0815); (0x0840, 0x0858);
  (0x0860, 0x086A); (0x0870, 0x0887); (0x0889, 0x088E); (0x08A0, 0x08C8); (0x0904, 0x0939); (0x093D, 0x093D);
  (0x0950, 0x0950); (0x0958, 0x0961); (0x0972, 0x0980); (0x0985, 0x098C); (0x098F, 0x0990); (0x0993, 0x09A8);
  (0x09AA, 0x09B0); (0x09B2, 0x09B2); (0x09B6, 0x09B9); (0x09BD, 0x09BD); (0x09CE, 0x09CE); (0x09DC, 0x09DD);
  (0x09DF, 0x09E1); (0x09F0, 0x09F1); (0x09FC, 0x09FC); (0x0A05, 0x0A0A); (0x0A0F, 0x0A10); (0x0A13, 0x0A28);
  (0x0A2A, 0x0A30); (0x0A32, 0x0A33); (0x0A35, 0x0A36); (0x0A38, 0x0A39); (0x0A59, 0x0A5C); (0x0A5E, 0x0A5E);
  (0x0A72, 0x0A74); (0x0A85, 0x0A8D); (0x0A8F, 0x0A91); (0x0A93, 0x0AA8); (0x0AAA, 0x0AB0); (0x0AB2, 0x0AB3);
  (0x0AB5, 0x0AB9); (0x0ABD, 0x0ABD); (0x0AD0, 0x0AD0); (0x0AE0, 0x0AE1); (0x0AF9, 0x0AF9); (0x0B05, 0x0B0C);
  (0x0B0F, 0x0B10); (0x0B13, 0x0B28); (0x0B2A, 0x0B30); (0x0B32, 0x0B33); (0x0B35, 0x0B39); (0x0B3D, 0x0B3D);
  (0x0B5C, 0x0B5D); (0x0B5F, 0x0B61); (0x0B71, 0x0B71); (0x0B83, 0x0B83); (0x0B85, 0x0B8A); (0x0B8E, 0x0B90);
  (0x0B92, 0x0B95); (0x0B99, 0x0B9A); (0x0B9C, 0x0B9C); (0x0B9E, 0x0B9F); (0x0BA3, 0x0BA4); (0x0BA8, 0x0BAA);
  (0x0BAE, 0x0BB9); (0x0BD0, 0x0BD0); (0x0C05, 0x0C0C); (0x0C0E, 0x0C10); (0x0C12, 0x0C28); (0x0C2A, 0x0C39);
  (0x0C3D, 0x0C3D); (0x0C58, 0x0C5A); (0x0C5D, 0x0C5D); (0x0C60, 0x0C61); (0x0C80, 0x0C80); (0x0C85, 0x0C8C);
  (0x0C8E, 0x0C90); (0x0C92, 0x0CA8); (0x0CAA, 0x0CB3); (0x0CB5, 0x0CB9); (0x0CBD, 0x0CBD); (0x0CDD, 0x0CDE);
  (0x0CE0, 0x0CE1); (0x0CF1, 0x0CF2); (0x0D04, 0x0D0C); (0x0D0E, 0x0D10); (0x0D12, 0x0D3A); (0x0D3D, 0x0D3D);
  (0x0D4E, 0x0D4E); (0x0D54, 0x0D56); (0x0D5F, 0x0D61); (0x0D7A, 0x0D7F); (0x0D85, 0x0D96); (0x0D9A, 0x0DB1);
  (0x0DB3, 0x0DBB); (0x0DBD, 0x0DBD); (0x0DC0, 0x0DC6); (0x0E01, 0x0E30); (0x0E32, 0x0E33); (0x0E40, 0x0E45);
  (0x0E81, 0x0E82); (0x0E84, 0x0E84); (0x0E86, 0x0E8A); (0x0E8C, 0x0EA3); (0x0EA5, 0x0EA5); (0x0EA7, 0x0EB0);
  (0x0EB2, 0x0EB3); (0x0EBD, 0x0EBD); (0x0EC0, 0x0EC4); (0x0EDC, 0x0EDF); (0x0F00, 0x0F00); (0x0F40, 0x0F47);
  (0x0F49, 0x0F6C); (0x0F88, 0x0F8C); (0x1000, 0x102A); (0x103F, 0x103F); (0x1050, 0x1055); (0x105A, 0x105D);
  (0x1061, 0x1061); (0x1065, 0x1066); (0x106E, 0x1070); (0x1075, 0x1081); (0x108E, 0x108E); (0x10D0, 0x10FA);
  (0x10FD, 0x1248); (0x124A, 0x124D); (0x1250, 0x1256); (0x1258, 0x1258); (0x125A, 0x125D); (0x1260, 0x1288);
  (0x128A, 0x128D); (0x1290, 0x12B0); (0x12B2, 0x12B5); (0x12B8, 0x12BE); (0x12C0, 0x12C0); (0x12C2, 0x12C5);
  (0x12C8, 0x12D6); (0x12D8, 0x1310); (0x1312, 0x1315); (0x1318, 0x135A); (0x1380, 0x138F); (0x13F8, 0x13FD);
  (0x1401, 0x166C); (0x166F, 0x167F); (0x1681, 0x169A); (0x16A0, 0x16EA); (0x16F1, 0x16F8); (0x1700, 0x1711);
  (0x171F, 0x1731); (0x1740, 0x1751); (0x1760, 0x176C); (0x176E, 0x1770); (0x1780, 0x17B3); (0x17DC, 0x17DC);
  (0x1820, 0x1842); (0x1844, 0x1878); (0x1880, 0x1884); (0x1887, 0x18A8); (0x18AA, 0x18AA); (0x18B0, 0x18F5);
  (0x1900, 0x191E); (0x1950, 0x196D); (0x1970, 0x1974); (0x1980, 0x19AB); (0x19B0, 0x19C9); (0x1A00, 0x1A16);
  (0x1A20, 0x1A54); (0x1B05, 0x1B33); (0x1B45, 0x1B4C); (0x1B83, 0x1BA0); (0x1BAE, 0x1BAF); (0x1BBA, 0x1BE5);
  (0x1C00, 0x1C23); (0x1C4D, 0x1C4F); (0x1C5A, 0x1C77); (0x1C80, 0x1C88); (0x1C8A, 0x1C8A); (0x1CE9, 0x1CEC);
  (0x1CEE, 0x1CF3); (0x1CF5, 0x1CF6); (0x1CFA, 0x1CFA); (0x1D00, 0x1D2B); (0x1D6B, 0x1D77); (0x1D79, 0x1D9A);
  (0x1E01, 0x1E01); (0x1E03, 0x1E03); (0x1E05, 0x1E05); (0x1E07, 0x1E07); (0x1E09, 0x1E09); (0x1E0B, 0x1E0B);
  (0x1E0D, 0x1E0D); (0x1E0F, 0x1E0F); (0x1E11, 0x1E11); (0x1E13, 0x1E13); (0x1E15, 0x1E15); (0x1E17, 0x1E17);
  (0x1E19, 0x1E19); (0x1E1B, 0x1E1B); (0x1E1D, 0x1E1D); (0x1E1F, 0x1E1F); (0x1E21, 0x1E21); (0x1E23, 0x1E23);
  (0x1E25, 0x1E25); (0x1E27, 0x1E27); (0x1E29, 0x1E29); (0x1E2B, 0x1E2B); (0x1E2D, 0x1E2D); (0x1E2F, 0x1E2F);
  (0x1E31, 0x1E31); (0x1E33, 0x1E33); (0x1E35, 0x1E35); (0x1E37, 0x1E37); (0x1E39, 0x1E39); (0x1E3B, 0x1E3B);
  (0x1E3D, 0x1E3D); (0x1E3F, 0x1E3F); (0x1E41, 0x1E41); (0x1E43, 0x1E43); (0x1E45, 0x1E45); (0x1E47, 0x1E47);
  (0x1E49, 0x1E49); (0x1E4B, 0x1E4B); (0x1E4D, 0x1E4D); (0x1E4F, 0x1E4F); (0x1E51, 0x1E51); (0x1E53, 0x1E53);
  (0x1E55, 0x1E55); (0x1E57, 0x1E57); (0x1E59, 0x1E59); (0x1E5B, 0x1E5B); (0x1E5D, 0x1E5D); (0x1E5F, 0x1E5F);
  (0x1E61, 0x1E61); (0x1E63, 0x1E63); (0x1E65, 0x1E65); (0x1E67, 0x1E67); (0x1E69, 0x1E69); (0x1E6B, 0x1E6B);
  (0x1E6D, 0x1E6D); (0x1E6F, 0x1E6F); (0x1E71, 0x1E71); (0x1E73, 0x1E73); (0x1E75, 0x1E75); (0x1E77, 0x1E77);
  (0x1E79, 0x1E79); (0x1E7B, 0x1E7B); (0x1E7D, 0x1E7D); (0x1E7F, 0x1E7F); (0x1E81, 0x1E81); (0x1E83, 0x1E83);
  (0x1E85, 0x1E85); (0x1E87, 0x1E87); (0x1E89, 0x1E89); (0x1E8B, 0x1E8B); (0x1E8D, 0x1E8D); (0x1E8F, 0x1E8F);
  (0x1E91, 0x1E91); (0x1E93, 0x1E93); (0x1E95, 0x1E9D); (0x1E9F, 0x1E9F); (0x1EA1, 0x1EA1); (0x1EA3, 0x1EA3);
  (0x1EA5, 0x1EA5); (0x1EA7, 0x1EA7); (0x1EA9, 0x1EA9); (0x1EAB, 0x1EAB); (0x1EAD, 0x1EAD); (0x1EAF, 0x1EAF);
  (0x1EB1, 0x1EB1); (0x1EB3, 0x1EB3); (0x1EB5, 0x1EB5); (0x1EB7, 0x1EB7); (0x1EB9, 0x1EB9); (0x1EBB, 0x1EBB);
  (0x1EBD, 0x1EBD); (0x1EBF, 0x1EBF); (0x1EC1, 0x1EC1); (0x1EC3, 0x1EC3); (0x1EC5, 0x1EC5); (0x1EC7, 0x1EC7);
  (0x1EC9, 0x1EC9); (0x1ECB, 0x1ECB); (0x1ECD, 0x1ECD); (0x1ECF, 0x1ECF); (0x1ED1, 0x1ED1); (0x1ED3, 0x1ED3);
  (0x1ED5, 0x1ED5); (0x1ED7, 0x1ED7); (0x1ED9, 0x1ED9); (0x1EDB, 0x1EDB); (0x1EDD, 0x1EDD); (0x1EDF, 0x1EDF);
  (0x1EE1, 0x1EE1); (0x1EE3, 0x1EE3); (0x1EE5, 0x1EE5); (0x1EE7, 0x1EE7); (0x1EE9, 0x1EE9); (0x1EEB, 0x1EEB);
  (0x1EED, 0x1EED); (0x1EEF, 0x1EEF); (0x1EF1, 0x1EF1); (0x1EF3, 0x1EF3); (0x1EF5, 0x1EF5); (0x1EF7, 0x1EF7);
  (0x1EF9, 0x1EF9); (0x1EFB, 0x1EFB); (0x1EFD, 0x1EFD); (0x1EFF, 0x1F07); (0x1F10, 0x1F15); (0x1F20, 0x1F27);
  (0x1F30, 0x1F37); (0x1F40, 0x1F45); (0x1F50, 0x1F57); (0x1F60, 0x1F67); (0x1F70, 0x1F7D); (0x1F80, 0x1F87);
  (0x1F90, 0x1F97); (0x1FA0, 0x1FA7); (0x1FB0, 0x1FB4); (0x1FB6, 0x1FB7); (0x1FBE, 0x1FBE); (0x1FC2, 0x1FC4);
  (0x1FC6, 0x1FC7); (0x1FD0, 0x1FD3); (0x1FD6, 0x1FD7); (0x1FE0, 0x1FE7); (0x1FF2, 0x1FF4); (0x1FF6, 0x1FF7);
  (0x210A, 0x210A); (0x210E, 0x210F); (0x2113, 0x2113); (0x212F, 0x212F); (0x2134, 0x2139); (0x213C, 0x213D);
  (0x2146, 0x2149); (0x214E, 0x214E); (0x2184, 0x2184); (0x2C30, 0x2C5F); (0x2C61, 0x2C61); (0x2C65, 0x2C66);
  (0x2C68, 0x2C68); (0x2C6A, 0x2C6A); (0x2C6C, 0x2C6C); (0x2C71, 0x2C71); (0x2C73, 0x2C74); (0x2C76, 0x2C7B);
  (0x2C81, 0x2C81); (0x2C83, 0x2C83); (0x2C85, 0x2C85); (0x2C87, 0x2C87); (0x2C89, 0x2C89); (0x2C8B, 0x2C8B);
  (0x2C8D, 0x2C8D); (0x2C8F, 0x2C8F); (0x2C91, 0x2C91); (0x2C93, 0x2C93); (0x2C95, 0x2C95); (0x2C97, 0x2C97);
  (0x2C99, 0x2C99); (0x2C9B, 0x2C9B); (0x2C9D, 0x2C9D); (0x2C9F, 0x2C9F); (0x2CA1, 0x2CA1); (0x2CA3, 0x2CA3);
  (0x2CA5, 0x2CA5); (0x2CA7, 0x2CA7); (0x2CA9, 0x2CA9); (0x2CAB, 0x2CAB); (0x2CAD, 0x2CAD); (0x2CAF, 0x2CAF);
  (0x2CB1, 0x2CB1); (0x2CB3, 0x2CB3); (0x2CB5, 0x2CB5); (0x2CB7, 0x2CB7); (0x2CB9, 0x2CB9); (0x2CBB, 0x2CBB);
  (0x2CBD, 0x2CBD); (0x2CBF, 0x2CBF); (0x2CC1, 0x2CC1); (0x2CC3, 0x2CC3); (0x2CC5, 0x2CC5); (0x2CC7, 0x2CC7);
  (0x2CC9, 0x2CC9); (0x2CCB, 0x2CCB); (0x2CCD, 0x2CCD); (0x2CCF, 0x2CCF); (0x2CD1, 0x2CD1); (0x2CD3, 0x2CD3);
  (0x2CD5, 0x2CD5); (0x2CD7, 0x2CD7); (0x2CD9, 0x2CD9); (0x2CDB, 0x2CDB); (0x2CDD, 0x2CDD); (0x2CDF, 0x2CDF);
  (0x2CE1, 0x2CE1); (0x2CE3, 0x2CE4); (0x2CEC, 0x2CEC); (0x2CEE, 0x2CEE); (0x2CF3, 0x2CF3); (0x2D00, 0x2D25);
  (0x2D27, 0x2D27); (0x2D2D, 0x2D2D); (0x2D30, 0x2D67); (0x2D80, 0x2D96); (0x2DA0, 0x2DA6); (0x2DA8, 0x2DAE);
  (0x2DB0, 0x2DB6); (0x2DB8, 0x2DBE); (0x2DC0, 0x2DC6); (0x2DC8, 0x2DCE); (0x2DD0, 0x2DD6); (0x2DD8, 0x2DDE);
  (0x3006, 0x3006); (0x303C, 0x303C); (0x3041, 0x3096); (0x309F, 0x309F); (0x30A1, 0x30FA); (0x30FF, 0x30FF);
  (0x3105, 0x312F); (0x3131, 0x318E); (0x31A0, 0x31BF); (0x31F0, 0x31FF); (0x3400, 0x4DBF); (0x4E00, 0xA014);
  (0xA016, 0xA48C); (0xA4D0, 0xA4F7); (0xA500, 0xA60B); (0xA610, 0xA61F); (0xA62A, 0xA62B); (0xA641, 0xA641);
  (0xA643, 0xA643); (0xA645, 0xA645); (0xA647, 0xA647); (0xA649, 0xA649); (0xA64B, 0xA64B); (0xA64D, 0xA64D);
  (0xA64F, 0xA64F); (0xA651, 0xA651); (0xA653, 0xA653); (0xA655, 0xA655); (0xA657, 0xA657); (0xA659, 0xA659);
  (0xA65B, 0xA65B); (0xA65D, 0xA65D); (0xA65F, 0xA65F); (0xA661, 0xA661); (0xA663, 0xA663); (0xA665, 0xA665);
  (0xA667, 0xA667); (0xA669, 0xA669); (0xA66B, 0xA66B); (0xA66D, 0xA66E); (0xA681, 0xA681); (0xA683, 0xA683);
  (0xA685, 0xA685); (0xA687, 0xA687); (0xA689, 0xA689); (0xA68B, 0xA68B); (0xA68D, 0xA68D); (0xA68F, 0xA68F);
  (0xA691, 0xA691); (0xA693, 0xA693); (0xA695, 0xA695); (0xA697, 0xA697); (0xA699, 0xA699); (0xA69B, 0xA69B);
  (0xA6A0, 0xA6E5); (0xA723, 0xA723); (0xA725, 0xA725); (0xA727, 0xA727); (0xA729, 0xA729); (0xA72B, 0xA72B);
  (0xA72D, 0xA72D); (0xA72F, 0xA731); (0xA733, 0xA733); (0xA735, 0xA735); (0xA737, 0xA737); (0xA739, 0xA739);
  (0xA73B, 0xA73B); (0xA73D, 0xA73D); (0xA73F, 0xA73F); (0xA741, 0xA741); (0xA743, 0xA743); (0xA745, 0xA745);
  (0xA747, 0xA747); (0xA749, 0xA749); (0xA74B, 0xA74B); (0xA74D, 0xA74D); (0xA74F, 0xA74F); (0xA751, 0xA751);
  (0xA753, 0xA753); (0xA755, 0xA755); (0xA757, 0xA757); (0xA759, 0xA759); (0xA75B, 0xA75B); (0xA75D, 0xA75D);
  (0xA75F, 0xA75F); (0xA761, 0xA761); (0xA763, 0xA763); (0xA765, 0xA765); (0xA767, 0xA767); (0xA769, 0xA769);
  (0xA76B, 0xA76B); (0xA76D, 0xA76D); (0xA76F, 0xA76F); (0xA771, 0xA778); (0xA77A, 0xA77A); (0xA77C, 0xA77C);
  (0xA77F, 0xA77F); (0xA781, 0xA781); (0xA783, 0xA783); (0xA785, 0xA785); (0xA787, 0xA787); (0xA78C, 0xA78C);
  (0xA78E, 0xA78F); (0xA791, 0xA791); (0xA793, 0xA795); (0xA797, 0xA797); (0xA799, 0xA799); (0xA79B, 0xA79B);
  (0xA79D, 0xA79D); (0xA79F, 0xA79F); (0xA7A1, 0xA7A1); (0xA7A3, 0xA7A3); (0xA7A5, 0xA7A5); (0xA7A7, 0xA7A7);
  (0xA7A9, 0xA7A9); (0xA7AF, 0xA7AF); (0xA7B5, 0xA7B5); (0xA7B7, 0xA7B7); (0xA7B9, 0xA7B9); (0xA7BB, 0xA7BB);
  (0xA7BD, 0xA7BD); (0xA7BF, 0xA7BF); (0xA7C1, 0xA7C1); (0xA7C3, 0xA7C3); (0xA7C8, 0xA7C8); (0xA7CA, 0xA7CA);
  (0xA7CD, 0xA7CD); (0xA7D1, 0xA7D1); (0xA7D3, 0xA7D3); (0xA7D5, 0xA7D5); (0xA7D7, 0xA7D7); (0xA7D9, 0xA7D9);
  (0xA7DB, 0xA7DB); (0xA7F6, 0xA7F7); (0xA7FA, 0xA801); (0xA803, 0xA805); (0xA807, 0xA80A); (0xA80C, 0xA822);
  (0xA840, 0xA873); (0xA882, 0xA8B3); (0xA8F2, 0xA8F7); (0xA8FB, 0xA8FB); (0xA8FD, 0xA8FE); (0xA90A, 0xA925);
  (0xA930, 0xA946); (0xA960, 0xA97C); (0xA984, 0xA9B2); (0xA9E0, 0xA9E4); (0xA9E7, 0xA9EF); (0xA9FA, 0xA9FE);
  (0xAA00, 0xAA28); (0xAA40, 0xAA42); (0xAA44, 0xAA4B); (0xAA60, 0xAA6F); (0xAA71, 0xAA76); (0xAA7A, 0xAA7A);
  (0xAA7E, 0xAAAF); (0xAAB1, 0xAAB1); (0xAAB5, 0xAAB6); (0xAAB9, 0xAABD); (0xAAC0, 0xAAC0); (0xAAC2, 0xAAC2);
  (0xAADB, 0xAADC); (0xAAE0, 0xAAEA); (0xAAF2, 0xAAF2); (0xAB01, 0xAB06); (0xAB09, 0xAB0E); (0xAB11, 0xAB16);
  (0xAB20, 0xAB26); (0xAB28, 0xAB2E); (0xAB30, 0xAB5A); (0xAB60, 0xAB68); (0xAB70, 0xABE2); (0xAC00, 0xD7A3);
  (0xD7B0, 0xD7C6); (0xD7CB, 0xD7FB); (0xF900, 0xFA6D); (0xFA70, 0xFAD9); (0xFB00, 0xFB06); (0xFB13, 0xFB17);
  (0xFB1D, 0xFB1D); (0xFB1F, 0xFB28); (0xFB2A, 0xFB36); (0xFB38, 0xFB3C); (0xFB3E, 0xFB3E); (0xFB40, 0xFB41);
  (0xFB43, 0xFB44); (0xFB46, 0xFBB1); (0xFBD3, 0xFD3D); (0xFD50, 0xFD8F); (0xFD92, 0xFDC7); (0xFDF0, 0xFDFB);
  (0xFE70, 0xFE74); (0xFE76, 0xFEFC); (0xFF41, 0xFF5A); (0xFF66, 0xFF6F); (0xFF71, 0xFF9D); (0xFFA0, 0xFFBE);
  (0xFFC2, 0xFFC7); (0xFFCA, 0xFFCF); (0xFFD2, 0xFFD7); (0xFFDA, 0xFFDC); (0x10000, 0x1000B); (0x1000D, 0x10026);
  (0x10028, 0x1003A); (0x1003C, 0x1003D); (0x1003F, 0x1004D); (0x10050, 0x1005D); (0x10080, 0x100FA);
  (0x10280, 0x1029C); (0x102A0, 0x102D0); (0x10300, 0x1031F); (0x1032D, 0x10340); (0x10342, 0x10349);
  (0x10350, 0x10375); (0x10380, 0x1039D); (0x103A0, 0x103C3); (0x103C8, 0x103CF); (0x10428, 0x1049D);
  (0x104D8, 0x104FB); (0x10500, 0x10527); (0x10530, 0x10563); (0x10597, 0x105A1); (0x105A3, 0x105B1);
  (0x105B3, 0x105B9); (0x105BB, 0x105BC); (0x105C0, 0x105F3); (0x10600, 0x10736); (0x10740, 0x10755);
  (0x10760, 0x10767); (0x10800, 0x10805); (0x10808, 0x10808); (0x1080A, 0x10835); (0x10837, 0x10838);
  (0x1083C, 0x1083C); (0x1083F, 0x10855); (0x10860, 0x10876); (0x10880, 0x1089E); (0x108E0, 0x108F2);
  (0x108F4, 0x108F5); (0x10900, 0x10915); (0x10920, 0x10939); (0x10980, 0x109B7); (0x109BE, 0x109BF);
  (0x10A00, 0x10A00); (0x10A10, 0x10A13); (0x10A15, 0x10A17); (0x10A19, 0x10A35); (0x10A60, 0x10A7C);
  (0x10A80, 0x10A9C); (0x10AC0, 0x10AC7); (0x10AC9, 0x10AE4); (0x10B00, 0x10B35); (0x10B40, 0x10B55);
  (0x10B60, 0x10B72); (0x10B80, 0x10B91); (0x10C00, 0x10C48); (0x10CC0, 0x10CF2); (0x10D00, 0x10D23);
  (0x10D4A, 0x10D4D); (0x10D4F, 0x10D4F); (0x10D70, 0x10D85); (0x10E80, 0x10EA9); (0x10EB0, 0x10EB1);
  (0x10EC2, 0x10EC4); (0x10F00, 0x10F1C); (0x10F27, 0x10F27); (0x10F30, 0x10F45); (0x10F70, 0x10F81);
  (0x10FB0, 0x10FC4); (0x10FE0, 0x10FF6); (0x11003, 0x11037); (0x11071, 0x11072); (0x11075, 0x11075);
  (0x11083, 0x110AF); (0x110D0, 0x110E8); (0x11103, 0x11126); (0x11144, 0x11144); (0x11147, 0x11147);
  (0x11150, 0x11172); (0x11176, 0x11176); (0x11183, 0x111B2); (0x111C1, 0x111C4); (0x111DA, 0x111DA);
  (0x111DC, 0x111DC); (0x11200, 0x11211); (0x11213, 0x1122B); (0x1123F, 0x11240); (0x11280, 0x11286);
  (0x11288, 0x11288); (0x1128A, 0x1128D); (0x1128F, 0x1129D); (0x1129F, 0x112A8); (0x112B0, 0x112DE);
  (0x11305, 0x1130C); (0x1130F, 0x11310); (0x11313, 0x11328); (0x1132A, 0x11330); (0x11332, 0x11333);
  (0x11335, 0x11339); (0x1133D, 0x1133D); (0x11350, 0x11350); (0x1135D, 0x11361); (0x11380, 0x11389);
  (0x1138B, 0x1138B); (0x1138E, 0x1138E); (0x11390, 0x113B5); (0x113B7, 0x113B7); (0x113D1, 0x113D1);
  (0x113D3, 0x113D3); (0x11400, 0x11434); (0x11447, 0x1144A); (0x1145F, 0x11461); (0x11480, 0x114AF);
  (0x114C4, 0x114C5); (0x114C7, 0x114C7); (0x11580, 0x115AE); (0x115D8, 0x115DB); (0x11600, 0x1162F);
  (0x11644, 0x11644); (0x11680, 0x116AA); (0x116B8, 0x116B8); (0x11700, 0x1171A); (0x11740, 0x11746);
  (0x11800, 0x1182B); (0x118C0, 0x118DF); (0x118FF, 0x11906); (0x11909, 0x11909); (0x1190C, 0x11913);
  (0x11915, 0x11916); (0x11918, 0x1192F); (0x1193F, 0x1193F); (0x11941, 0x11941); (0x119A0, 0x119A7);
  (0x119AA, 0x119D0); (0x119E1, 0x119E1); (0x119E3, 0x119E3); (0x11A00, 0x11A00); (0x11A0B, 0x11A32);
  (0x11A3A, 0x11A3A); (0x11A50, 0x11A50); (0x11A5C, 0x11A89); (0x11A9D, 0x11A9D); (0x11AB0, 0x11AF8);
  (0x11BC0, 0x11BE0); (0x11C00, 0x11C08); (0x11C0A, 0x11C2E); (0x11C40, 0x11C40); (0x11C72, 0x11C8F);
  (0x11D00, 0x11D06); (0x11D08, 0x11D09); (0x11D0B, 0x11D30); (0x11D46, 0x11D46); (0x11D60, 0x11D65);
  (0x11D67, 0x11D68); (0x11D6A, 0x11D89); (0x11D98, 0x11D98); (0x11EE0, 0x11EF2); (0x11F02, 0x11F02);
  (0x11F04, 0x11F10); (0x11F12, 0x11F33); (0x11FB0, 0x11FB0); (0x12000, 0x12399); (0x12480, 0x12543);
  (0x12F90, 0x12FF0); (0x13000, 0x1342F); (0x13441, 0x13446); (0x13460, 0x143FA); (0x14400, 0x14646);
  (0x16100, 0x1611D); (0x16800, 0x16A38); (0x16A40, 0x16A5E); (0x16A70, 0x16ABE); (0x16AD0, 0x16AED);
  (0x16B00, 0x16B2F); (0x16B63, 0x16B77); (0x16B7D, 0x16B8F); (0x16D43, 0x16D6A); (0x16E60, 0x16E7F);
  (0x16F00, 0x16F4A); (0x16F50, 0x16F50); (0x17000, 0x187F7); (0x18800, 0x18CD5); (0x18CFF, 0x18D08);
  (0x1B000, 0x1B122); (0x1B132, 0x1B132); (0x1B150, 0x1B152); (0x1B155, 0x1B155); (0x1B164, 0x1B167);
  (0x1B170, 0x1B2FB); (0x1BC00, 0x1BC6A); (0x1BC70, 0x1BC7C); (0x1BC80, 0x1BC88); (0x1BC90, 0x1BC99);
  (0x1D41A, 0x1D433); (0x1D44E, 0x1D454); (0x1D456, 0x1D467); (0x1D482, 0x1D49B); (0x1D4B6, 0x1D4B9);
  (0x1D4BB, 0x1D4BB); (0x1D4BD, 0x1D4C3); (0x1D4C5, 0x1D4CF); (0x1D4EA, 0x1D503); (0x1D51E, 0x1D537);
  (0x1D552, 0x1D56B); (0x1D586, 0x1D59F); (0x1D5BA, 0x1D5D3); (0x1D5EE, 0x1D607); (0x1D622, 0x1D63B);
  (0x1D656, 0x1D66F); (0x1D68A, 0x1D6A5); (0x1D6C2, 0x1D6DA); (0x1D6DC, 0x1D6E1); (0x1D6FC, 0x1D714);
  (0x1D716, 0x1D71B); (0x1D736, 0x1D74E); (0x1D750, 0x1D755); (0x1D770, 0x1D788); (0x1D78A, 0x1D78F);
  (0x1D7AA, 0x1D7C2); (0x1D7C4, 0x1D7C9); (0x1D7CB, 0x1D7CB); (0x1DF00, 0x1DF1E); (0x1DF25, 0x1DF2A);
  (0x1E100, 0x1E12C); (0x1E14E, 0x1E14E); (0x1E290, 0x1E2AD); (0x1E2C0, 0x1E2EB); (0x1E4D0, 0x1E4EA);
  (0x1E5D0, 0x1E5ED); (0x1E5F0, 0x1E5F0); (0x1E7E0, 0x1E7E6); (0x1E7E8, 0x1E7EB); (0x1E7ED, 0x1E7EE);
  (0x1E7F0, 0x1E7FE); (0x1E800, 0x1E8C4); (0x1E922, 0x1E943); (0x1EE00, 0x1EE03); (0x1EE05, 0x1EE1F);
  (0x1EE21, 0x1EE22); (0x1EE24, 0x1EE24); (0x1EE27, 0x1EE27); (0x1EE29, 0x1EE32); (0x1EE34, 0x1EE37);
  (0x1EE39, 0x1EE39); (0x1EE3B, 0x1EE3B); (0x1EE42, 0x1EE42); (0x1EE47, 0x1EE47); (0x1EE49, 0x1EE49);
  (0x1EE4B, 0x1EE4B); (0x1EE4D, 0x1EE4F); (0x1EE51, 0x1EE52); (0x1EE54, 0x1EE54); (0x1EE57, 0x1EE57);
  (0x1EE59, 0x1EE59); (0x1EE5B, 0x1EE5B); (0x1EE5D, 0x1EE5D); (0x1EE5F, 0x1EE5F); (0x1EE61, 0x1EE62);
  (0x1EE64, 0x1EE64); (0x1EE67, 0x1EE6A); (0x1EE6C, 0x1EE72); (0x1EE74, 0x1EE77); (0x1EE79, 0x1EE7C);
  (0x1EE7E, 0x1EE7E); (0x1EE80, 0x1EE89); (0x1EE8B, 0x1EE9B); (0x1EEA1, 0x1EEA3); (0x1EEA5, 0x1EEA9);
  (0x1EEAB, 0x1EEBB); (0x20000, 0x2A6DF); (0x2A700, 0x2B739); (0x2B740, 0x2B81D); (0x2B820, 0x2CEA1);
  (0x2CEB0, 0x2EBE0); (0x2EBF0, 0x2EE5D); (0x2F800, 0x2FA1D); (0x30000, 0x3134A); (0x31350, 0x323AF)
].

(** The comparison that the tables are searched with. *)
Definition compare_range (scalar : Z) (r : Z * Z) : comparison :=
  if r.2 <? scalar then Lt else if scalar <? r.1 then Gt else Eq.

(** [slice.binary_search_by(f)] on [left..right]: each step looks at the middle entry and keeps
    one half. *)
Fixpoint binary_search {A} (fuel : nat) (l : list A) (f : A -> comparison) (left right : nat) : result nat nat :=
  match fuel with
  | O => Err left (* not reached: the interval gets shorter in every step *)
  | S fuel =>
      if (right <=? left)%nat then Err left
      else
        let mid := (left + (right - left) / 2)%nat in
        match l !! mid with
        | None => Err left
        | Some x =>
            match f x with
            | Eq => Ok mid
            | Lt => binary_search fuel l f (S mid) right
            | Gt => binary_search fuel l f left mid
            end
        end
  end.

Definition binary_search_by {A} (l : list A) (f : A -> comparison) : result nat nat :=
  binary_search (S (length l)) l f 0 (length l).

Definition is_lowercase_or_other_letter (scalar : Z) : bool :=
  is_ok (binary_search_by LETTER_RANGES (compare_range scalar)).

Definition is_lowercase_other_letter_or_number (scalar : Z) : bool :=
  is_ok (binary_search_by LETTER_OR_NUMBER_RANGES (compare_range scalar)).

Definition is_label_value_char (c : Z) : bool := (c =? ch "_") || (c =? ch "-") || is_lowercase_other_letter_or_number c.

(** One label; the errors are all invalid arguments. *)
Definition validate_label (key value : text) : result unit PubSubError :=
  if match head key with None => true | Some c => negb (is_lowercase_or_other_letter c) end then Err InvalidArgument
  else if (63 <? length key)%nat then Err InvalidArgument
  else if negb (forallb is_label_value_char key) then Err InvalidArgument
  else if (63 <? length value)%nat then Err InvalidArgument
  else if existsb (fun c => negb (is_label_value_char c)) value then Err InvalidArgument
  else Ok tt.

Fixpoint validate_label_list (labels : list (text * text)) : result unit PubSubError :=
  match labels with
  | [] => Ok tt
  | (key, value) :: labels => match validate_label key value with Err e => Err e | Ok _ => validate_label_list labels end
  end.

Definition validate_labels (labels : gmap text text) : result unit PubSubError := validate_label_list (btree_map_iter labels).

Definition human_duration (nanos : LogicalDuration) : text :=
  let sign := if nanos <? 0 then [ch "-"] else [] in
  let nanos := Z.abs nanos in
  let total := Z.quot nanos 1000000000 in
  let fraction := Z.rem nanos 1000000000 in
  let hours := Z.quot total 3600 in
  let minutes := Z.quot (Z.rem total 3600) 60 in
  let seconds := Z.rem total 60 in
  let value := sign ++ (if 0 <? hours then decimal hours ++ [ch "h"] else [])
                 ++ (if 0 <? minutes then decimal minutes ++ [ch "m"] else []) in
  if 0 <? fraction then
    value ++ decimal seconds ++ [ch "."] ++ rev (trim_start (ch "0") (rev (decimal_pad 9 fraction))) ++ [ch "s"]
  else if (0 <? seconds) || bool_decide (value = sign) then value ++ decimal seconds ++ [ch "s"]
  else value.

Definition validate_production_configuration (c : SubscriptionConfig) : result unit PubSubError :=
  if (ack_deadline_seconds c <? MIN_ACK_DEADLINE_SECONDS) || (MAX_ACK_DEADLINE_SECONDS <? ack_deadline_seconds c) then Err InvalidArgument
  else
    match validate_labels (labels c) with
    | Err e => Err e
    | Ok _ =>
        match match expiration_policy c with None => Some (dur_from_seconds 2678400) | Some policy => ttl policy end with
        | None => Ok tt
        | Some ttl =>
            if ttl <? dur_from_seconds 86400 then Err InvalidArgument
            else if ttl <? resolved_retention c then Err InvalidArgument
            else Ok tt
        end
    end.

Example human_duration_ex :
  human_duration 0 = chars "0s" /\ human_duration (dur_from_seconds 2678400) = chars "744h" /\
  human_duration (-61500000000) = chars "-1m1.5s" /\ human_duration (dur_from_seconds 3605) = chars "1h5s".
Proof. by vm_compute. Qed.

(** ** The search is exact *)

(** Ranges in order, none empty, none touching the next. *)
Definition ranges_ok (l : list (Z * Z)) : Prop := StronglySorted (fun r r' => r.2 < r'.1) l /\ Forall (fun r => r.1 <= r.2) l.

Definition in_ranges (c : Z) (l : list (Z * Z)) : Prop := exists r, r ∈ l /\ r.1 <= c <= r.2.

Fixpoint ranges_check (last : Z) (l : list (Z * Z)) : bool :=
  match l with [] => true | r :: l => (last <? r.1) && (r.1 <=? r.2) && ranges_check r.2 l end.

Lemma ranges_check_ok l : forall last, ranges_check last l = true -> ranges_ok l /\ Forall (fun r => last < r.1) l.
Proof.
  induction l as [|r l IH]; intros last; [by repeat constructor|]. cbn. intros [[H1%Z.ltb_lt H2%Z.leb_le]%andb_prop Hl]%andb_prop.
  destruct (IH r.2 Hl) as [[Hs Hf] Hb]. split; [split; constructor; done|]. constructor; [done|].
  eapply Forall_impl; [exact Hb|]. intros x Hx. cbn in *. lia.
Qed.

Lemma tables_ok : ranges_ok LETTER_RANGES /\ ranges_ok LETTER_OR_NUMBER_RANGES.
Proof. split; apply (ranges_check_ok _ (-1)); vm_compute; reflexivity. Qed.

Lemma ranges_lookup l i j r r' : ranges_ok l -> l !! i = Some r -> l !! j = Some r' -> (i < j)%nat -> r.2 < r'.1.
Proof.
  intros [Hs _]. revert i j. induction Hs as [|x l Hs IH Hx]; [done|]. intros [|i] [|j] Hi Hj Hij; cbn in *; try lia.
  - simplify_eq. exact (proj1 (Forall_lookup _ _) Hx j _ Hj).
  - eapply IH; [done..|lia].
Qed.

Lemma compare_range_spec c r : r.1 <= r.2 ->
  (compare_range c r = Lt <-> r.2 < c) /\ (compare_range c r = Gt <-> c < r.1) /\ (compare_range c r = Eq <-> r.1 <= c <= r.2).
Proof. intros H. unfold compare_range. destruct (Z.ltb_spec r.2 c), (Z.ltb_spec c r.1); split_and!; split; intros; (done || lia). Qed.

Lemma binary_search_spec l c : ranges_ok l -> forall fuel left right, (right <= length l)%nat -> (right - left < fuel)%nat ->
  is_ok (binary_search fuel l (compare_range c) left right) = true <->
    exists i r, (left <= i < right)%nat /\ l !! i = Some r /\ r.1 <= c <= r.2.
Proof.
  intros Hl. pose proof Hl as [_ Hne]. induction fuel as [|fuel IH]; intros left right Hr Hf; [lia|]. cbn [binary_search].
  destruct (Nat.leb_spec right left) as [Hle|Hlt]; [split; [done|]; intros (i & r & Hi & _); lia|].
  pose proof (Nat.div_lt (right - left) 2 ltac:(lia) ltac:(lia)) as Hhalf. set (mid := (left + (right - left) / 2)%nat) in *.
  destruct (lookup_lt_is_Some_2 l mid) as [x Hx]; [lia|]. rewrite Hx. pose proof (proj1 (Forall_lookup _ _) Hne mid x Hx) as Hxr. cbn in Hxr.
  destruct (compare_range_spec c x Hxr) as (HLt & HGt & HEq). destruct (compare_range c x).
  - split; [|done]. intros _. exists mid, x. split; [lia|]. split; [done|]. by apply HEq.
  - assert (Hc : x.2 < c) by by apply HLt. rewrite IH by lia. split; intros (i & r & Hi & Hr' & Hcr); exists i, r; (split; [|done]); [lia|].
    destruct (Nat.lt_trichotomy i mid) as [Him|[->|Him]]; [|simplify_eq; lia|lia].
    pose proof (ranges_lookup l i mid r x Hl Hr' Hx Him). lia.
  - assert (Hc : c < x.1) by by apply HGt. rewrite IH by lia. split; intros (i & r & Hi & Hr' & Hcr); exists i, r; (split; [|done]); [lia|].
    destruct (Nat.lt_trichotomy i mid) as [Him|[->|Him]]; [lia|simplify_eq; lia|].
    pose proof (ranges_lookup l mid i x r Hl Hx Hr' Him). lia.
Qed.

Lemma search_exact l c : ranges_ok l -> is_ok (binary_search_by l (compare_range c)) = true <-> in_ranges c l.
Proof.
  intros Hl. unfold binary_search_by, in_ranges. rewrite binary_search_spec by (done || lia). split.
  - intros (i & r & _ & Hr & Hc). exists r. split; [by eapply list_elem_of_lookup_2|done].
  - intros (r & [i Hr]%list_elem_of_lookup_1 & Hc). exists i, r. split_and!; try done; [lia|by eapply lookup_lt_Some|lia|lia].
Qed.

(** Every range of the one table lies in a range of the other. *)
Definition covered (l l' : list (Z * Z)) : bool :=
  forallb (fun r => existsb (fun r' => (r'.1 <=? r.1) && (r.2 <=? r'.2)) l') l.

Lemma covered_in_ranges l l' c : covered l l' = true -> in_ranges c l -> in_ranges c l'.
Proof.
  unfold covered. intros Hcov (r & Hr & Hc). rewrite forallb_forall in Hcov. apply list_elem_of_In in Hr. specialize (Hcov r Hr).
  apply existsb_exists in Hcov as (r' & Hr' & [H1%Z.leb_le H2%Z.leb_le]%andb_prop). exists r'. split; [by apply list_elem_of_In|lia].
Qed.

Lemma letters_covered : covered LETTER_RANGES LETTER_OR_NUMBER_RANGES = true.
Proof. vm_compute. reflexivity. Qed.

Lemma letters_are_label_chars c : in_ranges c LETTER_RANGES -> in_ranges c LETTER_OR_NUMBER_RANGES.
Proof. apply covered_in_ranges, letters_covered. Qed.

Lemma letter_exact c : is_lowercase_or_other_letter c = true <-> in_ranges c LETTER_RANGES.
Proof. apply search_exact, tables_ok. Qed.

Lemma label_char_exact c : is_label_value_char c = true <-> c = ch "_" \/ c = ch "-" \/ in_ranges c LETTER_OR_NUMBER_RANGES.
Proof.
  unfold is_label_value_char. rewrite !orb_true_iff, !Z.eqb_eq. rewrite <- (search_exact _ c (proj2 tables_ok)).
  unfold is_lowercase_other_letter_or_number. tauto.
Qed.

#[local] Opaque is_label_value_char is_lowercase_or_other_letter.

Lemma validate_label_ok key value : validate_label key value = Ok tt <->
  (exists c rest, key = c :: rest /\ is_lowercase_or_other_letter c = true) /\ (length key <= 63)%nat /\ Forall (fun c => is_label_value_char c = true) key /\
  (length value <= 63)%nat /\ Forall (fun c => is_label_value_char c = true) value.
Proof.
  unfold validate_label. destruct key as [|c rest]; cbn [head]; [split; [done|]; by intros ((? & ? & ? & _) & _)|].
  destruct (is_lowercase_or_other_letter c) eqn:Hc; cbn [negb]; [|split; [done|]; intros ((? & ? & [= <- <-] & H) & _); congruence].
  assert (Hall : forall l : text, forallb is_label_value_char l = true <-> Forall (fun c => is_label_value_char c = true) l).
  { intros l. rewrite forallb_forall, Forall_forall. setoid_rewrite list_elem_of_In. done. }
  assert (Hex : forall l : text, existsb (fun c => negb (is_label_value_char c)) l = negb (forallb is_label_value_char l)).
  { intros l. induction l as [|x l IH]; [done|]. cbn. rewrite IH. by destruct (is_label_value_char x). }
  rewrite Hex, <- !Hall. set (key := c :: rest). destruct (Nat.ltb_spec 63 (length key)), (Nat.ltb_spec 63 (length value)),
    (forallb is_label_value_char key), (forallb is_label_value_char value); cbn [negb]; split; try done; try (intros (_ & ? & ? & ? & ?); (done || lia)).
  intros _. split_and!; try done. by exists c, rest.
Qed.

(** Labels are validated exactly: the range searches of the character tables find just the members of a range, the
    letters are among the label characters, and a label map is accepted if and only if every key starts with a letter
    of class Ll or Lo, keys and values have at most 63 characters, and every one of them is a label character. *)
Theorem labels_exact labels :
  (forall c, is_lowercase_or_other_letter c = true <-> in_ranges c LETTER_RANGES) /\
  (forall c, is_label_value_char c = true <-> c = ch "_" \/ c = ch "-" \/ in_ranges c LETTER_OR_NUMBER_RANGES) /\
  (forall c, is_lowercase_or_other_letter c = true -> is_label_value_char c = true) /\
  (validate_labels labels = Ok tt <-> forall key value, labels !! key = Some value ->
     (exists c rest, key = c :: rest /\ is_lowercase_or_other_letter c = true) /\ (length key <= 63)%nat /\
     Forall (fun c => is_label_value_char c = true) key /\ (length value <= 63)%nat /\ Forall (fun c => is_label_value_char c = true) value).
Proof.
  split_and!; [apply letter_exact|apply label_char_exact| |].
  { intros c Hc%letter_exact. apply label_char_exact. right. right. by apply letters_are_label_chars. }
  unfold validate_labels. setoid_rewrite <- elem_of_btree_map_iter. setoid_rewrite <- validate_label_ok. generalize (btree_map_iter labels) as l.
  induction l as [|[k v] l IH]; cbn; [split; [intros _ k v ?%not_elem_of_nil; done|done]|]. destruct (validate_label k v) as [[]|e] eqn:Hv.
  - rewrite IH. split; [intros H k' v' [[= -> ->]|Hin]%elem_of_cons; [done|by apply H]|]. intros H k' v' Hin. apply H. by right.
  - split; [done|]. intros H. exfalso. assert (Hkv : validate_label k v = Ok tt) by (apply H; by left). congruence.
Qed.
