(* ===== verification/PsState.v ===== *)
(** * The Pub/Sub registry

    Models the state of [crates/fireemu-core-pubsub/src/state.rs] and its operations on
    topics, subscriptions, policies and list pages; [PsPublish] models snapshots, publishing
    and delivery.  An operation is a [PM]: it returns its outcome and the state it leaves, and
    [None] is a panic.  A clone of a subscription's or a snapshot's data is that data.  The
    delivery observers, which are called after a mutation and change nothing here, and the
    retention report are not modelled.

    [Arc::new] takes the next unused address ([next_address]): allocations that are alive at
    once differ, which is all that [Arc::ptr_eq] can see.  The accounting of snapshots gets
    the sizes of types and the capacities of strings, which are the parameters of [Memory]. *)
From S2P Require Import Prelude Time Rfc3339 Text Determinism MessageId PsName PsFilter PsMessage PsSubscription PsPull PsIam PsPagination PsLabel.

Definition MAX_TOPICS : Z := 10000.
Definition MAX_SUBSCRIPTIONS : Z := 10000.
Definition MAX_MESSAGES_PER_PUBLISH : Z := 1000.
Definition MAX_SNAPSHOTS : Z := 10000.
Definition SNAPSHOT_TTL_SECONDS : Z := 7 * 24 * 60 * 60.
Definition MIN_SNAPSHOT_TTL_SECONDS : Z := 60 * 60.
Definition MAX_SNAPSHOT_RETAINED_BYTES : Z := 64 * 1024 * 1024.

(** Where a string was allocated: with a stored message, by a caller of the broker, or by
    [clone] and [to_owned]. *)
Inductive Origin := InMessage (address : Z) | FromCaller | Cloned.

(** The sizes of the target and the capacities of its allocations. *)
Class Memory := {
  size_of_string : Z;
  size_of_arc : Z;
  size_of_usize : Z;
  size_of_stored_message : Z;
  size_of_snapshot : Z;
  capacity : Origin -> text -> Z;
  data_capacity : Z -> list Z -> Z;
}.

Record Snapshot := {
  snapshot_name : text;
  owner_project : text;
  snapshot_topic : TopicName;
  topic_incarnation : Z;
  created_at : LogicalInstant;
  expire_at : LogicalInstant;
  snapshot_labels : gmap text text;
  unacknowledged_ids : gset text;
  retained_ids : gset text;
  captured_messages : list Shared;
}.

Record DeadLetterForward := { source_subscription : SubscriptionName; forward_topic : TopicName; forward_message : Shared }.

Record PullResult := { pull_received : list ReceivedMessage; pull_dead_lettered : list DeadLetterForward }.

Record PreparedPublication := {
  topic_key : text;
  prepared_incarnation : Z;
  initial_message_counter : Z;
  next_message_counter : Z;
  published : list Shared;
  subscription_keys : list text;
  snapshot_names : list text;
  snapshot_total_bytes : Z;
}.

Record TopicEntry := {
  topic_name : TopicName;
  topic_entry_labels : gmap text text;
  incarnation_of : Z;
  topic_message_retention : option LogicalDuration;
}.

(** What has a policy and is reached by publications. *)
Record PubSubState := {
  seed : Z;
  resource_policies : gmap text PolicyState;
  policy_incarnation : Z;
  enforce_dead_letter_iam : bool;
  dead_letter_grants_required : bool;
  project_numbers : gmap text text;
  issued_page_boundaries : gmap text (gmap text (option text));
  topics : gmap text TopicEntry;
  subscriptions : gmap text SubscriptionState;
  topic_subs : gmap text (gset text);
  function_subscriptions : gset text;
  snapshots : gmap text Snapshot;
  topic_snapshots : gmap (text * Z) (gset text);
  snapshot_message_refs : gmap text Z;
  topic_counter : Z;
  message_counter : Z;
  ack_rng : SplitMix64;
  snapshot_counter : Z;
  snapshot_retained_bytes : Z;
  push_minimum_interval : LogicalDuration;
  next_address : Z;
}.

(** Assignments to the fields. *)
Definition with_resource_policies (v : gmap text PolicyState) (s : PubSubState) : PubSubState :=
  Build_PubSubState (seed s) v (policy_incarnation s) (enforce_dead_letter_iam s) (dead_letter_grants_required s)
    (project_numbers s) (issued_page_boundaries s) (topics s) (subscriptions s) (topic_subs s)
    (function_subscriptions s) (snapshots s) (topic_snapshots s) (snapshot_message_refs s) (topic_counter s)
    (message_counter s) (ack_rng s) (snapshot_counter s) (snapshot_retained_bytes s) (push_minimum_interval s)
    (next_address s).
Definition with_policy_incarnation (v : Z) (s : PubSubState) : PubSubState :=
  Build_PubSubState (seed s) (resource_policies s) v (enforce_dead_letter_iam s) (dead_letter_grants_required s)
    (project_numbers s) (issued_page_boundaries s) (topics s) (subscriptions s) (topic_subs s)
    (function_subscriptions s) (snapshots s) (topic_snapshots s) (snapshot_message_refs s) (topic_counter s)
    (message_counter s) (ack_rng s) (snapshot_counter s) (snapshot_retained_bytes s) (push_minimum_interval s)
    (next_address s).
Definition with_enforce_dead_letter_iam (v : bool) (s : PubSubState) : PubSubState :=
  Build_PubSubState (seed s) (resource_policies s) (policy_incarnation s) v (dead_letter_grants_required s)
    (project_numbers s) (issued_page_boundaries s) (topics s) (subscriptions s) (topic_subs s)
    (function_subscriptions s) (snapshots s) (topic_snapshots s) (snapshot_message_refs s) (topic_counter s)
    (message_counter s) (ack_rng s) (snapshot_counter s) (snapshot_retained_bytes s) (push_minimum_interval s)
    (next_address s).
Definition with_dead_letter_grants_required (v : bool) (s : PubSubState) : PubSubState :=
  Build_PubSubState (seed s) (resource_policies s) (policy_incarnation s) (enforce_dead_letter_iam s) v
    (project_numbers s) (issued_page_boundaries s) (topics s) (subscriptions s) (topic_subs s)
    (function_subscriptions s) (snapshots s) (topic_snapshots s) (snapshot_message_refs s) (topic_counter s)
    (message_counter s) (ack_rng s) (snapshot_counter s) (snapshot_retained_bytes s) (push_minimum_interval s)
    (next_address s).
Definition with_project_numbers (v : gmap text text) (s : PubSubState) : PubSubState :=
  Build_PubSubState (seed s) (resource_policies s) (policy_incarnation s) (enforce_dead_letter_iam s)
    (dead_letter_grants_required s) v (issued_page_boundaries s) (topics s) (subscriptions s) (topic_subs s)
    (function_subscriptions s) (snapshots s) (topic_snapshots s) (snapshot_message_refs s) (topic_counter s)
    (message_counter s) (ack_rng s) (snapshot_counter s) (snapshot_retained_bytes s) (push_minimum_interval s)
    (next_address s).
Definition with_issued_page_boundaries (v : gmap text (gmap text (option text))) (s : PubSubState) : PubSubState :=
  Build_PubSubState (seed s) (resource_policies s) (policy_incarnation s) (enforce_dead_letter_iam s)
    (dead_letter_grants_required s) (project_numbers s) v (topics s) (subscriptions s) (topic_subs s)
    (function_subscriptions s) (snapshots s) (topic_snapshots s) (snapshot_message_refs s) (topic_counter s)
    (message_counter s) (ack_rng s) (snapshot_counter s) (snapshot_retained_bytes s) (push_minimum_interval s)
    (next_address s).
Definition with_topics (v : gmap text TopicEntry) (s : PubSubState) : PubSubState :=
  Build_PubSubState (seed s) (resource_policies s) (policy_incarnation s) (enforce_dead_letter_iam s)
    (dead_letter_grants_required s) (project_numbers s) (issued_page_boundaries s) v (subscriptions s) (topic_subs
    s) (function_subscriptions s) (snapshots s) (topic_snapshots s) (snapshot_message_refs s) (topic_counter s)
    (message_counter s) (ack_rng s) (snapshot_counter s) (snapshot_retained_bytes s) (push_minimum_interval s)
    (next_address s).
Definition with_subscriptions (v : gmap text SubscriptionState) (s : PubSubState) : PubSubState :=
  Build_PubSubState (seed s) (resource_policies s) (policy_incarnation s) (enforce_dead_letter_iam s)
    (dead_letter_grants_required s) (project_numbers s) (issued_page_boundaries s) (topics s) v (topic_subs s)
    (function_subscriptions s) (snapshots s) (topic_snapshots s) (snapshot_message_refs s) (topic_counter s)
    (message_counter s) (ack_rng s) (snapshot_counter s) (snapshot_retained_bytes s) (push_minimum_interval s)
    (next_address s).
Definition with_topic_subs (v : gmap text (gset text)) (s : PubSubState) : PubSubState :=
  Build_PubSubState (seed s) (resource_policies s) (policy_incarnation s) (enforce_dead_letter_iam s)
    (dead_letter_grants_required s) (project_numbers s) (issued_page_boundaries s) (topics s) (subscriptions s) v
    (function_subscriptions s) (snapshots s) (topic_snapshots s) (snapshot_message_refs s) (topic_counter s)
    (message_counter s) (ack_rng s) (snapshot_counter s) (snapshot_retained_bytes s) (push_minimum_interval s)
    (next_address s).
Definition with_function_subscriptions (v : gset text) (s : PubSubState) : PubSubState :=
  Build_PubSubState (seed s) (resource_policies s) (policy_incarnation s) (enforce_dead_letter_iam s)
    (dead_letter_grants_required s) (project_numbers s) (issued_page_boundaries s) (topics s) (subscriptions s)
    (topic_subs s) v (snapshots s) (topic_snapshots s) (snapshot_message_refs s) (topic_counter s) (message_counter
    s) (ack_rng s) (snapshot_counter s) (snapshot_retained_bytes s) (push_minimum_interval s) (next_address s).
Definition with_snapshots (v : gmap text Snapshot) (s : PubSubState) : PubSubState :=
  Build_PubSubState (seed s) (resource_policies s) (policy_incarnation s) (enforce_dead_letter_iam s)
    (dead_letter_grants_required s) (project_numbers s) (issued_page_boundaries s) (topics s) (subscriptions s)
    (topic_subs s) (function_subscriptions s) v (topic_snapshots s) (snapshot_message_refs s) (topic_counter s)
    (message_counter s) (ack_rng s) (snapshot_counter s) (snapshot_retained_bytes s) (push_minimum_interval s)
    (next_address s).
Definition with_topic_snapshots (v : gmap (text * Z) (gset text)) (s : PubSubState) : PubSubState :=
  Build_PubSubState (seed s) (resource_policies s) (policy_incarnation s) (enforce_dead_letter_iam s)
    (dead_letter_grants_required s) (project_numbers s) (issued_page_boundaries s) (topics s) (subscriptions s)
    (topic_subs s) (function_subscriptions s) (snapshots s) v (snapshot_message_refs s) (topic_counter s)
    (message_counter s) (ack_rng s) (snapshot_counter s) (snapshot_retained_bytes s) (push_minimum_interval s)
    (next_address s).
Definition with_snapshot_message_refs (v : gmap text Z) (s : PubSubState) : PubSubState :=
  Build_PubSubState (seed s) (resource_policies s) (policy_incarnation s) (enforce_dead_letter_iam s)
    (dead_letter_grants_required s) (project_numbers s) (issued_page_boundaries s) (topics s) (subscriptions s)
    (topic_subs s) (function_subscriptions s) (snapshots s) (topic_snapshots s) v (topic_counter s) (message_counter
    s) (ack_rng s) (snapshot_counter s) (snapshot_retained_bytes s) (push_minimum_interval s) (next_address s).
Definition with_topic_counter (v : Z) (s : PubSubState) : PubSubState :=
  Build_PubSubState (seed s) (resource_policies s) (policy_incarnation s) (enforce_dead_letter_iam s)
    (dead_letter_grants_required s) (project_numbers s) (issued_page_boundaries s) (topics s) (subscriptions s)
    (topic_subs s) (function_subscriptions s) (snapshots s) (topic_snapshots s) (snapshot_message_refs s) v
    (message_counter s) (ack_rng s) (snapshot_counter s) (snapshot_retained_bytes s) (push_minimum_interval s)
    (next_address s).
Definition with_message_counter (v : Z) (s : PubSubState) : PubSubState :=
  Build_PubSubState (seed s) (resource_policies s) (policy_incarnation s) (enforce_dead_letter_iam s)
    (dead_letter_grants_required s) (project_numbers s) (issued_page_boundaries s) (topics s) (subscriptions s)
    (topic_subs s) (function_subscriptions s) (snapshots s) (topic_snapshots s) (snapshot_message_refs s)
    (topic_counter s) v (ack_rng s) (snapshot_counter s) (snapshot_retained_bytes s) (push_minimum_interval s)
    (next_address s).
Definition with_ack_rng (v : SplitMix64) (s : PubSubState) : PubSubState :=
  Build_PubSubState (seed s) (resource_policies s) (policy_incarnation s) (enforce_dead_letter_iam s)
    (dead_letter_grants_required s) (project_numbers s) (issued_page_boundaries s) (topics s) (subscriptions s)
    (topic_subs s) (function_subscriptions s) (snapshots s) (topic_snapshots s) (snapshot_message_refs s)
    (topic_counter s) (message_counter s) v (snapshot_counter s) (snapshot_retained_bytes s) (push_minimum_interval
    s) (next_address s).
Definition with_snapshot_counter (v : Z) (s : PubSubState) : PubSubState :=
  Build_PubSubState (seed s) (resource_policies s) (policy_incarnation s) (enforce_dead_letter_iam s)
    (dead_letter_grants_required s) (project_numbers s) (issued_page_boundaries s) (topics s) (subscriptions s)
    (topic_subs s) (function_subscriptions s) (snapshots s) (topic_snapshots s) (snapshot_message_refs s)
    (topic_counter s) (message_counter s) (ack_rng s) v (snapshot_retained_bytes s) (push_minimum_interval s)
    (next_address s).
Definition with_snapshot_retained_bytes (v : Z) (s : PubSubState) : PubSubState :=
  Build_PubSubState (seed s) (resource_policies s) (policy_incarnation s) (enforce_dead_letter_iam s)
    (dead_letter_grants_required s) (project_numbers s) (issued_page_boundaries s) (topics s) (subscriptions s)
    (topic_subs s) (function_subscriptions s) (snapshots s) (topic_snapshots s) (snapshot_message_refs s)
    (topic_counter s) (message_counter s) (ack_rng s) (snapshot_counter s) v (push_minimum_interval s) (next_address
    s).
Definition with_push_minimum_interval (v : Z) (s : PubSubState) : PubSubState :=
  Build_PubSubState (seed s) (resource_policies s) (policy_incarnation s) (enforce_dead_letter_iam s)
    (dead_letter_grants_required s) (project_numbers s) (issued_page_boundaries s) (topics s) (subscriptions s)
    (topic_subs s) (function_subscriptions s) (snapshots s) (topic_snapshots s) (snapshot_message_refs s)
    (topic_counter s) (message_counter s) (ack_rng s) (snapshot_counter s) (snapshot_retained_bytes s) v
    (next_address s).
Definition with_next_address (v : Z) (s : PubSubState) : PubSubState :=
  Build_PubSubState (seed s) (resource_policies s) (policy_incarnation s) (enforce_dead_letter_iam s)
    (dead_letter_grants_required s) (project_numbers s) (issued_page_boundaries s) (topics s) (subscriptions s)
    (topic_subs s) (function_subscriptions s) (snapshots s) (topic_snapshots s) (snapshot_message_refs s)
    (topic_counter s) (message_counter s) (ack_rng s) (snapshot_counter s) (snapshot_retained_bytes s)
    (push_minimum_interval s) v.

(** An operation on the registry. *)
Definition B (A : Type) : Type := PM PubSubState PubSubError A.

(** [seed ^ 0x5053_5542_4143_4b5f], the seed of the acknowledgement ids. *)
Definition ack_seed (seed : Z) : Z := Z.lxor seed 0x5053554241434b5f.

Definition state_new (seed : Z) : PubSubState := {|
  seed := seed; resource_policies := ∅; policy_incarnation := 0; enforce_dead_letter_iam := false;
  dead_letter_grants_required := false; project_numbers := ∅; issued_page_boundaries := ∅; topics := ∅;
  subscriptions := ∅; topic_subs := ∅; function_subscriptions := ∅; snapshots := ∅; topic_snapshots := ∅;
  snapshot_message_refs := ∅; topic_counter := 0; message_counter := 0; ack_rng := splitmix_new (ack_seed seed);
  snapshot_counter := 0; snapshot_retained_bytes := 0;
  push_minimum_interval := dur_from_millis DEFAULT_PUSH_MINIMUM_REDELIVERY_INTERVAL_MILLIS; next_address := 0;
|}.

(** [map.contains_key(key)] *)
Definition contains_key `{Countable K} {V} (key : K) (m : gmap K V) : bool := bool_decide (is_Some (m !! key)).

(** [map.values()] *)
Definition values {V} (m : gmap text V) : list V := map snd (btree_map_iter m).

(** [sub_mut(name)?] and the call of a method on what it borrows. *)
Definition on_subscription {A} (key : text) (method : SubscriptionState -> option (result A PubSubError * SubscriptionState)) : B A :=
  fun s =>
    match subscriptions s !! key with
    | None => Some (Err NotFound, s)
    | Some sub => '(r, sub) ← method sub; Some (r, with_subscriptions (<[key := sub]> (subscriptions s)) s)
    end.

Definition sub_mut {A} (name : SubscriptionName) (method : SubscriptionState -> option (result A PubSubError * SubscriptionState)) : B A :=
  on_subscription (subscription_to_full name) method.

(** ** Configuration *)

Definition is_project_number (number : text) : bool :=
  negb (bool_decide (number = [])) && (str_len number <=? 20) && forallb is_ascii_digit number &&
  negb (bool_decide (head number = Some (ch "0"))).

Definition set_project_numbers (numbers : gmap text text) : B unit :=
  do? p_each (fun '(project, number) =>
        do? p_lift (validate_project project) in
        refuse (negb (is_project_number number)) InvalidArgument) (btree_map_iter numbers) in
  modify (with_project_numbers numbers).

Definition set_dead_letter_iam_enforcement (enforce : bool) : B unit :=
  modify (fun s => with_dead_letter_grants_required enforce (with_enforce_dead_letter_iam enforce s)).

Definition set_dead_letter_grants_required (required : bool) : B unit :=
  modify (with_dead_letter_grants_required required).

Definition set_state_push_minimum_interval (interval : LogicalDuration) : B unit :=
  let interval := if interval <? 0 then 0 else interval in
  modify (fun s => with_subscriptions (set_push_minimum_redelivery_interval interval <$> subscriptions s)
                     (with_push_minimum_interval interval s)).

(** ** Policies *)

Definition get_resource_policy (s : PubSubState) (resource : text) : result ResourcePolicy PubSubError :=
  match resource_policies s !! resource with Some p => Ok (policy_get p) | None => Err NotFound end.

Definition set_resource_policy (resource expected : text) (v : option Z) (bs : list PolicyBinding) : B ResourcePolicy :=
  fun s =>
    match resource_policies s !! resource with
    | None => Some (Err NotFound, s)
    | Some p =>
        let '(r, p) := policy_set p expected v bs in
        Some (r, with_resource_policies (<[resource := p]> (resource_policies s)) s)
    end.

Definition create_resource_policy (resource : text) : B unit :=
  let? last := gets policy_incarnation in
  let? incarnation := found (n ← checked u32 (last + 1); if n <=? 0xffffff then Some n else None) ResourceExhausted in
  do? modify (with_policy_incarnation incarnation) in
  modify (fun s => with_resource_policies (<[resource := policy_new incarnation]> (resource_policies s)) s).

Definition service_agent (number : text) : text :=
  chars "serviceAccount:service-" ++ number ++ chars "@gcp-sa-pubsub.iam.gserviceaccount.com".

Definition policy_grants (s : PubSubState) (resource r member : text) : bool :=
  match resource_policies s !! resource with Some p => grants p r member | None => false end.

Definition dead_letter_authorized (s : PubSubState) (source : SubscriptionName) (destination : TopicName) : bool :=
  if negb (enforce_dead_letter_iam s) || negb (dead_letter_grants_required s) then true
  else
    match project_numbers s !! sub_project source with
    | None => false
    | Some number =>
        policy_grants s (subscription_to_full source) (chars "roles/pubsub.subscriber") (service_agent number) &&
        policy_grants s (topic_to_full destination) (chars "roles/pubsub.publisher") (service_agent number)
    end.

(** ** List pages *)

(** What a list context remembers of a cursor it issued. *)
Definition record_boundary (boundary : text) (previous : option (option text)) : option text :=
  match previous with
  | Some previous => if bool_decide (previous = Some boundary) then previous else None
  | None => Some boundary
  end.

Definition state_paginate {T} (context : text) (rs : list T) (page_size : Z) (page_token : text) (policy : PagingPolicy)
    (name : T -> text) : B (Page T) :=
  let? boundaries := gets issued_page_boundaries in
  let boundary := boundaries !! context ≫= (fun tokens => default None (tokens !! page_token)) in
  let? r := unwrap (paginate_after rs page_size page_token policy name boundary) in
  let? page := p_lift r in
  if bool_decide (policy = Strict) && negb (bool_decide (next_page_token page = [])) then
    let? last_ := unwrap (last (resources page)) in
    let tokens := default ∅ (boundaries !! context) in
    let token := next_page_token page in
    do? modify (with_issued_page_boundaries
          (<[context := <[token := record_boundary (name last_) (tokens !! token)]> tokens]> boundaries)) in
    p_ret page
  else p_ret page.

(** [retain(|context, _| !context.starts_with(&prefix))] *)
Definition forget_contexts (prefix : text) (s : PubSubState) : PubSubState :=
  with_issued_page_boundaries (filter (fun p => starts_with prefix p.1 = false) (issued_page_boundaries s)) s.

(** ** Topics *)

Definition create_topic_with_retention (name : TopicName) (labels : gmap text text) (retention : option LogicalDuration) : B unit :=
  do? p_lift (if_some retention validate_retention) in
  let key := topic_to_full name in
  let? existing := gets topics in
  do? refuse (contains_key key existing) AlreadyExists in
  do? refuse (MAX_TOPICS <=? Z.of_nat (size existing)) ResourceExhausted in
  let? last := gets topic_counter in
  let? counter := found (checked u64 (last + 1)) ResourceExhausted in
  do? modify (with_topic_counter counter) in
  do? create_resource_policy key in
  do? modify (fun s => with_topic_subs (<[key := default ∅ (topic_subs s !! key)]> (topic_subs s)) s) in
  modify (fun s =>
    with_topics (<[key := {| topic_name := name; topic_entry_labels := labels; incarnation_of := topic_counter s;
                            topic_message_retention := retention |}]> (topics s)) s).

Definition create_topic (name : TopicName) (labels : gmap text text) : B unit := create_topic_with_retention name labels None.

Definition topic_exists (s : PubSubState) (name : TopicName) : bool := contains_key (topic_to_full name) (topics s).

Definition topic_labels (s : PubSubState) (name : TopicName) : result (gmap text text) PubSubError :=
  match topics s !! topic_to_full name with Some t => Ok (topic_entry_labels t) | None => Err NotFound end.

Definition update_topic_labels (name : TopicName) (labels : gmap text text) (strict : bool) : B unit :=
  do? (if strict then p_lift (validate_labels labels) else p_ret tt) in
  let key := topic_to_full name in
  let? existing := gets topics in
  let? t := found (existing !! key) NotFound in
  modify (with_topics (<[key := {| topic_name := topic_name t; topic_entry_labels := labels; incarnation_of := incarnation_of t;
                                  topic_message_retention := topic_message_retention t |}]> existing)).

Definition topic_retention (s : PubSubState) (name : TopicName) : result (option LogicalDuration) PubSubError :=
  match topics s !! topic_to_full name with Some t => Ok (topic_message_retention t) | None => Err NotFound end.

Definition list_topics (s : PubSubState) (project : text) : list TopicName :=
  map topic_name (filter (fun t => topic_project (topic_name t) = project) (values (topics s))).

(** The loop over the subscriptions of a deleted topic. *)
Definition detach (subs : gmap text SubscriptionState) (key : text) : option (gmap text SubscriptionState) :=
  match subs !! key with
  | Some sub => sub ← mark_topic_deleted sub; Some (<[key := sub]> subs)
  | None => Some subs
  end.

Definition delete_topic (name : TopicName) : B unit :=
  let key := topic_to_full name in
  let? existing := gets topics in
  do? refuse (negb (contains_key key existing)) NotFound in
  do? modify (with_topics (delete key existing)) in
  do? modify (fun s => with_resource_policies (delete key (resource_policies s)) s) in
  do? modify (forget_contexts (key ++ chars "/")) in
  let? attached := gets (fun s => btree_iter (default ∅ (topic_subs s !! key))) in
  do? modify (fun s => with_topic_subs (delete key (topic_subs s)) s) in
  let? subs := gets subscriptions in
  let? subs := unwrap (each detach attached subs) in
  modify (with_subscriptions subs).

Definition topic_subscriptions (s : PubSubState) (name : TopicName) : list text :=
  match topic_subs s !! topic_to_full name with Some keys => btree_iter keys | None => [] end.

(** ** Subscriptions *)

Definition create_subscription (c : SubscriptionConfig) : B unit :=
  do? p_lift (config_validate c) in
  let key := subscription_to_full (name c) in
  let topic_key := topic_to_full (config_topic c) in
  let? subs := gets subscriptions in
  let? existing := gets topics in
  do? refuse (contains_key key subs) AlreadyExists in
  do? refuse (negb (is_deleted_sentinel (config_topic c)) && negb (contains_key topic_key existing)) NotFound in
  do? (match dead_letter_policy c with
       | Some dl => refuse (negb (contains_key (topic_to_full (dead_letter_topic dl)) existing)) NotFound
       | None => p_ret tt
       end) in
  do? refuse (MAX_SUBSCRIPTIONS <=? Z.of_nat (size subs)) ResourceExhausted in
  do? modify (fun s => with_topic_subs (<[topic_key := {[key]} ∪ default ∅ (topic_subs s !! topic_key)]> (topic_subs s)) s) in
  do? create_resource_policy key in
  modify (fun s => with_subscriptions
    (<[key := set_push_minimum_redelivery_interval (push_minimum_interval s) (sub_new c)]> (subscriptions s)) s).

Definition mark_function_subscription (name : SubscriptionName) : B unit :=
  let key := subscription_to_full name in
  let? subs := gets subscriptions in
  do? refuse (negb (contains_key key subs)) NotFound in
  modify (fun s => with_function_subscriptions ({[key]} ∪ function_subscriptions s) s).

(** [self.subscriptions.get(key).map(f).ok_or_else(..)] *)
Definition read_subscription {A} (f : SubscriptionState -> A) (s : PubSubState) (name : SubscriptionName) : result A PubSubError :=
  match subscriptions s !! subscription_to_full name with Some sub => Ok (f sub) | None => Err NotFound end.

Definition subscription_config : PubSubState -> SubscriptionName -> result SubscriptionConfig PubSubError :=
  read_subscription config.

Definition next_delivery_at (s : PubSubState) (name : SubscriptionName) : option (result (option LogicalInstant) PubSubError) :=
  match subscriptions s !! subscription_to_full name with
  | Some sub => Ok <$> next_available_at sub
  | None => Some (Err NotFound)
  end.

Definition state_next_pull_deadline (s : PubSubState) (name : SubscriptionName) (now : LogicalInstant)
    : option (result (option LogicalInstant) PubSubError) :=
  match subscriptions s !! subscription_to_full name with
  | Some sub => Ok <$> next_pull_deadline sub now
  | None => Some (Err NotFound)
  end.

Definition list_subscriptions (s : PubSubState) (project : text) : list SubscriptionConfig :=
  filter (fun c => sub_project (name c) = project) (map config (values (subscriptions s))).

Definition push_subscriptions (s : PubSubState) (t : TopicName) : list (SubscriptionName * text) :=
  map (fun sub => (name (config sub), push_endpoint (push_config (config sub))))
    (filter (fun sub => is_push (config sub)) (omap (fun key => subscriptions s !! key) (topic_subscriptions s t))).

Definition delete_subscription (name_ : SubscriptionName) : B unit :=
  let key := subscription_to_full name_ in
  let? subs := gets subscriptions in
  let? sub := found (subs !! key) NotFound in
  do? modify (with_subscriptions (delete key subs)) in
  do? modify (fun s => with_resource_policies (delete key (resource_policies s)) s) in
  do? modify (fun s => with_function_subscriptions (function_subscriptions s ∖ {[key]}) s) in
  let topic_key := topic_to_full (config_topic (config sub)) in
  modify (fun s =>
    match topic_subs s !! topic_key with
    | Some keys => with_topic_subs (<[topic_key := keys ∖ {[key]}]> (topic_subs s)) s
    | None => s
    end).

Definition update_ack_deadline (name : SubscriptionName) (seconds : Z) : B unit :=
  sub_mut name (fun sub =>
    if (seconds <? MIN_ACK_DEADLINE_SECONDS) || (MAX_ACK_DEADLINE_SECONDS <? seconds) then Some (Err InvalidArgument, sub)
    else Some (Ok tt, set_ack_deadline seconds sub)).

Definition update_push_config (name : SubscriptionName) (push : PushConfig) : B unit :=
  sub_mut name (fun sub => Some (Ok tt, set_push_config push sub)).

Record SubscriptionUpdate := {
  up_ack_deadline_seconds : option Z;
  up_labels : option (gmap text text);
  up_retain_acked_messages : option bool;
  up_message_retention_duration : option (option LogicalDuration);
  up_expiration_policy : option (option ExpirationPolicy);
  up_retry_policy : option (option RetryPolicy);
  up_dead_letter_policy : option (option DeadLetterPolicy);
  up_push_config : option PushConfig;
}.

(** The candidate: every selected field replaced. *)
Definition apply_update (u : SubscriptionUpdate) (c : SubscriptionConfig) : SubscriptionConfig :=
  {| name := name c; config_topic := config_topic c;
     ack_deadline_seconds := default (ack_deadline_seconds c) (up_ack_deadline_seconds u);
     labels := default (labels c) (up_labels u);
     expiration_policy := default (expiration_policy c) (up_expiration_policy u);
     retain_acked_messages := default (retain_acked_messages c) (up_retain_acked_messages u);
     message_retention_duration := default (message_retention_duration c) (up_message_retention_duration u);
     enable_message_ordering := enable_message_ordering c; filter_ := filter_ c;
     dead_letter_policy := default (dead_letter_policy c) (up_dead_letter_policy u);
     retry_policy := default (retry_policy c) (up_retry_policy u);
     push_config := default (push_config c) (up_push_config u) |}.

Definition update_subscription_configuration (name : SubscriptionName) (update : SubscriptionUpdate) (strict : bool) : B unit :=
  let? current := gets (fun s => subscription_config s name) in
  let? c := p_lift current in
  let candidate := apply_update update c in
  do? p_lift (config_validate candidate) in
  do? (if strict then p_lift (validate_production_configuration candidate) else p_ret tt) in
  sub_mut name (fun sub => Some (Ok tt, replace_config candidate sub)).

Definition update_subscription (name : SubscriptionName) (ack_deadline_seconds : option Z) (push : option PushConfig) : B unit :=
  update_subscription_configuration name
    {| up_ack_deadline_seconds := ack_deadline_seconds; up_labels := None; up_retain_acked_messages := None;
       up_message_retention_duration := None; up_expiration_policy := None; up_retry_policy := None;
       up_dead_letter_policy := None; up_push_config := push |} true.

Definition reported_topic (s : PubSubState) (name : SubscriptionName) : option text :=
  (fun sub => let t := topic_to_full (config_topic (config sub)) in if contains_key t (topics s) then t else DELETED_TOPIC)
    <$> subscriptions s !! subscription_to_full name.
