(* ===== verification/PsSnapshot.v ===== *)
(** * Pub/Sub snapshots

    Models the snapshots of [crates/fireemu-core-pubsub/src/state.rs]: their byte accounting,
    lifetimes and names, the counts of the messages they share, and the operations on them.
    The sizes and capacities that the accounting reads are those of [Memory]. *)
From S2P Require Import Prelude Time Text Determinism PsName PsFilter PsMessage PsSubscription PsPull PsState.

(** ** Accounting *)

Section accounting.
Context `{Memory}.

Definition owned_string_bytes (o : Origin) (s : text) : Z :=
  saturating usize (saturating usize (size_of_string + capacity o s) + 64).

Definition snapshot_reference_bytes (m : Shared) (unacknowledged : bool) : Z :=
  let owned := owned_string_bytes (InMessage (address m)) (message_id (value m)) in
  saturating usize (saturating usize (saturating usize (size_of_arc * 2) + owned) + (if unacknowledged then owned else 0)).

(** [.sum::<usize>()] *)
Definition usize_sum (l : list Z) : Z := wrapping usize (foldr Z.add 0 l).

Definition map_bytes (o : Origin) (m : gmap text text) : Z :=
  usize_sum (map (fun '(key, v) => saturating usize (owned_string_bytes o key + owned_string_bytes o v)) (btree_map_iter m)).

Definition snapshot_shared_message_bytes (m : Shared) : Z :=
  let o := InMessage (address m) in
  let msg := message (value m) in
  let bytes := saturating usize (size_of_stored_message + saturating usize (size_of_usize * 2)) in
  let bytes := saturating usize (bytes + data_capacity (address m) (data msg)) in
  let bytes := saturating usize (bytes + capacity o (ordering_key msg)) in
  let bytes := saturating usize (bytes + map_bytes o (attributes msg)) in
  saturating usize (bytes + owned_string_bytes o (message_id (value m))).

(** [labels_origin] is where the labels of this value were allocated. *)
Definition snapshot_owned_bytes (labels_origin : Origin) (sn : Snapshot) : Z :=
  let references := usize_sum (map (fun m =>
    snapshot_reference_bytes m (bool_decide (message_id (value m) ∈ unacknowledged_ids sn))) (captured_messages sn)) in
  let bytes := saturating usize (size_of_snapshot + 256) in
  let bytes := saturating usize (bytes + owned_string_bytes Cloned (snapshot_name sn)) in
  let bytes := saturating usize (bytes + owned_string_bytes Cloned (owner_project sn)) in
  let bytes := saturating usize (bytes + str_len (topic_to_full (snapshot_topic sn))) in
  let bytes := saturating usize (bytes + references) in
  saturating usize (bytes + map_bytes labels_origin (snapshot_labels sn)).

(** [try_fold]: the bytes of the messages that no snapshot holds yet. *)
Fixpoint add_unshared (refs : gmap text Z) (ms : list Shared) (total : Z) : result Z PubSubError :=
  match ms with
  | [] => Ok total
  | m :: ms =>
      if contains_key (message_id (value m)) refs then add_unshared refs ms total
      else match checked usize (total + snapshot_shared_message_bytes m) with
           | Some total => add_unshared refs ms total
           | None => Err ResourceExhausted
           end
  end.

Definition additional_snapshot_bytes (s : PubSubState) (sn : Snapshot) : result Z PubSubError :=
  add_unshared (snapshot_message_refs s) (captured_messages sn) (snapshot_owned_bytes FromCaller sn).

(** ** Removal *)

(** One step of the loop of [remove_snapshot] over the captured messages. *)
Definition release_ref (acc : gmap text Z * Z) (m : Shared) : gmap text Z * Z :=
  let '(refs, bytes) := acc in
  match refs !! message_id (value m) with
  | None => acc
  | Some n =>
      let n := saturating usize (n - 1) in
      if n =? 0 then (delete (message_id (value m)) refs, saturating usize (bytes - snapshot_shared_message_bytes m))
      else (<[message_id (value m) := n]> refs, bytes)
  end.

(** The index of the snapshots by topic instance, without one of them. *)
Definition unindex_snapshot (key : text * Z) (name : text) (index : gmap (text * Z) (gset text)) : gmap (text * Z) (gset text) :=
  match index !! key with
  | Some names =>
      let names := names ∖ {[name]} in
      if bool_decide (names = ∅) then delete key index else <[key := names]> index
  | None => index
  end.

Definition remove_snapshot (name : text) (s : PubSubState) : option Snapshot * PubSubState :=
  match snapshots s !! name with
  | None => (None, s)
  | Some sn =>
      let s := with_snapshots (delete name (snapshots s)) s in
      let s := with_topic_snapshots
        (unindex_snapshot (topic_to_full (snapshot_topic sn), topic_incarnation sn) name (topic_snapshots s)) s in
      let bytes := saturating usize (snapshot_retained_bytes s - snapshot_owned_bytes Cloned sn) in
      let '(refs, bytes) := fold_left release_ref (captured_messages sn) (snapshot_message_refs s, bytes) in
      (Some sn, with_snapshot_retained_bytes bytes (with_snapshot_message_refs refs s))
  end.

Definition remove_snapshots (names : list text) (s : PubSubState) : PubSubState :=
  fold_left (fun s name => (remove_snapshot name s).2) names s.

Definition expired_snapshots (s : PubSubState) (now : LogicalInstant) : list text :=
  map snapshot_name (filter (fun sn => expire_at sn <= now) (values (snapshots s))).

Definition remove_expired_snapshots (now : LogicalInstant) (s : PubSubState) : PubSubState :=
  remove_snapshots (expired_snapshots s now) s.

(** ** Names and lifetimes *)

Definition parse_snapshot_name (name : text) : result (text * text) PubSubError :=
  match strip_text (chars "projects/") name ≫= split_once_at (chars "/snapshots/") with
  | None => Err InvalidArgument
  | Some (project, snapshot) =>
      match validate_project project, validate_resource_id snapshot with
      | Ok _, Ok _ => Ok (project, snapshot)
      | Err e, _ => Err e
      | _, Err e => Err e
      end
  end.

Definition snapshot_lifetime (oldest_unacknowledged : option LogicalInstant) (now : LogicalInstant) : result LogicalDuration PubSubError :=
  let age := default 0 (published_at ← oldest_unacknowledged; age ← checked_duration_since now published_at;
                        if 0 <? age then Some age else None) in
  let lifetime := default (int_min i128) (checked i128 (dur_from_seconds SNAPSHOT_TTL_SECONDS - age)) in
  if lifetime <? dur_from_seconds MIN_SNAPSHOT_TTL_SECONDS then Err FailedPrecondition else Ok lifetime.

Definition generated_name (subscription : SubscriptionName) (counter : Z) : text :=
  chars "projects/" ++ sub_project subscription ++ chars "/snapshots/snapshot-" ++ decimal counter.

(** The loop for a free name.  One of the first [size + 1] candidates is free
    ([available_name_total]). *)
Fixpoint free_name (fuel : nat) (taken : gmap text Snapshot) (subscription : SubscriptionName) (counter : Z)
    : option (result (text * Z) PubSubError) :=
  match fuel with
  | O => None
  | S fuel =>
      match checked u64 (counter + 1) with
      | None => Some (Err ResourceExhausted)
      | Some counter =>
          let candidate := generated_name subscription counter in
          if contains_key candidate taken then free_name fuel taken subscription counter
          else Some (Ok (candidate, counter))
      end
  end.

Definition available_snapshot_name (s : PubSubState) (requested_name : text) (subscription : SubscriptionName)
    : option (result (text * option Z) PubSubError) :=
  if bool_decide (requested_name = []) then
    r ← free_name (S (size (snapshots s))) (snapshots s) subscription (snapshot_counter s);
    Some (match r with Ok (name, counter) => Ok (name, Some counter) | Err e => Err e end)
  else Some (Ok (requested_name, None)).

(** ** Operations *)

Definition count_ref (refs : gmap text Z) (m : Shared) : gmap text Z :=
  let id := message_id (value m) in
  <[id := wrapping usize (default 0 (refs !! id) + 1)]> refs.

(** The snapshot of a subscription, before it is admitted. *)
Definition capture (name project : text) (topic : TopicName) (incarnation : Z) (now : LogicalInstant) (lifetime : LogicalDuration)
    (labels : gmap text text) (sub : SubscriptionState) : Snapshot :=
  {| snapshot_name := name; owner_project := project; snapshot_topic := topic; topic_incarnation := incarnation;
     created_at := now; expire_at := default inst_MAX (inst_checked_add now lifetime); snapshot_labels := labels;
     unacknowledged_ids := unacknowledged_message_ids sub; retained_ids := retained_message_ids sub;
     captured_messages := retained_messages sub |}.

(** The assignments of [create_snapshot], once the snapshot is admitted. *)
Definition insert_snapshot (sn : Snapshot) (bytes : Z) (counter : option Z) (s : PubSubState) : PubSubState :=
  let s := with_snapshot_retained_bytes (wrapping usize (snapshot_retained_bytes s + bytes)) s in
  let s := with_snapshot_message_refs (fold_left count_ref (captured_messages sn) (snapshot_message_refs s)) s in
  let s := match counter with Some counter => with_snapshot_counter counter s | None => s end in
  let key := (topic_to_full (snapshot_topic sn), topic_incarnation sn) in
  let s := with_topic_snapshots (<[key := {[snapshot_name sn]} ∪ default ∅ (topic_snapshots s !! key)]> (topic_snapshots s)) s in
  with_snapshots (<[snapshot_name sn := sn]> (snapshots s)) s.

Definition over_retained (total : option Z) : bool :=
  match total with Some total => MAX_SNAPSHOT_RETAINED_BYTES <? total | None => true end.

Definition create_snapshot (requested_name : text) (subscription : SubscriptionName) (labels : gmap text text) (now : LogicalInstant)
    : B Snapshot :=
  do? modify (remove_expired_snapshots now) in
  let? c := gets (fun s => subscription_config s subscription) in
  let? c := p_lift c in
  let topic := config_topic c in
  let? existing := gets topics in
  do? refuse (is_deleted_sentinel topic || negb (contains_key (topic_to_full topic) existing)) NotFound in
  let? entry := unwrap (existing !! topic_to_full topic) in
  let? name := gets (fun s => available_snapshot_name s requested_name subscription) in
  let? name := unwrap name in
  let? (name, counter) := p_lift name in
  let? (project, _) := p_lift (parse_snapshot_name name) in
  do? refuse (negb (bool_decide (project = sub_project subscription))) InvalidArgument in
  let? taken := gets snapshots in
  do? refuse (contains_key name taken) AlreadyExists in
  do? refuse (MAX_SNAPSHOTS <=? Z.of_nat (size taken)) ResourceExhausted in
  let? subs := gets subscriptions in
  let? sub := found (subs !! subscription_to_full subscription) NotFound in
  let? lifetime := p_lift (snapshot_lifetime (oldest_unacknowledged_publish_time sub) now) in
  let sn := capture name project topic (incarnation_of entry) now lifetime labels sub in
  let? bytes := gets (fun s => additional_snapshot_bytes s sn) in
  let? bytes := p_lift bytes in
  let? retained := gets snapshot_retained_bytes in
  do? refuse (over_retained (checked usize (retained + bytes))) ResourceExhausted in
  do? modify (insert_snapshot sn bytes counter) in
  p_ret sn.

(** The lookup that [get_snapshot] and [update_snapshot] begin with. *)
Definition get_snapshot (name : text) (now : LogicalInstant) : B Snapshot :=
  do? p_lift (parse_snapshot_name name) in
  do? modify (remove_expired_snapshots now) in
  let? live := gets snapshots in
  found (live !! name) NotFound.

Definition list_snapshots (project : text) (now : LogicalInstant) : B (list Snapshot) :=
  do? modify (remove_expired_snapshots now) in
  gets (fun s => filter (fun sn => owner_project sn = project) (values (snapshots s))).

Definition list_topic_snapshots (topic : TopicName) (now : LogicalInstant) : B (list text) :=
  do? modify (remove_expired_snapshots now) in
  let key := topic_to_full topic in
  let? existing := gets topics in
  let? entry := found (existing !! key) NotFound in
  gets (fun s => btree_iter (default ∅ (topic_snapshots s !! (key, incarnation_of entry)))).

Definition with_labels (labels : gmap text text) (sn : Snapshot) : Snapshot :=
  {| snapshot_name := snapshot_name sn; owner_project := owner_project sn; snapshot_topic := snapshot_topic sn;
     topic_incarnation := topic_incarnation sn; created_at := created_at sn; expire_at := expire_at sn;
     snapshot_labels := labels; unacknowledged_ids := unacknowledged_ids sn; retained_ids := retained_ids sn;
     captured_messages := captured_messages sn |}.

Definition update_snapshot (name : text) (labels : gmap text text) (now : LogicalInstant) : B Snapshot :=
  let? sn := get_snapshot name now in
  let updated := with_labels labels sn in
  let? retained := gets snapshot_retained_bytes in
  let? total := found (checked usize (saturating usize (retained - snapshot_owned_bytes Cloned sn)
                                      + snapshot_owned_bytes FromCaller updated)) ResourceExhausted in
  do? refuse (MAX_SNAPSHOT_RETAINED_BYTES <? total) ResourceExhausted in
  do? modify (with_snapshot_retained_bytes total) in
  do? modify (fun s => with_snapshots (<[name := updated]> (snapshots s)) s) in
  p_ret updated.

Definition delete_snapshot (name : text) (now : LogicalInstant) : B unit :=
  do? p_lift (parse_snapshot_name name) in
  do? modify (remove_expired_snapshots now) in
  fun s => match remove_snapshot name s with
           | (Some _, s) => Some (Ok tt, s)
           | (None, s) => Some (Err NotFound, s)
           end.

Definition state_seek_to_snapshot (subscription : SubscriptionName) (name : text) (now : LogicalInstant) : B unit :=
  do? p_lift (parse_snapshot_name name) in
  let? sn := get_snapshot name now in
  let? c := gets (fun s => subscription_config s subscription) in
  let? c := p_lift c in
  let? existing := gets topics in
  let current := incarnation_of <$> existing !! topic_to_full (config_topic c) in
  do? refuse (negb (bool_decide (config_topic c = snapshot_topic sn)) || negb (bool_decide (current = Some (topic_incarnation sn))))
        FailedPrecondition in
  sub_mut subscription (fun sub =>
    Some (seek_to_snapshot sub (captured_messages sn) (retained_ids sn) (unacknowledged_ids sn) (created_at sn) now)).
End accounting.
