(* ===== verification/PsPublish.v ===== *)
(** * Pub/Sub publishing, delivery and reset

    Models the rest of [crates/fireemu-core-pubsub/src/state.rs]: publications, which are
    prepared and then committed, pulls with dead-letter forwarding, the operations on leases,
    and the resets.  [max] is a [nat]; an acknowledgement id is drawn from the generator of the
    registry. *)
From S2P Require Import Prelude Time Rfc3339 Text Determinism MessageId PsName PsFilter PsMessage PsSubscription PsPull PsIam PsPagination PsState PsSnapshot.

(** ** Acknowledgement ids *)

Definition hex_digit (d : Z) : Z := if d <? 10 then ch "0" + d else ch "a" + (d - 10).

(** [format!("{:016x}", n)] *)
Definition hex16 (n : Z) : text :=
  map (fun i => hex_digit (n / 16 ^ i mod 16)) [15; 14; 13; 12; 11; 10; 9; 8; 7; 6; 5; 4; 3; 2; 1; 0].

(** The generator after [n] draws. *)
Fixpoint rng_after (n : nat) (g : SplitMix64) : SplitMix64 :=
  match n with O => g | S n => rng_after n (next_u64 g).2 end.

(** The [n]th draw of [|| format!("ack-{:016x}", seed_bump.next_u64())]. *)
Definition next_ack_id (g : SplitMix64) (n : nat) : text := chars "ack-" ++ hex16 (next_u64 (rng_after n g)).1.

Section broker.
Context `{Memory}.

(** ** Publishing *)

Definition admitted_by (sub : SubscriptionState) (ms : list Shared) : list Shared :=
  filter (fun m => admits sub (attributes (message (value m))) = true) ms.

(** The loop over the subscriptions of a topic. *)
Fixpoint ensure_capacities (s : PubSubState) (keys : list text) (ms : list Shared) : result unit PubSubError :=
  match keys with
  | [] => Ok tt
  | key :: keys =>
      if bool_decide (key ∈ function_subscriptions s) then ensure_capacities s keys ms
      else match subscriptions s !! key with
           | None => ensure_capacities s keys ms
           | Some sub =>
               match ensure_enqueue_capacity sub (map value (admitted_by sub ms)) with
               | Ok _ => ensure_capacities s keys ms
               | Err e => Err e
               end
           end
  end.

(** [try_fold] with [checked_add]. *)
Fixpoint checked_sum (l : list Z) (total : Z) : option Z :=
  match l with [] => Some total | x :: l => total ← checked usize (total + x); checked_sum l total end.

Definition within_limit (total : Z) : option Z := if total <=? MAX_SNAPSHOT_RETAINED_BYTES then Some total else None.

Definition snapshot_publish_admission (s : PubSubState) (key : text) (incarnation : Z) (ms : list Shared)
    : result (list text * Z) PubSubError :=
  let names := btree_iter (default ∅ (topic_snapshots s !! (key, incarnation))) in
  let total :=
    per_snapshot ← checked_sum (map (fun m => snapshot_reference_bytes m true) ms) 0;
    reference_bytes ← checked usize (per_snapshot * Z.of_nat (length names));
    shared_bytes ← (if bool_decide (names = []) then Some 0
                    else match add_unshared (snapshot_message_refs s) ms 0 with Ok total => Some total | Err _ => None end);
    total ← checked usize (snapshot_retained_bytes s + reference_bytes);
    total ← checked usize (total + shared_bytes);
    within_limit total in
  match total with Some total => Ok (names, total) | None => Err ResourceExhausted end.

Definition publish_admission (s : PubSubState) (key : text) (incarnation : Z) (ms : list Shared)
    : result (list text * list text * Z) PubSubError :=
  let keys := btree_iter (default ∅ (topic_subs s !! key)) in
  match ensure_capacities s keys ms with
  | Err e => Err e
  | Ok _ =>
      match snapshot_publish_admission s key incarnation ms with
      | Err e => Err e
      | Ok (names, total) => Ok (keys, names, total)
      end
  end.

(** The loop that numbers and allocates the messages: [counter] and [address] are the last
    ones used. *)
Fixpoint number_messages (messages : list (PubsubMessage * option text)) (counter address : Z) (now : LogicalInstant)
    : result (list Shared * Z) PubSubError :=
  match messages with
  | [] => Ok ([], counter)
  | (m, chosen) :: messages =>
      let numbered :=
        match chosen with
        | Some id => Some (id, counter)
        | None => counter ← checked u64 (counter + 1);
                  if counter <=? BROKER_SPAN then Some (chars (pubsub_message_id counter), counter) else None
        end in
      match numbered with
      | None => Err ResourceExhausted
      | Some (id, counter) =>
          let shared := {| address := address; value := {| message_id := id; publish_time := now; message := m |} |} in
          match number_messages messages counter (address + 1) now with
          | Ok (ms, counter) => Ok (shared :: ms, counter)
          | Err e => Err e
          end
      end
  end.

Definition prepare_publish_numbered (topic : TopicName) (messages : list (PubsubMessage * option text)) (now : LogicalInstant)
    : B PreparedPublication :=
  let key := topic_to_full topic in
  let? existing := gets topics in
  let? entry := found (existing !! key) NotFound in
  do? refuse (MAX_MESSAGES_PER_PUBLISH <? Z.of_nat (length messages)) InvalidArgument in
  do? p_each (fun m => p_lift (validate m.1)) messages in
  do? modify (remove_expired_snapshots now) in
  let? initial := gets message_counter in
  let? address := gets next_address in
  let? (ms, counter) := p_lift (number_messages messages initial address now) in
  do? modify (with_next_address (address + Z.of_nat (length ms))) in
  let? admission := gets (fun s => publish_admission s key (incarnation_of entry) ms) in
  let? (keys, names, total) := p_lift admission in
  p_ret {| topic_key := key; prepared_incarnation := incarnation_of entry; initial_message_counter := initial;
           next_message_counter := counter; published := ms; subscription_keys := keys; snapshot_names := names;
           snapshot_total_bytes := total |}.

Definition prepare_publish (topic : TopicName) (messages : list PubsubMessage) (now : LogicalInstant) : B PreparedPublication :=
  prepare_publish_numbered topic (map (fun m => (m, None)) messages) now.

(** The check of the identifiers a caller chose. *)
Fixpoint chosen_ids_ok (seen : gset text) (ids : list text) : bool :=
  match ids with
  | [] => true
  | id :: ids => if bool_decide (id = []) || bool_decide (id ∈ seen) then false else chosen_ids_ok ({[id]} ∪ seen) ids
  end.

Definition prepare_publish_with_message_ids (topic : TopicName) (messages : list (PubsubMessage * text)) (now : LogicalInstant)
    : B PreparedPublication :=
  do? refuse (negb (chosen_ids_ok ∅ (map snd messages))) InvalidArgument in
  prepare_publish_numbered topic (map (fun '(m, id) => (m, Some id)) messages) now.

(** The messages of a publication for one subscription; an enqueue that fails panics. *)
Definition deliver_one (now : LogicalInstant) (sub : SubscriptionState) (m : Shared) : option SubscriptionState :=
  if admits sub (attributes (message (value m))) then
    match enqueue sub m now with (Ok _, sub) => Some sub | (Err _, _) => None end
  else Some sub.

Definition fan_out (functions : gset text) (ms : list Shared) (now : LogicalInstant) (subs : gmap text SubscriptionState) (key : text)
    : option (gmap text SubscriptionState) :=
  if bool_decide (key ∈ functions) then Some subs
  else match subs !! key with
       | None => Some subs
       | Some sub => sub ← each (deliver_one now) ms sub; Some (<[key := sub]> subs)
       end.

(** [Arc::make_mut] gives the snapshot its own sets. *)
Definition extend_snapshot (ms : list Shared) (sn : Snapshot) : Snapshot :=
  let ids := list_to_set (map (fun m => message_id (value m)) ms) in
  {| snapshot_name := snapshot_name sn; owner_project := owner_project sn; snapshot_topic := snapshot_topic sn;
     topic_incarnation := topic_incarnation sn; created_at := created_at sn; expire_at := expire_at sn;
     snapshot_labels := snapshot_labels sn; unacknowledged_ids := ids ∪ unacknowledged_ids sn;
     retained_ids := ids ∪ retained_ids sn; captured_messages := captured_messages sn ++ ms |}.

Definition retain_in (ms : list Shared) (live : gmap text Snapshot) (name : text) : option (gmap text Snapshot) :=
  sn ← live !! name; Some (<[name := extend_snapshot ms sn]> live).

Definition count_refs (by_ : Z) (refs : gmap text Z) (m : Shared) : gmap text Z :=
  let id := message_id (value m) in
  <[id := saturating usize (default 0 (refs !! id) + by_)]> refs.

Definition retain_snapshot_publication (names : list text) (ms : list Shared) : B unit :=
  let? live := gets snapshots in
  let? live := unwrap (each (retain_in ms) names live) in
  do? modify (with_snapshots live) in
  if bool_decide (names = []) then p_ret tt
  else modify (fun s => with_snapshot_message_refs (fold_left (count_refs (Z.of_nat (length names))) ms (snapshot_message_refs s)) s).

Definition same_admission (p : PreparedPublication) (admission : list text * list text * Z) : bool :=
  bool_decide (admission = (subscription_keys p, snapshot_names p, snapshot_total_bytes p)).

Definition commit_prepared (p : PreparedPublication) (now : LogicalInstant) : B (list Shared) :=
  let? existing := gets topics in
  let? entry := found (existing !! topic_key p) NotFound in
  let? counter := gets message_counter in
  do? refuse (negb (incarnation_of entry =? prepared_incarnation p) || negb (counter =? initial_message_counter p)) FailedPrecondition in
  let? admission := gets (fun s => publish_admission s (topic_key p) (prepared_incarnation p) (published p)) in
  let? admission := p_lift admission in
  do? refuse (negb (same_admission p admission)) FailedPrecondition in
  let time := match published p with m :: _ => publish_time (value m) | [] => now end in
  let? functions := gets function_subscriptions in
  let? subs := gets subscriptions in
  let? subs := unwrap (each (fan_out functions (published p) time) (subscription_keys p) subs) in
  do? modify (with_subscriptions subs) in
  do? retain_snapshot_publication (snapshot_names p) (published p) in
  do? modify (with_snapshot_retained_bytes (snapshot_total_bytes p)) in
  do? modify (with_message_counter (next_message_counter p)) in
  p_ret (published p).

Definition publish_shared (topic : TopicName) (messages : list PubsubMessage) (now : LogicalInstant) : B (list Shared) :=
  let? p := prepare_publish topic messages now in commit_prepared p now.

Definition publish_with_message_ids (topic : TopicName) (messages : list (PubsubMessage * text)) (now : LogicalInstant) : B (list Shared) :=
  let? p := prepare_publish_with_message_ids topic messages now in commit_prepared p now.

Definition publish (topic : TopicName) (messages : list PubsubMessage) (now : LogicalInstant) : B (list text) :=
  let? ms := publish_shared topic messages now in
  p_ret (map (fun m => message_id (value m)) ms).

(** ** Dead letters *)

Definition can_commit_dead_letter (s : PubSubState) (f : DeadLetterForward) : bool :=
  dead_letter_authorized s (source_subscription f) (forward_topic f) &&
  match subscriptions s !! subscription_to_full (source_subscription f) with
  | None => false
  | Some sub =>
      match dead_letter_policy (config sub) with
      | Some policy => bool_decide (dead_letter_topic policy = forward_topic f)
      | None => false
      end && existsb (fun m => ptr_eq m (forward_message f)) (pending_forwards sub)
  end.

Definition resume_dead_letter (f : DeadLetterForward) (now : LogicalInstant) : B unit :=
  let key := subscription_to_full (source_subscription f) in
  modify (fun s => match subscriptions s !! key with
                   | Some sub => with_subscriptions (<[key := resume_forward sub (forward_message f) now]> (subscriptions s)) s
                   | None => s
                   end).

(** [s.trim_end_matches(c)] *)
Definition trim_end (c : Z) (s : text) : text := rev (trim_start c (rev s)).

(** The publication time of a forwarded message: no trailing zeros, a numeric offset. *)
Definition source_publish_time (rfc3339 : text) : text :=
  let published := removelast rfc3339 in
  (if contains_byte (ch ".") published then trim_end (ch ".") (trim_end (ch "0") published) else published) ++ chars "+00:00".

Definition source_attributes (f : DeadLetterForward) (attempt : Z) (rfc3339 : text) (attrs : gmap text text) : gmap text text :=
  <[chars "CloudPubSubDeadLetterSourceTopicPublishTime" := source_publish_time rfc3339]>
  (<[chars "CloudPubSubDeadLetterSourceDeliveryCount" := decimal attempt]>
  (<[chars "CloudPubSubDeadLetterSourceSubscriptionProject" := sub_project (source_subscription f)]>
  (<[chars "CloudPubSubDeadLetterSourceSubscription" := subscription (source_subscription f)]> attrs))).

Definition prepare_dead_letter_publication (f : DeadLetterForward) (now : LogicalInstant) : B PreparedPublication :=
  let? allowed := gets (fun s => can_commit_dead_letter s f) in
  if negb allowed then do? resume_dead_letter f now in p_fail FailedPrecondition
  else
    let m := message (value (forward_message f)) in
    let? strict := gets enforce_dead_letter_iam in
    let? m := (if strict then
      let? subs := gets subscriptions in
      let? attempt := found (sub ← subs !! subscription_to_full (source_subscription f);
                             forwarding_attempt sub (forward_message f)) FailedPrecondition in
      match to_rfc3339 (publish_time (value (forward_message f))) with
      | Err _ => p_fail FailedPrecondition
      | Ok rfc3339 =>
          p_ret {| data := data m; attributes := source_attributes f attempt (chars rfc3339) (attributes m);
                   ordering_key := ordering_key m |}
      end
    else p_ret m) in
    prepare_publish (forward_topic f) [m] now.

(** ** Delivery *)

Definition pull_with_dead_letters_admitted (name : SubscriptionName) (max : nat) (now : LogicalInstant)
    (batching : OrderedPullBatching) (admission : list StoredMessage -> bool) : B PullResult :=
  let key := subscription_to_full name in
  let? subs := gets subscriptions in
  do? refuse (negb (contains_key key subs)) NotFound in
  do? sub_mut name (fun sub => sub ← expire_deadlines sub now; Some (Ok tt, sub)) in
  let? authorized := gets (fun s =>
    match subscriptions s !! key with
    | Some sub => match dead_letter_policy (config sub) with
                  | Some policy => dead_letter_authorized s name (dead_letter_topic policy)
                  | None => false
                  end
    | None => false
    end) in
  let? rng := gets ack_rng in
  let? subs := gets subscriptions in
  let? sub := unwrap (subs !! key) in
  let? (outcome, sub) := unwrap (pull_with_admission sub max now authorized batching (next_ack_id rng) admission) in
  do? modify (with_subscriptions (<[key := sub]> subs)) in
  do? modify (with_ack_rng (rng_after (length (received outcome)) rng)) in
  let forwards := match dead_letter_policy (config sub) with
                  | Some policy => map (fun m => {| source_subscription := name; forward_topic := dead_letter_topic policy;
                                                    forward_message := m |}) (dead_lettered outcome)
                  | None => []
                  end in
  p_ret {| pull_received := received outcome; pull_dead_lettered := forwards |}.

Definition pull_with_dead_letters_batching (name : SubscriptionName) (max : nat) (now : LogicalInstant)
    (batching : OrderedPullBatching) : B PullResult :=
  pull_with_dead_letters_admitted name max now batching (fun _ => true).

Definition pull_with_dead_letters (name : SubscriptionName) (max : nat) (now : LogicalInstant) : B PullResult :=
  pull_with_dead_letters_batching name max now Mixed.

Definition complete_dead_letter (source : SubscriptionName) (id : text) : B bool :=
  sub_mut source (fun sub => let '(done_, sub) := complete_forward sub id in Some (Ok done_, sub)).

(** The transfer of one message: it completes at its source once it is published. *)
Definition forward_now (now : LogicalInstant) (f : DeadLetterForward) : B unit :=
  let? prepared := attempt (prepare_dead_letter_publication f now) in
  match prepared with
  | Err _ => p_ret tt
  | Ok p =>
      let? committed := attempt (commit_prepared p now) in
      match committed with
      | Err _ => p_ret tt
      | Ok _ => do? attempt (complete_dead_letter (source_subscription f) (message_id (value (forward_message f)))) in p_ret tt
      end
  end.

Definition state_pull (name : SubscriptionName) (max : nat) (now : LogicalInstant) : B (list ReceivedMessage) :=
  let? outcome := pull_with_dead_letters name max now in
  do? p_each (forward_now now) (pull_dead_lettered outcome) in
  p_ret (pull_received outcome).

Definition pending_dead_letters (s : PubSubState) : list DeadLetterForward :=
  flat_map (fun sub =>
    match dead_letter_policy (config sub) with
    | Some policy => map (fun m => {| source_subscription := name (config sub); forward_topic := dead_letter_topic policy;
                                      forward_message := m |}) (pending_forwards sub)
    | None => []
    end) (values (subscriptions s)).

Definition state_acknowledge (name : SubscriptionName) (ack_ids : list text) : B Z :=
  sub_mut name (fun sub => '(n, sub) ← acknowledge sub ack_ids; Some (Ok n, sub)).

Definition state_retain_outstanding_ack_ids (name : SubscriptionName) (ack_ids : gset text) (now : LogicalInstant) : B (gset text) :=
  sub_mut name (fun sub => '(ids, sub) ← retain_outstanding_ack_ids sub ack_ids now; Some (Ok ids, sub)).

Definition state_modify_ack_deadline (name : SubscriptionName) (ack_ids : list text) (seconds : Z) (now : LogicalInstant) : B unit :=
  sub_mut name (fun sub =>
    sub ← each (fun sub id => modify_ack_deadline sub id seconds now) ack_ids sub; Some (Ok tt, sub)).

Definition state_seek_to_time (name : SubscriptionName) (time now : LogicalInstant) : B unit :=
  sub_mut name (fun sub => Some (seek_to_time sub time now)).

Definition expire_entry (now : LogicalInstant) (subs : gmap text SubscriptionState) (p : text * SubscriptionState)
    : option (gmap text SubscriptionState) :=
  sub ← expire_deadlines p.2 now; Some (<[p.1 := sub]> subs).

Definition expire_all (now : LogicalInstant) : B unit :=
  do? modify (remove_expired_snapshots now) in
  let? subs := gets subscriptions in
  let? subs := unwrap (each (expire_entry now) (btree_map_iter subs) subs) in
  modify (with_subscriptions subs).

(** ** Resets *)

Definition clear_state (s : PubSubState) : PubSubState := {|
  seed := seed s; resource_policies := ∅; policy_incarnation := policy_incarnation s;
  enforce_dead_letter_iam := enforce_dead_letter_iam s; dead_letter_grants_required := dead_letter_grants_required s;
  project_numbers := project_numbers s; issued_page_boundaries := ∅; topics := ∅; subscriptions := ∅; topic_subs := ∅;
  function_subscriptions := ∅; snapshots := ∅; topic_snapshots := ∅; snapshot_message_refs := ∅;
  topic_counter := topic_counter s; message_counter := 0; ack_rng := splitmix_new (ack_seed (seed s));
  snapshot_counter := 0; snapshot_retained_bytes := 0; push_minimum_interval := push_minimum_interval s;
  next_address := next_address s;
|}.

Definition clear : B unit := modify clear_state.

Definition clear_project (project : text) : B unit :=
  do? modify (forget_contexts (chars "projects/" ++ project ++ chars "/")) in
  let? subs := gets (fun s => map (fun sub => name (config sub))
    (filter (fun sub => sub_project (name (config sub)) = project) (values (subscriptions s)))) in
  do? p_each (fun n => do? attempt (delete_subscription n) in p_ret tt) subs in
  let? names := gets (fun s => list_topics s project) in
  do? p_each (fun n => do? attempt (delete_topic n) in p_ret tt) names in
  let? names := gets (fun s => map snapshot_name (filter (fun sn => owner_project sn = project) (values (snapshots s)))) in
  modify (remove_snapshots names).

(** The projects of anything the registry holds. *)
Definition known_projects (s : PubSubState) : gset text :=
  list_to_set (omap (fun p => split_on (ch "/") p.1 !! 1%nat) (btree_map_iter (issued_page_boundaries s))) ∪
  list_to_set (map (fun t => topic_project (topic_name t)) (values (topics s))) ∪
  list_to_set (map (fun sub => sub_project (name (config sub))) (values (subscriptions s))) ∪
  list_to_set (map owner_project (values (snapshots s))).

Definition clear_projects_where (matches : text -> bool) : B unit :=
  let? projects := gets known_projects in
  p_each clear_project (filter (fun p => matches p = true) (btree_iter projects)).
End broker.
