(* ===== verification/PsRegistry.v ===== *)
(** * The registry invariant

    What holds of the Pub/Sub registry between operations, and the facts on names,
    acknowledgement ids and the operations of a subscription that its preservation needs. *)
From S2P Require Import Prelude Time Text Determinism MessageId PsName PsFilter PsMessage PsSubscription PsPull PsLog PsDelivery PsIam PsPagination PsLabel PsState PsSnapshot PsPublish.

(** ** Names *)

Definition topic_ok (n : TopicName) : Prop := n = deleted_topic \/ (project_ok (topic_project n) /\ id_ok (topic n)).

Definition sub_name_ok (n : SubscriptionName) : Prop := project_ok (sub_project n) /\ id_ok (subscription n).

Lemma full_name_inj col p i p' i' : ch "/" ∉ col -> project_ok p -> id_ok i -> project_ok p' -> id_ok i' ->
  full_name p col i = full_name p' col i' -> p = p' /\ i = i'.
Proof.
  intros Hcol (Hp & _ & Hps & _) [Hi His]%id_ok_parts (Hp' & _ & Hps' & _) [Hi' His']%id_ok_parts Heq.
  assert (H : forall q j, q <> [] -> (ch "/" ∉ q) -> j <> [] -> (ch "/" ∉ j) -> split_two (full_name q col j) col = Some (q, j))
    by (intros q j ? ? ? ?; by apply split_two_Some).
  pose proof (H p i Hp Hps Hi His) as H1. pose proof (H p' i' Hp' Hps' Hi' His') as H2. rewrite Heq, H2 in H1. by injection H1.
Qed.

Lemma slash_free col : contains_byte (ch "/") col = false -> ch "/" ∉ col.
Proof. apply contains_byte_iff. Qed.

Lemma sub_full_inj n n' : sub_name_ok n -> sub_name_ok n' -> subscription_to_full n = subscription_to_full n' -> n = n'.
Proof.
  intros [Hp Hi] [Hp' Hi'] H. apply full_name_inj in H as [? ?]; try done; [|by apply slash_free]. destruct n, n'. cbn in *. congruence.
Qed.

Lemma topic_ok_sentinel n : topic_ok n -> is_deleted_sentinel n = true -> n = deleted_topic.
Proof.
  intros [->|[_ Hi]] H; [done|]. unfold is_deleted_sentinel in H. apply bool_decide_eq_true in H. rewrite H in Hi. by apply deleted_not_id in Hi.
Qed.

Lemma topic_full_inj n n' : topic_ok n -> topic_ok n' -> topic_to_full n = topic_to_full n' -> n = n'.
Proof.
  intros Hn Hn'. unfold topic_to_full. destruct (is_deleted_sentinel n) eqn:Hd, (is_deleted_sentinel n') eqn:Hd'.
  - intros _. by rewrite (topic_ok_sentinel n Hn Hd), (topic_ok_sentinel n' Hn' Hd').
  - intros H. discriminate H.
  - intros H. discriminate H.
  - destruct Hn as [->|[Hp Hi]]; [done|]. destruct Hn' as [->|[Hp' Hi']]; [done|].
    intros H. apply full_name_inj in H as [? ?]; try done; [|by apply slash_free]. destruct n, n'. cbn in *. congruence.
Qed.

(** A topic and a subscription never have the same full name. *)
Lemma topic_not_sub t n : topic_ok t -> sub_name_ok n -> topic_to_full t <> subscription_to_full n.
Proof.
  intros Ht (Hp & Hi) H. unfold topic_to_full in H. destruct (is_deleted_sentinel t) eqn:Hd; [discriminate H|].
  destruct Ht as [->|[Hp' Hi']]; [done|]. assert (Hs : split_two (subscription_to_full n) TOPICS = Some (topic_project t, topic t)).
  { apply split_two_Some; [by apply slash_free|]. rewrite <- H. apply id_ok_parts in Hi' as [? ?]. destruct Hp' as (? & _ & ? & _). done. }
  unfold split_two, subscription_to_full, full_name in Hs. rewrite (proj2 (strip_text_Some _ _ _) eq_refl) in Hs. cbn [mbind option_bind] in Hs.
  destruct Hp as (_ & _ & Hps & _). rewrite (proj2 (split_once_Some _ _ (sub_project n) (SUBSCRIPTIONS ++ ch "/" :: subscription n))) in Hs by done.
  cbn [mbind option_bind] in Hs. destruct (strip_text TOPICS _) as [r|] eqn:Hr; [|done]. by apply strip_text_Some in Hr.
Qed.

(** ** Acknowledgement ids *)

Lemma hex_digit_inj a b : 0 <= a < 16 -> 0 <= b < 16 -> hex_digit a = hex_digit b -> a = b.
Proof.
  unfold hex_digit. change (ch "0") with 48. change (ch "a") with 97.
  destruct (Z.ltb_spec a 10), (Z.ltb_spec b 10); lia.
Qed.

(** A 64-bit word is its sixteen digits. *)
Lemma hex16_inj a b : is_u64 a -> is_u64 b -> hex16 a = hex16 b -> a = b.
Proof.
  intros Ha Hb H. assert (Hd : forall i, 0 <= i < 16 -> a / 16 ^ i mod 16 = b / 16 ^ i mod 16).
  { intros i Hi. unfold hex16 in H.
    assert (Hin : i ∈ [15; 14; 13; 12; 11; 10; 9; 8; 7; 6; 5; 4; 3; 2; 1; 0]) by (rewrite !elem_of_cons; lia).
    apply (hex_digit_inj (a / 16 ^ i mod 16) (b / 16 ^ i mod 16)); [apply Z.mod_pos_bound; lia..|].
    revert H Hin. generalize [15; 14; 13; 12; 11; 10; 9; 8; 7; 6; 5; 4; 3; 2; 1; 0]. intros l. induction l as [|x l IH]; cbn.
    - by intros _ ?%not_elem_of_nil.
    - intros [= H1 H2] [->|Hin]%elem_of_cons; [done|by apply IH]. }
  apply Z.bits_inj'. intros n Hn. destruct (Z.ltb_spec n 64) as [Hlt|Hge].
  - specialize (Hd (n / 4) ltac:(split; [apply Z.div_pos; lia|apply Z.div_lt_upper_bound; lia])).
    assert (Hbit : forall z, Z.testbit z n = Z.testbit (z / 16 ^ (n / 4) mod 16) (n mod 4)).
    { intros z. pose proof (Z.mod_pos_bound n 4 ltac:(lia)). change 16 with (2 ^ 4) at 2. rewrite Z.mod_pow2_bits_low by lia.
      change 16 with (2 ^ 4). rewrite <- Z.pow_mul_r by (try lia; apply Z.div_pos; lia).
      rewrite <- Z.shiftr_div_pow2 by (apply Z.mul_nonneg_nonneg; [lia|apply Z.div_pos; lia]). rewrite Z.shiftr_spec by lia. f_equal.
      pose proof (Z.div_mod n 4 ltac:(lia)). lia. }
    by rewrite !Hbit, Hd.
  - assert (Hz : forall z, is_u64 z -> Z.testbit z n = false).
    { intros z [Hz0 Hz]. apply (proj1 (below_pow2_bits 64 z ltac:(lia) Hz0) Hz). lia. }
    by rewrite !Hz.
Qed.

Lemma rng_after_state n : forall s, rng_after n {| sm_state := wrap64 s |} = {| sm_state := wrap64 (s + Z.of_nat n * GAMMA) |}.
Proof.
  induction n as [|n IH]; intros s; cbn [rng_after]; [by rewrite Z.add_0_r|]. unfold next_u64, SplitMix64_rng. rewrite splitmix_next_eq. cbn [snd].
  assert (Hw : wrap64 (wrap64 s + GAMMA) = wrap64 (s + GAMMA)) by (unfold wrap64; by rewrite Z.add_mod_idemp_l by lia).
  rewrite Hw, IH. f_equal. f_equal. lia.
Qed.

Lemma rng_after_add a : forall b g, rng_after b (rng_after a g) = rng_after (a + b) g.
Proof. induction a as [|a IH]; intros b g; cbn; [done|apply IH]. Qed.

Lemma next_ack_id_shift a b g : next_ack_id (rng_after a g) b = next_ack_id g (a + b).
Proof. unfold next_ack_id. by rewrite rng_after_add. Qed.

(** The first 2^64 identifiers of a generator differ. *)
Lemma next_ack_id_inj seed a b : Z.of_nat a < 2 ^ 64 -> Z.of_nat b < 2 ^ 64 ->
  next_ack_id (splitmix_new (wrap64 seed)) a = next_ack_id (splitmix_new (wrap64 seed)) b -> a = b.
Proof.
  intros Ha Hb H%app_inv_head. unfold splitmix_new, next_u64, SplitMix64_rng in H. rewrite !rng_after_state, !splitmix_next_eq in H.
  cbn [fst] in H. rewrite !splitmix_state_after in H. apply hex16_inj in H; [|apply mix_range..].
  apply mix_inj in H; [|apply wrap64_range..]. unfold wrap64 in H.
  rewrite !(Z.add_comm seed) in H. assert (Hc : forall x, x = x + seed - seed) by (intros; lia).
  apply (f_equal (fun z => wrap64 (z - seed))) in H. unfold wrap64 in H. rewrite !Zminus_mod_idemp_l, <- !Hc in H.
  assert (Hm : wrap64 (Z.of_nat a + 1) = wrap64 (Z.of_nat b + 1)).
  { apply (mul_wrap64_inj GAMMA 0xF1DE83E19937733D); [reflexivity|apply wrap64_range..|]. unfold wrap64. by rewrite !Z.mul_mod_idemp_l by lia. }
  unfold wrap64 in Hm. destruct (decide (Z.of_nat a + 1 = 2 ^ 64)) as [Ea|Ea], (decide (Z.of_nat b + 1 = 2 ^ 64)) as [Eb|Eb]; try lia;
    rewrite ?Ea, ?Eb, ?Z.mod_same, ?Z.mod_small in Hm by lia; lia.
Qed.

(** ** What an operation does to a subscription *)

Definition leased_ids (sub : SubscriptionState) (id : text) : Prop := is_Some (outstanding sub !! id).

(** [sub'] is [sub] after an operation that keeps its name and topic and draws no identifiers. *)
Record evolves (sub sub' : SubscriptionState) : Prop := {
  ev_wf : sub_wf sub';
  ev_name : name (config sub') = name (config sub);
  ev_topic : config_topic (config sub') = config_topic (config sub);
  ev_valid : config_validate (config sub') = Ok tt;
  ev_leases : forall id, leased_ids sub' id -> leased_ids sub id;
}.

(** The same, with the whole configuration kept. *)
Lemma evolves_same sub sub' : sub_wf sub' -> config sub' = config sub -> config_validate (config sub) = Ok tt ->
  (forall id, leased_ids sub' id -> leased_ids sub id) -> evolves sub sub'.
Proof. intros Hwf Hc Hv Hl. by split; rewrite ?Hc. Qed.

Lemma evolves_refl sub : sub_wf sub -> config_validate (config sub) = Ok tt -> evolves sub sub.
Proof. intros H Hv. by apply evolves_same. Qed.

Lemma evolves_trans a b c : evolves a b -> evolves b c -> evolves a c.
Proof. intros [] []. split; try congruence; auto. Qed.

Lemma evolves_config c sub : sub_wf sub -> name c = name (config sub) -> config_topic c = config_topic (config sub) ->
  config_validate c = Ok tt -> evolves sub (set_config c sub).
Proof. intros Hs Hn Ht Hv. split; try done. by apply wf_set_config. Qed.

Lemma validate_deadline c seconds : config_validate c = Ok tt -> 10 <= seconds <= 600 ->
  config_validate (with_ack_deadline seconds c) = Ok tt.
Proof.
  intros Hv Hs. unfold config_validate in *. cbn. destruct (_ || _) in Hv; [done|].
  assert (((seconds =? 0) || (MAX_ACK_DEADLINE_SECONDS <? seconds)) = false) as ->; [|done].
  apply orb_false_iff. unfold MAX_ACK_DEADLINE_SECONDS. lia.
Qed.

(** An operation on the log: it keeps the configuration and, as the log stays well formed,
    leases nothing that was not leased. *)
Lemma leased_in_log sub id : sub_wf sub -> leased_ids sub id <-> exists e, e ∈ entries sub /\ lease_id e = Some id.
Proof.
  intros [[_ Ho _ _ _ _] _]. unfold leased_ids. split.
  - intros [i (e & d & He & Hd)%Ho]. exists e. split; [by eapply list_elem_of_lookup_2|]. apply lease_id_Some. by exists d.
  - intros (e & [i He]%list_elem_of_lookup_1 & [d Hd]%lease_id_Some). exists i. apply Ho. by exists e, d.
Qed.

Lemma evolves_log sub sub' : sub_wf sub -> sub_wf sub' -> config sub' = config sub -> config_validate (config sub) = Ok tt ->
  (forall e', e' ∈ entries sub' -> forall id, lease_id e' = Some id -> exists e, e ∈ entries sub /\ lease_id e = Some id) -> evolves sub sub'.
Proof.
  intros Hs Hs' Hc Hv Hl. apply evolves_same; try done. intros id Hid. apply leased_in_log; [done|].
  apply leased_in_log in Hid as (e' & He' & Hid); [|done]. by eapply Hl.
Qed.

Lemma evolves_enqueue sub m now : sub_wf sub -> config_validate (config sub) = Ok tt -> evolves sub (enqueue sub m now).2.
Proof.
  intros Hs Hv. apply evolves_log; [done|by apply wf_enqueue| |done|].
  - unfold enqueue. set (s1 := if _ && _ then _ else _). assert (config s1 = config sub) by (subst s1; by destruct (_ && _)).
    destruct (exceeds_entries s1); [done|]. by destruct (exceeds_bytes s1 _).
  - unfold enqueue. set (s1 := if _ && _ then _ else _).
    assert (Hin : forall e, e ∈ entries s1 -> e ∈ entries sub).
    { subst s1. destruct (_ && _); [|done]. intros e. cbn. intros [_ He]%list_elem_of_filter. done. }
    intros e He id Hid. exists e. split; [|done]. destruct (exceeds_entries s1); [by apply Hin|]. destruct (exceeds_bytes s1 _); [by apply Hin|].
    apply elem_of_app in He as [He|He]; [by apply Hin|]. apply list_elem_of_singleton in He as ->. done.
Qed.

Lemma evolves_expire sub now : sub_wf sub -> config_validate (config sub) = Ok tt ->
  exists sub', expire_deadlines sub now = Some sub' /\ evolves sub sub'.
Proof.
  intros Hs Hv. destruct (expire_spec sub now Hs) as (sub' & Hx & Hwf & Hc & _ & He). exists sub'. split; [done|].
  apply evolves_log; try done. intros e' He' id Hid. rewrite He in He'. apply list_elem_of_fmap in He' as (e & -> & Hin).
  exists e. split; [done|]. destruct (state e) as [|i d| |] eqn:Hst; [|destruct (d <=? now)|..]; try done; unfold lease_id in *; cbn in Hid; by rewrite ?Hst in Hid |- *.
Qed.

Lemma evolves_acknowledge sub ids : sub_wf sub -> config_validate (config sub) = Ok tt ->
  exists n sub', acknowledge sub ids = Some (n, sub') /\ evolves sub sub'.
Proof.
  intros Hs Hv. destruct (acknowledge_wf sub ids Hs) as (n & sub' & Ha & Hwf). exists n, sub'. split; [done|].
  destruct (acknowledge_spec sub ids Hs) as (n' & sub'' & Ha' & _ & Ho & _). rewrite Ha in Ha'. injection Ha' as <- <-.
  assert (Hc : config sub' = config sub).
  { unfold acknowledge in Ha. destruct (acknowledge_loop ids 0 sub) as [[m s1]|] eqn:Hl; [|done]. injection Ha as <- <-. cbn.
    revert Hl. generalize 0. clear. revert sub. induction ids as [|id ids IH]; intros sub z; cbn; [by intros [= <- <-]|].
    unfold acknowledge_one. destruct (outstanding sub !! id); cbn; [|apply IH]. destruct (entries sub !! n); cbn; [|done]. by intros ?%IH. }
  apply evolves_same; try done. intros id [i Hi]. rewrite Ho in Hi. unfold remaining in Hi. apply map_lookup_filter_Some in Hi as [Hi _]. by exists i.
Qed.

Lemma evolves_modify sub id seconds now : sub_wf sub -> config_validate (config sub) = Ok tt ->
  exists sub', modify_ack_deadline sub id seconds now = Some sub' /\ evolves sub sub'.
Proof.
  intros Hs Hv. destruct (modify_wf sub id seconds now Hs) as (sub' & Hm & Hwf). exists sub'. split; [done|].
  unfold modify_ack_deadline in Hm. destruct (outstanding sub !! id) as [i|]; [|injection Hm as <-; by apply evolves_refl].
  destruct (entries sub !! i) as [e|]; [|done]. cbn in Hm. destruct (seconds =? 0).
  - injection Hm as <-. apply evolves_same; try done. intros x [j Hj]. cbn in Hj. apply lookup_delete_Some in Hj as [_ Hj]. by exists j.
  - destruct (state e); injection Hm as <-; by apply evolves_same.
Qed.

Lemma evolves_complete sub id : sub_wf sub -> config_validate (config sub) = Ok tt -> evolves sub (complete_forward sub id).2.
Proof.
  intros Hs Hv. pose proof (complete_forward_wf sub id Hs). unfold complete_forward in *.
  destruct (list_find _ _) as [[i e]|]; [|by apply evolves_refl]. by apply evolves_same.
Qed.

Lemma evolves_resume sub m now : sub_wf sub -> config_validate (config sub) = Ok tt -> evolves sub (resume_forward sub m now).
Proof. intros Hs Hv. apply evolves_same; try done. by apply resume_forward_wf. Qed.

Lemma evolves_seek_time sub time now : sub_wf sub -> config_validate (config sub) = Ok tt -> evolves sub (seek_to_time sub time now).2.
Proof.
  intros Hs Hv. pose proof (seek_to_time_wf sub time now Hs) as Hwf. unfold seek_to_time in *.
  destruct (enable_message_ordering (config sub)); [by apply evolves_refl|]. apply evolves_log; try done.
  cbn. intros e'. change (map ?f ?l) with (f <$> l). rewrite list_elem_of_fmap. intros (e & -> & _) id. by destruct (_ <? _).
Qed.

Lemma evolves_seek_snapshot sub captured retained unacked_ created now : sub_wf sub -> config_validate (config sub) = Ok tt ->
  fits usize (shared_bytes captured) -> evolves sub (seek_to_snapshot sub captured retained unacked_ created now).2.
Proof.
  intros Hs Hv Hf. pose proof (seek_to_snapshot_wf sub captured retained unacked_ created now Hs Hf) as Hwf.
  rewrite seek_to_snapshot_spec in * by done. destruct (snapshot_base sub _) as [s0|] eqn:Hb; [|by apply evolves_refl].
  apply evolves_log; try done.
  - cbn. unfold snapshot_base in Hb. repeat case_match; simplify_eq; done.
  - cbn. intros e'. destruct (snapshot_log_map (entries s0) (missing_messages sub captured retained) retained unacked_ created now) as (n & f & Hfm & ->).
    change (map f ?l) with (f <$> l). rewrite list_elem_of_fmap. intros (e & -> & _) id. destruct (Hfm e) as (_ & Hn & _). by rewrite Hn.
Qed.

(** A pull leases the identifiers it draws, no more than the log has entries. *)
Lemma pull_leases sub max now authorized batching next_ack_id admission :
  sub_wf sub -> config_validate (config sub) = Ok tt -> fresh_ids (length (entries sub)) next_ack_id sub ->
  exists out sub', pull_with_admission sub max now authorized batching next_ack_id admission = Some (out, sub') /\
    sub_wf sub' /\ config sub' = config sub /\ (length (received out) <= length (entries sub))%nat /\
    forall id, leased_ids sub' id -> leased_ids sub id \/ exists n, (n < length (received out))%nat /\ id = next_ack_id n.
Proof.
  intros Hs Hv Hf. destruct (pull_draws_spec sub max now authorized batching next_ack_id admission Hs) as (out & sub' & Hp & Hwf & Hcase).
  { eapply fresh_ids_le; [|exact Hf]. lia. }
  exists out, sub'. split; [done|]. split; [done|]. cbv zeta in Hcase. pose proof (pull_start_wf authorized now sub Hs) as H0.
  assert (Hold : forall id, leased_ids (pull_start authorized now sub) id -> leased_ids sub id) by (destruct authorized; done).
  destruct Hcase as [(-> & -> & _)|(plan & sel & fwd & _ & _ & Hsel & D)].
  { split; [by destruct authorized|]. split; [cbn; lia|]. intros id Hid. left. by apply Hold. }
  split; [rewrite (delivered_config _ _ _ _ _ _ _ D); by destruct authorized|].
  pose proof (chosen_length _ _ _ _ _ (proj1 (select_spec _ _ _ _ _ _ _ _ Hsel))) as Hlen. rewrite pull_start_length in Hlen.
  assert (Hn : forall n, (n < length (received out))%nat <-> (n < length sel)%nat).
  { intros n. rewrite <- !lookup_lt_is_Some. split.
    - intros [r (j & e & Hj & _)%(delivered_received _ _ _ _ _ _ _ D)]. by exists j.
    - intros [j Hj]. destruct (delivered_leased _ _ _ _ _ _ _ D n j Hj) as (e & He & _). eexists. apply D. by exists j, e. }
  split; [destruct (decide (length (received out) <= length sel)%nat); [lia|]; specialize (Hn (length sel)); lia|].
  intros id [i Hi]. pose proof Hwf as [[_ Ho _ _ _ _] _]. apply Ho in Hi as (e & d & He & Hd).
  destruct (decide (i ∈ sel)) as [[n Hin]%list_elem_of_lookup_1|Hsel'].
  - right. exists n. destruct (delivered_leased _ _ _ _ _ _ _ D n i Hin) as (x & _ & Hx). rewrite He in Hx. injection Hx as ->.
    split; [apply Hn; by eapply lookup_lt_Some|]. by injection Hd.
  - left. apply Hold. destruct (decide (i ∈ fwd)) as [Hf'|Hf'].
    + destruct (delivered_forwarded _ _ _ _ _ _ _ D i Hf') as (x & _ & Hx). rewrite He in Hx. injection Hx as ->. done.
    + rewrite (delivered_others _ _ _ _ _ _ _ D i Hsel' Hf') in He. exists i. apply H0. by exists e, d.
Qed.
