(* ===== verification/PsInvariant.v ===== *)
(** * The registry keeps its invariant

    [broker_wf n s]: the registry [s] is well formed, drew at most [draws n] acknowledgement
    ids since its generator was seeded, and the topic instance [retired n], a name with an
    incarnation, is gone and never comes back.  Every operation keeps it and does not panic. *)
From S2P Require Import Prelude Time Text Determinism MessageId PsName PsFilter PsMessage PsSubscription PsPull PsLog PsDelivery PsIam PsPagination PsLabel PsState PsSnapshot PsPublish PsRegistry.

#[global] Arguments subscription_to_full : simpl never.
#[global] Arguments topic_to_full : simpl never.
#[global] Arguments chars : simpl never.

(** ** The invariant *)

Definition MAX_POLICY_INCARNATION : Z := 0xffffff.

Definition attached (s : PubSubState) (t k : text) : Prop := k ∈ default ∅ (topic_subs s !! t).

Definition topic_key_of (sub : SubscriptionState) : text := topic_to_full (config_topic (config sub)).

Record entry_wf (k : text) (sub : SubscriptionState) : Prop := {
  ew_key : k = subscription_to_full (name (config sub));
  ew_name : sub_name_ok (name (config sub));
  ew_topic : topic_ok (config_topic (config sub));
  ew_sub : sub_wf sub;
  ew_valid : config_validate (config sub) = Ok tt;
}.

(** What the invariant follows: the identifiers drawn, and a topic instance that is gone. *)
Record Ghost := { draws : Z; retired : text * Z }.

(** Topics, subscriptions and policies.  A subscription that the exhaustion of the policy
    incarnations refused stays attached to its topic. *)
Record registry_wf (n : Ghost) (s : PubSubState) : Prop := {
  rw_topics : forall k t, topics s !! k = Some t ->
    k = topic_to_full (topic_name t) /\ topic_ok (topic_name t) /\ 0 < incarnation_of t <= topic_counter s;
  rw_subs : forall k sub, subscriptions s !! k = Some sub -> entry_wf k sub;
  rw_attached : forall k sub, subscriptions s !! k = Some sub -> is_deleted_sentinel (config_topic (config sub)) = false ->
    is_Some (topics s !! topic_key_of sub) /\ attached s (topic_key_of sub) k;
  rw_topic_subs : forall t k, attached s t k ->
    match subscriptions s !! k with Some sub => topic_key_of sub = t | None => policy_incarnation s = MAX_POLICY_INCARNATION end;
  rw_functions : forall k, k ∈ function_subscriptions s -> is_Some (subscriptions s !! k);
  rw_policies : forall k, is_Some (resource_policies s !! k) <-> is_Some (topics s !! k) \/ is_Some (subscriptions s !! k);
  rw_policy : forall k p, resource_policies s !! k = Some p ->
    policy_reachable (incarnation p) p /\ 0 < incarnation p <= policy_incarnation s;
  rw_topic_counter : 0 <= topic_counter s <= int_max u64;
  rw_policy_counter : 0 <= policy_incarnation s <= MAX_POLICY_INCARNATION;
  rw_retired : (retired n).2 <= topic_counter s /\ forall t, topics s !! (retired n).1 = Some t -> incarnation_of t <> (retired n).2;
  rw_topic_limit : Z.of_nat (size (topics s)) <= MAX_TOPICS;
  rw_sub_limit : Z.of_nat (size (subscriptions s)) <= MAX_SUBSCRIPTIONS;
}.

(** Every lease is an identifier that was drawn. *)
Definition drawn_ids (s : PubSubState) (drawn : nat) (id : text) : Prop :=
  exists a, (a < drawn)%nat /\ id = next_ack_id (splitmix_new (ack_seed (seed s))) a.

Definition leases_wf (n : Ghost) (s : PubSubState) : Prop :=
  is_u64 (seed s) /\ exists drawn : nat, Z.of_nat drawn <= draws n /\ ack_rng s = rng_after drawn (splitmix_new (ack_seed (seed s))) /\
    forall k sub id, subscriptions s !! k = Some sub -> leased_ids sub id -> drawn_ids s drawn id.

Record snapshots_wf (s : PubSubState) : Prop := {
  sw_names : forall k sn, snapshots s !! k = Some sn ->
    k = snapshot_name sn /\ exists id, parse_snapshot_name k = Ok (owner_project sn, id);
  sw_index : forall t i k, k ∈ default ∅ (topic_snapshots s !! (t, i)) <->
    exists sn, snapshots s !! k = Some sn /\ topic_to_full (snapshot_topic sn) = t /\ topic_incarnation sn = i;
  sw_bytes : 0 <= snapshot_retained_bytes s <= MAX_SNAPSHOT_RETAINED_BYTES;
  sw_limit : Z.of_nat (size (snapshots s)) <= MAX_SNAPSHOTS;
  sw_counter : 0 <= snapshot_counter s;
}.

Record broker_wf (n : Ghost) (s : PubSubState) : Prop := {
  bw_registry : registry_wf n s;
  bw_leases : leases_wf n s;
  bw_snapshots : snapshots_wf s;
  bw_messages : 0 <= message_counter s <= BROKER_SPAN;
}.

(** ** Frames *)

(** What the registry and the leases depend on. *)
Definition registry (s : PubSubState) :=
  (topics s, subscriptions s, topic_subs s, function_subscriptions s, resource_policies s, topic_counter s, policy_incarnation s,
   (seed s, ack_rng s, message_counter s)).

Lemma registry_frame n s s' : registry s' = registry s -> snapshots_wf s' -> broker_wf n s -> broker_wf n s'.
Proof.
  unfold registry. intros [= Ht Hs Hts Hf Hp Htc Hpi Hse Hr Hm] Hsn [[] Hl _ Hmc].
  split; [|unfold leases_wf, drawn_ids in *; by rewrite Hse, Hr, Hs|done|by rewrite Hm].
  split; unfold attached in *; rewrite ?Ht, ?Hs, ?Hts, ?Hf, ?Hp, ?Htc, ?Hpi; done.
Qed.

(** What the snapshots depend on. *)
Definition shelf (s : PubSubState) := (snapshots s, topic_snapshots s, snapshot_retained_bytes s, snapshot_counter s).

Lemma shelf_frame s s' : shelf s' = shelf s -> snapshots_wf s -> snapshots_wf s'.
Proof. unfold shelf. intros [= Hs Ht Hb Hc] []. split; rewrite ?Hs, ?Ht, ?Hb, ?Hc; done. Qed.

(** An operation that touches neither. *)
Lemma both_frame n s s' : registry s' = registry s -> shelf s' = shelf s -> broker_wf n s -> broker_wf n s'.
Proof. intros Hr Hs H. eapply registry_frame; [done| |done]. eapply shelf_frame; [done|apply H]. Qed.

Lemma leases_more n n' s : draws n <= draws n' -> retired n' = retired n -> broker_wf n s -> broker_wf n' s.
Proof. intros Hn Hg [Hr [Hu (d & Hd & H)] Hs Hm]. split; try done; [by destruct Hr; split; rewrite ?Hg|]. split; [done|]. exists d. split; [lia|done]. Qed.

(** ** Snapshots leave *)

Section snapshots.
Context `{Memory}.

Lemma saturating_usize_range z : 0 <= saturating usize z.
Proof. unfold saturating. change (int_min usize) with 0. lia. Qed.

Lemma saturating_usize_sub a b c : 0 <= a <= c -> 0 <= b -> 0 <= saturating usize (a - b) <= c.
Proof. intros Ha Hb. unfold saturating. change (int_min usize) with 0. change (int_max usize) with (2 ^ 64 - 1). lia. Qed.

Lemma release_ref_bytes ms : forall refs bytes, 0 <= bytes <= MAX_SNAPSHOT_RETAINED_BYTES ->
  0 <= (fold_left release_ref ms (refs, bytes)).2 <= MAX_SNAPSHOT_RETAINED_BYTES.
Proof.
  induction ms as [|m ms IH]; intros refs bytes Hb; [done|]. cbn [fold_left]. destruct (release_ref (refs, bytes) m) as [refs' bytes'] eqn:Hr.
  apply IH. unfold release_ref in Hr. destruct (refs !! _) as [r|]; [|by injection Hr as <- <-]. destruct (_ =? 0); injection Hr as <- <-; [|done].
  apply saturating_usize_sub; [done|]. unfold snapshot_shared_message_bytes. apply saturating_usize_range.
Qed.

Lemma remove_snapshot_registry name s : registry (remove_snapshot name s).2 = registry s.
Proof. unfold remove_snapshot. destruct (snapshots s !! name); [|done]. by destruct (fold_left release_ref _ _). Qed.

Lemma remove_snapshot_gone name s : snapshots (remove_snapshot name s).2 = delete name (snapshots s).
Proof.
  unfold remove_snapshot. destruct (snapshots s !! name) eqn:Hn; [by destruct (fold_left release_ref _ _)|].
  cbn. by rewrite delete_id.
Qed.

Lemma unindex_spec key name index t i k : k ∈ default ∅ (unindex_snapshot key name index !! (t, i)) <->
  k ∈ default ∅ (index !! (t, i)) /\ ((t, i) = key -> k <> name).
Proof.
  unfold unindex_snapshot. destruct (decide ((t, i) = key)) as [->|Hne].
  - destruct (index !! key) as [names|] eqn:Hk; [|rewrite Hk; cbn; set_solver]. case_bool_decide as He; rewrite ?lookup_delete_eq, ?lookup_insert_eq; cbn; set_solver.
  - destruct (index !! key) as [names|]; [|set_solver]. case_bool_decide; rewrite ?lookup_delete_ne, ?lookup_insert_ne by done; set_solver.
Qed.

Lemma remove_snapshot_wf name s : snapshots_wf s -> snapshots_wf (remove_snapshot name s).2.
Proof.
  intros Hs. pose proof (remove_snapshot_gone name s) as Hg. pose proof Hs as [Hn Hi Hb Hl Hcnt]. unfold remove_snapshot in *.
  destruct (snapshots s !! name) as [sn|] eqn:Hsn; [|done]. pose proof (release_ref_bytes (captured_messages sn) (snapshot_message_refs s)
    (saturating usize (snapshot_retained_bytes s - snapshot_owned_bytes Cloned sn))) as Hbytes.
  cbn in Hg |- *. destruct (fold_left release_ref _ _) as [refs bytes]. cbn in *. split; cbn.
  - intros k x [_ Hx]%lookup_delete_Some. by apply Hn.
  - intros t i k. rewrite unindex_spec, Hi. setoid_rewrite lookup_delete_Some. split.
    + intros [(x & Hx & Ht & Hinc) Hne]. exists x. split_and!; try done. intros <-. rewrite Hsn in Hx. injection Hx as ->. by apply Hne; [congruence|].
    + intros (x & [Hne Hx] & Ht & Hinc). split; [by exists x|]. by intros _ ->.
  - apply Hbytes, saturating_usize_sub; [done|]. unfold snapshot_owned_bytes. apply saturating_usize_range.
  - rewrite map_size_delete_Some by done. lia.
  - done.
Qed.

Lemma remove_snapshots_wf names : forall s, registry (remove_snapshots names s) = registry s /\
  (snapshots_wf s -> snapshots_wf (remove_snapshots names s)).
Proof.
  unfold remove_snapshots. induction names as [|name names IH]; intros s; [done|]. cbn. destruct (IH (remove_snapshot name s).2) as [Hr Hw].
  split; [by rewrite Hr, remove_snapshot_registry|]. intros Hs. by apply Hw, remove_snapshot_wf.
Qed.

Lemma remove_snapshots_broker n names s : broker_wf n s -> broker_wf n (remove_snapshots names s).
Proof. intros Hs. destruct (remove_snapshots_wf names s) as [Hr Hw]. eapply registry_frame; [done| |done]. apply Hw, Hs. Qed.

Lemma remove_expired_wf n now s : broker_wf n s -> broker_wf n (remove_expired_snapshots now s).
Proof. apply remove_snapshots_broker. Qed.

Lemma remove_expired_registry now s : registry (remove_expired_snapshots now s) = registry s.
Proof. apply remove_snapshots_wf. Qed.
End snapshots.

(** ** Subscriptions evolve *)

(** What a subscription keeps, drawn identifiers apart. *)
Record keeps (sub sub' : SubscriptionState) : Prop := {
  kp_wf : sub_wf sub';
  kp_name : name (config sub') = name (config sub);
  kp_topic : config_topic (config sub') = config_topic (config sub);
  kp_valid : config_validate (config sub') = Ok tt;
}.

Lemma evolves_keeps sub sub' : evolves sub sub' -> keeps sub sub'.
Proof. by intros []. Qed.

Lemma keeps_entry k sub sub' : entry_wf k sub -> keeps sub sub' -> entry_wf k sub'.
Proof. intros [] []. split; try congruence. Qed.

Lemma same_keys_size {V} (m m' : gmap text V) : (forall k, is_Some (m' !! k) <-> is_Some (m !! k)) -> size m' = size m.
Proof. intros Hm. rewrite <- !size_dom. f_equal. apply set_eq. intros k. by rewrite !elem_of_dom. Qed.

Section related.
Context (R : SubscriptionState -> SubscriptionState -> Prop) (m m' : gmap text SubscriptionState).
Hypothesis Hm : forall k, option_Forall2 R (m !! k) (m' !! k).

Lemma related_dom k : is_Some (m' !! k) <-> is_Some (m !! k).
Proof using Hm. destruct (Hm k); split; intros [? ?]; done. Qed.

Lemma related_back k sub' : m' !! k = Some sub' -> exists sub, m !! k = Some sub /\ R sub sub'.
Proof using Hm. intros Hk. pose proof (Hm k) as Hr. rewrite Hk in Hr. inversion Hr; subst. by eexists. Qed.
End related.

Lemma keep_registry n s subs : (forall k, option_Forall2 keeps (subscriptions s !! k) (subs !! k)) -> registry_wf n s ->
  registry_wf n (with_subscriptions subs s).
Proof.
  intros Hm []. pose proof (related_dom _ _ _ Hm) as Hdom. pose proof (related_back _ _ _ Hm) as Hback. split; cbn; try done.
  - intros k sub' (sub & Hk & He)%Hback. eapply keeps_entry; [|done]. by apply rw_subs0.
  - intros k sub' (sub & Hk & He)%Hback Hd'. unfold topic_key_of in *. rewrite (kp_topic _ _ He) in *. by apply rw_attached0.
  - intros t k Hk. specialize (rw_topic_subs0 t k Hk). specialize (Hm k). destruct Hm as [sub sub' He|]; [|done].
    unfold topic_key_of in *. by rewrite (kp_topic _ _ He).
  - intros k Hk. apply Hdom. by apply rw_functions0.
  - intros k. rewrite Hdom. apply rw_policies0.
  - by rewrite (same_keys_size _ _ Hdom).
Qed.

Definition evolves_all (m m' : gmap text SubscriptionState) : Prop := forall k, option_Forall2 evolves (m !! k) (m' !! k).

Lemma entry_evolves k sub sub' : entry_wf k sub -> evolves sub sub' -> entry_wf k sub'.
Proof. intros Hk He. eapply keeps_entry; [done|]. by apply evolves_keeps. Qed.

Lemma evolve_subscriptions n s subs : evolves_all (subscriptions s) subs -> broker_wf n s -> broker_wf n (with_subscriptions subs s).
Proof.
  intros Hm [Hr [Hu (d & Hd & Hrng & Hl)] [] Hmc]. split; try done.
  - apply keep_registry; [|done]. intros k. destruct (Hm k); constructor. by apply evolves_keeps.
  - split; [done|]. exists d. split; [done|]. split; [done|]. intros k sub' id (sub & Hk & He)%(related_back _ _ _ Hm) Hid.
    eapply (Hl k sub); [done|]. by apply He.
Qed.

Lemma evolves_all_refl m : (forall k sub, m !! k = Some sub -> entry_wf k sub) -> evolves_all m m.
Proof. intros H k. destruct (m !! k) as [sub|] eqn:Hk; constructor. apply H in Hk as []. by apply evolves_refl. Qed.

Lemma evolves_all_insert m m' k sub sub' : evolves_all m m' -> m' !! k = Some sub -> evolves sub sub' -> evolves_all m (<[k := sub']> m').
Proof.
  intros Hm Hk He j. destruct (decide (k = j)) as [<-|Hne]; [|by rewrite lookup_insert_ne by done].
  rewrite lookup_insert_eq. specialize (Hm k). rewrite Hk in Hm. inversion Hm; subst. constructor. by eapply evolves_trans.
Qed.

Lemma evolve_subscription n s k sub sub' : broker_wf n s -> subscriptions s !! k = Some sub -> evolves sub sub' ->
  broker_wf n (with_subscriptions (<[k := sub']> (subscriptions s)) s).
Proof.
  intros Hs Hk He. apply evolve_subscriptions; [|done]. eapply evolves_all_insert; [|done..]. apply evolves_all_refl, Hs.
Qed.

Lemma subscription_of n s k sub : broker_wf n s -> subscriptions s !! k = Some sub -> sub_wf sub /\ config_validate (config sub) = Ok tt.
Proof. intros Hs Hk. apply (rw_subs n s (bw_registry n s Hs)) in Hk as []. done. Qed.

(** A method on one subscription. *)
Lemma on_subscription_wf {A} n key (method : SubscriptionState -> option (result A PubSubError * SubscriptionState)) s :
  (forall sub, subscriptions s !! key = Some sub -> sub_wf sub -> config_validate (config sub) = Ok tt ->
     exists r sub', method sub = Some (r, sub') /\ evolves sub sub') ->
  broker_wf n s -> wp (on_subscription key method) (fun _ s' => broker_wf n s') s.
Proof.
  intros Hm Hs. unfold wp, on_subscription. destruct (subscriptions s !! key) as [sub|] eqn:Hk; [|done].
  destruct (subscription_of n s key sub Hs Hk) as [Hw Hv]. destruct (Hm sub eq_refl Hw Hv) as (r & sub' & -> & He). cbn.
  by eapply evolve_subscription.
Qed.

Lemma sub_mut_wf {A} n name (method : SubscriptionState -> option (result A PubSubError * SubscriptionState)) s :
  (forall sub, sub_wf sub -> config_validate (config sub) = Ok tt -> exists r sub', method sub = Some (r, sub') /\ evolves sub sub') ->
  broker_wf n s -> wp (sub_mut name method) (fun _ s' => broker_wf n s') s.
Proof. intros Hm. apply on_subscription_wf. intros sub _. apply Hm. Qed.

(** A loop over the subscriptions. *)
Lemma each_evolves {A} (f : gmap text SubscriptionState -> A -> option (gmap text SubscriptionState)) m :
  (forall k sub, m !! k = Some sub -> entry_wf k sub) ->
  (forall x m', evolves_all m m' -> exists m'', f m' x = Some m'' /\ evolves_all m m'') ->
  forall l, exists m', each f l m = Some m' /\ evolves_all m m'.
Proof. intros Hm Hf l. apply (each_total (evolves_all m)); [intros m' x; apply Hf|by apply evolves_all_refl]. Qed.

Lemma evolves_all_entry m m' k sub : (forall k sub, m !! k = Some sub -> entry_wf k sub) -> evolves_all m m' -> m' !! k = Some sub -> entry_wf k sub.
Proof. intros Hm He Hk. specialize (He k). rewrite Hk in He. inversion He; subst. by eapply entry_evolves; [apply Hm|]. Qed.

(** ** Topics, subscriptions and policies *)

Lemma forget_contexts_wf n prefix s : broker_wf n s -> broker_wf n (forget_contexts prefix s).
Proof. by apply both_frame. Qed.

Lemma wp_create_policy resource (Q : result unit PubSubError -> PubSubState -> Prop) s :
  0 <= policy_incarnation s <= MAX_POLICY_INCARNATION ->
  (policy_incarnation s = MAX_POLICY_INCARNATION -> Q (Err ResourceExhausted) s) ->
  (policy_incarnation s < MAX_POLICY_INCARNATION ->
    Q (Ok tt) (with_resource_policies (<[resource := policy_new (policy_incarnation s + 1)]> (resource_policies s))
                 (with_policy_incarnation (policy_incarnation s + 1) s))) ->
  wp (create_resource_policy resource) Q s.
Proof.
  intros Hr Hfull Hok. unfold create_resource_policy. wp_steps.
  - destruct (checked u32 _) as [n|] eqn:Hc; [|done]. apply checked_Some in Hc as [-> _]. cbn in H.
    destruct (Z.leb_spec (policy_incarnation s + 1) 0xffffff); [|done]. injection H as <-. apply Hok. unfold MAX_POLICY_INCARNATION. lia.
  - apply Hfull. unfold MAX_POLICY_INCARNATION in *. rewrite (proj2 (checked_Some u32 _ _)) in H by (split; [reflexivity|int_lia]). cbn in H.
    destruct (Z.leb_spec (policy_incarnation s + 1) 0xffffff); [done|lia].
Qed.

Lemma contains_key_true `{Countable K} {V} (k : K) (m : gmap K V) : contains_key k m = true <-> is_Some (m !! k).
Proof. unfold contains_key. by rewrite bool_decide_eq_true. Qed.

Lemma contains_key_false `{Countable K} {V} (k : K) (m : gmap K V) : contains_key k m = false <-> m !! k = None.
Proof. unfold contains_key. by rewrite bool_decide_eq_false, eq_None_not_Some. Qed.

(** A new policy, for a resource without one. *)
Lemma policy_inserted (s : Z) (pols : gmap text PolicyState) n resource : (forall k p, pols !! k = Some p -> policy_reachable (incarnation p) p /\ 0 < incarnation p <= n) ->
  0 <= n -> n + 1 <= s -> forall k p, <[resource := policy_new (n + 1)]> pols !! k = Some p ->
  policy_reachable (incarnation p) p /\ 0 < incarnation p <= s.
Proof.
  intros Hp Hn Hs k p [[<- <-]|[_ Hk]]%lookup_insert_Some; [split; [apply policy_start|cbn; lia]|]. destruct (Hp k p Hk). split; [done|lia].
Qed.

(** A policy counter that moved on, and a topic counter. *)
Lemma counters_wf n tc s : 0 <= topic_counter s <= tc -> tc <= int_max u64 -> broker_wf n s -> broker_wf n (with_topic_counter tc s).
Proof.
  intros Htc Hm [[] Hl [] Hmc]. split; try done. split; cbn; try done; [|int_lia|destruct rw_retired0; split; [lia|done]].
  intros k t Hk. destruct (rw_topics0 k t Hk) as (? & ? & ?). split_and!; done || lia.
Qed.

(** The assignments of a created topic. *)
Lemma topic_created n name labels retention s :
  let key := topic_to_full name in
  topic_ok name -> 0 < topic_counter s -> (retired n).2 < topic_counter s -> topics s !! key = None -> Z.of_nat (size (topics s)) < MAX_TOPICS ->
  policy_incarnation s < MAX_POLICY_INCARNATION -> broker_wf n s ->
  broker_wf n (with_topics (<[key := {| topic_name := name; topic_entry_labels := labels; incarnation_of := topic_counter s;
                                       topic_message_retention := retention |}]> (topics s))
    (with_topic_subs (<[key := default ∅ (topic_subs s !! key)]> (topic_subs s))
      (with_resource_policies (<[key := policy_new (policy_incarnation s + 1)]> (resource_policies s))
        (with_policy_incarnation (policy_incarnation s + 1) s)))).
Proof.
  intros key Hname Hpos Hret Hnew Hsize Hroom [[] Hl [] Hmc]. split; try done. split; cbn; try done; try lia.
  - intros k t [[<- <-]|[_ Hk]]%lookup_insert_Some; [cbn; split_and!; done || lia|by apply rw_topics0].
  - intros k sub Hk Hd. destruct (rw_attached0 k sub Hk Hd) as [Ht Ha]. split.
    + rewrite lookup_insert_is_Some. destruct (decide (key = topic_key_of sub)); [by left|by right].
    + unfold attached in *. cbn. destruct (decide (key = topic_key_of sub)) as [->|]; [by rewrite lookup_insert_eq|by rewrite lookup_insert_ne].
  - intros t k Ha. assert (Hold : attached s t k).
    { unfold attached in *. cbn in Ha. destruct (decide (key = t)) as [<-|]; [by rewrite lookup_insert_eq in Ha|by rewrite lookup_insert_ne in Ha by done]. }
    specialize (rw_topic_subs0 t k Hold). destruct (subscriptions s !! k); [done|lia].
  - intros k. rewrite !lookup_insert_is_Some, rw_policies0. destruct (decide (key = k)) as [<-|]; naive_solver.
  - apply policy_inserted; [done|lia|lia].
  - split; [apply rw_retired0|]. intros t [[_ <-]|[_ Hk]]%lookup_insert_Some; [cbn; lia|by apply (proj2 rw_retired0)].
  - rewrite map_size_insert_None by done. lia.
Qed.

Lemma create_topic_wf n name labels retention s : topic_ok name -> broker_wf n s ->
  wp (create_topic_with_retention name labels retention) (fun _ s' => broker_wf n s') s.
Proof.
  intros Hname Hs. unfold create_topic_with_retention. wp_steps. apply contains_key_false in H0. apply Z.leb_gt in H1.
  apply checked_Some in H2 as [-> Hf]. pose proof (rw_topic_counter n s (bw_registry n s Hs)) as Hrc.
  set (s1 := with_topic_counter (topic_counter s + 1) s).
  assert (Hc : broker_wf n s1) by (apply counters_wf; [lia|apply Hf|done]).
  apply wp_bind, wp_create_policy; [apply Hs|done|]. intros Hroom. wp_steps. unfold wp, modify.
  pose proof (rw_retired n s (bw_registry n s Hs)) as [Hret _].
  refine (topic_created n name labels retention s1 _ _ _ _ _ _ _); try done; cbn; lia.
Qed.

Lemma update_topic_labels_wf n name labels strict s : broker_wf n s ->
  wp (update_topic_labels name labels strict) (fun _ s' => broker_wf n s') s.
Proof.
  intros Hs. unfold update_topic_labels. apply wp_bind. eapply wp_mono; [|destruct strict; [instantiate (1 := fun _ s' => s' = s)|]; done].
  intros [_|e] ? ->; [|done]. wp_steps. unfold wp, modify. destruct Hs as [[] Hl [] Hmc]. split; try done. split; cbn; try done.
  - intros k t [[<- <-]|[_ Hk]]%lookup_insert_Some; [exact (rw_topics0 _ _ H)|by apply rw_topics0].
  - intros k sub Hk Hd. destruct (rw_attached0 k sub Hk Hd) as [Ht Ha]. split; [|done]. rewrite lookup_insert_is_Some. destruct (decide (topic_to_full name = topic_key_of sub)); [by left|by right].
  - intros k. rewrite rw_policies0, lookup_insert_is_Some. destruct (decide (topic_to_full name = k)) as [<-|]; [|naive_solver].
    split; [naive_solver|]. intros _. left. by eexists.
  - split; [apply rw_retired0|]. intros t [[Hk <-]|[_ Hk]]%lookup_insert_Some; [rewrite Hk in H; exact (proj2 rw_retired0 _ H)|by apply (proj2 rw_retired0)].
  - by rewrite map_size_insert_Some by (by eexists).
Qed.

(** Detaching the subscriptions of a deleted topic. *)
Definition detached (keys : list text) (k : text) (sub : SubscriptionState) : SubscriptionState :=
  if decide (k ∈ keys) then set_config (with_topic deleted_topic (config sub)) sub else sub.

Lemma detach_all keys : forall m, each detach keys m = Some (map_imap (fun k sub => Some (detached keys k sub)) m).
Proof.
  induction keys as [|key keys IH]; intros m; cbn [each].
  - f_equal. apply map_eq. intros k. rewrite map_lookup_imap. destruct (m !! k) as [sub|]; [|done]. cbn. unfold detached. by rewrite decide_False by apply not_elem_of_nil.
  - assert (Hd : detach m key = Some (map_imap (fun k sub => Some (detached [key] k sub)) m)).
    { unfold detach. destruct (m !! key) as [sub|] eqn:Hk.
      - unfold mark_topic_deleted. change (topic_parse DELETED_TOPIC) with (@Ok TopicName PubSubError deleted_topic). cbn. f_equal.
        apply map_eq. intros k. rewrite map_lookup_imap. destruct (decide (key = k)) as [<-|Hne].
        + rewrite lookup_insert_eq, Hk. cbn. unfold detached. by rewrite decide_True by by left.
        + rewrite lookup_insert_ne by done. destruct (m !! k); [|done]. cbn. unfold detached. rewrite decide_False; [done|]. by rewrite list_elem_of_singleton.
      - f_equal. apply map_eq. intros k. rewrite map_lookup_imap. destruct (m !! k) as [sub|] eqn:Hm; [|done]. cbn. unfold detached.
        rewrite decide_False; [done|]. rewrite list_elem_of_singleton. congruence. }
    rewrite Hd. cbn. rewrite IH. f_equal. apply map_eq. intros k. rewrite !map_lookup_imap. destruct (m !! k) as [sub|]; [|done]. cbn. f_equal.
    unfold detached. destruct (decide (k ∈ keys)) as [Hin|Hin].
    + rewrite (decide_True _ _ (P := k ∈ key :: keys)) by by right. by destruct (decide (k ∈ [key])).
    + destruct (decide (k ∈ [key])) as [H1|H1]; rewrite list_elem_of_singleton in H1.
      * rewrite decide_True; [done|]. subst. by left.
      * rewrite decide_False; [done|]. rewrite elem_of_cons. naive_solver.
Qed.

Lemma detached_entry keys k sub : entry_wf k sub -> entry_wf k (detached keys k sub).
Proof. unfold detached. intros []. destruct (decide _); [|done]. split; try done; [by left|by apply wf_set_config]. Qed.

Lemma detached_leases keys k sub id : leased_ids (detached keys k sub) id <-> leased_ids sub id.
Proof. unfold detached. by destruct (decide _). Qed.

(** The state a deleted topic leaves. *)
Lemma topic_deleted n s key : is_Some (topics s !! key) -> broker_wf n s ->
  broker_wf n (with_subscriptions (map_imap (fun k sub => Some (detached (btree_iter (default ∅ (topic_subs s !! key))) k sub)) (subscriptions s))
    (with_topic_subs (delete key (topic_subs s)) (forget_contexts (key ++ chars "/")
      (with_resource_policies (delete key (resource_policies s)) (with_topics (delete key (topics s)) s))))).
Proof.
  intros [t0 Ht0] [[] [Hu (d & Hd & Hrng & Hl)] [] Hmc]. set (keys := btree_iter _).
  assert (Hkeys : forall k, k ∈ keys <-> attached s key k) by (intros k; subst keys; apply elem_of_btree_iter).
  assert (Hsubs : forall k sub', map_imap (fun k sub => Some (detached keys k sub)) (subscriptions s) !! k = Some sub' <->
    exists sub, subscriptions s !! k = Some sub /\ sub' = detached keys k sub).
  { intros k sub'. rewrite map_lookup_imap. destruct (subscriptions s !! k) as [sub|]; cbn; naive_solver. }
  assert (Hsome : forall k, is_Some (map_imap (fun k sub => Some (detached keys k sub)) (subscriptions s) !! k) <-> is_Some (subscriptions s !! k)).
  { intros k. rewrite map_lookup_imap. destruct (subscriptions s !! k); cbn; split; intros [? ?]; try done; by eexists. }
  destruct (rw_topics0 key t0 Ht0) as (Hk0 & Hok0 & _). split; [split| | |]; cbn; try done.
  - intros k t [_ Hk]%lookup_delete_Some. by apply rw_topics0.
  - intros k sub' (sub & Hk & ->)%Hsubs. by apply detached_entry, rw_subs0.
  - intros k sub' (sub & Hk & ->)%Hsubs Hds. unfold topic_key_of, attached in *. unfold detached in *. cbn.
    destruct (decide (k ∈ keys)) as [Hin|Hin]; [done|]. destruct (rw_attached0 k sub Hk Hds) as [Ht Ha].
    assert (Hne : key <> topic_to_full (config_topic (config sub))) by (intros ->; by apply Hin, Hkeys).
    by rewrite !lookup_delete_ne by done.
  - intros t k Ha. unfold attached in Ha. cbn in Ha. rewrite lookup_delete in Ha. destruct (decide (key = t)) as [->|Hne]; [done|].
    pose proof (rw_topic_subs0 t k Ha) as Hat. rewrite map_lookup_imap. destruct (subscriptions s !! k) as [sub|] eqn:Hk; [|done]. cbn. unfold detached.
    rewrite decide_False; [done|]. intros Hin%Hkeys%rw_topic_subs0. rewrite Hk in Hin. congruence.
  - intros k Hk. rewrite Hsome. by apply rw_functions0.
  - intros k. rewrite Hsome. rewrite !lookup_delete_is_Some, rw_policies0. split; [intros [? [?|?]]; [by left|by right]|].
    intros [[? ?]|Hsub]; [naive_solver|]. split; [|by right]. intros ->. destruct Hsub as [sub Hsub].
    destruct (rw_subs0 k sub Hsub) as [Hks Hns _ _ _]. rewrite Hk0 in Hks. by apply (topic_not_sub (topic_name t0) (name (config sub))).
  - intros k p [_ Hk]%lookup_delete_Some. by apply rw_policy0 with k.
  - split; [apply rw_retired0|]. intros t [_ Hk]%lookup_delete_Some. by apply (proj2 rw_retired0).
  - rewrite map_size_delete_Some by done. lia.
  - rewrite (same_keys_size _ _ Hsome). done.
  - split; [done|]. exists d. split; [done|]. split; [done|]. intros k sub' id (sub & Hk & ->)%Hsubs Hid%detached_leases. by apply (Hl k sub).
Qed.

Lemma delete_topic_wf n name s : broker_wf n s -> wp (delete_topic name) (fun _ s' => broker_wf n s') s.
Proof.
  intros Hs. unfold delete_topic. wp_steps. apply negb_false_iff, contains_key_true in H.
  eapply wp_expect; [apply detach_all|]. exact (topic_deleted n s (topic_to_full name) H Hs).
Qed.

(** A key that the registry attaches to a topic before the subscription exists. *)
Lemma subscription_created n s c :
  let key := subscription_to_full (name c) in
  let t := topic_to_full (config_topic c) in
  sub_name_ok (name c) -> topic_ok (config_topic c) -> config_validate c = Ok tt -> subscriptions s !! key = None ->
  (is_deleted_sentinel (config_topic c) = false -> is_Some (topics s !! t)) ->
  Z.of_nat (size (subscriptions s)) < MAX_SUBSCRIPTIONS -> policy_incarnation s < MAX_POLICY_INCARNATION -> broker_wf n s ->
  broker_wf n (with_subscriptions (<[key := set_push_minimum_redelivery_interval (push_minimum_interval s) (sub_new c)]> (subscriptions s))
    (with_resource_policies (<[key := policy_new (policy_incarnation s + 1)]> (resource_policies s))
      (with_policy_incarnation (policy_incarnation s + 1)
        (with_topic_subs (<[t := {[key]} ∪ default ∅ (topic_subs s !! t)]> (topic_subs s)) s)))).
Proof.
  intros key t Hname Htopic Hv Hnew Ht Hsize Hroom [[] [Hu (d & Hd & Hrng & Hl)] [] Hmc].
  assert (Hatt : forall t' k, k ∈ default ∅ (<[t := {[key]} ∪ default ∅ (topic_subs s !! t)]> (topic_subs s) !! t') <->
                 (t' = t /\ k = key) \/ attached s t' k).
  { intros t' k. unfold attached. destruct (decide (t = t')) as [<-|Hne]; [rewrite lookup_insert_eq|rewrite lookup_insert_ne by done]; cbn; set_solver. }
  split; [split| | |]; cbn; try done; try lia.
  - intros k sub [[<- <-]|[_ Hk]]%lookup_insert_Some; [|by apply rw_subs0]. split; try done. cbn. pose proof (sub_new_wf c) as [[] ?]. by split; [split|].
  - intros k sub [[<- <-]|[Hne Hk]]%lookup_insert_Some Hds.
    + cbn in Hds |- *. split; [by apply Ht|]. apply Hatt. by left.
    + destruct (rw_attached0 k sub Hk Hds) as [Ht' Ha]. split; [done|]. apply Hatt. by right.
  - intros t' k [[-> ->]|Ha]%Hatt; [by rewrite lookup_insert_eq|]. specialize (rw_topic_subs0 t' k Ha).
    destruct (decide (key = k)) as [<-|Hne]; [|rewrite lookup_insert_ne by done; by destruct (subscriptions s !! k); [|lia]].
    rewrite Hnew in rw_topic_subs0. lia.
  - intros k Hk. rewrite lookup_insert_is_Some. destruct (decide (key = k)); [by left|right; split; [done|by apply rw_functions0]].
  - intros k. rewrite !lookup_insert_is_Some, rw_policies0. destruct (decide (key = k)) as [<-|]; naive_solver.
  - apply policy_inserted; [done|lia|lia].
  - rewrite map_size_insert_None by done. lia.
  - split; [done|]. exists d. split; [done|]. split; [done|]. intros k sub id Hk Hid. cbn in Hk. apply lookup_insert_Some in Hk as [[<- <-]|[_ Hk]]; [|by apply (Hl k sub)].
    destruct Hid as [i Hi]. cbn in Hi. by rewrite lookup_empty in Hi.
Qed.

(** The policy incarnations ran out after the subscription was attached. *)
Lemma subscription_refused n s c :
  let key := subscription_to_full (name c) in
  let t := topic_to_full (config_topic c) in
  subscriptions s !! key = None -> policy_incarnation s = MAX_POLICY_INCARNATION -> broker_wf n s ->
  broker_wf n (with_topic_subs (<[t := {[key]} ∪ default ∅ (topic_subs s !! t)]> (topic_subs s)) s).
Proof.
  intros key t Hnew Hfull [[] Hl [] Hmc].
  assert (Hatt : forall t' k, k ∈ default ∅ (<[t := {[key]} ∪ default ∅ (topic_subs s !! t)]> (topic_subs s) !! t') <->
                 (t' = t /\ k = key) \/ attached s t' k).
  { intros t' k. unfold attached. destruct (decide (t = t')) as [<-|Hne]; [rewrite lookup_insert_eq|rewrite lookup_insert_ne by done]; cbn; set_solver. }
  split; try done. split; cbn; try done.
  - intros k sub Hk Hds. destruct (rw_attached0 k sub Hk Hds) as [Ht Ha]. split; [done|]. apply Hatt. by right.
  - intros t' k [[-> ->]|Ha]%Hatt; [by rewrite Hnew|by apply rw_topic_subs0].
Qed.

Lemma create_subscription_wf n c s : sub_name_ok (name c) -> topic_ok (config_topic c) -> broker_wf n s ->
  wp (create_subscription c) (fun _ s' => broker_wf n s') s.
Proof.
  intros Hname Htopic Hs. unfold create_subscription. wp_steps. destruct a. apply contains_key_false in H0.
  apply wp_bind. assert (Hdl : wp (match dead_letter_policy c with
     | Some dl => refuse (negb (contains_key (topic_to_full (dead_letter_topic dl)) (topics s))) (E := PubSubError) NotFound
     | None => p_ret tt end) (fun _ s' => s' = s) s) by (destruct (dead_letter_policy c); [apply wp_refuse|]; done).
  eapply wp_mono; [|exact Hdl]. intros [[]|e] ? ->; [|done]. wp_steps. apply Z.leb_gt in H2.
  apply wp_bind, wp_create_policy; [apply Hs|intros Hfull; by apply subscription_refused|]. intros Hroom. cbn in Hroom.
  refine (subscription_created n s c Hname Htopic H H0 _ H2 Hroom Hs). intros Hd. rewrite Hd in H1. cbn in H1. by apply negb_false_iff, contains_key_true in H1.
Qed.

Lemma mark_function_wf n name s : broker_wf n s -> wp (mark_function_subscription name) (fun _ s' => broker_wf n s') s.
Proof.
  intros Hs. unfold mark_function_subscription. wp_steps. apply negb_false_iff, contains_key_true in H. destruct Hs as [[] Hl [] Hmc].
  split; try done. split; cbn; try done. intros k [->%elem_of_singleton|Hk]%elem_of_union; [done|by apply rw_functions0].
Qed.

Lemma delete_subscription_wf n name_ s : broker_wf n s -> wp (delete_subscription name_) (fun _ s' => broker_wf n s') s.
Proof.
  intros Hs. unfold delete_subscription. wp_steps. rename a into sub. rename H into Hsub.
  set (key := subscription_to_full name_) in *. set (t := topic_to_full (config_topic (config sub))).
  destruct Hs as [[] [Hu (d & Hd & Hrng & Hl)] [] Hmc].
  assert (Hatt : forall tsubs, tsubs = match topic_subs s !! t with Some keys => <[t := keys ∖ {[key]}]> (topic_subs s) | None => topic_subs s end ->
    forall t' k, k ∈ default ∅ (tsubs !! t') <-> attached s t' k /\ (t' = t -> k <> key)).
  { intros tsubs -> t' k. unfold attached. destruct (topic_subs s !! t) as [keys|] eqn:Hk.
    - destruct (decide (t = t')) as [<-|Hne]; [rewrite lookup_insert_eq, Hk|rewrite lookup_insert_ne by done]; cbn; set_solver.
    - destruct (decide (t = t')) as [<-|Hne]; [rewrite Hk|]; set_solver. }
  assert (Hgoal : forall tsubs, tsubs = match topic_subs s !! t with Some keys => <[t := keys ∖ {[key]}]> (topic_subs s) | None => topic_subs s end ->
    broker_wf n (with_topic_subs tsubs (with_function_subscriptions (function_subscriptions s ∖ {[key]})
      (with_resource_policies (delete key (resource_policies s)) (with_subscriptions (delete key (subscriptions s)) s))))).
  { intros tsubs Hts. specialize (Hatt tsubs Hts). clear Hts. split; [split| | |]; cbn; try done.
    - intros k x [_ Hk]%lookup_delete_Some. by apply rw_subs0.
    - intros k x [Hne Hk]%lookup_delete_Some Hds. destruct (rw_attached0 k x Hk Hds) as [Ht Ha]. split; [done|]. apply Hatt. split; [done|]. by intros _ ->.
    - intros t' k [Ha Hne]%Hatt. specialize (rw_topic_subs0 t' k Ha). destruct (decide (key = k)) as [<-|Hk]; [|by rewrite lookup_delete_ne].
      rewrite Hsub in rw_topic_subs0. by destruct Hne.
    - intros k [Hk Hne%not_elem_of_singleton]%elem_of_difference. rewrite lookup_delete_ne by done. by apply rw_functions0.
    - intros k. rewrite !lookup_delete_is_Some, rw_policies0. split; [intros [? [?|?]]; [by left|by right]|].
      intros [[t0 Ht]|[? ?]]; [|naive_solver]. split; [|left; by eexists]. intros ->. destruct (rw_topics0 _ _ Ht) as (Hk & Hok & _).
      destruct (rw_subs0 _ _ Hsub) as [Hks Hns _ _ _]. rewrite Hk in Hks. by apply (topic_not_sub (topic_name t0) (name (config sub))).
    - intros k p [_ Hk]%lookup_delete_Some. by apply rw_policy0 with k.
    - rewrite map_size_delete_Some by done. lia.
    - split; [done|]. exists d. split; [done|]. split; [done|]. intros k x id Hk. cbn in Hk. apply lookup_delete_Some in Hk as [_ Hk]. by apply (Hl k x). }
  unfold wp, modify. cbn. fold t. specialize (Hgoal _ eq_refl). destruct (topic_subs s !! t); [done|]. by eapply both_frame; [..|exact Hgoal].
Qed.

(** ** Pages *)

(** A page is always cut, and one that has a next page is not empty. *)
Lemma paginate_after_total {T} (rs : list T) size token policy (name : T -> text) boundary : Z.of_nat (length rs) <= int_max usize ->
  exists r, paginate_after rs size token policy name boundary = Some r /\
    forall p, r = Ok p -> next_page_token p <> [] -> is_Some (last (resources p)).
Proof.
  intros Hlen. unfold paginate_after. destruct (page_limit policy size) as [limit|e] eqn:Hl; [|by eexists]. apply page_limit_pos in Hl.
  destruct (page_start rs token policy name boundary) as [start|e]; [|by eexists].
  destruct (Z.ltb_spec (Z.min (saturating usize (Z.of_nat start + limit)) (Z.of_nat (length rs))) (Z.of_nat (length rs))) as [Hlt|Hge].
  - assert (Hsat : saturating usize (Z.of_nat start + limit) = Z.of_nat start + limit).
    { unfold saturating in *. change (int_min usize) with 0 in *. lia. }
    rewrite Hsat in *. set (end_ := Z.min _ _) in *. assert (Hend : end_ = Z.of_nat start + limit) by lia.
    assert (Hlast : is_Some (last (page_slice rs start limit))).
    { unfold page_slice. destruct (last _) eqn:Hn; [done|]. apply last_None in Hn. apply (f_equal length) in Hn. rewrite length_take, length_drop in Hn. cbn in Hn. lia. }
    assert (Htok : exists t, match policy with
        | Strict => if end_ <=? 0 then None else (fun r => opaque_token (name r)) <$> rs !! Z.to_nat (end_ - 1)
        | Emulator => name <$> rs !! Z.to_nat end_ end = Some t).
    { destruct policy; [destruct (Z.leb_spec end_ 0); [lia|]|]; (edestruct (lookup_lt_is_Some_2 rs) as [x ->]; [|by eexists]); lia. }
    destruct Htok as [t ->]. cbn. eexists. split; [done|]. by intros p [= <-] _.
  - cbn. eexists. split; [done|]. by intros p [= <-].
Qed.

Lemma state_paginate_wf {T} n context (rs : list T) size token policy (name : T -> text) s : Z.of_nat (length rs) <= int_max usize ->
  broker_wf n s -> wp (state_paginate context rs size token policy name) (fun _ s' => broker_wf n s') s.
Proof.
  intros Hlen Hs. unfold state_paginate. apply wp_gets. cbv zeta.
  destruct (paginate_after_total rs size token policy name
    (issued_page_boundaries s !! context ≫= (fun tokens => default None (tokens !! token))) Hlen) as (r & Hr & Hlast).
  eapply wp_expect; [exact Hr|]. wp_steps. destruct (_ && _) eqn:Hn; [|done]. apply andb_prop in Hn as [_ Hn]. apply negb_true_iff, bool_decide_eq_false in Hn.
  destruct (Hlast a H Hn) as [x Hx]. eapply wp_expect; [exact Hx|]. wp_steps. by eapply both_frame; [..|exact Hs].
Qed.

(** ** Configuration *)

Lemma set_project_numbers_wf n numbers s : broker_wf n s -> wp (set_project_numbers numbers) (fun _ s' => broker_wf n s') s.
Proof.
  intros Hs. unfold set_project_numbers. apply wp_bind. eapply wp_mono; [|apply (wp_each _ _ (broker_wf n)); [|exact Hs]].
  - intros [_|e] s' Hs'; [|done]. by eapply both_frame; [..|exact Hs'].
  - intros [project number] s' _ Hs'. wp_steps. by apply wp_refuse.
Qed.

Lemma set_push_interval_wf n interval s : broker_wf n s -> wp (set_state_push_minimum_interval interval) (fun _ s' => broker_wf n s') s.
Proof.
  intros Hs. unfold wp, set_state_push_minimum_interval, modify. set (i := if interval <? 0 then 0 else interval).
  assert (H1 : broker_wf n (with_push_minimum_interval i s)) by (by eapply both_frame; [..|exact Hs]).
  apply (evolve_subscriptions n (with_push_minimum_interval i s)); [|done]. intros k. cbn. rewrite lookup_fmap.
  destruct (subscriptions s !! k) as [sub|] eqn:Hk; cbn; constructor. destruct (subscription_of n s k sub Hs Hk) as [[[] ?] Hv].
  apply evolves_same; try done.
Qed.

Lemma set_resource_policy_wf n resource expected v bs s : broker_wf n s ->
  wp (set_resource_policy resource expected v bs) (fun _ s' => broker_wf n s') s.
Proof.
  intros Hs. unfold wp, set_resource_policy. destruct (resource_policies s !! resource) as [p|] eqn:Hp; [|done].
  destruct (policy_set p expected v bs) as [r p'] eqn:Hset. destruct Hs as [[] Hl [] Hmc]. split; try done. split; cbn; try done.
  - intros k. rewrite lookup_insert_is_Some, rw_policies0. destruct (decide (resource = k)) as [<-|]; [|naive_solver].
    assert (is_Some (topics s !! resource) \/ is_Some (subscriptions s !! resource)) by (apply rw_policies0; by eexists). naive_solver.
  - intros k q [[<- <-]|[_ Hk]]%lookup_insert_Some; [|by apply rw_policy0 with k]. destruct (rw_policy0 resource p Hp) as [Hr Hi].
    assert (Hi' : incarnation p' = incarnation p).
    { destruct r as [q|e]; [|by apply policy_set_Err in Hset as ->]. apply policy_set_Ok in Hset; [by destruct Hset as (_ & _ & _ & ? & _)|].
      eapply policy_reachable_wf; [|exact Hr]. unfold MAX_POLICY_INCARNATION in *. lia. }
    rewrite Hi'. split; [|lia]. replace p' with (policy_set p expected v bs).2 by (by rewrite Hset). by apply policy_next.
Qed.

Lemma update_configuration_wf n name update strict s : broker_wf n s ->
  wp (update_subscription_configuration name update strict) (fun _ s' => broker_wf n s') s.
Proof.
  intros Hs. unfold update_subscription_configuration. wp_steps. destruct a0. rename H0 into Hv.
  apply wp_bind. eapply wp_mono; [|instantiate (1 := fun _ s' => s' = s); by destruct strict]. intros [_|e] ? ->; [|done].
  apply on_subscription_wf; [|done]. intros sub Hk Hw _. unfold subscription_config, read_subscription in H. rewrite Hk in H. injection H as <-.
  eexists _, _. split; [done|]. by apply evolves_config.
Qed.

Lemma update_ack_deadline_wf n name seconds s : broker_wf n s -> wp (update_ack_deadline name seconds) (fun _ s' => broker_wf n s') s.
Proof.
  apply sub_mut_wf. intros sub Hw Hv. destruct (_ || _) eqn:Hr; eexists _, _; (split; [done|]); [by apply evolves_refl|].
  apply evolves_config; try done. apply validate_deadline; [done|]. apply orb_false_iff in Hr. unfold MIN_ACK_DEADLINE_SECONDS, MAX_ACK_DEADLINE_SECONDS in Hr. lia.
Qed.

Lemma update_push_config_wf n name push s : broker_wf n s -> wp (update_push_config name push) (fun _ s' => broker_wf n s') s.
Proof. apply sub_mut_wf. intros sub Hw Hv. eexists _, _. split; [done|]. by apply evolves_config. Qed.

(** ** Snapshots *)

Section shelf.
Context `{Memory}.

Lemma generated_name_inj sub a b : 0 <= a -> 0 <= b -> generated_name sub a = generated_name sub b -> a = b.
Proof.
  unfold generated_name. intros Ha Hb Hd%app_inv_head%app_inv_head%app_inv_head. apply (f_equal dec_value) in Hd. by rewrite !decimal_value in Hd.
Qed.

Lemma free_name_total taken sub : forall fuel counter seen, 0 <= counter -> NoDup seen ->
  (forall k, k ∈ seen -> is_Some (taken !! k) /\ exists c, 0 <= c <= counter /\ k = generated_name sub c) ->
  (size taken < length seen + fuel)%nat -> is_Some (free_name fuel taken sub counter).
Proof.
  induction fuel as [|fuel IH]; intros counter seen Hc Hnd Hseen Hsize; cbn [free_name].
  - exfalso. assert (Hle : (length seen <= size taken)%nat); [|lia]. rewrite <- size_dom, <- (size_list_to_set (C := gset text)) by done.
    apply subseteq_size. intros k Hk%elem_of_list_to_set. apply elem_of_dom. by apply Hseen.
  - destruct (checked u64 (counter + 1)) as [c|] eqn:Hx; [|done]. apply checked_Some in Hx as [-> _].
    destruct (contains_key _ taken) eqn:Ht; [|done]. apply contains_key_true in Ht.
    apply (IH (counter + 1) (generated_name sub (counter + 1) :: seen)); [lia| | |cbn; lia].
    + constructor; [|done]. intros (_ & c & Hr & Heq%generated_name_inj)%Hseen; lia.
    + intros k [->|Hk]%elem_of_cons; [split; [done|]; exists (counter + 1); split; [lia|done]|].
      destruct (Hseen k Hk) as (? & c & ? & ?). split; [done|]. exists c. split; [lia|done].
Qed.

(** The search for a free name ends. *)
Lemma available_name_total s requested sub : 0 <= snapshot_counter s -> is_Some (available_snapshot_name s requested sub).
Proof.
  intros Hc. unfold available_snapshot_name. case_bool_decide; [|done].
  destruct (free_name_total (snapshots s) sub (S (size (snapshots s))) (snapshot_counter s) []) as [r ->]; try done; [constructor|..].
  - intros k Hk. by apply not_elem_of_nil in Hk.
  - cbn. lia.
Qed.

Lemma available_name_counter s requested sub name counter : available_snapshot_name s requested sub = Some (Ok (name, Some counter)) -> 0 <= counter.
Proof.
  unfold available_snapshot_name. case_bool_decide; [|done]. generalize (S (size (snapshots s))) as fuel, (snapshot_counter s) as c.
  induction fuel as [|fuel IH]; intros c; [done|]. cbn [free_name]. destruct (checked u64 (c + 1)) as [c'|] eqn:Hc; [|done].
  apply checked_Some in Hc as [-> Hf]. destruct (contains_key _ _); [apply IH|]. cbn. intros [= _ <-]. apply Hf.
Qed.

Lemma insert_snapshot_wf n s sn bytes counter id :
  match counter with Some c => 0 <= c | None => True end ->
  parse_snapshot_name (snapshot_name sn) = Ok (owner_project sn, id) -> snapshots s !! snapshot_name sn = None ->
  Z.of_nat (size (snapshots s)) < MAX_SNAPSHOTS -> over_retained (checked usize (snapshot_retained_bytes s + bytes)) = false ->
  broker_wf n s -> broker_wf n (insert_snapshot sn bytes counter s).
Proof.
  intros Hcount Hparse Hnew Hsize Hover Hs. apply (registry_frame n s); [by destruct counter| |done].
  pose proof Hs as [_ _ [Hn Hi Hb Hl Hcnt] _]. unfold over_retained in Hover.
  destruct (checked usize _) as [total|] eqn:Hc; [|done]. apply checked_Some in Hc as [-> Hf]. apply Z.ltb_ge in Hover.
  set (key := (topic_to_full (snapshot_topic sn), topic_incarnation sn)).
  assert (Hidx : forall t i k, k ∈ default ∅ (<[key := {[snapshot_name sn]} ∪ default ∅ (topic_snapshots s !! key)]> (topic_snapshots s) !! (t, i)) <->
     (key = (t, i) /\ k = snapshot_name sn) \/ k ∈ default ∅ (topic_snapshots s !! (t, i))).
  { intros t i k. destruct (decide (key = (t, i))) as [<-|Hne]; [rewrite lookup_insert_eq|rewrite lookup_insert_ne by done]; cbn; set_solver. }
  assert (Hgoal : snapshots_wf (with_snapshots (<[snapshot_name sn := sn]> (snapshots s)) (with_topic_snapshots
    (<[key := {[snapshot_name sn]} ∪ default ∅ (topic_snapshots s !! key)]> (topic_snapshots s))
    (with_snapshot_retained_bytes (wrapping usize (snapshot_retained_bytes s + bytes))
      (with_snapshot_counter (default (snapshot_counter s) counter) s))))).
  { split; cbn.
    - intros k x [[<- <-]|[_ Hk]]%lookup_insert_Some; [split; [done|by exists id]|by apply Hn].
    - intros t i k. rewrite Hidx, Hi. setoid_rewrite lookup_insert_Some. split.
      + intros [[[= <- <-] ->]|(x & Hx & Ht & Hinc)]; [exists sn; split_and!; auto|]. exists x. split_and!; try done. right. split; [|done]. intros <-. congruence.
      + intros (x & [[<- <-]|[_ Hx]] & Ht & Hinc); [left; split; [by subst|done]|right; by exists x].
    - rewrite wrapping_id by done. split; [apply Hf|done].
    - rewrite map_size_insert_None by done. lia.
    - by destruct counter. }
  eapply shelf_frame; [|exact Hgoal]. by destruct counter.
Qed.

Lemma create_snapshot_wf n requested sub labels now s : broker_wf n s ->
  wp (create_snapshot requested sub labels now) (fun _ s' => broker_wf n s') s.
Proof.
  intros Hs. unfold create_snapshot. apply wp_modify. pose proof (remove_expired_wf n now s Hs) as H1.
  pose proof (sw_counter _ (bw_snapshots n _ H1)) as Hc1.
  set (s1 := remove_expired_snapshots now s) in *. wp_steps. apply orb_false_iff in H2 as [Hd Ht]. apply negb_false_iff, contains_key_true in Ht as [entry Ht].
  eapply wp_expect; [exact Ht|]. apply wp_gets. destruct (available_name_total s1 requested sub Hc1) as [r Hr]. eapply wp_expect; [exact Hr|].
  wp_steps. destruct a0 as [name counter]. wp_steps. destruct a0 as [project id]. wp_steps. apply contains_key_false in H5. apply Z.leb_gt in H6.
  unfold wp, modify, p_bind, p_ret. eapply insert_snapshot_wf; try done. destruct counter as [c|]; [|done].
  eapply available_name_counter. by subst r.
Qed.

Lemma get_snapshot_wp n name now s (Q : result Snapshot PubSubError -> PubSubState -> Prop) : broker_wf n s ->
  (forall r s', broker_wf n s' -> registry s' = registry s -> (forall sn, r = Ok sn -> snapshots s' !! name = Some sn) -> Q r s') ->
  wp (get_snapshot name now) Q s.
Proof.
  intros Hs HQ. unfold get_snapshot. wp_step_with ltac:(by apply HQ). apply wp_modify, wp_gets.
  assert (Hs1 : broker_wf n (remove_expired_snapshots now s)) by by apply remove_expired_wf.
  apply wp_found; intros; apply HQ; try done; try apply remove_expired_registry. by intros sn [= <-].
Qed.

Lemma update_snapshot_wf n name labels now s : broker_wf n s -> wp (update_snapshot name labels now) (fun _ s' => broker_wf n s') s.
Proof.
  intros Hs. unfold update_snapshot. apply wp_bind, (get_snapshot_wp n); [done|]. intros [sn|e] s1 H1 _ Hsn; [|done]. specialize (Hsn sn eq_refl).
  wp_steps. apply checked_Some in H0 as [-> Hf]. apply Z.ltb_ge in H2. unfold wp, p_ret. apply (registry_frame n s1); [done| |done].
  pose proof H1 as [_ _ [Hn Hi Hb Hl Hcnt] _]. split; cbn.
  - intros k x [[<- <-]|[_ Hk]]%lookup_insert_Some; [exact (Hn name sn Hsn)|by apply Hn].
  - intros t i k. rewrite Hi. setoid_rewrite lookup_insert_Some. split.
    + intros (x & Hx & Ht & Hinc). destruct (decide (name = k)) as [<-|Hne]; [|by exists x; auto].
      exists (with_labels labels sn). rewrite Hsn in Hx. injection Hx as <-. auto.
    + intros (x & [[<- <-]|[_ Hx]] & Ht & Hinc); [by exists sn|by exists x].
  - split; [apply Hf|done].
  - by rewrite map_size_insert_Some by (by eexists).
  - done.
Qed.

Lemma delete_snapshot_wf n name now s : broker_wf n s -> wp (delete_snapshot name now) (fun _ s' => broker_wf n s') s.
Proof.
  intros Hs. unfold delete_snapshot. wp_steps. unfold wp. pose proof (remove_expired_wf n now s Hs) as Hs1.
  pose proof (remove_snapshot_registry name (remove_expired_snapshots now s)) as Hr. pose proof (remove_snapshot_wf name _ (bw_snapshots n _ Hs1)) as Hw.
  destruct (remove_snapshot name _) as [[sn|] s2]; eapply registry_frame; [exact Hr|exact Hw|done|exact Hr|exact Hw|done].
Qed.

Lemma list_snapshots_wf n project now s : broker_wf n s -> wp (list_snapshots project now) (fun _ s' => broker_wf n s') s.
Proof. intros Hs. unfold list_snapshots. apply wp_modify. by apply remove_expired_wf. Qed.

Lemma list_topic_snapshots_wf n topic now s : broker_wf n s -> wp (list_topic_snapshots topic now) (fun _ s' => broker_wf n s') s.
Proof. intros Hs. unfold list_topic_snapshots. pose proof (remove_expired_wf n now s Hs) as Hs1. wp_steps. done. Qed.

(** The messages of a snapshot fit the address space. *)
Definition captured_fit (s : PubSubState) : Prop :=
  forall k sn, snapshots s !! k = Some sn -> fits usize (shared_bytes (captured_messages sn)).

Lemma remove_snapshots_subset names : forall s k sn, snapshots (remove_snapshots names s) !! k = Some sn -> snapshots s !! k = Some sn.
Proof.
  unfold remove_snapshots. induction names as [|name names IH]; intros s k sn; [done|]. cbn. intros Hk%IH.
  rewrite remove_snapshot_gone in Hk. by apply lookup_delete_Some in Hk as [_ ?].
Qed.

Lemma state_seek_to_snapshot_wf n sub name now s : captured_fit s -> broker_wf n s ->
  wp (state_seek_to_snapshot sub name now) (fun _ s' => broker_wf n s') s.
Proof.
  intros Hfit Hs. unfold state_seek_to_snapshot, get_snapshot. wp_steps. apply wp_bind. wp_steps.
  pose proof (remove_expired_wf n now s Hs) as Hs1. apply wp_found; [|done]. intros sn Hsn. wp_steps. apply sub_mut_wf; [|done].
  intros x Hx Hv. destruct (seek_to_snapshot x _ _ _ _ now) as [r x'] eqn:Hseek. exists r, x'. split; [done|].
  change x' with (r, x').2. rewrite <- Hseek. apply evolves_seek_snapshot; [done|done|]. eapply (Hfit name), remove_snapshots_subset, Hsn.
Qed.
End shelf.
