(* ===== verification/PsCommit.v ===== *)
(** * Publications are admitted and delivered

    What preparing and committing a publication do to the registry: the commit of an admitted
    batch never fails half way, because its capacity check covers every subscription. *)
From S2P Require Import Prelude Time Text Determinism MessageId PsName PsFilter PsMessage PsSubscription PsPull PsLog PsDelivery PsIam PsPagination PsState PsSnapshot PsPublish PsRegistry PsInvariant.

(** ** One subscription *)

(** What a publication of [ms] leaves of a subscription. *)
Record batch_stored (now : LogicalInstant) (ms : list Shared) (sub sub' : SubscriptionState) : Prop := {
  bs_evolves : evolves sub sub';
  bs_config : config sub' = config sub;
  bs_log : filter unacked (entries sub') = filter unacked (entries sub) ++ map (new_entry now) (admitted_by sub ms);
}.

Lemma enqueue_config sub m now : config (enqueue sub m now).2 = config sub.
Proof.
  unfold enqueue. set (s1 := if _ && _ then _ else _). assert (config s1 = config sub) by (subst s1; by destruct (_ && _)).
  destruct (exceeds_entries s1); [done|]. by destruct (exceeds_bytes s1 _).
Qed.

Lemma admitted_by_config sub sub' ms : config sub' = config sub -> admitted_by sub' ms = admitted_by sub ms.
Proof. intros Hc. unfold admitted_by, admits. by rewrite Hc. Qed.

Lemma admitted_by_cons sub m ms : admitted_by sub (m :: ms) =
  if admits sub (attributes (message (value m))) then m :: admitted_by sub ms else admitted_by sub ms.
Proof. unfold admitted_by. rewrite filter_cons. destruct (admits sub _); [by rewrite decide_True|by rewrite decide_False]. Qed.

Lemma deliver_batch now ms : forall sub, sub_wf sub -> config_validate (config sub) = Ok tt -> room sub (admitted_by sub ms) ->
  exists sub', each (deliver_one now) ms sub = Some sub' /\ batch_stored now ms sub sub'.
Proof.
  induction ms as [|m ms IH]; intros sub Hs Hv Hr; cbn [each].
  { exists sub. split; [done|]. split; [by apply evolves_refl|done|]. cbn. by rewrite app_nil_r. }
  rewrite admitted_by_cons in Hr. destruct (admits sub (attributes (message (value m)))) eqn:Ha.
  - destruct (enqueue_room sub m (admitted_by sub ms) now Hs Hr) as (s1 & He & H1 & Hr1 & Hl). pose proof (evolves_enqueue sub m now Hs Hv) as Hev.
    pose proof (enqueue_config sub m now) as Hc. rewrite He in Hev, Hc. cbn in Hev, Hc.
    assert (Hone : deliver_one now sub m = Some s1) by (unfold deliver_one; by rewrite Ha, He). rewrite Hone. cbn.
    rewrite <- (admitted_by_config sub s1) in Hr1 by done. destruct (IH s1 H1) as (s2 & He2 & [Hev2 Hc2 Hl2]); [by rewrite Hc|done|].
    exists s2. split; [done|]. split; [by eapply evolves_trans|congruence|].
    rewrite Hl2, Hl, admitted_by_cons, Ha, (admitted_by_config sub s1) by done. by rewrite <- app_assoc.
  - assert (Hone : deliver_one now sub m = Some sub) by (unfold deliver_one; by rewrite Ha). rewrite Hone. cbn.
    destruct (IH sub Hs Hv Hr) as (s2 & He2 & [Hev2 Hc2 Hl2]). exists s2. split; [done|]. split; [done|done|].
    by rewrite Hl2, admitted_by_cons, Ha.
Qed.

(** ** Every subscription of a topic *)

Section commit.
Context `{Memory}.

Lemma ensure_capacities_ok s keys ms k sub : ensure_capacities s keys ms = Ok tt -> k ∈ keys -> (k ∉ function_subscriptions s) ->
  subscriptions s !! k = Some sub -> ensure_enqueue_capacity sub (map value (admitted_by sub ms)) = Ok tt.
Proof.
  induction keys as [|key keys IH]; [by intros _ ?%not_elem_of_nil|]. cbn. intros He Hk Hf Hs.
  assert (Hrest : ensure_capacities s keys ms = Ok tt -> k ∈ keys -> ensure_enqueue_capacity sub (map value (admitted_by sub ms)) = Ok tt)
    by (intros ? ?; by apply IH).
  apply elem_of_cons in Hk as [->|Hk].
  - rewrite bool_decide_eq_false_2, Hs in He by done. by destruct (ensure_enqueue_capacity _ _) as [[]|].
  - apply Hrest; [|done]. destruct (bool_decide _); [done|]. destruct (subscriptions s !! key) as [x|]; [|done].
    by destruct (ensure_enqueue_capacity x _).
Qed.

(** What the fan-out leaves of every subscription. *)
Definition fanned_out (functions : gset text) (keys : list text) (ms : list Shared) (now : LogicalInstant)
    (m m' : gmap text SubscriptionState) : Prop :=
  forall k, if decide (k ∈ keys /\ k ∉ functions) then option_Forall2 (batch_stored now ms) (m !! k) (m' !! k) else m' !! k = m !! k.

Lemma fan_out_all functions ms now keys : forall m, NoDup keys ->
  (forall k sub, k ∈ keys -> (k ∉ functions) -> m !! k = Some sub -> sub_wf sub /\ config_validate (config sub) = Ok tt /\ room sub (admitted_by sub ms)) ->
  exists m', each (fan_out functions ms now) keys m = Some m' /\ fanned_out functions keys ms now m m'.
Proof.
  induction keys as [|key keys IH]; intros m Hnd Hm; cbn [each].
  { exists m. split; [done|]. intros k. rewrite decide_False; [done|]. by intros [?%not_elem_of_nil _]. }
  apply NoDup_cons in Hnd as [Hnin Hnd].
  assert (Hone : exists m1, fan_out functions ms now m key = Some m1 /\ (forall k, k <> key -> m1 !! k = m !! k) /\
            if decide (key ∈ functions) then m1 !! key = m !! key else option_Forall2 (batch_stored now ms) (m !! key) (m1 !! key)).
  { unfold fan_out. destruct (decide (key ∈ functions)) as [Hf|Hf]; [rewrite bool_decide_true by done; by exists m|].
    rewrite bool_decide_false by done. destruct (m !! key) as [sub|] eqn:Hk; [|exists m; split_and!; [done|done|rewrite Hk; constructor]].
    destruct (Hm key sub ltac:(by left) Hf Hk) as (Hw & Hv & Hr). destruct (deliver_batch now ms sub Hw Hv Hr) as (sub' & -> & Hb). cbn.
    eexists. split; [done|]. split; [intros k Hk'; by rewrite lookup_insert_ne|]. rewrite lookup_insert_eq. by constructor. }
  destruct Hone as (m1 & -> & Hother & Hkey). cbn. destruct (IH m1 Hnd) as (m' & -> & Hall).
  { intros k sub Hk Hf Hks. apply (Hm k sub); [by right|done|]. rewrite <- Hother; [done|]. by intros ->. }
  exists m'. split; [done|]. intros k. specialize (Hall k). destruct (decide (k = key)) as [->|Hne].
  - rewrite decide_False in Hall by (by intros [? _]). rewrite Hall. destruct (decide (key ∈ functions)) as [Hf|Hf].
    + rewrite decide_False; [done|]. by intros [_ ?].
    + rewrite decide_True; [done|]. split; [by left|done].
  - rewrite <- (Hother k Hne). destruct (decide (k ∈ keys /\ k ∉ functions)) as [[Hin Hnf]|Hin]; [rewrite decide_True by (split; [by right|done]); done|].
    rewrite decide_False; [done|]. intros [Hk Hf]. apply Hin. apply elem_of_cons in Hk as [?|?]; done.
Qed.

Lemma fanned_out_evolves functions keys ms now m m' : (forall k sub, m !! k = Some sub -> entry_wf k sub) ->
  fanned_out functions keys ms now m m' -> evolves_all m m'.
Proof.
  intros Hm Hf k. specialize (Hf k). destruct (decide _).
  - destruct Hf as [sub sub' []|]; by constructor.
  - rewrite Hf. by apply evolves_all_refl.
Qed.

(** ** The snapshots of a topic *)

Lemma retain_all ms names : forall live, (forall k, k ∈ names -> is_Some (live !! k)) -> exists live',
  each (retain_in ms) names live = Some live' /\
  (forall k, option_Forall2 (fun sn sn' => snapshot_name sn' = snapshot_name sn /\ owner_project sn' = owner_project sn /\
     snapshot_topic sn' = snapshot_topic sn /\ topic_incarnation sn' = topic_incarnation sn) (live !! k) (live' !! k)).
Proof.
  induction names as [|name names IH]; intros live Hn; cbn [each].
  - exists live. split; [done|]. intros k. destruct (live !! k); by constructor.
  - destruct (Hn name) as [sn Hsn]; [by left|].
    assert (Hone : retain_in ms live name = Some (<[name := extend_snapshot ms sn]> live)) by (unfold retain_in; by rewrite Hsn). rewrite Hone. cbn.
    destruct (IH (<[name := extend_snapshot ms sn]> live)) as (live' & -> & Hl).
    { intros k Hk. rewrite lookup_insert_is_Some. destruct (decide (name = k)); [by left|right; split; [done|]; apply Hn; by right]. }
    exists live'. split; [done|]. intros k. specialize (Hl k). destruct (decide (name = k)) as [<-|Hne]; [|by rewrite lookup_insert_ne in Hl].
    rewrite lookup_insert_eq in Hl. rewrite Hsn. inversion Hl; subst. by constructor.
Qed.

Lemma snapshot_admission_ok s key incarnation ms names total : snapshot_publish_admission s key incarnation ms = Ok (names, total) ->
  names = btree_iter (default ∅ (topic_snapshots s !! (key, incarnation))) /\ 0 <= total <= MAX_SNAPSHOT_RETAINED_BYTES.
Proof.
  unfold snapshot_publish_admission. set (l := btree_iter _). set (o := mbind _ _). destruct o as [t|] eqn:Ho; [|done]. intros [= <- <-]. split; [done|].
  subst o. destruct (checked_sum _ 0) as [p|]; [|done]. cbn in Ho. destruct (checked usize (p * _)) as [r|]; [|done]. cbn in Ho.
  destruct (if bool_decide (l = []) then _ else _) as [sh|]; [|done]. cbn in Ho. destruct (checked usize (snapshot_retained_bytes s + r)) as [u|]; [|done].
  cbn in Ho. destruct (checked usize (u + sh)) as [v|] eqn:Hv; [|done]. apply checked_Some in Hv as [-> Hf]. cbn in Ho. unfold within_limit in Ho.
  destruct (Z.leb_spec (u + sh) MAX_SNAPSHOT_RETAINED_BYTES); [|done]. injection Ho as <-. split; [apply Hf|done].
Qed.

Lemma publish_admission_ok s key incarnation ms keys names total : publish_admission s key incarnation ms = Ok (keys, names, total) ->
  keys = btree_iter (default ∅ (topic_subs s !! key)) /\ ensure_capacities s keys ms = Ok tt /\
  names = btree_iter (default ∅ (topic_snapshots s !! (key, incarnation))) /\ 0 <= total <= MAX_SNAPSHOT_RETAINED_BYTES.
Proof.
  unfold publish_admission. destruct (ensure_capacities _ _ ms) as [[]|e] eqn:He; [|done].
  destruct (snapshot_publish_admission s key incarnation ms) as [[n t]|e] eqn:Hs; [|done]. intros [= <- <- <-].
  apply snapshot_admission_ok in Hs as [-> ?]. done.
Qed.

(** ** Committing *)

(** What a commit that succeeds does. *)
Record committed (p : PreparedPublication) (now : LogicalInstant) (s s' : PubSubState) : Prop := {
  cm_topics : topics s' = topics s;
  cm_topic_subs : topic_subs s' = topic_subs s;
  cm_functions : function_subscriptions s' = function_subscriptions s;
  cm_subs : fanned_out (function_subscriptions s) (btree_iter (default ∅ (topic_subs s !! topic_key p))) (published p)
              (match published p with m :: _ => publish_time (value m) | [] => now end) (subscriptions s) (subscriptions s');
  cm_counter : message_counter s' = next_message_counter p;
}.

Lemma admission_of_commit s n key incarnation ms keys names total k sub : broker_wf n s -> publish_admission s key incarnation ms = Ok (keys, names, total) ->
  k ∈ keys -> (k ∉ function_subscriptions s) -> subscriptions s !! k = Some sub ->
  sub_wf sub /\ config_validate (config sub) = Ok tt /\ room sub (admitted_by sub ms).
Proof.
  intros Hs (-> & He & _)%publish_admission_ok Hk Hf Hsub. destruct (subscription_of n s k sub Hs Hsub) as [Hw Hv]. split_and!; [done|done|].
  apply capacity_room; [done|]. by eapply ensure_capacities_ok.
Qed.

Definition fresh_publication (p : PreparedPublication) (s : PubSubState) : Prop :=
  exists t, topics s !! topic_key p = Some t /\ incarnation_of t = prepared_incarnation p /\ message_counter s = initial_message_counter p /\
    publish_admission s (topic_key p) (prepared_incarnation p) (published p) = Ok (subscription_keys p, snapshot_names p, snapshot_total_bytes p).

Lemma commit_spec n p now s : 0 <= next_message_counter p <= BROKER_SPAN -> broker_wf n s ->
  wp (commit_prepared p now) (fun r s' => broker_wf n s' /\
    match r with
    | Ok ms => ms = published p /\ fresh_publication p s /\ committed p now s s'
    | Err e => s' = s /\ ~ fresh_publication p s
    end) s.
Proof.
  intros Hp Hs. unfold commit_prepared. apply wp_gets, wp_find; [|intros Hn; split_and!; [done|done|]; intros (t & Ht & _); congruence].
  intros t Ht. apply wp_gets, wp_check.
  { intros Hb%orb_true_iff. split_and!; [done|done|]. intros (t' & Ht' & Hi & Hm & _). rewrite Ht in Ht'. injection Ht' as <-.
    destruct Hb as [Hb|Hb]; apply negb_true_iff, Z.eqb_neq in Hb; done. }
  intros [Hi%negb_false_iff%Z.eqb_eq Hm%negb_false_iff%Z.eqb_eq]%orb_false_iff. apply wp_gets, wp_lift;
    [|intros e He; split_and!; [done|done|]; intros (t' & _ & _ & _ & Ha); congruence].
  intros [[keys names] total] Ha. apply wp_check.
  { unfold same_admission. intros Hb%negb_true_iff%bool_decide_eq_false. split_and!; [done|done|]. intros (t' & _ & _ & _ & Ha'). congruence. }
  unfold same_admission. intros Hb%negb_false_iff%bool_decide_eq_true. rewrite Hb in Ha. assert (Hfresh : fresh_publication p s) by (by exists t).
  clear Hb keys names total. cbv zeta. set (time := match published p with m :: _ => _ | [] => now end).
  pose proof (publish_admission_ok _ _ _ _ _ _ _ Ha) as (Hk & _ & Hn & Htot).
  destruct (fan_out_all (function_subscriptions s) (published p) time (subscription_keys p) (subscriptions s)) as (subs & Hsubs & Hfan).
  { rewrite Hk. apply NoDup_btree_iter. }
  { intros k sub. by eapply admission_of_commit. }
  apply wp_gets, wp_gets. eapply wp_expect; [exact Hsubs|]. apply wp_modify.
  assert (H1 : broker_wf n (with_subscriptions subs s)).
  { apply evolve_subscriptions; [|done]. eapply fanned_out_evolves; [apply Hs|exact Hfan]. }
  pose proof Hs as [_ _ [Hsn Hidx _ Hsl Hsc] _].
  destruct (retain_all (published p) (snapshot_names p) (snapshots s)) as (live & Hlive & Hkeep).
  { intros k Hk'. rewrite Hn in Hk'. apply elem_of_btree_iter, Hidx in Hk' as (sn & Hx & _). by exists sn. }
  assert (Hfinal : forall refs, broker_wf n (with_message_counter (next_message_counter p) (with_snapshot_retained_bytes (snapshot_total_bytes p)
     (with_snapshot_message_refs refs (with_snapshots live (with_subscriptions subs s)))))).
  { intros refs. destruct H1 as [Hr Hl _ _]. split; [by destruct Hr|done| |done]. split; cbn; try done.
    - intros k sn Hk'. specialize (Hkeep k). rewrite Hk' in Hkeep. inversion Hkeep as [x y (E1 & E2 & _) Hx|]; subst. rewrite E1, E2. by apply Hsn.
    - intros t' i k. rewrite Hidx. specialize (Hkeep k). split; intros (sn & Hk' & Et & Ei); rewrite Hk' in Hkeep;
        inversion Hkeep as [x y (_ & _ & E1 & E2)|]; subst; eexists; split_and!; try done; congruence.
    - rewrite (same_keys_size (snapshots s) live); [done|]. intros k. specialize (Hkeep k). destruct Hkeep; split; intros [? ?]; done. }
  assert (Hcom : forall refs, committed p now s (with_message_counter (next_message_counter p) (with_snapshot_retained_bytes (snapshot_total_bytes p)
     (with_snapshot_message_refs refs (with_snapshots live (with_subscriptions subs s)))))).
  { intros refs. split; try done. cbn. rewrite <- Hk. exact Hfan. }
  unfold retain_snapshot_publication. apply wp_bind, wp_gets. eapply wp_expect; [exact Hlive|]. apply wp_modify.
  destruct (bool_decide (snapshot_names p = [])); [exact (conj (Hfinal _) (conj eq_refl (conj Hfresh (Hcom _))))|].
  exact (conj (Hfinal _) (conj eq_refl (conj Hfresh (Hcom _)))).
Qed.

(** ** Preparing *)

(** What the numbering of a batch gives. *)
Record numbered (messages : list (PubsubMessage * option text)) (counter : Z) (now : LogicalInstant) (ms : list Shared) (counter' : Z) : Prop := {
  nb_messages : map (fun m => message (value m)) ms = map fst messages;
  nb_times : Forall (fun m => publish_time (value m) = now) ms;
  nb_counter : counter <= counter' <= counter + Z.of_nat (length messages);
  nb_limit : counter <= BROKER_SPAN -> counter' <= BROKER_SPAN;
  nb_ordinary : Forall (fun m => m.2 = None) messages ->
    counter' = counter + Z.of_nat (length messages) /\
    map (fun m => message_id (value m)) ms = map (fun i => chars (pubsub_message_id i)) (seqZ (counter + 1) (Z.of_nat (length messages)));
}.

Lemma number_messages_spec messages : forall counter address now ms counter', 0 <= counter ->
  number_messages messages counter address now = Ok (ms, counter') -> numbered messages counter now ms counter'.
Proof.
  induction messages as [|[m chosen] messages IH]; intros counter address now ms counter' Hc; cbn [number_messages].
  { intros [= <- <-]. split; cbn; try done; try lia. intros _. split; [lia|done]. }
  destruct (match chosen with Some id => Some (id, counter) | None => _ end) as [[id c]|] eqn:Hnum; [|done].
  destruct (number_messages messages c (address + 1) now) as [[rest c']|e] eqn:Hrest; [|done]. intros [= <- <-].
  assert (Hstep : (chosen <> None /\ c = counter) \/ (chosen = None /\ c = counter + 1 /\ c <= BROKER_SPAN /\ id = chars (pubsub_message_id c))).
  { destruct chosen as [i|]; [injection Hnum as <- <-; by left|]. right. destruct (checked u64 (counter + 1)) as [x|] eqn:Hx; [|done].
    apply checked_Some in Hx as [-> _]. cbn in Hnum. destruct (Z.leb_spec (counter + 1) BROKER_SPAN); [|done]. injection Hnum as <- <-. done. }
  destruct (IH c (address + 1) now rest c') as [Hm Ht Hcc Hl Ho]; [destruct Hstep as [[_ ->]|(_ & -> & _)]; lia|done|].
  split; cbn [map length].
  - cbn. by rewrite Hm.
  - by constructor.
  - destruct Hstep as [[_ ->]|(_ & -> & _)]; lia.
  - intros Hle. apply Hl. destruct Hstep as [[_ ->]|(_ & -> & ? & _)]; lia.
  - intros [Hn Hall]%Forall_cons. cbn in Hn. destruct Hstep as [[? _]|(_ & -> & _ & ->)]; [done|]. destruct (Ho Hall) as [-> Hids].
    split; [lia|]. rewrite (seqZ_cons (counter + 1)) by lia. cbn. f_equal. rewrite Hids.
    by replace (Z.pred (Z.of_nat (S (length messages)))) with (Z.of_nat (length messages)) by lia.
Qed.

(** A prepared publication, as the registry hands it out. *)
Definition prepared_ok (p : PreparedPublication) : Prop := 0 <= next_message_counter p <= BROKER_SPAN.

Lemma prepare_spec n topic messages now s : broker_wf n s ->
  wp (prepare_publish_numbered topic messages now) (fun r s' => broker_wf n s' /\ registry s' = registry s /\
    forall p, r = Ok p -> prepared_ok p /\ fresh_publication p s' /\ topic_key p = topic_to_full topic /\
      numbered messages (message_counter s) now (published p) (next_message_counter p)) s.
Proof.
  intros Hs. unfold prepare_publish_numbered. wp_step_with ltac:(by split_and!). wp_step_with ltac:(by split_and!).
  wp_step_with ltac:(by split_and!). apply wp_bind.
  assert (Hval : wp (p_each (fun m => p_lift (validate m.1)) messages) (fun _ s' => s' = s) s) by (by apply (wp_each _ _ (fun s' => s' = s)); [intros ? ? _ ->|]).
  eapply wp_mono; [|exact Hval]. intros [[]|e] ? ->; [|by split_and!]. apply wp_modify.
  pose proof (remove_expired_wf n now s Hs) as H1'. pose proof (remove_expired_registry now s) as Hreg. set (s1 := remove_expired_snapshots now s) in *.
  wp_step_with ltac:(by split_and!). wp_step_with ltac:(by split_and!). apply wp_lift; [|intros e _; by split_and!]. intros [ms counter] Hnum. apply wp_modify.
  assert (Hmc : message_counter s1 = message_counter s) by (unfold registry in Hreg; congruence).
  assert (Ht1 : topics s1 = topics s) by (unfold registry in Hreg; congruence).
  pose proof (bw_messages n s Hs) as Hb. apply number_messages_spec in Hnum as Hnb; [|lia]. rewrite Hmc in Hnb.
  set (s2 := with_next_address _ s1). assert (H2' : broker_wf n s2) by (by eapply both_frame; [..|exact H1']).
  apply wp_gets, wp_lift; [|by intros e _; split_and!]. intros [[keys names] total] Hadm. unfold wp, p_ret. split; [done|]. split; [exact Hreg|].
  intros p [= <-]. cbn. split.
  - destruct Hnb. unfold prepared_ok. cbn. lia.
  - split; [|done]. exists a. cbn. rewrite Ht1. split_and!; done.
Qed.

Lemma prepare_with_ids_spec n topic messages now s : broker_wf n s ->
  wp (prepare_publish_with_message_ids topic messages now) (fun r s' => broker_wf n s' /\ registry s' = registry s /\
    forall p, r = Ok p -> prepared_ok p /\ fresh_publication p s') s.
Proof.
  intros Hs. unfold prepare_publish_with_message_ids. apply wp_check; [intros _; by split_and!|]. intros _.
  eapply wp_mono; [|by apply (prepare_spec n)]. intros r s' (Hw & Hr & Hp). split_and!; [done|done|]. intros p Hok. by destruct (Hp p Hok) as (? & ? & _).
Qed.

Lemma commit_wf n p now s : prepared_ok p -> broker_wf n s -> wp (commit_prepared p now) (fun _ s' => broker_wf n s') s.
Proof. intros Hp Hs. eapply wp_mono; [|by apply (commit_spec n)]. by intros r s' [Hw _]. Qed.

Lemma publish_with_ids_wf n topic messages now s : broker_wf n s -> wp (publish_with_message_ids topic messages now) (fun _ s' => broker_wf n s') s.
Proof.
  intros Hs. unfold publish_with_message_ids. apply wp_bind. eapply wp_mono; [|by apply (prepare_with_ids_spec n)].
  intros [p|e] s1 (Hw & _ & Hp); [|done]. apply commit_wf; [|done]. by apply Hp.
Qed.

(** Publishing: once the batch is prepared, the commit succeeds. *)
Lemma publish_outcome n topic messages now s : broker_wf n s ->
  wp (publish topic messages now) (fun r s' => broker_wf n s' /\
    match r with
    | Err _ => registry s' = registry s
    | Ok ids => exists p s1, registry s1 = registry s /\ committed p now s1 s' /\ topic_key p = topic_to_full topic /\
        numbered (map (fun m => (m, None)) messages) (message_counter s) now (published p) (next_message_counter p) /\
        ids = map (fun m => message_id (value m)) (published p)
    end) s.
Proof.
  intros Hs. unfold publish, publish_shared, prepare_publish. apply wp_bind, wp_bind. eapply wp_mono; [|by apply (prepare_spec n)].
  intros [p|e] s1 (Hw & Hr & Hp); [|done]. destruct (Hp p eq_refl) as (Hok & Hfresh & Hkey & Hnum).
  eapply wp_mono; [|by apply (commit_spec n)]. intros [ms|e] s2 [Hw2 Hcase].
  - destruct Hcase as (-> & _ & Hcom). unfold wp, p_ret. split; [done|]. exists p, s1. split_and!; done.
  - destruct Hcase as [-> Hn]. done.
Qed.
End commit.
