(* ===== verification/PsDispatch.v ===== *)
(** * Deliveries and resets keep the invariant

    Pulls, leases, dead-letter transfers and the resets of the registry. *)
From S2P Require Import Prelude Time Rfc3339 Text Determinism MessageId PsName PsFilter PsMessage PsSubscription PsPull PsLog PsDelivery PsIam PsPagination PsState PsSnapshot PsPublish PsRegistry PsInvariant PsCommit.

Section dispatch.
Context `{Memory}.

(** ** Dead letters *)

Lemma resume_wf n f now s : broker_wf n s -> wp (resume_dead_letter f now) (fun _ s' => broker_wf n s') s.
Proof.
  intros Hs. unfold wp, resume_dead_letter, modify. destruct (subscriptions s !! _) as [sub|] eqn:Hk; [|done].
  eapply evolve_subscription; [done|exact Hk|]. destruct (subscription_of n s _ sub Hs Hk) as [Hw Hv]. by apply evolves_resume.
Qed.

(** What a transfer leaves of the messages that its source has not acknowledged. *)
Definition still_owed (sub sub' : SubscriptionState) : Prop :=
  map stored (filter unacked (entries sub')) = map stored (filter unacked (entries sub)).

Definition settled (id : text) (sub sub' : SubscriptionState) : Prop :=
  still_owed sub sub' \/
  exists l m l', map stored (filter unacked (entries sub)) = l ++ m :: l' /\ message_id (value m) = id /\
    map stored (filter unacked (entries sub')) = l ++ l'.

Lemma relabel_owed (f : Entry -> Entry) es : (forall e, stored (f e) = stored e /\ is_acked (state (f e)) = is_acked (state e)) ->
  map stored (filter unacked (map f es)) = map stored (filter unacked es).
Proof.
  intros Hf. induction es as [|e es IH]; [done|]. rewrite map_cons, !filter_cons. destruct (Hf e) as [Hs Ha].
  assert (Hiff : unacked (f e) <-> unacked e) by (unfold unacked; by rewrite Ha). destruct (decide (unacked e)) as [He|He]; [rewrite decide_True by tauto|by rewrite decide_False by tauto].
  rewrite !map_cons. by rewrite IH, Hs.
Qed.

Lemma resume_owed sub m now : still_owed sub (resume_forward sub m now).
Proof.
  apply relabel_owed. intros e. destruct (is_forward_pending (state e)) eqn:Hp; cbn [andb]; [|done]. destruct (ptr_eq _ _); [|done]. by destruct (state e).
Qed.

Lemma complete_settles sub id : settled id sub (complete_forward sub id).2.
Proof.
  unfold complete_forward. destruct (list_find _ _) as [[i e]|] eqn:Hf; [|by left]. right. cbn.
  apply list_find_Some in Hf as (Hi & [Hid Hp] & _). unfold advance_first_unacked. cbn.
  apply list_elem_of_split_length in Hi as (l & l' & -> & ->). rewrite insert_app_r_alt, Nat.sub_diag by done. cbn [list_insert insert].
  exists (map stored (filter unacked l)), (stored e), (map stored (filter unacked l')). rewrite !filter_app, !filter_cons.
  rewrite decide_True by (unfold unacked; by destruct (state e)). rewrite decide_False by (unfold unacked; cbn; congruence). by rewrite !map_app.
Qed.

(** What a transfer publishes: the message with its data, its ordering key and its attributes, those under the keys that
    name the source apart. *)
Definition transferred (f : DeadLetterForward) (m : PubsubMessage) : Prop :=
  data m = data (message (value (forward_message f))) /\ ordering_key m = ordering_key (message (value (forward_message f))) /\
  forall k, starts_with (chars "CloudPubSubDeadLetterSource") k = false -> attributes m !! k = attributes (message (value (forward_message f))) !! k.

Lemma source_attributes_keep f attempt rfc3339 attrs k : starts_with (chars "CloudPubSubDeadLetterSource") k = false ->
  source_attributes f attempt rfc3339 attrs !! k = attrs !! k.
Proof.
  intros Hs. unfold source_attributes.
  assert (Hne : forall suffix, k <> chars "CloudPubSubDeadLetterSource" ++ suffix).
  { intros suffix ->. unfold starts_with in Hs. apply bool_decide_eq_false in Hs. apply Hs. by exists suffix. }
  rewrite !lookup_insert_ne; [done|..]; intros <-.
  - by apply (Hne (chars "Subscription")).
  - by apply (Hne (chars "SubscriptionProject")).
  - by apply (Hne (chars "DeliveryCount")).
  - by apply (Hne (chars "TopicPublishTime")).
Qed.

Lemma owed_all s : forall k, option_Forall2 still_owed (subscriptions s !! k) (subscriptions s !! k).
Proof. intros k. by destruct (subscriptions s !! k); constructor. Qed.

Lemma registry_owed s s' : registry s' = registry s -> forall k, option_Forall2 still_owed (subscriptions s !! k) (subscriptions s' !! k).
Proof. unfold registry. intros [= _ -> _ _ _ _ _ _ _ _]. apply owed_all. Qed.

Lemma resume_owed_all f now s : wp (resume_dead_letter f now) (fun _ s' => forall k, option_Forall2 still_owed (subscriptions s !! k) (subscriptions s' !! k)) s.
Proof.
  unfold wp, resume_dead_letter, modify. destruct (subscriptions s !! _) as [sub|] eqn:Hk; [|apply owed_all]. intros k. cbn.
  destruct (decide (k = subscription_to_full (source_subscription f))) as [->|]; [|rewrite lookup_insert_ne by done; apply owed_all].
  rewrite lookup_insert_eq, Hk. constructor. apply resume_owed.
Qed.

(** What preparing a transfer gives. *)
Definition prepared_transfer (f : DeadLetterForward) (now : LogicalInstant) (s : PubSubState) (p : PreparedPublication) (s' : PubSubState) : Prop :=
  can_commit_dead_letter s f = true /\ registry s' = registry s /\ prepared_ok p /\ fresh_publication p s' /\
  topic_key p = topic_to_full (forward_topic f) /\ Forall (fun m => publish_time (value m) = now) (published p) /\
  exists m, transferred f m /\ map (fun x => message (value x)) (published p) = [m].

Lemma prepare_dead_letter_spec n f now s : broker_wf n s ->
  wp (prepare_dead_letter_publication f now) (fun r s' => broker_wf n s' /\
    match r with
    | Ok p => prepared_transfer f now s p s'
    | Err _ => forall k, option_Forall2 still_owed (subscriptions s !! k) (subscriptions s' !! k)
    end) s.
Proof.
  intros Hs. unfold prepare_dead_letter_publication. apply wp_gets. destruct (can_commit_dead_letter s f) eqn:Hcan; cbn [negb].
  2: { apply wp_bind. eapply wp_mono; [|apply wp_and; [by apply (resume_wf n)|apply resume_owed_all]]. intros [[]|e] s' Hs'; exact Hs'. }
  assert (Hstay : broker_wf n s /\ forall k, option_Forall2 still_owed (subscriptions s !! k) (subscriptions s !! k)) by (split; [done|apply owed_all]).
  assert (Hgo : forall m, transferred f m -> wp (prepare_publish (forward_topic f) [m] now) (fun r s' => broker_wf n s' /\
    match r with Ok p => prepared_transfer f now s p s' | Err _ => forall k, option_Forall2 still_owed (subscriptions s !! k) (subscriptions s' !! k) end) s).
  { intros m Hm. unfold prepare_publish. eapply wp_mono; [|by apply (prepare_spec n)]. intros r s' (Hw & Hr & Hp). split; [done|].
    destruct r as [p|e]; [|by apply registry_owed]. destruct (Hp p eq_refl) as (Hok & Hf & Hk & []). split_and!; try done. by exists m. }
  cbv zeta. apply wp_gets, wp_bind. destruct (enforce_dead_letter_iam s).
  - apply wp_gets. wp_step_with ltac:(exact Hstay). destruct (to_rfc3339 _) as [t|e]; [|exact Hstay]. apply Hgo. split_and!; try done.
    intros k Hst. by apply source_attributes_keep.
  - apply Hgo. done.
Qed.

Lemma complete_settled source id s : wp (complete_dead_letter source id) (fun _ s' => forall k, option_Forall2 (fun sub sub' =>
  if decide (k = subscription_to_full source) then settled id sub sub' else sub' = sub) (subscriptions s !! k) (subscriptions s' !! k)) s.
Proof.
  unfold wp, complete_dead_letter, sub_mut, on_subscription. destruct (subscriptions s !! _) as [sub|] eqn:Hsub.
  - pose proof (complete_settles sub id) as Hset. destruct (complete_forward sub id) as [b sub']. cbn. intros k.
    destruct (decide (k = subscription_to_full source)) as [->|]; [rewrite lookup_insert_eq, Hsub; by constructor|].
    rewrite lookup_insert_ne by done. destruct (subscriptions s !! k); by constructor.
  - intros k. destruct (decide (k = subscription_to_full source)) as [->|]; [rewrite Hsub; constructor|]. destruct (subscriptions s !! k); by constructor.
Qed.

Lemma complete_wf n source id s : broker_wf n s -> wp (complete_dead_letter source id) (fun _ s' => broker_wf n s') s.
Proof.
  apply sub_mut_wf. intros sub Hw Hv. pose proof (evolves_complete sub id Hw Hv) as He. destruct (complete_forward sub id) as [b sub'].
  eexists _, _. split; [done|exact He].
Qed.

Lemma forward_wf n now f s : broker_wf n s -> wp (forward_now now f) (fun _ s' => broker_wf n s') s.
Proof.
  intros Hs. unfold forward_now. apply wp_bind, wp_attempt. eapply wp_mono; [|by apply (prepare_dead_letter_spec n)].
  intros [p|e] s1 [Hw Hp]; [|done]. destruct Hp as (_ & _ & Hok & _). apply wp_bind, wp_attempt. eapply wp_mono; [|by apply (commit_wf n)].
  intros [ms|e] s2 Hw2; [|done]. apply wp_bind, wp_attempt. eapply wp_mono; [|by apply (complete_wf n)]. intros r s3 Hw3. done.
Qed.

(** ** Pulls *)

(** A pull may draw as many identifiers as a log has entries. *)
Definition after_pull (n : Ghost) : Ghost := {| draws := draws n + MAX_RETAINED_PER_SUB; retired := retired n |}.

Lemma fresh_from_leases n s sub k drawn : broker_wf n s -> subscriptions s !! k = Some sub ->
  is_u64 (seed s) -> ack_rng s = rng_after drawn (splitmix_new (ack_seed (seed s))) ->
  (forall id, leased_ids sub id -> drawn_ids s drawn id) -> Z.of_nat drawn + MAX_RETAINED_PER_SUB <= 2 ^ 64 ->
  fresh_ids (length (entries sub)) (next_ack_id (ack_rng s)) sub.
Proof.
  intros Hs Hk Hu Hrng Hl Hd. destruct (subscription_of n s k sub Hs Hk) as [[[_ _ _ _ Hlen _] _] _].
  assert (Hinj : forall a b, Z.of_nat a < 2 ^ 64 -> Z.of_nat b < 2 ^ 64 ->
    next_ack_id (splitmix_new (ack_seed (seed s))) a = next_ack_id (splitmix_new (ack_seed (seed s))) b -> a = b).
  { intros a b. assert (Hack : is_u64 (ack_seed (seed s))) by (apply lxor_u64; [done|unfold is_u64; lia]).
    rewrite <- (wrap64_id _ Hack). apply next_ack_id_inj. }
  rewrite Hrng. split.
  - intros a b Ha Hb. rewrite !next_ack_id_shift. intros Heq%Hinj; lia.
  - intros a Ha. destruct (outstanding sub !! next_ack_id _ a) as [i|] eqn:Hi; [|done]. exfalso.
    destruct (Hl (next_ack_id (rng_after drawn (splitmix_new (ack_seed (seed s)))) a)) as (b & Hb & Heq); [by eexists|].
    rewrite next_ack_id_shift in Heq. apply Hinj in Heq; lia.
Qed.

Lemma expire_method_wf n name now s : broker_wf n s ->
  wp (sub_mut name (fun sub => sub ← expire_deadlines sub now; Some (Ok tt, sub))) (fun _ s' => broker_wf n s') s.
Proof. apply sub_mut_wf. intros sub Hw Hv. destruct (evolves_expire sub now Hw Hv) as (sub' & -> & He). by eexists _, _. Qed.

(** The state after a pull of one subscription. *)
Lemma pulled_wf n s key sub sub' out drawn : broker_wf n s -> subscriptions s !! key = Some sub -> keeps sub sub' ->
  ack_rng s = rng_after drawn (splitmix_new (ack_seed (seed s))) -> Z.of_nat drawn <= draws n ->
  (forall k x id, subscriptions s !! k = Some x -> leased_ids x id -> drawn_ids s drawn id) ->
  Z.of_nat (length (received out)) <= MAX_RETAINED_PER_SUB ->
  (forall id, leased_ids sub' id -> leased_ids sub id \/ exists a, (a < length (received out))%nat /\ id = next_ack_id (ack_rng s) a) ->
  broker_wf (after_pull n) (with_ack_rng (rng_after (length (received out)) (ack_rng s)) (with_subscriptions (<[key := sub']> (subscriptions s)) s)).
Proof.
  intros Hs Hk Hkeep Hrng Hd Hl Hlen Hnew. pose proof Hs as [Hr [Hu _] [] Hmc].
  assert (Hr' : registry_wf n (with_subscriptions (<[key := sub']> (subscriptions s)) s)).
  { apply keep_registry; [|done]. intros k. destruct (decide (key = k)) as [<-|Hne]; [rewrite lookup_insert_eq, Hk; by constructor|].
    rewrite lookup_insert_ne by done. destruct (subscriptions s !! k) as [x|] eqn:Hx; constructor. apply evolves_keeps.
    destruct (subscription_of n s k x Hs Hx). by apply evolves_refl. }
  split; [by destruct Hr'|split; [done|]|done|done]. exists (drawn + length (received out))%nat. cbn. split; [lia|]. split; [by rewrite Hrng, rng_after_add|].
  assert (Hup : forall a id, drawn_ids s a id -> forall b, (a <= b)%nat -> drawn_ids s b id) by (intros a id (c & Hc & ->) b Hb; exists c; split; [lia|done]).
  intros k x id Hx Hid. change (drawn_ids s (drawn + length (received out)) id). apply lookup_insert_Some in Hx as [[<- <-]|[_ Hx]].
  - destruct (Hnew id Hid) as [Hold|(a & Ha & ->)].
    + eapply Hup; [by eapply Hl|lia].
    + exists (drawn + a)%nat. split; [lia|]. by rewrite Hrng, next_ack_id_shift.
  - eapply Hup; [by eapply Hl|lia].
Qed.

Lemma pull_admitted_spec n name max now batching admission s : draws n + MAX_RETAINED_PER_SUB <= 2 ^ 64 -> broker_wf n s ->
  wp (pull_with_dead_letters_admitted name max now batching admission) (fun _ s' => broker_wf (after_pull n) s') s.
Proof.
  intros Hroom Hs. assert (Hmore : forall s', broker_wf n s' -> broker_wf (after_pull n) s') by (intros s'; apply leases_more; [cbn; unfold MAX_RETAINED_PER_SUB; lia|done]).
  unfold pull_with_dead_letters_admitted. wp_step_with ltac:(by apply Hmore). wp_step_with ltac:(by apply Hmore).
  apply negb_false_iff, contains_key_true in H0. apply wp_bind. eapply wp_trace; [by apply (expire_method_wf n)|].
  intros [[]|e] s1 Hrun Hs1; [|by apply Hmore]. apply wp_gets, wp_gets, wp_gets.
  assert (Hsub : is_Some (subscriptions s1 !! subscription_to_full name)).
  { destruct H0 as [sub Hk]. unfold sub_mut, on_subscription in Hrun. rewrite Hk in Hrun. destruct (expire_deadlines sub now); [|done].
    injection Hrun as <-. cbn. by rewrite lookup_insert_eq. }
  destruct Hsub as [sub Hk]. eapply wp_expect; [exact Hk|]. pose proof Hs1 as [_ [Hu (drawn & Hd & Hrng & Hl)] _ _].
  destruct (subscription_of n s1 _ sub Hs1 Hk) as [Hw Hv]. set (authorized := match _ with Some sub => _ | None => false end).
  destruct (pull_leases sub max now authorized batching (next_ack_id (ack_rng s1)) admission Hw Hv) as (out & sub' & Hp & Hw' & Hc & Hlen & Hids).
  { eapply fresh_from_leases; try done; [|lia]. intros id. by eapply Hl. }
  eapply wp_expect; [exact Hp|]. apply wp_modify, wp_modify. unfold wp, p_ret. apply (pulled_wf n s1 _ sub sub' out drawn); try done.
  - split; rewrite ?Hc; done.
  - destruct Hw as [[_ _ _ _ Hmax _] _]. lia.
Qed.

Lemma pull_wf n name max now s : draws n + MAX_RETAINED_PER_SUB <= 2 ^ 64 -> broker_wf n s ->
  wp (state_pull name max now) (fun _ s' => broker_wf (after_pull n) s') s.
Proof.
  intros Hroom Hs. unfold state_pull, pull_with_dead_letters, pull_with_dead_letters_batching. apply wp_bind.
  eapply wp_mono; [|by apply (pull_admitted_spec n)]. intros [out|e] s1 Hs1; [|done]. apply wp_bind.
  eapply wp_mono; [|apply (wp_each _ _ (broker_wf (after_pull n))); [intros f s2 _ Hs2; by apply forward_wf|exact Hs1]]. intros [[]|e] s2 Hs2; done.
Qed.

(** ** Leases *)

Lemma acknowledge_state_wf n name ids s : broker_wf n s -> wp (state_acknowledge name ids) (fun _ s' => broker_wf n s') s.
Proof. apply sub_mut_wf. intros sub Hw Hv. destruct (evolves_acknowledge sub ids Hw Hv) as (k & sub' & -> & He). by eexists _, _. Qed.

Lemma retain_ids_state_wf n name ids now s : broker_wf n s -> wp (state_retain_outstanding_ack_ids name ids now) (fun _ s' => broker_wf n s') s.
Proof.
  apply sub_mut_wf. intros sub Hw Hv. destruct (evolves_expire sub now Hw Hv) as (sub' & Hx & He). unfold retain_outstanding_ack_ids. rewrite Hx. by eexists _, _.
Qed.

Lemma modify_state_wf n name ids seconds now s : broker_wf n s -> wp (state_modify_ack_deadline name ids seconds now) (fun _ s' => broker_wf n s') s.
Proof.
  apply sub_mut_wf. intros sub Hw Hv.
  destruct (each_total (evolves sub) (fun sub id => modify_ack_deadline sub id seconds now)) with (l := ids) (s := sub) as (sub' & -> & He).
  - intros x id Hx. destruct (evolves_modify x id seconds now) as (x' & Hm & He); [apply Hx|apply Hx|]. exists x'. split; [done|]. by eapply evolves_trans.
  - by apply evolves_refl.
  - by eexists _, _.
Qed.

Lemma seek_time_state_wf n name time now s : broker_wf n s -> wp (state_seek_to_time name time now) (fun _ s' => broker_wf n s') s.
Proof.
  apply sub_mut_wf. intros sub Hw Hv. pose proof (evolves_seek_time sub time now Hw Hv) as He. destruct (seek_to_time sub time now) as [r sub'].
  by eexists _, _.
Qed.

Lemma expire_entries now (l : list (text * SubscriptionState)) : forall (m m0 : gmap text SubscriptionState), NoDup l.*1 ->
  (forall k sub, (k, sub) ∈ l -> m0 !! k = Some sub /\ m !! k = Some sub) -> (forall k sub, m0 !! k = Some sub -> entry_wf k sub) -> evolves_all m0 m ->
  exists m', each (expire_entry now) l m = Some m' /\ evolves_all m0 m'.
Proof.
  induction l as [|[k sub] l IH]; intros m m0 Hnd Hl Hwf Hm; [by exists m|]. cbn [each]. destruct (Hl k sub) as [Hk0 Hk]; [by left|].
  destruct (Hwf k sub Hk0) as [_ _ _ Hw Hv]. destruct (evolves_expire sub now Hw Hv) as (sub' & Hx & He).
  assert (Hone : expire_entry now m (k, sub) = Some (<[k := sub']> m)) by (unfold expire_entry; cbn; by rewrite Hx). rewrite Hone. cbn.
  cbn in Hnd. apply NoDup_cons in Hnd as [Hnin Hnd]. apply IH; [done| |done|].
  - intros k' x Hin. destruct (Hl k' x) as [? ?]; [by right|]. split; [done|]. rewrite lookup_insert_ne; [done|]. intros ->.
    apply Hnin, list_elem_of_fmap. by exists (k', x).
  - by eapply evolves_all_insert.
Qed.

Lemma expire_all_wf n now s : broker_wf n s -> wp (expire_all now) (fun _ s' => broker_wf n s') s.
Proof.
  intros Hs. unfold expire_all. apply wp_modify. pose proof (remove_expired_wf n now s Hs) as H1. set (s1 := remove_expired_snapshots now s) in *.
  apply wp_gets. destruct (expire_entries now (btree_map_iter (subscriptions s1)) (subscriptions s1) (subscriptions s1)) as (m' & Hm & He).
  - rewrite btree_map_iter_keys. apply NoDup_btree_iter.
  - intros k sub Hin%elem_of_btree_map_iter. done.
  - apply H1.
  - apply evolves_all_refl, H1.
  - eapply wp_expect; [exact Hm|]. by apply evolve_subscriptions.
Qed.

(** ** Resets *)

Lemma clear_wf n s : 0 <= draws n -> broker_wf n s -> wp clear (fun _ s' => broker_wf n s') s.
Proof.
  intros Hn [[] [Hu _] [] Hmc]. unfold wp, clear, modify. split; [split| |split|]; cbn; try done.
  - intros k. rewrite !lookup_empty. by split; [intros [? ?]|intros [[? ?]|[? ?]]].
  - split; [apply rw_retired|done].
  - split; [done|]. exists 0%nat. split; [done|]. split; [done|]. intros k sub id Hk. cbn in Hk. by rewrite lookup_empty in Hk.
  - intros t i k. rewrite lookup_empty. cbn. split; [by intros ?%not_elem_of_empty|]. by intros (sn & ? & _).
Qed.

Lemma clear_project_wf n project s : broker_wf n s -> wp (clear_project project) (fun _ s' => broker_wf n s') s.
Proof.
  intros Hs. unfold clear_project. apply wp_modify. pose proof (forget_contexts_wf n (chars "projects/" ++ project ++ chars "/") s Hs) as H1.
  apply wp_gets, wp_bind. eapply wp_mono; [|apply (wp_each _ _ (broker_wf n)); [|exact H1]].
  2: { intros name s1 _ Hs1. apply wp_bind, wp_attempt. eapply wp_mono; [|by apply delete_subscription_wf]. by intros r s2. }
  intros [[]|e] s1 Hs1; [|done]. apply wp_gets, wp_bind. eapply wp_mono; [|apply (wp_each _ _ (broker_wf n)); [|exact Hs1]].
  2: { intros name s2 _ Hs2. apply wp_bind, wp_attempt. eapply wp_mono; [|by apply delete_topic_wf]. by intros r s3. }
  intros [[]|e] s2 Hs2; [|done]. apply wp_gets. by apply remove_snapshots_broker.
Qed.

Lemma clear_projects_wf n matches s : broker_wf n s -> wp (clear_projects_where matches) (fun _ s' => broker_wf n s') s.
Proof. intros Hs. unfold clear_projects_where. apply wp_gets, (wp_each _ _ (broker_wf n)); [intros p s' _; apply clear_project_wf|done]. Qed.
End dispatch.
