(* ===== verification/PsBroker.v ===== *)
(** * The Pub/Sub broker

    The operations of the registry as steps, and the properties of the broker: it never
    panics, publications are atomic and exact, a prepared publication does not outlive its
    topic, and dead letters are not lost. *)
From S2P Require Import Prelude Time Rfc3339 Text Determinism MessageId PsName PsFilter PsMessage PsSubscription PsPull PsLog PsDelivery PsIam PsPagination PsState PsSnapshot PsPublish PsRegistry PsInvariant PsCommit PsDispatch.

Section broker.
Context `{Memory}.

(** ** Steps *)

(** The operations, with the acknowledgement ids they may draw.  Names come from their parsers,
    prepared publications from the registry. *)
Inductive operation : Z -> forall {A}, B A -> Prop :=
| op_project_numbers numbers : operation 0 (set_project_numbers numbers)
| op_enforcement enforce : operation 0 (set_dead_letter_iam_enforcement enforce)
| op_grants required : operation 0 (set_dead_letter_grants_required required)
| op_interval interval : operation 0 (set_state_push_minimum_interval interval)
| op_policy resource expected v bs : operation 0 (set_resource_policy resource expected v bs)
| op_page T context (rs : list T) size token policy name : Z.of_nat (length rs) <= int_max usize ->
    operation 0 (state_paginate context rs size token policy name)
| op_clear : operation 0 clear
| op_clear_project project : operation 0 (clear_project project)
| op_clear_projects matches : operation 0 (clear_projects_where matches)
| op_create_topic name labels retention : topic_ok name -> operation 0 (create_topic_with_retention name labels retention)
| op_topic_labels name labels strict : operation 0 (update_topic_labels name labels strict)
| op_delete_topic name : operation 0 (delete_topic name)
| op_create_subscription c : sub_name_ok (name c) -> topic_ok (config_topic c) -> operation 0 (create_subscription c)
| op_mark_function name : operation 0 (mark_function_subscription name)
| op_delete_subscription name : operation 0 (delete_subscription name)
| op_ack_deadline name seconds : operation 0 (update_ack_deadline name seconds)
| op_push_config name push : operation 0 (update_push_config name push)
| op_configuration name update strict : operation 0 (update_subscription_configuration name update strict)
| op_create_snapshot requested name labels now : operation 0 (create_snapshot requested name labels now)
| op_get_snapshot name now : operation 0 (get_snapshot name now)
| op_list_snapshots project now : operation 0 (list_snapshots project now)
| op_topic_snapshots topic now : operation 0 (list_topic_snapshots topic now)
| op_update_snapshot name labels now : operation 0 (update_snapshot name labels now)
| op_delete_snapshot name now : operation 0 (delete_snapshot name now)
| op_seek_snapshot name snapshot now : operation 0 (state_seek_to_snapshot name snapshot now)
| op_seek_time name time now : operation 0 (state_seek_to_time name time now)
| op_prepare topic messages now : operation 0 (prepare_publish topic messages now)
| op_prepare_ids topic messages now : operation 0 (prepare_publish_with_message_ids topic messages now)
| op_commit p now : prepared_ok p -> operation 0 (commit_prepared p now)
| op_publish topic messages now : operation 0 (publish topic messages now)
| op_publish_ids topic messages now : operation 0 (publish_with_message_ids topic messages now)
| op_prepare_dead_letter f now : operation 0 (prepare_dead_letter_publication f now)
| op_resume_dead_letter f now : operation 0 (resume_dead_letter f now)
| op_complete_dead_letter source id : operation 0 (complete_dead_letter source id)
| op_pull_admitted name max now batching admission :
    operation MAX_RETAINED_PER_SUB (pull_with_dead_letters_admitted name max now batching admission)
| op_pull name max now : operation MAX_RETAINED_PER_SUB (state_pull name max now)
| op_acknowledge name ids : operation 0 (state_acknowledge name ids)
| op_retain_ids name ids now : operation 0 (state_retain_outstanding_ack_ids name ids now)
| op_modify name ids seconds now : operation 0 (state_modify_ack_deadline name ids seconds now)
| op_expire_all now : operation 0 (expire_all now).

(** [runs d s d' s']: operations lead from [s] to [s'], the identifiers drawn from [d] to at
    most [d'], which stays below the period of the generator. *)
Inductive runs (d : Z) (s : PubSubState) : Z -> PubSubState -> Prop :=
| runs_none : runs d s d s
| runs_next d1 s1 cost A (m : B A) r s2 : runs d s d1 s1 -> operation cost m -> captured_fit s1 -> d1 + cost <= 2 ^ 64 ->
    m s1 = Some (r, s2) -> runs d s (d1 + cost) s2.

Definition broker_reachable (d : Z) (s : PubSubState) : Prop := exists seed, is_u64 seed /\ runs 0 (state_new seed) d s.

(** No topic instance is gone yet. *)
Definition ghost (d : Z) : Ghost := {| draws := d; retired := ([], 0) |}.

Lemma state_new_wf seed : is_u64 seed -> broker_wf (ghost 0) (state_new seed).
Proof.
  intros Hu. split; [split| |split|]; cbn; try done.
  - intros k. rewrite !lookup_empty. by split; [intros [? ?]|intros [[? ?]|[? ?]]].
  - split; [done|]. exists 0%nat. split; [done|]. split; [done|]. intros k sub id Hk. cbn in Hk. by rewrite lookup_empty in Hk.
  - intros t i k. rewrite lookup_empty. cbn. split; [by intros ?%not_elem_of_empty|]. by intros (sn & ? & _).
Qed.

Definition spend (cost : Z) (n : Ghost) : Ghost := {| draws := draws n + cost; retired := retired n |}.

Lemma spend_nothing n s : broker_wf n s -> broker_wf (spend 0 n) s.
Proof. apply leases_more; [cbn; lia|done]. Qed.

Lemma frame_op n (f : PubSubState -> PubSubState) s : registry (f s) = registry s -> shelf (f s) = shelf s -> broker_wf n s ->
  wp (modify f : B unit) (fun _ s' => broker_wf (spend 0 n) s') s.
Proof. intros Hr Hs Hw. apply spend_nothing. by eapply both_frame. Qed.

Lemma quiet {A} n (m : B A) s : wp m (fun _ s' => broker_wf n s') s -> wp m (fun _ s' => broker_wf (spend 0 n) s') s.
Proof. apply wp_mono. intros r s'. apply spend_nothing. Qed.

(** Every operation keeps the invariant, and none panics. *)
Lemma operation_wf n cost {A} (m : B A) s : operation cost m -> broker_wf n s -> captured_fit s -> 0 <= draws n -> draws n + cost <= 2 ^ 64 ->
  wp m (fun _ s' => broker_wf (spend cost n) s') s.
Proof.
  intros Hop Hs Hfit Hd Hroom. destruct Hop; try (by apply frame_op); try (apply quiet).
  - by apply set_project_numbers_wf.
  - by apply set_push_interval_wf.
  - by apply set_resource_policy_wf.
  - by apply state_paginate_wf.
  - by apply clear_wf.
  - by apply clear_project_wf.
  - by apply clear_projects_wf.
  - by apply create_topic_wf.
  - by apply update_topic_labels_wf.
  - by apply delete_topic_wf.
  - by apply create_subscription_wf.
  - by apply mark_function_wf.
  - by apply delete_subscription_wf.
  - by apply update_ack_deadline_wf.
  - by apply update_push_config_wf.
  - by apply update_configuration_wf.
  - by apply create_snapshot_wf.
  - by apply (get_snapshot_wp n).
  - by apply list_snapshots_wf.
  - by apply list_topic_snapshots_wf.
  - by apply update_snapshot_wf.
  - by apply delete_snapshot_wf.
  - by apply state_seek_to_snapshot_wf.
  - by apply seek_time_state_wf.
  - eapply wp_mono; [|by apply (prepare_spec n)]. by intros r s' [? _].
  - eapply wp_mono; [|by apply (prepare_with_ids_spec n)]. by intros r s' [? _].
  - by apply commit_wf.
  - eapply wp_mono; [|by apply (publish_outcome n)]. by intros r s' [? _].
  - by apply publish_with_ids_wf.
  - eapply wp_mono; [|by apply (prepare_dead_letter_spec n)]. by intros r s' [? _].
  - by apply resume_wf.
  - by apply complete_wf.
  - by apply pull_admitted_spec.
  - by apply pull_wf.
  - by apply acknowledge_state_wf.
  - by apply retain_ids_state_wf.
  - by apply modify_state_wf.
  - by apply expire_all_wf.
Qed.

Lemma operation_cost cost {A} (m : B A) : operation cost m -> 0 <= cost.
Proof. intros []; done. Qed.

Lemma runs_wf d s d' s' g : runs d s d' s' -> 0 <= d -> broker_wf {| draws := d; retired := g |} s ->
  broker_wf {| draws := d'; retired := g |} s' /\ d <= d'.
Proof.
  intros Hr Hd Hs. induction Hr as [|d1 s1 cost A m r s2 _ [IH Hle] Hop Hfit Hroom Hm]; [done|].
  pose proof (operation_cost _ _ Hop) as Hcost.
  pose proof (operation_wf {| draws := d1; retired := g |} cost m s1 Hop IH Hfit ltac:(cbn; lia) Hroom) as Hw. unfold wp in Hw. rewrite Hm in Hw.
  split; [exact Hw|lia].
Qed.

Lemma reachable_broker_wf d s : broker_reachable d s -> broker_wf (ghost d) s /\ 0 <= d.
Proof. intros (seed & Hu & Hr). pose proof (runs_wf _ _ _ _ _ Hr ltac:(done) (state_new_wf seed Hu)). done. Qed.

(** ** Properties *)

(** C9. The broker never panics: in every state that operations lead to, in any order and with any arguments, the
    registry, its leases and its snapshots are well formed, and every operation returns; the capacity check of a
    publication covers every enqueue, an active snapshot is never missing from its index, and an acknowledgement id
    is never drawn twice before the generator's period ends. *)
Theorem broker_never_panics d s : broker_reachable d s ->
  broker_wf (ghost d) s /\
  forall cost A (m : B A), operation cost m -> captured_fit s -> d + cost <= 2 ^ 64 -> is_Some (m s).
Proof.
  intros [Hs Hd]%reachable_broker_wf. split; [done|]. intros cost A m Hop Hfit Hroom.
  pose proof (operation_wf (ghost d) cost m s Hop Hs Hfit Hd Hroom) as Hw. unfold wp in Hw. by destruct (m s).
Qed.

(** What a publication of [ms] leaves of the subscriptions. *)
Definition delivered_to (t : text) (now : LogicalInstant) (ms : list Shared) (s s' : PubSubState) : Prop :=
  forall k sub, subscriptions s !! k = Some sub -> exists sub', subscriptions s' !! k = Some sub' /\ config sub' = config sub /\
    (attached s t k -> (k ∉ function_subscriptions s) ->
       filter unacked (entries sub') = filter unacked (entries sub) ++ map (new_entry now) (admitted_by sub ms)) /\
    (~ attached s t k \/ (k ∈ function_subscriptions s) -> sub' = sub).

Lemma committed_delivers p now t s s' : topic_key p = t -> Forall (fun m => publish_time (value m) = now) (published p) ->
  committed p now s s' -> delivered_to t now (published p) s s'.
Proof.
  intros <- Ht [_ _ _ Hsubs _] k sub Hk. assert (Htime : match published p with m :: _ => publish_time (value m) | [] => now end = now).
  { destruct (published p); [done|]. by apply Forall_cons in Ht as [? _]. }
  rewrite Htime in Hsubs. specialize (Hsubs k). rewrite Hk in Hsubs. unfold attached.
  destruct (decide (k ∈ btree_iter _ /\ _)) as [[Hin Hf]|Hn].
  - apply elem_of_btree_iter in Hin. inversion Hsubs as [x y [_ Hc Hl]|]; subst. eexists. split_and!; [done..|]. by intros [Hno|Hno].
  - exists sub. rewrite elem_of_btree_iter in Hn. split_and!; try done. intros ? ?. by destruct Hn.
Qed.

Lemma delivered_registry t now ms s s1 s' : registry s1 = registry s -> delivered_to t now ms s1 s' -> delivered_to t now ms s s'.
Proof.
  unfold registry, delivered_to, attached. intros [= Ht1 Hs1 Hts1 Hf1 _ _ _ _ _ _] Hd. by rewrite Hs1, Hts1, Hf1 in Hd.
Qed.

(** C10. Publishing is atomic and exact: it fails and publishes nothing, or it succeeds for every subscription of the
    topic at once.  A subscription that a function owns retains nothing, as the function gets the messages from the
    publication itself: it is left untouched.  Every other subscription of the topic gets exactly the messages its filter
    admits, in order, after what it had not acknowledged; those of other topics are untouched; and the identifiers are the
    next ones of the numbering. *)
Theorem publish_exact d s t messages now : broker_reachable d s -> exists r s',
  publish t messages now s = Some (r, s') /\
  match r with
  | Err _ => registry s' = registry s
  | Ok ids =>
      ids = map (fun i => chars (pubsub_message_id i)) (seqZ (message_counter s + 1) (Z.of_nat (length messages))) /\
      message_counter s' = message_counter s + Z.of_nat (length messages) /\
      exists ms, map (fun m => message (value m)) ms = messages /\ map (fun m => message_id (value m)) ms = ids /\
        Forall (fun m => publish_time (value m) = now) ms /\ delivered_to (topic_to_full t) now ms s s'
  end.
Proof.
  intros [Hs _]%reachable_broker_wf. pose proof (publish_outcome (ghost d) t messages now s Hs) as (r & s' & Hp & _ & Hcase)%wp_run.
  exists r, s'. split; [done|]. destruct r as [ids|e]; [|done]. destruct Hcase as (p & s1 & Hreg & Hcom & Hkey & [Hm Ht _ _ Ho] & ->).
  destruct Ho as [Hc Hids]; [by apply Forall_map, Forall_true|]. rewrite length_map in Hc, Hids.
  split; [done|]. split; [rewrite (cm_counter _ _ _ _ Hcom); done|]. exists (published p). split_and!; try done.
  - rewrite Hm, map_map. apply map_id.
  - eapply delivered_registry; [done|]. by eapply committed_delivers.
Qed.

(** C11. A prepared publication commits exactly while it is current, and a refused commit changes nothing.  Once the
    topic instance it was prepared for is gone, it is refused for ever, whatever the operations between, a reset of
    the counters and a topic of the same name included. *)
Theorem stale_publication_refused d s p now : broker_reachable d s -> prepared_ok p ->
  (exists r s', commit_prepared p now s = Some (r, s') /\ (is_ok r = true <-> fresh_publication p s) /\ (is_ok r = false -> s' = s)) /\
  (prepared_incarnation p <= topic_counter s ->
   (forall t, topics s !! topic_key p = Some t -> incarnation_of t <> prepared_incarnation p) ->
   forall d' s', runs d s d' s' -> exists e, commit_prepared p now s' = Some (Err e, s')).
Proof.
  intros Hr Hp. pose proof (reachable_broker_wf d s Hr) as [Hs Hd].
  assert (Hspec : forall n s, broker_wf n s -> exists r s', commit_prepared p now s = Some (r, s') /\
    (is_ok r = true <-> fresh_publication p s) /\ (is_ok r = false -> s' = s)).
  { intros n x Hx. pose proof (commit_spec n p now x Hp Hx) as (r & s' & Hc & _ & Hcase)%wp_run. exists r, s'. split; [done|].
    destruct r as [ms|e]; cbn; [destruct Hcase as (_ & Hf & _)|destruct Hcase as [-> Hf]]; split; done. }
  split; [by eapply Hspec|]. intros Hinc Hgone d' s' Hruns.
  assert (Hg : broker_wf {| draws := d; retired := (topic_key p, prepared_incarnation p) |} s).
  { destruct Hs as [Hreg Hl Hsn Hm]. split; try done. destruct Hreg. by split. }
  destruct (runs_wf _ _ _ _ _ Hruns Hd Hg) as [Hs' _]. destruct (Hspec _ s' Hs') as (r & s2 & Hc & Hok & Herr).
  assert (Hnot : ~ fresh_publication p s').
  { intros (t & Ht & Hi & _). by apply (proj2 (rw_retired _ _ (bw_registry _ _ Hs')) t). }
  destruct r as [ms|e]; [by destruct Hnot; apply Hok|]. exists e. by rewrite <- (Herr eq_refl) at 2.
Qed.

(** The transfer of [f] as a publication of [m] that its source subscription then settles. *)
Definition forwarded (f : DeadLetterForward) (now : LogicalInstant) (m : PubsubMessage) (s s' : PubSubState) : Prop :=
  exists ms s1, transferred f m /\ map (fun x => message (value x)) ms = [m] /\
    delivered_to (topic_to_full (forward_topic f)) now ms s s1 /\
    forall k, option_Forall2 (fun sub sub' =>
      if decide (k = subscription_to_full (source_subscription f)) then settled (message_id (value (forward_message f))) sub sub'
      else sub' = sub) (subscriptions s1 !! k) (subscriptions s' !! k).

(** C12. A dead letter is not lost: a transfer does not panic, and either every subscription still owes all the
    messages it owed, or the message was published to the dead-letter topic: with its data, its ordering key and exactly
    its attributes, except those under keys that begin with [CloudPubSubDeadLetterSource], which the transfer may set to
    name its source; to every subscription of that topic whose filter admits it, except those that a function owns, which
    retain nothing and are left untouched.  Then the source owes at most one message less, the one with the transferred
    identifier. *)
Theorem dead_letter_not_lost d s f now : broker_reachable d s -> exists r s', forward_now now f s = Some (r, s') /\
  ((forall k, option_Forall2 still_owed (subscriptions s !! k) (subscriptions s' !! k)) \/
   (can_commit_dead_letter s f = true /\ exists m, forwarded f now m s s')).
Proof.
  intros [Hs _]%reachable_broker_wf. apply wp_run. unfold forward_now. apply wp_bind, wp_attempt.
  eapply wp_mono; [|by apply (prepare_dead_letter_spec (ghost d))]. intros [p|e] s1 [Hw Hp]; [|by left].
  destruct Hp as (Hcan & Hreg & Hok & Hf & Hkey & Ht & m & Hm & Hms). apply wp_bind, wp_attempt.
  eapply wp_mono; [|by apply (commit_spec (ghost d))]. intros [ms|e] s2 [Hw2 Hc]; [|by destruct Hc].
  destruct Hc as (-> & _ & Hcom). pose proof (delivered_registry _ _ _ _ _ _ Hreg (committed_delivers p now _ s1 s2 Hkey Ht Hcom)) as Hd.
  apply wp_bind, wp_attempt. eapply wp_mono; [|apply (complete_settled (source_subscription f))]. intros r s3 Hset. right. split; [done|].
  exists m, (published p), s2. done.
Qed.
End broker.

(** ** A registry at work *)

(** Every string fits its allocation. *)
Definition demo_memory : Memory :=
  {| size_of_string := 24; size_of_arc := 8; size_of_usize := 8; size_of_stored_message := 120; size_of_snapshot := 400;
     capacity := fun _ s => str_len s; data_capacity := fun _ bytes => Z.of_nat (length bytes) |}.

#[local] Existing Instance demo_memory.

(** The state after an operation. *)
Definition after_op {A} (m : B A) (s : PubSubState) : PubSubState := match m s with Some (_, s) => s | None => s end.

Lemma captured_none s : snapshots s = ∅ -> captured_fit s.
Proof. intros Hs k sn Hk. by rewrite Hs, lookup_empty in Hk. Qed.

Lemma runs_after d s d1 s1 cost A (m : B A) d2 : runs d s d1 s1 -> operation cost m -> snapshots s1 = ∅ -> d2 = d1 + cost -> d2 <= 2 ^ 64 ->
  (if m s1 is Some _ then true else false) = true -> runs d s d2 (after_op m s1).
Proof.
  intros Hr Hop Hsn -> Hd Hm. unfold after_op. destruct (m s1) as [[r s2]|] eqn:Hrun; [|done]. eapply runs_next; [done..|by apply captured_none|done|done].
Qed.

Definition demo_topic : TopicName := {| topic_project := chars "demo"; topic := chars "topic-one" |}.
Definition dead_topic : TopicName := {| topic_project := chars "demo"; topic := chars "dead" |}.
Definition demo_pubsub_message : PubsubMessage := {| data := [1; 2]; attributes := ∅; ordering_key := [] |}.

(** Two topics, a subscription of the first that forwards to the second, and a message. *)
Definition demo_topics : PubSubState := after_op (create_topic dead_topic ∅) (after_op (create_topic demo_topic ∅) (state_new 7)).
Definition demo_broker : PubSubState := after_op (create_subscription (demo_config false)) demo_topics.
Definition demo_busy : PubSubState := after_op (publish demo_topic [demo_pubsub_message] 5) demo_broker.

Definition demo_pull (now : Z) : B PullResult :=
  pull_with_dead_letters_admitted (name (demo_config false)) 1 (dur_from_seconds now) Mixed (fun _ => true).

(** The message is delivered five times, and then forwarded. *)
Fixpoint demo_pulls (n : nat) : PubSubState :=
  match n with O => demo_busy | S n => after_op (demo_pull (100 * Z.of_nat (S n))) (demo_pulls n) end.
Definition demo_forwarding : PubSubState := demo_pulls 11.

Lemma demo_names_ok : topic_ok demo_topic /\ topic_ok dead_topic /\ sub_name_ok (name (demo_config false)).
Proof. split_and!; [right|right|]; split; (apply validate_project_ok || apply validate_resource_id_ok); vm_compute; reflexivity. Qed.

Lemma demo_broker_runs : runs 0 (state_new 7) 0 demo_broker.
Proof.
  destruct demo_names_ok as (Ht & Hdt & Hs). unfold demo_broker, demo_topics.
  eapply (runs_after _ _ 0 _ 0); [|by apply op_create_subscription|vm_compute; reflexivity|done|done|vm_compute; reflexivity].
  eapply (runs_after _ _ 0 _ 0); [|by apply op_create_topic|vm_compute; reflexivity|done|done|vm_compute; reflexivity].
  eapply (runs_after _ _ 0 _ 0); [|by apply op_create_topic|vm_compute; reflexivity|done|done|vm_compute; reflexivity].
  constructor.
Qed.

Lemma demo_broker_reachable : broker_reachable 0 demo_broker.
Proof. exists 7. split; [done|apply demo_broker_runs]. Qed.

Lemma demo_busy_runs : runs 0 (state_new 7) 0 demo_busy.
Proof.
  eapply (runs_after _ _ 0 _ 0); [apply demo_broker_runs|by apply op_publish|vm_compute; reflexivity|done|done|vm_compute; reflexivity].
Qed.

Lemma demo_pulls_run n : (n < 100)%nat ->
  forallb (fun i => (size (snapshots (demo_pulls i)) =? 0)%nat && (if demo_pull (100 * Z.of_nat (S i)) (demo_pulls i) is Some _ then true else false)) (seq 0 n) = true ->
  runs 0 (state_new 7) (Z.of_nat n * MAX_RETAINED_PER_SUB) (demo_pulls n).
Proof.
  induction n as [|n IH]; intros Hn Hok; [exact demo_busy_runs|]. rewrite seq_S, forallb_app, !andb_true_iff in Hok. destruct Hok as [Hall Hlast].
  cbn [forallb] in Hlast. rewrite !andb_true_iff, Nat.eqb_eq in Hlast. destruct Hlast as [[Hs Hp] _]. cbn [demo_pulls].
  eapply runs_after; [apply IH; [lia|done]|apply op_pull_admitted|by apply map_size_empty_iff|unfold MAX_RETAINED_PER_SUB; lia..|exact Hp].
Qed.

Lemma demo_forwarding_reachable : broker_reachable (11 * MAX_RETAINED_PER_SUB) demo_forwarding.
Proof. exists 7. split; [done|]. apply (demo_pulls_run 11); [lia|]. vm_compute. reflexivity. Qed.

Lemma broker_never_panics_witness : broker_reachable 0 demo_broker /\ is_Some (publish demo_topic [demo_pubsub_message] 5 demo_broker).
Proof.
  pose proof demo_broker_reachable as Hr. split; [exact Hr|].
  apply (proj2 (broker_never_panics 0 demo_broker Hr) 0 _ _ (op_publish demo_topic [demo_pubsub_message] 5)); [|done].
  apply captured_none. vm_compute. reflexivity.
Defined.

Lemma publish_exact_witness : exists ids s', publish demo_topic [demo_pubsub_message] 5 demo_broker = Some (Ok ids, s') /\
  ids = [chars (pubsub_message_id 1)] /\ message_counter s' = 1.
Proof.
  destruct (publish_exact 0 demo_broker demo_topic [demo_pubsub_message] 5 demo_broker_reachable) as (r & s' & Hp & Hcase).
  assert (Hok : match publish demo_topic [demo_pubsub_message] 5 demo_broker with Some (Ok _, _) => true | _ => false end = true) by (vm_compute; reflexivity).
  rewrite Hp in Hok. destruct r as [ids|e]; [|done]. destruct Hcase as (Hids & Hc & _). exists ids, s'. split; [exact Hp|]. split; [rewrite Hids; vm_compute; reflexivity|].
  rewrite Hc. vm_compute. reflexivity.
Defined.

(** A publication prepared for the topic, which is then deleted and created anew. *)
Definition demo_prepared : option PreparedPublication :=
  match prepare_publish demo_topic [demo_pubsub_message] 5 demo_broker with Some (Ok p, _) => Some p | _ => None end.
Definition demo_deleted : PubSubState := after_op (delete_topic demo_topic) demo_broker.
Definition demo_recreated : PubSubState := after_op (create_topic demo_topic ∅) demo_deleted.

Lemma demo_deleted_reachable : broker_reachable 0 demo_deleted.
Proof.
  exists 7. split; [done|]. eapply (runs_after _ _ 0 _ 0); [apply demo_broker_runs|apply op_delete_topic|vm_compute; reflexivity|done|done|vm_compute; reflexivity].
Qed.

Lemma demo_recreated_runs : runs 0 demo_deleted 0 demo_recreated.
Proof.
  destruct demo_names_ok as (Ht & _). unfold demo_recreated.
  eapply (runs_after _ _ 0 _ 0); [apply runs_none|by apply op_create_topic|vm_compute; reflexivity|done|done|vm_compute; reflexivity].
Qed.

Lemma stale_publication_refused_witness : exists p e, demo_prepared = Some p /\
  commit_prepared p 5 demo_recreated = Some (Err e, demo_recreated) /\ is_Some (topics demo_recreated !! topic_key p).
Proof.
  assert (Hfact : match demo_prepared with
    | Some p => (0 <=? next_message_counter p) && (next_message_counter p <=? BROKER_SPAN) && (prepared_incarnation p <=? topic_counter demo_deleted) &&
        negb (contains_key (topic_key p) (topics demo_deleted)) && contains_key (topic_key p) (topics demo_recreated)
    | None => false end = true) by (vm_compute; reflexivity).
  destruct demo_prepared as [p|]; [|discriminate]. exists p. rewrite !andb_true_iff, negb_true_iff, contains_key_true, contains_key_false, !Z.leb_le in Hfact.
  destruct Hfact as [[[Hok Hinc] Hgone] Hthere].
  destruct (proj2 (stale_publication_refused 0 demo_deleted p 5 demo_deleted_reachable Hok)) with (d' := 0) (s' := demo_recreated) as [e He];
    [exact Hinc|intros t Ht; by rewrite Hgone in Ht|exact demo_recreated_runs|].
  exists e. split_and!; done.
Defined.

Lemma owed_counts o o' : option_Forall2 still_owed o o' ->
  ~ match o, o' with Some sub, Some sub' => (length (filter unacked (entries sub')) =? length (filter unacked (entries sub)))%nat = false | _, _ => False end.
Proof.
  intros [x y Hxy|]; [|tauto]. intros Hn%Nat.eqb_neq. apply Hn. apply (f_equal length) in Hxy. by rewrite !length_map in Hxy.
Qed.

Lemma dead_letter_not_lost_witness : exists f m s', pending_dead_letters demo_forwarding = [f] /\
  forward_now (dur_from_seconds 1200) f demo_forwarding = Some (Ok tt, s') /\ forwarded f (dur_from_seconds 1200) m demo_forwarding s'.
Proof.
  destruct (pending_dead_letters demo_forwarding) as [|f [|g l]] eqn:Hf; [vm_compute in Hf; discriminate| |vm_compute in Hf; discriminate].
  pose proof demo_forwarding_reachable as Hr. destruct (dead_letter_not_lost _ demo_forwarding f (dur_from_seconds 1200) Hr) as (r & s' & Hrun & Hcase).
  assert (Hfact : match pending_dead_letters demo_forwarding with
     [f] => match forward_now (dur_from_seconds 1200) f demo_forwarding with
       | Some (Ok tt, s') => match subscriptions demo_forwarding !! subscription_to_full (name (demo_config false)), subscriptions s' !! subscription_to_full (name (demo_config false)) with
           Some sub, Some sub' => (length (filter unacked (entries sub')) =? length (filter unacked (entries sub)))%nat = false | _, _ => False end
       | _ => False end | _ => False end).
  { vm_compute. reflexivity. }
  rewrite Hf, Hrun in Hfact. destruct r as [[]|e]; [|destruct Hfact]. destruct Hcase as [Hkeep|(_ & m & Hm)]; [|exists f, m, s'; exact (conj eq_refl (conj Hrun Hm))].
  destruct (owed_counts _ _ (Hkeep (subscription_to_full (name (demo_config false)))) Hfact).
Defined.
