(* ===== verification/DbKey.v ===== *)
(** * Realtime Database keys

    Models [crates/fireemu-core-database/src/key.rs] and the parts of error.rs
    and limits.rs that keys and paths use.  A text is the list of its characters
    (Unicode scalar values), so that its UTF-8 length and its UTF-16 code units
    are computed as the code asks for them.  An error is its kind; the message
    texts, provisional by their own documentation, are not modelled. *)
From S2P Require Import Prelude Text.

(** error.rs *)
Inductive ErrorKind :=
| InvalidKey
| InvalidPath
| PathTooLong
| PathTooDeep
| StringTooLong
| InvalidData
| InvalidPriority
| InvalidServerValue
| OverlappingUpdate
| PriorityOnAbsentNode
| ReadOnlyPath
| InvalidQuery.

Record DatabaseError := { kind : ErrorKind }.

Definition db_err {A} (k : ErrorKind) : result A DatabaseError := Err {| kind := k |}.

(** limits.rs *)
Record Limits := { max_depth : Z; max_path_bytes : Z; max_string_bytes : Z }.

Definition PRODUCTION : Limits :=
  {| max_depth := 32; max_path_bytes := 768; max_string_bytes := 10 * 1024 * 1024 |}.

(** ** UTF-16 *)

(** [s.encode_utf16()] *)
Definition utf16_units (c : Z) : list Z :=
  if c <? 0x10000 then [c]
  else [0xD800 + Z.shiftr (c - 0x10000) 10; 0xDC00 + Z.land (c - 0x10000) 0x3FF].

Definition encode_utf16 (s : text) : list Z := concat (map utf16_units s).

(** ** Keys *)

Definition is_forbidden (c : Z) : bool :=
  existsb (Z.eqb c) (chars ".$#[]/") || ((0 <=? c) && (c <=? 0x1F)) || (c =? 0x7F).

Definition validate_key (key : text) : result unit DatabaseError :=
  match key with
  | [] => db_err InvalidKey
  | _ => if existsb is_forbidden key then db_err InvalidKey else Ok tt
  end.

(** [key.parse::<i64>()] of an optional sign and digits. *)
Definition parse_i64 (key : text) : option Z :=
  match key with
  | [] => None
  | c :: ds =>
      let '(sign, ds) := if c =? ch "-" then (-1, ds) else if c =? ch "+" then (1, ds) else (1, key) in
      if bool_decide (ds = []) || negb (forallb is_ascii_digit ds) then None
      else checked i64 (sign * dec_value ds)
  end.

Definition key_as_int (key : text) : option Z :=
  let digits := default key (strip_prefix (ch "-") key) in
  if bool_decide (digits = []) || negb (forallb is_ascii_digit digits) then None
  else
    let significant := trim_start (ch "0") digits in
    if (10 <? length significant)%nat then None
    else match parse_i64 key with
         | None => None
         | Some value => checked i32 value
         end.

Definition utf16_cmp (a b : text) : comparison := list_cmp (encode_utf16 a) (encode_utf16 b).

Definition name_compare (a b : text) : comparison :=
  if decide (a = b) then Eq
  else match key_as_int a, key_as_int b with
       | Some x, Some y => then_with (then_with (x ?= y) (str_len a ?= str_len b)) (utf16_cmp a b)
       | Some _, None => Lt
       | None, Some _ => Gt
       | None, None => utf16_cmp a b
       end.

Example int_keys_ex :
  map key_as_int [chars "-0"; chars "007"; chars "2147483648"; chars "-2147483648"; chars "+1"] =
    [Some 0; Some 7; None; Some (-2147483648); None].
Proof. vm_compute. reflexivity. Qed.

Example name_compare_ex :
  map (fun '(a, b) => name_compare (chars a) (chars b))
    [("9", "10"); ("10", "a"); ("1", "01"); ("-0", "00"); ("b", "a")] = [Lt; Lt; Lt; Lt; Gt].
Proof. vm_compute. reflexivity. Qed.

(** Beyond the basic plane the order is that of the surrogates. *)
Example utf16_ex : name_compare [0xFFFD] [0x1F600] = Gt.
Proof. vm_compute. reflexivity. Qed.

(** ** The integer keys *)

(** [-?\d+] *)
Definition int_text (neg : bool) (ds : text) : text := if neg then ch "-" :: ds else ds.

Definition int_value (neg : bool) (ds : text) : Z := if neg then - dec_value ds else dec_value ds.

Lemma digits_forallb ds : forallb is_ascii_digit ds = true <-> digits_ok ds.
Proof.
  unfold digits_ok. rewrite forallb_forall, Forall_forall.
  split; intros H x Hx; apply is_ascii_digit_spec, H; by apply list_elem_of_In.
Qed.

Lemma dec_value_cons d ds : dec_value (d :: ds) = (d - 48) * 10 ^ Z.of_nat (length ds) + dec_value ds.
Proof. unfold dec_value at 1. cbn [fold_left]. rewrite fold_dec_shift. unfold dec_step. ring. Qed.

(** Leading zeros are free. *)
Lemma trim_zeros ds : digits_ok ds ->
  dec_value (trim_start (ch "0") ds) = dec_value ds /\ digits_ok (trim_start (ch "0") ds) /\
  (trim_start (ch "0") ds = [] \/ 10 ^ (Z.of_nat (length (trim_start (ch "0") ds)) - 1) <= dec_value ds).
Proof.
  induction 1 as [|d ds Hd Hds (IH1 & IH2 & IH3)]; [split_and!; [done|constructor|by left]|]. cbn [trim_start].
  rewrite dec_value_cons. change (ch "0") with 48 in *. destruct (Z.eqb_spec d 48) as [->|Hne].
  - rewrite IH1. split_and!; [lia|done|]. destruct IH3 as [?|?]; [by left|right]. lia.
  - rewrite <- dec_value_cons. split_and!; [done|by constructor|right]. cbn [length].
    rewrite dec_value_cons, Nat2Z.inj_succ. replace (Z.succ _ - 1) with (Z.of_nat (length ds)) by lia.
    pose proof (dec_value_bound _ Hds). pose proof (Z.pow_nonneg 10 (Z.of_nat (length ds)) ltac:(lia)). nia.
Qed.

Lemma digit_no_sign d ds : digits_ok (d :: ds) -> (d =? ch "-") = false /\ (d =? ch "+") = false.
Proof.
  intros Hds. inversion_clear Hds as [|? ? Hd _]. cbn in Hd. unfold ch. cbn. split; apply Z.eqb_neq; lia.
Qed.

Lemma key_as_int_text neg ds :
  ds <> [] -> digits_ok ds -> key_as_int (int_text neg ds) = checked i32 (int_value neg ds).
Proof.
  intros Hne Hds. pose proof (dec_value_bound _ Hds) as Hnn. destruct (trim_zeros ds Hds) as (Hz & Hzok & Hbig).
  assert (Hstrip : default (int_text neg ds) (strip_prefix (ch "-") (int_text neg ds)) = ds).
  { destruct neg; [done|]. destruct ds as [|d ds]; [done|]. cbn [int_text strip_prefix].
    by rewrite (proj1 (digit_no_sign d ds Hds)). }
  assert (Htest : bool_decide (ds = []) || negb (forallb is_ascii_digit ds) = false).
  { by rewrite bool_decide_false, (proj2 (digits_forallb ds) Hds). }
  assert (Hparse : parse_i64 (int_text neg ds) = checked i64 (int_value neg ds)).
  { unfold parse_i64, int_text, int_value. destruct neg.
    - rewrite Z.eqb_refl, Htest. f_equal; lia.
    - destruct ds as [|d ds']; [done|]. destruct (digit_no_sign d ds' Hds) as [-> ->].
      rewrite Htest. f_equal; lia. }
  unfold key_as_int. cbv zeta. rewrite Hstrip, Htest, Hparse.
  destruct (Nat.ltb_spec 10 (length (trim_start (ch "0") ds))) as [Hlong|Hshort].
  - symmetry. apply checked_None. destruct Hbig as [Hnil|Hbig]; [rewrite Hnil in Hlong; cbn in Hlong; lia|].
    pose proof (Z.pow_le_mono_r 10 10 (Z.of_nat (length (trim_start (ch "0") ds)) - 1) ltac:(lia) ltac:(lia)).
    unfold int_value. destruct neg; int_lia.
  - assert (Hb : dec_value ds < 10 ^ 10).
    { rewrite <- Hz. pose proof (dec_value_bound _ Hzok).
      pose proof (Z.pow_le_mono_r 10 (Z.of_nat (length (trim_start (ch "0") ds))) 10 ltac:(lia) ltac:(lia)). lia. }
    rewrite (proj2 (checked_Some i64 (int_value neg ds) (int_value neg ds))); [done|].
    split; [done|]. unfold int_value. change (10 ^ 10) with 10000000000 in Hb. destruct neg; int_lia.
Qed.

Lemma key_as_int_inv key v : key_as_int key = Some v ->
  exists neg ds, key = int_text neg ds /\ ds <> [] /\ digits_ok ds /\ v = int_value neg ds /\ fits i32 v.
Proof.
  intros Hk. assert (Hform : exists neg ds, key = int_text neg ds /\ ds <> [] /\ digits_ok ds).
  { unfold key_as_int in Hk. cbv zeta in Hk. destruct (_ || _) eqn:Ht; [done|]. clear Hk.
    apply orb_false_iff in Ht as [Hne%bool_decide_eq_false Hd%negb_false_iff%digits_forallb].
    destruct (strip_prefix (ch "-") key) as [ds|] eqn:Hs; [exists true, ds|by exists false, key].
    split; [|done]. destruct key as [|c key]; [done|]. cbn [strip_prefix] in Hs.
    destruct (Z.eqb_spec c (ch "-")) as [->|]; [by injection Hs as ->|done]. }
  destruct Hform as (neg & ds & -> & Hne & Hds). rewrite key_as_int_text in Hk by done.
  apply checked_Some in Hk as [-> Hfit]. by exists neg, ds.
Qed.

(** ** The units of a character *)

Lemma utf16_pair c : 0x10000 <= c < 0x110000 ->
  utf16_units c = [0xD800 + (c - 0x10000) / 1024; 0xDC00 + (c - 0x10000) mod 1024].
Proof.
  intros Hc. unfold utf16_units. rewrite (proj2 (Z.ltb_ge _ _)) by lia.
  change 0x3FF with (Z.ones 10). by rewrite Z.land_ones, Z.shiftr_div_pow2 by lia.
Qed.

Lemma utf16_units_inj c d l m : is_scalar c -> is_scalar d ->
  utf16_units c ++ l = utf16_units d ++ m -> c = d /\ l = m.
Proof.
  unfold is_scalar. intros Hc Hd.
  destruct (decide (c < 0x10000)), (decide (d < 0x10000)).
  - unfold utf16_units. rewrite !(proj2 (Z.ltb_lt _ _)) by lia. by intros [= -> ->].
  - rewrite (utf16_pair d) by lia. unfold utf16_units. rewrite (proj2 (Z.ltb_lt _ _)) by lia.
    intros [= Heq _]. exfalso. Z.div_mod_to_equations; lia.
  - rewrite (utf16_pair c) by lia. unfold utf16_units. rewrite (proj2 (Z.ltb_lt _ _)) by lia.
    intros [= Heq _]. exfalso. Z.div_mod_to_equations; lia.
  - rewrite !utf16_pair by lia. intros [= H1 H2 ->]. split; [|done]. Z.div_mod_to_equations; lia.
Qed.

Lemma encode_utf16_inj a : forall b, Forall is_scalar a -> Forall is_scalar b ->
  encode_utf16 a = encode_utf16 b -> a = b.
Proof.
  assert (Hne : forall c, utf16_units c <> []) by (intros c; unfold utf16_units; by case_match).
  unfold encode_utf16. induction a as [|c a IH]; intros [|d b] Ha Hb Heq; [done|..].
  - cbn in Heq. by destruct (utf16_units d) eqn:Hu; [destruct (Hne d)|].
  - cbn in Heq. by destruct (utf16_units c) eqn:Hu; [destruct (Hne c)|].
  - inversion_clear Ha. inversion_clear Hb. cbn [map concat] in Heq.
    apply utf16_units_inj in Heq as [-> Heq]; [|done..]. f_equal. by apply IH.
Qed.

(** ** The key order

    [name_compare] compares ranks: integer keys first, by value, then by length,
    then as text; the other keys as text. *)

Definition key_rank (key : text) : Z * (Z * (Z * list Z)) :=
  match key_as_int key with
  | Some x => (0, (x, (str_len key, encode_utf16 key)))
  | None => (1, (0, (0, encode_utf16 key)))
  end.

Definition text_ok (s : text) : Prop := Forall is_scalar s.

Lemma name_compare_rank a b : name_compare a b = ord_cmp (key_rank a) (key_rank b).
Proof.
  unfold name_compare. case_decide as Hab; [subst; by rewrite ord_cmp_refl|].
  unfold key_rank, utf16_cmp.
  destruct (key_as_int a) as [x|], (key_as_int b) as [y|]; cbn; unfold pair_cmp; cbn; try done.
  unfold pair_cmp. cbn. destruct (x ?= y), (str_len a ?= str_len b); done.
Qed.

Lemma key_rank_inj a b : text_ok a -> text_ok b -> key_rank a = key_rank b -> a = b.
Proof.
  intros Ha Hb. unfold key_rank. intros Heq. apply encode_utf16_inj; [done..|].
  by repeat case_match; simplify_eq.
Qed.

Definition name_lt (a b : text) : Prop := name_compare a b = Lt.

(** [name_compare] is a total order of the keys: on texts of Unicode scalar
    values it answers Equal for equal keys only, the swapped comparison is the
    reverse, and it is transitive; the keys that spell a 32-bit integer (an
    optional minus sign and decimal digits, any number of leading zeros) come
    before all others and among themselves by value; and [key_as_int] reads
    exactly those. *)
Theorem name_compare_total_order :
  (forall a b, text_ok a -> text_ok b -> name_compare a b = Eq <-> a = b) /\
  (forall a b, name_compare b a = CompOpp (name_compare a b)) /\
  (forall a b c, name_lt a b -> name_lt b c -> name_lt a c) /\
  (forall a b x, key_as_int a = Some x ->
     match key_as_int b with
     | Some y => x < y -> name_lt a b
     | None => name_lt a b
     end) /\
  (forall k v, key_as_int k = Some v <->
     exists neg ds, k = int_text neg ds /\ ds <> [] /\ digits_ok ds /\ v = int_value neg ds /\ fits i32 v).
Proof.
  unfold name_lt. split_and!.
  - intros a b Ha Hb. rewrite name_compare_rank, ord_cmp_eq. split; [by apply key_rank_inj|by intros ->].
  - intros a b. rewrite !name_compare_rank. apply ord_cmp_opp.
  - intros a b c. rewrite !name_compare_rank. apply ord_cmp_trans.
  - intros a b x Hx. rewrite name_compare_rank. unfold key_rank. rewrite Hx.
    destruct (key_as_int b) as [y|]; [|done]. intros Hlt%Z.compare_lt_iff. cbn. unfold pair_cmp. cbn.
    unfold pair_cmp. cbn. by rewrite Hlt.
  - intros k v. split; [apply key_as_int_inv|]. intros (neg & ds & -> & Hne & Hds & -> & Hfit).
    rewrite key_as_int_text by done. by apply checked_Some.
Qed.
