(* ===== verification/DbPath.v ===== *)
(** * Realtime Database paths

    Models [crates/fireemu-core-database/src/path.rs] and [check_disjoint] of
    tree.rs, the overlap check of a multipath update.  A text is the list of its
    characters; [String]'s byte order on UTF-8 is the lexicographic order of the
    characters, so the derived order of paths is [list_cmp] of [list_cmp]. *)
From S2P Require Import Prelude Text DbKey.

Definition PRIORITY_KEY : text := chars ".priority".
Definition INFO_KEY : text := chars ".info".

Record Path := { keys : list text }.

#[global] Instance Path_eq_dec : EqDecision Path.
Proof. solve_decision. Defined.

Definition root : Path := {| keys := [] |}.

Definition check_path_bytes (bytes : Z) (limits : Limits) : result unit DatabaseError :=
  if max_path_bytes limits <? bytes then db_err PathTooLong else Ok tt.

Definition byte_len (p : Path) : Z :=
  fold_right (fun k n => str_len k + n) 0 (keys p) + Z.max (Z.of_nat (length (keys p)) - 1) 0.

(** The loop of [parse] over the keys from [index]. *)
Fixpoint check_keys (index last : nat) (ks : list text) : result unit DatabaseError :=
  match ks with
  | [] => Ok tt
  | key :: ks =>
      let special := (index =? 0)%nat && bool_decide (key = INFO_KEY)
                     || (index =? last)%nat && bool_decide (key = PRIORITY_KEY) in
      if special then check_keys (S index) last ks
      else if bool_decide (key = INFO_KEY) || bool_decide (key = PRIORITY_KEY) then db_err InvalidPath
      else match validate_key key with
           | Err e => Err e
           | Ok _ => check_keys (S index) last ks
           end
  end.

Definition path_segments (path : text) : list text :=
  filter (fun segment => segment <> []) (split_on (ch "/") path).

Definition parse (path : text) (limits : Limits) : result Path DatabaseError :=
  let ks := path_segments path in
  let last := (length ks - 1)%nat in
  match check_keys 0 last ks with
  | Err e => Err e
  | Ok _ =>
      let parsed := {| keys := ks |} in
      match check_path_bytes (byte_len parsed) limits with
      | Err e => Err e
      | Ok _ => Ok parsed
      end
  end.

Definition from_keys (ks : list text) : Path := {| keys := ks |}.
Definition depth (p : Path) : nat := length (keys p).
Definition is_root (p : Path) : bool := bool_decide (keys p = []).
Definition last_key (p : Path) : option text := last (keys p).

Definition parent (p : Path) : option Path :=
  match keys p with [] => None | _ => Some {| keys := removelast (keys p) |} end.

Definition child (p : Path) (key : text) : Path := {| keys := keys p ++ [key] |}.
Definition join (p relative : Path) : Path := {| keys := keys p ++ keys relative |}.

(** [other.keys.starts_with(&self.keys)] *)
Definition contains (p other : Path) : bool := bool_decide (keys p `prefix_of` keys other).

Definition is_priority (p : Path) : bool := bool_decide (last_key p = Some PRIORITY_KEY).
Definition is_info (p : Path) : bool := bool_decide (head (keys p) = Some INFO_KEY).

(** [Display] *)
Definition display (p : Path) : text :=
  match keys p with [] => chars "/" | ks => concat (map (fun key => ch "/" :: key) ks) end.

(** The derived [Ord]. *)
#[global, refine] Instance Path_RustOrd : RustOrd Path :=
  {| ord_cmp p q := ord_cmp (keys p) (keys q) |}.
Proof.
  - intros [p] [q]. rewrite ord_cmp_eq. cbn. split; congruence.
  - intros p q. apply ord_cmp_opp.
  - intros p q r. apply ord_cmp_trans.
Defined.

(** [sorted.windows(2)] *)
Fixpoint check_neighbours (sorted : list Path) : result unit DatabaseError :=
  match sorted with
  | p :: (q :: _) as rest => if contains p q then db_err OverlappingUpdate else check_neighbours rest
  | _ => Ok tt
  end.

Definition check_disjoint (paths : list Path) : result unit DatabaseError :=
  check_neighbours (merge_sort ord_le paths).

Example path_parse_ex : parse (chars "//users//u1/") PRODUCTION = Ok {| keys := [chars "users"; chars "u1"] |}.
Proof. vm_compute. reflexivity. Qed.

Example path_priority_ex : parse (chars "a/.priority/b") PRODUCTION = db_err InvalidPath.
Proof. vm_compute. reflexivity. Qed.

Example disjoint_ex :
  map (fun l => is_ok (check_disjoint (map (fun s => from_keys (map chars s)) l)))
    [[["a"; "b"]; ["c"]; ["a"; "bc"]]; [["a"; "b"]; ["a"; "c"]; ["a"]]] = [true; false].
Proof. vm_compute. reflexivity. Qed.

(** ** What a path is *)

Definition key_ok (k : text) : Prop := k <> [] /\ forall c, c ∈ k -> is_forbidden c = false.

(** A key of a path of [n] keys at [i]. *)
Definition segment_ok (i n : nat) (k : text) : Prop :=
  i = 0%nat /\ k = INFO_KEY \/ S i = n /\ k = PRIORITY_KEY \/ key_ok k.

Definition path_ok (p : Path) : Prop :=
  forall i k, keys p !! i = Some k -> segment_ok i (length (keys p)) k.

Lemma validate_key_ok k : validate_key k = Ok tt <-> key_ok k.
Proof.
  unfold validate_key, key_ok. destruct k as [|c k]; [naive_solver|].
  destruct (existsb is_forbidden (c :: k)) eqn:He.
  - split; [done|]. intros [_ Hall]. apply existsb_exists in He as (x & Hx%list_elem_of_In & Hf).
    by rewrite Hall in Hf.
  - split; [|done]. intros _. split; [done|]. intros x Hx%list_elem_of_In. apply not_true_iff_false. intros Hf.
    rewrite <- not_true_iff_false, existsb_exists in He. apply He. by exists x.
Qed.

Lemma special_not_ok k : k = INFO_KEY \/ k = PRIORITY_KEY -> ~ key_ok k.
Proof. intros Hk [_ Hall]. specialize (Hall (ch ".")). destruct Hk as [-> | ->]; by specialize (Hall ltac:(left)). Qed.

Lemma check_keys_ok ks : forall index last,
  check_keys index last ks = Ok tt <->
  forall i k, ks !! i = Some k ->
    (index + i = 0)%nat /\ k = INFO_KEY \/ (index + i = last)%nat /\ k = PRIORITY_KEY \/ key_ok k.
Proof.
  induction ks as [|key ks IH]; intros index last; [done|]. cbn [check_keys]. cbv zeta.
  assert (Hcons : forall P : nat -> text -> Prop,
    (forall i k, (key :: ks) !! i = Some k -> P i k) <-> P 0%nat key /\ forall i k, ks !! i = Some k -> P (S i) k).
  { intros P. split; [intros H; split; [by apply H|intros i k; apply (H (S i))]|].
    intros [H0 HS] [|i] k; [by intros [= <-]|apply HS]. }
  rewrite (Hcons (fun i k => (index + i = 0)%nat /\ k = INFO_KEY \/ (index + i = last)%nat /\ k = PRIORITY_KEY \/ key_ok k)).
  setoid_rewrite <- Nat.add_succ_comm. rewrite <- IH, Nat.add_0_r. clear IH Hcons.
  pose proof (special_not_ok key) as Hsp. pose proof (validate_key_ok key) as Hval.
  destruct ((index =? 0)%nat && bool_decide (key = INFO_KEY)) eqn:H1;
    [|destruct ((index =? last)%nat && bool_decide (key = PRIORITY_KEY)) eqn:H2]; cbn [orb].
  - rewrite andb_true_iff, Nat.eqb_eq, bool_decide_eq_true in H1. tauto.
  - rewrite andb_true_iff, Nat.eqb_eq, bool_decide_eq_true in H2. tauto.
  - rewrite andb_false_iff, Nat.eqb_neq, bool_decide_eq_false in H1, H2.
    repeat case_bool_decide; cbn [orb]; [split; [done|tauto]..|].
    destruct (validate_key key) as [[]|e]; [tauto|]. split; [done|]. intros [Hk _].
    assert (key_ok key) by tauto. by assert (Err e = Ok tt :> result unit DatabaseError) by tauto.
Qed.

Lemma segment_ok_text i n k : segment_ok i n k -> k <> [] /\ ch "/" ∉ k.
Proof.
  intros [[_ ->]|[[_ ->]|[Hne Hall]]].
  - split; [done|]. by apply contains_byte_false.
  - split; [done|]. by apply contains_byte_false.
  - split; [done|]. by intros Hin%Hall.
Qed.

Lemma path_ok_keys p : path_ok p -> Forall (fun k => k <> [] /\ ch "/" ∉ k) (keys p).
Proof. intros Hok. apply Forall_lookup. intros i k Hk. by eapply segment_ok_text, Hok. Qed.

Lemma check_path_bytes_ok p limits : check_path_bytes (byte_len p) limits = Ok tt <-> byte_len p <= max_path_bytes limits.
Proof. unfold check_path_bytes. destruct (Z.ltb_spec (max_path_bytes limits) (byte_len p)); split; (done || lia). Qed.

Lemma parse_spec s limits p :
  parse s limits = Ok p <-> keys p = path_segments s /\ path_ok p /\ byte_len p <= max_path_bytes limits.
Proof.
  unfold parse. cbv zeta.
  assert (Hck : check_keys 0 (length (path_segments s) - 1) (path_segments s) = Ok tt <->
                path_ok {| keys := path_segments s |}).
  { rewrite check_keys_ok. unfold path_ok, segment_ok. cbn.
    split; intros H i k Hk; pose proof (H i k Hk); apply lookup_lt_Some in Hk;
      destruct_or! H0; try tauto; right; left; (split; [lia|tauto]). }
  rewrite <- check_path_bytes_ok. split.
  - destruct (check_keys _ _ _) as [[]|]; [|done]. destruct (check_path_bytes _ _) as [[]|] eqn:Hb; [|done].
    intros [= <-]. split_and!; [done|by apply Hck|done].
  - intros (Hk & Hok & Hb). assert (p = {| keys := path_segments s |}) as -> by (destruct p; by f_equal).
    by rewrite (proj2 Hck Hok), Hb.
Qed.

Lemma concat_join (s : Z) ks : forall p, p ++ concat (map (cons s) ks) = Text.join s (p :: ks).
Proof.
  induction ks as [|k ks IH]; intros p; [by rewrite app_nil_r|]. rewrite join_cons by done.
  rewrite <- IH. done.
Qed.

Lemma segments_display p : path_ok p -> path_segments (display p) = keys p.
Proof.
  intros Hok%path_ok_keys. unfold path_segments, display. destruct (keys p) as [|k ks]; [done|].
  change (concat (map (fun key => ch "/" :: key) (k :: ks))) with ([] ++ concat (map (cons (ch "/")) (k :: ks))).
  rewrite concat_join, split_join; [|done|].
  - rewrite filter_cons_False by auto. induction Hok as [|k' ks' [Hk _] _ IH]; [done|].
    by rewrite filter_cons_True, IH.
  - constructor; [set_solver|]. eapply Forall_impl; [exact Hok|]. by intros ? [].
Qed.

(** [parse] accepts exactly the paths: the keys are the non-empty segments,
    each is a valid key, [.info] first or [.priority] last, and the path is within
    the byte limit; every path it accepts prints to a text that parses back to
    it (so that a path rebuilt from its text is the same path), and extending a
    path by a key or by a relative path keeps it an ancestor of the result. *)
Theorem path_parse_exact s limits p :
  (parse s limits = Ok p <-> keys p = path_segments s /\ path_ok p /\ byte_len p <= max_path_bytes limits) /\
  (parse s limits = Ok p -> parse (display p) limits = Ok p) /\
  (forall k q, contains p (child p k) = true /\ contains p (join p q) = true /\
     parent (child p k) = Some p /\ (contains p q = true <-> exists r, join p r = q)).
Proof.
  split_and!; [apply parse_spec| |].
  - rewrite !parse_spec. intros (_ & Hok & Hb). by rewrite segments_display.
  - intros k q. unfold contains, child, join, parent. rewrite !bool_decide_eq_true. cbn [keys].
    split_and!; [by apply prefix_app_r|by apply prefix_app_r| |].
    + rewrite removelast_last. destruct p as [ks]. cbn. by destruct ks.
    + destruct p as [ks], q as [qs]. cbn. split; [intros [rs ->]; by exists {| keys := rs |}|].
      intros [[rs] [= <-]]. by exists rs.
Qed.

(** ** Overlapping updates *)

Definition disjoint_paths (p q : Path) : Prop := contains p q = false /\ contains q p = false.

Lemma prefix_le `{RustOrd A} (l m : list A) : l `prefix_of` m -> ord_le l m.
Proof.
  intros [k ->]. unfold ord_le. induction l as [|x l IH]; cbn; [by destruct k|]. by rewrite ord_cmp_refl.
Qed.

(** The descendants of a path are consecutive in the order. *)
Lemma prefix_convex `{RustOrd A} (p q r : list A) : p `prefix_of` r -> ord_le p q -> ord_le q r -> p `prefix_of` q.
Proof.
  unfold ord_le. revert q r. induction p as [|x p IH]; intros q r Hpr Hpq Hqr; [apply prefix_nil|].
  destruct r as [|z r]; [by apply prefix_nil_not in Hpr|]. destruct q as [|y q]; [done|].
  pose proof (prefix_cons_inv_1 _ _ _ _ Hpr) as ->. apply prefix_cons_inv_2 in Hpr.
  cbn in Hpq, Hqr. rewrite (ord_cmp_opp z y) in Hqr. destruct (ord_cmp z y) eqn:E; cbn in Hqr; [|done|done].
  apply ord_cmp_eq in E as ->. apply prefix_cons. by apply (IH q r).
Qed.

Lemma check_neighbours_ok l : StronglySorted ord_le l ->
  check_neighbours l = Ok tt <-> ForallOrdPairs disjoint_paths l.
Proof.
  induction 1 as [|p l Hs IH Hall]; [split; [constructor|done]|].
  destruct l as [|q l]; [split; [by repeat constructor|done]|].
  change (check_neighbours (p :: q :: l)) with
    (if contains p q then db_err OverlappingUpdate else check_neighbours (q :: l)).
  split.
  - destruct (contains p q) eqn:Hc; [done|]. intros Hl. apply IH in Hl. constructor; [|done].
    apply Forall_forall. intros r Hr. rewrite Forall_forall in Hall.
    assert (Hpq : ord_le p q) by (apply Hall; by left).
    assert (Hqr : ord_le q r).
    { apply elem_of_cons in Hr as [->|Hr]; [apply ord_le_lt_eq; by right|].
      apply StronglySorted_cons in Hs as [Hq _]. rewrite Forall_forall in Hq. by apply Hq. }
    unfold disjoint_paths, contains in *. rewrite !bool_decide_eq_false in *.
    split; intros Hpre; apply Hc.
    + by apply (prefix_convex (keys p) (keys q) (keys r)).
    + assert (keys r = keys p) as Heq.
      { apply (anti_symm ord_le); [by apply prefix_le|]. by etrans; [exact Hpq|exact Hqr]. }
      apply (prefix_convex (keys p) (keys q) (keys r)); [by rewrite Heq|done|done].
  - intros Hf. inversion_clear Hf as [|? ? Hp Hrest].
    apply Forall_cons in Hp as [[-> _] _]. by apply IH.
Qed.

Lemma ForallOrdPairs_perm {A} (R : A -> A -> Prop) (l m : list A) :
  (forall x y, R x y -> R y x) -> l ≡ₚ m -> ForallOrdPairs R l -> ForallOrdPairs R m.
Proof.
  intros Hsym Hperm. induction Hperm as [|x l m Hp IH|x y l|l m k _ IH1 _ IH2]; intros Hl; auto.
  - inversion_clear Hl. constructor; [by rewrite <- Hp|auto].
  - inversion_clear Hl as [|? ? Hy Hx]. inversion_clear Hy as [|? ? Hyx Hyl]. inversion_clear Hx.
    repeat constructor; auto.
Qed.

Lemma check_disjoint_pairs paths : check_disjoint paths = Ok tt <-> ForallOrdPairs disjoint_paths paths.
Proof.
  unfold check_disjoint. rewrite check_neighbours_ok by (apply StronglySorted_merge_sort; apply _).
  split; apply ForallOrdPairs_perm; try (unfold disjoint_paths; tauto);
    [apply merge_sort_Permutation|symmetry; apply merge_sort_Permutation].
Qed.

(** The overlap check of a multipath update is exact: comparing neighbours of
    the sorted paths refuses an update just when some path of it equals or
    contains another one of it, in whatever order they were given. *)
Theorem check_disjoint_exact paths :
  (check_disjoint paths = Ok tt <-> ForallOrdPairs disjoint_paths paths) /\
  (check_disjoint paths <> Ok tt -> check_disjoint paths = db_err OverlappingUpdate).
Proof.
  split; [apply check_disjoint_pairs|]. unfold check_disjoint.
  generalize (merge_sort ord_le paths). induction l as [|p [|q l] IH]; [done..|].
  change (check_neighbours (p :: q :: l)) with
    (if contains p q then db_err OverlappingUpdate else check_neighbours (q :: l)).
  by destruct (contains p q).
Qed.
