(* ===== verification/DbNumber.v ===== *)
(** * Realtime Database numbers

    Models [crates/fireemu-core-database/src/number.rs].  An [f64] is its IEEE
    754 value, [spec_float] at precision 53 and exponents below 1024; a mantissa
    and exponent are canonical ([valid_binary]), as the 64 bits are.  The main
    result is that the comparison of integers and doubles is the exact numeric
    one, hence a total preorder that sorting can rely on. *)
From Stdlib Require Import SpecFloat.
From S2P Require Import Prelude.

#[global] Instance spec_float_eq_dec : EqDecision spec_float.
Proof. solve_decision. Defined.

Abbreviation PREC := 53%Z (only parsing).
Abbreviation EMAX := 1024%Z (only parsing).

Inductive Number := Int (i : Z) | Double (d : spec_float).

#[global] Instance Number_form_eq_dec : EqDecision Number.
Proof. solve_decision. Defined.

(** ** The operations of [f64] that the code uses *)

Definition is_finite (d : spec_float) : bool :=
  match d with S754_zero _ | S754_finite _ _ _ => true | _ => false end.

Definition f64_ge (a b : spec_float) : bool :=
  match SFcompare a b with Some Gt | Some Eq => true | _ => false end.

Definition f64_lt (a b : spec_float) : bool :=
  match SFcompare a b with Some Lt => true | _ => false end.

(** [i as f64] *)
Definition f64_of_i64 (i : Z) : spec_float := binary_normalize PREC EMAX i 0 false.

(** [d.trunc()]: the sign is kept, of zero too. *)
Definition f64_trunc (d : spec_float) : spec_float :=
  match d with
  | S754_finite s m e =>
      if 0 <=? e then d
      else match Z.pos m / 2 ^ (- e) with
           | Z.pos q => binary_round PREC EMAX s q 0
           | _ => S754_zero s
           end
  | _ => d
  end.

(** [d as i64] *)
Definition f64_as_i64 (d : spec_float) : Z :=
  match d with
  | S754_finite s m e =>
      saturating i64 (cond_Zopp s (if 0 <=? e then Z.pos m * 2 ^ e else Z.pos m / 2 ^ (- e)))
  | S754_infinity s => if s then int_min i64 else int_max i64
  | _ => 0
  end.

(** [0.0_f64.total_cmp(&d)] *)
Definition zero_total_cmp (d : spec_float) : comparison :=
  match d with
  | S754_zero false => Eq
  | S754_zero true => Gt
  | S754_finite s _ _ | S754_infinity s => if s then Gt else Lt
  | S754_nan => Lt
  end.

Definition f64_MAX : spec_float := SFmax_float PREC EMAX.

Definition copysign (d sign : spec_float) : spec_float :=
  match sign with
  | S754_zero s | S754_infinity s | S754_finite s _ _ => if s then SFopp d else d
  | S754_nan => d
  end.

(** ** number.rs *)

(** [to_bits] is injective. *)
Definition same_form (a b : Number) : bool := bool_decide (a = b).

Definition from_f64 (value : spec_float) : option Number :=
  if is_finite value then Some (Double value) else None.

Definition as_f64 (n : Number) : spec_float :=
  match n with Int i => f64_of_i64 i | Double d => d end.

Definition increment (n delta : Number) : Number :=
  let add_doubles :=
    let sum := SFadd PREC EMAX (as_f64 n) (as_f64 delta) in
    Double (if is_finite sum then sum else copysign f64_MAX sum) in
  match n, delta with
  | Int a, Int b => match checked i64 (a + b) with Some sum => Int sum | None => add_doubles end
  | _, _ => add_doubles
  end.

Definition TWO_POW_63 : spec_float := S754_finite false (2 ^ 52) 11.
Definition MINUS_TWO_POW_63 : spec_float := S754_finite true (2 ^ 52) 11.

Definition cmp_int_double (int : Z) (double : spec_float) : comparison :=
  if f64_ge double TWO_POW_63 then Lt
  else if f64_lt double MINUS_TWO_POW_63 then Gt
  else
    let whole := f64_trunc double in
    match int ?= f64_as_i64 whole with
    | Eq => zero_total_cmp (SFsub PREC EMAX double whole)
    | unequal => unequal
    end.

Definition total_cmp (a b : Number) : comparison :=
  match a, b with
  | Int a, Int b => a ?= b
  | Double a, Double b => default Eq (SFcompare a b)
  | Int a, Double b => cmp_int_double a b
  | Double a, Int b => CompOpp (cmp_int_double b a)
  end.

(** [PartialEq] *)
Definition number_eq (a b : Number) : bool := match total_cmp a b with Eq => true | _ => false end.

Example cmp_ex :
  map (fun '(i, d) => cmp_int_double i d)
    [(1, f64_of_i64 1); (1, S754_finite false 3 (-1)); (-1, S754_finite true 3 (-1)); (0, S754_zero true);
     (2 ^ 53 + 1, f64_of_i64 (2 ^ 53)); (2 ^ 63 - 1, TWO_POW_63)] = [Eq; Lt; Gt; Eq; Gt; Lt].
Proof. vm_compute. reflexivity. Qed.

Example increment_ex :
  increment (Int (2 ^ 63 - 1)) (Int 1) = Double TWO_POW_63 /\ increment (Double f64_MAX) (Double f64_MAX) = Double f64_MAX.
Proof. vm_compute. split; reflexivity. Qed.

(** ** Exact values

    Every finite double is a multiple of 2^-1074, the least positive one:
    [fval] is its value in that unit. *)

Definition fval (d : spec_float) : Z :=
  match d with
  | S754_finite s m e => cond_Zopp s (Z.pos m * 2 ^ (e + 1074))
  | _ => 0
  end.

Definition valid (d : spec_float) : Prop := is_finite d = true /\ valid_binary PREC EMAX d = true.

Definition number_ok (n : Number) : Prop :=
  match n with Int i => fits i64 i | Double d => valid d end.

Definition value (n : Number) : Z :=
  match n with Int i => i * 2 ^ 1074 | Double d => fval d end.

(** The number of binary digits. *)
Definition digits (m : positive) : Z := Z.pos (digits2_pos m).

Lemma digits_spec m : 2 ^ (digits m - 1) <= Z.pos m < 2 ^ digits m.
Proof.
  unfold digits. induction m as [m IH|m IH|]; cbn [digits2_pos]; [..|cbn; lia];
    rewrite Pos2Z.inj_succ; replace (Z.succ (Z.pos (digits2_pos m)) - 1) with (Z.succ (Z.pos (digits2_pos m) - 1)) by lia;
    rewrite !Z.pow_succ_r by lia; lia.
Qed.

Lemma digits_pos m : 0 < digits m.
Proof. unfold digits. lia. Qed.

(** The digits of a number between two powers. *)
Lemma digits_unique m d : 0 < d -> 2 ^ (d - 1) <= Z.pos m < 2 ^ d -> digits m = d.
Proof.
  intros Hd [H1 H2]. pose proof (digits_spec m) as [H3 H4]. pose proof (digits_pos m).
  destruct (Z.lt_trichotomy (digits m) d) as [Hlt|[|Hlt]]; [|done|].
  - pose proof (Z.pow_le_mono_r 2 (digits m) (d - 1) ltac:(lia) ltac:(lia)). lia.
  - pose proof (Z.pow_le_mono_r 2 d (digits m - 1) ltac:(lia) ltac:(lia)). lia.
Qed.

Lemma shift_digits d : forall m,
  Z.pos (Pos.iter xO m d) = Z.pos m * 2 ^ Z.pos d /\ digits (Pos.iter xO m d) = digits m + Z.pos d.
Proof.
  induction d as [|d IH] using Pos.peano_ind; intros m; [cbn; unfold digits; cbn; lia|].
  rewrite Pos.iter_succ. destruct (IH m) as [H1 H2]. split.
  - rewrite Pos2Z.inj_xO, H1, Pos2Z.inj_succ, Z.pow_succ_r by lia. lia.
  - unfold digits in *. cbn [digits2_pos]. lia.
Qed.

(** The exponent of the canonical form. *)
Definition canonical_exp (m : positive) (e : Z) : Z := Z.max (digits m + e - 53) (-1074).

Lemma valid_finite s m e :
  valid (S754_finite s m e) <-> canonical_exp m e = e /\ e <= 971.
Proof.
  unfold valid, valid_binary, bounded, canonical_mantissa, canonical_exp, digits, fexp, emin. cbn.
  rewrite andb_true_iff, Z.eqb_eq, Z.leb_le. lia.
Qed.

Lemma shift_exact (m : positive) e e' : e' <= e ->
  exists m', shl_align m e e' = (m', e') /\ Z.pos m' = Z.pos m * 2 ^ (e - e') /\ digits m' = digits m + (e - e').
Proof.
  intros He. unfold shl_align. destruct (e' - e) as [|p|p] eqn:Hd; [|lia|].
  - exists m. replace e with e' by lia. rewrite Z.sub_diag. cbn. split_and!; [done|lia|lia].
  - destruct (shift_digits p m) as [H1 H2]. eexists. split; [done|]. replace (e - e') with (Z.pos p) by lia. done.
Qed.

(** Rounding does nothing to a number of at most 53 digits in range. *)
Lemma round_exact s m e : -1074 <= e -> digits m <= 53 -> e <= 971 -> exists m' e',
  binary_round PREC EMAX s m e = S754_finite s m' e' /\ e' = canonical_exp m e /\
  Z.pos m' * 2 ^ (e' + 1074) = Z.pos m * 2 ^ (e + 1074) /\ valid (S754_finite s m' e').
Proof.
  intros He Hd Hmax. set (e' := canonical_exp m e).
  assert (He' : -1074 <= e' <= e) by (unfold e', canonical_exp; lia).
  destruct (shift_exact m e e' ltac:(lia)) as (m' & Hal & Hm' & Hd').
  assert (Hcan : fexp PREC EMAX (Zdigits2 (Z.pos m') + e') - e' = 0).
  { cbn [Zdigits2]. change (Z.pos (digits2_pos m')) with (digits m'). rewrite Hd'.
    unfold fexp, emin. subst e'. unfold canonical_exp in *. lia. }
  exists m', e'. split_and!; [|done| |].
  - unfold binary_round. change (fexp PREC EMAX (Z.pos (digits2_pos m) + e)) with e'. rewrite Hal.
    unfold binary_round_aux, shr_fexp. rewrite Hcan. cbn [shr shr_record_of_loc shr_m loc_of_shr_record round_nearest_even].
    rewrite Hcan. cbn [shr shr_record_of_loc shr_m]. by rewrite (proj2 (Z.leb_le e' (EMAX - PREC))) by lia.
  - rewrite Hm'. rewrite <- Z.mul_assoc, <- Z.pow_add_r by lia. do 2 f_equal. lia.
  - apply valid_finite. split; [|lia]. unfold canonical_exp at 1. rewrite Hd'. subst e'. unfold canonical_exp in *. lia.
Qed.

(** ** Comparing doubles *)

Definition mag (m : positive) (e : Z) : Z := Z.pos m * 2 ^ (e + 1074).

Lemma mag_pos m e : -1074 <= e -> 0 < mag m e.
Proof. intros He. unfold mag. pose proof (Z.pow_pos_nonneg 2 (e + 1074) ltac:(lia) ltac:(lia)). nia. Qed.

Lemma mag_lt_exp m1 e1 m2 e2 :
  canonical_exp m1 e1 = e1 -> canonical_exp m2 e2 = e2 -> e1 < e2 -> mag m1 e1 < mag m2 e2.
Proof.
  unfold canonical_exp, mag. intros H1 H2 He.
  pose proof (digits_spec m1) as [_ Hm1]. pose proof (digits_spec m2) as [Hm2 _].
  assert (Hd2 : digits m2 = 53) by lia. rewrite Hd2 in Hm2. assert (Hd1 : digits m1 <= 53) by lia.
  pose proof (Z.pow_le_mono_r 2 (digits m1) 53 ltac:(lia) Hd1).
  assert (Hk : 0 <= e1 + 1074) by lia. replace (e2 + 1074) with (Z.succ (e2 - e1 - 1 + (e1 + 1074))) by lia.
  remember (e1 + 1074) as k eqn:Hek. remember (e2 - e1 - 1) as d eqn:Hed. clear Hek.
  rewrite Z.pow_succ_r, Z.pow_add_r by lia.
  pose proof (Z.pow_pos_nonneg 2 k ltac:(lia) ltac:(lia)).
  pose proof (Z.pow_pos_nonneg 2 d ltac:(lia) ltac:(lia)).
  change (2 ^ 53) with (2 ^ (53 - 1) * 2) in *.
  assert (Z.pos m1 * 2 ^ k < 2 ^ (53 - 1) * 2 * 2 ^ k) by (apply Z.mul_lt_mono_pos_r; lia).
  assert (2 ^ (53 - 1) * (2 * (2 ^ d * 2 ^ k)) <= Z.pos m2 * (2 * (2 ^ d * 2 ^ k))) by (apply Z.mul_le_mono_nonneg_r; nia).
  nia.
Qed.

(** Magnitudes of canonical pairs compare by exponent, then mantissa. *)
Lemma mag_compare m1 e1 m2 e2 :
  canonical_exp m1 e1 = e1 -> canonical_exp m2 e2 = e2 ->
  (mag m1 e1 ?= mag m2 e2) =
    match e1 ?= e2 with Lt => Lt | Gt => Gt | Eq => Pos.compare_cont Eq m1 m2 end.
Proof.
  intros H1 H2. assert (He2 : -1074 <= e2) by (unfold canonical_exp in H2; lia).
  destruct (Z.compare_spec e1 e2) as [->|He|He].
  - unfold mag. pose proof (Z.pow_pos_nonneg 2 (e2 + 1074) ltac:(lia) ltac:(lia)).
    rewrite <- Zmult_compare_compat_r by lia. done.
  - by apply Z.compare_lt_iff, mag_lt_exp.
  - by apply Z.compare_gt_iff, mag_lt_exp.
Qed.

Lemma double_compare_exact a b : valid a -> valid b -> SFcompare a b = Some (fval a ?= fval b).
Proof.
  assert (Hv : forall s m e, valid (S754_finite s m e) -> canonical_exp m e = e /\ 0 < mag m e).
  { intros s m e [Hc _]%valid_finite. split; [done|]. apply mag_pos. unfold canonical_exp in Hc. lia. }
  intros Ha Hb. destruct a as [sa|sa| |sa ma ea], b as [sb|sb| |sb mb eb];
    try (destruct Ha as [Ha _]; discriminate Ha); try (destruct Hb as [Hb _]; discriminate Hb);
    cbn [SFcompare fval]; [reflexivity| | |].
  - apply Hv in Hb as [_ Hb]. f_equal. unfold mag in Hb. destruct sb; cbn [cond_Zopp]; symmetry;
      [apply Z.compare_gt_iff|apply Z.compare_lt_iff]; lia.
  - apply Hv in Ha as [_ Ha]. f_equal. unfold mag in Ha. destruct sa; cbn [cond_Zopp]; symmetry;
      [apply Z.compare_lt_iff|apply Z.compare_gt_iff]; lia.
  - apply Hv in Ha as [Hca Ha]. apply Hv in Hb as [Hcb Hb]. pose proof (mag_compare _ _ _ _ Hca Hcb) as Hm.
    unfold mag in *. f_equal. destruct sa, sb; cbn [cond_Zopp].
    + rewrite Z.compare_opp, (Z.compare_antisym (Z.pos ma * _)), Hm. by destruct (ea ?= eb).
    + symmetry. apply Z.compare_lt_iff. lia.
    + symmetry. apply Z.compare_gt_iff. lia.
    + by rewrite Hm.
Qed.

(** ** Comparing an integer and a double *)

Lemma signed_compare s a : 0 <= a -> cond_Zopp s a = (if s then -1 else 1) * a.
Proof. destruct s; cbn [cond_Zopp]; lia. Qed.

(** The parts of a double below 2^63: an integer and a fraction that keeps the
    sign. *)
Lemma trunc_parts s m e : valid (S754_finite s m e) -> e < 0 ->
  let q := Z.pos m / 2 ^ (- e) in
  let r := Z.pos m mod 2 ^ (- e) in
  f64_as_i64 (f64_trunc (S754_finite s m e)) = saturating i64 (cond_Zopp s q) /\
  zero_total_cmp (SFsub PREC EMAX (S754_finite s m e) (f64_trunc (S754_finite s m e))) =
    (if r =? 0 then Eq else if s then Gt else Lt) /\
  (SFsub PREC EMAX (S754_finite s m e) (f64_trunc (S754_finite s m e)) = S754_zero false \/
   exists m' e', SFsub PREC EMAX (S754_finite s m e) (f64_trunc (S754_finite s m e)) = S754_finite s m' e').
Proof.
  intros [Hcan Hmax]%valid_finite He. cbv zeta. cbn [f64_trunc]. rewrite (proj2 (Z.leb_gt 0 e)) by lia.
  pose proof (digits_spec m) as Hm. pose proof (digits_pos m) as Hdm.
  assert (Hd53 : digits m <= 53 /\ -1074 <= e) by (unfold canonical_exp in Hcan; lia).
  assert (Hp : 0 < 2 ^ (- e)) by (apply Z.pow_pos_nonneg; lia).
  pose proof (Z.div_mod (Z.pos m) (2 ^ (- e)) ltac:(lia)) as Hdiv.
  pose proof (Z.mod_pos_bound (Z.pos m) (2 ^ (- e)) Hp) as Hmod.
  pose proof (Z.div_pos (Z.pos m) (2 ^ (- e)) ltac:(lia) Hp) as Hq0.
  destruct (Z.pos m / 2 ^ (- e)) as [|q|q] eqn:Hq; [| |lia].
  - rewrite Z.mul_0_r, Z.add_0_l in Hdiv. rewrite <- Hdiv. cbn [f64_as_i64 SFsub zero_total_cmp].
    split; [by destruct s|]. split; [by destruct s|]. right. by eexists _, _.
  - (* [q] has [digits m + e] digits *)
    assert (Hke : 0 < digits m + e).
    { destruct (Z.lt_ge_cases (- e) (digits m)); [lia|]. exfalso.
      pose proof (Z.pow_le_mono_r 2 (digits m) (- e) ltac:(lia) ltac:(lia)). nia. }
    assert (Hdq : digits q = digits m + e).
    { apply digits_unique; [done|].
      assert (Hlow : 2 ^ (digits m - 1) = 2 ^ (digits m + e - 1) * 2 ^ (- e))
        by (rewrite <- Z.pow_add_r by lia; f_equal; lia).
      assert (Hhigh : 2 ^ digits m = 2 ^ (digits m + e) * 2 ^ (- e))
        by (rewrite <- Z.pow_add_r by lia; f_equal; lia).
      nia. }
    destruct (round_exact s q 0) as (q' & e' & Hround & He' & Hval & _); [lia..|].
    assert (e' = e) as ->.
    { rewrite He'. unfold canonical_exp in *. rewrite Hdq. lia. }
    rewrite Hround.
    assert (Hq' : Z.pos q' = Z.pos q * 2 ^ (- e)).
    { replace (0 + 1074) with (- e + (e + 1074)) in Hval by lia.
      rewrite (Z.pow_add_r 2 (- e)), Z.mul_assoc in Hval by lia. apply Z.mul_reg_r in Hval; [done|].
      pose proof (Z.pow_pos_nonneg 2 (e + 1074) ltac:(lia) ltac:(lia)). lia. }
    split.
    + cbn [f64_as_i64]. rewrite (proj2 (Z.leb_gt 0 e)) by lia. by rewrite Hq', Z.div_mul by lia.
    + cbn [SFsub]. rewrite Z.min_id. unfold shl_align. rewrite Z.sub_diag. cbn [fst].
      set (r := Z.pos m mod 2 ^ (- e)) in *.
      assert (Hr : cond_Zopp s (Z.pos m) - cond_Zopp s (Z.pos q') = cond_Zopp s r).
      { rewrite !signed_compare by lia. destruct s; nia. }
      rewrite Hr. destruct (Z.eqb_spec r 0) as [->|Hr0]; [destruct s; (split; [done|by left])|].
      destruct r as [|r|r]; [done| |lia].
      assert (Hdr : digits r <= 53).
      { pose proof (digits_spec r) as [H1 _]. pose proof (digits_pos r).
        destruct (Z.le_gt_cases (digits r) (digits m)); [lia|]. exfalso.
        pose proof (Z.pow_le_mono_r 2 (digits m) (digits r - 1) ltac:(lia) ltac:(lia)).
        pose proof (Z.mod_le (Z.pos m) (2 ^ (- e)) ltac:(lia) Hp). lia. }
      destruct (round_exact s r e) as (r' & e'' & Hrr & _); [lia..|].
      assert (binary_normalize PREC EMAX (cond_Zopp s (Z.pos r)) e false = binary_round PREC EMAX s r e) as ->
        by by destruct s.
      rewrite Hrr. split; [by destruct s|]. right. by eexists _, _.
Qed.

Lemma compare_parts i s q r P :
  0 <= q -> 0 <= r < P ->
  match i ?= cond_Zopp s q with
  | Eq => if r =? 0 then Eq else if s then Gt else Lt
  | c => c
  end = (i * P ?= cond_Zopp s (q * P + r)).
Proof.
  intros Hq Hr. symmetry. destruct (Z.compare_spec i (cond_Zopp s q)) as [->|Hlt|Hgt].
  - destruct (Z.eqb_spec r 0) as [->|Hr0]; destruct s; cbn [cond_Zopp];
      [apply Z.compare_eq_iff|apply Z.compare_eq_iff|apply Z.compare_gt_iff|apply Z.compare_lt_iff]; nia.
  - apply Z.compare_lt_iff. destruct s; cbn [cond_Zopp] in *; nia.
  - apply Z.compare_gt_iff. destruct s; cbn [cond_Zopp] in *; nia.
Qed.

Lemma f64_ge_exact a b : valid a -> valid b -> f64_ge a b = (fval b <=? fval a).
Proof.
  intros Ha Hb. unfold f64_ge. rewrite double_compare_exact by done.
  destruct (Z.compare_spec (fval a) (fval b)), (Z.leb_spec (fval b) (fval a)); (done || lia).
Qed.

Lemma f64_lt_exact a b : valid a -> valid b -> f64_lt a b = (fval a <? fval b).
Proof.
  intros Ha Hb. unfold f64_lt. rewrite double_compare_exact by done.
  destruct (Z.compare_spec (fval a) (fval b)), (Z.ltb_spec (fval a) (fval b)); (done || lia).
Qed.

(** The bounds of [i64] in the unit of [fval]. *)
Lemma two_pow_63 : valid TWO_POW_63 /\ fval TWO_POW_63 = 2 ^ 63 * 2 ^ 1074 /\
  valid MINUS_TWO_POW_63 /\ fval MINUS_TWO_POW_63 = - 2 ^ 63 * 2 ^ 1074.
Proof. split_and!; vm_compute; split_and?; reflexivity. Qed.

Lemma cmp_int_double_exact i d : fits i64 i -> valid d -> cmp_int_double i d = (i * 2 ^ 1074 ?= fval d).
Proof.
  intros Hi Hd. destruct two_pow_63 as (Hv & Hf & Hv' & Hf'). unfold cmp_int_double. cbv zeta.
  rewrite f64_ge_exact, f64_lt_exact, Hf, Hf' by done. clear Hv Hv' Hf Hf'.
  assert (H63 : - 2 ^ 63 <= i < 2 ^ 63) by (unfold fits in Hi; cbn in Hi; lia). clear Hi.
  assert (H1074 : 0 < 2 ^ 1074) by (apply Z.pow_pos_nonneg; lia).
  destruct d as [s|s| |s m e]; try (destruct Hd as [Hd _]; discriminate Hd).
  - (* zero *)
    change (fval (S754_zero s)) with 0. rewrite (proj2 (Z.leb_gt _ _)), (proj2 (Z.ltb_ge _ _)) by nia.
    cbn [f64_trunc f64_as_i64]. replace (i * 2 ^ 1074 ?= 0) with (i ?= 0) by (by rewrite <- (Z.mul_0_l (2 ^ 1074)) at 2; apply Zmult_compare_compat_r; lia).
    destruct (i ?= 0); [destruct s|..]; reflexivity.
  - pose proof Hd as [Hcan Hmax]%valid_finite. cbn [fval].
    assert (He : -1074 <= e) by (unfold canonical_exp in Hcan; lia). destruct (Z.le_gt_cases 0 e) as [He0|He0].
    + (* an integer *)
      rewrite (Z.pow_add_r 2 e 1074) by lia. rewrite Z.mul_assoc.
      set (n := Z.pos m * 2 ^ e). assert (Hn : cond_Zopp s (n * 2 ^ 1074) = cond_Zopp s n * 2 ^ 1074)
        by (destruct s; cbn [cond_Zopp]; lia).
      rewrite Hn, <- Zmult_compare_compat_r by lia.
      destruct (Z.leb_spec (2 ^ 63 * 2 ^ 1074) (cond_Zopp s n * 2 ^ 1074)) as [Hge|Hlt].
      { symmetry. apply Z.compare_lt_iff. nia. }
      destruct (Z.ltb_spec (cond_Zopp s n * 2 ^ 1074) (- 2 ^ 63 * 2 ^ 1074)) as [Hl|Hge].
      { symmetry. apply Z.compare_gt_iff. nia. }
      cbn [f64_trunc]. rewrite (proj2 (Z.leb_le 0 e)) by lia. cbn [f64_as_i64]. rewrite (proj2 (Z.leb_le 0 e)) by lia.
      fold n. rewrite saturating_id by (unfold fits; cbn; nia).
      destruct (i ?= cond_Zopp s n); [|done|done]. cbn [SFsub]. rewrite Z.sub_diag. done.
    + (* a fraction *)
      destruct (trunc_parts s m e Hd He0) as (Hq & Hr & _). cbv zeta in Hq, Hr.
      assert (Hsplit : 2 ^ 1074 = 2 ^ (- e) * 2 ^ (e + 1074)) by (rewrite <- Z.pow_add_r by lia; f_equal; lia).
      assert (HK : 0 < 2 ^ (e + 1074)) by (apply Z.pow_pos_nonneg; lia).
      assert (HP : 0 < 2 ^ (- e)) by (apply Z.pow_pos_nonneg; lia).
      pose proof (Z.div_mod (Z.pos m) (2 ^ (- e)) ltac:(lia)) as Hdiv.
      pose proof (Z.mod_pos_bound (Z.pos m) (2 ^ (- e)) HP) as Hmod.
      pose proof (Z.div_pos (Z.pos m) (2 ^ (- e)) ltac:(lia) HP) as Hq0.
      rewrite Hsplit. set (P := 2 ^ (- e)) in *. set (K := 2 ^ (e + 1074)) in *.
      set (q := Z.pos m / P) in *. set (r := Z.pos m mod P) in *. rewrite (Z.mul_comm P q) in Hdiv. rewrite Hdiv.
      assert (Hv : cond_Zopp s ((q * P + r) * K) = cond_Zopp s (q * P + r) * K) by (destruct s; cbn [cond_Zopp]; lia).
      rewrite Hv, !Z.mul_assoc, <- Zmult_compare_compat_r by lia.
      destruct (Z.leb_spec (2 ^ 63 * P * K) (cond_Zopp s (q * P + r) * K)) as [Hge|Hlt].
      { symmetry. apply Z.compare_lt_iff. apply Z.mul_le_mono_pos_r in Hge; [nia|done]. }
      destruct (Z.ltb_spec (cond_Zopp s (q * P + r) * K) (- 2 ^ 63 * P * K)) as [Hl|Hge].
      { symmetry. apply Z.compare_gt_iff. apply Z.mul_lt_mono_pos_r in Hl; [nia|done]. }
      apply Z.mul_lt_mono_pos_r in Hlt; [|done]. apply Z.mul_le_mono_pos_r in Hge; [|done].
      rewrite Hq, Hr, saturating_id; [by apply compare_parts|].
      unfold fits. destruct s; cbn [cond_Zopp] in *; cbn; nia.
Qed.

Lemma total_cmp_value a b :
  number_ok a -> number_ok b -> total_cmp a b = (value a ?= value b).
Proof.
  intros Ha Hb. destruct a as [i|d], b as [j|f]; cbn [total_cmp value number_ok] in *.
  - by rewrite <- Zmult_compare_compat_r by (apply Z.lt_gt, Z.pow_pos_nonneg; lia).
  - by apply cmp_int_double_exact.
  - rewrite cmp_int_double_exact by done. symmetry. apply Z.compare_antisym.
  - by rewrite double_compare_exact.
Qed.

(** The comparison of numbers is the exact numeric one, between integers and
    doubles as well: for all 64-bit integers and finite doubles, [total_cmp]
    compares the values exactly (in units of the least positive double), so that
    it is reflexive, antisymmetric and transitive, -0.0 equals 0, and [==] holds
    between an integer and a double only if they are the same number, no rounding
    involved. *)
Theorem number_order_exact a b :
  number_ok a -> number_ok b ->
  total_cmp a b = (value a ?= value b) /\ (number_eq a b = true <-> value a = value b) /\
  total_cmp b a = CompOpp (total_cmp a b).
Proof.
  intros Ha Hb. unfold number_eq. rewrite (total_cmp_value b a), total_cmp_value by done.
  split_and!; [done| |apply Z.compare_antisym]. rewrite <- Z.compare_eq_iff. by destruct (value a ?= value b).
Qed.

Lemma number_order_exact_witness :
  let a := Int (2 ^ 53 + 1) in
  let b := Double (S754_finite false (2 ^ 52) 1) in
  (total_cmp a b = (value a ?= value b) /\ (number_eq a b = true <-> value a = value b) /\
   total_cmp b a = CompOpp (total_cmp a b)) /\ total_cmp a b = Gt.
Proof.
  split; [|vm_compute; reflexivity].
  apply number_order_exact; [vm_compute; split; discriminate|split; vm_compute; reflexivity].
Defined.
