(* ===== verification/DbNode.v ===== *)
(** * Realtime Database nodes

    Models [crates/fireemu-core-database/src/json.rs] and node.rs: the JSON value
    the adapters exchange with the core, the nodes of the tree, and the two
    conversions.  A [BTreeMap] is a [gmap]; where the code iterates one, the
    entries come in key order ([btree_map_iter]).  [build] recurses through
    [from_entries]: the recursive results are functions of the position, computed
    from the children first and applied in the order of the code. *)
From S2P Require Import Prelude Text DbKey DbPath DbNumber.
From Stdlib Require Import SpecFloat.

#[local] Set Warnings "-register-all".

(** json.rs *)
Inductive Json :=
| JNull
| JBool (b : bool)
| JNumber (n : Number)
| JString (s : text)
| JArray (items : list Json)
| JObject (m : gmap text Json).

(** [Json::object] *)
Definition json_object (entries : list (text * Json)) : Json := JObject (list_to_map (rev entries)).

Definition VALUE_KEY : text := chars ".value".
Definition SERVER_VALUE_KEY : text := chars ".sv".

Inductive Leaf := Bool (b : bool) | NumberLeaf (n : Number) | StringLeaf (s : text).

Inductive Priority := NumberPriority (n : Number) | StringPriority (s : text).

Inductive Node : Type := MkNode (content : Content) (priority : option Priority)
with Content : Type := LeafContent (l : Leaf) | Children (m : gmap text Node).

Definition content (n : Node) : Content := let 'MkNode c _ := n in c.
Definition priority (n : Node) : option Priority := let 'MkNode _ p := n in p.

Record Position := { pos_depth : Z; pos_bytes : Z }.

Inductive Format := Plain | Export.

#[global] Instance Format_eq_dec : EqDecision Format.
Proof. solve_decision. Defined.

(** ** Leaves and priorities *)

Definition type_rank (l : Leaf) : Z :=
  match l with Bool _ => 0 | NumberLeaf _ => 1 | StringLeaf _ => 2 end.

(** [false < true] *)
Definition bool_cmp (a b : bool) : comparison := Z.b2z a ?= Z.b2z b.

Definition value_cmp (a b : Leaf) : comparison :=
  match a, b with
  | Bool a, Bool b => bool_cmp a b
  | NumberLeaf a, NumberLeaf b => total_cmp a b
  | StringLeaf a, StringLeaf b => utf16_cmp a b
  | _, _ => type_rank a ?= type_rank b
  end.

Definition leaf_to_json (l : Leaf) : Json :=
  match l with Bool b => JBool b | NumberLeaf n => JNumber n | StringLeaf s => JString s end.

Definition as_leaf (p : Priority) : Leaf :=
  match p with NumberPriority n => NumberLeaf n | StringPriority s => StringLeaf s end.

Definition priority_to_json (p : Priority) : Json :=
  match p with NumberPriority n => JNumber n | StringPriority s => JString s end.

Definition priority_from_json (json : Json) : result (option Priority) DatabaseError :=
  match json with
  | JNull => Ok None
  | JNumber n => Ok (Some (NumberPriority n))
  | JString s => Ok (Some (StringPriority s))
  | JBool _ | JArray _ | JObject _ => db_err InvalidPriority
  end.

Definition compare_values (a b : option Node) : comparison :=
  match content <$> a, content <$> b with
  | None, None | Some (Children _), Some (Children _) => Eq
  | None, Some _ | Some (LeafContent _), Some (Children _) => Lt
  | Some _, None | Some (Children _), Some (LeafContent _) => Gt
  | Some (LeafContent x), Some (LeafContent y) => value_cmp x y
  end.

(** ** Reading JSON *)

Definition leaf_node (l : Leaf) : Node := MkNode (LeafContent l) None.

Definition with_priority (p : option Priority) (n : Node) : Node := MkNode (content n) p.

(** The loop of [from_entries] over the entries that are left. *)
Fixpoint from_entries_loop (entries : list (text * (Position -> result (option Node) DatabaseError)))
    (at_ : Position) (limits : Limits) (children : gmap text Node) : result (gmap text Node) DatabaseError :=
  match entries with
  | [] => Ok children
  | (key, value) :: entries =>
      match validate_key key with
      | Err e => Err e
      | Ok _ =>
          let separator := if 0 <? pos_depth at_ then 1 else 0 in
          let child_at := {| pos_depth := pos_depth at_ + 1; pos_bytes := pos_bytes at_ + separator + str_len key |} in
          match check_path_bytes (pos_bytes child_at) limits with
          | Err e => Err e
          | Ok _ =>
              match value child_at with
              | Err e => Err e
              | Ok None => from_entries_loop entries at_ limits children
              | Ok (Some child) => from_entries_loop entries at_ limits (<[key := child]> children)
              end
          end
      end
  end.

Definition from_entries (entries : list (text * (Position -> result (option Node) DatabaseError)))
    (prio : option Priority) (at_ : Position) (limits : Limits) : result (option Node) DatabaseError :=
  match from_entries_loop entries at_ limits ∅ with
  | Err e => Err e
  | Ok children =>
      if decide (children = ∅) then
        match prio with Some _ => db_err InvalidData | None => Ok None end
      else Ok (Some (MkNode (Children children) prio))
  end.

(** A [.priority] member's number is stored as a double. *)
Definition member_priority (p : Priority) : Priority :=
  match p with NumberPriority n => NumberPriority (Double (as_f64 n)) | StringPriority s => StringPriority s end.

Definition is_container (json : Json) : bool :=
  match json with JArray _ | JObject _ => true | _ => false end.

(** [from_object]; [values] is what [build] makes of the members of [map]. *)
Definition from_object (map : gmap text Json)
    (values : gmap text (Position -> result (option Node) DatabaseError))
    (at_ : Position) (limits : Limits) : result (option Node) DatabaseError :=
  if decide (is_Some (map !! SERVER_VALUE_KEY)) then db_err InvalidServerValue
  else
    match match map !! PRIORITY_KEY with
          | Some json => match priority_from_json json with
                         | Ok p => Ok (member_priority <$> p)
                         | Err e => Err e
                         end
          | None => Ok None
          end with
    | Err e => Err e
    | Ok prio =>
        match map !! VALUE_KEY with
        | Some value =>
            if negb (bool_decide (delete VALUE_KEY (delete PRIORITY_KEY map) = ∅)) || is_container value
            then db_err InvalidData
            else match values !! VALUE_KEY with
                 | None => db_err InvalidData (* not reached: the two maps have the same keys *)
                 | Some node =>
                     match node at_ with
                     | Err e => Err e
                     | Ok None => match prio with Some _ => db_err InvalidData | None => Ok None end
                     | Ok (Some n) => Ok (Some (with_priority prio n))
                     end
                 end
        | None => from_entries (btree_map_iter (delete PRIORITY_KEY values)) prio at_ limits
        end
    end.

(** The keys of an array's entries. *)
Definition index_keys {A} (items : list A) : list (text * A) :=
  imap (fun i item => (decimal (Z.of_nat i), item)) items.

Fixpoint build (limits : Limits) (json : Json) (at_ : Position) {struct json} : result (option Node) DatabaseError :=
  if max_depth limits <? pos_depth at_ then db_err PathTooDeep
  else
    match json with
    | JNull => Ok None
    | JBool b => Ok (Some (leaf_node (Bool b)))
    | JNumber n => Ok (Some (leaf_node (NumberLeaf n)))
    | JString s =>
        if max_string_bytes limits <? str_len s then db_err StringTooLong
        else Ok (Some (leaf_node (StringLeaf s)))
    | JArray items => from_entries (index_keys ((fun item => build limits item) <$> items)) None at_ limits
    | JObject map => from_object map ((fun value => build limits value) <$> map) at_ limits
    end.

Definition from_json (json : Json) (at_ : Path) (limits : Limits) : result (option Node) DatabaseError :=
  build limits json {| pos_depth := Z.of_nat (depth at_); pos_bytes := byte_len at_ |}.

(** ** Writing JSON *)

(** [key.parse::<usize>()] of a canonical index. *)
Definition parse_index (key : text) : option Z := checked usize (dec_value key).

Definition canonical_index (key : text) : bool :=
  bool_decide (key = chars "0")
  || (negb (bool_decide (key = [])) && negb (starts_with [ch "0"] key) && forallb is_ascii_digit key).

(** The loop of [array_length] over the keys. *)
Fixpoint max_index (ks : list text) (m : Z) : option Z :=
  match ks with
  | [] => Some m
  | key :: ks =>
      if negb (canonical_index key) then None
      else match parse_index key with None => None | Some i => max_index ks (Z.max m i) end
  end.

Definition array_length {A} (children : gmap text A) : option Z :=
  m ← max_index (btree_map_iter children).*1 0;
  if m <? 2 * Z.of_nat (size children) then Some (m + 1) else None.

(** The loop that fills the slots of a rendered array. *)
Definition fill_slots (items : list Json) (children : list (text * Json)) : list Json :=
  fold_left (fun items '(key, v) =>
    match parse_index key with Some i => <[Z.to_nat i := v]> items | None => items end) children items.

Fixpoint to_json (format : Format) (n : Node) : Json :=
  match n with
  | MkNode c prio =>
      let prio := match format with Plain => None | Export => prio end in
      match c with
      | LeafContent leaf =>
          match prio with
          | None => leaf_to_json leaf
          | Some p => json_object [(VALUE_KEY, leaf_to_json leaf); (PRIORITY_KEY, priority_to_json p)]
          end
      | Children m =>
          let members := (fun c => to_json format c) <$> m in
          match format with
          | Plain =>
              match array_length m with
              | Some len => JArray (fill_slots (replicate (Z.to_nat len) JNull) (btree_map_iter members))
              | None => JObject members
              end
          | Export =>
              JObject (match prio with
                       | Some p => <[PRIORITY_KEY := priority_to_json p]> members
                       | None => members
                       end)
          end
      end
  end.

Definition shallow (n : Node) : Json :=
  match content n with
  | LeafContent leaf => leaf_to_json leaf
  | Children m => JObject ((fun _ => JBool true) <$> m)
  end.

(** ** Reading nodes *)

Definition node_child (n : Node) (key : text) : option Node :=
  match content n with LeafContent _ => None | Children m => m !! key end.

Fixpoint descendant (n : Node) (ks : list text) : option Node :=
  match ks with
  | [] => Some n
  | key :: ks => match node_child n key with None => None | Some c => descendant c ks end
  end.

(** The levels of keys below a node. *)
Fixpoint node_depth (n : Node) : nat :=
  match n with
  | MkNode (LeafContent _) _ => 0
  | MkNode (Children m) _ => S (map_fold (fun _ c d => Nat.max (node_depth c) d) 0%nat m)
  end.

(** [==] on nodes: numbers by value, so that [1] equals [1.0]. *)
Definition leaf_eqb (a b : Leaf) : bool :=
  match a, b with
  | Bool a, Bool b => bool_decide (a = b)
  | NumberLeaf a, NumberLeaf b => number_eq a b
  | StringLeaf a, StringLeaf b => bool_decide (a = b)
  | _, _ => false
  end.

Definition priority_eqb (a b : option Priority) : bool :=
  match a, b with
  | None, None => true
  | Some a, Some b => leaf_eqb (as_leaf a) (as_leaf b)
  | _, _ => false
  end.

Fixpoint node_eqb (n n' : Node) : bool :=
  match n, n' with
  | MkNode c p, MkNode c' p' =>
      priority_eqb p p' &&
      match c, c' with
      | LeafContent l, LeafContent l' => leaf_eqb l l'
      | Children m, Children m' =>
          map_fold (fun k c b => b && match m' !! k with Some c' => node_eqb c c' | None => false end)
            (size m =? size m')%nat m
      | _, _ => false
      end
  end.

(** ** Induction on trees *)

Lemma node_induction (P : Node -> Prop) :
  (forall l p, P (MkNode (LeafContent l) p)) ->
  (forall m p, (forall k c, m !! k = Some c -> P c) -> P (MkNode (Children m) p)) ->
  forall n, P n.
Proof.
  intros Hleaf Hchildren n. induction n as [n IH] using (induction_ltof1 _ node_depth). unfold ltof in IH.
  destruct n as [[l|m] p]; [apply Hleaf|]. apply Hchildren. intros k c Hk. apply IH.
  cbn [node_depth]. pose proof (map_fold_max_ge node_depth m k c Hk). lia.
Qed.

Fixpoint json_depth (j : Json) : nat :=
  match j with
  | JArray items => S (foldr (fun i d => Nat.max (json_depth i) d) 0%nat items)
  | JObject m => S (map_fold (fun _ c d => Nat.max (json_depth c) d) 0%nat m)
  | _ => 0
  end.

Lemma json_induction (P : Json -> Prop) :
  P JNull -> (forall b, P (JBool b)) -> (forall n, P (JNumber n)) -> (forall s, P (JString s)) ->
  (forall items, (forall j, j ∈ items -> P j) -> P (JArray items)) ->
  (forall m, (forall k j, m !! k = Some j -> P j) -> P (JObject m)) ->
  forall j, P j.
Proof.
  intros Hn Hb Hnum Hs Ha Ho j. induction j as [j IH] using (induction_ltof1 _ json_depth). unfold ltof in IH.
  destruct j as [|b|n|s|items|m]; auto.
  - apply Ha. intros j Hj. apply IH. cbn [json_depth]. pose proof (foldr_max_ge json_depth items j Hj). lia.
  - apply Ho. intros k j Hj. apply IH. cbn [json_depth]. pose proof (map_fold_max_ge json_depth m k j Hj). lia.
Qed.

(** ** The loop over entries *)

Definition child_position (at_ : Position) (key : text) : Position :=
  {| pos_depth := pos_depth at_ + 1;
     pos_bytes := pos_bytes at_ + (if 0 <? pos_depth at_ then 1 else 0) + str_len key |}.

(** A key that a written child may have at a position. *)
Definition key_fits (limits : Limits) (at_ : Position) (key : text) : Prop :=
  key_ok key /\ pos_bytes (child_position at_ key) <= max_path_bytes limits.

Lemma key_fits_checks limits at_ key :
  key_fits limits at_ key <->
  validate_key key = Ok tt /\ check_path_bytes (pos_bytes (child_position at_ key)) limits = Ok tt.
Proof.
  unfold key_fits. rewrite validate_key_ok. unfold check_path_bytes.
  destruct (Z.ltb_spec (max_path_bytes limits) (pos_bytes (child_position at_ key))); split;
    intros [? ?]; (done || (split; [done|lia])).
Qed.

Definition entry_gives (limits : Limits) (at_ : Position)
    (entry : text * (Position -> result (option Node) DatabaseError)) (o : option Node) : Prop :=
  key_fits limits at_ entry.1 /\ entry.2 (child_position at_ entry.1) = Ok o.

(** The children that the built entries give. *)
Definition keep (o : option Node) (key : text) (m : gmap text Node) : gmap text Node :=
  match o with Some c => <[key := c]> m | None => m end.

Fixpoint keep_all (ks : list text) (os : list (option Node)) (m : gmap text Node) : gmap text Node :=
  match ks, os with k :: ks, o :: os => keep_all ks os (keep o k m) | _, _ => m end.

Lemma from_entries_loop_Ok limits at_ entries : forall m res,
  from_entries_loop entries at_ limits m = Ok res <->
  exists os, Forall2 (entry_gives limits at_) entries os /\ res = keep_all entries.*1 os m.
Proof.
  induction entries as [|[key value] entries IH]; intros m res.
  - split; [intros [= <-]; by exists []|]. by intros (os & Hos%Forall2_nil_inv_l & ->).
  - cbn [from_entries_loop]. cbv zeta. change {| pos_depth := _; pos_bytes := _ |} with (child_position at_ key).
    pose proof (key_fits_checks limits at_ key) as Hk. split.
    + destruct (validate_key key) as [[]|]; [|done]. destruct (check_path_bytes _ _) as [[]|]; [|done].
      destruct (value (child_position at_ key)) as [o|] eqn:Hv; [|done]. intros Hl.
      assert (Hl' : from_entries_loop entries at_ limits (keep o key m) = Ok res) by by destruct o.
      apply IH in Hl' as (os & Hos & ->). exists (o :: os). split; [|done].
      constructor; [|done]. split; [by apply Hk|done].
    + intros (os & Hos & ->). apply Forall2_cons_inv_l in Hos as (o & os' & [Hfit Hv] & Hos & ->).
      cbn [fst snd] in Hfit, Hv. destruct (proj1 Hk Hfit) as [-> ->]. rewrite Hv.
      destruct o; apply IH; by exists os'.
Qed.

Lemma lookup_keep_all ks : forall os m k, NoDup ks -> length ks = length os ->
  (forall k, k ∈ ks -> m !! k = None) ->
  keep_all ks os m !! k =
    match list_to_map (M := gmap text (option Node)) (zip ks os) !! k with Some o => o | None => m !! k end.
Proof.
  induction ks as [|k' ks IH]; intros [|o os] m k Hnd Hlen Hm; try done.
  apply NoDup_cons in Hnd as [Hk' Hnd]. cbn [keep_all zip zip_with].
  change (list_to_map ((k', o) :: zip ks os)) with (<[k' := o]> (list_to_map (M := gmap text (option Node)) (zip ks os))).
  rewrite IH; [|done|cbn in Hlen; lia|].
  - destruct (decide (k = k')) as [->|Hne].
    + rewrite lookup_insert_eq.
      assert (list_to_map (M := gmap text (option Node)) (zip ks os) !! k' = None) as ->.
      { apply not_elem_of_list_to_map. intros Hin. apply Hk'.
        rewrite fst_zip in Hin by (cbn in Hlen; lia). done. }
      destruct o; cbn [keep]; [by rewrite lookup_insert_eq|apply Hm; by left].
    + rewrite lookup_insert_ne by done. destruct (_ !! k); [done|].
      destruct o; cbn [keep]; [by rewrite lookup_insert_ne|done].
  - intros j Hj. destruct o; cbn [keep]; [rewrite lookup_insert_ne by set_solver|]; apply Hm; by right.
Qed.

(** Entries with distinct keys: what the built children are, and when they are
    built. *)
Lemma from_entries_spec limits at_ entries prio res :
  NoDup entries.*1 ->
  from_entries entries prio at_ limits = Ok res <->
  exists m, from_entries_loop entries at_ limits ∅ = Ok m /\
    (forall k f, (k, f) ∈ entries -> entry_gives limits at_ (k, f) (m !! k)) /\
    (forall k, k ∉ entries.*1 -> m !! k = None) /\
    ((m = ∅ /\ prio = None /\ res = None) \/ (m <> ∅ /\ res = Some (MkNode (Children m) prio))).
Proof.
  intros Hnd. unfold from_entries. split.
  - destruct (from_entries_loop _ _ _ _) as [m|] eqn:Hl; [|done]. intros Hres. exists m.
    split; [done|]. apply from_entries_loop_Ok in Hl as (os & Hos & ->).
    pose proof (Forall2_length _ _ _ Hos) as Hlen.
    assert (Hlook : forall k, keep_all entries.*1 os ∅ !! k =
      match list_to_map (M := gmap text (option Node)) (zip entries.*1 os) !! k with Some o => o | None => (∅ : gmap text Node) !! k end).
    { intros k. apply lookup_keep_all; [done|by rewrite length_fmap|]. intros. apply lookup_empty. }
    assert (Hzip : (zip entries.*1 os).*1 = entries.*1) by (apply fst_zip; rewrite length_fmap; lia).
    split_and!.
    + intros k f Hin. rewrite Hlook. apply list_elem_of_lookup in Hin as [i Hi].
      destruct (Forall2_lookup_l _ _ _ _ _ Hos Hi) as (o & Ho & Hgives).
      rewrite (elem_of_list_to_map_1 (zip entries.*1 os) k o); [done|by rewrite Hzip|].
      apply list_elem_of_lookup. exists i. apply lookup_zip_with_Some. exists k, o.
      split_and!; [done|by rewrite list_lookup_fmap, Hi|done].
    + intros k Hk. rewrite Hlook. rewrite not_elem_of_list_to_map_1 by (by rewrite Hzip). apply lookup_empty.
    + case_decide; [|right; split; [done|by simplify_eq]]. destruct prio; [done|]. left. by simplify_eq.
  - intros (m & -> & _ & _ & [(-> & -> & ->)|[Hne ->]]); [by rewrite decide_True|by rewrite decide_False].
Qed.

Lemma from_entries_build limits at_ entries prio m :
  NoDup entries.*1 -> (forall k f, (k, f) ∈ entries -> entry_gives limits at_ (k, f) (m !! k)) ->
  (forall k, k ∉ entries.*1 -> m !! k = None) -> m <> ∅ ->
  from_entries entries prio at_ limits = Ok (Some (MkNode (Children m) prio)).
Proof.
  intros Hnd Hgives Hnone Hne.
  set (m' := keep_all entries.*1 ((fun k => m !! k) <$> entries.*1) ∅).
  assert (Hl : from_entries_loop entries at_ limits ∅ = Ok m').
  { apply from_entries_loop_Ok. eexists. split; [|done]. clear Hnd Hnone.
    induction entries as [|[k f] entries IH]; [constructor|]. cbn [fmap list_fmap]. constructor.
    - apply Hgives. by left.
    - apply IH. intros k' f' Hin. apply Hgives. by right. }
  assert (m' = m) as Heq.
  { apply map_eq. intros k. unfold m'. rewrite lookup_keep_all; [|done|by rewrite !length_fmap|intros; apply lookup_empty].
    destruct (decide (k ∈ entries.*1)) as [Hk|Hk].
    - rewrite (elem_of_list_to_map_1 _ k (m !! k)); [done|rewrite fst_zip by (rewrite !length_fmap; lia); done|].
      apply list_elem_of_lookup in Hk as [i Hi]. apply list_elem_of_lookup. exists i.
      apply lookup_zip_with_Some. exists k, (m !! k).
      split_and!; [done..|]. by rewrite (list_lookup_fmap (fun k => m !! k)), Hi.
    - rewrite not_elem_of_list_to_map_1 by (rewrite fst_zip by (rewrite !length_fmap; lia); done).
      rewrite Hnone by done. apply lookup_empty. }
  unfold from_entries. rewrite Hl, Heq. by rewrite decide_False.
Qed.

Lemma btree_entries {V} (m : gmap text V) : NoDup (btree_map_iter m).*1.
Proof. change ((btree_map_iter m).*1) with (map fst (btree_map_iter m)). rewrite btree_map_iter_keys. apply NoDup_btree_iter. Qed.

Lemma elem_of_btree_keys {V} (m : gmap text V) k : k ∈ (btree_map_iter m).*1 <-> is_Some (m !! k).
Proof.
  change ((btree_map_iter m).*1) with (map fst (btree_map_iter m)).
  by rewrite btree_map_iter_keys, elem_of_btree_iter, elem_of_dom.
Qed.

(** ** Decimal keys *)

Lemma decimal_inj i j : 0 <= i -> 0 <= j -> decimal i = decimal j -> i = j.
Proof. intros Hi Hj Heq. by rewrite <- (decimal_value i Hi), Heq, decimal_value. Qed.

Lemma dec_aux_more fuel : forall fuel' n acc, 0 <= n < 2 ^ Z.of_nat fuel -> (fuel <= fuel')%nat -> (0 < fuel)%nat ->
  dec_aux fuel' n acc = dec_aux fuel n acc.
Proof.
  induction fuel as [|fuel IH]; intros fuel' n acc Hn Hf Hpos; [lia|]. destruct fuel' as [|fuel']; [lia|].
  cbn [dec_aux]. destruct (Z.ltb_spec n 10); [done|]. rewrite Nat2Z.inj_succ, Z.pow_succ_r in Hn by lia.
  assert (0 <= n / 10 < 2 ^ Z.of_nat fuel) by (split; [apply Z.div_pos; lia|apply Z.div_lt_upper_bound; lia]).
  destruct fuel; [cbn in Hn; lia|]. apply IH; lia.
Qed.

Lemma dec_aux_app fuel : forall n acc, dec_aux fuel n acc = dec_aux fuel n [] ++ acc.
Proof.
  induction fuel as [|fuel IH]; intros n acc; [done|]. cbn [dec_aux]. destruct (n <? 10); [done|].
  by rewrite IH, (IH _ [_]), <- (assoc_L (++)).
Qed.

Lemma decimal_snoc n : 10 <= n -> decimal n = decimal (n / 10) ++ [48 + n mod 10].
Proof.
  intros Hn. unfold decimal at 1. cbn [dec_aux]. rewrite (proj2 (Z.ltb_ge n 10)) by lia. rewrite dec_aux_app. f_equal.
  assert (0 <= n / 10) by (apply Z.div_pos; lia).
  assert (Hlog : (S (Z.to_nat (Z.log2 (n / 10))) <= Z.to_nat (Z.log2 n))%nat).
  { enough (Z.log2 (n / 10) < Z.log2 n) by (pose proof (Z.log2_nonneg (n / 10)); lia).
    apply Z.log2_lt_pow2; [apply Z.div_str_pos; lia|]. pose proof (Z.log2_spec n ltac:(lia)) as [_ Hl].
    apply Z.div_lt_upper_bound; [lia|]. rewrite Z.pow_succ_r in Hl by apply Z.log2_nonneg. lia. }
  unfold decimal. apply dec_aux_more; [apply log2_fuel; lia|done|lia].
Qed.

(** An index is the decimal of its value. *)
Lemma canonical_decimal key : canonical_index key = true -> decimal (dec_value key) = key.
Proof.
  unfold canonical_index. rewrite orb_true_iff, bool_decide_eq_true. intros [->|Hc]; [done|].
  rewrite !andb_true_iff, !negb_true_iff, bool_decide_eq_false, digits_forallb in Hc.
  destruct Hc as [[Hne Hz] Hd]. unfold starts_with in Hz. apply bool_decide_eq_false in Hz.
  induction key as [|d key IH] using rev_ind; [done|]. clear Hne.
  apply Forall_app in Hd as [Hd Hd1]. apply Forall_cons in Hd1 as [Hd1 _].
  unfold dec_value. rewrite fold_dec_app. cbn [fold_left]. change (fold_left dec_step key 0) with (dec_value key).
  unfold dec_step. destruct (decide (key = [])) as [->|Hkey].
  - cbn. assert (d <> 48) by (intros ->; apply Hz; by exists []).
    unfold decimal. cbn [dec_aux]. rewrite (proj2 (Z.ltb_lt _ _)) by lia. rewrite Z.mod_small by lia. f_equal. lia.
  - assert (Hz' : ~ [ch "0"] `prefix_of` key).
    { intros [r ->]. apply Hz. exists (r ++ [d]). by rewrite (assoc_L (++)). }
    specialize (IH Hkey Hz' Hd). assert (Hpos : 1 <= dec_value key).
    { destruct key as [|c key]; [done|]. rewrite dec_value_cons. inversion_clear Hd as [|? ? Hc Hd'].
      assert (c <> 48) by (intros ->; apply Hz'; by exists key).
      pose proof (dec_value_bound _ Hd'). pose proof (Z.pow_pos_nonneg 10 (Z.of_nat (length key)) ltac:(lia) ltac:(lia)).
      nia. }
    rewrite decimal_snoc by lia. rewrite Z.div_add_l by lia. rewrite (Z.div_small (d - 48)) by lia. rewrite Z.add_0_r, IH.
    pose proof (Z.mod_unique_pos (dec_value key * 10 + (d - 48)) 10 (dec_value key) (d - 48) ltac:(lia) ltac:(lia)) as Hm.
    f_equal. by (rewrite <- Hm; f_equal; lia).
Qed.

Lemma decimal_key_ok i : 0 <= i -> key_ok (decimal i).
Proof.
  intros Hi. pose proof (decimal_digits i Hi) as Hd. split.
  - intros Hnil. unfold decimal in Hnil. cbn [dec_aux] in Hnil. destruct (i <? 10); [done|].
    rewrite dec_aux_app in Hnil. by destruct (dec_aux _ _ []).
  - intros c Hc. unfold digits_ok in Hd. rewrite Forall_forall in Hd. specialize (Hd c Hc).
    cbn in Hd. unfold is_forbidden. cbn -[Z.eqb Z.leb]. unfold ch. cbn -[Z.eqb Z.leb]. lia.
Qed.

Lemma index_keys_elem {A} (items : list A) k x :
  (k, x) ∈ index_keys items <-> exists i, k = decimal (Z.of_nat i) /\ items !! i = Some x.
Proof.
  unfold index_keys. rewrite elem_of_lookup_imap. split.
  - intros (i & y & [= -> ->] & Hi). by exists i.
  - intros (i & -> & Hi). by exists i, x.
Qed.

Lemma index_keys_fst {A} (items : list A) : (index_keys items).*1 = (fun i => decimal (Z.of_nat i)) <$> seq 0 (length items).
Proof.
  unfold index_keys. rewrite fmap_imap. apply list_eq. intros i.
  rewrite list_lookup_imap, list_lookup_fmap. destruct (items !! i) as [x|] eqn:Hi.
  - apply lookup_lt_Some in Hi as Hlt. rewrite lookup_seq_lt by lia. done.
  - apply lookup_ge_None in Hi. by rewrite lookup_seq_ge.
Qed.

Lemma index_keys_NoDup {A} (items : list A) : NoDup (index_keys items).*1.
Proof.
  rewrite index_keys_fst. apply NoDup_fmap_2_strong; [|apply NoDup_seq].
  intros i j _ _ Heq%decimal_inj; lia.
Qed.

(** ** What a written node satisfies *)

Inductive stored (limits : Limits) : Position -> Node -> Prop :=
| stored_leaf at_ l p :
    pos_depth at_ <= max_depth limits ->
    (forall s, l = StringLeaf s -> str_len s <= max_string_bytes limits) ->
    stored limits at_ (MkNode (LeafContent l) p)
| stored_children at_ m p :
    pos_depth at_ <= max_depth limits -> m <> ∅ ->
    (forall k c, m !! k = Some c -> key_fits limits at_ k) ->
    (forall k c, m !! k = Some c -> stored limits (child_position at_ k) c) ->
    stored limits at_ (MkNode (Children m) p).

(** Every priority of a node, itself included. *)
Inductive priorities (P : option Priority -> Prop) : Node -> Prop :=
| priorities_leaf l p : P p -> priorities P (MkNode (LeafContent l) p)
| priorities_children m p :
    P p -> (forall k c, m !! k = Some c -> priorities P c) -> priorities P (MkNode (Children m) p).

(** A priority as a [.priority] member leaves it. *)
Definition member_form (p : option Priority) : Prop := member_priority <$> p = p.

Lemma stored_depth limits at_ n : stored limits at_ n -> pos_depth at_ <= max_depth limits.
Proof. by inversion_clear 1. Qed.

Lemma stored_with_priority limits at_ p n : stored limits at_ n -> stored limits at_ (with_priority p n).
Proof. inversion_clear 1; by constructor. Qed.

Lemma member_priority_idem p : member_priority (member_priority p) = member_priority p.
Proof. by destruct p as [[]|]. Qed.

Lemma build_entries_stored limits at_ entries prio n :
  NoDup entries.*1 -> member_form prio -> pos_depth at_ <= max_depth limits ->
  (forall k f n, (k, f) ∈ entries -> f (child_position at_ k) = Ok (Some n) ->
    stored limits (child_position at_ k) n /\ priorities member_form n) ->
  from_entries entries prio at_ limits = Ok (Some n) -> stored limits at_ n /\ priorities member_form n.
Proof.
  intros Hnd Hprio Hat Hsub Hf. apply from_entries_spec in Hf as (m & _ & Hgives & Hnone & [(_ & _ & ?)|[Hne Hn]]); [done| |done].
  injection Hn as ->.
  assert (Hk : forall k c, m !! k = Some c -> key_fits limits at_ k /\ stored limits (child_position at_ k) c /\ priorities member_form c).
  { intros k c Hk. destruct (decide (k ∈ entries.*1)) as [Hin|Hin]; [|by rewrite Hnone in Hk by done].
    apply list_elem_of_fmap in Hin as ([k' f] & -> & Hin). cbn in Hk. destruct (Hgives _ _ Hin) as [Hfit Hv].
    cbn in Hfit, Hv. rewrite Hk in Hv. split; [done|]. by apply (Hsub _ _ _ Hin). }
  split; constructor; try done; intros k c Hc; by apply Hk in Hc as (? & ? & ?).
Qed.

Lemma build_stored limits json : forall at_ n,
  build limits json at_ = Ok (Some n) -> stored limits at_ n /\ priorities member_form n.
Proof.
  induction json as [|b|x|s|items IH|m IH] using json_induction; intros at_ n; cbn [build];
    (destruct (Z.ltb_spec (max_depth limits) (pos_depth at_)) as [|Hat]; [done|]).
  - done.
  - intros [= <-]. by repeat constructor.
  - intros [= <-]. by repeat constructor.
  - destruct (Z.ltb_spec (max_string_bytes limits) (str_len s)); [done|]. intros [= <-].
    split; constructor; try done. by intros ? [= <-].
  - apply build_entries_stored; [apply index_keys_NoDup|done|done|].
    intros k f n' Hin. apply index_keys_elem in Hin as (i & -> & Hi).
    rewrite list_lookup_fmap, fmap_Some in Hi. destruct Hi as (j & Hj & ->). apply IH. by eapply list_elem_of_lookup_2.
  - unfold from_object. case_decide; [done|].
    destruct (match m !! PRIORITY_KEY with Some _ => _ | None => _ end) as [prio|] eqn:Hprio; [|done].
    assert (Hform : member_form prio).
    { destruct (m !! PRIORITY_KEY); [|by simplify_eq]. destruct (priority_from_json _) as [p|]; [|done]. simplify_eq.
      destruct p as [p|]; [|done]. unfold member_form. cbn. by rewrite member_priority_idem. }
    destruct (m !! VALUE_KEY) as [value|] eqn:Hvalue.
    + destruct (_ || _); [done|]. rewrite lookup_fmap, Hvalue. cbn [fmap option_fmap option_map].
      destruct (build limits value at_) as [[v|]|] eqn:Hv; [|by destruct prio|done]. intros [= <-].
      apply IH with (k := VALUE_KEY) in Hv as [Hst Hpr]; [|done]. split; [by apply stored_with_priority|].
      destruct v as [c q]. inversion_clear Hpr; by constructor.
    + apply build_entries_stored; [apply btree_entries|done|done|]. intros k f n' Hin%elem_of_btree_map_iter.
      rewrite lookup_delete_Some, lookup_fmap, fmap_Some in Hin. destruct Hin as (_ & j & Hj & ->). by apply (IH k).
Qed.

(** ** The export format *)

(** Every number among the priorities made a double. *)
Fixpoint member_node (n : Node) : Node :=
  match n with
  | MkNode (LeafContent l) p => MkNode (LeafContent l) (member_priority <$> p)
  | MkNode (Children m) p => MkNode (Children ((fun c => member_node c) <$> m)) (member_priority <$> p)
  end.

Lemma member_node_id n : priorities member_form n -> member_node n = n.
Proof.
  induction n as [l p|m p IH] using node_induction; inversion_clear 1 as [? ? Hp|? ? Hp Hc]; cbn [member_node];
    unfold member_form in Hp; rewrite Hp; [done|].
  f_equal. f_equal. apply map_eq. intros k. rewrite lookup_fmap. destruct (m !! k) as [c|] eqn:Hk; [|done].
  cbn. f_equal. eauto.
Qed.

Lemma key_ok_no_dot k : key_ok k -> k <> PRIORITY_KEY /\ k <> VALUE_KEY /\ k <> SERVER_VALUE_KEY.
Proof.
  intros [_ Hk]. split_and!; intros ->; specialize (Hk (ch ".")); by discriminate Hk; left.
Qed.

Lemma priority_json p : priority_from_json (priority_to_json p) = Ok (Some p).
Proof. by destruct p. Qed.

Lemma build_leaf limits l p at_ :
  stored limits at_ (MkNode (LeafContent l) p) -> build limits (leaf_to_json l) at_ = Ok (Some (leaf_node l)).
Proof.
  inversion_clear 1 as [? ? ? Hd Hs|].
  destruct l as [b|x|s]; cbn [build leaf_to_json]; rewrite (proj2 (Z.ltb_ge _ _) Hd); try done.
  by rewrite (proj2 (Z.ltb_ge _ _) (Hs s eq_refl)).
Qed.

(** What [build] makes of an object whose members are the children of a node, with
    or without a priority. *)
Lemma build_object (limits : Limits) (at_ : Position) (m : gmap text Node) (members : gmap text Json) (f : Node -> Node) (p : option Priority) :
  pos_depth at_ <= max_depth limits -> m <> ∅ ->
  (forall k c, m !! k = Some c -> key_fits limits at_ k) ->
  (forall k, members !! k = None <-> m !! k = None) ->
  (forall k c j, m !! k = Some c -> members !! k = Some j -> build limits j (child_position at_ k) = Ok (Some (f c))) ->
  build limits (JObject (match p with Some p => <[PRIORITY_KEY := priority_to_json p]> members | None => members end)) at_
    = Ok (Some (MkNode (Children (f <$> m)) (member_priority <$> p))).
Proof.
  intros Hd Hne Hfit Hnone Hsub. cbn [build]. rewrite (proj2 (Z.ltb_ge _ _) Hd). unfold from_object.
  assert (Hdot : forall k, k = PRIORITY_KEY \/ k = VALUE_KEY \/ k = SERVER_VALUE_KEY -> members !! k = None).
  { intros k Hk. apply Hnone. destruct (m !! k) eqn:Hm; [|done]. apply Hfit in Hm as [Hok _].
    apply key_ok_no_dot in Hok. naive_solver. }
  set (map := match p with Some p => _ | None => _ end).
  assert (Hmap : forall k, k <> PRIORITY_KEY -> map !! k = members !! k).
  { intros k Hk. unfold map. destruct p; [by rewrite lookup_insert_ne|done]. }
  rewrite decide_False by (rewrite Hmap, Hdot by (done || tauto); by intros []).
  assert (match map !! PRIORITY_KEY with
          | Some json => match priority_from_json json with Ok p => Ok (member_priority <$> p) | Err e => Err e end
          | None => Ok None end = Ok (member_priority <$> p) :> result (option Priority) DatabaseError) as ->.
  { unfold map. destruct p as [p|]; [rewrite lookup_insert_eq, priority_json|rewrite Hdot by tauto]; done. }
  rewrite (Hmap VALUE_KEY), Hdot by (done || tauto).
  assert (Hlook : forall k, delete PRIORITY_KEY ((fun v => build limits v) <$> map) !! k = (fun v => build limits v) <$> members !! k).
  { intros k. destruct (decide (k = PRIORITY_KEY)) as [->|Hk]; [rewrite lookup_delete_eq, Hdot by tauto; done|].
    by rewrite lookup_delete_ne, lookup_fmap, Hmap. }
  apply from_entries_build; [apply btree_entries| | |].
  - intros k g Hin%elem_of_btree_map_iter. rewrite Hlook, fmap_Some in Hin. destruct Hin as (j & Hj & ->).
    destruct (m !! k) as [c|] eqn:Hm; [|by apply Hnone in Hm; rewrite Hm in Hj].
    split; cbn; [by apply (Hfit k c)|]. rewrite lookup_fmap, Hm. by apply Hsub.
  - intros k Hk. rewrite lookup_fmap, (proj1 (Hnone k)); [done|]. apply eq_None_not_Some. intros [j Hj]. apply Hk.
    apply elem_of_btree_keys. rewrite Hlook, Hj. by eexists.
  - intros He. apply Hne, map_eq. intros k. rewrite lookup_empty.
    assert (Hk : (f <$> m) !! k = None) by (rewrite He; apply lookup_empty). rewrite lookup_fmap in Hk. by destruct (m !! k).
Qed.

Lemma build_export limits n : forall at_,
  stored limits at_ n -> build limits (to_json Export n) at_ = Ok (Some (member_node n)).
Proof.
  induction n as [l p|m p IH] using node_induction; intros at_ Hst.
  - pose proof (build_leaf limits l p at_ Hst) as Hleaf. pose proof (stored_depth _ _ _ Hst) as Hd. cbn [to_json member_node].
    destruct p as [p|]; [|done].
    change (json_object _) with (JObject (<[PRIORITY_KEY := priority_to_json p]> (<[VALUE_KEY := leaf_to_json l]> ∅))).
    cbn [build]. rewrite (proj2 (Z.ltb_ge _ _) Hd).
    unfold from_object. rewrite decide_False by (rewrite !lookup_insert_ne, lookup_empty by done; by intros []).
    rewrite lookup_insert_eq. rewrite priority_json. cbn [fmap option_fmap option_map].
    rewrite lookup_fmap, lookup_insert_ne, lookup_insert_eq by done.
    cbn [fmap option_fmap option_map]. rewrite Hleaf. rewrite orb_false_intro; [done| |by destruct l].
    apply negb_false_iff, bool_decide_eq_true, map_eq. intros k. rewrite lookup_empty.
    destruct (decide (k = VALUE_KEY)) as [->|]; [apply lookup_delete_eq|].
    destruct (decide (k = PRIORITY_KEY)) as [->|]; [by rewrite lookup_delete_ne, lookup_delete_eq|].
    by rewrite !lookup_delete_ne, !lookup_insert_ne, lookup_empty.
  - inversion_clear Hst as [|? ? ? Hd Hne Hfit Hsub]. cbn [to_json member_node].
    apply build_object; try done.
    + intros k. rewrite lookup_fmap. by destruct (m !! k).
    + intros k c j Hk. rewrite lookup_fmap, Hk. cbn. intros [= <-]. eauto.
Qed.

(** Export round trip: what [to_json] writes in the export format, [build] reads back as
    the same node, at every location the node may be stored, with the numbers among
    its priorities read as doubles. *)
Theorem export_roundtrip limits at_ n :
  stored limits at_ n -> build limits (to_json Export n) at_ = Ok (Some (member_node n)).
Proof. apply build_export. Qed.

(** ** The plain format *)

(** A node without its priorities. *)
Fixpoint strip (n : Node) : Node :=
  match n with
  | MkNode (LeafContent l) _ => MkNode (LeafContent l) None
  | MkNode (Children m) _ => MkNode (Children ((fun c => strip c) <$> m)) None
  end.

(** An index key and its index. *)
Definition indexes (key : text) (i : Z) : Prop := 0 <= i /\ key = decimal i /\ parse_index key = Some i.

Lemma canonical_indexes key i : canonical_index key = true -> parse_index key = Some i -> indexes key i.
Proof.
  intros Hc Hp. unfold indexes, parse_index, checked in *. case_decide as Hfits; [|done]. injection Hp as <-.
  split_and!; [|by rewrite canonical_decimal|done]. unfold fits in Hfits. cbn in Hfits. lia.
Qed.

Lemma max_index_spec ks : forall m r, max_index ks m = Some r ->
  m <= r /\ (forall k, k ∈ ks -> exists i, indexes k i /\ i <= r) /\ (r = m \/ exists k, k ∈ ks /\ indexes k r).
Proof.
  induction ks as [|k ks IH]; intros m r; cbn [max_index].
  - intros [= ->]. split_and!; [lia|by intros k Hk%elem_of_nil|by left].
  - destruct (canonical_index k) eqn:Hc; [|done]. cbn [negb]. destruct (parse_index k) as [i|] eqn:Hp; [|done].
    pose proof (canonical_indexes _ _ Hc Hp) as Hi. intros (Hle & Hall & Hr)%IH. split_and!; [lia| |].
    + intros k' [->|Hk']%elem_of_cons; [|by apply Hall]. exists i. split; [done|lia].
    + destruct Hr as [->|(k' & Hk' & Hr)]; [|right; exists k'; split; [by right|done]].
      destruct (Z.max_spec m i) as [[_ ->]|[_ ->]]; [|by left]. right. exists k. split; [by left|done].
Qed.

Lemma array_length_spec {A} (m : gmap text A) len :
  m <> ∅ -> array_length m = Some len ->
  (forall k, is_Some (m !! k) -> exists i, indexes k i /\ i < len) /\
  exists k, is_Some (m !! k) /\ indexes k (len - 1).
Proof.
  intros Hne. unfold array_length. destruct (max_index _ _) as [r|] eqn:Hr; [|done]. cbn.
  destruct (r <? _); [|done]. intros [= <-]. apply max_index_spec in Hr as (Hle & Hall & Hlast).
  assert (Hall' : forall k, is_Some (m !! k) -> exists i, indexes k i /\ i <= r).
  { intros k Hk. by apply Hall, elem_of_btree_keys. }
  replace (r + 1 - 1) with r by lia. split.
  - intros k (i & Hi & Hir)%Hall'. exists i. split; [done|lia].
  - destruct Hlast as [->|(k & Hk & Hi)]; [|exists k; split; [by apply elem_of_btree_keys|done]].
    apply map_choose in Hne as (k & x & Hk). exists k. split; [by eexists|].
    destruct (Hall' k ltac:(by eexists)) as (i & Hi & Hi0). replace 0 with i by (destruct Hi; lia). done.
Qed.

Lemma length_fill_slots children : forall items, length (fill_slots items children) = length items.
Proof.
  induction children as [|[k v] children IH]; intros items; [done|].
  change (fill_slots items ((k, v) :: children)) with
    (fill_slots (match parse_index k with Some i => <[Z.to_nat i := v]> items | None => items end) children).
  rewrite IH. destruct (parse_index k); [apply length_insert|done].
Qed.

Lemma fill_slots_lookup children : forall items i,
  NoDup children.*1 -> (forall k v, (k, v) ∈ children -> exists j, indexes k j /\ j < Z.of_nat (length items)) ->
  (i < length items)%nat ->
  (forall v, (decimal (Z.of_nat i), v) ∈ children -> fill_slots items children !! i = Some v) /\
  (decimal (Z.of_nat i) ∉ children.*1 -> fill_slots items children !! i = items !! i).
Proof.
  induction children as [|[k v] children IH]; intros items i Hnd Hidx Hi.
  - split; [by intros v Hv%elem_of_nil|done].
  - cbn [fmap list_fmap fst] in Hnd. apply NoDup_cons in Hnd as [Hk Hnd].
    destruct (Hidx k v) as (j & (Hj & Hkj & Hparse) & Hlt); [by left|].
    change (fill_slots items ((k, v) :: children)) with
      (fill_slots (match parse_index k with Some i => <[Z.to_nat i := v]> items | None => items end) children).
    rewrite Hparse. destruct (IH (<[Z.to_nat j := v]> items) i) as [IH1 IH2]; [done| |by rewrite length_insert|].
    { intros k' v' Hin. rewrite length_insert. apply (Hidx k' v'). by right. }
    assert (Hij : decimal (Z.of_nat i) = k <-> i = Z.to_nat j).
    { rewrite Hkj. split; [intros Heq%decimal_inj; lia|]. intros ->. f_equal. lia. }
    split.
    + intros w [[= Hd ->]|Hin]%elem_of_cons; [|by apply IH1]. rewrite IH2 by congruence.
      apply Hij in Hd as ->. apply list_lookup_insert_eq. lia.
    + intros Hnin. cbn [fmap list_fmap fst] in Hnin. apply not_elem_of_cons in Hnin as [Hne Hnin].
      rewrite IH2 by done. apply list_lookup_insert_ne. intros Heq. by apply Hne, Hij.
Qed.

Lemma len_utf8_digits l : digits_ok l -> str_len l = Z.of_nat (length l).
Proof.
  induction 1 as [|d l Hd Hl IH]; [done|]. change (str_len (d :: l)) with (len_utf8 d + str_len l). rewrite IH.
  unfold len_utf8. rewrite (proj2 (Z.ltb_lt _ _)) by lia. cbn [length]. lia.
Qed.

Lemma decimal_len_mono i j : 0 <= i <= j -> str_len (decimal i) <= str_len (decimal j).
Proof.
  intros Hij. rewrite !len_utf8_digits by (apply decimal_digits; lia).
  revert i Hij. induction (Z.lt_wf 0 j) as [j _ IH]. intros i Hij.
  destruct (Z_lt_le_dec i 10) as [Hi|Hi].
  - destruct (decimal_key_ok j ltac:(lia)) as [Hne _]. unfold decimal at 1. cbn [dec_aux].
    rewrite (proj2 (Z.ltb_lt i 10)) by lia. destruct (decimal j); [done|]. cbn [length]. lia.
  - rewrite (decimal_snoc i), (decimal_snoc j) by lia. rewrite !length_app. cbn [length].
    enough (Z.of_nat (length (decimal (i / 10))) <= Z.of_nat (length (decimal (j / 10)))) by lia.
    apply IH; [split; [apply Z.div_pos; lia|apply Z.div_lt; lia]|]. split; [apply Z.div_pos; lia|apply Z.div_le_mono; lia].
Qed.

(** The array a map of index keys renders as, read back. *)
Lemma build_array (limits : Limits) (at_ : Position) (m : gmap text Node) (members : gmap text Json) (f : Node -> Node) (len : Z) :
  pos_depth at_ <= max_depth limits -> m <> ∅ -> array_length m = Some len ->
  (forall k c, m !! k = Some c -> key_fits limits at_ k /\ pos_depth at_ + 1 <= max_depth limits) ->
  (forall k, members !! k = None <-> m !! k = None) ->
  (forall k c j, m !! k = Some c -> members !! k = Some j -> build limits j (child_position at_ k) = Ok (Some (f c))) ->
  build limits (JArray (fill_slots (replicate (Z.to_nat len) JNull) (btree_map_iter members))) at_
    = Ok (Some (MkNode (Children (f <$> m)) None)).
Proof.
  intros Hd Hne Hlen Hfit Hnone Hsub. cbn [build]. rewrite (proj2 (Z.ltb_ge _ _) Hd).
  destruct (array_length_spec m len Hne Hlen) as [Hidx (klast & [clast Hlast] & Hlasti)].
  set (items := fill_slots _ _). assert (Hitems : length items = Z.to_nat len).
  { unfold items. by rewrite length_fill_slots, length_replicate. }
  assert (Hslot : forall i, (i < Z.to_nat len)%nat -> items !! i =
    Some (match members !! decimal (Z.of_nat i) with Some v => v | None => JNull end)).
  { intros i Hi. destruct (fill_slots_lookup (btree_map_iter members) (replicate (Z.to_nat len) JNull) i) as [H1 H2].
    - apply btree_entries.
    - intros k v Hin%elem_of_btree_map_iter. rewrite length_replicate. destruct (m !! k) eqn:Hk; [|by apply Hnone in Hk; rewrite Hk in Hin].
      destruct (Hidx k ltac:(by eexists)) as (j & Hj & Hjl). exists j. split; [done|]. destruct Hj. lia.
    - by rewrite length_replicate.
    - destruct (members !! decimal (Z.of_nat i)) as [v|] eqn:Hv; [apply H1; by apply elem_of_btree_map_iter|].
      unfold items. rewrite H2; [by apply lookup_replicate_2|]. rewrite elem_of_btree_keys, Hv. by intros []. }
  assert (Hin : forall k c, m !! k = Some c -> exists i, k = decimal (Z.of_nat i) /\ (i < Z.to_nat len)%nat).
  { intros k c Hk. destruct (Hidx k ltac:(by eexists)) as (j & (Hj & -> & _) & Hjl). exists (Z.to_nat j).
    split; [f_equal; lia|lia]. }
  apply from_entries_build; [apply index_keys_NoDup| | |].
  - intros k g Hg. apply index_keys_elem in Hg as (i & -> & Hi).
    rewrite list_lookup_fmap, fmap_Some in Hi. destruct Hi as (j & Hj & ->).
    assert (Hlt : (i < Z.to_nat len)%nat) by (rewrite <- Hitems; by eapply lookup_lt_Some).
    rewrite Hslot in Hj by done. injection Hj as <-. unfold entry_gives. cbn [fst snd].
    rewrite lookup_fmap. destruct (m !! decimal (Z.of_nat i)) as [c|] eqn:Hc.
    + split; [by apply (Hfit _ c)|]. destruct (members !! _) as [v|] eqn:Hv; [|by apply Hnone in Hv; rewrite Hv in Hc].
      cbn. by apply Hsub.
    + rewrite (proj2 (Hnone _) Hc). destruct (Hfit _ _ Hlast) as [[_ Hbytes] Hdeep]. split.
      * split; [apply decimal_key_ok; lia|]. destruct Hlasti as (_ & -> & _). cbn [child_position pos_bytes] in *.
        pose proof (decimal_len_mono (Z.of_nat i) (len - 1) ltac:(lia)). lia.
      * cbn [build child_position pos_depth fmap option_fmap option_map]. by rewrite (proj2 (Z.ltb_ge _ _) Hdeep).
  - intros k Hk. rewrite lookup_fmap. destruct (m !! k) as [c|] eqn:Hc; [|done]. exfalso. apply Hk.
    destruct (Hin k c Hc) as (i & -> & Hi). rewrite index_keys_fst. apply list_elem_of_fmap. exists i.
    split; [done|]. apply elem_of_seq. rewrite length_fmap. lia.
  - intros He. apply Hne, map_eq. intros k. rewrite lookup_empty.
    assert (Hk : (f <$> m) !! k = None) by (rewrite He; apply lookup_empty). rewrite lookup_fmap in Hk. by destruct (m !! k).
Qed.

(** Plain round trip: what [to_json] writes in the plain format, arrays of index keys and
    the null slots between them included, [build] reads back as the same node without
    its priorities, at every location the node may be stored. *)
Theorem plain_roundtrip limits n : forall at_,
  stored limits at_ n -> build limits (to_json Plain n) at_ = Ok (Some (strip n)).
Proof.
  induction n as [l p|m p IH] using node_induction; intros at_ Hst.
  - by apply (build_leaf limits l p).
  - inversion_clear Hst as [|? ? ? Hd Hne Hfit Hsub]. cbn [to_json strip].
    assert (Hmem : forall k, ((fun c => to_json Plain c) <$> m) !! k = None <-> m !! k = None).
    { intros k. rewrite lookup_fmap. by destruct (m !! k). }
    assert (Hbuild : forall k c j, m !! k = Some c -> ((fun c => to_json Plain c) <$> m) !! k = Some j ->
      build limits j (child_position at_ k) = Ok (Some (strip c))).
    { intros k c j Hk. rewrite lookup_fmap, Hk. cbn. intros [= <-]. eauto. }
    destruct (array_length m) as [len|] eqn:Hlen.
    + apply build_array; try done. intros k c Hk. split; [by eapply Hfit|]. by apply Hsub, stored_depth in Hk.
    + by apply (build_object limits at_ m _ strip None).
Qed.

Lemma stored_levels limits at_ n : stored limits at_ n -> pos_depth at_ + Z.of_nat (node_depth n) <= max_depth limits.
Proof.
  revert at_. induction n as [l p|m p IH] using node_induction; intros at_; inversion_clear 1 as [? ? ? Hd|? ? ? Hd Hne Hfit Hsub].
  - cbn [node_depth]. lia.
  - assert (Hmax : exists k c, m !! k = Some c /\
      map_fold (fun _ c d => Nat.max (node_depth c) d) 0%nat m = node_depth c).
    { clear -Hne. induction m as [|j x m Hj Hfold IH] using map_first_key_ind; [done|].
      rewrite map_fold_insert_first_key by done. destruct (decide (m = ∅)) as [->|Hm].
      - exists j, x. rewrite lookup_insert_eq, map_fold_empty. split; [done|lia].
      - destruct (IH Hm) as (k & c & Hk & ->). destruct (Nat.max_spec (node_depth x) (node_depth c)) as [[_ ->]|[_ ->]].
        + exists k, c. by rewrite lookup_insert_ne by congruence.
        + exists j, x. by rewrite lookup_insert_eq. }
    destruct Hmax as (k & c & Hk & Hmax). cbn [node_depth]. rewrite Hmax.
    specialize (IH k c Hk _ (Hsub k c Hk)). cbn in IH. lia.
Qed.

(** Writes keep the limits: whatever [from_json] reads for a location is a node that may
    be stored there.  Every key is valid and its path within the byte limit, no map is
    empty, no string is too long, the node's levels and the location's together stay within
    the depth limit, and no priority inside it is an integer. *)
Theorem from_json_well_formed json path limits n :
  from_json json path limits = Ok (Some n) ->
  stored limits {| pos_depth := Z.of_nat (depth path); pos_bytes := byte_len path |} n /\
  Z.of_nat (depth path) + Z.of_nat (node_depth n) <= max_depth limits /\
  priorities member_form n.
Proof.
  intros Hb. apply build_stored in Hb as [Hst Hp]. split_and!; [done| |done]. by apply stored_levels in Hst.
Qed.

Definition int_json (i : Z) : Json := JNumber (Int i).

Lemma from_json_well_formed_witness :
  exists n, from_json (json_object [(chars "a", JArray [JNull; JString (chars "x")]); (PRIORITY_KEY, int_json 2)])
    root PRODUCTION = Ok (Some n) /\
  stored PRODUCTION {| pos_depth := 0; pos_bytes := 0 |} n /\
  Z.of_nat (depth root) + Z.of_nat (node_depth n) <= 32 /\ priorities member_form n.
Proof.
  eexists. assert (H : from_json (json_object [(chars "a", JArray [JNull; JString (chars "x")]); (PRIORITY_KEY, int_json 2)])
    root PRODUCTION = Ok (Some (MkNode (Children {[chars "a" := MkNode (Children {[chars "1" := MkNode (LeafContent (StringLeaf (chars "x"))) None]}) None]})
      (Some (NumberPriority (Double (f64_of_i64 2))))))) by (vm_compute; reflexivity).
  split; [exact H|]. exact (from_json_well_formed _ _ _ _ H).
Defined.

(** A map rendered as an array with a hole, its second entry with a priority. *)
Definition array_node : Node :=
  MkNode (Children {[chars "0" := leaf_node (Bool true);
                     chars "2" := MkNode (LeafContent (NumberLeaf (Int 7))) (Some (NumberPriority (Int 3)))]}) None.

Definition at_root : Position := {| pos_depth := 0; pos_bytes := 0 |}.

Lemma array_node_stored : stored PRODUCTION at_root array_node.
Proof.
  constructor; [done|by intros He%(f_equal (lookup (chars "0")))| |]; intros k c Hk;
    apply lookup_insert_Some in Hk as [[<- <-]|[_ [<- <-]%lookup_singleton_Some]].
  1,2: apply key_fits_checks; vm_compute; done.
  1,2: constructor; [done|by intros]. 
Defined.

Lemma export_roundtrip_witness :
  build PRODUCTION (to_json Export array_node) at_root = Ok (Some (member_node array_node)).
Proof. exact (export_roundtrip PRODUCTION at_root array_node array_node_stored). Defined.

Lemma plain_roundtrip_witness :
  to_json Plain array_node = JArray [JBool true; JNull; int_json 7] /\
  build PRODUCTION (to_json Plain array_node) at_root = Ok (Some (strip array_node)).
Proof. split; [vm_compute; reflexivity|]. exact (plain_roundtrip PRODUCTION array_node at_root array_node_stored). Defined.
