(* ===== verification/DbServerValue.v ===== *)
(** * Realtime Database server values

    Models [crates/fireemu-core-database/src/server_value.rs]: the placeholders of
    a write, replaced before it is applied.  [now_millis] is the field of
    [ServerValueContext].  As in DbNode.v, the members of an object are resolved in
    key order, each by a function of what is stored where it will be written. *)
From S2P Require Import Prelude Text DbKey DbPath DbNumber DbNode.

Definition stored_priority (n : option Node) : option Node :=
  p ← n ≫= priority; Some (leaf_node (as_leaf p)).

Definition child (n : option Node) (key : text) : option Node := n ← n; node_child n key.

(** [Json::int] *)
Definition json_int (i : Z) : Json := JNumber (Int i).

Definition INCREMENT : text := chars "increment".
Definition TIMESTAMP : text := chars "timestamp".

Definition resolve_placeholder (placeholder : Json) (existing : option Node) (now_millis : Z) : result Json DatabaseError :=
  match placeholder with
  | JString name =>
      if decide (name = TIMESTAMP) then Ok (json_int now_millis) else db_err InvalidServerValue
  | JObject op =>
      if (size op =? 1)%nat then
        match op !! INCREMENT with
        | Some (JNumber delta) =>
            Ok (JNumber (match content <$> existing with
                         | Some (LeafContent (NumberLeaf current)) => increment current delta
                         | _ => delta
                         end))
        | _ => db_err InvalidServerValue
        end
      else db_err InvalidServerValue
  | _ => db_err InvalidServerValue
  end.

(** A value still to be resolved, given what is stored where it will be written. *)
Abbreviation Resolver := (option Node -> result Json DatabaseError).

(** What is stored where the member [key] of a value will be written. *)
Definition member_base (existing : option Node) (key : text) : option Node :=
  if decide (key = VALUE_KEY) then existing
  else if decide (key = PRIORITY_KEY) then stored_priority existing
  else child existing key.

(** [map(|(key, value)| ...).collect()], [base] giving each its [existing]. *)
Fixpoint resolve_entries (base : text -> option Node) (entries : list (text * Resolver)) :
    result (list (text * Json)) DatabaseError :=
  match entries with
  | [] => Ok []
  | (key, value) :: entries =>
      match value (base key) with
      | Err e => Err e
      | Ok resolved =>
          match resolve_entries base entries with
          | Err e => Err e
          | Ok rest => Ok ((key, resolved) :: rest)
          end
      end
  end.

Definition placeholder_key (key : text) : bool :=
  bool_decide (key = SERVER_VALUE_KEY) || bool_decide (key = PRIORITY_KEY).

Fixpoint resolve (now_millis : Z) (json : Json) (existing : option Node) {struct json} : result Json DatabaseError :=
  match json with
  | JArray items =>
      match resolve_entries (child existing) (index_keys ((fun item => resolve now_millis item) <$> items)) with
      | Err e => Err e
      | Ok resolved => Ok (JArray resolved.*2)
      end
  | JObject map =>
      let members := (fun value => resolve now_millis value) <$> map in
      match map !! SERVER_VALUE_KEY with
      | Some placeholder =>
          if existsb (fun key => negb (placeholder_key key)) (btree_map_iter map).*1 then db_err InvalidServerValue
          else match resolve_placeholder placeholder existing now_millis with
               | Err e => Err e
               | Ok value =>
                   match members !! PRIORITY_KEY with
                   | None => Ok value
                   | Some priority =>
                       match priority (stored_priority existing) with
                       | Err e => Err e
                       | Ok p => Ok (json_object [(VALUE_KEY, value); (PRIORITY_KEY, p)])
                       end
                   end
               end
      | None =>
          match resolve_entries (member_base existing) (btree_map_iter members) with
          | Err e => Err e
          | Ok resolved => Ok (JObject (list_to_map resolved))
          end
      end
  | _ => Ok json
  end.

Fixpoint has_server_value (json : Json) : bool :=
  match json with
  | JObject map =>
      bool_decide (is_Some (map !! SERVER_VALUE_KEY)) ||
      map_fold (fun _ v b => has_server_value v || b) false map
  | JArray items => existsb has_server_value items
  | _ => false
  end.

Example resolve_ex :
  let j := JObject {[chars "n" := JObject {[SERVER_VALUE_KEY := JObject {[INCREMENT := json_int 5]}]};
                     chars "t" := JObject {[SERVER_VALUE_KEY := JString TIMESTAMP]}]} in
  let stored := MkNode (Children {[chars "n" := leaf_node (NumberLeaf (Int 37))]}) None in
  (resolve 1000 j (Some stored), resolve 1000 j None) =
  (Ok (JObject {[chars "n" := json_int 42; chars "t" := json_int 1000]}),
   Ok (JObject {[chars "n" := json_int 5; chars "t" := json_int 1000]})).
Proof. vm_compute. reflexivity. Qed.

(** ** Resolving members *)

Lemma map_fold_exists {A} (f : A -> bool) (m : gmap text A) :
  map_fold (fun _ v b => f v || b) false m = true <-> exists k v, m !! k = Some v /\ f v = true.
Proof.
  induction m as [|j x m Hj Hfold IH] using map_first_key_ind.
  - rewrite map_fold_empty. split; [done|]. intros (k & v & Hk & _). by rewrite lookup_empty in Hk.
  - rewrite map_fold_insert_first_key by done. rewrite orb_true_iff, IH. split.
    + intros [Hx|(k & v & Hk & Hv)]; [exists j, x; by rewrite lookup_insert_eq|].
      exists k, v. by rewrite lookup_insert_ne by congruence.
    + intros (k & v & [[<- <-]|[_ Hk]]%lookup_insert_Some & Hv); [by left|right; by exists k, v].
Qed.

Lemma has_server_value_object m :
  has_server_value (JObject m) = false <->
  m !! SERVER_VALUE_KEY = None /\ forall k v, m !! k = Some v -> has_server_value v = false.
Proof.
  cbn [has_server_value]. rewrite orb_false_iff, bool_decide_eq_false, <- eq_None_not_Some,
    <- (not_true_iff_false (map_fold _ _ _)), map_fold_exists. split; intros [H1 H2]; (split; [done|]).
  - intros k v Hk. apply not_true_iff_false. intros Hv. apply H2. by exists k, v.
  - intros (k & v & Hk & Hv). by rewrite (H2 k v) in Hv.
Qed.

Lemma has_server_value_array items :
  has_server_value (JArray items) = false <-> forall j, j ∈ items -> has_server_value j = false.
Proof.
  cbn [has_server_value]. rewrite <- not_true_iff_false, existsb_exists. split.
  - intros H j Hj%list_elem_of_In. apply not_true_iff_false. intros Hv. apply H. by exists j.
  - intros H (j & Hj%list_elem_of_In & Hv). by rewrite H in Hv.
Qed.

Lemma resolve_entries_Ok base entries : forall res,
  resolve_entries base entries = Ok res <->
  Forall2 (fun e r => r.1 = e.1 /\ e.2 (base e.1) = Ok r.2) entries res.
Proof.
  induction entries as [|[key value] entries IH]; intros res; cbn [resolve_entries].
  - split; [by intros [= <-]|]. by intros ->%Forall2_nil_inv_l.
  - split.
    + destruct (value (base key)) as [r|] eqn:Hv; [|done]. destruct (resolve_entries base entries) as [rest|]; [|done].
      intros [= <-]. constructor; [done|]. by apply IH.
    + intros H. apply Forall2_cons_inv_l in H as ([k r] & rest & [Hk Hv] & Hrest & ->). cbn in Hk, Hv. subst k.
      rewrite Hv. apply IH in Hrest as ->. done.
Qed.

Lemma resolve_entries_fst base entries res : resolve_entries base entries = Ok res -> res.*1 = entries.*1.
Proof.
  intros H%resolve_entries_Ok. induction H as [|e r entries res [Hk _] _ IH]; [done|]. cbn. by rewrite Hk, IH.
Qed.

(** The members of a resolved object. *)
Lemma resolve_members_lookup (base : text -> option Node) (m : gmap text Resolver) res (k : text) :
  resolve_entries base (btree_map_iter m) = Ok res ->
  match m !! k with
  | Some f => exists r, f (base k) = Ok r /\ list_to_map (M := gmap text Json) res !! k = Some r
  | None => list_to_map (M := gmap text Json) res !! k = None
  end.
Proof.
  intros Hres. pose proof (resolve_entries_fst _ _ _ Hres) as Hfst. apply resolve_entries_Ok in Hres.
  destruct (m !! k) as [f|] eqn:Hk.
  - apply elem_of_btree_map_iter, list_elem_of_lookup in Hk as [i Hi].
    destruct (Forall2_lookup_l _ _ _ _ _ Hres Hi) as ([k' r] & Hr & Hk' & Hf). cbn in Hk', Hf. subst k'.
    exists r. split; [done|]. apply elem_of_list_to_map_1; [rewrite Hfst; apply btree_entries|].
    by apply list_elem_of_lookup_2 in Hr.
  - apply not_elem_of_list_to_map_1. rewrite Hfst, elem_of_btree_keys, Hk. by intros [].
Qed.

Lemma index_keys_snd {A} (items : list A) : (index_keys items).*2 = items.
Proof.
  unfold index_keys. rewrite fmap_imap. apply list_eq. intros i.
  rewrite list_lookup_imap. by destruct (items !! i).
Qed.

(** What the resolvers of an array's items give, in their order. *)
Lemma resolve_items_Ok (base : text -> option Node) (fs : list Resolver) res :
  resolve_entries base (index_keys fs) = Ok res <->
  length res = length fs /\
  forall i f, fs !! i = Some f -> exists j, res !! i = Some (decimal (Z.of_nat i), j) /\ f (base (decimal (Z.of_nat i))) = Ok j.
Proof.
  rewrite resolve_entries_Ok, Forall2_same_length_lookup. unfold index_keys. rewrite length_imap. split.
  - intros [Hlen H]. split; [done|]. intros i f Hf.
    destruct (lookup_lt_is_Some_2 res i) as [[k j] Hj]; [rewrite <- Hlen; by eapply lookup_lt_Some|].
    destruct (H i (decimal (Z.of_nat i), f) (k, j)) as [Hk Hr]; [by rewrite list_lookup_imap, Hf|done|].
    cbn in Hk, Hr. subst k. by exists j.
  - intros [Hlen H]. split; [done|]. intros i x y. rewrite list_lookup_imap.
    destruct (fs !! i) as [f|] eqn:Hf; [|done]. intros [= <-] Hy. destruct (H i f Hf) as (j & Hj & Hr).
    rewrite Hj in Hy. injection Hy as <-. done.
Qed.

Lemma resolve_array_Ok now items existing j' :
  resolve now (JArray items) existing = Ok j' <->
  exists items', j' = JArray items' /\ length items' = length items /\
    forall i item, items !! i = Some item ->
      exists item', items' !! i = Some item' /\ resolve now item (child existing (decimal (Z.of_nat i))) = Ok item'.
Proof.
  cbn [resolve]. split.
  - destruct (resolve_entries _ _) as [res|] eqn:Hres; [|done]. intros [= <-].
    apply resolve_items_Ok in Hres as [Hlen H]. rewrite length_fmap in Hlen. exists res.*2. split_and!; [done|by rewrite length_fmap|].
    intros i item Hi. destruct (H i (resolve now item)) as (j & Hj & Hr); [by rewrite list_lookup_fmap, Hi|].
    exists j. by rewrite list_lookup_fmap, Hj.
  - intros (items' & -> & Hlen & H).
    assert (resolve_entries (child existing) (index_keys ((fun item => resolve now item) <$> items)) = Ok (index_keys items')) as ->.
    { apply resolve_items_Ok. rewrite length_fmap. unfold index_keys at 1. rewrite length_imap. split; [done|].
      intros i f. rewrite list_lookup_fmap. destruct (items !! i) as [item|] eqn:Hi; [|done]. intros [= <-].
      destruct (H i item Hi) as (item' & Hi' & Hr). exists item'. split; [|done].
      unfold index_keys. by rewrite list_lookup_imap, Hi'. }
    by rewrite index_keys_snd.
Qed.

Lemma resolve_object_Ok now m existing j' :
  m !! SERVER_VALUE_KEY = None -> resolve now (JObject m) existing = Ok j' ->
  exists m', j' = JObject m' /\ (forall k, m !! k = None -> m' !! k = None) /\
    forall k v, m !! k = Some v -> exists v', m' !! k = Some v' /\ resolve now v (member_base existing k) = Ok v'.
Proof.
  intros Hsv. cbn [resolve]. rewrite Hsv. destruct (resolve_entries _ _) as [res|] eqn:Hres; [|done]. intros [= <-].
  exists (list_to_map res). split; [done|].
  assert (Hk := fun k => resolve_members_lookup _ _ _ k Hres).
  split; [intros k Hm|intros k v Hm]; specialize (Hk k); rewrite lookup_fmap, Hm in Hk; cbn in Hk; [done|].
  destruct Hk as (r & Hr & Hlook). by exists r.
Qed.

(** Values without placeholders are resolved to themselves. *)
Lemma resolve_plain now json : forall existing,
  has_server_value json = false -> resolve now json existing = Ok json.
Proof.
  induction json as [|b|n|s|items IH|m IH] using json_induction; intros existing; try done.
  - rewrite has_server_value_array. intros Hitems. apply resolve_array_Ok. exists items. split_and!; [done..|].
    intros i item Hi. exists item. split; [done|]. apply list_elem_of_lookup_2 in Hi. apply IH; auto.
  - rewrite has_server_value_object. intros [Hsv Hm]. cbn [resolve]. rewrite Hsv.
    assert (Hres : resolve_entries (member_base existing) (btree_map_iter ((fun v => resolve now v) <$> m)) =
      Ok (omap (fun k => (fun v => (k, v)) <$> m !! k) (btree_iter (dom m)))).
    { unfold btree_map_iter. rewrite dom_fmap_L. apply resolve_entries_Ok.
      assert (Hin : forall k, k ∈ btree_iter (dom m) -> is_Some (m !! k)).
      { intros k Hk. by apply elem_of_dom, elem_of_btree_iter. }
      induction (btree_iter (dom m)) as [|k ks IHks]; [constructor|]. cbn [omap list_omap].
      rewrite lookup_fmap. destruct (Hin k ltac:(by left)) as [v Hv]. rewrite Hv. cbn [fmap option_fmap option_map].
      constructor; [|apply IHks; intros k' Hk'; apply Hin; by right]. cbn. split; [done|].
      apply (IH k); [done|]. by apply (Hm k). }
    rewrite Hres. f_equal. f_equal. apply map_eq. intros k.
    change (omap _ _) with (btree_map_iter m). destruct (m !! k) as [v|] eqn:Hk.
    + apply elem_of_list_to_map_1; [apply btree_entries|by apply elem_of_btree_map_iter].
    + apply not_elem_of_list_to_map_1. rewrite elem_of_btree_keys, Hk. by intros [].
Qed.

(** ** What is left after resolving *)

Lemma resolve_placeholder_number placeholder existing now v :
  resolve_placeholder placeholder existing now = Ok v -> exists n, v = JNumber n.
Proof.
  unfold resolve_placeholder. repeat case_match; intros; simplify_eq; unfold json_int; eauto.
Qed.

Lemma resolve_leaves_none now json : forall existing j',
  resolve now json existing = Ok j' -> has_server_value j' = false.
Proof.
  induction json as [|b|n|s|items IH|m IH] using json_induction; intros existing j'; try (by intros [= <-]).
  - intros (items' & -> & Hlen & H)%resolve_array_Ok. apply has_server_value_array. intros j Hj.
    apply list_elem_of_lookup in Hj as [i Hi].
    destruct (lookup_lt_is_Some_2 items i) as [item Hitem]; [rewrite <- Hlen; by eapply lookup_lt_Some|].
    destruct (H i item Hitem) as (item' & Hi' & Hr). rewrite Hi in Hi'. injection Hi' as <-.
    eapply IH, Hr. by eapply list_elem_of_lookup_2.
  - destruct (m !! SERVER_VALUE_KEY) as [placeholder|] eqn:Hsv.
    + cbn [resolve]. rewrite Hsv. destruct (existsb _ _); [done|].
      destruct (resolve_placeholder _ _ _) as [v|] eqn:Hv; [|done]. apply resolve_placeholder_number in Hv as [n ->].
      rewrite lookup_fmap. destruct (m !! PRIORITY_KEY) as [p|] eqn:Hp; cbn [fmap option_fmap option_map]; [|by intros [= <-]].
      destruct (resolve now p _) as [p'|] eqn:Hr; [|done]. intros [= <-].
      apply (IH PRIORITY_KEY p Hp) in Hr. apply has_server_value_object.
      change (list_to_map _) with (<[PRIORITY_KEY := p']> (<[VALUE_KEY := JNumber n]> (∅ : gmap text Json))).
      split; [by rewrite !lookup_insert_ne|]. intros k v.
      rewrite !lookup_insert_Some, lookup_empty. naive_solver.
    + intros (m' & -> & Hnone & Hsome)%resolve_object_Ok; [|done]. apply has_server_value_object.
      split; [by apply Hnone|]. intros k v' Hk. destruct (m !! k) as [v|] eqn:Hv; [|by rewrite Hnone in Hk].
      destruct (Hsome k v Hv) as (v'' & Hk' & Hr). simplify_eq. by eapply IH, Hr.
Qed.

Lemma resolve_entries_err base entries e :
  resolve_entries base entries = Err e -> exists k f, (k, f) ∈ entries /\ f (base k) = Err e.
Proof.
  induction entries as [|[k f] entries IH]; cbn [resolve_entries]; [done|].
  destruct (f (base k)) as [r|e'] eqn:Hf.
  - destruct (resolve_entries base entries) as [|e']; [done|]. intros [= ->].
    destruct IH as (k' & f' & Hin & Hf'); [done|]. exists k', f'. split; [by right|done].
  - intros [= ->]. exists k, f. split; [by left|done].
Qed.

Lemma resolve_err now json : forall existing e, resolve now json existing = Err e -> e = {| kind := InvalidServerValue |}.
Proof.
  induction json as [|b|n|s|items IH|m IH] using json_induction; intros existing e; try done; cbn [resolve].
  - destruct (resolve_entries _ _) eqn:Hr; [done|]. intros [= ->].
    apply resolve_entries_err in Hr as (k & f & (i & -> & Hi)%index_keys_elem & Hf).
    rewrite list_lookup_fmap, fmap_Some in Hi. destruct Hi as (item & Hi & ->).
    eapply IH, Hf. by eapply list_elem_of_lookup_2.
  - destruct (m !! SERVER_VALUE_KEY) as [placeholder|].
    + destruct (existsb _ _); [by intros [= <-]|].
      destruct (resolve_placeholder _ _ _) eqn:Hp.
      * rewrite lookup_fmap. destruct (m !! PRIORITY_KEY) as [p|] eqn:Hk; [|done]. cbn.
        destruct (resolve now p _) eqn:Hr; [done|]. intros [= ->]. by eapply IH, Hr.
      * intros [= ->]. unfold resolve_placeholder, db_err in Hp. repeat case_match; by simplify_eq.
    + destruct (resolve_entries _ _) eqn:Hr; [done|]. intros [= ->].
      apply resolve_entries_err in Hr as (k & f & Hin & Hf).
      rewrite elem_of_btree_map_iter, lookup_fmap, fmap_Some in Hin. destruct Hin as (v & Hv & ->). by eapply IH, Hf.
Qed.

(** Resolving removes exactly the placeholders: a value without one is left as it is,
    whatever the time and the stored data are; a resolved value holds none, so storing
    it never refuses it for one; and the only error is an invalid server value. *)
Theorem resolve_eliminates now json existing :
  (has_server_value json = false -> resolve now json existing = Ok json) /\
  match resolve now json existing with
  | Ok j => has_server_value j = false
  | Err e => e = {| kind := InvalidServerValue |}
  end.
Proof.
  split; [apply resolve_plain|].
  destruct (resolve now json existing) eqn:Hr; [by eapply resolve_leaves_none|by eapply resolve_err].
Qed.
