(* ===== verification/DbTree.v ===== *)
(** * The Realtime Database tree

    Models [crates/fireemu-core-database/src/tree.rs] but for the checks of a write
    (DbUpdate.v): the checked writes ([Write], [replace], [apply]) and the scope
    snapshots that undo and look behind them.  Indexing a vector out of range panics: where the code indexes, the
    outer [None] of the result is that panic. *)
From S2P Require Import Prelude Text DbKey DbPath DbNumber DbNode.

Record Tree := { tree_root : option Node; tree_limits : Limits }.

Definition tree_new (limits : Limits) : Tree := {| tree_root := None; tree_limits := limits |}.

Definition tree_get (t : Tree) (p : Path) : option Node := n ← tree_root t; descendant n (keys p).

(** ** Writes *)

Fixpoint replace (node : option Node) (ks : list text) (value : option Node) : option Node :=
  match ks with
  | [] => value
  | key :: rest =>
      match node with
      | None => (fun child => MkNode (Children {[key := child]}) None) <$> replace None rest value
      | Some (MkNode (LeafContent leaf) prio) =>
          match replace None rest value with
          | None => Some (MkNode (LeafContent leaf) prio)
          | Some child => Some (MkNode (Children {[key := child]}) prio)
          end
      | Some (MkNode (Children m) prio) =>
          let m' := delete key m in
          match replace (m !! key) rest value with
          | Some child => Some (MkNode (Children (<[key := child]> m')) prio)
          | None => if decide (m' = ∅) then None else Some (MkNode (Children m') prio)
          end
      end
  end.

(** [get_mut(path)] and the assignment of the priority through it. *)
Fixpoint set_priority (node : option Node) (ks : list text) (p : option Priority) : option Node :=
  match node with
  | None => None
  | Some n =>
      match ks with
      | [] => Some (with_priority p n)
      | key :: ks =>
          match content n with
          | LeafContent _ => Some n
          | Children m =>
              match m !! key with
              | None => Some n
              | Some c =>
                  match set_priority (Some c) ks p with
                  | Some c' => Some (MkNode (Children (<[key := c']> m)) (priority n))
                  | None => Some n
                  end
              end
          end
      end
  end.

Inductive Write :=
| WriteValue (path : Path) (node : option Node)
| WritePriority (path : Path) (p : option Priority)
| WriteUnchanged (node : option Node).

Definition set_root (r : option Node) (t : Tree) : Tree :=
  {| tree_root := r; tree_limits := tree_limits t |}.

Definition apply (t : Tree) (w : Write) : Tree :=
  match w with
  | WriteValue path node => set_root (replace (tree_root t) (keys path) node) t
  | WritePriority path p => set_root (set_priority (tree_root t) (keys path) p) t
  | WriteUnchanged _ => t
  end.

(** ** Scope snapshots *)

Record ScopeSnapshot := {
  snap_path : Path;
  snap_node : option Node;
  snap_priorities : list (option Priority);
}.

(** The loop of [save_scope]: the priorities pushed and the node it stops at. *)
Fixpoint save_loop (node : option Node) (ks : list text) : list (option Priority) * option Node :=
  match ks with
  | [] => ([], node)
  | key :: ks =>
      match node with
      | Some (MkNode (Children m) prio) =>
          let '(ps, n) := save_loop (m !! key) ks in (prio :: ps, n)
      | _ => ([], node)
      end
  end.

Definition save_scope (t : Tree) (path : Path) : ScopeSnapshot :=
  let scope := if is_priority path then default root (parent path) else path in
  let '(ps, n) := save_loop (tree_root t) (keys scope) in
  {| snap_path := from_keys (take (length ps) (keys scope)); snap_node := n; snap_priorities := ps |}.

(** The children a node has, none for a leaf and for an absent node. *)
Definition children_of (n : option Node) : gmap text Node :=
  match n with Some (MkNode (Children m) _) => m | _ => ∅ end.

Fixpoint restore_spine (current : option Node) (ks : list text) (priorities : list (option Priority))
    (saved : option Node) : option (option Node) :=
  match ks with
  | [] => Some saved
  | key :: rest =>
      match priorities with
      | [] => None
      | prio :: priorities =>
          let m := children_of current in
          old_child ← restore_spine (m !! key) rest priorities saved;
          let m := match old_child with
                   | Some child => <[key := child]> (delete key m)
                   | None => delete key m
                   end in
          Some (if decide (m = ∅) then None else Some (MkNode (Children m) prio))
      end
  end.

Definition restore_scope (t : Tree) (s : ScopeSnapshot) : option Tree :=
  r ← restore_spine (tree_root t) (keys (snap_path s)) (snap_priorities s) (snap_node s);
  Some (set_root r t).

(** ** Views behind a snapshot *)

Inductive NodeView :=
| Borrowed (n : Node)
| Spine (current : option Node) (snapshot : ScopeSnapshot) (depth : nat).

Definition view_root (s : ScopeSnapshot) (t : Tree) : option NodeView :=
  if is_root (snap_path s) then Borrowed <$> snap_node s
  else Some (Spine (tree_root t) s 0).

Definition view_leaf (v : NodeView) : option Leaf :=
  match v with
  | Borrowed (MkNode (LeafContent l) _) => Some l
  | _ => None
  end.

(** [snapshot.priorities[depth]] *)
Definition view_priority (v : NodeView) : option (option Priority) :=
  match v with
  | Borrowed n => Some (priority n)
  | Spine _ s depth => snap_priorities s !! depth
  end.

Definition child_node (n : option Node) (key : text) : option Node :=
  n ← n; node_child n key.

Definition view_child (v : NodeView) (key : text) : option (option NodeView) :=
  match v with
  | Spine current s depth =>
      at_depth ← keys (snap_path s) !! depth;
      Some (if decide (key = at_depth) then
              if (S depth =? length (keys (snap_path s)))%nat then Borrowed <$> snap_node s
              else Some (Spine (child_node current key) s (S depth))
            else Borrowed <$> child_node current key)
  | Borrowed n => Some (Borrowed <$> child_node (Some n) key)
  end.

Fixpoint view_walk (v : NodeView) (ks : list text) : option (option NodeView) :=
  match ks with
  | [] => Some (Some v)
  | key :: ks =>
      c ← view_child v key;
      match c with None => Some None | Some v => view_walk v ks end
  end.

Definition view_get (s : ScopeSnapshot) (t : Tree) (path : Path) : option (option NodeView) :=
  match view_root s t with None => Some None | Some v => view_walk v (keys path) end.

(** [usize::from(o.is_some())] *)
Definition count_of {A} (o : option A) : Z := match o with Some _ => 1 | None => 0 end.

(** [usize] arithmetic: the subtraction stays in range, since it takes away a
    child that was counted. *)
Definition child_count (v : NodeView) : option Z :=
  match v with
  | Borrowed n => Some (Z.of_nat (size (children_of (Some n))))
  | Spine current s depth =>
      key ← keys (snap_path s) !! depth;
      c ← view_child v key;
      let m := children_of current in
      Some (Z.of_nat (size m) - count_of (m !! key) + count_of c)
  end.

Definition text_leaf (s : string) : Node := leaf_node (StringLeaf (chars s)).
Definition path_of (l : list string) : Path := from_keys (map chars l).

(** A delete empties its ancestors, and what they carried goes with them. *)
Example replace_ex :
  let t := tree_new PRODUCTION in
  let t := apply t (WriteValue (path_of ["a"; "b"]) (Some (text_leaf "x"))) in
  let t := apply t (WritePriority (path_of ["a"]) (Some (StringPriority (chars "p")))) in
  (bool_decide (is_Some (tree_get t (path_of ["a"; "b"]))),
   tree_root (apply t (WriteValue (path_of ["a"; "b"]) None))) = (true, None).
Proof. vm_compute. reflexivity. Qed.

(** ** The tree as a function of paths

    [find n ks] is the node at [ks] below [n]; every operation is described by
    what it does to [children_of]. *)

Fixpoint find (n : option Node) (ks : list text) : option Node :=
  match ks with [] => n | key :: ks => find (children_of n !! key) ks end.

(** No node holds an empty map. *)
Inductive node_wf : Node -> Prop :=
| wf_leaf l p : node_wf (MkNode (LeafContent l) p)
| wf_children m p : m <> ∅ -> (forall k n, m !! k = Some n -> node_wf n) -> node_wf (MkNode (Children m) p).

Definition tree_wf (n : option Node) : Prop := forall n', n = Some n' -> node_wf n'.

Lemma tree_wf_none : tree_wf None.
Proof. done. Qed.

Lemma tree_wf_child n k : tree_wf n -> tree_wf (children_of n !! k).
Proof.
  intros Hn c Hc. destruct n as [[[l|m] p]|]; cbn in Hc; [by rewrite lookup_empty in Hc| |by rewrite lookup_empty in Hc].
  specialize (Hn _ eq_refl). inversion_clear Hn. eauto.
Qed.

Lemma child_node_children n k : child_node n k = children_of n !! k.
Proof. destruct n as [[[l|m] p]|]; cbn; by rewrite ?lookup_empty. Qed.

Lemma find_none ks : find None ks = None.
Proof. induction ks; [done|]. cbn. by rewrite lookup_empty. Qed.

Lemma descendant_find ks : forall n, descendant n ks = find (Some n) ks.
Proof.
  induction ks as [|k ks IH]; intros n; [done|]. cbn [descendant find].
  change (node_child n k) with (child_node (Some n) k). rewrite child_node_children.
  destruct (children_of (Some n) !! k) as [c|]; [apply IH|by rewrite find_none].
Qed.

Lemma tree_get_find t p : tree_get t p = find (tree_root t) (keys p).
Proof.
  unfold tree_get. destruct (tree_root t) as [n|]; cbn; [apply descendant_find|by rewrite find_none].
Qed.

Lemma find_app ks q : forall n, find n (ks ++ q) = find (find n ks) q.
Proof. induction ks as [|k ks IH]; intros n; [done|]. apply IH. Qed.

(** A map with one entry changed. *)
Definition put (k : text) (c : option Node) (m : gmap text Node) : gmap text Node :=
  match c with Some c => <[k := c]> (delete k m) | None => delete k m end.

Lemma lookup_put k c m : put k c m !! k = c.
Proof. destruct c; cbn; [by rewrite lookup_insert_eq|by rewrite lookup_delete_eq]. Qed.

Lemma lookup_put_ne k j c m : j <> k -> put k c m !! j = m !! j.
Proof.
  intros Hne. destruct c; cbn; [rewrite lookup_insert_ne by done|]; by rewrite lookup_delete_ne by done.
Qed.

Lemma delete_put k c m : delete k (put k c m) = delete k m.
Proof. destruct c; cbn; [rewrite delete_insert_eq|]; by rewrite delete_delete_eq. Qed.

Lemma put_same k m : put k (m !! k) m = m.
Proof.
  apply map_eq. intros j. destruct (decide (j = k)) as [->|]; [apply lookup_put|by apply lookup_put_ne].
Qed.

Lemma put_empty k c : put k c ∅ = match c with Some c => {[k := c]} | None => ∅ end.
Proof. destruct c; cbn; by rewrite delete_empty. Qed.

Lemma children_replace n k rest v :
  children_of (replace n (k :: rest) v) = put k (replace (children_of n !! k) rest v) (children_of n).
Proof.
  destruct n as [[[l|m] p]|]; cbn [replace children_of]; rewrite ?lookup_empty, ?put_empty.
  - by destruct (replace None rest v).
  - destruct (replace (m !! k) rest v) as [c|]; cbn [put]; [done|]. by case_decide as He; cbn; rewrite ?He.
  - by destruct (replace None rest v).
Qed.

Lemma children_set_priority n k ks p :
  children_of (set_priority n (k :: ks) p) = put k (set_priority (children_of n !! k) ks p) (children_of n).
Proof.
  destruct n as [[[l|m] q]|]; cbn [set_priority children_of content priority];
    rewrite ?lookup_empty, ?put_empty; [by destruct ks| |by destruct ks].
  destruct (m !! k) as [c|] eqn:Hk.
  - assert (Hs : is_Some (set_priority (Some c) ks p)).
    { clear Hk. destruct ks as [|k' ks]; cbn; [by eexists|]. repeat case_match; by eexists. }
    destruct Hs as [c' ->]. cbn. by rewrite insert_delete_eq.
  - assert (set_priority None ks p = None) as -> by (by destruct ks). cbn. by rewrite delete_id.
Qed.

(** ** What a write changes *)

Lemma find_replace_below ks q v : forall n, find (replace n ks v) (ks ++ q) = find v q.
Proof.
  induction ks as [|k ks IH]; intros n; [done|]. cbn [app find].
  by rewrite children_replace, lookup_put.
Qed.

Lemma find_replace_aside ks v : forall n q,
  ~ ks `prefix_of` q -> ~ q `prefix_of` ks -> find (replace n ks v) q = find n q.
Proof.
  induction ks as [|k ks IH]; intros n q H1 H2; [by destruct H1; apply prefix_nil|].
  destruct q as [|j q]; [by destruct H2; apply prefix_nil|]. cbn [find].
  rewrite children_replace. destruct (decide (j = k)) as [->|]; [|by rewrite lookup_put_ne].
  rewrite lookup_put. apply IH; intros H; [apply H1|apply H2]; by apply prefix_cons.
Qed.

(** The priority of a node, of an absent one too. *)
Definition priority_of (n : option Node) : option Priority := n ≫= priority.

Lemma priority_replace n k ks v n' :
  replace n (k :: ks) v = Some n' -> priority n' = priority_of n.
Proof.
  destruct n as [[[l|m] p]|]; cbn [replace].
  - destruct (replace None ks v); by intros [= <-].
  - destruct (replace (m !! k) ks v); [by intros [= <-]|]. case_decide; [done|]. by intros [= <-].
  - destruct (replace None ks v); [by intros [= <-]|done].
Qed.

Lemma replace_present ks v : forall n, is_Some v -> is_Some (replace n ks v).
Proof.
  induction ks as [|k ks IH]; intros n Hv; [done|]. cbn [replace].
  destruct n as [[[l|m] p]|].
  - by destruct (IH None Hv) as [c ->].
  - by destruct (IH (m !! k) Hv) as [c ->].
  - by destruct (IH None Hv) as [c ->].
Qed.

(** Above the written location the priorities stay, and a value has ancestors. *)
Lemma find_replace_above q : forall n k ks v,
  (forall n', find (replace n (q ++ k :: ks) v) q = Some n' -> priority n' = priority_of (find n q)) /\
  (is_Some v -> is_Some (find (replace n (q ++ k :: ks) v) q)).
Proof.
  induction q as [|j q IH]; intros n k ks v.
  - cbn [app find]. split; [intros n'; apply priority_replace|apply replace_present].
  - cbn [app find]. rewrite children_replace, lookup_put. apply IH.
Qed.

Lemma put_wf k c m : (forall n, c = Some n -> node_wf n) -> (forall j n, m !! j = Some n -> node_wf n) ->
  forall j n, put k c m !! j = Some n -> node_wf n.
Proof.
  intros Hc Hm j n. destruct (decide (j = k)) as [->|]; [rewrite lookup_put; apply Hc|].
  rewrite lookup_put_ne by done. apply Hm.
Qed.

Lemma insert_wf k c m p : node_wf c -> (forall j n, m !! j = Some n -> node_wf n) ->
  node_wf (MkNode (Children (<[k := c]> m)) p).
Proof.
  intros Hc Hm. constructor; [apply insert_non_empty|]. intros j n.
  rewrite lookup_insert_Some. naive_solver.
Qed.

Lemma singleton_wf k c p : node_wf c -> node_wf (MkNode (Children {[k := c]}) p).
Proof. intros Hc. rewrite <- insert_empty. apply insert_wf; [done|]. by intros j n; rewrite lookup_empty. Qed.

Lemma replace_wf ks v : tree_wf v -> forall n, tree_wf n -> tree_wf (replace n ks v).
Proof.
  intros Hv. induction ks as [|k ks IH]; intros n Hn; [done|]. intros n'. cbn [replace].
  destruct n as [[[l|m] p]|].
  - destruct (replace None ks v) as [c|] eqn:Hr; intros [= <-]; [|by apply Hn].
    apply singleton_wf. by apply (IH None tree_wf_none).
  - assert (Hm : forall j c, delete k m !! j = Some c -> node_wf c).
    { intros j c [_ Hj]%lookup_delete_Some. specialize (Hn _ eq_refl). inversion_clear Hn. eauto. }
    destruct (replace (m !! k) ks v) as [c|] eqn:Hr.
    + intros [= <-]. apply insert_wf; [|done]. by apply (IH (m !! k) (tree_wf_child _ k Hn)).
    + case_decide; [done|]. intros [= <-]. by constructor.
  - destruct (replace None ks v) as [c|] eqn:Hr; [|done]. intros [= <-].
    apply singleton_wf. by apply (IH None tree_wf_none).
Qed.

Lemma node_wf_priority c p q : node_wf (MkNode c p) -> node_wf (MkNode c q).
Proof. inversion_clear 1; by constructor. Qed.

Lemma set_priority_wf ks p : forall n, tree_wf n -> tree_wf (set_priority n ks p).
Proof.
  induction ks as [|k ks IH]; intros [[c q]|] Hn n'; [|done| |done]; cbn [set_priority content priority with_priority].
  - intros [= <-]. eapply node_wf_priority. by apply Hn.
  - destruct c as [l|m]; [intros [= <-]; by apply Hn|].
    destruct (m !! k) as [c|] eqn:Hk; [|intros [= <-]; by apply Hn].
    destruct (set_priority (Some c) ks p) as [c'|] eqn:Hs; [|intros [= <-]; by apply Hn].
    intros [= <-]. specialize (Hn _ eq_refl). inversion_clear Hn. apply insert_wf; [|done].
    apply (IH (Some c)); [intros c0 [= <-]; eauto|done].
Qed.

(** A checked write changes its location and nothing beside it: after
    replacing the value at a path, reading the path or anything below it reads the
    written value; every location that is neither above nor below reads as before;
    the ancestors keep their priorities and exist if a value was written; and the
    tree never holds an empty map, so deleting the last child deletes its parents. *)
Theorem write_value_exact t path v :
  tree_wf (tree_root t) -> tree_wf v ->
  let t' := apply t (WriteValue path v) in
  tree_wf (tree_root t') /\
  (forall q, tree_get t' (join path q) = find v (keys q)) /\
  (forall q, disjoint_paths path q -> tree_get t' q = tree_get t q) /\
  (forall q k r, keys path = keys q ++ k :: r ->
     (forall n, tree_get t' q = Some n -> priority n = priority_of (tree_get t q)) /\
     (is_Some v -> is_Some (tree_get t' q))).
Proof.
  intros Ht Hv t'. split_and!.
  - by apply replace_wf.
  - intros q. rewrite tree_get_find. apply find_replace_below.
  - intros q [H1 H2]. rewrite !tree_get_find.
    apply find_replace_aside; [by apply bool_decide_eq_false in H1|by apply bool_decide_eq_false in H2].
  - intros q k r Hk. rewrite !tree_get_find. cbn [tree_root t' apply set_root]. rewrite Hk. apply find_replace_above.
Qed.

(** ** Undoing the writes of a scope

    [same_outside ks n n']: the two trees differ at most at [ks] and below, and
    in the priorities on the way there. *)

Fixpoint same_outside (ks : list text) (n n' : option Node) : Prop :=
  match ks with
  | [] => True
  | k :: ks =>
      delete k (children_of n) = delete k (children_of n') /\
      same_outside ks (children_of n !! k) (children_of n' !! k)
  end.

Lemma same_outside_refl ks : forall n, same_outside ks n n.
Proof. induction ks as [|k ks IH]; [done|]. intros n. by split. Qed.

Lemma same_outside_trans ks : forall n1 n2 n3,
  same_outside ks n1 n2 -> same_outside ks n2 n3 -> same_outside ks n1 n3.
Proof.
  induction ks as [|k ks IH]; [done|]. intros n1 n2 n3 [H1 H1'] [H2 H2'].
  split; [by rewrite H1|by eapply IH].
Qed.

#[global] Instance same_outside_preorder ks : PreOrder (same_outside ks).
Proof. split; [intros n; apply same_outside_refl|intros n1 n2 n3; apply same_outside_trans]. Qed.

Lemma same_outside_take ks j : forall n n', same_outside ks n n' -> same_outside (take j ks) n n'.
Proof.
  revert j. induction ks as [|k ks IH]; intros [|j] n n' Hs; try done. destruct Hs as [H1 H2].
  split; [done|by apply IH].
Qed.

Lemma same_outside_replace ks r v : forall n, same_outside ks n (replace n (ks ++ r) v).
Proof.
  induction ks as [|k ks IH]; [done|]. intros n. cbn [app same_outside].
  rewrite children_replace, delete_put, lookup_put. by split.
Qed.

Lemma same_outside_priority ks r p : forall n, same_outside ks n (set_priority n (ks ++ r) p).
Proof.
  induction ks as [|k ks IH]; [done|]. intros n. cbn [app same_outside].
  rewrite children_set_priority, delete_put, lookup_put. by split.
Qed.

(** The path, the priorities and the node that [save_scope] keeps. *)
Lemma save_loop_spec ks : forall n ps saved,
  save_loop n ks = (ps, saved) -> (length ps <= length ks)%nat /\ saved = find n (take (length ps) ks).
Proof.
  induction ks as [|k ks IH]; intros n ps saved; cbn [save_loop].
  - by intros [= <- <-].
  - destruct n as [[[l|m] p]|]; [intros [= <- <-]; cbn; by split; [lia|]| |intros [= <- <-]; cbn; by split; [lia|]].
    destruct (save_loop (m !! k) ks) as [ps' n'] eqn:Hs. intros [= <- <-].
    apply IH in Hs as [Hlen ->]. cbn. split; [lia|done].
Qed.

Lemma restore_loop ks : forall n n' ps saved,
  tree_wf n -> save_loop n ks = (ps, saved) -> same_outside (take (length ps) ks) n n' ->
  restore_spine n' (take (length ps) ks) ps saved = Some n.
Proof.
  induction ks as [|k ks IH]; intros n n' ps saved Hn; cbn [save_loop].
  - by intros [= <- <-].
  - destruct n as [[[l|m] p]|]; [by intros [= <- <-]| |by intros [= <- <-]].
    destruct (save_loop (m !! k) ks) as [ps' saved'] eqn:Hs. intros [= <- <-]. cbn [length take same_outside restore_spine].
    intros [Hd Hso]. rewrite (IH (m !! k) _ _ _ (tree_wf_child _ k Hn) Hs Hso). cbn. cbn in Hd.
    assert (Hput : match m !! k with
                   | Some child => <[k := child]> (delete k (children_of n'))
                   | None => delete k (children_of n')
                   end = m).
    { rewrite <- Hd. exact (put_same k m). }
    rewrite Hput. specialize (Hn _ eq_refl). inversion_clear Hn. by rewrite decide_False.
Qed.

(** A checked write that stays within a scope. *)
Definition in_scope (scope : list text) (w : Write) : Prop :=
  match w with
  | WriteValue path _ | WritePriority path _ => scope `prefix_of` keys path
  | WriteUnchanged _ => True
  end.

Definition scope_of (path : Path) : list text :=
  keys (if is_priority path then default root (parent path) else path).

Lemma apply_outside t w scope : in_scope scope w -> same_outside scope (tree_root t) (tree_root (apply t w)).
Proof.
  destruct w as [path v|path p|]; cbn [in_scope apply set_root tree_root]; [..|intros _; done].
  - intros [r ->]. apply same_outside_replace.
  - intros [r ->]. apply same_outside_priority.
Qed.

Definition run_writes (t : Tree) (ws : list Write) : Tree := fold_left apply ws t.

Lemma run_writes_outside scope ws : Forall (in_scope scope) ws ->
  forall t, same_outside scope (tree_root t) (tree_root (run_writes t ws)) /\ tree_limits (run_writes t ws) = tree_limits t.
Proof.
  induction 1 as [|w ws Hw _ IH]; intros t; [done|]. destruct (IH (apply t w)) as [H1 H2]. split.
  - etrans; [by apply apply_outside|done].
  - unfold run_writes in *. cbn [fold_left]. rewrite H2. by destruct w.
Qed.

Lemma save_scope_fields t path :
  exists ps saved, save_loop (tree_root t) (scope_of path) = (ps, saved) /\
    save_scope t path = {| snap_path := from_keys (take (length ps) (scope_of path));
                           snap_node := saved; snap_priorities := ps |}.
Proof.
  unfold save_scope, scope_of. cbv zeta. destruct (save_loop _ _) as [ps saved] eqn:Hs. by exists ps, saved.
Qed.

(** C29. A scope snapshot undoes any writes of its scope: whatever values and
    priorities are then written at the scope's path or below it (leaf ancestors
    displaced, ancestors pruned by deletes), restoring gives back exactly the tree
    that was saved, without indexing out of range. *)
Theorem restore_undoes_scope t path ws :
  tree_wf (tree_root t) -> Forall (in_scope (scope_of path)) ws ->
  restore_scope (run_writes t ws) (save_scope t path) = Some t.
Proof.
  intros Ht Hws. destruct (save_scope_fields t path) as (ps & saved & Hs & ->).
  destruct (run_writes_outside _ _ Hws t) as [Hso Hlim]. unfold restore_scope. cbn.
  rewrite (restore_loop _ (tree_root t) _ _ _ Ht Hs) by by apply same_outside_take.
  cbn. unfold set_root. rewrite Hlim. by destruct t.
Qed.

(** ** Looking behind the writes *)

(** What a view shows of a node. *)
Definition node_leaf (n : Node) : option Leaf :=
  match content n with LeafContent l => Some l | Children _ => None end.

Definition shows (v : NodeView) (n : Node) : Prop :=
  view_leaf v = node_leaf n /\ view_priority v = Some (priority n) /\
  child_count v = Some (Z.of_nat (size (children_of (Some n)))).

Section views.
Context (s : ScopeSnapshot).

(** A spine stands for an ancestor of the scope as it was saved. *)
Definition view_ok (v : NodeView) (n : Node) : Prop :=
  match v with
  | Borrowed m => m = n
  | Spine current s' depth =>
      s' = s /\ exists rest ps, save_loop (Some n) rest = (ps, snap_node s) /\ ps <> [] /\
        drop depth (keys (snap_path s)) = take (length ps) rest /\
        drop depth (snap_priorities s) = ps /\
        same_outside (take (length ps) rest) (Some n) current
  end.

Lemma spine_ok_inv current depth n : view_ok (Spine current s depth) n ->
  exists m p k rest ps, n = MkNode (Children m) p /\ keys (snap_path s) !! depth = Some k /\
    snap_priorities s !! depth = Some p /\ length (keys (snap_path s)) = (S depth + length ps)%nat /\
    save_loop (m !! k) rest = (ps, snap_node s) /\
    drop (S depth) (keys (snap_path s)) = take (length ps) rest /\ drop (S depth) (snap_priorities s) = ps /\
    delete k m = delete k (children_of current) /\
    same_outside (take (length ps) rest) (m !! k) (children_of current !! k).
Proof.
  intros (_ & rest & ps & Hsave & Hps & Hk & Hp & Hso).
  destruct rest as [|k rest]; cbn [save_loop] in Hsave; [by simplify_eq|].
  destruct n as [[l|m] p]; [by simplify_eq|]. destruct (save_loop (m !! k) rest) as [ps' n'] eqn:Hs.
  simplify_eq Hsave. intros <- ->. cbn [length take same_outside] in Hk, Hso. destruct Hso as [Hd Hso].
  assert (Hlen : (length ps' <= length rest)%nat) by (by apply save_loop_spec in Hs as [? _]).
  exists m, p, k, rest, ps'. split_and!; try done.
  - by rewrite <- (Nat.add_0_r depth), <- lookup_drop, Hk.
  - by rewrite <- (Nat.add_0_r depth), <- lookup_drop, Hp.
  - assert (Hl : length (drop depth (keys (snap_path s))) = S (length ps')).
    { rewrite Hk. cbn. rewrite length_take. lia. }
    rewrite length_drop in Hl. lia.
  - rewrite <- Nat.add_1_r, <- drop_drop, Hk. done.
  - rewrite <- Nat.add_1_r, <- drop_drop, Hp. done.
Qed.

Lemma view_child_ok v n key : view_ok v n ->
  match children_of (Some n) !! key with
  | None => view_child v key = Some None
  | Some c => exists v', view_child v key = Some (Some v') /\ view_ok v' c
  end.
Proof.
  destruct v as [n'|current s' depth].
  - intros ->. unfold view_child. rewrite child_node_children.
    destruct (children_of (Some n) !! key) as [c|]; [by exists (Borrowed c)|done].
  - intros Hok. assert (s' = s) as -> by apply Hok.
    apply spine_ok_inv in Hok as (m & p & k & rest & ps & -> & Hk & Hp & Hlen & Hs & Hdk & Hdp & Hd & Hso).
    unfold view_child. rewrite Hk. cbn [mbind option_bind children_of]. rewrite child_node_children, Hlen.
    destruct (decide (key = k)) as [->|Hne].
    + destruct ps as [|p' ps]; cbn [length].
      * rewrite (proj2 (Nat.eqb_eq _ _)) by lia. apply save_loop_spec in Hs as [_ Hs]. cbn in Hs. rewrite Hs.
        destruct (m !! k) as [c|]; [by exists (Borrowed c)|done].
      * rewrite (proj2 (Nat.eqb_neq _ _)) by lia.
        destruct (m !! k) as [c|] eqn:Hc; [|by destruct rest].
        eexists. split; [done|]. split; [done|]. by exists rest, (p' :: ps).
    + assert (Heq : children_of current !! key = m !! key).
      { rewrite <- (lookup_delete_ne (children_of current) k key), <- Hd by done. by rewrite lookup_delete_ne. }
      rewrite Heq. destruct (m !! key) as [c|]; [by exists (Borrowed c)|done].
Qed.

Lemma size_without (m : gmap text Node) k :
  Z.of_nat (size m) = Z.of_nat (size (delete k m)) + count_of (m !! k).
Proof.
  unfold count_of. destruct (m !! k) as [c|] eqn:Hk.
  - rewrite <- (insert_delete_id m k c) at 1 by done.
    rewrite map_size_insert_None by apply lookup_delete_eq. lia.
  - rewrite delete_id by done. lia.
Qed.

Lemma view_shows v n : view_ok v n -> shows v n.
Proof.
  intros Hok. destruct v as [n'|current s' depth].
  - cbn in Hok. subst n'. destruct n as [[l|m] p]; done.
  - assert (s' = s) as -> by apply Hok.
    pose proof Hok as (m & p & k & rest & ps & -> & Hk & Hp & Hlen & Hs & Hdk & Hdp & Hd & Hso)%spine_ok_inv.
    split_and!; [done|done|]. cbn [child_count children_of]. rewrite Hk. cbn [mbind option_bind].
    pose proof (view_child_ok _ _ k Hok) as Hc. cbn [children_of] in Hc.
    pose proof (size_without m k) as H1. pose proof (size_without (children_of current) k) as H2.
    rewrite Hd in H1. destruct (m !! k) as [c|].
    + destruct Hc as (v' & -> & _). cbn in *. f_equal. lia.
    + rewrite Hc. cbn in *. f_equal. lia.
Qed.

Lemma view_walk_ok q : forall v n, view_ok v n ->
  match find (Some n) q with
  | None => view_walk v q = Some None
  | Some n' => exists v', view_walk v q = Some (Some v') /\ view_ok v' n'
  end.
Proof.
  induction q as [|k q IH]; intros v n Hok; [by exists v|]. cbn [find view_walk].
  pose proof (view_child_ok v n k Hok) as Hc. destruct (children_of (Some n) !! k) as [c|].
  - destruct Hc as (v' & -> & Hok'). cbn. by apply IH.
  - rewrite Hc, find_none. done.
Qed.
End views.

(** A view through a scope snapshot reads the tree as it was saved: after any
    writes of the scope, walking to any location finds a node exactly if the saved
    tree has one there, with the leaf, the priority and the number of children it
    had, and no step indexes out of range. *)
Theorem view_reads_saved_tree t path ws q :
  Forall (in_scope (scope_of path)) ws ->
  match tree_get t q with
  | None => view_get (save_scope t path) (run_writes t ws) q = Some None
  | Some n => exists v, view_get (save_scope t path) (run_writes t ws) q = Some (Some v) /\ shows v n
  end.
Proof.
  intros Hws. rewrite tree_get_find. destruct (save_scope_fields t path) as (ps & saved & Hs & Hsnap).
  set (s := save_scope t path) in *. destruct (run_writes_outside _ _ Hws t) as [Hso _].
  pose proof (save_loop_spec _ _ _ _ Hs) as [Hlen Hsaved]. unfold view_get, view_root, is_root.
  assert (Hok : match tree_root t with
                | None => view_root s (run_writes t ws) = None
                | Some n => exists v, view_root s (run_writes t ws) = Some v /\ view_ok s v n
                end).
  { unfold view_root, is_root. rewrite Hsnap. cbn [snap_path from_keys keys snap_node].
    destruct ps as [|p ps]; cbn [length take] in Hsaved |- *.
    - rewrite bool_decide_true by done. cbn in Hsaved. subst saved.
      destruct (tree_root t) as [n|]; [by exists (Borrowed n)|done].
    - destruct (scope_of path) as [|k ks] eqn:Hsc; [cbn in Hlen; lia|].
      rewrite bool_decide_false by done. destruct (tree_root t) as [n|]; [|done].
      eexists. split; [done|]. split; [done|]. exists (k :: ks), (p :: ps). cbn [snap_path snap_node snap_priorities from_keys keys].
      split_and!; [done|done|done|done|]. by apply (same_outside_take _ (length (p :: ps))). }
  unfold view_root, is_root in Hok. destruct (tree_root t) as [n|].
  - destruct Hok as (v & -> & Hv). pose proof (view_walk_ok s (keys q) v n Hv) as Hw.
    destruct (find (Some n) (keys q)) as [n'|]; [|done]. destruct Hw as (v' & -> & Hv').
    exists v'. split; [done|]. by apply (view_shows s).
  - by rewrite Hok, find_none.
Qed.

(** ** Concrete trees *)

Definition sample_tree : Tree :=
  run_writes (tree_new PRODUCTION)
    [WriteValue (path_of ["a"; "b"]) (Some (text_leaf "x"));
     WriteValue (path_of ["c"]) (Some (text_leaf "y"));
     WritePriority (path_of ["a"]) (Some (StringPriority (chars "p")))].

Definition sample_writes : list Write :=
  [WriteValue (path_of ["a"; "b"]) None; WriteValue (path_of ["a"; "b"; "d"]) (Some (text_leaf "z"))].

Lemma sample_tree_wf : tree_wf (tree_root sample_tree).
Proof.
  intros n Hn. unfold sample_tree in Hn. unfold run_writes in Hn. cbn [fold_left] in Hn.
  revert n Hn. apply set_priority_wf, replace_wf; [|apply replace_wf; [|done]]; intros n [= <-]; constructor.
Qed.

Lemma sample_writes_in_scope : Forall (in_scope (scope_of (path_of ["a"; "b"]))) sample_writes.
Proof. repeat apply Forall_cons_2; [by exists []|by exists [chars "d"]|constructor]. Qed.

Lemma write_value_exact_witness :
  let t' := apply sample_tree (WriteValue (path_of ["a"; "b"]) None) in
  tree_wf (tree_root t') /\
  (forall q, tree_get t' (join (path_of ["a"; "b"]) q) = find None (keys q)) /\
  (forall q, disjoint_paths (path_of ["a"; "b"]) q -> tree_get t' q = tree_get sample_tree q) /\
  (forall q k r, keys (path_of ["a"; "b"]) = keys q ++ k :: r ->
     (forall n, tree_get t' q = Some n -> priority n = priority_of (tree_get sample_tree q)) /\
     (is_Some (None : option Node) -> is_Some (tree_get t' q))).
Proof. apply (write_value_exact sample_tree (path_of ["a"; "b"]) None sample_tree_wf). done. Defined.

Lemma restore_undoes_scope_witness :
  restore_scope (run_writes sample_tree sample_writes) (save_scope sample_tree (path_of ["a"; "b"])) = Some sample_tree.
Proof.
  apply restore_undoes_scope; [exact sample_tree_wf|exact sample_writes_in_scope].
Defined.

Lemma view_reads_saved_tree_witness :
  let q := path_of ["a"; "b"] in
  match tree_get sample_tree q with
  | None => view_get (save_scope sample_tree q) (run_writes sample_tree sample_writes) q = Some None
  | Some n => exists v, view_get (save_scope sample_tree q) (run_writes sample_tree sample_writes) q = Some (Some v) /\ shows v n
  end.
Proof.
  apply view_reads_saved_tree. exact sample_writes_in_scope.
Defined.
