(* ===== verification/DbUpdate.v ===== *)
(** * Realtime Database writes

    Models the writes of [crates/fireemu-core-database/src/tree.rs] from the JSON a
    client sends: [prepare] checks one against the tree, [set] writes one location,
    [update] several at once.  A method on [&mut self] returns the new tree beside its
    result; an error leaves the tree as it was. *)
From S2P Require Import Prelude Text DbKey DbPath DbNumber DbNode DbServerValue DbTree.

Definition get_json (t : Tree) (path : Path) (format : Format) : Json :=
  if is_priority path then
    match tree_get t (default root (parent path)) ≫= priority with
    | Some p => priority_to_json p
    | None => JNull
    end
  else match tree_get t path with Some n => to_json format n | None => JNull end.

(** [==] on optional nodes. *)
Definition opt_node_eqb (a b : option Node) : bool :=
  match a, b with
  | None, None => true
  | Some a, Some b => node_eqb a b
  | _, _ => false
  end.

Definition prepare (t : Tree) (path : Path) (value : Json) (now_millis : Z) : result Write DatabaseError :=
  if is_info path then db_err ReadOnlyPath
  else if is_priority path then
    let parent := default root (parent path) in
    match tree_get t parent with
    | None => db_err PriorityOnAbsentNode
    | Some node =>
        match resolve now_millis value (stored_priority (Some node)) with
        | Err e => Err e
        | Ok resolved =>
            match priority_from_json resolved with
            | Err e => Err e
            | Ok p =>
                if priority_eqb p (priority node) then Ok (WriteUnchanged None)
                else Ok (WritePriority parent p)
            end
        end
    end
  else
    match resolve now_millis value (tree_get t path) with
    | Err e => Err e
    | Ok resolved =>
        match from_json resolved path (tree_limits t) with
        | Err e => Err e
        | Ok node =>
            if opt_node_eqb node (tree_get t path) then Ok (WriteUnchanged node)
            else Ok (WriteValue path node)
        end
    end.

Definition set (t : Tree) (path : Path) (value : Json) (now_millis : Z) : result (Tree * option Node) DatabaseError :=
  match prepare t path value now_millis with
  | Err e => Err e
  | Ok write =>
      let written := match write with
                     | WriteValue _ node | WriteUnchanged node => node
                     | WritePriority _ _ => None
                     end in
      Ok (apply t write, written)
  end.

Definition replace_root (t : Tree) (r : option Node) : Tree :=
  if opt_node_eqb r (tree_root t) then t else set_root r t.

(** [iter().map(f).collect::<Result<Vec<_>>>()] *)
Fixpoint collect_results {A B E} (f : A -> result B E) (l : list A) : result (list B) E :=
  match l with
  | [] => Ok []
  | x :: l =>
      match f x with
      | Err e => Err e
      | Ok y => match collect_results f l with Err e => Err e | Ok ys => Ok (y :: ys) end
      end
  end.

Definition is_priority_write (w : Write) : bool :=
  match w with WritePriority _ _ => true | _ => false end.

Definition entry_path (base : Path) (limits : Limits) (relative : text) : result Path DatabaseError :=
  match parse relative limits with
  | Err e => Err e
  | Ok relative => parse (display (join base relative)) limits
  end.

Definition update (t : Tree) (base : Path) (entries : list (text * Json)) (now_millis : Z) : result Tree DatabaseError :=
  if bool_decide (entries = []) then Ok t
  else
    match collect_results (fun '(relative, _) => entry_path base (tree_limits t) relative) entries with
    | Err e => Err e
    | Ok paths =>
        match check_disjoint paths with
        | Err e => Err e
        | Ok _ =>
            match collect_results (fun '(path, (_, value)) => prepare t path value now_millis) (zip paths entries) with
            | Err e => Err e
            | Ok writes =>
                let priorities := filter is_priority_write writes in
                let values := filter (fun w => negb (is_priority_write w)) writes in
                Ok (fold_left apply (values ++ priorities) t)
            end
        end
    end.

(** An entry's placeholders read the tree before the update. *)
Example update_ex :
  let increment n := JObject {[SERVER_VALUE_KEY := JObject {[INCREMENT := json_int n]}]} in
  match update (tree_new PRODUCTION) root [(chars "a/n", increment 1); (chars "b/.priority", json_int 3)] 0 with
  | Err e => kind e = PriorityOnAbsentNode
  | Ok _ => False
  end /\
  match update (tree_new PRODUCTION) root [(chars "a/n", increment 1); (chars "b", JBool true)] 0 with
  | Err _ => False
  | Ok t =>
      match update t root [(chars "b/.priority", json_int 3); (chars "a/n", increment 41); (chars "b/c", json_int 7)] 0 with
      | Err _ => False
      | Ok t => get_json t root Export =
          JObject {[chars "a" := JObject {[chars "n" := json_int 42]};
                    chars "b" := JObject {[chars "c" := json_int 7; PRIORITY_KEY := json_int 3]}]}
      end
  end.
Proof. by vm_compute. Qed.

(** ** Positions and limits *)

(** The position of a location below another. *)
Fixpoint position_below (at_ : Position) (ks : list text) : Position :=
  match ks with [] => at_ | key :: ks => position_below (child_position at_ key) ks end.

Definition path_position (p : Path) : Position :=
  {| pos_depth := Z.of_nat (depth p); pos_bytes := byte_len p |}.

Fixpoint keys_fit (limits : Limits) (at_ : Position) (ks : list text) : Prop :=
  match ks with
  | [] => True
  | key :: ks => key_fits limits at_ key /\ keys_fit limits (child_position at_ key) ks
  end.

(** What every tree satisfies: all of it may be stored where it is. *)
Definition tree_ok (t : Tree) : Prop :=
  forall n, tree_root t = Some n -> stored (tree_limits t) at_root n.

(** A path that [parse] gives for a location of the data. *)
Definition data_path (limits : Limits) (p : Path) : Prop :=
  Forall key_ok (keys p) /\ byte_len p <= max_path_bytes limits.

Lemma str_len_nonneg s : 0 <= str_len s.
Proof.
  induction s as [|c s IH]; cbn [str_len fold_right]; [lia|]. unfold len_utf8. change (fold_right _ 0 s) with (str_len s).
  repeat case_match; lia.
Qed.

Lemma position_below_ge ks : forall at_, pos_bytes at_ <= pos_bytes (position_below at_ ks).
Proof.
  induction ks as [|k ks IH]; intros at_; [cbn; lia|]. cbn [position_below]. specialize (IH (child_position at_ k)).
  unfold child_position in IH at 1. cbn [pos_bytes] in IH. pose proof (str_len_nonneg k). case_match; lia.
Qed.

Lemma position_below_path p : position_below at_root (keys p) = path_position p.
Proof.
  assert (Hgen : forall ks at_, 0 <= pos_depth at_ -> position_below at_ ks =
    {| pos_depth := pos_depth at_ + Z.of_nat (length ks);
       pos_bytes := pos_bytes at_ + fold_right (fun k n => str_len k + n) 0 ks +
         Z.max (Z.of_nat (length ks) - (if 0 <? pos_depth at_ then 0 else 1)) 0 |}).
  { induction ks as [|k ks IH]; intros at_ Hat; cbn [position_below length fold_right].
    - destruct at_ as [d b]. cbn. f_equal; try case_match; lia.
    - rewrite IH by (cbn; lia). unfold child_position. cbn [pos_depth pos_bytes].
      rewrite (proj2 (Z.ltb_lt 0 (pos_depth at_ + 1))) by lia.
      destruct (Z.ltb_spec 0 (pos_depth at_)); f_equal; lia. }
  rewrite Hgen by done. unfold path_position, depth, byte_len. cbn. f_equal.
Qed.

Lemma data_path_fits limits p : data_path limits p -> keys_fit limits at_root (keys p).
Proof.
  intros [Hk Hb]. assert (Hpos : pos_bytes (position_below at_root (keys p)) <= max_path_bytes limits).
  { by rewrite position_below_path. }
  clear Hb. revert Hpos. generalize at_root. induction Hk as [|k ks Hk _ IH]; intros at_ Hpos; [done|].
  cbn [keys_fit position_below] in *. split; [|by apply IH]. split; [done|].
  pose proof (position_below_ge ks (child_position at_ k)). lia.
Qed.

(** A path [parse] accepts that is neither below [.info] nor a priority. *)
Lemma parse_data_path s limits p :
  parse s limits = Ok p -> is_info p = false -> is_priority p = false -> data_path limits p.
Proof.
  rewrite parse_spec. intros (_ & Hok & Hb) Hi Hp. split; [|done]. apply Forall_lookup. intros i k Hk.
  unfold is_info, is_priority, last_key in *. apply bool_decide_eq_false in Hi, Hp.
  destruct (Hok i k Hk) as [[-> ->]|[[Hlast ->]|]]; [..|done]; exfalso.
  - apply Hi. destruct (keys p); [done|]. by injection Hk as ->.
  - apply Hp. rewrite last_lookup. by rewrite <- Hlast.
Qed.

(** ** Storing *)

Lemma stored_child limits at_ n k c :
  (forall n', n = Some n' -> stored limits at_ n') -> children_of n !! k = Some c ->
  key_fits limits at_ k /\ stored limits (child_position at_ k) c.
Proof.
  intros Hn Hc. destruct n as [[[l|m] p]|]; cbn in Hc; [by rewrite lookup_empty in Hc| |by rewrite lookup_empty in Hc].
  specialize (Hn _ eq_refl). inversion_clear Hn. eauto.
Qed.

Lemma stored_find limits ks : forall at_ n c,
  (forall n', n = Some n' -> stored limits at_ n') -> find n ks = Some c -> stored limits (position_below at_ ks) c.
Proof.
  induction ks as [|k ks IH]; intros at_ n c Hn; cbn [find position_below]; [by apply Hn|].
  apply IH. intros n' Hn'. by apply (stored_child limits at_ n k).
Qed.

Lemma stored_node_wf limits at_ n : stored limits at_ n -> node_wf n.
Proof.
  revert at_. induction n as [l p|m p IH] using node_induction; intros at_; inversion_clear 1; constructor; eauto.
Qed.

Lemma tree_ok_wf t : tree_ok t -> tree_wf (tree_root t).
Proof. intros Ht n Hn. by eapply stored_node_wf, Ht. Qed.

Lemma insert_stored limits at_ k c m p :
  pos_depth at_ <= max_depth limits -> key_fits limits at_ k -> stored limits (child_position at_ k) c ->
  (forall j n, m !! j = Some n -> key_fits limits at_ j /\ stored limits (child_position at_ j) n) ->
  stored limits at_ (MkNode (Children (<[k := c]> m)) p).
Proof.
  intros Hd Hk Hc Hm. constructor; [done|apply insert_non_empty| |]; intros j n;
    rewrite lookup_insert_Some; intros [[<- <-]|[_ Hj]]; try done; by apply (Hm _ _ Hj).
Qed.

Lemma replace_none_none ks : replace None ks None = None.
Proof. induction ks as [|k ks IH]; [done|]. cbn [replace]. by rewrite IH. Qed.

Lemma replace_stored limits v ks : forall at_ n,
  keys_fit limits at_ ks -> pos_depth at_ <= max_depth limits ->
  (forall v', v = Some v' -> stored limits (position_below at_ ks) v' ) ->
  (forall n', n = Some n' -> stored limits at_ n') ->
  forall n', replace n ks v = Some n' -> stored limits at_ n'.
Proof.
  induction ks as [|k ks IH]; intros at_ n Hfit Hd Hv Hn n'; [apply Hv|].
  destruct Hfit as [Hk Hfit]. cbn [replace position_below] in *.
  assert (Hdeep : is_Some v -> pos_depth (child_position at_ k) <= max_depth limits).
  { intros [v' ->]. specialize (Hv v' eq_refl). apply stored_depth in Hv. revert Hv.
    generalize (child_position at_ k). clear. induction ks as [|k ks IH]; intros at_ Hat; [done|].
    cbn [position_below] in Hat. apply IH in Hat. cbn in Hat. lia. }
  assert (Hsub : forall c, (forall c', c = Some c' -> stored limits (child_position at_ k) c') ->
    forall c', replace c ks v = Some c' -> stored limits (child_position at_ k) c').
  { intros c Hc c' Hr. destruct v as [v'|].
    - eapply IH; [done|by apply Hdeep|done|exact Hc|done].
    - destruct c as [c|]; [|by rewrite replace_none_none in Hr].
      eapply IH; [done| |done|exact Hc|done]. by eapply stored_depth, Hc. }
  destruct n as [[[l|m] p]|].
  - destruct (replace None ks v) as [c|] eqn:Hr; intros [= <-]; [|by apply Hn].
    rewrite <- insert_empty. apply insert_stored; try done. by apply (Hsub None).
  - assert (Hm : forall j c, delete k m !! j = Some c -> key_fits limits at_ j /\ stored limits (child_position at_ j) c).
    { intros j c [_ Hj]%lookup_delete_Some. by apply (stored_child limits at_ (Some (MkNode (Children m) p))). }
    destruct (replace (m !! k) ks v) as [c|] eqn:Hr.
    + intros [= <-]. apply insert_stored; try done. apply (Hsub (m !! k)); [|done].
      intros c' Hc'. by apply (stored_child limits at_ (Some (MkNode (Children m) p)) k).
    + case_decide; [done|]. intros [= <-]. constructor; [done|done| |]; intros j c Hj; by apply (Hm _ _ Hj).
  - destruct (replace None ks v) as [c|] eqn:Hr; [|done]. intros [= <-].
    rewrite <- insert_empty. apply insert_stored; try done. by apply (Hsub None).
Qed.

Lemma position_below_depth ks : forall at_, pos_depth (position_below at_ ks) = pos_depth at_ + Z.of_nat (length ks).
Proof. induction ks as [|k ks IH]; intros at_; cbn [position_below length]; [lia|]. rewrite IH. cbn. lia. Qed.

Lemma replace_root_stored limits v ks n :
  keys_fit limits at_root ks -> (forall v', v = Some v' -> stored limits (position_below at_root ks) v') ->
  (forall n', n = Some n' -> stored limits at_root n') ->
  forall n', replace n ks v = Some n' -> stored limits at_root n'.
Proof.
  intros Hfit Hv Hn n' Hr. eapply replace_stored; [exact Hfit| |exact Hv|exact Hn|exact Hr].
  destruct v as [v|].
  - specialize (Hv v eq_refl). apply stored_depth in Hv. rewrite position_below_depth in Hv. cbn in *. lia.
  - destruct n as [n|]; [by eapply stored_depth, Hn|by rewrite replace_none_none in Hr].
Qed.

Lemma set_priority_stored limits ks p : forall at_ n,
  (forall n', n = Some n' -> stored limits at_ n') -> forall n', set_priority n ks p = Some n' -> stored limits at_ n'.
Proof.
  induction ks as [|k ks IH]; intros at_ [[c q]|] Hn n'; [|done| |done]; cbn [set_priority content priority with_priority].
  - intros [= <-]. by apply (stored_with_priority limits at_ p (MkNode c q)), Hn.
  - destruct c as [l|m]; [intros [= <-]; by apply Hn|].
    destruct (m !! k) as [c|] eqn:Hk; [|intros [= <-]; by apply Hn].
    destruct (set_priority (Some c) ks p) as [c'|] eqn:Hs; [|intros [= <-]; by apply Hn].
    intros [= <-]. pose proof (stored_child limits at_ (Some (MkNode (Children m) q))) as Hch. cbn [children_of] in Hch.
    apply insert_stored; [by apply (stored_depth limits at_ (MkNode (Children m) q)), Hn|by apply (Hch k c)| |intros j c0; by apply Hch].
    eapply IH, Hs. intros ? [= <-]. by apply (Hch k c).
Qed.

(** What a checked write may store. *)
Definition write_ok (limits : Limits) (w : Write) : Prop :=
  match w with
  | WriteValue p v => data_path limits p /\ forall v', v = Some v' -> stored limits (path_position p) v'
  | _ => True
  end.

Lemma apply_limits t w : tree_limits (apply t w) = tree_limits t.
Proof. by destruct w. Qed.

Lemma run_limits ws : forall t, tree_limits (run_writes t ws) = tree_limits t.
Proof.
  induction ws as [|w ws IH]; intros t; [done|]. change (run_writes t (w :: ws)) with (run_writes (apply t w) ws).
  by rewrite IH, apply_limits.
Qed.

Lemma apply_ok t w : tree_ok t -> write_ok (tree_limits t) w -> tree_ok (apply t w).
Proof.
  unfold tree_ok. rewrite apply_limits. destruct w as [p v|p prio|]; cbn [apply set_root tree_root write_ok]; intros Ht Hw.
  - destruct Hw as [Hp Hv]. apply replace_root_stored; [by apply data_path_fits| |done].
    by rewrite position_below_path.
  - by apply set_priority_stored.
  - done.
Qed.

Lemma run_writes_ok ws : forall t, tree_ok t -> Forall (write_ok (tree_limits t)) ws -> tree_ok (run_writes t ws).
Proof.
  induction ws as [|w ws IH]; intros t Ht Hws; [done|]. apply Forall_cons in Hws as [Hw Hws].
  apply (IH (apply t w)); [by apply apply_ok|by rewrite apply_limits].
Qed.

(** What [prepare] checks of a value. *)
Definition checked_value (t : Tree) (path : Path) (value : Json) (now : Z) (node : option Node) : Prop :=
  exists resolved, resolve now value (tree_get t path) = Ok resolved /\ from_json resolved path (tree_limits t) = Ok node.

(** What [prepare] checks of a priority. *)
Definition checked_priority (t : Tree) (path : Path) (value : Json) (now : Z) (p : option Priority) : Prop :=
  exists node resolved, tree_get t path = Some node /\ resolve now value (stored_priority (Some node)) = Ok resolved /\
    priority_from_json resolved = Ok p.

Lemma prepare_Ok t path value now w :
  prepare t path value now = Ok w <->
  is_info path = false /\
  if is_priority path then
    let parent := default root (parent path) in
    exists p, checked_priority t parent value now p /\
      w = (if priority_eqb p (priority_of (tree_get t parent)) then WriteUnchanged None else WritePriority parent p)
  else
    exists node, checked_value t path value now node /\
      w = (if opt_node_eqb node (tree_get t path) then WriteUnchanged node else WriteValue path node).
Proof.
  unfold prepare. destruct (is_info path); [by split; [|intros []]|]. destruct (is_priority path); cbv zeta; split.
  - destruct (tree_get t _) as [n|] eqn:Hn; [|done]. destruct (resolve _ _ _) as [r|] eqn:Hr; [|done].
    destruct (priority_from_json r) as [p|] eqn:Hp; [|done]. intros Hw. split; [done|]. exists p.
    split; [by exists n, r|]. cbn. by destruct (priority_eqb p (priority n)); simplify_eq.
  - intros (_ & p & (n & r & -> & -> & ->) & ->). cbn. by destruct (priority_eqb p (priority n)).
  - destruct (resolve _ _ _) as [r|] eqn:Hr; [|done].
    destruct (from_json r _ _) as [node|] eqn:Hp; [|done]. intros Hw. split; [done|]. exists node.
    split; [by exists r|]. by destruct (opt_node_eqb _ _); simplify_eq.
  - intros (_ & node & (r & -> & ->) & ->). by destruct (opt_node_eqb _ _).
Qed.

Lemma prepare_write_ok t path value now w :
  (exists s, parse s (tree_limits t) = Ok path) -> prepare t path value now = Ok w -> write_ok (tree_limits t) w.
Proof.
  intros [s Hs] [Hi Hw]%prepare_Ok. destruct (is_priority path) eqn:Hp.
  - destruct Hw as (p & _ & ->). by destruct (priority_eqb _ _).
  - destruct Hw as (node & (r & _ & Hn) & ->). destruct (opt_node_eqb _ _); [done|]. split; [by eapply parse_data_path|].
    intros n ->. by apply build_stored in Hn as [Hn _].
Qed.

Lemma collect_results_Ok {A B E} (f : A -> result B E) l : forall res,
  collect_results f l = Ok res <-> Forall2 (fun x y => f x = Ok y) l res.
Proof.
  induction l as [|x l IH]; intros res; cbn [collect_results].
  - split; [by intros [= <-]|]. by intros ->%Forall2_nil_inv_l.
  - split.
    + destruct (f x) as [y|] eqn:Hy; [|done]. destruct (collect_results f l) as [ys|]; [|done].
      intros [= <-]. constructor; [done|]. by apply IH.
    + intros H. apply Forall2_cons_inv_l in H as (y & ys & -> & Hys & ->). apply IH in Hys as ->. done.
Qed.

(** The writes of an accepted update, in the order of its entries. *)
Lemma update_Ok t base entries now t' :
  update t base entries now = Ok t' ->
  exists paths writes,
    length paths = length entries /\ length writes = length entries /\ ForallOrdPairs disjoint_paths paths /\
    (forall i rel value, entries !! i = Some (rel, value) ->
      exists p w, paths !! i = Some p /\ writes !! i = Some w /\
        entry_path base (tree_limits t) rel = Ok p /\ prepare t p value now = Ok w) /\
    t' = run_writes t (filter (fun w => negb (is_priority_write w)) writes ++ filter is_priority_write writes).
Proof.
  unfold update. case_bool_decide as He; [intros [= <-]; subst; exists [], []; split_and!; (done || constructor)|].
  destruct (collect_results _ entries) as [paths|] eqn:Hp; [|done].
  destruct (check_disjoint paths) as [[]|] eqn:Hd; [|done].
  destruct (collect_results _ (zip paths entries)) as [writes|] eqn:Hw; [|done]. intros [= <-].
  apply collect_results_Ok, Forall2_same_length_lookup in Hp as [Hlen Hp].
  apply collect_results_Ok, Forall2_same_length_lookup in Hw as [Hlen' Hw].
  rewrite length_zip_with, <- Hlen, Nat.min_id in Hlen'.
  exists paths, writes. split_and!; [done..|by apply check_disjoint_pairs| |done].
  intros i rel value Hi.
  destruct (lookup_lt_is_Some_2 paths i) as [p Hpi]; [rewrite <- Hlen; by eapply lookup_lt_Some|].
  destruct (lookup_lt_is_Some_2 writes i) as [w Hwi]; [rewrite <- Hlen'; by eapply lookup_lt_Some|].
  exists p, w. split_and!; [done|done|by apply (Hp i (rel, value) p)|].
  apply (Hw i (p, (rel, value)) w); [|done]. apply lookup_zip_with_Some. by exists p, (rel, value).
Qed.

Lemma entry_path_parsed base limits rel p : entry_path base limits rel = Ok p -> exists s, parse s limits = Ok p.
Proof. unfold entry_path. destruct (parse rel limits); [|done]. eauto. Qed.

(** ** The trees writes reach *)

Definition parsed_path (limits : Limits) (p : Path) : Prop := exists s, parse s limits = Ok p.

Inductive reachable (limits : Limits) : Tree -> Prop :=
| reach_new : reachable limits (tree_new limits)
| reach_set t path value now t' written :
    reachable limits t -> parsed_path limits path -> set t path value now = Ok (t', written) -> reachable limits t'
| reach_update t base entries now t' :
    reachable limits t -> update t base entries now = Ok t' -> reachable limits t'
| reach_replace t json r :
    reachable limits t -> from_json json root limits = Ok r -> reachable limits (replace_root t r).

Lemma set_Ok t path value now t' written :
  set t path value now = Ok (t', written) ->
  exists w, prepare t path value now = Ok w /\ t' = apply t w /\
    written = match w with WriteValue _ node | WriteUnchanged node => node | WritePriority _ _ => None end.
Proof. unfold set. destruct (prepare _ _ _ _) as [w|]; [|done]. intros [= <- <-]. by exists w. Qed.

Lemma update_tree_ok t base entries now t' :
  tree_ok t -> update t base entries now = Ok t' -> tree_ok t' /\ tree_limits t' = tree_limits t.
Proof.
  intros Ht (paths & writes & Hlp & Hlw & _ & Hall & ->)%update_Ok. split; [|apply run_limits].
  apply run_writes_ok; [done|].
  assert (Hok : Forall (write_ok (tree_limits t)) writes).
  { apply Forall_lookup. intros i w Hw. destruct (lookup_lt_is_Some_2 entries i) as [[rel value] Hi];
      [rewrite <- Hlw; by eapply lookup_lt_Some|].
    destruct (Hall i rel value Hi) as (p & w' & Hp & Hw' & Hpath & Hprep). simplify_eq.
    eapply prepare_write_ok, Hprep. by eapply entry_path_parsed. }
  rewrite Forall_app, !Forall_forall. rewrite Forall_forall in Hok.
  split; intros w [_ Hw]%list_elem_of_filter; auto.
Qed.

Lemma reachable_ok limits t : reachable limits t -> tree_limits t = limits /\ tree_ok t.
Proof.
  induction 1 as [|t path value now t' w _ [Hl IH] Hp Hs|t base entries now t' _ [Hl IH] Hu|t json r _ [Hl IH] Hr].
  - by split.
  - apply set_Ok in Hs as (w' & Hw & -> & _). rewrite apply_limits. split; [done|].
    apply apply_ok; [done|]. apply prepare_write_ok in Hw; [done|by rewrite Hl].
  - apply update_tree_ok in Hu as [Hok Hl']; [|done]. by rewrite Hl'.
  - unfold replace_root. destruct (opt_node_eqb _ _); [done|]. split; [done|].
    intros n. cbn. rewrite Hl. intros ->. by apply build_stored in Hr as [Hn _].
Qed.

(** C24. Every tree writes can reach is well formed: whatever sequence of sets, multipath
    updates and replacements of the root starts from an empty tree, each location holds
    only what may be stored there: valid keys within the path limit, no empty maps,
    no string over its limit, nothing below the depth limit. *)
Theorem reachable_well_formed limits t path n :
  reachable limits t -> tree_get t path = Some n ->
  stored limits (position_below at_root (keys path)) n /\ node_wf n /\
  Z.of_nat (depth path + node_depth n) <= max_depth limits.
Proof.
  intros [Hl Ht]%reachable_ok Hn. unfold tree_ok in Ht. rewrite Hl in Ht. rewrite tree_get_find in Hn.
  assert (Hst : stored limits (position_below at_root (keys path)) n) by by eapply stored_find.
  split_and!; [done|by eapply stored_node_wf|]. apply stored_levels in Hst.
  rewrite position_below_depth in Hst. cbn in Hst. unfold depth. lia.
Qed.

(** ** Importing an export *)

Lemma no_server_value_leaf l : has_server_value (leaf_to_json l) = false.
Proof. by destruct l. Qed.

Lemma no_server_value_priority p : has_server_value (priority_to_json p) = false.
Proof. by destruct p. Qed.

Lemma export_no_server_value limits n : forall at_, stored limits at_ n -> has_server_value (to_json Export n) = false.
Proof.
  induction n as [l p|m p IH] using node_induction; intros at_ Hst; cbn [to_json].
  - destruct p as [p|]; [|apply no_server_value_leaf]. apply has_server_value_object.
    change (list_to_map _) with (<[PRIORITY_KEY := priority_to_json p]> (<[VALUE_KEY := leaf_to_json l]> (∅ : gmap text Json))).
    split; [by rewrite !lookup_insert_ne|]. intros k v. rewrite !lookup_insert_Some, lookup_empty.
    intros [[<- <-]|[_ [[<- <-]|[_ ?]]]]; [apply no_server_value_priority|apply no_server_value_leaf|done].
  - inversion_clear Hst as [|? ? ? Hd Hne Hfit Hsub]. apply has_server_value_object.
    set (members := (fun c => to_json Export c) <$> m).
    assert (Hmem : members !! SERVER_VALUE_KEY = None /\ forall k v, members !! k = Some v -> has_server_value v = false).
    { unfold members. split.
      - rewrite lookup_fmap. destruct (m !! SERVER_VALUE_KEY) eqn:Hk; [|done].
        apply Hfit in Hk as [Hk _]. by apply key_ok_no_dot in Hk as (_ & _ & ?).
      - intros k v. rewrite lookup_fmap, fmap_Some. intros (c & Hk & ->). eapply IH; eauto. }
    destruct p as [p|]; [|done]. destruct Hmem as [H1 H2]. split; [by rewrite lookup_insert_ne|].
    intros k v. rewrite lookup_insert_Some. intros [[<- <-]|[_ Hk]]; [apply no_server_value_priority|eauto].
Qed.

(** Importing an export restores the database: writing the export of any reachable tree
    at the root of an empty one succeeds, at any time, and leaves the exported tree, the
    numbers among its priorities read as doubles. *)
Theorem export_import limits t now :
  0 <= max_depth limits -> reachable limits t -> exists t' written,
    set (tree_new limits) root (get_json t root Export) now = Ok (t', written) /\
    tree_root t' = member_node <$> tree_root t /\ written = tree_root t'.
Proof.
  intros Hmax [Hl Ht]%reachable_ok. unfold tree_ok in Ht. rewrite Hl in Ht.
  assert (Hget : get_json t root Export = match tree_root t with Some n => to_json Export n | None => JNull end).
  { unfold get_json, tree_get. cbn. by destruct (tree_root t). }
  rewrite Hget. unfold set, prepare, is_info, is_priority. cbn [last_key keys root head last].
  rewrite !bool_decide_false by done. unfold tree_get. cbn [tree_root tree_new mbind option_bind tree_limits].
  destruct (tree_root t) as [n|] eqn:Hn.
  - specialize (Ht n eq_refl). rewrite resolve_plain by (by eapply export_no_server_value).
    unfold from_json. change {| pos_depth := _; pos_bytes := _ |} with at_root. rewrite (build_export limits n at_root Ht).
    cbn. by eexists _, _.
  - cbn [resolve]. unfold from_json. cbn [build pos_depth depth keys root length].
    rewrite (proj2 (Z.ltb_ge _ _)) by done. cbn. by eexists _, _.
Qed.

(** ** What an update changes *)

Lemma find_set_priority ks p : forall n q,
  (~ q `prefix_of` ks -> find (set_priority n ks p) q = find n q) /\
  (q <> ks -> priority_of (find (set_priority n ks p) q) = priority_of (find n q)) /\
  (forall n', find (set_priority n ks p) ks = Some n' -> priority n' = p).
Proof.
  induction ks as [|k ks IH]; intros n q.
  - assert (Hch : children_of (set_priority n [] p) = children_of n) by by destruct n as [[[] ?]|].
    split_and!; [| |cbn; by destruct n; [intros n' [= <-]|]]; destruct q as [|j q]; cbn [find].
    + intros Hq. by destruct Hq.
    + by rewrite Hch.
    + done.
    + by rewrite Hch.
  - split_and!.
    + destruct q as [|j q]; [intros Hq; destruct Hq; by apply prefix_nil|]. intros Hq. cbn [find].
      rewrite children_set_priority. destruct (decide (j = k)) as [->|]; [|by rewrite lookup_put_ne].
      rewrite lookup_put. apply IH. intros H. by apply Hq, prefix_cons.
    + destruct q as [|j q]; intros Hq.
      * cbn [find]. destruct n as [[[l|m] r]|]; cbn [set_priority content priority]; [done| |done].
        destruct (m !! k) as [c|]; [|done]. by destruct (set_priority (Some c) ks p).
      * cbn [find]. rewrite children_set_priority. destruct (decide (j = k)) as [->|]; [|by rewrite lookup_put_ne].
        rewrite lookup_put. apply IH. congruence.
    + intros n'. cbn [find]. rewrite children_set_priority, lookup_put. by apply IH.
Qed.

Lemma find_set_priority_absent ks p : forall n q, find n q = None -> find (set_priority n ks p) q = None.
Proof.
  induction ks as [|k ks IH]; intros n q Hn.
  - destruct q as [|j q]; cbn [find] in *; [by subst n|]. by destruct n as [[[] ?]|].
  - destruct q as [|j q]; cbn [find] in *; [by subst n|]. rewrite children_set_priority.
    destruct (decide (j = k)) as [->|]; [rewrite lookup_put; by apply IH|by rewrite lookup_put_ne].
Qed.

(** A write that cannot change what is at [ks]. *)
Definition leaves (ks : list text) (w : Write) : Prop :=
  match w with
  | WriteValue p _ => disjoint_paths p (from_keys ks)
  | WritePriority p _ => ~ ks `prefix_of` keys p
  | WriteUnchanged _ => True
  end.

Lemma apply_leaves ks w t : leaves ks w -> find (tree_root (apply t w)) ks = find (tree_root t) ks.
Proof.
  destruct w as [p v|p prio|v]; cbn [leaves apply set_root tree_root]; [|by intros H; apply find_set_priority|done].
  intros [H1 H2]. apply find_replace_aside; [by apply bool_decide_eq_false in H1|by apply bool_decide_eq_false in H2].
Qed.

Lemma run_leaves ks ws : Forall (leaves ks) ws -> forall t, find (tree_root (run_writes t ws)) ks = find (tree_root t) ks.
Proof.
  induction 1 as [|w ws Hw _ IH]; intros t; [done|]. change (run_writes t (w :: ws)) with (run_writes (apply t w) ws).
  by rewrite IH, apply_leaves.
Qed.

Lemma run_writes_app t ws ws' : run_writes t (ws ++ ws') = run_writes (run_writes t ws) ws'.
Proof. apply fold_left_app. Qed.

(** The write of an entry, among those of the others. *)
Lemma filter_split {A} (P : A -> Prop) `{forall x, Decision (P x)} (l : list A) i x :
  l !! i = Some x -> P x ->
  exists pre post, filter P l = pre ++ x :: post /\
    forall y, y ∈ pre \/ y ∈ post -> exists j, j <> i /\ l !! j = Some y.
Proof.
  intros Hi Hx. exists (filter P (take i l)), (filter P (drop (S i) l)). split.
  - rewrite <- (take_drop_middle l i x Hi) at 1. by rewrite filter_app, filter_cons_True.
  - intros y [[_ Hy]%list_elem_of_filter|[_ Hy]%list_elem_of_filter]; apply list_elem_of_lookup in Hy as [j Hj].
    + apply lookup_take_Some in Hj as [Hj Hlt]. exists j. split; [lia|done].
    + rewrite lookup_drop in Hj. exists (S i + j)%nat. split; [lia|done].
Qed.

Lemma pairs_lookup {A} (R : A -> A -> Prop) (l : list A) :
  (forall x y, R x y -> R y x) -> ForallOrdPairs R l ->
  forall i j x y, i <> j -> l !! i = Some x -> l !! j = Some y -> R x y.
Proof.
  intros Hsym. induction 1 as [|z l Hz _ IH]; intros i j x y Hij Hi Hj; [done|].
  rewrite Forall_forall in Hz. destruct i as [|i], j as [|j]; cbn in Hi, Hj; simplify_eq.
  - by apply Hz; eapply list_elem_of_lookup_2.
  - apply Hsym, Hz. by eapply list_elem_of_lookup_2.
  - eapply (IH i j); eauto.
Qed.

(** The location an entry's path writes. *)
Definition target (p : Path) : Path := if is_priority p then default root (parent p) else p.

Lemma priority_parent p : is_priority p = true -> keys p = keys (default root (parent p)) ++ [PRIORITY_KEY].
Proof.
  unfold is_priority, last_key. rewrite bool_decide_eq_true. intros Hl. unfold parent.
  destruct (keys p) as [|k ks] eqn:Hk; [done|]. cbn [default keys]. rewrite <- Hk in *. clear Hk k ks.
  apply last_Some in Hl as [l ->]. by rewrite removelast_last.
Qed.

(** What a prepared write is, by its path. *)
Lemma prepare_shape t p value now w :
  prepare t p value now = Ok w ->
  (exists v, w = WriteUnchanged v) \/
  (is_priority p = false /\ exists v, w = WriteValue p v) \/
  (is_priority p = true /\ exists prio, w = WritePriority (target p) prio).
Proof.
  intros [_ Hw]%prepare_Ok. unfold target. destruct (is_priority p).
  - destruct Hw as (prio & _ & ->). destruct (priority_eqb _ _); [by left; eexists|by right; right; split; [|eexists]].
  - destruct Hw as (v & _ & ->). destruct (opt_node_eqb _ _); [by left; eexists|by right; left; split; [|eexists]].
Qed.

(** The entry of a path disjoint from [q] leaves [q]. *)
Lemma prepare_leaves t p value now w q :
  prepare t p value now = Ok w -> disjoint_paths p q -> leaves (keys q) w.
Proof.
  intros [[v ->]|[(Hp & v & ->)|(Hp & prio & ->)]]%prepare_shape [H1 H2]; cbn [leaves]; [done|by destruct q|].
  unfold target. rewrite Hp. apply priority_parent in Hp. apply bool_decide_eq_false in H2.
  intros Hq. apply H2. rewrite Hp. by apply prefix_app_r.
Qed.

Section update_effect.
Context (t : Tree) (now : Z) (paths : list Path) (writes : list Write) (values : list Json).
Context (Hdisj : ForallOrdPairs disjoint_paths paths) (Hlen : length writes = length paths).
Context (Hprep : forall i p w, paths !! i = Some p -> writes !! i = Some w ->
  exists value, values !! i = Some value /\ prepare t p value now = Ok w).

Let value_writes := filter (fun w => negb (is_priority_write w)) writes.
Let priority_writes := filter is_priority_write writes.
Let result_tree := run_writes t (value_writes ++ priority_writes).

Lemma entry_pair i p w : paths !! i = Some p -> writes !! i = Some w -> exists value, prepare t p value now = Ok w.
Proof. intros Hp Hw. destruct (Hprep i p w Hp Hw) as (value & _ & H). by exists value. Qed.

Lemma write_path i w : writes !! i = Some w -> exists p value, paths !! i = Some p /\ prepare t p value now = Ok w.
Proof.
  intros Hw. destruct (lookup_lt_is_Some_2 paths i) as [p Hp]; [rewrite <- Hlen; by eapply lookup_lt_Some|].
  destruct (entry_pair i p w Hp Hw) as [value Hv]. by exists p, value.
Qed.

(** The other writes leave an entry's location. *)
Lemma others_leave i p : paths !! i = Some p -> forall j w, j <> i -> writes !! j = Some w -> leaves (keys p) w.
Proof.
  intros Hp j w Hj Hw. destruct (write_path j w Hw) as (p' & value & Hp' & Hw').
  eapply prepare_leaves; [exact Hw'|]. eapply (pairs_lookup disjoint_paths paths); [|done|exact Hj|done|done].
  unfold disjoint_paths. tauto.
Qed.

Lemma all_leave q : Forall (fun p => disjoint_paths p q) paths -> forall w, w ∈ writes -> leaves (keys q) w.
Proof.
  intros Hq w [i Hw]%list_elem_of_lookup. destruct (write_path i w Hw) as (p & value & Hp & Hprepp).
  eapply prepare_leaves; [exact Hprepp|]. rewrite Forall_lookup in Hq. eauto.
Qed.

Lemma elem_of_kinds w : w ∈ value_writes ++ priority_writes -> w ∈ writes.
Proof. rewrite elem_of_app. unfold value_writes, priority_writes. rewrite !list_elem_of_filter. tauto. Qed.

Lemma update_aside q : Forall (fun p => disjoint_paths p q) paths -> tree_get result_tree q = tree_get t q.
Proof.
  intros Hq. rewrite !tree_get_find. apply run_leaves. apply Forall_forall. intros w Hw%elem_of_kinds. by eapply all_leave.
Qed.

Lemma update_unchanged i p v :
  paths !! i = Some p -> writes !! i = Some (WriteUnchanged v) -> tree_get result_tree p = tree_get t p.
Proof.
  intros Hp Hw. rewrite !tree_get_find. apply run_leaves. apply Forall_forall.
  intros w [j Hj]%elem_of_kinds%list_elem_of_lookup. destruct (decide (j = i)) as [->|]; [by simplify_eq|].
  by eapply others_leave.
Qed.

Lemma update_value i p v :
  paths !! i = Some p -> writes !! i = Some (WriteValue p v) -> tree_get result_tree p = v.
Proof.
  intros Hp Hw. destruct (filter_split (fun w => negb (is_priority_write w)) writes i _ Hw) as (pre & post & Heq & Hothers); [done|].
  unfold result_tree, value_writes. rewrite Heq, run_writes_app, run_writes_app, tree_get_find.
  assert (Hpost : forall ws, (forall w, w ∈ ws -> exists j, j <> i /\ writes !! j = Some w) -> Forall (leaves (keys p)) ws).
  { intros ws Hws. apply Forall_forall. intros w (j & Hj & Hwj)%Hws. by eapply others_leave. }
  rewrite run_leaves.
  - change (run_writes (run_writes t pre) (WriteValue p v :: post)) with
      (run_writes (apply (run_writes t pre) (WriteValue p v)) post).
    rewrite run_leaves by (apply Hpost; auto). cbn [apply set_root tree_root].
    pose proof (find_replace_below (keys p) [] v (tree_root (run_writes t pre))) as Hf. by rewrite app_nil_r in Hf.
  - apply Forall_forall. intros w [Hkind Hin]%list_elem_of_filter. apply list_elem_of_lookup in Hin as [j Hj].
    destruct (decide (j = i)) as [->|]; [by simplify_eq|]. by eapply others_leave.
Qed.

Lemma update_priority i p prio n :
  paths !! i = Some p -> is_priority p = true -> writes !! i = Some (WritePriority (target p) prio) ->
  tree_get result_tree (target p) = Some n -> priority n = prio.
Proof.
  intros Hp Hip Hw. destruct (filter_split is_priority_write writes i _ Hw) as (pre & post & Heq & Hothers); [done|].
  unfold result_tree, priority_writes. rewrite Heq, run_writes_app, run_writes_app, tree_get_find.
  set (t1 := run_writes (run_writes t value_writes) pre).
  change (run_writes t1 (WritePriority (target p) prio :: post)) with (run_writes (apply t1 (WritePriority (target p) prio)) post).
  assert (Hpost : Forall (fun w => exists q v, w = WritePriority q v /\ keys q <> keys (target p)) post).
  { apply Forall_forall. intros w Hin. destruct (Hothers w ltac:(auto)) as (j & Hj & Hwj).
    assert (Hk : is_priority_write w).
    { assert (w ∈ filter is_priority_write writes) as [? _]%list_elem_of_filter; [|done].
      rewrite Heq. apply elem_of_app. right. by right. }
    destruct (write_path j w Hwj) as (p' & value & Hp' & Hprep').
    destruct (prepare_shape _ _ _ _ _ Hprep') as [[? ->]|[(_ & ? & ->)|(Hip' & v & ->)]]; [done..|].
    exists (target p'), v. split; [done|]. intros Hkeys.
    assert (Hd : disjoint_paths p p').
    { eapply (pairs_lookup disjoint_paths paths); [unfold disjoint_paths; tauto|done| |exact Hp|exact Hp']. congruence. }
    destruct Hd as [Hd _]. apply bool_decide_eq_false in Hd. apply Hd. unfold target in Hkeys. rewrite Hip, Hip' in Hkeys.
    by rewrite (priority_parent p Hip), (priority_parent p' Hip'), Hkeys. }
  assert (Hgen : forall t2 : Tree, (forall n, find (tree_root t2) (keys (target p)) = Some n -> priority n = prio) ->
    forall n, find (tree_root (run_writes t2 post)) (keys (target p)) = Some n -> priority n = prio).
  { clear Heq Hothers. induction Hpost as [|w post (q & v & -> & Hq) _ IH]; intros t2 Ht2 n'; [apply Ht2|].
    change (run_writes t2 (WritePriority q v :: post)) with (run_writes (apply t2 (WritePriority q v)) post). apply IH.
    intros n2 Hn2. cbn [apply set_root tree_root] in Hn2.
    pose proof (proj1 (proj2 (find_set_priority (keys q) v (tree_root t2) (keys (target p)))) ltac:(congruence)) as Hpr.
    destruct (find (tree_root t2) (keys (target p))) as [n0|] eqn:Hn0.
    - rewrite Hn2 in Hpr. cbn in Hpr. rewrite Hpr. by apply Ht2.
    - exfalso. revert Hn2. clear -Hn0. revert Hn0. generalize (tree_root t2) (keys (target p)). intros r ks Hn0 Hn2.
      by rewrite (find_set_priority_absent (keys q) v r ks Hn0) in Hn2. }
  intros Hn. eapply Hgen, Hn. intros n' Hn'. by apply (find_set_priority (keys (target p)) prio (tree_root t1) []) in Hn'.
Qed.

End update_effect.

(** C25. A multipath update is exact: every entry's placeholders and checks read the tree
    before the update; each written location then holds the value of its own entry
    (or keeps the equal value it had), whatever the other entries are and in
    whatever order they come; a changed priority is the priority of its node, if the
    update leaves one; and every location apart from the entries' paths reads as
    before. *)
Theorem update_exact t base entries now t' :
  update t base entries now = Ok t' ->
  exists paths, length paths = length entries /\ ForallOrdPairs disjoint_paths paths /\
    (forall i rel value, entries !! i = Some (rel, value) ->
      exists p, paths !! i = Some p /\ entry_path base (tree_limits t) rel = Ok p /\
        if is_priority p then
          exists prio, checked_priority t (target p) value now prio /\
            (priority_eqb prio (priority_of (tree_get t (target p))) = true \/
             forall n, tree_get t' (target p) = Some n -> priority n = prio)
        else
          exists node, checked_value t p value now node /\
            tree_get t' p = if opt_node_eqb node (tree_get t p) then tree_get t p else node) /\
    (forall q, Forall (fun p => disjoint_paths p q) paths -> tree_get t' q = tree_get t q).
Proof.
  intros (paths & writes & Hlp & Hlw & Hdisj & Hall & ->)%update_Ok.
  assert (Hprep : forall i p w, paths !! i = Some p -> writes !! i = Some w ->
    exists value, entries.*2 !! i = Some value /\ prepare t p value now = Ok w).
  { intros i p w Hp Hw. destruct (lookup_lt_is_Some_2 entries i) as [[rel value] Hi];
      [rewrite <- Hlp; by eapply lookup_lt_Some|].
    destruct (Hall i rel value Hi) as (p' & w' & Hp' & Hw' & _ & Hprep). simplify_eq.
    exists value. by rewrite list_lookup_fmap, Hi. }
  assert (Hlen : length writes = length paths) by congruence.
  exists paths. split_and!; [done|done| |intros q Hq; by apply (update_aside t now paths writes entries.*2)].
  intros i rel value Hi. destruct (Hall i rel value Hi) as (p & w & Hp & Hw & Hpath & Hw').
  exists p. split_and!; [done|done|]. apply prepare_Ok in Hw' as [_ Hw']. destruct (is_priority p) eqn:Hip.
  - destruct Hw' as (prio & Hck & Hw'). unfold target at 1 2. rewrite Hip. exists prio. split; [done|].
    destruct (priority_eqb _ _); [by left|]. right.
    intros n. apply (update_priority t now paths writes entries.*2 Hdisj Hlen Hprep i); [done|done|].
    unfold target. by rewrite Hip, Hw, Hw'.
  - destruct Hw' as (node & Hck & Hw'). exists node. split; [done|]. rewrite Hw' in Hw.
    destruct (opt_node_eqb _ _).
    + by apply (update_unchanged t now paths writes entries.*2 Hdisj Hlen Hprep i p node).
    + by apply (update_value t now paths writes entries.*2 Hdisj Hlen Hprep i p node).
Qed.

Definition sample_update : list (text * Json) :=
  [(chars "a/n", JObject {[SERVER_VALUE_KEY := JObject {[INCREMENT := json_int 41]}]});
   (chars "b/.priority", json_int 3); (chars "b/c", json_int 7)].

Definition counter_tree : Tree :=
  run_writes (tree_new PRODUCTION)
    [WriteValue (path_of ["a"; "n"]) (Some (leaf_node (NumberLeaf (Int 1))));
     WriteValue (path_of ["b"]) (Some (leaf_node (Bool true)))].

Lemma update_exact_witness :
  exists t', update counter_tree root sample_update 0 = Ok t' /\
  exists paths, length paths = 3%nat /\ ForallOrdPairs disjoint_paths paths /\
    (forall i rel value, sample_update !! i = Some (rel, value) ->
      exists p, paths !! i = Some p /\ entry_path root PRODUCTION rel = Ok p /\
        if is_priority p then
          exists prio, checked_priority counter_tree (target p) value 0 prio /\
            (priority_eqb prio (priority_of (tree_get counter_tree (target p))) = true \/
             forall n, tree_get t' (target p) = Some n -> priority n = prio)
        else
          exists node, checked_value counter_tree p value 0 node /\
            tree_get t' p = if opt_node_eqb node (tree_get counter_tree p) then tree_get counter_tree p else node) /\
    (forall q, Forall (fun p => disjoint_paths p q) paths -> tree_get t' q = tree_get counter_tree q).
Proof.
  assert (H : exists t', update counter_tree root sample_update 0 = Ok t').
  { destruct (update counter_tree root sample_update 0) as [t'|e] eqn:He; [by eexists|]. vm_compute in He. discriminate He. }
  destruct H as [t' H]. exists t'. split; [exact H|]. exact (update_exact counter_tree root sample_update 0 t' H).
Defined.

(** Writing a priority that equals the stored one is dropped before the values are
    applied: when they empty the node on the way, the priority the update asks for
    is lost, while one that differs is kept. *)
Theorem update_drops_equal_priority :
  let stored_tree := run_writes (tree_new PRODUCTION)
    [WriteValue (path_of ["a"; "b"]) (Some (text_leaf "x")); WritePriority (path_of ["a"]) (Some (StringPriority (chars "p")))] in
  let entries p := [(chars "a/b", JNull); (chars "a/c", JBool true); (chars "a/.priority", JString (chars p))] in
  (forall t', update stored_tree root (entries "p") 0 = Ok t' -> get_json t' (path_of ["a"; ".priority"]) Plain = JNull) /\
  (forall t', update stored_tree root (entries "q") 0 = Ok t' ->
     get_json t' (path_of ["a"; ".priority"]) Plain = JString (chars "q")).
Proof. split; intros t' H; vm_compute in H; injection H as <-; vm_compute; reflexivity. Qed.

(** Reading back a write of one location: a value written at a data path is read there
    (as written, or the equal value that stays stored), nothing disjoint from the path
    changes, and the answer is the node as written. *)
Theorem set_exact t path value now t' written :
  is_priority path = false -> set t path value now = Ok (t', written) ->
  checked_value t path value now written /\
  tree_get t' path = (if opt_node_eqb written (tree_get t path) then tree_get t path else written) /\
  forall q, disjoint_paths path q -> tree_get t' q = tree_get t q.
Proof.
  intros Hp (w & [_ Hw]%prepare_Ok & -> & ->)%set_Ok. rewrite Hp in Hw. destruct Hw as (node & Hck & ->).
  destruct (opt_node_eqb node (tree_get t path)) eqn:He; split_and!; rewrite ?He; try done.
  - rewrite !tree_get_find. pose proof (find_replace_below (keys path) [] node (tree_root t)) as Hf. by rewrite app_nil_r in Hf.
  - intros q Hq. rewrite !tree_get_find. by apply (apply_leaves (keys q) (WriteValue path node) t); destruct q.
Qed.

Lemma int_leaf_eqb a b n :
  node_eqb (leaf_node (NumberLeaf (Int a))) n = true -> content n = LeafContent (NumberLeaf (Int b)) -> b = a.
Proof.
  destruct n as [c p]. cbn [content]. intros He ->. cbn [node_eqb leaf_node] in He.
  apply andb_true_iff in He as [_ He]. unfold leaf_eqb, number_eq, total_cmp in He.
  destruct (Z.compare_spec a b); [done|discriminate He..].
Qed.

(** A counter counts: an integer increment placeholder written where the integer [c] is
    stored stores [c] plus the delta, as long as the sum is an [i64]; where nothing is
    stored it stores the delta. *)
Theorem increment_adds t path delta now t' written c :
  is_priority path = false ->
  content <$> tree_get t path = (LeafContent <$> (NumberLeaf <$> (Int <$> c))) ->
  fits i64 (default 0 c + delta) ->
  set t path (JObject {[SERVER_VALUE_KEY := JObject {[INCREMENT := json_int delta]}]}) now = Ok (t', written) ->
  content <$> tree_get t' path = Some (LeafContent (NumberLeaf (Int (default 0 c + delta)))).
Proof.
  intros Hp Hc Hfits (w & [_ Hw]%prepare_Ok & -> & _)%set_Ok. rewrite Hp in Hw.
  destruct Hw as (node & (r & Hr & Hn) & ->).
  assert (Hres : r = json_int (default 0 c + delta)).
  { cbn [resolve] in Hr. rewrite lookup_singleton_eq in Hr.
    rewrite lookup_fmap, lookup_singleton_ne in Hr by done.
    destruct (existsb _ _); [done|].
    unfold resolve_placeholder in Hr. rewrite lookup_singleton_eq, map_size_singleton, Hc in Hr. cbn in Hr.
    destruct c as [c|]; cbn in Hr; [|by injection Hr as <-].
    unfold increment, checked in Hr. rewrite decide_True in Hr by done. by injection Hr as <-. }
  subst r. unfold from_json, json_int in Hn. cbn [build pos_depth] in Hn.
  destruct (max_depth (tree_limits t) <? Z.of_nat (depth path)); [discriminate Hn|]. injection Hn as <-.
  destruct (opt_node_eqb _ _) eqn:He.
  - cbn [apply]. destruct (tree_get t path) as [n|]; [|discriminate He].
    destruct c as [c|]; [|discriminate Hc]. cbn [fmap option_fmap option_map] in Hc |- *. injection Hc as Hc.
    rewrite Hc. do 4 f_equal. by apply (int_leaf_eqb (default 0 (Some c) + delta) c n).
  - rewrite tree_get_find. cbn [apply set_root tree_root].
    pose proof (find_replace_below (keys path) [] (Some (leaf_node (NumberLeaf (Int (default 0 c + delta))))) (tree_root t)) as Hf.
    rewrite app_nil_r in Hf. by rewrite Hf.
Qed.

(** ** Concrete writes *)

Definition counted : Tree :=
  match set (tree_new PRODUCTION) (path_of ["a"; "n"]) (json_int 1) 0 with Ok (t, _) => t | Err _ => tree_new PRODUCTION end.

Lemma counted_reachable : reachable PRODUCTION counted.
Proof.
  destruct (set (tree_new PRODUCTION) (path_of ["a"; "n"]) (json_int 1) 0) as [[t w]|e] eqn:H.
  - assert (counted = t) as -> by (unfold counted; by rewrite H).
    eapply reach_set; [apply reach_new|by exists (chars "a/n")|exact H].
  - vm_compute in H. discriminate H.
Defined.

Lemma reachable_well_formed_witness :
  let n := leaf_node (NumberLeaf (Int 1)) in
  stored PRODUCTION (position_below at_root (keys (path_of ["a"; "n"]))) n /\ node_wf n /\
  Z.of_nat (depth (path_of ["a"; "n"]) + node_depth n) <= max_depth PRODUCTION.
Proof. apply (reachable_well_formed PRODUCTION counted); [exact counted_reachable|vm_compute; reflexivity]. Defined.

Lemma export_import_witness :
  exists t' written,
    set (tree_new PRODUCTION) root (get_json counted root Export) 5 = Ok (t', written) /\
    tree_root t' = member_node <$> tree_root counted /\ written = tree_root t'.
Proof. apply (export_import PRODUCTION counted 5); [done|exact counted_reachable]. Defined.

Lemma set_exact_witness :
  let value := JArray [JNull; JString (chars "x")] in
  exists t' written, set counter_tree (path_of ["a"; "m"]) value 0 = Ok (t', written) /\
  checked_value counter_tree (path_of ["a"; "m"]) value 0 written /\
  tree_get t' (path_of ["a"; "m"]) =
    (if opt_node_eqb written (tree_get counter_tree (path_of ["a"; "m"])) then tree_get counter_tree (path_of ["a"; "m"]) else written) /\
  forall q, disjoint_paths (path_of ["a"; "m"]) q -> tree_get t' q = tree_get counter_tree q.
Proof.
  intros value. destruct (set counter_tree (path_of ["a"; "m"]) value 0) as [[t' written]|e] eqn:H.
  - exists t', written. split; [done|]. apply (set_exact counter_tree (path_of ["a"; "m"]) value 0 t' written eq_refl H).
  - vm_compute in H. discriminate H.
Defined.

Lemma increment_adds_witness :
  exists t' written,
    set counter_tree (path_of ["a"; "n"]) (JObject {[SERVER_VALUE_KEY := JObject {[INCREMENT := json_int 41]}]}) 0 = Ok (t', written) /\
    content <$> tree_get t' (path_of ["a"; "n"]) = Some (LeafContent (NumberLeaf (Int 42))).
Proof.
  destruct (set counter_tree (path_of ["a"; "n"]) (JObject {[SERVER_VALUE_KEY := JObject {[INCREMENT := json_int 41]}]}) 0)
    as [[t' written]|e] eqn:H; [|vm_compute in H; discriminate H].
  exists t', written. split; [done|].
  apply (increment_adds counter_tree (path_of ["a"; "n"]) 41 0 t' written (Some 1) eq_refl eq_refl); [|exact H].
  unfold fits. vm_compute. split; discriminate.
Defined.
