(* ===== verification/DbQuery.v ===== *)
(** * Realtime Database queries

    Models [crates/fireemu-core-database/src/query.rs]: the order of the children of
    a location, range bounds and limits.  [sort_by] is a merge sort by the
    comparison; on typed data no two children compare equal, so its stability does
    not matter. *)
From S2P Require Import Prelude Text DbKey DbPath DbNumber DbNode.

Inductive OrderBy := OrderPriority | OrderKey | OrderValue | OrderChild (path : Path).

Inductive BoundKey := Min | Max | Name (key : text).

Record Bound := { bound_value : Json; bound_key : BoundKey; inclusive : bool }.

Inductive Limit := First (n : Z) | Last (n : Z).

Record QueryParams := {
  order_by : OrderBy;
  start : option Bound;
  end_ : option Bound;
  limit : option Limit;
}.

Definition ordered_by (order : OrderBy) : QueryParams :=
  {| order_by := order; start := None; end_ := None; limit := None |}.

Definition set_start (b : Bound) (q : QueryParams) : QueryParams :=
  {| order_by := order_by q; start := Some b; end_ := end_ q; limit := limit q |}.
Definition set_end (b : Bound) (q : QueryParams) : QueryParams :=
  {| order_by := order_by q; start := start q; end_ := Some b; limit := limit q |}.
Definition set_limit (l : Limit) (q : QueryParams) : QueryParams :=
  {| order_by := order_by q; start := start q; end_ := end_ q; limit := Some l |}.

(** [key.map_or(missing, BoundKey::Name)] *)
Definition key_or (missing : BoundKey) (key : option text) : BoundKey :=
  match key with Some k => Name k | None => missing end.

Definition start_at (value : Json) (key : option text) : QueryParams -> QueryParams :=
  set_start {| bound_value := value; bound_key := key_or Min key; inclusive := true |}.
Definition start_after (value : Json) (key : option text) : QueryParams -> QueryParams :=
  set_start {| bound_value := value; bound_key := key_or Max key; inclusive := false |}.
Definition end_at (value : Json) (key : option text) : QueryParams -> QueryParams :=
  set_end {| bound_value := value; bound_key := key_or Max key; inclusive := true |}.
Definition end_before (value : Json) (key : option text) : QueryParams -> QueryParams :=
  set_end {| bound_value := value; bound_key := key_or Min key; inclusive := false |}.
Definition equal_to (value : Json) (key : option text) (q : QueryParams) : QueryParams :=
  end_at value key (start_at value key q).
Definition limit_to_first (n : Z) : QueryParams -> QueryParams := set_limit (First n).
Definition limit_to_last (n : Z) : QueryParams -> QueryParams := set_limit (Last n).

(** [fits] of the loop of [validate] *)
Definition bound_fits (order : OrderBy) (b : Bound) : bool :=
  match order, bound_value b with
  | OrderKey, JString _ => match bound_key b with Name _ => false | _ => true end
  | _, (JArray _ | JObject _) | OrderKey, _ | OrderPriority, JBool _ => false
  | _, _ => true
  end.

Definition validate (q : QueryParams) : result unit DatabaseError :=
  if forallb (bound_fits (order_by q)) (option_list (start q) ++ option_list (end_ q)) then Ok tt
  else db_err InvalidQuery.

Inductive IndexValue := Absent | LeafValue (l : Leaf) | LeafRef (l : Leaf) | ChildrenValue.

Definition of_node (node : option Node) : IndexValue :=
  match content <$> node with
  | None => Absent
  | Some (LeafContent leaf) => LeafRef leaf
  | Some (Children _) => ChildrenValue
  end.

Definition of_bound (value : Json) : IndexValue :=
  match value with
  | JBool b => LeafValue (Bool b)
  | JNumber n => LeafValue (NumberLeaf n)
  | JString s => LeafValue (StringLeaf s)
  | JNull | JArray _ | JObject _ => Absent
  end.

Definition index_leaf (v : IndexValue) : option Leaf :=
  match v with LeafValue leaf | LeafRef leaf => Some leaf | Absent | ChildrenValue => None end.

Definition rank (v : IndexValue) : Z :=
  match v with Absent => 0 | LeafValue _ | LeafRef _ => 1 | ChildrenValue => 2 end.

Definition cmp_with (v w : IndexValue) : comparison :=
  match index_leaf v, index_leaf w with
  | Some a, Some b => value_cmp a b
  | _, _ => rank v ?= rank w
  end.

Definition index_value (order : OrderBy) (child : Node) : IndexValue :=
  match order with
  | OrderPriority =>
      match priority child with None => Absent | Some p => LeafValue (as_leaf p) end
  | OrderValue => of_node (Some child)
  | OrderChild path => of_node (descendant child (keys path))
  | OrderKey => Absent
  end.

Definition compare_children (q : QueryParams) (key_a : text) (a : Node) (key_b : text) (b : Node) : comparison :=
  match order_by q with
  | OrderKey => name_compare key_a key_b
  | order => then_with (cmp_with (index_value order a) (index_value order b)) (name_compare key_a key_b)
  end.

Definition compare_to_bound (q : QueryParams) (key : text) (child : Node) (b : Bound) : comparison :=
  let primary :=
    match order_by q, bound_value b with
    | OrderKey, JString name => name_compare key name
    | order, value => cmp_with (index_value order child) (of_bound value)
    end in
  then_with primary
    (match bound_key b with Min => Gt | Max => Lt | Name name => name_compare key name end).

Definition is_eq (c : comparison) : bool := match c with Eq => true | _ => false end.

Definition in_range (q : QueryParams) (key : text) (child : Node) : bool :=
  let after_start :=
    match start q with
    | None => true
    | Some b => let ord := compare_to_bound q key child b in
                match ord with Gt => true | _ => is_eq ord && inclusive b end
    end in
  let before_end :=
    match end_ q with
    | None => true
    | Some b => let ord := compare_to_bound q key child b in
                match ord with Lt => true | _ => is_eq ord && inclusive b end
    end in
  after_start && before_end.

(** The order [selected.sort_by] sorts by. *)
Definition child_le (q : QueryParams) (x y : text * Node) : Prop :=
  compare_children q x.1 x.2 y.1 y.2 <> Gt.

#[global] Instance child_le_dec q x y : Decision (child_le q x y).
Proof. unfold child_le. solve_decision. Defined.

Definition apply_limit (l : option Limit) (selected : list (text * Node)) : list (text * Node) :=
  match l with
  | None => selected
  | Some (First n) => take (Z.to_nat n) selected
  | Some (Last n) => drop (length selected - Z.to_nat n) selected
  end.

Definition run (q : QueryParams) (node : option Node) : list (text * Node) :=
  match content <$> node with
  | Some (Children m) =>
      let selected := filter (fun e => in_range q e.1 e.2) (btree_map_iter m) in
      apply_limit (limit q) (merge_sort (child_le q) selected)
  | _ => []
  end.

Definition scores : Node :=
  MkNode (Children (list_to_map (map (fun '(k, n) => (chars k, leaf_node (NumberLeaf (Int n))))
    [("a", 3); ("b", 1); ("10", 2); ("9", 2); ("c", 5)]))) None.

Example query_ex :
  let ks q := map fst (run q (Some scores)) in
  ks (ordered_by OrderKey) = map chars ["9"; "10"; "a"; "b"; "c"] /\
  ks (start_at (JNumber (Int 2)) (Some (chars "10")) (end_before (JNumber (Int 5)) None (ordered_by OrderValue)))
    = map chars ["10"; "a"] /\
  ks (limit_to_last 2 (end_at (JNumber (Int 3)) None (ordered_by OrderValue))) = map chars ["10"; "a"].
Proof. vm_compute. repeat split. Qed.

(** ** Typed data

    What the types of the source guarantee of a node: its texts are Unicode scalar
    values, its integers 64-bit and its doubles finite. *)

Definition leaf_typed (l : Leaf) : Prop :=
  match l with Bool _ => True | NumberLeaf n => number_ok n | StringLeaf s => text_ok s end.

Inductive typed : Node -> Prop :=
| typed_node c p :
    (forall l, c = LeafContent l -> leaf_typed l) ->
    (forall m k n, c = Children m -> m !! k = Some n -> text_ok k) ->
    (forall m k n, c = Children m -> m !! k = Some n -> typed n) ->
    (forall q, p = Some q -> leaf_typed (as_leaf q)) ->
    typed (MkNode c p).

Definition index_typed (v : IndexValue) : Prop := forall l, index_leaf v = Some l -> leaf_typed l.

Lemma typed_child n k c : typed n -> node_child n k = Some c -> text_ok k /\ typed c.
Proof.
  intros Hn. unfold node_child. destruct n as [[l|m] p]; cbn; [done|]. inversion_clear Hn. eauto.
Qed.

Lemma typed_descendant ks : forall n c, typed n -> descendant n ks = Some c -> typed c.
Proof.
  induction ks as [|k ks IH]; intros n c Hn; cbn [descendant]; [by intros [= <-]|].
  destruct (node_child n k) as [n'|] eqn:Hk; [|done]. apply IH. by apply (typed_child n k n').
Qed.

Lemma of_node_typed n : (forall n', n = Some n' -> typed n') -> index_typed (of_node n).
Proof.
  intros Hn l. destruct n as [[[l'|m] p]|]; cbn; [|done..]. intros [= <-].
  specialize (Hn _ eq_refl). inversion_clear Hn. eauto.
Qed.

Lemma index_value_typed order n : typed n -> index_typed (index_value order n).
Proof.
  intros Hn. destruct order as [| | |path]; cbn [index_value].
  - destruct n as [c [p|]]; [|done]. intros l [= <-]. inversion_clear Hn. cbn. eauto.
  - done.
  - apply of_node_typed. by intros n' [= <-].
  - apply of_node_typed. intros n' Hn'. by eapply typed_descendant.
Qed.

(** ** The order of children as a rank *)

Definition leaf_rank (l : Leaf) : Z * (Z * list Z) :=
  match l with
  | Bool b => (0, (Z.b2z b, []))
  | NumberLeaf n => (1, (value n, []))
  | StringLeaf s => (2, (0, encode_utf16 s))
  end.

Definition index_rank (v : IndexValue) : Z * (Z * (Z * list Z)) :=
  match index_leaf v with Some l => (1, leaf_rank l) | None => (rank v, (0, (0, []))) end.

Definition child_rank (order : OrderBy) (e : text * Node) : (Z * (Z * (Z * list Z))) * (Z * (Z * (Z * list Z))) :=
  (index_rank (index_value order e.2), key_rank e.1).

Lemma ord_cmp_pair `{RustOrd A, RustOrd B} (a a' : A) (b b' : B) :
  ord_cmp (a, b) (a', b') = then_with (ord_cmp a a') (ord_cmp b b').
Proof. cbn. unfold pair_cmp. cbn. by destruct (ord_cmp a a'). Qed.

Lemma value_cmp_rank a b : leaf_typed a -> leaf_typed b -> value_cmp a b = ord_cmp (leaf_rank a) (leaf_rank b).
Proof.
  destruct a as [a|a|a], b as [b|b|b]; intros Ha Hb; unfold leaf_rank; rewrite !ord_cmp_pair; try done.
  - cbn. unfold bool_cmp. by destruct a, b.
  - cbn [value_cmp]. rewrite total_cmp_value by done.
    change (ord_cmp (value a) (value b)) with (value a ?= value b). by destruct (value a ?= value b).
Qed.

Lemma cmp_with_rank v w : index_typed v -> index_typed w -> cmp_with v w = ord_cmp (index_rank v) (index_rank w).
Proof.
  intros Hv Hw. unfold cmp_with, index_rank.
  destruct (index_leaf v) as [a|] eqn:Ha, (index_leaf w) as [b|] eqn:Hb; rewrite ord_cmp_pair.
  - change (ord_cmp 1 1) with Eq. cbn [then_with]. apply value_cmp_rank; auto.
  - change (rank v ?= rank w) with (ord_cmp (rank v) (rank w)). destruct v, w; done.
  - change (rank v ?= rank w) with (ord_cmp (rank v) (rank w)). destruct v, w; done.
  - change (rank v ?= rank w) with (ord_cmp (rank v) (rank w)). destruct v, w; done.
Qed.

Lemma compare_children_rank q x y : typed x.2 -> typed y.2 ->
  compare_children q x.1 x.2 y.1 y.2 = ord_cmp (child_rank (order_by q) x) (child_rank (order_by q) y).
Proof.
  intros Hx Hy. unfold compare_children, child_rank. rewrite ord_cmp_pair, <- name_compare_rank.
  rewrite <- cmp_with_rank by by apply index_value_typed. by destruct (order_by q).
Qed.

Lemma child_rank_key order x y : text_ok x.1 -> text_ok y.1 -> child_rank order x = child_rank order y -> x.1 = y.1.
Proof. intros Hx Hy [= _ Hk]. by apply key_rank_inj. Qed.

(** ** Ranges

    A bound cuts the query order: the comparison of a child with it does not
    decrease along the order. *)

Definition bound_typed (b : Bound) : Prop := index_typed (of_bound (bound_value b)).

(** [Lt < Eq < Gt] *)
Definition side (c : comparison) : Z := match c with Lt => -1 | Eq => 0 | Gt => 1 end.

Lemma ord_cmp_side `{RustOrd A} (a b cut : A) : ord_le a b -> side (ord_cmp a cut) <= side (ord_cmp b cut).
Proof.
  intros Hab. destruct (ord_cmp a cut) eqn:Ha; cbn.
  - apply ord_cmp_eq in Ha as <-. unfold ord_le in Hab. rewrite (ord_cmp_opp a b).
    by destruct (ord_cmp a b).
  - by destruct (ord_cmp b cut).
  - apply ord_gt_lt in Ha. assert (Hb : ord_lt cut b).
    { apply ord_le_lt_eq in Hab as [Hab| ->]; [by apply (ord_lt_trans cut a b)|done]. }
    apply ord_gt_lt in Hb. by rewrite Hb.
Qed.

Lemma cut_mono `{RustOrd A} (a b cut : A) (c d : comparison) :
  ord_le a b -> (a = b -> side c <= side d) ->
  side (then_with (ord_cmp a cut) c) <= side (then_with (ord_cmp b cut) d).
Proof.
  intros Hab Hcd. apply ord_le_lt_eq in Hab as Hcase. destruct Hcase as [Hlt| ->].
  - pose proof (ord_cmp_side a b cut Hab) as Hs. destruct (ord_cmp a cut) eqn:Ha, (ord_cmp b cut) eqn:Hb; cbn in *; try lia.
    + apply ord_cmp_eq in Ha, Hb. subst. by apply ord_lt_irrefl in Hlt.
    + destruct c; cbn; lia.
    + destruct d; cbn; lia.
  - destruct (ord_cmp b cut); cbn; auto; lia.
Qed.

Lemma pair_le_inv `{RustOrd A, RustOrd B} (a a' : A) (b b' : B) :
  ord_le (a, b) (a', b') -> ord_le a a' /\ (a = a' -> ord_le b b').
Proof.
  unfold ord_le. rewrite ord_cmp_pair. intros Hle. split; [by destruct (ord_cmp a a')|].
  intros ->. by rewrite ord_cmp_refl in Hle.
Qed.

Definition rank_le (order : OrderBy) (x y : text * Node) : Prop := ord_le (child_rank order x) (child_rank order y).

Lemma compare_to_bound_mono q b x y :
  bound_typed b -> typed x.2 -> typed y.2 -> rank_le (order_by q) x y ->
  side (compare_to_bound q x.1 x.2 b) <= side (compare_to_bound q y.1 y.2 b).
Proof.
  intros Hb Hx Hy Hle. unfold rank_le, child_rank in Hle. apply pair_le_inv in Hle as [Hi Hk].
  assert (Hthird : index_rank (index_value (order_by q) x.2) = index_rank (index_value (order_by q) y.2) ->
    side (match bound_key b with Min => Gt | Max => Lt | Name name => name_compare x.1 name end) <=
    side (match bound_key b with Min => Gt | Max => Lt | Name name => name_compare y.1 name end)).
  { intros Heq. destruct (bound_key b); [done..|]. rewrite !name_compare_rank. by apply ord_cmp_side, Hk. }
  unfold compare_to_bound. cbv zeta. destruct (order_by q) eqn:Ho.
  2: destruct (bound_value b) eqn:Hv.
  all: try (rewrite !cmp_with_rank by (unfold bound_typed in Hb; rewrite ?Hv in Hb; (done || by apply index_value_typed));
            by apply cut_mono).
  rewrite !(name_compare_rank _ s). apply cut_mono; [by apply Hk|]. intros _. by apply Hthird.
Qed.

(** ** Sorting children *)

Definition rank_lt (order : OrderBy) (x y : text * Node) : Prop := ord_lt (child_rank order x) (child_rank order y).

#[global] Instance rank_le_dec order x y : Decision (rank_le order x y).
Proof. unfold rank_le. apply _. Defined.

#[global] Instance rank_le_trans order : Transitive (rank_le order).
Proof. intros x y z. unfold rank_le. apply ord_le_trans. Qed.

#[global] Instance rank_le_total order : Total (rank_le order).
Proof. intros x y. unfold rank_le. apply ord_le_total. Qed.

(** Entries of one typed map. *)
Definition entry_typed (e : text * Node) : Prop := text_ok e.1 /\ typed e.2.

Definition distinct (l : list (text * Node)) : Prop := Forall entry_typed l /\ NoDup l.*1.

Lemma sort_rank q l : Forall entry_typed l -> merge_sort (child_le q) l = merge_sort (rank_le (order_by q)) l.
Proof.
  intros Hl. apply (merge_sort_ext entry_typed); [|done]. intros x y [_ Hx] [_ Hy].
  unfold child_le, rank_le, ord_le. by rewrite compare_children_rank.
Qed.

Lemma distinct_perm l l' : l ≡ₚ l' -> distinct l -> distinct l'.
Proof. intros Hp [H1 H2]. split; [by rewrite <- Hp|by rewrite <- Hp]. Qed.

Lemma distinct_rank order l x y : distinct l -> x ∈ l -> y ∈ l -> rank_le order x y -> rank_le order y x -> x = y.
Proof.
  intros [Ht Hnd] Hx Hy Hxy Hyx. rewrite Forall_forall in Ht.
  assert (Hr : child_rank order x = child_rank order y) by by apply (anti_symm ord_le).
  apply child_rank_key in Hr; [|by apply Ht..]. destruct x as [k c], y as [k' c']. cbn in Hr. subst k'. f_equal.
  apply list_elem_of_lookup in Hx as [i Hi]. apply list_elem_of_lookup in Hy as [j Hj].
  assert (i = j) as ->; [|by simplify_eq]. eapply (NoDup_lookup l.*1); [done|by rewrite list_lookup_fmap, Hi|by rewrite list_lookup_fmap, Hj].
Qed.

Lemma sorted_rank q l : distinct l ->
  StronglySorted (rank_lt (order_by q)) (merge_sort (child_le q) l) /\ merge_sort (child_le q) l ≡ₚ l.
Proof.
  intros Hd. split; [|apply merge_sort_Permutation]. rewrite sort_rank by apply Hd.
  pose proof (StronglySorted_merge_sort (rank_le (order_by q)) l) as Hs.
  assert (Hd' : distinct (merge_sort (rank_le (order_by q)) l)).
  { eapply distinct_perm; [symmetry; apply merge_sort_Permutation|done]. }
  clear Hd. induction Hs as [|x l' Hs IH Hx]; [constructor|]. destruct Hd' as [Ht Hnd]. cbn in Hnd.
  apply Forall_cons in Ht as [Htx Ht]. apply NoDup_cons in Hnd as [Hxk Hnd]. constructor; [by apply IH|].
  rewrite Forall_forall in Hx |- *. intros y Hy. specialize (Hx y Hy). unfold rank_le in Hx.
  apply ord_le_lt_eq in Hx as [?|Heq]; [done|]. exfalso. apply Hxk.
  rewrite (child_rank_key (order_by q) x y); [by apply list_elem_of_fmap_2|apply Htx| |done].
  rewrite Forall_forall in Ht. by apply Ht.
Qed.

(** A list in query order is determined by its elements. *)
Lemma sorted_unique order l l' :
  StronglySorted (rank_lt order) l -> StronglySorted (rank_lt order) l' -> l ≡ₚ l' -> l = l'.
Proof.
  apply StronglySorted_unique_strong. intros x y _ _ Hxy Hyx. exfalso.
  unfold rank_lt in *. exact (ord_lt_irrefl _ (ord_lt_trans _ _ _ Hxy Hyx)).
Qed.

Lemma sorted_filter {A} (R : A -> A -> Prop) (P : A -> Prop) `{forall x, Decision (P x)} l :
  StronglySorted R l -> StronglySorted R (filter P l).
Proof.
  induction 1 as [|x l Hl IH Hx]; [constructor|]. rewrite filter_cons. case_decide; [|done].
  constructor; [done|]. rewrite Forall_forall in *. intros y [_ Hy]%list_elem_of_filter. auto.
Qed.

Lemma sorted_NoDup order l : StronglySorted (rank_lt order) l -> NoDup l.
Proof.
  induction 1 as [|x l _ IH Hx]; constructor; [|done]. rewrite Forall_forall in Hx. intros Hin.
  exact (ord_lt_irrefl _ (Hx x Hin)).
Qed.

Section one_location.
Context (m : gmap text Node) (prio : option Priority) (Hm : typed (MkNode (Children m) prio)).

Lemma entries_distinct : distinct (btree_map_iter m).
Proof.
  split; [|apply btree_entries]. apply Forall_forall. intros [k c] Hk%elem_of_btree_map_iter.
  by apply (typed_child (MkNode (Children m) prio)).
Qed.

(** All the children in query order. *)
Definition in_order (q : QueryParams) : list (text * Node) := merge_sort (child_le q) (btree_map_iter m).

Lemma in_order_spec q : StronglySorted (rank_lt (order_by q)) (in_order q) /\ distinct (in_order q) /\
  forall k c, (k, c) ∈ in_order q <-> m !! k = Some c.
Proof.
  destruct (sorted_rank q _ entries_distinct) as [Hs Hp]. split_and!; [done| |].
  - eapply distinct_perm; [symmetry; exact Hp|apply entries_distinct].
  - intros k c. unfold in_order. by rewrite Hp, elem_of_btree_map_iter.
Qed.

Lemma run_selected q :
  run q (Some (MkNode (Children m) prio)) = apply_limit (limit q) (filter (fun e => in_range q e.1 e.2) (in_order q)).
Proof.
  cbn [run fmap option_fmap option_map content]. f_equal. apply (sorted_unique (order_by q)).
  - apply sorted_rank. destruct entries_distinct as [H1 H2]. split.
    + rewrite Forall_forall in *. intros e [_ He]%list_elem_of_filter. auto.
    + clear H1. induction (btree_map_iter m) as [|e l IH]; [constructor|]. cbn in H2. apply NoDup_cons in H2 as [He H2].
      rewrite filter_cons. case_decide; [|by apply IH]. cbn. constructor; [|by apply IH].
      intros [e' [Heq Hin]]%list_elem_of_fmap. apply list_elem_of_filter in Hin as [_ Hin]. apply He.
      rewrite Heq. by apply list_elem_of_fmap_2.
  - apply sorted_filter, in_order_spec.
  - by rewrite merge_sort_Permutation, (proj2 (sorted_rank q _ entries_distinct)).
Qed.

(** The bounds of the query hold typed values. *)
Definition query_typed (q : QueryParams) : Prop :=
  (forall b, start q = Some b -> bound_typed b) /\ (forall b, end_ q = Some b -> bound_typed b).

Lemma in_range_convex q x y z : query_typed q -> typed x.2 -> typed y.2 -> typed z.2 ->
  rank_le (order_by q) x y -> rank_le (order_by q) y z ->
  in_range q x.1 x.2 -> in_range q z.1 z.2 -> in_range q y.1 y.2.
Proof.
  intros [Hs He] Hx Hy Hz Hxy Hyz. unfold in_range. cbv zeta. rewrite !andb_True. intros [Hsx _] [_ Hez]. split.
  - destruct (start q) as [b|]; [|done]. pose proof (compare_to_bound_mono q b x y (Hs b eq_refl) Hx Hy Hxy) as Hside.
    destruct (compare_to_bound q x.1 x.2 b), (compare_to_bound q y.1 y.2 b); cbn in *; (done || lia || by destruct Hsx).
  - destruct (end_ q) as [b|]; [|done]. pose proof (compare_to_bound_mono q b y z (He b eq_refl) Hy Hz Hyz) as Hside.
    destruct (compare_to_bound q y.1 y.2 b), (compare_to_bound q z.1 z.2 b); cbn in *; (done || lia || by destruct Hez).
Qed.

Lemma selected_segment q : query_typed q ->
  exists before after, in_order q = before ++ filter (fun e => in_range q e.1 e.2) (in_order q) ++ after.
Proof.
  intros Hq. destruct (in_order_spec q) as (Hs & [Ht _] & _). rewrite Forall_forall in Ht.
  apply (filter_interval (rank_lt (order_by q))); [done|]. intros x y z Hx Hy Hz Hxy Hyz.
  apply in_range_convex; [done|by apply Ht..| |]; unfold rank_le; apply ord_le_lt_eq; by left.
Qed.
End one_location.

Lemma in_order_compare m prio q : typed (MkNode (Children m) prio) ->
  StronglySorted (fun x y => compare_children q x.1 x.2 y.1 y.2 = Lt) (in_order m q).
Proof.
  intros Hm. destruct (in_order_spec m prio Hm q) as (Hs & [Ht _] & _).
  induction Hs as [|x l Hs IH Hx]; [constructor|]. apply Forall_cons in Ht as [Htx Ht]. constructor; [by apply IH|].
  rewrite Forall_forall in Hx, Ht |- *. intros y Hy. rewrite compare_children_rank by (apply Htx || by apply Ht).
  by apply Hx.
Qed.

(** C30. A query answers a segment of the children in query order: the comparison orders the
    children strictly, whatever they are ordered by; those in the range are
    next to each other in that order; and the result is all of them, the first [n] or
    the last [n], in order. *)
Theorem query_exact q m prio :
  typed (MkNode (Children m) prio) -> query_typed q ->
  exists before selected after,
    let all := before ++ selected ++ after in
    let result := run q (Some (MkNode (Children m) prio)) in
    StronglySorted (fun x y => compare_children q x.1 x.2 y.1 y.2 = Lt) all /\
    (forall k c, (k, c) ∈ all <-> m !! k = Some c) /\
    (forall e, e ∈ selected <-> e ∈ all /\ in_range q e.1 e.2) /\
    match limit q with
    | None => result = selected
    | Some (First n) => exists rest, selected = result ++ rest /\ length result = Nat.min (Z.to_nat n) (length selected)
    | Some (Last n) => exists rest, selected = rest ++ result /\ length result = Nat.min (Z.to_nat n) (length selected)
    end.
Proof.
  intros Hm Hq. destruct (selected_segment m prio Hm q Hq) as (before & after & Hall).
  exists before, (filter (fun e => in_range q e.1 e.2) (in_order m q)), after. cbv zeta. rewrite <- Hall.
  rewrite (run_selected m prio Hm). split_and!.
  - by eapply in_order_compare.
  - apply (in_order_spec m prio Hm q).
  - intros e. rewrite list_elem_of_filter. tauto.
  - generalize (filter (fun e => in_range q e.1 e.2) (in_order m q)). intros l. destruct (limit q) as [[n|n]|]; cbn [apply_limit]; [..|done].
    + exists (drop (Z.to_nat n) l). by rewrite take_drop, length_take.
    + exists (take (length l - Z.to_nat n) l). rewrite take_drop, length_drop. split; [done|lia].
Qed.

(** ** Pages *)

(** The bound a client continues from after [e]; a child ordered by its children has none. *)
Definition cursor (order : OrderBy) (e : text * Node) : option (Json * option text) :=
  match order with
  | OrderKey => Some (JString e.1, None)
  | _ => match index_value order e.2 with
         | Absent => Some (JNull, Some e.1)
         | LeafValue l | LeafRef l => Some (leaf_to_json l, Some e.1)
         | ChildrenValue => None
         end
  end.

Definition without_limit (q : QueryParams) : QueryParams :=
  {| order_by := order_by q; start := start q; end_ := end_ q; limit := None |}.

Lemma of_bound_leaf l : of_bound (leaf_to_json l) = LeafValue l.
Proof. by destruct l. Qed.

(** A child is past a cursor just when it comes after the child the cursor is of. *)
Lemma compare_cursor q e last v key : entry_typed e -> entry_typed last -> cursor (order_by q) last = Some (v, key) ->
  compare_to_bound q e.1 e.2 {| bound_value := v; bound_key := key_or Max key; inclusive := false |} = Gt <->
  rank_lt (order_by q) last e.
Proof.
  intros [Hek Hec] [Hlk Hlc] Hcur. unfold rank_lt. rewrite <- ord_gt_lt.
  assert (Hcmp : forall w : IndexValue, index_rank w = index_rank (index_value (order_by q) last.2) -> index_typed w ->
    then_with (cmp_with (index_value (order_by q) e.2) w) (name_compare e.1 last.1) =
    ord_cmp (child_rank (order_by q) e) (child_rank (order_by q) last)).
  { intros w Hw Htw. unfold child_rank. rewrite ord_cmp_pair, <- name_compare_rank, <- Hw, <- cmp_with_rank; [done| |done].
    by apply index_value_typed. }
  pose proof (index_value_typed (order_by q) last.2 Hlc) as Hti.
  unfold compare_to_bound, cursor in *. cbv zeta. cbn [bound_value bound_key]. destruct (order_by q) eqn:Ho.
  2: { injection Hcur as <- <-. cbn [key_or]. rewrite <- (Hcmp Absent); [|done|done].
       cbn [index_value cmp_with index_leaf rank Z.compare then_with]. by destruct (name_compare e.1 last.1). }
  all: destruct (index_value _ last.2) eqn:Hi; try discriminate Hcur; injection Hcur as <- <-; cbn [key_or];
    rewrite ?of_bound_leaf;
    match goal with |- context [cmp_with _ ?w] => rewrite <- (Hcmp w) by done end; done.
Qed.

Lemma after_start_mono q x y : query_typed q -> typed x.2 -> typed y.2 -> rank_le (order_by q) x y ->
  in_range q x.1 x.2 -> in_range q y.1 y.2 = in_range {| order_by := order_by q; start := None; end_ := end_ q; limit := None |} y.1 y.2.
Proof.
  intros [Hs _] Hx Hy Hxy. unfold in_range. cbv zeta. cbn [start end_]. rewrite andb_True. intros [Hsx _].
  destruct (start q) as [b|]; [|done]. pose proof (compare_to_bound_mono q b x y (Hs b eq_refl) Hx Hy Hxy) as Hside.
  destruct (compare_to_bound q x.1 x.2 b), (compare_to_bound q y.1 y.2 b); cbn in *; try done; try lia.
  by destruct (inclusive b).
Qed.

(** Pages cover the results: the first [n] children of a range followed by the children
    after the last of them (asked for with [startAfter] its value and key) are the
    whole range, nothing missing and nothing twice. *)
Theorem pages_cover q m prio n page last v key :
  typed (MkNode (Children m) prio) -> query_typed q ->
  run (limit_to_first n (without_limit q)) (Some (MkNode (Children m) prio)) = page ++ [last] ->
  cursor (order_by q) last = Some (v, key) ->
  run (without_limit q) (Some (MkNode (Children m) prio)) =
    (page ++ [last]) ++ run (start_after v key (without_limit q)) (Some (MkNode (Children m) prio)).
Proof.
  intros Hm Hq Hpage Hcur. rewrite (run_selected m prio Hm) in Hpage. rewrite !(run_selected m prio Hm).
  cbn [apply_limit limit limit_to_first start_after set_limit set_start without_limit] in *.
  change (in_order m (start_after v key (without_limit q))) with (in_order m q).
  change (in_order m (limit_to_first n (without_limit q))) with (in_order m q) in Hpage.
  change (in_order m (without_limit q)) with (in_order m q).
  change (in_range (limit_to_first n (without_limit q))) with (in_range q) in Hpage.
  change (in_range (without_limit q)) with (in_range q).
  destruct (in_order_spec m prio Hm q) as (Hs & [Ht _] & _). rewrite Forall_forall in Ht.
  set (selected := filter (fun e => in_range q e.1 e.2) (in_order m q)) in *.
  rewrite <- (take_drop (Z.to_nat n) selected) at 1. rewrite Hpage. f_equal.
  set (rest := drop (Z.to_nat n) selected) in *.
  assert (Hsel : selected = page ++ last :: rest).
  { unfold rest. rewrite <- (take_drop (Z.to_nat n) selected) at 1. by rewrite Hpage, <- (assoc_L (++)). }
  assert (Hlast : last ∈ selected) by (rewrite Hsel; apply elem_of_app; right; by left).
  apply list_elem_of_filter in Hlast as [Hlr Hlin].
  assert (Hnext : forall e, e ∈ in_order m q ->
    in_range (start_after v key (without_limit q)) e.1 e.2 <-> rank_lt (order_by q) last e /\ in_range q e.1 e.2).
  { intros e He. rewrite <- (compare_cursor q e last v key) by auto.
    assert (Heq : in_range (start_after v key (without_limit q)) e.1 e.2 <->
      compare_to_bound q e.1 e.2 {| bound_value := v; bound_key := key_or Max key; inclusive := false |} = Gt /\
      in_range {| order_by := order_by q; start := None; end_ := end_ q; limit := None |} e.1 e.2).
    { unfold in_range. cbv zeta. cbn [start end_ start_after set_start without_limit]. rewrite !andb_True.
      change (compare_to_bound (start_after v key (without_limit q))) with (compare_to_bound q).
      change (compare_to_bound {| order_by := order_by q; start := None; end_ := end_ q; limit := None |}) with (compare_to_bound q).
      cbn [inclusive]. destruct (compare_to_bound q e.1 e.2 {| bound_value := v; bound_key := key_or Max key; inclusive := false |});
        cbn; naive_solver. }
    rewrite Heq. split; intros [Hgt Hr]; (split; [done|]).
    - apply (compare_cursor q e last v key) in Hgt; [|by auto..].
      rewrite (after_start_mono q last e Hq); [done|by apply Ht|by apply Ht| |done].
      unfold rank_le. apply ord_le_lt_eq. by left.
    - apply (compare_cursor q e last v key) in Hgt; [|by auto..].
      rewrite <- (after_start_mono q last e Hq); [done|by apply Ht|by apply Ht| |done].
      unfold rank_le. apply ord_le_lt_eq. by left. }
  assert (Hss : StronglySorted (rank_lt (order_by q)) (page ++ last :: rest)).
  { rewrite <- Hsel. by apply sorted_filter. }
  apply (sorted_unique (order_by q)); [|by apply sorted_filter|].
  { apply StronglySorted_app in Hss as (_ & _ & Hss). by apply StronglySorted_cons in Hss as [_ Hss]. }
  apply NoDup_Permutation.
  - apply (sorted_NoDup (order_by q)) in Hss. by apply NoDup_app in Hss as (_ & _ & [_ Hss]%NoDup_cons).
  - apply NoDup_filter, (sorted_NoDup (order_by q)), Hs.
  - intros e. rewrite list_elem_of_filter. split.
    + intros He. assert (Hin : e ∈ selected) by (rewrite Hsel; apply elem_of_app; right; by right).
      apply list_elem_of_filter in Hin as [Hr Hin]. split; [|done]. apply Hnext; [done|]. split; [|done].
      apply StronglySorted_app in Hss as (_ & _ & Hss). apply StronglySorted_cons in Hss as [Hss _].
      rewrite Forall_forall in Hss. by apply Hss.
    + intros [Hr Hin]. apply Hnext in Hr as [Hlt Hr]; [|done].
      assert (Hin' : e ∈ selected) by by apply list_elem_of_filter.
      rewrite Hsel in Hin'. apply elem_of_app in Hin' as [Hp|[->|Hp]%elem_of_cons]; [| |done]; exfalso.
      * apply StronglySorted_app in Hss as (Hss & _ & _). specialize (Hss e last Hp ltac:(by left)).
        unfold rank_lt in *. exact (ord_lt_irrefl _ (ord_lt_trans _ _ _ Hlt Hss)).
      * unfold rank_lt in Hlt. exact (ord_lt_irrefl _ Hlt).
Qed.

(** ** Bounds *)

(** A child's place against a value: by key when ordering by key. *)
Definition place (order : OrderBy) (v : Json) (k : text) (c : Node) : comparison :=
  match order, v with
  | OrderKey, JString name => name_compare k name
  | _, _ => cmp_with (index_value order c) (of_bound v)
  end.

Lemma compare_bound_place q order v k c b :
  order_by q = order -> bound_value b = v ->
  compare_to_bound q k c b =
    then_with (place order v k c) (match bound_key b with Min => Gt | Max => Lt | Name name => name_compare k name end).
Proof. intros <- <-. unfold compare_to_bound, place. by destruct (order_by q), (bound_value b). Qed.

(** What each bound means: [startAt] and [endAt] a value keep the children at the value,
    all of them when no key is given and those from (or up to) the key otherwise;
    [startAfter] and [endBefore] drop them in the same way; [equalTo] keeps the
    children at the value, and of the key if one is given. *)
Theorem bounds_exact order v k c key :
  let p := place order v k c in
  let tie := then_with p (name_compare k key) in
  let within (build : QueryParams -> QueryParams) := in_range (build (ordered_by order)) k c = true in
  (within (start_at v None) <-> p <> Lt) /\ (within (start_at v (Some key)) <-> tie <> Lt) /\
  (within (start_after v None) <-> p = Gt) /\ (within (start_after v (Some key)) <-> tie = Gt) /\
  (within (end_at v None) <-> p <> Gt) /\ (within (end_at v (Some key)) <-> tie <> Gt) /\
  (within (end_before v None) <-> p = Lt) /\ (within (end_before v (Some key)) <-> tie = Lt) /\
  (within (equal_to v None) <-> p = Eq) /\
  (within (equal_to v (Some key)) <-> p = Eq /\ name_compare k key = Eq).
Proof.
  cbv zeta. unfold in_range. cbv zeta.
  unfold equal_to, start_at, start_after, end_at, end_before, set_start, set_end.
  cbn [start end_ order_by limit ordered_by].
  rewrite !(compare_bound_place _ order v) by done. cbn [bound_key key_or inclusive].
  destruct (place order v k c), (name_compare k key); cbn; split_and!; split; (done || by intros []).
Qed.

(** Validation admits just the queries whose bounds compare with what they order by:
    bounds are scalars; by key they are texts that name no key besides; by priority they
    are never booleans; every other query is refused as invalid. *)
Theorem validate_exact q :
  let admitted b :=
    match order_by q with
    | OrderKey => (exists s, bound_value b = JString s) /\ (forall s, bound_key b <> Name s)
    | order => of_bound (bound_value b) <> Absent /\ (order = OrderPriority -> forall x, bound_value b <> JBool x)
               \/ bound_value b = JNull
    end in
  (validate q = Ok tt <-> forall b, start q = Some b \/ end_ q = Some b -> admitted b) /\
  (validate q <> Ok tt -> validate q = db_err InvalidQuery).
Proof.
  cbv zeta. unfold validate. split; [|by destruct (forallb _ _)].
  assert (Hfit : forall b, bound_fits (order_by q) b = true <->
    match order_by q with
    | OrderKey => (exists s, bound_value b = JString s) /\ (forall s, bound_key b <> Name s)
    | order => of_bound (bound_value b) <> Absent /\ (order = OrderPriority -> forall x, bound_value b <> JBool x)
               \/ bound_value b = JNull
    end).
  { intros [v key incl]. unfold bound_fits. cbn [bound_value bound_key].
    destruct (order_by q), v, key; cbn; naive_solver. }
  transitivity (forall b, b ∈ option_list (start q) ++ option_list (end_ q) -> bound_fits (order_by q) b = true).
  - generalize (option_list (start q) ++ option_list (end_ q)). intros l.
    assert (Hl : forallb (bound_fits (order_by q)) l = true <-> forall b, b ∈ l -> bound_fits (order_by q) b = true).
    { rewrite forallb_forall. by setoid_rewrite list_elem_of_In. }
    rewrite <- Hl. by destruct (forallb _ _).
  - split; intros H b Hb.
    + apply Hfit, H. apply elem_of_app. destruct Hb as [-> | ->]; [left|right]; by left.
    + apply Hfit, H. apply elem_of_app in Hb. destruct (start q), (end_ q); set_solver.
Qed.

(** ** A concrete location *)

Definition score_children : gmap text Node :=
  {[chars "a" := leaf_node (NumberLeaf (Int 3)); chars "b" := leaf_node (NumberLeaf (Int 1));
    chars "10" := leaf_node (NumberLeaf (Int 3))]}.

Definition score_query : QueryParams := start_at (JNumber (Int 1)) None (ordered_by OrderValue).

Lemma score_typed : typed (MkNode (Children score_children) None).
Proof.
  constructor; [done| | |done]; intros m k n [= <-]; unfold score_children;
    rewrite !lookup_insert_Some, lookup_singleton_Some; intros [[<- <-]|[_ [[<- <-]|[_ [<- <-]]]]].
  all: try (constructor; [intros l [= <-]; cbn; unfold fits; vm_compute; split; discriminate|done|done|done]).
  all: unfold text_ok; cbn; repeat first [apply Forall_nil_2 | apply Forall_cons_2; [unfold is_scalar, ch; cbn; lia|]].
Qed.

Lemma score_query_typed : query_typed score_query.
Proof. split; intros b [= <-]; intros l [= <-]. cbn. unfold fits. vm_compute. split; discriminate. Qed.

Lemma query_exact_witness :
  exists before selected after,
    let all := before ++ selected ++ after in
    let result := run score_query (Some (MkNode (Children score_children) None)) in
    StronglySorted (fun x y => compare_children score_query x.1 x.2 y.1 y.2 = Lt) all /\
    (forall k c, (k, c) ∈ all <-> score_children !! k = Some c) /\
    (forall e, e ∈ selected <-> e ∈ all /\ in_range score_query e.1 e.2) /\
    result = selected.
Proof. exact (query_exact score_query score_children None score_typed score_query_typed). Defined.

Lemma pages_cover_witness :
  run score_query (Some (MkNode (Children score_children) None)) =
    ([(chars "b", leaf_node (NumberLeaf (Int 1)))] ++ [(chars "10", leaf_node (NumberLeaf (Int 3)))]) ++
    run (start_after (JNumber (Int 3)) (Some (chars "10")) score_query) (Some (MkNode (Children score_children) None)).
Proof.
  apply (pages_cover score_query score_children None 2 [(chars "b", leaf_node (NumberLeaf (Int 1)))]
    (chars "10", leaf_node (NumberLeaf (Int 3))) (JNumber (Int 3)) (Some (chars "10")) score_typed score_query_typed);
    vm_compute; reflexivity.
Defined.
