(* ===== verification/Lex.v ===== *)
(** * Lexicographic keys

    The comparisons of the Firestore core are lexicographic at every level: by kind, then by
    content; elements, then lengths; keys, then values.  [Lex] is the free structure of such
    orders, a total one.  A component maps its data to [Lex] and proves that its comparison is
    that of the keys; the laws of an order follow for all of it. *)
From S2P Require Import Prelude.
#[local] Set Warnings "-register-all".

Section lists.
Context {A B : Type} (f : A -> B -> comparison).

(** Elements in turn, then lengths: [Iterator::cmp]. *)
Fixpoint cmp_lists (l : list A) (m : list B) : comparison :=
  match l, m with
  | [], [] => Eq
  | [], _ :: _ => Lt
  | _ :: _, [] => Gt
  | x :: l, y :: m => then_with (f x y) (cmp_lists l m)
  end.
End lists.

Inductive Lex := Atom (l : list Z) | Branch (ks : list Lex).

Fixpoint lex_cmp (x y : Lex) {struct x} : comparison :=
  match x, y with
  | Atom l, Atom m => list_cmp l m
  | Atom _, Branch _ => Lt
  | Branch _, Atom _ => Gt
  | Branch l, Branch m => cmp_lists lex_cmp l m
  end.

Fixpoint lex_depth (x : Lex) : nat :=
  match x with Atom _ => 0 | Branch l => S (foldr (fun y d => Nat.max (lex_depth y) d) 0%nat l) end.

Lemma lex_induction (P : Lex -> Prop) : (forall l, P (Atom l)) -> (forall l, Forall P l -> P (Branch l)) -> forall x, P x.
Proof.
  intros Ha Hb x. induction x as [x IH] using (induction_ltof1 _ lex_depth). unfold ltof in IH. destruct x as [l|l]; [apply Ha|].
  apply Hb, Forall_forall. intros y Hy. apply IH. cbn [lex_depth]. pose proof (foldr_max_ge lex_depth l y Hy). lia.
Qed.

Lemma then_with_Eq c d : then_with c d = Eq <-> c = Eq /\ d = Eq.
Proof. destruct c; cbn; intuition congruence. Qed.

Lemma then_with_opp c d : CompOpp (then_with c d) = then_with (CompOpp c) (CompOpp d).
Proof. by destruct c. Qed.

(** The laws of lists from those of their elements. *)
Section laws.
Context {A : Type} (f : A -> A -> comparison).

Lemma cmp_lists_eq l : Forall (fun x => forall y, f x y = Eq <-> x = y) l -> forall m, cmp_lists f l m = Eq <-> l = m.
Proof.
  induction 1 as [|x l Hx Hl IH]; intros [|y m]; cbn [cmp_lists]; [done..|]. rewrite then_with_Eq, Hx, IH. naive_solver.
Qed.

Lemma cmp_lists_opp l : Forall (fun x => forall y, f y x = CompOpp (f x y)) l -> forall m, cmp_lists f m l = CompOpp (cmp_lists f l m).
Proof.
  induction 1 as [|x l Hx Hl IH]; intros [|y m]; cbn [cmp_lists]; [done..|]. by rewrite then_with_opp, Hx, IH.
Qed.

Lemma cmp_lists_trans l : Forall (fun x => (forall y, f x y = Eq <-> x = y) /\ (forall y z, f x y = Lt -> f y z = Lt -> f x z = Lt)) l ->
  (forall y z, f y z = Eq -> y = z) -> forall m n, cmp_lists f l m = Lt -> cmp_lists f m n = Lt -> cmp_lists f l n = Lt.
Proof.
  intros Hl Hf. induction Hl as [|x l [Hx Ht] Hl IH]; intros [|y m] [|z n]; cbn [cmp_lists]; try done.
  destruct (f x y) eqn:Hxy, (f y z) eqn:Hyz; try done; cbn; intros Hlm Hmn.
  - apply Hx in Hxy as ->. rewrite Hyz. cbn. by eapply IH.
  - apply Hx in Hxy as ->. by rewrite Hyz.
  - apply Hf in Hyz as ->. by rewrite Hxy.
  - by rewrite (Ht y z).
Qed.
End laws.

Lemma lex_eq x : forall y, lex_cmp x y = Eq <-> x = y.
Proof.
  induction x as [l|l IH] using lex_induction; intros [m|m]; cbn [lex_cmp]; try done.
  - change (list_cmp l m) with (ord_cmp l m). rewrite ord_cmp_eq. naive_solver.
  - rewrite (cmp_lists_eq lex_cmp l IH). naive_solver.
Qed.

#[global, refine] Instance Lex_RustOrd : RustOrd Lex := {| ord_cmp := lex_cmp |}.
Proof.
  - intros x y. apply lex_eq.
  - induction x as [l|l IH] using lex_induction; intros [m|m]; cbn [lex_cmp]; try done.
    + change (list_cmp m l = CompOpp (list_cmp l m)). exact (ord_cmp_opp (A := list Z) l m).
    + by apply cmp_lists_opp.
  - induction x as [l|l IH] using lex_induction; intros [m|m] [n|n]; cbn [lex_cmp]; try done.
    + exact (ord_cmp_trans (A := list Z) l m n).
    + apply cmp_lists_trans; [|by intros y z ?%lex_eq]. eapply Forall_impl; [exact IH|]. intros x Hx. split; [intros y; apply lex_eq|exact Hx].
Defined.

Lemma lex_opp x y : lex_cmp y x = CompOpp (lex_cmp x y).
Proof. exact (ord_cmp_opp (A := Lex) x y). Qed.

Lemma lex_trans x y z : lex_cmp x y = Lt -> lex_cmp y z = Lt -> lex_cmp x z = Lt.
Proof. exact (ord_cmp_trans (A := Lex) x y z). Qed.

(** A comparison of elements that their keys describe, on lists. *)
Lemma cmp_lists_key {A B} (f : A -> B -> comparison) (key : A -> Lex) (key' : B -> Lex) l m :
  (forall x y, x ∈ l -> y ∈ m -> f x y = lex_cmp (key x) (key' y)) -> cmp_lists f l m = lex_cmp (Branch (map key l)) (Branch (map key' m)).
Proof.
  cbn [lex_cmp]. revert m. induction l as [|x l IH]; intros [|y m] Hf; [done..|]. cbn [cmp_lists map].
  rewrite Hf by (by left). f_equal. apply IH. intros; apply Hf; by right.
Qed.

Lemma cmp_lists_map {A A' B B'} (f : A' -> B' -> comparison) (g : A -> A') (h : B -> B') l : forall m,
  cmp_lists f (map g l) (map h m) = cmp_lists (fun x y => f (g x) (h y)) l m.
Proof. induction l as [|x l IH]; intros [|y m]; [done..|]. cbn. by rewrite IH. Qed.

(** The first component of a pair decides. *)
Lemma lex_pair x y l m : lex_cmp (Branch (x :: l)) (Branch (y :: m)) = then_with (lex_cmp x y) (lex_cmp (Branch l) (Branch m)).
Proof. done. Qed.
