(* ===== verification/FsValue.v ===== *)
(** * Firestore values

    Models [crates/fireemu-core-firestore/src/value.rs]: field values, their canonical order,
    stored identity, normalization and nesting depth.  A text is the list of its UTF-8 bytes,
    so that byte order is list order; an [f64] is its IEEE value as in [DbNumber], with one
    NaN, which the code does not tell from the others.  The iteration of a [BTreeMap] is
    [btree_map_iter]. *)
From Stdlib Require Import SpecFloat.
From S2P Require Import Prelude Text DbNumber Lex.
#[local] Set Warnings "-register-all".

Definition MAX_NESTING_DEPTH : Z := 20.

Record Timestamp := { seconds : Z; nanos : Z }.

#[global] Instance Timestamp_eq_dec : EqDecision Timestamp.
Proof. solve_decision. Defined.

Inductive TimestampError := NanosOutOfRange | SecondsOutOfRange.

Definition MIN_SECONDS : Z := -62135596800.
Definition MAX_SECONDS : Z := 253402300799.

Definition timestamp_new (seconds nanos : Z) : result Timestamp TimestampError :=
  if 1000000000 <=? nanos then Err NanosOutOfRange
  else if (seconds <? MIN_SECONDS) || (MAX_SECONDS <? seconds) then Err SecondsOutOfRange
  else Ok {| seconds := seconds; nanos := nanos |}.

Definition truncated_to_micros (t : Timestamp) : Timestamp :=
  {| seconds := seconds t; nanos := nanos t / 1000 * 1000 |}.

Definition timestamp_cmp (a b : Timestamp) : comparison := then_with (seconds a ?= seconds b) (nanos a ?= nanos b).

(** ** Doubles *)

Definition is_nan (d : spec_float) : bool := match d with S754_nan => true | _ => false end.
Definition is_infinite (d : spec_float) : bool := match d with S754_infinity _ => true | _ => false end.
Definition F64_ZERO : spec_float := S754_zero false.

(** [a == b] and [a <= b] *)
Definition f64_eq (a b : spec_float) : bool := match SFcompare a b with Some Eq => true | _ => false end.
Definition f64_le (a b : spec_float) : bool := match SFcompare a b with Some Lt | Some Eq => true | _ => false end.

(** Both NaN, or the same bits. *)
Definition double_bits_eq (a b : spec_float) : bool := (is_nan a && is_nan b) || bool_decide (a = b).

Definition cmp_doubles (a b : spec_float) : comparison :=
  match is_nan a, is_nan b with
  | true, true => Eq
  | true, false => Lt
  | false, true => Gt
  | false, false => default Eq (SFcompare a b)
  end.

Definition cmp_int_double (i : Z) (d : spec_float) : comparison :=
  if is_infinite d then (if f64_lt F64_ZERO d then Lt else Gt)
  else if f64_ge d TWO_POW_63 then Lt
  else if f64_lt d MINUS_TWO_POW_63 then Gt
  else
    match i ?= f64_as_i64 (f64_trunc d) with
    | Eq =>
        let frac := SFsub PREC EMAX d (f64_trunc d) in
        if f64_lt F64_ZERO frac then Lt else if f64_lt frac F64_ZERO then Gt else Eq
    | unequal => unequal
    end.

(** ** Values *)

Record GeoPoint := { latitude : spec_float; longitude : spec_float }.

(** [(-n..=n).contains(&d)] *)
Definition within (n : Z) (d : spec_float) : bool := f64_le (f64_of_i64 (- n)) d && f64_le d (f64_of_i64 n).

Definition geopoint_new (latitude longitude : spec_float) : result GeoPoint unit :=
  if negb (within 90 latitude) || negb (within 180 longitude) then Err tt
  else Ok {| latitude := latitude; longitude := longitude |}.

Definition geopoint_cmp (a b : GeoPoint) : comparison :=
  then_with (cmp_doubles (latitude a) (latitude b)) (cmp_doubles (longitude a) (longitude b)).

Inductive Value :=
| VNull
| VBoolean (b : bool)
| VInteger (i : Z)
| VDouble (d : spec_float)
| VTimestamp (t : Timestamp)
| VString (s : text)
| VBytes (bytes : list Z)
| VReference (name : text)
| VGeoPoint (p : GeoPoint)
| VArray (items : list Value)
| VVector (components : list spec_float)
| VMap (entries : gmap text Value).

Inductive ValueKind :=
| KNull | KBoolean | KNan | KNumber | KTimestamp | KString | KBytes | KReference | KGeoPoint | KArray | KVector | KMap.

#[global] Instance ValueKind_eq_dec : EqDecision ValueKind.
Proof. solve_decision. Defined.

(** The derived order of the kinds. *)
Definition kind_index (k : ValueKind) : Z :=
  match k with
  | KNull => 0 | KBoolean => 1 | KNan => 2 | KNumber => 3 | KTimestamp => 4 | KString => 5 | KBytes => 6 | KReference => 7
  | KGeoPoint => 8 | KArray => 9 | KVector => 10 | KMap => 11
  end.

Definition kind_cmp (a b : ValueKind) : comparison := kind_index a ?= kind_index b.

Definition kind (v : Value) : ValueKind :=
  match v with
  | VNull => KNull
  | VBoolean _ => KBoolean
  | VDouble d => if is_nan d then KNan else KNumber
  | VInteger _ => KNumber
  | VTimestamp _ => KTimestamp
  | VString _ => KString
  | VBytes _ => KBytes
  | VReference _ => KReference
  | VGeoPoint _ => KGeoPoint
  | VArray _ => KArray
  | VVector _ => KVector
  | VMap _ => KMap
  end.

(** [a.iter().zip(b).map(f).find(|o| *o != Equal).unwrap_or(Equal)] *)
Fixpoint zip_cmp {A B} (f : A -> B -> comparison) (l : list A) (m : list B) : comparison :=
  match l, m with x :: l, y :: m => then_with (f x y) (zip_cmp f l m) | _, _ => Eq end.

Definition cmp_reference (a b : text) : comparison := cmp_lists list_cmp (split_on (ch "/") a) (split_on (ch "/") b).

(** The entries of two maps in turn; [f] compares with the value of an entry. *)
Definition cmp_entry (p : text * (Value -> comparison)) (q : text * Value) : comparison :=
  then_with (list_cmp p.1 q.1) (p.2 q.2).

Fixpoint canonical_cmp (a b : Value) {struct a} : comparison :=
  then_with (kind_cmp (kind a) (kind b))
    (match a, b with
     | VBoolean a, VBoolean b => Z.b2z a ?= Z.b2z b
     | VDouble a, VDouble b => if is_nan a && is_nan b then Eq else cmp_doubles a b
     | VInteger a, VInteger b => a ?= b
     | VInteger a, VDouble b => cmp_int_double a b
     | VDouble a, VInteger b => CompOpp (cmp_int_double b a)
     | VTimestamp a, VTimestamp b => timestamp_cmp a b
     | VString a, VString b => list_cmp a b
     | VBytes a, VBytes b => list_cmp a b
     | VReference a, VReference b => cmp_reference a b
     | VGeoPoint a, VGeoPoint b => geopoint_cmp a b
     | VArray a, VArray b => cmp_lists canonical_cmp a b
     | VVector a, VVector b => then_with (Z.of_nat (length a) ?= Z.of_nat (length b)) (zip_cmp cmp_doubles a b)
     | VMap a, VMap b => cmp_lists cmp_entry (btree_map_iter ((fun v => canonical_cmp v) <$> a)) (btree_map_iter b)
     | _, _ => Eq
     end).

(** [a.len() == b.len() && a.iter().zip(b).all(f)] *)
Fixpoint all_equal {A B} (f : A -> B -> bool) (l : list A) (m : list B) : bool :=
  match l, m with
  | [], [] => true
  | x :: l, y :: m => f x y && all_equal f l m
  | _, _ => false
  end.

Definition same_entry (p : text * (Value -> bool)) (q : text * Value) : bool := bool_decide (p.1 = q.1) && p.2 q.2.

(** The derived [==] *)
Fixpoint value_eq (a b : Value) {struct a} : bool :=
  match a, b with
  | VNull, VNull => true
  | VBoolean a, VBoolean b => bool_decide (a = b)
  | VInteger a, VInteger b => a =? b
  | VDouble a, VDouble b => f64_eq a b
  | VTimestamp a, VTimestamp b => bool_decide (a = b)
  | VString a, VString b | VBytes a, VBytes b | VReference a, VReference b => bool_decide (a = b)
  | VGeoPoint a, VGeoPoint b => f64_eq (latitude a) (latitude b) && f64_eq (longitude a) (longitude b)
  | VArray a, VArray b => all_equal value_eq a b
  | VVector a, VVector b => all_equal f64_eq a b
  | VMap a, VMap b => all_equal same_entry (btree_map_iter ((fun v => value_eq v) <$> a)) (btree_map_iter b)
  | _, _ => false
  end.

Fixpoint stored_eq (a b : Value) {struct a} : bool :=
  match a, b with
  | VDouble a, VDouble b => double_bits_eq a b
  | VVector a, VVector b => all_equal double_bits_eq a b
  | VArray a, VArray b => all_equal stored_eq a b
  | VMap a, VMap b => all_equal same_entry (btree_map_iter ((fun v => stored_eq v) <$> a)) (btree_map_iter b)
  | _, _ => value_eq a b
  end.

Definition stored_fields_eq (a b : gmap text Value) : bool :=
  all_equal same_entry (btree_map_iter ((fun v => stored_eq v) <$> a)) (btree_map_iter b).

Fixpoint normalize_for_storage (v : Value) : Value :=
  match v with
  | VTimestamp t => VTimestamp (truncated_to_micros t)
  | VArray items => VArray (map normalize_for_storage items)
  | VMap entries => VMap ((fun v => normalize_for_storage v) <$> entries)
  | _ => v
  end.

Definition normalize_fields_for_storage (fields : gmap text Value) : gmap text Value := normalize_for_storage <$> fields.

Definition map_values {V} (m : gmap text V) : list V := map snd (btree_map_iter m).

(** The loop of [nesting_depth]: [pending] is the stack, its top first. *)
Fixpoint nesting_loop (fuel : nat) (pending : list (Value * Z)) (maximum : Z) : option Z :=
  match fuel with
  | O => None
  | S fuel =>
      match pending with
      | [] => Some maximum
      | (value, parent_depth) :: pending =>
          let depth := saturating u32 (parent_depth + 1) in
          match value with
          | VArray items => nesting_loop fuel (rev (map (fun item => (item, depth)) items) ++ pending) (Z.max maximum depth)
          | VMap entries => nesting_loop fuel (rev (map (fun item => (item, depth)) (map_values entries)) ++ pending) (Z.max maximum depth)
          | _ => nesting_loop fuel pending maximum
          end
      end
  end.

(** The values in a value, itself included. *)
Fixpoint value_nodes (v : Value) : nat :=
  match v with
  | VArray items => S (foldr (fun i n => value_nodes i + n) 0 items)%nat
  | VMap entries => S (foldr (fun i n => i + n) 0 (map_values ((fun v => value_nodes v) <$> entries)))%nat
  | _ => 1%nat
  end.

Definition nesting_depth (v : Value) : Z := default 0 (nesting_loop (S (value_nodes v)) [(v, 0)] 0).

Example order_ex :
  canonical_cmp (VInteger 1) (VDouble (f64_of_i64 1)) = Eq /\ canonical_cmp (VDouble S754_nan) (VInteger (- 2 ^ 63)) = Lt /\
  canonical_cmp (VDouble (S754_infinity true)) (VInteger (- 2 ^ 63)) = Lt /\ canonical_cmp (VReference (chars "a/b")) (VReference (chars "a!")) = Lt /\
  stored_eq (VInteger 1) (VDouble (f64_of_i64 1)) = false /\ nesting_depth (VArray [VMap {[chars "k" := VArray []]}; VNull]) = 3.
Proof. vm_compute. split_and!; reflexivity. Qed.

(** ** Induction on values *)

(** The levels of containers: what the nesting depth counts. *)
Fixpoint container_depth (v : Value) : nat :=
  match v with
  | VArray items => S (foldr (fun i d => Nat.max (container_depth i) d) 0%nat items)
  | VMap m => S (map_fold (fun _ c d => Nat.max (container_depth c) d) 0%nat m)
  | _ => 0
  end.

Definition is_container (v : Value) : bool := match v with VArray _ | VMap _ => true | _ => false end.

Lemma value_induction (P : Value -> Prop) :
  (forall v, is_container v = false -> P v) ->
  (forall items, (forall v, v ∈ items -> P v) -> P (VArray items)) ->
  (forall m, (forall k v, m !! k = Some v -> P v) -> P (VMap m)) ->
  forall v, P v.
Proof.
  intros Hl Ha Hm v. induction v as [v IH] using (induction_ltof1 _ container_depth). unfold ltof in IH. destruct v as [| | | | | | | | |items| |m]; try by apply Hl.
  - apply Ha. intros v Hv. apply IH. cbn [container_depth]. pose proof (foldr_max_ge container_depth items v Hv). lia.
  - apply Hm. intros k v Hv. apply IH. cbn [container_depth]. pose proof (map_fold_max_ge container_depth m k v Hv). lia.
Qed.

(** Values that the code can hold: 64-bit integers and doubles. *)
Definition double_ok (d : spec_float) : Prop := valid_binary PREC EMAX d = true.

Inductive value_ok : Value -> Prop :=
| ok_null : value_ok VNull
| ok_boolean b : value_ok (VBoolean b)
| ok_integer i : fits i64 i -> value_ok (VInteger i)
| ok_double d : double_ok d -> value_ok (VDouble d)
| ok_timestamp t : value_ok (VTimestamp t)
| ok_string s : value_ok (VString s)
| ok_bytes s : value_ok (VBytes s)
| ok_reference s : value_ok (VReference s)
| ok_geopoint p : double_ok (latitude p) -> double_ok (longitude p) -> is_nan (latitude p) = false -> is_nan (longitude p) = false -> value_ok (VGeoPoint p)
| ok_array items : (forall v, v ∈ items -> value_ok v) -> value_ok (VArray items)
| ok_vector ds : Forall double_ok ds -> value_ok (VVector ds)
| ok_map m : (forall k v, m !! k = Some v -> value_ok v) -> value_ok (VMap m).

(** ** The order as an order of keys *)

(** The place of a double: NaN, the infinities, and the numbers by value in units of the least positive double. *)
Definition double_key (d : spec_float) : Lex :=
  match d with
  | S754_nan => Atom [0; 0]
  | S754_infinity s => Atom [if s then 1 else 3; 0]
  | _ => Atom [2; fval d]
  end.

Definition map_key (keys : gmap text Lex) : Lex := Branch (map (fun p => Branch [Atom p.1; p.2]) (btree_map_iter keys)).

Fixpoint value_key (v : Value) : Lex :=
  Branch [Atom [kind_index (kind v)];
    match v with
    | VNull => Atom []
    | VBoolean b => Atom [Z.b2z b]
    | VInteger i => Atom [2; i * 2 ^ 1074]
    | VDouble d => double_key d
    | VTimestamp t => Atom [seconds t; nanos t]
    | VString s | VBytes s => Atom s
    | VReference s => Branch (map Atom (split_on (ch "/") s))
    | VGeoPoint p => Branch [double_key (latitude p); double_key (longitude p)]
    | VArray items => Branch (map value_key items)
    | VVector ds => Branch [Atom [Z.of_nat (length ds)]; Branch (map double_key ds)]
    | VMap m => map_key ((fun v => value_key v) <$> m)
    end].

Lemma double_split d : double_ok d -> is_nan d = true \/ (exists s, d = S754_infinity s) \/ valid d.
Proof. intros Hd. destruct d as [s|s| |s m e]; [right; right|right; left; by eexists|by left|right; right]; by split. Qed.

Lemma list_cmp_atom l m : list_cmp l m = lex_cmp (Atom l) (Atom m).
Proof. done. Qed.

Lemma z_pair_cmp (a b c d : Z) : list_cmp [a; b] [c; d] = then_with (a ?= c) (b ?= d).
Proof. cbn. destruct (a ?= c); [|done..]. by destruct (b ?= d). Qed.

Lemma double_key_finite d : valid d -> double_key d = Atom [2; fval d].
Proof. intros [Hf _]. by destruct d. Qed.

Lemma cmp_doubles_key a b : double_ok a -> double_ok b -> cmp_doubles a b = lex_cmp (double_key a) (double_key b).
Proof.
  intros Ha Hb. assert (Hfin : valid a -> valid b -> cmp_doubles a b = lex_cmp (double_key a) (double_key b)).
  { intros Hva Hvb. rewrite !double_key_finite by done. cbn [lex_cmp]. rewrite z_pair_cmp. cbn [Z.compare Pos.compare Pos.compare_cont then_with].
    unfold cmp_doubles. rewrite double_compare_exact by done. destruct Hva as [Hf _], Hvb as [Hf' _]. by destruct a, b. }
  destruct a as [s|s| |s m e], b as [s'|s'| |s' m' e']; try (by apply Hfin); try done; try (by destruct s); try (by destruct s'); by destruct s, s'.
Qed.

Lemma double_key_int i d : fits i64 i -> double_ok d -> is_nan d = false -> cmp_int_double i d = lex_cmp (Atom [2; i * 2 ^ 1074]) (double_key d).
Proof.
  intros Hi Hd Hn. destruct (double_split d Hd) as [|[[s ->]|Hv]]; [congruence|by destruct s|].
  rewrite double_key_finite by done. cbn [lex_cmp]. rewrite z_pair_cmp. cbn [Z.compare Pos.compare Pos.compare_cont then_with].
  rewrite <- cmp_int_double_exact by done. unfold cmp_int_double, DbNumber.cmp_int_double.
  destruct Hv as [Hf Hb]. destruct d as [s|s| |s m e]; try discriminate Hf.
  - cbn [is_infinite f64_trunc SFsub f64_as_i64]. destruct (f64_ge _ _); [done|]. destruct (f64_lt _ _); [done|]. destruct (i ?= 0); [by destruct s|done..].
  - cbn [is_infinite]. destruct (f64_ge _ _); [done|]. destruct (f64_lt _ _); [done|]. cbv zeta. destruct (i ?= _); [|done..].
    destruct (Z.leb_spec 0 e) as [He|He].
    + cbn [f64_trunc]. rewrite (proj2 (Z.leb_le 0 e)) by done. cbn [SFsub]. rewrite Z.sub_diag. done.
    + destruct (trunc_parts s m e (conj Hf Hb) He) as (_ & _ & [Hz|(m' & e' & Hz)]); rewrite Hz; [done|by destruct s].
Qed.

Lemma kind_pair ka a kb b : lex_cmp (Branch [Atom [kind_index ka]; a]) (Branch [Atom [kind_index kb]; b]) = then_with (kind_cmp ka kb) (lex_cmp a b).
Proof.
  cbn [lex_cmp cmp_lists]. unfold kind_cmp. cbn. destruct (kind_index ka ?= kind_index kb); [|done..]. cbn. by destruct (lex_cmp a b).
Qed.

Lemma same_kind a b : kind_cmp a b = Eq -> a = b.
Proof. unfold kind_cmp. rewrite Z.compare_eq_iff. by destruct a, b. Qed.

Lemma atoms_key l m : cmp_lists list_cmp l m = lex_cmp (Branch (map Atom l)) (Branch (map Atom m)).
Proof. by apply cmp_lists_key. Qed.

Lemma vector_key a b : Forall double_ok a -> Forall double_ok b ->
  then_with (Z.of_nat (length a) ?= Z.of_nat (length b)) (zip_cmp cmp_doubles a b) =
  lex_cmp (Branch [Atom [Z.of_nat (length a)]; Branch (map double_key a)]) (Branch [Atom [Z.of_nat (length b)]; Branch (map double_key b)]).
Proof.
  intros Ha Hb. assert (Hzip : length a = length b -> zip_cmp cmp_doubles a b = lex_cmp (Branch (map double_key a)) (Branch (map double_key b))).
  { revert b Hb. induction Ha as [|x a Hx Ha IH]; intros b Hb Hlen; destruct Hb as [|y b Hy Hb]; try done. cbn [zip_cmp map]. rewrite lex_pair.
    rewrite cmp_doubles_key, IH by (done || (cbn in Hlen; lia)). done. }
  change (lex_cmp (Branch [Atom [?x]; ?k]) (Branch [Atom [?y]; ?k'])) with (then_with (list_cmp [x] [y]) (then_with (lex_cmp k k') Eq)).
  destruct (Z.compare_spec (Z.of_nat (length a)) (Z.of_nat (length b))) as [He|He|He]; cbn [list_cmp then_with].
  - rewrite He, ord_cmp_refl. cbn [then_with]. rewrite Hzip by lia. by destruct (lex_cmp _ _).
  - change (ord_cmp ?x ?y) with (x ?= y). by rewrite (proj2 (Z.compare_lt_iff _ _) He).
  - change (ord_cmp ?x ?y) with (x ?= y). by rewrite (proj2 (Z.compare_gt_iff _ _) He).
Qed.

Lemma map_key_cmp (f : Value -> Value -> comparison) (key : Value -> Lex) (a b : gmap text Value) :
  (forall k v w, a !! k = Some v -> (exists k', b !! k' = Some w) -> f v w = lex_cmp (key v) (key w)) ->
  cmp_lists cmp_entry (btree_map_iter (f <$> a)) (btree_map_iter b) = lex_cmp (map_key (key <$> a)) (map_key (key <$> b)).
Proof.
  intros Hf. unfold map_key. rewrite !btree_map_iter_fmap, !map_map. rewrite <- (map_id (btree_map_iter b)) at 1. rewrite cmp_lists_map.
  apply cmp_lists_key. intros [k v] [k' w] Hv%elem_of_btree_map_iter Hw%elem_of_btree_map_iter. unfold cmp_entry. cbn [fst snd]. rewrite lex_pair.
  rewrite (Hf k v w Hv) by (by exists k'). cbn [lex_cmp cmp_lists]. by destruct (list_cmp k k'), (lex_cmp (key v) (key w)).
Qed.

(** The canonical order is that of the keys. *)
Lemma canonical_cmp_key a : forall b, value_ok a -> value_ok b -> canonical_cmp a b = lex_cmp (value_key a) (value_key b).
Proof.
  assert (Hgo : forall a b x y c, (kind_cmp (kind a) (kind b) = Eq -> c = lex_cmp x y) ->
    then_with (kind_cmp (kind a) (kind b)) c = lex_cmp (Branch [Atom [kind_index (kind a)]; x]) (Branch [Atom [kind_index (kind b)]; y])).
  { intros x y k k' c Hc. rewrite kind_pair. destruct (kind_cmp _ _); [by rewrite Hc|done..]. }
  induction a as [a Hleaf|items IH|m IH] using value_induction; intros b Ha Hb.
  - destruct a; try discriminate Hleaf; cbn [canonical_cmp value_key]; destruct b; cbn [value_key];
      apply Hgo; intros Hk%same_kind; cbn [kind] in Hk;
      try discriminate Hk; try (destruct (is_nan _); discriminate Hk); inversion Ha; inversion Hb; subst; try done.
    + by destruct b0, b.
    + cbn [lex_cmp]. rewrite z_pair_cmp. cbn [Z.compare Pos.compare Pos.compare_cont then_with]. apply Zmult_compare_compat_r, Z.lt_gt, Z.pow_pos_nonneg; lia.
    + destruct (is_nan d) eqn:Hn; [done|]. by apply double_key_int.
    + destruct (is_nan d) eqn:Hn; [done|]. rewrite double_key_int by done. symmetry. apply lex_opp.
    + rewrite <- cmp_doubles_key by done. unfold cmp_doubles. by destruct (is_nan d), (is_nan d0).
    + cbn [lex_cmp]. by rewrite z_pair_cmp.
    + apply atoms_key.
    + unfold geopoint_cmp. rewrite !cmp_doubles_key by done. cbn [lex_cmp cmp_lists].
      destruct (lex_cmp (double_key (latitude p)) _); [|done..]. cbn. by destruct (lex_cmp _ _).
    + by apply vector_key.
  - cbn [canonical_cmp value_key]. destruct b; cbn [value_key]; apply Hgo; intros Hk%same_kind; cbn [kind] in Hk;
      try discriminate Hk; try (destruct (is_nan _); discriminate Hk). inversion Ha as [| | | | | | | | |? Hi| |]; inversion Hb as [| | | | | | | | |? Hj| |]; subst.
    apply cmp_lists_key. intros v w Hv Hw. apply IH; auto.
  - cbn [canonical_cmp value_key]. destruct b; cbn [value_key]; apply Hgo; intros Hk%same_kind; cbn [kind] in Hk;
      try discriminate Hk; try (destruct (is_nan _); discriminate Hk). inversion Ha as [| | | | | | | | | | |? Hi]; inversion Hb as [| | | | | | | | | | |? Hj]; subst.
    apply map_key_cmp. intros k v w Hv [k' Hw]. apply (IH k); eauto.
Qed.

(** ** Stored identity *)

Lemma btree_map_iter_inj {V} (a b : gmap text V) : btree_map_iter a = btree_map_iter b -> a = b.
Proof.
  intros Hab. apply map_eq. intros k. apply option_eq. intros v. by rewrite <- !elem_of_btree_map_iter, Hab.
Qed.

Lemma all_equal_key {A B C} (f : A -> B -> bool) (g : A -> C) (h : B -> C) l : forall m,
  (forall x y, x ∈ l -> y ∈ m -> f x y = true <-> g x = h y) -> all_equal f l m = true <-> map g l = map h m.
Proof.
  induction l as [|x l IH]; intros [|y m] Hf; cbn [all_equal map]; [done..|].
  rewrite andb_true_iff, Hf, IH by (by left || (intros; apply Hf; by right)). split; [by intros [-> ->]|by intros [= ? ?]].
Qed.

Lemma all_equal_map {A A' B} (f : A' -> B -> bool) (g : A -> A') l : forall m, all_equal f (map g l) m = all_equal (fun x y => f (g x) y) l m.
Proof. induction l as [|x l IH]; intros [|y m]; [done..|]. cbn. by rewrite IH. Qed.

Lemma all_equal_entries (f : Value -> Value -> bool) (g : Value -> Value) (a b : gmap text Value) :
  (forall k v w, a !! k = Some v -> (exists k', b !! k' = Some w) -> f v w = true <-> g v = g w) ->
  all_equal same_entry (btree_map_iter (f <$> a)) (btree_map_iter b) = true <-> g <$> a = g <$> b.
Proof.
  intros Hf. rewrite btree_map_iter_fmap, all_equal_map.
  rewrite (all_equal_key _ (fun p => (p.1, g p.2)) (fun p => (p.1, g p.2))).
  - rewrite <- !btree_map_iter_fmap. split; [apply btree_map_iter_inj|by intros ->].
  - intros [k v] [k' w] Hv%elem_of_btree_map_iter Hw%elem_of_btree_map_iter. unfold same_entry. cbn [fst snd].
    rewrite andb_true_iff, bool_decide_eq_true, (Hf k v w Hv) by (by exists k'). split; [by intros [-> ->]|by intros [= ? ?]].
Qed.

Definition unsigned_zero (d : spec_float) : spec_float := match d with S754_zero _ => S754_zero false | _ => d end.

(** What stored identity compares: everything but the sign of a zero in a geo point. *)
Fixpoint stored_form (v : Value) : Value :=
  match v with
  | VGeoPoint p => VGeoPoint {| latitude := unsigned_zero (latitude p); longitude := unsigned_zero (longitude p) |}
  | VArray items => VArray (map stored_form items)
  | VMap m => VMap ((fun v => stored_form v) <$> m)
  | _ => v
  end.

Lemma f64_eq_form a b : is_nan a = false -> f64_eq a b = true <-> unsigned_zero a = unsigned_zero b.
Proof.
  unfold f64_eq. intros Hn. destruct a as [s|s| |s m e], b as [s'|s'| |s' m' e']; try discriminate Hn; cbn [SFcompare unsigned_zero];
    try (by destruct s); try (by destruct s'); try (by destruct s, s'); try done.
  destruct s, s'; try done; destruct (Z.compare_spec e e') as [->|He|He]; cbn;
    try (split; [done|intros [= -> ->]; lia]).
  all: change (Pos.compare_cont Eq m m') with (Pos.compare m m'); destruct (Pos.compare_spec m m') as [->|Hm|Hm]; cbn; try done; split; try done; intros [= ->]; lia.
Qed.

Lemma double_bits_eq_iff a b : double_bits_eq a b = true <-> a = b.
Proof.
  unfold double_bits_eq. rewrite orb_true_iff, andb_true_iff, bool_decide_eq_true. split; [|auto]. intros [[Ha Hb]|]; [by destruct a, b|done].
Qed.

Lemma stored_eq_form a : forall b, value_ok a -> value_ok b -> stored_eq a b = true <-> stored_form a = stored_form b.
Proof.
  induction a as [a Hleaf|items IH|m IH] using value_induction; intros b Ha Hb.
  - destruct a; try discriminate Hleaf; destruct b; cbn [stored_eq value_eq stored_form]; try done;
      try (rewrite bool_decide_eq_true; by split; [intros ->|intros [= ->]]).
    + rewrite Z.eqb_eq. by split; [intros ->|intros [= ->]].
    + rewrite double_bits_eq_iff. by split; [intros ->|intros [= ->]].
    + inversion Ha; subst. rewrite andb_true_iff, !f64_eq_form by done. split; [by intros [-> ->]|by intros [= -> ->]].
    + rewrite (all_equal_key _ id id), !map_id; [by split; [intros ->|intros [= ->]]|]. intros x y _ _. apply double_bits_eq_iff.
  - inversion Ha as [| | | | | | | | |? Hi| |]; subst. destruct b; cbn [stored_eq value_eq stored_form]; try done. inversion Hb as [| | | | | | | | |? Hj| |]; subst.
    rewrite (all_equal_key _ stored_form stored_form); [by split; [intros ->|intros [= ->]]|]. intros x y Hx Hy. apply IH; auto.
  - inversion Ha as [| | | | | | | | | | |? Hi]; subst. destruct b; cbn [stored_eq value_eq stored_form]; try done. inversion Hb as [| | | | | | | | | | |? Hj]; subst.
    rewrite (all_equal_entries stored_eq stored_form); [split; [intros Hm; f_equal; exact Hm|intros [= Hm]; exact Hm]|]. intros k v w Hv [k' Hw]. apply (IH k); eauto.
Qed.

(** A document rewritten with the other zero in a geo point counts as unchanged. *)
Lemma geopoint_zero_unchanged :
  let p s := VGeoPoint {| latitude := S754_zero s; longitude := F64_ZERO |} in stored_eq (p true) (p false) = true /\ p true <> p false.
Proof. split; [vm_compute; reflexivity|done]. Qed.

(** ** Normalization *)

Lemma truncated_again t : truncated_to_micros (truncated_to_micros t) = truncated_to_micros t.
Proof. unfold truncated_to_micros. cbn. f_equal. by rewrite Z.div_mul by lia. Qed.

Lemma normalize_again v : normalize_for_storage (normalize_for_storage v) = normalize_for_storage v.
Proof.
  induction v as [v Hleaf|items IH|m IH] using value_induction.
  - destruct v; try discriminate Hleaf; try done. cbn. by rewrite truncated_again.
  - cbn. f_equal. rewrite map_map. apply map_ext_in. intros v Hv. apply IH. by apply list_elem_of_In.
  - cbn. f_equal. rewrite <- map_fmap_compose. apply map_fmap_ext. intros k v Hv. by apply (IH k).
Qed.

(** ** Nesting depth *)

Definition children (v : Value) : list Value := match v with VArray items => items | VMap m => map_values m | _ => [] end.

Lemma elem_of_map_values {V} (m : gmap text V) v : v ∈ map_values m <-> exists k, m !! k = Some v.
Proof.
  unfold map_values. rewrite list_elem_of_fmap. split; [intros ([k w] & -> & Hk%elem_of_btree_map_iter); by exists k|].
  intros (k & Hk). exists (k, v). split; [done|]. by apply elem_of_btree_map_iter.
Qed.

Lemma foldr_max_reached {A} (f : A -> nat) l : foldr (fun i d => Nat.max (f i) d) 0%nat l = 0%nat \/ exists x, x ∈ l /\ foldr (fun i d => Nat.max (f i) d) 0%nat l = f x.
Proof.
  induction l as [|y l IH]; [by left|]. right. cbn. destruct IH as [->|(x & Hx & ->)]; [exists y; split; [by left|lia]|].
  destruct (Nat.le_ge_cases (f x) (f y)); [exists y; split; [by left|lia]|exists x; split; [by right|lia]].
Qed.

Lemma map_fold_max_reached `{Countable K} {A} (f : A -> nat) (m : gmap K A) :
  map_fold (fun _ c d => Nat.max (f c) d) 0%nat m = 0%nat \/ exists k x, m !! k = Some x /\ map_fold (fun _ c d => Nat.max (f c) d) 0%nat m = f x.
Proof.
  induction m as [|k x m Hk Hf IH] using map_first_key_ind; [by left; rewrite map_fold_empty|]. right. rewrite map_fold_insert_first_key by done.
  destruct IH as [->|(j & y & Hj & ->)]; [exists k, x; rewrite lookup_insert_eq; split; [done|lia]|].
  destruct (Nat.le_ge_cases (f y) (f x)); [exists k, x; rewrite lookup_insert_eq; split; [done|lia]|].
  exists j, y. rewrite lookup_insert_ne by congruence. split; [done|lia].
Qed.

Lemma child_depth v : is_container v = true ->
  (forall c, c ∈ children v -> S (container_depth c) <= container_depth v)%nat /\
  (container_depth v = 1 \/ exists c, c ∈ children v /\ container_depth v = S (container_depth c))%nat.
Proof.
  intros Hv. destruct v as [| | | | | | | | |items| |m]; try discriminate Hv; cbn [container_depth children]; split.
  - intros c Hc. pose proof (foldr_max_ge container_depth items c Hc). lia.
  - destruct (foldr_max_reached container_depth items) as [->|(x & Hx & ->)]; [by left|right; by exists x].
  - intros c (k & Hk)%elem_of_map_values. pose proof (map_fold_max_ge container_depth m k c Hk). lia.
  - destruct (map_fold_max_reached container_depth m) as [->|(k & x & Hx & ->)]; [by left|right; exists x; rewrite elem_of_map_values; eauto].
Qed.

Lemma leaf_depth v : is_container v = false -> container_depth v = 0%nat.
Proof. by destruct v. Qed.

Definition pending_nodes (pending : list (Value * Z)) : nat := foldr (fun p n => value_nodes p.1 + n)%nat 0%nat pending.

Lemma pending_app l m : pending_nodes (l ++ m) = (pending_nodes l + pending_nodes m)%nat.
Proof. unfold pending_nodes. induction l as [|p l IH]; [done|]. cbn in *. lia. Qed.

Lemma pending_rev l : pending_nodes (rev l) = pending_nodes l.
Proof. induction l as [|p l IH]; [done|]. cbn [rev]. rewrite pending_app, IH. unfold pending_nodes. cbn. lia. Qed.

Lemma pending_children d v : pending_nodes (map (fun c => (c, d)) (children v)) = (value_nodes v - 1)%nat.
Proof.
  assert (Hl : forall l, pending_nodes (map (fun c => (c, d)) l) = foldr (fun c n => value_nodes c + n)%nat 0%nat l) by (induction l as [|x l IH]; [done|cbn [foldr]; rewrite <- IH; done]).
  rewrite Hl. destruct v as [| | | | | | | | |items| |m]; cbn [children value_nodes]; try done; [lia|].
  unfold map_values. rewrite btree_map_iter_fmap, map_map. cbn. rewrite Nat.sub_0_r. induction (btree_map_iter m) as [|p l IH]; [done|]. cbn in *. by rewrite IH.
Qed.

Lemma nodes_pos v : (0 < value_nodes v)%nat.
Proof. destruct v; cbn; lia. Qed.

(** The deepest container of the stack. *)
Definition deepest (pending : list (Value * Z)) (maximum r : Z) : Prop :=
  maximum <= r /\ (forall v d, (v, d) ∈ pending -> is_container v = true -> d + Z.of_nat (container_depth v) <= r) /\
  (r = maximum \/ exists v d, (v, d) ∈ pending /\ is_container v = true /\ r = d + Z.of_nat (container_depth v)).

Definition depths_fit (pending : list (Value * Z)) : Prop :=
  forall v d, (v, d) ∈ pending -> 0 <= d /\ d + Z.of_nat (container_depth v) <= int_max u32.

Lemma container_step v d pending m r : is_container v = true ->
  deepest (rev (map (fun c => (c, d + 1)) (children v)) ++ pending) (Z.max m (d + 1)) r -> deepest ((v, d) :: pending) m r.
Proof.
  intros Hv (Hm & Hub & Hr). destruct (child_depth v Hv) as [Hle Hex].
  assert (Hin : forall c, c ∈ children v -> (c, d + 1) ∈ rev (map (fun c => (c, d + 1)) (children v)) ++ pending).
  { intros c Hc. rewrite elem_of_app. left. apply list_elem_of_In, in_rev. rewrite rev_involutive. apply in_map_iff. exists c. split; [done|]. by apply list_elem_of_In. }
  assert (Hd : d + Z.of_nat (container_depth v) <= r).
  { destruct Hex as [->|(c & Hc & Hcd)]; [lia|]. destruct (is_container c) eqn:Hcc; [specialize (Hub c (d + 1) (Hin c Hc) Hcc); lia|]. rewrite (leaf_depth c) in Hcd by done. lia. }
  split; [lia|]. split; [intros w e [[= -> ->]|Hw]%elem_of_cons He; [done|apply Hub; [rewrite elem_of_app; by right|done]]|].
  destruct Hr as [->|(w & e & Hw & He & ->)].
  - destruct (Z.max_spec m (d + 1)) as [[? Hmx]|[? Hmx]]; rewrite Hmx in *; [|by left]. right. exists v, d. split_and!; [by left|done|].
    destruct Hex as [->|(c & Hc & Hcd)]; [lia|]. lia.
  - right. apply elem_of_app in Hw as [Hw|Hw]; [|exists w, e; split_and!; [by right|done..]].
    apply list_elem_of_In, in_rev in Hw. apply in_map_iff in Hw as (c & [= -> <-] & Hc%list_elem_of_In).
    exists v, d. split_and!; [by left|done|]. specialize (Hle w Hc). lia.
Qed.

Lemma nesting_loop_spec fuel : forall pending m, (pending_nodes pending < fuel)%nat -> depths_fit pending ->
  exists r, nesting_loop fuel pending m = Some r /\ deepest pending m r.
Proof.
  induction fuel as [|fuel IH]; intros pending m Hfuel Hfit; [lia|]. destruct pending as [|[v d] pending].
  - exists m. split; [done|]. split; [lia|]. split; [by intros v d ?%not_elem_of_nil|by left].
  - destruct (Hfit v d ltac:(by left)) as [Hd Hv]. pose proof (nodes_pos v) as Hpos.
    change (pending_nodes ((v, d) :: pending)) with (value_nodes v + pending_nodes pending)%nat in Hfuel. destruct (is_container v) eqn:Hc.
    + destruct (child_depth v Hc) as [Hle Hex]. assert (Hsat : saturating u32 (d + 1) = d + 1) by (apply saturating_id; assert (1 <= container_depth v)%nat by (destruct Hex as [?|(? & ? & ?)]; lia); int_lia).
      destruct (IH (rev (map (fun c => (c, d + 1)) (children v)) ++ pending) (Z.max m (d + 1))) as (r & Hr & Hdeep).
      * rewrite pending_app, pending_rev, pending_children. lia.
      * intros w e [Hw|Hw]%elem_of_app; [|apply Hfit; by right]. apply list_elem_of_In, in_rev in Hw.
        apply in_map_iff in Hw as (c & [= -> <-] & Hin%list_elem_of_In). specialize (Hle w Hin). lia.
      * exists r. split; [|by apply container_step]. cbn [nesting_loop]. rewrite Hsat. destruct v; try discriminate Hc; exact Hr.
    + destruct (IH pending m) as (r & Hr & Hm & Hub & Hex); [lia|intros w e Hw; apply Hfit; by right|].
      exists r. split; [destruct v; try discriminate Hc; exact Hr|]. split; [done|]. split.
      * intros w e [[= -> ->]|Hw]%elem_of_cons He; [congruence|by apply Hub].
      * destruct Hex as [?|(w & e & ? & ? & ?)]; [by left|right; exists w, e; split_and!; [by right|done..]].
Qed.

Lemma nesting_depth_exact v : Z.of_nat (container_depth v) <= int_max u32 -> nesting_depth v = Z.of_nat (container_depth v).
Proof.
  intros Hv. unfold nesting_depth. destruct (nesting_loop_spec (S (value_nodes v)) [(v, 0)] 0) as (r & -> & Hm & Hub & Hex).
  - cbn. lia.
  - intros w d [= -> ->]%list_elem_of_singleton. lia.
  - cbn [default from_option id]. destruct Hex as [->|(w & d & [= -> ->]%list_elem_of_singleton & _ & ->)]; [|lia].
    destruct (is_container v) eqn:Hc; [specialize (Hub v 0 ltac:(by left) Hc); lia|by rewrite leaf_depth].
Qed.

(** ** Properties *)

(** C32. The canonical order is a total preorder on all values, containers included: comparing the other way round
    gives the opposite, it is transitive, equal values compare alike with every third value, the kinds of the
    official order come first, and an integer and a double compare exactly, without rounding. *)
Theorem canonical_order_total a b c : value_ok a -> value_ok b -> value_ok c ->
  canonical_cmp a a = Eq /\ canonical_cmp b a = CompOpp (canonical_cmp a b) /\
  (canonical_cmp a b <> Gt -> canonical_cmp b c <> Gt -> canonical_cmp a c <> Gt) /\
  (canonical_cmp a b = Eq -> canonical_cmp a c = canonical_cmp b c) /\
  (kind_index (kind a) < kind_index (kind b) -> canonical_cmp a b = Lt) /\
  (forall i d, a = VInteger i -> b = VDouble d -> valid d -> canonical_cmp a b = (i * 2 ^ 1074 ?= fval d)).
Proof.
  intros Ha Hb Hc. rewrite !canonical_cmp_key by done. split; [by apply lex_eq|]. split; [apply lex_opp|]. split.
  { intros H1 H2. exact (transitivity (H1 : ord_le (value_key a) (value_key b)) (H2 : ord_le (value_key b) (value_key c))). }
  split; [by intros ->%lex_eq|]. split.
  - intros Hk. rewrite <- canonical_cmp_key by done. assert (Hlt : kind_cmp (kind a) (kind b) = Lt) by (by apply Z.compare_lt_iff).
    destruct a; cbn [canonical_cmp]; by rewrite Hlt.
  - intros i d -> -> Hd. inversion Ha; subst. inversion Hb; subst. rewrite <- canonical_cmp_key by done. cbn [canonical_cmp kind].
    assert (Hn : is_nan d = false) by (destruct Hd as [Hf _]; by destruct d). rewrite Hn. change (kind_cmp KNumber KNumber) with Eq. cbn [then_with]. rewrite double_key_int by done. rewrite double_key_finite by done.
    cbn [lex_cmp]. by rewrite z_pair_cmp.
Qed.

Lemma canonical_order_total_witness :
  let a := VInteger (2 ^ 53 + 1) in
  let b := VDouble (f64_of_i64 (2 ^ 53)) in
  canonical_cmp a b = Gt /\ canonical_cmp b a = Lt.
Proof.
  cbv zeta. assert (Ha : value_ok (VInteger (2 ^ 53 + 1))) by (constructor; vm_compute; split; discriminate).
  assert (Hb : value_ok (VDouble (f64_of_i64 (2 ^ 53)))) by (constructor; vm_compute; reflexivity).
  destruct (canonical_order_total _ _ _ Ha Hb Ha) as (_ & Hopp & _ & _ & _ & Hnum). rewrite Hopp.
  rewrite (Hnum _ _ eq_refl eq_refl) by (split; vm_compute; reflexivity). split; vm_compute; reflexivity.
Defined.

(** C33. Storing loses nothing but what it says: stored identity is equality of contents (up to the sign of a zero in
    a geo point), hence an equivalence, normalizing twice changes nothing more, and the nesting depth is that of
    the containers, so that the limit counts levels. *)
Theorem storage_identity_exact a b : value_ok a -> value_ok b ->
  (stored_eq a b = true <-> stored_form a = stored_form b) /\
  normalize_for_storage (normalize_for_storage a) = normalize_for_storage a /\
  (Z.of_nat (container_depth a) <= int_max u32 -> nesting_depth a = Z.of_nat (container_depth a)).
Proof. intros Ha Hb. split_and!; [by apply stored_eq_form|apply normalize_again|apply nesting_depth_exact]. Qed.

Lemma storage_identity_exact_witness :
  let a := VArray [VTimestamp {| seconds := 1; nanos := 1001 |}] in stored_eq a a = true /\ nesting_depth a = 1.
Proof.
  cbv zeta. assert (Ha : value_ok (VArray [VTimestamp {| seconds := 1; nanos := 1001 |}])) by (constructor; intros v ->%list_elem_of_singleton; constructor).
  destruct (storage_identity_exact _ _ Ha Ha) as (He & _ & Hd). split; [by apply He|]. rewrite Hd; [reflexivity|vm_compute; discriminate].
Defined.
