(* ===== verification/FsFieldPath.v ===== *)
(** * Firestore field paths

    Models [crates/fireemu-core-firestore/src/field_path.rs].  A text is its UTF-8 bytes: a byte
    of a longer character is none of the characters the parser looks for, so that the parser
    takes such a character byte by byte.  The inner loop over a quoted segment is a mode of the
    one loop, the offset of the quote that is open. *)
From S2P Require Import Prelude Text Ids.

Definition MAX_FIELD_NAME_BYTES : Z := MAX_ID_UTF8_BYTES.
Definition MAX_FIELD_PATH_BYTES : Z := 1500.
Definition DOCUMENT_NAME : text := chars "__name__".

Inductive FieldPathError :=
| FpEmpty
| EmptySegment (index : Z)
| UnterminatedQuote (offset : Z)
| UnquotedSpecialCharacter (offset : Z)
| FpControlCharacter (offset : Z)
| ReservedSegment (index : Z)
| SegmentTooLong (index bytes maximum : Z)
| PathTooLong (bytes maximum : Z).

Record FieldPath := { segments : list text }.

#[global] Instance FieldPath_eq_dec : EqDecision FieldPath.
Proof. solve_decision. Defined.

Definition byte_len (s : text) : Z := Z.of_nat (length s).

Definition is_ascii_alphabetic (b : Z) : bool := is_ascii_lowercase b || is_ascii_uppercase b.
Definition name_start (b : Z) : bool := is_ascii_alphabetic b || (b =? ch "_").
Definition name_rest (b : Z) : bool := is_ascii_alphanumeric b || (b =? ch "_").

Definition is_simple (segment : text) : bool :=
  match segment with [] => false | b :: rest => name_start b && forallb name_rest rest end.

Definition is_reserved (segment : text) : bool :=
  (4 <=? byte_len segment) && starts_with (chars "__") segment && ends_with (chars "__") segment.

Definition needs_escape (b : Z) : bool := (b =? ch "`") || (b =? ch "\").

Definition escape (segment : text) : text := flat_map (fun b => if needs_escape b then [ch "\"; b] else [b]) segment.

Definition quote (segment : text) : text := ch "`" :: escape segment ++ [ch "`"].

Definition document_name : FieldPath := {| segments := [DOCUMENT_NAME] |}.

Definition is_document_name (p : FieldPath) : bool := bool_decide (segments p = [DOCUMENT_NAME]).

(** The loop of [checked] from the segment [index] on. *)
Fixpoint check_segments (index : Z) (ss : list text) (canonical_len : Z) (allow_reserved : bool) : result Z FieldPathError :=
  match ss with
  | [] => Ok canonical_len
  | s :: ss =>
      if bool_decide (s = []) then Err (EmptySegment index)
      else match control_offset 0 s with
           | Some offset => Err (FpControlCharacter (Z.of_nat offset))
           | None =>
               if MAX_FIELD_NAME_BYTES <? byte_len s then Err (SegmentTooLong index (byte_len s) MAX_FIELD_NAME_BYTES)
               else if is_reserved s && negb (bool_decide (s = DOCUMENT_NAME)) && negb allow_reserved then Err (ReservedSegment index)
               else check_segments (index + 1) ss (canonical_len + byte_len s) allow_reserved
           end
  end.

Definition checked_path (ss : list text) (allow_reserved : bool) : result FieldPath FieldPathError :=
  if bool_decide (ss = []) then Err FpEmpty
  else match check_segments 0 ss (Z.of_nat (length ss) - 1) allow_reserved with
       | Err e => Err e
       | Ok canonical_len =>
           if MAX_FIELD_PATH_BYTES <? canonical_len then Err (PathTooLong canonical_len MAX_FIELD_PATH_BYTES)
           else Ok {| segments := ss |}
       end.

Definition from_segments (ss : list text) : result FieldPath FieldPathError := checked_path ss false.

(** The character that [rest] starts with is a control character. *)
Definition control_first (rest : text) : bool := match control_offset 0 rest with Some O => true | _ => false end.

(** The loop of [parse_checked] at the offset [i] of the input, before [rest]: [open] is the offset of the quote that
    is open, [start] that of the segment. *)
Fixpoint parse_loop (rest : text) (open : option Z) (i start : Z) (quoted_segment : bool) (current : text) (acc : list text)
    : result (list text) FieldPathError :=
  match open, rest with
  | Some open, [] => Err (UnterminatedQuote open)
  | Some open, b :: rest =>
      if b =? ch "\" then
        match rest with
        | c :: rest => if needs_escape c then parse_loop rest (Some open) (i + 2) start quoted_segment (current ++ [c]) acc
                       else Err (UnquotedSpecialCharacter i)
        | [] => Err (UnquotedSpecialCharacter i)
        end
      else if b =? ch "`" then
        match rest with
        | [] => parse_loop rest None (i + 1) start true current acc
        | c :: _ => if c =? ch "." then parse_loop rest None (i + 1) start true current acc else Err (UnquotedSpecialCharacter (i + 1))
        end
      else parse_loop rest (Some open) (i + 1) start quoted_segment (current ++ [b]) acc
  | None, [] =>
      if bool_decide (current = []) && negb quoted_segment then Err (EmptySegment (Z.of_nat (length acc))) else Ok (acc ++ [current])
  | None, b :: tail =>
      if b =? ch "`" then
        if negb (i =? start) then Err (UnquotedSpecialCharacter i) else parse_loop tail (Some i) (i + 1) start quoted_segment current acc
      else if b =? ch "." then
        if bool_decide (current = []) && negb quoted_segment then Err (EmptySegment (Z.of_nat (length acc)))
        else if bool_decide (tail = []) then Err (EmptySegment (Z.of_nat (length (acc ++ [current]))))
        else parse_loop tail None (i + 1) (i + 1) false [] (acc ++ [current])
      else if control_first rest then Err (FpControlCharacter i)
      else if negb (if i =? start then name_start b else name_rest b) then Err (UnquotedSpecialCharacter i)
      else parse_loop tail None (i + 1) start quoted_segment (current ++ [b]) acc
  end.

Definition parse_checked (input : text) (allow_reserved : bool) : result FieldPath FieldPathError :=
  if bool_decide (input = []) then Err FpEmpty
  else match parse_loop input None 0 0 false [] [] with
       | Err e => Err e
       | Ok ss => checked_path ss allow_reserved
       end.

Definition parse (input : text) : result FieldPath FieldPathError := parse_checked input false.
Definition parse_allowing_reserved (input : text) : result FieldPath FieldPathError := parse_checked input true.

Definition canonical (p : FieldPath) : text :=
  join (ch ".") (map (fun s => if is_simple s then s else quote s) (segments p)).

Definition is_prefix_of (p other : FieldPath) : bool := bool_decide (segments p `prefix_of` segments other).

Example field_path_ex :
  parse (chars "a.`b.\`c`._d") = Ok {| segments := [chars "a"; chars "b.`c"; chars "_d"] |} /\
  parse (chars "a.``") = Err (EmptySegment 1) /\ parse (chars "a.") = Err (EmptySegment 1) /\ parse (chars "a`b`") = Err (UnquotedSpecialCharacter 1) /\
  parse (chars "`a`b") = Err (UnquotedSpecialCharacter 3) /\ parse (chars "`a") = Err (UnterminatedQuote 0) /\ parse (chars "__x__") = Err (ReservedSegment 0) /\
  parse [97; 0xC2; 0x85] = Err (FpControlCharacter 1) /\ canonical {| segments := [chars "a b"; chars "c"] |} = chars "`a b`.c".
Proof. vm_compute. split_and!; reflexivity. Qed.

(** ** The notation

    A segment is spelled as it is when it is an identifier, or quoted. *)

Inductive spells : text -> text -> Prop :=
| spell_simple s : is_simple s = true -> spells s s
| spell_quoted s : spells s (quote s).

(** [input] spells the segments [ss], at least one. *)
Definition notation (ss : list text) (input : text) : Prop :=
  exists parts, parts <> [] /\ Forall2 spells ss parts /\ input = join (ch ".") parts.

(** What may follow the segment [seg]. *)
Definition continues (rest : text) (seg : text) (acc res : list text) : Prop :=
  (rest = [] /\ res = acc ++ [seg]) \/ exists rest' ss, rest = ch "." :: rest' /\ notation ss rest' /\ res = acc ++ seg :: ss.

Lemma name_rest_plain b : name_rest b = true -> b <> ch "`" /\ b <> ch "." /\ (b <? 32) || (b =? 127) = false /\ (b =? 0xC2) = false.
Proof.
  unfold name_rest, is_ascii_alphanumeric, is_ascii_lowercase, is_ascii_uppercase, is_ascii_digit. change (ch "`") with 96. change (ch ".") with 46.
  change (ch "_") with 95. change (ch "a") with 97. change (ch "z") with 122. change (ch "A") with 65. change (ch "Z") with 90. change (ch "0") with 48. change (ch "9") with 57.
  lia.
Qed.

Lemma name_start_rest b : name_start b = true -> name_rest b = true.
Proof. unfold name_start, name_rest, is_ascii_alphabetic, is_ascii_alphanumeric. lia. Qed.

Lemma control_offset_ge l : forall i o, control_offset i l = Some o -> (i <= o)%nat.
Proof.
  induction l as [|c l IH]; intros i o; [done|]. cbn [control_offset].
  case_match; [intros [= <-]; lia|]. case_match; [intros [= <-]; lia|]. intros Ho%IH. lia.
Qed.

Lemma plain_first b rest : name_rest b = true -> control_first (b :: rest) = false.
Proof.
  intros Hb. destruct (name_rest_plain b Hb) as (_ & _ & H1 & H2). unfold control_first. cbn [control_offset]. rewrite H1, H2. cbn [andb].
  destruct (control_offset 1 rest) as [[|]|] eqn:Hc; [|done..]. apply control_offset_ge in Hc. lia.
Qed.

Lemma is_simple_app s t : is_simple s = true -> forallb name_rest t = true -> is_simple (s ++ t) = true.
Proof. destruct s as [|b s]; [done|]. cbn. rewrite !andb_true_iff, forallb_app, andb_true_iff. tauto. Qed.

Lemma simple_rest s : is_simple s = true -> forallb name_rest s = true.
Proof. destruct s as [|b s]; [done|]. cbn. rewrite !andb_true_iff. intros [Hb Hs]. split; [by apply name_start_rest|done]. Qed.

Lemma escape_cons b s : escape (b :: s) = (if needs_escape b then [ch "\"; b] else [b]) ++ escape s.
Proof. done. Qed.

Lemma needs_escape_iff b : needs_escape b = true <-> b = ch "`" \/ b = ch "\".
Proof. unfold needs_escape. by rewrite orb_true_iff, !Z.eqb_eq. Qed.

Lemma continues_notation part seg rest acc res : spells seg part -> continues rest seg acc res -> exists ss, notation ss (part ++ rest) /\ res = acc ++ ss.
Proof.
  intros Hs [[-> ->]|(rest' & ss & -> & (parts & Hne & Hp & ->) & ->)].
  - exists [seg]. split; [|done]. exists [part]. rewrite app_nil_r. split_and!; [done|by constructor|done].
  - exists (seg :: ss). split; [|done]. exists (part :: parts). split_and!; [done|by constructor|]. by rewrite join_cons.
Qed.

(** ** The parser reads the notation *)

Definition reads_state (rest : text) (open : option Z) (i start : Z) (quoted : bool) (current : text) (acc res : list text) : Prop :=
  match open with
  | Some _ => exists s more, rest = escape s ++ ch "`" :: more /\ continues more (current ++ s) acc res
  | None =>
      (quoted = true -> i <> start -> continues rest current acc res \/ exists b tail, rest = b :: tail /\ b <> ch ".") /\
      (quoted = false -> i = start -> current = [] -> exists ss, notation ss rest /\ res = acc ++ ss) /\
      (quoted = false -> i <> start -> is_simple current = true -> exists t more, rest = t ++ more /\ forallb name_rest t = true /\ continues more (current ++ t) acc res)
  end.

Lemma loop_end i start quoted current acc res : parse_loop [] None i start quoted current acc = Ok res -> reads_state [] None i start quoted current acc res.
Proof.
  cbn. destruct quoted; [rewrite andb_false_r; intros [= <-]; split_and!; try done; intros _ _; left; by left|].
  case_bool_decide as Hc; cbn; [done|]. intros [= <-]. split_and!; try done. intros _ _ Hs. exists [], []. split_and!; [done..|]. left. by rewrite app_nil_r.
Qed.

Lemma loop_sound n : forall rest open i start quoted current acc res, (length rest <= n)%nat -> start <= i ->
  parse_loop rest open i start quoted current acc = Ok res -> reads_state rest open i start quoted current acc res.
Proof.
  induction n as [|n IH]; intros rest open i start quoted current acc res Hn Hi.
  { destruct rest; [|cbn in Hn; lia]. destruct open; [done|]. apply loop_end. }
  destruct rest as [|b tail]; [destruct open; [done|apply loop_end]|]. cbn in Hn. destruct open as [o|]; cbn [parse_loop].
  - destruct (Z.eqb_spec b (ch "\")) as [->|Hb].
    { destruct tail as [|c tail]; [done|]. destruct (needs_escape c) eqn:Hc; [|done]. intros Hl. apply IH in Hl; [|cbn in Hn; lia|lia].
      destruct Hl as (s & more & -> & Hm). exists (c :: s), more. rewrite escape_cons, Hc. split; [done|]. by rewrite <- app_assoc in Hm. }
    destruct (Z.eqb_spec b (ch "`")) as [->|Hb'].
    { assert (Hgo : continues tail current acc res ->
        exists s more, ch "`" :: tail = escape s ++ ch "`" :: more /\ continues more (current ++ s) acc res) by (intros Hc; exists [], tail; by rewrite app_nil_r).
      destruct tail as [|c tail].
      - intros Hl%loop_end. apply Hgo. destruct Hl as (Hq & _). destruct Hq as [|(x & y & ? & _)]; [done|lia|done|done].
      - destruct (Z.eqb_spec c (ch ".")) as [->|]; [|done]. intros Hl. apply Hgo. apply IH in Hl; [|lia|lia].
        destruct Hl as (Hq & _). destruct Hq as [Hc|(x & y & [= <- <-] & Hx)]; [done|lia|done|done]. }
    intros Hl. apply IH in Hl; [|lia|lia]. destruct Hl as (s & more & -> & Hm). exists (b :: s), more. rewrite escape_cons.
    destruct (needs_escape b) eqn:Hne; [by apply needs_escape_iff in Hne as [|]|]. split; [done|]. by rewrite <- app_assoc in Hm.
  - destruct (Z.eqb_spec b (ch "`")) as [->|Hq].
    { destruct (Z.eqb_spec i start) as [->|]; cbn [negb]; [|done]. intros Hl. apply IH in Hl; [|lia|lia]. destruct Hl as (s & more & -> & Hm).
      split_and!; [done| |done]. intros _ _ ->. apply (continues_notation (quote s) s more) in Hm; [|constructor]. unfold quote in Hm. by rewrite <- app_comm_cons, <- app_assoc in Hm. }
    destruct (Z.eqb_spec b (ch ".")) as [->|Hd].
    { destruct (_ && _) eqn:Hempty; [done|]. destruct (bool_decide (tail = [])); [done|]. intros Hl. apply IH in Hl; [|lia|lia].
      destruct Hl as (_ & Hss & _). destruct Hss as (ss & Hss & ->); [done..|].
      assert (Hc : forall seg, seg = current -> continues (ch "." :: tail) seg acc ((acc ++ [current]) ++ ss)) by (intros seg ->; right; exists tail, ss; by rewrite <- app_assoc).
      split_and!.
      - intros _ _. left. by apply Hc.
      - intros -> _ ->. done.
      - intros _ _ _. exists [], (ch "." :: tail). split_and!; [done..|]. apply Hc. by rewrite app_nil_r. }
    destruct (control_first _); [done|]. destruct (if i =? start then _ else _) eqn:Hok; [|done]. cbn [negb]. intros Hl. apply IH in Hl; [|lia|lia].
    destruct Hl as (_ & _ & Hmid). split_and!.
    + intros _ _. right. by exists b, tail.
    + intros -> -> ->. rewrite Z.eqb_refl in Hok. destruct (Hmid eq_refl) as (t & more & -> & Ht & Hm); [lia|cbn; by rewrite Hok|].
      apply (continues_notation (b :: t) (b :: t) more); [constructor; cbn; by rewrite Hok|done].
    + intros -> Hne Hs. rewrite (proj2 (Z.eqb_neq i start) Hne) in Hok. destruct (Hmid eq_refl) as (t & more & -> & Ht & Hm); [lia|by apply is_simple_app; [|cbn; rewrite Hok]|].
      exists (b :: t), more. split_and!; [done|cbn; by rewrite Hok|]. by rewrite <- app_assoc in Hm.
Qed.

(** After a segment. *)
Lemma loop_simple s : forall rest i start current acc, forallb name_rest s = true -> start < i ->
  parse_loop (s ++ rest) None i start false current acc = parse_loop rest None (i + byte_len s) start false (current ++ s) acc.
Proof.
  induction s as [|b s IH]; intros rest i start current acc Hs Hi; [by rewrite app_nil_r, Z.add_0_r|].
  cbn in Hs. apply andb_true_iff in Hs as [Hb Hs]. destruct (name_rest_plain b Hb) as (Hq & Hd & _). rewrite <- app_comm_cons. cbn [parse_loop].
  rewrite (proj2 (Z.eqb_neq _ _) Hq), (proj2 (Z.eqb_neq _ _) Hd), plain_first, (proj2 (Z.eqb_neq i start)), Hb by (done || lia). cbn [negb].
  rewrite IH by (done || lia). rewrite <- app_assoc. unfold byte_len. cbn [length]. f_equal. lia.
Qed.

Lemma loop_first s rest i acc : is_simple s = true ->
  parse_loop (s ++ rest) None i i false [] acc = parse_loop rest None (i + byte_len s) i false s acc.
Proof.
  destruct s as [|b s]; [done|]. cbn [is_simple]. intros [Hb Hs]%andb_true_iff. pose proof (name_start_rest b Hb) as Hr. destruct (name_rest_plain b Hr) as (Hq & Hd & _).
  rewrite <- app_comm_cons. cbn [parse_loop].
  rewrite (proj2 (Z.eqb_neq _ _) Hq), (proj2 (Z.eqb_neq _ _) Hd), plain_first, Z.eqb_refl, Hb by done. cbn [negb app].
  rewrite loop_simple by (done || lia). unfold byte_len. cbn [length]. f_equal. lia.
Qed.

Definition ends_segment (rest : text) : Prop := rest = [] \/ exists tail, rest = ch "." :: tail.

Lemma loop_quoted s : forall rest o i start current acc, ends_segment rest -> exists i',
  parse_loop (escape s ++ ch "`" :: rest) (Some o) i start false current acc = parse_loop rest None i' start true (current ++ s) acc.
Proof.
  induction s as [|b s IH]; intros rest o i start current acc Hrest.
  - exists (i + 1). rewrite app_nil_r. cbn [escape flat_map app parse_loop]. change (ch "`" =? ch "\") with false. rewrite Z.eqb_refl. by destruct Hrest as [->|(tail & ->)].
  - rewrite escape_cons, <- app_assoc. destruct (needs_escape b) eqn:Hb.
    + destruct (IH rest o (i + 2) start (current ++ [b]) acc Hrest) as (i' & Hi). exists i'. cbn [app parse_loop]. rewrite Z.eqb_refl, Hb, Hi. by rewrite <- app_assoc.
    + destruct (IH rest o (i + 1) start (current ++ [b]) acc Hrest) as (i' & Hi). exists i'. cbn [app parse_loop].
      unfold needs_escape in Hb. apply orb_false_iff in Hb as [Hb1 Hb2]. rewrite Hb1, Hb2, Hi. by rewrite <- app_assoc.
Qed.

Lemma loop_segment s part rest i acc : spells s part -> ends_segment rest -> exists i' quoted,
  parse_loop (part ++ rest) None i i false [] acc = parse_loop rest None i' i quoted s acc /\ (quoted = true \/ s <> []).
Proof.
  intros Hs Hrest. destruct Hs as [s Hs|s].
  - exists (i + byte_len s), false. split; [by apply loop_first|]. right. by destruct s.
  - destruct (loop_quoted s rest i (i + 1) i [] acc Hrest) as (i' & Hi). exists i', true. split; [|by left].
    unfold quote. rewrite <- app_comm_cons, <- app_assoc. cbn [parse_loop app]. by rewrite !Z.eqb_refl.
Qed.

Lemma loop_complete parts : forall ss i acc, parts <> [] -> Forall2 spells ss parts ->
  parse_loop (join (ch ".") parts) None i i false [] acc = Ok (acc ++ ss).
Proof.
  induction parts as [|part parts IH]; intros ss i acc Hne Hss; [done|]. apply Forall2_cons_inv_r in Hss as (s & ss' & Hs & Hss & ->).
  assert (Hempty : forall q (c : text), q = true \/ c <> [] -> bool_decide (c = []) && negb q = false).
  { intros q c [->|Hc]; [by rewrite andb_false_r|]. by rewrite bool_decide_false. }
  destruct parts as [|part' parts].
  - apply Forall2_nil_inv_r in Hss as ->. cbn [join]. destruct (loop_segment s part [] i acc Hs) as (i' & q & Hl & Hq); [by left|].
    rewrite app_nil_r in Hl. rewrite Hl. cbn [parse_loop]. by rewrite Hempty.
  - rewrite join_cons by done. destruct (loop_segment s part (ch "." :: join (ch ".") (part' :: parts)) i acc Hs) as (i' & q & Hl & Hq);
      [right; by eexists|].
    rewrite Hl. cbn [parse_loop]. change (ch "." =? ch "`") with false. rewrite Z.eqb_refl, Hempty by done.
    assert (Hjoin : join (ch ".") (part' :: parts) <> []).
    { apply Forall2_cons_inv_r in Hss as (s' & ? & Hs' & _ & _). assert (Hp : part' <> []) by (destruct Hs' as [[]|]; done). destruct parts; [done|]. rewrite join_cons by done. by destruct part'. }
    rewrite bool_decide_false by done. rewrite (IH ss') by done. by rewrite <- app_assoc.
Qed.

Lemma loop_reads input ss : input <> [] -> parse_loop input None 0 0 false [] [] = Ok ss <-> notation ss input.
Proof.
  intros Hne. split.
  - intros Hl. apply (loop_sound (length input)) in Hl; [|lia..]. by destruct Hl as (_ & Hl & _), Hl as (ss' & Hn & ->).
  - intros (parts & Hp & Hss & ->). by rewrite (loop_complete _ ss).
Qed.

Lemma notation_nonempty ss input : notation ss input -> input <> [] /\ ss <> [].
Proof.
  intros (parts & Hne & Hss & ->). destruct Hss as [|s part ss parts Hs Hss]; [done|]. split; [|done].
  assert (Hp : part <> []) by (destruct Hs as [[]|]; done). destruct parts; [done|]. rewrite join_cons by done. by destruct part.
Qed.

Lemma checked_segments ss b p : checked_path ss b = Ok p -> segments p = ss.
Proof. unfold checked_path. repeat case_match; intros [= <-]; done. Qed.

Lemma parse_checked_iff input allow p : parse_checked input allow = Ok p <-> notation (segments p) input /\ checked_path (segments p) allow = Ok p.
Proof.
  unfold parse_checked. split.
  - case_bool_decide as Hne; [done|]. destruct (parse_loop _ _ _ _ _ _ _) as [ss|] eqn:Hl; [|done]. intros Hp. rewrite (checked_segments _ _ _ Hp). split; [|done]. by apply loop_reads.
  - intros (Hn & Hp). destruct (notation_nonempty _ _ Hn) as [Hne _]. rewrite bool_decide_false by done. apply loop_reads in Hn as ->; done.
Qed.

Lemma canonical_notation p : segments p <> [] -> notation (segments p) (canonical p).
Proof.
  intros Hne. exists (map (fun s => if is_simple s then s else quote s) (segments p)). split_and!; [by destruct (segments p)|..|done].
  clear Hne. induction (segments p) as [|s ss IH]; [constructor|]. cbn [map]. constructor; [|done]. destruct (is_simple s) eqn:Hs; by constructor.
Qed.

(** C34. A field path reads exactly its notation: a text parses to a path, whether reserved names are allowed or not,
    if and only if it joins with dots a spelling of each segment, an identifier as it is or any segment in backquotes
    with its backquotes and backslashes escaped, and the segments satisfy the limits; so the spelling determines the
    segments, and the canonical form of a valid path reads back as that path. *)
Theorem field_path_exact (allow : bool) (p q : FieldPath) (input : text) :
  (parse_checked input allow = Ok p <-> notation (segments p) input /\ checked_path (segments p) allow = Ok p) /\
  (checked_path (segments p) allow = Ok p -> parse_checked (canonical p) allow = Ok p) /\
  (checked_path (segments p) allow = Ok p -> checked_path (segments q) allow = Ok q -> canonical p = canonical q -> p = q).
Proof.
  assert (Hround : forall p, checked_path (segments p) allow = Ok p -> parse_checked (canonical p) allow = Ok p).
  { intros r Hr. apply parse_checked_iff. split; [|done]. apply canonical_notation. by intros Hn; rewrite Hn in Hr. }
  split_and!; [apply parse_checked_iff|apply Hround|]. intros Hp%Hround Hq%Hround Heq. rewrite Heq in Hp. congruence.
Qed.

Definition demo_path : FieldPath := {| segments := [chars "a b"; chars "__x__"; chars "c"] |}.

Example field_path_exact_witness : checked_path (segments demo_path) true = Ok demo_path /\ parse_checked (canonical demo_path) true = Ok demo_path.
Proof.
  assert (H : checked_path (segments demo_path) true = Ok demo_path) by (vm_compute; reflexivity).
  split; [exact H|exact (proj1 (proj2 (field_path_exact true demo_path document_name [])) H)].
Defined.
