(* ===== verification/FsDocPath.v ===== *)
(** * Firestore document paths

    Models [crates/fireemu-core-firestore/src/path.rs].  An identifier is a string, as in Ids;
    a relative path or a resource name is a text, its bytes. *)
From S2P Require Import Prelude Text Ids Lex FsValue.

Definition MAX_SUBCOLLECTION_DEPTH : Z := 100.
Definition MAX_DOCUMENT_NAME_BYTES : Z := 6 * 1024.

Inductive PathError :=
| OddSegmentCount (segments : Z)
| PathEmpty
| InvalidSegment (index : Z) (error : IdSyntaxError)
| TooDeep (depth maximum : Z)
| NameTooLong (bytes maximum : Z).

Record DocumentPath := { project : string; database : string; pairs : list (string * string) }.

#[global] Instance DocumentPath_eq_dec : EqDecision DocumentPath.
Proof. solve_decision. Defined.

(** The derived [Ord]: field by field. *)
#[global, refine] Instance DocumentPath_RustOrd : RustOrd DocumentPath :=
  {| ord_cmp p q := ord_cmp (project p, (database p, pairs p)) (project q, (database q, pairs q)) |}.
Proof.
  - intros [] []. rewrite ord_cmp_eq. cbn. split; [by intros [= -> -> ->]|by intros [= -> -> ->]].
  - intros p q. apply ord_cmp_opp.
  - intros p q r. apply ord_cmp_trans.
Defined.

(** [string_id!]'s [try_new]. *)
Definition try_new (validate : string -> result unit IdSyntaxError) (value : text) : result string IdSyntaxError :=
  match validate (string_of value) with Ok _ => Ok (string_of value) | Err e => Err e end.

(** The loop over [segments.chunks(2)], from the chunk [i]; the number of segments is even. *)
Fixpoint parse_pairs (i : Z) (segments : list text) : result (list (string * string)) PathError :=
  match segments with
  | c :: d :: segments =>
      match try_new validate_path_segment c with
      | Err error => Err (InvalidSegment (2 * i) error)
      | Ok collection =>
          match try_new validate_path_segment d with
          | Err error => Err (InvalidSegment (2 * i + 1) error)
          | Ok document =>
              match parse_pairs (i + 1) segments with
              | Err e => Err e
              | Ok ps => Ok ((collection, document) :: ps)
              end
          end
      end
  | _ => Ok []
  end.

Definition parse (project database : string) (relative : text) : result DocumentPath PathError :=
  if bool_decide (relative = []) then Err PathEmpty
  else
    let segments := split_on (ch "/") relative in
    if negb (Z.of_nat (length segments) mod 2 =? 0) then Err (OddSegmentCount (Z.of_nat (length segments)))
    else match parse_pairs 0 segments with
         | Err e => Err e
         | Ok pairs =>
             let depth := Z.of_nat (length pairs) in
             if MAX_SUBCOLLECTION_DEPTH <? depth then Err (TooDeep depth MAX_SUBCOLLECTION_DEPTH)
             else
               let bytes := saturating u64 (Z.of_nat (length relative) + 17) in
               if MAX_DOCUMENT_NAME_BYTES <? bytes then Err (NameTooLong bytes MAX_DOCUMENT_NAME_BYTES)
               else Ok {| project := project; database := database; pairs := pairs |}
         end.

(** [collection_id] and [document_id] index the last pair: [None] is the panic, which no path that [parse] makes
    reaches. *)
Definition collection_id (p : DocumentPath) : option string := fst <$> last (pairs p).
Definition document_id (p : DocumentPath) : option string := snd <$> last (pairs p).

Definition with_pairs (p : DocumentPath) (ps : list (string * string)) : DocumentPath :=
  {| project := project p; database := database p; pairs := ps |}.

Definition parent_document (p : DocumentPath) : option DocumentPath :=
  if (length (pairs p) <? 2)%nat then None else Some (with_pairs p (take (length (pairs p) - 1) (pairs p))).

Definition ancestor (p : DocumentPath) (n : nat) : option DocumentPath :=
  if (0 <? n)%nat then Some (with_pairs p (take (n `min` length (pairs p)) (pairs p))) else None.

(** [pairs.last_mut()] *)
Fixpoint alter_last {A} (f : A -> A) (l : list A) : list A :=
  match l with [] => [] | [x] => [f x] | x :: l => x :: alter_last f l end.

Definition descendants_upper_bound (p : DocumentPath) : DocumentPath :=
  with_pairs p (alter_last (fun cd => (cd.1, ordered_successor cd.2)) (pairs p)).

Definition relative_segments (p : DocumentPath) : list text := flat_map (fun cd => [bytes_of cd.1; bytes_of cd.2]) (pairs p).

Definition relative (p : DocumentPath) : text := join (ch "/") (relative_segments p).

Definition from_resource_name (name : text) : option DocumentPath :=
  rest ← strip_text (chars "projects/") name;
  '(project, rest) ← split_once_at (chars "/databases/") rest;
  '(database, relative) ← split_once_at (chars "/documents/") rest;
  match try_new validate_project_id project, try_new validate_database_id database with
  | Ok project, Ok database => match parse project database relative with Ok p => Some p | Err _ => None end
  | _, _ => None
  end.

Definition resource_name (p : DocumentPath) : text :=
  chars "projects/" ++ bytes_of (project p) ++ chars "/databases/" ++ bytes_of (database p) ++ chars "/documents/" ++ relative p.

Definition resource_name_segments (p : DocumentPath) : list text :=
  [chars "projects"; bytes_of (project p); chars "databases"; bytes_of (database p); chars "documents"] ++ relative_segments p.

Definition cmp_resource_name (p q : DocumentPath) : comparison := ord_cmp (resource_name_segments p) (resource_name_segments q).

Definition cmp_reference (p : DocumentPath) (name : text) : comparison := ord_cmp (resource_name_segments p) (split_on (ch "/") name).

Example document_path_ex :
  parse "p" "(default)" (chars "users/jeff") = Ok {| project := "p"; database := "(default)"; pairs := [("users", "jeff")] |}%string /\
  parse "p" "d" (chars "users") = Err (OddSegmentCount 1) /\ parse "p" "d" (chars "a//b/c") = Err (InvalidSegment 1 IdEmpty) /\
  parse "p" "d" [] = Err PathEmpty /\ parse "p" "d" (chars "a/__x__") = Err (InvalidSegment 1 ReservedDunder) /\
  from_resource_name (chars "projects/p/databases/d/documents/a") = None.
Proof. vm_compute. split_and!; reflexivity. Qed.

(** ** Valid paths *)

Definition valid_pair (cd : string * string) : Prop := validate_path_segment cd.1 = Ok tt /\ validate_path_segment cd.2 = Ok tt.

(** What [parse] promises of the relative path. *)
Definition relative_ok (p : DocumentPath) : Prop :=
  pairs p <> [] /\ Forall valid_pair (pairs p) /\ Z.of_nat (length (pairs p)) <= MAX_SUBCOLLECTION_DEPTH /\
  Z.of_nat (length (relative p)) + 17 <= MAX_DOCUMENT_NAME_BYTES.

Definition path_ok (p : DocumentPath) : Prop :=
  validate_project_id (project p) = Ok tt /\ validate_database_id (database p) = Ok tt /\ relative_ok p.

Definition is_bytes (s : text) : Prop := Forall (fun b => 0 <= b < 256) s.

Lemma bytes_of_bytes s : is_bytes (bytes_of s).
Proof. apply Forall_forall. intros b Hb. unfold bytes_of in Hb. apply list_elem_of_fmap in Hb as (c & -> & _). apply ch_range. Qed.

Lemma try_new_Ok validate value s : is_bytes value -> try_new validate value = Ok s <-> bytes_of s = value /\ validate s = Ok tt.
Proof.
  intros Hb. unfold try_new. split.
  - destruct (validate (string_of value)) as [[]|] eqn:Hv; [|done]. intros [= <-]. by rewrite bytes_of_string_of.
  - intros (<- & Hv). by rewrite string_of_bytes_of, Hv.
Qed.

Lemma valid_segment_plain s : validate_path_segment s = Ok tt -> (ch "/" ∉ bytes_of s) /\ bytes_of s <> [].
Proof.
  unfold validate_path_segment. case_bool_decide as Hne; [done|]. destruct (_ <? _); [done|].
  destruct (contains_byte _ _) eqn:Hc; [done|]. intros _. split; [by apply contains_byte_false|done].
Qed.

Lemma hyphenated_plain s n : validate_lowercase_hyphenated s n = Ok tt -> ch "/" ∉ bytes_of s.
Proof.
  unfold validate_lowercase_hyphenated. case_bool_decide; [done|]. destruct (_ <? _); [done|].
  destruct (position _ _) eqn:Hp; [done|]. intros _ Hin. clear - Hp Hin.
  induction (bytes_of s) as [|b l IH]; [by apply not_elem_of_nil in Hin|]. cbn in Hp. destruct (hyphenated_byte b) eqn:Hb; [|done]. cbn in Hp.
  destruct (position _ l) eqn:Hl; [done|]. apply elem_of_cons in Hin as [<-|Hin]; [done|by apply IH].
Qed.

Lemma database_plain s : validate_database_id s = Ok tt -> ch "/" ∉ bytes_of s.
Proof.
  unfold validate_database_id. case_bool_decide as Hd; [|apply hyphenated_plain]. intros _. subst s. intros Hin. 
  assert (H : existsb (Z.eqb (ch "/")) (bytes_of DEFAULT_DATABASE) = false) by reflexivity. by apply contains_byte_false in H.
Qed.

Lemma relative_segments_plain p : Forall valid_pair (pairs p) -> Forall (fun s => ch "/" ∉ s) (relative_segments p).
Proof.
  unfold relative_segments. induction 1 as [|[c d] ps [Hc Hd] _ IH]; [constructor|]. cbn in *.
  repeat constructor; [apply (valid_segment_plain c Hc)|apply (valid_segment_plain d Hd)|done].
Qed.

Lemma relative_split p : pairs p <> [] -> Forall valid_pair (pairs p) -> split_on (ch "/") (relative p) = relative_segments p.
Proof.
  intros Hne Hp. unfold relative. rewrite split_join; [done| |by apply relative_segments_plain]. unfold relative_segments. by destruct (pairs p).
Qed.

Lemma parse_pairs_complete ps : forall i, Forall valid_pair ps -> parse_pairs i (flat_map (fun cd => [bytes_of cd.1; bytes_of cd.2]) ps) = Ok ps.
Proof.
  induction ps as [|[c d] ps IH]; intros i Hps; [done|]. apply Forall_cons in Hps as [[Hc Hd] Hps]. cbn [flat_map app parse_pairs fst snd] in *.
  rewrite (proj2 (try_new_Ok validate_path_segment _ c (bytes_of_bytes c)) (conj eq_refl Hc)).
  rewrite (proj2 (try_new_Ok validate_path_segment _ d (bytes_of_bytes d)) (conj eq_refl Hd)). by rewrite IH.
Qed.

Lemma parse_pairs_sound n : forall segments i ps, (length segments <= n)%nat -> Z.of_nat (length segments) mod 2 = 0 -> Forall is_bytes segments ->
  parse_pairs i segments = Ok ps -> flat_map (fun cd => [bytes_of cd.1; bytes_of cd.2]) ps = segments /\ Forall valid_pair ps.
Proof.
  induction n as [|n IH]; intros [|c [|d segments]] i ps Hn Heven Hb; try (cbn in Hn; lia); try (by intros [= <-]).
  apply Forall_cons in Hb as [Hc Hb]. apply Forall_cons in Hb as [Hd Hb]. cbn [parse_pairs].
  destruct (try_new _ c) as [c'|] eqn:Hc'; [|done]. destruct (try_new _ d) as [d'|] eqn:Hd'; [|done].
  apply try_new_Ok in Hc' as [<- Hc']; [|done]. apply try_new_Ok in Hd' as [<- Hd']; [|done].
  destruct (parse_pairs (i + 1) segments) as [ps'|] eqn:Hps; [|done]. intros [= <-].
  apply IH in Hps as [<- Hps]; [|cbn in Hn; lia| |done].
  - split; [done|]. constructor; [done|done].
  - cbn [length] in Heven. rewrite !Nat2Z.inj_succ in Heven. rewrite <- !Z.add_1_r, <- Z.add_assoc in Heven. change (1 + 1) with (1 * 2) in Heven.
    by rewrite Z.mod_add in Heven.
Qed.

Lemma split_on_bytes sep s : is_bytes s -> Forall is_bytes (split_on sep s).
Proof.
  induction 1 as [|b s Hb _ IH]; cbn; [repeat constructor|]. destruct (b =? sep); [by constructor; [constructor|]|].
  destruct (split_on sep s); [by repeat apply Forall_cons_2|]. apply Forall_cons in IH as [H1 H2]. constructor; [by constructor|done].
Qed.

Lemma saturating_small z m : 0 <= z -> 0 <= m < 2 ^ 64 - 1 -> saturating u64 z <= m <-> z <= m.
Proof. unfold saturating. cbn. lia. Qed.

Lemma relative_even p : Z.of_nat (length (relative_segments p)) mod 2 = 0.
Proof.
  unfold relative_segments. induction (pairs p) as [|cd ps IH]; [done|]. cbn [flat_map app length]. rewrite !Nat2Z.inj_succ.
  rewrite <- !Z.add_1_r, <- Z.add_assoc. change (1 + 1) with (1 * 2). by rewrite Z.mod_add.
Qed.

(** The relative path of valid pairs is read back, unless its name is too long. *)
Lemma parse_relative p : pairs p <> [] -> Forall valid_pair (pairs p) -> Z.of_nat (length (pairs p)) <= MAX_SUBCOLLECTION_DEPTH ->
  parse (project p) (database p) (relative p) =
    (let bytes := saturating u64 (Z.of_nat (length (relative p)) + 17) in if MAX_DOCUMENT_NAME_BYTES <? bytes then Err (NameTooLong bytes MAX_DOCUMENT_NAME_BYTES) else Ok p).
Proof.
  intros Hne Hvalid Hdepth. unfold parse. rewrite relative_split, relative_even by done. cbn [negb Z.eqb].
  unfold relative_segments at 1. rewrite parse_pairs_complete by done. rewrite bool_decide_false.
  2: { unfold relative. intros Hj. assert (Hs : split_on (ch "/") (relative p) = [[]]) by (unfold relative; by rewrite Hj). rewrite relative_split in Hs by done.
       unfold relative_segments in Hs. destruct (pairs p); done. }
  rewrite (proj2 (Z.ltb_ge MAX_SUBCOLLECTION_DEPTH _)) by done. by destruct p.
Qed.

Lemma parse_Ok pr db input p : is_bytes input ->
  parse pr db input = Ok p <-> project p = pr /\ database p = db /\ relative p = input /\ relative_ok p.
Proof.
  intros Hb. split.
  - unfold parse. case_bool_decide as Hne; [done|]. destruct (Z.eqb_spec (Z.of_nat (length (split_on (ch "/") input)) mod 2) 0) as [Heven|]; [|done].
    cbn [negb]. destruct (parse_pairs 0 _) as [ps|] eqn:Hps; [|done].
    destruct (Z.ltb_spec MAX_SUBCOLLECTION_DEPTH (Z.of_nat (length ps))); [done|]. destruct (Z.ltb_spec MAX_DOCUMENT_NAME_BYTES (saturating u64 (Z.of_nat (length input) + 17))) as [|Hlen]; [done|].
    intros [= <-]. apply (parse_pairs_sound (length (split_on (ch "/") input))) in Hps as [Hseg Hvalid]; [|done|done|by apply split_on_bytes].
    assert (Hrel : relative {| project := pr; database := db; pairs := ps |} = input) by (unfold relative, relative_segments; cbn [pairs]; rewrite Hseg; apply join_split).
    apply (saturating_small (Z.of_nat (length input) + 17)) in Hlen; [|lia|done]. split_and!; try done. unfold relative_ok. rewrite Hrel. split_and!; try done.
    cbn [pairs]. intros ->. by apply (split_on_cons_ne (ch "/") input).
  - intros (<- & <- & <- & Hne & Hvalid & Hdepth & Hlen). rewrite parse_relative by done. cbv zeta.
    by rewrite (proj2 (Z.ltb_ge MAX_DOCUMENT_NAME_BYTES _)) by (apply (saturating_small (Z.of_nat (length (relative p)) + 17)); [lia|done|done]).
Qed.

(** ** Resource names *)

Lemma split_once_at_first c pattern : forall s rest, c ∉ s -> split_once_at (c :: pattern) (s ++ c :: pattern ++ rest) = Some (s, rest).
Proof.
  induction s as [|b s IH]; intros rest Hc; cbn [app].
  - assert (Hs : strip_text (c :: pattern) (c :: pattern ++ rest) = Some rest) by by apply strip_text_Some.
    cbn [split_once_at]. by rewrite Hs.
  - apply not_elem_of_cons in Hc as [Hb Hc]. cbn [split_once_at strip_text]. rewrite (proj2 (Z.eqb_neq b c)) by done. by rewrite IH.
Qed.

Lemma split_once_at_Some pattern : forall s a r, split_once_at pattern s = Some (a, r) -> s = a ++ pattern ++ r.
Proof.
  induction s as [|b s IH]; intros a r; cbn [split_once_at]; destruct (strip_text pattern _) as [t|] eqn:Ht.
  - intros [= <- <-]. by apply strip_text_Some in Ht.
  - done.
  - intros [= <- <-]. by apply strip_text_Some in Ht.
  - destruct (split_once_at pattern s) as [[a' r']|]; [|done]. cbn. intros [= <- <-]. by rewrite (IH a' r').
Qed.

Lemma is_bytes_app s t : is_bytes (s ++ t) <-> is_bytes s /\ is_bytes t.
Proof. apply Forall_app. Qed.

Lemma from_resource_name_spec (name : text) (p : DocumentPath) : is_bytes name -> from_resource_name name = Some p <-> resource_name p = name /\ path_ok p.
Proof.
  intros Hb. unfold from_resource_name. split.
  - destruct (strip_text _ name) as [rest|] eqn:H1; [|done]. apply strip_text_Some in H1. cbn [mbind option_bind].
    destruct (split_once_at (chars "/databases/") rest) as [[pr rest']|] eqn:H2; [|done]. apply split_once_at_Some in H2. cbn [mbind option_bind].
    destruct (split_once_at (chars "/documents/") rest') as [[db rel]|] eqn:H3; [|done]. apply split_once_at_Some in H3. cbn [mbind option_bind].
    subst. rewrite !is_bytes_app in Hb. destruct Hb as (_ & Hpr & _ & Hdb & _ & Hrel).
    destruct (try_new validate_project_id pr) as [pr'|] eqn:Hpr'; [|done]. destruct (try_new validate_database_id db) as [db'|] eqn:Hdb'; [|done].
    destruct (parse pr' db' rel) as [q|] eqn:Hq; [|done]. intros [= ->]. apply parse_Ok in Hq as (<- & <- & <- & Hok); [|done].
    apply try_new_Ok in Hpr' as [<- Hpr']; [|done]. apply try_new_Ok in Hdb' as [<- Hdb']; [|done]. done.
  - intros (<- & Hpr & Hdb & Hok). unfold resource_name in *. rewrite !is_bytes_app in Hb. destruct Hb as (_ & _ & _ & _ & _ & Hrel).
    rewrite (proj2 (strip_text_Some _ _ _) eq_refl). cbn [mbind option_bind].
    change (chars "/databases/") with (ch "/" :: chars "databases/"). change (chars "/documents/") with (ch "/" :: chars "documents/").
    rewrite <- app_comm_cons, split_once_at_first by (by apply (hyphenated_plain _ 63)). cbn [mbind option_bind].
    rewrite <- app_comm_cons, split_once_at_first by (by apply database_plain). cbn [mbind option_bind].
    rewrite (proj2 (try_new_Ok _ _ (project p) (bytes_of_bytes _)) (conj eq_refl Hpr)), (proj2 (try_new_Ok _ _ (database p) (bytes_of_bytes _)) (conj eq_refl Hdb)).
    by rewrite (proj2 (parse_Ok _ _ _ p Hrel) (conj eq_refl (conj eq_refl (conj eq_refl Hok)))).
Qed.

(** C35. Resource names and document paths are the same thing: a text is the resource name of a document exactly when
    [from_resource_name] reads that document from it, so that every valid path reads back from its name, and nothing
    else (a collection name, a name past the depth or length limit, a name with an invalid identifier) reads as a path;
    in the same way [parse] reads exactly the relative paths. *)
Theorem document_names_exact (name : text) (p : DocumentPath) : is_bytes name ->
  (from_resource_name name = Some p <-> resource_name p = name /\ path_ok p) /\
  (forall project' database', parse project' database' name = Ok p <->
    project p = project' /\ database p = database' /\ relative p = name /\ relative_ok p).
Proof.
  intros Hb. split; [by apply from_resource_name_spec|]. intros pr db. by apply parse_Ok.
Qed.

Definition demo_path : DocumentPath := {| project := "demo"; database := "(default)"; pairs := [("users", "jeff"); ("tasks", "t1")] |}.

Example document_names_exact_witness :
  is_bytes (resource_name demo_path) /\ from_resource_name (resource_name demo_path) = Some demo_path.
Proof.
  assert (Hb : is_bytes (resource_name demo_path)) by (vm_compute; repeat constructor; discriminate). split; [exact Hb|].
  apply (proj1 (document_names_exact (resource_name demo_path) demo_path Hb)).
  assert (Hvalid : Forall valid_pair (pairs demo_path)) by (repeat constructor; vm_compute; reflexivity).
  assert (Hlen : (Z.of_nat (length (relative demo_path)) + 17 <=? MAX_DOCUMENT_NAME_BYTES) = true) by (vm_compute; reflexivity).
  split; [reflexivity|]. split; [vm_compute; reflexivity|]. split; [vm_compute; reflexivity|].
  split; [discriminate|]. split; [exact Hvalid|]. split; [vm_compute; discriminate|exact (proj1 (Z.leb_le _ _) Hlen)].
Defined.

(** ** The order of paths *)

Lemma ascii_cmp_byte c d : Ascii.compare c d = (ch c ?= ch d).
Proof. unfold Ascii.compare, ch. symmetry. apply N2Z.inj_compare. Qed.

Lemma string_cmp_bytes s : forall t, ord_cmp s t = ord_cmp (bytes_of s) (bytes_of t).
Proof.
  induction s as [|c s IH]; intros [|d t]; try done. change (bytes_of (String c s)) with (ch c :: bytes_of s). change (bytes_of (String d t)) with (ch d :: bytes_of t).
  cbn. rewrite ascii_cmp_byte. destruct (ch c ?= ch d); [apply IH|done..].
Qed.

Lemma relative_segments_cmp (ps qs : list (string * string)) :
  list_cmp (flat_map (fun cd => [bytes_of cd.1; bytes_of cd.2]) ps) (flat_map (fun cd => [bytes_of cd.1; bytes_of cd.2]) qs) = list_cmp ps qs.
Proof.
  revert qs. induction ps as [|[c d] ps IH]; intros [|[c' d'] qs]; try done. cbn [flat_map app list_cmp fst snd].
  rewrite <- !string_cmp_bytes, IH. change (ord_cmp (c, d) (c', d')) with (pair_cmp (c, d) (c', d')). unfold pair_cmp. cbn [fst snd]. by destruct (ord_cmp c c').
Qed.

Lemma path_cmp p q :
  ord_cmp p q = then_with (ord_cmp (project p) (project q)) (then_with (ord_cmp (database p) (database q)) (list_cmp (pairs p) (pairs q))).
Proof.
  change (ord_cmp p q) with (pair_cmp (project p, (database p, pairs p)) (project q, (database q, pairs q))). unfold pair_cmp at 1. cbn [fst snd].
  destruct (ord_cmp (project p) (project q)); [|done..]. change (ord_cmp (database p, pairs p) (database q, pairs q)) with (pair_cmp (database p, pairs p) (database q, pairs q)).
  unfold pair_cmp. cbn [fst snd then_with]. by destruct (ord_cmp (database p) (database q)).
Qed.

Lemma list_cmp_then `{RustOrd A} (x y : A) l m : list_cmp (x :: l) (y :: m) = then_with (ord_cmp x y) (list_cmp l m).
Proof. cbn. by destruct (ord_cmp x y). Qed.

Lemma list_cmp_cons_same `{RustOrd A} (x : A) l m : list_cmp (x :: l) (x :: m) = list_cmp l m.
Proof. by rewrite list_cmp_then, ord_cmp_refl. Qed.

Lemma cmp_resource_name_ord p q : cmp_resource_name p q = ord_cmp p q.
Proof.
  rewrite path_cmp. unfold cmp_resource_name, resource_name_segments. cbn [app]. change (ord_cmp (?a :: ?l) (?b :: ?m)) with (list_cmp (a :: l) (b :: m)).
  rewrite list_cmp_cons_same, list_cmp_then, list_cmp_cons_same, list_cmp_then, list_cmp_cons_same, <- !string_cmp_bytes. do 2 f_equal. apply relative_segments_cmp.
Qed.

Lemma resource_name_split q : path_ok q -> split_on (ch "/") (resource_name q) = resource_name_segments q.
Proof.
  intros (Hpr & Hdb & Hne & Hvalid & _). unfold resource_name, resource_name_segments.
  change (chars "projects/") with (chars "projects" ++ [ch "/"]). change (chars "/databases/") with (ch "/" :: chars "databases" ++ [ch "/"]).
  change (chars "/documents/") with (ch "/" :: chars "documents" ++ [ch "/"]). rewrite <- !app_assoc. cbn [app]. rewrite <- !app_assoc. cbn [app].
  assert (H : forall s, forallb (fun b => negb (ch "/" =? b)) (chars s) = true -> ch "/" ∉ chars s).
  { intros s Hs Hin. apply (proj1 (forallb_forall _ _)) with (x := ch "/") in Hs; [by rewrite Z.eqb_refl in Hs|by apply list_elem_of_In]. }
  rewrite split_on_app by (by apply H). rewrite split_on_app by (by apply (hyphenated_plain _ 63)). rewrite split_on_app by (by apply H).
  rewrite split_on_app by (by apply database_plain). rewrite split_on_app by (by apply H). by rewrite relative_split.
Qed.

(** [q] is a document below [p]. *)
Definition descendant_of (p q : DocumentPath) : Prop :=
  project q = project p /\ database q = database p /\ exists cd rest, pairs q = pairs p ++ cd :: rest.

Lemma pairs_between (ps qs : list (string * string)) : ps <> [] ->
  list_cmp ps qs = Lt /\ list_cmp qs (alter_last (fun cd => (cd.1, ordered_successor cd.2)) ps) = Lt <-> exists cd rest, qs = ps ++ cd :: rest.
Proof.
  revert qs. induction ps as [|[c d] ps IH]; [done|]. intros qs _. destruct ps as [|cd' ps].
  - clear IH. destruct qs as [|[c' d'] qs]; [split; [by intros []|by intros (? & ? & ?)]|]. cbn [alter_last list_cmp fst snd].
    change (ord_cmp (c, d) (c', d')) with (pair_cmp (c, d) (c', d')). change (ord_cmp (c', d') (c, ordered_successor d)) with (pair_cmp (c', d') (c, ordered_successor d)).
    unfold pair_cmp. cbn [fst snd]. rewrite (ord_cmp_opp c c'). split.
    + intros [H1 H2]. destruct (ord_cmp c c') eqn:Hc; cbn [CompOpp] in H2; [|done..]. apply ord_cmp_eq in Hc as <-.
      destruct (ord_cmp d d') eqn:Hd; [| |done].
      * apply ord_cmp_eq in Hd as <-. destruct qs as [|cd qs]; [done|]. by exists cd, qs.
      * exfalso. apply (ordered_successor_least d d') in Hd. unfold ord_le in Hd. rewrite ord_cmp_opp in Hd. destruct (ord_cmp d' (ordered_successor d)); [by destruct qs|by destruct Hd|done].
    + intros (cd & rest & [= -> -> ->]). rewrite !ord_cmp_refl. cbn [CompOpp]. split; [done|]. pose proof (ordered_successor_lt d) as Hd. unfold ord_lt in Hd. by rewrite Hd.
  - destruct qs as [|[c' d'] qs]; [split; [by intros []|by intros (? & ? & ?)]|].
    change (alter_last ?f ((c, d) :: cd' :: ps)) with ((c, d) :: alter_last f (cd' :: ps)). cbn [list_cmp].
    rewrite (ord_cmp_opp (c, d) (c', d')). destruct (ord_cmp (c, d) (c', d')) eqn:Hc; cbn [CompOpp].
    + apply ord_cmp_eq in Hc as [= <- <-]. change (match qs with [] => Gt | y :: m => _ end) with (list_cmp (cd' :: ps) qs). rewrite IH by done.
      split; intros (cd & rest & Hq); exists cd, rest; [by rewrite Hq|by injection Hq].
    + split; [by intros []|]. intros (cd & rest & [= <- <- _]). by rewrite ord_cmp_refl in Hc.
    + split; [by intros []|]. intros (cd & rest & [= <- <- _]). by rewrite ord_cmp_refl in Hc.
Qed.

Lemma descendants_range (p q : DocumentPath) : pairs p <> [] -> ord_lt p q /\ ord_lt q (descendants_upper_bound p) <-> descendant_of p q.
Proof.
  intros Hne. unfold descendant_of. rewrite <- (pairs_between (pairs p) (pairs q) Hne). unfold ord_lt. rewrite !path_cmp.
  cbn [descendants_upper_bound with_pairs project database pairs]. rewrite (ord_cmp_opp (project p) (project q)), (ord_cmp_opp (database p) (database q)).
  rewrite (eq_comm (project q)), (eq_comm (database q)), <- (ord_cmp_eq (project p)), <- (ord_cmp_eq (database p)).
  destruct (ord_cmp (project p) (project q)), (ord_cmp (database p) (database q)); cbn [CompOpp then_with]; intuition discriminate.
Qed.

(** Ranges of paths: the comparison of two paths by their resource names is the derived order of paths, and it is the
    order of a reference to the other path's name; between a path and its upper bound lie exactly the documents below it,
    at any depth; and the bound is no path that [parse] makes. *)
Theorem descendants_range_exact (p q : DocumentPath) : pairs p <> [] ->
  (ord_lt p q /\ ord_lt q (descendants_upper_bound p) <-> descendant_of p q) /\
  cmp_resource_name p q = ord_cmp p q /\ (path_ok q -> cmp_reference p (resource_name q) = ord_cmp p q) /\
  ~ relative_ok (descendants_upper_bound p).
Proof.
  intros Hne. split_and!.
  - by apply descendants_range.
  - apply cmp_resource_name_ord.
  - intros Hq. unfold cmp_reference. rewrite resource_name_split by done. apply cmp_resource_name_ord.
  - intros (_ & Hvalid & _). cbn [descendants_upper_bound with_pairs pairs] in Hvalid. revert Hvalid. induction (pairs p) as [|[c d] ps IH]; [done|].
    destruct ps as [|cd ps].
    + cbn. intros [[_ Hd] _]%Forall_cons. destruct (ordered_successor_invalid d) as [e He]. cbn in Hd. congruence.
    + change (alter_last ?f ((c, d) :: cd :: ps)) with ((c, d) :: alter_last f (cd :: ps)). intros [_ Hr]%Forall_cons. by apply IH.
Qed.

Example descendants_range_exact_witness :
  let q := with_pairs demo_path (pairs demo_path ++ [("notes", "n")]) in
  ord_lt demo_path q /\ ord_lt q (descendants_upper_bound demo_path).
Proof. apply descendants_range_exact; [discriminate|]. split; [reflexivity|]. split; [reflexivity|]. by eexists _, _. Defined.
