(* ===== verification/FsSize.v ===== *)
(** * Firestore storage sizes

    Models [crates/fireemu-core-firestore/src/size.rs]: the official size formulas in checked
    64-bit arithmetic.  [Err tt] is [SizeError::Overflow]. *)
From S2P Require Import Prelude Text Ids FsValue FsDocPath.

Definition INDEXED_VALUE_TRUNCATION_BYTES : Z := 1500.
Definition MAX_CONTRIBUTORS : nat := 10.

Abbreviation sized := (result Z unit).

Record SizeContributor := { c_name : text; c_bytes : Z }.

Record SizeBreakdown := { total : Z; name_bytes : Z; largest_contributors : list SizeContributor }.

Definition add (a b : Z) : sized := match checked u64 (a + b) with Some n => Ok n | None => Err tt end.

Definition byte_len (s : text) : Z := Z.of_nat (length s).

(** [u64::try_from(n)] *)
Definition as_u64 (n : Z) : sized := match checked u64 n with Some n => Ok n | None => Err tt end.

Definition string_size (s : text) : sized := let* n := as_u64 (byte_len s) in add n 1.

Definition document_name_size (p : DocumentPath) : sized :=
  r_fold (fun total '(c, d) => let* cs := string_size (bytes_of c) in let* total := add total cs in
                               let* ds := string_size (bytes_of d) in add total ds) (pairs p) 16.

(** What follows [documents/] in a resource name, or all of another text. *)
Definition reference_relative (resource_name : text) : text :=
  default resource_name (rest ← strip_text (chars "projects/") resource_name; '(_, rest) ← split_once_at (chars "/databases/") rest;
                         '(_, rest) ← split_once_at (chars "/documents/") rest; Some rest).

Definition reference_size (resource_name : text) : sized :=
  r_fold (fun total segment => let* n := string_size segment in add total n) (split_on (ch "/") (reference_relative resource_name)) 16.

(** [total = add(total, size?)?] over the sizes of the children. *)
Definition sum_sizes (sizes : list sized) : sized := r_fold (fun total size => let* n := size in add total n) sizes 0.
Definition sum_entries (sizes : list (text * sized)) : sized :=
  r_fold (fun total '(k, size) => let* ks := string_size k in let* total := add total ks in let* n := size in add total n) sizes 0.

Fixpoint field_value_size (v : Value) : sized :=
  match v with
  | VNull | VBoolean _ => Ok 1
  | VInteger _ | VDouble _ | VTimestamp _ => Ok 8
  | VGeoPoint _ => Ok 16
  | VString s => string_size s
  | VBytes b => as_u64 (byte_len b)
  | VReference r => reference_size r
  | VArray items => sum_sizes (map field_value_size items)
  | VVector ds => let* n := as_u64 (Z.of_nat (length ds)) in as_u64 (n * 8)
  | VMap entries => sum_entries (btree_map_iter ((fun v => field_value_size v) <$> entries))
  end.

Definition fields_size (entries : gmap text Value) : sized := sum_entries (btree_map_iter (field_value_size <$> entries)).

Definition document_size_bytes (p : DocumentPath) (fields : gmap text Value) : sized :=
  let* n := document_name_size p in let* n := add n 32 in let* f := fields_size fields in add n f.

(** [contributors.partition_point(|c| c.bytes >= bytes)]: the list is sorted, descending. *)
Definition insertion_point (bytes : Z) (contributors : list SizeContributor) : nat :=
  from_option fst (length contributors) (list_find (fun c => c_bytes c < bytes) contributors).

Definition keep_largest (contributors : list SizeContributor) (c : SizeContributor) : list SizeContributor :=
  let pos := insertion_point (c_bytes c) contributors in
  if (pos <? MAX_CONTRIBUTORS)%nat then take MAX_CONTRIBUTORS (take pos contributors ++ c :: drop pos contributors) else contributors.

Definition document_size (p : DocumentPath) (fields : gmap text Value) : result SizeBreakdown unit :=
  let* name_bytes := document_name_size p in
  let* total := add name_bytes 32 in
  let* (total, contributors) :=
    r_fold (fun '(total, contributors) '(k, v) =>
              let* ks := string_size k in let* vs := field_value_size v in let* bytes := add ks vs in
              let* total := add total bytes in
              Ok (total, keep_largest contributors {| c_name := k; c_bytes := bytes |})) (btree_map_iter fields) (total, []) in
  Ok {| total := total; name_bytes := name_bytes; largest_contributors := contributors |}.

Inductive IndexEntryScope := SingleFieldCollection | SingleFieldCollectionGroup | CompositeCollection | CompositeCollectionGroup.

Definition is_reference (v : Value) : bool := match v with VReference _ => true | _ => false end.

Definition indexed_value_size (v : Value) : sized :=
  let* size := field_value_size v in
  Ok (if is_reference v then size else size `min` INDEXED_VALUE_TRUNCATION_BYTES).

Definition index_entry_size (scope : IndexEntryScope) (document : DocumentPath) (parent : option DocumentPath) (fields : list (text * Value)) : sized :=
  let* name := document_name_size document in
  let* parent_bytes := match parent with Some p => document_name_size p | None => Ok 0 end in
  let values total := r_fold (fun total '(_, value) => let* n := indexed_value_size value in add total n) fields total in
  match scope with
  | SingleFieldCollection =>
      match fields with
      | [] => Err tt
      | (name', value) :: _ => let* t := add name parent_bytes in let* ns := string_size name' in let* t := add t ns in
                               let* vs := indexed_value_size value in let* t := add t vs in add t 32
      end
  | SingleFieldCollectionGroup =>
      match fields with
      | [] => Err tt
      | (name', value) :: _ => let* ns := string_size name' in let* t := add name ns in
                               let* vs := indexed_value_size value in let* t := add t vs in add t 48
      end
  | CompositeCollection => let* t := add name parent_bytes in let* t := values t in add t 32
  | CompositeCollectionGroup => let* t := values name in add t 32
  end.

Example size_ex :
  document_size_bytes demo_path {[chars "a" := VArray [VNull; VString (chars "xy")]; chars "b" := VMap {[chars "k" := VInteger 3]}]} =
    Ok (16 + 6 + 5 + 6 + 3 + 32 + 2 + 4 + 2 + 2 + 8) /\
  field_value_size (VReference (chars "projects/documents/databases/d/documents/a/b")) = Ok 20.
Proof. vm_compute. split; reflexivity. Qed.

(** ** The formulas, without a bound *)

(** [Ok] of a size that fits. *)
Definition capped (n : Z) : sized := if n <=? int_max u64 then Ok n else Err tt.

Definition z_sum {A} (f : A -> Z) (l : list A) : Z := foldr (fun x n => f x + n) 0 l.

Definition string_bytes (s : text) : Z := byte_len s + 1.

Definition path_bytes (p : DocumentPath) : Z := 16 + z_sum (fun cd => string_bytes (bytes_of cd.1) + string_bytes (bytes_of cd.2)) (pairs p).

Fixpoint value_bytes (v : Value) : Z :=
  match v with
  | VNull | VBoolean _ => 1
  | VInteger _ | VDouble _ | VTimestamp _ => 8
  | VGeoPoint _ => 16
  | VString s => string_bytes s
  | VBytes b => byte_len b
  | VReference r => 16 + z_sum string_bytes (split_on (ch "/") (reference_relative r))
  | VArray items => foldr (fun i n => value_bytes i + n) 0 items
  | VVector ds => Z.of_nat (length ds) * 8
  | VMap m => z_sum (fun p => string_bytes p.1 + p.2) (btree_map_iter ((fun v => value_bytes v) <$> m))
  end.

Definition entry_bytes (p : text * Value) : Z := string_bytes p.1 + value_bytes p.2.
Definition document_bytes (p : DocumentPath) (fields : gmap text Value) : Z := path_bytes p + 32 + z_sum entry_bytes (btree_map_iter fields).

Lemma z_sum_nonneg {A} (f : A -> Z) l : (forall x, 0 <= f x) -> 0 <= z_sum f l.
Proof. intros Hf. unfold z_sum. induction l as [|x l IH]; cbn; [done|]. specialize (Hf x). lia. Qed.

Lemma z_sum_map {A B} (f : B -> Z) (g : A -> B) l : z_sum f (map g l) = z_sum (fun x => f (g x)) l.
Proof. unfold z_sum. induction l as [|x l IH]; [done|]. cbn. by rewrite IH. Qed.

Lemma string_bytes_nonneg s : 0 <= string_bytes s.
Proof. unfold string_bytes, byte_len. lia. Qed.

Lemma value_bytes_nonneg v : 0 <= value_bytes v.
Proof.
  induction v as [v Hv|items IH|m IH] using value_induction; [| |].
  - destruct v; try done; cbn [value_bytes]; try (unfold string_bytes, byte_len; lia). pose proof (z_sum_nonneg string_bytes (split_on (ch "/") (reference_relative name)) string_bytes_nonneg). lia.
  - cbn [value_bytes]. induction items as [|v items IHl]; [done|]. cbn. pose proof (IH v ltac:(left)). specialize (IHl ltac:(intros w Hw; apply IH; by right)). lia.
  - cbn [value_bytes]. rewrite btree_map_iter_fmap, z_sum_map. assert (H : Forall (fun p => 0 <= string_bytes p.1 + value_bytes p.2) (btree_map_iter m)).
    { apply Forall_forall. intros [k v] Hkv%elem_of_btree_map_iter. pose proof (string_bytes_nonneg k). pose proof (IH k v Hkv). cbn. lia. }
    unfold z_sum. induction H; cbn in *; lia.
Qed.

Lemma add_capped a b : 0 <= a -> 0 <= b -> add a b = capped (a + b).
Proof. intros Ha Hb. unfold add, capped, checked, fits. cbn [int_min u64]. destruct (Z.leb_spec (a + b) (int_max u64)), (decide _); done || lia. Qed.

Lemma capped_le n r : capped n = Ok r -> r = n /\ n <= int_max u64.
Proof. unfold capped. destruct (Z.leb_spec n (int_max u64)); [by intros [= <-]|done]. Qed.

(** A size that is computed on the way to a larger one. *)
Lemma capped_bind n m f : 0 <= n <= m -> (n <= int_max u64 -> f n = capped m) -> r_bind (capped n) f = capped m.
Proof. intros Hn Hf. unfold capped at 1. destruct (Z.leb_spec n (int_max u64)); [by apply Hf|]. unfold capped. by rewrite (proj2 (Z.leb_gt _ _)) by lia. Qed.

Lemma as_u64_capped n : 0 <= n -> as_u64 n = capped n.
Proof. intros Hn. unfold as_u64, capped, checked, fits. cbn [int_min u64]. destruct (Z.leb_spec n (int_max u64)), (decide _); done || lia. Qed.

Lemma string_size_capped s : string_size s = capped (string_bytes s).
Proof. unfold string_size, string_bytes, byte_len. rewrite as_u64_capped by lia. apply capped_bind; [lia|]. intros _. apply add_capped; lia. Qed.

Lemma capped_small n : n <= int_max u64 -> capped n = Ok n.
Proof. intros Hn. unfold capped. by rewrite (proj2 (Z.leb_le _ _)). Qed.

(** The sizes of the parts of a sum are not negative, and none of its steps passes the bound unless the sum does. *)
Ltac nonneg := repeat match goal with
  | |- context [string_bytes ?s] => lazymatch goal with _ : 0 <= string_bytes s |- _ => fail | _ => pose proof (string_bytes_nonneg s) end
  | |- context [value_bytes ?v] => lazymatch goal with _ : 0 <= value_bytes v |- _ => fail | _ => pose proof (value_bytes_nonneg v) end
  end.
Ltac capped_sum := nonneg; repeat first [rewrite add_capped by lia | rewrite string_size_capped | apply capped_bind; [lia|intros _; cbv beta]]; f_equal; lia.

Lemma r_fold_capped {A} (f : Z -> A -> sized) (g : A -> Z) l : Forall (fun x => 0 <= g x /\ forall acc, 0 <= acc <= int_max u64 -> f acc x = capped (acc + g x)) l ->
  forall acc, 0 <= acc <= int_max u64 -> r_fold f l acc = capped (acc + z_sum g l).
Proof.
  induction 1 as [|x l [Hg Hf] Hl IH]; intros acc Hacc; cbn [r_fold z_sum foldr]; [by rewrite Z.add_0_r, capped_small by lia|].
  assert (0 <= z_sum g l) by (clear - Hl; unfold z_sum; induction Hl as [|y l [Hy _] _ IH]; cbn; lia). fold (z_sum g l).
  rewrite Hf by done. apply capped_bind; [lia|]. intros Hle. rewrite IH by lia. f_equal. lia.
Qed.

Lemma document_name_size_capped p : document_name_size p = capped (path_bytes p).
Proof.
  unfold document_name_size, path_bytes. apply r_fold_capped; [|by vm_compute]. apply Forall_true. intros [c d]. cbn [fst snd].
  split; [nonneg; lia|]. intros acc Hacc. capped_sum.
Qed.

Lemma z_sum_snd {A B} (f : A -> B) (g : B -> Z) (l : list (text * A)) : z_sum (fun p => string_bytes p.1 + g p.2) (map (fun p => (p.1, f p.2)) l) = z_sum (fun p => string_bytes p.1 + g (f p.2)) l.
Proof. apply z_sum_map. Qed.

Lemma sum_entries_capped {A} (size : A -> sized) (bytes : A -> Z) (l : list (text * A)) : Forall (fun p => 0 <= bytes p.2 /\ size p.2 = capped (bytes p.2)) l ->
  sum_entries (map (fun p => (p.1, size p.2)) l) = capped (z_sum (fun p => string_bytes p.1 + bytes p.2) l).
Proof.
  intros Hl. unfold sum_entries. assert (Hm : forall (f : Z -> text * sized -> sized) acc, r_fold f (map (fun p => (p.1, size p.2)) l) acc = r_fold (fun acc p => f acc (p.1, size p.2)) l acc).
  { clear. intros f. induction l as [|p l IH]; intros acc; [done|]. cbn. by destruct (f acc _); cbn. }
  rewrite Hm, <- (Z.add_0_l (z_sum _ _)). apply r_fold_capped; [|by vm_compute]. eapply Forall_impl; [exact Hl|]. intros [k v] [Hb Hs]. cbn [fst snd] in *.
  split; [nonneg; lia|]. intros acc Hacc. rewrite Hs. capped_sum.
Qed.

Lemma sum_sizes_capped (l : list Value) : Forall (fun v => field_value_size v = capped (value_bytes v)) l ->
  sum_sizes (map field_value_size l) = capped (z_sum value_bytes l).
Proof.
  intros Hl. unfold sum_sizes. assert (Hm : forall (f : Z -> sized -> sized) acc, r_fold f (map field_value_size l) acc = r_fold (fun acc v => f acc (field_value_size v)) l acc).
  { clear. intros f. induction l as [|v l IH]; intros acc; [done|]. cbn. by destruct (f acc _); cbn. }
  rewrite Hm, <- (Z.add_0_l (z_sum _ _)). apply r_fold_capped; [|by vm_compute]. eapply Forall_impl; [exact Hl|]. cbv beta. intros v Hv. 
  split; [nonneg; lia|]. intros acc Hacc. rewrite Hv. capped_sum.
Qed.

Lemma field_value_size_capped v : field_value_size v = capped (value_bytes v).
Proof.
  induction v as [v Hv|items IH|m IH] using value_induction.
  - destruct v; try discriminate Hv; cbn [field_value_size value_bytes]; lazymatch goal with |- Ok _ = _ => reflexivity | _ => idtac end.
    + apply string_size_capped.
    + apply as_u64_capped. unfold byte_len. lia.
    + unfold reference_size. apply r_fold_capped; [|by vm_compute]. apply Forall_true. intros s. split; [nonneg; lia|]. intros acc Hacc. capped_sum.
    + rewrite as_u64_capped by lia. apply capped_bind; [lia|]. intros _. apply as_u64_capped. lia.
  - apply sum_sizes_capped, Forall_forall, IH.
  - cbn [field_value_size value_bytes]. rewrite !btree_map_iter_fmap, z_sum_map. cbn [fst snd].
    apply sum_entries_capped, Forall_forall. intros [k v] Hk%elem_of_btree_map_iter. split; [apply value_bytes_nonneg|by apply (IH k)].
Qed.

Lemma fields_size_capped fields : fields_size fields = capped (z_sum entry_bytes (btree_map_iter fields)).
Proof.
  unfold fields_size. rewrite btree_map_iter_fmap. apply sum_entries_capped, Forall_true. intros [k v]. split; [apply value_bytes_nonneg|apply field_value_size_capped].
Qed.

(** ** The largest contributors *)

(** The place of a contributor among all of them, descending, after those of its size. *)
Definition insert_desc (l : list SizeContributor) (c : SizeContributor) : list SizeContributor :=
  let pos := insertion_point (c_bytes c) l in take pos l ++ c :: drop pos l.

Definition contribution (p : text * Value) : SizeContributor := {| c_name := p.1; c_bytes := entry_bytes p |}.

Definition ranked (l : list SizeContributor) : list SizeContributor := foldl insert_desc [] l.

Lemma insertion_point_le b l : (insertion_point b l <= length l)%nat.
Proof.
  unfold insertion_point. destruct (list_find _ l) as [[i c]|] eqn:Hf; cbn; [|lia]. apply list_find_Some in Hf as (Hi & _). apply lookup_lt_Some in Hi. lia.
Qed.

Lemma insertion_point_cons b c l : insertion_point b (c :: l) = if decide (c_bytes c < b) then 0%nat else S (insertion_point b l).
Proof. unfold insertion_point. cbn [list_find]. destruct (decide (c_bytes c < b)); [done|]. by destruct (list_find _ l) as [[]|]. Qed.

Lemma insertion_point_take b l n : insertion_point b (take n l) = (insertion_point b l `min` n)%nat.
Proof.
  revert n. induction l as [|c l IH]; intros [|n]; [done|done|cbn [take]; unfold insertion_point at 1; cbn; lia|]. cbn [take]. rewrite !insertion_point_cons. destruct (decide _); [done|]. by rewrite IH.
Qed.

Lemma keep_largest_take l c : keep_largest (take MAX_CONTRIBUTORS l) c = take MAX_CONTRIBUTORS (insert_desc l c).
Proof.
  unfold keep_largest, insert_desc. rewrite insertion_point_take. set (i := insertion_point (c_bytes c) l). assert (Hi : (i <= length l)%nat) by apply insertion_point_le.
  destruct (Nat.ltb_spec (i `min` MAX_CONTRIBUTORS) MAX_CONTRIBUTORS) as [Hlt|Hge].
  - replace (i `min` MAX_CONTRIBUTORS)%nat with i by lia. assert (Ht : length (take i l) = i) by (rewrite length_take; lia).
    rewrite take_take, Nat.min_l, !take_app, Ht by lia. f_equal. destruct (MAX_CONTRIBUTORS - i)%nat as [|n] eqn:Hn; [done|]. cbn [take]. f_equal.
    replace MAX_CONTRIBUTORS with (i + S n)%nat by lia. rewrite <- take_drop_commute, take_take. f_equal. lia.
  - rewrite take_app_le by (rewrite length_take; lia). rewrite take_take. f_equal. lia.
Qed.

Definition descending (l : list SizeContributor) : Prop := StronglySorted (fun a b => c_bytes b <= c_bytes a) l.

Lemma insert_desc_sorted l c : descending l -> descending (insert_desc l c).
Proof.
  unfold insert_desc. induction 1 as [|x l Hl IH Hx]; [by repeat constructor|]. rewrite insertion_point_cons. destruct (decide (c_bytes x < c_bytes c)).
  - cbn [take drop app]. constructor; [by constructor|]. constructor; [lia|]. eapply Forall_impl; [exact Hx|]. cbn. lia.
  - cbn [take drop app]. constructor; [done|]. rewrite <- (take_drop (insertion_point (c_bytes c) l) l) in Hx at 1. apply Forall_app in Hx as [H1 H2].
    apply Forall_app. split; [done|]. constructor; [lia|done].
Qed.

Lemma insert_desc_perm l c : insert_desc l c ≡ₚ c :: l.
Proof. unfold insert_desc. rewrite <- Permutation_middle. by rewrite take_drop. Qed.

Lemma ranked_spec l : descending (ranked l) /\ ranked l ≡ₚ l.
Proof.
  unfold ranked. assert (H : forall acc, descending acc -> descending (foldl insert_desc acc l) /\ (foldl insert_desc acc l ≡ₚ acc ++ l)).
  { induction l as [|c l IH]; intros acc Hacc; [by rewrite app_nil_r|]. cbn [foldl]. destruct (IH (insert_desc acc c) (insert_desc_sorted _ _ Hacc)) as [H1 H2].
    split; [done|]. rewrite H2, insert_desc_perm. apply Permutation_middle. }
  apply (H []). constructor.
Qed.

Lemma entries_nonneg l : 0 <= z_sum entry_bytes l.
Proof. apply z_sum_nonneg. intros x. unfold entry_bytes. nonneg. lia. Qed.

Lemma path_bytes_nonneg p : 0 <= path_bytes p.
Proof.
  unfold path_bytes. assert (H : 0 <= z_sum (fun cd => string_bytes (bytes_of cd.1) + string_bytes (bytes_of cd.2)) (pairs p)) by (apply z_sum_nonneg; intros x; cbv beta; nonneg; lia).
  lia.
Qed.

Lemma document_loop l : forall n acc, 0 <= n <= int_max u64 ->
  r_fold (fun '(total, contributors) '(k, v) =>
              let* ks := string_size k in let* vs := field_value_size v in let* bytes := add ks vs in
              let* total := add total bytes in
              Ok (total, keep_largest contributors {| c_name := k; c_bytes := bytes |})) l (n, take MAX_CONTRIBUTORS acc) =
  if n + z_sum entry_bytes l <=? int_max u64 then Ok (n + z_sum entry_bytes l, take MAX_CONTRIBUTORS (foldl insert_desc acc (map contribution l))) else Err tt.
Proof.
  induction l as [|[k v] l IH]; intros n acc Hn; cbn [r_fold z_sum foldr map foldl]; [by rewrite Z.add_0_r, (proj2 (Z.leb_le _ _)) by lia|].
  pose proof (entries_nonneg l) as Hs. fold (z_sum entry_bytes l).
  rewrite string_size_capped, field_value_size_capped. unfold entry_bytes at 1 3. cbn [fst snd]. nonneg. unfold capped.
  assert (Hover : n + string_bytes k + value_bytes v > int_max u64 -> (n + (string_bytes k + value_bytes v + z_sum entry_bytes l) <=? int_max u64) = false) by lia.
  destruct (Z.leb_spec (string_bytes k) (int_max u64)); cbn [r_bind]; [|by rewrite Hover by lia].
  destruct (Z.leb_spec (value_bytes v) (int_max u64)); cbn [r_bind]; [|by rewrite Hover by lia].
  rewrite add_capped by done. unfold capped. destruct (Z.leb_spec (string_bytes k + value_bytes v) (int_max u64)); cbn [r_bind]; [|by rewrite Hover by lia].
  rewrite add_capped by lia. unfold capped. destruct (Z.leb_spec (n + (string_bytes k + value_bytes v)) (int_max u64)); cbn [r_bind]; [|by rewrite Hover by lia].
  rewrite keep_largest_take, IH by lia. by rewrite !Z.add_assoc.
Qed.

Lemma relative_bytes p : pairs p <> [] -> path_bytes p = Z.of_nat (length (relative p)) + 17.
Proof.
  unfold path_bytes, relative, relative_segments, string_bytes, byte_len. generalize (pairs p) as ps. clear p. 
  assert (H : forall ss : list text, ss <> [] -> Z.of_nat (length (join (ch "/") ss)) + 1 = z_sum (fun s => Z.of_nat (length s) + 1) ss).
  { induction ss as [|s ss IH]; [done|]. intros _. destruct ss as [|s' ss]; [cbn; lia|]. rewrite join_cons by done. rewrite length_app. cbn [length z_sum foldr].
    specialize (IH ltac:(done)). cbn [z_sum foldr] in IH. lia. }
  intros ps Hne. specialize (H (flat_map (fun cd => [bytes_of cd.1; bytes_of cd.2]) ps) ltac:(by destruct ps)).
  assert (Hz : z_sum (fun s : text => Z.of_nat (length s) + 1) (flat_map (fun cd => [bytes_of cd.1; bytes_of cd.2]) ps) =
    z_sum (fun cd => (Z.of_nat (length (bytes_of cd.1)) + 1) + (Z.of_nat (length (bytes_of cd.2)) + 1)) ps).
  { clear. unfold z_sum. induction ps as [|[c d] ps IH]; [done|]. cbn in *. lia. }
  lia.
Qed.

Lemma document_size_bytes_capped (p : DocumentPath) (fields : gmap text Value) : document_size_bytes p fields = capped (document_bytes p fields).
Proof.
  pose proof (path_bytes_nonneg p) as Hp. pose proof (entries_nonneg (btree_map_iter fields)) as Hf.
  unfold document_size_bytes, document_bytes. rewrite document_name_size_capped, fields_size_capped. apply capped_bind; [lia|]. intros _. rewrite add_capped by lia.
  apply capped_bind; [lia|]. intros _. rewrite (Z.add_comm _ (z_sum _ _)). apply capped_bind; [lia|]. intros _. rewrite add_capped by lia. f_equal. lia.
Qed.

(** C36. The charge of a document is the official formula: both calculators compute the unbounded sum of the name, the fields
    and 32 bytes whenever it fits in 64 bits and report an overflow otherwise, never a wrapped number; the breakdown lists
    the first ten of all the fields ranked by size; and the name is charged what the path limit charges: reading the
    relative path of valid pairs succeeds exactly up to the limit on that charge, which is the length of the path and 17,
    and otherwise reports that charge. *)
Theorem document_size_exact (p : DocumentPath) (fields : gmap text Value) :
  document_size_bytes p fields = capped (document_bytes p fields) /\
  document_size p fields =
    (let* total := capped (document_bytes p fields) in
     Ok {| total := total; name_bytes := path_bytes p;
           largest_contributors := take MAX_CONTRIBUTORS (ranked (map contribution (btree_map_iter fields))) |}) /\
  descending (ranked (map contribution (btree_map_iter fields))) /\
  ranked (map contribution (btree_map_iter fields)) ≡ₚ map contribution (btree_map_iter fields) /\
  (pairs p <> [] -> Forall valid_pair (pairs p) -> Z.of_nat (length (pairs p)) <= MAX_SUBCOLLECTION_DEPTH ->
     path_bytes p = Z.of_nat (length (relative p)) + 17 /\
     parse (project p) (database p) (relative p) =
       if MAX_DOCUMENT_NAME_BYTES <? path_bytes p then Err (NameTooLong (Z.min (path_bytes p) (int_max u64)) MAX_DOCUMENT_NAME_BYTES) else Ok p).
Proof.
  pose proof (path_bytes_nonneg p) as Hp. pose proof (entries_nonneg (btree_map_iter fields)) as Hf.
  split_and!; [| |apply ranked_spec|apply ranked_spec|].
  - apply document_size_bytes_capped.
  - unfold document_size, document_bytes. rewrite document_name_size_capped. unfold capped at 1.
    destruct (Z.leb_spec (path_bytes p) (int_max u64)); cbn [r_bind]; [|unfold capped; by rewrite (proj2 (Z.leb_gt _ _)) by lia].
    rewrite add_capped by lia. unfold capped at 1. destruct (Z.leb_spec (path_bytes p + 32) (int_max u64)); cbn [r_bind]; [|unfold capped; by rewrite (proj2 (Z.leb_gt _ _)) by lia].
    change (@nil SizeContributor) with (take MAX_CONTRIBUTORS (@nil SizeContributor)) at 1. rewrite document_loop by lia. unfold capped. by destruct (_ <=? _).
  - intros Hne Hvalid Hdepth. split; [by apply relative_bytes|]. rewrite parse_relative, <- relative_bytes by done. cbv zeta.
    assert (Hs : saturating u64 (path_bytes p) = Z.min (path_bytes p) (int_max u64)) by (unfold saturating; int_lia). rewrite Hs.
    assert (Hl : (MAX_DOCUMENT_NAME_BYTES <? Z.min (path_bytes p) (int_max u64)) = (MAX_DOCUMENT_NAME_BYTES <? path_bytes p)); [|by rewrite Hl].
    unfold MAX_DOCUMENT_NAME_BYTES. apply eq_true_iff_eq. rewrite !Z.ltb_lt. int_lia.
Qed.

Example document_size_exact_witness : path_bytes demo_path = Z.of_nat (length (relative demo_path)) + 17 /\ parse (project demo_path) (database demo_path) (relative demo_path) = Ok demo_path.
Proof.
  destruct (document_size_exact demo_path ∅) as (_ & _ & _ & _ & H).
  assert (Hvalid : Forall valid_pair (pairs demo_path)) by (repeat constructor; vm_compute; reflexivity).
  destruct (H ltac:(discriminate) Hvalid ltac:(vm_compute; discriminate)) as [H1 H2]. split; [exact H1|]. rewrite H2. vm_compute. reflexivity.
Defined.
