(* ===== verification/FsDocument.v ===== *)
(** * Firestore documents and writes

    Models the documents and writes of [crates/fireemu-core-firestore/src/store.rs]: fields by
    path, field transforms, preconditions and the effect of one write on one document.  An error
    is its variant; the texts of the messages are not modelled.  A field path has at least one
    segment, and the functions index its last one. *)
From Stdlib Require Import SpecFloat.
From S2P Require Import Prelude Time Text DbNumber Lex FsValue FsFieldPath FsDocPath.
#[local] Set Warnings "-register-all".

Abbreviation fields_map := (gmap text Value).
Abbreviation CommitVersion := Z.

Record Document := { path : DocumentPath; fields : fields_map; create_time : LogicalInstant; update_time : LogicalInstant; version : CommitVersion }.

Inductive Precondition := Exists (expected : bool) | UpdateTime (t : LogicalInstant).

Inductive TransformKind :=
| ServerTimestamp
| Increment (delta : Value)
| Maximum (operand : Value)
| Minimum (operand : Value)
| AppendMissingElements (items : list Value)
| RemoveAllFromArray (items : list Value).

Record FieldTransform := { field : FieldPath; t_kind : TransformKind }.

Inductive WriteOp :=
| WSet (path : DocumentPath) (fields : fields_map) (update_mask : option (list FieldPath))
| WDelete (path : DocumentPath)
| WVerify (path : DocumentPath).

Definition op_path (op : WriteOp) : DocumentPath := match op with WSet p _ _ | WDelete p | WVerify p => p end.

Record Write := { op : WriteOp; precondition : option Precondition; transforms : list FieldTransform }.

Record WriteResult := { w_update_time : option LogicalInstant; transform_results : list Value }.

Inductive FirestoreError :=
| InvalidArgument
| FailedPrecondition
| AlreadyExists (p : DocumentPath)
| NotFound (p : DocumentPath)
| Aborted
| ResourceExhausted
| HistoryCapacity
| EventAdmission
| Unimplemented.

(** ** Fields by path *)

Fixpoint walk (v : Value) (ss : list text) : option Value :=
  match ss with
  | [] => Some v
  | s :: ss => match v with VMap m => v ← m !! s; walk v ss | _ => None end
  end.

Definition get_segments (fs : fields_map) (ss : list text) : option Value :=
  match ss with [] => None | s :: ss => v ← fs !! s; walk v ss end.

Definition get_field (fs : fields_map) (p : FieldPath) : option Value := get_segments fs (segments p).

(** [map.entry(s).or_insert_with(...)], replaced when it is no map. *)
Definition entry_map (fs : fields_map) (s : text) : fields_map := match fs !! s with Some (VMap m) => m | _ => ∅ end.

Fixpoint set_segments (fs : fields_map) (ss : list text) (v : Value) : fields_map :=
  match ss with
  | [] => fs
  | [s] => <[s := v]> fs
  | s :: ss => <[s := VMap (set_segments (entry_map fs s) ss v)]> fs
  end.

Definition set_field (fs : fields_map) (p : FieldPath) (v : Value) : fields_map := set_segments fs (segments p) v.

Fixpoint delete_segments (fs : fields_map) (ss : list text) : fields_map :=
  match ss with
  | [] => fs
  | [s] => delete s fs
  | s :: ss => match fs !! s with Some (VMap m) => <[s := VMap (delete_segments m ss)]> fs | _ => fs end
  end.

Definition delete_field (fs : fields_map) (p : FieldPath) : fields_map := delete_segments fs (segments p).

(** ** Transforms *)

Definition is_number (v : Value) : bool := match v with VInteger _ | VDouble _ => true | _ => false end.

Definition f64_add (a b : spec_float) : spec_float := SFadd PREC EMAX a b.

Definition add_numbers (a b : Value) : Value :=
  match a, b with
  | VInteger x, VInteger y => VInteger (saturating i64 (x + y))
  | VInteger x, VDouble y | VDouble y, VInteger x => VDouble (f64_add (f64_of_i64 x) y)
  | VDouble x, VDouble y => VDouble (f64_add x y)
  | _, other => other
  end.

Definition add_aggregated (a b : Value) : Value :=
  match a, b with
  | VInteger x, VInteger y =>
      match checked i64 (x + y) with Some n => VInteger n | None => VDouble (f64_add (f64_of_i64 x) (f64_of_i64 y)) end
  | _, _ => add_numbers a b
  end.

Definition server_timestamp (now : LogicalInstant) : result Value FirestoreError :=
  let micros := now / 1000 in
  let secs := micros / 1000000 in
  if negb (bool_decide (fits i64 secs)) then Err InvalidArgument
  else match timestamp_new secs (micros mod 1000000 * 1000) with Ok t => Ok (VTimestamp t) | Err _ => Err InvalidArgument end.

Definition is_nan_value (v : Value) : bool := match v with VDouble d => is_nan d | _ => false end.

Definition extremum (want_max : bool) (operand : Value) (current : option Value) : Value :=
  match current with
  | Some c =>
      if is_nan_value c then c
      else if is_number c then
        if is_nan_value operand then operand
        else match canonical_cmp c operand, want_max with Lt, true | Gt, false => operand | _, _ => c end
      else operand
  | None => operand
  end.

Definition array_of (current : option Value) : list Value := match current with Some (VArray a) => a | _ => [] end.

Definition same_value (a b : Value) : bool := bool_decide (canonical_cmp a b = Eq).

Definition append_item (arr : list Value) (item : Value) : list Value :=
  let item := normalize_for_storage item in
  if existsb (fun x => same_value x item) arr then arr else arr ++ [item].

Definition append_missing (arr items : list Value) : list Value := fold_left append_item items arr.

Definition remove_all (arr items : list Value) : list Value :=
  let items := map normalize_for_storage items in
  filter (fun x => existsb (fun i => same_value i x) items = false) arr.

Definition produce (kind : TransformKind) (current : option Value) (now : LogicalInstant) : result Value FirestoreError :=
  match kind with
  | ServerTimestamp => server_timestamp now
  | Increment delta =>
      if negb (is_number delta) then Err InvalidArgument
      else Ok match current with Some c => if is_number c then add_numbers c delta else delta | None => delta end
  | Maximum operand => if negb (is_number operand) then Err InvalidArgument else Ok (extremum true operand current)
  | Minimum operand => if negb (is_number operand) then Err InvalidArgument else Ok (extremum false operand current)
  | AppendMissingElements items => Ok (VArray (append_missing (array_of current) items))
  | RemoveAllFromArray items => Ok (VArray (remove_all (array_of current) items))
  end.

Definition apply_transform (fs : fields_map) (t : FieldTransform) (now : LogicalInstant) : result (fields_map * Value) FirestoreError :=
  let* produced := produce (t_kind t) (get_field fs (field t)) now in
  let reported := match t_kind t with AppendMissingElements _ | RemoveAllFromArray _ => VNull | _ => produced end in
  Ok (set_field fs (field t) produced, reported).

(** ** Writes *)

Definition check_precondition (precondition : option Precondition) (current : option Document) (p : DocumentPath) : result unit FirestoreError :=
  match precondition, current with
  | Some (Exists true), None => Err (NotFound p)
  | Some (Exists false), Some _ => Err (AlreadyExists p)
  | None, _ | Some (Exists _), _ => Ok tt
  | Some (UpdateTime t), Some doc => if update_time doc =? t then Ok tt else Err FailedPrecondition
  | Some (UpdateTime _), None => Err FailedPrecondition
  end.

(** One path of the update mask. *)
Definition masked (new : fields_map) (base : fields_map) (p : FieldPath) : fields_map :=
  match get_field new p with Some v => set_field base p v | None => delete_field base p end.

Definition next_fields (new : fields_map) (update_mask : option (list FieldPath)) (current : option Document) : fields_map :=
  match update_mask with
  | None => new
  | Some mask => fold_left (masked new) mask (from_option fields ∅ current)
  end.

Definition apply_transforms (ts : list FieldTransform) (fs : fields_map) (now : LogicalInstant) : result (fields_map * list Value) FirestoreError :=
  r_fold (fun '(fs, results) t => let* (fs, produced) := apply_transform fs t now in Ok (fs, results ++ [produced])) ts (fs, []).

Definition unchanged_result : WriteResult := {| w_update_time := None; transform_results := [] |}.

Definition apply_write (w : Write) (current : option Document) (now : LogicalInstant) (version : CommitVersion)
    : result (option Document * WriteResult) FirestoreError :=
  match op w with
  | WVerify _ => if bool_decide (transforms w = []) then Ok (current, unchanged_result) else Err InvalidArgument
  | WDelete _ => if bool_decide (transforms w = []) then Ok (None, unchanged_result) else Err InvalidArgument
  | WSet p new update_mask =>
      let create_time := from_option create_time now current in
      let* (fs, results) := apply_transforms (transforms w) (normalize_fields_for_storage (next_fields new update_mask current)) now in
      Ok (Some {| path := p; fields := normalize_fields_for_storage fs; create_time := create_time; update_time := now; version := version |},
          {| w_update_time := Some now; transform_results := results |})
  end.

(** ** Fields by path behave as a lens *)

(** Neither path passes through the other. *)
Definition apart (p q : list text) : Prop := ~ p `prefix_of` q /\ ~ q `prefix_of` p.

Lemma apart_cons s p q : apart (s :: p) (s :: q) -> apart p q.
Proof. intros [H1 H2]. split; intros H; [apply H1|apply H2]; by apply prefix_cons. Qed.

Lemma apart_nonempty p q : apart p q -> p <> [] /\ q <> [].
Proof. intros [H1 H2]. split; intros ->; [apply H1|apply H2]; apply prefix_nil. Qed.

Lemma walk_map m ss : ss <> [] -> walk (VMap m) ss = get_segments m ss.
Proof. by destruct ss. Qed.

Lemma walk_entry fs s ss : ss <> [] -> get_segments fs (s :: ss) = get_segments (entry_map fs s) ss.
Proof.
  intros Hne. unfold entry_map. cbn. destruct (fs !! s) as [[| | | | | | | | | | |m]|]; cbn; try (destruct ss; [done|]; done).
Qed.

Lemma set_cons fs s ss v : ss <> [] -> set_segments fs (s :: ss) v = <[s := VMap (set_segments (entry_map fs s) ss v)]> fs.
Proof. by destruct ss. Qed.

Lemma delete_cons fs s ss : ss <> [] ->
  delete_segments fs (s :: ss) = match fs !! s with Some (VMap m) => <[s := VMap (delete_segments m ss)]> fs | _ => fs end.
Proof. by destruct ss. Qed.

Lemma get_set ss rest v : ss <> [] -> forall fs, get_segments (set_segments fs ss v) (ss ++ rest) = walk v rest.
Proof.
  induction ss as [|s ss IH]; [done|]. intros _ fs. destruct ss as [|s' ss]; [cbn; by rewrite lookup_insert_eq|].
  rewrite set_cons by done. cbn [app get_segments]. rewrite lookup_insert_eq. cbn [mbind option_bind]. rewrite walk_map by done. by apply IH.
Qed.

Lemma get_set_apart p : forall q v fs, apart p q -> get_segments (set_segments fs p v) q = get_segments fs q.
Proof.
  induction p as [|s p IH]; intros q v fs Hpq; [by destruct (proj1 (apart_nonempty _ _ Hpq))|].
  destruct q as [|t q]; [by destruct (proj2 (apart_nonempty _ _ Hpq))|]. destruct (decide (s = t)) as [<-|Hne].
  - apply apart_cons in Hpq as Hsub. destruct (apart_nonempty _ _ Hsub) as [Hp Hq]. rewrite set_cons, (walk_entry fs) by done.
    cbn [get_segments]. rewrite lookup_insert_eq. cbn [mbind option_bind]. rewrite walk_map by done. by apply IH.
  - destruct (set_segments fs (s :: p) v !! t) eqn:Ht; cbn [get_segments]; rewrite Ht; destruct p; cbn in Ht; rewrite lookup_insert_ne in Ht by done; by rewrite Ht.
Qed.

Lemma get_delete ss rest : ss <> [] -> forall fs, get_segments (delete_segments fs ss) (ss ++ rest) = None.
Proof.
  induction ss as [|s ss IH]; [done|]. intros _ fs. destruct ss as [|s' ss]; [cbn; by rewrite lookup_delete_eq|].
  rewrite delete_cons by done. cbn [app]. destruct (fs !! s) as [[| | | | | | | | | | |m]|] eqn:Hs; cbn [get_segments]; rewrite ?Hs; try done.
  rewrite lookup_insert_eq. cbn [mbind option_bind]. rewrite walk_map by done. by apply IH.
Qed.

Lemma get_delete_apart p : forall q fs, apart p q -> get_segments (delete_segments fs p) q = get_segments fs q.
Proof.
  induction p as [|s p IH]; intros q fs Hpq; [by destruct (proj1 (apart_nonempty _ _ Hpq))|].
  destruct q as [|t q]; [by destruct (proj2 (apart_nonempty _ _ Hpq))|]. destruct (decide (s = t)) as [<-|Hne].
  - apply apart_cons in Hpq as Hsub. destruct (apart_nonempty _ _ Hsub) as [Hp Hq]. rewrite delete_cons by done.
    destruct (fs !! s) as [[| | | | | | | | | | |m]|] eqn:Hs; try done. cbn [get_segments]. rewrite lookup_insert_eq, Hs. cbn [mbind option_bind]. rewrite !walk_map by done. by apply IH.
  - cbn [get_segments]. f_equal. destruct p as [|s' p]; [cbn; by rewrite lookup_delete_ne|]. rewrite delete_cons by done.
    destruct (fs !! s) as [[| | | | | | | | | | |m]|]; try done. by rewrite lookup_insert_ne.
Qed.

(** Above the path that is set there is a map; above the one that is deleted, what there was, a map if it was one. *)
Lemma get_set_above q r v : q <> [] -> r <> [] -> forall fs, exists m, get_segments (set_segments fs (q ++ r) v) q = Some (VMap m).
Proof.
  induction q as [|s q IH]; [done|]. intros _ Hr fs. cbn [app]. rewrite set_cons by (by destruct q). cbn [get_segments]. rewrite lookup_insert_eq. cbn [mbind option_bind].
  destruct q as [|s' q]; [by eexists|]. rewrite walk_map by done. by apply IH.
Qed.

Lemma get_delete_above q r : q <> [] -> r <> [] -> forall fs,
  get_segments (delete_segments fs (q ++ r)) q = match get_segments fs q with Some (VMap m) => Some (VMap (delete_segments m r)) | o => o end.
Proof.
  induction q as [|s q IH]; [done|]. intros _ Hr fs. cbn [app]. rewrite delete_cons by (by destruct q). cbn [get_segments].
  destruct (fs !! s) as [[| | | | | | | | | | |m]|] eqn:Hs; rewrite ?Hs; cbn [mbind option_bind]; try (by destruct q).
  rewrite lookup_insert_eq. cbn [mbind option_bind]. destruct q as [|s' q]; [done|]. rewrite !walk_map by done. by apply IH.
Qed.

(** ** Masks *)

Definition named (p : FieldPath) : Prop := segments p <> [].

Lemma masked_same new base p : named p -> get_field (masked new base p) p = get_field new p.
Proof.
  intros Hp. unfold masked. destruct (get_field new p) as [v|] eqn:Hg; unfold get_field at 1, set_field, delete_field.
  - rewrite <- (app_nil_r (segments p)) at 2. by rewrite get_set.
  - rewrite <- (app_nil_r (segments p)) at 2. by rewrite get_delete.
Qed.

Lemma masked_apart new base p q : apart (segments p) q -> get_segments (masked new base p) q = get_segments base q.
Proof. intros Hpq. unfold masked. destruct (get_field new p); [by apply get_set_apart|by apply get_delete_apart]. Qed.

Lemma masked_all_apart new mask q : forall base, (forall p, p ∈ mask -> apart (segments p) q) -> get_segments (fold_left (masked new) mask base) q = get_segments base q.
Proof.
  induction mask as [|p mask IH]; intros base Hall; [done|]. cbn [fold_left]. rewrite IH by (intros r Hr; apply Hall; by right).
  apply masked_apart, Hall. by left.
Qed.

Lemma walk_app v p q : walk v (p ++ q) = (v' ← walk v p; walk v' q).
Proof. revert v. induction p as [|s p IH]; intros v; [done|]. cbn [app walk]. destruct v as [| | | | | | | | | | |m]; try done. destruct (m !! s); [apply IH|done]. Qed.

Lemma get_segments_app fs p q : p <> [] -> get_segments fs (p ++ q) = (v ← get_segments fs p; walk v q).
Proof. destruct p as [|s p]; [done|]. intros _. cbn [app get_segments]. destruct (fs !! s); [apply walk_app|done]. Qed.

(** Setting what is there, and deleting what is not, changes nothing. *)
Lemma set_same ss v : ss <> [] -> forall fs, get_segments fs ss = Some v -> set_segments fs ss v = fs.
Proof.
  induction ss as [|s ss IH]; [done|]. intros _ fs Hg. destruct ss as [|s' ss]; [cbn in *; destruct (fs !! s) eqn:Hs; [|done]; injection Hg as ->; by apply insert_id|].
  rewrite set_cons by done. rewrite walk_entry in Hg by done. rewrite IH by done. apply insert_id. unfold entry_map in *. destruct (fs !! s) as [[| | | | | | | | | | |m]|] eqn:Hs; try (cbn in Hg; by rewrite lookup_empty in Hg). done.
Qed.

Lemma delete_same ss : ss <> [] -> forall fs, get_segments fs ss = None -> delete_segments fs ss = fs.
Proof.
  induction ss as [|s ss IH]; [done|]. intros _ fs Hg. destruct ss as [|s' ss]; [cbn in *; destruct (fs !! s) eqn:Hs; [done|]; by apply delete_id|].
  rewrite delete_cons by done. destruct (fs !! s) as [[| | | | | | | | | | |m]|] eqn:Hs; try done. cbn [get_segments] in Hg. rewrite Hs in Hg. cbn [mbind option_bind] in Hg. rewrite walk_map in Hg by done. rewrite IH by done. by apply insert_id.
Qed.

(** What a path of the mask was made to read, the other paths leave, whether they are apart from it, below it or above it. *)
Lemma masked_keeps new base p q : named p -> named q -> get_field base q = get_field new q -> get_field (masked new base p) q = get_field new q.
Proof.
  intros Hp Hq Hbase. unfold get_field in *. destruct (decide (segments p `prefix_of` segments q)) as [[rest Hrest]|Hpq].
  - rewrite Hrest, (get_segments_app new) by done. unfold masked. destruct (get_field new p) as [v|] eqn:Hv; unfold get_field in Hv; rewrite Hv; [by apply get_set|by apply get_delete].
  - destruct (decide (segments q `prefix_of` segments p)) as [[rest Hrest]|Hqp]; [|rewrite masked_apart; [done|by split]].
    assert (Hsame : get_segments base (segments p) = get_segments new (segments p)) by (rewrite Hrest, !get_segments_app by done; by rewrite Hbase).
    unfold masked. destruct (get_field new p) as [v|] eqn:Hv; unfold get_field in Hv; rewrite Hv in Hsame; unfold set_field, delete_field; [by rewrite set_same|by rewrite delete_same].
Qed.

Lemma masked_all_keep new mask q : named q -> forall base, Forall named mask -> get_field base q = get_field new q -> get_field (fold_left (masked new) mask base) q = get_field new q.
Proof. intros Hq. induction mask as [|p mask IH]; intros base Hn Hb; [done|]. apply Forall_cons in Hn as [Hp Hn]. by apply IH, masked_keeps. Qed.

Lemma masked_all_in new mask : forall base p, Forall named mask -> p ∈ mask -> get_field (fold_left (masked new) mask base) p = get_field new p.
Proof.
  induction mask as [|r mask IH]; intros base p Hn Hp; [by apply not_elem_of_nil in Hp|]. cbn [fold_left]. apply Forall_cons in Hn as [Hr Hn].
  apply elem_of_cons in Hp as [->|Hp]; [|by apply IH]. apply masked_all_keep; [done|done|]. by apply masked_same.
Qed.

(** Normalizing is done field by field. *)
Lemma walk_normalize ss : forall v, walk (normalize_for_storage v) ss = normalize_for_storage <$> walk v ss.
Proof.
  induction ss as [|s ss IH]; intros v; [done|]. destruct v as [| | | | | | | | | | |m]; try done. cbn [walk normalize_for_storage]. rewrite lookup_fmap.
  destruct (m !! s); cbn; [apply IH|done].
Qed.

Lemma get_normalize fs ss : get_segments (normalize_fields_for_storage fs) ss = normalize_for_storage <$> get_segments fs ss.
Proof.
  destruct ss as [|s ss]; [done|]. cbn [get_segments]. unfold normalize_fields_for_storage. rewrite lookup_fmap. destruct (fs !! s); cbn; [apply walk_normalize|done].
Qed.

Lemma normalize_fields_again fs : normalize_fields_for_storage (normalize_fields_for_storage fs) = normalize_fields_for_storage fs.
Proof. unfold normalize_fields_for_storage. rewrite <- map_fmap_compose. apply map_fmap_ext. intros k v _. apply normalize_again. Qed.

(** C21. A masked write changes exactly the fields of its mask: without transforms it always succeeds, keeps the creation
    time of the document there was, and afterwards each path of the mask, in whatever order and also where one path of the
    mask lies below another, reads what the write carries there, nothing if it carries nothing, while every path apart
    from all of the mask, neither above nor below a path of it, reads what it read before; without a mask the fields are
    the ones of the write; all at storage precision. *)
Theorem masked_write_exact (p : DocumentPath) (new : fields_map) (mask : list FieldPath) (current : option Document)
    (pre : option Precondition) (now : LogicalInstant) (version : CommitVersion) : Forall named mask ->
  (exists d, apply_write {| op := WSet p new (Some mask); precondition := pre; transforms := [] |} current now version =
      Ok (Some d, {| w_update_time := Some now; transform_results := [] |}) /\
    path d = p /\ create_time d = from_option create_time now current /\ update_time d = now /\
    (forall q, q ∈ mask -> get_field (fields d) q = normalize_for_storage <$> get_field new q) /\
    (forall q, (forall r, r ∈ mask -> apart (segments r) (segments q)) ->
       get_field (fields d) q = normalize_for_storage <$> get_field (from_option fields ∅ current) q)) /\
  (exists d, apply_write {| op := WSet p new None; precondition := pre; transforms := [] |} current now version =
      Ok (Some d, {| w_update_time := Some now; transform_results := [] |}) /\ fields d = normalize_fields_for_storage new).
Proof.
  intros Hn. split.
  - eexists. split; [reflexivity|]. cbn [path create_time update_time fields]. split_and!; [done..| |].
    + intros q Hq. unfold get_field at 1. rewrite normalize_fields_again, get_normalize. cbn [next_fields]. f_equal. by apply masked_all_in.
    + intros q Hq. unfold get_field at 1. rewrite normalize_fields_again, get_normalize. cbn [next_fields]. f_equal. by apply masked_all_apart.
  - eexists. split; [reflexivity|]. cbn [fields next_fields]. apply normalize_fields_again.
Qed.

Definition demo_mask : list FieldPath := [ {| segments := [chars "a"; chars "b"] |}; {| segments := [chars "c"] |} ].
Definition demo_current : Document :=
  {| path := demo_path; fields := {[chars "a" := VMap {[chars "b" := VInteger 1; chars "x" := VInteger 2]}; chars "c" := VNull; chars "d" := VTimestamp {| seconds := 1; nanos := 1500 |}]};
     create_time := 5; update_time := 6; version := 7 |}.

(** The mask names a map and, before and after it, fields within it. *)
Definition demo_overlap : list FieldPath := {| segments := [chars "a"; chars "x"] |} :: {| segments := [chars "a"] |} :: demo_mask.

Example masked_write_exact_witness : exists d,
  apply_write {| op := WSet demo_path {[chars "a" := VMap {[chars "b" := VInteger 9]}]} (Some demo_overlap); precondition := None; transforms := [] |} (Some demo_current) 10 8 =
    Ok (Some d, {| w_update_time := Some 10; transform_results := [] |}) /\
  create_time d = 5 /\ get_field (fields d) {| segments := [chars "a"; chars "b"] |} = Some (VInteger 9) /\ get_field (fields d) {| segments := [chars "a"; chars "x"] |} = None /\
  get_field (fields d) {| segments := [chars "c"] |} = None.
Proof.
  assert (Hn : Forall named demo_overlap) by (repeat constructor; discriminate).
  destruct (masked_write_exact demo_path {[chars "a" := VMap {[chars "b" := VInteger 9]}]} demo_overlap (Some demo_current) None 10 8 Hn) as [(d & Hd & _ & Hc & _ & Hin & _) _].
  exists d. split; [exact Hd|]. split; [exact Hc|]. split; [|split].
  - rewrite Hin by (by right; right; left). vm_compute. reflexivity.
  - rewrite Hin by (by left). vm_compute. reflexivity.
  - rewrite Hin by (by right; right; right; left). vm_compute. reflexivity.
Defined.

(** ** Array transforms *)

Lemma normalize_ok v : value_ok v -> value_ok (normalize_for_storage v).
Proof.
  induction v as [v Hv|items IH|m IH] using value_induction; intros Hok.
  - destruct v; try done; constructor.
  - inversion Hok as [| | | | | | | | |its Hi| |]; subst. change (value_ok (VArray (map normalize_for_storage items))). constructor. intros v (w & -> & Hw)%list_elem_of_fmap. by apply IH, Hi.
  - inversion Hok as [| | | | | | | | | | |m0 Hm]; subst. change (value_ok (VMap (normalize_for_storage <$> m))). constructor. intros k v (w & <- & Hw)%lookup_fmap_Some. by eapply IH, Hm.
Qed.

Lemma same_value_key a b : value_ok a -> value_ok b -> same_value a b = true <-> value_key a = value_key b.
Proof. intros Ha Hb. unfold same_value. rewrite bool_decide_eq_true, canonical_cmp_key by done. apply lex_eq. Qed.

Definition keys (l : list Value) : list Lex := map value_key l.

Lemma existsb_keys l y : Forall value_ok l -> value_ok y -> existsb (fun x => same_value x y) l = true <-> value_key y ∈ keys l.
Proof.
  intros Hl Hy. unfold keys. rewrite existsb_exists, list_elem_of_fmap. rewrite Forall_forall in Hl.
  split; intros (x & H1 & H2); exists x; [apply list_elem_of_In in H1|apply list_elem_of_In in H2 as Hin].
  - split; [symmetry; apply same_value_key; auto|done].
  - split; [done|]. apply same_value_key; [by apply Hl|done|done].
Qed.

Lemma append_missing_spec items : forall arr, Forall value_ok arr -> Forall value_ok items -> exists added,
  append_missing arr items = arr ++ added /\ Forall value_ok added /\ (forall x, x ∈ added -> x ∈ map normalize_for_storage items) /\
  (forall i, i ∈ items -> value_key (normalize_for_storage i) ∈ keys (arr ++ added)) /\ NoDup (keys added) /\ (forall x, x ∈ added -> value_key x ∉ keys arr).
Proof.
  induction items as [|i items IH]; intros arr Harr Hitems.
  { exists []. rewrite app_nil_r. split_and!; try done; try constructor; by intros ? ?%not_elem_of_nil. }
  apply Forall_cons in Hitems as [Hi Hitems]. pose proof (normalize_ok i Hi) as Hni. unfold append_missing. cbn [fold_left]. unfold append_item at 2.
  destruct (existsb _ arr) eqn:Hex.
  - apply existsb_keys in Hex; [|done..]. destruct (IH arr Harr Hitems) as (added & Heq & Hok & Hin & Hall & Hnd & Hfresh). exists added. split_and!; try done.
    + intros x Hx. by right; apply Hin.
    + intros j [->|Hj]%elem_of_cons; [|by apply Hall]. unfold keys. rewrite map_app, elem_of_app. by left.
  - assert (Hnew : value_key (normalize_for_storage i) ∉ keys arr) by (rewrite <- existsb_keys by done; by rewrite Hex).
    destruct (IH (arr ++ [normalize_for_storage i])) as (added & Heq & Hok & Hin & Hall & Hnd & Hfresh); [by apply Forall_app; split; [|constructor]|done|].
    exists (normalize_for_storage i :: added). rewrite <- app_assoc in Heq, Hall. unfold keys in *. split_and!; [done|by constructor|..].
    + intros x [->|Hx]%elem_of_cons; [by left|right; by apply Hin].
    + intros j [->|Hj]%elem_of_cons; [|by apply Hall]. rewrite map_app, elem_of_app. right. by left.
    + cbn. constructor; [|done]. intros (x & Hk & Hx)%list_elem_of_fmap. apply (Hfresh x Hx). rewrite map_app, elem_of_app. right. rewrite <- Hk. by left.
    + intros x [->|Hx]%elem_of_cons; [done|]. specialize (Hfresh x Hx). rewrite map_app, elem_of_app in Hfresh. tauto.
Qed.

Lemma append_present arr items : Forall value_ok arr -> Forall value_ok items ->
  (forall i, i ∈ items -> value_key (normalize_for_storage i) ∈ keys arr) -> append_missing arr items = arr.
Proof.
  intros Harr Hitems Hall. unfold append_missing. induction items as [|i items IH]; [done|]. apply Forall_cons in Hitems as [Hi Hitems]. cbn [fold_left]. unfold append_item at 2.
  rewrite (proj2 (existsb_keys arr _ Harr (normalize_ok i Hi))) by (apply Hall; by left). apply IH; [done|]. intros j Hj. apply Hall. by right.
Qed.

Lemma removed_iff items x : Forall value_ok items -> value_ok x ->
  existsb (fun i => same_value i x) (map normalize_for_storage items) = false <-> value_key x ∉ keys (map normalize_for_storage items).
Proof.
  intros Hitems Hx. rewrite <- existsb_keys; [by destruct (existsb _ _)| |done]. apply Forall_map. eapply Forall_impl; [exact Hitems|]. apply normalize_ok.
Qed.

(** C22. The array transforms are set operations up to the canonical order, and keep the array's own order: appending keeps the
    array and puts behind it items at storage precision, each once and none that the array has, until it has all of
    them; appending again changes nothing; removing keeps exactly the elements that equal none of the items, and
    undoes the appending of elements the array did not have. *)
Theorem array_transforms_exact (arr items : list Value) : Forall value_ok arr -> Forall value_ok items ->
  (exists added, append_missing arr items = arr ++ added /\ (forall x, x ∈ added -> x ∈ map normalize_for_storage items) /\
     (forall i, i ∈ items -> exists x, x ∈ arr ++ added /\ canonical_cmp x (normalize_for_storage i) = Eq) /\
     ForallOrdPairs (fun x y => canonical_cmp x y <> Eq) added /\ (forall x y, x ∈ arr -> y ∈ added -> canonical_cmp x y <> Eq)) /\
  append_missing (append_missing arr items) items = append_missing arr items /\
  (forall x, x ∈ remove_all arr items <-> x ∈ arr /\ forall i, i ∈ items -> canonical_cmp (normalize_for_storage i) x <> Eq) /\
  sublist (remove_all arr items) arr /\ remove_all (append_missing arr items) items = remove_all arr items.
Proof.
  intros Harr Hitems. destruct (append_missing_spec items arr Harr Hitems) as (added & Heq & Hok & Hin & Hall & Hnd & Hfresh).
  assert (Hnorm : forall i, i ∈ items -> value_ok (normalize_for_storage i)) by (intros i Hi; apply normalize_ok; rewrite Forall_forall in Hitems; auto).
  assert (Hokr : Forall value_ok (arr ++ added)) by (by apply Forall_app).
  assert (Hcmp : forall x y, value_ok x -> value_ok y -> canonical_cmp x y = Eq <-> value_key x = value_key y) by (intros x y Hx Hy; rewrite canonical_cmp_key by done; apply lex_eq).
  rewrite Forall_forall in Harr, Hok. split_and!.
  - exists added. split_and!; [done..| | |].
    + intros i Hi. destruct (proj1 (list_elem_of_fmap _ _ _) (Hall i Hi)) as (x & Hk & Hx). exists x. split; [done|]. rewrite Forall_forall in Hokr. apply Hcmp; auto.
    + clear - Hnd Hok Hcmp. induction added as [|x l IH]; [constructor|]. cbn in Hnd. apply NoDup_cons in Hnd as [Hx Hnd]. constructor.
      * apply List.Forall_forall. intros y Hy%list_elem_of_In Hc. apply Hcmp in Hc; [|apply Hok; [by left]|apply Hok; by right]. apply Hx. rewrite Hc. by apply list_elem_of_fmap_2.
      * apply IH; [intros y Hy; apply Hok; by right|exact Hnd].
    + intros x y Hx Hy Hc. apply Hcmp in Hc; [|auto..]. apply (Hfresh y Hy). rewrite <- Hc. by apply list_elem_of_fmap_2.
  - rewrite Heq. by apply append_present.
  - intros x. unfold remove_all. rewrite list_elem_of_filter. split.
    + intros [Hx Hxa]. split; [done|]. intros i Hi Hc. apply Hcmp in Hc; [|auto..]. apply removed_iff in Hx; [|done|auto]. apply Hx. rewrite <- Hc. by apply list_elem_of_fmap_2, list_elem_of_fmap_2.
    + intros [Hxa Hno]. split; [|done]. apply removed_iff; [done|auto|]. intros (y & Hk & (i & -> & Hi)%list_elem_of_fmap)%list_elem_of_fmap. apply (Hno i Hi). apply Hcmp; auto.
  - apply sublist_filter.
  - rewrite Heq. unfold remove_all. rewrite filter_app. rewrite <- (app_nil_r (filter _ arr)) at 2. f_equal. apply list_filter_none. intros x Hx Hno.
    apply removed_iff in Hno; [|done|auto]. apply Hno. apply Hin in Hx. by apply list_elem_of_fmap_2.
Qed.

Example array_transforms_exact_witness :
  append_missing [VInteger 1; VInteger 1] [VDouble (f64_of_i64 1); VNull; VNull] = [VInteger 1; VInteger 1; VNull] /\
  append_missing (append_missing [VInteger 1; VInteger 1] [VDouble (f64_of_i64 1); VNull; VNull]) [VDouble (f64_of_i64 1); VNull; VNull] =
  append_missing [VInteger 1; VInteger 1] [VDouble (f64_of_i64 1); VNull; VNull].
Proof.
  assert (H1 : value_ok (VInteger 1)) by (constructor; vm_compute; split; discriminate).
  assert (H2 : value_ok (VDouble (f64_of_i64 1))) by (constructor; vm_compute; reflexivity).
  split; [vm_compute; reflexivity|].
  assert (Ha : Forall value_ok [VInteger 1; VInteger 1]) by (constructor; [exact H1|constructor; [exact H1|constructor]]).
  assert (Hi : Forall value_ok [VDouble (f64_of_i64 1); VNull; VNull]) by (constructor; [exact H2|repeat constructor]).
  destruct (array_transforms_exact _ _ Ha Hi) as (_ & Hagain & _). exact Hagain.
Defined.

(** ** Numeric transforms *)

Definition num_ok (v : Value) : Prop := value_ok v /\ is_number v = true.

Lemma extremum_current want_max operand c : num_ok operand ->
  extremum want_max operand (Some c) = c \/ extremum want_max operand (Some c) = operand.
Proof. intros _. unfold extremum. repeat case_match; auto. Qed.

(** The order in which a maximum, or a minimum, goes up. *)
Definition toward (want_max : bool) (a b : Value) : comparison := if want_max then canonical_cmp a b else canonical_cmp b a.

Lemma nan_least v w : is_nan_value v = true -> is_nan_value w = false -> is_number w = true -> canonical_cmp v w = Lt.
Proof. destruct v as [| | |d| | | | | | | |]; try done. destruct d; try done. intros _ Hw Hn. destruct w as [| | |d'| | | | | | | |]; try done. by destruct d'. Qed.

Lemma extremum_number want_max operand c : num_ok operand -> num_ok c -> is_nan_value operand = false -> is_nan_value c = false ->
  toward want_max (extremum want_max operand (Some c)) c <> Lt /\ toward want_max (extremum want_max operand (Some c)) operand <> Lt.
Proof.
  intros [Ho Hon] [Hc Hcn] Hn1 Hn2. unfold extremum. rewrite Hn1, Hn2, Hcn. unfold toward.
  assert (Hopp : canonical_cmp operand c = CompOpp (canonical_cmp c operand)) by (rewrite !canonical_cmp_key by done; apply lex_opp).
  assert (Hr : forall v, value_ok v -> canonical_cmp v v = Eq) by (intros v Hv; rewrite canonical_cmp_key by done; by apply lex_eq).
  destruct (canonical_cmp c operand) eqn:Hcmp, want_max; rewrite ?Hopp, ?Hcmp, ?Hr by done; split; discriminate.
Qed.

Lemma add_numbers_number a b : is_number a = true -> is_number b = true -> is_number (add_numbers a b) = true.
Proof. by destruct a, b. Qed.

(** The number there is: a value that is no number counts as absent. *)
Definition number_of (current : option Value) : option Value := c ← current; if is_number c then Some c else None.

(** The double of a number. *)
Definition as_double (v : Value) : spec_float := match v with VInteger i => f64_of_i64 i | VDouble d => d | _ => S754_nan end.

Lemma f64_add_comm x y : f64_add x y = f64_add y x.
Proof.
  unfold f64_add, SFadd. destruct x as [sx|sx| |sx mx ex], y as [sy|sy| |sy my ey]; try done; try (by destruct sx, sy). cbv zeta. by rewrite Z.min_comm, Z.add_comm.
Qed.

(** The sum of two numbers: of integers, cut to 64 bits; otherwise of their doubles. *)
Definition sum_of (a b : Value) : Value :=
  match a, b with VInteger x, VInteger y => VInteger (Z.max (- 2 ^ 63) (Z.min (2 ^ 63 - 1) (x + y))) | _, _ => VDouble (f64_add (as_double a) (as_double b)) end.

Lemma add_numbers_sum a b : is_number a = true -> is_number b = true -> add_numbers a b = sum_of a b.
Proof. destruct a, b; try done. intros _ _. cbn [add_numbers sum_of as_double]. first [done | by rewrite f64_add_comm]. Qed.

(** A maximum, or a minimum: one of the two, not beyond either in the canonical order, NaN if one is, the stored value on a tie. *)
Definition extremum_of (want_max : bool) (operand c r : Value) : Prop :=
  (r = c \/ r = operand) /\ is_nan_value r = is_nan_value c || is_nan_value operand /\
  (is_nan_value r = false -> toward want_max r c <> Lt /\ toward want_max r operand <> Lt) /\ (canonical_cmp c operand = Eq -> r = c).

Lemma extremum_is want_max operand c : num_ok operand -> num_ok c -> extremum_of want_max operand c (extremum want_max operand (Some c)).
Proof.
  intros Ho Hc. split; [by apply extremum_current|]. destruct Hc as [Hcv Hcn]. split; [|split].
  - unfold extremum. rewrite Hcn. destruct (is_nan_value c) eqn:H1; [done|]. destruct (is_nan_value operand) eqn:H2; [done|]. destruct (canonical_cmp c operand), want_max; done.
  - intros Hn. unfold extremum in Hn. rewrite Hcn in Hn. destruct (is_nan_value c) eqn:H1; [congruence|]. destruct (is_nan_value operand) eqn:H2; [congruence|]. by apply extremum_number.
  - intros He. unfold extremum. rewrite Hcn, He. destruct (is_nan_value c) eqn:H1; [done|]. destruct (is_nan_value operand) eqn:H2; [|done].
    destruct Ho as [Hov Hon]. pose proof (nan_least operand c H2 H1 Hcn) as Hl. rewrite canonical_cmp_key in Hl by done. rewrite canonical_cmp_key in He by done. apply lex_eq in He. rewrite He in Hl. rewrite (proj2 (lex_eq _ _) eq_refl) in Hl. done.
Qed.

Lemma extremum_again want_max operand current : num_ok operand -> (forall v, current = Some v -> value_ok v) -> let r := extremum want_max operand current in extremum want_max operand (Some r) = r.
Proof.
  intros [Hov Hon] Hv r. assert (Hro : canonical_cmp operand operand = Eq) by (rewrite canonical_cmp_key by done; by apply lex_eq).
  assert (Hop : extremum want_max operand (Some operand) = operand) by (unfold extremum; rewrite Hon, Hro; by destruct (is_nan_value operand), want_max).
  subst r. destruct current as [c|]; [|exact Hop]. destruct (extremum_current want_max operand c ltac:(by split)) as [Hx|Hx]; rewrite Hx; [exact Hx|exact Hop].
Qed.

(** What a numeric transform makes of the number there is. *)
Definition numeric_outcome (kind : TransformKind) (current : option Value) (now : LogicalInstant) (outcome : result Value FirestoreError) : Prop :=
  let extremum_case want_max operand :=
    if is_number operand then exists r, outcome = Ok r /\ match current with Some c => extremum_of want_max operand c r | None => r = operand end else outcome = Err InvalidArgument in
  match kind with
  | ServerTimestamp =>
      if decide (MIN_SECONDS <= now / 1000000000 <= MAX_SECONDS)
      then exists ts, outcome = Ok (VTimestamp ts) /\ seconds ts * 1000000000 + nanos ts = now / 1000 * 1000 /\ 0 <= nanos ts < 1000000000
      else outcome = Err InvalidArgument
  | Increment delta => outcome = if is_number delta then Ok match current with Some c => sum_of c delta | None => delta end else Err InvalidArgument
  | Maximum operand => extremum_case true operand
  | Minimum operand => extremum_case false operand
  | AppendMissingElements _ | RemoveAllFromArray _ => False
  end.

Lemma timestamp_outcome current now : numeric_outcome ServerTimestamp current now (server_timestamp now).
Proof.
  cbn [numeric_outcome]. unfold server_timestamp, timestamp_new. assert (Hs : now / 1000 / 1000000 = now / 1000000000) by (rewrite Z.div_div by done; done). rewrite Hs.
  pose proof (Z.mod_pos_bound (now / 1000) 1000000 ltac:(done)) as Hm. rewrite (proj2 (Z.leb_gt 1000000000 _)) by lia. case_decide as Hd.
  - rewrite bool_decide_true by (unfold MIN_SECONDS, MAX_SECONDS in Hd; int_lia). cbn [negb]. rewrite (proj2 (Z.ltb_ge _ _)), (proj2 (Z.ltb_ge _ _)) by lia. cbn [orb]. eexists. split; [reflexivity|]. cbn [seconds nanos].
    pose proof (Z.div_mod (now / 1000) 1000000 ltac:(done)). lia.
  - destruct (negb _); [done|]. destruct (Z.ltb_spec (now / 1000000000) MIN_SECONDS); [done|]. destruct (Z.ltb_spec MAX_SECONDS (now / 1000000000)); [done|lia].
Qed.

Lemma extremum_outcome want_max operand current : value_ok operand -> (forall v, current = Some v -> value_ok v) -> is_number operand = true ->
  match number_of current with Some c => extremum_of want_max operand c (extremum want_max operand current) | None => extremum want_max operand current = operand end.
Proof.
  intros Ho Hv Hn. destruct current as [c|]; [|done]. cbn [number_of mbind option_bind]. destruct (is_number c) eqn:Hc; [apply extremum_is; by split; auto|]. unfold extremum. rewrite Hc. destruct c as [| | |d| | | | | | | |]; done.
Qed.

Definition operand_ok (kind : TransformKind) : Prop := match kind with Maximum v | Minimum v => value_ok v | _ => True end.
Definition is_numeric (kind : TransformKind) : bool := match kind with AppendMissingElements _ | RemoveAllFromArray _ => false | _ => true end.
Definition is_extremum (kind : TransformKind) : bool := match kind with Maximum _ | Minimum _ => true | _ => false end.

Lemma produce_outcome kind current now : is_numeric kind = true -> operand_ok kind -> (forall v, current = Some v -> value_ok v) -> numeric_outcome kind (number_of current) now (produce kind current now).
Proof.
  intros Hk Ho Hv. destruct kind as [|delta|operand|operand|items|items]; try done; cbn [produce].
  - apply timestamp_outcome.
  - cbn [numeric_outcome]. destruct (is_number delta) eqn:Hd; [|done]. cbn [negb]. destruct current as [c|]; [|done]. cbn [number_of mbind option_bind]. destruct (is_number c) eqn:Hc; [|done]. by rewrite add_numbers_sum.
  - cbn [numeric_outcome]. destruct (is_number operand) eqn:Hn; [|done]. cbn [negb]. eexists. split; [reflexivity|]. by apply extremum_outcome.
  - cbn [numeric_outcome]. destruct (is_number operand) eqn:Hn; [|done]. cbn [negb]. eexists. split; [reflexivity|]. by apply extremum_outcome.
Qed.

(** C23. The numeric transforms: a server timestamp is the commit time cut to microseconds, refused outside of the years 1 to
    9999; an increment adds to the number at the field, cutting a sum of integers to 64 bits and adding the doubles
    otherwise, and is its operand where there is no number; a maximum, or a minimum, is one of the number at the field and
    its operand, not below, or above, either in the canonical order of numbers, NaN if either is NaN, the stored value on a
    tie, and its operand where there is no number; an operand that is no number is refused.  A refusal reports its error;
    on success the field then reads what was produced, which is also what is reported, and every path apart from it reads
    what it read before; and a maximum or minimum that is repeated changes nothing. *)
Theorem numeric_transforms_exact (fs : fields_map) (t : FieldTransform) (now : LogicalInstant) : named (field t) -> is_numeric (t_kind t) = true -> operand_ok (t_kind t) ->
  (forall v, get_field fs (field t) = Some v -> value_ok v) ->
  exists outcome, numeric_outcome (t_kind t) (number_of (get_field fs (field t))) now outcome /\
    match outcome with
    | Err e => apply_transform fs t now = Err e
    | Ok produced => exists fs', apply_transform fs t now = Ok (fs', produced) /\ get_field fs' (field t) = Some produced /\
        (forall q, apart (segments (field t)) (segments q) -> get_field fs' q = get_field fs q) /\
        (is_extremum (t_kind t) = true -> apply_transform fs' t now = Ok (fs', produced))
    end.
Proof.
  intros Hp Hk Ho Hv. exists (produce (t_kind t) (get_field fs (field t)) now). split; [by apply produce_outcome|].
  assert (Happly : forall fs, apply_transform fs t now = let* produced := produce (t_kind t) (get_field fs (field t)) now in Ok (set_field fs (field t) produced, produced)) by (intros fs0; unfold apply_transform; by destruct (t_kind t)).
  rewrite Happly. destruct (produce _ _ now) as [v|e] eqn:Hprod; [|done]. cbn [r_bind].
  assert (Hget : get_field (set_field fs (field t) v) (field t) = Some v) by (unfold get_field, set_field; rewrite <- (app_nil_r (segments (field t))) at 2; by rewrite get_set).
  eexists. split_and!; [reflexivity|exact Hget|intros q Hq; by apply get_set_apart|]. intros Hx. rewrite Happly, Hget. assert (Hagain : produce (t_kind t) (Some v) now = Ok v).
  { destruct (t_kind t) as [|delta|operand|operand|items|items]; try done; cbn [produce operand_ok] in *; destruct (is_number operand) eqn:Hn; try done; cbn [negb] in *; injection Hprod as <-; f_equal; (apply extremum_again; [by split|done]). }
  rewrite Hagain. cbn [r_bind]. unfold set_field at 1. by rewrite set_same.
Qed.

(** The maximum of a stored 2 and 4, with the path of the field made of maps. *)
Example numeric_transforms_exact_witness :
  let t := {| field := {| segments := [chars "a"; chars "n"] |}; t_kind := Maximum (VInteger 4) |} in
  let fs : fields_map := {[chars "a" := VMap {[chars "n" := VInteger 2]}]} in
  exists fs', apply_transform fs t 0 = Ok (fs', VInteger 4) /\ get_field fs' (field t) = Some (VInteger 4) /\ apply_transform fs' t 0 = Ok (fs', VInteger 4).
Proof.
  cbv zeta. set (t := {| field := {| segments := [chars "a"; chars "n"] |}; t_kind := Maximum (VInteger 4) |}). set (fs := _ : fields_map).
  assert (Hok : forall i, (0 <=? i) && (i <=? 9) = true -> value_ok (VInteger i)) by (intros i Hi; constructor; split; cbn; lia).
  assert (Hget : get_field fs (field t) = Some (VInteger 2)) by (vm_compute; reflexivity).
  destruct (numeric_transforms_exact fs t 0 ltac:(discriminate) eq_refl (Hok 4 eq_refl) ltac:(rewrite Hget; intros v [= <-]; exact (Hok 2 eq_refl))) as (outcome & Hout & Hcase).
  rewrite Hget in Hout. cbn in Hout. destruct Hout as (r & -> & _ & _ & Hmax & _). destruct Hcase as (fs' & Happly & Hread & _ & Hagain).
  assert (Hr : match apply_transform fs t 0 with Ok (_, VInteger n) => Some n | _ => None end = Some 4) by (vm_compute; reflexivity). rewrite Happly in Hr. destruct r; try discriminate Hr. injection Hr as ->.
  exists fs'. split; [exact Happly|]. split; [exact Hread|exact (Hagain eq_refl)].
Defined.

(** Increments over the number there is, doubles, and a value that is no number; a minimum; a refused operand. *)
Example transforms_ex :
  produce (Increment (VInteger 3)) (Some (VInteger (2 ^ 63 - 2))) 0 = Ok (VInteger (2 ^ 63 - 1)) /\ produce (Increment (VInteger 3)) (Some VNull) 0 = Ok (VInteger 3) /\
  produce (Minimum (VInteger 3)) (Some (VInteger 5)) 0 = Ok (VInteger 3) /\ produce (Minimum VNull) (Some (VInteger 5)) 0 = Err InvalidArgument.
Proof. vm_compute. repeat split; reflexivity. Qed.
