(* ===== verification/FsUsage.v ===== *)
(** * Logical accounting of the retained history

    Models [HistoryUsage] and its functions in [crates/fireemu-core-firestore/src/store.rs]: the
    charge of every retained version of a path, its saturating and its certified arithmetic, and
    what a compaction reclaims, computed both from whole paths and from dropped versions only. *)
From S2P Require Import Prelude Text FsDocPath FsSize FsDocument.
#[local] Set Warnings "-register-all".

(** [usize::try_from(..).unwrap_or(u64::MAX)] is the identity on 64-bit targets: a length in memory fits. *)
Record RetainedDocument := { document : Document; logical_bytes : Z }.

(** The retained versions of one path, oldest first; [None] is a tombstone. *)
Abbreviation Versions := (list (CommitVersion * option RetainedDocument)).

Record HistoryLimits := { max_bytes : Z; max_versions : Z }.

Definition default_history_limits : HistoryLimits := {| max_bytes := 2 ^ 30; max_versions := 1000000 |}.

Record HistoryUsage := {
  live_document_bytes : Z; historical_document_bytes : Z; path_and_index_bytes : Z; version_metadata_bytes : Z; tombstone_bytes : Z; commit_time_bytes : Z;
  total_bytes : Z; u_versions : Z; u_tombstones : Z; u_paths : Z; u_commit_times : Z }.

Definition no_usage : HistoryUsage :=
  {| live_document_bytes := 0; historical_document_bytes := 0; path_and_index_bytes := 0; version_metadata_bytes := 0; tombstone_bytes := 0; commit_time_bytes := 0;
     total_bytes := 0; u_versions := 0; u_tombstones := 0; u_paths := 0; u_commit_times := 0 |}.

Definition HISTORY_PATH_KEY_OVERHEAD : Z := 32.
Definition HISTORY_INDEX_REFERENCE_OVERHEAD : Z := 16.
Definition HISTORY_VERSION_METADATA_BYTES : Z := 16.
Definition HISTORY_TOMBSTONE_BYTES : Z := 1.
Definition HISTORY_COMMIT_TIME_BYTES : Z := 24.

Definition components (u : HistoryUsage) : list Z :=
  [live_document_bytes u; historical_document_bytes u; path_and_index_bytes u; version_metadata_bytes u; tombstone_bytes u; commit_time_bytes u;
   u_versions u; u_tombstones u; u_paths u; u_commit_times u].

Definition unsaturated (u : HistoryUsage) : bool := (total_bytes u <? int_max u64) && forallb (fun value => value <? int_max u64) (components u).

(** [a.saturating_add(b)], [a.saturating_sub(b)] *)
Definition sat_add (a b : Z) : Z := saturating u64 (a + b).
Definition sat_sub (a b : Z) : Z := saturating u64 (a - b).

(** The flag [exact] is the caller's [&mut bool]. *)
Definition certified_history_add (a b : Z) (exact : bool) : Z * bool :=
  (sat_add a b, exact && match checked u64 (a + b) with Some value => value <? int_max u64 | None => false end).

Definition certified_history_sub (a b : Z) (exact : bool) : Z * bool :=
  (sat_sub a b, exact && match checked u64 (a - b) with Some _ => true | None => false end).

Fixpoint all_change (values removed added : list Z) : bool :=
  match values, removed, added with
  | value :: values, remove :: removed, add :: added =>
      match (remaining ← checked u64 (value - remove); checked u64 (remaining + add)) with Some result => result <? int_max u64 | None => false end && all_change values removed added
  | _, _, _ => true
  end.

Definition checked_history_change (u removed added : HistoryUsage) : bool :=
  unsaturated u && unsaturated removed && unsaturated added && all_change (components u) (components removed) (components added).

Definition history_path_and_index_bytes (p : DocumentPath) (live : bool) : Z :=
  sat_add (sat_add (Z.of_nat (length (resource_name p))) HISTORY_PATH_KEY_OVERHEAD) (saturating u64 ((4 + (if live then 1 else 0) * 3) * HISTORY_INDEX_REFERENCE_OVERHEAD)).

Definition finish_history_usage (u : HistoryUsage) : HistoryUsage :=
  {| live_document_bytes := live_document_bytes u; historical_document_bytes := historical_document_bytes u; path_and_index_bytes := path_and_index_bytes u;
     version_metadata_bytes := version_metadata_bytes u; tombstone_bytes := tombstone_bytes u; commit_time_bytes := commit_time_bytes u;
     total_bytes := sat_add (sat_add (sat_add (sat_add (sat_add (live_document_bytes u) (historical_document_bytes u)) (path_and_index_bytes u))
       (version_metadata_bytes u)) (tombstone_bytes u)) (commit_time_bytes u);
     u_versions := u_versions u; u_tombstones := u_tombstones u; u_paths := u_paths u; u_commit_times := u_commit_times u |}.

Definition combine_usage (f : Z -> Z -> Z) (a b : HistoryUsage) : HistoryUsage :=
  {| live_document_bytes := f (live_document_bytes a) (live_document_bytes b); historical_document_bytes := f (historical_document_bytes a) (historical_document_bytes b);
     path_and_index_bytes := f (path_and_index_bytes a) (path_and_index_bytes b); version_metadata_bytes := f (version_metadata_bytes a) (version_metadata_bytes b);
     tombstone_bytes := f (tombstone_bytes a) (tombstone_bytes b); commit_time_bytes := f (commit_time_bytes a) (commit_time_bytes b); total_bytes := 0;
     u_versions := f (u_versions a) (u_versions b); u_tombstones := f (u_tombstones a) (u_tombstones b); u_paths := f (u_paths a) (u_paths b); u_commit_times := f (u_commit_times a) (u_commit_times b) |}.

Definition add_history_usage (a b : HistoryUsage) : HistoryUsage := finish_history_usage (combine_usage sat_add a b).
Definition subtract_history_usage (a b : HistoryUsage) : HistoryUsage := finish_history_usage (combine_usage sat_sub a b).

(** One version: [live] when it is the newest of its path. *)
Definition charge_version (u : HistoryUsage) (size : option Z) (live : bool) (path_bytes : Z) : HistoryUsage :=
  {| live_document_bytes := match size with Some bytes => if live then sat_add (live_document_bytes u) bytes else live_document_bytes u | None => live_document_bytes u end;
     historical_document_bytes := match size with Some bytes => if live then historical_document_bytes u else sat_add (historical_document_bytes u) bytes | None => historical_document_bytes u end;
     path_and_index_bytes := path_bytes;
     version_metadata_bytes := sat_add (version_metadata_bytes u) HISTORY_VERSION_METADATA_BYTES;
     tombstone_bytes := match size with Some _ => tombstone_bytes u | None => sat_add (tombstone_bytes u) HISTORY_TOMBSTONE_BYTES end;
     commit_time_bytes := commit_time_bytes u; total_bytes := total_bytes u;
     u_versions := sat_add (u_versions u) 1;
     u_tombstones := match size with Some _ => u_tombstones u | None => sat_add (u_tombstones u) 1 end;
     u_paths := u_paths u; u_commit_times := u_commit_times u |}.

Fixpoint path_usage_loop (p : DocumentPath) (u : HistoryUsage) (sizes : list (option Z)) : HistoryUsage :=
  match sizes with
  | [] => u
  | [size] => charge_version u size true (history_path_and_index_bytes p (bool_decide (is_Some size)))
  | size :: sizes => path_usage_loop p (charge_version u size false (path_and_index_bytes u)) sizes
  end.

Definition one_path : HistoryUsage :=
  {| live_document_bytes := 0; historical_document_bytes := 0; path_and_index_bytes := 0; version_metadata_bytes := 0; tombstone_bytes := 0; commit_time_bytes := 0;
     total_bytes := 0; u_versions := 0; u_tombstones := 0; u_paths := 1; u_commit_times := 0 |}.

Definition history_path_usage_from_sizes (p : DocumentPath) (sizes : list (option Z)) : HistoryUsage :=
  match sizes with [] => no_usage | _ => finish_history_usage (path_usage_loop p one_path sizes) end.

Definition history_document_sizes (vs : Versions) : list (option Z) := map (fun v => logical_bytes <$> v.2) vs.

Definition history_path_usage (p : DocumentPath) (vs : Versions) : HistoryUsage := history_path_usage_from_sizes p (history_document_sizes vs).

(** [partition_point]: the length of the prefix on which the predicate holds. *)
Fixpoint partition_point {A} (f : A -> bool) (l : list A) : nat :=
  match l with [] => 0%nat | x :: l => if f x then S (partition_point f l) else 0%nat end.

Definition at_or_before (floor : CommitVersion) (v : CommitVersion * option RetainedDocument) : bool := v.1 <=? floor.

(** [versions.partition_point(|(version, _)| *version <= floor).saturating_sub(1)] *)
Definition floor_cut (vs : Versions) (floor : CommitVersion) : nat := (partition_point (at_or_before floor) vs - 1)%nat.

(** [matches!(versions, [(version, None)] if *version <= floor)] *)
Definition dead (vs : Versions) (floor : CommitVersion) : bool := match vs with [(version, None)] => version <=? floor | _ => false end.

Definition history_path_usage_after_floor (p : DocumentPath) (vs : Versions) (floor : CommitVersion) : HistoryUsage :=
  let remaining := drop (floor_cut vs floor) vs in
  if dead remaining floor then no_usage else history_path_usage p remaining.

Definition projected_prefix (existing : Versions) (next_version floor : CommitVersion) : nat :=
  (partition_point (at_or_before floor) existing + (if (next_version <=? floor)%Z then 1 else 0))%nat.

Definition projected_history_path_reclaim (p : DocumentPath) (existing : Versions) (after_size : option Z) (next_version floor : CommitVersion) : HistoryUsage :=
  let projected_usage := history_path_usage_from_sizes p (history_document_sizes existing ++ [after_size]) in
  let cut := (projected_prefix existing next_version floor - 1)%nat in
  let projected_after_floor :=
    if bool_decide (cut = length existing) && bool_decide (after_size = None) && (next_version <=? floor) then no_usage
    else history_path_usage_from_sizes p (history_document_sizes (drop cut existing) ++ [after_size]) in
  subtract_history_usage projected_usage projected_after_floor.

Definition history_dropped_prefix_usage (sizes : list (option Z)) : HistoryUsage :=
  finish_history_usage (fold_left (fun u size => charge_version u size false (path_and_index_bytes u)) sizes no_usage).

Definition history_path_reclaim_unsaturated (p : DocumentPath) (vs : Versions) (floor : CommitVersion) : HistoryUsage :=
  let cut := floor_cut vs floor in
  if dead (drop cut vs) floor then history_path_usage p vs else history_dropped_prefix_usage (history_document_sizes (take cut vs)).

Definition projected_history_path_reclaim_unsaturated (p : DocumentPath) (existing : Versions) (after_size : option Z) (next_version floor : CommitVersion) : HistoryUsage :=
  let cut := (projected_prefix existing next_version floor - 1)%nat in
  if bool_decide (cut = length existing) && bool_decide (after_size = None) && (next_version <=? floor)
  then history_path_usage_from_sizes p (history_document_sizes existing ++ [after_size])
  else history_dropped_prefix_usage (history_document_sizes (take cut existing)).

(** ** The unbounded charge *)

(** What is charged for [sizes] once they are not the newest version of their path, without bounds. *)
Definition older_charge (sizes : list (option Z)) : HistoryUsage :=
  let n := Z.of_nat (length sizes) in
  let dead := z_sum (fun size => match size with Some _ => 0 | None => 1 end) sizes in
  {| live_document_bytes := 0; historical_document_bytes := z_sum (default 0) sizes; path_and_index_bytes := 0; version_metadata_bytes := 16 * n; tombstone_bytes := dead;
     commit_time_bytes := 0; total_bytes := 0; u_versions := n; u_tombstones := dead; u_paths := 0; u_commit_times := 0 |}.

(** The newest version, which carries what is charged once per path. *)
Definition newest_charge (p : DocumentPath) (size : option Z) : HistoryUsage :=
  let dead := match size with Some _ => 0 | None => 1 end in
  {| live_document_bytes := default 0 size; historical_document_bytes := 0; path_and_index_bytes := history_path_and_index_bytes p (bool_decide (is_Some size));
     version_metadata_bytes := 16; tombstone_bytes := dead; commit_time_bytes := 0; total_bytes := 0; u_versions := 1; u_tombstones := dead; u_paths := 1; u_commit_times := 0 |}.

Definition plus_usage : HistoryUsage -> HistoryUsage -> HistoryUsage := combine_usage Z.add.

(** A charge as the machine holds it. *)
Definition saturated (u : HistoryUsage) : HistoryUsage := combine_usage (fun a _ => saturating u64 a) u u.
Definition bounded (u : HistoryUsage) : HistoryUsage := finish_history_usage (saturated u).

Definition nonneg_usage (u : HistoryUsage) : Prop := Forall (fun c => 0 <= c) (components u).
Definition size_ok (size : option Z) : Prop := 0 <= default 0 size.

Lemma usage_ext a b :
  live_document_bytes a = live_document_bytes b -> historical_document_bytes a = historical_document_bytes b -> path_and_index_bytes a = path_and_index_bytes b ->
  version_metadata_bytes a = version_metadata_bytes b -> tombstone_bytes a = tombstone_bytes b -> commit_time_bytes a = commit_time_bytes b -> total_bytes a = total_bytes b ->
  u_versions a = u_versions b -> u_tombstones a = u_tombstones b -> u_paths a = u_paths b -> u_commit_times a = u_commit_times b -> a = b.
Proof. destruct a, b. cbn. by intros -> -> -> -> -> -> -> -> -> -> ->. Qed.

(** The total is recomputed. *)
Lemma finish_ext a b : components a = components b -> finish_history_usage a = finish_history_usage b.
Proof. destruct a, b. unfold finish_history_usage. cbn. by intros [= -> -> -> -> -> -> -> -> -> ->]. Qed.

(** Two records of which the fields agree by arithmetic. *)
Ltac usage_solve := apply usage_ext; cbn -[saturating Z.mul Z.of_nat]; unfold sat_add, sat_sub, saturating, HISTORY_VERSION_METADATA_BYTES, HISTORY_TOMBSTONE_BYTES, HISTORY_COMMIT_TIME_BYTES; cbn -[Z.mul Z.of_nat] in *; try lia.

Ltac each_component := repeat apply Forall_cons_2; try apply Forall_nil_2; cbn -[history_path_and_index_bytes].

Lemma nonneg_components u : nonneg_usage u ->
  0 <= live_document_bytes u /\ 0 <= historical_document_bytes u /\ 0 <= path_and_index_bytes u /\ 0 <= version_metadata_bytes u /\ 0 <= tombstone_bytes u /\ 0 <= commit_time_bytes u /\
  0 <= u_versions u /\ 0 <= u_tombstones u /\ 0 <= u_paths u /\ 0 <= u_commit_times u.
Proof. unfold nonneg_usage, components. rewrite !Forall_cons. tauto. Qed.

Lemma sum_nonneg sizes : Forall size_ok sizes -> 0 <= z_sum (default 0) sizes.
Proof. unfold z_sum. induction 1 as [|x l Hx _ IH]; cbn; [done|]. unfold size_ok in Hx. lia. Qed.

Lemma dead_nonneg (sizes : list (option Z)) : 0 <= z_sum (fun size => match size with Some _ => 0 | None => 1 end) sizes.
Proof. apply z_sum_nonneg. by intros [|]. Qed.

Lemma path_and_index_nonneg p live : 0 <= history_path_and_index_bytes p live.
Proof. unfold history_path_and_index_bytes, sat_add, saturating. cbn [int_min int_max u64]. lia. Qed.

Lemma older_nonneg sizes : Forall size_ok sizes -> nonneg_usage (older_charge sizes).
Proof. intros H. pose proof (sum_nonneg sizes H). pose proof (dead_nonneg sizes). unfold nonneg_usage, components, older_charge. each_component; lia. Qed.

Lemma newest_nonneg p size : size_ok size -> nonneg_usage (newest_charge p size).
Proof.
  intros H. pose proof (path_and_index_nonneg p (bool_decide (is_Some size))). unfold nonneg_usage, components, newest_charge. 
  unfold size_ok in H. destruct size; each_component; (done || lia).
Qed.

Lemma plus_nonneg a b : nonneg_usage a -> nonneg_usage b -> nonneg_usage (plus_usage a b).
Proof. intros Ha%nonneg_components Hb%nonneg_components. unfold nonneg_usage, components, plus_usage. each_component; lia. Qed.

Lemma z_sum_app {A} (f : A -> Z) l m : z_sum f (l ++ m) = z_sum f l + z_sum f m.
Proof. unfold z_sum. induction l as [|x l IH]; cbn; [done|]. rewrite IH. lia. Qed.

Lemma older_app l m : older_charge (l ++ m) = plus_usage (older_charge l) (older_charge m).
Proof. unfold older_charge. rewrite !z_sum_app, length_app. usage_solve. Qed.

Lemma plus_assoc a b c : plus_usage (plus_usage a b) c = plus_usage a (plus_usage b c).
Proof. apply usage_ext; cbn; lia. Qed.

(** ** Saturating charges are the bounded image of the unbounded ones *)

Lemma charge_older u size : nonneg_usage u -> total_bytes u = 0 -> size_ok size ->
  charge_version (saturated u) size false (path_and_index_bytes (saturated u)) = saturated (plus_usage u (older_charge [size])).
Proof.
  intros Hu%nonneg_components Ht Hs. unfold size_ok in Hs. destruct size as [bytes|]; cbn in Hs; usage_solve.
Qed.

Lemma older_fold sizes : Forall size_ok sizes -> forall u, nonneg_usage u -> total_bytes u = 0 ->
  fold_left (fun u size => charge_version u size false (path_and_index_bytes u)) sizes (saturated u) = saturated (plus_usage u (older_charge sizes)).
Proof.
  induction 1 as [|size sizes Hs Hsizes IH]; intros u Hu Ht; cbn [fold_left].
  - apply nonneg_components in Hu. usage_solve.
  - rewrite charge_older, IH by (done || by apply plus_nonneg, older_nonneg; [|constructor]). f_equal. rewrite plus_assoc. f_equal. by rewrite <- (older_app [size] sizes).
Qed.

Lemma dropped_bounded sizes : Forall size_ok sizes -> history_dropped_prefix_usage sizes = bounded (older_charge sizes).
Proof.
  intros Hs. unfold history_dropped_prefix_usage, bounded. f_equal. assert (H0 : no_usage = saturated no_usage) by reflexivity. rewrite H0 at 1. rewrite older_fold; [|done|repeat constructor; done|done].
  f_equal.
Qed.

Lemma path_loop p newest : forall sizes u,
  path_usage_loop p u (sizes ++ [newest]) =
  charge_version (fold_left (fun u size => charge_version u size false (path_and_index_bytes u)) sizes u) newest true (history_path_and_index_bytes p (bool_decide (is_Some newest))).
Proof.
  induction sizes as [|size sizes IH]; intros u; [done|]. cbn [app fold_left]. rewrite <- IH. destruct sizes; done.
Qed.

Lemma path_and_index_fits p live : saturating u64 (history_path_and_index_bytes p live) = history_path_and_index_bytes p live.
Proof. apply saturating_id. unfold history_path_and_index_bytes, sat_add. apply saturating_fits. by vm_compute. Qed.

(** The charge of a path with a newest version. *)
Lemma path_bounded p sizes newest : Forall size_ok sizes -> size_ok newest ->
  history_path_usage_from_sizes p (sizes ++ [newest]) = bounded (plus_usage (older_charge sizes) (newest_charge p newest)).
Proof.
  intros Hs Hn. unfold history_path_usage_from_sizes. destruct (sizes ++ [newest]) as [|size l] eqn:E; [by destruct sizes|]. rewrite <- E, path_loop. unfold bounded. f_equal.
  assert (H1 : one_path = saturated one_path) by reflexivity. rewrite H1, older_fold; [|done|repeat constructor; done|done].
  pose proof (path_and_index_fits p (bool_decide (is_Some newest))) as Hfit. unfold size_ok in Hn. pose proof (sum_nonneg sizes Hs). pose proof (dead_nonneg sizes).
  apply usage_ext; try (cbn [path_and_index_bytes charge_version saturated combine_usage plus_usage older_charge newest_charge]; rewrite Z.add_0_l; by rewrite Hfit).
  all: destruct newest; cbn -[saturating Z.mul Z.of_nat] in *; unfold sat_add, saturating, HISTORY_VERSION_METADATA_BYTES, HISTORY_TOMBSTONE_BYTES; cbn -[Z.mul Z.of_nat] in *; try lia.
Qed.

Lemma sat_sub_part a b : 0 <= a -> 0 <= b -> saturating u64 (a + b) < int_max u64 -> sat_sub (saturating u64 (a + b)) (saturating u64 b) = saturating u64 a.
Proof. unfold sat_sub, saturating. cbn [int_min int_max u64]. lia. Qed.

Lemma unsaturated_components u : unsaturated u = true ->
  live_document_bytes u < int_max u64 /\ historical_document_bytes u < int_max u64 /\ path_and_index_bytes u < int_max u64 /\ version_metadata_bytes u < int_max u64 /\
  tombstone_bytes u < int_max u64 /\ commit_time_bytes u < int_max u64 /\ u_versions u < int_max u64 /\ u_tombstones u < int_max u64 /\ u_paths u < int_max u64 /\ u_commit_times u < int_max u64.
Proof. unfold unsaturated, components. cbn [forallb]. rewrite !andb_true_iff, !Z.ltb_lt. tauto. Qed.

(** The parts of an unsaturated whole are exact. *)
Lemma subtract_bounded a b : nonneg_usage a -> nonneg_usage b -> unsaturated (bounded (plus_usage a b)) = true ->
  subtract_history_usage (bounded (plus_usage a b)) (bounded b) = bounded a.
Proof.
  intros Ha%nonneg_components Hb%nonneg_components Hu%unsaturated_components. unfold subtract_history_usage, bounded at 3. f_equal.
  destruct Ha as (?&?&?&?&?&?&?&?&?&?), Hb as (?&?&?&?&?&?&?&?&?&?), Hu as (?&?&?&?&?&?&?&?&?&?).
  apply usage_ext; first [reflexivity | by apply sat_sub_part].
Qed.

Lemma bounded_again u : nonneg_usage u -> subtract_history_usage (bounded u) no_usage = bounded u.
Proof. intros Hu%nonneg_components. unfold subtract_history_usage, bounded at 2. f_equal. apply usage_ext; try reflexivity; cbn -[saturating]; unfold sat_sub, saturating; cbn [int_min int_max u64]; lia. Qed.

(** ** What a compaction reclaims *)

Definition versions_ok (vs : Versions) : Prop := Forall size_ok (history_document_sizes vs).

Lemma partition_point_le {A} (f : A -> bool) l : (partition_point f l <= length l)%nat.
Proof. induction l as [|x l IH]; cbn; [done|]. destruct (f x); lia. Qed.

Lemma partition_point_take {A} (f : A -> bool) l : Forall (fun x => f x = true) (take (partition_point f l) l).
Proof. induction l as [|x l IH]; cbn; [done|]. destruct (f x) eqn:E; cbn; by constructor. Qed.

Lemma sizes_take n vs : history_document_sizes (take n vs) = take n (history_document_sizes vs).
Proof. apply fmap_take. Qed.

Lemma sizes_drop n vs : history_document_sizes (drop n vs) = drop n (history_document_sizes vs).
Proof. apply fmap_drop. Qed.

(** Dropping a prefix of the versions of a path reclaims the charge of that prefix. *)
Lemma reclaim_prefix p dropped sizes newest : Forall size_ok (dropped ++ sizes ++ [newest]) ->
  unsaturated (history_path_usage_from_sizes p (dropped ++ sizes ++ [newest])) = true ->
  subtract_history_usage (history_path_usage_from_sizes p (dropped ++ sizes ++ [newest])) (history_path_usage_from_sizes p (sizes ++ [newest])) = history_dropped_prefix_usage dropped.
Proof.
  rewrite !Forall_app, Forall_singleton. intros (Hd & Hs & Hn). rewrite app_assoc, !path_bounded, dropped_bounded, older_app, plus_assoc by (done || by apply Forall_app).
  apply subtract_bounded; [by apply older_nonneg|]. apply plus_nonneg; [by apply older_nonneg|by apply newest_nonneg].
Qed.

Lemma exists_last_dec {A} (l : list A) : l = [] \/ exists init newest, l = init ++ [newest].
Proof. induction l as [|x l _] using rev_ind; [by left|right; by exists l, x]. Qed.

Lemma usage_whole p sizes : Forall size_ok sizes -> subtract_history_usage (history_path_usage_from_sizes p sizes) no_usage = history_path_usage_from_sizes p sizes.
Proof.
  intros Hs. destruct (exists_last_dec sizes) as [->|(init & newest & ->)]; [reflexivity|]. apply Forall_app in Hs as [Hs [Hn _]%Forall_cons]. rewrite path_bounded by done.
  apply bounded_again. apply plus_nonneg; [by apply older_nonneg|by apply newest_nonneg].
Qed.

(** What a compaction reclaims from a path, computed by visiting only the versions that it drops, is the difference of
    the usage of the path before and after, while that usage is below saturation; and so it is for a path to which a
    commit is about to add a version. *)
Theorem reclaim_exact (p : DocumentPath) (vs : Versions) (after_size : option Z) (next_version floor : CommitVersion) : versions_ok vs -> size_ok after_size ->
  (unsaturated (history_path_usage p vs) = true ->
   history_path_reclaim_unsaturated p vs floor = subtract_history_usage (history_path_usage p vs) (history_path_usage_after_floor p vs floor)) /\
  (unsaturated (history_path_usage_from_sizes p (history_document_sizes vs ++ [after_size])) = true ->
   projected_history_path_reclaim_unsaturated p vs after_size next_version floor = projected_history_path_reclaim p vs after_size next_version floor).
Proof.
  intros Hvs Hafter. split; intros Hu.
  - unfold history_path_reclaim_unsaturated, history_path_usage_after_floor. destruct (dead _ _); [symmetry; by apply usage_whole|].
    unfold history_path_usage in *. rewrite sizes_take, sizes_drop. set (cut := floor_cut vs floor). destruct (exists_last_dec (history_document_sizes vs)) as [He|(init & newest & He)].
    + rewrite He, take_nil, drop_nil. reflexivity.
    + assert (Hcut : (cut <= length init)%nat).
      { unfold cut, floor_cut. pose proof (partition_point_le (at_or_before floor) vs). apply (f_equal length) in He. rewrite length_app in He. unfold history_document_sizes in He. rewrite length_map in He. cbn in He. lia. }
      unfold versions_ok in Hvs. rewrite He in *. rewrite take_app_le, drop_app_le by done.
      assert (Hsplit : init ++ [newest] = take cut init ++ drop cut init ++ [newest]) by by rewrite app_assoc, take_drop. rewrite Hsplit in *. symmetry. by apply reclaim_prefix.
  - unfold projected_history_path_reclaim_unsaturated, projected_history_path_reclaim. assert (Hall : Forall size_ok (history_document_sizes vs ++ [after_size])) by (apply Forall_app; split; [done|by apply Forall_singleton]).
    destruct (_ && _ && _); [symmetry; by apply usage_whole|]. set (cut := (projected_prefix vs next_version floor - 1)%nat). rewrite sizes_take, sizes_drop.
    assert (Hsplit : history_document_sizes vs ++ [after_size] = take cut (history_document_sizes vs) ++ drop cut (history_document_sizes vs) ++ [after_size]) by by rewrite app_assoc, take_drop.
    rewrite Hsplit in *. symmetry. by apply reclaim_prefix.
Qed.

Definition demo_version (n size : Z) : CommitVersion * option RetainedDocument :=
  (n, Some {| document := {| path := demo_path; fields := ∅; create_time := 0; update_time := n; version := n |}; logical_bytes := size |}).

Definition demo_versions : Versions := [demo_version 1 40; demo_version 4 50; (7, None); demo_version 9 60].

Example usage_ex :
  total_bytes (history_path_usage demo_path demo_versions) = 422 /\ floor_cut demo_versions 7 = 2%nat /\ floor_cut demo_versions 8 = 2%nat /\ floor_cut demo_versions 0 = 0%nat /\
  total_bytes (history_path_reclaim_unsaturated demo_path demo_versions 8) = 122 /\
  history_path_usage_after_floor demo_path [(7, None)] 7 = no_usage /\ history_path_usage_after_floor demo_path [(7, None)] 6 <> no_usage.
Proof. vm_compute. repeat split; done. Qed.

Example reclaim_exact_witness :
  history_path_reclaim_unsaturated demo_path demo_versions 8 = subtract_history_usage (history_path_usage demo_path demo_versions) (history_path_usage_after_floor demo_path demo_versions 8).
Proof.
  assert (Hok : versions_ok demo_versions) by (unfold versions_ok; repeat constructor; vm_compute; discriminate).
  apply (reclaim_exact demo_path demo_versions None 10 8); [exact Hok|vm_compute; discriminate|vm_compute; reflexivity].
Defined.

(** ** The charge of histories *)

(** The unbounded charge of a path. *)
Definition path_charge (p : DocumentPath) (sizes : list (option Z)) : HistoryUsage :=
  match last sizes with None => no_usage | Some newest => plus_usage (older_charge (removelast sizes)) (newest_charge p newest) end.

Lemma path_charge_snoc p sizes newest : path_charge p (sizes ++ [newest]) = plus_usage (older_charge sizes) (newest_charge p newest).
Proof. unfold path_charge. by rewrite last_snoc, removelast_last. Qed.

Lemma path_charge_nonneg p sizes : Forall size_ok sizes -> nonneg_usage (path_charge p sizes).
Proof.
  destruct (exists_last_dec sizes) as [->|(init & newest & ->)]; [intros _; repeat constructor; done|]. rewrite Forall_app, Forall_singleton, path_charge_snoc. intros [H1 H2].
  apply plus_nonneg; [by apply older_nonneg|by apply newest_nonneg].
Qed.

Lemma path_usage_bounded p sizes : Forall size_ok sizes -> history_path_usage_from_sizes p sizes = bounded (path_charge p sizes).
Proof.
  destruct (exists_last_dec sizes) as [->|(init & newest & ->)]; [done|]. rewrite Forall_app, Forall_singleton, path_charge_snoc. intros [H1 H2]. by apply path_bounded.
Qed.

Lemma path_charge_app p dropped sizes : sizes <> [] -> path_charge p (dropped ++ sizes) = plus_usage (older_charge dropped) (path_charge p sizes).
Proof.
  intros Hne. destruct (exists_last_dec sizes) as [->|(init & newest & ->)]; [done|]. rewrite app_assoc, !path_charge_snoc, older_app. apply plus_assoc.
Qed.

Definition sum_bytes (u : HistoryUsage) : Z :=
  live_document_bytes u + historical_document_bytes u + path_and_index_bytes u + version_metadata_bytes u + tombstone_bytes u + commit_time_bytes u.

Lemma sat_add_bounded a b : 0 <= a -> 0 <= b -> sat_add (saturating u64 a) (saturating u64 b) = saturating u64 (a + b).
Proof. unfold sat_add, saturating. cbn [int_min int_max u64]. lia. Qed.

Lemma bounded_total u : nonneg_usage u -> total_bytes (bounded u) = saturating u64 (sum_bytes u).
Proof.
  intros (?&?&?&?&?&?&_)%nonneg_components. unfold bounded, finish_history_usage, sum_bytes. cbn [total_bytes live_document_bytes historical_document_bytes path_and_index_bytes version_metadata_bytes tombstone_bytes commit_time_bytes saturated combine_usage].
  rewrite !sat_add_bounded by lia. done.
Qed.

Definition below_max (u : HistoryUsage) : Prop := Forall (fun c => c < int_max u64) (components u) /\ sum_bytes u < int_max u64.

Lemma saturating_below z : 0 <= z -> saturating u64 z < int_max u64 <-> z < int_max u64.
Proof. unfold saturating. cbn [int_min int_max u64]. lia. Qed.

Lemma unsaturated_bounded u : nonneg_usage u -> unsaturated (bounded u) = true <-> below_max u.
Proof.
  intros Hu. unfold unsaturated, below_max. rewrite andb_true_iff, Z.ltb_lt, bounded_total by done.
  assert (Hsum : 0 <= sum_bytes u) by (apply nonneg_components in Hu; unfold sum_bytes; lia). rewrite saturating_below by done.
  apply nonneg_components in Hu as (?&?&?&?&?&?&?&?&?&?). unfold components. cbn [forallb]. rewrite !andb_true_iff, !Z.ltb_lt, !Forall_cons.
  cbn [live_document_bytes historical_document_bytes path_and_index_bytes version_metadata_bytes tombstone_bytes commit_time_bytes u_versions u_tombstones u_paths u_commit_times bounded finish_history_usage saturated combine_usage].
  rewrite !saturating_below by done. split; [intros (?&?&?&?&?&?&?&?&?&?&?&?); split_and!; try done; apply Forall_nil_2|tauto].
Qed.

Lemma below_max_plus a b : nonneg_usage a -> nonneg_usage b -> below_max (plus_usage a b) -> below_max a /\ below_max b.
Proof.
  intros Ha%nonneg_components Hb%nonneg_components. unfold below_max, sum_bytes, components, plus_usage. cbn -[int_max]. rewrite !Forall_cons, !Forall_nil. intros [H1 H2]. split; (split_and!; try done; lia).
Qed.

Lemma add_bounded a b : nonneg_usage a -> nonneg_usage b -> add_history_usage (bounded a) (bounded b) = bounded (plus_usage a b).
Proof.
  intros (?&?&?&?&?&?&?&?&?&?)%nonneg_components (?&?&?&?&?&?&?&?&?&?)%nonneg_components. unfold add_history_usage, bounded at 3. f_equal.
  apply usage_ext; first [reflexivity | by apply sat_add_bounded].
Qed.

Lemma bounded_none : bounded no_usage = no_usage.
Proof. reflexivity. Qed.

Lemma plus_comm a b : plus_usage a b = plus_usage b a.
Proof. apply usage_ext; cbn; lia. Qed.

Lemma plus_none u : total_bytes u = 0 -> plus_usage u no_usage = u.
Proof. intros H. apply usage_ext; cbn; lia. Qed.

(** Removing a part of an exact usage is certified. *)
Lemma checked_change_exact a b : nonneg_usage a -> nonneg_usage b -> below_max (plus_usage a b) -> checked_history_change (bounded (plus_usage a b)) (bounded b) no_usage = true.
Proof.
  intros Ha Hb Hmax. pose proof (below_max_plus a b Ha Hb Hmax) as [Hma Hmb]. unfold checked_history_change. rewrite !andb_true_iff. split_and!; [by apply unsaturated_bounded; [apply plus_nonneg|]|by apply unsaturated_bounded|done|].
  destruct Hmax as [Hmax _], Hma as [Hma _], Hmb as [Hmb _]. apply nonneg_components in Ha as (?&?&?&?&?&?&?&?&?&?), Hb as (?&?&?&?&?&?&?&?&?&?).
  unfold components in Hmax, Hma, Hmb. rewrite !Forall_cons in Hmax, Hma, Hmb. cbn in Hmax, Hma, Hmb.
  assert (Hone : forall x y, 0 <= x -> 0 <= y -> x + y < int_max u64 -> match (remaining ← checked u64 (saturating u64 (x + y) - saturating u64 y); checked u64 (remaining + 0)) with Some result => result <? int_max u64 | None => false end = true).
  { intros x y Hx Hy Hxy. rewrite (saturating_id u64 (x + y)), (saturating_id u64 y) by (unfold fits; cbn [int_min int_max u64] in *; lia). replace (x + y - y) with x by lia. unfold checked. rewrite decide_True by (unfold fits; cbn [int_min int_max u64] in *; lia).
    cbn. rewrite Z.add_0_r, decide_True by (unfold fits; cbn [int_min int_max u64] in *; lia). apply Z.ltb_lt. cbn [int_min int_max u64] in *. lia. }
  unfold components. cbn [all_change no_usage live_document_bytes historical_document_bytes path_and_index_bytes version_metadata_bytes tombstone_bytes commit_time_bytes u_versions u_tombstones u_paths u_commit_times bounded finish_history_usage saturated combine_usage plus_usage].
  rewrite !andb_true_iff. split_and!; try done; apply Hone; (done || tauto).
Qed.
