(* ===== verification/FsListing.v ===== *)
(** * The listing trie

    Models [ListingTrie] of [crates/fireemu-core-firestore/src/store.rs]: the hierarchy of the
    retained document paths, by collection and document, with the counts of retained and of live
    paths below each node.  A count is a [usize] that counts paths in memory: it does not
    overflow. *)
From S2P Require Import Prelude Text Ids FsDocPath.
#[local] Set Warnings "-register-all".

#[global] Instance DocumentPath_countable : Countable DocumentPath.
Proof. apply (inj_countable' (fun p => (project p, database p, pairs p)) (fun t => {| project := t.1.1; database := t.1.2; pairs := t.2 |})). by intros []. Defined.

(** [ListingTrieDocument]; its children are a [ListingTrie], a map of collections, each with its [documents] and its
    [live_candidates]. *)
Inductive TrieNode := Node {
  retained_subtree_paths : nat; live_subtree_paths : nat; retained_here : option DocumentPath; representative : option DocumentPath;
  children : gmap string (gmap string TrieNode * gset string) }.

Abbreviation ListingTrieCollection := (gmap string TrieNode * gset string)%type.
Abbreviation ListingTrie := (gmap string ListingTrieCollection).

Definition documents (c : ListingTrieCollection) : gmap string TrieNode := c.1.
Definition live_candidates (c : ListingTrieCollection) : gset string := c.2.

Definition empty_node : TrieNode := Node 0 0 None None ∅.

(** [.entry(collection).or_default()] and [.documents.entry(document).or_default()] *)
Definition collection_or_default (t : ListingTrie) (c : string) : ListingTrieCollection := default (∅, ∅) (t !! c).
Definition node_or_default (c : ListingTrieCollection) (d : string) : TrieNode := default empty_node (documents c !! d).

Fixpoint insert_retained_pairs (t : ListingTrie) (ps : list (string * string)) (p : DocumentPath) : ListingTrie :=
  match ps with
  | [] => t
  | (c, d) :: rest =>
      let collection := collection_or_default t c in
      let node := node_or_default collection d in
      let node := Node (retained_subtree_paths node + 1) (live_subtree_paths node) (match rest with [] => Some p | _ => retained_here node end) (Some p)
                    (match rest with [] => children node | _ => insert_retained_pairs (children node) rest p end) in
      <[c := (<[d := node]> (documents collection), live_candidates collection)]> t
  end.

Definition insert_retained (t : ListingTrie) (p : DocumentPath) : ListingTrie := insert_retained_pairs t (pairs p) p.

Fixpoint remove_retained_pairs (t : ListingTrie) (ps : list (string * string)) : ListingTrie :=
  match ps with
  | [] => t
  | (c, d) :: rest =>
      match t !! c with
      | None => t
      | Some collection =>
          let collection :=
            match documents collection !! d with
            | None => collection
            | Some node =>
                let node := Node (retained_subtree_paths node - 1) (live_subtree_paths node) (match rest with [] => None | _ => retained_here node end) (representative node)
                              (match rest with [] => children node | _ => remove_retained_pairs (children node) rest end) in
                if bool_decide (retained_subtree_paths node = 0%nat) then (delete d (documents collection), live_candidates collection ∖ {[d]})
                else (<[d := node]> (documents collection), live_candidates collection)
            end in
          if bool_decide (documents collection = ∅) then delete c t else <[c := collection]> t
      end
  end.

Definition remove_retained (t : ListingTrie) (p : DocumentPath) : ListingTrie := remove_retained_pairs t (pairs p).

Fixpoint adjust_live_pairs (t : ListingTrie) (ps : list (string * string)) (increase : bool) : ListingTrie :=
  match ps with
  | [] => t
  | (c, d) :: rest =>
      match t !! c with
      | None => t
      | Some collection =>
          match documents collection !! d with
          | None => t
          | Some node =>
              let was_live := (0 <? live_subtree_paths node)%nat in
              let live := if increase then (live_subtree_paths node + 1)%nat else (live_subtree_paths node - 1)%nat in
              let node := Node (retained_subtree_paths node) live (retained_here node) (representative node)
                            (match rest with [] => children node | _ => adjust_live_pairs (children node) rest increase end) in
              let is_live := (0 <? live)%nat in
              let candidates := if Bool.eqb was_live is_live then live_candidates collection
                                else if is_live then {[d]} ∪ live_candidates collection else live_candidates collection ∖ {[d]} in
              <[c := (<[d := node]> (documents collection), candidates)]> t
          end
      end
  end.

Definition adjust_live (t : ListingTrie) (p : DocumentPath) (increase : bool) : ListingTrie := adjust_live_pairs t (pairs p) increase.

Fixpoint under_pairs (t : ListingTrie) (ps : list (string * string)) : option ListingTrie :=
  match ps with
  | [] => Some t
  | (c, d) :: ps => collection ← t !! c; node ← documents collection !! d; under_pairs (children node) ps
  end.

Definition collections_under (t : ListingTrie) (parent : option DocumentPath) : option ListingTrie :=
  match parent with None => Some t | Some parent => under_pairs t (pairs parent) end.

Definition collection (t : ListingTrie) (parent : option DocumentPath) (c : string) : option ListingTrieCollection := t' ← collections_under t parent; t' !! c.
