(* ===== verification/FsTrie.v ===== *)
(** * The listing trie is a view of the retained paths

    What every node of the trie of [FsListing.v] says of the paths below it: how many are retained,
    how many are live, the path that ends there; and that each operation of the trie keeps it so. *)
From S2P Require Import Prelude Text Ids FsDocPath FsListing.
#[local] Set Warnings "-register-all".
#[local] Open Scope nat_scope.

(** A place in the hierarchy: the collections and documents from the root. *)
Abbreviation place := (list (string * string)).

(** The paths of a set at a place and below it. *)
Definition below_place (q : place) (s : gset DocumentPath) : gset DocumentPath := filter (fun p => q `prefix_of` pairs p) s.

Definition node_at (t : ListingTrie) (c d : string) : option TrieNode := collection ← t !! c; documents collection !! d.
Definition candidates_at (t : ListingTrie) (c : string) : gset string := from_option live_candidates ∅ (t !! c).

Section view.
Context (retained live : gset DocumentPath).

(** A node counts the paths below it, and a collection lists its documents with live ones. *)
Record node_right (q : place) (n : TrieNode) : Prop := {
  nr_retained : retained_subtree_paths n = size (below_place q retained);
  nr_some : below_place q retained <> ∅;
  nr_live : live_subtree_paths n = size (below_place q live);
  nr_here : match retained_here n with Some p => p ∈ retained /\ pairs p = q | None => forall p, p ∈ retained -> pairs p <> q end;
  nr_representative : exists p, representative n = Some p /\ q `prefix_of` pairs p }.

(** The trie below a place: exactly the places with retained paths have nodes, all of them right, and no collection is empty. *)
Inductive trie_view : place -> ListingTrie -> Prop :=
| trie_at q t :
    (forall c collection, t !! c = Some collection -> documents collection <> ∅) ->
    (forall c d, node_at t c d = None -> below_place (q ++ [(c, d)]) retained = ∅) ->
    (forall c d n, node_at t c d = Some n -> node_right (q ++ [(c, d)]) n) ->
    (forall c d, d ∈ candidates_at t c <-> below_place (q ++ [(c, d)]) live <> ∅) ->
    (forall c d n, node_at t c d = Some n -> trie_view (q ++ [(c, d)]) (children n)) ->
    trie_view q t.
End view.

Lemma below_elem q s p : p ∈ below_place q s <-> q `prefix_of` pairs p /\ p ∈ s.
Proof. unfold below_place. by rewrite elem_of_filter. Qed.

Lemma below_same q s s' : (forall p, q `prefix_of` pairs p -> p ∈ s <-> p ∈ s') -> below_place q s = below_place q s'.
Proof. intros H. apply set_eq. intros p. rewrite !below_elem. split; intros [Hp Hin]; (split; [done|]); by apply H. Qed.

Lemma below_insert q s p : q `prefix_of` pairs p -> below_place q ({[p]} ∪ s) = {[p]} ∪ below_place q s.
Proof. intros Hp. apply set_eq. intros x. rewrite elem_of_union, !below_elem, elem_of_union, elem_of_singleton. split; [intros [? [->|?]]; auto|intros [->|[? ?]]; auto]. Qed.

Lemma below_remove q s p : below_place q (s ∖ {[p]}) = below_place q s ∖ {[p]}.
Proof. apply set_eq. intros x. rewrite elem_of_difference, !below_elem, elem_of_difference. tauto. Qed.

Lemma below_subset q s s' : s ⊆ s' -> below_place q s' = ∅ -> below_place q s = ∅.
Proof. intros Hs He. apply set_eq. intros p. split; [|by intros ?%not_elem_of_empty]. intros [Hp Hin]%below_elem. rewrite <- He. apply below_elem. split; [done|by apply Hs]. Qed.

Lemma below_nothing q q' s : q `prefix_of` q' -> below_place q s = ∅ -> below_place q' s = ∅.
Proof. intros Hq He. apply set_eq. intros p. split; [|by intros ?%not_elem_of_empty]. intros [Hp Hin]%below_elem. rewrite <- He. apply below_elem. split; [by trans q'|done]. Qed.

(** Only the paths below a place matter there. *)
Lemma node_right_same R L R' L' q n : (forall p, q `prefix_of` pairs p -> (p ∈ R <-> p ∈ R') /\ (p ∈ L <-> p ∈ L')) -> node_right R L q n -> node_right R' L' q n.
Proof.
  intros Hs [H1 H2 H3 H4 H5]. assert (HR : below_place q R = below_place q R') by (apply below_same; intros p Hp; by apply Hs). assert (HL : below_place q L = below_place q L') by (apply below_same; intros p Hp; by apply Hs).
  split; rewrite <- ?HR, <- ?HL; try done. destruct (retained_here n) as [p|].
  - destruct H4 as [Hp <-]. split; [by apply Hs|done].
  - intros p Hp <-. by apply (H4 p); [apply Hs|].
Qed.

Lemma trie_view_same R L R' L' q t : trie_view R L q t -> (forall c d p, q ++ [(c, d)] `prefix_of` pairs p -> (p ∈ R <-> p ∈ R') /\ (p ∈ L <-> p ∈ L')) -> trie_view R' L' q t.
Proof.
  induction 1 as [q t H1 H2 H3 H4 H5 IH]. intros Hbelow. split.
  - done.
  - intros c d Hn. rewrite <- (H2 c d Hn). symmetry. apply below_same. intros p Hp. by apply (Hbelow c d).
  - intros c d n Hn. apply (node_right_same R L); [by apply Hbelow|by apply H3].
  - intros c d. rewrite H4. assert (He : below_place (q ++ [(c, d)]) L = below_place (q ++ [(c, d)]) L') by (apply below_same; intros p Hp; by apply (Hbelow c d)). by rewrite He.
  - intros c d n Hn. apply (IH c d n Hn). intros c' d' p Hp. apply (Hbelow c d). etrans; [by apply prefix_app_r|exact Hp].
Qed.

Lemma empty_view R L q : L ⊆ R -> (forall c d, below_place (q ++ [(c, d)]) R = ∅) -> trie_view R L q ∅.
Proof.
  intros Hsub He. split.
  - intros c collection. by rewrite lookup_empty.
  - intros c d _. apply He.
  - intros c d n. unfold node_at. by rewrite lookup_empty.
  - intros c d. unfold candidates_at. rewrite lookup_empty. cbn [from_option]. split; [by intros ?%not_elem_of_empty|]. intros Hne. destruct Hne. by apply (below_subset _ L R).
  - intros c d n. unfold node_at. by rewrite lookup_empty.
Qed.

Lemma inv_view R L q t : trie_view R L q t ->
  (forall c collection, t !! c = Some collection -> documents collection <> ∅) /\ (forall c d, node_at t c d = None -> below_place (q ++ [(c, d)]) R = ∅) /\
  (forall c d n, node_at t c d = Some n -> node_right R L (q ++ [(c, d)]) n /\ trie_view R L (q ++ [(c, d)]) (children n)) /\ (forall c d, d ∈ candidates_at t c <-> below_place (q ++ [(c, d)]) L <> ∅).
Proof. intros H. inversion H; subst. split_and!; auto. Qed.

(** One document of one collection changes, with the paths below it. *)
Lemma update_view R L R' L' q t t' c d : trie_view R L q t ->
  (forall p, ~ q ++ [(c, d)] `prefix_of` pairs p -> (p ∈ R <-> p ∈ R') /\ (p ∈ L <-> p ∈ L')) ->
  (forall c', c' <> c -> t' !! c' = t !! c') -> (forall d', d' <> d -> node_at t' c d' = node_at t c d') -> (forall d', d' <> d -> d' ∈ candidates_at t' c <-> d' ∈ candidates_at t c) ->
  (forall collection, t' !! c = Some collection -> documents collection <> ∅) ->
  (node_at t' c d = None -> below_place (q ++ [(c, d)]) R' = ∅) ->
  (forall n, node_at t' c d = Some n -> node_right R' L' (q ++ [(c, d)]) n /\ trie_view R' L' (q ++ [(c, d)]) (children n)) ->
  (d ∈ candidates_at t' c <-> below_place (q ++ [(c, d)]) L' <> ∅) ->
  trie_view R' L' q t'.
Proof.
  intros (V1 & V2 & V3 & V4)%inv_view Hsame Hc Hd Hcand Hne Hnone Hsome Hlive.
  assert (Hother : forall c' d', (c', d') <> (c, d) -> forall p, q ++ [(c', d')] `prefix_of` pairs p -> (p ∈ R <-> p ∈ R') /\ (p ∈ L <-> p ∈ L')).
  { intros c' d' Hcd p [l1 Hp1]. apply Hsame. intros [l2 Hp2]. rewrite Hp1, <- !app_assoc in Hp2. apply app_inv_head in Hp2. cbn in Hp2. congruence. }
  assert (Hnode : forall c' d', (c', d') <> (c, d) -> node_at t' c' d' = node_at t c' d'). { intros c' d' Hcd. destruct (decide (c' = c)) as [->|Hne']; [apply Hd; congruence|]. unfold node_at. by rewrite Hc. }
  assert (Hcands : forall c' d', (c', d') <> (c, d) -> d' ∈ candidates_at t' c' <-> d' ∈ candidates_at t c'). { intros c' d' Hcd. destruct (decide (c' = c)) as [->|Hne']; [apply Hcand; congruence|]. unfold candidates_at. by rewrite Hc. }
  split.
  - intros c' collection Hl. destruct (decide (c' = c)) as [->|Hne']; [by apply Hne|]. rewrite Hc in Hl by done. by eapply V1.
  - intros c' d' Hn. destruct (decide ((c', d') = (c, d))) as [[= -> ->]|Hcd]; [by apply Hnone|]. rewrite Hnode in Hn by done. rewrite <- (V2 c' d' Hn). symmetry. apply below_same. intros p Hp. by apply (Hother c' d').
  - intros c' d' n Hn. destruct (decide ((c', d') = (c, d))) as [[= -> ->]|Hcd]; [by apply Hsome|]. rewrite Hnode in Hn by done. apply (node_right_same R L); [by apply Hother|by apply V3].
  - intros c' d'. destruct (decide ((c', d') = (c, d))) as [[= -> ->]|Hcd]; [done|]. rewrite Hcands, V4 by done.
    assert (He : below_place (q ++ [(c', d')]) L = below_place (q ++ [(c', d')]) L') by (apply below_same; intros p Hp; by apply (Hother c' d')). by rewrite He.
  - intros c' d' n Hn. destruct (decide ((c', d') = (c, d))) as [[= -> ->]|Hcd]; [by apply Hsome|]. rewrite Hnode in Hn by done. apply (trie_view_same R L); [by apply V3|]. intros c2 d2 p Hp. apply (Hother c' d' Hcd). etrans; [by apply prefix_app_r|exact Hp].
Qed.

(** ** The operations *)

Lemma place_step p (q rest : place) c d : pairs p = q ++ (c, d) :: rest -> pairs p = (q ++ [(c, d)]) ++ rest.
Proof. intros ->. by rewrite <- app_assoc. Qed.

Lemma prefix_here (q rest : place) p : pairs p = q ++ rest -> q `prefix_of` pairs p.
Proof. intros ->. by apply prefix_app_r. Qed.

(** What a node, or the one made for it, says. *)
Lemma default_right R L q t c d : trie_view R L q t -> L ⊆ R -> let n := node_or_default (collection_or_default t c) d in let q' := q ++ [(c, d)] in
  retained_subtree_paths n = size (below_place q' R) /\ live_subtree_paths n = size (below_place q' L) /\
  match retained_here n with Some p => p ∈ R /\ pairs p = q' | None => forall p, p ∈ R -> pairs p <> q' end /\ trie_view R L q' (children n).
Proof.
  intros (V1 & V2 & V3 & V4)%inv_view Hsub n q'. assert (Hn : n = default empty_node (node_at t c d)).
  { subst n. unfold node_or_default, collection_or_default, node_at. destruct (t !! c); cbn [default mbind option_bind]; [done|]. unfold documents. cbn. by rewrite lookup_empty. }
  destruct (node_at t c d) as [n0|] eqn:Hn0; cbn [default from_option] in Hn; clearbody n; subst n.
  - destruct (V3 c d n0 Hn0) as [[] ?]. by split_and!.
  - pose proof (V2 c d Hn0) as He. cbn [retained_subtree_paths live_subtree_paths retained_here children empty_node]. subst q'. rewrite He, (below_subset _ L R) by done. rewrite size_empty. split_and!; try done.
    + intros p Hp Hq. apply (not_elem_of_empty (C := gset DocumentPath) p). rewrite <- He. apply below_elem. by rewrite Hq.
    + apply empty_view; [done|]. intros c' d'. apply (below_nothing (q ++ [(c, d)])); [by apply prefix_app_r|done].
Qed.

Lemma apart_elsewhere (R : gset DocumentPath) (q : place) p rest : pairs p = q ++ rest -> forall x, ~ q `prefix_of` pairs x -> x <> p.
Proof. intros Hp x Hx ->. apply Hx. by apply (prefix_here q rest). Qed.

Lemma insert_pairs_view L p ps : forall R q t, trie_view R L q t -> L ⊆ R -> pairs p = q ++ ps -> p ∉ R -> trie_view ({[p]} ∪ R) L q (insert_retained_pairs t ps p).
Proof.
  induction ps as [|[c d] rest IH]; intros R q t Hv Hsub Hp Hnew; cbn [insert_retained_pairs].
  { apply (trie_view_same R L); [done|]. intros c d x [l Hx]. rewrite app_nil_r in Hp. split; [|done]. rewrite elem_of_union, elem_of_singleton. split; [by right|]. intros [->|]; [|done]. rewrite Hp, <- app_assoc in Hx. apply (f_equal length) in Hx. rewrite !length_app in Hx. cbn in Hx. lia. }
  destruct (default_right R L q t c d Hv Hsub) as (D1 & D2 & D3 & D4). cbv zeta in D1, D2, D3, D4. pose proof (place_step p q rest c d Hp) as Hstep. set (q' := q ++ [(c, d)]) in *. pose proof (prefix_here q' rest p Hstep) as Hpre.
  set (col := collection_or_default t c) in *. set (n := node_or_default col d) in *. set (n' := Node _ _ _ _ _).
  assert (Hbelow : below_place q' ({[p]} ∪ R) = {[p]} ∪ below_place q' R) by by apply below_insert. assert (Hnot : p ∉ below_place q' R) by (intros [_ ?]%below_elem; done).
  assert (Hcands : candidates_at t c = live_candidates col) by (unfold candidates_at, col, collection_or_default; by destruct (t !! c)).
  apply (update_view R L _ _ q t _ c d Hv); fold q'.
  - intros x Hx. split; [|done]. rewrite elem_of_union, elem_of_singleton. split; [by right|]. intros [->|]; [|done]. by destruct Hx.
  - intros c' Hc. by rewrite lookup_insert_ne.
  - intros d' Hd. unfold node_at. rewrite lookup_insert_eq. cbn [mbind option_bind documents fst]. rewrite lookup_insert_ne by done. unfold col, collection_or_default. destruct (t !! c); [done|]. cbn. by rewrite lookup_empty.
  - intros d' Hd. rewrite Hcands. unfold candidates_at. by rewrite lookup_insert_eq.
  - intros collection. rewrite lookup_insert_eq. intros [= <-]. cbn [documents fst]. apply insert_non_empty.
  - unfold node_at. rewrite lookup_insert_eq. cbn [mbind option_bind documents fst]. by rewrite lookup_insert_eq.
  - intros n0. unfold node_at. rewrite lookup_insert_eq. cbn [mbind option_bind documents fst]. rewrite lookup_insert_eq. intros [= <-]. subst n'. split.
    + split; cbn [retained_subtree_paths live_subtree_paths retained_here representative].
      * rewrite Hbelow, size_union, size_singleton, D1 by set_solver. lia.
      * rewrite Hbelow. set_solver.
      * exact D2.
      * destruct rest as [|r rest]; [split; [set_solver|by rewrite app_nil_r in Hstep]|]. destruct (retained_here n) as [x|]; [split; [set_solver|apply D3]|]. intros x Hx Hq. apply elem_of_union in Hx as [->%elem_of_singleton|Hx]; [|by apply (D3 x)].
        rewrite Hq in Hstep. apply (f_equal length) in Hstep. rewrite length_app in Hstep. cbn in Hstep. lia.
      * by exists p.
    + cbn [children]. destruct rest as [|r rest]; [exact (IH R q' (children n) D4 Hsub Hstep Hnew)|]. by apply IH.
  - unfold candidates_at. rewrite lookup_insert_eq. cbn [from_option live_candidates snd]. rewrite <- Hcands. destruct (inv_view _ _ _ _ Hv) as (_ & _ & _ & V4). apply V4.
Qed.

(** A retained path has a node at each of its places. *)
Lemma node_of_path R L q t p c d rest : trie_view R L q t -> p ∈ R -> pairs p = q ++ (c, d) :: rest ->
  exists collection n, t !! c = Some collection /\ documents collection !! d = Some n /\ node_at t c d = Some n /\ candidates_at t c = live_candidates collection.
Proof.
  intros (_ & V2 & _ & _)%inv_view Hin Hp. destruct (node_at t c d) as [n|] eqn:Hn.
  - pose proof Hn as (collection & Hc & Hd)%bind_Some. exists collection, n. unfold candidates_at. by rewrite Hc.
  - specialize (V2 c d Hn). destruct (not_elem_of_empty (C := gset DocumentPath) p). rewrite <- V2. apply below_elem. split; [|done]. apply (prefix_here _ rest). by apply place_step.
Qed.

Lemma size_nonzero (s : gset DocumentPath) : (0 <? size s) = true <-> s <> ∅.
Proof. rewrite Nat.ltb_lt. rewrite <- (leibniz_equiv_iff s ∅), <- size_empty_iff. lia. Qed.

Lemma adjust_pairs_view R L L' p increase ps : (forall x, x <> p -> x ∈ L <-> x ∈ L') ->
  (forall q, q `prefix_of` pairs p -> size (below_place q L') = if increase : bool then size (below_place q L) + 1 else size (below_place q L) - 1) ->
  p ∈ R -> forall q t, trie_view R L q t -> pairs p = q ++ ps -> trie_view R L' q (adjust_live_pairs t ps increase).
Proof.
  intros Hother Hsize Hin. induction ps as [|[c d] rest IH]; intros q t Hv Hp; cbn [adjust_live_pairs].
  { apply (trie_view_same R L); [done|]. intros c d x [l Hx]. rewrite app_nil_r in Hp. split; [done|]. apply Hother. intros ->. rewrite Hp, <- app_assoc in Hx. apply (f_equal length) in Hx. rewrite !length_app in Hx. cbn in Hx. lia. }
  pose proof (place_step p q rest c d Hp) as Hstep. destruct (node_of_path R L q t p c d rest Hv Hin Hp) as (col & n & Hc & Hd & Hn & Hcands). destruct (inv_view _ _ _ _ Hv) as (_ & _ & V3 & V4). destruct (V3 c d n Hn) as [Hright Hchildren].
  set (q' := q ++ [(c, d)]) in *. pose proof (prefix_here q' rest p Hstep) as Hpre. rewrite Hc, Hd. cbv zeta. set (live := if increase then _ else _). assert (Hlive : live = size (below_place q' L')) by (rewrite (Hsize q' Hpre); subst live; by rewrite (nr_live _ _ _ _ Hright)).
  assert (Hwas : (0 <? live_subtree_paths n) = true <-> d ∈ live_candidates col) by by rewrite (nr_live _ _ _ _ Hright), size_nonzero, <- Hcands, V4.
  set (cands := if Bool.eqb _ _ then _ else _). assert (Hcand : forall d', (d' <> d -> d' ∈ cands <-> d' ∈ live_candidates col)) by (intros d' Hne; subst cands; destruct (Bool.eqb _ _); [done|]; destruct (0 <? live); set_solver).
  assert (Hhere : d ∈ cands <-> below_place q' L' <> ∅).
  { rewrite <- size_nonzero, <- Hlive. subst cands. destruct (0 <? live_subtree_paths n) eqn:E1, (0 <? live) eqn:E2; cbn [Bool.eqb]; try set_solver. all: rewrite <- Hwas; done. }
  apply (update_view R L _ _ q t _ c d Hv); fold q'.
  - intros x Hx. split; [done|]. apply Hother. by apply (apart_elsewhere R q' p rest).
  - intros c' Hc'. by rewrite lookup_insert_ne.
  - intros d' Hd'. unfold node_at. rewrite lookup_insert_eq, Hc. cbn [mbind option_bind documents fst]. by rewrite lookup_insert_ne.
  - intros d' Hd'. rewrite Hcands. unfold candidates_at. rewrite lookup_insert_eq. by apply Hcand.
  - intros collection. rewrite lookup_insert_eq. intros [= <-]. cbn [documents fst]. apply insert_non_empty.
  - unfold node_at. rewrite lookup_insert_eq. cbn [mbind option_bind documents fst]. by rewrite lookup_insert_eq.
  - intros n0. unfold node_at. rewrite lookup_insert_eq. cbn [mbind option_bind documents fst]. rewrite lookup_insert_eq. intros [= <-]. destruct Hright as [H1 H2 H3 H4 H5]. split; [by split|].
    cbn [children]. destruct rest as [|r rest]; [exact (IH q' (children n) Hchildren Hstep)|by apply IH].
  - unfold candidates_at. rewrite lookup_insert_eq. exact Hhere.
Qed.

Lemma remove_pairs_view L p ps : p ∉ L -> forall R q t, trie_view R L q t -> L ⊆ R -> p ∈ R -> (forall x, x ∈ R -> pairs x = pairs p -> x = p) -> pairs p = q ++ ps -> trie_view (R ∖ {[p]}) L q (remove_retained_pairs t ps).
Proof.
  intros Hdead. induction ps as [|[c d] rest IH]; intros R q t Hv Hsub Hin Hapart Hp; cbn [remove_retained_pairs].
  { apply (trie_view_same R L); [done|]. intros c d x [l Hx]. split; [|done]. rewrite elem_of_difference, elem_of_singleton. split; [|tauto]. intros Hxin. split; [done|]. intros ->. rewrite Hp, app_nil_r, <- app_assoc in Hx. apply (f_equal length) in Hx. rewrite length_app in Hx. cbn in Hx. lia. }
  pose proof (place_step p q rest c d Hp) as Hstep. destruct (node_of_path R L q t p c d rest Hv Hin Hp) as (col & n & Hc & Hd & Hn & Hcands). destruct (inv_view _ _ _ _ Hv) as (_ & _ & V3 & V4). destruct (V3 c d n Hn) as [[N1 N2 N3 N4 N5] Hchildren].
  set (q' := q ++ [(c, d)]) in *. pose proof (prefix_here q' rest p Hstep) as Hpre. rewrite Hc, Hd. cbv zeta. cbn [retained_subtree_paths]. set (n' := Node _ _ _ _ _).
  assert (Hpin : p ∈ below_place q' R) by by apply below_elem. assert (Hsize : retained_subtree_paths n - 1 = size (below_place q' (R ∖ {[p]}))) by (rewrite below_remove, size_difference, size_singleton, N1 by set_solver; done).
  assert (Hsame : forall x, ~ q' `prefix_of` pairs x -> (x ∈ R <-> x ∈ R ∖ {[p]}) /\ (x ∈ L <-> x ∈ L)). { intros x Hx%(apart_elsewhere R q' p rest Hstep). set_solver. }
  assert (Hsub' : L ⊆ R ∖ {[p]}) by set_solver.
  set (gone := bool_decide (retained_subtree_paths n - 1 = 0)). assert (Hgone : gone = true <-> below_place q' (R ∖ {[p]}) = ∅) by (subst gone; rewrite bool_decide_eq_true, Hsize, size_empty_iff; by split; [apply leibniz_equiv|intros ->]).
  clearbody gone. set (col' := if gone then _ else _).
  assert (Hdocs : forall d', d' <> d -> documents col' !! d' = documents col !! d') by (intros d' Hd'; subst col'; destruct gone; cbn [documents fst]; [by rewrite lookup_delete_ne|by rewrite lookup_insert_ne]).
  assert (Hcol : forall c', c' <> c -> (if bool_decide (documents col' = ∅) then delete c t else <[c := col']> t) !! c' = t !! c') by (intros c' Hc'; case_bool_decide; [by rewrite lookup_delete_ne|by rewrite lookup_insert_ne]).
  assert (Hnode : forall d', node_at (if bool_decide (documents col' = ∅) then delete c t else <[c := col']> t) c d' = documents col' !! d').
  { intros d'. unfold node_at. case_bool_decide as He; [by rewrite lookup_delete_eq, He, lookup_empty|by rewrite lookup_insert_eq]. }
  assert (Hhere : documents col' !! d = if gone then None else Some n') by (subst col'; destruct gone; cbn [documents fst]; [by rewrite lookup_delete_eq|by rewrite lookup_insert_eq]).
  assert (Hlive : d ∈ live_candidates col' <-> below_place q' L <> ∅).
  { subst col'. destruct gone; cbn [live_candidates snd]; [|rewrite <- Hcands; apply V4]. split; [set_solver|]. intros He. destruct He. apply (below_subset _ L (R ∖ {[p]})); [done|]. by apply Hgone. }
  assert (Hothers : forall d', d' <> d -> d' ∈ live_candidates col' <-> d' ∈ live_candidates col) by (intros d' Hd'; subst col'; destruct gone; cbn [live_candidates snd]; [set_solver|done]).
  assert (Hcl : forall d', d' ∈ candidates_at (if bool_decide (documents col' = ∅) then delete c t else <[c := col']> t) c <-> d' ∈ live_candidates col').
  { intros d'. unfold candidates_at. case_bool_decide as He; [|by rewrite lookup_insert_eq]. rewrite lookup_delete_eq. cbn [from_option]. split; [by intros ?%not_elem_of_empty|]. intros Hd'. exfalso.
    assert (Hno : forall x, documents col' !! x = None) by (intros x; by rewrite He, lookup_empty). destruct (decide (d' = d)) as [->|Hdd].
    - apply Hlive in Hd'. apply Hd'. apply (below_subset _ L (R ∖ {[p]})); [done|]. specialize (Hno d). rewrite Hhere in Hno. destruct gone; [|done]. by apply Hgone.
    - rewrite Hothers, <- Hcands in Hd' by done. apply V4 in Hd'. apply Hd'. apply (below_subset _ L R); [done|]. destruct (inv_view _ _ _ _ Hv) as (_ & V2 & _ & _). apply V2. unfold node_at. rewrite Hc. cbn [mbind option_bind]. by rewrite <- Hdocs. }
  apply (update_view R L _ _ q t _ c d Hv); fold q'; [exact Hsame|exact Hcol|..].
  - intros d' Hd'. rewrite Hnode, Hdocs by done. unfold node_at. by rewrite Hc.
  - intros d' Hd'. by rewrite Hcl, Hothers, Hcands.
  - intros collection. case_bool_decide as He; [by rewrite lookup_delete_eq|]. rewrite lookup_insert_eq. by intros [= <-].
  - rewrite Hnode, Hhere. destruct gone; [|done]. intros _. by apply Hgone.
  - intros n0. rewrite Hnode, Hhere. destruct gone; [done|]. intros [= <-]. subst n'. split.
    + split; cbn [retained_subtree_paths live_subtree_paths retained_here representative]; try done.
      * by intros He%Hgone.
      * destruct rest as [|r rest].
        -- intros x [Hx Hne]%elem_of_difference Hq. apply Hne, elem_of_singleton, Hapart; [done|]. by rewrite Hstep, app_nil_r.
        -- destruct (retained_here n) as [x|]; [|intros x [Hx _]%elem_of_difference; by apply N4]. destruct N4 as [Hx Hq]. split; [|done]. apply elem_of_difference. split; [done|]. intros ->%elem_of_singleton. rewrite Hq in Hstep. apply (f_equal length) in Hstep. rewrite length_app in Hstep. cbn in Hstep. lia.
    + cbn [children]. destruct rest as [|r rest]; [exact (IH R q' (children n) Hchildren Hsub Hin Hapart Hstep)|by apply IH].
  - by rewrite Hcl.
Qed.

(** The whole trie; sealed, as the search for trivial proofs would unfold the views of tries below tries. *)
Definition listing_view_aux : seal (fun (retained live : gset DocumentPath) (t : ListingTrie) => trie_view retained live [] t).
Proof. by eexists. Qed.
Definition listing_view : gset DocumentPath -> gset DocumentPath -> ListingTrie -> Prop := listing_view_aux.(unseal).

Lemma listing_view_nodes R L t : listing_view R L t <-> trie_view R L [] t.
Proof. unfold listing_view. by rewrite listing_view_aux.(seal_eq). Qed.

Lemma empty_listing_view : listing_view ∅ ∅ ∅.
Proof. apply listing_view_nodes, empty_view; [done|]. intros c d. apply set_eq. intros p. rewrite below_elem. set_solver. Qed.

Lemma insert_retained_view R L t p : listing_view R L t -> L ⊆ R -> p ∉ R -> listing_view ({[p]} ∪ R) L (insert_retained t p).
Proof. rewrite !listing_view_nodes. intros. by apply insert_pairs_view. Qed.

Lemma remove_retained_view R L t p : listing_view R L t -> L ⊆ R -> p ∈ R -> p ∉ L -> (forall x, x ∈ R -> pairs x = pairs p -> x = p) -> listing_view (R ∖ {[p]}) L (remove_retained t p).
Proof. rewrite !listing_view_nodes. intros. by apply remove_pairs_view. Qed.

Lemma increase_live_view R L t p : listing_view R L t -> p ∈ R -> p ∉ L -> listing_view R ({[p]} ∪ L) (adjust_live t p true).
Proof.
  rewrite !listing_view_nodes. intros Hv Hin Hnot. apply (adjust_pairs_view R L _ p true); try done; [set_solver|]. intros q Hq. rewrite below_insert by done. assert (p ∉ below_place q L) by (intros [_ ?]%below_elem; done). rewrite size_union, size_singleton by set_solver. lia.
Qed.

Lemma decrease_live_view R L t p : listing_view R L t -> p ∈ R -> p ∈ L -> listing_view R (L ∖ {[p]}) (adjust_live t p false).
Proof.
  rewrite !listing_view_nodes. intros Hv Hin Hl. apply (adjust_pairs_view R L _ p false); try done; [set_solver|]. intros q Hq. rewrite below_remove, size_difference, size_singleton; [done|]. apply singleton_subseteq_l. by apply below_elem.
Qed.
