(* ===== verification/FsValidate.v ===== *)
(** * Validation of Firestore documents

    Models [validate_document] of [crates/fireemu-core-firestore/src/store.rs], the checks every stored
    document passes, and the Standard limits that a commit evaluates.  The property path of a value is
    its length in bytes: its names only occur in messages. *)
From S2P Require Import Prelude Limits Time Text Ids Lex FsValue FsFieldPath FsDocPath FsSize FsDocument.
#[local] Set Warnings "-register-all".

(** ** Limits *)

Inductive LimitScope := Production | OfficialEmulator.

#[global] Instance LimitScope_eq_dec : EqDecision LimitScope.
Proof. solve_decision. Defined.

(** The entries of the catalog that a commit checks: hard resources with an inclusive maximum, refused at the
    commit stage. Their texts are not modelled. *)
Definition commit_limit (id : string) (unit_ : LimitUnit) (maximum : Z) (precision : EnforcementPrecision) : LimitDefinition :=
  {| lim_id := id; class := HardResource; boundary := InclusiveMaximum; Limits.unit_ := unit_; lim_maximum := Fixed maximum; Limits.precision := precision;
     enforcement_stage := Commit; implemented := Implemented; official_text := EmptyString; notes := EmptyString |}.

Definition DOCUMENT_BYTES : LimitDefinition := commit_limit "FS-LIMIT-DOCUMENT-BYTES" LogicalBytes 1048576 BoundaryConformance.
Definition NESTED_MAP_ARRAY_DEPTH : LimitDefinition := commit_limit "FS-LIMIT-NESTED-MAP-ARRAY-DEPTH" Limits.Count 20 PrecExact.

(** [FirestorePlanProfile::default()] *)
Definition default_plan : FirestorePlanProfile :=
  {| billing := false; composite_index_limit_override := None; single_field_config_limit_override := None; enterprise_index_limit_override := None |}.

Definition check_limit (def : LimitDefinition) (current : Z) : result unit FirestoreError :=
  match evaluate def current default_plan DEFAULT_THRESHOLDS with Reject _ => Err ResourceExhausted | _ => Ok tt end.

Definition MAX_FIELD_PAYLOAD_BYTES : Z := 1048487.
Definition MAX_VECTOR_DIMENSIONS : Z := 2048.

(** ** Values *)

Definition invalid {A} : result A FirestoreError := Err InvalidArgument.

(** [.map_err(..InvalidArgument..)] *)
Definition or_invalid {A E} (r : result A E) : result A FirestoreError := match r with Ok a => Ok a | Err _ => invalid end.

Definition validate_stored_field_name (name : text) : result unit FirestoreError :=
  if bool_decide (name = DOCUMENT_NAME) then invalid else do* or_invalid (from_segments [name]) in Ok tt.

Definition validate_vector (dimensions : list SpecFloat.spec_float) : result unit FirestoreError :=
  do* r_refuse (bool_decide (length dimensions = 0%nat)) InvalidArgument in
  do* r_refuse (MAX_VECTOR_DIMENSIONS <? Z.of_nat (length dimensions)) InvalidArgument in
  r_refuse (existsb is_nan dimensions) InvalidArgument.

Definition validate_reference (name : text) : result unit FirestoreError :=
  match split_on (ch "/") name with
  | projects :: p :: databases :: d :: documents :: relative =>
      do* r_refuse ((length relative <? 2)%nat || negb (bool_decide (projects = chars "projects")) || negb (bool_decide (databases = chars "databases")) ||
                    negb (bool_decide (documents = chars "documents")) || bool_decide (p = []) || bool_decide (d = [])) InvalidArgument in
      r_refuse (negb (Nat.even (length relative)) || existsb (fun s => bool_decide (s = [])) relative) InvalidArgument
  | _ => invalid
  end.

Definition payload_bytes (v : Value) : Z := match v with VString s => byte_len s | VBytes b => byte_len b | _ => 0 end.

Definition add_size (a b : Z) : result Z FirestoreError := or_invalid (FsSize.add a b).
Definition name_size (s : text) : result Z FirestoreError := let* n := or_invalid (as_u64 (byte_len s)) in add_size n 1.
Definition scalar_size (v : Value) : result Z FirestoreError := or_invalid (field_value_size v).

(** What is asked of the name of a nested field, in the order of the code. *)
Definition validate_nested_name (scope : LimitScope) (inside_array : bool) (name : text) : result unit FirestoreError :=
  do* r_refuse (bool_decide (name = []) || (MAX_FIELD_NAME_BYTES <? byte_len name)) InvalidArgument in
  do* validate_stored_field_name name in
  r_refuse (bool_decide (scope = Production) && inside_array && (1494 <? byte_len name)) InvalidArgument.

Fixpoint validate_value (scope : LimitScope) (inside_array : bool) (v : Value) : result Z FirestoreError :=
  do* r_refuse (MAX_FIELD_PAYLOAD_BYTES <? payload_bytes v) InvalidArgument in
  match v with
  | VArray items =>
      do* r_refuse inside_array InvalidArgument in
      r_fold (fun total size => let* n := size in add_size total n) (map (validate_value scope true) items) 0
  | VMap fields =>
      r_fold (fun total '(name, size) =>
                do* validate_nested_name scope inside_array name in
                let* ns := name_size name in let* total := add_size total ns in let* n := size in add_size total n)
        (btree_map_iter ((fun v => validate_value scope false v) <$> fields)) 0
  | VReference name => do* validate_reference name in scalar_size v
  | VVector dimensions => do* validate_vector dimensions in scalar_size v
  | _ => scalar_size v
  end.

(** [PropertyPath::child]: the bytes of the path of a nested field. *)
Definition child_bytes (bytes : Z) (name : text) : Z := saturating u64 (saturating u64 (bytes + 1) + byte_len name).

Fixpoint check_stored_field_paths (v : Value) : Z -> result unit FirestoreError := fun bytes =>
  do* r_refuse (MAX_FIELD_PATH_BYTES <? bytes) InvalidArgument in
  match v with
  | VArray items => r_each (fun check => check bytes) (map check_stored_field_paths items)
  | VMap fields => r_each (fun '(name, check) => check (child_bytes bytes name)) (btree_map_iter ((fun v => check_stored_field_paths v) <$> fields))
  | _ => Ok tt
  end.

Definition validate_document (d : Document) (scope : LimitScope) : result Z FirestoreError :=
  let entries := btree_map_iter (fields d) in
  do* r_each (fun '(name, value) => do* validate_stored_field_name name in check_limit NESTED_MAP_ARRAY_DEPTH (nesting_depth value)) entries in
  do* r_each (fun '(_, value) => do* validate_value scope false value in Ok tt) entries in
  let* size := or_invalid (document_size_bytes (path d) (fields d)) in
  do* check_limit DOCUMENT_BYTES size in
  do* (if decide (scope = Production) then r_each (fun '(name, value) => check_stored_field_paths value (byte_len name)) entries else Ok tt) in
  Ok size.

Example validate_ex :
  let doc fs := {| path := demo_path; fields := fs; create_time := 0; update_time := 0; version := 1 |} in
  validate_document (doc {[chars "a" := VArray [VMap {[chars "k" := VInteger 1]}]]}) Production = Ok 80 /\
  validate_document (doc {[chars "a" := VArray [VArray []]]}) OfficialEmulator = Err InvalidArgument /\
  validate_document (doc {[chars "__name__" := VNull]}) Production = Err InvalidArgument /\
  validate_document (doc {[chars "r" := VReference (chars "projects/p/databases/d/documents/a/b")]}) Production = Ok 90 /\
  validate_document (doc {[chars "r" := VReference (chars "projects/p/databases/d/documents/a")]}) Production = Err InvalidArgument.
Proof. vm_compute. split_and!; reflexivity. Qed.

(** ** What is stored *)

Lemma check_limit_fixed id u maximum pr n : check_limit (commit_limit id u maximum pr) n = Ok tt <-> n <= maximum.
Proof.
  unfold check_limit, evaluate. assert (Hm : resolve_maximum default_plan (commit_limit id u maximum pr) = Some maximum) by (unfold resolve_maximum, override_value; cbn; repeat destruct (bool_decide _); reflexivity).
  rewrite Hm. cbn -[classify_severity]. destruct (Z.ltb_spec maximum n); [split; [done|lia]|].
  destruct (classify_severity n maximum DEFAULT_THRESHOLDS); by split.
Qed.

Lemma check_limit_err def n e : check_limit def n = Err e -> e = ResourceExhausted.
Proof. unfold check_limit. destruct (evaluate _ _ _ _); by intros [= <-]. Qed.

Lemma r_refuse_Ok {E} (b : bool) (e : E) : r_refuse b e = Ok tt <-> b = false.
Proof. by destruct b. Qed.

Lemma r_bind_ext {A B E} (r : result A E) (f g : A -> result B E) : (forall a, f a = g a) -> r_bind r f = r_bind r g.
Proof. intros H. destruct r; [apply H|done]. Qed.

Lemma r_bind_Ok {A B E} (r : result A E) (f : A -> result B E) b : r_bind r f = Ok b <-> exists a, r = Ok a /\ f a = Ok b.
Proof. destruct r; cbn; [split; [by exists a|by intros (? & [= <-] & ?)]|split; [done|by intros (? & ? & ?)]]. Qed.

Lemma r_do_Ok {B E} (r : result unit E) (f : unit -> result B E) b : r_bind r f = Ok b <-> r = Ok tt /\ f tt = Ok b.
Proof. rewrite r_bind_Ok. split; [by intros ([] & ? & ?)|intros []; by exists tt]. Qed.

Lemma r_each_Ok {A E} (f : A -> result unit E) l : r_each f l = Ok tt <-> forall x, x ∈ l -> f x = Ok tt.
Proof.
  induction l as [|x l IH]; cbn; [split; [by intros _ y ?%not_elem_of_nil|done]|]. rewrite r_do_Ok, IH. split.
  - intros [Hx Hl] y [->|Hy]%elem_of_cons; [done|by apply Hl].
  - intros H. split; [apply H; by left|]. intros y Hy. apply H. by right.
Qed.

Lemma or_invalid_Ok {A E} (r : result A E) a : or_invalid r = Ok a <-> r = Ok a.
Proof. unfold or_invalid, invalid. destruct r; split; congruence. Qed.

Lemma capped_Ok m n : capped m = Ok n <-> n = m /\ n <= int_max u64.
Proof. unfold capped. destruct (Z.leb_spec m (int_max u64)); split; try done; [intros [= <-]; lia|intros [-> _]; done|intros [-> ?]; lia]. Qed.

Lemma add_size_Ok a b n : 0 <= a -> 0 <= b -> add_size a b = Ok n <-> n = a + b /\ n <= int_max u64.
Proof.
  intros Ha Hb. unfold add_size. rewrite or_invalid_Ok. unfold FsSize.add. destruct (checked u64 (a + b)) as [m|] eqn:Hc.
  - apply checked_Some in Hc as [-> [_ Hm]]. split; [by intros [= <-]|by intros [-> _]].
  - apply checked_None in Hc. split; [done|]. intros [-> H]. destruct Hc. unfold fits. cbn [int_min u64]. lia.
Qed.

(** A sum of sizes that are only known when their parts are acceptable. *)
Lemma r_fold_sizes {A} (f : Z -> A -> result Z FirestoreError) (P : A -> Prop) (g : A -> Z) l :
  (forall x, x ∈ l -> 0 <= g x /\ forall acc n, 0 <= acc -> f acc x = Ok n <-> P x /\ n = acc + g x /\ n <= int_max u64) ->
  forall acc n, 0 <= acc -> acc <= int_max u64 -> r_fold f l acc = Ok n <-> (forall x, x ∈ l -> P x) /\ n = acc + z_sum g l /\ n <= int_max u64.
Proof.
  induction l as [|x l IH]; intros Hl acc n Hacc Hmax; cbn [r_fold z_sum foldr].
  { split; [intros [= <-]; split_and!; [by intros y ?%not_elem_of_nil|lia|done]|intros (_ & -> & _); f_equal; lia]. }
  destruct (Hl x) as [Hg Hf]; [by left|]. fold (z_sum g l). assert (Hl' : forall y, y ∈ l -> 0 <= g y /\ forall acc n, 0 <= acc -> f acc y = Ok n <-> P y /\ n = acc + g y /\ n <= int_max u64) by (intros y Hy; apply Hl; by right).
  assert (Hsum : 0 <= z_sum g l). { clear -Hl'. induction l as [|y l IH]; cbn; [lia|]. destruct (Hl' y) as [Hy _]; [by left|]. fold (z_sum g l). specialize (IH ltac:(intros z Hz; apply Hl'; by right)). lia. }
  rewrite r_bind_Ok. split.
  - intros (m & Hm & Hr). apply Hf in Hm as (HP & -> & Hle); [|done]. apply IH in Hr as (HPl & -> & Hn); [|done|lia|done]. split_and!; [|lia|lia].
    intros y [->|Hy]%elem_of_cons; [done|by apply HPl].
  - intros (HP & -> & Hn). exists (acc + g x). split; [apply Hf; [done|split_and!; [apply HP; by left|done|lia]]|].
    apply IH; [done|lia|lia|]. split_and!; [intros y Hy; apply HP; by right|lia|lia].
Qed.

(** A name under which a field can be stored. *)
Definition field_name_ok (name : text) : Prop :=
  0 < byte_len name <= 1500 /\ control_offset 0 name = None /\ is_reserved name = false.

Lemma validate_stored_field_name_Ok name : validate_stored_field_name name = Ok tt <-> field_name_ok name.
Proof.
  unfold validate_stored_field_name, field_name_ok, from_segments, checked_path. cbn [check_segments length]. case_bool_decide as Hn.
  { split; [done|]. intros (_ & _ & Hr). subst. vm_compute in Hr. done. }
  rewrite bool_decide_eq_false_2 by done. case_bool_decide as He; [subst; cbn; split; [done|intros ([H _] & _); vm_compute in H; done]|].
  assert (Hpos : 0 < byte_len name) by (unfold byte_len; destruct name; [done|cbn [length]; lia]).
  destruct (control_offset 0 name); [by split; [|intros (_ & ? & _)]|]. change MAX_FIELD_NAME_BYTES with 1500. change FsFieldPath.byte_len with byte_len. destruct (Z.ltb_spec 1500 (byte_len name)); [split; [done|lia]|].
  destruct (is_reserved name); cbn [andb negb]; [by split; [|intros (_ & _ & ?)]|]. change MAX_FIELD_PATH_BYTES with 1500. change (Z.of_nat 1 - 1 + byte_len name) with (byte_len name).
  destruct (Z.ltb_spec 1500 (byte_len name)); [lia|]. split; [|done]. by intros _.
Qed.

(** A resource name of a document, whatever its identifiers. *)
Definition document_reference (name : text) : Prop :=
  exists p d relative, split_on (ch "/") name = [chars "projects"; p; chars "databases"; d; chars "documents"] ++ relative /\ p <> [] /\ d <> [] /\
    (2 <= length relative)%nat /\ Nat.even (length relative) = true /\ forall s, s ∈ relative -> s <> [].

Lemma existsb_none (relative : list text) : existsb (fun s => bool_decide (s = [])) relative = false <-> forall s, s ∈ relative -> s <> [].
Proof.
  induction relative as [|s relative IH]; cbn; [split; [by intros _ s ?%not_elem_of_nil|done]|]. rewrite orb_false_iff, bool_decide_eq_false, IH. split.
  - intros [Hs Hr] t [->|Ht]%elem_of_cons; [done|by apply Hr].
  - intros H. split; [apply H; by left|]. intros t Ht. apply H. by right.
Qed.

Lemma validate_reference_Ok name : validate_reference name = Ok tt <-> document_reference name.
Proof.
  unfold validate_reference, document_reference. destruct (split_on (ch "/") name) as [|a [|p [|b [|d [|c relative]]]]]; try (split; [done|by intros (? & ? & ? & ? & _)]).
  rewrite r_do_Ok, !r_refuse_Ok, !orb_false_iff, !negb_false_iff, !bool_decide_eq_true, !bool_decide_eq_false, Nat.ltb_ge.
  rewrite existsb_none. split.
  - intros ((((((H2 & ->) & ->) & ->) & Hp) & Hd) & He & Hs). by exists p, d, relative.
  - intros (p' & d' & relative' & [= -> -> -> -> -> ->] & Hp & Hd & H2 & He & Hs). done.
Qed.

(** A vector with a dimension, no more than the limit and no NaN; infinities are stored. *)
Lemma validate_vector_Ok ds : validate_vector ds = Ok tt <-> 0 < Z.of_nat (length ds) <= 2048 /\ existsb is_nan ds = false.
Proof.
  unfold validate_vector, MAX_VECTOR_DIMENSIONS. rewrite !r_do_Ok, !r_refuse_Ok, bool_decide_eq_false, Z.ltb_ge. split; [intros (? & ? & ?)|intros [? ?]]; split_and!; try done; lia.
Qed.

(** The values that a document can hold; [inside] an array, arrays are refused and the names of a map are shorter in
    production. *)
Inductive storable (scope : LimitScope) : bool -> Value -> Prop :=
| storable_scalar inside v : is_container v = false -> (forall r, v <> VReference r) -> (forall ds, v <> VVector ds) -> payload_bytes v <= MAX_FIELD_PAYLOAD_BYTES -> storable scope inside v
| storable_reference inside name : document_reference name -> storable scope inside (VReference name)
| storable_vector inside ds : 0 < Z.of_nat (length ds) <= 2048 -> existsb is_nan ds = false -> storable scope inside (VVector ds)
| storable_array items : (forall v, v ∈ items -> storable scope true v) -> storable scope false (VArray items)
| storable_map inside m :
    (forall k v, m !! k = Some v -> field_name_ok k /\ (scope = Production -> inside = true -> byte_len k <= 1494) /\ storable scope false v) -> storable scope inside (VMap m).

Lemma storable_reference_inv scope inside name : storable scope inside (VReference name) -> document_reference name.
Proof. inversion 1 as [? ? ? Hno| | | |]; [by destruct (Hno name)|done]. Qed.

Lemma storable_vector_inv scope inside ds : storable scope inside (VVector ds) -> 0 < Z.of_nat (length ds) <= 2048 /\ existsb is_nan ds = false.
Proof. inversion 1 as [? ? ? ? Hno| | | |]; [by destruct (Hno ds)|done]. Qed.

Lemma validate_nested_name_Ok scope inside name : validate_nested_name scope inside name = Ok tt <->
  field_name_ok name /\ (scope = Production -> inside = true -> byte_len name <= 1494).
Proof.
  unfold validate_nested_name. rewrite !r_do_Ok, !r_refuse_Ok, validate_stored_field_name_Ok, orb_false_iff, bool_decide_eq_false, Z.ltb_ge. change MAX_FIELD_NAME_BYTES with 1500.
  assert (Hlast : (bool_decide (scope = Production) && inside && (1494 <? byte_len name)) = false <-> (scope = Production -> inside = true -> byte_len name <= 1494)).
  { case_bool_decide; cbn; [|by split]. destruct inside; cbn; [|by split]. rewrite Z.ltb_ge. split; [done|by intros H'; apply H']. }
  change FsFieldPath.byte_len with byte_len. rewrite Hlast. split; [tauto|]. intros [Hn Hs]. pose proof Hn as [[Hpos Hle] _]. split_and!; [|done..]. intros ->. by vm_compute in Hpos.
Qed.

Lemma scalar_size_Ok v n : scalar_size v = Ok n <-> n = value_bytes v /\ n <= int_max u64.
Proof. unfold scalar_size. by rewrite or_invalid_Ok, field_value_size_capped, capped_Ok. Qed.

(** A value passes exactly when it is storable, and what is returned is its size in the official formula. *)
Lemma validate_value_Ok scope v : forall inside n, validate_value scope inside v = Ok n <-> storable scope inside v /\ n = value_bytes v /\ n <= int_max u64.
Proof.
  induction v as [v Hleaf|items IH|m IH] using value_induction; intros inside n.
  - destruct v; try discriminate Hleaf; cbn [validate_value]; rewrite r_do_Ok, r_refuse_Ok, Z.ltb_ge.
    all: try (rewrite scalar_size_Ok; split; [intros (Hp & Hn & Hm); split; [by apply storable_scalar|done]|intros (Hs & Hn & Hm); split; [|done]; by inversion Hs]).
    + rewrite r_do_Ok, scalar_size_Ok, validate_reference_Ok. split; [intros (_ & Hr & Hn & Hm); split; [by apply storable_reference|done]|].
      intros (Hs & Hn & Hm). apply storable_reference_inv in Hs. split_and!; try done; by vm_compute.
    + rewrite r_do_Ok, scalar_size_Ok, validate_vector_Ok. split; [intros (_ & [Hr Hd] & Hn & Hm); split; [by apply storable_vector|done]|].
      intros (Hs & Hn & Hm). apply storable_vector_inv in Hs. split; [by vm_compute|done].
  - cbn [validate_value]. rewrite r_do_Ok, r_refuse_Ok, r_do_Ok, r_refuse_Ok, Z.ltb_ge. cbn [payload_bytes].
    assert (Hfold : forall acc, r_fold (fun total size => let* n := size in add_size total n) (map (validate_value scope true) items) acc =
      r_fold (fun total v => let* n := validate_value scope true v in add_size total n) items acc).
    { clear. induction items as [|v items IH]; intros acc; [done|]. apply r_bind_ext. intros total. apply IH. }
    rewrite Hfold, (r_fold_sizes _ (storable scope true) value_bytes); [|intros v Hv; split; [apply value_bytes_nonneg|]|lia|by vm_compute].
    + rewrite Z.add_0_l. change (value_bytes (VArray items)) with (z_sum value_bytes items). split.
      * intros (_ & -> & Hs & Hn). split; [by apply storable_array|done].
      * intros (Hs & Hn). inversion Hs; subst; [discriminate|]. done.
    + intros acc k Hacc. rewrite r_bind_Ok. split.
      * intros (j & Hj & Hk). apply IH in Hj as (Hs & -> & _); [|done]. apply add_size_Ok in Hk as [-> Hk]; [done|done|apply value_bytes_nonneg].
      * intros (Hs & -> & Hk). pose proof (value_bytes_nonneg v). exists (value_bytes v). split; [apply IH; [done|split_and!; [done|done|lia]]|by apply add_size_Ok].
  - cbn [validate_value]. rewrite r_do_Ok, r_refuse_Ok, Z.ltb_ge. cbn [payload_bytes]. rewrite btree_map_iter_fmap.
    assert (Hfold : forall l acc, r_fold (fun total '(name, size) => do* validate_nested_name scope inside name in let* ns := name_size name in let* total := add_size total ns in let* n := size in add_size total n)
      (map (fun p => (p.1, validate_value scope false p.2)) l) acc =
      r_fold (fun total p => do* validate_nested_name scope inside p.1 in let* ns := name_size p.1 in let* total := add_size total ns in let* n := validate_value scope false p.2 in add_size total n) l acc).
    { clear. induction l as [|v l IH]; intros acc; [done|]. apply r_bind_ext. intros total. apply IH. }
    rewrite Hfold. clear Hfold.
    rewrite (r_fold_sizes _ (fun p => (field_name_ok p.1 /\ (scope = Production -> inside = true -> byte_len p.1 <= 1494)) /\ storable scope false p.2) entry_bytes); [| |lia|by vm_compute].
    + rewrite Z.add_0_l. cbn [value_bytes]. rewrite btree_map_iter_fmap, z_sum_map. cbn [fst snd]. change (z_sum _ (btree_map_iter m)) with (z_sum entry_bytes (btree_map_iter m)). split.
      * intros (_ & Hs & Hn). split; [|done]. apply storable_map. intros k v Hk. destruct (Hs (k, v)) as [[H1 H2] H3]; [by apply elem_of_btree_map_iter|]. done.
      * intros (Hs & Hn). split; [by vm_compute|]. split; [|done]. intros [k v] Hk%elem_of_btree_map_iter. inversion Hs as [| | | |? ? Hm]; subst; [discriminate|]. destruct (Hm k v Hk) as (? & ? & ?). done.
    + intros [k v] Hk%elem_of_btree_map_iter. cbn [fst snd]. unfold entry_bytes. cbn [fst snd]. pose proof (value_bytes_nonneg v). unfold string_bytes. assert (0 <= byte_len k) by (unfold byte_len; lia).
      split; [lia|]. intros acc j Hacc. rewrite r_do_Ok, validate_nested_name_Ok, r_bind_Ok.
      assert (Hname : forall ns, name_size k = Ok ns <-> ns = byte_len k + 1 /\ ns <= int_max u64).
      { intros ns. unfold name_size. rewrite r_bind_Ok. split.
        - intros (i & Hi & Hn). rewrite or_invalid_Ok, as_u64_capped, capped_Ok in Hi by done. destruct Hi as [-> _]. by apply add_size_Ok in Hn.
        - intros [-> Hm]. exists (byte_len k). rewrite or_invalid_Ok, as_u64_capped by done. split; [apply capped_Ok; split; [done|lia]|by apply add_size_Ok]. }
      split.
      * intros (Hn & ns & [-> _]%Hname & H1). rewrite r_bind_Ok in H1. destruct H1 as (t & [-> _]%add_size_Ok & H2); [|lia..]. rewrite r_bind_Ok in H2. destruct H2 as (i & Hi & H3).
        apply (IH k v Hk) in Hi as (Hs & -> & _). apply add_size_Ok in H3 as [-> H3]; [|lia..]. split; [done|]. split; [lia|done].
      * intros ([Hn Hs] & -> & Hmax). split; [done|]. exists (byte_len k + 1). split; [apply Hname; split; [done|lia]|]. apply r_bind_Ok. exists (acc + (byte_len k + 1)).
        split; [apply add_size_Ok; [lia..|split; [done|lia]]|]. apply r_bind_Ok. exists (value_bytes v). split; [apply (IH k v Hk); split_and!; [done|done|lia]|]. apply add_size_Ok; [lia..|]. split; [lia|done].
Qed.

(** The lengths of the field paths that a value implies, one whose own path has [bytes]: an array adds nothing. *)
Inductive implied : Z -> Value -> Z -> Prop :=
| implied_here bytes v : implied bytes v bytes
| implied_item bytes items v n : v ∈ items -> implied bytes v n -> implied bytes (VArray items) n
| implied_field bytes m k v n : m !! k = Some v -> implied (bytes + 1 + byte_len k) v n -> implied bytes (VMap m) n.

Lemma implied_le bytes v n : implied bytes v n -> bytes <= n.
Proof. induction 1; unfold byte_len in *; lia. Qed.

Lemma check_stored_field_paths_Ok v : forall bytes, 0 <= bytes -> check_stored_field_paths v bytes = Ok tt <-> forall n, implied bytes v n -> n <= 1500.
Proof.
  induction v as [v Hleaf|items IH|m IH] using value_induction; intros bytes Hb.
  - assert (Hspec : check_stored_field_paths v bytes = Ok tt <-> bytes <= 1500) by (destruct v; try discriminate Hleaf; cbn [check_stored_field_paths]; rewrite r_do_Ok, r_refuse_Ok, Z.ltb_ge; tauto).
    rewrite Hspec. split; [|intros H; apply H; constructor]. intros Hle n Hn. inversion Hn; subst; done.
  - cbn [check_stored_field_paths]. rewrite r_do_Ok, r_refuse_Ok, Z.ltb_ge, r_each_Ok. split.
    + intros [Hle Hall] n Hn. inversion Hn as [|? ? v ? Hv Hi|]; subst; [done|]. revert n Hi Hn. intros n Hi _. revert n Hi. apply (IH v Hv); [done|]. apply (Hall (check_stored_field_paths v)).
      apply list_elem_of_fmap. by exists v.
    + intros H. split; [apply H; constructor|]. intros check (v & -> & Hv)%list_elem_of_fmap. apply (IH v Hv); [done|]. intros n Hn. apply H. by eapply implied_item.
  - cbn [check_stored_field_paths]. rewrite r_do_Ok, r_refuse_Ok, Z.ltb_ge, btree_map_iter_fmap, r_each_Ok.
    assert (Hchild : forall k v, m !! k = Some v -> check_stored_field_paths v (child_bytes bytes k) = Ok tt <-> forall n, implied (bytes + 1 + byte_len k) v n -> n <= 1500).
    { intros k v Hk. assert (Hlen : 0 <= byte_len k) by (unfold byte_len; lia). unfold child_bytes, saturating. cbn [int_min int_max u64]. destruct (Z.leb_spec (bytes + 1 + byte_len k) (2 ^ 64 - 1)).
      - replace (Z.max 0 (Z.min (2 ^ 64 - 1) (Z.max 0 (Z.min (2 ^ 64 - 1) (bytes + 1)) + byte_len k))) with (bytes + 1 + byte_len k) by lia. apply (IH k v Hk). lia.
      - replace (Z.max 0 (Z.min (2 ^ 64 - 1) (Z.max 0 (Z.min (2 ^ 64 - 1) (bytes + 1)) + byte_len k))) with (2 ^ 64 - 1) by lia. rewrite (IH k v Hk) by lia.
        split; intros Hall; [specialize (Hall _ (implied_here _ _))|specialize (Hall _ (implied_here _ _))]; lia. }
    split.
    + intros [Hle Hall] n Hn. inversion Hn as [| |? ? k v ? Hk Hi]; subst; [done|]. revert Hi. apply (Hchild k v Hk). apply (Hall (k, check_stored_field_paths v)). apply list_elem_of_fmap.
      exists (k, v). split; [done|by apply elem_of_btree_map_iter].
    + intros H. split; [apply H; constructor|]. intros [k check] ([k' v] & [= -> ->] & Hk%elem_of_btree_map_iter)%list_elem_of_fmap. apply (Hchild k' v Hk).
      intros n Hn. apply H. by eapply implied_field.
Qed.

(** What a document must satisfy to be stored. *)
Definition document_ok (scope : LimitScope) (d : Document) : Prop :=
  (forall k v, fields d !! k = Some v -> field_name_ok k /\ nesting_depth v <= 20 /\ storable scope false v /\
     (scope = Production -> forall n, implied (byte_len k) v n -> n <= 1500)) /\
  document_bytes (path d) (fields d) <= 1048576.

Lemma document_bytes_entry p fs k v : fs !! k = Some v -> value_bytes v <= document_bytes p fs.
Proof.
  intros Hk. unfold document_bytes. pose proof (path_bytes_nonneg p). assert (Hin : (k, v) ∈ btree_map_iter fs) by by apply elem_of_btree_map_iter.
  assert (Hs : value_bytes v <= z_sum entry_bytes (btree_map_iter fs)); [|lia]. induction (btree_map_iter fs) as [|e l IH]; [by apply not_elem_of_nil in Hin|].
  change (z_sum entry_bytes (e :: l)) with (entry_bytes e + z_sum entry_bytes l). pose proof (entries_nonneg l). assert (He : 0 <= entry_bytes e) by (unfold entry_bytes; nonneg; lia).
  apply elem_of_cons in Hin as [<-|Hin]; [|specialize (IH Hin); lia]. unfold entry_bytes at 1. cbn [fst snd]. unfold string_bytes, byte_len. lia.
Qed.

(** Every failure of a validation is an invalid argument or an exhausted resource. *)
Definition refuses {A} (r : result A FirestoreError) : Prop := forall e, r = Err e -> e = InvalidArgument \/ e = ResourceExhausted.

Create HintDb refusals.

Lemma refuses_Ok {A} (a : A) : refuses (Ok a).
Proof. done. Qed.

Lemma refuses_invalid {A} : refuses (@invalid A).
Proof. intros e [= <-]. by left. Qed.

Lemma refuses_refuse b : refuses (r_refuse b InvalidArgument).
Proof. intros e. destruct b; cbn; [intros [= <-]; by left|done]. Qed.

Lemma refuses_or_invalid {A E} (r : result A E) : refuses (or_invalid r).
Proof. destruct r; [done|apply refuses_invalid]. Qed.

Lemma refuses_bind {A B} (r : result A FirestoreError) (f : A -> result B FirestoreError) : refuses r -> (forall a, refuses (f a)) -> refuses (r_bind r f).
Proof. intros Hr Hf e. destruct r; cbn; [apply Hf|intros [= <-]; by apply Hr]. Qed.

Lemma refuses_each {A} (f : A -> result unit FirestoreError) l : (forall x, x ∈ l -> refuses (f x)) -> refuses (r_each f l).
Proof.
  induction l as [|x l IH]; intros H; [done|]. apply refuses_bind; [apply H; by left|]. intros _. apply IH. intros y Hy. apply H. by right.
Qed.

Lemma refuses_fold {A B} (f : B -> A -> result B FirestoreError) l : (forall b x, x ∈ l -> refuses (f b x)) -> forall b, refuses (r_fold f l b).
Proof.
  induction l as [|x l IH]; intros H b; [done|]. apply refuses_bind; [apply H; by left|]. intros a. apply IH. intros b' y Hy. apply H. by right.
Qed.

Lemma refuses_check_limit def n : refuses (check_limit def n).
Proof. intros e He. right. by eapply check_limit_err. Qed.

#[export] Hint Resolve refuses_Ok refuses_invalid refuses_refuse refuses_or_invalid refuses_bind refuses_check_limit : refusals.

Lemma refuses_stored_field_name name : refuses (validate_stored_field_name name).
Proof. unfold validate_stored_field_name. case_bool_decide; eauto with refusals. Qed.

Lemma refuses_vector ds : refuses (validate_vector ds).
Proof. unfold validate_vector. auto with refusals. Qed.

Lemma refuses_reference name : refuses (validate_reference name).
Proof. unfold validate_reference. repeat case_match; auto with refusals. Qed.

Lemma refuses_add_size a b : refuses (add_size a b).
Proof. unfold add_size. auto with refusals. Qed.

Lemma refuses_scalar_size v : refuses (scalar_size v).
Proof. unfold scalar_size. auto with refusals. Qed.

#[export] Hint Resolve refuses_stored_field_name refuses_vector refuses_reference refuses_add_size refuses_scalar_size : refusals.

Lemma refuses_value scope v : forall inside, refuses (validate_value scope inside v).
Proof.
  induction v as [v Hleaf|items IH|m IH] using value_induction; intros inside.
  - destruct v; try discriminate Hleaf; cbn [validate_value]; auto 6 with refusals.
  - cbn [validate_value]. apply refuses_bind; [auto with refusals|intros _]. apply refuses_bind; [auto with refusals|intros _]. apply refuses_fold.
    intros b size (v & -> & Hv)%list_elem_of_fmap. apply refuses_bind; [by apply IH|auto with refusals].
  - cbn [validate_value]. apply refuses_bind; [auto with refusals|intros _]. rewrite btree_map_iter_fmap. apply refuses_fold.
    intros b [name size] ([k v] & [= -> ->] & Hk%elem_of_btree_map_iter)%list_elem_of_fmap. cbn. unfold validate_nested_name, name_size.
    apply refuses_bind; [auto with refusals|intros _]. apply refuses_bind; [auto with refusals|intros ns]. apply refuses_bind; [auto with refusals|intros t].
    apply refuses_bind; [by apply (IH k)|auto with refusals].
Qed.

Lemma refuses_stored_field_paths v : forall bytes, refuses (check_stored_field_paths v bytes).
Proof.
  induction v as [v Hleaf|items IH|m IH] using value_induction; intros bytes.
  - destruct v; try discriminate Hleaf; cbn [check_stored_field_paths]; auto with refusals.
  - cbn [check_stored_field_paths]. apply refuses_bind; [auto with refusals|intros _]. apply refuses_each. intros check (v & -> & Hv)%list_elem_of_fmap. by apply IH.
  - cbn [check_stored_field_paths]. apply refuses_bind; [auto with refusals|intros _]. rewrite btree_map_iter_fmap. apply refuses_each.
    intros [name check] ([k v] & [= -> ->] & Hk%elem_of_btree_map_iter)%list_elem_of_fmap. by apply (IH k).
Qed.

#[export] Hint Resolve refuses_value refuses_stored_field_paths : refusals.

(** C37. Validation accepts exactly the documents that can be stored: every name and every nested name is a valid field name, the
    nesting is within the limit, no array holds an array, references name documents, vectors have dimensions and no
    NaN, payloads and, in production, implied paths and the names in array-held maps are within their limits, and the
    official size is at most 1 MiB; what it returns is that size; and a refusal is an invalid argument or an
    exhausted resource. *)
Theorem validate_document_exact (d : Document) (scope : LimitScope) :
  (forall n, validate_document d scope = Ok n <-> document_ok scope d /\ n = document_bytes (path d) (fields d)) /\
  (forall e, validate_document d scope = Err e -> e = InvalidArgument \/ e = ResourceExhausted).
Proof.
  split.
  - intros n. unfold validate_document. rewrite !r_do_Ok, !r_each_Ok, r_bind_Ok. change NESTED_MAP_ARRAY_DEPTH with (commit_limit "FS-LIMIT-NESTED-MAP-ARRAY-DEPTH" Limits.Count 20 PrecExact).
    change DOCUMENT_BYTES with (commit_limit "FS-LIMIT-DOCUMENT-BYTES" LogicalBytes 1048576 BoundaryConformance).
    assert (Hsize : forall s, or_invalid (document_size_bytes (path d) (fields d)) = Ok s <-> s = document_bytes (path d) (fields d) /\ s <= int_max u64) by (intros s; by rewrite or_invalid_Ok, document_size_bytes_capped, capped_Ok).
    assert (Hpaths : (if decide (scope = Production) then r_each (fun '(name, value) => check_stored_field_paths value (byte_len name)) (btree_map_iter (fields d)) else Ok tt) = Ok tt <->
      (scope = Production -> forall k v, fields d !! k = Some v -> forall n, implied (byte_len k) v n -> n <= 1500)).
    { destruct (decide _) as [->|]; [|by split]. rewrite r_each_Ok. split.
      - intros H _ k v Hk. apply check_stored_field_paths_Ok; [unfold byte_len; lia|]. apply (H (k, v)). by apply elem_of_btree_map_iter.
      - intros H [k v] Hk%elem_of_btree_map_iter. apply check_stored_field_paths_Ok; [unfold byte_len; lia|]. by apply H. }
    split.
    + intros (H1 & H2 & s & [-> _]%Hsize & H3). rewrite !r_do_Ok, check_limit_fixed, Hpaths in H3. destruct H3 as (Hle & Hp & [= <-]). split; [|done]. split; [|done]. intros k v Hk.
      assert (Hin : (k, v) ∈ btree_map_iter (fields d)) by by apply elem_of_btree_map_iter. specialize (H1 _ Hin). specialize (H2 _ Hin). cbn in H1, H2.
      rewrite r_do_Ok, check_limit_fixed, validate_stored_field_name_Ok in H1. rewrite r_bind_Ok in H2. destruct H1 as [Hn Hd], H2 as (m & Hm & _).
      apply validate_value_Ok in Hm as (Hs & _). split_and!; [done..|]. intros Hprod. by apply Hp.
    + intros [[Hall Hle] ->]. split_and!.
      * intros [k v] Hk%elem_of_btree_map_iter. destruct (Hall k v Hk) as (Hn & Hd & _). by rewrite r_do_Ok, check_limit_fixed, validate_stored_field_name_Ok.
      * intros [k v] Hk%elem_of_btree_map_iter. destruct (Hall k v Hk) as (_ & _ & Hs & _). apply r_bind_Ok. exists (value_bytes v). split; [|done]. apply validate_value_Ok.
        split_and!; [done..|]. pose proof (document_bytes_entry (path d) (fields d) k v Hk). cbn [int_max u64]. lia.
      * exists (document_bytes (path d) (fields d)). split; [apply Hsize; split; [done|cbn [int_max u64]; lia]|]. rewrite !r_do_Ok, check_limit_fixed, Hpaths. split_and!; [done| |done].
        intros Hprod k v Hk. destruct (Hall k v Hk) as (_ & _ & _ & Hi). by apply Hi.
  - unfold validate_document. apply refuses_bind; [apply refuses_each; intros [name v] _; auto with refusals|intros _].
    apply refuses_bind; [apply refuses_each; intros [name v] _; auto with refusals|intros _]. apply refuses_bind; [auto with refusals|intros s].
    apply refuses_bind; [auto with refusals|intros _]. apply refuses_bind; [|auto with refusals]. destruct (decide _); [|auto with refusals].
    apply refuses_each. intros [name v] _. auto with refusals.
Qed.

