(* ===== verification/FsFilter.v ===== *)
(** * Firestore filters

    Models the filters of [crates/fireemu-core-firestore/src/query.rs] and their evaluation in
    store.rs: canonicalization, disjunctive normal form, the rules on operators, and
    [eval_filter], whose [Result] is never an error and is a boolean here. *)
From Stdlib Require Import SpecFloat.
From S2P Require Import Prelude Text DbNumber Lex FsValue FsFieldPath FsDocPath FsDocument.
#[local] Set Warnings "-register-all".

Inductive FieldOp :=
| Equal | NotEqual | LessThan | LessThanOrEqual | GreaterThan | GreaterThanOrEqual | ArrayContains | OpIn | ArrayContainsAny | NotIn.

#[global] Instance FieldOp_eq_dec : EqDecision FieldOp.
Proof. solve_decision. Defined.

Definition is_inequality (op : FieldOp) : bool :=
  match op with NotEqual | LessThan | LessThanOrEqual | GreaterThan | GreaterThanOrEqual | NotIn => true | _ => false end.

Definition takes_array (op : FieldOp) : bool := match op with OpIn | ArrayContainsAny | NotIn => true | _ => false end.

(** The derived order of the operators. *)
Definition op_index (op : FieldOp) : Z :=
  match op with
  | Equal => 0 | NotEqual => 1 | LessThan => 2 | LessThanOrEqual => 3 | GreaterThan => 4 | GreaterThanOrEqual => 5
  | ArrayContains => 6 | OpIn => 7 | ArrayContainsAny => 8 | NotIn => 9
  end.

Inductive UnaryOp := IsNull | IsNan | IsNotNull | IsNotNan.

#[global] Instance UnaryOp_eq_dec : EqDecision UnaryOp.
Proof. solve_decision. Defined.

Definition unary_index (op : UnaryOp) : Z := match op with IsNull => 0 | IsNan => 1 | IsNotNull => 2 | IsNotNan => 3 end.

Inductive FilterExpr :=
| FField (field : FieldPath) (op : FieldOp) (value : Value)
| FUnary (field : FieldPath) (op : UnaryOp)
| FAnd (children : list FilterExpr)
| FOr (children : list FilterExpr).

Inductive QueryError :=
| ArrayValueRequired (field : FieldPath) (op : FieldOp)
| NonEmptyArrayRequired (op : FieldOp)
| DuplicateOrderField (field : FieldPath)
| NameReserved
| KindRequiredForFilter (field : FieldPath)
| KindRequiredForOrder
| CursorReferenceNotDocument (name : text)
| EmptyComposite
| MultipleNotIn
| NotInWithDisjunction
| CursorArityMismatch (cursor order_by : Z)
| CursorNameValue (position : Z)
| MultipleNegations
| OrderAfterDocumentName
| NameFilterValue
| KeyEqualityWithOtherInequalities
| FindNearestQueryVectorEmpty
| FindNearestQueryVector
| FindNearestLimit
| FindNearestDistanceThreshold
| FindNearestDistanceResultField.

(** ** Evaluation *)

Inductive FieldRef := Stored (v : Value) | Name (p : DocumentPath).

Definition into_value (r : FieldRef) : Value := match r with Stored v => v | Name p => VReference (resource_name p) end.
Definition ref_kind (r : FieldRef) : ValueKind := match r with Stored v => kind v | Name _ => KReference end.
Definition stored (r : FieldRef) : option Value := match r with Stored v => Some v | Name _ => None end.
Definition is_null (v : Value) : bool := match v with VNull => true | _ => false end.
Definition ref_is_null (r : FieldRef) : bool := match r with Stored v => is_null v | Name _ => false end.
Definition ref_is_nan (r : FieldRef) : bool := match r with Stored v => is_nan_value v | Name _ => false end.

Definition cmp_value (r : FieldRef) (other : Value) : comparison :=
  match r with
  | Stored v => canonical_cmp v other
  | Name p => match other with VReference name => FsDocPath.cmp_reference p name | _ => kind_cmp KReference (kind other) end
  end.

Definition cmp_ref (a b : FieldRef) : comparison :=
  match a, b with
  | Stored a, Stored b => canonical_cmp a b
  | Name a, Name b => cmp_resource_name a b
  | Name _, Stored v => kind_cmp KReference (kind v)
  | Stored v, Name _ => kind_cmp (kind v) KReference
  end.

Definition field_value (doc : Document) (p : FieldPath) : option FieldRef :=
  if is_document_name p then Some (Name (path doc)) else Stored <$> get_field (fields doc) p.

Definition is_numeric_kind (k : ValueKind) : bool := match k with KNumber | KNan => true | _ => false end.

Definition same_type_as (a : FieldRef) (b : Value) : bool :=
  bool_decide (ref_kind a = kind b) || (is_numeric_kind (ref_kind a) && is_numeric_kind (kind b)).

Definition is_eq (c : comparison) : bool := match c with Eq => true | _ => false end.

Definition equal (a b : Value) : bool := if is_nan_value a || is_nan_value b then false else is_eq (canonical_cmp a b).
Definition equal_ref (a : FieldRef) (b : Value) : bool := if ref_is_nan a || is_nan_value b then false else is_eq (cmp_value a b).

Definition range_holds (op : FieldOp) (ord : comparison) : bool :=
  match op, ord with
  | LessThan, Lt | LessThanOrEqual, (Lt | Eq) | GreaterThan, Gt | GreaterThanOrEqual, (Gt | Eq) => true
  | _, _ => false
  end.

Definition eval_unary (v : option FieldRef) (op : UnaryOp) : bool :=
  match v with
  | None => false
  | Some x =>
      match op with
      | IsNull => ref_is_null x
      | IsNotNull => negb (ref_is_null x)
      | IsNan => ref_is_nan x
      | IsNotNan => negb (ref_is_nan x) && negb (ref_is_null x)
      end
  end.

Definition eval_op (v : FieldRef) (op : FieldOp) (value : Value) : bool :=
  if is_null value then false
  else match op with
  | Equal => equal_ref v value
  | NotEqual => negb (equal_ref v value) && negb (ref_is_null v)
  | LessThan | LessThanOrEqual | GreaterThan | GreaterThanOrEqual =>
      if negb (same_type_as v value) || ref_is_nan v || is_nan_value value then false else range_holds op (cmp_value v value)
  | ArrayContains => match stored v with Some (VArray items) => existsb (fun i => equal i value) items | _ => false end
  | OpIn => match value with VArray cs => existsb (fun c => negb (is_null c) && equal_ref v c) cs | _ => false end
  | NotIn => match value with VArray cs => negb (existsb (fun c => equal_ref v c || is_null c) cs) | _ => false end && negb (ref_is_null v)
  | ArrayContainsAny =>
      match stored v, value with
      | Some (VArray items), VArray cs => existsb (fun i => existsb (fun c => negb (is_null c) && equal i c) cs) items
      | _, _ => false
      end
  end.

Fixpoint eval_filter (f : FilterExpr) (doc : Document) : bool :=
  match f with
  | FAnd children => forallb (fun c => eval_filter c doc) children
  | FOr children => existsb (fun c => eval_filter c doc) children
  | FUnary field op => eval_unary (field_value doc field) op
  | FField field op value => match field_value doc field with None => false | Some v => eval_op v op value end
  end.

(** ** Canonicalization *)

Definition path_cmp (a b : FieldPath) : comparison := list_cmp (segments a) (segments b).

Definition rank (f : FilterExpr) : Z := match f with FField _ _ _ => 0 | FUnary _ _ => 1 | FAnd _ => 2 | FOr _ => 3 end.

Fixpoint canonical_filter_cmp (a b : FilterExpr) {struct a} : comparison :=
  then_with (rank a ?= rank b)
    match a, b with
    | FField af ao av, FField bf bo bv => then_with (path_cmp af bf) (then_with (op_index ao ?= op_index bo) (canonical_cmp av bv))
    | FUnary af ao, FUnary bf bo => then_with (path_cmp af bf) (unary_index ao ?= unary_index bo)
    | FAnd a, FAnd b | FOr a, FOr b => then_with (zip_cmp canonical_filter_cmp a b) (Z.of_nat (length a) ?= Z.of_nat (length b))
    | _, _ => Eq
    end.

(** The derived [==] *)
Fixpoint filter_eq (a b : FilterExpr) {struct a} : bool :=
  match a, b with
  | FField af ao av, FField bf bo bv => bool_decide (af = bf) && bool_decide (ao = bo) && value_eq av bv
  | FUnary af ao, FUnary bf bo => bool_decide (af = bf) && bool_decide (ao = bo)
  | FAnd a, FAnd b | FOr a, FOr b => all_equal filter_eq a b
  | _, _ => false
  end.

(** What a canonical child adds to its parent. *)
Definition splice (is_and : bool) (c : FilterExpr) : list FilterExpr :=
  match c, is_and with
  | FAnd inner, true | FOr inner, false => inner
  | FAnd [], _ | FOr [], _ => []
  | _, _ => [c]
  end.

Definition compose (is_and : bool) (flat : list FilterExpr) : FilterExpr :=
  if bool_decide (length flat = 0%nat) then FAnd []
  else match dedup filter_eq (sort_by canonical_filter_cmp flat) with
       | [f] => f
       | flat => if is_and then FAnd flat else FOr flat
       end.

(** The loop over the children of a composite, canonical as the recursion returns them. *)
Definition canonicalize_children (is_and : bool) (children : list (result FilterExpr QueryError)) : result (list FilterExpr) QueryError :=
  r_fold (fun flat c => let* c := c in Ok (flat ++ splice is_and c)) children [].

Fixpoint canonicalize_filter (production : bool) (f : FilterExpr) : result FilterExpr QueryError :=
  match f with
  | FField field op value =>
      if takes_array op then
        match value with
        | VArray (_ :: _) => Ok f
        | VArray [] => Err (NonEmptyArrayRequired op)
        | _ => Err (ArrayValueRequired field op)
        end
      else Ok f
  | FUnary _ _ => Ok f
  | FAnd children => let* flat := canonicalize_children true (map (canonicalize_filter production) children) in Ok (compose true flat)
  | FOr children =>
      if production && bool_decide (length children = 0%nat) then Err EmptyComposite
      else let* flat := canonicalize_children false (map (canonicalize_filter production) children) in Ok (compose false flat)
  end.

(** ** Disjunctive normal form *)

Definition expand (f : FilterExpr) : list (list FilterExpr) :=
  match f with
  | FField field OpIn (VArray items) => map (fun v => [FField field Equal v]) items
  | FField field ArrayContainsAny (VArray items) => map (fun v => [FField field ArrayContainsAny (VArray [v])]) items
  | _ => [[f]]
  end.

Definition product (acc child_dnf : list (list FilterExpr)) : list (list FilterExpr) := flat_map (fun a => map (fun c => a ++ c) child_dnf) acc.

Fixpoint dnf_of (f : FilterExpr) : list (list FilterExpr) :=
  match f with
  | FOr children => concat (map dnf_of children)
  | FAnd children => fold_left product (map dnf_of children) [[]]
  | _ => expand f
  end.

Fixpoint dnf_count (f : FilterExpr) : Z :=
  match f with
  | FField _ (OpIn | ArrayContainsAny) (VArray items) => Z.of_nat (length items)
  | FField _ _ _ | FUnary _ _ => 1
  | FOr children => fold_left (fun n m => saturating u64 (n + m)) (map dnf_count children) 0
  | FAnd children => fold_left (fun n m => saturating u64 (n * m)) (map dnf_count children) 1
  end.

Fixpoint inequality_fields (f : FilterExpr) : list FieldPath :=
  match f with
  | FField field op _ => if is_inequality op then [field] else []
  | FUnary field (IsNotNull | IsNotNan) => [field]
  | FUnary _ _ => []
  | FAnd children | FOr children => concat (map inequality_fields children)
  end.

(** ** The rules on operators *)

Fixpoint negations (f : FilterExpr) : Z :=
  match f with
  | FField _ (NotEqual | NotIn) _ | FUnary _ (IsNotNan | IsNotNull) => 1
  | FField _ _ _ | FUnary _ _ => 0
  | FAnd children | FOr children => fold_left Z.add (map negations children) 0
  end.

Definition check_negation_rules (f : FilterExpr) : result unit QueryError := r_refuse (1 <? negations f) MultipleNegations.

(** The two counters of [walk]. *)
Fixpoint not_ins (f : FilterExpr) : Z :=
  match f with
  | FField _ NotIn _ => 1
  | FField _ _ _ | FUnary _ _ => 0
  | FAnd children | FOr children => fold_left Z.add (map not_ins children) 0
  end.

Fixpoint disjunctive (f : FilterExpr) : bool :=
  match f with
  | FField _ (OpIn | ArrayContainsAny) _ => true
  | FField _ _ _ | FUnary _ _ => false
  | FOr _ => true
  | FAnd children => existsb disjunctive children
  end.

Definition check_not_in_rules (f : FilterExpr) : result unit QueryError :=
  do* r_refuse (1 <? not_ins f) MultipleNotIn in r_refuse ((not_ins f =? 1) && disjunctive f) NotInWithDisjunction.

Definition is_reference (v : Value) : bool := match v with VReference _ => true | _ => false end.

Definition name_operand (v : Value) : bool := match v with VReference _ => true | VArray items => forallb is_reference items | _ => false end.

Fixpoint check_name_filters (production : bool) (f : FilterExpr) : result unit QueryError :=
  match f with
  | FField field op value =>
      if negb (is_document_name field) then Ok tt
      else if production && match op with ArrayContains | ArrayContainsAny => true | _ => false end then Err NameReserved
      else r_refuse (negb (name_operand value)) NameFilterValue
  | FUnary field _ => r_refuse (production && is_document_name field) NameFilterValue
  | FAnd children | FOr children => r_each id (map (check_name_filters production) children)
  end.

Fixpoint first_non_name_field (f : FilterExpr) : option FieldPath :=
  match f with
  | FField field _ _ | FUnary field _ => if is_document_name field then None else Some field
  | FAnd children | FOr children => foldr (fun c rest => match c with Some p => Some p | None => rest end) None (map first_non_name_field children)
  end.

Fixpoint has_key_equality (f : FilterExpr) : bool :=
  match f with
  | FField field (Equal | OpIn) _ => is_document_name field
  | FField _ _ _ | FUnary _ _ => false
  | FAnd children | FOr children => existsb has_key_equality children
  end.

Definition field_a : FieldPath := {| segments := [chars "a"] |}.
Definition field_b : FieldPath := {| segments := [chars "b"] |}.
Definition demo_in : FilterExpr := FField field_b OpIn (VArray [VInteger 1; VNull; VInteger 2]).
Definition demo_filter : FilterExpr := FAnd [FAnd [demo_in; FField field_a Equal (VInteger 3)]; FField field_a Equal (VInteger 3); FOr [FUnary field_b IsNotNull]].

Example firestore_filter_ex :
  canonicalize_filter true demo_filter = Ok (FAnd [FField field_a Equal (VInteger 3); demo_in; FUnary field_b IsNotNull]) /\
  dnf_count demo_filter = 3 /\ eval_filter demo_in demo_current = false /\
  canonicalize_filter true (FOr [FAnd []; FUnary field_a IsNull]) = Ok (FUnary field_a IsNull) /\
  canonicalize_filter true (FOr []) = Err EmptyComposite /\ canonicalize_filter false (FOr []) = Ok (FAnd []).
Proof. vm_compute. split_and!; reflexivity. Qed.

(** ** Induction on filters *)

Fixpoint filter_depth (f : FilterExpr) : nat :=
  match f with FAnd cs | FOr cs => S (foldr (fun c d => Nat.max (filter_depth c) d) 0%nat cs) | _ => 0 end.

Lemma filter_induction (P : FilterExpr -> Prop) :
  (forall field op value, P (FField field op value)) -> (forall field op, P (FUnary field op)) ->
  (forall cs, Forall P cs -> P (FAnd cs)) -> (forall cs, Forall P cs -> P (FOr cs)) -> forall f, P f.
Proof.
  intros Hf Hu Ha Ho f. induction f as [f IH] using (induction_ltof1 _ filter_depth). unfold ltof in IH.
  destruct f as [| |cs|cs]; [done..| |]; [apply Ha|apply Ho]; apply Forall_forall; intros c Hc; apply IH; cbn [filter_depth];
    pose proof (foldr_max_ge filter_depth cs c Hc); lia.
Qed.

(** The values of a filter are values the code can hold. *)
Inductive filter_ok : FilterExpr -> Prop :=
| ok_field field op value : value_ok value -> filter_ok (FField field op value)
| ok_unary field op : filter_ok (FUnary field op)
| ok_and cs : (forall c, c ∈ cs -> filter_ok c) -> filter_ok (FAnd cs)
| ok_or cs : (forall c, c ∈ cs -> filter_ok c) -> filter_ok (FOr cs).

(** ** Normal forms *)

Lemma existsb_ext_in {A} (f g : A -> bool) l : (forall x, x ∈ l -> f x = g x) -> existsb f l = existsb g l.
Proof. induction l as [|x l IH]; intros Hfg; [done|]. cbn. rewrite Hfg by (by left). f_equal. apply IH. intros; apply Hfg; by right. Qed.

Lemma forallb_ext_in {A} (f g : A -> bool) l : (forall x, x ∈ l -> f x = g x) -> forallb f l = forallb g l.
Proof. induction l as [|x l IH]; intros Hfg; [done|]. cbn. rewrite Hfg by (by left). f_equal. apply IH. intros; apply Hfg; by right. Qed.

Lemma existsb_map {A B} (f : B -> bool) (g : A -> B) l : existsb f (map g l) = existsb (fun x => f (g x)) l.
Proof. induction l as [|x l IH]; [done|]. cbn. by rewrite IH. Qed.

Lemma forallb_map {A B} (f : B -> bool) (g : A -> B) l : forallb f (map g l) = forallb (fun x => f (g x)) l.
Proof. induction l as [|x l IH]; [done|]. cbn. by rewrite IH. Qed.

Lemma existsb_const_false {A} (l : list A) : existsb (fun _ => false) l = false.
Proof. by induction l. Qed.

Lemma existsb_concat {A} (f : A -> bool) ls : existsb f (concat ls) = existsb (existsb f) ls.
Proof. induction ls as [|l ls IH]; [done|]. cbn. by rewrite existsb_app, IH. Qed.

Lemma existsb_or {A} (f g : A -> bool) l : existsb (fun x => f x || g x) l = existsb f l || existsb g l.
Proof. induction l as [|x l IH]; [done|]. cbn. rewrite IH. by destruct (f x), (g x), (existsb f l). Qed.

Lemma existsb_swap {A B} (f : A -> B -> bool) l m : existsb (fun x => existsb (f x) m) l = existsb (fun y => existsb (fun x => f x y) l) m.
Proof. induction l as [|x l IH]; cbn; [by rewrite existsb_const_false|]. by rewrite IH, <- existsb_or. Qed.

(** A disjunction of conjunctions holds of a document. *)
Definition holds (doc : Document) (d : list (list FilterExpr)) : bool := existsb (forallb (fun f => eval_filter f doc)) d.

Lemma holds_product doc a d : holds doc (product a d) = holds doc a && holds doc d.
Proof.
  unfold holds, product. induction a as [|x a IH]; [done|]. cbn [flat_map existsb]. rewrite existsb_app, IH, existsb_map.
  assert (Hx : existsb (fun c => forallb (fun f => eval_filter f doc) (x ++ c)) d = forallb (fun f => eval_filter f doc) x && existsb (forallb (fun f => eval_filter f doc)) d).
  { clear. induction d as [|c d IH]; [by rewrite andb_false_r|]. cbn. rewrite IH, forallb_app. by destruct (forallb _ x), (forallb _ c). }
  rewrite Hx. by destruct (forallb _ x), (existsb _ a), (existsb _ d).
Qed.

Lemma holds_expand doc field op value : holds doc (expand (FField field op value)) = eval_filter (FField field op value) doc.
Proof.
  assert (Hone : holds doc [[FField field op value]] = eval_filter (FField field op value) doc) by (unfold holds; cbn; by rewrite orb_false_r, andb_true_r).
  destruct op, value; try exact Hone; unfold holds, expand; rewrite existsb_map; cbn [eval_filter forallb]; destruct (field_value doc field) as [r|]; try apply existsb_const_false.
  - unfold eval_op. cbn [is_null]. apply existsb_ext_in. intros c _. rewrite andb_true_r. by destruct (is_null c).
  - unfold eval_op. cbn [is_null]. destruct (stored r) as [[]|]; try apply existsb_const_false. rewrite existsb_swap. apply existsb_ext_in. intros c _.
    rewrite andb_true_r. apply existsb_ext_in. intros i _. cbn. by rewrite orb_false_r.
Qed.

Lemma dnf_holds doc f : holds doc (dnf_of f) = eval_filter f doc.
Proof.
  induction f as [field op value|field op|cs IH|cs IH] using filter_induction; cbn [dnf_of].
  - apply holds_expand.
  - unfold holds. cbn. by rewrite orb_false_r, andb_true_r.
  - cbn [eval_filter]. assert (H : forall acc, holds doc (fold_left product (map dnf_of cs) acc) = holds doc acc && forallb (fun c => eval_filter c doc) cs).
    { induction IH as [|c cs Hc _ IHcs]; intros acc; cbn [map fold_left forallb]; [by rewrite andb_true_r|]. by rewrite IHcs, holds_product, Hc, andb_assoc. }
    rewrite H. done.
  - cbn [eval_filter]. unfold holds. rewrite existsb_concat, existsb_map. apply existsb_ext_in. rewrite Forall_forall in IH. intros c Hc. by apply IH.
Qed.

(** The arrays of a filter have lengths that a [u64] holds. *)
Inductive arrays_fit : FilterExpr -> Prop :=
| fit_field field op value : (forall items, value = VArray items -> Z.of_nat (length items) <= int_max u64) -> arrays_fit (FField field op value)
| fit_unary field op : arrays_fit (FUnary field op)
| fit_and cs : (forall c, c ∈ cs -> arrays_fit c) -> arrays_fit (FAnd cs)
| fit_or cs : (forall c, c ∈ cs -> arrays_fit c) -> arrays_fit (FOr cs).

Definition counted (n : nat) : Z := Z.min (int_max u64) (Z.of_nat n).

Lemma product_length a d : length (product a d) = (length a * length d)%nat.
Proof. unfold product. induction a as [|x a IH]; [done|]. cbn [flat_map length]. rewrite length_app, length_map, IH. lia. Qed.

Lemma counted_add m n : saturating u64 (counted m + counted n) = counted (m + n).
Proof. unfold saturating, counted. cbn [int_min int_max u64]. lia. Qed.

Lemma min_mul M m n : 0 < M -> 0 <= m -> 0 <= n -> Z.min M (Z.min M m * Z.min M n) = Z.min M (m * n).
Proof.
  intros HM Hm Hn. destruct (Z.eq_dec m 0) as [->|]; [by rewrite (Z.min_r M 0), !Z.mul_0_l by lia|].
  destruct (Z.eq_dec n 0) as [->|]; [by rewrite (Z.min_r M 0), !Z.mul_0_r by lia|].
  destruct (Z.leb_spec M m) as [H1|H1], (Z.leb_spec M n) as [H2|H2]; rewrite ?(Z.min_l M m), ?(Z.min_l M n), ?(Z.min_r M m), ?(Z.min_r M n) by lia; [..|done]; rewrite !Z.min_l by nia; done.
Qed.

Lemma counted_mul m n : saturating u64 (counted m * counted n) = counted (m * n).
Proof.
  assert (H : saturating u64 (counted m * counted n) = Z.min (int_max u64) (counted m * counted n)).
  { unfold saturating. cbn [int_min u64]. assert (0 <= counted m * counted n) by (apply Z.mul_nonneg_nonneg; unfold counted; cbn; lia). unfold int_max; cbn; lia. }
  rewrite H. unfold counted. rewrite min_mul, Nat2Z.inj_mul by (done || lia). done.
Qed.

Lemma dnf_count_length f : arrays_fit f -> dnf_count f = counted (length (dnf_of f)).
Proof.
  induction f as [field op value|field op|cs IH|cs IH] using filter_induction; intros Hf; cbn [dnf_count dnf_of].
  - inversion Hf as [? ? ? Hv| | |]; subst. unfold counted. destruct op, value; cbn [expand]; try reflexivity; rewrite length_map, Z.min_r by (by apply Hv); reflexivity.
  - reflexivity.
  - inversion Hf as [| |? Hcs|]; subst. assert (H : forall acc n, n = counted (length acc) ->
      fold_left (fun n m => saturating u64 (n * m)) (map dnf_count cs) n = counted (length (fold_left product (map dnf_of cs) acc))).
    { clear Hf. induction IH as [|c cs Hc _ IHcs]; intros acc n Hn; [done|]. cbn. apply IHcs; [intros; apply Hcs; by right|].
      rewrite Hc by (apply Hcs; by left). subst n. by rewrite counted_mul, product_length. }
    apply H. reflexivity.
  - inversion Hf as [| | |? Hcs]; subst. assert (H : forall k n, n = counted k -> fold_left (fun n m => saturating u64 (n + m)) (map dnf_count cs) n = counted (k + length (concat (map dnf_of cs)))).
    { clear Hf. induction IH as [|c cs Hc _ IHcs]; intros k n Hn; cbn; [by rewrite Nat.add_0_r|]. rewrite length_app, Nat.add_assoc. apply IHcs; [intros; apply Hcs; by right|].
      rewrite Hc by (apply Hcs; by left). subst n. apply counted_add. }
    apply (H 0%nat). reflexivity.
Qed.

(** C19. The disjunctive normal form of a filter selects the same documents: a document matches the filter exactly when it
    matches every atom of one of the disjunctions, with the values of an [in] or an [array-contains-any] expanded; and
    the count that is checked against the limit, saturating, is the number of those disjunctions, so that a filter whose
    count is small is never expanded beyond it. *)
Theorem dnf_exact (f : FilterExpr) (doc : Document) : arrays_fit f ->
  (eval_filter f doc = true <-> exists d, d ∈ dnf_of f /\ forall g, g ∈ d -> eval_filter g doc = true) /\
  (forall bound, bound < int_max u64 -> dnf_count f <= bound <-> Z.of_nat (length (dnf_of f)) <= bound).
Proof.
  intros Hf. split.
  - rewrite <- dnf_holds. unfold holds. rewrite existsb_exists. split; intros (d & Hd & Hall); exists d.
    + split; [by apply list_elem_of_In|]. rewrite forallb_forall in Hall. intros g Hg. by apply Hall, list_elem_of_In.
    + split; [by apply list_elem_of_In|]. apply forallb_forall. intros g Hg. by apply Hall, list_elem_of_In.
  - intros bound Hb. rewrite dnf_count_length by done. unfold counted. lia.
Qed.

Example dnf_exact_witness : arrays_fit demo_filter /\ eval_filter demo_filter demo_current = false /\ dnf_count demo_filter <= 30.
Proof.
  assert (Hf : arrays_fit demo_filter).
  { unfold demo_filter, demo_in. repeat match goal with
      | |- arrays_fit (FField _ _ _) => constructor; intros items Hi; first [discriminate Hi|injection Hi as <-; vm_compute; discriminate]
      | |- arrays_fit (FUnary _ _) => constructor
      | |- arrays_fit _ => constructor; apply Forall_forall; repeat apply Forall_cons_2; [..|apply Forall_nil_2]
      end. }
  split; [exact Hf|]. split; [vm_compute; reflexivity|].
  apply (proj2 (dnf_exact demo_filter demo_current Hf) 30); [vm_compute; reflexivity|vm_compute; discriminate].
Defined.

(** ** The order of filters *)

Definition path_key (p : FieldPath) : Lex := Branch (map Atom (segments p)).

Fixpoint filter_key (f : FilterExpr) : Lex :=
  Branch [Atom [rank f];
    match f with
    | FField field op value => Branch [path_key field; Atom [op_index op]; value_key value]
    | FUnary field op => Branch [path_key field; Atom [unary_index op]]
    | FAnd cs | FOr cs => Branch (map filter_key cs)
    end].

Lemma path_cmp_key p q : path_cmp p q = lex_cmp (path_key p) (path_key q).
Proof.
  unfold path_cmp, path_key. rewrite <- atoms_key. generalize (segments p) (segments q). induction l as [|x l IH]; intros [|y m]; [done..|].
  cbn. rewrite IH. by destruct (list_cmp x y).
Qed.

Lemma zip_then_length {A B} (f : A -> B -> comparison) l : forall m,
  then_with (zip_cmp f l m) (Z.of_nat (length l) ?= Z.of_nat (length m)) = cmp_lists f l m.
Proof.
  induction l as [|x l IH]; intros [|y m]; [done..|]. cbn [zip_cmp cmp_lists]. rewrite <- IH. rewrite !Nat2Z.inj_compare. by destruct (f x y).
Qed.

Lemma atom_cmp (a b : Z) : lex_cmp (Atom [a]) (Atom [b]) = (a ?= b).
Proof. cbn. by destruct (a ?= b). Qed.

Lemma then_with_end c : then_with c Eq = c.
Proof. by destruct c. Qed.

Lemma rank_pair f g x y : lex_cmp (Branch [Atom [rank f]; x]) (Branch [Atom [rank g]; y]) = then_with (rank f ?= rank g) (lex_cmp x y).
Proof. rewrite lex_pair, atom_cmp, lex_pair. cbn [lex_cmp cmp_lists]. by rewrite then_with_end. Qed.

Lemma canonical_filter_cmp_key a : forall b, filter_ok a -> filter_ok b -> canonical_filter_cmp a b = lex_cmp (filter_key a) (filter_key b).
Proof.
  induction a as [af ao av|af ao|a IH|a IH] using filter_induction; intros b Ha Hb.
  - inversion Ha; subst. change (filter_key (FField af ao av)) with (Branch [Atom [0]; Branch [path_key af; Atom [op_index ao]; value_key av]]).
    destruct b as [bf bo bv|bf bo|b|b]; [|done..]. inversion Hb; subst. cbn [canonical_filter_cmp filter_key rank]. rewrite (rank_pair (FField af ao av) (FField bf bo bv)). cbn [rank then_with Z.compare].
    rewrite !lex_pair, atom_cmp, path_cmp_key, canonical_cmp_key by done. cbn [lex_cmp cmp_lists]. by rewrite then_with_end.
  - destruct b as [bf bo bv|bf bo|b|b]; [done| |done..]. cbn [canonical_filter_cmp filter_key]. rewrite (rank_pair (FUnary af ao) (FUnary bf bo)). cbn [rank then_with Z.compare Pos.compare Pos.compare_cont].
    rewrite !lex_pair, atom_cmp, path_cmp_key. cbn [lex_cmp cmp_lists]. by rewrite then_with_end.
  - destruct b as [bf bo bv|bf bo|b|b]; [done..| |done]. cbn [canonical_filter_cmp filter_key]. rewrite (rank_pair (FAnd a) (FAnd b)). cbn [rank then_with Z.compare Pos.compare Pos.compare_cont].
    rewrite zip_then_length. inversion Ha; subst. inversion Hb; subst. rewrite Forall_forall in IH. apply cmp_lists_key. intros x y Hx Hy. apply IH; auto.
  - destruct b as [bf bo bv|bf bo|b|b]; [done..|]. cbn [canonical_filter_cmp filter_key]. rewrite (rank_pair (FOr a) (FOr b)). cbn [rank then_with Z.compare Pos.compare Pos.compare_cont].
    rewrite zip_then_length. inversion Ha; subst. inversion Hb; subst. rewrite Forall_forall in IH. apply cmp_lists_key. intros x y Hx Hy. apply IH; auto.
Qed.

Lemma filter_sorted l : Forall filter_ok l -> StronglySorted (fun x y => canonical_filter_cmp x y <> Gt) (sort_by canonical_filter_cmp l).
Proof.
  apply sort_by_strongly.
  - intros x y Hx Hy. rewrite !canonical_filter_cmp_key, (lex_opp (filter_key x)) by done. by intros ->.
  - intros x y z Hx Hy Hz. rewrite !canonical_filter_cmp_key by done. intros H1 H2.
    exact (transitivity (H1 : ord_le (filter_key x) (filter_key y)) (H2 : ord_le (filter_key y) (filter_key z))).
Qed.

(** ** Structurally equal operands cannot be told apart *)

Lemma f64_eq_key a b : double_ok a -> double_ok b -> f64_eq a b = true -> double_key a = double_key b /\ is_nan a = false /\ is_nan b = false.
Proof.
  intros Ha Hb He. unfold f64_eq in He. assert (Hna : is_nan a = false) by (by destruct a). assert (Hnb : is_nan b = false) by (by destruct a, b).
  split_and!; [|done..]. apply lex_eq. rewrite <- cmp_doubles_key by done. unfold cmp_doubles. rewrite Hna, Hnb. by destruct (SFcompare a b) as [[]|].
Qed.

Lemma all_equal_Forall2 {A B} (f : A -> B -> bool) l : forall m, all_equal f l m = true -> Forall2 (fun x y => f x y = true) l m.
Proof. induction l as [|x l IH]; intros [|y m]; cbn; [constructor|done..|]. intros [Hx Hl]%andb_true_iff. constructor; [done|by apply IH]. Qed.

Lemma value_eq_key a : forall b, value_ok a -> value_ok b -> value_eq a b = true -> value_key a = value_key b /\ kind a = kind b /\ is_nan_value a = false.
Proof.
  induction a as [a Hleaf|items IH|m IH] using value_induction; intros b Ha Hb.
  - destruct a; try discriminate Hleaf; destruct b; cbn [value_eq]; try done; try (by rewrite bool_decide_eq_true; intros ->).
    + by rewrite Z.eqb_eq; intros ->.
    + inversion Ha; subst. inversion Hb; subst. intros He. destruct (f64_eq_key _ _ H0 H1 He) as (Hk & H2 & H3). cbn [value_key kind is_nan_value]. by rewrite H2, H3, Hk.
    + inversion Ha; subst. inversion Hb; subst. rewrite andb_true_iff. intros [H3' H4']. cbn [value_key kind is_nan_value].
      rewrite (proj1 (f64_eq_key (latitude p) (latitude p0) ltac:(done) ltac:(done) H3')), (proj1 (f64_eq_key (longitude p) (longitude p0) ltac:(done) ltac:(done) H4')). done.
    + inversion Ha as [| | | | | | | | | |? Hc|]; subst. inversion Hb as [| | | | | | | | | |? Hc'|]; subst. intros He. cbn [value_key kind is_nan_value]. split_and!; [|done..].
      apply all_equal_Forall2 in He. rewrite (Forall2_length _ _ _ He). assert (Hk : map double_key components = map double_key components0); [|by rewrite Hk].
      clear Ha Hb. induction He as [|x y l l' Hxy He IH]; [done|]. apply Forall_cons in Hc as [Hx Hc]. apply Forall_cons in Hc' as [Hy Hc']. cbn [map].
      rewrite (proj1 (f64_eq_key x y Hx Hy Hxy)). f_equal. by apply IH.
  - inversion Ha as [| | | | | | | | |its Hi| |]; subst. destruct b as [| | | | | | | | |items'| |]; try done. inversion Hb as [| | | | | | | | |its' Hj| |]; subst.
    cbn [value_eq value_key kind is_nan_value]. intros He%all_equal_Forall2. split_and!; [|done..].
    assert (Hk : map value_key items = map value_key items'); [|by rewrite Hk]. clear Ha Hb. induction He as [|x y l l' Hxy He IHe]; [done|]. cbn [map].
    rewrite (proj1 (IH x ltac:(left) y (Hi x ltac:(left)) (Hj y ltac:(left)) Hxy)). f_equal.
    apply IHe; [intros v Hv; apply IH; by right|intros v Hv; apply Hi; by right|intros v Hv; apply Hj; by right].
  - inversion Ha as [| | | | | | | | | | |m0 Hm]; subst. destruct b as [| | | | | | | | | | |m']; try done. inversion Hb as [| | | | | | | | | | |m0 Hm']; subst.
    cbn [value_eq value_key kind is_nan_value]. rewrite btree_map_iter_fmap, all_equal_map. intros He%all_equal_Forall2. split_and!; [|done..]. do 3 f_equal. unfold map_key. f_equal.
    rewrite !btree_map_iter_fmap, !map_map. cbn [fst snd].
    assert (Hl : forall p, p ∈ btree_map_iter m -> m !! p.1 = Some p.2) by (intros [k v]; apply elem_of_btree_map_iter).
    assert (Hl' : forall p, p ∈ btree_map_iter m' -> value_ok p.2) by (intros [k v] Hk%elem_of_btree_map_iter; by eapply Hm').
    clear - He Hl Hl' IH Hm. induction He as [|[k v] [k' v'] l l' Hxy He IHe]; [done|]. unfold same_entry in Hxy. cbn [fst snd] in *. apply andb_true_iff in Hxy as [->%bool_decide_eq_true Hv].
    pose proof (Hl (k', v) ltac:(left)) as Hk. pose proof (Hl' (k', v') ltac:(left)) as Hok. cbn [fst snd] in *. cbn [map fst snd].
    rewrite (proj1 (IH k' v Hk v' (Hm k' v Hk) Hok Hv)). f_equal. apply IHe; intros p Hp; [apply Hl|apply Hl']; by right.
Qed.

Definition fields_ok (fs : fields_map) : Prop := forall k v, fs !! k = Some v -> value_ok v.

Definition ref_ok (r : FieldRef) : Prop := match r with Stored v => value_ok v | Name _ => True end.

Lemma walk_ok ss : forall v w, value_ok v -> walk v ss = Some w -> value_ok w.
Proof.
  induction ss as [|s ss IH]; intros v w Hv; [by intros [= <-]|]. destruct v as [| | | | | | | | | | |m]; try done. cbn [walk].
  inversion Hv as [| | | | | | | | | | |m0 Hm]; subst. destruct (m !! s) as [x|] eqn:Hx; [|done]. cbn. apply IH. by eapply Hm.
Qed.

Lemma field_value_ok doc p r : fields_ok (fields doc) -> field_value doc p = Some r -> ref_ok r.
Proof.
  intros Hd. unfold field_value. destruct (is_document_name p); [by intros [= <-]|]. unfold get_field. destruct (segments p) as [|s ss]; [done|]. cbn [get_segments].
  destruct (fields doc !! s) as [v|] eqn:Hs; [|done]. cbn. destruct (walk v ss) as [w|] eqn:Hw; [|done]. intros [= <-]. eapply walk_ok; [|done]. by eapply Hd.
Qed.

Lemma kind_null v : is_null v = bool_decide (kind v = KNull).
Proof. destruct v as [| | |d| | | | | | | |]; try done. by destruct d. Qed.

Lemma kind_nan v : is_nan_value v = bool_decide (kind v = KNan).
Proof. destruct v as [| | |d| | | | | | | |]; try done. by destruct d. Qed.

Lemma cmp_value_eq r a b : ref_ok r -> value_ok a -> value_ok b -> value_eq a b = true -> cmp_value r a = cmp_value r b.
Proof.
  intros Hr Ha Hb He. destruct (value_eq_key a b Ha Hb He) as (Hk & Hkind & _). destruct r as [v|p]; cbn [cmp_value].
  - rewrite !canonical_cmp_key by done. by rewrite Hk.
  - destruct a, b; try done; cbn [cmp_value]; try by rewrite Hkind. cbn in He. by apply bool_decide_eq_true in He as ->.
Qed.

Lemma equal_ref_eq r a b : ref_ok r -> value_ok a -> value_ok b -> value_eq a b = true -> equal_ref r a = equal_ref r b.
Proof.
  intros Hr Ha Hb He. destruct (value_eq_key a b Ha Hb He) as (_ & Hkind & _). unfold equal_ref. rewrite !(kind_nan _), Hkind. by rewrite (cmp_value_eq r a b).
Qed.

Lemma equal_as_ref i c : equal i c = equal_ref (Stored i) c.
Proof. done. Qed.

Lemma existsb_eq (f g : Value -> bool) l m : (forall x y, x ∈ l -> y ∈ m -> value_eq x y = true -> f x = g y) -> all_equal value_eq l m = true -> existsb f l = existsb g m.
Proof.
  intros Hf He%all_equal_Forall2. induction He as [|x y l m Hxy He IH]; [done|]. cbn. rewrite (Hf x y) by (by left || done). f_equal. apply IH. intros; apply Hf; by (right || done).
Qed.

Lemma array_ok items : value_ok (VArray items) -> forall v, v ∈ items -> value_ok v.
Proof. intros H. by inversion H. Qed.

Lemma eval_op_eq r op a b : ref_ok r -> value_ok a -> value_ok b -> value_eq a b = true -> eval_op r op a = eval_op r op b.
Proof.
  intros Hr Ha Hb He. destruct (value_eq_key a b Ha Hb He) as (_ & Hkind & _). unfold eval_op, same_type_as. rewrite !(kind_null _), !(kind_nan _), Hkind, (equal_ref_eq r a b), (cmp_value_eq r a b) by done.
  destruct (bool_decide (kind b = KNull)); [done|].
  assert (Harr : (exists l m, a = VArray l /\ b = VArray m /\ all_equal value_eq l m = true) \/ (forall l, a <> VArray l) /\ (forall m, b <> VArray m)).
  { destruct a, b; try discriminate He; try (right; by split). left. by eexists _, _. }
  destruct op; try done.
  - destruct r as [v|]; [|done]. cbn [stored]. destruct v; try done. apply existsb_ext_in. intros i Hi. rewrite !equal_as_ref. apply equal_ref_eq; try done. by apply (array_ok items).
  - destruct Harr as [(l & m & -> & -> & Hlm)|[H1 H2]]; [|destruct a, b; try done; by edestruct H1 || by edestruct H2].
    apply existsb_eq; [|done]. intros x y Hx Hy Hxy. pose proof (array_ok l Ha x Hx) as Hxo. pose proof (array_ok m Hb y Hy) as Hyo.
    rewrite !(kind_null _), (proj1 (proj2 (value_eq_key x y Hxo Hyo Hxy))). by rewrite (equal_ref_eq r x y).
  - destruct r as [v|]; [|done]. cbn [stored]. destruct v; try done. destruct Harr as [(l & m & -> & -> & Hlm)|[H1 H2]]; [|destruct a, b; try done; by edestruct H1 || by edestruct H2].
    apply existsb_ext_in. intros i Hi. apply existsb_eq; [|done]. intros x y Hx Hy Hxy. pose proof (array_ok l Ha x Hx) as Hxo. pose proof (array_ok m Hb y Hy) as Hyo.
    rewrite !(kind_null _), (proj1 (proj2 (value_eq_key x y Hxo Hyo Hxy))), !equal_as_ref. rewrite (equal_ref_eq (Stored i) x y); try done. by apply (array_ok items).
  - destruct Harr as [(l & m & -> & -> & Hlm)|[H1 H2]]; [|destruct a, b; try done; by edestruct H1 || by edestruct H2].
    f_equal. f_equal. apply existsb_eq; [|done]. intros x y Hx Hy Hxy. pose proof (array_ok l Ha x Hx) as Hxo. pose proof (array_ok m Hb y Hy) as Hyo.
    rewrite !(kind_null _), (proj1 (proj2 (value_eq_key x y Hxo Hyo Hxy))). by rewrite (equal_ref_eq r x y).
Qed.

Lemma eval_filter_eq doc a : fields_ok (fields doc) -> forall b, filter_ok a -> filter_ok b -> filter_eq a b = true -> eval_filter a doc = eval_filter b doc.
Proof.
  intros Hd. induction a as [af ao av|af ao|a IH|a IH] using filter_induction; intros b Ha Hb; destruct b as [bf bo bv|bf bo|b|b]; cbn [filter_eq]; try done.
  - rewrite !andb_true_iff, !bool_decide_eq_true. intros [[-> ->] Hv]. inversion Ha; subst. inversion Hb; subst. cbn [eval_filter].
    destruct (field_value doc bf) as [r|] eqn:Hr; [|done]. apply eval_op_eq; try done. by eapply field_value_ok.
  - rewrite andb_true_iff, !bool_decide_eq_true. by intros [-> ->].
  - inversion Ha as [| |? Hca|]; subst. inversion Hb as [| |? Hcb|]; subst. intros He%all_equal_Forall2. cbn [eval_filter]. clear Ha Hb.
    induction He as [|x y l m Hxy He IHe]; [done|]. apply Forall_cons in IH as [IHx IH]. cbn. f_equal; [apply IHx; [apply Hca|apply Hcb|]; by left || done|].
    apply IHe; [done|intros c Hc; apply Hca; by right|intros c Hc; apply Hcb; by right].
  - inversion Ha as [| | |? Hca]; subst. inversion Hb as [| | |? Hcb]; subst. intros He%all_equal_Forall2. cbn [eval_filter]. clear Ha Hb.
    induction He as [|x y l m Hxy He IHe]; [done|]. apply Forall_cons in IH as [IHx IH]. cbn. f_equal; [apply IHx; [apply Hca|apply Hcb|]; by left || done|].
    apply IHe; [done|intros c Hc; apply Hca; by right|intros c Hc; apply Hcb; by right].
Qed.

(** ** Canonical filters *)

(** Built of conjunctions alone, of nothing. *)
Fixpoint vacuous (f : FilterExpr) : bool := match f with FAnd cs | FOr cs => forallb vacuous cs | _ => false end.

(** No disjunction is empty, nor has a vacuous child. *)
Fixpoint solid (f : FilterExpr) : bool :=
  match f with
  | FAnd cs => forallb solid cs
  | FOr cs => negb (bool_decide (length cs = 0%nat)) && forallb (fun c => solid c && negb (vacuous c)) cs
  | _ => true
  end.

Section canonical.
Context (production : bool).

(** Children of a canonical composite: canonical, of the other kind, in order and distinct. *)
Inductive canonical_form : FilterExpr -> Prop :=
| cf_field field op value : canonicalize_filter production (FField field op value) = Ok (FField field op value) -> canonical_form (FField field op value)
| cf_unary field op : canonical_form (FUnary field op)
| cf_empty : canonical_form (FAnd [])
| cf_and cs : (2 <= length cs)%nat -> (forall c, c ∈ cs -> canonical_form c /\ splice true c = [c]) ->
    StronglySorted (fun x y => canonical_filter_cmp x y <> Gt) cs -> dedup filter_eq cs = cs -> canonical_form (FAnd cs)
| cf_or cs : (2 <= length cs)%nat -> (forall c, c ∈ cs -> canonical_form c /\ splice false c = [c]) ->
    StronglySorted (fun x y => canonical_filter_cmp x y <> Gt) cs -> dedup filter_eq cs = cs -> canonical_form (FOr cs).

Lemma children_Ok is_and cs flat : canonicalize_children is_and (map (canonicalize_filter production) cs) = Ok flat <->
  exists gs, Forall2 (fun c g => canonicalize_filter production c = Ok g) cs gs /\ flat = flat_map (splice is_and) gs.
Proof.
  unfold canonicalize_children. assert (H : forall acc, r_fold (fun flat c => let* c := c in Ok (flat ++ splice is_and c)) (map (canonicalize_filter production) cs) acc = Ok flat <->
    exists gs, Forall2 (fun c g => canonicalize_filter production c = Ok g) cs gs /\ flat = acc ++ flat_map (splice is_and) gs).
  { induction cs as [|c cs IH]; intros acc; cbn [map r_fold].
    - split; [intros [= <-]; exists []; by rewrite app_nil_r|]. intros (gs & Hgs & ->). apply Forall2_nil_inv_l in Hgs as ->. by rewrite app_nil_r.
    - destruct (canonicalize_filter production c) as [g|e] eqn:Hg; cbn [r_bind].
      + rewrite IH. split; intros (gs & Hgs & ->); [exists (g :: gs); split; [by constructor|cbn; by rewrite app_assoc]|].
        apply Forall2_cons_inv_l in Hgs as (g' & gs' & Hg' & Hgs & ->). rewrite Hg in Hg'. injection Hg' as <-. exists gs'. split; [done|]. cbn. by rewrite app_assoc.
      + split; [done|]. intros (gs & Hgs & _). apply Forall2_cons_inv_l in Hgs as (g' & gs' & Hg' & _). congruence. }
  apply (H []).
Qed.

Lemma dedup_from_again {A} (eq : A -> A -> bool) l : forall k, dedup_from eq k (dedup_from eq k l) = dedup_from eq k l.
Proof. induction l as [|x l IH]; intros k; [done|]. cbn. destruct (eq x k) eqn:Hx; [apply IH|]. cbn. by rewrite Hx, IH. Qed.

Lemma dedup_again {A} (eq : A -> A -> bool) l : dedup eq (dedup eq l) = dedup eq l.
Proof. destruct l as [|x l]; [done|]. cbn. by rewrite dedup_from_again. Qed.

Lemma dedup_from_sublist {A} (eq : A -> A -> bool) l : forall k, sublist (dedup_from eq k l) l.
Proof. induction l as [|x l IH]; intros k; [constructor|]. cbn. destruct (eq x k); by constructor. Qed.

Lemma dedup_sublist {A} (eq : A -> A -> bool) l : sublist (dedup eq l) l.
Proof. destruct l as [|x l]; [constructor|]. cbn. constructor. apply dedup_from_sublist. Qed.

Lemma sublist_sorted {A} (R : A -> A -> Prop) l m : sublist l m -> StronglySorted R m -> StronglySorted R l.
Proof.
  induction 1 as [|x l m Hlm IH|x l m Hlm IH]; intros Hm; [done| |]; inversion Hm as [|? ? Hs Hx]; subst; [|by apply IH].
  constructor; [by apply IH|]. rewrite Forall_forall in Hx |- *. intros y Hy. apply Hx. by eapply sublist_elem_of.
Qed.

(** What a composite is made of. *)
Lemma compose_cases is_and flat : flat <> [] -> Forall filter_ok flat ->
  exists l, l = dedup filter_eq (sort_by canonical_filter_cmp flat) /\ (forall c, c ∈ l -> c ∈ flat) /\
    StronglySorted (fun x y => canonical_filter_cmp x y <> Gt) l /\ dedup filter_eq l = l /\
    ((exists c, l = [c] /\ compose is_and flat = c) \/ (2 <= length l)%nat /\ compose is_and flat = if is_and then FAnd l else FOr l).
Proof.
  intros Hne Hok. eexists. split; [done|]. split_and!.
  - intros c Hc. apply (sublist_elem_of _ (sort_by canonical_filter_cmp flat)) in Hc; [|apply dedup_sublist]. by rewrite sort_by_perm in Hc.
  - eapply sublist_sorted; [apply dedup_sublist|]. by apply filter_sorted.
  - apply dedup_again.
  - unfold compose. rewrite bool_decide_false by (by destruct flat). assert (Hn : sort_by canonical_filter_cmp flat <> []).
    { intros Hs. pose proof (sort_by_perm canonical_filter_cmp flat) as Hp. rewrite Hs in Hp. by apply Permutation_nil in Hp. }
    destruct (sort_by canonical_filter_cmp flat) as [|x l]; [done|]. cbn [dedup]. destruct (dedup_from filter_eq x l) as [|y m]; [left; by exists x|right]. split; [cbn; lia|done].
Qed.

Lemma splice_nonempty is_and g : g <> FAnd [] -> g <> FOr [] -> splice is_and g <> [].
Proof. intros H1 H2. destruct g as [| |[|]|[|]], is_and; done. Qed.

Lemma splice_form is_and g c : canonical_form g -> g <> FOr [] -> c ∈ splice is_and g -> canonical_form c /\ splice is_and c = [c].
Proof.
  intros Hg Hne Hc. assert (Hself : c ∈ [g] -> splice is_and g = [g] -> canonical_form c /\ splice is_and c = [c]) by (intros ->%list_elem_of_singleton ?; done).
  destruct g as [field op value|field op|cs|cs]; cbn [splice] in *; try by apply Hself.
  - destruct is_and, cs; try (by apply not_elem_of_nil in Hc); [|by apply Hself]. inversion Hg; subst; auto.
  - destruct is_and, cs; try (by apply not_elem_of_nil in Hc); [by apply Hself|]. inversion Hg; subst; auto.
Qed.

Lemma splice_ok is_and g c : filter_ok g -> c ∈ splice is_and g -> filter_ok c.
Proof.
  intros Hg Hc. assert (Hself : c ∈ [g] -> filter_ok c) by (by intros ->%list_elem_of_singleton).
  destruct g as [field op value|field op|cs|cs]; cbn [splice] in *; try by apply Hself.
  - destruct is_and, cs; try (by apply not_elem_of_nil in Hc); try (by apply Hself); inversion Hg; auto.
  - destruct is_and, cs; try (by apply not_elem_of_nil in Hc); try (by apply Hself); inversion Hg; auto.
Qed.

Lemma compose_form is_and gs (flat := flat_map (splice is_and) gs) :
  (forall g, g ∈ gs -> canonical_form g /\ filter_ok g /\ g <> FOr []) ->
  canonical_form (compose is_and flat) /\ filter_ok (compose is_and flat) /\ (compose is_and flat = FAnd [] <-> forall g, g ∈ gs -> g = FAnd []) /\ compose is_and flat <> FOr [].
Proof.
  intros Hgs. assert (Hflat : forall c, c ∈ flat -> canonical_form c /\ splice is_and c = [c] /\ filter_ok c).
  { intros c (g & Hg & Hc)%list_elem_of_In%in_flat_map. apply list_elem_of_In in Hg, Hc. 
    destruct (Hgs g) as (H1 & H2 & H3); [done|]. destruct (splice_form is_and g c H1 H3 Hc). split_and!; [done..|]. by eapply splice_ok. }
  assert (Hnil : flat = [] <-> forall g, g ∈ gs -> g = FAnd []).
  { unfold flat. clear flat Hflat. induction gs as [|g gs IH]; [split; [by intros _ g ?%not_elem_of_nil|done]|]. cbn [flat_map]. split.
    - intros [Hg Hrest]%app_eq_nil c [->|Hc]%elem_of_cons.
      + destruct (Hgs g ltac:(left)) as (_ & _ & Hno). by destruct g as [| |[|]|[|]], is_and.
      + apply IH; [intros; apply Hgs; by right|done..].
    - intros Hall. rewrite (Hall g) by (by left). rewrite (proj2 (IH ltac:(intros; apply Hgs; by right))); [by destruct is_and|intros; apply Hall; by right]. }
  destruct (decide (length flat = 0%nat)) as [Hl%nil_length_inv|Hl].
  - rewrite Hl. change (compose is_and []) with (FAnd []). split_and!; [constructor|constructor; by intros ? ?%not_elem_of_nil|by rewrite <- Hnil|done].
  - assert (Hne : flat <> []) by (by intros ->). destruct (compose_cases is_and flat Hne) as (l & _ & Hin & Hs & Hd & Hcase); [apply Forall_forall; intros c Hc; by apply Hflat|].
    destruct Hcase as [(c & -> & ->)|[Hlen ->]].
    + destruct (Hflat c) as (H1 & H2 & H3); [apply Hin; by left|]. split_and!; [done..| |by intros ->; destruct is_and].
      rewrite <- Hnil. split; [intros ->; by destruct is_and|done].
    + destruct is_and; split_and!; try done; try (by constructor; try done; intros c Hc; apply Hin, Hflat in Hc; tauto).
      * rewrite <- Hnil. split; [intros [= ->]; cbn in Hlen; lia|done].
      * rewrite <- Hnil. split; [done|done].
      * intros [= ->]. cbn in Hlen. lia.
Qed.

Definition form_of (f : FilterExpr) : Prop := forall g, filter_ok f -> canonicalize_filter production f = Ok g ->
  canonical_form g /\ filter_ok g /\ (g = FAnd [] <-> vacuous f = true) /\ g <> FOr [].

Lemma composite_form is_and cs gs (r := compose is_and (flat_map (splice is_and) gs)) : Forall form_of cs -> (forall c, c ∈ cs -> filter_ok c) ->
  Forall2 (fun c g => canonicalize_filter production c = Ok g) cs gs ->
  canonical_form r /\ filter_ok r /\ (r = FAnd [] <-> forallb vacuous cs = true) /\ r <> FOr [].
Proof.
  intros IH Hcs Hgs. rewrite Forall_forall in IH. destruct (compose_form is_and gs) as (H1 & H2 & H3 & H4).
  { intros g Hg. destruct (Forall2_elem_of_r _ _ _ _ Hgs Hg) as (c & Hc & Hcg). destruct (IH c Hc g (Hcs c Hc) Hcg) as (? & ? & _ & ?). done. }
  split_and!; [done..| |done]. unfold r. rewrite H3, forallb_forall. split.
  - intros Hg c Hc%list_elem_of_In. destruct (Forall2_elem_of_l _ _ _ _ Hgs Hc) as (g & Hgin & Hcg). apply (IH c Hc g (Hcs c Hc) Hcg). by apply Hg.
  - intros Hv g Hg. destruct (Forall2_elem_of_r _ _ _ _ Hgs Hg) as (c & Hc & Hcg). apply (IH c Hc g (Hcs c Hc) Hcg). by apply Hv, list_elem_of_In.
Qed.

Lemma canonicalize_form f : form_of f.
Proof.
  induction f as [field op value|field op|cs IH|cs IH] using filter_induction; intros g Hok.
  - intros Hg. assert (g = FField field op value) as -> by (cbn in Hg; repeat case_match; congruence). split_and!; [by constructor|done|done|done].
  - intros [= <-]. split_and!; [constructor|constructor|done|done].
  - cbn [canonicalize_filter]. destruct (canonicalize_children _ _) as [flat|] eqn:Hc; [|done]. intros [= <-]. apply children_Ok in Hc as (gs & Hgs & ->).
    inversion Hok; subst. by apply composite_form.
  - cbn [canonicalize_filter]. destruct (production && _); [done|]. destruct (canonicalize_children _ _) as [flat|] eqn:Hc; [|done]. intros [= <-]. apply children_Ok in Hc as (gs & Hgs & ->).
    inversion Hok; subst. by apply composite_form.
Qed.

End canonical.

Lemma canonical_again production g : canonical_form production g -> canonicalize_filter production g = Ok g.
Proof.
  induction g as [field op value|field op|cs IH|cs IH] using filter_induction; intros Hg; [by inversion Hg|done| |].
  - cbn [canonicalize_filter]. inversion Hg as [| | |? Hlen Hcs Hs Hd|]; subst; [done|]. rewrite Forall_forall in IH.
    assert (Hchildren : canonicalize_children true (map (canonicalize_filter production) cs) = Ok cs).
    { apply children_Ok. exists cs. split; [apply Forall_Forall2_diag, Forall_forall; intros c Hc; apply IH, Hcs; done|]. clear - Hcs.
      induction cs as [|c cs IHcs]; [done|]. cbn. rewrite (proj2 (Hcs c ltac:(left))). cbn. f_equal. apply IHcs. intros d Hd. apply Hcs. by right. }
    rewrite Hchildren. cbn [r_bind]. unfold compose. rewrite bool_decide_false, sort_by_sorted, Hd by (done || lia). by destruct cs as [|x [|y cs]]; cbn in Hlen; try lia.
  - cbn [canonicalize_filter]. inversion Hg as [| | | |? Hlen Hcs Hs Hd]; subst. rewrite Forall_forall in IH. rewrite (bool_decide_false (length cs = 0%nat)), andb_false_r by lia.
    assert (Hchildren : canonicalize_children false (map (canonicalize_filter production) cs) = Ok cs).
    { apply children_Ok. exists cs. split; [apply Forall_Forall2_diag, Forall_forall; intros c Hc; apply IH, Hcs; done|]. clear - Hcs.
      induction cs as [|c cs IHcs]; [done|]. cbn. rewrite (proj2 (Hcs c ltac:(left))). cbn. f_equal. apply IHcs. intros d Hd. apply Hcs. by right. }
    rewrite Hchildren. cbn [r_bind]. unfold compose. rewrite bool_decide_false, sort_by_sorted, Hd by (done || lia). by destruct cs as [|x [|y cs]]; cbn in Hlen; try lia.
Qed.

(** ** Canonical filters select the same documents *)

Section selects.
Context (doc : Document) (Hdoc : fields_ok (fields doc)).

Definition eval_all (is_and : bool) (l : list FilterExpr) : bool :=
  if is_and then forallb (fun c => eval_filter c doc) l else existsb (fun c => eval_filter c doc) l.

Lemma eval_all_cons is_and c l : eval_all is_and (c :: l) = if is_and then eval_filter c doc && eval_all is_and l else eval_filter c doc || eval_all is_and l.
Proof. by destruct is_and. Qed.

Lemma eval_all_perm is_and l m : l ≡ₚ m -> eval_all is_and l = eval_all is_and m.
Proof.
  induction 1 as [|x l m _ IH|x y l|l m n _ IH1 _ IH2]; rewrite ?eval_all_cons; [done|by rewrite IH| |congruence].
  by destruct is_and, (eval_filter x doc), (eval_filter y doc).
Qed.

Lemma eval_all_app is_and l m : eval_all is_and (l ++ m) = if is_and then eval_all is_and l && eval_all is_and m else eval_all is_and l || eval_all is_and m.
Proof. destruct is_and; [apply forallb_app|apply existsb_app]. Qed.

Lemma eval_all_dedup is_and l : Forall filter_ok l -> eval_all is_and (dedup filter_eq l) = eval_all is_and l.
Proof.
  destruct l as [|x l]; [done|]. intros [Hx Hl]%Forall_cons. cbn [dedup]. rewrite !eval_all_cons. revert x Hx. induction l as [|y l IH]; intros x Hx; [done|].
  apply Forall_cons in Hl as [Hy Hl]. cbn [dedup_from]. destruct (filter_eq y x) eqn:He.
  - rewrite IH by done. rewrite eval_all_cons, (eval_filter_eq doc y Hdoc x Hy Hx He). by destruct is_and, (eval_filter x doc).
  - rewrite !eval_all_cons. by rewrite IH.
Qed.

Lemma eval_compose is_and flat : Forall filter_ok flat -> flat <> [] \/ is_and = true -> eval_filter (compose is_and flat) doc = eval_all is_and flat.
Proof.
  intros Hok Hne. destruct (decide (length flat = 0%nat)) as [Hl%nil_length_inv|Hl].
  - rewrite Hl. destruct Hne as [| ->]; [done|]. reflexivity.
  - destruct (compose_cases is_and flat) as (l & Hl' & Hin & _ & _ & Hcase); [by intros ->|done|].
    assert (Heval : eval_all is_and l = eval_all is_and flat).
    { rewrite Hl', eval_all_dedup; [apply eval_all_perm, sort_by_perm|]. rewrite Forall_forall in Hok |- *. intros c Hc. rewrite sort_by_perm in Hc. by apply Hok. }
    rewrite <- Heval. destruct Hcase as [(c & -> & ->)|[_ ->]]; [|by destruct is_and]. rewrite eval_all_cons. destruct is_and; cbn; [by rewrite andb_true_r|by rewrite orb_false_r].
Qed.

Lemma eval_splice is_and g : g <> FOr [] -> (is_and = false -> g <> FAnd []) -> eval_all is_and (splice is_and g) = eval_filter g doc.
Proof.
  intros H1 H2. assert (Hself : eval_all is_and [g] = eval_filter g doc) by (unfold eval_all; destruct is_and; cbn; [by rewrite andb_true_r|by rewrite orb_false_r]).
  destruct g as [| |[|c cs]|[|c cs]], is_and; try exact Hself; try done. by destruct (H2 eq_refl).
Qed.

Lemma eval_flat is_and gs : (forall g, g ∈ gs -> g <> FOr [] /\ (is_and = false -> g <> FAnd [])) ->
  eval_all is_and (flat_map (splice is_and) gs) = eval_all is_and gs.
Proof.
  induction gs as [|g gs IH]; intros Hgs; [done|]. cbn [flat_map]. destruct (Hgs g ltac:(left)) as [H1 H2].
  rewrite eval_all_app, eval_all_cons, eval_splice, IH by (done || (intros; apply Hgs; by right)). done.
Qed.

Lemma canonical_eval production f : forall g, filter_ok f -> solid f = true -> canonicalize_filter production f = Ok g -> eval_filter g doc = eval_filter f doc.
Proof.
  induction f as [field op value|field op|cs IH|cs IH] using filter_induction; intros g Hok Hsolid.
  - intros Hg. by assert (g = FField field op value) as -> by (cbn in Hg; repeat case_match; congruence).
  - by intros [= <-].
  - cbn [canonicalize_filter]. destruct (canonicalize_children _ _) as [flat|] eqn:Hc; [|done]. intros [= <-]. apply children_Ok in Hc as (gs & Hgs & ->). inversion Hok as [| |? Hcs|]; subst.
    cbn [solid] in Hsolid. rewrite forallb_forall in Hsolid. rewrite Forall_forall in IH.
    assert (Hform : forall g, g ∈ gs -> filter_ok g /\ g <> FOr []).
    { intros g Hg. destruct (Forall2_elem_of_r _ _ _ _ Hgs Hg) as (c & Hc & Hcg). destruct (canonicalize_form production c g (Hcs c Hc) Hcg) as (_ & ? & _ & ?). done. }
    rewrite eval_compose; [|apply Forall_forall; intros c (g & Hg%list_elem_of_In & Hc%list_elem_of_In)%list_elem_of_In%in_flat_map; eapply splice_ok; [|done]; by apply Hform|by right].
    rewrite eval_flat by (intros g Hg; split; [by apply Hform|done]). cbn [eval_filter]. clear Hok Hform.
    induction Hgs as [|c g cs gs Hcg Hgs IHgs]; [done|]. cbn. f_equal; [apply (IH c); [by left|apply Hcs; by left|apply Hsolid; by left|done]|].
    apply IHgs; intros; [apply (IH x); try done; by right|apply Hsolid; by right|apply Hcs; by right].
  - cbn [canonicalize_filter]. destruct (production && _); [done|]. destruct (canonicalize_children _ _) as [flat|] eqn:Hc; [|done]. intros [= <-]. apply children_Ok in Hc as (gs & Hgs & ->). inversion Hok as [| | |? Hcs]; subst.
    cbn [solid] in Hsolid. apply andb_true_iff in Hsolid as [Hne Hsolid]. rewrite forallb_forall in Hsolid. rewrite Forall_forall in IH.
    assert (Hform : forall g, g ∈ gs -> filter_ok g /\ g <> FOr [] /\ g <> FAnd []).
    { intros g Hg. destruct (Forall2_elem_of_r _ _ _ _ Hgs Hg) as (c & Hc & Hcg). destruct (canonicalize_form production c g (Hcs c Hc) Hcg) as (_ & ? & Hv & ?).
      split_and!; [done..|]. intros Hv'%Hv. apply list_elem_of_In, Hsolid in Hc. rewrite Hv', andb_false_r in Hc. done. }
    rewrite eval_compose; [|apply Forall_forall; intros c (g & Hg%list_elem_of_In & Hc%list_elem_of_In)%list_elem_of_In%in_flat_map; eapply splice_ok; [|done]; by apply Hform|left].
    2: { destruct gs as [|g gs]; [apply Forall2_nil_inv_r in Hgs as ->; done|]. cbn [flat_map]. intros [Hn _]%app_eq_nil. destruct (Hform g ltac:(left)) as (_ & H1 & H2). by apply (splice_nonempty false g) in H2. }
    rewrite eval_flat by (intros g Hg; split; [by apply Hform|intros _; by apply Hform]). cbn [eval_filter]. clear Hok Hform Hne.
    induction Hgs as [|c g cs gs Hcg Hgs IHgs]; [done|]. pose proof (Hsolid c ltac:(by left)) as Hc. apply andb_true_iff in Hc as [Hc _].
    cbn. f_equal; [apply (IH c); [by left|apply Hcs; by left|done|done]|]. apply IHgs; intros; [apply (IH x); try done; by right|apply Hsolid; by right|apply Hcs; by right].
Qed.

End selects.

(** C20. Canonicalization is sound and stable: the canonical filter is flattened, ordered and free of adjacent duplicates and
    canonicalizes to itself; it selects the same documents, provided that no disjunction is empty or has a child
    that is made of empty composites alone; such a child is dropped from the disjunction, although it holds of every
    document. *)
Theorem canonicalization_exact (production : bool) (f g : FilterExpr) (doc : Document) : filter_ok f -> fields_ok (fields doc) ->
  canonicalize_filter production f = Ok g ->
  canonical_form production g /\ canonicalize_filter production g = Ok g /\ (solid f = true -> eval_filter g doc = eval_filter f doc) /\
  (forall a, canonicalize_filter production a = Ok a -> splice false a = [a] -> canonicalize_filter production (FOr [FAnd []; a]) = Ok a /\ eval_filter (FOr [FAnd []; a]) doc = true).
Proof.
  intros Hok Hdoc Hg. destruct (canonicalize_form production f g Hok Hg) as (Hform & _). split_and!; [done|by apply canonical_again|by intros ?; eapply canonical_eval|].
  intros a Ha Hs. split; [|done]. cbn [canonicalize_filter map length]. rewrite bool_decide_false, andb_false_r by done. rewrite Ha. unfold canonicalize_children. cbn [r_fold r_bind app].
  change (splice false (compose true [])) with (@nil FilterExpr). cbn. by rewrite Hs.
Qed.

Lemma fields_ok_empty : fields_ok ∅.
Proof. intros k v Hk. by rewrite lookup_empty in Hk. Qed.

Lemma fields_ok_insert k v fs : value_ok v -> fields_ok fs -> fields_ok (<[k := v]> fs).
Proof. intros Hv Hfs j w [[<- <-]|[_ Hj]]%lookup_insert_Some; [done|by eapply Hfs]. Qed.

Lemma small_ok i : (-99 <=? i) && (i <=? 99) = true -> value_ok (VInteger i).
Proof. intros Hi. constructor. split; cbn; lia. Qed.

Definition demo_doc : Document :=
  {| path := demo_path; fields := <[chars "a" := VInteger 3]> (<[chars "b" := VInteger 2]> ∅); create_time := 0; update_time := 0; version := 1 |}.

Lemma demo_doc_ok : fields_ok (fields demo_doc).
Proof. do 2 (apply fields_ok_insert; [by apply small_ok|]). apply fields_ok_empty. Qed.

Lemma demo_filter_ok : filter_ok demo_filter.
Proof.
  unfold demo_filter, demo_in. repeat match goal with
    | |- filter_ok (FField _ _ (VArray _)) => constructor; constructor; apply Forall_forall; repeat apply Forall_cons_2; [..|apply Forall_nil_2]
    | |- filter_ok (FField _ _ _) => constructor
    | |- filter_ok (FUnary _ _) => constructor
    | |- value_ok VNull => constructor
    | |- value_ok (VInteger _) => by apply small_ok
    | |- filter_ok _ => constructor; apply Forall_forall; repeat apply Forall_cons_2; [..|apply Forall_nil_2]
    end.
Qed.

Example canonicalization_exact_witness : solid demo_filter = true /\ exists g, canonicalize_filter true demo_filter = Ok g /\
  eval_filter g demo_doc = eval_filter demo_filter demo_doc /\ eval_filter demo_filter demo_doc = true.
Proof.
  split; [reflexivity|]. destruct (canonicalize_filter true demo_filter) as [g|] eqn:Hg; [|discriminate Hg]. exists g. split; [reflexivity|].
  destruct (canonicalization_exact true demo_filter g demo_doc demo_filter_ok demo_doc_ok Hg) as (_ & _ & He & _). split; [apply He; reflexivity|vm_compute; reflexivity].
Defined.
