(* ===== verification/FsQuery.v ===== *)
(** * Firestore queries

    Models the scopes, queries, canonicalization, structural validation and Standard limits of
    [crates/fireemu-core-firestore/src/query.rs].  A [BTreeSet] of fields is the sorted list of
    them; the nearest-neighbour stage is only validated. *)
From Stdlib Require Import SpecFloat.
From S2P Require Import Prelude Time Text Ids DbNumber Lex FsValue FsFieldPath FsDocPath FsDocument FsFilter.
#[local] Set Warnings "-register-all".

(** ** Scopes *)

Inductive QueryScope :=
| Collection (parent : option DocumentPath) (collection_id : string)
| CollectionGroup (parent : option DocumentPath) (collection_id : string)
| KindlessAllDescendants (parent : option DocumentPath)
| KindlessChildren (parent : option DocumentPath).

Definition scope_parent (s : QueryScope) : option DocumentPath :=
  match s with Collection p _ | CollectionGroup p _ | KindlessAllDescendants p | KindlessChildren p => p end.

Definition scope_collection_id (s : QueryScope) : option string :=
  match s with Collection _ c | CollectionGroup _ c => Some c | _ => None end.

Definition all_descendants (s : QueryScope) : bool := match s with CollectionGroup _ _ | KindlessAllDescendants _ => true | _ => false end.
Definition is_kindless (s : QueryScope) : bool := match s with KindlessAllDescendants _ | KindlessChildren _ => true | _ => false end.

(** [path.pairs()[..n] == *prefix.pairs()]; the slice needs [n <= path.pairs().len()], which the conditions before it give. *)
Definition has_prefix (parent : option DocumentPath) (p : DocumentPath) : bool :=
  match parent with None => true | Some prefix => bool_decide (take (length (pairs prefix)) (pairs p) = pairs prefix) end.

Definition parent_len (s : QueryScope) : nat := from_option (fun p => length (pairs p)) 0%nat (scope_parent s).

Definition scope_contains (s : QueryScope) (p : DocumentPath) : bool :=
  match s with
  | Collection parent c =>
      bool_decide (length (pairs p) = parent_len s + 1)%nat && bool_decide (collection_id p = Some c) && has_prefix parent p
  | CollectionGroup parent c =>
      bool_decide (collection_id p = Some c) && match parent with None => true | Some _ => (parent_len s <? length (pairs p))%nat && has_prefix parent p end
  | KindlessAllDescendants parent => match parent with None => true | Some _ => (parent_len s <? length (pairs p))%nat && has_prefix parent p end
  | KindlessChildren parent => bool_decide (length (pairs p) = parent_len s + 1)%nat && has_prefix parent p
  end.

(** ** Queries *)

Inductive Direction := Ascending | Descending.

#[global] Instance Direction_eq_dec : EqDecision Direction.
Proof. solve_decision. Defined.

Definition reversed (d : Direction) : Direction := match d with Ascending => Descending | Descending => Ascending end.

Inductive DistanceMeasure := Euclidean | Cosine | DotProduct.

Record FindNearest := {
  vector_field : FieldPath; query_vector : list spec_float; distance_measure : DistanceMeasure; nearest_limit : Z;
  distance_result_field : option FieldPath; distance_threshold : option spec_float
}.

Record OrderClause := { o_field : FieldPath; direction : Direction }.

Record Cursor := { c_values : list Value; before : bool }.

Record Query := {
  scope : QueryScope; q_filter : option FilterExpr; order_by : list OrderClause; start_at : option Cursor; end_at : option Cursor;
  offset : Z; limit : option Z; projection : option (list FieldPath); find_nearest : option FindNearest; production_refusals : bool
}.

#[global, refine] Instance FieldPath_RustOrd : RustOrd FieldPath := {| ord_cmp p q := ord_cmp (segments p) (segments q) |}.
Proof.
  - intros [] []. rewrite ord_cmp_eq. cbn. split; congruence.
  - intros p q. apply ord_cmp_opp.
  - intros p q r. apply ord_cmp_trans.
Defined.

#[global] Instance FieldPath_countable : Countable FieldPath.
Proof. refine (inj_countable' segments (fun ss => {| segments := ss |}) _). by intros []. Defined.

(** A [BTreeSet] of the fields. *)
Definition sorted_fields (l : list FieldPath) : list FieldPath := btree_iter (list_to_set l : gset FieldPath).

Definition query_inequality_fields (q : Query) : list FieldPath := sorted_fields (from_option inequality_fields [] (q_filter q)).

Definition last_direction (order : list OrderClause) : Direction := from_option direction Ascending (last order).

Definition in_fields (p : FieldPath) (l : list FieldPath) : bool := bool_decide (p ∈ l).

Definition effective_order_by (q : Query) : list OrderClause :=
  let explicit := map o_field (order_by q) in
  let d := last_direction (order_by q) in
  let out := order_by q ++ map (fun f => {| o_field := f; direction := d |})
    (filter (fun f => is_document_name f = false /\ f ∉ explicit) (query_inequality_fields q)) in
  if existsb (fun o => is_document_name (o_field o)) out then out else out ++ [ {| o_field := document_name; direction := d |} ].

(** ** Structural validation *)

(** [d.is_finite()] *)
Definition is_finite (d : spec_float) : bool := negb (is_nan d) && negb (is_infinite d).

(** A clause after [__name__]. *)
Fixpoint after_name (order : list OrderClause) : bool :=
  match order with [] => false | o :: rest => if is_document_name (o_field o) then negb (bool_decide (length rest = 0%nat)) else after_name rest end.

Definition validate_find_nearest (f : FindNearest) : result unit QueryError :=
  do* r_refuse (bool_decide (length (query_vector f) = 0%nat)) FindNearestQueryVectorEmpty in
  do* r_refuse ((2048 <? Z.of_nat (length (query_vector f))) || existsb (fun d => negb (is_finite d)) (query_vector f)) FindNearestQueryVector in
  do* r_refuse (negb ((1 <=? nearest_limit f) && (nearest_limit f <=? 1000))) FindNearestLimit in
  do* r_refuse (match distance_threshold f with Some t => negb (is_finite t) | None => false end) FindNearestDistanceThreshold in
  r_refuse (match distance_result_field f with Some p => is_document_name p | None => false end) FindNearestDistanceResultField.

Definition check_kindless_constraints (q : Query) : result unit QueryError :=
  if negb (is_kindless (scope q)) then Ok tt
  else match q_filter q ≫= first_non_name_field with
       | Some field => Err (KindRequiredForFilter field)
       | None => r_refuse (existsb (fun o => negb (is_document_name (o_field o)) || bool_decide (direction o <> Ascending)) (order_by q)) KindRequiredForOrder
       end.

(** The loop that collects the fields it has [seen]. *)
Fixpoint check_duplicates (seen : list FieldPath) (order : list OrderClause) : result unit QueryError :=
  match order with
  | [] => Ok tt
  | o :: order => if in_fields (o_field o) seen then Err (DuplicateOrderField (o_field o)) else check_duplicates (o_field o :: seen) order
  end.

Definition check_arity (arity : nat) (c : option Cursor) : result unit QueryError :=
  match c with
  | Some c => r_refuse (arity <? length (c_values c))%nat (CursorArityMismatch (Z.of_nat (length (c_values c))) (Z.of_nat arity))
  | None => Ok tt
  end.

Definition canonical_query_filter (production : bool) (f : FilterExpr) : result (option FilterExpr) QueryError :=
  let* c := canonicalize_filter production f in
  match c with
  | FAnd [] => Ok None
  | _ => do* check_negation_rules c in do* check_not_in_rules c in do* check_name_filters production c in Ok (Some c)
  end.

Definition canonicalize_with (production : bool) (q : Query) : result Query QueryError :=
  let* f := match q_filter q with None => Ok None | Some f => canonical_query_filter production f end in
  let q := {| scope := scope q; q_filter := f; order_by := order_by q; start_at := start_at q; end_at := end_at q; offset := offset q; limit := limit q;
              projection := projection q; find_nearest := find_nearest q; production_refusals := production |} in
  do* match find_nearest q with Some n => validate_find_nearest n | None => Ok tt end in
  do* (if production then do* check_kindless_constraints q in check_duplicates [] (order_by q) else Ok tt) in
  let order := effective_order_by q in
  do* r_refuse (after_name order) OrderAfterDocumentName in
  let arity := if production then length (order_by q) else length order in
  do* check_arity arity (start_at q) in do* check_arity arity (end_at q) in Ok q.

Definition check_standard_constraints (q : Query) : result unit QueryError :=
  let inequalities := query_inequality_fields q in
  r_refuse (negb (bool_decide (length inequalities = 0%nat)) && negb (existsb is_document_name inequalities) && from_option has_key_equality false (q_filter q))
    KeyEqualityWithOtherInequalities.

Definition names_a_collection (name : text) : bool :=
  match split_once_at (chars "/documents/") name with
  | Some (_, relative) =>
      let segments := split_on (ch "/") relative in
      (Z.of_nat (length segments) mod 2 =? 1) && forallb (fun s => negb (bool_decide (s = []))) segments
  | None => false
  end.

(** The loop over the values of a cursor, from [position] on. *)
Fixpoint check_cursor_names (position : Z) (values : list Value) (order : list OrderClause) : result unit QueryError :=
  match values, order with
  | value :: values, o :: order =>
      if negb (is_document_name (o_field o)) then check_cursor_names (position + 1) values order
      else match value with
           | VReference name =>
               match from_resource_name name with
               | Some _ => check_cursor_names (position + 1) values order
               | None => Err (if names_a_collection name then CursorReferenceNotDocument name else CursorNameValue position)
               end
           | _ => Err (CursorNameValue position)
           end
  | _, _ => Ok tt
  end.

Definition check_production_cursor_constraints (q : Query) : result unit QueryError :=
  let order := effective_order_by q in
  do* match start_at q with Some c => check_cursor_names 0 (c_values c) order | None => Ok tt end in
  match end_at q with Some c => check_cursor_names 0 (c_values c) order | None => Ok tt end.

(** ** The Standard query limits *)

Inductive QueryLimit := Disjunctions | ArrayContainsPerDisjunction | ArrayContainsCombination | NotInValues | NotInNeqCombination | InequalityFields | Components.

(** The catalog [FIRESTORE_STANDARD_QUERY_2026_08_25]. *)
Definition maximum (id : QueryLimit) : Z :=
  match id with
  | Disjunctions => 30 | ArrayContainsPerDisjunction => 1 | ArrayContainsCombination => 0 | NotInValues => 10
  | NotInNeqCombination => 0 | InequalityFields => 10 | Components => 100
  end.

(** The texts of a violation are not modelled. *)
Record QueryLimitViolation := { limit_id : QueryLimit; current : Z; v_maximum : Z }.

Definition limit_check (id : QueryLimit) (current : Z) : list QueryLimitViolation :=
  if maximum id <? current then [ {| limit_id := id; current := current; v_maximum := maximum id |} ] else [].

Definition MAX_MATERIALIZED_DISJUNCTIONS : Z := 4096.

Definition dnf (q : Query) : list (list FilterExpr) := match q_filter q with None => [[]] | Some f => dnf_of f end.
Definition dnf_disjunction_count (q : Query) : Z := match q_filter q with None => 1 | Some f => dnf_count f end.

Record ComponentCount := { cc_filters : Z; cc_orders : Z; cc_parent_path : Z; cc_total : Z }.

Definition component_count (q : Query) : ComponentCount :=
  let filters :=
    if MAX_MATERIALIZED_DISJUNCTIONS <? dnf_disjunction_count q then int_max u64 / 4
    else fold_left (fun n d => n + Z.of_nat (length d)) (dnf q) 0 in
  let orders := Z.of_nat (length (order_by q)) in
  let parent_path := match scope_parent (scope q) with Some _ => 1 | None => 0 end in
  {| cc_filters := filters; cc_orders := orders; cc_parent_path := parent_path; cc_total := filters + orders + parent_path |}.

Fixpoint collect_atoms (f : FilterExpr) : list (FieldPath * FieldOp * Z) :=
  match f with
  | FField field op value => [(field, op, match value with VArray items => Z.of_nat (length items) | _ => 1 end)]
  | FUnary _ _ => []
  | FAnd children | FOr children => concat (map collect_atoms children)
  end.

Definition check_value_counts (q : Query) : list QueryLimitViolation :=
  match q_filter q with
  | None => []
  | Some f => flat_map (fun '(_, op, n) =>
      match op with OpIn | ArrayContainsAny => limit_check Disjunctions n | NotIn => limit_check NotInValues n | _ => [] end) (collect_atoms f)
  end.

Definition has_op (op : FieldOp) (f : FilterExpr) : bool := match f with FField _ o _ => bool_decide (o = op) | _ => false end.
Definition count_op (op : FieldOp) (d : list FilterExpr) : Z := Z.of_nat (length (filter (fun f => has_op op f = true) d)).

Definition check_disjunction_membership (q : Query) : list QueryLimitViolation :=
  flat_map (fun d =>
    let array_contains := count_op ArrayContains d in
    let array_contains_any := count_op ArrayContainsAny d in
    limit_check ArrayContainsPerDisjunction (Z.max array_contains array_contains_any) ++
    limit_check ArrayContainsCombination (Z.b2z ((0 <? array_contains) && (0 <? array_contains_any)))) (dnf q) ++
  limit_check NotInNeqCombination (Z.b2z (existsb (existsb (has_op NotIn)) (dnf q) && existsb (existsb (has_op NotEqual)) (dnf q))).

(** [Ok] without violations. *)
Definition check_standard_limits (q : Query) : result unit (list QueryLimitViolation) :=
  let violations := check_value_counts q ++ limit_check Disjunctions (dnf_disjunction_count q) in
  if maximum Disjunctions <? dnf_disjunction_count q then Err violations
  else
    let violations := violations ++ check_disjunction_membership q ++ limit_check InequalityFields (Z.of_nat (length (query_inequality_fields q))) ++
      limit_check Components (cc_total (component_count q)) in
    if bool_decide (length violations = 0%nat) then Ok tt else Err violations.

Definition demo_query : Query :=
  {| scope := Collection None "users"; q_filter := Some (FField field_a GreaterThan (VInteger 1)); order_by := []; start_at := None; end_at := None;
     offset := 0; limit := Some 2; projection := None; find_nearest := None; production_refusals := true |}.

Lemma order_has_name q : existsb (fun o => is_document_name (o_field o)) (effective_order_by q) = true.
Proof.
  unfold effective_order_by. destruct (existsb (fun o => is_document_name (o_field o)) (order_by q ++ _)) eqn:He; [done|]. rewrite existsb_app, He. done.
Qed.

(** ** Canonical queries *)

Definition names (o : OrderClause) : bool := is_document_name (o_field o).

Lemma name_last order : existsb names order = true -> after_name order = false ->
  exists init o, order = init ++ [o] /\ names o = true /\ forallb (fun o => negb (names o)) init = true.
Proof.
  induction order as [|o order IH]; [done|]. cbn [existsb after_name]. change (is_document_name (o_field o)) with (names o). destruct (names o) eqn:Ho.
  - intros _ Hn. apply negb_false_iff, bool_decide_eq_true, nil_length_inv in Hn as ->. by exists [], o.
  - cbn [orb]. intros He Ha. destruct (IH He Ha) as (init & o' & -> & Hn & Hi). exists (o :: init), o'. split_and!; [done..|]. cbn. by rewrite Ho.
Qed.

Lemma check_duplicates_NoDup order : forall seen, check_duplicates seen order = Ok tt -> NoDup (map o_field order) /\ forall o, o ∈ order -> o_field o ∉ seen.
Proof.
  induction order as [|o order IH]; intros seen; cbn [check_duplicates]; [split; [constructor|by intros o ?%not_elem_of_nil]|].
  unfold in_fields. case_bool_decide as Hin; [done|]. intros [Hnd Hseen]%IH. split.
  - cbn. constructor; [|done]. intros (o' & Ho & Ho')%list_elem_of_fmap. apply (Hseen o' Ho'). rewrite <- Ho. by left.
  - intros o' [->|Ho']%elem_of_cons; [done|]. specialize (Hseen o' Ho'). rewrite not_elem_of_cons in Hseen. tauto.
Qed.

Lemma elem_of_sorted_fields p l : p ∈ sorted_fields l <-> p ∈ l.
Proof. unfold sorted_fields. by rewrite elem_of_btree_iter, elem_of_list_to_set. Qed.

Lemma implied_order q : exists implied, NoDup (map o_field implied) /\ (forall o, o ∈ implied -> o_field o ∉ map o_field (order_by q)) /\ 
  effective_order_by q = order_by q ++ implied /\ forall p, p ∈ from_option inequality_fields [] (q_filter q) -> is_document_name p = true \/ p ∈ map o_field (order_by q ++ implied).
Proof.
  set (extra := filter (fun f => is_document_name f = false /\ f ∉ map o_field (order_by q)) (query_inequality_fields q)). set (d := last_direction (order_by q)).
  assert (Hfields : map o_field (map (fun f => {| o_field := f; direction := d |}) extra) = extra) by (rewrite map_map; apply map_id).
  assert (Hnd : NoDup extra) by (apply NoDup_filter, NoDup_btree_iter).
  assert (Hin : forall p, p ∈ from_option inequality_fields [] (q_filter q) -> is_document_name p = true \/ p ∈ map o_field (order_by q ++ map (fun f => {| o_field := f; direction := d |}) extra)).
  { intros p Hp. destruct (is_document_name p) eqn:Hn; [by left|right]. rewrite map_app, elem_of_app, Hfields. destruct (decide (p ∈ map o_field (order_by q))); [by left|right].
    apply list_elem_of_filter. split; [done|]. by apply elem_of_sorted_fields. }
  unfold effective_order_by. fold d extra. destruct (existsb _ _) eqn:He.
  - eexists. split_and!; [by rewrite Hfields| |done|done]. intros o (f & -> & Hf)%list_elem_of_fmap. apply list_elem_of_filter in Hf. tauto.
  - rewrite existsb_app in He. apply orb_false_iff in He as [He1 He2]. exists (map (fun f => {| o_field := f; direction := d |}) extra ++ [{| o_field := document_name; direction := d |}]). split_and!.
    + rewrite map_app, Hfields. apply NoDup_app. split_and!; [done| |by apply NoDup_singleton]. intros p Hp ->%list_elem_of_singleton. apply list_elem_of_filter in Hp as [[Hp _] _]. done.
    + intros o [(f & -> & Hf)%list_elem_of_fmap| ->%list_elem_of_singleton]%elem_of_app; [apply list_elem_of_filter in Hf; tauto|].
      intros (o' & Ho & Ho')%list_elem_of_fmap. assert (Hex : existsb (fun o => is_document_name (o_field o)) (order_by q) = true); [|congruence].
      apply existsb_exists. exists o'. split; [by apply list_elem_of_In|]. cbn in Ho. by rewrite <- Ho.
    + by rewrite app_assoc.
    + intros p Hp. destruct (Hin p Hp) as [|Hp']; [by left|right]. rewrite app_assoc, map_app, elem_of_app. by left.
Qed.

Lemma canonical_filter_again production f c : (forall g, f = Some g -> filter_ok g) -> match f with None => Ok None | Some f => canonical_query_filter production f end = Ok c ->
  match c with None => Ok None | Some f => canonical_query_filter production f end = Ok c.
Proof.
  intros Hok. destruct f as [f|]; [|by intros [= <-]]. unfold canonical_query_filter. destruct (canonicalize_filter production f) as [g|] eqn:Hg; [|done]. cbn [r_bind].
  assert (Hform : canonical_form production g) by (by eapply canonicalize_form; [apply Hok|]).
  assert (Hagain : canonicalize_filter production g = Ok g) by (by apply canonical_again).
  assert (Hchecks : forall checked : result (option FilterExpr) QueryError, checked = Ok c ->
    checked = (do* check_negation_rules g in do* check_not_in_rules g in do* check_name_filters production g in Ok (Some g)) -> g <> FAnd [] -> 
    match c with None => Ok None | Some f => let* c := canonicalize_filter production f in match c with FAnd [] => Ok None | _ => do* check_negation_rules c in do* check_not_in_rules c in do* check_name_filters production c in Ok (Some c) end end = Ok c).
  { intros checked Hc Heq Hne. assert (c = Some g) as -> by (rewrite Heq in Hc; destruct (check_negation_rules g); [|done]; destruct (check_not_in_rules g); [|done]; cbn in Hc; destruct (check_name_filters production g); [|done]; by injection Hc as <-).
    rewrite Hagain. cbn [r_bind]. etransitivity; [|exact Hc]. rewrite Heq. clear -Hne. by destruct g as [| |[|]|]. }
  destruct g as [| |[|x l]|]; intros Hc; try (by eapply (Hchecks _ Hc)). by injection Hc as <-.
Qed.

(** C18. An accepted query is canonical: canonicalizing it again changes nothing; its effective order starts with the explicit
    clauses, orders by every field that the filter bounds, and ends with the document name, which comes nowhere before;
    and under production's rules no field is ordered twice. *)
Theorem canonical_query_exact (production : bool) (q q' : Query) : (forall f, q_filter q = Some f -> filter_ok f) -> canonicalize_with production q = Ok q' ->
  canonicalize_with production q' = Ok q' /\
  (exists init o, effective_order_by q' = init ++ [o] /\ names o = true /\ forallb (fun o => negb (names o)) init = true) /\
  (exists implied, effective_order_by q' = order_by q ++ implied) /\
  (forall p, p ∈ from_option inequality_fields [] (q_filter q') -> p ∈ map o_field (effective_order_by q')) /\
  (production = true -> NoDup (map o_field (effective_order_by q'))).
Proof.
  intros Hok. unfold canonicalize_with at 1. destruct (match q_filter q with None => _ | Some _ => _ end) as [f|] eqn:Hf; [|done]. cbn [r_bind].
  set (r := {| scope := scope q; q_filter := f; order_by := order_by q; start_at := start_at q; end_at := end_at q; offset := offset q; limit := limit q;
               projection := projection q; find_nearest := find_nearest q; production_refusals := production |}).
  destruct (match find_nearest r with None => _ | Some _ => _ end) as [[]|] eqn:H1; [|done]. cbn [r_bind].
  destruct (if production then _ else _) as [[]|] eqn:H2; [|done]. cbn [r_bind]. destruct (after_name (effective_order_by r)) eqn:H3; [done|]. cbn [r_refuse r_bind].
  destruct (check_arity _ (start_at r)) as [[]|] eqn:H4; [|done]. cbn [r_bind]. destruct (check_arity _ (end_at r)) as [[]|] eqn:H5; [|done]. cbn [r_bind]. intros [= <-].
  destruct (implied_order r) as (implied & Hnd & Hnew & Heff & Hin). destruct (name_last (effective_order_by r)) as (init & o & Hlast & Hname & Hinit); [apply order_has_name|done|]. split_and!.
  - unfold canonicalize_with. change (q_filter r) with f. rewrite (canonical_filter_again production (q_filter q) f Hok Hf). cbn [r_bind].
    change {| scope := scope r; q_filter := f; order_by := order_by r; start_at := start_at r; end_at := end_at r; offset := offset r; limit := limit r;
              projection := projection r; find_nearest := find_nearest r; production_refusals := production |} with r.
    rewrite H1. cbn [r_bind]. rewrite H2. cbn [r_bind]. rewrite H3. cbn [r_refuse r_bind]. rewrite H4. cbn [r_bind]. by rewrite H5.
  - by exists init, o.
  - by exists implied.
  - intros p Hp. destruct (Hin p Hp) as [Hpn|]; [|by rewrite Heff]. rewrite Hlast, map_app, elem_of_app. right. apply list_elem_of_singleton.
    unfold names, is_document_name in *. apply bool_decide_eq_true in Hpn, Hname. destruct p as [ps], (o_field o) as [os]; cbn in *. congruence.
  - intros ->. rewrite Heff, map_app. apply NoDup_app. destruct (check_kindless_constraints r); [|done]. cbn [r_bind] in H2. apply check_duplicates_NoDup in H2 as [H2 _]. split_and!; [done| |done].
    intros p Hp (o' & -> & Ho')%list_elem_of_fmap. by apply (Hnew o').
Qed.

Example canonical_query_exact_witness : canonicalize_with true demo_query = Ok demo_query /\ NoDup (map o_field (effective_order_by demo_query)).
Proof.
  assert (Hc : canonicalize_with true demo_query = Ok demo_query) by (vm_compute; reflexivity). split; [exact Hc|].
  assert (Hok : forall f, q_filter demo_query = Some f -> filter_ok f) by (intros f [= <-]; constructor; by apply small_ok).
  destruct (canonical_query_exact true demo_query demo_query Hok Hc) as (_ & _ & _ & _ & H). apply H. reflexivity.
Defined.
