(* ===== verification/FsSelect.v ===== *)
(** * Selection and aggregation of Firestore documents

    Models the order of keys, the cursors, the selection, the projection and the aggregations of
    [crates/fireemu-core-firestore/src/store.rs].  A [BinaryHeap] is the ascending list of its
    elements: what its contract says where no two of them are equal. *)
From Stdlib Require Import SpecFloat.
From S2P Require Import Prelude Time Text Ids DbNumber Lex FsValue FsFieldPath FsDocPath FsDocument FsFilter FsQuery.
#[local] Set Warnings "-register-all".

(** ** Selection *)

Definition directed (d : Direction) (c : comparison) : comparison := match d with Ascending => c | Descending => CompOpp c end.

Fixpoint order_key (doc : Document) (order : list OrderClause) : option (list FieldRef) :=
  match order with
  | [] => Some []
  | o :: order => r ← field_value doc (o_field o); rs ← order_key doc order; Some (r :: rs)
  end.

Fixpoint compare_keys (a b : list FieldRef) (order : list OrderClause) : comparison :=
  match a, b, order with
  | x :: a, y :: b, o :: order => then_with (directed (direction o) (cmp_ref x y)) (compare_keys a b order)
  | _, _, _ => Eq
  end.

Fixpoint compare_cursor (key : list FieldRef) (values : list Value) (order : list OrderClause) : comparison :=
  match key, values, order with
  | x :: key, y :: values, o :: order => then_with (directed (direction o) (cmp_value x y)) (compare_cursor key values order)
  | _, _, _ => Eq
  end.

Definition cursor_admits (key : list FieldRef) (start fin : option Cursor) (order : list OrderClause) : bool :=
  match start with
  | Some c => match compare_cursor key (c_values c) order with Gt => true | Eq => before c | Lt => false end
  | None => true
  end &&
  match fin with
  | Some c => match compare_cursor key (c_values c) order with Lt => true | Eq => negb (before c) | Gt => false end
  | None => true
  end.

Inductive Consumption := Ordered | Unordered.

#[global] Instance Consumption_eq_dec : EqDecision Consumption.
Proof. solve_decision. Defined.

Record QueryStats := { scanned : Z; matched : Z; peak_candidates : Z; filter_evaluations : Z }.

Definition no_stats : QueryStats := {| scanned := 0; matched := 0; peak_candidates := 0; filter_evaluations := 0 |}.

Record Candidate := { key : list FieldRef; doc : Document }.

Definition candidate_cmp (order : list OrderClause) (a b : Candidate) : comparison := compare_keys (key a) (key b) order.

Definition is_lt (c : comparison) : bool := match c with Lt => true | _ => false end.

(** The variables of the loop; [sunk] is what [sink] has been given. *)
Record Selection := { heap : list Candidate; rows : list Candidate; skipped : nat; emitted : nat; sunk : list Document; stats : QueryStats }.

(** [usize::try_from(query.offset)] and [offset + limit]: a [usize] holds both. *)
Definition rows_skipped (q : Query) : nat := Z.to_nat (offset q).
Definition rows_bound (q : Query) : option nat := (fun l => Z.to_nat (offset q + l)) <$> limit q.

Section select.
Context (q : Query) (source_order : option Direction) (required_fields : list FieldPath) (consumption : Consumption).

Abbreviation order := (effective_order_by q).
Abbreviation skip := (rows_skipped q).
Abbreviation bound := (rows_bound q).

Definition path_ordered : bool :=
  match source_order, order with
  | Some d, [o] => is_document_name (o_field o) && bool_decide (direction o = d)
  | _, _ => false
  end.

Definition streaming : bool :=
  bool_decide (consumption = Unordered) && (path_ordered || (bool_decide (bound = None) && bool_decide (skip = 0%nat))).

Definition with_stats (s : Selection) (st : QueryStats) : Selection :=
  {| heap := heap s; rows := rows s; skipped := skipped s; emitted := emitted s; sunk := sunk s; stats := st |}.

Definition count_scanned (st : QueryStats) : QueryStats :=
  {| scanned := scanned st + 1; matched := matched st; peak_candidates := peak_candidates st; filter_evaluations := filter_evaluations st |}.
Definition count_filter (st : QueryStats) : QueryStats :=
  {| scanned := scanned st; matched := matched st; peak_candidates := peak_candidates st; filter_evaluations := filter_evaluations st + 1 |}.
Definition count_matched (st : QueryStats) : QueryStats :=
  {| scanned := scanned st; matched := matched st + 1; peak_candidates := peak_candidates st; filter_evaluations := filter_evaluations st |}.
Definition raise_peak (n : nat) (st : QueryStats) : QueryStats :=
  {| scanned := scanned st; matched := matched st; peak_candidates := Z.max (peak_candidates st) (Z.of_nat n); filter_evaluations := filter_evaluations st |}.

(** A document that has matched: [false] breaks the loop. *)
Definition take_matched (d : Document) (k : list FieldRef) (s : Selection) : Selection * bool :=
  let c := {| key := k; doc := d |} in
  if streaming then
    if (skipped s <? skip)%nat then
      ({| heap := heap s; rows := rows s; skipped := S (skipped s); emitted := emitted s; sunk := sunk s; stats := stats s |}, true)
    else if match limit q with Some l => (Z.to_nat l <=? emitted s)%nat | None => false end then (s, false)
    else ({| heap := heap s; rows := rows s; skipped := skipped s; emitted := S (emitted s); sunk := sunk s ++ [d]; stats := stats s |}, true)
  else
    match bound with
    | Some b =>
        if path_ordered then
          let rows := rows s ++ [c] in
          ({| heap := heap s; rows := rows; skipped := skipped s; emitted := emitted s; sunk := sunk s; stats := raise_peak (length rows) (stats s) |},
           negb (b <=? length rows)%nat)
        else
          let heap :=
            if (b =? 0)%nat then heap s
            else if (b <=? length (heap s))%nat then
              match last (heap s) with
              | Some worst => if is_lt (candidate_cmp order c worst) then insert_by (candidate_cmp order) c (removelast (heap s)) else heap s
              | None => heap s
              end
            else insert_by (candidate_cmp order) c (heap s) in
          ({| heap := heap; rows := rows s; skipped := skipped s; emitted := emitted s; sunk := sunk s; stats := raise_peak (length heap + length (rows s)) (stats s) |}, true)
    | None =>
        let rows := rows s ++ [c] in
        ({| heap := heap s; rows := rows; skipped := skipped s; emitted := emitted s; sunk := sunk s; stats := raise_peak (length (heap s) + length rows) (stats s) |}, true)
    end.

Definition visit (d : Document) (s : Selection) : Selection * bool :=
  let s := with_stats s (count_scanned (stats s)) in
  if negb (scope_contains (scope q) (path d)) then (s, true)
  else if existsb (fun f => bool_decide (get_field (fields d) f = None)) required_fields then (s, true)
  else
    let s := match q_filter q with Some _ => with_stats s (count_filter (stats s)) | None => s end in
    if negb (from_option (fun f => eval_filter f d) true (q_filter q)) then (s, true)
    else match order_key d order with
         | None => (s, true)
         | Some k =>
             if negb (cursor_admits k (start_at q) (end_at q) order) then (s, true)
             else take_matched d k (with_stats s (count_matched (stats s)))
         end.

Fixpoint select_loop (documents : list Document) (s : Selection) : Selection :=
  match documents with
  | [] => s
  | d :: documents => let (s, go) := visit d s in if go then select_loop documents s else s
  end.

Definition select_from (documents : list Document) : QueryStats * list Document :=
  if bool_decide (bound = Some 0%nat) then (no_stats, [])
  else
    let s := select_loop documents {| heap := []; rows := []; skipped := 0; emitted := 0; sunk := []; stats := no_stats |} in
    if streaming then (stats s, sunk s)
    else
      let selected :=
        match bound with
        | Some _ => if path_ordered then rows s else heap s
        | None => sort_by (candidate_cmp order) (rows s)
        end in
      let selected := drop skip selected in
      let selected := match limit q with Some l => take (Z.to_nat l) selected | None => selected end in
      (stats s, map doc selected).

End select.

(** [cursor_after_document], on the document it finds. *)
Definition cursor_after_document (q : Query) (d : Document) : option Cursor :=
  let order := effective_order_by q in
  if negb (scope_contains (scope q) (path d)) then None
  else if negb (from_option (fun f => eval_filter f d) true (q_filter q)) then None
  else k ← order_key d order;
       if negb (cursor_admits k (start_at q) (end_at q) order) then None
       else Some {| c_values := map into_value k; before := false |}.

(** ** Projection *)

Definition project (fs : fields_map) (projection : list FieldPath) : fields_map :=
  fold_left (fun out p => if is_document_name p then out else match get_field fs p with Some v => set_field out p v | None => out end) projection ∅.

(** ** Aggregation *)

Inductive Aggregation := Count (up_to : option Z) | Sum (field : FieldPath) | Avg (field : FieldPath).

Record Accumulator := { count : Z; sum : option Value; contributors : Z }.

Definition no_rows : Accumulator := {| count := 0; sum := None; contributors := 0 |}.

Definition fold_row (a : Aggregation) (acc : Accumulator) (d : Document) : Accumulator :=
  match a with
  | Count _ => {| count := count acc + 1; sum := sum acc; contributors := contributors acc |}
  | Sum field | Avg field =>
      match get_field (fields d) field with
      | Some v =>
          if is_number v then {| count := count acc; sum := Some (add_aggregated (default (VInteger 0) (sum acc)) v); contributors := contributors acc + 1 |}
          else acc
      | None => acc
      end
  end.

Definition finish (a : Aggregation) (acc : Accumulator) : Value :=
  match a with
  | Count up_to => VInteger (Z.min (int_max i64) (match up_to with Some cap => Z.min (count acc) cap | None => count acc end))
  | Sum _ => default (VInteger 0) (sum acc)
  | Avg _ =>
      if contributors acc =? 0 then VNull
      else
        let total := match sum acc with Some (VInteger i) => f64_of_i64 i | Some (VDouble d) => d | _ => F64_ZERO end in
        VDouble (SFdiv PREC EMAX total (f64_of_i64 (contributors acc)))
  end.

Definition aggregate (a : Aggregation) (selected : list Document) : Value := finish a (fold_left (fold_row a) selected no_rows).

Definition aggregated_fields (aggregations : list Aggregation) : list FieldPath :=
  omap (fun a => match a with Sum f | Avg f => Some f | Count _ => None end) aggregations.

Definition with_order_by (q : Query) (order : list OrderClause) : Query :=
  {| scope := scope q; q_filter := q_filter q; order_by := order; start_at := start_at q; end_at := end_at q; offset := offset q; limit := limit q;
     projection := projection q; find_nearest := find_nearest q; production_refusals := production_refusals q |}.

Definition too_long (arity : nat) (c : option Cursor) : bool := match c with Some c => (arity <? length (c_values c))%nat | None => false end.

Definition normalize_aggregation_query (q : Query) (aggregations : list Aggregation) : result Query FirestoreError :=
  let fields := aggregated_fields aggregations in
  if existsb is_document_name fields then Err InvalidArgument
  else if too_long (length (order_by q)) (start_at q) || too_long (length (order_by q)) (end_at q) then Err InvalidArgument
  else
    let d := last_direction (order_by q) in
    let push out f := if negb (is_document_name f) && negb (existsb (fun o => bool_decide (o_field o = f)) out) then out ++ [ {| o_field := f; direction := d |} ] else out in
    let q := with_order_by q (fold_left push (query_inequality_fields q ++ sorted_fields fields) (order_by q)) in
    if after_name (effective_order_by q) then Err InvalidArgument else Ok q.

Definition row (id : string) (n : Z) : Document :=
  {| path := {| FsDocPath.project := "p"; database := "(default)"; pairs := [("users", id)%string] |}; fields := <[chars "a" := VInteger n]> ∅;
     create_time := 0; update_time := 0; version := 1 |}.

Example select_ex :
  map path (select_from demo_query (Some Ascending) [] Ordered [row "u1" 5; row "u2" 1; row "u3" 2; row "u4" 2]).2 = [path (row "u3" 2); path (row "u4" 2)] /\
  map o_field (effective_order_by demo_query) = [field_a; document_name] /\ check_standard_limits demo_query = Ok tt /\
  aggregate (Sum field_a) [row "x" (2 ^ 63 - 1); row "y" (-1); row "z" 1] = VInteger (2 ^ 63 - 1) /\
  aggregate (Sum field_a) [row "x" (2 ^ 63 - 1); row "z" 1; row "y" (-1)] = VDouble (f64_of_i64 (2 ^ 63)).
Proof. vm_compute. split_and!; reflexivity. Qed.

(** ** The order of keys *)

Definition ref_key (r : FieldRef) : Lex := match r with Stored v => value_key v | Name p => Branch (map Atom (resource_name_segments p)) end.

(** The field of the clause [o]. *)
Definition typed_ref (r : FieldRef) (o : OrderClause) : Prop :=
  match r with Stored v => is_document_name (o_field o) = false /\ value_ok v | Name _ => is_document_name (o_field o) = true end.

Definition typed (k : list FieldRef) (order : list OrderClause) : Prop := Forall2 typed_ref k order.

Lemma list_cmp_atoms (l m : list text) : list_cmp l m = lex_cmp (Branch (map Atom l)) (Branch (map Atom m)).
Proof. rewrite <- atoms_key. revert m. induction l as [|x l IH]; intros [|y m]; [done..|]. cbn. rewrite IH. by destruct (list_cmp x y). Qed.

Lemma cmp_ref_key x y o : typed_ref x o -> typed_ref y o -> cmp_ref x y = lex_cmp (ref_key x) (ref_key y).
Proof.
  destruct x as [v|p], y as [w|p']; cbn [typed_ref cmp_ref ref_key].
  - intros [_ Hv] [_ Hw]. by apply canonical_cmp_key.
  - intros [H1 _] H2. congruence.
  - intros H1 [H2 _]. congruence.
  - intros _ _. apply list_cmp_atoms.
Qed.

Definition directed_lex (d : Direction) (a b : Lex) : comparison := directed d (lex_cmp a b).

Lemma directed_opp d a b : directed_lex d b a = CompOpp (directed_lex d a b).
Proof. unfold directed_lex, directed. rewrite (lex_opp a b). by destruct d. Qed.

Lemma directed_eq d a b : directed_lex d a b = Eq <-> a = b.
Proof. unfold directed_lex, directed. rewrite <- lex_eq. destruct d; [done|]. by destruct (lex_cmp a b). Qed.

Lemma directed_trans d a b c : directed_lex d a b = Lt -> directed_lex d b c = Lt -> directed_lex d a c = Lt.
Proof. unfold directed_lex, directed. destruct d; [apply lex_trans|]. rewrite <- !lex_opp. intros H1 H2. by eapply lex_trans. Qed.

(** What the comparison of keys compares. *)
Fixpoint compare_lex (a b : list Lex) (ds : list Direction) : comparison :=
  match a, b, ds with
  | x :: a, y :: b, d :: ds => then_with (directed_lex d x y) (compare_lex a b ds)
  | _, _, _ => Eq
  end.

Lemma compare_keys_lex order : forall a b, typed a order -> typed b order -> compare_keys a b order = compare_lex (map ref_key a) (map ref_key b) (map direction order).
Proof.
  induction order as [|o order IH]; intros a b Ha Hb; [apply Forall2_nil_inv_r in Ha as ->; done|].
  apply Forall2_cons_inv_r in Ha as (x & a' & Hx & Ha & ->). apply Forall2_cons_inv_r in Hb as (y & b' & Hy & Hb & ->). cbn [compare_keys map compare_lex].
  rewrite (cmp_ref_key x y o Hx Hy), IH by done. done.
Qed.

Lemma compare_lex_opp ds : forall a b, compare_lex b a ds = CompOpp (compare_lex a b ds).
Proof. induction ds as [|d ds IH]; intros [|x a] [|y b]; [done..|]. cbn. by rewrite then_with_opp, (directed_opp d x y), IH. Qed.

Lemma compare_lex_eq ds : forall a b, length a = length ds -> length b = length ds -> compare_lex a b ds = Eq <-> a = b.
Proof.
  induction ds as [|d ds IH]; intros [|x a] [|y b] Ha Hb; try done. cbn. rewrite then_with_Eq, directed_eq, IH by (cbn in *; lia). split; [by intros [-> ->]|by intros [= -> ->]].
Qed.

Lemma compare_lex_trans ds : forall a b c, length a = length ds -> length b = length ds -> length c = length ds ->
  compare_lex a b ds <> Gt -> compare_lex b c ds <> Gt -> compare_lex a c ds <> Gt.
Proof.
  induction ds as [|d ds IH]; intros [|x a] [|y b] [|z c] Ha Hb Hc; try done. cbn [compare_lex].
  destruct (directed_lex d x y) eqn:Hxy, (directed_lex d y z) eqn:Hyz; try done; cbn [then_with]; intros H1 H2.
  - apply directed_eq in Hxy as ->. rewrite Hyz. cbn. apply (IH a b c); cbn in *; done || lia.
  - apply directed_eq in Hxy as ->. by rewrite Hyz.
  - apply directed_eq in Hyz as ->. by rewrite Hxy.
  - by rewrite (directed_trans d x y z).
Qed.

Lemma order_key_typed order : forall d k, fields_ok (fields d) -> order_key d order = Some k -> typed k order.
Proof.
  induction order as [|o order IH]; intros d k Hd; cbn [order_key]; [intros [= <-]; constructor|].
  destruct (field_value d (o_field o)) as [r|] eqn:Hr; [|done]. cbn. destruct (order_key d order) as [rs|] eqn:Hrs; [|done]. intros [= <-]. constructor; [|by eapply IH].
  pose proof (field_value_ok d _ r Hd Hr) as Hok. unfold field_value in Hr. destruct (is_document_name (o_field o)) eqn:Hn; [by injection Hr as <-|].
  destruct (get_field _ _); [|done]. by injection Hr as <-.
Qed.

(** Two documents with equal keys are one. *)
Lemma compare_keys_eq order d d' k k' : fields_ok (fields d) -> fields_ok (fields d') -> existsb (fun o => is_document_name (o_field o)) order = true ->
  order_key d order = Some k -> order_key d' order = Some k' -> compare_keys k k' order = Eq -> path d = path d'.
Proof.
  intros Hd Hd' Hname. revert k k'. induction order as [|o order IH]; intros k k' Hk Hk'; [done|].
  assert (Ht : typed k (o :: order)) by by apply (order_key_typed _ d). assert (Ht' : typed k' (o :: order)) by by apply (order_key_typed _ d').
  cbn [order_key existsb] in *. unfold field_value in Hk, Hk'. destruct (is_document_name (o_field o)) eqn:Hn.
  - cbn in Hk, Hk'. destruct (order_key d order); [|done]. destruct (order_key d' order); [|done]. injection Hk as <-. injection Hk' as <-. cbn [compare_keys]. intros [Hc _]%then_with_Eq.
    cbn [cmp_ref] in Hc. rewrite cmp_resource_name_ord in Hc. apply (ord_cmp_eq (path d)). by destruct (direction o), (ord_cmp (path d) (path d')).
  - destruct (get_field (fields d) (o_field o)); [|done]. destruct (get_field (fields d') (o_field o)); [|done]. cbn in Hk, Hk'.
    destruct (order_key d order); [|done]. destruct (order_key d' order); [|done]. injection Hk as <-. injection Hk' as <-. cbn [compare_keys]. intros [_ Hc]%then_with_Eq. by eapply IH.
Qed.

(** ** What is selected *)

Section selected.
Context (q : Query) (source_order : option Direction) (required_fields : list FieldPath) (consumption : Consumption).

Abbreviation order := (effective_order_by q).
Abbreviation skip := (rows_skipped q).
Abbreviation bound := (rows_bound q).

(** The conditions on one document. *)
Definition candidate_of (d : Document) : option Candidate :=
  if scope_contains (scope q) (path d) && negb (existsb (fun f => bool_decide (get_field (fields d) f = None)) required_fields) &&
     from_option (fun f => eval_filter f d) true (q_filter q)
  then k ← order_key d order; if cursor_admits k (start_at q) (end_at q) order then Some {| key := k; doc := d |} else None
  else None.

Definition candidates (documents : list Document) : list Candidate := omap candidate_of documents.

(** All that match, in the order of the query. *)
Definition ranked (documents : list Document) : list Candidate := sort_by (candidate_cmp order) (candidates documents).

Definition page (documents : list Document) : list Document :=
  let selected := drop skip (map doc (ranked documents)) in match limit q with Some l => take (Z.to_nat l) selected | None => selected end.

Lemma candidate_doc d c : candidate_of d = Some c -> doc c = d /\ order_key d order = Some (key c).
Proof.
  unfold candidate_of. destruct (_ && _); [|done]. destruct (order_key d order) as [k|]; [|done]. cbn. destruct (cursor_admits _ _ _ _); [|done]. by intros [= <-].
Qed.

Abbreviation visit := (visit q source_order required_fields consumption).
Abbreviation take_matched := (take_matched q source_order consumption).
Abbreviation select_loop := (select_loop q source_order required_fields consumption).
Abbreviation streaming := (streaming q source_order consumption).
Abbreviation path_ordered := (path_ordered q source_order).

Ltac solve_visit := eexists; split; [|reflexivity]; reflexivity.

Lemma visit_candidate d s : exists st, peak_candidates st = peak_candidates (stats s) /\
  visit d s = match candidate_of d with None => (with_stats s st, true) | Some c => take_matched d (key c) (with_stats s st) end.
Proof.
  unfold FsSelect.visit, candidate_of. destruct (scope_contains _ _); cbn [negb andb]; [|solve_visit].
  destruct (existsb _ required_fields); cbn [negb andb]; [solve_visit|].
  destruct (q_filter q) as [f|]; cbn [from_option].
  - destruct (eval_filter f d); cbn [negb]; [|solve_visit]. destruct (order_key d order) as [k|]; [|solve_visit]. cbn [mbind option_bind].
    destruct (cursor_admits _ _ _ _); cbn [negb]; solve_visit.
  - cbn [negb]. destruct (order_key d order) as [k|]; [|solve_visit]. cbn [mbind option_bind].
    destruct (cursor_admits _ _ _ _); cbn [negb]; solve_visit.
Qed.

(** Rows served as they come. *)
Lemma loop_streaming documents : streaming = true -> forall s, (skipped s <= skip)%nat ->
  let r := select_loop documents s in
  let rest := drop (skip - skipped s) (map doc (candidates documents)) in
  sunk r = sunk s ++ match limit q with Some l => take (Z.to_nat l - emitted s) rest | None => rest end /\ peak_candidates (stats r) = peak_candidates (stats s).
Proof.
  intros Hs. induction documents as [|d documents IH]; intros s Hskip; cbn [FsSelect.select_loop candidates omap list_omap].
  { cbn. rewrite drop_nil. split; [|done]. destruct (limit q); by rewrite ?take_nil, app_nil_r. }
  destruct (visit_candidate d s) as (st & Hst & ->). destruct (candidate_of d) as [c|] eqn:Hc.
  2: { destruct (IH (with_stats s st) Hskip) as [H1 H2]. cbn [with_stats stats] in H2. rewrite Hst in H2. by split. }
  apply candidate_doc in Hc as [Hdoc _]. unfold FsSelect.take_matched. rewrite Hs. cbn [skipped with_stats map]. destruct (Nat.ltb_spec (skipped s) skip) as [Hlt|Hge].
  - match goal with |- context [select_loop documents ?s'] => destruct (IH s') as [H1 H2]; [cbn; lia|] end. cbn [skipped emitted sunk stats with_stats] in *. rewrite Hst in H2.
    split; [|done]. rewrite H1. replace (skip - skipped s)%nat with (S (skip - S (skipped s)))%nat by lia. done.
  - replace (skip - skipped s)%nat with 0%nat in * by lia. cbn [drop]. destruct (limit q) as [l|] eqn:Hl.
    + cbn [emitted with_stats]. destruct (Nat.leb_spec (Z.to_nat l) (emitted s)) as [Hle|Hgt].
      * split; [|exact Hst]. replace (Z.to_nat l - emitted s)%nat with 0%nat by lia. by rewrite app_nil_r.
      * match goal with |- context [select_loop documents ?s'] => destruct (IH s') as [H1 H2]; [done|] end. cbn [skipped emitted sunk stats with_stats] in *. rewrite Hst in H2.
        split; [|done]. rewrite H1, Hdoc, <- app_assoc. replace (skip - skipped s)%nat with 0%nat by lia. replace (Z.to_nat l - emitted s)%nat with (S (Z.to_nat l - S (emitted s)))%nat by lia. done.
    + match goal with |- context [select_loop documents ?s'] => destruct (IH s') as [H1 H2]; [done|] end. cbn [skipped emitted sunk stats with_stats] in *. rewrite Hst in H2.
      split; [|done]. rewrite H1, Hdoc, <- app_assoc. replace (skip - skipped s)%nat with 0%nat by lia. done.
Qed.

(** A sorted source with a bound: the first rows. *)
Lemma loop_rows b documents : streaming = false -> bound = Some b -> path_ordered = true -> forall s, (length (rows s) < b)%nat -> peak_candidates (stats s) <= Z.of_nat b ->
  let r := select_loop documents s in rows r = take b (rows s ++ candidates documents) /\ peak_candidates (stats r) <= Z.of_nat b.
Proof.
  intros Hs Hb Hp. induction documents as [|d documents IH]; intros s Hlen Hpeak; cbn [FsSelect.select_loop candidates omap list_omap].
  { rewrite app_nil_r, take_ge by lia. done. }
  destruct (visit_candidate d s) as (st & Hst & ->). destruct (candidate_of d) as [c|] eqn:Hc.
  2: { apply (IH (with_stats s st)); [done|]. cbn [with_stats stats]. lia. }
  apply candidate_doc in Hc as [Hdoc _]. unfold FsSelect.take_matched. rewrite Hs. rewrite Hb, Hp. cbn [rows with_stats stats heap].
  assert (Hcc : {| key := key c; doc := d |} = c) by (destruct c; cbn in *; by subst). rewrite Hcc. rewrite length_app. cbn [length].
  destruct (Nat.leb_spec b (length (rows s) + 1)) as [Hge|Hlt]; cbn [negb].
  - cbn [rows stats]. split; [|unfold raise_peak; cbn; rewrite Hst; lia].
    change (c :: omap candidate_of documents) with ([c] ++ omap candidate_of documents). rewrite app_assoc, take_app_length'; [done|]. rewrite length_app. cbn. lia.
  - match goal with |- context [select_loop documents ?s'] => destruct (IH s') as [H1 H2]; [cbn; rewrite length_app; cbn; lia|unfold raise_peak; cbn; rewrite Hst; lia|] end.
    split; [|done]. rewrite H1. cbn [rows]. by rewrite <- app_assoc.
Qed.

(** Everything, to be sorted. *)
Lemma loop_all documents : streaming = false -> bound = None -> forall s, rows (select_loop documents s) = rows s ++ candidates documents.
Proof.
  intros Hs Hb. induction documents as [|d documents IH]; intros s; cbn [FsSelect.select_loop candidates omap list_omap]; [by rewrite app_nil_r|].
  destruct (visit_candidate d s) as (st & Hst & ->). destruct (candidate_of d) as [c|] eqn:Hc; [|by rewrite IH].
  apply candidate_doc in Hc as [Hdoc _]. unfold FsSelect.take_matched. rewrite Hs. rewrite Hb, IH. cbn [rows with_stats].
  assert (Hcc : {| key := key c; doc := d |} = c) by (destruct c; cbn in *; by subst). by rewrite Hcc, <- app_assoc.
Qed.

(** Candidates are compared without ties. *)
Definition cand_ok (documents : list Document) (c : Candidate) : Prop := doc c ∈ documents /\ order_key (doc c) order = Some (key c).

Lemma candidates_ok documents c : c ∈ candidates documents -> cand_ok documents c.
Proof. intros (d & Hd & Hc)%list_elem_of_omap. apply candidate_doc in Hc as [<- Hk]. by split. Qed.

Section distinct.
Context (all : list Document) (Hall : forall d, d ∈ all -> fields_ok (fields d)).

Lemma cand_typed c : cand_ok all c -> typed (key c) order.
Proof. intros [Hin Hk]. eapply order_key_typed; [by apply Hall|done]. Qed.

Lemma cand_cmp_lex a b : cand_ok all a -> cand_ok all b -> candidate_cmp order a b = compare_lex (map ref_key (key a)) (map ref_key (key b)) (map direction order).
Proof. intros Ha Hb. apply compare_keys_lex; by apply cand_typed. Qed.

Lemma cand_length c : cand_ok all c -> length (map ref_key (key c)) = length (map direction order).
Proof. intros Hc. rewrite !length_map. by eapply Forall2_length, cand_typed. Qed.

Lemma cand_opp a b : cand_ok all a -> cand_ok all b -> candidate_cmp order b a = CompOpp (candidate_cmp order a b).
Proof. intros Ha Hb. rewrite !cand_cmp_lex by done. apply compare_lex_opp. Qed.

Lemma cand_trans a b c : cand_ok all a -> cand_ok all b -> cand_ok all c -> candidate_cmp order a b <> Gt -> candidate_cmp order b c <> Gt -> candidate_cmp order a c <> Gt.
Proof. intros Ha Hb Hc. rewrite !cand_cmp_lex by done. apply compare_lex_trans; by apply cand_length. Qed.

Context (Hnodup : NoDup (map path all)).

Lemma cand_eq a b : cand_ok all a -> cand_ok all b -> candidate_cmp order a b = Eq -> a = b.
Proof.
  intros [Ha Hka] [Hb Hkb] Hc. assert (Hp : path (doc a) = path (doc b)) by (eapply compare_keys_eq; [by apply Hall|by apply Hall|apply order_has_name|done..]).
  assert (Hd : doc a = doc b).
  { apply list_elem_of_lookup in Ha as [i Hi], Hb as [j Hj]. assert (i = j) as -> by (eapply (NoDup_lookup _ i j (path (doc a)) Hnodup); rewrite list_lookup_fmap; [by rewrite Hi|rewrite Hj; cbn; by rewrite Hp]). congruence. }
  destruct a as [ka da], b as [kb db]; cbn in *. subst. congruence.
Qed.

Lemma ranked_insert l c : Forall (cand_ok all) (c :: l) -> sort_by (candidate_cmp order) (l ++ [c]) = insert_by (candidate_cmp order) c (sort_by (candidate_cmp order) l).
Proof.
  intros [Hc Hl]%Forall_cons. apply (StronglySorted_unique_strong (fun x y => candidate_cmp order x y <> Gt)).
  - intros x y Hx Hy H1 H2. assert (Hok : forall z, z ∈ c :: l -> cand_ok all z) by (apply Forall_forall; by constructor).
    rewrite sort_by_perm, elem_of_app, list_elem_of_singleton in Hx. rewrite insert_by_perm, sort_by_perm in Hy.
    assert (Hxo : cand_ok all x) by (apply Hok; destruct Hx as [Hx| ->]; [by right|by left]). assert (Hyo : cand_ok all y) by by apply Hok.
    apply cand_eq; [done..|]. rewrite (cand_opp x y) in H2 by done. by destruct (candidate_cmp order x y).
  - apply (sort_by_strongly _ (cand_ok all)); [|exact cand_trans|apply Forall_app; split; [done|by apply Forall_singleton]].
    intros x y Hx Hy Hg. rewrite (cand_opp x y), Hg by done. done.
  - apply (insert_by_sorted _ (cand_ok all)); [|exact cand_trans|done| |].
    + intros x y Hx Hy Hg. rewrite (cand_opp x y), Hg by done. done.
    + rewrite Forall_forall in Hl |- *. intros x Hx. rewrite sort_by_perm in Hx. by apply Hl.
    + apply (sort_by_strongly _ (cand_ok all)); [|exact cand_trans|done]. intros x y Hx Hy Hg. rewrite (cand_opp x y), Hg by done. done.
  - by rewrite insert_by_perm, !sort_by_perm, Permutation_app_comm.
Qed.

(** A full heap: the worst makes place for a better one. *)
Lemma insert_full (h : list Candidate) c worst : Forall (cand_ok all) (c :: h) -> c ∉ h -> StronglySorted (fun x y => candidate_cmp order x y <> Gt) h -> last h = Some worst ->
  take (length h) (insert_by (candidate_cmp order) c h) =
  if is_lt (candidate_cmp order c worst) then insert_by (candidate_cmp order) c (removelast h) else h.
Proof.
  intros [Hc Hh]%Forall_cons Hnew Hs Hlast. induction h as [|x h IH]; [done|]. apply Forall_cons in Hh as [Hx Hh]. inversion Hs as [|? ? Hs' Hxs]; subst.
  assert (Hne : forall y, y ∈ x :: h -> cand_ok all y -> candidate_cmp order c y <> Eq) by (intros y Hy Hyo He%cand_eq; [by subst|done..]).
  destruct h as [|y h].
  - injection Hlast as <-. cbn. destruct (candidate_cmp order c x) eqn:He; [by destruct (Hne x ltac:(left) Hx)|done|done].
  - rewrite last_cons_cons in Hlast. change (removelast (x :: y :: h)) with (x :: removelast (y :: h)). cbn [insert_by length]. destruct (candidate_cmp order c x) eqn:He; [by destruct (Hne x ltac:(left) Hx)| |].
    + assert (Hlt : is_lt (candidate_cmp order c worst) = true).
      { assert (Hw : worst ∈ y :: h) by (by apply last_Some_elem_of). rewrite Forall_forall in Hxs, Hh. pose proof (cand_trans c x worst Hc Hx (Hh _ Hw)) as Ht.
        pose proof (Hne worst ltac:(by right) (Hh _ Hw)) as Hn. destruct (candidate_cmp order c worst); [done|done|]. exfalso. apply Ht; [by rewrite He|by apply Hxs|done]. }
      rewrite Hlt. change (take (S (S (length h))) (c :: x :: y :: h)) with (c :: take (S (length h)) (x :: y :: h)). f_equal.
      clear. revert x y. induction h as [|z h IH]; intros x y; [done|]. cbn [length take removelast] in *. f_equal. apply IH.
    + transitivity (x :: take (length (y :: h)) (insert_by (candidate_cmp order) c (y :: h))); [reflexivity|]. rewrite IH; [|done|by intros Hin; apply Hnew; right|done|done]. by destruct (is_lt _).
Qed.

Lemma loop_heap b documents : streaming = false -> bound = Some b -> path_ordered = false -> (0 < b)%nat -> forall s l,
  Forall (cand_ok all) (l ++ candidates documents) -> NoDup (l ++ candidates documents) ->
  heap s = take b (sort_by (candidate_cmp order) l) -> rows s = [] -> peak_candidates (stats s) <= Z.of_nat b ->
  let r := select_loop documents s in
  heap r = take b (sort_by (candidate_cmp order) (l ++ candidates documents)) /\ peak_candidates (stats r) <= Z.of_nat b.
Proof.
  intros Hs Hb Hp Hpos. induction documents as [|d documents IH]; intros s l Hok Hnd Hheap Hrows Hpeak; cbn [FsSelect.select_loop candidates omap list_omap].
  { by rewrite app_nil_r. }
  destruct (visit_candidate d s) as (st & Hst & ->). cbn [candidates omap list_omap] in Hok, Hnd. destruct (candidate_of d) as [c|] eqn:Hc.
  2: { apply (IH (with_stats s st)); try done. cbn [with_stats stats]. lia. }
  apply candidate_doc in Hc as [Hdoc _]. unfold FsSelect.take_matched. rewrite Hs, Hb, Hp. cbn [heap rows with_stats stats skipped emitted sunk].
  assert (Hcc : {| key := key c; doc := d |} = c) by (destruct c; cbn in *; by subst). rewrite Hcc, Hrows. rewrite (proj2 (Nat.eqb_neq b 0)) by lia.
  set (sorted := sort_by (candidate_cmp order) l) in *.
  assert (Hcl : Forall (cand_ok all) (c :: l)) by (rewrite Forall_app, Forall_cons in Hok; constructor; tauto).
  assert (Hsorted : StronglySorted (fun x y => candidate_cmp order x y <> Gt) sorted).
  { apply (sort_by_strongly _ (cand_ok all)); [|exact cand_trans|by apply Forall_cons in Hcl as [_ ?]]. intros x y Hx Hy Hg. rewrite (cand_opp x y), Hg by done. done. }
  assert (Hcs : c ∉ l) by (intros Hin; apply NoDup_app in Hnd as (_ & Hd & _); apply (Hd c Hin); by left).
  match goal with |- context [select_loop documents {| heap := ?h |}] => assert (Hh : h = take b (sort_by (candidate_cmp order) (l ++ [c])) /\ (length h <= b)%nat) end.
  { rewrite ranked_insert by done. fold sorted. rewrite take_insert_by, <- Hheap. destruct (Nat.leb_spec b (length (heap s))) as [Hge|Hlt].
    - assert (Hlen : length (heap s) = b) by (rewrite Hheap, length_take in *; lia). destruct (last (heap s)) as [worst|] eqn:Hlast.
      2: { apply last_None in Hlast. rewrite Hlast in Hlen. cbn in Hlen. lia. }
      assert (Hsub : forall x, x ∈ heap s -> x ∈ l). { intros x Hx. rewrite Hheap in Hx. apply elem_of_take in Hx as (i & Hi & _). apply list_elem_of_lookup_2 in Hi. unfold sorted in Hi. by rewrite sort_by_perm in Hi. }
      rewrite <- Hlen, (insert_full (heap s) c worst); [| | | |done].
      + split; [done|]. destruct (is_lt _); [|done]. rewrite insert_by_perm. cbn [length]. rewrite removelast_firstn_len, length_take. lia.
      + apply Forall_cons in Hcl as [Hc Hl]. constructor; [done|]. rewrite Forall_forall in Hl |- *. intros x Hx. by apply Hl, Hsub.
      + intros Hin. by apply Hcs, Hsub.
      + rewrite Hheap. eapply sublist_sorted; [|exact Hsorted]. apply sublist_take.
    - assert (Hlen : length (insert_by (candidate_cmp order) c (heap s)) = S (length (heap s))) by (by rewrite insert_by_perm). rewrite take_ge by lia. split; [done|lia]. }
  destruct Hh as [Hh1 Hh2]. match goal with |- context [select_loop documents ?s'] => destruct (IH s' (l ++ [c])) as [H1 H2]; rewrite <- ?app_assoc; try done end.
  - cbn [stats raise_peak peak_candidates]. rewrite Hst. cbn [length]. lia.
  - rewrite <- app_assoc in H1. by split.
Qed.

End distinct.

Lemma candidates_nodup documents : NoDup (map path documents) -> NoDup (candidates documents).
Proof.
  induction documents as [|d documents IH]; [constructor|]. intros [Hd Hnd]%NoDup_cons. cbn [candidates omap list_omap]. destruct (candidate_of d) as [c|] eqn:Hc; [|by apply IH].
  apply NoDup_cons. split; [|by apply IH]. intros Hin%candidates_ok. apply candidate_doc in Hc as [<- _]. apply Hd. apply list_elem_of_fmap_2. apply Hin.
Qed.

(** The documents come in the order of their names, up or down. *)
Definition source_sorted (documents : list Document) : Prop :=
  forall d, source_order = Some d -> StronglySorted (fun a b => directed d (ord_cmp (path a) (path b)) <> Gt) documents.

Lemma sorted_candidates documents : source_sorted documents -> path_ordered = true -> StronglySorted (fun x y => candidate_cmp order x y <> Gt) (candidates documents).
Proof.
  unfold FsSelect.path_ordered, source_sorted. destruct source_order as [dir|]; [|done]. intros Hs Hp. specialize (Hs dir eq_refl).
  assert (Horder : exists o, order = [o] /\ is_document_name (o_field o) = true /\ direction o = dir).
  { destruct order as [|o [|? ?]]; try done. exists o. apply andb_true_iff in Hp as [? ?%bool_decide_eq_true]. done. }
  destruct Horder as (o & Ho & Hn & Hdir). induction Hs as [|d documents Hs IH Hd]; [constructor|]. cbn [candidates omap list_omap]. destruct (candidate_of d) as [c|] eqn:Hc; [|apply IH].
  constructor; [apply IH|]. apply Forall_forall. intros c' [Hin' Hk']%candidates_ok. apply candidate_doc in Hc as [Hdoc Hk]. rewrite Forall_forall in Hd. specialize (Hd _ Hin').
  rewrite Ho in Hk, Hk' |- *. cbn [order_key] in Hk, Hk'. unfold field_value in Hk, Hk'. rewrite Hn in Hk, Hk'. injection Hk as Hk. injection Hk' as Hk'.
  unfold candidate_cmp. rewrite <- Hk, <- Hk'. cbn [compare_keys cmp_ref]. rewrite then_with_end, Hdir, cmp_resource_name_ord. done.
Qed.

Lemma streaming_false : consumption = Ordered -> streaming = false.
Proof. intros ->. done. Qed.

Lemma page_map documents l : l = ranked documents ->
  map doc (match limit q with Some n => take (Z.to_nat n) (drop skip l) | None => drop skip l end) = page documents.
Proof. intros ->. unfold page. destruct (limit q); by rewrite <- ?firstn_map, <- ?skipn_map. Qed.

Lemma page_bound documents l : 0 <= offset q -> (forall n, limit q = Some n -> 0 <= n) -> from_option (fun b => take b (ranked documents)) (ranked documents) bound = l ->
  map doc (match limit q with Some n => take (Z.to_nat n) (drop skip l) | None => drop skip l end) = page documents.
Proof.
  intros Ho Hl. unfold rows_bound. destruct (limit q) as [n|] eqn:Hn; cbn [from_option fmap option_fmap option_map]; intros <-; [|by unfold page; rewrite Hn, <- skipn_map].
  unfold page. rewrite Hn. rewrite <- firstn_map, <- !skipn_map. rewrite <- firstn_map. specialize (Hl n eq_refl). unfold rows_skipped.
  rewrite Z2Nat.inj_add by done. rewrite <- take_drop_commute, take_take. f_equal. lia.
Qed.

End selected.

Section exact.
Context (q : Query) (source_order : option Direction) (required : list FieldPath) (consumption : Consumption) (documents : list Document).
Context (Hok : forall d, d ∈ documents -> fields_ok (fields d)) (Hnd : NoDup (map path documents)) (Hsrc : source_sorted source_order documents)
  (Hoff : 0 <= offset q) (Hlim : forall n, limit q = Some n -> 0 <= n).

Abbreviation rows_of := (page q required documents).

(** What is sunk, and the candidates that were held. *)
Definition served (sunk : list Document) (peak : Z) : Prop :=
  (consumption = Ordered -> sunk = rows_of) /\ (sunk ≡ₚ rows_of) /\ (forall n, limit q = Some n -> peak <= offset q + n).

Definition start : Selection := {| heap := []; rows := []; skipped := 0; emitted := 0; sunk := []; stats := no_stats |}.

Lemma streaming_case : streaming q source_order consumption = true ->
  let s := select_loop q source_order required consumption documents start in served (sunk s) (peak_candidates (stats s)).
Proof.
  intros Hstream. destruct (loop_streaming q source_order required consumption documents Hstream start) as [H1 H2]; [cbn; lia|].
  cbn [skipped emitted sunk start app stats peak_candidates no_stats] in H1, H2. rewrite Nat.sub_0_r in H1. cbv zeta. rewrite H1, H2. split_and!.
  - intros Hc. unfold streaming in Hstream. by rewrite Hc in Hstream.
  - unfold streaming in Hstream. unfold page, ranked. apply andb_true_iff in Hstream as [_ [Hp|Hb]%orb_true_iff].
    + rewrite sort_by_sorted by by eapply sorted_candidates. by destruct (limit q); rewrite ?Nat.sub_0_r.
    + apply andb_true_iff in Hb as [Hb%bool_decide_eq_true Hsk%bool_decide_eq_true]. unfold rows_bound in Hb. destruct (limit q); [done|]. rewrite Hsk. cbn [drop]. by rewrite sort_by_perm.
  - intros n Hn. specialize (Hlim n Hn). lia.
Qed.

Lemma collected_rows l p : from_option (fun b => take b (ranked q required documents)) (ranked q required documents) (rows_bound q) = l ->
  (forall b, rows_bound q = Some b -> p <= Z.of_nat b) ->
  served (map doc (match limit q with Some n => take (Z.to_nat n) (drop (rows_skipped q) l) | None => drop (rows_skipped q) l end)) p.
Proof.
  intros Hl Hp. unfold served. rewrite (page_bound q required documents l) by done. split_and!; [done..|]. intros n Hn. specialize (Hlim n Hn).
  specialize (Hp (Z.to_nat (offset q + n))). unfold rows_bound in Hp. rewrite Hn in Hp. specialize (Hp eq_refl). lia.
Qed.

Lemma collected_case : streaming q source_order consumption = false -> rows_bound q <> Some 0%nat ->
  let s := select_loop q source_order required consumption documents start in
  let selected := match rows_bound q with
    | Some _ => if path_ordered q source_order then rows s else heap s
    | None => sort_by (candidate_cmp (effective_order_by q)) (rows s)
    end in
  served (map doc (match limit q with Some n => take (Z.to_nat n) (drop (rows_skipped q) selected) | None => drop (rows_skipped q) selected end)) (peak_candidates (stats s)).
Proof.
  intros Hstream Hzero s selected. apply collected_rows.
  - unfold selected. destruct (rows_bound q) as [b|] eqn:Hb; cbn [from_option]; [destruct (path_ordered q source_order) eqn:Hp|].
    + destruct (loop_rows q source_order required consumption b documents Hstream Hb Hp start) as [H1 _]; [destruct b; [done|cbn; lia]|cbn; lia|]. fold s in H1. rewrite H1.
      unfold ranked. by rewrite sort_by_sorted by by eapply sorted_candidates.
    + destruct (loop_heap q source_order required consumption documents Hok Hnd b documents Hstream Hb Hp ltac:(destruct b; [done|lia]) start []) as [H1 _]; try done;
        [by apply Forall_forall; intros c; apply candidates_ok|by apply candidates_nodup|cbn; by rewrite take_nil|cbn; lia].
    + unfold s. by rewrite loop_all.
  - intros b Hb. destruct (path_ordered q source_order) eqn:Hp.
    + by destruct (loop_rows q source_order required consumption b documents Hstream Hb Hp start) as [_ H2]; [destruct b; [done|cbn; lia]|cbn; lia|].
    + by destruct (loop_heap q source_order required consumption documents Hok Hnd b documents Hstream Hb Hp ltac:(destruct b; [done|lia]) start []) as [_ H2]; try done;
        [by apply Forall_forall; intros c; apply candidates_ok|by apply candidates_nodup|cbn; by rewrite take_nil|cbn; lia].
Qed.

Lemma select_served : served (select_from q source_order required consumption documents).2 (peak_candidates (select_from q source_order required consumption documents).1).
Proof.
  unfold select_from. case_bool_decide as Hzero.
  - assert (Hrows : rows_of = []).
    { unfold page. unfold rows_bound in Hzero. destruct (limit q) as [n|]; [|done]. injection Hzero as Hz. specialize (Hlim n eq_refl). by replace (Z.to_nat n) with 0%nat by lia. }
    unfold served. rewrite Hrows. split_and!; [done..|]. intros n Hn. specialize (Hlim n Hn). cbn. lia.
  - fold start. destruct (streaming q source_order consumption) eqn:Hs; [by apply streaming_case|by apply collected_case].
Qed.

End exact.

(** C13. A query returns exactly what it says: over documents of distinct names, sorted by name where the scan says so, the rows
    are those of the documents that match (scope, filter, required fields, every ordering field present, cursors), in the
    order of the query, from the offset on and up to the limit, although the code keeps no more than a bounded heap, stops
    as early as it can, or never sorts; a consumer that needs no order gets the same rows; and a query with a limit
    never holds more than offset + limit candidates. *)
Theorem select_exact (q : Query) (source_order : option Direction) (required : list FieldPath) (consumption : Consumption) (documents : list Document) :
  (forall d, d ∈ documents -> fields_ok (fields d)) -> NoDup (map path documents) -> source_sorted source_order documents ->
  0 <= offset q -> (forall n, limit q = Some n -> 0 <= n) ->
  let result := select_from q source_order required consumption documents in
  let rows := page q required documents in
  (consumption = Ordered -> result.2 = rows) /\ (result.2 ≡ₚ rows) /\
  (forall n, limit q = Some n -> peak_candidates result.1 <= offset q + n) /\
  StronglySorted (fun x y => candidate_cmp (effective_order_by q) x y <> Gt) (ranked q required documents) /\
  (ranked q required documents ≡ₚ omap (candidate_of q required) documents).
Proof.
  intros Hok Hnd Hsrc Hoff Hlim. destruct (select_served q source_order required consumption documents Hok Hnd Hsrc Hoff Hlim) as (H1 & H2 & H3). split_and!; [done..| |apply sort_by_perm].
  apply (sort_by_strongly _ (cand_ok q documents)); [|by apply cand_trans|by apply Forall_forall; intros c; apply candidates_ok].
  intros x y Hx Hy Hg. by rewrite (cand_opp q documents Hok x y), Hg.
Qed.

Definition demo_rows : list Document := [row "u1" 5; row "u2" 1; row "u3" 2; row "u4" 2].

Lemma demo_rows_ok d : d ∈ demo_rows -> fields_ok (fields d).
Proof.
  assert (H : Forall (fun d => fields_ok (fields d)) demo_rows).
  { repeat apply Forall_cons_2; [apply fields_ok_insert; [by apply small_ok|apply fields_ok_empty]..|apply Forall_nil_2]. }
  rewrite Forall_forall in H. apply H.
Qed.

Example select_exact_witness :
  (select_from demo_query (Some Ascending) [] Ordered demo_rows).2 = page demo_query [] demo_rows /\
  peak_candidates (select_from demo_query (Some Ascending) [] Ordered demo_rows).1 <= 2.
Proof.
  assert (Hnd : bool_decide (NoDup (map path demo_rows)) = true) by (vm_compute; reflexivity). apply bool_decide_eq_true in Hnd.
  assert (Hs : source_sorted (Some Ascending) demo_rows).
  { intros d [= <-]. assert (H : bool_decide (StronglySorted (fun a b : Document => directed Ascending (ord_cmp (path a) (path b)) <> Gt) demo_rows) = true) by (vm_compute; reflexivity).
    by apply bool_decide_eq_true in H. }
  destruct (select_exact demo_query (Some Ascending) [] Ordered demo_rows demo_rows_ok Hnd Hs) as (H1 & _ & H2 & _); [discriminate|intros n [= <-]; discriminate|].
  split; [apply H1; reflexivity|exact (H2 2 eq_refl)].
Defined.

(** ** Cursors *)

Definition ref_named (r : FieldRef) : Prop := match r with Name p => path_ok p | Stored _ => True end.

Lemma order_key_named order d : path_ok (path d) -> forall k, order_key d order = Some k -> Forall ref_named k.
Proof.
  intros Hp. induction order as [|o order IH]; intros k; cbn [order_key]; [intros [= <-]; constructor|].
  destruct (field_value d (o_field o)) as [r|] eqn:Hr; [|done]. cbn. destruct (order_key d order) as [rs|]; [|done]. intros [= <-]. constructor; [|by apply IH].
  unfold field_value in Hr. destruct (is_document_name _); [by injection Hr as <-|]. destruct (get_field _ _); [|done]. by injection Hr as <-.
Qed.

(** A cursor made of a key compares as the key. *)
Lemma compare_cursor_key order : forall k k', typed k order -> typed k' order -> Forall ref_named k' ->
  compare_cursor k (map into_value k') order = compare_keys k k' order.
Proof.
  induction order as [|o order IH]; intros k k' Hk Hk' Hn; [apply Forall2_nil_inv_r in Hk as ->; done|].
  apply Forall2_cons_inv_r in Hk as (x & a & Hx & Ha & ->). apply Forall2_cons_inv_r in Hk' as (y & b & Hy & Hb & ->). apply Forall_cons in Hn as [Hy' Hn].
  cbn [map compare_cursor compare_keys]. rewrite IH by done. f_equal. f_equal. destruct x as [v|p], y as [w|p']; cbn [typed_ref] in Hx, Hy; cbn [cmp_value into_value cmp_ref]; try done.
  - destruct Hx. congruence.
  - destruct Hy. congruence.
  - unfold FsDocPath.cmp_reference. by rewrite resource_name_split.
Qed.

(** The query after the cursor. *)
Definition resume (q : Query) (c : Cursor) : Query :=
  {| scope := scope q; q_filter := q_filter q; order_by := order_by q; start_at := Some c; end_at := end_at q; offset := offset q; limit := limit q;
     projection := projection q; find_nearest := find_nearest q; production_refusals := production_refusals q |}.

Section resume.
Context (q : Query) (documents : list Document) (Hok : forall d, d ∈ documents -> fields_ok (fields d)) (Hnd : NoDup (map path documents))
  (Hpaths : forall d, d ∈ documents -> path_ok (path d)) (Hstart : start_at q = None).

Abbreviation order := (effective_order_by q).

Lemma cursor_of c : c ∈ candidates q [] documents -> cursor_after_document q (doc c) = Some {| c_values := map into_value (key c); before := false |}.
Proof.
  intros (d & Hd & Hc)%list_elem_of_omap. unfold cursor_after_document. destruct (candidate_doc q [] d c Hc) as [Hdoc Hk]. subst d. revert Hc. unfold candidate_of.
  destruct (scope_contains _ _); [|done]. destruct (from_option _ true (q_filter q)); [|done]. cbn [negb andb existsb]. rewrite Hk. cbn [mbind option_bind]. by destruct (cursor_admits _ _ _ _).
Qed.

Lemma resumed_candidate c d : cand_ok q documents c -> d ∈ documents ->
  candidate_of (resume q {| c_values := map into_value (key c); before := false |}) [] d =
  (x ← candidate_of q [] d; if decide (candidate_cmp order c x = Lt) then Some x else None).
Proof.
  intros Hc Hd. unfold candidate_of at 1. unfold candidate_of. change (scope (resume q ?x)) with (scope q). change (q_filter (resume q ?x)) with (q_filter q). change (effective_order_by (resume q ?x)) with order.
  destruct (_ && _); [|done]. destruct (order_key d order) as [k|] eqn:Hk; [|done]. cbn [mbind option_bind]. unfold cursor_admits. cbn [resume start_at end_at c_values before]. rewrite Hstart. cbn [andb].
  assert (Hcd : cand_ok q documents {| key := k; doc := d |}) by by split.
  rewrite (compare_cursor_key order k (key c)); [|by apply (cand_typed q documents Hok _ Hcd)|by apply (cand_typed q documents Hok _ Hc)|by apply (order_key_named order (doc c)); [apply Hpaths, Hc|apply Hc]].
  change (compare_keys k (key c) order) with (candidate_cmp order {| key := k; doc := d |} c). rewrite (cand_opp q documents Hok c {| key := k; doc := d |}) by done.
  destruct (match end_at q with Some _ => _ | None => _ end), (candidate_cmp order c {| key := k; doc := d |}) eqn:He; cbn; rewrite ?He; try done; by rewrite ?decide_True, ?decide_False by done.
Qed.

Lemma resumed_candidates c : cand_ok q documents c ->
  candidates (resume q {| c_values := map into_value (key c); before := false |}) [] documents = filter (fun x => candidate_cmp order c x = Lt) (candidates q [] documents).
Proof.
  intros Hc. unfold candidates. assert (H : forall l : list Document, (forall d, d ∈ l -> d ∈ documents) ->
    omap (candidate_of (resume q {| c_values := map into_value (key c); before := false |}) []) l = filter (fun x => candidate_cmp order c x = Lt) (omap (candidate_of q []) l)); [|by apply H].
  induction l as [|d l IH]; intros Hin; [done|]. cbn [omap list_omap]. rewrite resumed_candidate by (try done; apply Hin; by left). rewrite IH by (intros; apply Hin; by right).
  destruct (candidate_of q [] d) as [x|]; [|done]. cbn [mbind option_bind]. rewrite filter_cons. by destruct (decide _).
Qed.

Lemma ranked_unique l : Forall (cand_ok q documents) l -> StronglySorted (fun x y => candidate_cmp order x y <> Gt) l ->
  forall m, m ≡ₚ l -> Forall (cand_ok q documents) m -> sort_by (candidate_cmp order) m = l.
Proof.
  intros Hl Hs m Hp Hm. rewrite Forall_forall in Hl. apply (StronglySorted_unique_strong (fun x y => candidate_cmp order x y <> Gt)); [| |done|by rewrite sort_by_perm].
  - intros x y Hx Hy H1 H2. rewrite sort_by_perm, Hp in Hx. apply (cand_eq q documents Hok Hnd); [by apply Hl|by apply Hl|]. rewrite (cand_opp q documents Hok x y) in H2 by auto. by destruct (candidate_cmp order x y).
  - apply (sort_by_strongly _ (cand_ok q documents)); [|by apply cand_trans|done]. intros x y Hx Hy Hg. by rewrite (cand_opp q documents Hok x y), Hg.
Qed.

Lemma after_self before' c after : Forall (cand_ok q documents) (before' ++ c :: after) -> NoDup (before' ++ c :: after) ->
  StronglySorted (fun x y => candidate_cmp order x y <> Gt) (before' ++ c :: after) ->
  filter (fun x => candidate_cmp order c x = Lt) (before' ++ c :: after) = after.
Proof.
  intros [Hb [Hc Ha]%Forall_cons]%Forall_app Hn Hs. rewrite filter_app. apply StronglySorted_app in Hs as (Hbc & _ & Hs). inversion Hs as [|? ? _ Hca]; subst. rewrite Forall_forall in Hb, Ha, Hca.
  apply NoDup_app in Hn as (_ & Hnb & [Hnc _]%NoDup_cons). rewrite list_filter_none, filter_cons_False.
  - cbn [app]. apply list_filter_all. intros x Hx. specialize (Hca x Hx). destruct (candidate_cmp order c x) eqn:He; [|done|done]. apply (cand_eq q documents Hok Hnd) in He; [by subst|done|by apply Ha].
  - intros Hlt. rewrite (cand_cmp_lex q documents Hok) in Hlt by done. assert (He : compare_lex (map ref_key (key c)) (map ref_key (key c)) (map direction order) = Eq) by (apply compare_lex_eq; try done; by apply (cand_length q documents Hok)). congruence.
  - intros x Hx Hlt. specialize (Hbc x c Hx ltac:(by left)). rewrite (cand_opp q documents Hok c x), Hlt in Hbc by auto. done.
Qed.

End resume.

(** C15. A query resumes exactly where it stopped: the cursor made of a document of the result selects the rows behind it,
    all of them and in their order, even when rows tie on every field, since the name of a document is the last
    key; so that the pages of a query, each starting after the last document of the one before, make up the result. *)
Theorem resume_exact (q : Query) (documents : list Document) (before' : list Candidate) (c : Candidate) (after : list Candidate) :
  (forall d, d ∈ documents -> fields_ok (fields d)) -> NoDup (map path documents) -> (forall d, d ∈ documents -> path_ok (path d)) -> start_at q = None ->
  ranked q [] documents = before' ++ c :: after ->
  exists cursor, cursor_after_document q (doc c) = Some cursor /\ ranked (resume q cursor) [] documents = after.
Proof.
  intros Hok Hnd Hpaths Hstart Hr. assert (Hperm : candidates q [] documents ≡ₚ before' ++ c :: after) by (rewrite <- Hr; symmetry; apply sort_by_perm).
  assert (Hall : Forall (cand_ok q documents) (before' ++ c :: after)) by (apply Forall_forall; intros x Hx; rewrite <- Hperm in Hx; by eapply candidates_ok).
  assert (Hin : c ∈ candidates q [] documents) by (rewrite Hperm; apply elem_of_app; right; by left). pose proof (candidates_ok _ _ _ _ Hin) as Hc.
  assert (Hsorted : StronglySorted (fun x y => candidate_cmp (effective_order_by q) x y <> Gt) (before' ++ c :: after)).
  { rewrite <- Hr. apply (sort_by_strongly _ (cand_ok q documents)); [|by apply cand_trans|by apply Forall_forall; intros x; apply candidates_ok]. intros x y Hx Hy Hg. by rewrite (cand_opp q documents Hok x y), Hg. }
  assert (Hnodup : NoDup (before' ++ c :: after)) by (rewrite <- Hperm; by apply candidates_nodup).
  eexists. split; [by apply (cursor_of q documents)|]. unfold ranked. rewrite resumed_candidates by done. change (effective_order_by (resume q ?x)) with (effective_order_by q).
  apply Forall_app in Hall as Hall'. destruct Hall' as [_ [_ Ha]%Forall_cons]. apply StronglySorted_app in Hsorted as Hs. destruct Hs as (_ & _ & Hs). inversion Hs; subst.
  apply (ranked_unique q documents Hok Hnd); [done..| |].
  - rewrite Hperm. by rewrite (after_self q documents Hok Hnd before' c after).
  - apply Forall_forall. intros x Hx. apply list_elem_of_filter in Hx as [_ Hx]. by eapply candidates_ok.
Qed.

Lemma demo_paths_ok d : d ∈ demo_rows -> path_ok (path d).
Proof.
  assert (Hrow : forall id n, validate_path_segment id = Ok tt -> (Z.of_nat (length (relative (path (row id n)))) + 17 <=? MAX_DOCUMENT_NAME_BYTES) = true -> path_ok (path (row id n))).
  { intros id n Hid Hlen. split; [vm_compute; reflexivity|]. split; [vm_compute; reflexivity|]. split; [discriminate|]. split; [|split; [vm_compute; discriminate|by apply Z.leb_le]].
    apply Forall_singleton. split; [vm_compute; reflexivity|exact Hid]. }
  assert (H : Forall (fun d => path_ok (path d)) demo_rows) by (repeat apply Forall_cons_2; [apply Hrow; vm_compute; reflexivity..|apply Forall_nil_2]).
  rewrite Forall_forall in H. apply H.
Qed.

Example resume_exact_witness : exists c cursor, map doc (ranked demo_query [] demo_rows) = [row "u3" 2; doc c; row "u1" 5] /\
  cursor_after_document demo_query (doc c) = Some cursor /\ map doc (ranked (resume demo_query cursor) [] demo_rows) = [row "u1" 5].
Proof.
  assert (Hnd : bool_decide (NoDup (map path demo_rows)) = true) by (vm_compute; reflexivity). apply bool_decide_eq_true in Hnd.
  assert (Hdocs : map doc (ranked demo_query [] demo_rows) = [row "u3" 2; row "u4" 2; row "u1" 5]) by (vm_compute; reflexivity).
  pose proof (resume_exact demo_query demo_rows) as Hexact. remember (ranked demo_query [] demo_rows) as l eqn:Hl. symmetry in Hl.
  destruct l as [|a l]; [discriminate Hdocs|]. destruct l as [|c after]; [discriminate Hdocs|]. injection Hdocs as Ha Hc Hafter.
  destruct (Hexact [a] c after demo_rows_ok Hnd demo_paths_ok eq_refl eq_refl) as (cursor & Hcur & Hres).
  exists c, cursor. split; [cbn [map]; rewrite Ha, Hafter; reflexivity|]. split; [exact Hcur|]. rewrite Hres. exact Hafter.
Defined.

