(* ===== verification/FsScope.v ===== *)
(** * Scope indexes

    Models the indexes of [FirestoreState] over document paths in
    [crates/fireemu-core-firestore/src/store.rs] and the scans of a query scope that they serve.
    An [Arc<DocumentPath>] is the path it points to; ranges of the ordered sets are filters of
    their iteration.  One state holds one database. *)
From S2P Require Import Prelude Text Ids FsDocPath FsDocument FsListing FsTrie FsFilter FsQuery.
#[local] Set Warnings "-register-all".

(** The innermost collection of a path, which is not empty. *)
Definition collection_of (p : DocumentPath) : string := default EmptyString (collection_id p).

Definition direct_key (p : DocumentPath) : option DocumentPath * string := (parent_document p, collection_of p).

(** Sets of paths grouped by a key; no group is empty. *)
Abbreviation Groups K := (gmap K (gset DocumentPath)).

(** [.entry(key).or_default().insert(path)] *)
Definition group_insert `{Countable K} (key : DocumentPath -> K) (p : DocumentPath) (m : Groups K) : Groups K := <[key p := {[p]} ∪ default ∅ (m !! key p)]> m.

(** [if let Occupied(mut entry) = .. { entry.get_mut().remove(path); if entry.get().is_empty() { entry.remove(); } }] *)
Definition group_remove `{Countable K} (key : DocumentPath -> K) (p : DocumentPath) (m : Groups K) : Groups K :=
  match m !! key p with
  | None => m
  | Some s => let s := s ∖ {[p]} in if bool_decide (s = ∅) then delete (key p) m else <[key p := s]> m
  end.

Record ScopeIndexes := {
  direct_collection_paths : Groups (option DocumentPath * string); live_direct_collection_paths : Groups (option DocumentPath * string);
  listing_trie : ListingTrie;
  collection_group_paths : Groups string; live_collection_group_paths : Groups string;
  live_paths : gset DocumentPath }.

Definition no_scopes : ScopeIndexes :=
  {| direct_collection_paths := ∅; live_direct_collection_paths := ∅; listing_trie := ∅; collection_group_paths := ∅; live_collection_group_paths := ∅; live_paths := ∅ |}.

Definition insert_scope_path (p : DocumentPath) (s : ScopeIndexes) : ScopeIndexes :=
  {| direct_collection_paths := group_insert direct_key p (direct_collection_paths s); live_direct_collection_paths := live_direct_collection_paths s;
     listing_trie := insert_retained (listing_trie s) p;
     collection_group_paths := group_insert collection_of p (collection_group_paths s); live_collection_group_paths := live_collection_group_paths s;
     live_paths := live_paths s |}.

Definition insert_live_scope_path (p : DocumentPath) (s : ScopeIndexes) : ScopeIndexes :=
  {| direct_collection_paths := direct_collection_paths s; live_direct_collection_paths := group_insert direct_key p (live_direct_collection_paths s);
     listing_trie := adjust_live (listing_trie s) p true;
     collection_group_paths := collection_group_paths s; live_collection_group_paths := group_insert collection_of p (live_collection_group_paths s);
     live_paths := {[p]} ∪ live_paths s |}.

Definition remove_scope_path (p : DocumentPath) (s : ScopeIndexes) : ScopeIndexes :=
  {| direct_collection_paths := group_remove direct_key p (direct_collection_paths s); live_direct_collection_paths := live_direct_collection_paths s;
     listing_trie := remove_retained (listing_trie s) p;
     collection_group_paths := group_remove collection_of p (collection_group_paths s); live_collection_group_paths := live_collection_group_paths s;
     live_paths := live_paths s |}.

Definition remove_live_scope_path (p : DocumentPath) (s : ScopeIndexes) : ScopeIndexes :=
  {| direct_collection_paths := direct_collection_paths s; live_direct_collection_paths := group_remove direct_key p (live_direct_collection_paths s);
     listing_trie := adjust_live (listing_trie s) p false;
     collection_group_paths := collection_group_paths s; live_collection_group_paths := group_remove collection_of p (live_collection_group_paths s);
     live_paths := live_paths s ∖ {[p]} |}.

(** One path of [rebuild_scope_paths], which visits the history in path order; [live] when its newest version is a document. *)
Definition rebuild_path (s : ScopeIndexes) (entry : DocumentPath * bool) : ScopeIndexes :=
  let s := insert_scope_path entry.1 s in if entry.2 then insert_live_scope_path entry.1 s else s.

Definition rebuild_scope_paths (entries : list (DocumentPath * bool)) : ScopeIndexes := fold_left rebuild_path entries no_scopes.

Definition is_strict_descendant (p parent : DocumentPath) : bool :=
  (length (pairs parent) <? length (pairs p))%nat && bool_decide (take (length (pairs parent)) (pairs p) = pairs parent).

Fixpoint take_while {A} (f : A -> bool) (l : list A) : list A :=
  match l with [] => [] | x :: l => if f x then x :: take_while f l else [] end.

(** [range((Excluded(x), Unbounded))], [range((Unbounded, Excluded(x)))], with an optional bound *)
Definition above (bound : option DocumentPath) (l : list DocumentPath) : list DocumentPath := match bound with Some b => filter (fun p => ord_lt b p) l | None => l end.
Definition below (bound : option DocumentPath) (l : list DocumentPath) : list DocumentPath := match bound with Some b => filter (fun p => ord_lt p b) l | None => l end.

Section scans.
Context (s : ScopeIndexes) (retained : gset DocumentPath) (historical : bool).

(** The paths of the index that a scope names, in path order: [historical] scans read the retained indexes and the keys of
    the history, latest scans the live ones. *)
Definition direct_index (parent : option DocumentPath) (c : string) : list DocumentPath :=
  btree_iter (default ∅ ((if historical then direct_collection_paths s else live_direct_collection_paths s) !! (parent, c))).
Definition group_index (c : string) : list DocumentPath := btree_iter (default ∅ ((if historical then collection_group_paths s else live_collection_group_paths s) !! c)).
Definition path_index : list DocumentPath := btree_iter (if historical then retained else live_paths s).

(** [.take_while(|path| is_strict_descendant(path, parent))] when there is a parent *)
Definition while_under (parent : option DocumentPath) (l : list DocumentPath) : list DocumentPath :=
  match parent with Some parent => take_while (fun p => is_strict_descendant p parent) l | None => l end.

Definition scope_paths (scope : QueryScope) : list DocumentPath :=
  match scope with
  | Collection parent c => direct_index parent c
  | CollectionGroup parent c => while_under parent (above parent (group_index c))
  | KindlessAllDescendants parent | KindlessChildren parent => while_under parent (above parent path_index)
  end.

(** [range((Excluded(lower), Excluded(upper))).rev()] over the descendants of a parent *)
Definition descending_under (parent : option DocumentPath) (l : list DocumentPath) : list DocumentPath :=
  rev (match parent with Some p => below (Some (descendants_upper_bound p)) (above (Some p) l) | None => l end).

Definition scope_paths_descending (scope : QueryScope) : list DocumentPath :=
  match scope with
  | Collection parent c => rev (direct_index parent c)
  | CollectionGroup parent c => descending_under parent (group_index c)
  | KindlessAllDescendants parent | KindlessChildren parent => descending_under parent path_index
  end.

Definition scope_paths_after (scope : QueryScope) (after : DocumentPath) : list DocumentPath :=
  match scope with
  | Collection parent c => above (Some after) (direct_index parent c)
  | CollectionGroup parent c => while_under parent (above (Some after) (group_index c))
  | KindlessAllDescendants parent | KindlessChildren parent => while_under parent (above (Some after) path_index)
  end.

Definition before_under (parent : option DocumentPath) (before : DocumentPath) (l : list DocumentPath) : list DocumentPath :=
  match parent with
  | Some p => if is_strict_descendant before p then rev (below (Some before) (above (Some p) l)) else []
  | None => rev (below (Some before) l)
  end.

Definition scope_paths_before (scope : QueryScope) (before : DocumentPath) : list DocumentPath :=
  match scope with
  | Collection parent c => rev (below (Some before) (direct_index parent c))
  | CollectionGroup parent c => before_under parent before (group_index c)
  | KindlessAllDescendants parent | KindlessChildren parent => before_under parent before path_index
  end.
End scans.

Example scope_ex :
  let below_demo := with_pairs demo_path (pairs demo_path ++ [("notes", "n1")]) in
  let other := {| project := "demo"; database := "(default)"; pairs := [("users", "karl")] |} in
  let s := rebuild_scope_paths [(demo_path, true); (below_demo, false); (other, true)] in
  scope_paths s ∅ true (CollectionGroup None "notes") = [below_demo] /\ scope_paths s ∅ false (CollectionGroup None "notes") = [] /\
  scope_paths s ∅ false (Collection None "users") = [other] /\
  scope_paths s ∅ false (KindlessChildren (parent_document demo_path)) = [demo_path] /\
  scope_paths_descending s ∅ false (KindlessAllDescendants None) = [other; demo_path].
Proof. vm_compute. repeat split. Qed.

(** ** The indexes are views of the retained and of the live paths *)

Definition grouped `{Countable K} (key : DocumentPath -> K) (m : Groups K) (s : gset DocumentPath) : Prop := forall k, default ∅ (m !! k) = filter (fun p => key p = k) s.

(** [retained] are the paths of the history, [live] those with a document; no two have the same pairs, as in one database. *)
Record scopes_view (s : ScopeIndexes) (retained live : gset DocumentPath) : Prop := {
  view_direct : grouped direct_key (direct_collection_paths s) retained;
  view_live_direct : grouped direct_key (live_direct_collection_paths s) live;
  view_groups : grouped collection_of (collection_group_paths s) retained;
  view_live_groups : grouped collection_of (live_collection_group_paths s) live;
  view_live : live_paths s = live;
  view_listing : listing_view retained live (listing_trie s);
  view_subset : live ⊆ retained;
  view_apart : forall p q, p ∈ retained -> q ∈ retained -> pairs p = pairs q -> p = q }.

Lemma grouped_insert `{Countable K} (key : DocumentPath -> K) m s p : grouped key m s -> grouped key (group_insert key p m) ({[p]} ∪ s).
Proof.
  intros Hm k. unfold group_insert. destruct (decide (key p = k)) as [<-|Hne].
  - rewrite lookup_insert_eq, Hm. cbn. apply set_eq. intros q. rewrite elem_of_union, !elem_of_filter, elem_of_union, !elem_of_singleton. split; [|tauto]. intros [->|]; tauto.
  - rewrite lookup_insert_ne, Hm by done. apply set_eq. intros q. rewrite !elem_of_filter, elem_of_union, !elem_of_singleton. split; [tauto|]. intros [Hq [->|]]; [done|tauto].
Qed.

Lemma grouped_remove `{Countable K} (key : DocumentPath -> K) m s p : grouped key m s -> grouped key (group_remove key p m) (s ∖ {[p]}).
Proof.
  intros Hm k. unfold group_remove. assert (Hkey : forall q, q ∈ filter (fun p => key p = k) (s ∖ {[p]}) <-> q ∈ filter (fun p => key p = k) s ∖ {[p]}) by (intros q; rewrite elem_of_difference, !elem_of_filter, elem_of_difference; tauto).
  apply set_eq in Hkey. rewrite Hkey, <- Hm. clear Hkey. destruct (m !! key p) as [g|] eqn:Hg.
  - case_bool_decide as He; destruct (decide (key p = k)) as [<-|Hne].
    + rewrite lookup_delete_eq, Hg. cbn. by rewrite He.
    + rewrite lookup_delete_ne by done. rewrite Hm. apply set_eq. intros q. rewrite elem_of_difference, elem_of_filter, elem_of_singleton. split; [|tauto]. intros [Hq Hs]. split; [done|]. by intros ->.
    + by rewrite lookup_insert_eq, Hg.
    + rewrite lookup_insert_ne by done. rewrite Hm. apply set_eq. intros q. rewrite elem_of_difference, elem_of_filter, elem_of_singleton. split; [|tauto]. intros [Hq Hs]. split; [done|]. by intros ->.
  - rewrite Hm. apply set_eq. intros q. rewrite elem_of_difference, elem_of_filter, elem_of_singleton. split; [|tauto]. intros [Hq Hs]. split; [done|]. intros ->.
    specialize (Hm (key p)). rewrite Hg in Hm. cbn in Hm. assert (Hin : p ∈ (∅ : gset DocumentPath)) by (rewrite Hm; by apply elem_of_filter). by apply not_elem_of_empty in Hin.
Qed.

Lemma no_scopes_view : scopes_view no_scopes ∅ ∅.
Proof. split; try (intros k; cbn; by rewrite lookup_empty, filter_empty_L); try done. apply empty_listing_view. Qed.

Lemma insert_scope_view s R L p : scopes_view s R L -> p ∉ R -> (forall q, q ∈ R -> pairs q <> pairs p) -> scopes_view (insert_scope_path p s) ({[p]} ∪ R) L.
Proof.
  intros [] Hnew Hp. split; [by apply grouped_insert|done|by apply grouped_insert|done|done|by apply insert_retained_view|set_solver|].
  intros x y [->%elem_of_singleton|Hx]%elem_of_union [->%elem_of_singleton|Hy]%elem_of_union Hxy; [done| |by destruct (Hp x)|by apply view_apart0]. by destruct (Hp y).
Qed.

Lemma insert_live_view s R L p : scopes_view s R L -> p ∈ R -> p ∉ L -> scopes_view (insert_live_scope_path p s) R ({[p]} ∪ L).
Proof. intros [] Hin Hnew. split; [done|by apply grouped_insert|done|by apply grouped_insert|by subst|by apply increase_live_view|set_solver|done]. Qed.

Lemma remove_scope_view s R L p : scopes_view s R L -> p ∈ R -> p ∉ L -> scopes_view (remove_scope_path p s) (R ∖ {[p]}) L.
Proof.
  intros [] Hin Hdead. split; [by apply grouped_remove|done|by apply grouped_remove|done|done|apply remove_retained_view; auto|set_solver|]. intros x y [Hx _]%elem_of_difference [Hy _]%elem_of_difference. by apply view_apart0.
Qed.

Lemma remove_live_view s R L p : scopes_view s R L -> p ∈ L -> scopes_view (remove_live_scope_path p s) R (L ∖ {[p]}).
Proof. intros [] Hin. split; [done|by apply grouped_remove|done|by apply grouped_remove|by subst|apply decrease_live_view; by auto|set_solver|done]. Qed.

(** Rebuilding visits every path of the history once. *)
Lemma rebuild_view entries : NoDup (map (fun e : DocumentPath * bool => pairs e.1) entries) ->
  scopes_view (rebuild_scope_paths entries) (list_to_set (map fst entries)) (list_to_set (map fst (filter (fun e => e.2 = true) entries))).
Proof.
  unfold rebuild_scope_paths.
  assert (H : forall s R L R' L', NoDup (map (fun e : DocumentPath * bool => pairs e.1) entries) -> (forall e q, e ∈ entries -> q ∈ R -> pairs q <> pairs e.1) -> scopes_view s R L -> (forall q, q ∈ R' <-> q ∈ R \/ q ∈ map fst entries) -> (forall q, q ∈ L' <-> q ∈ L \/ q ∈ map fst (filter (fun e => e.2 = true) entries)) ->
    scopes_view (fold_left rebuild_path entries s) R' L').
  { induction entries as [|[p live] entries IH]; intros s R L R' L' Hnd Hfresh Hs HR HL.
    - assert (R' = R) as -> by (apply set_eq; intros q; rewrite HR; cbn; rewrite elem_of_nil; tauto). by assert (L' = L) as -> by (apply set_eq; intros q; rewrite HL; cbn; rewrite elem_of_nil; tauto).
    - cbn [map fst] in Hnd. apply NoDup_cons in Hnd as [Hp Hnd]. assert (Hnew : p ∉ R) by (intros Hin; apply (Hfresh (p, live) p); [left|done|done]). pose proof (insert_scope_view s R L p Hs Hnew (fun q Hq => Hfresh (p, live) q (list_elem_of_here _ _) Hq)) as Hs1.
      assert (Hfresh' : forall e q, e ∈ entries -> q ∈ {[p]} ∪ R -> pairs q <> pairs e.1) by (intros e q He [->%elem_of_singleton|Hq]%elem_of_union; [intros Heq; apply Hp; rewrite Heq; apply list_elem_of_fmap; by exists e|by apply Hfresh; [right|]]).
      assert (Hdead : p ∉ L) by (intros Hin; by apply Hnew, (view_subset _ _ _ Hs)).
      cbn [fold_left]. unfold rebuild_path at 2. cbn [fst snd] in *. rewrite filter_cons in HL. cbn [snd] in HL. destruct live; case_decide; try done.
      + assert (Hin : p ∈ {[p]} ∪ R) by set_solver. eapply IH; [done|exact Hfresh'|exact (insert_live_view _ _ _ _ Hs1 Hin Hdead)| |]; intros q; rewrite ?HR, ?HL; cbn; rewrite elem_of_union, elem_of_cons, elem_of_singleton; tauto.
      + eapply IH; [done|exact Hfresh'|exact Hs1| |done]. intros q. rewrite HR. cbn. rewrite elem_of_union, elem_of_cons, elem_of_singleton. tauto. }
  intros Hnd. eapply H; [done| |apply no_scopes_view| |]; try (intros q; rewrite elem_of_list_to_set; set_solver). intros e q _ Hq. by apply not_elem_of_empty in Hq.
Qed.

(** ** The scans of a scope *)

Lemma btree_iter_filter (P : DocumentPath -> Prop) `{forall p, Decision (P p)} (I : gset DocumentPath) : btree_iter (filter P I) = filter P (btree_iter I).
Proof.
  apply btree_iter_unique; [apply StronglySorted_filter, btree_iter_sorted|]. intros p. by rewrite list_elem_of_filter, elem_of_filter, elem_of_btree_iter.
Qed.

Lemma take_while_filter {A} (R : A -> A -> Prop) (f : A -> bool) l : StronglySorted R l -> (forall x y, x ∈ l -> y ∈ l -> R x y -> f y = true -> f x = true) ->
  take_while f l = filter (fun x => f x = true) l.
Proof.
  induction 1 as [|x l Hs IH Hx]; intros Hdown; [done|]. cbn [take_while]. rewrite filter_cons. destruct (f x) eqn:E; case_decide; try done.
  - f_equal. apply IH. intros a b Ha Hb. apply Hdown; by right.
  - symmetry. apply list_filter_none. intros y Hy Hfy. rewrite Forall_forall in Hx. assert (f x = true) by (apply (Hdown x y); [by left|by right|by apply Hx|done]). congruence.
Qed.

(** A document path of the database that a state holds. *)
Definition in_db (pr db : string) (p : DocumentPath) : Prop := project p = pr /\ database p = db /\ pairs p <> [].

Definition scope_in_db (pr db : string) (scope : QueryScope) : Prop := forall parent, scope_parent scope = Some parent -> in_db pr db parent.

Section database.
Context (pr db : string).

Lemma strict_descendant_spec p parent : in_db pr db p -> in_db pr db parent -> is_strict_descendant p parent = true <-> descendant_of parent p.
Proof.
  intros (Hp1 & Hp2 & Hp3) (Hq1 & Hq2 & Hq3). unfold is_strict_descendant, descendant_of. rewrite andb_true_iff, Nat.ltb_lt, bool_decide_eq_true. split.
  - intros [Hlen Hpre]. split_and!; [congruence..|]. rewrite <- (take_drop (length (pairs parent)) (pairs p)), Hpre. destruct (drop _ _) as [|cd rest] eqn:E; [|by exists cd, rest].
    apply (f_equal length) in E. rewrite length_drop in E. cbn in E. lia.
  - intros (_ & _ & cd & rest & ->). rewrite length_app, take_app_length. cbn. split; [lia|done].
Qed.

Lemma has_prefix_spec parent p : in_db pr db p -> in_db pr db parent ->
  (length (pairs parent) <? length (pairs p))%nat && has_prefix (Some parent) p = true <-> is_strict_descendant p parent = true.
Proof. done. Qed.

Lemma direct_key_spec p parent c : in_db pr db p -> (forall q, parent = Some q -> in_db pr db q) -> scope_contains (Collection parent c) p = true <-> direct_key p = (parent, c).
Proof.
  intros (Hp1 & Hp2 & Hp3) Hparent. unfold scope_contains, direct_key, collection_of, collection_id, parent_document, parent_len, has_prefix. cbn [scope_parent].
  destruct (exists_last Hp3) as (init & [c' d] & Hpairs). rewrite Hpairs. rewrite last_snoc. cbn [fmap option_fmap option_map fst]. cbn [default].
  rewrite !andb_true_iff, !bool_decide_eq_true. rewrite length_app. cbn [length]. destruct parent as [parent|]; cbn [from_option].
  - destruct (Hparent parent eq_refl) as (Hq1 & Hq2 & Hq3). rewrite bool_decide_eq_true. split.
    + intros [[Hlen [= ->]] Hpre]. rewrite take_app_le in Hpre by lia. assert (init = pairs parent) as -> by (rewrite <- Hpre; rewrite take_ge; [done|lia]).
      destruct (Nat.ltb_spec (length (pairs parent) + 1) 2) as [Hlt|_]; [destruct (pairs parent); [done|cbn in Hlt; lia]|].
      replace (length (pairs parent) + 1 - 1)%nat with (length (pairs parent)) by lia. rewrite take_app_length. f_equal. f_equal. destruct parent, p. cbn in *. by subst.
    + destruct (_ <? 2)%nat; [by intros [= _]|]. replace (length init + 1 - 1)%nat with (length init) by lia. rewrite take_app_length. intros [= <- <-]. cbn. rewrite take_app_length. done.
  - split.
    + intros [[Hlen [= ->]] _]. by rewrite Hlen.
    + destruct (Nat.ltb_spec (length init + 1) 2) as [Hlt|]; [|done]. intros [= ->]. split; [split; [lia|done]|done].
Qed.

(** The range that a scan of the scope covers; a scan of children visits all descendants. *)
Definition scanned (scope : QueryScope) : QueryScope := match scope with KindlessChildren parent => KindlessAllDescendants parent | s => s end.

Lemma scanned_contains scope p : in_db pr db p -> scope_in_db pr db scope -> scope_contains scope p = true -> scope_contains (scanned scope) p = true.
Proof.
  intros Hp Hs. destruct scope as [| | |parent]; try done. unfold scope_contains, parent_len. cbn [scanned scope_parent]. rewrite andb_true_iff, bool_decide_eq_true.
  destruct parent as [parent|]; [|done]. cbn [from_option]. intros [Hlen Hpre]. rewrite Hpre, Hlen, andb_true_r. apply Nat.ltb_lt. lia.
Qed.

Lemma below_descendants parent x y : in_db pr db parent -> in_db pr db x -> in_db pr db y -> ord_lt parent x -> ord_lt x y -> is_strict_descendant y parent = true -> is_strict_descendant x parent = true.
Proof.
  intros Hp Hx Hy Hpx Hxy. rewrite !strict_descendant_spec by done. destruct Hp as (_ & _ & Hne). rewrite <- (descendants_range parent y Hne), <- (descendants_range parent x Hne).
  intros [_ Hub]. split; [done|]. by eapply ord_lt_trans.
Qed.

(** The range between a parent and its upper bound, and the prefix of the descendants after a bound that is not below the parent. *)
Lemma under_parent parent l : in_db pr db parent -> Forall (in_db pr db) l -> filter (fun p => is_strict_descendant p parent = true) (above (Some parent) l) = filter (fun p => is_strict_descendant p parent = true) l.
Proof.
  intros Hp Hl. cbn [above]. rewrite list_filter_filter. apply list_filter_ext_in. intros x Hx. rewrite Forall_forall in Hl. specialize (Hl x Hx). rewrite strict_descendant_spec by done.
  rewrite <- (descendants_range parent x ltac:(by destruct Hp as (_ & _ & ?))). tauto.
Qed.

(** Below the parent of a scope, if it has one. *)
Definition under (parent : option DocumentPath) (p : DocumentPath) : bool := match parent with Some q => is_strict_descendant p q | None => true end.

Lemma ord_lt_parent parent x : in_db pr db parent -> in_db pr db x -> is_strict_descendant x parent = true -> ord_lt parent x.
Proof. intros Hp Hx. rewrite strict_descendant_spec by done. destruct Hp as (_ & _ & Hne). rewrite <- (descendants_range parent x Hne). by intros []. Qed.

Lemma under_filter parent l : above parent (filter (fun p => under parent p = true) l) = filter (fun p => under parent p = true) (above parent l).
Proof. destruct parent as [parent|]; [|done]. cbn [above]. rewrite !list_filter_filter. apply list_filter_ext_in. tauto. Qed.

Lemma under_scans parent l : StronglySorted ord_lt l -> Forall (in_db pr db) l -> (forall q, parent = Some q -> in_db pr db q) ->
  let D := filter (fun p => under parent p = true) l in
  while_under parent (above parent l) = D /\ descending_under parent l = rev D /\
  (forall after, in_db pr db after -> under parent after = true -> while_under parent (above (Some after) l) = above (Some after) D) /\
  (forall before, in_db pr db before -> under parent before = true -> before_under parent before l = rev (below (Some before) D)).
Proof.
  intros Hs Hl Hparent D. subst D. rewrite Forall_forall in Hl. destruct parent as [parent|]; cbn [under].
  2: { rewrite (list_filter_all (fun _ => true = true)) by done. cbn [while_under above descending_under before_under]. split_and!; try done. }
  specialize (Hparent parent eq_refl). pose proof Hparent as (_ & _ & Hne).
  assert (Habove : forall bound, in_db pr db bound -> bound = parent \/ ord_lt parent bound ->
    take_while (fun p => is_strict_descendant p parent) (above (Some bound) l) = filter (fun p => is_strict_descendant p parent = true) (above (Some bound) l)).
  { intros bound Hb Hge. apply (take_while_filter ord_lt); [by apply StronglySorted_filter|]. intros x y [Hx Hxl]%list_elem_of_filter [Hy Hyl]%list_elem_of_filter Hxy.
    apply below_descendants; auto. destruct Hge as [->|Hge]; [done|by eapply ord_lt_trans]. }
  split_and!; unfold while_under, descending_under, before_under.
  - rewrite Habove by auto. apply under_parent; [done|by apply Forall_forall].
  - f_equal. unfold above, below. rewrite list_filter_filter. apply list_filter_ext_in. intros x Hx. rewrite strict_descendant_spec by auto. rewrite <- (descendants_range parent x Hne). tauto.
  - intros after Ha Hu. pose proof (ord_lt_parent parent after Hparent Ha Hu). rewrite Habove by auto. cbn [above]. rewrite !list_filter_filter. apply list_filter_ext_in. tauto.
  - intros before Hb Hu. rewrite Hu. f_equal. cbn [above below]. rewrite !list_filter_filter. apply list_filter_ext_in. intros x Hx. split.
    + intros [Hlt Hpx]. split; [done|]. by apply (below_descendants parent x before); auto.
    + intros [Hlt Hux]. split; [done|]. by apply ord_lt_parent; auto.
Qed.

Lemma kindless_contains parent p : scope_contains (KindlessAllDescendants parent) p = under parent p.
Proof. by destruct parent. Qed.

Lemma group_contains parent c p : in_db pr db p -> scope_contains (CollectionGroup parent c) p = true <-> under parent p = true /\ collection_of p = c.
Proof.
  intros (_ & _ & Hne). unfold scope_contains, collection_of, collection_id. destruct (exists_last Hne) as (init & cd & Hp). rewrite Hp, last_snoc. cbn [fmap option_fmap option_map default].
  rewrite andb_true_iff, bool_decide_eq_true. assert (Hu : (match parent with None => true | Some _ => (parent_len (CollectionGroup parent c) <? length (init ++ [cd]))%nat && has_prefix parent p end) = under parent p).
  { unfold has_prefix, under, is_strict_descendant. destruct parent; [|done]. by rewrite Hp. }
  rewrite Hu. split; [intros [[= Hc] ?]; by split|intros [? Hc]; split; [f_equal; exact Hc|done]].
Qed.
End database.

(** The scans, index by index. *)
Lemma scope_scans (pr db : string) (s : ScopeIndexes) (retained live : gset DocumentPath) (historical : bool) (scope : QueryScope) :
  scopes_view s retained live -> live ⊆ retained -> (forall p, p ∈ retained -> in_db pr db p) -> scope_in_db pr db scope ->
  let indexed := if historical then retained else live in
  let scan := filter (fun p => scope_contains (scanned scope) p = true) (btree_iter indexed) in
  scope_paths s retained historical scope = scan /\ scope_paths_descending s retained historical scope = rev scan /\
  (forall after, in_db pr db after -> scope_contains (scanned scope) after = true -> scope_paths_after s retained historical scope after = filter (fun p => ord_lt after p) scan) /\
  (forall before, in_db pr db before -> scope_contains (scanned scope) before = true -> scope_paths_before s retained historical scope before = rev (filter (fun p => ord_lt p before) scan)).
Proof.
  intros Hview Hsub Hdb Hscope indexed scan. assert (Hindexed : Forall (in_db pr db) (btree_iter indexed)).
  { apply Forall_forall. intros p Hp%elem_of_btree_iter. apply Hdb. subst indexed. destruct historical; [done|by apply Hsub]. }
  pose proof (btree_iter_sorted indexed) as Hsorted. destruct Hview. destruct scope as [parent c|parent c|parent|parent].
  - assert (Hscan : direct_index s historical parent c = scan).
    { subst scan indexed. unfold direct_index. rewrite <- btree_iter_filter. f_equal. destruct historical; rewrite ?view_direct0, ?view_live_direct0; apply set_eq; intros p; rewrite !elem_of_filter;
        (split; intros [Hk Hp]; split; try done; revert Hk; apply (direct_key_spec pr db); auto). }
    unfold scope_paths, scope_paths_descending, scope_paths_after, scope_paths_before. rewrite Hscan. split_and!; done.
  - assert (Hgroup : group_index s historical c = filter (fun p => collection_of p = c) (btree_iter indexed)).
    { subst indexed. unfold group_index. rewrite <- btree_iter_filter. f_equal. destruct historical; by rewrite ?view_groups0, ?view_live_groups0. }
    assert (Hscan : filter (fun p => under parent p = true) (group_index s historical c) = scan).
    { subst scan. cbn [scanned]. rewrite Hgroup, list_filter_filter. apply list_filter_ext_in. intros p Hp. rewrite Forall_forall in Hindexed. by rewrite (group_contains pr db) by auto. }
    destruct (under_scans pr db parent (group_index s historical c)) as (H1 & H2 & H3 & H4).
    { rewrite Hgroup. by apply StronglySorted_filter. }
    { rewrite Hgroup, Forall_forall. intros p [_ Hp]%list_elem_of_filter. rewrite Forall_forall in Hindexed. by apply Hindexed. }
    { intros q Hq. by apply Hscope. }
    rewrite Hscan in *. unfold scope_paths, scope_paths_descending, scope_paths_after, scope_paths_before. split_and!; try done.
    + intros after Ha [Hu _]%(group_contains pr db); [|done]. by apply H3.
    + intros before Hb [Hu _]%(group_contains pr db); [|done]. by apply H4.
  - destruct (under_scans pr db parent (path_index s retained historical)) as (H1 & H2 & H3 & H4).
    all: assert (Hpaths : path_index s retained historical = btree_iter indexed) by (subst indexed; unfold path_index; destruct historical; by rewrite ?view_live0). 1-2: by rewrite Hpaths. { intros q Hq. by apply Hscope. }
    assert (Hscan : filter (fun p => under parent p = true) (btree_iter indexed) = scan) by (subst scan; cbn [scanned]; apply list_filter_ext_in; intros p Hp; by rewrite kindless_contains).
    rewrite Hpaths in *. rewrite Hscan in *. unfold scope_paths, scope_paths_descending, scope_paths_after, scope_paths_before. rewrite Hpaths. split_and!; [exact H1|exact H2| |].
    + intros after Ha. cbn [scanned]. rewrite kindless_contains. by apply H3.
    + intros before Hb. cbn [scanned]. rewrite kindless_contains. by apply H4.
  - destruct (under_scans pr db parent (path_index s retained historical)) as (H1 & H2 & H3 & H4).
    all: assert (Hpaths : path_index s retained historical = btree_iter indexed) by (subst indexed; unfold path_index; destruct historical; by rewrite ?view_live0). 1-2: by rewrite Hpaths. { intros q Hq. by apply Hscope. }
    assert (Hscan : filter (fun p => under parent p = true) (btree_iter indexed) = scan) by (subst scan; cbn [scanned]; apply list_filter_ext_in; intros p Hp; by rewrite kindless_contains).
    rewrite Hpaths in *. rewrite Hscan in *. unfold scope_paths, scope_paths_descending, scope_paths_after, scope_paths_before. rewrite Hpaths. split_and!; [exact H1|exact H2| |].
    + intros after Ha. cbn [scanned]. rewrite kindless_contains. by apply H3.
    + intros before Hb. cbn [scanned]. rewrite kindless_contains. by apply H4.
Qed.

(** C17. The scans of a query scope: over the indexes of the retained and the live paths, a scan lists in path order exactly
    the indexed paths that the scope covers, a descending scan lists them in reverse, and a continuation from a path of the
    scope lists exactly those strictly after it, or strictly before it in descending order; a scan of the children of a
    parent covers all its descendants, and never misses a child. *)
Theorem scans_exact (pr db : string) (s : ScopeIndexes) (retained live : gset DocumentPath) (historical : bool) (scope : QueryScope) :
  scopes_view s retained live -> live ⊆ retained -> (forall p, p ∈ retained -> in_db pr db p) -> scope_in_db pr db scope ->
  let indexed := if historical then retained else live in
  let scan := filter (fun p => scope_contains (scanned scope) p = true) (btree_iter indexed) in
  scope_paths s retained historical scope = scan /\ scope_paths_descending s retained historical scope = rev scan /\
  (forall after, in_db pr db after -> scope_contains (scanned scope) after = true -> scope_paths_after s retained historical scope after = filter (fun p => ord_lt after p) scan) /\
  (forall before, in_db pr db before -> scope_contains (scanned scope) before = true -> scope_paths_before s retained historical scope before = rev (filter (fun p => ord_lt p before) scan)) /\
  filter (fun p => scope_contains scope p = true) scan = filter (fun p => scope_contains scope p = true) (btree_iter indexed).
Proof.
  intros Hview Hsub Hdb Hscope indexed scan. destruct (scope_scans pr db s retained live historical scope Hview Hsub Hdb Hscope) as (H1 & H2 & H3 & H4). split_and!; try done.
  subst scan. rewrite list_filter_filter. apply list_filter_ext_in. intros p Hp%elem_of_btree_iter. split; [tauto|]. intros Hc. split; [done|].
  apply (scanned_contains pr db); [|done|done]. apply Hdb. subst indexed. destruct historical; [done|by apply Hsub].
Qed.

Definition demo_db : string := "(default)".
Definition demo_child : DocumentPath := with_pairs demo_path (pairs demo_path ++ [("notes", "n1")]).
Definition demo_scopes : ScopeIndexes := rebuild_scope_paths [(demo_path, true); (demo_child, false)].
Definition demo_parent : DocumentPath := with_pairs demo_path [("users", "jeff")].

Example scans_exact_witness :
  scope_paths demo_scopes {[demo_path; demo_child]} true (KindlessChildren (Some demo_parent)) = [demo_path; demo_child] /\
  scope_paths_after demo_scopes {[demo_path; demo_child]} true (KindlessChildren (Some demo_parent)) demo_path = [demo_child].
Proof.
  assert (Hview : scopes_view demo_scopes {[demo_path; demo_child]} {[demo_path]}).
  { assert (Hnd : NoDup (map (fun e : DocumentPath * bool => pairs e.1) [(demo_path, true); (demo_child, false)])) by (repeat constructor; set_solver).
    pose proof (rebuild_view [(demo_path, true); (demo_child, false)] Hnd) as H. cbn in H. rewrite !union_empty_r_L in H. exact H. }
  assert (Hdb : forall p, p ∈ ({[demo_path; demo_child]} : gset DocumentPath) -> in_db "demo" demo_db p) by (intros p [->%elem_of_singleton | ->%elem_of_singleton]%elem_of_union; by repeat split).
  destruct (scans_exact "demo" demo_db demo_scopes {[demo_path; demo_child]} {[demo_path]} true (KindlessChildren (Some demo_parent)) Hview) as (H1 & _ & H3 & _).
  - set_solver.
  - exact Hdb.
  - intros parent [= <-]. by repeat split.
  - split; [rewrite H1; vm_compute; reflexivity|]. rewrite H3; [vm_compute; reflexivity|by repeat split|vm_compute; reflexivity].
Defined.
