(* ===== verification/FsHistory.v ===== *)
(** * The versioned documents

    Models the multi-version history of [FirestoreState] in
    [crates/fireemu-core-firestore/src/store.rs]: the retained versions of every path, the commit
    times, the floors, the accounting of their usage, the index of what a compaction can reclaim,
    and the reads at a version or at a time. *)
From S2P Require Import Prelude Time Text FsDocPath FsSize FsDocument FsListing FsUsage.
#[local] Set Warnings "-register-all".

Definition READ_TIME_RETENTION_SECONDS : Z := 3600.
Definition DEFAULT_MAX_RETAINED_VERSIONS_PER_PATH : nat := 1024.

(** Reclaimable usage at one version and floor. *)
Record CompactionForecast := { f_version : CommitVersion; f_floor : CommitVersion; reclaimed : HistoryUsage }.

(** The fields of [FirestoreState] that hold the retained versions. *)
Record Documents := {
  history : gmap DocumentPath Versions;
  current_version : CommitVersion;
  last_commit_time : option LogicalInstant;
  commit_times : list (CommitVersion * LogicalInstant);
  compaction_floor : CommitVersion;
  capacity_floor : CommitVersion;
  max_versions_per_path : nat;
  history_limits : HistoryLimits;
  history_usage : HistoryUsage;
  history_accounting_exact : bool;
  compaction_forecast : option CompactionForecast;
  compactable : gmap DocumentPath CommitVersion;
  reclaim_thresholds : gset (CommitVersion * DocumentPath) }.

Definition no_documents : Documents :=
  {| history := ∅; current_version := 0; last_commit_time := None; commit_times := []; compaction_floor := 0; capacity_floor := 0;
     max_versions_per_path := DEFAULT_MAX_RETAINED_VERSIONS_PER_PATH; history_limits := default_history_limits; history_usage := no_usage; history_accounting_exact := true;
     compaction_forecast := None; compactable := ∅; reclaim_thresholds := ∅ |}.

(** Assignments to the fields. *)
Definition set_history (h : gmap DocumentPath Versions) (d : Documents) : Documents :=
  {| history := h; current_version := current_version d; last_commit_time := last_commit_time d; commit_times := commit_times d; compaction_floor := compaction_floor d;
     capacity_floor := capacity_floor d; max_versions_per_path := max_versions_per_path d; history_limits := history_limits d; history_usage := history_usage d;
     history_accounting_exact := history_accounting_exact d; compaction_forecast := compaction_forecast d; compactable := compactable d; reclaim_thresholds := reclaim_thresholds d |}.

Definition set_times (version : CommitVersion) (last : option LogicalInstant) (times : list (CommitVersion * LogicalInstant)) (d : Documents) : Documents :=
  {| history := history d; current_version := version; last_commit_time := last; commit_times := times; compaction_floor := compaction_floor d;
     capacity_floor := capacity_floor d; max_versions_per_path := max_versions_per_path d; history_limits := history_limits d; history_usage := history_usage d;
     history_accounting_exact := history_accounting_exact d; compaction_forecast := compaction_forecast d; compactable := compactable d; reclaim_thresholds := reclaim_thresholds d |}.

Definition set_floors (compaction capacity : CommitVersion) (d : Documents) : Documents :=
  {| history := history d; current_version := current_version d; last_commit_time := last_commit_time d; commit_times := commit_times d; compaction_floor := compaction;
     capacity_floor := capacity; max_versions_per_path := max_versions_per_path d; history_limits := history_limits d; history_usage := history_usage d;
     history_accounting_exact := history_accounting_exact d; compaction_forecast := compaction_forecast d; compactable := compactable d; reclaim_thresholds := reclaim_thresholds d |}.

Definition set_usage (usage : HistoryUsage) (exact : bool) (d : Documents) : Documents :=
  {| history := history d; current_version := current_version d; last_commit_time := last_commit_time d; commit_times := commit_times d; compaction_floor := compaction_floor d;
     capacity_floor := capacity_floor d; max_versions_per_path := max_versions_per_path d; history_limits := history_limits d; history_usage := usage;
     history_accounting_exact := exact; compaction_forecast := compaction_forecast d; compactable := compactable d; reclaim_thresholds := reclaim_thresholds d |}.

Definition set_forecast (forecast : option CompactionForecast) (d : Documents) : Documents :=
  {| history := history d; current_version := current_version d; last_commit_time := last_commit_time d; commit_times := commit_times d; compaction_floor := compaction_floor d;
     capacity_floor := capacity_floor d; max_versions_per_path := max_versions_per_path d; history_limits := history_limits d; history_usage := history_usage d;
     history_accounting_exact := history_accounting_exact d; compaction_forecast := forecast; compactable := compactable d; reclaim_thresholds := reclaim_thresholds d |}.

Definition set_thresholds (c : gmap DocumentPath CommitVersion) (t : gset (CommitVersion * DocumentPath)) (d : Documents) : Documents :=
  {| history := history d; current_version := current_version d; last_commit_time := last_commit_time d; commit_times := commit_times d; compaction_floor := compaction_floor d;
     capacity_floor := capacity_floor d; max_versions_per_path := max_versions_per_path d; history_limits := history_limits d; history_usage := history_usage d;
     history_accounting_exact := history_accounting_exact d; compaction_forecast := compaction_forecast d; compactable := c; reclaim_thresholds := t |}.

(** ** Reads *)

Definition newest (vs : Versions) : option RetainedDocument := v ← last vs; v.2.

(** The newest version at or before [v]. *)
Definition version_before (vs : Versions) (v : CommitVersion) : option (CommitVersion * option RetainedDocument) := last (filter (fun e => e.1 <= v) vs).

Definition get (d : Documents) (p : DocumentPath) : option Document := document <$> (vs ← history d !! p; newest vs).
Definition get_at (d : Documents) (p : DocumentPath) (v : CommitVersion) : option Document := document <$> (vs ← history d !! p; e ← version_before vs v; e.2).

(** A read at a version, or of the latest one: [match version { Some(version) => self.get_at(..), None => self.get(..) }]. *)
Definition read (d : Documents) (at_ : option CommitVersion) (p : DocumentPath) : option Document := match at_ with Some v => get_at d p v | None => get d p end.

Definition time_at_or_before (at_ : LogicalInstant) (e : CommitVersion * LogicalInstant) : bool := e.2 <=? at_.

Definition version_at (d : Documents) (at_ : LogicalInstant) : CommitVersion :=
  match partition_point (time_at_or_before at_) (commit_times d) with
  | O => compaction_floor d
  | S i => from_option fst (compaction_floor d) (commit_times d !! i)
  end.

Definition version_at_retained (d : Documents) (at_ : LogicalInstant) : option CommitVersion :=
  if (0 <? compaction_floor d) && match head (commit_times d) with None => true | Some (_, t) => at_ <? t end then None else Some (version_at d at_).

Definition is_retained (d : Documents) (v : CommitVersion) : bool := (compaction_floor d <=? v) && (v <=? current_version d).

Definition retained_versions (d : Documents) : nat := list_sum (map (fun e => length e.2) (btree_map_iter (history d))).

Definition oldest_retained_commit_time (d : Documents) : option LogicalInstant := snd <$> head (commit_times d).

Definition read_time (d : Documents) (now : LogicalInstant) : LogicalInstant :=
  match last_commit_time d with Some last => if now <? last then last else now | None => now end.

(** Microsecond-aligned and strictly after the last commit; the additions are those of [i128]. *)
Definition next_commit_time (d : Documents) (now : LogicalInstant) : LogicalInstant :=
  let aligned_now := wrapping i128 (now - now mod 1000) in
  match last_commit_time d with Some last => if aligned_now <=? last then wrapping i128 (last + 1000) else aligned_now | None => aligned_now end.

(** ** The roots of retention *)

Definition oldest_read (now : LogicalInstant) : LogicalInstant := saturating i128 (now - READ_TIME_RETENTION_SECONDS * 1000000000).

(** [oldest_transaction] is the least version that an active transaction reads at. *)
Definition retention_floor (d : Documents) (oldest_transaction : option CommitVersion) (now : LogicalInstant) : CommitVersion :=
  let floor := Z.max (version_at d (oldest_read now)) (capacity_floor d) in
  let floor := match oldest_transaction with Some v => Z.min floor v | None => floor end in
  Z.min (Z.max floor (capacity_floor d)) (current_version d).

Definition projected_retention_floor (d : Documents) (oldest_transaction : option CommitVersion) (projected_capacity_floor projected_version : CommitVersion) (now : LogicalInstant) : CommitVersion :=
  let floor := Z.max (version_at d (oldest_read now)) projected_capacity_floor in
  let floor := match oldest_transaction with Some v => Z.min floor v | None => floor end in
  Z.min (Z.max floor projected_capacity_floor) projected_version.

(** ** The index of what a compaction can reclaim *)

(** The floor from which a compaction drops something of a path. *)
Definition reclaim_threshold (vs : Versions) : option CommitVersion :=
  match vs !! 1%nat with
  | Some (v, _) => Some v
  | None => match vs with [(v, None)] => Some v | _ => None end
  end.

Definition refresh_reclaim_threshold (p : DocumentPath) (d : Documents) : Documents :=
  let threshold := vs ← history d !! p; reclaim_threshold vs in
  if bool_decide (compactable d !! p = threshold) then d
  else
    let t := match compactable d !! p with Some old => reclaim_thresholds d ∖ {[(old, p)]} | None => reclaim_thresholds d end in
    let c := delete p (compactable d) in
    match threshold with
    | Some v => set_thresholds (<[p := v]> c) ({[(v, p)]} ∪ t) d
    | None => set_thresholds c t d
    end.

Fixpoint up_to (floor : CommitVersion) (l : list (CommitVersion * DocumentPath)) : list DocumentPath :=
  match l with (v, p) :: l => if floor <? v then [] else p :: up_to floor l | [] => [] end.

Definition reclaim_candidates (d : Documents) (floor : CommitVersion) : list DocumentPath :=
  let thresholds := btree_iter (reclaim_thresholds d) in
  match last thresholds with
  | Some (v, _) => if v <=? floor then map fst (btree_map_iter (compactable d)) else merge_sort ord_le (up_to floor thresholds)
  | None => merge_sort ord_le (up_to floor thresholds)
  end.

(** The paths that a compaction visits. *)
Definition candidates (d : Documents) (floor : CommitVersion) : list DocumentPath :=
  if history_accounting_exact d then reclaim_candidates d floor else map fst (btree_map_iter (compactable d)).

Definition record_capacity_pressure (p : DocumentPath) (d : Documents) : Documents :=
  match history d !! p with
  | None => d
  | Some vs =>
      if (length vs <=? max_versions_per_path d)%nat then d
      else set_floors (compaction_floor d) (Z.max (capacity_floor d) (from_option fst 0 (vs !! (length vs - max_versions_per_path d)%nat))) d
  end.

(** ** Accounting *)

Definition with_commit_times (u : HistoryUsage) (count bytes : Z) : HistoryUsage :=
  {| live_document_bytes := live_document_bytes u; historical_document_bytes := historical_document_bytes u; path_and_index_bytes := path_and_index_bytes u;
     version_metadata_bytes := version_metadata_bytes u; tombstone_bytes := tombstone_bytes u; commit_time_bytes := bytes; total_bytes := total_bytes u;
     u_versions := u_versions u; u_tombstones := u_tombstones u; u_paths := u_paths u; u_commit_times := count |}.

Definition checked_history_recount (d : Documents) : HistoryUsage * bool :=
  let '(usage, exact) := fold_left (fun '(usage, exact) '(p, vs) => let path_usage := history_path_usage p vs in (add_history_usage usage path_usage, exact && unsaturated path_usage))
    (btree_map_iter (history d)) (no_usage, true) in
  let count := Z.of_nat (length (commit_times d)) in
  let usage := finish_history_usage (with_commit_times usage count (saturating u64 (count * HISTORY_COMMIT_TIME_BYTES))) in
  (usage, exact && unsaturated usage).

Definition rebuild_history_usage (d : Documents) : Documents := let '(usage, exact) := checked_history_recount d in set_usage usage exact d.

(** ** Compaction *)

Fixpoint drop_while {A} (f : A -> bool) (l : list A) : list A :=
  match l with x :: l' => if f x then drop_while f l' else l | [] => [] end.

(** The commit times of the versions below the floor are popped off the front. *)
Definition drop_commit_times (floor : CommitVersion) (d : Documents) : Documents :=
  let times := drop_while (fun e => e.1 <? floor) (commit_times d) in
  let removed := Z.of_nat (length (commit_times d) - length times) in
  let '(count, exact) := certified_history_sub (u_commit_times (history_usage d)) removed (history_accounting_exact d) in
  let removed_bytes := checked u64 (removed * HISTORY_COMMIT_TIME_BYTES) in
  let exact := exact && bool_decide (is_Some removed_bytes) in
  let '(bytes, exact) := certified_history_sub (commit_time_bytes (history_usage d)) (default (int_max u64) removed_bytes) exact in
  set_usage (finish_history_usage (with_commit_times (history_usage d) count bytes)) exact (set_times (current_version d) (last_commit_time d) times d).

(** [match h { [] => true, [(v, None)] => *v <= floor, _ => false }] *)
Definition emptied (vs : Versions) (floor : CommitVersion) : bool := match vs with [] => true | _ => dead vs floor end.

(** The loop of [compact]: the documents, the paths removed and the changes of usage, each from what to what. *)
Record Compaction := { c_docs : Documents; removed_paths : list DocumentPath; usage_changes : list (HistoryUsage * HistoryUsage) }.

Definition compact_path (prefix_accounting : bool) (floor : CommitVersion) (c : Compaction) (p : DocumentPath) : Compaction :=
  let d := c_docs c in
  match history d !! p with
  | None => {| c_docs := refresh_reclaim_threshold p d; removed_paths := removed_paths c; usage_changes := usage_changes c |}
  | Some vs =>
      let kept := drop (floor_cut vs floor) vs in
      if prefix_accounting then
        if (floor_cut vs floor =? 0)%nat && negb (emptied kept floor)
        then {| c_docs := refresh_reclaim_threshold p d; removed_paths := removed_paths c; usage_changes := usage_changes c |}
        else
          let changes := usage_changes c ++ [(history_path_reclaim_unsaturated p vs floor, no_usage)] in
          if emptied kept floor
          then {| c_docs := refresh_reclaim_threshold p (set_history (delete p (history d)) d); removed_paths := removed_paths c ++ [p]; usage_changes := changes |}
          else {| c_docs := refresh_reclaim_threshold p (set_history (<[p := kept]> (history d)) d); removed_paths := removed_paths c; usage_changes := changes |}
      else
        if emptied kept floor
        then {| c_docs := refresh_reclaim_threshold p (set_history (delete p (history d)) d); removed_paths := removed_paths c ++ [p];
                usage_changes := usage_changes c ++ [(history_path_usage p vs, no_usage)] |}
        else {| c_docs := refresh_reclaim_threshold p (set_history (<[p := kept]> (history d)) d); removed_paths := removed_paths c;
                usage_changes := usage_changes c ++ [(history_path_usage p vs, history_path_usage p kept)] |}
  end.

Definition change_usage (d : Documents) (change : HistoryUsage * HistoryUsage) : Documents :=
  set_usage (add_history_usage (subtract_history_usage (history_usage d) change.1) change.2)
    (history_accounting_exact d && checked_history_change (history_usage d) change.1 change.2) d.

(** [compact] once the transactions are pruned and the floor is known; the paths removed leave the scope indexes. *)
Definition compact_to (floor : CommitVersion) (d : Documents) : Documents * list DocumentPath :=
  if floor <=? compaction_floor d then (d, [])
  else
    let d := drop_commit_times floor (set_floors floor (capacity_floor d) (set_forecast None d)) in
    let prefix_accounting := history_accounting_exact d in
    let c := fold_left (compact_path prefix_accounting floor) (candidates d floor) {| c_docs := d; removed_paths := []; usage_changes := [] |} in
    (fold_left change_usage (usage_changes c) (c_docs c), removed_paths c).

(** ** Well-formed histories *)

(** The versions of a path: strictly increasing, no later than [top], each holding a document of that path and version. *)
Definition entry_ok (top : CommitVersion) (p : DocumentPath) (vs : Versions) : Prop :=
  vs <> [] /\ StronglySorted (fun a b => a.1 < b.1) vs /\
  Forall (fun e => 0 < e.1 <= top /\ forall r, e.2 = Some r -> path (document r) = p /\ version (document r) = e.1 /\ 0 <= logical_bytes r) vs.

(** What a compaction keeps of a path. *)
Definition compacted (floor : CommitVersion) (vs : Versions) : option Versions :=
  let kept := drop (floor_cut vs floor) vs in if emptied kept floor then None else Some kept.

Lemma partition_point_split {A} (f : A -> bool) l : exists l1 l2, l = l1 ++ l2 /\ partition_point f l = length l1 /\ Forall (fun x => f x = true) l1 /\ forall x, head l2 = Some x -> f x = false.
Proof.
  induction l as [|x l (l1 & l2 & -> & Hk & H1 & H2)]; [by exists [], []|]. destruct (f x) eqn:E.
  - exists (x :: l1), l2. cbn. rewrite E, Hk. split_and!; [done..|by constructor|done].
  - exists [], (x :: l1 ++ l2). cbn. rewrite E. split_and!; [done..|by intros y [= <-]].
Qed.

Lemma sorted_app_lt (l m : Versions) : StronglySorted (fun a b => a.1 < b.1) (l ++ m) -> forall a b, a ∈ l -> b ∈ m -> a.1 < b.1.
Proof. intros Hs a b Ha Hb. apply StronglySorted_app in Hs as (H & _ & _). by apply H. Qed.

(** The cut at a floor: what is dropped and, first of what is kept, the newest version at or before the floor. *)
Lemma floor_cut_spec vs floor : StronglySorted (fun a b => a.1 < b.1) vs ->
  floor_cut vs floor = 0%nat \/
  exists dropped e kept, vs = dropped ++ e :: kept /\ floor_cut vs floor = length dropped /\ e.1 <= floor /\ forall x, x ∈ kept -> floor < x.1.
Proof.
  intros Hs. unfold floor_cut. destruct (partition_point_split (at_or_before floor) vs) as (l1 & l2 & -> & -> & H1 & H2).
  destruct (exists_last_dec l1) as [->|(dropped & e & ->)]; [by left|]. right. exists dropped, e, l2. apply Forall_app in H1 as [_ [He _]%Forall_cons]. unfold at_or_before in He.
  split_and!; [by rewrite <- app_assoc|rewrite length_app; cbn; lia|lia|]. intros x Hx. destruct l2 as [|y l2]; [by apply not_elem_of_nil in Hx|].
  specialize (H2 y eq_refl). unfold at_or_before in H2. apply Z.leb_gt in H2. apply elem_of_cons in Hx as [->|Hx]; [done|].
  apply StronglySorted_app_1_r, StronglySorted_cons in Hs as [Hy _]. rewrite Forall_forall in Hy. specialize (Hy x Hx). cbn in Hy. lia.
Qed.

Lemma version_before_drop dropped e kept v : StronglySorted (fun a b => a.1 < b.1) (dropped ++ e :: kept) -> e.1 <= v -> version_before (dropped ++ e :: kept) v = version_before (e :: kept) v.
Proof. intros Hs He. unfold version_before. rewrite filter_app, last_app. rewrite filter_cons_True by done. destruct (last (e :: _)) eqn:E; [done|]. by apply last_None in E. Qed.

Lemma newest_drop dropped e kept : newest (dropped ++ e :: kept) = newest (e :: kept).
Proof. unfold newest. rewrite last_app. destruct (last (e :: kept)) eqn:E; [done|]. by apply last_None in E. Qed.

(** Compaction at a floor is invisible to every read at the floor or later. *)
Lemma compacted_reads top p vs floor v : entry_ok top p vs -> floor <= v ->
  (kept ← compacted floor vs; e ← version_before kept v; e.2) = (e ← version_before vs v; e.2) /\ (kept ← compacted floor vs; newest kept) = newest vs.
Proof.
  intros (Hne & Hs & _) Hv. unfold compacted.
  assert (Hkept : version_before (drop (floor_cut vs floor) vs) v = version_before vs v /\ newest (drop (floor_cut vs floor) vs) = newest vs /\ drop (floor_cut vs floor) vs <> []).
  { destruct (floor_cut_spec vs floor Hs) as [->|(dropped & e & kept & -> & -> & He & _)]; [done|]. rewrite drop_app_length. split_and!; [symmetry; by apply version_before_drop, Z.le_trans with floor|symmetry; apply newest_drop|done]. }
  destruct Hkept as (H1 & H2 & H3). destruct (emptied _ _) eqn:E; [|cbn; by rewrite H1, H2].
  rewrite <- H1, <- H2. destruct (drop _ _) as [|[v0 [r|]] [|]]; try done. unfold emptied, dead in E. cbn. unfold version_before, newest. cbn.
  rewrite decide_True by (cbn; lia). done.
Qed.

Lemma compacted_ok top p vs floor kept : entry_ok top p vs -> compacted floor vs = Some kept -> entry_ok top p kept.
Proof.
  intros (Hne & Hs & Hall). unfold compacted. destruct (emptied _ _) eqn:E; [done|]. intros [= <-]. split_and!.
  - intros Hd. by rewrite Hd in E.
  - rewrite <- (take_drop (floor_cut vs floor) vs) in Hs. by apply StronglySorted_app_1_r in Hs.
  - by apply Forall_drop.
Qed.

(** Nothing is dropped below the reclaim threshold. *)
Lemma compacted_threshold vs floor : vs <> [] -> StronglySorted (fun a b => a.1 < b.1) vs ->
  compacted floor vs = Some vs <-> forall v, reclaim_threshold vs = Some v -> floor < v.
Proof.
  intros Hne Hs. unfold compacted. destruct vs as [|[v1 o1] [|[v2 o2] vs]]; [done| |].
  - assert (Hcut : floor_cut [(v1, o1)] floor = 0%nat) by (unfold floor_cut; cbn; by destruct (at_or_before floor (v1, o1))). rewrite Hcut, drop_0. destruct o1 as [r|]; [by split|].
    cbn. destruct (Z.leb_spec v1 floor); (split; [try done; by intros _ v [= <-]|]); [|done]. intros H'. specialize (H' v1 eq_refl). lia.
  - change (reclaim_threshold _) with (Some v2). destruct (Z.le_gt_cases v2 floor) as [Hle|Hgt].
    + split; [|intros H; specialize (H v2 eq_refl); lia]. intros H. exfalso. destruct (emptied _ _); [done|]. injection H as H. apply (f_equal length) in H. rewrite length_drop in H.
      assert (Hcut : (0 < floor_cut ((v1, o1) :: (v2, o2) :: vs) floor)%nat); [|cbn [length] in H; lia].
      apply StronglySorted_cons in Hs as [H12 _]. rewrite Forall_forall in H12. specialize (H12 (v2, o2) ltac:(by left)). cbn in H12.
      assert (H1 : at_or_before floor (v1, o1) = true) by (unfold at_or_before; cbn; lia). assert (H2 : at_or_before floor (v2, o2) = true) by (unfold at_or_before; cbn; lia).
      unfold floor_cut. cbn [partition_point]. rewrite H1, H2. lia.
    + split; [by intros _ v [= <-]|]. intros _. assert (Hcut : floor_cut ((v1, o1) :: (v2, o2) :: vs) floor = 0%nat).
      { unfold floor_cut. cbn [partition_point]. assert (Hf : at_or_before floor (v2, o2) = false) by (unfold at_or_before; cbn; lia). rewrite Hf. destruct (at_or_before floor (v1, o1)); done. }
      rewrite Hcut, drop_0. by destruct o1.
Qed.

(** ** The index of reclaimable paths *)

(** The thresholds are those of the history; the ordered set is the inverse of the map. *)
Definition index_ok (d : Documents) : Prop :=
  (forall p, compactable d !! p = (vs ← history d !! p; reclaim_threshold vs)) /\ (forall v p, (v, p) ∈ reclaim_thresholds d <-> compactable d !! p = Some v).

Definition same_but_index (d d' : Documents) : Prop := d' = set_thresholds (compactable d') (reclaim_thresholds d') d.

(** After the versions of [p] changed, refreshing its threshold restores the index. *)
Lemma refresh_index p d : (forall q, q <> p -> compactable d !! q = (vs ← history d !! q; reclaim_threshold vs)) -> (forall v q, (v, q) ∈ reclaim_thresholds d <-> compactable d !! q = Some v) ->
  index_ok (refresh_reclaim_threshold p d) /\ same_but_index d (refresh_reclaim_threshold p d).
Proof.
  intros Hother Hset. unfold refresh_reclaim_threshold. set (threshold := vs ← history d !! p; reclaim_threshold vs). case_bool_decide as Heq.
  { split; [|by destruct d]. split; [|done]. intros q. destruct (decide (q = p)) as [->|]; auto. }
  set (t := match compactable d !! p with Some old => reclaim_thresholds d ∖ {[(old, p)]} | None => reclaim_thresholds d end).
  assert (Ht : forall v q, (v, q) ∈ t <-> q <> p /\ compactable d !! q = Some v).
  { intros v q. subst t. destruct (compactable d !! p) as [old|] eqn:Hold.
    - rewrite elem_of_difference, Hset, not_elem_of_singleton. split; [|naive_solver]. intros [Hq Hne]. split; [|done]. intros ->. destruct Hne. congruence.
    - rewrite Hset. split; [|naive_solver]. intros Hq. split; [|done]. intros ->. congruence. }
  destruct threshold as [v|] eqn:Hv; (split; [split|]); try done; cbn.
  - intros q. destruct (decide (q = p)) as [->|Hq]; [by rewrite lookup_insert_eq|rewrite lookup_insert_ne, lookup_delete_ne by done; auto].
  - intros v' q. rewrite elem_of_union, elem_of_singleton, Ht. destruct (decide (q = p)) as [->|Hq]; [rewrite lookup_insert_eq|rewrite lookup_insert_ne, lookup_delete_ne by done]; naive_solver.
  - intros q. destruct (decide (q = p)) as [->|Hq]; [by rewrite lookup_delete_eq|rewrite lookup_delete_ne by done; auto].
  - intros v' q. rewrite Ht. destruct (decide (q = p)) as [->|Hq]; [rewrite lookup_delete_eq|rewrite lookup_delete_ne by done]; naive_solver.
Qed.

Lemma elem_of_up_to floor l p : StronglySorted ord_lt l -> p ∈ up_to floor l <-> exists v, (v, p) ∈ l /\ v <= floor.
Proof.
  induction l as [|[v q] l IH]; [intros _; split; [by intros ?%not_elem_of_nil|by intros (? & ?%not_elem_of_nil & _)]|]. rewrite StronglySorted_cons. intros [Hhead Hs]. cbn [up_to]. destruct (Z.ltb_spec floor v) as [Hlt|Hle].
  - split; [by intros ?%not_elem_of_nil|]. intros (v' & [[= -> ->]|Hin]%elem_of_cons & Hle); [lia|]. rewrite Forall_forall in Hhead. specialize (Hhead _ Hin). unfold ord_lt in Hhead. cbn in Hhead. unfold pair_cmp in Hhead. cbn in Hhead.
    destruct (Z.compare_spec v v'); [lia|lia|done].
  - rewrite elem_of_cons, IH by done. split.
    + intros [->|(v' & Hin & Hv')]; [exists v; split; [by left|done]|exists v'; split; [by right|done]].
    + intros (v' & [[= -> ->]|Hin]%elem_of_cons & Hv'); [by left|right; by exists v'].
Qed.

Lemma up_to_sublist floor l : sublist (up_to floor l) (map snd l).
Proof. induction l as [|[v p] l IH]; [constructor|]. cbn. destruct (floor <? v); [apply sublist_nil_l|by apply sublist_skip]. Qed.

(** The candidates of a compaction are the paths with a threshold at or before the floor, in path order and without repetition. *)
Lemma reclaim_candidates_spec d floor : index_ok d ->
  (forall p, p ∈ reclaim_candidates d floor <-> exists v, compactable d !! p = Some v /\ v <= floor) /\ NoDup (reclaim_candidates d floor).
Proof.
  intros [_ Hset]. unfold reclaim_candidates. pose proof (btree_iter_sorted (reclaim_thresholds d)) as Hs. set (l := btree_iter (reclaim_thresholds d)) in *.
  assert (Hl : forall v p, (v, p) ∈ l <-> compactable d !! p = Some v) by (intros v p; subst l; by rewrite elem_of_btree_iter).
  assert (Hsorted : (forall p, p ∈ merge_sort ord_le (up_to floor l) <-> exists v, compactable d !! p = Some v /\ v <= floor) /\ NoDup (merge_sort ord_le (up_to floor l))).
  { split.
    - intros p. rewrite merge_sort_Permutation, elem_of_up_to by done. by setoid_rewrite Hl.
    - rewrite merge_sort_Permutation. eapply sublist_NoDup; [|apply up_to_sublist]. assert (Hnd : NoDup l) by apply NoDup_btree_iter. clear Hs. clearbody l. revert Hl Hnd.
      generalize (compactable d) as c. induction l as [|[v p] l' IH]; intros c Hl Hnd; [constructor|]. apply NoDup_cons in Hnd as [Hn Hnd]. cbn. constructor.
      + intros ([v' p'] & -> & Hin)%list_elem_of_fmap. assert (c !! p' = Some v') by (apply Hl; by right). assert (c !! p' = Some v) by (apply Hl; by left). assert (v' = v) as -> by congruence. done.
      + apply (IH (delete p c)); [|done]. intros v' q. destruct (decide (q = p)) as [->|Hq].
        * rewrite lookup_delete_eq. split; [|done]. intros Hin. assert (c !! p = Some v') by (apply Hl; by right). assert (c !! p = Some v) by (apply Hl; by left). assert (v' = v) as -> by congruence. done.
        * rewrite lookup_delete_ne, <- Hl by done. rewrite elem_of_cons. split; [by right|]. by intros [[= -> ->]|]. }
  destruct (last l) as [[v q]|] eqn:Hlast; [|done]. destruct (Z.leb_spec v floor) as [Hle|]; [|done]. split.
  - intros p. rewrite btree_map_iter_keys, elem_of_btree_iter, elem_of_dom. split; [|by intros (v' & -> & _)]. intros [v' Hv']. exists v'. split; [done|]. apply Hl in Hv'.
    apply last_Some in Hlast as [l' Hl']. rewrite Hl' in Hv', Hs. apply elem_of_app in Hv' as [Hin|[= -> ->]%list_elem_of_singleton]; [|done].
    assert (Hlt : ord_lt (v', p) (v, q)) by (apply (StronglySorted_app_1_elem_of _ _ _ _ _ Hs); [done|by apply list_elem_of_singleton]).
    unfold ord_lt in Hlt. cbn in Hlt. unfold pair_cmp in Hlt. cbn in Hlt. destruct (Z.compare_spec v' v); [lia|lia|done].
  - rewrite btree_map_iter_keys. apply NoDup_btree_iter.
Qed.

(** ** The charge of the retained history *)

Definition sum_usage (l : list HistoryUsage) : HistoryUsage := foldr plus_usage no_usage l.

Definition entry_charge (e : DocumentPath * Versions) : HistoryUsage := path_charge e.1 (history_document_sizes e.2).

Definition history_charge (h : gmap DocumentPath Versions) : HistoryUsage := sum_usage (map entry_charge (map_to_list h)).

Definition times_charge (n : Z) : HistoryUsage := with_commit_times no_usage n (24 * n).

Definition documents_charge (d : Documents) : HistoryUsage := plus_usage (history_charge (history d)) (times_charge (Z.of_nat (length (commit_times d)))).

(** The cached usage, while it is certified, is what the retained history is charged. *)
Definition usage_ok (d : Documents) : Prop := history_accounting_exact d = true -> history_usage d = bounded (documents_charge d) /\ below_max (documents_charge d).

Lemma sum_usage_cons x l : sum_usage (x :: l) = plus_usage x (sum_usage l).
Proof. done. Qed.

Lemma sum_usage_total l : total_bytes (sum_usage l) = 0.
Proof. by destruct l. Qed.

Lemma sum_usage_perm l m : l ≡ₚ m -> sum_usage l = sum_usage m.
Proof.
  induction 1 as [|x l m _ IH|x y l|l m k _ IH1 _ IH2]; rewrite ?sum_usage_cons; [done|by rewrite IH| |congruence]. rewrite <- !plus_assoc. by rewrite (plus_comm x y).
Qed.

Lemma sum_usage_app l m : sum_usage (l ++ m) = plus_usage (sum_usage l) (sum_usage m).
Proof.
  induction l as [|x l IH]; cbn [app]; [|by rewrite !sum_usage_cons, IH, plus_assoc]. change (sum_usage []) with no_usage. by rewrite plus_comm, plus_none by apply sum_usage_total.
Qed.

Lemma sum_usage_nonneg l : Forall nonneg_usage l -> nonneg_usage (sum_usage l).
Proof. induction 1; rewrite ?sum_usage_cons; [repeat constructor; done|by apply plus_nonneg]. Qed.

Lemma plus_total a b : total_bytes (plus_usage a b) = 0.
Proof. done. Qed.

Lemma path_charge_total p sizes : total_bytes (path_charge p sizes) = 0.
Proof. unfold path_charge. by destruct (last sizes). Qed.

Lemma history_charge_delete h p vs : h !! p = Some vs -> history_charge h = plus_usage (entry_charge (p, vs)) (history_charge (delete p h)).
Proof.
  intros Hp. unfold history_charge. rewrite <- (insert_delete_id h p vs Hp) at 1. rewrite (sum_usage_perm _ (map entry_charge ((p, vs) :: map_to_list (delete p h)))); [done|].
  apply Permutation_map, map_to_list_insert, lookup_delete_eq.
Qed.

Lemma history_charge_insert h p vs : history_charge (<[p := vs]> h) = plus_usage (entry_charge (p, vs)) (history_charge (delete p h)).
Proof. rewrite (history_charge_delete _ p vs) by apply lookup_insert_eq. by rewrite delete_insert_eq. Qed.

Lemma entry_sizes_ok top p vs : entry_ok top p vs -> Forall size_ok (history_document_sizes vs).
Proof.
  intros (_ & _ & H). unfold history_document_sizes. rewrite Forall_map. eapply Forall_impl; [exact H|]. intros [v [r|]] [_ Hr]; cbn; unfold size_ok; cbn; [|done]. by apply (Hr r).
Qed.

Definition entries_ok (top : CommitVersion) (h : gmap DocumentPath Versions) : Prop := forall p vs, h !! p = Some vs -> entry_ok top p vs.

Lemma history_charge_nonneg top h : entries_ok top h -> nonneg_usage (history_charge h).
Proof.
  intros H. apply sum_usage_nonneg, Forall_map, Forall_forall. intros [p vs] Hin%elem_of_map_to_list. apply path_charge_nonneg. by apply (entry_sizes_ok top p), H.
Qed.

Lemma times_charge_nonneg n : 0 <= n -> nonneg_usage (times_charge n).
Proof. intros Hn. unfold nonneg_usage, times_charge. each_component; lia. Qed.

(** What a compaction reclaims of a path, without bounds. *)
Definition reclaim_charge (p : DocumentPath) (vs : Versions) (floor : CommitVersion) : HistoryUsage :=
  if dead (drop (floor_cut vs floor) vs) floor then entry_charge (p, vs) else older_charge (history_document_sizes (take (floor_cut vs floor) vs)).

Definition kept_charge (p : DocumentPath) (kept : option Versions) : HistoryUsage := from_option (fun vs => entry_charge (p, vs)) no_usage kept.

Lemma emptied_dead vs floor : vs <> [] -> emptied (drop (floor_cut vs floor) vs) floor = dead (drop (floor_cut vs floor) vs) floor.
Proof.
  intros Hne. destruct (drop (floor_cut vs floor) vs) as [|e kept] eqn:E; [|done]. exfalso. apply (f_equal length) in E. rewrite length_drop in E. cbn in E.
  unfold floor_cut in E. pose proof (partition_point_le (at_or_before floor) vs). destruct vs; [done|cbn [length] in *; lia].
Qed.

Lemma reclaim_splits p vs floor : vs <> [] -> entry_charge (p, vs) = plus_usage (reclaim_charge p vs floor) (kept_charge p (compacted floor vs)).
Proof.
  intros Hne. unfold compacted, reclaim_charge. rewrite (emptied_dead vs floor Hne). pose proof (emptied_dead vs floor Hne) as He. destruct (dead _ _) eqn:E; cbn [kept_charge from_option].
  - by rewrite plus_none by apply path_charge_total.
  - unfold entry_charge. cbn [fst snd]. rewrite <- (take_drop (floor_cut vs floor) vs) at 1. unfold history_document_sizes at 1. rewrite map_app. apply path_charge_app.
    intros Hnil. apply map_eq_nil in Hnil. by rewrite Hnil in He.
Qed.

Lemma reclaim_nonneg top p vs floor : entry_ok top p vs -> nonneg_usage (reclaim_charge p vs floor).
Proof.
  intros H%entry_sizes_ok. unfold reclaim_charge. destruct (dead _ _); [by apply path_charge_nonneg|]. apply older_nonneg. rewrite sizes_take. by apply Forall_take.
Qed.

Lemma reclaim_bounded top p vs floor : entry_ok top p vs -> history_path_reclaim_unsaturated p vs floor = bounded (reclaim_charge p vs floor).
Proof.
  intros H%entry_sizes_ok. unfold history_path_reclaim_unsaturated, reclaim_charge. destruct (dead _ _); [by apply path_usage_bounded|]. apply dropped_bounded. rewrite sizes_take. by apply Forall_take.
Qed.

(** ** Compaction *)

(** Only the history and its index differ. *)
Definition same_rest (d d' : Documents) : Prop := d' = set_thresholds (compactable d') (reclaim_thresholds d') (set_history (history d') d).

Lemma same_rest_refl d : same_rest d d.
Proof. by destruct d. Qed.

Lemma same_rest_trans a b c : same_rest a b -> same_rest b c -> same_rest a c.
Proof. unfold same_rest. intros -> ->. done. Qed.

Definition bounded_changes (rs : list HistoryUsage) : list (HistoryUsage * HistoryUsage) := map (fun r => (bounded r, no_usage)) rs.

Definition gone (floor : CommitVersion) (h : gmap DocumentPath Versions) (p : DocumentPath) : list DocumentPath :=
  match h !! p with Some vs => match compacted floor vs with Some _ => [] | None => [p] end | None => [] end.

Lemma set_history_same d : set_history (history d) d = d.
Proof. by destruct d. Qed.

Lemma refresh_changed d p h : index_ok d -> (forall q, q <> p -> h !! q = history d !! q) ->
  index_ok (refresh_reclaim_threshold p (set_history h d)) /\ same_rest d (refresh_reclaim_threshold p (set_history h d)) /\ history (refresh_reclaim_threshold p (set_history h d)) = h.
Proof.
  intros [H1 H2] Hh. destruct (refresh_index p (set_history h d)) as [Hok Hsame]; [intros q Hq; cbn; rewrite Hh by done; apply H1|exact H2|].
  split; [done|]. unfold same_but_index in Hsame. rewrite Hsame. by split.
Qed.

Lemma reclaim_total p vs floor : total_bytes (reclaim_charge p vs floor) = 0.
Proof. unfold reclaim_charge. destruct (dead _ _); [apply path_charge_total|done]. Qed.

(** The history without what a compaction drops of [p]. *)
Definition compact_at (floor : CommitVersion) (p : DocumentPath) (h : gmap DocumentPath Versions) : gmap DocumentPath Versions := partial_alter (fun o => vs ← o; compacted floor vs) p h.

Lemma lookup_compact_at floor p q h : compact_at floor p h !! q = if decide (q = p) then (vs ← h !! p; compacted floor vs) else h !! q.
Proof. unfold compact_at. destruct (decide (q = p)) as [->|]; [by rewrite lookup_partial_alter_eq|by rewrite lookup_partial_alter_ne]. Qed.

Lemma compact_at_form floor p h vs : h !! p = Some vs -> compact_at floor p h = match compacted floor vs with Some kept => <[p := kept]> h | None => delete p h end.
Proof.
  intros Hp. apply map_eq. intros q. rewrite lookup_compact_at, Hp. cbn. destruct (compacted floor vs); destruct (decide (q = p)) as [->|];
    by rewrite ?lookup_insert_eq, ?lookup_delete_eq, ?lookup_insert_ne, ?lookup_delete_ne.
Qed.

Lemma compact_at_same floor p h vs : h !! p = Some vs -> compacted floor vs = Some vs -> compact_at floor p h = h.
Proof. intros Hp Hc. rewrite (compact_at_form _ _ _ vs Hp), Hc. by apply insert_id. Qed.

Lemma compact_at_charge floor p h vs : h !! p = Some vs -> vs <> [] -> history_charge h = plus_usage (reclaim_charge p vs floor) (history_charge (compact_at floor p h)).
Proof.
  intros Hp Hne. rewrite (history_charge_delete h p vs Hp), (reclaim_splits p vs floor Hne), plus_assoc, (compact_at_form floor p h vs Hp). f_equal.
  destruct (compacted floor vs); cbn [kept_charge from_option]; [by rewrite history_charge_insert|]. by rewrite plus_comm, plus_none by apply sum_usage_total.
Qed.

(** Nothing to drop. *)
Lemma compacted_same vs floor : vs <> [] -> compacted floor vs = Some vs <-> (floor_cut vs floor =? 0)%nat && negb (emptied (drop (floor_cut vs floor) vs) floor) = true.
Proof.
  intros Hne. rewrite andb_true_iff, Nat.eqb_eq, negb_true_iff. unfold compacted. destruct (emptied _ _) eqn:E; [split; [done|by intros []]|]. split.
  - intros [= H]. split; [|done]. apply (f_equal length) in H. rewrite length_drop in H. unfold floor_cut in *. pose proof (partition_point_le (at_or_before floor) vs). destruct vs; [done|cbn [length] in *; lia].
  - intros [-> _]. by rewrite drop_0.
Qed.

(** The changes of usage that the loop records for a path. *)
Definition path_changes (prefix_accounting : bool) (floor : CommitVersion) (p : DocumentPath) (vs : Versions) : list (HistoryUsage * HistoryUsage) :=
  if prefix_accounting then if (floor_cut vs floor =? 0)%nat && negb (emptied (drop (floor_cut vs floor) vs) floor) then [] else [(bounded (reclaim_charge p vs floor), no_usage)]
  else [(history_path_usage p vs, from_option (history_path_usage p) no_usage (compacted floor vs))].

(** One path of the loop: it keeps what the definition of [compacted] keeps. *)
Lemma compact_path_form top prefix_accounting floor c p vs : history (c_docs c) !! p = Some vs -> entry_ok top p vs ->
  compact_path prefix_accounting floor c p =
  {| c_docs := refresh_reclaim_threshold p (set_history (compact_at floor p (history (c_docs c))) (c_docs c)); removed_paths := removed_paths c ++ gone floor (history (c_docs c)) p;
     usage_changes := usage_changes c ++ path_changes prefix_accounting floor p vs |}.
Proof.
  intros Hp Hok. pose proof Hok as (Hne & _ & _). pose proof (compacted_same vs floor Hne) as Hsame. unfold compact_path, path_changes, gone. rewrite Hp, (reclaim_bounded top) by done. destruct prefix_accounting.
  - destruct (_ && _) eqn:E.
    + assert (Hc : compacted floor vs = Some vs) by by apply Hsame. rewrite (compact_at_same floor p _ vs Hp Hc), Hc, !app_nil_r. by rewrite set_history_same.
    + rewrite (compact_at_form floor p _ vs Hp). unfold compacted in *. destruct (emptied _ _); [done|]. by rewrite app_nil_r.
  - rewrite (compact_at_form floor p _ vs Hp). unfold compacted. destruct (emptied _ _); [done|]. cbn. by rewrite app_nil_r.
Qed.

(** The history without what a compaction drops of the paths of [l]. *)
Definition compact_all (floor : CommitVersion) (l : list DocumentPath) (h : gmap DocumentPath Versions) : gmap DocumentPath Versions := fold_left (fun h p => compact_at floor p h) l h.

Lemma compact_at_ok top floor p h : entries_ok top h -> entries_ok top (compact_at floor p h).
Proof.
  intros H q vs. rewrite lookup_compact_at. destruct (decide (q = p)) as [->|]; [|apply H]. intros (vs0 & Hp & Hc)%bind_Some. by apply (compacted_ok top p vs0 floor), Hc; apply H.
Qed.

(** The loop over paths without repetition. *)
Lemma compact_loop top prefix_accounting floor l : forall c, NoDup l -> (forall p, p ∈ l -> is_Some (history (c_docs c) !! p)) -> entries_ok top (history (c_docs c)) -> index_ok (c_docs c) ->
  let c' := fold_left (compact_path prefix_accounting floor) l c in let h := history (c_docs c) in
  history (c_docs c') = compact_all floor l h /\ index_ok (c_docs c') /\ same_rest (c_docs c) (c_docs c') /\
  removed_paths c' = removed_paths c ++ flat_map (gone floor h) l /\
  (prefix_accounting = true -> exists rs, usage_changes c' = usage_changes c ++ bounded_changes rs /\ Forall nonneg_usage rs /\ history_charge h = plus_usage (sum_usage rs) (history_charge (history (c_docs c')))).
Proof.
  induction l as [|p l IH]; intros c Hnd Hin Hentries Hindex.
  { cbn. rewrite app_nil_r. split_and!; [done..|apply same_rest_refl|done|]. intros _. exists []. rewrite app_nil_r. split_and!; [done|constructor|]. by rewrite plus_comm, plus_none by apply sum_usage_total. }
  apply NoDup_cons in Hnd as [Hp Hnd]. destruct (Hin p ltac:(by left)) as [vs Hvs]. pose proof (Hentries p vs Hvs) as Hok. cbn [fold_left]. cbv zeta.
  rewrite (compact_path_form top prefix_accounting floor c p vs Hvs Hok). set (c1 := {| c_docs := _ |}).
  destruct (refresh_changed (c_docs c) p (compact_at floor p (history (c_docs c))) Hindex) as (H1 & H2 & H3); [intros q Hq; by rewrite lookup_compact_at, decide_False|].
  destruct (IH c1 Hnd) as (I1 & I2 & I3 & I4 & I5).
  { intros q Hq. cbn [c_docs c1]. rewrite H3, lookup_compact_at, decide_False by (intros ->; done). apply Hin. by right. }
  { cbn [c_docs c1]. rewrite H3. by apply compact_at_ok. }
  { done. }
  cbn [c_docs c1] in *. rewrite H3 in *. split_and!.
  - done.
  - done.
  - by apply (same_rest_trans _ _ _ H2).
  - rewrite I4. cbn [removed_paths c1 flat_map]. rewrite <- app_assoc. do 2 f_equal. rewrite !flat_map_concat_map. f_equal. apply map_ext_in. intros q Hq. unfold gone. rewrite lookup_compact_at, decide_False; [done|].
    intros ->. apply Hp. by apply list_elem_of_In.
  - intros Htrue. destruct (I5 Htrue) as (rs & R1 & R2 & R3). subst prefix_accounting. pose proof Hok as (Hne & _ & _).
    cbn [usage_changes c1] in R1. unfold path_changes in R1. pose proof (compact_at_charge floor p _ vs Hvs Hne) as Hcharge. pose proof (compacted_same vs floor Hne) as Hsame.
    destruct (_ && _) eqn:E.
    + exists rs. rewrite app_nil_r in R1. split_and!; [done..|]. rewrite <- R3. f_equal. symmetry. by apply (compact_at_same floor p _ vs); [|apply Hsame].
    + exists (reclaim_charge p vs floor :: rs). split_and!; [by rewrite R1, <- app_assoc|constructor; [by apply (reclaim_nonneg top)|done]|]. by rewrite sum_usage_cons, plus_assoc, <- R3.
Qed.

Lemma lookup_compact_all floor l : forall h q, NoDup l -> compact_all floor l h !! q = if decide (q ∈ l) then (vs ← h !! q; compacted floor vs) else h !! q.
Proof.
  induction l as [|p l IH]; intros h q Hnd; [by rewrite decide_False by apply not_elem_of_nil|]. apply NoDup_cons in Hnd as [Hp Hnd]. cbn [compact_all fold_left]. change (fold_left _ l ?h) with (compact_all floor l h).
  rewrite IH by done. destruct (decide (q ∈ l)) as [Hq|Hq].
  - rewrite (decide_True (P := q ∈ p :: l)) by by right. rewrite lookup_compact_at, decide_False; [done|]. by intros ->.
  - rewrite lookup_compact_at. destruct (decide (q = p)) as [->|Hne]; [by rewrite decide_True by by left|]. rewrite decide_False; [done|]. rewrite elem_of_cons. tauto.
Qed.

Lemma nothing_dropped floor d p vs : index_ok d -> history d !! p = Some vs -> vs <> [] -> StronglySorted (fun a b => a.1 < b.1) vs ->
  (forall v, compactable d !! p = Some v -> floor < v) -> compacted floor vs = Some vs.
Proof. intros [Hc _] Hp Hne Hs Hv. apply compacted_threshold; [done|done|]. intros v Hthr. apply Hv. by rewrite Hc, Hp. Qed.

(** Driven by its index, compaction keeps of every path what the definition of [compacted] keeps. *)
Lemma compact_all_candidates top d floor l : entries_ok top (history d) -> index_ok d -> NoDup l ->
  (forall p v, compactable d !! p = Some v -> v <= floor -> p ∈ l) -> compact_all floor l (history d) = omap (compacted floor) (history d).
Proof.
  intros Hentries Hindex Hnd Hl. apply map_eq. intros q. rewrite lookup_compact_all, lookup_omap by done. destruct (decide (q ∈ l)) as [|Hq]; [done|].
  destruct (history d !! q) as [vs|] eqn:Hvs; [|done]. cbn. symmetry. destruct (Hentries q vs Hvs) as (Hne & Hs & _). apply (nothing_dropped floor d q); [done..|]. intros v Hv.
  destruct (Z.le_gt_cases v floor); [|lia]. destruct Hq. by apply (Hl q v).
Qed.

Lemma change_usage_fold rs : forall d u, nonneg_usage u -> Forall nonneg_usage rs -> history_accounting_exact d = true -> history_usage d = bounded (plus_usage u (sum_usage rs)) ->
  below_max (plus_usage u (sum_usage rs)) -> total_bytes u = 0 -> fold_left change_usage (bounded_changes rs) d = set_usage (bounded u) true d.
Proof.
  induction rs as [|r rs IH]; intros d u Hu Hrs Hexact Husage Hmax Ht; cbn [bounded_changes map fold_left].
  - change (sum_usage []) with no_usage in *. rewrite plus_none in Husage by done. rewrite <- Husage, <- Hexact. by destruct d.
  - apply Forall_cons in Hrs as [Hr Hrs]. rewrite sum_usage_cons in *. assert (Hsum : nonneg_usage (sum_usage rs)) by by apply sum_usage_nonneg.
    assert (Hassoc : plus_usage u (plus_usage r (sum_usage rs)) = plus_usage (plus_usage u (sum_usage rs)) r) by (rewrite (plus_comm r), plus_assoc; done). rewrite Hassoc in *.
    assert (Hpart : nonneg_usage (plus_usage u (sum_usage rs))) by by apply plus_nonneg.
    assert (Hstep : change_usage d (bounded r, no_usage) = set_usage (bounded (plus_usage u (sum_usage rs))) true d).
    { unfold change_usage. cbn [fst snd]. rewrite Husage, Hexact, checked_change_exact, subtract_bounded by first [done|apply unsaturated_bounded; [by apply plus_nonneg|done]]. f_equal.
      rewrite <- bounded_none at 1. rewrite add_bounded by (done || (repeat constructor; done)). by rewrite plus_none. }
    rewrite Hstep. change (map _ rs) with (bounded_changes rs). rewrite (IH _ u); [by destruct d|done|done|done|done| |done]. by apply below_max_plus in Hmax as [? _].
Qed.

(** ** Commit times *)

Lemma drop_while_map {A B} (g : A -> B) (f : B -> bool) l : map g (drop_while (fun x => f (g x)) l) = drop_while f (map g l).
Proof. induction l as [|x l IH]; [done|]. cbn. by destruct (f (g x)). Qed.

Lemma drop_while_suffix {A} (f : A -> bool) l : exists l', l = l' ++ drop_while f l.
Proof. induction l as [|x l [l' IH]]; [by exists []|]. cbn. destruct (f x); [exists (x :: l'); cbn; by f_equal|by exists []]. Qed.

Lemma drop_while_seqZ floor n : forall a, drop_while (fun v => v <? floor) (seqZ a (Z.of_nat n)) = seqZ (Z.max a floor) (a + Z.of_nat n - Z.max a floor).
Proof.
  induction n as [|n IH]; intros a.
  - rewrite (seqZ_nil a), (seqZ_nil (Z.max a floor)) by lia. done.
  - rewrite Nat2Z.inj_succ. rewrite seqZ_cons by lia. cbn [drop_while]. replace (Z.pred (Z.succ (Z.of_nat n))) with (Z.of_nat n) by lia. destruct (Z.ltb_spec a floor).
    + rewrite IH. replace (Z.max (Z.succ a) floor) with (Z.max a floor) by lia. f_equal. lia.
    + rewrite Z.max_l by lia. rewrite (seqZ_cons a (a + _ - a)) by lia. f_equal. f_equal. lia.
Qed.

(** The commit times are those of all the versions from the floor on, in increasing order. *)
Definition times_ok (d : Documents) : Prop :=
  map fst (commit_times d) = seqZ (Z.max 1 (compaction_floor d)) (current_version d - Z.max 1 (compaction_floor d) + 1) /\
  StronglySorted (fun a b => a.2 < b.2) (commit_times d) /\ (forall e, e ∈ commit_times d -> exists t, last_commit_time d = Some t /\ e.2 <= t).

Record docs_wf (d : Documents) : Prop := {
  wf_entries : entries_ok (current_version d) (history d);
  wf_floors : 0 <= compaction_floor d <= current_version d /\ 0 <= capacity_floor d <= current_version d;
  wf_times : times_ok d;
  wf_index : index_ok d;
  wf_usage : usage_ok d;
  wf_bound : (0 < max_versions_per_path d)%nat }.

Lemma times_charge_split n m : times_charge (n + m) = plus_usage (times_charge n) (times_charge m).
Proof. apply usage_ext; cbn -[Z.mul]; lia. Qed.

Lemma checked_fits z : 0 <= z <= int_max u64 -> checked u64 z = Some z.
Proof. intros H. unfold checked. by rewrite decide_True. Qed.

(** The popped commit times leave the certified usage exact. *)
Lemma drop_times_usage d floor : usage_ok d -> entries_ok (current_version d) (history d) -> history_accounting_exact d = true ->
  history_accounting_exact (drop_commit_times floor d) = true /\ usage_ok (drop_commit_times floor d).
Proof.
  intros Husage Hentries Hexact. destruct (Husage Hexact) as [Hu Hmax]. destruct (drop_while_suffix (fun e => e.1 <? floor) (commit_times d)) as [popped Hpop].
  set (times := drop_while (fun e => e.1 <? floor) (commit_times d)) in *. set (m := Z.of_nat (length popped)). set (n := Z.of_nat (length times)).
  assert (Hlen : Z.of_nat (length (commit_times d)) = n + m) by (rewrite Hpop, length_app; subst n m; lia). assert (Hm : Z.of_nat (length (commit_times d) - length times) = m) by (rewrite Hpop, length_app; subst m; lia).
  pose proof (history_charge_nonneg _ _ Hentries) as Hh. unfold documents_charge in *. rewrite Hlen, times_charge_split, <- plus_assoc in Hu, Hmax. set (u := plus_usage (history_charge (history d)) (times_charge n)) in *.
  assert (Hun : nonneg_usage u) by (apply plus_nonneg; [done|apply times_charge_nonneg; subst n; lia]). assert (Htn : nonneg_usage (times_charge m)) by (apply times_charge_nonneg; subst m; lia).
  pose proof (below_max_plus u (times_charge m) Hun Htn Hmax) as [Hmu Hmt].
  pose proof Hmax as [Hcomp _]. unfold components in Hcomp. rewrite !Forall_cons in Hcomp. destruct Hcomp as (_&_&_&_&_&Hbytes&_&_&_&Hcount&_). cbn [plus_usage combine_usage commit_time_bytes u_commit_times times_charge with_commit_times] in Hbytes, Hcount.
  pose proof Hun as (_&_&_&_&_&Hb0&_&_&_&Hc0)%nonneg_components. assert (Hm0 : 0 <= m) by (subst m; lia).
  assert (Hcu : u_commit_times (history_usage d) = u_commit_times u + m) by (rewrite Hu; cbn [bounded finish_history_usage saturated combine_usage u_commit_times plus_usage times_charge with_commit_times]; apply saturating_id; unfold fits; cbn [int_min int_max u64] in *; lia).
  assert (Hbu : commit_time_bytes (history_usage d) = commit_time_bytes u + 24 * m) by (rewrite Hu; cbn [bounded finish_history_usage saturated combine_usage commit_time_bytes plus_usage times_charge with_commit_times]; apply saturating_id; unfold fits; cbn [int_min int_max u64] in *; lia).
  assert (Hform : drop_commit_times floor d = set_usage (bounded u) true (set_times (current_version d) (last_commit_time d) times d)).
  { unfold drop_commit_times. fold times. rewrite Hm, Hcu, Hexact. unfold certified_history_sub. unfold HISTORY_COMMIT_TIME_BYTES. rewrite (checked_fits (m * 24)) by (cbn [int_max u64] in *; lia). change (default (int_max u64) (Some (m * 24))) with (m * 24). rewrite Hbu.
    replace (u_commit_times u + m - m) with (u_commit_times u) by lia. replace (commit_time_bytes u + 24 * m - m * 24) with (commit_time_bytes u) by lia.
    rewrite (checked_fits (u_commit_times u)), (checked_fits (commit_time_bytes u)) by (cbn [int_max u64] in *; lia). unfold sat_sub. cbn [andb].
    replace (u_commit_times u + m - m) with (u_commit_times u) by lia. replace (commit_time_bytes u + 24 * m - m * 24) with (commit_time_bytes u) by lia. f_equal.
    rewrite Hu. unfold bounded. apply finish_ext. unfold components. cbn [saturated combine_usage plus_usage times_charge with_commit_times no_usage live_document_bytes historical_document_bytes path_and_index_bytes
      version_metadata_bytes tombstone_bytes commit_time_bytes u_versions u_tombstones u_paths u_commit_times finish_history_usage]. by rewrite !Z.add_0_r. }
  rewrite Hform. split; [done|]. intros _. split; done.
Qed.

Lemma change_usage_inexact l : forall d, history_accounting_exact d = false -> exists u, fold_left change_usage l d = set_usage u false d.
Proof.
  induction l as [|x l IH]; intros d Hd; [exists (history_usage d); cbn; rewrite <- Hd; by destruct d|]. cbn [fold_left]. destruct (IH (change_usage d x)) as [u Hu]; [cbn; by rewrite Hd|]. exists u. rewrite Hu. by destruct d.
Qed.

Lemma drop_times_fields floor d : exists u e, drop_commit_times floor d = set_usage u e (set_times (current_version d) (last_commit_time d) (drop_while (fun e => e.1 <? floor) (commit_times d)) d).
Proof. unfold drop_commit_times. destruct (certified_history_sub _ _ _) as [count e1]. destruct (certified_history_sub _ _ _) as [bytes e2]. by eexists _, _. Qed.

Lemma drop_times_ok floor d : times_ok d -> 0 <= compaction_floor d < floor -> floor <= current_version d ->
  times_ok (set_floors floor (capacity_floor d) (set_times (current_version d) (last_commit_time d) (drop_while (fun e => e.1 <? floor) (commit_times d)) d)).
Proof.
  intros (Hv & Hs & Hlast) Hf Hc. destruct (drop_while_suffix (fun e => e.1 <? floor) (commit_times d)) as [popped Hpop]. split_and!; cbn.
  - rewrite (drop_while_map fst (fun v => v <? floor)), Hv. rewrite <- (Z2Nat.id (current_version d - Z.max 1 (compaction_floor d) + 1)) by lia. rewrite drop_while_seqZ.
    rewrite Z2Nat.id by lia. replace (Z.max (Z.max 1 (compaction_floor d)) floor) with (Z.max 1 floor) by lia. f_equal. lia.
  - rewrite Hpop in Hs. by apply StronglySorted_app_1_r in Hs.
  - intros e He. apply Hlast. rewrite Hpop. apply elem_of_app. by right.
Qed.

Lemma compaction_candidates_ok d floor : index_ok d ->
  NoDup (candidates d floor) /\ (forall p v, compactable d !! p = Some v -> v <= floor -> p ∈ candidates d floor) /\ forall p, p ∈ candidates d floor -> is_Some (compactable d !! p).
Proof.
  intros Hindex. destruct (reclaim_candidates_spec d floor Hindex) as [Hcand Hnd]. unfold candidates. destruct (history_accounting_exact d).
  - split_and!; [done|intros p v Hv Hvf; apply Hcand; by exists v|]. intros p (v & -> & _)%Hcand. done.
  - rewrite btree_map_iter_keys. split_and!; [apply NoDup_btree_iter|intros p v Hv _; apply elem_of_btree_iter, elem_of_dom; by exists v|]. intros p. by rewrite elem_of_btree_iter, elem_of_dom.
Qed.

(** The paths that the loop removes are those that are left without a version. *)
Lemma removed_exact top floor d h l p : entries_ok top (history d) -> index_ok d -> (forall q v, compactable d !! q = Some v -> v <= floor -> q ∈ l) -> h = omap (compacted floor) (history d) ->
  p ∈ flat_map (gone floor (history d)) l <-> is_Some (history d !! p) /\ h !! p = None.
Proof.
  intros Hentries Hindex Hall ->. rewrite lookup_omap, list_elem_of_In, in_flat_map. setoid_rewrite <- list_elem_of_In. unfold gone. split.
  - intros (q & Hq & Hp). destruct (history d !! q) as [vs|] eqn:E; [|by apply not_elem_of_nil in Hp]. destruct (compacted floor vs) eqn:Hc; [by apply not_elem_of_nil in Hp|].
    apply list_elem_of_singleton in Hp as ->. by rewrite E.
  - intros [[vs Hvs] Hnone]. rewrite Hvs in Hnone. cbn in Hnone. exists p. rewrite Hvs, Hnone. split; [|by apply list_elem_of_singleton]. destruct (decide (p ∈ l)) as [|Hp]; [done|].
    destruct (Hentries p vs Hvs) as (Hne & Hs & _). rewrite (nothing_dropped floor d p vs) in Hnone; [done..|]. intros v Hv. destruct (Z.le_gt_cases v floor); [|lia]. destruct Hp. by apply (Hall p v).
Qed.

Lemma gone_NoDup floor h l : NoDup l -> NoDup (flat_map (gone floor h) l).
Proof.
  assert (Hgone : forall p q, q ∈ gone floor h p -> q = p) by (intros p q; unfold gone; destruct (h !! p); [|by intros ?%not_elem_of_nil]; destruct (compacted floor _); [by intros ?%not_elem_of_nil|by intros ?%list_elem_of_singleton]).
  induction 1 as [|p l Hp _ IH]; cbn [flat_map]; [constructor|]. apply NoDup_app. split_and!; [unfold gone; destruct (h !! p); [|constructor]; destruct (compacted floor _); [constructor|apply NoDup_singleton]| |done].
  intros q ->%Hgone. rewrite list_elem_of_In, in_flat_map. intros (p' & Hin & Hq). apply list_elem_of_In, Hgone in Hq as ->. by apply Hp, list_elem_of_In.
Qed.

(** A compaction, as it is driven by the index and by the certificate of its accounting. *)
Lemma compact_to_spec d floor : docs_wf d -> compaction_floor d < floor <= current_version d ->
  let '(d', removed) := compact_to floor d in
  docs_wf d' /\ history d' = omap (compacted floor) (history d) /\ compaction_floor d' = floor /\ current_version d' = current_version d /\ capacity_floor d' = capacity_floor d /\
  last_commit_time d' = last_commit_time d /\ commit_times d' = drop_while (fun e => e.1 <? floor) (commit_times d) /\
  max_versions_per_path d' = max_versions_per_path d /\ history_limits d' = history_limits d /\
  (history_accounting_exact d = true -> history_accounting_exact d' = true) /\
  (forall p, p ∈ removed <-> is_Some (history d !! p) /\ history d' !! p = None) /\ NoDup removed.
Proof.
  intros Hwf [Hlt Hle]. destruct Hwf as [Hentries Hfloors Htimes Hindex Husage Hbound]. unfold compact_to. rewrite (proj2 (Z.leb_gt _ _)) by lia.
  set (d0 := set_floors floor (capacity_floor d) (set_forecast None d)). destruct (drop_times_fields floor d0) as (u1 & e1 & Hd1).
  assert (Hexact : history_accounting_exact d = true -> history_accounting_exact (drop_commit_times floor d0) = true /\ usage_ok (drop_commit_times floor d0)) by (intros He; by apply (drop_times_usage d0)).
  set (d1 := drop_commit_times floor d0) in *.
  assert (Hindex1 : index_ok d1) by by rewrite Hd1. assert (Hhist : history d1 = history d) by by rewrite Hd1.
  pose proof (compaction_candidates_ok d1 floor Hindex1) as Hl. set (l := candidates d1 floor) in *.
  destruct Hl as (Hnodup & Hall & Hin). pose proof (compact_loop (current_version d) (history_accounting_exact d1) floor l {| c_docs := d1; removed_paths := []; usage_changes := [] |} Hnodup) as Hloop.
  cbn [c_docs removed_paths usage_changes] in Hloop. destruct Hloop as (L1 & L2 & L3 & L4 & L5).
  { intros p [v Hv]%Hin. destruct Hindex1 as [Hc _]. rewrite Hc in Hv. by apply bind_Some in Hv as (vs & -> & _). }
  { by rewrite Hhist. }
  { done. }
  set (c := fold_left (compact_path (history_accounting_exact d1) floor) l _) in *.
  rewrite (compact_all_candidates (current_version d)) in L1; [|by rewrite Hhist|done..]. rewrite Hhist in L1, L4, L5.
  assert (Hremoved : forall p, p ∈ removed_paths c <-> is_Some (history d !! p) /\ history (c_docs c) !! p = None).
  { intros p. rewrite L4, <- Hhist. cbn [app]. apply (removed_exact (current_version d)); by rewrite ?Hhist. }
  assert (Hentries' : entries_ok (current_version d) (history (c_docs c))).
  { intros p vs. rewrite L1, lookup_omap. intros (vs0 & Hp & Hc)%bind_Some. by apply (compacted_ok _ p vs0 floor), Hc; apply Hentries. }
  assert (Hc : forall A (f : Documents -> A), f (c_docs c) = f (set_thresholds (compactable (c_docs c)) (reclaim_thresholds (c_docs c)) (set_history (history (c_docs c)) d1))) by (intros A f; by rewrite <- L3).
  assert (Hct : commit_times (c_docs c) = commit_times d1) by by rewrite (Hc _ commit_times).
  assert (Hce : history_accounting_exact (c_docs c) = history_accounting_exact d1) by by rewrite (Hc _ history_accounting_exact).
  assert (Hcu : history_usage (c_docs c) = history_usage d1) by by rewrite (Hc _ history_usage).
  assert (Hfinal : exists u, fold_left change_usage (usage_changes c) (c_docs c) = set_usage u (history_accounting_exact d1) (c_docs c) /\
    (history_accounting_exact d1 = true -> u = bounded (documents_charge (c_docs c)) /\ below_max (documents_charge (c_docs c)))).
  { destruct (history_accounting_exact d1) eqn:He.
    - destruct (L5 eq_refl) as (rs & R1 & R2 & R3). cbn [app] in R1.
      assert (Hu1 : usage_ok d1). { apply Hexact. destruct (history_accounting_exact d) eqn:E; [done|]. exfalso. subst d1. unfold drop_commit_times, certified_history_sub in He. cbn in He. rewrite E in He. done. }
      destruct (Hu1 He) as [Hu Hmax].
      assert (Hcharge : documents_charge d1 = plus_usage (documents_charge (c_docs c)) (sum_usage rs)).
      { unfold documents_charge. rewrite Hhist, R3, Hct. rewrite (plus_comm (sum_usage rs)), !plus_assoc. f_equal. apply plus_comm. }
      rewrite Hcharge in Hu, Hmax. exists (bounded (documents_charge (c_docs c))). assert (Hn : nonneg_usage (documents_charge (c_docs c))).
      { apply plus_nonneg; [by apply (history_charge_nonneg (current_version d))|apply times_charge_nonneg; lia]. }
      split; [|intros _; split; [done|by apply below_max_plus in Hmax as [? _]; [..|apply sum_usage_nonneg]]].
      rewrite R1. apply change_usage_fold; try done; congruence.
    - destruct (change_usage_inexact (usage_changes c) (c_docs c)) as [u Hu]; [congruence|]. exists u. by rewrite Hu. }
  destruct Hfinal as (u & -> & Hu).
  assert (Hfields : current_version (c_docs c) = current_version d /\ compaction_floor (c_docs c) = floor /\ capacity_floor (c_docs c) = capacity_floor d /\ last_commit_time (c_docs c) = last_commit_time d /\
    commit_times (c_docs c) = drop_while (fun e => e.1 <? floor) (commit_times d) /\ max_versions_per_path (c_docs c) = max_versions_per_path d /\ history_limits (c_docs c) = history_limits d).
  { rewrite (Hc _ current_version), (Hc _ compaction_floor), (Hc _ capacity_floor), (Hc _ last_commit_time), (Hc _ max_versions_per_path), (Hc _ history_limits), Hct, Hd1. done. }
  destruct Hfields as (F1 & F2 & F3 & F4 & F5 & F6 & F7). split_and!; try done.
  - split; cbn; rewrite ?F1, ?F2, ?F3, ?F6; try done; [lia|]. pose proof (drop_times_ok floor d Htimes ltac:(lia) Hle) as (T1 & T2 & T3). cbn in T1, T2, T3. split_and!; cbn; rewrite ?F1, ?F2, ?F4, ?F5; done.
  - intros He. destruct (Hexact He) as [H _]. exact H.
  - rewrite L4. cbn [app]. by apply gone_NoDup.
Qed.

(** A compaction at a floor up to the current version changes no latest read, and none at a version from its floor on. *)
Lemma compact_to_reads d floor : docs_wf d -> floor <= current_version d -> let d' := (compact_to floor d).1 in
  docs_wf d' /\ compaction_floor d' = Z.max (compaction_floor d) floor /\ (forall p, get d' p = get d p) /\ (forall p v, compaction_floor d' <= v -> get_at d' p v = get_at d p v).
Proof.
  intros Hwf Hle d'. destruct (Z.le_gt_cases floor (compaction_floor d)) as [Hsmall|Hlt].
  { assert (Hd' : d' = d) by (subst d'; unfold compact_to; by rewrite (proj2 (Z.leb_le _ _))). rewrite Hd'. split_and!; try done. lia. }
  pose proof (compact_to_spec d floor Hwf ltac:(lia)) as Hspec. subst d'. destruct (compact_to floor d) as [d' removed]. cbn [fst].
  destruct Hspec as (Hwf' & Hhist & Hfloor & _). split_and!; [done|lia| |].
  - intros p. unfold get. rewrite Hhist, lookup_omap. destruct (history d !! p) as [vs|] eqn:Hp; [|done]. cbn. f_equal.
    exact (proj2 (compacted_reads (current_version d) p vs floor floor ltac:(by apply (wf_entries d Hwf)) ltac:(lia))).
  - intros p v Hv. unfold get_at. rewrite Hhist, lookup_omap. destruct (history d !! p) as [vs|] eqn:Hp; [|done]. cbn. f_equal. rewrite Hfloor in Hv.
    exact (proj1 (compacted_reads (current_version d) p vs floor v ltac:(by apply (wf_entries d Hwf)) ltac:(lia))).
Qed.

(** The version at a time is decided by the commit times that are kept, once the time is not before the first of them. *)
Lemma version_at_suffix (popped times : list (CommitVersion * LogicalInstant)) t e : StronglySorted (fun a b => a.2 < b.2) (popped ++ times) -> head times = Some e -> e.2 <= t ->
  exists i, partition_point (time_at_or_before t) times = S i /\ partition_point (time_at_or_before t) (popped ++ times) = S (length popped + i).
Proof.
  intros Hs Hhead Ht. destruct times as [|e' times]; [done|]. injection Hhead as ->.
  assert (Hpop : forall x, x ∈ popped -> time_at_or_before t x = true).
  { intros x Hx. unfold time_at_or_before. apply Z.leb_le. apply StronglySorted_app in Hs as (H & _ & _). specialize (H x e Hx ltac:(by left)). etransitivity; [apply Z.lt_le_incl; exact H|exact Ht]. }
  exists (partition_point (time_at_or_before t) times). assert (He : time_at_or_before t e = true) by (unfold time_at_or_before; lia). split; [cbn; by rewrite He|].
  clear Hs. induction popped as [|x popped IH]; cbn; [by rewrite He|]. rewrite (Hpop x ltac:(by left)). f_equal. apply IH. intros y Hy. apply Hpop. by right.
Qed.

(** C16. Compaction: at any floor up to the current version it raises the compaction floor and never lowers it, keeps the
    store well formed, and is invisible to every latest read, to every read at a version from the floor on, and to every
    time that still resolves; the index of thresholds leads it to exactly the paths from which the definition of what is
    kept drops something; and the certified usage stays the recount of what is retained. *)
Theorem compaction_exact (d : Documents) (floor : CommitVersion) : docs_wf d -> floor <= current_version d ->
  let d' := (compact_to floor d).1 in
  docs_wf d' /\ compaction_floor d' = Z.max (compaction_floor d) floor /\
  (forall p, get d' p = get d p) /\
  (forall p v, compaction_floor d' <= v -> get_at d' p v = get_at d p v) /\
  (forall t v, version_at_retained d' t = Some v -> version_at d t = v) /\
  (compaction_floor d < floor -> history d' = omap (compacted floor) (history d)) /\
  (history_accounting_exact d = true -> history_usage d' = bounded (documents_charge d')).
Proof.
  intros Hwf Hle d'. destruct (compact_to_reads d floor Hwf Hle) as (Hwf' & Hfloor & Hget & Hget_at). fold d' in Hwf', Hfloor, Hget, Hget_at.
  destruct (Z.le_gt_cases floor (compaction_floor d)) as [Hsmall|Hlt].
  { assert (Hd' : d' = d) by (subst d'; unfold compact_to; by rewrite (proj2 (Z.leb_le _ _))). split_and!; try done; rewrite ?Hd'; [|lia|].
    - intros t v. unfold version_at_retained. destruct (_ && _); [done|]. by intros [= <-].
    - intros He. by apply (wf_usage d Hwf). }
  pose proof (compact_to_spec d floor Hwf ltac:(lia)) as Hspec. subst d'. destruct (compact_to floor d) as [d' removed] eqn:Hcompact. cbn [fst] in *.
  destruct Hspec as (_ & Hhist & _ & Hcur & _ & Hlast & Htimes & _ & _ & Hexact & _). split_and!; try done.
  - intros t v. pose proof (wf_times d Hwf) as (_ & Hs & _). destruct (drop_while_suffix (fun e => e.1 <? floor) (commit_times d)) as [popped Hpop]. rewrite <- Htimes in Hpop.
    unfold version_at_retained, version_at. rewrite Hpop. rewrite Hpop in Hs. pose proof (wf_floors d Hwf) as [[Hf0 _] _]. destruct (0 <? compaction_floor d') eqn:Hpos; [|lia]. cbn [andb].
    destruct (head (commit_times d')) as [[v0 t0]|] eqn:Hhead; [|done]. destruct (Z.ltb_spec t t0); [done|]. intros [= <-].
    destruct (version_at_suffix popped (commit_times d') t (v0, t0) Hs Hhead) as (i & Hi' & ->); [done|]. rewrite Hi', lookup_app_r by lia. replace (length popped + i - length popped)%nat with i by lia.
    assert (Hi : (i < length (commit_times d'))%nat) by (pose proof (partition_point_le (time_at_or_before t) (commit_times d')) as Hpp; rewrite Hi' in Hpp; lia).
    destruct (lookup_lt_is_Some_2 _ _ Hi) as [e ->]. done.
  - intros He. by apply (wf_usage d' Hwf'), Hexact.
Qed.

(** Four versions of one path, the third a deletion, in a store that has seen nine commits. *)
Definition demo_documents : Documents :=
  rebuild_history_usage {| history := {[demo_path := demo_versions]}; current_version := 9; last_commit_time := Some 9000; commit_times := map (fun v => (v, v * 1000)) (seqZ 1 9);
    compaction_floor := 0; capacity_floor := 0; max_versions_per_path := 4; history_limits := default_history_limits; history_usage := no_usage; history_accounting_exact := true;
    compaction_forecast := None; compactable := {[demo_path := 4]}; reclaim_thresholds := {[(4, demo_path)]} |}.

Lemma demo_history : history demo_documents = {[demo_path := demo_versions]}.
Proof. reflexivity. Qed.

Lemma demo_documents_wf : docs_wf demo_documents.
Proof.
  split.
  - intros p vs. change (history demo_documents) with ({[demo_path := demo_versions]} : gmap DocumentPath Versions). intros [<- <-]%lookup_singleton_Some. split_and!; [done|unfold demo_versions; repeat constructor; vm_compute; done|].
    unfold demo_versions, demo_version. rewrite !Forall_cons, Forall_nil. cbn [fst snd]. change (current_version demo_documents) with 9. split_and!; try lia; try done; intros r [= <-]; split_and!; (done || (cbn; lia)).
  - by vm_compute.
  - split_and!; [by vm_compute|cbn; repeat constructor; by vm_compute|]. intros e He. exists 9000. split; [done|]. revert e He. apply Forall_forall. cbn. repeat constructor; by vm_compute.
  - split.
    + intros p. change (({[demo_path := 4]} : gmap DocumentPath CommitVersion) !! p = (vs ← ({[demo_path := demo_versions]} : gmap DocumentPath Versions) !! p; reclaim_threshold vs)).
      destruct (decide (p = demo_path)) as [->|]; [by rewrite !lookup_singleton_eq|by rewrite !lookup_singleton_ne by done].
    + intros v p. change ((v, p) ∈ ({[(4, demo_path)]} : gset (CommitVersion * DocumentPath)) <-> ({[demo_path := 4]} : gmap DocumentPath CommitVersion) !! p = Some v).
      rewrite elem_of_singleton, lookup_singleton_Some. naive_solver.
  - intros _. split; [|repeat constructor]; by vm_compute.
  - change (0 < 4)%nat. lia.
Qed.

(** Compacting to version 7 drops the first two versions; to version 8 the deletion stays, for the reads at 8. *)
Example compact_example :
  let (d7, removed) := compact_to 7 demo_documents in
  removed = [] /\ map fst <$> (history d7 !! demo_path) = Some [7; 9] /\ map fst (commit_times d7) = [7; 8; 9] /\ compaction_floor d7 = 7 /\ history_accounting_exact d7 = true /\
  get_at d7 demo_path 8 = None /\ get_at d7 demo_path 9 = get demo_documents demo_path /\ version_at_retained d7 6999 = None /\ version_at_retained d7 8500 = Some 8.
Proof. vm_compute. split_and!; reflexivity. Qed.

Lemma compaction_exact_witness :
  docs_wf demo_documents /\ (forall v, 7 <= v -> get_at (compact_to 7 demo_documents).1 demo_path v = get_at demo_documents demo_path v) /\ compaction_floor (compact_to 7 demo_documents).1 = 7.
Proof.
  destruct (compaction_exact demo_documents 7) as (_ & Hfloor & _ & Hget & _); [exact demo_documents_wf|vm_compute; discriminate|].
  assert (Hf : compaction_floor (compact_to 7 demo_documents).1 = 7) by (rewrite Hfloor; reflexivity).
  split; [exact demo_documents_wf|split; [|exact Hf]]. intros v Hv. apply Hget. rewrite Hf. exact Hv.
Defined.
