(* ===== verification/FsLedger.v ===== *)
(** * The transactions of a Firestore database

    Models the transaction ledger of [FirestoreState] in
    [crates/fireemu-core-firestore/src/store.rs]: the transactions with their budgets, what they
    observed, the indexes over the active and the finished ones, and the operations that begin,
    finish, prune, evict and record.  The wall-clock lease of the adapter is not modelled.  A
    query's estimate of retained bytes depends on the capacities of its allocations and is a
    parameter, and so is which of the requests that wait on locks are still alive. *)
From S2P Require Import Prelude Time Text Hash FsDocPath FsSize FsDocument FsListing FsFieldPath FsQuery FsSelect FsValidate FsUsage FsHistory FsScope.
#[local] Set Warnings "-register-all".

Abbreviation TransactionId := Z.
Abbreviation QueryExecutionId := Z.

Inductive TransactionState := Active | RetryableAborted | RolledBack | Committed | CommitRefused | Retried | Finished.

#[global] Instance TransactionState_eq_dec : EqDecision TransactionState.
Proof. solve_decision. Defined.

#[global] Instance Digest_eq_dec : EqDecision Digest.
Proof. solve_decision. Defined.

(** ** What a query of a transaction observed *)

Record QueryObservation := { o_rows : Z; digest : Digest }.

#[global] Instance QueryObservation_eq_dec : EqDecision QueryObservation.
Proof. solve_decision. Defined.

Definition no_observation : QueryObservation := {| o_rows := 0; digest := sha256_new |}.

Definition push_segment (d : Digest) (segment : text) : Digest := sha256_update (sha256_update d (to_be_bytes 8 (Z.of_nat (length segment)))) segment.

Definition push_parts (o : QueryObservation) (p : DocumentPath) (v : CommitVersion) : QueryObservation :=
  {| o_rows := saturating u64 (o_rows o + 1); digest := sha256_update (fold_left push_segment (resource_name_segments p) (digest o)) (to_be_bytes 8 v) |}.

Definition push (o : QueryObservation) (d : Document) : QueryObservation := push_parts o (path d) (version d).

Definition query_observation (docs : list Document) : QueryObservation := fold_left push docs no_observation.

Record TransactionQueryObservation := {
  execution_id : QueryExecutionId; query : Query; q_required_fields : list FieldPath; observation : QueryObservation; q_consumption : Consumption; complete : bool }.

(** Retained metadata of one row of a query's result. *)
Record ObservedQueryDocument := { row_path : DocumentPath; row_version : CommitVersion; row_bytes : Z }.

(** A request that waits for locks: the identity of its [Arc<AtomicBool>]. *)
Abbreviation CommitWaitOwner := nat.

Record Transaction := {
  read_only : bool; read_version : CommitVersion; t_read_time : LogicalInstant; started_at : LogicalInstant;
  read_set : gmap DocumentPath (option CommitVersion); queries : list TransactionQueryObservation; conflict_ledger_bytes : Z;
  last_activity : LogicalInstant; t_state : TransactionState; activity : Z;
  waiting_to_commit : option (list Write); owned_commit_waits : list (CommitWaitOwner * list Write);
  deadlock_victim : bool; snapshot_pending : bool; lifetime_expired : bool; first_read_time : option LogicalInstant; retried_while_live : bool }.

(** Assignments to the fields. *)
Definition set_state (s : TransactionState) (t : Transaction) : Transaction :=
  {| read_only := read_only t; read_version := read_version t; t_read_time := t_read_time t; started_at := started_at t; read_set := read_set t; queries := queries t;
     conflict_ledger_bytes := conflict_ledger_bytes t; last_activity := last_activity t; t_state := s; activity := activity t; waiting_to_commit := waiting_to_commit t;
     owned_commit_waits := owned_commit_waits t; deadlock_victim := deadlock_victim t; snapshot_pending := snapshot_pending t; lifetime_expired := lifetime_expired t;
     first_read_time := first_read_time t; retried_while_live := retried_while_live t |}.

(** What an attempt observed is forgotten when it is over. *)
Definition cleared (t : Transaction) : Transaction :=
  {| read_only := read_only t; read_version := read_version t; t_read_time := t_read_time t; started_at := started_at t; read_set := ∅; queries := [];
     conflict_ledger_bytes := 0; last_activity := last_activity t; t_state := t_state t; activity := activity t; waiting_to_commit := waiting_to_commit t;
     owned_commit_waits := owned_commit_waits t; deadlock_victim := deadlock_victim t; snapshot_pending := snapshot_pending t; lifetime_expired := lifetime_expired t;
     first_read_time := first_read_time t; retried_while_live := retried_while_live t |}.

Definition set_waits (legacy : option (list Write)) (owned : list (CommitWaitOwner * list Write)) (t : Transaction) : Transaction :=
  {| read_only := read_only t; read_version := read_version t; t_read_time := t_read_time t; started_at := started_at t; read_set := read_set t; queries := queries t;
     conflict_ledger_bytes := conflict_ledger_bytes t; last_activity := last_activity t; t_state := t_state t; activity := activity t; waiting_to_commit := legacy;
     owned_commit_waits := owned; deadlock_victim := deadlock_victim t; snapshot_pending := snapshot_pending t; lifetime_expired := lifetime_expired t;
     first_read_time := first_read_time t; retried_while_live := retried_while_live t |}.

Definition set_victim (t : Transaction) : Transaction :=
  {| read_only := read_only t; read_version := read_version t; t_read_time := t_read_time t; started_at := started_at t; read_set := read_set t; queries := queries t;
     conflict_ledger_bytes := conflict_ledger_bytes t; last_activity := last_activity t; t_state := t_state t; activity := activity t; waiting_to_commit := waiting_to_commit t;
     owned_commit_waits := owned_commit_waits t; deadlock_victim := true; snapshot_pending := snapshot_pending t; lifetime_expired := lifetime_expired t;
     first_read_time := first_read_time t; retried_while_live := retried_while_live t |}.

Definition set_snapshot (pending : bool) (version : CommitVersion) (time : LogicalInstant) (t : Transaction) : Transaction :=
  {| read_only := read_only t; read_version := version; t_read_time := time; started_at := started_at t; read_set := read_set t; queries := queries t;
     conflict_ledger_bytes := conflict_ledger_bytes t; last_activity := last_activity t; t_state := t_state t; activity := activity t; waiting_to_commit := waiting_to_commit t;
     owned_commit_waits := owned_commit_waits t; deadlock_victim := deadlock_victim t; snapshot_pending := pending; lifetime_expired := lifetime_expired t;
     first_read_time := first_read_time t; retried_while_live := retried_while_live t |}.

Definition set_activity (now : LogicalInstant) (t : Transaction) : Transaction :=
  {| read_only := read_only t; read_version := read_version t; t_read_time := t_read_time t; started_at := started_at t; read_set := read_set t; queries := queries t;
     conflict_ledger_bytes := conflict_ledger_bytes t; last_activity := now; t_state := t_state t; activity := wrapping u64 (activity t + 1);
     waiting_to_commit := waiting_to_commit t; owned_commit_waits := owned_commit_waits t; deadlock_victim := deadlock_victim t; snapshot_pending := snapshot_pending t;
     lifetime_expired := lifetime_expired t; first_read_time := first_read_time t; retried_while_live := retried_while_live t |}.

Definition set_first_read (time : option LogicalInstant) (t : Transaction) : Transaction :=
  {| read_only := read_only t; read_version := read_version t; t_read_time := t_read_time t; started_at := started_at t; read_set := read_set t; queries := queries t;
     conflict_ledger_bytes := conflict_ledger_bytes t; last_activity := last_activity t; t_state := t_state t; activity := activity t; waiting_to_commit := waiting_to_commit t;
     owned_commit_waits := owned_commit_waits t; deadlock_victim := deadlock_victim t; snapshot_pending := snapshot_pending t; lifetime_expired := lifetime_expired t;
     first_read_time := time; retried_while_live := retried_while_live t |}.

Definition set_lifetime (expired : bool) (t : Transaction) : Transaction :=
  {| read_only := read_only t; read_version := read_version t; t_read_time := t_read_time t; started_at := started_at t; read_set := read_set t; queries := queries t;
     conflict_ledger_bytes := conflict_ledger_bytes t; last_activity := last_activity t; t_state := t_state t; activity := activity t; waiting_to_commit := waiting_to_commit t;
     owned_commit_waits := owned_commit_waits t; deadlock_victim := deadlock_victim t; snapshot_pending := snapshot_pending t; lifetime_expired := expired;
     first_read_time := first_read_time t; retried_while_live := retried_while_live t |}.

Definition set_retried (live : bool) (t : Transaction) : Transaction :=
  {| read_only := read_only t; read_version := read_version t; t_read_time := t_read_time t; started_at := started_at t; read_set := read_set t; queries := queries t;
     conflict_ledger_bytes := conflict_ledger_bytes t; last_activity := last_activity t; t_state := Retried; activity := activity t; waiting_to_commit := waiting_to_commit t;
     owned_commit_waits := owned_commit_waits t; deadlock_victim := deadlock_victim t; snapshot_pending := snapshot_pending t; lifetime_expired := lifetime_expired t;
     first_read_time := first_read_time t; retried_while_live := live |}.

Definition set_observed (reads : gmap DocumentPath (option CommitVersion)) (qs : list TransactionQueryObservation) (bytes : Z) (t : Transaction) : Transaction :=
  {| read_only := read_only t; read_version := read_version t; t_read_time := t_read_time t; started_at := started_at t; read_set := reads; queries := qs;
     conflict_ledger_bytes := bytes; last_activity := last_activity t; t_state := t_state t; activity := activity t; waiting_to_commit := waiting_to_commit t;
     owned_commit_waits := owned_commit_waits t; deadlock_victim := deadlock_victim t; snapshot_pending := snapshot_pending t; lifetime_expired := lifetime_expired t;
     first_read_time := first_read_time t; retried_while_live := retried_while_live t |}.


(** ** Budgets *)

Definition MAX_FINISHED_TRANSACTION_LINEAGE : nat := Z.to_nat 8192.
Definition TRANSACTION_IDLE_ALLOWANCE_SECONDS : Z := 60.
Definition EXPIRED_TOKEN_MEMORY_SECONDS : Z := 30.
Definition EMULATOR_EXPIRED_TOKEN_RETENTION_SECONDS : Z := 600.
Definition MAX_ACTIVE_TRANSACTIONS : Z := 4096.
Definition MAX_TRANSACTION_CONFLICT_LEDGER_BYTES : Z := 10 * 1024 * 1024.
Definition MAX_ACTIVE_TRANSACTION_CONFLICT_LEDGER_BYTES : Z := 64 * 1024 * 1024.
Definition MAX_TRANSACTION_QUERY_RECORDS : nat := 256.

(** The maxima of the catalog's entries, in seconds. *)
Definition TRANSACTION_TOTAL_TIME : Z := 270.
Definition TRANSACTION_IDLE_TIME : Z := 60.

Definition transaction_ttl : LogicalDuration := dur_from_seconds TRANSACTION_TOTAL_TIME.
Definition transaction_idle_ttl : LogicalDuration := dur_from_seconds TRANSACTION_IDLE_TIME.

Definition transaction_lineage_deadline (t : Transaction) : LogicalInstant := default inst_MAX (inst_checked_add (started_at t) transaction_ttl).

Definition transaction_deadline (scope : LimitScope) (t : Transaction) : LogicalInstant :=
  let idle := deadline ← inst_checked_add (last_activity t) transaction_idle_ttl;
              if bool_decide (scope = Production) then inst_checked_add deadline (dur_from_seconds TRANSACTION_IDLE_ALLOWANCE_SECONDS) else Some deadline in
  Z.min (transaction_lineage_deadline t) (default inst_MAX idle).

Definition finished_lineage_deadline (scope : LimitScope) (t : Transaction) : LogicalInstant :=
  let deadline := transaction_lineage_deadline t in
  if lifetime_expired t || (bool_decide (scope = Production) && bool_decide (t_state t = Finished))
  then default inst_MAX (inst_checked_add deadline (dur_from_seconds (if bool_decide (scope = Production) then EXPIRED_TOKEN_MEMORY_SECONDS else EMULATOR_EXPIRED_TOKEN_RETENTION_SECONDS)))
  else deadline.

(** ** The ledger *)

Record Ledger := {
  limit_scope : LimitScope; next_transaction : Z; next_query_execution : Z;
  transactions : gmap TransactionId Transaction;
  active_transaction_count : Z; transaction_releases : Z;
  active_transaction_deadlines : gset (LogicalInstant * TransactionId);
  active_transaction_versions : gmap CommitVersion Z;
  active_read_write_transactions : gset TransactionId;
  active_transaction_conflict_ledger_bytes : Z;
  finished_transactions : gset TransactionId;
  evictable_finished_transactions : gset TransactionId;
  finished_transaction_deadlines : gset (LogicalInstant * TransactionId);
  transaction_prune_visits : Z; contention_visits : Z; transaction_eviction_visits : Z }.

Definition no_transactions (scope : LimitScope) (offset : Z) : Ledger :=
  {| limit_scope := scope; next_transaction := offset; next_query_execution := 0; transactions := ∅; active_transaction_count := 0; transaction_releases := 0;
     active_transaction_deadlines := ∅; active_transaction_versions := ∅; active_read_write_transactions := ∅; active_transaction_conflict_ledger_bytes := 0;
     finished_transactions := ∅; evictable_finished_transactions := ∅; finished_transaction_deadlines := ∅;
     transaction_prune_visits := 0; contention_visits := 0; transaction_eviction_visits := 0 |}.

(** Assignments to the fields. *)
Definition set_transactions (m : gmap TransactionId Transaction) (l : Ledger) : Ledger :=
  {| limit_scope := limit_scope l; next_transaction := next_transaction l; next_query_execution := next_query_execution l; transactions := m;
     active_transaction_count := active_transaction_count l; transaction_releases := transaction_releases l; active_transaction_deadlines := active_transaction_deadlines l;
     active_transaction_versions := active_transaction_versions l; active_read_write_transactions := active_read_write_transactions l;
     active_transaction_conflict_ledger_bytes := active_transaction_conflict_ledger_bytes l; finished_transactions := finished_transactions l;
     evictable_finished_transactions := evictable_finished_transactions l; finished_transaction_deadlines := finished_transaction_deadlines l;
     transaction_prune_visits := transaction_prune_visits l; contention_visits := contention_visits l; transaction_eviction_visits := transaction_eviction_visits l |}.

Definition set_ids (transaction execution : Z) (l : Ledger) : Ledger :=
  {| limit_scope := limit_scope l; next_transaction := transaction; next_query_execution := execution; transactions := transactions l;
     active_transaction_count := active_transaction_count l; transaction_releases := transaction_releases l; active_transaction_deadlines := active_transaction_deadlines l;
     active_transaction_versions := active_transaction_versions l; active_read_write_transactions := active_read_write_transactions l;
     active_transaction_conflict_ledger_bytes := active_transaction_conflict_ledger_bytes l; finished_transactions := finished_transactions l;
     evictable_finished_transactions := evictable_finished_transactions l; finished_transaction_deadlines := finished_transaction_deadlines l;
     transaction_prune_visits := transaction_prune_visits l; contention_visits := contention_visits l; transaction_eviction_visits := transaction_eviction_visits l |}.

Definition set_active (count : Z) (deadlines : gset (LogicalInstant * TransactionId)) (versions : gmap CommitVersion Z) (rw : gset TransactionId) (bytes : Z) (l : Ledger) : Ledger :=
  {| limit_scope := limit_scope l; next_transaction := next_transaction l; next_query_execution := next_query_execution l; transactions := transactions l;
     active_transaction_count := count; transaction_releases := transaction_releases l; active_transaction_deadlines := deadlines;
     active_transaction_versions := versions; active_read_write_transactions := rw;
     active_transaction_conflict_ledger_bytes := bytes; finished_transactions := finished_transactions l;
     evictable_finished_transactions := evictable_finished_transactions l; finished_transaction_deadlines := finished_transaction_deadlines l;
     transaction_prune_visits := transaction_prune_visits l; contention_visits := contention_visits l; transaction_eviction_visits := transaction_eviction_visits l |}.

Definition set_finished (finished evictable : gset TransactionId) (deadlines : gset (LogicalInstant * TransactionId)) (l : Ledger) : Ledger :=
  {| limit_scope := limit_scope l; next_transaction := next_transaction l; next_query_execution := next_query_execution l; transactions := transactions l;
     active_transaction_count := active_transaction_count l; transaction_releases := transaction_releases l; active_transaction_deadlines := active_transaction_deadlines l;
     active_transaction_versions := active_transaction_versions l; active_read_write_transactions := active_read_write_transactions l;
     active_transaction_conflict_ledger_bytes := active_transaction_conflict_ledger_bytes l; finished_transactions := finished;
     evictable_finished_transactions := evictable; finished_transaction_deadlines := deadlines;
     transaction_prune_visits := transaction_prune_visits l; contention_visits := contention_visits l; transaction_eviction_visits := transaction_eviction_visits l |}.

Definition set_counters (releases prune contention eviction : Z) (l : Ledger) : Ledger :=
  {| limit_scope := limit_scope l; next_transaction := next_transaction l; next_query_execution := next_query_execution l; transactions := transactions l;
     active_transaction_count := active_transaction_count l; transaction_releases := releases; active_transaction_deadlines := active_transaction_deadlines l;
     active_transaction_versions := active_transaction_versions l; active_read_write_transactions := active_read_write_transactions l;
     active_transaction_conflict_ledger_bytes := active_transaction_conflict_ledger_bytes l; finished_transactions := finished_transactions l;
     evictable_finished_transactions := evictable_finished_transactions l; finished_transaction_deadlines := finished_transaction_deadlines l;
     transaction_prune_visits := prune; contention_visits := contention; transaction_eviction_visits := eviction |}.

(** ** Finishing, forgetting and evicting *)

Definition is_active (t : Transaction) : bool := bool_decide (t_state t = Active).

Definition decrement_version_count (versions : gmap CommitVersion Z) (v : CommitVersion) : gmap CommitVersion Z :=
  match versions !! v with
  | None => versions
  | Some count => let count := count - 1 in if count =? 0 then delete v versions else <[v := count]> versions
  end.

(** [*versions.entry(v).or_default() += 1] *)
Definition increment_version_count (versions : gmap CommitVersion Z) (v : CommitVersion) : gmap CommitVersion Z := <[v := default 0 (versions !! v) + 1]> versions.

Definition remembered_as_expired (l : Ledger) (id : TransactionId) : bool :=
  bool_decide (limit_scope l = Production) && match transactions l !! id with Some t => bool_decide (t_state t = Finished) | None => false end.

Definition sync_evictable_finished_transaction (id : TransactionId) (l : Ledger) : Ledger :=
  if bool_decide (limit_scope l = Production)
  then set_finished (finished_transactions l)
         (if bool_decide (id ∈ finished_transactions l) && negb (remembered_as_expired l id) then {[id]} ∪ evictable_finished_transactions l else evictable_finished_transactions l ∖ {[id]})
         (finished_transaction_deadlines l) l
  else l.

(** The removal of a transaction that is not active. *)
Definition remove_inactive (id : TransactionId) (m : gmap TransactionId Transaction) : gmap TransactionId Transaction :=
  match m !! id with Some t => if is_active t then m else delete id m | None => m end.

Definition evict_one (id : TransactionId) (l : Ledger) : Ledger :=
  let deadlines := match transactions l !! id with
                   | Some t => finished_transaction_deadlines l ∖ {[(finished_lineage_deadline (limit_scope l) t, id)]}
                   | None => finished_transaction_deadlines l end in
  set_transactions (remove_inactive id (transactions l)) (set_finished (finished_transactions l ∖ {[id]}) (evictable_finished_transactions l ∖ {[id]}) deadlines l).

(** Every pass of the loop removes its candidate from the lineage or from the index of candidates. *)
Fixpoint evict_loop (fuel : nat) (l : Ledger) : Ledger :=
  match fuel with
  | O => l
  | S fuel =>
      if (size (finished_transactions l) <=? MAX_FINISHED_TRANSACTION_LINEAGE)%nat then l
      else
        let candidate := head (btree_iter (if bool_decide (limit_scope l = Production) then evictable_finished_transactions l else finished_transactions l)) in
        let examined := if bool_decide (is_Some candidate) then 1 else 0 in
        let l := set_counters (transaction_releases l) (transaction_prune_visits l) (contention_visits l) (saturating u64 (transaction_eviction_visits l + examined)) l in
        match candidate with None => l | Some id => evict_loop fuel (evict_one id l) end
  end.

Definition evict_finished_transactions (l : Ledger) : Ledger := evict_loop (S (size (finished_transactions l) + size (evictable_finished_transactions l))) l.

(** The end of an active transaction, before its lineage is evicted. *)
Definition finish_active (id : TransactionId) (state : TransactionState) (t : Transaction) (l : Ledger) : Ledger :=
  let scope := limit_scope l in
  let l := set_active (Z.max 0 (active_transaction_count l - 1)) (active_transaction_deadlines l ∖ {[(transaction_deadline scope t, id)]})
             (decrement_version_count (active_transaction_versions l) (read_version t)) (active_read_write_transactions l ∖ {[id]})
             (sat_sub (active_transaction_conflict_ledger_bytes l) (conflict_ledger_bytes t)) l in
  let l := set_counters (wrapping u64 (transaction_releases l + 1)) (transaction_prune_visits l) (contention_visits l) (transaction_eviction_visits l) l in
  let l := set_transactions (<[id := cleared (set_waits None [] (set_state state t))]> (transactions l)) l in
  let l := set_finished ({[id]} ∪ finished_transactions l) (evictable_finished_transactions l) ({[(transaction_lineage_deadline t, id)]} ∪ finished_transaction_deadlines l) l in
  sync_evictable_finished_transaction id l.

Definition finish_transaction (id : TransactionId) (state : TransactionState) (l : Ledger) : Ledger :=
  match transactions l !! id with
  | Some t =>
      if is_active t then evict_finished_transactions (finish_active id state t l)
      else sync_evictable_finished_transaction id (set_transactions (<[id := set_state state t]> (transactions l)) l)
  | None => sync_evictable_finished_transaction id l
  end.

(** One finished transaction of which the retention has ended. *)
Definition forget_one (entry : LogicalInstant * TransactionId) (l : Ledger) : Ledger :=
  set_transactions (remove_inactive entry.2 (transactions l))
    (set_finished (finished_transactions l ∖ {[entry.2]}) (evictable_finished_transactions l ∖ {[entry.2]}) (finished_transaction_deadlines l ∖ {[entry]}) l).

(** The entries of a set that the loop only removes from, up to [now]: it pops the least one while it is due. *)
Definition due (now : LogicalInstant) (s : gset (LogicalInstant * TransactionId)) : list (LogicalInstant * TransactionId) :=
  take_while (fun e => e.1 <=? now) (btree_iter s).

Definition forget_elapsed_finished_transactions (now : LogicalInstant) (l : Ledger) : bool * Ledger :=
  let entries := due now (finished_transaction_deadlines l) in
  (negb (bool_decide (entries = [])), evict_finished_transactions (fold_left (fun l entry => forget_one entry l) entries l)).

(** One active transaction of which the deadline has passed. *)
Definition prune_one (entry : LogicalInstant * TransactionId) (state : bool * Ledger) : bool * Ledger :=
  let '(changed, l) := state in
  let '(deadline, id) := entry in
  let l := set_active (active_transaction_count l) (active_transaction_deadlines l ∖ {[(deadline, id)]}) (active_transaction_versions l) (active_read_write_transactions l)
             (active_transaction_conflict_ledger_bytes l) l in
  let l := set_counters (transaction_releases l) (saturating u64 (transaction_prune_visits l + 1)) (contention_visits l) (transaction_eviction_visits l) l in
  match transactions l !! id with
  | None => (changed, l)
  | Some t =>
      if negb (is_active t) || negb (transaction_deadline (limit_scope l) t =? deadline) then (changed, l)
      else
        let held := bool_decide (id ∈ active_read_write_transactions l) in
        let t := set_lifetime (deadline =? transaction_lineage_deadline t) (set_state Finished t) in
        let t' := cleared t in
        let l := set_counters (if held then wrapping u64 (transaction_releases l + 1) else transaction_releases l) (transaction_prune_visits l) (contention_visits l) (transaction_eviction_visits l) l in
        let l := set_active (Z.max 0 (active_transaction_count l - 1)) (active_transaction_deadlines l) (decrement_version_count (active_transaction_versions l) (read_version t))
                   (active_read_write_transactions l ∖ {[id]}) (sat_sub (active_transaction_conflict_ledger_bytes l) (conflict_ledger_bytes t)) l in
        (true, set_transactions (<[id := t']> (transactions l))
                 (set_finished ({[id]} ∪ finished_transactions l) (evictable_finished_transactions l)
                    ({[(finished_lineage_deadline (limit_scope l) t', id)]} ∪ finished_transaction_deadlines l) l))
  end.

Definition prune_transactions (now : LogicalInstant) (l : Ledger) : bool * Ledger :=
  let '(changed, l) := fold_left (fun state entry => prune_one entry state) (due now (active_transaction_deadlines l)) (false, l) in
  let '(forgot, l) := forget_elapsed_finished_transactions now l in
  (changed || forgot, l).

Definition read_write_holder_expired (now : LogicalInstant) (l : Ledger) : bool :=
  existsb (fun '(deadline, id) => bool_decide (id ∈ active_read_write_transactions l) &&
    match transactions l !! id with Some t => is_active t && (transaction_deadline (limit_scope l) t =? deadline) | None => false end) (due now (active_transaction_deadlines l)).

Definition keep_lifetime_expired_transaction (id : TransactionId) (deadline : LogicalInstant) (l : Ledger) : bool * Ledger :=
  match transactions l !! id with
  | None => (false, l)
  | Some t =>
      if negb (bool_decide (limit_scope l = OfficialEmulator)) || negb (deadline =? transaction_lineage_deadline t) then (false, l)
      else
        let plain := (finished_lineage_deadline (limit_scope l) t, id) in
        let t := set_lifetime true t in
        let kept := (finished_lineage_deadline (limit_scope l) t, id) in
        let deadlines := if bool_decide (plain ∈ finished_transaction_deadlines l) then {[kept]} ∪ (finished_transaction_deadlines l ∖ {[plain]}) else finished_transaction_deadlines l in
        (true, set_finished (finished_transactions l) (evictable_finished_transactions l) deadlines (set_transactions (<[id := t]> (transactions l)) l))
  end.

(** ** Beginning *)

Definition ensure_transaction_capacity (l : Ledger) : result unit FirestoreError := r_refuse (MAX_ACTIVE_TRANSACTIONS <=? active_transaction_count l) FailedPrecondition.

Definition new_transaction (ro : bool) (version : CommitVersion) (time now : LogicalInstant) : Transaction :=
  {| read_only := ro; read_version := version; t_read_time := time; started_at := now; read_set := ∅; queries := []; conflict_ledger_bytes := 0; last_activity := now;
     t_state := Active; activity := 0; waiting_to_commit := None; owned_commit_waits := []; deadlock_victim := false; snapshot_pending := false; lifetime_expired := false;
     first_read_time := None; retried_while_live := false |}.

Definition insert_transaction (ro : bool) (version : CommitVersion) (time now : LogicalInstant) (l : Ledger) : result TransactionId FirestoreError * Ledger :=
  let l := (prune_transactions now l).2 in
  match ensure_transaction_capacity l with
  | Err e => (Err e, l)
  | Ok _ =>
      let id := wrapping u64 (next_transaction l + 1) in
      let t := new_transaction ro version time now in
      let l := set_ids id (next_query_execution l) l in
      let l := set_active (active_transaction_count l + 1) ({[(transaction_deadline (limit_scope l) t, id)]} ∪ active_transaction_deadlines l)
                 (increment_version_count (active_transaction_versions l) version) (if ro then active_read_write_transactions l else {[id]} ∪ active_read_write_transactions l)
                 (active_transaction_conflict_ledger_bytes l) l in
      (Ok id, set_transactions (<[id := t]> (transactions l)) l)
  end.

(** [if let Some(transaction) = self.transactions.get_mut(id) { .. }] *)
Definition modify_transaction (id : TransactionId) (f : Transaction -> Transaction) (l : Ledger) : Ledger :=
  match transactions l !! id with Some t => set_transactions (<[id := f t]> (transactions l)) l | None => l end.

(** [let id = call?; self.transactions.get_mut(&id).map(f); Ok(id)] *)
Definition then_modify (f : Transaction -> Transaction) (r : result TransactionId FirestoreError * Ledger) : result TransactionId FirestoreError * Ledger :=
  match r with (Ok id, l) => (Ok id, modify_transaction id f l) | (Err e, l) => (Err e, l) end.

Definition set_pending (pending : bool) (t : Transaction) : Transaction := set_snapshot pending (read_version t) (t_read_time t) t.

Definition begin_transaction (d : Documents) (ro : bool) (now : LogicalInstant) (l : Ledger) : result TransactionId FirestoreError * Ledger :=
  let time := read_time d now in
  then_modify (set_first_read (Some time)) (insert_transaction ro (current_version d) time now l).

Definition begin_read_only_transaction (d : Documents) (now : LogicalInstant) (l : Ledger) : result TransactionId FirestoreError * Ledger :=
  then_modify (fun t => set_pending (bool_decide (limit_scope l = Production)) (set_first_read None t)) (begin_transaction d true now l).

Definition begin_read_write_transaction (d : Documents) (now : LogicalInstant) (l : Ledger) : result TransactionId FirestoreError * Ledger :=
  then_modify (fun t => set_pending true (set_first_read None t)) (begin_transaction d false now l).

Definition begin_transaction_at (d : Documents) (time now : LogicalInstant) (l : Ledger) : result TransactionId FirestoreError * Ledger :=
  match version_at_retained d time with
  | None => (Err FailedPrecondition, l)
  | Some version => insert_transaction true version time now l
  end.

Definition retryable (s : TransactionState) : bool := match s with RetryableAborted | RolledBack | Committed | CommitRefused => true | _ => false end.

Definition retry_transaction (d : Documents) (previous : TransactionId) (now : LogicalInstant) (l : Ledger) : result TransactionId FirestoreError * Ledger :=
  let l := (prune_transactions now l).2 in
  match transactions l !! previous with
  | None => (Err InvalidArgument, l)
  | Some t =>
      if read_only t then (Err InvalidArgument, l)
      else
        let live := is_active t in
        let l := if live then finish_transaction previous RolledBack l else l in
        match transactions l !! previous with
        | None => (Err InvalidArgument, l)
        | Some t =>
            let expired := bool_decide (t_state t = Finished) in
            if negb expired && negb (retryable (t_state t)) then (Err InvalidArgument, l)
            else match ensure_transaction_capacity l with
            | Err e => (Err e, l)
            | Ok _ =>
                let l := if expired then l else modify_transaction previous (set_retried live) l in
                then_modify (set_pending true) (insert_transaction false (current_version d) (read_time d now) now l)
            end
        end
  end.

Definition abandon_transaction (id : TransactionId) (l : Ledger) : Ledger :=
  match transactions l !! id with
  | None => l
  | Some t =>
      let l := set_transactions (delete id (transactions l)) l in
      if is_active t
      then set_active (Z.max 0 (active_transaction_count l - 1)) (active_transaction_deadlines l ∖ {[(transaction_deadline (limit_scope l) t, id)]})
             (decrement_version_count (active_transaction_versions l) (read_version t)) (active_read_write_transactions l ∖ {[id]})
             (sat_sub (active_transaction_conflict_ledger_bytes l) (conflict_ledger_bytes t)) l
      else set_finished (finished_transactions l ∖ {[id]}) (evictable_finished_transactions l ∖ {[id]})
             (finished_transaction_deadlines l ∖ {[(finished_lineage_deadline (limit_scope l) t, id)]}) l
  end.

(** ** The transaction of a request *)

(** [transaction(id)] against the compaction floor. *)
Definition transaction (d : Documents) (id : TransactionId) (l : Ledger) : result Transaction FirestoreError :=
  match transactions l !! id with
  | Some t =>
      if is_active t && (compaction_floor d <=? read_version t) then Ok t
      else if bool_decide (t_state t = CommitRefused) && bool_decide (limit_scope l = Production) then Err InvalidArgument
      else Err Aborted
  | None => Err InvalidArgument
  end.

Definition serves_retried_read (d : Documents) (id : TransactionId) (l : Ledger) : bool :=
  bool_decide (limit_scope l = OfficialEmulator) &&
  match transactions l !! id with Some t => bool_decide (t_state t = Retried) && retried_while_live t && (compaction_floor d <=? read_version t) | None => false end.

Definition reading_transaction (d : Documents) (id : TransactionId) (l : Ledger) : result Transaction FirestoreError :=
  match transactions l !! id with
  | Some t => if serves_retried_read d id l then Ok t else transaction d id l
  | None => transaction d id l
  end.

Definition read_error_after_lifetime (id : TransactionId) (error : FirestoreError) (l : Ledger) : FirestoreError :=
  let lifetime := bool_decide (limit_scope l = OfficialEmulator) && match transactions l !! id with Some t => lifetime_expired t && bool_decide (t_state t = Finished) | None => false end in
  match error with Aborted => if lifetime then InvalidArgument else Aborted | _ => error end.

Definition transaction_is_active (id : TransactionId) (l : Ledger) : bool := match transactions l !! id with Some t => is_active t | None => false end.

Definition transaction_activity (id : TransactionId) (l : Ledger) : option Z := t ← transactions l !! id; if is_active t then Some (activity t) else None.

(** ** What a transaction observes *)

Definition observed_document_bytes (p : DocumentPath) (document : option Document) : Z :=
  match document with
  | None => saturating u64 (Z.of_nat (length (resource_name p)) + 32)
  | Some doc => match document_size_bytes p (fields doc) with Ok n => n | Err _ => int_max u64 end
  end.

Definition over_budget (t : Transaction) (additional : Z) (l : Ledger) : bool :=
  (MAX_TRANSACTION_CONFLICT_LEDGER_BYTES <? sat_add (conflict_ledger_bytes t) additional) ||
  (MAX_ACTIVE_TRANSACTION_CONFLICT_LEDGER_BYTES <? sat_add (active_transaction_conflict_ledger_bytes l) additional).

(** The charge of an observation, to its transaction and to all of them. *)
Definition charge_transaction (id : TransactionId) (t : Transaction) (reads : gmap DocumentPath (option CommitVersion)) (qs : list TransactionQueryObservation) (additional : Z) (l : Ledger) : Ledger :=
  set_active (active_transaction_count l) (active_transaction_deadlines l) (active_transaction_versions l) (active_read_write_transactions l)
    (sat_add (active_transaction_conflict_ledger_bytes l) additional)
    (set_transactions (<[id := set_observed reads qs (sat_add (conflict_ledger_bytes t) additional) t]> (transactions l)) l).

Definition record_transaction_read (d : Documents) (id : TransactionId) (p : DocumentPath) (observed : option Document) (l : Ledger) : result unit FirestoreError * Ledger :=
  if serves_retried_read d id l then (Ok tt, l)
  else match transaction d id l with
  | Err e => (Err e, l)
  | Ok t =>
      if read_only t then (Ok tt, l)
      else
        let additional := match read_set t !! p with Some _ => 0 | None => observed_document_bytes p observed end in
        if over_budget t additional l then (Err Aborted, finish_transaction id RetryableAborted l)
        else (Ok tt, charge_transaction id t (<[p := version <$> observed]> (read_set t)) (queries t) additional l)
  end.

Definition get_in_transaction (d : Documents) (id : TransactionId) (p : DocumentPath) (l : Ledger) : result (option Document) FirestoreError * Ledger :=
  match reading_transaction d id l with
  | Err e => (Err e, l)
  | Ok t =>
      let doc := get_at d p (read_version t) in
      match record_transaction_read d id p doc l with (Ok _, l) => (Ok doc, l) | (Err e, l) => (Err e, l) end
  end.

Definition allocate_query_execution_id (l : Ledger) : QueryExecutionId * Ledger :=
  let n := wrapping u64 (next_query_execution l + 1) in (n, set_ids (next_transaction l) n l).

Fixpoint position {A} (f : A -> bool) (xs : list A) : option nat :=
  match xs with [] => None | x :: xs => if f x then Some 0%nat else S <$> position f xs end.

Definition has_execution (execution : QueryExecutionId) (q : TransactionQueryObservation) : bool := execution_id q =? execution.

Definition push_row (o : QueryObservation) (r : ObservedQueryDocument) : QueryObservation := push_parts o (row_path r) (row_version r).

(** The rows of another page, and whether it is the last. *)
Definition append_rows (rows : list ObservedQueryDocument) (finished : bool) (q : TransactionQueryObservation) : TransactionQueryObservation :=
  {| execution_id := execution_id q; query := query q; q_required_fields := q_required_fields q; observation := fold_left push_row rows (observation q);
     q_consumption := q_consumption q; complete := finished || complete q |}.

Definition read_row (reads : gmap DocumentPath (option CommitVersion)) (r : ObservedQueryDocument) : gmap DocumentPath (option CommitVersion) := <[row_path r := Some (row_version r)]> reads.

Section queries.
Context (query_retained_bytes : Query -> Z).

Definition record_transaction_query_observation_parts (id : TransactionId) (execution : QueryExecutionId) (q : Query) (o : QueryObservation) (rows : list ObservedQueryDocument)
    (required_fields : list FieldPath) (consumption : Consumption) (append : bool) (finished : bool) (l : Ledger) : result unit FirestoreError * Ledger :=
  let index := t ← transactions l !! id; position (has_execution execution) (FsLedger.queries t) in
  if (append && bool_decide (index = None)) || (negb append && negb (bool_decide (index = None))) then (Err InvalidArgument, l)
  else
    let new := bool_decide (index = None) in
    match transactions l !! id with
    | None => (Ok tt, l)
    | Some t =>
        if new && (MAX_TRANSACTION_QUERY_RECORDS <=? length (FsLedger.queries t))%nat then (Err Aborted, finish_transaction id RetryableAborted l)
        else
          let document_bytes := fold_left sat_add (map row_bytes (filter (fun r => read_set t !! row_path r = None) rows)) 0 in
          let additional := sat_add document_bytes (if new then query_retained_bytes q else 0) in
          if over_budget t additional l then (Err Aborted, finish_transaction id RetryableAborted l)
          else
            let qs := match index with
                      | Some i => alter (append_rows rows finished) i (FsLedger.queries t)
                      | None => FsLedger.queries t ++ [{| execution_id := execution; query := q; q_required_fields := required_fields; observation := o; q_consumption := consumption; complete := finished |}]
                      end in
            (Ok tt, charge_transaction id t (fold_left read_row rows (read_set t)) qs additional l)
    end.

Definition observed_row (doc : Document) : ObservedQueryDocument := {| row_path := path doc; row_version := version doc; row_bytes := observed_document_bytes (path doc) (Some doc) |}.

Definition record_transaction_query_observation (d : Documents) (id : TransactionId) (execution : QueryExecutionId) (q : Query) (docs : list Document) (append finished : bool) (l : Ledger)
    : result unit FirestoreError * Ledger :=
  match transaction d id l with
  | Err e => (Err e, l)
  | Ok t =>
      let rows := if read_only t then [] else map observed_row docs in
      let o := if read_only t then no_observation else query_observation docs in
      record_transaction_query_observation_parts id execution q o rows [] Ordered append finished l
  end.

Definition record_transaction_query (d : Documents) (id : TransactionId) (q : Query) (docs : list Document) (l : Ledger) : result unit FirestoreError * Ledger :=
  let '(execution, l) := allocate_query_execution_id l in record_transaction_query_observation d id execution q docs false true l.
End queries.

Definition completed (q : TransactionQueryObservation) : TransactionQueryObservation := append_rows [] true q.

Definition finish_transaction_query_execution (d : Documents) (id : TransactionId) (execution : QueryExecutionId) (l : Ledger) : result unit FirestoreError * Ledger :=
  match transaction d id l with
  | Err e => (Err e, l)
  | Ok t =>
      match position (has_execution execution) (queries t) with
      | None => (Err InvalidArgument, l)
      | Some i => (Ok tt, modify_transaction id (fun t => set_observed (read_set t) (alter completed i (queries t)) (conflict_ledger_bytes t) t) l)
      end
  end.

Definition transaction_recorded_query_count (d : Documents) (id : TransactionId) (l : Ledger) : result nat FirestoreError := let* t := transaction d id l in Ok (length (queries t)).

(** ** Rolling back *)

Definition rolled_back_again (t : Transaction) : bool :=
  (bool_decide (t_state t = RetryableAborted) && deadlock_victim t) || match t_state t with RolledBack | Finished | CommitRefused => true | _ => false end.

Definition rollback (d : Documents) (id : TransactionId) (l : Ledger) : result unit FirestoreError * Ledger :=
  let active := match transaction d id l with Err e => (Err e, l) | Ok _ => (Ok tt, finish_transaction id RolledBack l) end in
  match transactions l !! id with
  | None => active
  | Some t =>
      if rolled_back_again t then
        if bool_decide (limit_scope l = Production) && lifetime_expired t && bool_decide (t_state t = Finished) then (Err Aborted, l) else (Ok tt, l)
      else if bool_decide (limit_scope l = OfficialEmulator) && bool_decide (t_state t = Retried) then (Ok tt, l)
      else active
  end.

Definition rollback_at (d : Documents) (id : TransactionId) (now : LogicalInstant) (l : Ledger) : result unit FirestoreError * Ledger :=
  if negb (bool_decide (limit_scope l = Production)) then rollback d id l
  else
    let over := match transactions l !! id with Some t => is_active t && (transaction_lineage_deadline t <=? now) | None => false end in
    let l := if over then (prune_transactions now l).2 else (forget_elapsed_finished_transactions now l).2 in
    match transactions l !! id with
    | Some t => if bool_decide (t_state t = Finished) && (transaction_lineage_deadline t <=? now) then (Err Aborted, l) else rollback d id l
    | None => rollback d id l
    end.
