(* ===== verification/FsLedgerWf.v ===== *)
(** * The invariant of the transaction ledger

    The indexes of [Ledger] are views of its transactions, and every operation keeps them so:
    the deadlines, versions, counts and bytes of the active transactions, the finished lineage
    with what may be evicted, and an end for everything that is remembered. *)
From S2P Require Import Prelude Time Text Hash FsDocPath FsSize FsDocument FsListing FsFieldPath FsQuery FsSelect FsValidate FsUsage FsHistory FsScope FsLedger.
#[local] Set Warnings "-register-all".

(** ** Totals over the transactions *)

Definition total (w : Transaction -> Z) (m : gmap TransactionId Transaction) : Z := z_sum (fun e => w e.2) (map_to_list m).

Definition weigh (w : Transaction -> Z) (o : option Transaction) : Z := match o with Some t => w t | None => 0 end.

Lemma z_sum_perm {A} (f : A -> Z) (l m : list A) : l ≡ₚ m -> z_sum f l = z_sum f m.
Proof. unfold z_sum. induction 1; cbn in *; lia. Qed.

Lemma total_insert w m id t : total w (<[id := t]> m) = w t + total w (delete id m).
Proof.
  unfold total. rewrite <- (insert_delete_eq m id t), (z_sum_perm _ _ ((id, t) :: map_to_list (delete id m))); [done|]. apply map_to_list_insert, lookup_delete_eq.
Qed.

Lemma total_lookup w m id : total w m = weigh w (m !! id) + total w (delete id m).
Proof.
  destruct (m !! id) as [t|] eqn:Ht; cbn [weigh]; [by rewrite <- total_insert, insert_id|]. by rewrite delete_id.
Qed.

(** The transactions after one entry was replaced or removed. *)
Definition replace_entry (id : TransactionId) (o : option Transaction) (m : gmap TransactionId Transaction) : gmap TransactionId Transaction :=
  match o with Some t => <[id := t]> m | None => delete id m end.

Lemma total_replace w m id o : total w (replace_entry id o m) = total w m - weigh w (m !! id) + weigh w o.
Proof. rewrite (total_lookup w m id). destruct o; cbn [replace_entry weigh]; [rewrite total_insert|]; lia. Qed.

Lemma lookup_replace id id' o m : replace_entry id o m !! id' = if decide (id' = id) then o else m !! id'.
Proof. destruct o; cbn [replace_entry]; case_decide as H; subst; by rewrite ?lookup_insert_eq, ?lookup_insert_ne, ?lookup_delete_eq, ?lookup_delete_ne by done. Qed.

Lemma total_nonneg w m : (forall id t, m !! id = Some t -> 0 <= w t) -> 0 <= total w m.
Proof.
  intros H. unfold total, z_sum. assert (Hall : Forall (fun e : TransactionId * Transaction => 0 <= w e.2) (map_to_list m)) by (apply Forall_forall; intros [id t] Hin%elem_of_map_to_list; by apply (H id)).
  induction Hall as [|e l He _ IH]; cbn; lia.
Qed.

Lemma total_ge w m id t : m !! id = Some t -> (forall id t, m !! id = Some t -> 0 <= w t) -> w t <= total w m.
Proof.
  intros Ht H. rewrite (total_lookup w m id), Ht. cbn [weigh]. assert (0 <= total w (delete id m)); [|lia]. apply total_nonneg. intros id' t' [_ H']%lookup_delete_Some. by apply (H id').
Qed.

Definition one_active (t : Transaction) : Z := if is_active t then 1 else 0.
Definition one_reading (v : CommitVersion) (t : Transaction) : Z := if is_active t && (read_version t =? v) then 1 else 0.

(** ** The views *)

(** What the sets of the ledger hold of one identifier. *)
Record view_at (l : Ledger) (id : TransactionId) : Prop := {
  va_deadline : forall d, (d, id) ∈ active_transaction_deadlines l <-> exists t, transactions l !! id = Some t /\ is_active t = true /\ transaction_deadline (limit_scope l) t = d;
  va_rw : id ∈ active_read_write_transactions l <-> exists t, transactions l !! id = Some t /\ is_active t = true /\ read_only t = false;
  va_finished : id ∈ finished_transactions l <-> exists t, transactions l !! id = Some t /\ is_active t = false;
  va_evictable : id ∈ evictable_finished_transactions l <-> limit_scope l = Production /\ exists t, transactions l !! id = Some t /\ is_active t = false /\ t_state t <> Finished;
  va_remembered : forall t, transactions l !! id = Some t -> is_active t = false -> exists d, (d, id) ∈ finished_transaction_deadlines l;
  va_over : forall d, (d, id) ∈ finished_transaction_deadlines l -> 0 <= id <= next_transaction l /\ forall t, transactions l !! id = Some t -> is_active t = false;
  va_entry : forall t, transactions l !! id = Some t -> 0 <= id <= next_transaction l /\ 0 <= conflict_ledger_bytes t <= MAX_TRANSACTION_CONFLICT_LEDGER_BYTES /\
    (is_active t = false -> read_set t = ∅ /\ queries t = [] /\ conflict_ledger_bytes t = 0) }.

Record totals_ok (l : Ledger) : Prop := {
  to_ids : 0 <= next_transaction l <= int_max u64;
  to_count : active_transaction_count l = total one_active (transactions l) /\ active_transaction_count l <= MAX_ACTIVE_TRANSACTIONS;
  to_versions : forall v, default 0 (active_transaction_versions l !! v) = total (one_reading v) (transactions l) /\ active_transaction_versions l !! v <> Some 0;
  to_bytes : active_transaction_conflict_ledger_bytes l = total conflict_ledger_bytes (transactions l) /\ active_transaction_conflict_ledger_bytes l <= MAX_ACTIVE_TRANSACTION_CONFLICT_LEDGER_BYTES }.

Record ledger_wf (l : Ledger) : Prop := { lw_views : forall id, view_at l id; lw_totals : totals_ok l }.

(** The sets of [l'] and [l] agree at an identifier. *)
Definition same_at (l l' : Ledger) (id : TransactionId) : Prop :=
  transactions l' !! id = transactions l !! id /\ (forall d, (d, id) ∈ active_transaction_deadlines l' <-> (d, id) ∈ active_transaction_deadlines l) /\
  (id ∈ active_read_write_transactions l' <-> id ∈ active_read_write_transactions l) /\ (id ∈ finished_transactions l' <-> id ∈ finished_transactions l) /\
  (id ∈ evictable_finished_transactions l' <-> id ∈ evictable_finished_transactions l) /\ (forall d, (d, id) ∈ finished_transaction_deadlines l' <-> (d, id) ∈ finished_transaction_deadlines l).

Lemma view_same l l' id : limit_scope l' = limit_scope l -> next_transaction l <= next_transaction l' -> same_at l l' id -> view_at l id -> view_at l' id.
Proof.
  intros Hscope Hnext (Ht & H1 & H2 & H3 & H4 & H5) [V1 V2 V3 V4 V5 V6 V7]. split; setoid_rewrite Ht; rewrite ?Hscope.
  - intros d. by rewrite H1, V1.
  - by rewrite H2, V2.
  - by rewrite H3, V3.
  - by rewrite H4, V4.
  - intros t Hl Ha. destruct (V5 t Hl Ha) as [d Hd]. exists d. by apply H5.
  - intros d Hd%H5. destruct (V6 d Hd). split; [lia|done].
  - intros t Hl. destruct (V7 t Hl) as (? & ? & ?). split_and!; try done; lia.
Qed.

(** One transaction replaced or removed: its own views and the totals suffice. *)
Lemma one_active_bounds o : 0 <= weigh one_active o <= 1.
Proof. destruct o as [t|]; cbn; [unfold one_active; destruct (is_active t)|]; lia. Qed.

(** What takes the place of an entry is no more active than the entry, or there is room. *)
Definition affordable (l : Ledger) (id : TransactionId) (n : option Transaction) : Prop :=
  weigh one_active n <= weigh one_active (transactions l !! id) \/ active_transaction_count l < MAX_ACTIVE_TRANSACTIONS.

Lemma affordable_inactive l id n : weigh one_active n = 0 -> affordable l id n.
Proof. intros H. left. rewrite H. apply one_active_bounds. Qed.

Lemma wf_replace l l' id n : affordable l id n -> ledger_wf l -> limit_scope l' = limit_scope l -> next_transaction l <= next_transaction l' <= int_max u64 ->
  transactions l' = replace_entry id n (transactions l) -> (forall id', id' <> id -> same_at l l' id') -> view_at l' id ->
  active_transaction_count l' = active_transaction_count l - weigh one_active (transactions l !! id) + weigh one_active n ->
  (forall v, default 0 (active_transaction_versions l' !! v) = default 0 (active_transaction_versions l !! v) - weigh (one_reading v) (transactions l !! id) + weigh (one_reading v) n /\
    active_transaction_versions l' !! v <> Some 0) ->
  active_transaction_conflict_ledger_bytes l' = active_transaction_conflict_ledger_bytes l - weigh conflict_ledger_bytes (transactions l !! id) + weigh conflict_ledger_bytes n ->
  active_transaction_conflict_ledger_bytes l' <= MAX_ACTIVE_TRANSACTION_CONFLICT_LEDGER_BYTES -> ledger_wf l'.
Proof.
  intros Hafford [Hviews Htot] Hscope Hnext Htx Hsame Hview Hcount Hversions Hbytes Hmax. split.
  - intros id'. destruct (decide (id' = id)) as [->|Hne]; [done|]. apply (view_same l); [done|lia|by apply Hsame|done].
  - destruct Htot as [T1 T2 T3 T4]. split; rewrite ?Htx; [lia| | |].
    + destruct T2 as [T2 Hmaxcount]. rewrite total_replace, Hcount, T2. split; [done|]. rewrite <- T2. destruct Hafford; pose proof (one_active_bounds n); pose proof (one_active_bounds (transactions l !! id)); lia.
    + intros v. rewrite total_replace. destruct (Hversions v) as [-> ?], (T3 v) as [-> _]. done.
    + destruct T4 as [T4 _]. split; [|done]. by rewrite total_replace, Hbytes, T4.
Qed.

(** ** The counts by version *)

Lemma decrement_lookup vs v w : (forall u, vs !! u <> Some 0) -> 0 < default 0 (vs !! v) ->
  default 0 (decrement_version_count vs v !! w) = default 0 (vs !! w) - (if v =? w then 1 else 0) /\ decrement_version_count vs v !! w <> Some 0.
Proof.
  intros Hz Hv. unfold decrement_version_count. destruct (vs !! v) as [n|] eqn:E; [|by change (0 < 0) in Hv]. change (0 < n) in Hv. destruct (Z.eqb_spec v w) as [<-|Hne].
  - rewrite E. change (default 0 (Some n)) with n. destruct (Z.eqb_spec (n - 1) 0); [rewrite lookup_delete_eq; split; [change (0 = n - 1); lia|done]|]. rewrite lookup_insert_eq. split; [done|congruence].
  - rewrite Z.sub_0_r. destruct (n - 1 =? 0); rewrite ?lookup_delete_ne, ?lookup_insert_ne by done; auto.
Qed.

Lemma increment_lookup vs v w : (forall u, vs !! u <> Some 0) -> 0 <= default 0 (vs !! v) ->
  default 0 (increment_version_count vs v !! w) = default 0 (vs !! w) + (if v =? w then 1 else 0) /\ increment_version_count vs v !! w <> Some 0.
Proof.
  intros Hz Hv. unfold increment_version_count. destruct (Z.eqb_spec v w) as [<-|Hne].
  - rewrite lookup_insert_eq. split; [done|]. intros [= H]. lia.
  - rewrite lookup_insert_ne by done. split; [lia|auto].
Qed.

Lemma one_reading_nonneg v t : 0 <= one_reading v t.
Proof. unfold one_reading. by destruct (_ && _). Qed.

Lemma one_active_nonneg t : 0 <= one_active t.
Proof. unfold one_active. by destruct (is_active t). Qed.

Section totals.
Context (l : Ledger) (Hwf : ledger_wf l).

Lemma entry_ok id t : transactions l !! id = Some t -> 0 <= id <= next_transaction l /\ 0 <= conflict_ledger_bytes t <= MAX_TRANSACTION_CONFLICT_LEDGER_BYTES /\
  (is_active t = false -> read_set t = ∅ /\ queries t = [] /\ conflict_ledger_bytes t = 0).
Proof. apply va_entry. by apply lw_views. Qed.

Lemma version_counted v : 0 <= default 0 (active_transaction_versions l !! v).
Proof. destruct (to_versions l (lw_totals l Hwf) v) as [-> _]. apply total_nonneg. intros. apply one_reading_nonneg. Qed.

Lemma versions_nonzero v : active_transaction_versions l !! v <> Some 0.
Proof. by destruct (to_versions l (lw_totals l Hwf) v). Qed.

Lemma active_counted id t : transactions l !! id = Some t -> is_active t = true ->
  0 < active_transaction_count l /\ 0 < default 0 (active_transaction_versions l !! read_version t) /\ conflict_ledger_bytes t <= active_transaction_conflict_ledger_bytes l.
Proof.
  intros Ht Ha. destruct Hwf as [_ [_ [T2 _] T3 [T4 _]]]. rewrite T2, T4. destruct (T3 (read_version t)) as [-> _]. split_and!.
  - pose proof (total_ge one_active _ id t Ht ltac:(intros; apply one_active_nonneg)) as H. unfold one_active at 1 in H. rewrite Ha in H. lia.
  - pose proof (total_ge (one_reading (read_version t)) _ id t Ht ltac:(intros; apply one_reading_nonneg)) as H. unfold one_reading at 1 in H. rewrite Ha, Z.eqb_refl in H. cbn in H. lia.
  - apply (total_ge conflict_ledger_bytes _ id t Ht). intros id' t' Ht'. by apply (entry_ok id').
Qed.

Lemma bytes_bounded : 0 <= active_transaction_conflict_ledger_bytes l <= MAX_ACTIVE_TRANSACTION_CONFLICT_LEDGER_BYTES.
Proof.
  destruct Hwf as [_ [_ _ _ [T4 Hle]]]. split; [|done]. rewrite T4. apply total_nonneg. intros id t Ht. by apply (entry_ok id).
Qed.
End totals.

(** Away from the identifier of a transaction, removing its entries from the sets or adding them changes nothing. *)
Ltac away := intros; unfold same_at; cbn; rewrite ?lookup_insert_ne, ?lookup_delete_ne by done; split_and!; try done; intros; rewrite ?elem_of_union, ?elem_of_difference, ?elem_of_singleton; naive_solver.

Lemma is_active_true t : is_active t = true <-> t_state t = Active.
Proof. unfold is_active. by rewrite bool_decide_eq_true. Qed.

Lemma is_active_false t : is_active t = false <-> t_state t <> Active.
Proof. unfold is_active. by rewrite bool_decide_eq_false. Qed.

(** What [sync_evictable_finished_transaction] leaves in the index of candidates. *)
Definition synced (id : TransactionId) (l : Ledger) : gset TransactionId :=
  if bool_decide (limit_scope l = Production)
  then if bool_decide (id ∈ finished_transactions l) && negb (remembered_as_expired l id) then {[id]} ∪ evictable_finished_transactions l else evictable_finished_transactions l ∖ {[id]}
  else evictable_finished_transactions l.

Lemma sync_form id l : sync_evictable_finished_transaction id l = set_finished (finished_transactions l) (synced id l) (finished_transaction_deadlines l) l.
Proof. unfold sync_evictable_finished_transaction, synced. case_bool_decide; [done|by destruct l]. Qed.

Lemma synced_other id id' l : id' <> id -> id' ∈ synced id l <-> id' ∈ evictable_finished_transactions l.
Proof. intros Hne. unfold synced. case_bool_decide; [|done]. destruct (_ && _); set_solver. Qed.

(** After an inactive transaction is in the lineage, synchronizing makes its candidacy right. *)
Lemma synced_at id l t : transactions l !! id = Some t -> id ∈ finished_transactions l -> (limit_scope l <> Production -> id ∉ evictable_finished_transactions l) ->
  id ∈ synced id l <-> limit_scope l = Production /\ t_state t <> Finished.
Proof.
  intros Ht Hin Hno. unfold synced. destruct (decide (limit_scope l = Production)) as [Hp|Hp].
  - rewrite bool_decide_true, (bool_decide_true (id ∈ _)) by done. unfold remembered_as_expired. rewrite Ht, bool_decide_true by done. cbn. case_bool_decide; cbn; set_solver.
  - rewrite bool_decide_false by done. naive_solver.
Qed.

Lemma sub_bytes l id t : ledger_wf l -> transactions l !! id = Some t -> is_active t = true ->
  sat_sub (active_transaction_conflict_ledger_bytes l) (conflict_ledger_bytes t) = active_transaction_conflict_ledger_bytes l - conflict_ledger_bytes t.
Proof.
  intros Hwf Ht Ha. destruct (active_counted l Hwf id t Ht Ha) as (_ & _ & Hb). pose proof (entry_ok l Hwf id t Ht) as (_ & Hbytes & _). pose proof (bytes_bounded l Hwf) as Hmax.
  unfold sat_sub. apply saturating_id. unfold fits. cbn [int_min int_max u64]. unfold MAX_ACTIVE_TRANSACTION_CONFLICT_LEDGER_BYTES in Hmax. lia.
Qed.

(** The totals after an active transaction [t] is over. *)
Lemma deactivated l id t t' : ledger_wf l -> transactions l !! id = Some t -> is_active t = true -> is_active t' = false -> conflict_ledger_bytes t' = 0 ->
  Z.max 0 (active_transaction_count l - 1) = active_transaction_count l - weigh one_active (transactions l !! id) + weigh one_active (Some t') /\
  (forall v, default 0 (decrement_version_count (active_transaction_versions l) (read_version t) !! v) =
    default 0 (active_transaction_versions l !! v) - weigh (one_reading v) (transactions l !! id) + weigh (one_reading v) (Some t') /\
    decrement_version_count (active_transaction_versions l) (read_version t) !! v <> Some 0) /\
  sat_sub (active_transaction_conflict_ledger_bytes l) (conflict_ledger_bytes t) =
    active_transaction_conflict_ledger_bytes l - weigh conflict_ledger_bytes (transactions l !! id) + weigh conflict_ledger_bytes (Some t') /\
  sat_sub (active_transaction_conflict_ledger_bytes l) (conflict_ledger_bytes t) <= MAX_ACTIVE_TRANSACTION_CONFLICT_LEDGER_BYTES.
Proof.
  intros Hwf Ht Ha Ha' Hb'. destruct (active_counted l Hwf id t Ht Ha) as (Hc & Hv & Hb). pose proof (entry_ok l Hwf id t Ht) as (_ & Hbytes & _). pose proof (bytes_bounded l Hwf) as Hmax.
  rewrite (sub_bytes l id t Hwf Ht Ha), Ht. cbn [weigh]. unfold one_active. rewrite Ha, Ha', Hb'. split_and!; [lia| |lia|lia].
  intros v. unfold one_reading. rewrite Ha, Ha'. cbn [andb]. destruct (decrement_lookup (active_transaction_versions l) (read_version t) v) as [-> ?]; [by apply versions_nonzero|done|]. split; [|done].
  destruct (_ =? _); lia.
Qed.

Lemma inactive_absurd t : is_active t = false -> is_active t = true -> False.
Proof. congruence. Qed.

Lemma finish_active_wf l id t state : ledger_wf l -> transactions l !! id = Some t -> is_active t = true -> state <> Active -> ledger_wf (finish_active id state t l).
Proof.
  intros Hwf Ht Ha Hstate. set (t' := cleared (set_waits None [] (set_state state t))). assert (Ha' : is_active t' = false) by by apply is_active_false.
  destruct (deactivated l id t t' Hwf Ht Ha Ha' eq_refl) as (D1 & D2 & D3 & D4). pose proof (to_ids l (lw_totals l Hwf)) as Hnext. pose proof (lw_views l Hwf id) as [V1 V2 V3 V4 V5 V6 V7].
  assert (Hev : id ∉ evictable_finished_transactions l) by (intros (_ & t0 & Ht0 & Hi & _)%V4; congruence).
  unfold finish_active. rewrite sync_form. apply (wf_replace l _ id (Some t')); try done; [apply affordable_inactive; cbn [weigh]; unfold one_active; by rewrite Ha'|..].
  - exact (conj (Z.le_refl _) (proj2 Hnext)).
  - intros id' Hne. unfold same_at. cbn -[synced]. rewrite lookup_insert_ne by done. split_and!; try done; intros; rewrite ?synced_other by done; set_solver.
  - split; cbn -[synced]; rewrite ?lookup_insert_eq.
    + intros d. rewrite elem_of_difference, elem_of_singleton, V1. split; [|by intros (? & [= <-] & []%(inactive_absurd _ Ha') & _)]. intros [(t0 & Ht0 & _ & <-) Hne]. destruct Hne. congruence.
    + split; [set_solver|]. by intros (? & [= <-] & []%(inactive_absurd _ Ha') & _).
    + split; [|set_solver]. intros _. by exists t'.
    + erewrite synced_at; [|cbn; apply lookup_insert_eq|cbn; set_solver|cbn; done]. cbn. split; [intros [? ?]; split; [done|]; by exists t'|intros (? & ? & [= <-] & _ & ?); done].
    + intros _ _ _. exists (transaction_lineage_deadline t). set_solver.
    + intros d [[= _]%elem_of_singleton|Hd]%elem_of_union; (split; [by apply (V7 t)|]); by intros ? [= <-].
    + intros ? [= <-]. split_and!; try done; by apply (V7 t).
Qed.

(** An inactive transaction leaves the ledger. *)
Lemma remove_wf l id fd : ledger_wf l -> (forall t, transactions l !! id = Some t -> is_active t = false) ->
  (forall d id', (d, id') ∈ fd -> (d, id') ∈ finished_transaction_deadlines l) -> (forall d id', id' <> id -> (d, id') ∈ finished_transaction_deadlines l -> (d, id') ∈ fd) ->
  ledger_wf (set_transactions (delete id (transactions l)) (set_finished (finished_transactions l ∖ {[id]}) (evictable_finished_transactions l ∖ {[id]}) fd l)).
Proof.
  intros Hwf Hin Hsub Hother. pose proof (to_ids l (lw_totals l Hwf)) as Hnext. pose proof (lw_views l Hwf id) as [V1 V2 V3 V4 V5 V6 V7].
  assert (Hzero : forall w, (forall t, is_active t = false -> conflict_ledger_bytes t = 0 -> w t = 0) -> weigh w (transactions l !! id) = 0).
  { intros w Hw. destruct (transactions l !! id) as [t|] eqn:Ht; [|done]. apply Hw; [by apply Hin|]. destruct (entry_ok l Hwf id t Ht) as (_ & _ & H). by apply H, Hin. }
  apply (wf_replace l _ id None); try done; [by apply affordable_inactive|..].
  - exact (conj (Z.le_refl _) (proj2 Hnext)).
  - intros id' Hne. unfold same_at. cbn. rewrite lookup_delete_ne by done. split_and!; try done; [set_solver..|]. intros d. split; auto.
  - split; cbn; rewrite ?lookup_delete_eq; try done.
    + intros d. rewrite V1. split; [intros (t & Ht & Ha & _)|by intros (? & ? & _)]. pose proof (Hin t Ht). congruence.
    + rewrite V2. split; [intros (t & Ht & Ha & _)|by intros (? & ? & _)]. pose proof (Hin t Ht). congruence.
    + split; [set_solver|by intros (? & ? & _)].
    + split; [set_solver|by intros (_ & ? & ? & _)].
    + intros d [Hid _]%Hsub%V6. done.
  - cbn [weigh]. rewrite Hzero; [cbn; lia|]. intros t Ha _. unfold one_active. by rewrite Ha.
  - intros v. cbn [weigh]. rewrite Hzero; [|intros t Ha _; unfold one_reading; by rewrite Ha]. cbn. split; [lia|by apply versions_nonzero].
  - cbn [weigh]. rewrite Hzero; [cbn; lia|done].
  - cbn. by apply (bytes_bounded l Hwf).
Qed.

Lemma remove_inactive_form id m : (forall t, m !! id = Some t -> is_active t = false) -> remove_inactive id m = delete id m.
Proof. intros H. unfold remove_inactive. destruct (m !! id) as [t|] eqn:Ht; [by rewrite (H t)|by rewrite delete_id]. Qed.

Lemma evict_one_wf id l : ledger_wf l -> id ∈ finished_transactions l -> ledger_wf (evict_one id l).
Proof.
  intros Hwf Hin. apply (va_finished l id (lw_views l Hwf id)) in Hin as (t & Ht & Ha). unfold evict_one. rewrite Ht, remove_inactive_form by (intros t0; rewrite Ht; by intros [= <-]).
  apply remove_wf; [done|intros t0; rewrite Ht; by intros [= <-]|set_solver|]. intros d id' Hne Hd. set_solver.
Qed.

(** The fields that only count. *)
Lemma set_counters_wf l r p c e : ledger_wf l -> ledger_wf (set_counters r p c e l).
Proof. intros [Hv [T1 T2 T3 T4]]. split; [|by split]. intros id. destruct (Hv id) as [V1 V2 V3 V4 V5 V6 V7]. by split. Qed.

Lemma candidate_finished l id : ledger_wf l -> head (btree_iter (if bool_decide (limit_scope l = Production) then evictable_finished_transactions l else finished_transactions l)) = Some id -> id ∈ finished_transactions l.
Proof.
  intros Hwf Hh%head_Some_elem_of%elem_of_btree_iter. case_bool_decide; [|done]. apply (va_evictable l id (lw_views l Hwf id)) in Hh as (_ & t & Ht & Ha & _). apply (va_finished l id (lw_views l Hwf id)). by exists t.
Qed.

Lemma evict_loop_wf fuel : forall l, ledger_wf l -> ledger_wf (evict_loop fuel l).
Proof.
  induction fuel as [|fuel IH]; intros l Hwf; [done|]. cbn [evict_loop]. destruct (_ <=? _)%nat; [done|]. cbv zeta. destruct (head _) as [id|] eqn:Hh; [|by apply set_counters_wf].
  apply IH, evict_one_wf; [by apply set_counters_wf|]. by apply (candidate_finished l).
Qed.

Lemma evict_wf l : ledger_wf l -> ledger_wf (evict_finished_transactions l).
Proof. apply evict_loop_wf. Qed.

(** A change of one transaction that keeps its budget, its reads and its activity. *)
Definition kept_alike (t t' : Transaction) : Prop :=
  is_active t' = is_active t /\ read_only t' = read_only t /\ (is_active t = true -> read_version t' = read_version t) /\ conflict_ledger_bytes t' = conflict_ledger_bytes t /\
  (is_active t = true -> forall scope, transaction_deadline scope t' = transaction_deadline scope t) /\ (is_active t = false -> read_set t' = read_set t /\ queries t' = queries t).

(** Such a change, with the index of candidates and the finished deadlines brought up to date. *)
Lemma alike_wf l id t t' ev fd : ledger_wf l -> transactions l !! id = Some t -> kept_alike t t' ->
  (forall id', id' <> id -> id' ∈ ev <-> id' ∈ evictable_finished_transactions l) -> (id ∈ ev <-> limit_scope l = Production /\ is_active t' = false /\ t_state t' <> Finished) ->
  (forall d id', id' <> id -> (d, id') ∈ fd <-> (d, id') ∈ finished_transaction_deadlines l) -> ((exists d, (d, id) ∈ fd) <-> exists d, (d, id) ∈ finished_transaction_deadlines l) ->
  ledger_wf (set_transactions (<[id := t']> (transactions l)) (set_finished (finished_transactions l) ev fd l)).
Proof.
  intros Hwf Ht (K1 & K2 & K3 & K4 & K5 & K6) E1 E2 F1 F2. pose proof (to_ids l (lw_totals l Hwf)) as Hnext. pose proof (lw_views l Hwf id) as [V1 V2 V3 V4 V5 V6 V7].
  assert (Hw : weigh one_active (Some t') = weigh one_active (transactions l !! id) /\ forall v, weigh (one_reading v) (Some t') = weigh (one_reading v) (transactions l !! id)).
  { rewrite Ht. cbn [weigh]. unfold one_active, one_reading. rewrite K1. split; [done|]. intros v. destruct (is_active t); [by rewrite K3|done]. }
  apply (wf_replace l _ id (Some t')); try done; [left; destruct Hw as [-> _]; lia|..].
  - exact (conj (Z.le_refl _) (proj2 Hnext)).
  - intros id' Hne. unfold same_at. cbn. rewrite lookup_insert_ne by done. split_and!; try done; [by apply E1|]. intros d. by apply F1.
  - split; cbn; rewrite ?lookup_insert_eq.
    + intros d. rewrite V1, Ht. split; intros (? & [= <-] & Ha & <-); eexists; (split; [done|]); [rewrite K1, K5 by done|rewrite K1 in Ha; rewrite <- K5 by done]; done.
    + rewrite V2, Ht. split; intros (? & [= <-] & Ha & Hr); eexists; (split; [done|]); rewrite ?K1, ?K2 in *; done.
    + rewrite V3, Ht. split; intros (? & [= <-] & Ha); eexists; (split; [done|]); by rewrite K1 in *.
    + rewrite E2. split; [intros (? & ? & ?); split; [done|]; by exists t'|intros (? & ? & [= <-] & ? & ?); done].
    + intros t0 [= <-] Ha. apply F2. apply (V5 t Ht). by rewrite K1 in Ha.
    + intros d Hd. destruct (proj1 F2 (ex_intro _ d Hd)) as [d' Hd']. destruct (V6 d' Hd') as [Hid Hin]. split; [done|]. intros t0 [= <-]. rewrite K1. by apply Hin.
    + intros t0 [= <-]. destruct (V7 t Ht) as (? & ? & H). rewrite K1, K4. split_and!; try (done || lia). intros Ha. destruct (H Ha) as (? & ? & ?), (K6 Ha) as [-> ->]. done.
  - destruct Hw as [-> _]. cbn. lia.
  - intros v. destruct Hw as [_ ->]. split; [cbn; lia|]. by apply (versions_nonzero l Hwf).
  - cbn [weigh]. rewrite Ht, K4. cbn. lia.
  - by apply (bytes_bounded l Hwf).
Qed.

Lemma finish_wf id state l : ledger_wf l -> state <> Active -> ledger_wf (finish_transaction id state l).
Proof.
  intros Hwf Hstate. unfold finish_transaction. pose proof (lw_views l Hwf id) as [V1 V2 V3 V4 V5 V6 V7]. destruct (transactions l !! id) as [t|] eqn:Ht.
  - destruct (is_active t) eqn:Ha; [by apply evict_wf, finish_active_wf|]. rewrite sync_form. set (l1 := set_transactions _ l).
    assert (Hnew : is_active (set_state state t) = false) by by apply is_active_false.
    apply (alike_wf l id t (set_state state t) (synced id l1) (finished_transaction_deadlines l)); try done.
    + split_and!; cbn; try done. by rewrite Hnew.
    + intros. by rewrite synced_other.
    + rewrite (synced_at id l1 (set_state state t)); [|by cbn; rewrite lookup_insert_eq|by apply V3; exists t|by intros Hp [? _]%V4]. cbn. naive_solver.
  - rewrite sync_form. assert (Hs : synced id l = evictable_finished_transactions l).
    { unfold synced. case_bool_decide; [|done]. rewrite bool_decide_false; [cbn; apply set_eq; intros x; rewrite elem_of_difference, elem_of_singleton; split; [tauto|]; intros Hx; split; [done|]; intros ->; apply V4 in Hx as (_ & ? & ? & _); congruence|].
      intros (? & ? & _)%V3. congruence. }
    rewrite Hs. by destruct l.
Qed.

Lemma forget_one_wf e l : ledger_wf l -> e ∈ finished_transaction_deadlines l -> ledger_wf (forget_one e l).
Proof.
  intros Hwf He. destruct e as [d id]. destruct (va_over l id (lw_views l Hwf id) d He) as [_ Hin]. unfold forget_one. cbn [fst snd]. rewrite remove_inactive_form by done.
  apply remove_wf; [done|done|set_solver|]. intros d' id' Hne Hd. set_solver.
Qed.

Lemma elem_of_take_while {A} (f : A -> bool) l x : x ∈ take_while f l -> x ∈ l.
Proof. induction l as [|y l IH]; cbn; [done|]. destruct (f y); [|by intros ?%elem_of_nil]. rewrite !elem_of_cons. tauto. Qed.

Lemma NoDup_take_while {A} (f : A -> bool) l : NoDup l -> NoDup (take_while f l).
Proof. induction 1 as [|x l Hx _ IH]; cbn; [constructor|]. destruct (f x); constructor; [|done]. intros ?%elem_of_take_while. done. Qed.

Lemma due_spec now s : NoDup (due now s) /\ forall e, e ∈ due now s -> e ∈ s.
Proof. split; [apply NoDup_take_while, NoDup_btree_iter|]. intros e He%elem_of_take_while. by apply elem_of_btree_iter. Qed.

Lemma forget_fold_wf entries : forall l, NoDup entries -> (forall e, e ∈ entries -> e ∈ finished_transaction_deadlines l) -> ledger_wf l ->
  ledger_wf (fold_left (fun l entry => forget_one entry l) entries l).
Proof.
  induction entries as [|e entries IH]; intros l Hnd Hin Hwf; [done|]. apply NoDup_cons in Hnd as [He Hnd]. cbn [fold_left]. apply IH; [done| |by apply forget_one_wf; [done|apply Hin; left]].
  intros e' He'. cbn. apply elem_of_difference. split; [apply Hin; by right|]. rewrite elem_of_singleton. by intros ->.
Qed.

Lemma forget_wf now l : ledger_wf l -> ledger_wf (forget_elapsed_finished_transactions now l).2.
Proof. intros Hwf. cbn. destruct (due_spec now (finished_transaction_deadlines l)) as [Hnd Hin]. by apply evict_wf, forget_fold_wf. Qed.

(** A change that moves no transaction between the indexes. *)
Lemma modify_transaction_wf l id f : ledger_wf l -> (forall t, transactions l !! id = Some t -> kept_alike t (f t) /\ (is_active t = false -> t_state (f t) = Finished <-> t_state t = Finished)) ->
  ledger_wf (modify_transaction id f l).
Proof.
  intros Hwf Hf. unfold modify_transaction. destruct (transactions l !! id) as [t|] eqn:Ht; [|done]. destruct (Hf t eq_refl) as [Hk Hfin]. pose proof (proj1 Hk) as K1.
  replace (set_transactions _ l) with (set_transactions (<[id := f t]> (transactions l)) (set_finished (finished_transactions l) (evictable_finished_transactions l) (finished_transaction_deadlines l) l)) by by destruct l.
  apply (alike_wf l id t); try done. rewrite (va_evictable l id (lw_views l Hwf id)), Ht, K1. split.
  - intros (? & ? & [= <-] & Ha & Hs). split_and!; try done. by rewrite Hfin.
  - intros (? & Ha & Hs). split; [done|]. exists t. split_and!; try done. by rewrite <- Hfin.
Qed.

Lemma keep_wf id deadline l : ledger_wf l -> ledger_wf (keep_lifetime_expired_transaction id deadline l).2.
Proof.
  intros Hwf. unfold keep_lifetime_expired_transaction. destruct (transactions l !! id) as [t|] eqn:Ht; [|done]. destruct (_ || _); [done|]. cbn [snd].
  set (plain := (finished_lineage_deadline (limit_scope l) t, id)). set (kept := (finished_lineage_deadline (limit_scope l) (set_lifetime true t), id)).
  pose proof (lw_views l Hwf id) as [V1 V2 V3 V4 V5 V6 V7].
  apply (alike_wf l id t (set_lifetime true t)); try done.
  - rewrite V4, Ht. cbn. unfold is_active. cbn. split; [intros (? & ? & [= <-] & ?); done|intros (? & ?); split; [done|]; by exists t].
  - intros d id' Hne. destruct (bool_decide _); [|done]. subst plain kept. rewrite elem_of_union, elem_of_difference, !elem_of_singleton. split; [intros [[= -> ->]|[? _]]; done|]. intros Hd. right. split; [done|congruence].
  - case_bool_decide as Hp; [|done]. split; intros [d Hd].
    + eexists. exact Hp.
    + exists kept.1. subst kept. set_solver.
Qed.

(** The end of an active transaction whose deadline has passed. *)
Lemma prune_one_wf e changed l : ledger_wf l -> e ∈ active_transaction_deadlines l -> ledger_wf (prune_one e (changed, l)).2.
Proof.
  destruct e as [d id]. intros Hwf He. pose proof (lw_views l Hwf id) as [V1 V2 V3 V4 V5 V6 V7]. apply V1 in He as (t & Ht & Ha & Hd). pose proof (to_ids l (lw_totals l Hwf)) as Hnext.
  unfold prune_one. cbn -[finished_lineage_deadline cleared set_lifetime set_state decrement_version_count sat_sub]. rewrite Ht, Ha, Hd, Z.eqb_refl. cbn [negb orb].
  set (t1 := set_lifetime _ (set_state Finished t)). set (t' := cleared t1).
  assert (Ha' : is_active t' = false) by done. destruct (deactivated l id t t' Hwf Ht Ha Ha' eq_refl) as (D1 & D2 & D3 & D4).
  apply (wf_replace l _ id (Some t')); try done; [by apply affordable_inactive|..].
  - exact (conj (Z.le_refl _) (proj2 Hnext)).
  - intros id' Hne. unfold same_at. cbn. rewrite lookup_insert_ne by done. split_and!; try done; set_solver.
  - split; cbn; rewrite ?lookup_insert_eq.
    + intros d'. rewrite elem_of_difference, elem_of_singleton, V1. split; [|by intros (? & [= <-] & []%(inactive_absurd _ Ha') & _)]. intros [(t0 & Ht0 & _ & <-) Hne]. destruct Hne. congruence.
    + split; [set_solver|]. by intros (? & [= <-] & []%(inactive_absurd _ Ha') & _).
    + split; [|set_solver]. intros _. by exists t'.
    + split; [intros (_ & ? & ? & ? & _)%V4; congruence|]. by intros (_ & ? & [= <-] & _ & []).
    + intros t0 [= <-] _. exists (finished_lineage_deadline (limit_scope l) t'). set_solver.
    + intros d' [[= _]%elem_of_singleton|Hd']%elem_of_union; (split; [by apply (V7 t)|]); by intros ? [= <-].
    + intros ? [= <-]. split_and!; try done; by apply (V7 t).
Qed.

Lemma prune_one_deadlines e state : active_transaction_deadlines (prune_one e state).2 = active_transaction_deadlines state.2 ∖ {[e]}.
Proof. destruct state as [changed l], e as [d id]. unfold prune_one. cbn. destruct (transactions l !! id); [|done]. by destruct (_ || _). Qed.

Lemma prune_fold_wf entries : forall state, NoDup entries -> (forall e, e ∈ entries -> e ∈ active_transaction_deadlines state.2) -> ledger_wf state.2 ->
  ledger_wf (fold_left (fun state entry => prune_one entry state) entries state).2.
Proof.
  induction entries as [|e entries IH]; intros state Hnd Hin Hwf; [done|]. apply NoDup_cons in Hnd as [He Hnd]. cbn [fold_left]. apply IH; [done| |].
  - intros e' He'. rewrite prune_one_deadlines. apply elem_of_difference. split; [apply Hin; by right|]. rewrite elem_of_singleton. by intros ->.
  - destruct state as [changed l]. apply prune_one_wf; [done|]. apply (Hin e). by left.
Qed.

Lemma prune_form now l : prune_transactions now l =
  let s := fold_left (fun state entry => prune_one entry state) (due now (active_transaction_deadlines l)) (false, l) in
  let f := forget_elapsed_finished_transactions now s.2 in (s.1 || f.1, f.2).
Proof. unfold prune_transactions. destruct (fold_left _ _ _) as [changed l1]. cbn [fst snd]. by destruct (forget_elapsed_finished_transactions now l1). Qed.

Lemma prune_wf now l : ledger_wf l -> ledger_wf (prune_transactions now l).2.
Proof. intros Hwf. rewrite prune_form. destruct (due_spec now (active_transaction_deadlines l)) as [Hnd Hin]. by apply forget_wf, prune_fold_wf. Qed.

(** ** The open transactions *)

(** What the operations promise is about the transactions that are active. *)
Definition open (l : Ledger) (id : TransactionId) : option Transaction := t ← transactions l !! id; if is_active t then Some t else None.

Lemma open_Some l id t : open l id = Some t <-> transactions l !! id = Some t /\ is_active t = true.
Proof. unfold open. destruct (transactions l !! id) as [t0|]; cbn; [|by split; [|intros []]]. destruct (is_active t0) eqn:E; (split; [intros [= ->]; done|intros [[= ->] ?]; congruence]). Qed.

Lemma open_replace l l' id n : transactions l' = replace_entry id n (transactions l) -> forall id', open l' id' = if decide (id' = id) then t ← n; if is_active t then Some t else None else open l id'.
Proof. intros H id'. unfold open. rewrite H, lookup_replace. by case_decide. Qed.

(** The fields that nothing but a beginning changes. *)
Definition same_ids (l l' : Ledger) : Prop := limit_scope l' = limit_scope l /\ next_transaction l' = next_transaction l /\ next_query_execution l' = next_query_execution l.

Lemma same_ids_trans l1 l2 l3 : same_ids l1 l2 -> same_ids l2 l3 -> same_ids l1 l3.
Proof. unfold same_ids. intros (-> & -> & ->) (-> & -> & ->). done. Qed.

(** Maintenance of the lineage: what is open stays as it is. *)
Definition quiet (l l' : Ledger) : Prop := same_ids l l' /\ forall id, open l' id = open l id.

Lemma quiet_ledger_refl l : quiet l l.
Proof. done. Qed.

Lemma quiet_trans l1 l2 l3 : quiet l1 l2 -> quiet l2 l3 -> quiet l1 l3.
Proof. intros [H1 O1] [H2 O2]. split; [by eapply same_ids_trans|]. intros id. by rewrite O2. Qed.

Lemma remove_quiet id l l' : same_ids l l' -> transactions l' = remove_inactive id (transactions l) -> quiet l l'.
Proof.
  intros Hs Ht. split; [done|]. intros id'. unfold open. rewrite Ht. unfold remove_inactive. destruct (transactions l !! id) as [t|] eqn:E; [|done]. destruct (is_active t) eqn:Ha; [done|].
  destruct (decide (id' = id)) as [->|]; [by rewrite lookup_delete_eq, E; cbn; rewrite Ha|by rewrite lookup_delete_ne].
Qed.

Lemma evict_quiet l : quiet l (evict_finished_transactions l).
Proof.
  unfold evict_finished_transactions. generalize (S (size (finished_transactions l) + size (evictable_finished_transactions l))). intros fuel. revert l.
  induction fuel as [|fuel IH]; intros l; [done|]. cbn [evict_loop]. destruct (_ <=? _)%nat; [done|]. cbv zeta. destruct (head _) as [id|]; [|done].
  eapply quiet_trans; [|apply IH]. by apply (remove_quiet id).
Qed.

Lemma forget_quiet now l : quiet l (forget_elapsed_finished_transactions now l).2.
Proof.
  cbn. eapply quiet_trans; [|apply evict_quiet]. generalize (due now (finished_transaction_deadlines l)). intros entries. revert l.
  induction entries as [|e entries IH]; intros l; [done|]. cbn [fold_left]. eapply quiet_trans; [|apply IH]. by apply (remove_quiet e.2).
Qed.

Lemma sync_quiet id l : quiet l (sync_evictable_finished_transaction id l).
Proof. by rewrite sync_form. Qed.

(** Finishing closes exactly its transaction. *)
Lemma finish_open id state l : state <> Active -> same_ids l (finish_transaction id state l) /\ forall id', open (finish_transaction id state l) id' = if decide (id' = id) then None else open l id'.
Proof.
  intros Hstate.
  unfold finish_transaction. destruct (transactions l !! id) as [t|] eqn:Ht; [destruct (is_active t) eqn:Ha|].
  - destruct (evict_quiet (finish_active id state t l)) as [H1 H2]. split; [eapply same_ids_trans; [|exact H1]; unfold finish_active; by rewrite sync_form|]. intros id'. rewrite H2. unfold finish_active. rewrite sync_form.
    erewrite (open_replace l _ id (Some (cleared (set_waits None [] (set_state state t))))); [|reflexivity]. destruct (decide (id' = id)); [|done]. cbn -[is_active]. by rewrite (proj2 (is_active_false _)).
  - rewrite sync_form. split; [done|]. intros id'. erewrite (open_replace l _ id (Some (set_state state t))); [|reflexivity]. destruct (decide (id' = id)); [|done]. cbn -[is_active]. by rewrite (proj2 (is_active_false _)).
  - rewrite sync_form. split; [done|]. intros id'. case_decide as Hid; [|done]. subst. unfold open. cbn. by rewrite Ht.
Qed.

(** Pruning closes exactly the transactions of which the deadline is over. *)
Lemma prune_fold_open entries : forall state, (forall e, e ∈ entries -> exists t, open state.2 e.2 = Some t /\ transaction_deadline (limit_scope state.2) t = e.1) -> NoDup (map snd entries) ->
  let state' := fold_left (fun state entry => prune_one entry state) entries state in
  same_ids state.2 state'.2 /\ forall id, open state'.2 id = if decide (id ∈ map snd entries) then None else open state.2 id.
Proof.
  induction entries as [|[d id] entries IH]; intros [changed l] Hin Hnd; [done|]. cbn [map snd] in Hnd. apply NoDup_cons in Hnd as [He Hnd]. cbn [fold_left].
  destruct (Hin (d, id) ltac:(by left)) as (t & Ht & Hd). cbn [fst snd] in Ht, Hd. apply open_Some in Ht as [Ht Ha].
  assert (Hone : same_ids l (prune_one (d, id) (changed, l)).2 /\ forall id', open (prune_one (d, id) (changed, l)).2 id' = if decide (id' = id) then None else open l id').
  { unfold prune_one. cbn -[finished_lineage_deadline cleared set_lifetime set_state decrement_version_count sat_sub]. rewrite Ht, Ha, Hd, Z.eqb_refl. cbn [negb orb]. split; [done|]. intros id'.
    erewrite (open_replace l _ id (Some (cleared (set_lifetime (d =? transaction_lineage_deadline t) (set_state Finished t))))); [|reflexivity]. by case_decide. }
  destruct Hone as [H1 H2]. destruct (IH (prune_one (d, id) (changed, l))) as [H3 H4]; [|done|].
  - intros [d' id'] He'. destruct (Hin (d', id') ltac:(by right)) as (t' & Ht' & Hd'). exists t'. cbn [fst snd] in *. rewrite H2, decide_False; [|intros ->; apply He, list_elem_of_fmap; by exists (d', id)].
    split; [done|]. destruct H1 as [-> _]. done.
  - split; [by eapply same_ids_trans|]. intros id'. rewrite H4, H2. cbn [map snd]. destruct (decide (id' ∈ map snd entries)) as [Hi|Hi]; [by rewrite decide_True by by right|].
    destruct (decide (id' = id)) as [->|Hne]; [by rewrite decide_True by by left|]. rewrite decide_False; [done|]. by intros [?|?]%elem_of_cons.
Qed.

Lemma elem_of_due now s e : e ∈ due now s <-> e ∈ s /\ e.1 <= now.
Proof.
  unfold due. rewrite (take_while_filter ord_lt), list_elem_of_filter, elem_of_btree_iter, Z.leb_le; [tauto|apply btree_iter_sorted|].
  intros [a i] [b j] _ _. unfold ord_lt. cbn. unfold pair_cmp. cbn. rewrite !Z.leb_le. destruct (Z.compare_spec a b); intros; try done; lia.
Qed.

Lemma prune_open now l : ledger_wf l -> same_ids l (prune_transactions now l).2 /\
  forall id, open (prune_transactions now l).2 id = (t ← open l id; if transaction_deadline (limit_scope l) t <=? now then None else Some t).
Proof.
  intros Hwf. rewrite prune_form. cbn [snd]. set (entries := due now (active_transaction_deadlines l)).
  assert (Hspec : forall e, e ∈ entries <-> (exists t, open l e.2 = Some t /\ transaction_deadline (limit_scope l) t = e.1) /\ e.1 <= now).
  { intros [d id]. subst entries. rewrite elem_of_due, (va_deadline l id (lw_views l Hwf id)). cbn. setoid_rewrite open_Some. naive_solver. }
  assert (Hnd : NoDup (map snd entries)).
  { apply NoDup_fmap_2_strong; [|by apply due_spec]. intros [d id] [d' id'] H1 H2 [= Heq]. cbn in *. subst. apply Hspec in H1 as [(t & Ht & Hd) _], H2 as [(t' & Ht' & Hd') _]. cbn [fst snd] in *. congruence. }
  destruct (prune_fold_open entries (false, l)) as [H1 H2]; [intros e He; by apply Hspec in He as [? _]|done|]. set (s := fold_left _ _ _) in *.
  destruct (forget_quiet now s.2) as [H3 H4]. split; [by eapply same_ids_trans|]. intros id. rewrite H4, H2. destruct (decide (id ∈ map snd entries)) as [Hi|Hi].
  - apply list_elem_of_fmap in Hi as ([d id'] & -> & He). apply Hspec in He as [(t & Ht & Hd) Hle]. cbn [fst snd] in *. rewrite Ht. cbn. by rewrite Hd, (proj2 (Z.leb_le _ _) Hle).
  - destruct (open l id) as [t|] eqn:Ht; [|done]. cbn. destruct (Z.leb_spec (transaction_deadline (limit_scope l) t) now); [|done]. destruct Hi. apply list_elem_of_fmap.
    exists (transaction_deadline (limit_scope l) t, id). split; [done|]. apply Hspec. cbn. split; [by exists t|done].
Qed.

(** ** Beginning and abandoning *)

Lemma insert_pruned ro version time now l l' id : insert_transaction ro version time now l = (Ok id, l') ->
  let l1 := (prune_transactions now l).2 in let t := new_transaction ro version time now in
  active_transaction_count l1 < MAX_ACTIVE_TRANSACTIONS /\ id = wrapping u64 (next_transaction l1 + 1) /\
  l' = set_transactions (<[id := t]> (transactions l1)) (set_active (active_transaction_count l1 + 1) ({[(transaction_deadline (limit_scope l1) t, id)]} ∪ active_transaction_deadlines l1)
    (increment_version_count (active_transaction_versions l1) version) (if ro then active_read_write_transactions l1 else {[id]} ∪ active_read_write_transactions l1)
    (active_transaction_conflict_ledger_bytes l1) (set_ids id (next_query_execution l1) l1)).
Proof.
  unfold insert_transaction. cbv zeta. unfold ensure_transaction_capacity, r_refuse. destruct (Z.leb_spec MAX_ACTIVE_TRANSACTIONS (active_transaction_count (prune_transactions now l).2)); [done|]. intros [= <- <-]. done.
Qed.

Lemma insert_refused ro version time now l e l' : insert_transaction ro version time now l = (Err e, l') ->
  e = FailedPrecondition /\ MAX_ACTIVE_TRANSACTIONS <= active_transaction_count l' /\ l' = (prune_transactions now l).2.
Proof.
  unfold insert_transaction, ensure_transaction_capacity, r_refuse. destruct (Z.leb_spec MAX_ACTIVE_TRANSACTIONS (active_transaction_count (prune_transactions now l).2)); [|done]. by intros [= <- <-].
Qed.

Lemma insert_transaction_wf ro version time now l id l' : ledger_wf l -> next_transaction l < int_max u64 -> insert_transaction ro version time now l = (Ok id, l') ->
  ledger_wf l' /\ id = next_transaction l + 1 /\ open l id = None /\ forall id', open l' id' = if decide (id' = id) then Some (new_transaction ro version time now) else open (prune_transactions now l).2 id'.
Proof.
  intros Hwf0 Hroom (Hcap & Hid & ->)%insert_pruned. destruct (prune_open now l Hwf0) as [(Hscope & Hnext & Hexec) _]. pose proof (prune_wf now l Hwf0) as Hwf. set (l1 := (prune_transactions now l).2) in *.
  set (t := new_transaction ro version time now). pose proof (to_ids l (lw_totals l Hwf0)) as Hids. assert (Hid' : id = next_transaction l1 + 1) by (rewrite Hid, Hnext; apply wrapping_id; unfold fits; cbn [int_min int_max u64] in *; lia).
  assert (Hle : next_transaction l1 <= id <= int_max u64) by lia.
  assert (Hfresh : transactions l1 !! id = None) by (destruct (transactions l1 !! id) as [t0|] eqn:E; [destruct (entry_ok l1 Hwf id t0 E); lia|done]).
  pose proof (lw_views l1 Hwf id) as [V1 V2 V3 V4 V5 V6 V7]. split_and!.
  - apply (wf_replace l1 _ id (Some t)); try done; [by right|..].
    + intros id' Hne. unfold same_at. cbn. rewrite lookup_insert_ne by done. split_and!; try done; [set_solver|destruct ro; set_solver].
    + split; cbn; rewrite ?lookup_insert_eq.
      * intros d. rewrite elem_of_union, elem_of_singleton, V1, Hfresh. split; [intros [[= ->]|(? & ? & _)]; [by exists t|done]|intros (? & [= <-] & _ & <-); by left].
      * assert (Hno : id ∉ active_read_write_transactions l1) by (rewrite V2, Hfresh; by intros (? & ? & _)). destruct ro; [split; [done|by intros (? & [= <-] & _ & ?)]|]. split; [by exists t|set_solver].
      * rewrite V3, Hfresh. split; [by intros (? & ? & _)|by intros (? & [= <-] & ?)].
      * rewrite V4, Hfresh. split; [by intros (_ & ? & ? & _)|by intros (_ & ? & [= <-] & ? & _)].
      * by intros ? [= <-].
      * intros d [? _]%V6. lia.
      * intros ? [= <-]. split; [cbn; lia|]. split; [by split|done].
    + rewrite Hfresh. change (active_transaction_count l1 + 1 = active_transaction_count l1 - 0 + 1). lia.
    + intros v. rewrite Hfresh. cbn [weigh]. change (one_reading v t) with (if version =? v then 1 else 0). cbn -[increment_version_count]. destruct (increment_lookup (active_transaction_versions l1) version v) as [-> ?]; [by apply versions_nonzero|by apply version_counted|].
      split; [lia|done].
    + rewrite Hfresh. cbn. lia.
    + cbn. by apply (bytes_bounded l1 Hwf).
  - by rewrite Hid', Hnext.
  - destruct (open l id) as [t0|] eqn:E; [|done]. apply open_Some in E as [E _]. destruct (entry_ok l Hwf0 id t0 E). rewrite Hid', Hnext in *. lia.
  - intros id'. rewrite (open_replace l1 _ id (Some t)) by done. by destruct (decide (id' = id)).
Qed.

Lemma abandon_wf id l : ledger_wf l -> ledger_wf (abandon_transaction id l).
Proof.
  intros Hwf. unfold abandon_transaction. destruct (transactions l !! id) as [t|] eqn:Ht; [|done]. cbv zeta. destruct (is_active t) eqn:Ha.
  - pose proof (to_ids l (lw_totals l Hwf)) as Hnext. pose proof (lw_views l Hwf id) as [V1 V2 V3 V4 V5 V6 V7].
    destruct (deactivated l id t (cleared (set_state Finished t)) Hwf Ht Ha eq_refl eq_refl) as (D1 & D2 & D3 & D4).
    apply (wf_replace l _ id None); try done; [by apply affordable_inactive|..].
    + exact (conj (Z.le_refl _) (proj2 Hnext)).
    + intros id' Hne. unfold same_at. cbn. rewrite lookup_delete_ne by done. split_and!; try done; set_solver.
    + split; cbn; rewrite ?lookup_delete_eq; try done.
      * intros d. rewrite elem_of_difference, elem_of_singleton, V1. split; [|by intros (? & ? & _)]. intros [(t0 & Ht0 & _ & <-) Hne]. destruct Hne. congruence.
      * split; [set_solver|by intros (? & ? & _)].
      * rewrite V3. split; [intros (? & ? & ?); congruence|by intros (? & ? & _)].
      * rewrite V4. split; [intros (? & ? & ? & ? & _); congruence|by intros (_ & ? & ? & _)].
      * intros d [Hid _]%V6. done.
  - assert (H : ledger_wf (set_transactions (delete id (transactions l)) (set_finished (finished_transactions l ∖ {[id]}) (evictable_finished_transactions l ∖ {[id]})
      (finished_transaction_deadlines l ∖ {[(finished_lineage_deadline (limit_scope l) t, id)]}) l))); [|exact H].
    apply remove_wf; [done|intros t0 Ht0; congruence|intros d id'; rewrite elem_of_difference; tauto|].
    intros d id' Hne Hd. apply elem_of_difference. split; [done|]. rewrite elem_of_singleton. congruence.
Qed.

Lemma abandon_open id l id' : open (abandon_transaction id l) id' = if decide (id' = id) then None else open l id'.
Proof.
  unfold abandon_transaction. destruct (transactions l !! id) as [t|] eqn:Ht.
  - cbv zeta. destruct (is_active t); rewrite (open_replace l _ id None) by done; by destruct (decide (id' = id)).
  - destruct (decide (id' = id)) as [->|]; [|done]. unfold open. by rewrite Ht.
Qed.
