(* ===== verification/FsTransaction.v ===== *)
(** * What a Firestore transaction observes, and the reachable ledgers

    Proofs about [FsLedger.v]: recording reads and queries charges exactly within the budgets,
    rolling back closes exactly its transaction, and every sequence of operations keeps the
    invariant of [FsLedgerWf.v] and follows the abstract machine of the open transactions. *)
From S2P Require Import Prelude Time Text Hash FsDocPath FsSize FsDocument FsListing FsFieldPath FsQuery FsSelect FsValidate FsUsage FsHistory FsScope FsLedger FsLedgerWf.
#[local] Set Warnings "-register-all".

(** ** Observations *)

Lemma sat_add_id a b n : 0 <= a -> 0 <= b -> a + b <= n -> n <= int_max u64 -> sat_add a b = a + b.
Proof. intros. apply saturating_id. unfold fits. cbn [int_min int_max u64] in *. lia. Qed.

(** An observation within the budgets is charged exactly. *)
Lemma charge_sums l id t additional : ledger_wf l -> transactions l !! id = Some t -> 0 <= additional -> over_budget t additional l = false ->
  sat_add (conflict_ledger_bytes t) additional = conflict_ledger_bytes t + additional /\
  sat_add (active_transaction_conflict_ledger_bytes l) additional = active_transaction_conflict_ledger_bytes l + additional /\
  conflict_ledger_bytes t + additional <= MAX_TRANSACTION_CONFLICT_LEDGER_BYTES /\
  active_transaction_conflict_ledger_bytes l + additional <= MAX_ACTIVE_TRANSACTION_CONFLICT_LEDGER_BYTES.
Proof.
  intros Hwf Ht Hadd. pose proof (entry_ok l Hwf id t Ht) as (_ & Hb & _). pose proof (bytes_bounded l Hwf) as Hg. unfold over_budget. rewrite orb_false_iff, !Z.ltb_ge.
  unfold MAX_TRANSACTION_CONFLICT_LEDGER_BYTES, MAX_ACTIVE_TRANSACTION_CONFLICT_LEDGER_BYTES in *. unfold sat_add, saturating. cbn [int_min int_max u64]. lia.
Qed.

Lemma charge_wf l id t reads qs additional : ledger_wf l -> open l id = Some t -> 0 <= additional -> over_budget t additional l = false ->
  ledger_wf (charge_transaction id t reads qs additional l) /\
  forall id', open (charge_transaction id t reads qs additional l) id' = if decide (id' = id) then Some (set_observed reads qs (sat_add (conflict_ledger_bytes t) additional) t) else open l id'.
Proof.
  intros Hwf [Ht Ha]%open_Some Hadd Hover. destruct (charge_sums l id t additional Hwf Ht Hadd Hover) as (S1 & S2 & S3 & S4). set (t' := set_observed reads qs (sat_add (conflict_ledger_bytes t) additional) t).
  assert (Ha' : is_active t' = true) by done. pose proof (to_ids l (lw_totals l Hwf)) as Hnext. pose proof (lw_views l Hwf id) as [V1 V2 V3 V4 V5 V6 V7]. pose proof (entry_ok l Hwf id t Ht) as (_ & Hb & _). split.
  - apply (wf_replace l _ id (Some t')); try done; [left; rewrite Ht; cbn [weigh]; unfold one_active; rewrite Ha, Ha'; lia|..].
    + exact (conj (Z.le_refl _) (proj2 Hnext)).
    + intros id' Hne. unfold same_at. cbn. by rewrite lookup_insert_ne by done.
    + split; cbn; rewrite ?lookup_insert_eq.
      * intros d. rewrite V1, Ht. split; intros (? & [= <-] & ? & <-); by eexists.
      * rewrite V2, Ht. split; intros (? & [= <-] & ? & ?); by eexists.
      * rewrite V3, Ht. split; intros (? & [= <-] & Hi); [by destruct (inactive_absurd _ Hi Ha)|by destruct (inactive_absurd _ Hi Ha')].
      * rewrite V4, Ht. split; intros (_ & ? & [= <-] & Hi & _); [by destruct (inactive_absurd _ Hi Ha)|by destruct (inactive_absurd _ Hi Ha')].
      * intros ? [= <-] Hi. by destruct (inactive_absurd _ Hi Ha').
      * intros d Hd. destruct (V6 d Hd) as [_ Hin]. specialize (Hin t Ht). congruence.
      * intros ? [= <-]. destruct (V7 t Ht) as (? & _ & _). split; [done|]. cbn [conflict_ledger_bytes t' set_observed]. rewrite S1. split; [lia|]. intros Hi. by destruct (inactive_absurd _ Hi Ha').
    + rewrite Ht. cbn [weigh]. unfold one_active. rewrite Ha, Ha'. cbn. lia.
    + intros v. rewrite Ht. cbn [weigh]. unfold one_reading. rewrite Ha, Ha'. cbn. split; [lia|by apply versions_nonzero].
    + rewrite Ht. cbn -[sat_add]. rewrite S1, S2. lia.
    + cbn -[sat_add]. by rewrite S2.
  - intros id'. rewrite (open_replace l _ id (Some t')) by done. destruct (decide (id' = id)); [|done]. cbn -[is_active]. by rewrite Ha'.
Qed.

(** The transaction of a request is open, and its version retained. *)
Lemma transaction_Ok d id l t : transaction d id l = Ok t <-> open l id = Some t /\ compaction_floor d <= read_version t.
Proof.
  unfold transaction. rewrite open_Some. destruct (transactions l !! id) as [t0|]; [|naive_solver]. destruct (is_active t0) eqn:Ha; cbn [andb].
  - destruct (Z.leb_spec (compaction_floor d) (read_version t0)); [naive_solver|]. split; [destruct (_ && _); done|]. intros [[[= ->] _] ?]. lia.
  - split; [destruct (_ && _); done|]. intros [[[= ->] ?] _]. congruence.
Qed.

Lemma observed_bytes_nonneg p o : 0 <= observed_document_bytes p o.
Proof.
  unfold observed_document_bytes. destruct o as [doc|]; [|unfold saturating; cbn [int_min int_max u64]; lia]. destruct (document_size_bytes p (fields doc)) as [n|] eqn:E; [|done].
  rewrite document_size_bytes_capped in E. apply capped_Ok in E as [-> _]. unfold document_bytes. pose proof (path_bytes_nonneg p). pose proof (entries_nonneg (btree_map_iter (fields doc))). lia.
Qed.

(** [f] of the open transaction at an identifier. *)
Definition opens (l l' : Ledger) (id : TransactionId) (o : option Transaction) : Prop := same_ids l l' /\ forall id', open l' id' = if decide (id' = id) then o else open l id'.

(** A served read is recorded with the version it observed, and within the budgets; past them the attempt is over. *)
Lemma record_read_spec d id p observed l : ledger_wf l -> let '(r, l') := record_transaction_read d id p observed l in
  ledger_wf l' /\
  match r with
  | Ok _ => quiet l l' \/ exists t bytes, transaction d id l = Ok t /\ read_only t = false /\ opens l l' id (Some (set_observed (<[p := version <$> observed]> (read_set t)) (queries t) bytes t))
  | Err e => l' = l \/ (e = Aborted /\ opens l l' id None)
  end.
Proof.
  intros Hwf. unfold record_transaction_read. destruct (serves_retried_read d id l); [by split; [|left]|]. destruct (transaction d id l) as [t|e] eqn:Ht; [|by split; [|left]].
  apply transaction_Ok in Ht as [Ho Hfloor]. destruct (read_only t) eqn:Hro; [by split; [|left]|]. set (additional := match read_set t !! p with Some _ => 0 | None => _ end).
  assert (Hadd : 0 <= additional) by (subst additional; destruct (read_set t !! p); [done|apply observed_bytes_nonneg]). destruct (over_budget t additional l) eqn:Hover.
  - split; [by apply finish_wf|]. right. split; [done|]. by apply finish_open.
  - destruct (charge_wf l id t (<[p := version <$> observed]> (read_set t)) (queries t) additional Hwf Ho Hadd Hover) as [H1 H2]. split; [done|]. right. exists t, (sat_add (conflict_ledger_bytes t) additional).
    split_and!; [done|done|]. by split.
Qed.

(** The execution descriptors after a page of rows. *)
Definition recorded (execution : QueryExecutionId) (q : Query) (o : QueryObservation) (rows : list ObservedQueryDocument) (required : list FieldPath) (consumption : Consumption) (finished : bool)
    (qs : list TransactionQueryObservation) : list TransactionQueryObservation :=
  match position (has_execution execution) qs with
  | Some i => alter (append_rows rows finished) i qs
  | None => qs ++ [{| execution_id := execution; query := q; q_required_fields := required; observation := o; q_consumption := consumption; complete := finished |}]
  end.

Lemma record_parts_spec bytes_of_query id execution q o rows required consumption append finished l t : ledger_wf l -> open l id = Some t ->
  let '(r, l') := record_transaction_query_observation_parts bytes_of_query id execution q o rows required consumption append finished l in
  ledger_wf l' /\
  match r with
  | Ok _ => append = bool_decide (is_Some (position (has_execution execution) (queries t))) /\
      exists bytes, opens l l' id (Some (set_observed (fold_left read_row rows (read_set t)) (recorded execution q o rows required consumption finished (queries t)) bytes t))
  | Err e => (e = InvalidArgument /\ l' = l) \/ (e = Aborted /\ opens l l' id None)
  end.
Proof.
  intros Hwf Ho. pose proof Ho as [Ht Ha]%open_Some. unfold record_transaction_query_observation_parts, recorded. rewrite Ht. cbn [mbind option_bind]. destruct (position (has_execution execution) (queries t)) as [i|] eqn:Hpos.
  - rewrite (bool_decide_false (Some i = None)), (bool_decide_true (is_Some (Some i))) by done. cbn [negb andb orb]. destruct append; cbn [negb andb orb]; [|by split; [|left]].
    set (additional := sat_add _ _). assert (Hadd : 0 <= additional) by (subst additional; unfold sat_add at 1, saturating; cbn [int_min int_max u64]; lia). destruct (over_budget t additional l) eqn:Hover.
    + split; [by apply finish_wf|]. right. split; [done|]. by apply finish_open.
    + edestruct (charge_wf l id t) as [H1 H2]; [done..|]. split; [exact H1|]. split; [done|]. eexists. split; [done|exact H2].
  - rewrite (bool_decide_true (None = None)), (bool_decide_false (is_Some None)) by (done || by intros []). cbn [negb andb orb]. destruct append; cbn [negb andb orb]; [by split; [|left]|].
    destruct (_ <=? _)%nat; [split; [by apply finish_wf|]; right; split; [done|]; by apply finish_open|].
    set (additional := sat_add _ _). assert (Hadd : 0 <= additional) by (subst additional; unfold sat_add at 1, saturating; cbn [int_min int_max u64]; lia). destruct (over_budget t additional l) eqn:Hover.
    + split; [by apply finish_wf|]. right. split; [done|]. by apply finish_open.
    + edestruct (charge_wf l id t) as [H1 H2]; [done..|]. split; [exact H1|]. split; [done|]. eexists. split; [done|exact H2].
Qed.

Lemma record_query_spec bytes_of_query d id execution q docs append finished l : ledger_wf l ->
  let '(r, l') := record_transaction_query_observation bytes_of_query d id execution q docs append finished l in
  ledger_wf l' /\
  match r with
  | Ok _ => exists t qs bytes, transaction d id l = Ok t /\ opens l l' id (Some (set_observed (fold_left read_row (if read_only t then [] else map observed_row docs) (read_set t)) qs bytes t))
  | Err e => l' = l \/ (e = Aborted /\ opens l l' id None)
  end.
Proof.
  intros Hwf. unfold record_transaction_query_observation. destruct (transaction d id l) as [t|e] eqn:Ht; [|by split; [|left]]. pose proof Ht as [Ho _]%transaction_Ok.
  pose proof (record_parts_spec bytes_of_query id execution q (if read_only t then no_observation else query_observation docs) (if read_only t then [] else map observed_row docs) [] Ordered append finished l t Hwf Ho) as H.
  destruct (record_transaction_query_observation_parts _ _ _ _ _ _ _ _ _ _ _) as [[[]|e] l']; destruct H as [H1 H2]; (split; [done|]).
  - destruct H2 as (_ & bytes & H2). eexists t, _, bytes. split; [done|exact H2].
  - destruct H2 as [[_ ->]|H2]; auto.
Qed.

Lemma finish_query_spec d id execution l : ledger_wf l -> let '(r, l') := finish_transaction_query_execution d id execution l in
  ledger_wf l' /\ match r with Ok _ => exists t qs, transaction d id l = Ok t /\ opens l l' id (Some (set_observed (read_set t) qs (conflict_ledger_bytes t) t)) | Err _ => l' = l end.
Proof.
  intros Hwf. unfold finish_transaction_query_execution. destruct (transaction d id l) as [t|e] eqn:Ht; [|done]. destruct (position _ _) as [i|]; [|done]. pose proof Ht as [[Hl Ha]%open_Some _]%transaction_Ok. split.
  - apply modify_transaction_wf; [done|]. intros t0 Ht0. assert (t0 = t) as -> by congruence. split; [|done]. split_and!; try done. congruence.
  - exists t, (alter completed i (queries t)). split; [done|]. unfold modify_transaction. rewrite Hl. split; [done|]. intros id'.
    rewrite (open_replace l _ id (Some (set_observed (read_set t) (alter completed i (queries t)) (conflict_ledger_bytes t) t))) by done. destruct (decide (id' = id)); [|done]. cbn -[is_active].
    by change (is_active (set_observed (read_set t) (alter completed i (queries t)) (conflict_ledger_bytes t) t)) with (is_active t); rewrite Ha.
Qed.

(** ** Rolling back *)

Lemma rollback_spec d id l : ledger_wf l -> let '(r, l') := rollback d id l in ledger_wf l' /\ (l' = l \/ (r = Ok tt /\ opens l l' id None)) /\ (r = Ok tt -> open l id <> None -> open l' id = None).
Proof.
  intros Hwf. unfold rollback. destruct (transactions l !! id) as [t|] eqn:Ht.
  - assert (Hoff : rolled_back_again t = true \/ t_state t = Retried -> open l id = None).
    { intros H. destruct (open l id) as [t0|] eqn:E; [|done]. apply open_Some in E as [E Ha]. rewrite Ht in E. injection E as ->. apply is_active_true in Ha. unfold rolled_back_again in H. rewrite Ha in H. cbn in H. by destruct H. }
    destruct (rolled_back_again t) eqn:Hr; [destruct (_ && _); split_and!; auto; intros _ []; by apply Hoff; left|].
    destruct (bool_decide _ && _) eqn:Hre; [split_and!; auto; intros _ []; apply andb_true_iff in Hre as [_ ?%bool_decide_eq_true]; by apply Hoff; right|].
    destruct (transaction d id l) as [t0|e]; [|by split_and!; auto]. destruct (finish_open id RolledBack l) as [F1 F2]; [done|]. split_and!; [by apply finish_wf|right; by split|]. intros _ _. by rewrite F2, decide_True.
  - destruct (transaction d id l) as [t0|e] eqn:E; [|by split_and!; auto]. apply transaction_Ok in E as [[E _]%open_Some _]. congruence.
Qed.
