(* ===== verification/FsRun.v ===== *)
(** * Queries over the store

    Models how [FirestoreState] runs a query in [crates/fireemu-core-firestore/src/store.rs]: the
    choice between a scan of a scope index and the documents that the filter names, the read of
    each candidate at a version, pages, continuations after a document and aggregations.  The
    execution counters are those of [FsSelect.v]; nearest-neighbour queries are a parameter. *)
From S2P Require Import Prelude Time Text Lex FsValue FsFieldPath FsDocPath FsDocument FsFilter FsQuery FsSelect FsListing FsUsage FsHistory FsScope.
#[local] Set Warnings "-register-all".

(** ** Documents that the filter names *)

(** [paths.sort_unstable(); paths.dedup()] *)
Definition sorted_names (names : list text) : list DocumentPath := btree_iter (list_to_set (omap from_resource_name names)).

Definition reference_name (v : Value) : option text := match v with VReference name => Some name | _ => None end.

Definition conjunct (f : FilterExpr) : option (list DocumentPath) :=
  match f with
  | FField field op value =>
      if negb (is_document_name field) then None
      else match op, value with
           | Equal, VReference name => Some (sorted_names [name])
           | OpIn, VArray names => Some (sorted_names (omap reference_name names))
           | _, _ => None
           end
  | _ => None
  end.

(** [min_by_key(Vec::len)]: the first of the shortest. *)
Fixpoint shortest {A} (ls : list (list A)) : option (list A) :=
  match ls with
  | [] => None
  | l :: ls => match shortest ls with Some m => if (length m <? length l)%nat then Some m else Some l | None => Some l end
  end.

Definition pinned_document_names (f : FilterExpr) : option (list DocumentPath) :=
  match f with FAnd children => shortest (omap conjunct children) | _ => conjunct f end.

(** ** Selection *)

Section run.
Context (nearest : Documents -> Query -> option CommitVersion -> result (list Document) FirestoreError).
Context (d : Documents) (sc : ScopeIndexes).

Definition historical (at_ : option CommitVersion) : bool := bool_decide (is_Some at_).

Definition descending_name (q : Query) : bool :=
  match effective_order_by q with [o] => is_document_name (o_field o) && bool_decide (direction o = Descending) | _ => false end.

Definition source_order (q : Query) : option Direction := Some (if descending_name q then Descending else Ascending).

Definition source_paths (q : Query) (at_ : option CommitVersion) : list DocumentPath :=
  match f ← q_filter q; pinned_document_names f with
  | Some names => if descending_name q then rev names else names
  | None => if descending_name q then scope_paths_descending sc (dom (history d)) (historical at_) (scope q) else scope_paths sc (dom (history d)) (historical at_) (scope q)
  end.

(** [paths.filter_map(|path| match version { Some(version) => self.get_at(path, version), None => self.get(path) })] *)
Definition read_all (at_ : option CommitVersion) (paths : list DocumentPath) : list Document := omap (read d at_) paths.

Definition select (q : Query) (at_ : option CommitVersion) (required_fields : list FieldPath) (consumption : Consumption) : list Document :=
  (select_from q (source_order q) required_fields consumption (read_all at_ (source_paths q at_))).2.

Definition project_document (doc : Document) (projection : option (list FieldPath)) : Document :=
  {| path := path doc; fields := from_option (project (fields doc)) (fields doc) projection; create_time := create_time doc; update_time := update_time doc; version := version doc |}.

Definition run_query (q : Query) (at_ : option CommitVersion) : result (list Document) FirestoreError :=
  match find_nearest q with
  | Some _ => nearest d q at_
  | None => Ok (map (fun doc => project_document doc (projection q)) (select q at_ [] Ordered))
  end.

Definition run_query_paths (q : Query) (at_ : option CommitVersion) : result (list DocumentPath) FirestoreError :=
  match find_nearest q with
  | Some _ => let* docs := nearest d q at_ in Ok (map path docs)
  | None => Ok (map path (select q at_ [] Ordered))
  end.

(** A page of the paths of a query without a nearest-neighbour stage. *)
Definition documents_at_query_paths (q : Query) (paths : list DocumentPath) (at_ : option CommitVersion) : list Document :=
  let page := drop (Z.to_nat (offset q)) paths in
  map (fun doc => project_document doc (projection q)) (read_all at_ (match limit q with Some n => take (Z.to_nat n) page | None => page end)).

Definition run_query_after_document (q : Query) (at_ : option CommitVersion) (after : DocumentPath) : result (list Document) FirestoreError :=
  match find_nearest q, effective_order_by q with
  | None, [o] =>
      if is_document_name (o_field o) then
        let paths := match direction o with Descending => scope_paths_before sc (dom (history d)) (historical at_) (scope q) after
                                          | Ascending => scope_paths_after sc (dom (history d)) (historical at_) (scope q) after end in
        Ok (map (fun doc => project_document doc (projection q)) (select_from q (Some (direction o)) [] Ordered (read_all at_ paths)).2)
      else Err InvalidArgument
  | _, _ => Err InvalidArgument
  end.

(** On the documents that changed, when membership is local to each row. *)
Definition run_incremental_query (q : Query) (changed : list Document) : option (list Document) :=
  match find_nearest q, limit q, start_at q, end_at q with
  | None, None, None, None =>
      if offset q =? 0 then Some (map (fun doc => project_document doc (projection q)) (select_from q None [] Ordered changed).2) else None
  | _, _, _, _ => None
  end.

Definition cursor_after (q : Query) (at_ : option CommitVersion) (p : DocumentPath) : option Cursor := doc ← read d at_ p; cursor_after_document q doc.

(** Each summed field once, in the order of the first of them. *)
Definition add_required (fields : list FieldPath) (a : Aggregation) : result (list FieldPath) FirestoreError :=
  match a with
  | Sum f | Avg f => if is_document_name f then Err InvalidArgument else Ok (if existsb (fun g => bool_decide (g = f)) fields then fields else fields ++ [f])
  | Count _ => Ok fields
  end.

Definition run_aggregation (q : Query) (aggregations : list Aggregation) (at_ : option CommitVersion) : result (list Value) FirestoreError :=
  let* q := normalize_aggregation_query q aggregations in
  let* required := r_fold add_required aggregations [] in
  match find_nearest q with
  | Some _ => let* docs := nearest d q at_ in Ok (map (fun a => aggregate a docs) aggregations)
  | None => Ok (map (fun a => aggregate a (select q at_ required Unordered)) aggregations)
  end.
End run.

(** ** What a query reads *)

(** The paths of which the newest version is a document. *)
Definition live_of (d : Documents) : gset DocumentPath := filter (fun p => is_Some (vs ← history d !! p; newest vs)) (dom (history d)).

(** One database: its indexes are views of its history, and what it stores is well formed. *)
Record store_view (pr db : string) (d : Documents) (sc : ScopeIndexes) : Prop := {
  sv_entries : entries_ok (current_version d) (history d);
  sv_scopes : scopes_view sc (dom (history d)) (live_of d);
  sv_paths : forall p, p ∈ dom (history d) -> in_db pr db p /\ path_ok p;
  sv_fields : forall p vs e r, history d !! p = Some vs -> e ∈ vs -> e.2 = Some r -> fields_ok (fields (document r)) }.

Section reads.
Context (pr db : string) (d : Documents) (sc : ScopeIndexes) (Hview : store_view pr db d sc).

Lemma read_entry at_ p doc : read d at_ p = Some doc -> exists vs e r, history d !! p = Some vs /\ e ∈ vs /\ e.2 = Some r /\ document r = doc /\ (at_ = None -> newest vs = Some r).
Proof.
  unfold read, get, get_at. destruct at_ as [v|].
  - intros (r & (vs & Hp & (e & He & Hr)%bind_Some)%bind_Some & Hd)%fmap_Some. exists vs, e, r. split_and!; try done. unfold version_before in He. apply last_Some_elem_of, list_elem_of_filter in He. by destruct He.
  - intros (r & (vs & Hp & Hn)%bind_Some & Hd)%fmap_Some. unfold newest in Hn. apply bind_Some in Hn as (e & He & Hr). exists vs, e, r. split_and!; try done; [by apply last_Some_elem_of|].
    intros _. unfold newest. by rewrite He.
Qed.

Lemma read_doc at_ p doc : read d at_ p = Some doc -> path doc = p /\ fields_ok (fields doc) /\ p ∈ dom (history d) /\ (at_ = None -> p ∈ live_of d).
Proof.
  intros (vs & e & r & Hp & He & Hr & <- & Hn)%read_entry. destruct (sv_entries _ _ _ _ Hview p vs Hp) as (_ & _ & Hall). rewrite Forall_forall in Hall. destruct (Hall e He) as [_ Hd]. destruct (Hd r Hr) as (Hpath & _ & _).
  split_and!; [done|by apply (sv_fields _ _ _ _ Hview p vs e r)|by apply elem_of_dom|]. intros Ha. apply elem_of_filter. split; [|by apply elem_of_dom]. rewrite Hp. cbn. rewrite (Hn Ha). done.
Qed.

Lemma read_all_elem at_ paths doc : doc ∈ read_all d at_ paths <-> path doc ∈ paths /\ read d at_ (path doc) = Some doc.
Proof.
  unfold read_all. rewrite list_elem_of_omap. split.
  - intros (p & Hp & Hr). pose proof (read_doc at_ p doc Hr) as (-> & _). done.
  - intros [Hp Hr]. by exists (path doc).
Qed.

Lemma read_all_nodup at_ paths : NoDup paths -> NoDup (map path (read_all d at_ paths)).
Proof.
  unfold read_all. induction 1 as [|p paths Hp _ IH]; [constructor|]. cbn [omap list_omap]. destruct (read d at_ p) as [doc|] eqn:Hr; [|done]. cbn [map]. constructor; [|done].
  rewrite list_elem_of_fmap. intros (doc' & Heq & [Hin _]%read_all_elem). destruct (read_doc at_ p doc Hr) as (Hpath & _). rewrite <- Heq, Hpath in Hin. done.
Qed.

Lemma read_all_sorted at_ dir paths : StronglySorted (fun a b => directed dir (ord_cmp a b) <> Gt) paths -> StronglySorted (fun a b => directed dir (ord_cmp (path a) (path b)) <> Gt) (read_all d at_ paths).
Proof.
  unfold read_all. induction 1 as [|p paths Hs IH Hp]; [constructor|]. cbn [omap list_omap]. destruct (read d at_ p) as [doc|] eqn:Hr; [|done]. constructor; [done|].
  rewrite Forall_forall. rewrite Forall_forall in Hp. intros doc' [Hin _]%read_all_elem. destruct (read_doc at_ p doc Hr) as (-> & _). by apply Hp.
Qed.

(** Two sources of candidates are equally good when they differ only in documents that the query does not select. *)
Lemma same_ranked q required l m : (forall doc, doc ∈ l \/ doc ∈ m -> fields_ok (fields doc)) -> NoDup (map path l) -> NoDup (map path m) ->
  (forall doc c, candidate_of q required doc = Some c -> doc ∈ l <-> doc ∈ m) -> ranked q required l = ranked q required m.
Proof.
  intros Hok Hl Hm Heq. assert (Hperm : FsSelect.candidates q required l ≡ₚ FsSelect.candidates q required m).
  { apply NoDup_Permutation; [by apply candidates_nodup..|]. intros c. unfold FsSelect.candidates. rewrite !list_elem_of_omap. split; intros (doc & Hin & Hc); exists doc; (split; [|done]); by apply (Heq doc c Hc). }
  unfold ranked. assert (Hall : forall documents c, c ∈ FsSelect.candidates q required documents -> cand_ok q documents c) by (intros documents c Hc; by eapply FsSelect.candidates_ok).
  symmetry. apply (ranked_unique q l); [intros doc Hd; apply Hok; by left|done| | |by rewrite sort_by_perm, Hperm|].
  - apply Forall_forall. intros c Hc. rewrite sort_by_perm in Hc. by apply Hall in Hc.
  - apply (sort_by_strongly _ (cand_ok q l)); [|apply cand_trans; intros doc Hd; apply Hok; by left|apply Forall_forall; intros c Hc; by apply Hall in Hc].
    intros x y Hx Hy Hg. rewrite (cand_opp q l (fun doc Hd => Hok doc (or_introl Hd)) x y) by done. by rewrite Hg.
  - apply Forall_forall. intros c Hc. rewrite <- Hperm in Hc. by apply Hall in Hc.
Qed.
End reads.

(** ** Documents that the filter names *)

Lemma is_bytes_join sep l : 0 <= sep < 256 -> Forall is_bytes l -> is_bytes (join sep l).
Proof.
  intros Hsep. induction 1 as [|s l Hs Hl IH]; [constructor|]. destruct l as [|t l]; [done|]. rewrite join_cons by done. apply is_bytes_app. split; [done|]. constructor; [done|exact IH].
Qed.

Lemma is_bytes_resource_name p : is_bytes (resource_name p).
Proof.
  unfold resource_name. rewrite !is_bytes_app. split_and!; try apply bytes_of_bytes; try apply is_bytes_join; try done.
  unfold relative_segments. apply Forall_flat_map, Forall_forall. intros cd _. repeat constructor; apply bytes_of_bytes.
Qed.

Lemma named_document p name : path_ok p -> is_eq (cmp_reference p name) = true -> from_resource_name name = Some p.
Proof.
  intros Hp Heq. unfold cmp_reference in Heq. destruct (ord_cmp _ _) eqn:E; try done. apply ord_cmp_eq in E. rewrite <- (resource_name_split p Hp) in E.
  assert (Hn : resource_name p = name) by (rewrite <- (join_split (ch "/") (resource_name p)), <- (join_split (ch "/") name); by f_equal).
  apply from_resource_name_spec; [rewrite <- Hn; apply is_bytes_resource_name|done].
Qed.

Lemma elem_of_sorted_names names p : p ∈ sorted_names names <-> exists name, name ∈ names /\ from_resource_name name = Some p.
Proof. unfold sorted_names. rewrite elem_of_btree_iter, elem_of_list_to_set, list_elem_of_omap. done. Qed.

Lemma equal_name p v : equal_ref (Name p) v = true -> path_ok p -> exists name, v = VReference name /\ from_resource_name name = Some p.
Proof.
  unfold equal_ref. cbn [ref_is_nan orb]. destruct (is_nan_value v); [done|]. unfold cmp_value. intros Heq Hp. destruct v as [|b|n|x|t|text|bytes|name|g|l|xs|m]; try (exfalso; revert Heq; unfold kind; repeat case_match; by vm_compute). eexists. split; [done|]. by apply named_document.
Qed.

Lemma conjunct_complete f names doc : conjunct f = Some names -> eval_filter f doc = true -> path_ok (path doc) -> path doc ∈ names /\ StronglySorted ord_lt names.
Proof.
  destruct f as [field op value|field op|children|children]; try done. cbn [conjunct eval_filter]. unfold field_value. destruct (is_document_name field); [|done]. cbn [negb].
  destruct op, value; try done; intros [= <-]; unfold eval_op; cbn [is_null].
  - intros He Hp. split; [|apply btree_iter_sorted]. apply equal_name in He as (n & [= <-] & Hn); [|done]. apply elem_of_sorted_names. eexists. split; [by left|done].
  - intros (c & Hc & Hb)%existsb_exists Hp. split; [|apply btree_iter_sorted]. apply andb_true_iff in Hb as [_ He]. apply equal_name in He as (n & -> & Hn); [|done]. apply elem_of_sorted_names. exists n. split; [|done].
    apply list_elem_of_omap. exists (VReference n). split; [by apply list_elem_of_In|done].
Qed.

Lemma shortest_in {A} (ls : list (list A)) l : shortest ls = Some l -> l ∈ ls.
Proof.
  revert l. induction ls as [|k ls IH]; intros l; [done|]. cbn [shortest]. destruct (shortest ls) as [m|]; [|intros [= ->]; by left]. destruct (length m <? length k)%nat; intros [= ->]; [right; by apply IH|by left].
Qed.

Lemma pinned_complete f names doc : pinned_document_names f = Some names -> eval_filter f doc = true -> path_ok (path doc) -> path doc ∈ names /\ StronglySorted ord_lt names.
Proof.
  destruct f as [field op value|field op|children|children]; try apply conjunct_complete. cbn [pinned_document_names eval_filter]. intros Hs%shortest_in He Hp.
  apply list_elem_of_omap in Hs as (f & Hf & Hc). apply (conjunct_complete f); [done| |done]. rewrite forallb_forall in He. by apply He, list_elem_of_In.
Qed.

Lemma pinned_sorted f names : pinned_document_names f = Some names -> StronglySorted ord_lt names.
Proof.
  assert (Hone : forall g l, conjunct g = Some l -> StronglySorted ord_lt l).
  { intros [field op value|field op|children|children] l; try done. cbn. destruct (is_document_name field); [|done]. destruct op, value; try done; intros [= <-]; apply btree_iter_sorted. }
  destruct f as [field op value|field op|children|children]; try apply Hone. cbn. intros (g & _ & Hg)%shortest_in%list_elem_of_omap. by apply (Hone g).
Qed.

Lemma sorted_nodup (l : list DocumentPath) : StronglySorted ord_lt l -> NoDup l.
Proof.
  induction 1 as [|p l _ IH Hp]; constructor; [|done]. intros Hin. rewrite Forall_forall in Hp. by apply (ord_lt_irrefl p), Hp.
Qed.

Lemma rev_reverse {A} (l : list A) : reverse l = rev l.
Proof. unfold reverse. by rewrite <- rev_alt. Qed.

(** ** A query selects from the whole database *)

Section whole.
Context (pr db : string) (d : Documents) (sc : ScopeIndexes) (Hview : store_view pr db d sc).

(** Every document at a version, in path order. *)
Definition all_documents (at_ : option CommitVersion) : list Document := read_all d at_ (btree_iter (dom (history d))).

Lemma all_documents_elem at_ doc : doc ∈ all_documents at_ <-> read d at_ (path doc) = Some doc.
Proof.
  unfold all_documents. rewrite (read_all_elem pr db d sc Hview). split; [by intros []|]. intros Hr. split; [|done]. apply elem_of_btree_iter. by apply (read_doc pr db d sc Hview at_ (path doc) doc).
Qed.

Lemma directed_sorted dir (l : list DocumentPath) : StronglySorted ord_lt l -> StronglySorted (fun a b => directed dir (ord_cmp a b) <> Gt) (match dir with Ascending => l | Descending => rev l end).
Proof.
  intros Hs. destruct dir; cbn [directed].
  - induction Hs as [|p l _ IH Hp]; constructor; [done|]. eapply Forall_impl; [exact Hp|]. unfold ord_lt. by intros q ->.
  - induction Hs as [|p l _ IH Hp]; [constructor|]. cbn [rev]. apply StronglySorted_app. split_and!; [|done|repeat constructor].
    intros x y Hx ->%list_elem_of_singleton. rewrite <- rev_reverse, elem_of_reverse in Hx. rewrite Forall_forall in Hp. specialize (Hp x Hx). unfold ord_lt in Hp. rewrite (ord_cmp_opp p x), Hp. done.
Qed.

Section source.
Context (q : Query) (at_ : option CommitVersion) (Hscope : scope_in_db pr db (scope q)).

(** The source of a query in ascending order: names that the filter pins, or the scan of the scope. *)
Definition ascending_paths : list DocumentPath :=
  match f ← q_filter q; pinned_document_names f with
  | Some names => names
  | None => filter (fun p => scope_contains (scanned (scope q)) p = true) (btree_iter (if historical at_ then dom (history d) else live_of d))
  end.

Lemma live_subset : live_of d ⊆ dom (history d).
Proof. intros p. unfold live_of. rewrite elem_of_filter. tauto. Qed.

Lemma source_form : source_paths d sc q at_ = if descending_name q then rev ascending_paths else ascending_paths.
Proof.
  unfold source_paths, ascending_paths. destruct (q_filter q ≫= pinned_document_names) as [names|]; [done|].
  destruct (scope_scans pr db sc (dom (history d)) (live_of d) (historical at_) (scope q) (sv_scopes _ _ _ _ Hview) live_subset (fun p Hp => proj1 (sv_paths _ _ _ _ Hview p Hp)) Hscope) as (-> & -> & _). done.
Qed.

Lemma ascending_sorted : StronglySorted ord_lt ascending_paths.
Proof.
  unfold ascending_paths. destruct (q_filter q ≫= pinned_document_names) as [names|] eqn:E; [apply bind_Some in E as (f & _ & Hf); by apply (pinned_sorted f)|]. apply StronglySorted_filter, btree_iter_sorted.
Qed.

Lemma source_sorted_paths : StronglySorted (fun a b => directed (if descending_name q then Descending else Ascending) (ord_cmp a b) <> Gt) (source_paths d sc q at_).
Proof. rewrite source_form. pose proof (directed_sorted (if descending_name q then Descending else Ascending) _ ascending_sorted) as H. by destruct (descending_name q). Qed.

Lemma source_nodup : NoDup (source_paths d sc q at_).
Proof.
  pose proof (sorted_nodup _ ascending_sorted) as Hnd.
  rewrite source_form. destruct (descending_name q); [|done]. rewrite <- rev_reverse. by rewrite reverse_Permutation.
Qed.

(** No selected document is missed. *)
Lemma source_complete required doc c : candidate_of q required doc = Some c -> read d at_ (path doc) = Some doc -> path doc ∈ source_paths d sc q at_.
Proof.
  intros Hc Hr. destruct (read_doc pr db d sc Hview at_ (path doc) doc Hr) as (_ & _ & Hin & Hlive). destruct (sv_paths _ _ _ _ Hview (path doc) Hin) as [Hdb Hok].
  assert (Hmatch : scope_contains (scope q) (path doc) = true /\ from_option (fun f => eval_filter f doc) true (q_filter q) = true).
  { revert Hc. unfold candidate_of. destruct (scope_contains (scope q) (path doc)); [|done]. destruct (from_option _ true (q_filter q)); [done|]. by rewrite !andb_false_r. }
  destruct Hmatch as [Hs Hf]. assert (Hasc : path doc ∈ ascending_paths).
  { unfold ascending_paths. destruct (q_filter q) as [f|]; cbn [mbind option_bind from_option] in *; [destruct (pinned_document_names f) as [names|] eqn:Hp; [by apply (pinned_complete f)|]|].
    all: apply list_elem_of_filter; split; [by apply (scanned_contains pr db)|]; apply elem_of_btree_iter; unfold historical; destruct at_ as [v|]; [rewrite bool_decide_true by done; done|rewrite bool_decide_false by (by intros [? ?]); by apply Hlive]. }
  rewrite source_form. destruct (descending_name q); [|done]. by rewrite <- rev_reverse, elem_of_reverse.
Qed.

(** The candidates of the source, and the whole database. *)
Lemma source_ranked required : ranked q required (read_all d at_ (source_paths d sc q at_)) = ranked q required (all_documents at_).
Proof.
  apply same_ranked.
  - intros doc [Hd|Hd]; apply (read_all_elem pr db d sc Hview) in Hd as [_ Hr]; by apply (read_doc pr db d sc Hview at_ (path doc) doc).
  - apply (read_all_nodup pr db d sc Hview), source_nodup.
  - apply (read_all_nodup pr db d sc Hview), NoDup_btree_iter.
  - intros doc c Hc. rewrite all_documents_elem, (read_all_elem pr db d sc Hview). split; [by intros []|]. intros Hr. split; [|done]. by apply (source_complete required doc c).
Qed.
End source.
End whole.

(** A part of a list has its elements only. *)
Lemma part_elem {A} (l : list A) (m : nat) (o : option Z) x : x ∈ match o with Some n => take (Z.to_nat n) (drop m l) | None => drop m l end -> x ∈ l.
Proof.
  assert (Hd : x ∈ drop m l -> x ∈ l) by (intros Hx; rewrite <- (take_drop m l); apply elem_of_app; by right).
  destruct o as [n|]; [|done]. intros Hx. apply Hd. rewrite <- (take_drop (Z.to_nat n) (drop m l)). apply elem_of_app. by left.
Qed.

Section results.
Context (pr db : string) (d : Documents) (sc : ScopeIndexes) (Hview : store_view pr db d sc) (q : Query) (at_ : option CommitVersion)
  (Hoff : 0 <= offset q) (Hlim : forall n, limit q = Some n -> 0 <= n).

Lemma page_ranked required l m : ranked q required l = ranked q required m -> page q required l = page q required m.
Proof. unfold page. by intros ->. Qed.

(** Selecting from any sorted source that misses no selected document. *)
Lemma select_paths source required consumption paths : NoDup paths ->
  (forall dir, source = Some dir -> StronglySorted (fun a b => directed dir (ord_cmp a b) <> Gt) paths) ->
  served q required consumption (read_all d at_ paths) (select_from q source required consumption (read_all d at_ paths)).2 (peak_candidates (select_from q source required consumption (read_all d at_ paths)).1).
Proof.
  intros Hnd Hs. apply select_served; try done.
  - intros doc [_ Hr]%(read_all_elem pr db d sc Hview). by apply (read_doc pr db d sc Hview at_ (path doc) doc).
  - by apply (read_all_nodup pr db d sc Hview).
  - intros dir Hdir. apply (read_all_sorted pr db d sc Hview). by apply Hs.
Qed.

Lemma select_whole required consumption : scope_in_db pr db (scope q) ->
  (consumption = Ordered -> select d sc q at_ required consumption = page q required (all_documents d at_)) /\ select d sc q at_ required consumption ≡ₚ page q required (all_documents d at_).
Proof.
  intros Hscope. destruct (select_paths (source_order q) required consumption (source_paths d sc q at_)) as (H1 & H2 & _).
  - by apply (source_nodup pr db d sc Hview).
  - intros dir [= <-]. by apply (source_sorted_paths pr db d sc Hview).
  - rewrite (page_ranked required _ _ (source_ranked pr db d sc Hview q at_ Hscope required)) in H1, H2. by split.
Qed.

Lemma page_read required doc : doc ∈ page q required (all_documents d at_) -> read d at_ (path doc) = Some doc.
Proof.
  intros Hr. apply (all_documents_elem pr db d sc Hview). unfold page in Hr. apply part_elem in Hr.
  apply list_elem_of_fmap in Hr as (c & -> & Hc). unfold ranked in Hc. rewrite sort_by_perm in Hc. by apply FsSelect.candidates_ok in Hc as [? _].
Qed.

Lemma read_all_paths (l : list Document) : (forall doc, doc ∈ l -> read d at_ (path doc) = Some doc) -> read_all d at_ (map path l) = l.
Proof.
  unfold read_all. induction l as [|doc l IH]; intros Hl; [done|]. cbn [map omap list_omap]. rewrite (Hl doc) by by left. f_equal. apply IH. intros doc' Hin. apply Hl. by right.
Qed.
End results.

(** C14. A query over the store answers what a query over the whole database would: whether it scans an index upwards or
    downwards, over the retained or the live paths, or looks up the documents that its filter names, its rows are the page
    that the query selects from every document of that version; the paths that a later page is cut from are those of
    these rows, and reading a part of them gives that part of the result; and the rows that an aggregation folds are a permutation
    of the page that it selects. *)
Theorem run_query_exact (pr db : string) (nearest : Documents -> Query -> option CommitVersion -> result (list Document) FirestoreError) (d : Documents) (sc : ScopeIndexes) (q : Query) (at_ : option CommitVersion) :
  store_view pr db d sc -> scope_in_db pr db (scope q) -> 0 <= offset q -> (forall n, limit q = Some n -> 0 <= n) -> find_nearest q = None ->
  let rows := page q [] (all_documents d at_) in
  run_query nearest d sc q at_ = Ok (map (fun doc => project_document doc (projection q)) rows) /\
  run_query_paths nearest d sc q at_ = Ok (map path rows) /\
  (forall part, documents_at_query_paths d part (map path rows) at_ =
    map (fun doc => project_document doc (projection part)) (match limit part with Some n => take (Z.to_nat n) (drop (Z.to_nat (offset part)) rows) | None => drop (Z.to_nat (offset part)) rows end)) /\
  (forall required, select d sc q at_ required Unordered ≡ₚ page q required (all_documents d at_)).
Proof.
  intros Hview Hscope Hoff Hlim Hn rows. assert (Hsel : select d sc q at_ [] Ordered = rows) by by apply (select_whole pr db d sc Hview q at_ Hoff Hlim [] Ordered Hscope).
  split_and!.
  - unfold run_query. by rewrite Hn, Hsel.
  - unfold run_query_paths. by rewrite Hn, Hsel.
  - intros part. unfold documents_at_query_paths. f_equal. rewrite <- (read_all_paths d at_ (match limit part with Some _ => _ | None => _ end)).
    + f_equal. destruct (limit part); by rewrite <- ?firstn_map, <- skipn_map.
    + intros doc Hin. apply (page_read pr db d sc Hview q at_ []). by apply part_elem in Hin.
  - intros required. by apply (select_whole pr db d sc Hview q at_ Hoff Hlim required Unordered Hscope).
Qed.

Definition demo_index : ScopeIndexes := rebuild_scope_paths [(demo_path, true)].

(** The tasks of every user, by descending name. *)
Definition demo_tasks (filter : option FilterExpr) : Query :=
  {| scope := CollectionGroup None "tasks"; q_filter := filter; order_by := [{| o_field := document_name; direction := Descending |}]; start_at := None; end_at := None; offset := 0; limit := Some 5;
     projection := None; find_nearest := None; production_refusals := false |}.

Lemma demo_path_ok : path_ok demo_path.
Proof.
  assert (Hvalid : Forall valid_pair (pairs demo_path)) by (repeat constructor; vm_compute; reflexivity).
  assert (Hlen : (Z.of_nat (length (relative demo_path)) + 17 <=? MAX_DOCUMENT_NAME_BYTES) = true) by (vm_compute; reflexivity).
  split; [vm_compute; reflexivity|]. split; [vm_compute; reflexivity|]. split; [discriminate|]. split; [exact Hvalid|]. split; [vm_compute; discriminate|exact (proj1 (Z.leb_le _ _) Hlen)].
Qed.

#[local] Opaque demo_documents.

Lemma demo_store_view : store_view "demo" "(default)" demo_documents demo_index.
Proof.
  assert (Hdom : dom (history demo_documents) = {[demo_path]}) by (rewrite demo_history; apply dom_singleton_L).
  assert (Hlookup : forall p vs, history demo_documents !! p = Some vs -> p = demo_path /\ vs = demo_versions) .
  { intros p vs H. rewrite demo_history in H. apply lookup_singleton_Some in H as [H1 H2]. split; [exact (eq_sym H1)|exact (eq_sym H2)]. }
  assert (Hlive : live_of demo_documents = {[demo_path]}).
  { apply set_eq. intros p. unfold live_of. rewrite elem_of_filter, Hdom, elem_of_singleton. split; [tauto|]. intros ->. split; [rewrite demo_history, lookup_singleton_eq; eexists; reflexivity|done]. }
  split.
  - exact (wf_entries _ demo_documents_wf).
  - rewrite Hdom, Hlive. pose proof (rebuild_view [(demo_path, true)] (NoDup_singleton _)) as H. cbn in H. by rewrite !union_empty_r_L in H.
  - intros p. rewrite Hdom, elem_of_singleton. intros ->. split; [split; [reflexivity|split; [reflexivity|discriminate]]|apply demo_path_ok].
  - intros p vs e r [-> ->]%Hlookup He Hr. unfold demo_versions, demo_version in He. clear Hdom Hlive Hlookup. rewrite !elem_of_cons, elem_of_nil in He. destruct He as [->|[->|[->|[->|[]]]]]; cbn in Hr; try discriminate Hr; injection Hr as <-; intros k v Hk; cbn in Hk; by rewrite lookup_empty in Hk.
Qed.

Example run_query_exact_witness :
  let nearest := fun (_ : Documents) (_ : Query) (_ : option CommitVersion) => Ok [] in
  let named := FField document_name Equal (VReference (resource_name demo_path)) in
  run_query nearest demo_documents demo_index (demo_tasks None) None = run_query nearest demo_documents demo_index (demo_tasks (Some named)) None /\
  run_query_paths nearest demo_documents demo_index (demo_tasks None) (Some 6) = Ok [demo_path] /\ run_query_paths nearest demo_documents demo_index (demo_tasks None) (Some 8) = Ok [].
Proof.
  intros nearest named. assert (Hq : forall f at_, let rows := page (demo_tasks f) [] (all_documents demo_documents at_) in
    run_query nearest demo_documents demo_index (demo_tasks f) at_ = Ok (map (fun doc => project_document doc None) rows) /\ run_query_paths nearest demo_documents demo_index (demo_tasks f) at_ = Ok (map path rows)).
  { intros f at_. destruct (run_query_exact "demo" "(default)" nearest demo_documents demo_index (demo_tasks f) at_ demo_store_view) as (H1 & H2 & _);
      [intros parent Hp; discriminate Hp|cbn; discriminate|intros n Hn; injection Hn as <-; discriminate|reflexivity|exact (conj H1 H2)]. }
  split; [|split].
  - rewrite (proj1 (Hq None None)), (proj1 (Hq (Some named) None)). vm_compute. reflexivity.
  - rewrite (proj2 (Hq None (Some 6))). vm_compute. reflexivity.
  - rewrite (proj2 (Hq None (Some 8))). vm_compute. reflexivity.
Defined.
