(* ===== verification/FsStore.v ===== *)
(** * The Firestore database

    Models [FirestoreState] of [crates/fireemu-core-firestore/src/store.rs] as a whole: its versioned
    documents ([FsHistory.v]), its scope indexes ([FsScope.v]) and its transactions ([FsLedger.v]),
    compaction, the activity of a transaction, the admission of a commit by its retained usage, and
    the staging and the publication of its writes.  The index catalog, which prices the index entries
    of a document and of a delete, a nearest-neighbour search, the requests that still wait and the
    admission of coupled events are parameters.  Errors are their variants. *)
From S2P Require Import Prelude Time Text Hash FsValue FsDocPath FsSize FsDocument FsValidate FsFilter FsQuery FsSelect FsListing FsUsage FsHistory FsScope FsLedger FsLedgerWf FsTransaction FsRun.
#[local] Set Warnings "-register-all".

Record FirestoreState := { docs : Documents; scopes : ScopeIndexes; ledger : Ledger }.

Definition with_docs (d : Documents) (s : FirestoreState) : FirestoreState := {| docs := d; scopes := scopes s; ledger := ledger s |}.
Definition with_ledger (l : Ledger) (s : FirestoreState) : FirestoreState := {| docs := docs s; scopes := scopes s; ledger := l |}.

Definition new_database (scope : LimitScope) (offset : Z) : FirestoreState := {| docs := no_documents; scopes := no_scopes; ledger := no_transactions scope offset |}.

(** ** Compaction *)

(** [active_transaction_versions.keys().next()] *)
Definition oldest_reading (l : Ledger) : option CommitVersion := fst <$> head (btree_map_iter (active_transaction_versions l)).

Definition compact (now : LogicalInstant) (s : FirestoreState) : FirestoreState :=
  let l := (prune_transactions now (ledger s)).2 in
  let '(d, removed) := compact_to (retention_floor (docs s) (oldest_reading l) now) (docs s) in
  {| docs := d; scopes := fold_left (fun sc p => remove_scope_path p sc) removed (scopes s); ledger := l |}.

(** ** The activity of a transaction *)

(** A request on an open transaction pins its snapshot and refreshes its idle deadline. *)
Definition touched (d : Documents) (now : LogicalInstant) (t : Transaction) : Transaction :=
  let t := set_activity now t in
  let t := if snapshot_pending t then set_snapshot false (current_version d) (read_time d now) t else t in
  match first_read_time t with Some _ => t | None => set_first_read (Some (if read_only t then t_read_time t else read_time d now)) t end.

Definition refresh_activity (d : Documents) (id : TransactionId) (now : LogicalInstant) (t : Transaction) (l : Ledger) : Ledger :=
  let t' := touched d now t in
  let deadlines := active_transaction_deadlines l ∖ {[(transaction_deadline (limit_scope l) t, id)]} in
  let versions := if snapshot_pending t && negb (bool_decide (current_version d = read_version t))
                  then increment_version_count (decrement_version_count (active_transaction_versions l) (read_version t)) (current_version d) else active_transaction_versions l in
  set_transactions (<[id := t']> (transactions l))
    (set_active (active_transaction_count l) ({[(transaction_deadline (limit_scope l) t', id)]} ∪ deadlines) versions (active_read_write_transactions l) (active_transaction_conflict_ledger_bytes l) l).

(** A token that was retried while it was live takes its snapshot at its first read. *)
Definition pin_retried (d : Documents) (now : LogicalInstant) (t : Transaction) : Transaction :=
  if snapshot_pending t then set_snapshot false (current_version d) (read_time d now) t else t.

Definition touch_transaction (id : TransactionId) (now : LogicalInstant) (s : FirestoreState) : result unit FirestoreError * FirestoreState :=
  let s := if bool_decide (limit_scope (ledger s) = Production)
           then let '(changed, l) := prune_transactions now (ledger s) in (if changed then compact now (with_ledger l s) else with_ledger l s)
           else s in
  if serves_retried_read (docs s) id (ledger s) then (Ok tt, with_ledger (modify_transaction id (pin_retried (docs s) now) (ledger s)) s)
  else match transaction (docs s) id (ledger s) with
  | Err e => (Err (read_error_after_lifetime id e (ledger s)), s)
  | Ok t =>
      let deadline := transaction_deadline (limit_scope (ledger s)) t in
      if deadline <=? now then
        let '(lifetime, l) := keep_lifetime_expired_transaction id deadline (finish_transaction id Finished (ledger s)) in
        (Err (if lifetime then InvalidArgument else Aborted), compact now (with_ledger l s))
      else (Ok tt, with_ledger (refresh_activity (docs s) id now t (ledger s)) s)
  end.

(** ** Usage of a staged commit *)

(** [CommitVersion(self.version.0 + 1)] *)
Definition next_version (d : Documents) : CommitVersion := wrapping u64 (current_version d + 1).

(** [CommitVersion(self.version.0.saturating_add(1))] *)
Definition projected_version (d : Documents) : CommitVersion := saturating u64 (current_version d + 1).

(** A path with its newest document before and after the commit. *)
Abbreviation StagedChange := (DocumentPath * option RetainedDocument * option RetainedDocument)%type.

(** The usage before and after. *)
Abbreviation HistoryProjection := (HistoryUsage * HistoryUsage)%type.

Definition charge_change (d : Documents) (state : HistoryUsage * CommitVersion * bool) (change : StagedChange) : HistoryUsage * CommitVersion * bool :=
  let '(u, floor, exact) := state in
  let '(p, before, after) := change in
  let '(versions, exact) := certified_history_add (u_versions u) 1 exact in
  let '(metadata, exact) := certified_history_add (version_metadata_bytes u) HISTORY_VERSION_METADATA_BYTES exact in
  let '(live, historical, exact) :=
    match before with
    | Some r => let '(live, exact) := certified_history_sub (live_document_bytes u) (logical_bytes r) exact in
                let '(historical, exact) := certified_history_add (historical_document_bytes u) (logical_bytes r) exact in (live, historical, exact)
    | None => (live_document_bytes u, historical_document_bytes u, exact)
    end in
  let '(live, tombstones, bytes, exact) :=
    match after with
    | Some r => let '(live, exact) := certified_history_add live (logical_bytes r) exact in (live, u_tombstones u, tombstone_bytes u, exact)
    | None => let '(tombstones, exact) := certified_history_add (u_tombstones u) 1 exact in
              let '(bytes, exact) := certified_history_add (tombstone_bytes u) HISTORY_TOMBSTONE_BYTES exact in (live, tombstones, bytes, exact)
    end in
  let '(paths, index, exact) :=
    match history d !! p with
    | Some _ =>
        match before, after with
        | Some _, None => let '(index, exact) := certified_history_sub (path_and_index_bytes u) (3 * HISTORY_INDEX_REFERENCE_OVERHEAD) exact in (u_paths u, index, exact)
        | None, Some _ => let '(index, exact) := certified_history_add (path_and_index_bytes u) (3 * HISTORY_INDEX_REFERENCE_OVERHEAD) exact in (u_paths u, index, exact)
        | _, _ => (u_paths u, path_and_index_bytes u, exact)
        end
    | None => let '(paths, exact) := certified_history_add (u_paths u) 1 exact in
              let '(index, exact) := certified_history_add (path_and_index_bytes u) (history_path_and_index_bytes p (bool_decide (is_Some after))) exact in (paths, index, exact)
    end in
  let existing := default [] (history d !! p) in
  let evicted := (length existing + 1 - max_versions_per_path d)%nat in
  let floor := if (0 <? evicted)%nat then Z.max floor (from_option fst (projected_version d) (existing !! evicted)) else floor in
  ({| live_document_bytes := live; historical_document_bytes := historical; path_and_index_bytes := index; version_metadata_bytes := metadata; tombstone_bytes := bytes;
      commit_time_bytes := commit_time_bytes u; total_bytes := total_bytes u; u_versions := versions; u_tombstones := tombstones; u_paths := paths; u_commit_times := u_commit_times u |}, floor, exact).

Definition projected_uncompacted_usage (d : Documents) (staged : list StagedChange) : HistoryUsage * CommitVersion * bool :=
  let u := history_usage d in
  let '(times, bytes, exact) :=
    match staged with
    | [] => (u_commit_times u, commit_time_bytes u, history_accounting_exact d)
    | _ => let '(times, exact) := certified_history_add (u_commit_times u) 1 (history_accounting_exact d) in
           let '(bytes, exact) := certified_history_add (commit_time_bytes u) HISTORY_COMMIT_TIME_BYTES exact in (times, bytes, exact)
    end in
  let '(u, floor, exact) := fold_left (charge_change d) staged (with_commit_times u times bytes, capacity_floor d, exact) in
  let u := finish_history_usage u in
  (u, floor, exact && unsaturated u).

(** What a compaction at [floor] would release, cached until the store changes. *)
Definition path_reclaim (d : Documents) (floor : CommitVersion) (p : DocumentPath) : HistoryUsage :=
  let vs := default [] (history d !! p) in
  if history_accounting_exact d then history_path_reclaim_unsaturated p vs floor else subtract_history_usage (history_path_usage p vs) (history_path_usage_after_floor p vs floor).

Definition forecast_reclaim (floor : CommitVersion) (d : Documents) : HistoryUsage * Documents :=
  let u := fold_left (fun u p => add_history_usage u (path_reclaim d floor p)) (reclaim_candidates d floor) no_usage in
  let count := Z.of_nat (length (take_while (fun e => e.1 <? floor) (commit_times d))) in
  let u := with_commit_times u count (saturating u64 (count * HISTORY_COMMIT_TIME_BYTES)) in
  (u, set_forecast (Some {| f_version := current_version d; f_floor := floor; reclaimed := u |}) d).

Definition base_compaction_reclaim (floor : CommitVersion) (d : Documents) : HistoryUsage * Documents :=
  if floor <=? compaction_floor d then (no_usage, d)
  else match compaction_forecast d with
  | Some f => if (f_version f =? current_version d) && (f_floor f =? floor) then (reclaimed f, d) else forecast_reclaim floor d
  | None => forecast_reclaim floor d
  end.

Definition reclaimable_history_usage (now : LogicalInstant) (s : FirestoreState) : HistoryUsage * FirestoreState :=
  let '(u, d) := base_compaction_reclaim (retention_floor (docs s) (oldest_reading (ledger s)) now) (docs s) in (u, with_docs d s).

(** The least version that a transaction will still read at [now]. *)
Definition oldest_projected (now : LogicalInstant) (l : Ledger) : option CommitVersion :=
  let later := filter (fun e => ord_lt (now, int_max u64) e) (btree_iter (active_transaction_deadlines l)) in
  let reading e := t ← transactions l !! e.2; if is_active t && (now <? transaction_deadline (limit_scope l) t) then Some (read_version t) else None in
  foldr (fun v least => match least with Some m => Some (Z.min v m) | None => Some v end) None (omap reading later).

(** The reclaim of a path that the commit changes replaces what the forecast says of it. *)
Definition change_reclaim (d : Documents) (certified : bool) (floor : CommitVersion) (u : HistoryUsage) (change : StagedChange) : HistoryUsage :=
  let '(p, before, after) := change in
  let vs := default [] (history d !! p) in
  let size := logical_bytes <$> after in
  let existing := if certified then history_path_reclaim_unsaturated p vs floor else subtract_history_usage (history_path_usage p vs) (history_path_usage_after_floor p vs floor) in
  let projected := if certified then projected_history_path_reclaim_unsaturated p vs size (projected_version d) floor
                   else projected_history_path_reclaim p vs size (projected_version d) floor in
  add_history_usage (subtract_history_usage u existing) projected.

(** The usage before compaction, the ceiling that is reserved, and whether the accounting is certified. *)
Definition projected_history_usage (staged : list StagedChange) (now : LogicalInstant) (s : FirestoreState) : HistoryUsage * HistoryUsage * bool * FirestoreState :=
  let d := docs s in
  let '(uncompacted, capacity, exact) := projected_uncompacted_usage d staged in
  let certified := exact && unsaturated uncompacted in
  let version := match staged with [] => current_version d | _ => projected_version d end in
  let floor := projected_retention_floor d (oldest_projected now (ledger s)) capacity version now in
  let '(base, d') := base_compaction_reclaim floor d in
  let released := fold_left (change_reclaim d certified floor) staged base in
  (uncompacted, subtract_history_usage uncompacted released, certified, with_docs d' s).

Definition check_history_limits (d : Documents) (u : HistoryUsage) : result unit FirestoreError :=
  if max_versions (history_limits d) <? u_versions u then Err HistoryCapacity
  else if max_bytes (history_limits d) <? total_bytes u then Err HistoryCapacity
  else Ok tt.

(** ** Locks *)

(** [group_writes]: the writes of a commit by path, in the order of the paths. *)
Definition group_writes (writes : list Write) : list (DocumentPath * list Write) :=
  map (fun p => (p, filter (fun w => op_path (op w) = p) writes)) (btree_iter (list_to_set (map (fun w => op_path (op w)) writes))).

(** [preview_from] *)
Definition preview_from (current : option Document) (w : Write) (now : LogicalInstant) : result (option Document) FirestoreError :=
  let* (next, _) := apply_write w current now 0 in Ok next.

Definition range_covers_document (d : Documents) (q : Query) (p : DocumentPath) (writes : list Write) : bool :=
  if negb (scope_contains (scope q) p) then false
  else match q_filter q with
  | None => true
  | Some f =>
      if existsb (fun w => negb (bool_decide (transforms w = []))) writes then true
      else
        let before := get d p in
        let passes o := match o with Some doc => eval_filter f doc | None => false end in
        passes before ||
        match r_fold (fun current w => preview_from current w UNIX_EPOCH) writes before with
        | Ok after => passes after
        | Err _ => true
        end
  end.

Definition range_covers_writes (d : Documents) (q : Query) (grouped : list (DocumentPath * list Write)) : bool :=
  existsb (fun '(p, ws) => range_covers_document d q p ws) grouped.

Definition holder_locks_writes (d : Documents) (holder : Transaction) (grouped : list (DocumentPath * list Write)) : bool :=
  existsb (fun g => bool_decide (is_Some (read_set holder !! g.1))) grouped || existsb (fun o => range_covers_writes d (query o) grouped) (queries holder).

Section commits.
Context (nearest : Documents -> Query -> option CommitVersion -> result (list Document) FirestoreError) (waits : CommitWaitOwner -> bool).

(** Which requests still wait on behalf of a transaction. *)
Definition pending_waits (t : Transaction) : list (list Write) :=
  match waiting_to_commit t with Some ws => [ws] | None => [] end ++ map snd (filter (fun o => waits o.1 = true) (owned_commit_waits t)).

Definition is_holder (d : Documents) (writes : list Write) (own : option TransactionId) (id : TransactionId) (holder : Transaction) : bool :=
  is_active holder && negb (read_only holder) && (compaction_floor d <=? read_version holder) && negb (bool_decide (own = Some id)) && holder_locks_writes d holder (group_writes writes).

(** [contention_holders]: the holders with their age and whether they wait on the locks of [own], and how many were examined. *)
Definition contention_holders (d : Documents) (l : Ledger) (writes : list Write) (own : option TransactionId) : list (TransactionId * LogicalInstant * bool) * Z :=
  let candidates := omap (fun id => (fun t => (id, t)) <$> transactions l !! id) (btree_iter (active_read_write_transactions l)) in
  let holders := filter (fun '(id, t) => is_holder d writes own id t = true) candidates in
  let waiting_on (holder : Transaction) := match own ≫= (fun id => transactions l !! id) with
    | Some requester => existsb (fun ws => holder_locks_writes d requester (group_writes ws)) (pending_waits holder)
    | None => false end in
  (map (fun '(id, t) => (id, started_at t, waiting_on t)) holders, Z.of_nat (length candidates)).

Definition lock_holders (d : Documents) (l : Ledger) (writes : list Write) (own : option TransactionId) : list TransactionId :=
  map fst (filter (fun '(id, t) => is_holder d writes own id t = true) (btree_map_iter (transactions l))).

Definition drop_wait (owner : CommitWaitOwner) (owned : list (CommitWaitOwner * list Write)) : list (CommitWaitOwner * list Write) :=
  filter (fun o => waits o.1 = true /\ o.1 <> owner) owned.

Definition stop_waiting (owner : option CommitWaitOwner) (t : Transaction) : Transaction :=
  match owner with Some o => set_waits (waiting_to_commit t) (drop_wait o (owned_commit_waits t)) t | None => set_waits None (owned_commit_waits t) t end.

Definition start_waiting (owner : option CommitWaitOwner) (writes : list Write) (t : Transaction) : Transaction :=
  match owner with
  | Some o => let kept := drop_wait o (owned_commit_waits t) in set_waits (waiting_to_commit t) (if waits o then kept ++ [(o, writes)] else kept) t
  | None => set_waits (Some writes) (owned_commit_waits t) t
  end.

Definition younger (a b : LogicalInstant * TransactionId) : bool := match ord_cmp a b with Gt => true | _ => false end.

Definition abort_victim (id : TransactionId) (l : Ledger) : Ledger := finish_transaction id RetryableAborted (modify_transaction id set_victim l).

Definition check_contention (writes : list Write) (own : option TransactionId) (now : LogicalInstant) (owner : option CommitWaitOwner) (s : FirestoreState) : result unit FirestoreError * FirestoreState :=
  let l := match own with Some id => modify_transaction id (stop_waiting owner) (ledger s) | None => ledger s end in
  if bool_decide (writes = []) then (Ok tt, with_ledger l s)
  else
    let l := (prune_transactions now l).2 in
    let '(holders, visits) := contention_holders (docs s) l writes own in
    let l := set_counters (transaction_releases l) (transaction_prune_visits l) (saturating u64 (contention_visits l + visits)) (transaction_eviction_visits l) l in
    if bool_decide (holders = []) then (Ok tt, with_ledger l s)
    else match own with
    | None => (Err Aborted, with_ledger l s)
    | Some id =>
        match transaction (docs s) id l with
        | Err e => (Err e, with_ledger l s)
        | Ok t =>
            if existsb (fun '((holder, age, cycle) : TransactionId * LogicalInstant * bool) => cycle && younger (started_at t, id) (age, holder)) holders then (Err Aborted, with_ledger (abort_victim id l) s)
            else
              let l := fold_left (fun l '((holder, _, waiting) : TransactionId * LogicalInstant * bool) => if waiting then abort_victim holder l else l) holders l in
              if forallb (fun '((holder, _, _) : TransactionId * LogicalInstant * bool) => negb (transaction_is_active holder l)) holders then (Ok tt, with_ledger l s)
              else (Err Aborted, with_ledger (modify_transaction id (start_waiting owner writes) l) s)
        end
    end.

(** ** Conflicts of a transaction *)

(** What a complete query of a transaction observes now. *)
Definition current_observation (s : FirestoreState) (o : TransactionQueryObservation) : result QueryObservation FirestoreError :=
  match find_nearest (query o) with
  | Some _ => let* found := nearest (docs s) (query o) None in Ok (query_observation found)
  | None => Ok (query_observation (select (docs s) (scopes s) (query o) None (q_required_fields o) (q_consumption o)))
  end.

Fixpoint queries_changed (s : FirestoreState) (os : list TransactionQueryObservation) : result bool FirestoreError :=
  match os with
  | [] => Ok false
  | o :: os => let* current := current_observation s o in if bool_decide (current = observation o) then queries_changed s os else Ok true
  end.

Definition transaction_conflicted (s : FirestoreState) (id : TransactionId) : result bool FirestoreError :=
  let* t := transaction (docs s) id (ledger s) in
  if existsb (fun '(p, observed) => negb (bool_decide (version <$> get (docs s) p = observed))) (btree_map_iter (read_set t)) then Ok true
  else queries_changed s (filter (fun o => complete o = true) (queries t)).

Definition validate_transaction_commit (id : TransactionId) (writes : list Write) (now : LogicalInstant) (s : FirestoreState) : result unit FirestoreError * FirestoreState :=
  let s := if bool_decide (limit_scope (ledger s) = Production) then with_ledger (prune_transactions now (ledger s)).2 s else s in
  match transaction (docs s) id (ledger s) with
  | Err e => (Err e, s)
  | Ok t =>
      let deadline := transaction_deadline (limit_scope (ledger s)) t in
      if deadline <=? now then
        let l := (keep_lifetime_expired_transaction id deadline (finish_transaction id Finished (ledger s))).2 in (Err Aborted, compact now (with_ledger l s))
      else if read_only t && negb (bool_decide (writes = [])) then
        (Err InvalidArgument, if bool_decide (limit_scope (ledger s) = Production) then with_ledger (finish_transaction id CommitRefused (ledger s)) s else s)
      else if read_only t then (Ok tt, s)
      else match transaction_conflicted s id with
      | Err e => (Err e, s)
      | Ok true => (Err Aborted, with_ledger (finish_transaction id RetryableAborted (ledger s)) s)
      | Ok false => (Ok tt, s)
      end
  end.
End commits.

(** ** Staging a commit *)

Record StagedDocument := { s_before : option RetainedDocument; s_current : option RetainedDocument; s_changed : bool }.

Record DocumentChange := { ch_path : DocumentPath; ch_before : option Document; ch_after : option Document }.

Record CommitResult := { commit_time : LogicalInstant; write_results : list WriteResult; r_version : CommitVersion; changes : list DocumentChange; stamped : bool }.

Definition FIELD_TRANSFORMS_PER_DOCUMENT : Limits.LimitDefinition := commit_limit "FS-LIMIT-FIELD-TRANSFORMS-PER-DOCUMENT" Limits.Count 500 Limits.PrecExact.

Definition count_transforms (counts : gmap DocumentPath Z) (w : Write) : result (gmap DocumentPath Z) FirestoreError :=
  let p := op_path (op w) in
  let count := default 0 (counts !! p) + Z.of_nat (length (transforms w)) in
  do* check_limit FIELD_TRANSFORMS_PER_DOCUMENT count in Ok (<[p := count]> counts).

Definition check_transform_budget (writes : list Write) : result unit FirestoreError := let* _ := r_fold count_transforms writes ∅ in Ok tt.

(** A refusal of a precondition ends the transaction of the commit; other errors do not. *)
Record Refusal := { by_precondition : bool; refusal : FirestoreError }.

Definition failing {A} (r : result A FirestoreError) : result A Refusal := match r with Ok a => Ok a | Err e => Err {| by_precondition := false; refusal := e |} end.

Definition with_update_time (time : option LogicalInstant) (r : WriteResult) : WriteResult := {| w_update_time := time; transform_results := transform_results r |}.

Section staging.
Context (index_usage : LimitScope -> DocumentPath -> fields_map -> result unit FirestoreError) (delete_check : DocumentPath -> fields_map -> result unit FirestoreError).
Context (d : Documents) (scope : LimitScope) (time : LogicalInstant) (version : CommitVersion).

Definition newest_of (p : DocumentPath) : option RetainedDocument := vs ← history d !! p; newest vs.

Definition stage_of (staged : gmap DocumentPath StagedDocument) (p : DocumentPath) : StagedDocument :=
  default {| s_before := newest_of p; s_current := newest_of p; s_changed := false |} (staged !! p).

Definition is_verify (w : Write) : bool := match op w with WVerify _ => true | _ => false end.

(** The price of a delete, in the production profile. *)
Definition check_delete (w : Write) (current : option Document) : result unit FirestoreError :=
  match op w, current, scope with WDelete _, Some stored, Production => delete_check (path stored) (fields stored) | _, _, _ => Ok tt end.

(** The size of a document that the write makes. *)
Definition check_next (w : Write) (next : option Document) : result Z FirestoreError :=
  match op w, next with
  | WSet _ _ _, Some doc => let* size := validate_document doc scope in do* index_usage scope (path doc) (fields doc) in Ok size
  | _, _ => Ok 0
  end.

Definition write_unchanged (w : Write) (current next : option Document) : bool :=
  is_verify w || match current, next with Some c, Some n => stored_fields_eq (fields c) (fields n) | None, None => true | _, _ => false end.

Definition stage_write (acc : gmap DocumentPath StagedDocument * list WriteResult) (w : Write) : result (gmap DocumentPath StagedDocument * list WriteResult) Refusal :=
  let '(staged, results) := acc in
  let p := op_path (op w) in
  let stage := stage_of staged p in
  let current := document <$> s_current stage in
  match check_precondition (precondition w) current p with
  | Err e => Err {| by_precondition := true; refusal := e |}
  | Ok _ =>
      failing (
        do* check_delete w current in
        let* (next, result) := apply_write w current time version in
        let* size := check_next w next in
        let result := if is_verify w then with_update_time (update_time <$> current) result else result in
        let unchanged := write_unchanged w current next in
        let result := match current with Some c => if unchanged && negb (is_verify w) then with_update_time (Some (update_time c)) result else result | None => result end in
        let stage := if unchanged then stage
                     else {| s_before := s_before stage; s_current := (fun doc => {| document := doc; logical_bytes := size |}) <$> next; s_changed := true |} in
        Ok (<[p := stage]> staged, results ++ [result]))
  end.

Definition stage_writes (writes : list Write) : result (gmap DocumentPath StagedDocument * list WriteResult) Refusal := r_fold stage_write writes (∅, []).

Definition staged_changes (staged : gmap DocumentPath StagedDocument) : list StagedChange :=
  omap (fun '(p, stage) => if s_changed stage then Some (p, s_before stage, s_current stage) else None) (btree_map_iter staged).
End staging.

Definition document_change (c : StagedChange) : DocumentChange := {| ch_path := c.1.1; ch_before := document <$> c.1.2; ch_after := document <$> c.2 |}.

(** ** Publication *)

(** One staged change: its path enters the indexes, its version the history. *)
Definition publish_change (version : CommitVersion) (s : FirestoreState) (c : StagedChange) : FirestoreState :=
  let '(p, before, after) := c in
  let sc := match history (docs s) !! p with Some _ => scopes s | None => insert_scope_path p (scopes s) end in
  let sc := match before, after with None, Some _ => insert_live_scope_path p sc | Some _, None => remove_live_scope_path p sc | _, _ => sc end in
  let d := set_history (<[p := default [] (history (docs s) !! p) ++ [(version, after)]]> (history (docs s))) (docs s) in
  {| docs := refresh_reclaim_threshold p (record_capacity_pressure p d); scopes := sc; ledger := ledger s |}.

Definition publish (time : LogicalInstant) (snapshot : bool) (usage : HistoryUsage) (exact : bool) (changes : list StagedChange) (s : FirestoreState) : FirestoreState :=
  let d := docs s in
  let d := if snapshot then d else set_times (current_version d) (Some time) (commit_times d) d in
  let d := set_usage usage exact (set_forecast None d) in
  match changes with
  | [] => with_docs d s
  | _ =>
      let version := next_version d in
      fold_left (publish_change version) changes (with_docs (set_times version (last_commit_time d) (commit_times d ++ [(version, time)]) d) s)
  end.

Section commit.
Context (nearest : Documents -> Query -> option CommitVersion -> result (list Document) FirestoreError) (waits : CommitWaitOwner -> bool)
  (index_usage : LimitScope -> DocumentPath -> fields_map -> result unit FirestoreError) (delete_check : DocumentPath -> fields_map -> result unit FirestoreError).

(** A commit that is published, the end of its transaction and the compaction after it. *)
Definition conclude (time : LogicalInstant) (snapshot : bool) (usage : HistoryUsage) (exact : bool) (staged : list StagedChange) (own : option TransactionId) (now : LogicalInstant) (s : FirestoreState) : FirestoreState :=
  let s := publish time snapshot usage exact staged s in
  let s := match own with Some id => with_ledger (finish_transaction id Committed (ledger s)) s | None => s end in
  compact now s.

(** From the commit time on: the writes are staged, priced, admitted and published. *)
Definition apply_commit (writes : list Write) (own : option TransactionId) (now : LogicalInstant) (admission : CommitResult -> HistoryProjection -> result unit FirestoreError)
    (s : FirestoreState) : result CommitResult FirestoreError * FirestoreState :=
  let scope := limit_scope (ledger s) in
  let snapshot_time := if bool_decide (writes = []) then (id ← own; t ← transactions (ledger s) !! id; first_read_time t) else None in
  let time := default (next_commit_time (docs s) now) snapshot_time in
  let stamp := negb (bool_decide (writes = [])) || bool_decide (is_Some snapshot_time) || negb (bool_decide (scope = Production)) in
  match stage_writes index_usage delete_check (docs s) scope time (next_version (docs s)) writes with
  | Err r => (Err (refusal r), match own with Some id => if by_precondition r then with_ledger (finish_transaction id CommitRefused (ledger s)) s else s | None => s end)
  | Ok (staged, results) =>
      let staged := staged_changes staged in
      let version := match staged with [] => current_version (docs s) | _ => next_version (docs s) end in
      let result := {| commit_time := time; write_results := results; r_version := version; changes := map document_change staged; stamped := stamp |} in
      let before := history_usage (docs s) in
      let '(uncompacted, after, exact, s) := projected_history_usage staged now s in
      match check_history_limits (docs s) after with
      | Err e => (Err e, s)
      | Ok _ =>
          match admission result (before, after) with
          | Err e => (Err e, s)
          | Ok _ => (Ok result, conclude time (bool_decide (is_Some snapshot_time)) uncompacted exact staged own now s)
          end
      end
  end.

(** [commit_with_history_admission_owned] *)
Definition commit (writes : list Write) (own : option TransactionId) (now : LogicalInstant) (owner : option CommitWaitOwner) (admission : CommitResult -> HistoryProjection -> result unit FirestoreError)
    (s : FirestoreState) : result CommitResult FirestoreError * FirestoreState :=
  let '(valid, s) := match own with Some id => validate_transaction_commit nearest id writes now s | None => (Ok tt, s) end in
  match valid with
  | Err e => (Err e, s)
  | Ok _ =>
      let '(free, s) := check_contention waits writes own now owner s in
      match free with
      | Err e => (Err e, s)
      | Ok _ => match check_transform_budget writes with Err e => (Err e, s) | Ok _ => apply_commit writes own now admission s end
      end
  end.
End commit.
