(* ===== verification/FsPublish.v ===== *)
(** * The publication of a commit

    Proofs about [FsStore.v]: the projected usage of a commit is what its published history is
    charged, and publishing its changes keeps the documents and the indexes of scopes well formed. *)
From S2P Require Import Prelude Time Text Ids Hash FsValue FsDocPath FsSize FsDocument FsValidate FsFilter FsQuery FsSelect FsListing FsUsage FsHistory FsScope FsLedger FsLedgerWf FsTransaction FsRun FsStore.
#[local] Set Warnings "-register-all".

(** ** The published history *)

Definition change_path (c : StagedChange) : DocumentPath := c.1.1.

Definition push_change (version : CommitVersion) (h : gmap DocumentPath Versions) (c : StagedChange) : gmap DocumentPath Versions :=
  <[change_path c := default [] (h !! change_path c) ++ [(version, c.2)]]> h.

Definition pushed (version : CommitVersion) (changes : list StagedChange) (h : gmap DocumentPath Versions) : gmap DocumentPath Versions := fold_left (push_change version) changes h.

Lemma lookup_pushed version changes : NoDup (map change_path changes) -> forall h,
  (forall p, p ∉ map change_path changes -> pushed version changes h !! p = h !! p) /\
  (forall c, c ∈ changes -> pushed version changes h !! change_path c = Some (default [] (h !! change_path c) ++ [(version, c.2)])).
Proof.
  unfold pushed. induction changes as [|c changes IH]; intros Hnd h; [split; [done|by intros c ?%not_elem_of_nil]|]. cbn [map] in Hnd. apply NoDup_cons in Hnd as [Hc Hnd].
  destruct (IH Hnd (push_change version h c)) as [H1 H2]. cbn [map fold_left]. split.
  - intros p Hp. rewrite not_elem_of_cons in Hp. destruct Hp as [Hne Hp]. rewrite H1 by done. unfold push_change. by rewrite lookup_insert_ne.
  - intros c' [->|Hc']%elem_of_cons; [rewrite H1 by done; unfold push_change; by rewrite lookup_insert_eq|]. rewrite H2 by done. unfold push_change.
    rewrite lookup_insert_ne; [done|]. intros Heq. apply Hc. rewrite Heq. apply list_elem_of_fmap. by exists c'.
Qed.

Lemma newest_snoc vs v o : newest (vs ++ [(v, o)]) = o.
Proof. unfold newest. by rewrite last_snoc. Qed.

(** A change, staged against the documents, of a commit that makes [version]. *)
Definition change_ok (version : CommitVersion) (h : gmap DocumentPath Versions) (c : StagedChange) : Prop :=
  c.1.2 = (vs ← h !! change_path c; newest vs) /\ forall r, c.2 = Some r -> path (document r) = change_path c /\ FsDocument.version (document r) = version /\ 0 <= logical_bytes r.

Lemma entry_snoc top version p vs o : (vs = [] \/ FsHistory.entry_ok top p vs) -> 0 <= top < version -> (forall r, o = Some r -> path (document r) = p /\ FsDocument.version (document r) = version /\ 0 <= logical_bytes r) ->
  FsHistory.entry_ok version p (vs ++ [(version, o)]).
Proof.
  intros Hvs Htop Ho. split; [by destruct vs|]. assert (Hv : StronglySorted (fun a b : CommitVersion * option RetainedDocument => a.1 < b.1) vs /\ Forall (fun e : CommitVersion * option RetainedDocument => 0 < e.1 <= top /\ forall r, e.2 = Some r -> path (document r) = p /\ FsDocument.version (document r) = e.1 /\ 0 <= logical_bytes r) vs).
  { destruct Hvs as [->|(_ & ? & ?)]; [by repeat constructor|done]. }
  destruct Hv as [Hs Hall]. split.
  - apply StronglySorted_app. split_and!; [|done|by repeat constructor]. intros a b Ha ->%list_elem_of_singleton. rewrite Forall_forall in Hall. specialize (Hall a Ha). cbn. lia.
  - apply Forall_app. split; [|apply Forall_singleton; cbn; split; [lia|done]]. eapply Forall_impl; [exact Hall|]. intros e [He Hr]. split; [lia|done].
Qed.

Lemma live_of_history d d' : history d = history d' -> live_of d = live_of d'.
Proof. unfold live_of. by intros ->. Qed.

Lemma live_pushed d d' version c : history d' = push_change version (history d) c -> live_of d' = match c.2 with Some _ => {[change_path c]} ∪ live_of d | None => live_of d ∖ {[change_path c]} end.
Proof.
  intros Hh. apply set_eq. intros q. unfold live_of at 1. rewrite Hh. unfold push_change. rewrite elem_of_filter, dom_insert, elem_of_union, elem_of_singleton. destruct (decide (q = change_path c)) as [->|Hne].
  - rewrite lookup_insert_eq. cbn [mbind option_bind]. rewrite newest_snoc. destruct (c.2) as [r|].
    + rewrite elem_of_union, elem_of_singleton. split; [tauto|]. intros _. split; [by eexists|by left].
    + rewrite elem_of_difference, elem_of_singleton. split; [by intros [[? ?] _]|tauto].
  - rewrite lookup_insert_ne by done. unfold live_of. destruct (c.2); rewrite ?elem_of_union, ?elem_of_difference, elem_of_filter, elem_of_singleton; tauto.
Qed.

(** ** One change *)

Lemma pressure_form p d : exists cap, record_capacity_pressure p d = set_floors (compaction_floor d) cap d /\ capacity_floor d <= cap /\ forall top, 0 <= top -> entries_ok top (history d) -> cap <= Z.max (capacity_floor d) top.
Proof.
  unfold record_capacity_pressure. destruct (history d !! p) as [vs|] eqn:Hp; [destruct (_ <=? _)%nat; [exists (capacity_floor d); split_and!; [by destruct d|lia|intros; lia]|]|]; [|exists (capacity_floor d); split_and!; [by destruct d|lia|intros; lia]..].
  eexists. split; [done|]. split; [lia|]. intros top Htop Hok. destruct (vs !! _) as [e|] eqn:He; cbn [from_option]; [|lia]. destruct (Hok p vs Hp) as (_ & _ & Hall). rewrite Forall_forall in Hall.
  destruct (Hall e (list_elem_of_lookup_2 _ _ _ He)). lia.
Qed.

Definition published_view (s : FirestoreState) : Prop := index_ok (docs s) /\ scopes_view (scopes s) (dom (history (docs s))) (live_of (docs s)).

(** The fields that publishing leaves alone. *)
Definition same_publication (d d' : Documents) : Prop :=
  exists cap, d' = set_thresholds (compactable d') (reclaim_thresholds d') (set_floors (compaction_floor d) cap (set_history (history d') d)) /\ capacity_floor d <= cap /\
    forall top, 0 <= top -> entries_ok top (history d') -> cap <= Z.max (capacity_floor d) top.

(** The changes are of the database that the history is of. *)
Definition one_database (h : gmap DocumentPath Versions) (changes : list StagedChange) : Prop :=
  exists pr db, (forall p, p ∈ dom h -> in_db pr db p) /\ forall c, c ∈ changes -> in_db pr db (change_path c).

Lemma in_db_apart pr db p q : in_db pr db p -> in_db pr db q -> pairs p = pairs q -> p = q.
Proof. destruct p, q. intros (? & ? & _) (? & ? & _). cbn in *. by intros ->; subst. Qed.

Lemma publish_change_spec version s c : published_view s -> one_database (history (docs s)) [c] -> c.1.2 = (vs ← history (docs s) !! change_path c; newest vs) ->
  let s' := publish_change version s c in
  published_view s' /\ history (docs s') = push_change version (history (docs s)) c /\ same_publication (docs s) (docs s') /\ ledger s' = ledger s.
Proof.
  destruct c as [[p before] after]. intros [Hindex Hscopes] (pr & db & Hdb & Hcdb) Hbefore. specialize (Hcdb _ (list_elem_of_here _ _)). unfold change_path in *. cbn [fst snd] in *. unfold publish_change. cbn zeta.
  set (h' := push_change version (history (docs s)) (p, before, after)). set (d1 := set_history _ (docs s)).
  assert (Hd1 : d1 = set_history h' (docs s)) by done.
  destruct (pressure_form p d1) as (cap & Hcap & Hle & Htop). rewrite Hcap.
  assert (Hset : set_floors (compaction_floor d1) cap d1 = set_history h' (set_floors (compaction_floor (docs s)) cap (docs s))) by done.
  rewrite Hset. destruct (refresh_changed (set_floors (compaction_floor (docs s)) cap (docs s)) p h') as (R1 & R2 & R3); [exact Hindex|intros q Hq; by apply lookup_insert_ne|].
  set (d' := refresh_reclaim_threshold p _) in *. cbn [docs scopes ledger]. split_and!; try done.
  - split; [exact R1|]. cbn [docs scopes]. rewrite R3. assert (Hdom : dom h' = {[p]} ∪ dom (history (docs s))) by apply dom_insert_L. rewrite Hdom. rewrite (live_pushed (docs s) d' version (p, before, after)) by exact R3. cbn [snd]. unfold change_path. cbn [fst].
    assert (Hlive : p ∈ live_of (docs s) <-> is_Some before).
    { unfold live_of. rewrite elem_of_filter, elem_of_dom. rewrite <- Hbefore. split; [by intros [? _]|]. intros Hb. split; [done|]. destruct (history (docs s) !! p); [by eexists|]. cbn in Hbefore. subst before. by destruct Hb. }
    assert (Hretained : scopes_view (match history (docs s) !! p with Some _ => scopes s | None => insert_scope_path p (scopes s) end) ({[p]} ∪ dom (history (docs s))) (live_of (docs s))).
    { destruct (history (docs s) !! p) as [vs|] eqn:Hp.
      2: { assert (Hnew : p ∉ dom (history (docs s))) by by apply not_elem_of_dom. apply insert_scope_view; [done|done|]. intros q Hq Heq. apply Hnew. by rewrite <- (in_db_apart pr db q p (Hdb q Hq) Hcdb Heq). }
      assert (Hin : {[p]} ∪ dom (history (docs s)) = dom (history (docs s))); [|by rewrite Hin]. apply subseteq_union_1_L, singleton_subseteq_l, elem_of_dom. by exists vs. }
    set (sc := match history (docs s) !! p with Some _ => _ | None => _ end) in *. destruct before as [r|], after as [r'|].
    + assert (Hin : {[p]} ∪ live_of (docs s) = live_of (docs s)); [|by rewrite Hin]. apply subseteq_union_1_L, singleton_subseteq_l, Hlive. by eexists.
    + apply remove_live_view; [done|]. apply Hlive. by eexists.
    + apply insert_live_view; [done|set_solver|]. rewrite Hlive. by intros [? ?].
    + assert (Hin : live_of (docs s) ∖ {[p]} = live_of (docs s)); [|by rewrite Hin]. apply difference_disjoint_L, disjoint_singleton_r. rewrite Hlive. by intros [? ?].
  - exists cap. split_and!; [unfold same_rest in R2; rewrite R3 in *; exact R2|exact Hle|]. intros top H0 Hok. rewrite R3 in Hok. by apply Htop.
Qed.

(** ** All the changes *)

Lemma same_publication_refl d : same_publication d d.
Proof. exists (capacity_floor d). split_and!; [by destruct d|lia|intros; lia]. Qed.

Lemma publish_fold_spec version changes : forall s, NoDup (map change_path changes) -> published_view s -> one_database (history (docs s)) changes -> 0 <= version -> entries_ok version (history (docs s)) ->
  (forall c, c ∈ changes -> c.1.2 = (vs ← history (docs s) !! change_path c; newest vs) /\ FsHistory.entry_ok version (change_path c) (default [] (history (docs s) !! change_path c) ++ [(version, c.2)])) ->
  let s' := fold_left (publish_change version) changes s in
  published_view s' /\ history (docs s') = pushed version changes (history (docs s)) /\ entries_ok version (history (docs s')) /\ ledger s' = ledger s /\
  exists cap, docs s' = set_thresholds (compactable (docs s')) (reclaim_thresholds (docs s')) (set_floors (compaction_floor (docs s)) cap (set_history (history (docs s')) (docs s))) /\
    capacity_floor (docs s) <= cap <= Z.max (capacity_floor (docs s)) version.
Proof.
  induction changes as [|c changes IH]; intros s Hnd Hview Hdb Hv Hok Hchanges; cbn [fold_left].
  { split_and!; try done. exists (capacity_floor (docs s)). split; [by destruct (docs s)|lia]. }
  cbn [map] in Hnd. apply NoDup_cons in Hnd as [Hin Hnd]. destruct (Hchanges c ltac:(by left)) as [Hc Hentry]. destruct (publish_change_spec version s c Hview) as (P1 & P2 & P3 & P4); [|exact Hc|].
  { destruct Hdb as (pr & db & H1 & H2). exists pr, db. split; [done|]. intros c' ->%list_elem_of_singleton. by apply H2; left. }
  assert (Hdb1 : one_database (history (docs (publish_change version s c))) changes).
  { destruct Hdb as (pr & db & H1 & H2). exists pr, db. split; [|intros c' Hc'; by apply H2; right]. intros p. rewrite P2. unfold push_change. rewrite dom_insert, elem_of_union, elem_of_singleton. intros [->|Hp]; [by apply H2; left|by apply H1]. }
  assert (Hok1 : entries_ok version (history (docs (publish_change version s c)))).
  { rewrite P2. intros p vs Hp. unfold push_change in Hp. apply lookup_insert_Some in Hp as [[<- <-]|[_ Hp]]; [done|by apply Hok]. }
  destruct (IH (publish_change version s c)) as (Q1 & Q2 & Q3 & Q4 & cap' & Q5 & Q6); try done.
  { intros c' Hc'. rewrite P2. unfold push_change. rewrite lookup_insert_ne; [apply Hchanges; by right|]. intros Heq. apply Hin. rewrite Heq. apply list_elem_of_fmap. by exists c'. }
  split_and!; [exact Q1|by rewrite Q2, P2|exact Q3|by rewrite Q4|]. destruct P3 as (cap & P3 & Hle & Htop). specialize (Htop version Hv Hok1). exists cap'.
  set (d1 := docs (publish_change version s c)) in *. set (d' := docs (fold_left _ _ _)) in *. rewrite P3 in Q5, Q6. cbn [set_thresholds set_floors set_history capacity_floor compaction_floor] in Q5, Q6.
  split; [|lia]. etransitivity; [exact Q5|]. done.
Qed.

(** ** The charge of a commit *)

Lemma hyphenated_length s max : validate_lowercase_hyphenated s max = Ok tt -> len s <= max.
Proof. unfold validate_lowercase_hyphenated. case_bool_decide; [done|]. destruct (Z.ltb_spec max (len s)); [done|lia]. Qed.

(** A well-formed name is far below saturation. *)
Lemma name_bytes p live : path_ok p -> history_path_and_index_bytes p live = Z.of_nat (length (resource_name p)) + 96 + (if live then 48 else 0).
Proof.
  intros (Hp & Hd & _ & _ & _ & Hr). apply hyphenated_length in Hp. assert (Hd' : len (database p) <= 63).
  { unfold validate_database_id in Hd. case_bool_decide as H; [rewrite H; by vm_compute|by apply hyphenated_length]. }
  assert (Hname : Z.of_nat (length (resource_name p)) = len (FsDocPath.project p) + len (database p) + Z.of_nat (length (relative p)) + 31).
  { unfold resource_name, len. rewrite !length_app. change (length (chars "projects/")) with 9%nat. change (length (chars "/databases/")) with 11%nat. change (length (chars "/documents/")) with 11%nat. lia. }
  unfold MAX_DOCUMENT_NAME_BYTES in Hr. unfold history_path_and_index_bytes, sat_add, saturating, HISTORY_PATH_KEY_OVERHEAD, HISTORY_INDEX_REFERENCE_OVERHEAD. cbn [int_min int_max u64].
  destruct live; lia.
Qed.

(** A certificate says that the machine's result is the unbounded one. *)
Lemma certified_add_true a b : match checked u64 (a + b) with Some value => value <? int_max u64 | None => false end = true -> sat_add a b = a + b.
Proof. unfold sat_add, checked. case_decide as Hf; [|done]. intros _. by apply saturating_id. Qed.

Lemma certified_sub_true a b : match checked u64 (a - b) with Some _ => true | None => false end = true -> sat_sub a b = a - b.
Proof. unfold sat_sub, checked. case_decide as Hf; [|done]. intros _. by apply saturating_id. Qed.

Ltac certified := repeat match goal with
  | H : _ && _ = true |- _ => apply andb_true_iff in H as [? ?]
  | H : match checked u64 (_ + _) with _ => _ end = true |- _ => apply certified_add_true in H; rewrite ?H
  | H : match checked u64 (_ - _) with _ => _ end = true |- _ => apply certified_sub_true in H; rewrite ?H
  end.

Lemma sizes_snoc vs v o : history_document_sizes (vs ++ [(v, o)]) = history_document_sizes vs ++ [logical_bytes <$> o].
Proof. unfold history_document_sizes. by rewrite map_app. Qed.

Lemma older_one size : older_charge [size] =
  {| live_document_bytes := 0; historical_document_bytes := default 0 size; path_and_index_bytes := 0; version_metadata_bytes := 16; tombstone_bytes := match size with Some _ => 0 | None => 1 end;
     commit_time_bytes := 0; total_bytes := 0; u_versions := 1; u_tombstones := match size with Some _ => 0 | None => 1 end; u_paths := 0; u_commit_times := 0 |}.
Proof. unfold older_charge. apply usage_ext; destruct size; cbn; lia. Qed.

(** What a certified change charges is the difference between the charges of its path. *)
Lemma charge_change_exact d u floor exact c u' floor' version : charge_change d (u, floor, exact) c = (u', floor', true) -> path_ok (change_path c) -> (forall vs, history d !! change_path c = Some vs -> vs <> []) ->
  c.1.2 = (vs ← history d !! change_path c; newest vs) -> let vs := default [] (history d !! change_path c) in
  exact = true /\ plus_usage u' (entry_charge (change_path c, vs)) = plus_usage u (entry_charge (change_path c, vs ++ [(version, c.2)])).
Proof.
  destruct c as [[p before] after]. unfold change_path. cbn [fst snd]. intros Hc Hp Hne Hbefore. pose proof (name_bytes p) as Hname. specialize (fun live => Hname live Hp).
  unfold charge_change in Hc. unfold entry_charge. cbn [fst snd]. rewrite sizes_snoc, path_charge_snoc. destruct (history d !! p) as [vs|] eqn:Hh.
  - cbn [from_option mbind option_bind id] in *. destruct (exists_last_dec vs) as [->|(init & [v0 b] & ->)]; [by destruct (Hne [])|]. rewrite newest_snoc in Hbefore. subst before.
    rewrite sizes_snoc, path_charge_snoc, older_app, older_one.
    destruct b as [rb|], after as [ra|]; unfold certified_history_add, certified_history_sub in Hc; injection Hc as <- _ Hexact; certified; (split; [done|]);
      apply usage_ext; cbn -[history_path_and_index_bytes Z.mul sat_add sat_sub]; rewrite ?Hname; unfold HISTORY_VERSION_METADATA_BYTES, HISTORY_TOMBSTONE_BYTES, HISTORY_INDEX_REFERENCE_OVERHEAD; lia.
  - cbn [from_option mbind option_bind id] in *. subst before. change (path_charge p (history_document_sizes [])) with no_usage.
    destruct after as [ra|]; unfold certified_history_add, certified_history_sub in Hc; injection Hc as <- _ Hexact; certified; (split; [done|]);
      apply usage_ext; cbn -[history_path_and_index_bytes Z.mul sat_add sat_sub]; rewrite ?Hname; unfold HISTORY_VERSION_METADATA_BYTES, HISTORY_TOMBSTONE_BYTES, HISTORY_INDEX_REFERENCE_OVERHEAD; lia.
Qed.

(** The equations between the components of equal usages. *)
Ltac components_of H :=
  pose proof (f_equal live_document_bytes H); pose proof (f_equal historical_document_bytes H); pose proof (f_equal path_and_index_bytes H); pose proof (f_equal version_metadata_bytes H);
  pose proof (f_equal tombstone_bytes H); pose proof (f_equal commit_time_bytes H); pose proof (f_equal u_versions H); pose proof (f_equal u_tombstones H); pose proof (f_equal u_paths H); pose proof (f_equal u_commit_times H).

Ltac plain_usage := cbn [plus_usage combine_usage live_document_bytes historical_document_bytes path_and_index_bytes version_metadata_bytes tombstone_bytes commit_time_bytes total_bytes u_versions u_tombstones u_paths u_commit_times] in *.

Lemma exchange_usage u' u1 u e1 e2 rest all : plus_usage u1 e1 = plus_usage u e2 -> plus_usage u' (plus_usage e2 rest) = plus_usage u1 all -> plus_usage u' (plus_usage e1 rest) = plus_usage u all.
Proof. intros H1 H2. components_of H1. components_of H2. apply usage_ext; plain_usage; lia. Qed.

Lemma history_charge_at h p : history_charge h = plus_usage (entry_charge (p, default [] (h !! p))) (history_charge (delete p h)).
Proof.
  destruct (h !! p) as [vs|] eqn:Hp; [by apply history_charge_delete|]. rewrite delete_id by done. change (entry_charge (p, default [] None)) with no_usage. rewrite plus_comm. symmetry. apply plus_none, sum_usage_total.
Qed.

Lemma charge_fold_exact d version changes : (forall p vs, history d !! p = Some vs -> vs <> []) -> forall u floor exact u' floor' h, fold_left (charge_change d) changes (u, floor, exact) = (u', floor', true) -> NoDup (map change_path changes) ->
  (forall c, c ∈ changes -> path_ok (change_path c) /\ c.1.2 = (vs ← history d !! change_path c; newest vs) /\ h !! change_path c = history d !! change_path c) ->
  exact = true /\ plus_usage u' (history_charge h) = plus_usage u (history_charge (pushed version changes h)).
Proof.
  intros Hne. induction changes as [|c changes IH]; intros u floor exact u' floor' h Hfold Hnd Hc; cbn [fold_left] in Hfold; [by injection Hfold as -> _ ->|].
  cbn [map] in Hnd. apply NoDup_cons in Hnd as [Hin Hnd]. destruct (charge_change d (u, floor, exact) c) as [[u1 floor1] exact1] eqn:H1. destruct (Hc c ltac:(by left)) as (Hp & Hb & Hh).
  destruct (IH u1 floor1 exact1 u' floor' (push_change version h c)) as [-> IHc]; [done..| |].
  { intros c' Hc'. destruct (Hc c' ltac:(by right)) as (? & ? & ?). split_and!; [done|done|]. unfold push_change. rewrite lookup_insert_ne; [done|]. intros Heq. apply Hin. rewrite Heq. apply list_elem_of_fmap. by exists c'. }
  destruct (charge_change_exact d u floor exact c u1 floor1 version H1 Hp (Hne (change_path c)) Hb) as [-> Hone]. split; [done|].
  rewrite (history_charge_at h (change_path c)), Hh. eapply exchange_usage; [exact Hone|]. rewrite <- Hh. unfold push_change in IHc. rewrite history_charge_insert in IHc. exact IHc.
Qed.

Lemma saturated_components u : nonneg_usage u -> Forall (fun c => c < int_max u64) (components u) -> components (saturated u) = components u.
Proof.
  intros (?&?&?&?&?&?&?&?&?&?)%nonneg_components Hmax. unfold components in *. rewrite !Forall_cons in Hmax. destruct Hmax as (?&?&?&?&?&?&?&?&?&?&_).
  cbn [saturated combine_usage live_document_bytes historical_document_bytes path_and_index_bytes version_metadata_bytes tombstone_bytes commit_time_bytes u_versions u_tombstones u_paths u_commit_times].
  rewrite !saturating_id by (unfold fits; cbn [int_min int_max u64] in *; lia). done.
Qed.

Lemma finish_bounded u x : nonneg_usage x -> components u = components x -> unsaturated (finish_history_usage u) = true -> finish_history_usage u = bounded x /\ below_max x.
Proof.
  intros Hx Hc Hu. assert (Heq : finish_history_usage u = bounded x).
  { apply finish_ext. rewrite saturated_components; [done|done|]. rewrite <- Hc. pose proof (unsaturated_components _ Hu) as (?&?&?&?&?&?&?&?&?&?). unfold components. repeat apply Forall_cons_2; (done || apply Forall_nil_2). }
  split; [done|]. apply unsaturated_bounded; [done|]. by rewrite <- Heq.
Qed.

(** The projected usage, when it is certified, is the charge of the history that will be published. *)
Lemma projected_exact d d' version staged u floor : docs_wf d -> projected_uncompacted_usage d staged = (u, floor, true) -> NoDup (map change_path staged) ->
  (forall c, c ∈ staged -> path_ok (change_path c) /\ c.1.2 = (vs ← history d !! change_path c; newest vs)) ->
  history d' = pushed version staged (history d) -> Z.of_nat (length (commit_times d')) = Z.of_nat (length (commit_times d)) + (match staged with [] => 0 | _ => 1 end) -> nonneg_usage (documents_charge d') ->
  u = bounded (documents_charge d') /\ below_max (documents_charge d').
Proof.
  intros Hwf Hproj Hnd Hc Hh Hlen Hnn. unfold projected_uncompacted_usage in Hproj. assert (Hne : forall p vs, history d !! p = Some vs -> vs <> []) by (intros p vs Hp; by destruct (wf_entries d Hwf p vs Hp)).
  set (times := match staged with [] => _ | _ => _ end) in Hproj. destruct times as [[count bytes] exact0] eqn:Htimes.
  destruct (fold_left (charge_change d) staged _) as [[u1 floor1] exact1] eqn:Hfold. injection Hproj as <- <- Hexact. apply andb_true_iff in Hexact as [-> Hu].
  destruct (charge_fold_exact d version staged Hne _ _ _ _ _ (history d) Hfold Hnd) as [-> Hcharge]; [intros c Hin; destruct (Hc c Hin); by split_and!|].
  assert (Hbase : history_accounting_exact d = true /\ count = u_commit_times (history_usage d) + (match staged with [] => 0 | _ => 1 end) /\ bytes = commit_time_bytes (history_usage d) + 24 * (match staged with [] => 0 | _ => 1 end)).
  { subst times. destruct staged; [injection Htimes as <- <- ->; split_and!; [done|lia|lia]|]. unfold certified_history_add in Htimes. injection Htimes as <- <- He. certified. unfold HISTORY_COMMIT_TIME_BYTES. by split_and!. }
  destruct Hbase as (Hexact & -> & ->). destruct (wf_usage d Hwf Hexact) as [Husage Hmax]. apply finish_bounded; [done| |done].
  assert (Hnd0 : nonneg_usage (documents_charge d)) by (apply plus_nonneg; [by apply (history_charge_nonneg (current_version d)), (wf_entries d Hwf)|apply times_charge_nonneg; lia]).
  pose proof (saturated_components _ Hnd0 (proj1 Hmax)) as Hsat. assert (Hcomp : components (history_usage d) = components (documents_charge d)) by (rewrite Husage; exact Hsat).
  unfold components in Hcomp. injection Hcomp as ??????????. unfold documents_charge in *. rewrite Hh, Hlen. components_of Hcharge. unfold times_charge, with_commit_times in *. plain_usage. unfold no_usage in *. plain_usage. unfold components. repeat apply (f_equal2 cons); try reflexivity; plain_usage; lia.
Qed.

(** ** The publication as a whole *)

Lemma next_commit_later d now : (forall t, last_commit_time d = Some t -> fits i128 (t + 1000)) -> forall t, last_commit_time d = Some t -> t < next_commit_time d now.
Proof.
  intros Hroom t Ht. unfold next_commit_time. rewrite Ht. destruct (Z.leb_spec (wrapping i128 (now - now mod 1000)) t); [|done]. rewrite wrapping_id by by apply Hroom. lia.
Qed.

Lemma next_version_id d : docs_wf d -> current_version d < int_max u64 -> next_version d = current_version d + 1.
Proof. intros Hwf Hroom. destruct (wf_floors d Hwf) as [? _]. apply wrapping_id. unfold fits. cbn [int_min int_max u64] in *. lia. Qed.

(** The commit times once the new version is there. *)
Lemma times_snoc d time : docs_wf d -> (forall t, last_commit_time d = Some t -> t < time) ->
  let times := commit_times d ++ [(current_version d + 1, time)] in
  map fst times = seqZ (Z.max 1 (compaction_floor d)) (current_version d + 1 - Z.max 1 (compaction_floor d) + 1) /\ StronglySorted (fun a b => a.2 < b.2) times /\ forall e, e ∈ times -> e.2 <= time.
Proof.
  intros Hwf Htime. destruct (wf_times d Hwf) as (T1 & T2 & T3). destruct (wf_floors d Hwf) as [[F1 F2] _]. cbn zeta.
  assert (Hlt : forall e, e ∈ commit_times d -> e.2 < time) by (intros e (t & Ht & Hle)%T3; specialize (Htime t Ht); lia). split_and!.
  - rewrite map_app, T1. cbn [map fst]. replace (current_version d + 1 - Z.max 1 (compaction_floor d) + 1) with (current_version d - Z.max 1 (compaction_floor d) + 1 + 1) by lia. rewrite (seqZ_app _ (current_version d - Z.max 1 (compaction_floor d) + 1) 1) by lia. f_equal.
    rewrite seqZ_cons, seqZ_nil by lia. f_equal. lia.
  - apply StronglySorted_app. split_and!; [|done|by repeat constructor]. intros a b Ha ->%list_elem_of_singleton. cbn. by apply Hlt.
  - intros e [He%Hlt| ->%list_elem_of_singleton]%elem_of_app; [lia|done].
Qed.

(** What is staged against well-formed documents. *)
Record staged_ok (d : Documents) (staged : list StagedChange) : Prop := {
  sk_nodup : NoDup (map change_path staged);
  sk_path : forall c, c ∈ staged -> path_ok (change_path c);
  sk_change : forall c, c ∈ staged -> change_ok (next_version d) (history d) c }.

Lemma pushed_entries d staged : docs_wf d -> current_version d < int_max u64 -> staged_ok d staged -> entries_ok (next_version d) (pushed (next_version d) staged (history d)) /\
  forall c, c ∈ staged -> FsHistory.entry_ok (next_version d) (change_path c) (default [] (history d !! change_path c) ++ [(next_version d, c.2)]).
Proof.
  intros Hwf Hroom [Hnd Hpath Hchange]. rewrite (next_version_id d Hwf Hroom) in *. destruct (wf_floors d Hwf) as [[F1 F2] _].
  assert (Hone : forall c, c ∈ staged -> FsHistory.entry_ok (current_version d + 1) (change_path c) (default [] (history d !! change_path c) ++ [(current_version d + 1, c.2)])).
  { intros c Hc. destruct (Hchange c Hc) as [_ Hr]. apply (entry_snoc (current_version d)); [|lia|exact Hr]. destruct (history d !! change_path c) as [vs|] eqn:Hp; [right; by apply (wf_entries d Hwf)|by left]. }
  split; [|done]. destruct (lookup_pushed (current_version d + 1) staged Hnd (history d)) as [H1 H2]. intros p vs Hp. destruct (decide (p ∈ map change_path staged)) as [Hin|Hout].
  - apply list_elem_of_fmap in Hin as (c & -> & Hc). rewrite H2 in Hp by done. injection Hp as <-. by apply Hone.
  - rewrite H1 in Hp by done. destruct (wf_entries d Hwf p vs Hp) as (E1 & E2 & E3). split_and!; [done|done|]. eapply Forall_impl; [exact E3|]. intros e [He Hr]. split; [lia|done].
Qed.

Definition view_ok (s : FirestoreState) : Prop := scopes_view (scopes s) (dom (history (docs s))) (live_of (docs s)).

Lemma publish_staged_spec s time (snapshot : bool) usage exact staged : docs_wf (docs s) -> view_ok s -> one_database (history (docs s)) staged -> current_version (docs s) < int_max u64 -> staged_ok (docs s) staged ->
  (exact = true -> exists floor, projected_uncompacted_usage (docs s) staged = (usage, floor, true)) ->
  (if snapshot then staged = [] else forall t, last_commit_time (docs s) = Some t -> t < time) ->
  let s' := publish time snapshot usage exact staged s in
  docs_wf (docs s') /\ view_ok s' /\ ledger s' = ledger s /\ history (docs s') = pushed (next_version (docs s)) staged (history (docs s)) /\
  current_version (docs s') = match staged with [] => current_version (docs s) | _ => current_version (docs s) + 1 end /\ compaction_floor (docs s') = compaction_floor (docs s) /\
  last_commit_time (docs s') = (if snapshot then last_commit_time (docs s) else Some time).
Proof.
  intros Hwf Hview Hdb Hroom Hstaged Husage Htime. pose proof (next_version_id (docs s) Hwf Hroom) as Hnext. destruct (wf_floors _ Hwf) as [[F1 F2] F3]. destruct (wf_times _ Hwf) as (T1 & T2 & T3).
  assert (Hcharge : forall d', history d' = pushed (next_version (docs s)) staged (history (docs s)) -> Z.of_nat (length (commit_times d')) = Z.of_nat (length (commit_times (docs s))) + (match staged with [] => 0 | _ => 1 end) ->
    history_usage d' = usage -> history_accounting_exact d' = exact -> usage_ok d').
  { intros d' Hh Hlen Hu He He'. rewrite He' in He. subst exact. destruct (Husage eq_refl) as [floor Hproj]. rewrite Hu. apply (projected_exact (docs s) d' (next_version (docs s)) staged usage floor); try done; [apply Hstaged| |].
    - intros c Hc. split; [by apply Hstaged|]. by apply (sk_change _ _ Hstaged c Hc).
    - apply plus_nonneg; [|apply times_charge_nonneg; lia]. rewrite Hh. apply (history_charge_nonneg (next_version (docs s))). by apply pushed_entries. }
  unfold publish. destruct staged as [|c staged].
  - cbn zeta. assert (Hd : forall d', (d' = set_usage usage exact (set_forecast None (docs s)) \/ d' = set_usage usage exact (set_forecast None (set_times (current_version (docs s)) (Some time) (commit_times (docs s)) (docs s))) /\ snapshot = false) -> docs_wf d').
    { intros d' Hd'. destruct Hwf as [W1 W2 W3 W4 W5 W6]. destruct Hd' as [->|[-> Hs]]; split; try done.
      - apply Hcharge; try done. cbn. lia.
      - split_and!; [done|done|]. intros e (t & Ht & Hle)%T3. exists time. split; [done|]. subst snapshot. specialize (Htime t Ht). lia.
      - apply Hcharge; try done. cbn. lia. }
    destruct snapshot; cbn [docs with_docs scopes ledger]; split_and!; try done; apply Hd; auto.
  - destruct snapshot; [done|]. cbn zeta. destruct (times_snoc (docs s) time Hwf Htime) as (N1 & N2 & N3). set (s0 := with_docs _ s). destruct (pushed_entries (docs s) (c :: staged) Hwf Hroom Hstaged) as [P1 P2].
    assert (Hold : entries_ok (next_version (docs s)) (history (docs s))).
    { intros p vs Hp. destruct (wf_entries _ Hwf p vs Hp) as (E1 & E2 & E3). split_and!; [done|done|]. eapply Forall_impl; [exact E3|]. intros e [He Hr]. split; [lia|done]. }
    destruct (publish_fold_spec (next_version (docs s)) (c :: staged) s0) as (Q1 & Q2 & Q3 & Q4 & cap & Q5 & Q6); [apply Hstaged|by split; [apply (wf_index _ Hwf)|]|exact Hdb|lia|exact Hold| |].
    { intros c' Hc'. split; [by apply (sk_change _ _ Hstaged c' Hc')|by apply P2]. }
    set (s' := fold_left _ _ s0) in *. assert (Hf : forall A (f : Documents -> A), f (docs s') = f (set_thresholds (compactable (docs s')) (reclaim_thresholds (docs s')) (set_floors (compaction_floor (docs s0)) cap (set_history (history (docs s')) (docs s0))))) by (intros A f; by rewrite <- Q5).
    assert (Hcv : current_version (docs s') = current_version (docs s) + 1) by (rewrite (Hf _ current_version); exact Hnext). destruct Q1 as [Q1 Q1'].
    assert (Hcf : compaction_floor (docs s') = compaction_floor (docs s)) by by rewrite (Hf _ compaction_floor). assert (Hlt : last_commit_time (docs s') = Some time) by by rewrite (Hf _ last_commit_time).
    assert (Hct : commit_times (docs s') = commit_times (docs s) ++ [(current_version (docs s) + 1, time)]) by (rewrite (Hf _ commit_times), <- Hnext; reflexivity).
    split_and!; try done. split.
    + rewrite Hcv, <- Hnext. exact Q3.
    + rewrite Hcv, Hcf, (Hf _ capacity_floor). cbn [set_thresholds set_floors capacity_floor]. cbn in Q6. lia.
    + unfold times_ok. rewrite Hcv, Hcf, Hct, Hlt. split_and!; [exact N1|exact N2|]. intros e He. exists time. split; [done|by apply N3].
    + exact Q1.
    + apply Hcharge; [exact Q2| |by rewrite (Hf _ history_usage)|by rewrite (Hf _ history_accounting_exact)]. rewrite Hct, length_app. cbn. lia.
    + rewrite (Hf _ max_versions_per_path). apply (wf_bound _ Hwf).
Qed.

(** ** Reads after a publication *)

Lemma pushed_reads d d' staged : docs_wf d -> current_version d < int_max u64 -> staged_ok d staged -> history d' = pushed (next_version d) staged (history d) ->
  (forall c, c ∈ staged -> get d' (change_path c) = document <$> c.2) /\ (forall p, p ∉ map change_path staged -> get d' p = get d p) /\
  (forall p v, v <= current_version d -> get_at d' p v = get_at d p v) /\ dom (history d') ⊆ dom (history d) ∪ list_to_set (map change_path staged).
Proof.
  intros Hwf Hroom Hstaged Hh. pose proof (next_version_id d Hwf Hroom) as Hnext. destruct (lookup_pushed (next_version d) staged (sk_nodup _ _ Hstaged) (history d)) as [H1 H2]. rewrite <- Hh in H1, H2. split_and!.
  - intros c Hc. unfold get. rewrite (H2 c Hc). cbn [mbind option_bind]. by rewrite newest_snoc.
  - intros p Hp. unfold get. by rewrite H1.
  - intros p v Hv. unfold get_at. destruct (decide (p ∈ map change_path staged)) as [Hin|Hout]; [|by rewrite H1]. apply list_elem_of_fmap in Hin as (c & -> & Hc). rewrite (H2 c Hc). cbn [mbind option_bind].
    assert (Hf : version_before (default [] (history d !! change_path c) ++ [(next_version d, c.2)]) v = version_before (default [] (history d !! change_path c)) v).
    { unfold version_before. rewrite filter_app, filter_cons, decide_False, filter_nil, app_nil_r by (cbn; lia). done. }
    rewrite Hf. by destruct (history d !! change_path c).
  - intros p [vs Hp]%elem_of_dom. apply elem_of_union. destruct (decide (p ∈ map change_path staged)) as [Hin|Hout]; [right; by apply elem_of_list_to_set|left]. rewrite H1 in Hp by done. apply elem_of_dom. by exists vs.
Qed.

(** ** Compaction of the store *)

Lemma retention_le d o now : retention_floor d o now <= current_version d.
Proof. unfold retention_floor. lia. Qed.

Lemma removed_view removed : forall sc R L, NoDup removed -> (forall p, p ∈ removed -> p ∈ R /\ p ∉ L) -> scopes_view sc R L -> scopes_view (fold_left (fun sc p => remove_scope_path p sc) removed sc) (R ∖ list_to_set removed) L.
Proof.
  induction removed as [|p removed IH]; intros sc R L Hnd Hin Hv; cbn [fold_left list_to_set].
  - by rewrite difference_empty_L.
  - apply NoDup_cons in Hnd as [Hp Hnd]. assert (Hd : R ∖ ({[p]} ∪ list_to_set removed) = (R ∖ {[p]}) ∖ list_to_set removed) by set_solver. rewrite Hd. destruct (Hin p ltac:(by left)) as [HR HL].
    apply IH; [done| |by apply remove_scope_view]. intros q Hq. destruct (Hin q ltac:(by right)) as [HqR HqL]. split; [|done]. apply elem_of_difference. split; [done|]. intros ->%elem_of_singleton. done.
Qed.

Record compacted_from (s s' : FirestoreState) : Prop := {
  cf_docs : docs_wf (docs s');
  cf_view : view_ok s';
  cf_get : forall p, get (docs s') p = get (docs s) p;
  cf_get_at : forall p v, compaction_floor (docs s') <= v -> get_at (docs s') p v = get_at (docs s) p v;
  cf_version : current_version (docs s') = current_version (docs s) /\ last_commit_time (docs s') = last_commit_time (docs s);
  cf_floor : compaction_floor (docs s) <= compaction_floor (docs s');
  cf_paths : dom (history (docs s')) ⊆ dom (history (docs s)) }.

Lemma compact_spec s now : docs_wf (docs s) -> view_ok s -> compacted_from s (compact now s) /\ ledger (compact now s) = (prune_transactions now (ledger s)).2.
Proof.
  intros Hwf Hview. unfold compact. cbv zeta. set (l := (prune_transactions now (ledger s)).2). set (floor := retention_floor (docs s) _ now). assert (Hle : floor <= current_version (docs s)) by apply retention_le.
  destruct (compact_to_reads (docs s) floor Hwf Hle) as (R1 & R2 & R3 & R4). destruct (compact_to floor (docs s)) as [d removed] eqn:Hc. cbn [fst] in *. cbn [docs ledger]. split; [|done].
  destruct (Z.le_gt_cases floor (compaction_floor (docs s))) as [Hsmall|Hlt].
  - unfold compact_to in Hc. rewrite (proj2 (Z.leb_le _ _)) in Hc by done. injection Hc as <- <-. split; cbn [docs scopes]; done.
  - pose proof (compact_to_spec (docs s) floor Hwf ltac:(lia)) as Hspec. rewrite Hc in Hspec. destruct Hspec as (_ & Hh & _ & Hv & _ & Ht & _ & _ & _ & _ & Hrem & Hnd).
    assert (Hdom : dom (history d) = dom (history (docs s)) ∖ list_to_set removed).
    { apply set_eq. intros p. rewrite elem_of_difference, !elem_of_dom, elem_of_list_to_set, Hrem. split; [|destruct (history d !! p); [by intros _; eexists|tauto]].
      intros [vs Hp]. rewrite Hp. split; [|by intros [_ ?]]. rewrite Hh, lookup_omap in Hp. apply bind_Some in Hp as (vs0 & Hp & _). by exists vs0. }
    assert (Hlive : live_of d = live_of (docs s)).
    { apply set_eq. intros p. unfold live_of. rewrite !elem_of_filter, !elem_of_dom. specialize (R3 p). unfold get in R3. split; intros [Hn Hp].
      - destruct (history d !! p ≫= newest) as [r|]; [|by destruct Hn]. destruct (history (docs s) !! p) as [vs|]; [|done]. cbn in *. destruct (newest vs); [|done]. split; by eexists.
      - destruct (history (docs s) !! p ≫= newest) as [r|]; [|by destruct Hn]. destruct (history d !! p) as [vs|]; [|done]. cbn in *. destruct (newest vs); [|done]. split; by eexists. }
    split; cbn [docs scopes]; try done; [|lia|rewrite Hdom; set_solver]. unfold view_ok. cbn [docs scopes]. rewrite Hdom, Hlive. apply removed_view; [done| |done].
    intros p [Hp Hnone]%Hrem. split; [by apply elem_of_dom|]. rewrite <- Hlive. unfold live_of. rewrite elem_of_filter, elem_of_dom, Hnone. by intros [_ [? ?]].
Qed.
