(* ===== verification/FsCommit.v ===== *)
(** * Commits

    Proofs about the commit of [FsStore.v]: what its writes stage, whose locks it may pass, and
    what it publishes. *)
From S2P Require Import Prelude Time Text Ids Hash FsValue FsDocPath FsSize FsDocument FsValidate FsFilter FsQuery FsSelect FsListing FsUsage FsHistory FsScope FsLedger FsLedgerWf FsTransaction FsRun FsStore FsPublish.
#[local] Set Warnings "-register-all".

(** ** What the writes of a commit make of a document *)

(** One write: what it leaves, or the stored document when it changes nothing. *)
Definition effect (time : LogicalInstant) (version : CommitVersion) (current : option Document) (w : Write) : option Document :=
  match apply_write w current time version with Ok (next, _) => if write_unchanged w current next then current else next | Err _ => current end.

(** The writes of a commit to one path, in order. *)
Definition writes_to (writes : list Write) (p : DocumentPath) : list Write := filter (fun w => op_path (op w) = p) writes.

Definition effects (time : LogicalInstant) (version : CommitVersion) (writes : list Write) (p : DocumentPath) (current : option Document) : option Document :=
  fold_left (effect time version) (writes_to writes p) current.

Lemma effects_snoc time version writes w p current :
  effects time version (writes ++ [w]) p current = if decide (op_path (op w) = p) then effect time version (effects time version writes p current) w else effects time version writes p current.
Proof.
  unfold effects, writes_to. rewrite filter_app, fold_left_app, filter_cons, filter_nil. by case_decide.
Qed.

(** ** Staging *)

Section staging.
Context (index_usage : LimitScope -> DocumentPath -> fields_map -> result unit FirestoreError) (delete_check : DocumentPath -> fields_map -> result unit FirestoreError).
Context (d : Documents) (scope : LimitScope) (time : LogicalInstant) (version : CommitVersion).

Abbreviation stage_write := (FsStore.stage_write index_usage delete_check d scope time version).

(** The working copy after the writes of a prefix of the commit. *)
Record staged_by (ws : list Write) (staged : gmap DocumentPath StagedDocument) : Prop := {
  sb_paths : forall p, is_Some (staged !! p) -> p ∈ map (fun w => op_path (op w)) ws;
  sb_current : forall p, document <$> s_current (stage_of d staged p) = effects time version ws p (get d p);
  sb_before : forall p, s_before (stage_of d staged p) = newest_of d p;
  sb_same : forall p, s_changed (stage_of d staged p) = false -> s_current (stage_of d staged p) = newest_of d p;
  sb_new : forall p r, s_changed (stage_of d staged p) = true -> s_current (stage_of d staged p) = Some r -> path (document r) = p /\ FsDocument.version (document r) = version /\ 0 <= logical_bytes r }.

Lemma newest_get p : document <$> newest_of d p = get d p.
Proof. done. Qed.

Lemma staged_nothing : staged_by [] ∅.
Proof.
  assert (Hs : forall p, stage_of d ∅ p = {| s_before := newest_of d p; s_current := newest_of d p; s_changed := false |}) by (intros p; unfold stage_of; by rewrite lookup_empty).
  split; intros p; rewrite ?Hs; try done. rewrite lookup_empty. by intros [].
Qed.

Lemma stage_insert staged p st q : stage_of d (<[p := st]> staged) q = if decide (q = p) then st else stage_of d staged q.
Proof. unfold stage_of. case_decide as H; [by rewrite H, lookup_insert_eq|by rewrite lookup_insert_ne]. Qed.

Lemma validated_nonneg doc size : validate_document doc scope = Ok size -> 0 <= size.
Proof.
  unfold validate_document. rewrite !r_do_Ok. intros (_ & _ & H). apply r_bind_Ok in H as (n & Hn & H). rewrite !r_do_Ok in H. destruct H as (_ & _ & [= <-]).
  unfold or_invalid in Hn. destruct (document_size_bytes (path doc) (fields doc)) as [k|] eqn:E; [|done]. injection Hn as ->. rewrite document_size_bytes_capped in E. apply capped_Ok in E as [-> _].
  unfold document_bytes. pose proof (path_bytes_nonneg (path doc)). pose proof (entries_nonneg (btree_map_iter (fields doc))). lia.
Qed.

Lemma applied_document w current time' version' next result doc : apply_write w current time' version' = Ok (next, result) -> next = Some doc -> is_verify w = false -> path doc = op_path (op w) /\ FsDocument.version doc = version' /\
  exists fs mask, op w = WSet (op_path (op w)) fs mask.
Proof.
  unfold apply_write, is_verify. destruct (op w) as [p fs mask|p|p]; [|by destruct (bool_decide _); [intros [= <- _]|]|done]. intros H -> _. apply r_bind_Ok in H as ([fs' results] & _ & [= <- _]). split_and!; [done|done|by eexists _, _].
Qed.

(** A write that the commit accepts, against the working copy. *)
Definition accepts (current : option Document) (w : Write) : Prop := check_precondition (precondition w) current (op_path (op w)) = Ok tt /\ exists next result, apply_write w current time version = Ok (next, result).

Lemma stage_write_spec ws staged results w staged' results' : staged_by ws staged -> stage_write (staged, results) w = Ok (staged', results') ->
  staged_by (ws ++ [w]) staged' /\ length results' = S (length results) /\ accepts (effects time version ws (op_path (op w)) (get d (op_path (op w)))) w.
Proof.
  intros [S1 S2 S3 S4 S5] H. unfold FsStore.stage_write in H. set (p := op_path (op w)) in *. set (stage := stage_of d staged p) in *. rewrite <- (S2 p). set (current := document <$> s_current stage) in *.
  destruct (check_precondition (precondition w) current p) as [[]|] eqn:Hpre; [|done].
  set (body := r_bind _ _) in H. destruct body as [[m rs]|] eqn:Hbody; [|done]. cbn [failing] in H. injection H as -> ->. subst body. apply r_do_Ok in Hbody as [_ H].
  apply r_bind_Ok in H as ([next result] & Happly & H). apply r_bind_Ok in H as (size & Hsize & H). injection H as <- <-. split_and!; [|rewrite length_app; cbn; lia|split; [done|by eexists _, _]].
  set (unchanged := write_unchanged w current next) in *. set (st := if unchanged then stage else _).
  assert (Heffect : document <$> s_current st = effect time version current w).
  { unfold effect. rewrite Happly. fold unchanged. subst st. destruct unchanged; [done|]. cbn. by destruct next. }
  split.
  - intros q. rewrite map_app, elem_of_app. destruct (decide (q = p)) as [->|Hne]; [intros _; right; by apply list_elem_of_singleton|]. rewrite lookup_insert_ne by done. intros Hq. left. by apply S1.
  - intros q. rewrite stage_insert, effects_snoc. fold p. destruct (decide (q = p)) as [->|Hne]; [rewrite decide_True by done; rewrite Heffect; by rewrite <- (S2 p)|]. rewrite decide_False by done. apply S2.
  - intros q. rewrite stage_insert. case_decide as Hq; [|apply S3]. subst q st. destruct unchanged; apply S3.
  - intros q. rewrite stage_insert. case_decide as Hq; [|apply S4]. subst q st. destruct unchanged; [apply S4|done].
  - intros q r. rewrite stage_insert. case_decide as Hq; [|apply S5]. subst q st. destruct unchanged eqn:Hu; [apply S5|]. cbn. intros _ Hr. apply fmap_Some in Hr as (doc & -> & ->). cbn.
    assert (Hv : is_verify w = false) by (subst unchanged; unfold write_unchanged in Hu; apply orb_false_iff in Hu as [Hv _]; exact Hv). destruct (applied_document w current time version (Some doc) result doc Happly eq_refl Hv) as (-> & -> & fs & mask & Hop).
    split_and!; [done|done|]. unfold check_next in Hsize. rewrite Hop in Hsize. apply r_bind_Ok in Hsize as (n & Hn & Hsize). apply r_do_Ok in Hsize as [_ [= <-]]. by apply (validated_nonneg doc).
Qed.

(** Every write of a commit is accepted against what the writes before it left of its document. *)
Fixpoint accepts_all (ws writes : list Write) : Prop :=
  match writes with [] => True | w :: writes => accepts (effects time version ws (op_path (op w)) (get d (op_path (op w)))) w /\ accepts_all (ws ++ [w]) writes end.

Lemma stage_fold_spec writes : forall ws staged results staged' results', staged_by ws staged -> r_fold stage_write writes (staged, results) = Ok (staged', results') ->
  staged_by (ws ++ writes) staged' /\ length results' = (length results + length writes)%nat /\ accepts_all ws writes.
Proof.
  induction writes as [|w writes IH]; intros ws staged results staged' results' Hs H.
  - injection H as <- <-. rewrite app_nil_r. split_and!; [done|cbn; lia|done].
  - cbn [r_fold] in H. apply r_bind_Ok in H as ([m rs] & H1 & H2). destruct (stage_write_spec _ _ _ _ _ _ Hs H1) as (A1 & A2 & A3). destruct (IH _ _ _ _ _ A1 H2) as (B1 & B2 & B3).
    rewrite <- app_assoc in B1. split_and!; [exact B1|cbn; lia|by split].
Qed.

Lemma stage_writes_spec writes staged results : FsStore.stage_writes index_usage delete_check d scope time version writes = Ok (staged, results) ->
  staged_by writes staged /\ length results = length writes /\ accepts_all [] writes.
Proof. intros H. by apply (stage_fold_spec writes [] ∅ [] staged results staged_nothing). Qed.

(** ** The staged changes *)

Lemma staged_changes_elem staged c : c ∈ staged_changes staged <-> exists st, staged !! change_path c = Some st /\ s_changed st = true /\ c.1.2 = s_before st /\ c.2 = s_current st.
Proof.
  unfold staged_changes. rewrite list_elem_of_omap. split.
  - intros ([p st] & Hp & Hc). destruct (s_changed st) eqn:Hch; [|done]. injection Hc as <-. exists st. rewrite elem_of_btree_map_iter in Hp. done.
  - intros (st & Hp & Hch & Hb & Ha). exists (change_path c, st). rewrite elem_of_btree_map_iter. split; [done|]. rewrite Hch, <- Hb, <- Ha. by destruct c as [[? ?] ?].
Qed.

Lemma staged_changes_nodup staged : NoDup (map change_path (staged_changes staged)).
Proof.
  assert (Hsub : forall l : list (DocumentPath * StagedDocument), sublist (map change_path (omap (fun '(p, stage) => if s_changed stage then Some (p, s_before stage, s_current stage) else None) l)) (map fst l)).
  { induction l as [|[p st] l IH]; [constructor|]. cbn [omap list_omap map]. destruct (s_changed st); cbn; [by constructor|by apply sublist_cons]. }
  eapply sublist_NoDup; [|apply Hsub]. rewrite btree_map_iter_keys. apply NoDup_btree_iter.
Qed.

Lemma staged_changes_ok writes staged : staged_by writes staged -> version = next_version d -> (forall w, w ∈ writes -> path_ok (op_path (op w))) -> staged_ok d (staged_changes staged).
Proof.
  intros [S1 S2 S3 S4 S5] Hv Hp. split; [apply staged_changes_nodup| |]; intros c (st & Hst & Hch & Hb & Ha)%staged_changes_elem; assert (Hof : stage_of d staged (change_path c) = st) by (unfold stage_of; by rewrite Hst).
  - assert (Hin : change_path c ∈ map (fun w => op_path (op w)) writes) by (apply S1; by exists st). apply list_elem_of_fmap in Hin as (w & -> & Hw). by apply Hp.
  - split; [by rewrite Hb, <- Hof, S3|]. intros r Hr. rewrite <- Hv. apply S5; [by rewrite Hof|]. by rewrite Hof, <- Ha.
Qed.

(** A path that no change names keeps its document; the others hold what their writes make. *)
Lemma staged_changes_final writes staged p : staged_by writes staged ->
  (forall c, c ∈ staged_changes staged -> change_path c = p -> document <$> c.2 = effects time version writes p (get d p)) /\ (p ∉ map change_path (staged_changes staged) -> get d p = effects time version writes p (get d p)).
Proof.
  intros [S1 S2 S3 S4 S5]. split.
  - intros c (st & Hst & Hch & Hb & Ha)%staged_changes_elem <-. rewrite <- S2, Ha. unfold stage_of. by rewrite Hst.
  - intros Hp. rewrite <- S2. destruct (s_changed (stage_of d staged p)) eqn:Hch; [|by rewrite S4]. destruct Hp. unfold stage_of in Hch. destruct (staged !! p) as [st|] eqn:Hst; [|done]. cbn in Hch.
    apply list_elem_of_fmap. exists (p, s_before st, s_current st). split; [done|]. apply staged_changes_elem. by exists st.
Qed.
End staging.

(** ** Locks *)

(** What a request may change of a transaction that stays open: whose requests wait on its behalf. *)
Definition same_reading (t t' : Transaction) : Prop := exists legacy owned, t' = set_waits legacy owned t.

Lemma same_reading_refl t : same_reading t t.
Proof. exists (waiting_to_commit t), (owned_commit_waits t). by destruct t. Qed.

Lemma same_reading_trans t1 t2 t3 : same_reading t1 t2 -> same_reading t2 t3 -> same_reading t1 t3.
Proof. intros (l1 & o1 & ->) (l2 & o2 & ->). by exists l2, o2. Qed.

(** A step of the ledger that opens nothing and keeps what the open transactions read. *)
Definition closes (l l' : Ledger) : Prop := same_ids l l' /\ forall id t', open l' id = Some t' -> exists t, open l id = Some t /\ same_reading t t'.

Lemma closes_refl l : closes l l.
Proof. split; [done|]. intros id t' Ht. exists t'. split; [done|apply same_reading_refl]. Qed.

Lemma closes_trans l1 l2 l3 : closes l1 l2 -> closes l2 l3 -> closes l1 l3.
Proof.
  intros [S1 O1] [S2 O2]. split; [by eapply same_ids_trans|]. intros id t3 H3. destruct (O2 id t3 H3) as (t2 & H2 & E2). destruct (O1 id t2 H2) as (t1 & H1 & E1). exists t1. split; [done|by eapply same_reading_trans].
Qed.

Lemma quiet_closes l l' : quiet l l' -> closes l l'.
Proof. intros [H O]. split; [done|]. intros id t Ht. rewrite O in Ht. exists t. split; [done|apply same_reading_refl]. Qed.

Lemma finish_closes id state l : state <> Active -> closes l (finish_transaction id state l).
Proof.
  intros Hs. destruct (finish_open id state l Hs) as [H O]. split; [done|]. intros id' t Ht. rewrite O in Ht. case_decide; [done|]. exists t. split; [done|apply same_reading_refl].
Qed.

Lemma prune_closes now l : ledger_wf l -> closes l (prune_transactions now l).2.
Proof.
  intros Hwf. destruct (prune_open now l Hwf) as [H O]. split; [done|]. intros id t Ht. rewrite O in Ht. destruct (open l id) as [t0|]; [|done]. cbn in Ht. destruct (_ <=? _); [done|]. injection Ht as ->. exists t. split; [done|apply same_reading_refl].
Qed.

(** Changing the waits of a transaction. *)
Lemma waits_kept legacy owned t : kept_alike t (set_waits legacy owned t).
Proof. by split_and!. Qed.

Lemma modify_open id f l : (forall t, is_active (f t) = is_active t) -> forall id', open (modify_transaction id f l) id' = if decide (id' = id) then f <$> open l id else open l id'.
Proof.
  intros Hf id'. unfold modify_transaction. destruct (transactions l !! id) as [t|] eqn:Ht.
  - rewrite (open_replace l _ id (Some (f t))) by done. case_decide; [|done]. unfold open. rewrite Ht. cbn. rewrite Hf. by destruct (is_active t).
  - case_decide as H; [|done]. subst. unfold open. by rewrite Ht.
Qed.

Lemma waits_closes id f l : ledger_wf l -> (forall t, exists legacy owned, f t = set_waits legacy owned t) -> ledger_wf (modify_transaction id f l) /\ closes l (modify_transaction id f l).
Proof.
  intros Hwf Hf. split.
  - apply modify_transaction_wf; [done|]. intros t _. destruct (Hf t) as (legacy & owned & ->). split; [apply waits_kept|done].
  - split; [unfold modify_transaction; by destruct (transactions l !! id)|]. intros id' t' Ht. rewrite modify_open in Ht by (intros t; destruct (Hf t) as (? & ? & ->); done). case_decide as H; [|exists t'; split; [done|apply same_reading_refl]].
    subst. destruct (open l id) as [t|]; [|done]. injection Ht as <-. exists t. split; [done|]. apply Hf.
Qed.

Lemma victim_wf id l : ledger_wf l -> ledger_wf (abort_victim id l) /\ same_ids l (abort_victim id l) /\ forall id', open (abort_victim id l) id' = if decide (id' = id) then None else open l id'.
Proof.
  intros Hwf. unfold abort_victim. destruct (finish_open id RetryableAborted (modify_transaction id set_victim l)) as [H O]; [done|]. split_and!.
  - apply finish_wf; [|done]. apply modify_transaction_wf; [done|]. intros t _. by split; [split_and!|].
  - eapply same_ids_trans; [|exact H]. unfold modify_transaction. by destruct (transactions l !! id).
  - intros id'. rewrite O. case_decide as Hid; [done|]. rewrite modify_open by done. by rewrite decide_False.
Qed.

Lemma victims_wf {A} (name : A -> TransactionId) (chosen : A -> bool) (hs : list A) : forall l, ledger_wf l ->
  let l' := fold_left (fun l h => if chosen h then abort_victim (name h) l else l) hs l in ledger_wf l' /\ same_ids l l' /\ forall id t, open l' id = Some t -> open l id = Some t.
Proof.
  induction hs as [|h hs IH]; intros l Hwf; cbn [fold_left]; [by split_and!|]. destruct (chosen h); [|by apply IH]. destruct (victim_wf (name h) l Hwf) as (V1 & V2 & V3). destruct (IH _ V1) as (I1 & I2 & I3).
  split_and!; [done|by eapply same_ids_trans|]. intros id t Ht%I3. rewrite V3 in Ht. by case_decide.
Qed.

Section locks.
Context (waits : CommitWaitOwner -> bool).

Lemma is_holder_active d writes own id t : is_holder d writes own id t = true -> is_active t = true /\ read_only t = false.
Proof. unfold is_holder. rewrite !andb_true_iff. intros [[[[Ha Hr] _] _] _]. by destruct (read_only t). Qed.

(** The index of the active read-write transactions misses no holder. *)
Lemma holders_spec d l writes own id : ledger_wf l ->
  id ∈ map (fun h : TransactionId * LogicalInstant * bool => h.1.1) (contention_holders waits d l writes own).1 <-> exists t, open l id = Some t /\ is_holder d writes own id t = true.
Proof.
  intros Hwf. unfold contention_holders. cbn [fst]. rewrite map_map, list_elem_of_fmap. split.
  - intros ([id' t] & -> & Hin). apply list_elem_of_filter in Hin as [Hh Hin]. cbn [fst]. apply list_elem_of_omap in Hin as (id'' & _ & Ht). apply fmap_Some in Ht as (t' & Ht & [= -> ->]). exists t'. split; [|done].
    apply open_Some. split; [done|]. by apply (is_holder_active d writes own id'').
  - intros (t & Ht & Hh). exists (id, t). split; [done|]. apply list_elem_of_filter. split; [done|]. apply open_Some in Ht as [Ht Ha]. apply list_elem_of_omap. exists id. rewrite Ht. split; [|done].
    apply elem_of_btree_iter, (va_rw l id (lw_views l Hwf id)). exists t. destruct (is_holder_active _ _ _ _ _ Hh). done.
Qed.

Lemma stop_waiting_form owner t : exists legacy owned, stop_waiting waits owner t = set_waits legacy owned t.
Proof. destruct owner; by eexists _, _. Qed.

Lemma start_waiting_form owner writes t : exists legacy owned, start_waiting waits owner writes t = set_waits legacy owned t.
Proof. destruct owner; by eexists _, _. Qed.

Lemma active_open id l : transaction_is_active id l = true <-> is_Some (open l id).
Proof. unfold transaction_is_active, open. destruct (transactions l !! id) as [t|]; cbn; [|by split; [|intros []]]. destruct (is_active t); split; (done || by intros []). Qed.

(** A commit passes the locks only when nobody else holds one on what it writes. *)
Lemma contention_spec writes own now owner s : ledger_wf (ledger s) -> let '(r, s') := check_contention waits writes own now owner s in
  docs s' = docs s /\ scopes s' = scopes s /\ ledger_wf (ledger s') /\ closes (ledger s) (ledger s') /\
  (r = Ok tt -> writes <> [] -> forall id t, open (ledger s') id = Some t -> is_holder (docs s) writes own id t = false).
Proof.
  intros Hwf0. unfold check_contention. set (l0 := match own with Some id => _ | None => _ end).
  assert (H0 : ledger_wf l0 /\ closes (ledger s) l0) by (subst l0; destruct own as [id|]; [apply waits_closes; [done|apply stop_waiting_form]|split; [done|apply closes_refl]]).
  destruct H0 as [Hwf1 Hc1]. case_bool_decide as Hw; [by split_and!|].
  pose proof (prune_wf now l0 Hwf1) as Hwf2. pose proof (prune_closes now l0 Hwf1) as Hc2. set (l1 := (prune_transactions now l0).2) in *. cbv zeta.
  destruct (contention_holders waits (docs s) l1 writes own) as [holders visits] eqn:Hholders. set (l2 := set_counters _ _ _ _ l1). assert (Hwf3 : ledger_wf l2) by by apply set_counters_wf.
  assert (Hc3 : closes (ledger s) l2) by (eapply closes_trans; [exact Hc1|exact Hc2]).
  assert (Hall : forall id t, open l2 id = Some t -> is_holder (docs s) writes own id t = true -> id ∈ map (fun h : TransactionId * LogicalInstant * bool => h.1.1) holders).
  { intros id t Ht Hh. replace holders with (contention_holders waits (docs s) l1 writes own).1 by by rewrite Hholders. apply (holders_spec _ l1); [done|]. by exists t. }
  case_bool_decide as Hnone.
  { split_and!; try done. intros _ _ id t Ht. destruct (is_holder _ _ _ _ _) eqn:Hh; [|done]. specialize (Hall id t Ht Hh). rewrite Hnone in Hall. by apply not_elem_of_nil in Hall. }
  destruct own as [own|]; [|by split_and!]. destruct (transaction (docs s) own l2) as [t|e]; [|by split_and!].
  destruct (existsb _ _).
  - destruct (victim_wf own l2 Hwf3) as (V1 & V2 & V3). split_and!; try done. eapply closes_trans; [exact Hc3|]. split; [done|]. intros id t' Ht'. cbn in Ht'. rewrite V3 in Ht'. case_decide; [done|]. exists t'. split; [done|apply same_reading_refl].
  - pose proof (victims_wf (fun h : TransactionId * LogicalInstant * bool => h.1.1) (fun h => h.2) holders l2 Hwf3) as Hv. cbv zeta in Hv.
    assert (Hfold : fold_left (fun l '((holder, _, waiting) : TransactionId * LogicalInstant * bool) => if waiting then abort_victim holder l else l) holders l2 = fold_left (fun l (h : TransactionId * LogicalInstant * bool) => if h.2 then abort_victim h.1.1 l else l) holders l2).
    { generalize l2. clear. induction holders as [|[[id age] w] holders IH]; intros l; [done|]. cbn [fold_left]. apply IH. }
    rewrite Hfold. set (l3 := fold_left _ holders l2) in *. destruct Hv as (V1 & V2 & V3). assert (Hc4 : closes (ledger s) l3).
    { eapply closes_trans; [exact Hc3|]. split; [done|]. intros id t' Ht'. exists t'. split; [by apply V3|apply same_reading_refl]. }
    destruct (forallb _ _) eqn:Hfree.
    + split_and!; try done. intros _ _ id t' Ht'. destruct (is_holder _ _ _ _ _) eqn:Hh; [|done]. cbn in Ht'. specialize (Hall id t' (V3 id t' Ht') Hh). apply list_elem_of_fmap in Hall as (h & -> & Hin).
      rewrite forallb_forall in Hfree. specialize (Hfree h ltac:(by apply list_elem_of_In)). destruct h as [[id age] w]. cbn in Hfree, Ht'. apply negb_true_iff in Hfree. assert (Ho : transaction_is_active id l3 = true) by (apply active_open; by rewrite Ht'). congruence.
    + destruct (waits_closes own (start_waiting waits owner writes) l3 V1) as [W1 W2]; [apply start_waiting_form|]. split_and!; try done. by eapply closes_trans.
Qed.
End locks.

(** ** The transaction of a commit *)

Lemma compacted_refl s s' : docs_wf (docs s) -> view_ok s -> docs s' = docs s -> scopes s' = scopes s -> compacted_from s s'.
Proof. intros Hwf Hv Hd Hs. split; rewrite ?Hd; try done. unfold view_ok. by rewrite Hd, Hs. Qed.

Lemma compact_step s s1 now : docs_wf (docs s) -> view_ok s -> ledger_wf (ledger s1) -> closes (ledger s) (ledger s1) -> docs s1 = docs s -> scopes s1 = scopes s ->
  compacted_from s (compact now s1) /\ ledger_wf (ledger (compact now s1)) /\ closes (ledger s) (ledger (compact now s1)).
Proof.
  intros Hwf Hv Hl Hc Hd Hs. destruct (compact_spec s1 now) as [C1 C2]; [by rewrite Hd|unfold view_ok; by rewrite Hd, Hs|]. split_and!.
  - destruct C1. split; try done; intros; rewrite <- ?Hd; auto.
  - rewrite C2. by apply prune_wf.
  - rewrite C2. eapply closes_trans; [exact Hc|by apply prune_closes].
Qed.

Lemma keep_quiet id deadline l : open l id = None -> quiet l (keep_lifetime_expired_transaction id deadline l).2.
Proof.
  intros Hn. unfold keep_lifetime_expired_transaction. destruct (transactions l !! id) as [t|] eqn:Ht; [|done]. destruct (_ || _); [done|]. cbn [snd]. split; [done|]. intros id'.
  rewrite (open_replace l _ id (Some (set_lifetime true t))) by done. case_decide as H; [|done]. subst. rewrite Hn. unfold open in Hn. rewrite Ht in Hn. cbn in Hn. cbn -[is_active].
  change (is_active (set_lifetime true t)) with (is_active t). by destruct (is_active t).
Qed.

(** What a transaction read is still what is stored. *)
Definition reads_current (nearest : Documents -> Query -> option CommitVersion -> result (list Document) FirestoreError) (s : FirestoreState) (t : Transaction) : Prop :=
  (forall p observed, read_set t !! p = Some observed -> FsDocument.version <$> get (docs s) p = observed) /\
  (forall o, o ∈ queries t -> complete o = true -> current_observation nearest s o = Ok (observation o)).

Lemma not_conflicted nearest s id t : transaction (docs s) id (ledger s) = Ok t -> transaction_conflicted nearest s id = Ok false -> reads_current nearest s t.
Proof.
  intros Ht. unfold transaction_conflicted. rewrite Ht. cbn [r_bind]. destruct (existsb _ _) eqn:Hread; [done|]. intros Hq. split.
  - intros p observed Hp. assert (Hfalse : ~ (existsb (fun '(p, observed) => negb (bool_decide (FsDocument.version <$> get (docs s) p = observed))) (btree_map_iter (read_set t)) = true)) by (rewrite Hread; done).
    destruct (decide (FsDocument.version <$> get (docs s) p = observed)) as [|Hne]; [done|]. destruct Hfalse. apply existsb_exists. exists (p, observed). split; [by apply list_elem_of_In, elem_of_btree_map_iter|]. by rewrite bool_decide_false.
  - assert (Hall : forall os, queries_changed nearest s os = Ok false -> forall o, o ∈ os -> current_observation nearest s o = Ok (observation o)).
    { induction os as [|o os IH]; intros Hos o' Hin; [by apply not_elem_of_nil in Hin|]. cbn [queries_changed] in Hos. apply r_bind_Ok in Hos as (current & Hcur & Hos). case_bool_decide as Heq; [|done].
      apply elem_of_cons in Hin as [->|Hin]; [by rewrite Hcur, Heq|by apply IH]. }
    intros o Ho Hcomplete. apply (Hall _ Hq). by apply list_elem_of_filter.
Qed.

Lemma validate_spec nearest id writes now s : docs_wf (docs s) -> view_ok s -> ledger_wf (ledger s) -> let '(r, s') := validate_transaction_commit nearest id writes now s in
  compacted_from s s' /\ ledger_wf (ledger s') /\ closes (ledger s) (ledger s') /\
  (r = Ok tt -> docs s' = docs s /\ scopes s' = scopes s /\ exists t, transaction (docs s) id (ledger s') = Ok t /\ now < transaction_deadline (limit_scope (ledger s)) t /\
    (read_only t = true -> writes = []) /\ (read_only t = false -> reads_current nearest s t)).
Proof.
  intros Hwf Hv Hl. unfold validate_transaction_commit. set (s0 := if bool_decide _ then _ else s).
  assert (H0 : docs s0 = docs s /\ scopes s0 = scopes s /\ ledger_wf (ledger s0) /\ closes (ledger s) (ledger s0)).
  { subst s0. case_bool_decide; [|split_and!; try done; apply closes_refl]. split_and!; try done; [by apply prune_wf|by apply prune_closes]. }
  destruct H0 as (D0 & S0 & L0 & C0). assert (Hscope : limit_scope (ledger s0) = limit_scope (ledger s)) by apply C0. pose proof (compacted_refl s s0 Hwf Hv D0 S0) as R0. cbv zeta.
  destruct (transaction (docs s0) id (ledger s0)) as [t|e] eqn:Ht; [|by split_and!]. rewrite D0 in Ht. rewrite Hscope.
  destruct (Z.leb_spec (transaction_deadline (limit_scope (ledger s)) t) now) as [Hover|Hlive].
  { set (l1 := finish_transaction id Finished (ledger s0)). assert (Hl1 : ledger_wf l1) by by apply finish_wf.
    assert (Hn : open l1 id = None) by (subst l1; destruct (finish_open id Finished (ledger s0)) as [_ ->]; [done|by rewrite decide_True]).
    destruct (compact_step s (with_ledger (keep_lifetime_expired_transaction id (transaction_deadline (limit_scope (ledger s)) t) l1).2 s0) now) as (K1 & K2 & K3); try done.
    - by apply keep_wf.
    - eapply closes_trans; [exact C0|]. eapply closes_trans; [by apply (finish_closes id Finished)|]. by apply quiet_closes, keep_quiet. }
  destruct (read_only t) eqn:Hro; cbn [andb].
  - case_bool_decide as Hw; cbn [negb].
    + split_and!; try done. intros _. split_and!; try done. exists t. split_and!; try done; congruence.
    + case_bool_decide; (split_and!; try done); [by apply finish_wf|]. eapply closes_trans; [exact C0|by apply finish_closes].
  - destruct (transaction_conflicted nearest s0 id) as [[]|e] eqn:Hconf; [|split_and!; try done|by split_and!].
    + split_and!; [apply compacted_refl; done|by apply finish_wf| |done]. eapply closes_trans; [exact C0|by apply finish_closes].
    + intros _. split_and!; try done. exists t. split_and!; try done; [congruence|]. intros _. apply (not_conflicted nearest s0 id t) in Hconf; [|by rewrite D0].
      destruct Hconf as [N1 N2]. split; [intros p o Hp; rewrite <- D0; by apply N1|]. intros o Ho Hc. rewrite <- (N2 o Ho Hc). unfold current_observation. by rewrite D0, S0.
Qed.

(** ** The commit *)

(** One database: its documents, its indexes and its transactions. *)
Record store_wf (pr db : string) (s : FirestoreState) : Prop := {
  sw_docs : docs_wf (docs s);
  sw_view : view_ok s;
  sw_paths : forall p, p ∈ dom (history (docs s)) -> in_db pr db p /\ path_ok p;
  sw_ledger : ledger_wf (ledger s) }.

(** There are versions and commit times left. *)
Definition has_room (s : FirestoreState) : Prop := current_version (docs s) < int_max u64 /\ forall t, last_commit_time (docs s) = Some t -> fits i128 (t + 1000).

(** The writes name documents of the database. *)
Definition writes_ok (pr db : string) (writes : list Write) : Prop := forall w, w ∈ writes -> in_db pr db (op_path (op w)) /\ path_ok (op_path (op w)).

Lemma staged_in_db pr db d time version writes staged : staged_by d time version writes staged -> writes_ok pr db writes -> forall c, c ∈ staged_changes staged -> in_db pr db (change_path c).
Proof.
  intros Hs Hw c (st & Hst & _)%staged_changes_elem. assert (Hp : change_path c ∈ map (fun w => op_path (op w)) writes) by (apply (sb_paths _ _ _ _ _ Hs); by exists st). apply list_elem_of_fmap in Hp as (w & -> & Hin). by apply Hw.
Qed.

Lemma wf_compacted pr db s s' : store_wf pr db s -> compacted_from s s' -> ledger_wf (ledger s') -> store_wf pr db s'.
Proof. intros [W1 W2 W3 W4] C Hl. split; [apply C|apply C| |done]. intros p Hp. by apply W3, (cf_paths _ _ C). Qed.

(** A step of the transactions alone. *)
Lemma ledger_step pr db s s' : store_wf pr db s -> docs s' = docs s -> scopes s' = scopes s -> ledger_wf (ledger s') -> store_wf pr db s' /\ compacted_from s s'.
Proof.
  intros Hwf Hd Hs Hl. pose proof Hwf as [W1 W2 W3 W4]. pose proof (compacted_refl s s' W1 W2 Hd Hs) as Hc. split; [|done]. by apply (wf_compacted pr db s).
Qed.

(** What the store answers is as before: nothing of a commit is visible. *)
Definition unseen (s s' : FirestoreState) : Prop :=
  (forall p, get (docs s') p = get (docs s) p) /\ (forall p v, compaction_floor (docs s') <= v -> get_at (docs s') p v = get_at (docs s) p v) /\
  current_version (docs s') = current_version (docs s) /\ last_commit_time (docs s') = last_commit_time (docs s).

Lemma compacted_unseen s s' : compacted_from s s' -> unseen s s'.
Proof. intros [_ _ ? ? [] _ _]. by split_and!. Qed.

Lemma base_reclaim_form floor d : exists u f, base_compaction_reclaim floor d = (u, set_forecast f d).
Proof.
  assert (Hsame : forall u : HistoryUsage, exists v f, (u, d) = (v, set_forecast f d)) by (intros u; exists u, (compaction_forecast d); by destruct d). unfold base_compaction_reclaim, forecast_reclaim.
  destruct (_ <=? _); [apply Hsame|]. destruct (compaction_forecast d) as [f|]; [destruct (_ && _); [apply Hsame|]|]; by eexists _, _.
Qed.

(** The projection of a commit changes nothing but the cached forecast, and says truly when it is certified. *)
Lemma projected_form staged now s : exists u after exact f, projected_history_usage staged now s = (u, after, exact, with_docs (set_forecast f (docs s)) s) /\
  (exact = true -> exists floor, projected_uncompacted_usage (docs s) staged = (u, floor, true)).
Proof.
  unfold projected_history_usage. cbv zeta. destruct (projected_uncompacted_usage (docs s) staged) as [[u floor] exact]. set (fl := projected_retention_floor _ _ _ _ _). destruct (base_reclaim_form fl (docs s)) as (base & f & ->).
  eexists u, _, _, f. split; [done|]. intros He. apply andb_true_iff in He as [-> _]. by exists floor.
Qed.

Lemma publish_forecast time snapshot u exact staged f s : publish time snapshot u exact staged (with_docs (set_forecast f (docs s)) s) = publish time snapshot u exact staged s.
Proof. unfold publish. by destruct staged, snapshot. Qed.

(** The publication of what was staged, seen from the store before it. *)
Lemma conclude_spec pr db time (snapshot : bool) u exact staged own now s : store_wf pr db s -> current_version (docs s) < int_max u64 -> staged_ok (docs s) staged -> (forall c, c ∈ staged -> in_db pr db (change_path c)) ->
  (exact = true -> exists floor, projected_uncompacted_usage (docs s) staged = (u, floor, true)) -> (if snapshot then staged = [] else forall t, last_commit_time (docs s) = Some t -> t < time) ->
  let s' := conclude time snapshot u exact staged own now s in
  store_wf pr db s' /\ closes (ledger s) (ledger s') /\ (forall id, own = Some id -> open (ledger s') id = None) /\
  (forall c, c ∈ staged -> get (docs s') (change_path c) = document <$> c.2) /\ (forall p, p ∉ map change_path staged -> get (docs s') p = get (docs s) p) /\
  (forall p v, compaction_floor (docs s') <= v <= current_version (docs s) -> get_at (docs s') p v = get_at (docs s) p v) /\
  current_version (docs s') = match staged with [] => current_version (docs s) | _ => current_version (docs s) + 1 end /\ last_commit_time (docs s') = (if snapshot then last_commit_time (docs s) else Some time).
Proof.
  intros [W1 W2 W3 W4] Hroom Hstaged Hdb Hu Htime. destruct (publish_staged_spec s time snapshot u exact staged W1 W2 (ex_intro _ pr (ex_intro _ db (conj (fun p Hp => proj1 (W3 p Hp)) Hdb))) Hroom Hstaged Hu Htime) as (P1 & P2 & P3 & P4 & P5 & P6 & P7).
  destruct (pushed_reads (docs s) (docs (publish time snapshot u exact staged s)) staged W1 Hroom Hstaged P4) as (R1 & R2 & R3 & R4). unfold conclude. cbv zeta. set (s1 := publish _ _ _ _ _ s) in *.
  set (s2 := match own with Some id => _ | None => s1 end).
  assert (H2 : docs s2 = docs s1 /\ scopes s2 = scopes s1 /\ ledger_wf (ledger s2) /\ closes (ledger s) (ledger s2) /\ forall id, own = Some id -> open (ledger s2) id = None).
  { subst s2. destruct own as [id|]; [|rewrite P3; split_and!; try done; apply closes_refl]. cbn [docs scopes ledger with_ledger]. rewrite P3. split_and!; try done; [by apply finish_wf|by apply finish_closes|].
    intros id' [= <-]. destruct (finish_open id Committed (ledger s)) as [_ ->]; [done|]. by rewrite decide_True. }
  destruct H2 as (D2 & S2 & L2 & C2 & O2). destruct (compact_step s1 s2 now) as (K1 & K2 & K3); try done; [rewrite P3; exact C2|]. split_and!.
  - split; [apply K1|apply K1| |done]. intros p Hp. apply (cf_paths _ _ K1), R4, elem_of_union in Hp as [Hp|Hp]; [by apply W3|]. apply elem_of_list_to_set, list_elem_of_fmap in Hp as (c & -> & Hc). split; [by apply Hdb|by apply (sk_path _ _ Hstaged)].
  - by rewrite P3 in K3.
  - intros id Hid. destruct (compact_spec s2 now) as [_ ->]; [by rewrite D2|unfold view_ok; by rewrite D2, S2|]. destruct (prune_open now (ledger s2) L2) as [_ ->]. by rewrite O2.
  - intros c Hc. rewrite (cf_get _ _ K1). by apply R1.
  - intros p Hp. rewrite (cf_get _ _ K1). by apply R2.
  - intros p v Hv. rewrite (cf_get_at _ _ K1) by lia. apply R3. lia.
  - destruct (cf_version _ _ K1) as [-> _]. exact P5.
  - destruct (cf_version _ _ K1) as [_ ->]. exact P7.
Qed.

(** The time of the first read of the transaction whose empty commit this is. *)
Definition commit_snapshot (writes : list Write) (own : option TransactionId) (l : Ledger) : option LogicalInstant :=
  if bool_decide (writes = []) then (id ← own; t ← transactions l !! id; first_read_time t) else None.

(** What an accepted commit did. *)
Record committed (s s' : FirestoreState) (writes : list Write) (own : option TransactionId) (now : LogicalInstant) (result : CommitResult) : Prop := {
  cm_accepts : accepts_all (docs s) (commit_time result) (next_version (docs s)) [] writes /\ length (write_results result) = length writes;
  cm_get : forall p, get (docs s') p = effects (commit_time result) (next_version (docs s)) writes p (get (docs s) p);
  cm_past : forall p v, compaction_floor (docs s') <= v <= current_version (docs s) -> get_at (docs s') p v = get_at (docs s) p v;
  cm_version : current_version (docs s') = r_version result /\ r_version result = match changes result with [] => current_version (docs s) | _ => current_version (docs s) + 1 end;
  cm_time : match commit_snapshot writes own (ledger s) with
    | Some read => commit_time result = read /\ last_commit_time (docs s') = last_commit_time (docs s)
    | None => commit_time result = next_commit_time (docs s) now /\ last_commit_time (docs s') = Some (commit_time result) /\ forall t, last_commit_time (docs s) = Some t -> t < commit_time result
    end;
  cm_changes : NoDup (map ch_path (changes result)) /\ (forall ch, ch ∈ changes result -> ch_before ch = get (docs s) (ch_path ch) /\ ch_after ch = get (docs s') (ch_path ch)) /\
    forall p, p ∉ map ch_path (changes result) -> get (docs s') p = get (docs s) p }.

Lemma limits_unit d u e : check_history_limits d u = Err e -> e = HistoryCapacity.
Proof. unfold check_history_limits. destruct (_ <? _); [by intros [= <-]|]. destruct (_ <? _); by intros [= <-]. Qed.

Section commits.
Context (pr db : string) (nearest : Documents -> Query -> option CommitVersion -> result (list Document) FirestoreError) (waits : CommitWaitOwner -> bool)
  (index_usage : LimitScope -> DocumentPath -> fields_map -> result unit FirestoreError) (delete_check : DocumentPath -> fields_map -> result unit FirestoreError).

Lemma apply_commit_spec writes own now admission s : store_wf pr db s -> has_room s -> writes_ok pr db writes ->
  let '(r, s') := apply_commit index_usage delete_check writes own now admission s in
  store_wf pr db s' /\ closes (ledger s) (ledger s') /\
  match r with Err _ => compacted_from s s' | Ok result => committed s s' writes own now result /\ forall id, own = Some id -> open (ledger s') id = None end.
Proof.
  intros Hwf [Hroom Htimes] Hwrites. pose proof Hwf as [W1 W2 W3 W4]. pose proof (compacted_refl s s W1 W2 eq_refl eq_refl) as Hrefl. unfold apply_commit. cbv zeta. set (snapshot_time := if bool_decide (writes = []) then _ else None). set (time := default _ snapshot_time).
  destruct (stage_writes _ _ _ _ _ _ _) as [[staged results]|refused] eqn:Hstage.
  2: { set (s' := match own with Some id => _ | None => s end).
    assert (H' : docs s' = docs s /\ scopes s' = scopes s /\ ledger_wf (ledger s') /\ closes (ledger s) (ledger s')).
    { subst s'. destruct own as [id|]; [destruct (by_precondition refused)|]; split_and!; try done; [by apply finish_wf|by apply finish_closes|apply closes_refl..]. }
    destruct H' as (D & S & L & C). destruct (ledger_step pr db s s' Hwf D S L). by split_and!. }
  destruct (stage_writes_spec _ _ _ _ _ _ _ _ _ Hstage) as (S1 & S2 & S3). pose proof (staged_changes_ok _ _ _ _ _ S1 eq_refl (fun w Hw => proj2 (Hwrites w Hw))) as Hok.
  pose proof (fun p => staged_changes_final _ _ _ _ _ p S1) as Hfinal. set (cs := staged_changes staged) in *.
  destruct (projected_form cs now s) as (u & after & exact & f & -> & Hu). cbn [docs with_docs]. set (s0 := with_docs _ s).
  assert (Hforecast : store_wf pr db s0 /\ compacted_from s s0). { assert (docs_wf (docs s0)) by (destruct W1; by split). split; [by split|]. by split. }
  destruct (check_history_limits _ after) as [[]|e]; [|split_and!; [apply Hforecast|apply closes_refl|apply Hforecast]].
  destruct (admission _ _) as [[]|e]; [|split_and!; [apply Hforecast|apply closes_refl|apply Hforecast]].
  pose proof (staged_in_db pr db _ _ _ _ _ S1 Hwrites) as Hdb. fold cs in Hdb.
  assert (Htime : if bool_decide (is_Some snapshot_time) then cs = [] else forall t, last_commit_time (docs s) = Some t -> t < time).
  { case_bool_decide as Hsn; [|subst time; destruct snapshot_time; [destruct Hsn; by eexists|]; by apply next_commit_later]. subst snapshot_time. case_bool_decide as Hw; [|by destruct Hsn]. rewrite Hw in Hstage. injection Hstage as <- <-. done. }
  assert (Hc : conclude time (bool_decide (is_Some snapshot_time)) u exact cs own now s0 = conclude time (bool_decide (is_Some snapshot_time)) u exact cs own now s) by (unfold conclude, s0; by rewrite publish_forecast).
  rewrite Hc. destruct (conclude_spec pr db time _ u exact cs own now s Hwf Hroom Hok Hdb Hu Htime) as (C1 & C2 & C3 & C4 & C5 & C6 & C7 & C8). set (s' := conclude _ _ _ _ _ _ _ s) in *. split_and!; [exact C1|exact C2| |exact C3].
  assert (Hpaths : map ch_path (map document_change cs) = map change_path cs) by by rewrite map_map.
  split; cbn [commit_time write_results r_version changes]; rewrite ?Hpaths.
  - done.
  - intros p. destruct (Hfinal p) as [F1 F2]. destruct (decide (p ∈ map change_path cs)) as [Hp|Hp]; [|rewrite C5 by done; by apply F2]. apply list_elem_of_fmap in Hp as (c & -> & Hcin). rewrite C4 by done. by apply F1.
  - exact C6.
  - rewrite C7. destruct cs; [done|]. by rewrite next_version_id.
  - rewrite C8. change (commit_snapshot writes own (ledger s)) with snapshot_time. subst time. destruct snapshot_time; cbn [default]; [by split|]. rewrite bool_decide_false in Htime |- * by by intros []. by split_and!.
  - split_and!; [apply Hok| |exact C5]. intros ch Hch. apply list_elem_of_fmap in Hch as (c & -> & Hcin). split; [|exact (eq_sym (C4 c Hcin))]. destruct (sk_change _ _ Hok c Hcin) as [Hb _]. change (document <$> c.1.2 = get (docs s) (change_path c)). by rewrite Hb.
Qed.

Lemma committed_docs s1 s2 s' writes own now result : docs s1 = docs s2 -> commit_snapshot writes own (ledger s1) = commit_snapshot writes own (ledger s2) -> committed s1 s' writes own now result -> committed s2 s' writes own now result.
Proof. intros Hd Hs [C1 C2 C3 C4 C5 C6]. split; by rewrite <- ?Hs, <- Hd. Qed.

Lemma snapshot_open writes id l l' t t' : transactions l !! id = Some t -> transactions l' !! id = Some t' -> same_reading t t' -> commit_snapshot writes (Some id) l' = commit_snapshot writes (Some id) l.
Proof. intros H H' (legacy & owned & ->). unfold commit_snapshot. cbn [mbind option_bind]. by rewrite H, H'. Qed.

(** An empty commit passes the locks with its transaction as it is. *)
Lemma contention_snapshot writes own now owner s : commit_snapshot writes own (ledger (check_contention waits writes own now owner s).2) = commit_snapshot writes own (ledger s).
Proof.
  unfold check_contention. case_bool_decide as Hw; [|unfold commit_snapshot; by rewrite bool_decide_false]. cbn [snd ledger with_ledger]. destruct own as [id|]; [|done]. unfold modify_transaction. destruct (transactions (ledger s) !! id) as [t|] eqn:Ht; [|done].
  apply (snapshot_open _ id _ _ t (stop_waiting waits owner t)); [done|apply lookup_insert_eq|]. destruct (stop_waiting_form waits owner t) as (legacy & owned & ->). by exists legacy, owned.
Qed.

Lemma same_reading_current s t t' : same_reading t t' -> reads_current nearest s t' -> reads_current nearest s t.
Proof. by intros (? & ? & ->). Qed.

(** The transaction on behalf of which a commit was accepted. *)
Definition serializable (s : FirestoreState) (writes : list Write) (now : LogicalInstant) (id : TransactionId) : Prop :=
  exists t, open (ledger s) id = Some t /\ compaction_floor (docs s) <= read_version t /\ now < transaction_deadline (limit_scope (ledger s)) t /\
    (read_only t = true -> writes = []) /\ (read_only t = false -> reads_current nearest s t).

(** What the writes of a commit to a document make of it, without its time. *)
Definition previewed (d : Documents) (writes : list Write) (p : DocumentPath) : result (option Document) FirestoreError :=
  r_fold (fun current w => preview_from current w UNIX_EPOCH) (filter (fun w => op_path (op w) = p) writes) (get d p).

(** What was written is outside of what an open transaction locked: it is no document that it read, and where a query of
    it looked, the query's filter leaves out what was stored and what the writes put in its place. *)
Definition apart_from (d : Documents) (writes : list Write) (t : Transaction) : Prop :=
  forall w, w ∈ writes -> read_set t !! op_path (op w) = None /\ forall o, o ∈ queries t -> scope_contains (scope (query o)) (op_path (op w)) = true ->
    transforms w = [] /\ exists f after, q_filter (query o) = Some f /\ previewed d writes (op_path (op w)) = Ok after /\
      forall doc, get d (op_path (op w)) = Some doc \/ after = Some doc -> eval_filter f doc = false.

(** No other open transaction holds a lock on what was written. *)
Definition unlocked (s s' : FirestoreState) (writes : list Write) (own : option TransactionId) : Prop :=
  forall id t, open (ledger s') id = Some t -> own <> Some id -> read_only t = false -> compaction_floor (docs s) <= read_version t -> apart_from (docs s) writes t.

Lemma existsb_false {A} (f : A -> bool) l : existsb f l = false -> forall x, x ∈ l -> f x = false.
Proof. intros H x Hx. destruct (f x) eqn:E; [|done]. assert (Ht : existsb f l = true) by (apply existsb_exists; exists x; split; [by apply list_elem_of_In|done]). congruence. Qed.

Lemma grouped_write writes w : w ∈ writes -> (op_path (op w), filter (fun w' => op_path (op w') = op_path (op w)) writes) ∈ group_writes writes.
Proof.
  intros Hw. unfold group_writes. apply list_elem_of_fmap. exists (op_path (op w)). split; [done|]. apply elem_of_btree_iter, elem_of_list_to_set, list_elem_of_fmap. by exists w.
Qed.

Lemma locks_apart d writes t : holder_locks_writes d t (group_writes writes) = false -> apart_from d writes t.
Proof.
  unfold holder_locks_writes. intros [H1 H2]%orb_false_iff w Hw. pose proof (grouped_write _ _ Hw) as Hg. split.
  - pose proof (existsb_false _ _ H1 _ Hg) as Hr. cbn in Hr. apply bool_decide_eq_false in Hr. destruct (read_set t !! _); [destruct Hr; by eexists|done].
  - intros o Ho Hscope. pose proof (existsb_false _ _ H2 _ Ho) as Hq. pose proof (existsb_false _ _ Hq _ Hg) as Hd. cbn in Hd. unfold range_covers_document in Hd. rewrite Hscope in Hd. cbn [negb] in Hd.
    destruct (q_filter (query o)) as [f|]; [|done]. clear H1 H2 Hq. destruct (existsb _ _) eqn:Ht; [done|]. pose proof (existsb_false _ _ Ht w ltac:(by apply list_elem_of_filter)) as Hnone. apply negb_false_iff, bool_decide_eq_true in Hnone.
    split; [done|]. fold (previewed d writes (op_path (op w))) in Hd. exists f. apply orb_false_iff in Hd as [Hd Hp]. destruct (previewed d writes (op_path (op w))) as [after|]; [|done]. exists after. split_and!; [done..|].
    intros doc [Hdoc| ->]; [by rewrite Hdoc in Hd|done].
Qed.

Lemma same_reading_holder d writes own id t t' : same_reading t t' -> is_holder d writes own id t = is_holder d writes own id t'.
Proof. by intros (? & ? & ->). Qed.

Lemma is_holder_false d writes own id t : is_active t = true -> is_holder d writes own id t = false -> own <> Some id -> read_only t = false -> compaction_floor d <= read_version t -> holder_locks_writes d t (group_writes writes) = false.
Proof. intros Ha Hh Hown Hro Hf. unfold is_holder in Hh. rewrite Ha, Hro, (proj2 (Z.leb_le _ _) Hf), bool_decide_false in Hh by done. exact Hh. Qed.

Lemma commit_outcome_spec writes own now owner admission s : store_wf pr db s -> has_room s -> writes_ok pr db writes ->
  let '(r, s') := commit nearest waits index_usage delete_check writes own now owner admission s in
  store_wf pr db s' /\ closes (ledger s) (ledger s') /\
  match r with
  | Err _ => unseen s s'
  | Ok result => committed s s' writes own now result /\ (forall id, own = Some id -> open (ledger s') id = None /\ serializable s writes now id) /\ (writes <> [] -> unlocked s s' writes own)
  end.
Proof.
  intros Hwf Hroom Hwrites. pose proof Hwf as [W1 W2 W3 W4]. unfold commit. set (validated := match own with Some id => _ | None => _ end).
  assert (Hv : compacted_from s validated.2 /\ ledger_wf (ledger validated.2) /\ closes (ledger s) (ledger validated.2) /\
    (validated.1 = Ok tt -> docs validated.2 = docs s /\ scopes validated.2 = scopes s /\ commit_snapshot writes own (ledger validated.2) = commit_snapshot writes own (ledger s) /\ forall id, own = Some id -> serializable s writes now id)).
  { subst validated. destruct own as [id|]; [|split_and!; [by apply compacted_refl|done|apply closes_refl|]; cbn; intros _; by split_and!].
    pose proof (validate_spec nearest id writes now s W1 W2 W4) as Hspec. destruct (validate_transaction_commit nearest id writes now s) as [r s1]. destruct Hspec as (V1 & V2 & V3 & V4). cbn [fst snd]. split_and!; try done.
    intros Hr. destruct (V4 Hr) as (D & S & t & Ht & Hd & Hro & Hrw). apply transaction_Ok in Ht as [Ho Hf]. destruct V3 as [_ V3]. destruct (V3 id t Ho) as (t0 & Ho0 & Hsame). split_and!; try done.
    { apply open_Some in Ho as [Ho _], Ho0 as [Ho0 _]. by apply (snapshot_open _ id _ _ t0 t). }
    intros id' [= <-].
    exists t0. destruct (Hsame) as (legacy & owned & ->). by split_and!. }
  destruct validated as [valid s1]. cbn [fst snd] in Hv. destruct Hv as (V1 & V2 & V3 & V4). destruct valid as [[]|e]; [|split_and!; [by apply (wf_compacted pr db s)|done|by apply compacted_unseen]].
  destruct (V4 eq_refl) as (D1 & S1 & N1 & Hser). pose proof (contention_spec waits writes own now owner s1 V2) as Hspec. pose proof (contention_snapshot writes own now owner s1) as N2. destruct (check_contention waits writes own now owner s1) as [free s2]. destruct Hspec as (D2 & S2 & L2 & C2 & Hfree).
  assert (Hd : docs s2 = docs s) by congruence. assert (Hs : scopes s2 = scopes s) by congruence. assert (Hc : closes (ledger s) (ledger s2)) by (by eapply closes_trans). destruct (ledger_step pr db s s2 Hwf Hd Hs L2) as [Hwf2 Hcf2].
  assert (Hun : unseen s s2) by by apply compacted_unseen. destruct free as [[]|e]; [|by split_and!]. destruct (check_transform_budget writes) as [[]|e]; [|by split_and!].
  pose proof (apply_commit_spec writes own now admission s2 Hwf2 ltac:(unfold has_room in *; by rewrite Hd) Hwrites) as Hspec. destruct (apply_commit index_usage delete_check writes own now admission s2) as [r s']. destruct Hspec as (A1 & A2 & A3).
  split_and!; [done|by eapply closes_trans|]. destruct r as [result|e]; [|].
  2: { destruct A3 as [_ _ G1 G2 [G3 G4] _ _]. unfold unseen. rewrite <- Hd. by split_and!. }
  destruct A3 as [A3 A4]. split_and!; [by apply (committed_docs s2); [|etransitivity; [exact N2|exact N1]|]|intros id Hid; split; [by apply A4|by apply Hser]|]. intros Hne id t Ht Hown Hro Hfloor. destruct A2 as [_ A2]. destruct (A2 id t Ht) as (t2 & Ht2 & Hsame).
  pose proof (Hfree eq_refl Hne id t2 Ht2) as Hh. rewrite D1 in Hh. rewrite (same_reading_holder _ _ _ _ _ _ Hsame) in Hh. apply open_Some in Ht as [_ Ha]. by apply locks_apart, (is_holder_false _ _ own id).
Qed.
End commits.
