(* ===== verification/FsReach.v ===== *)
(** * Every reachable Firestore database is well formed

    The operations of [FsStore.v] and [FsLedger.v] on a whole database, one after the other in any
    order, keep the invariant of its documents, its indexes and its transactions. *)
From S2P Require Import Prelude Time Text Ids Hash FsFieldPath FsValue FsDocPath FsSize FsDocument FsValidate FsFilter FsQuery FsSelect FsListing FsTrie FsUsage FsHistory FsScope FsLedger FsLedgerWf FsTransaction FsRun FsStore FsPublish FsCommit.
#[local] Set Warnings "-register-all".

(** ** Beginnings *)

Lemma new_ledger_wf scope offset : 0 <= offset <= int_max u64 -> ledger_wf (no_transactions scope offset).
Proof.
  intros Ho. split.
  - intros id. split; cbn; try setoid_rewrite lookup_empty; try (intros; set_solver).
  - split; cbn; [done| | |].
    + split; [unfold total; by rewrite map_to_list_empty|done].
    + intros v. rewrite lookup_empty. split; [unfold total; by rewrite map_to_list_empty|done].
    + split; [unfold total; by rewrite map_to_list_empty|done].
Qed.

Lemma insert_kept ro version time now l : ledger_wf l -> next_transaction l < int_max u64 -> ledger_wf (insert_transaction ro version time now l).2.
Proof.
  intros Hwf Hroom. destruct (insert_transaction ro version time now l) as [[id|e] l'] eqn:H; cbn [snd].
  - by destruct (insert_transaction_wf ro version time now l id l' Hwf Hroom H).
  - apply insert_refused in H as (_ & _ & ->). by apply prune_wf.
Qed.

Lemma then_kept f r : ledger_wf r.2 -> (forall t, kept_alike t (f t) /\ t_state (f t) = t_state t) -> ledger_wf (then_modify f r).2.
Proof.
  destruct r as [[id|e] l]; [|done]. cbn [then_modify snd]. intros Hwf Hf. apply modify_transaction_wf; [done|]. intros t _. destruct (Hf t) as [H1 H2]. split; [done|]. by rewrite H2.
Qed.

Lemma first_read_kept time t : kept_alike t (set_first_read time t) /\ t_state (set_first_read time t) = t_state t.
Proof. by split; [split_and!|]. Qed.

Lemma pending_kept pending t : kept_alike t (set_pending pending t) /\ t_state (set_pending pending t) = t_state t.
Proof. by split; [split_and!|]. Qed.

Lemma both_kept pending time t : kept_alike t (set_pending pending (set_first_read time t)) /\ t_state (set_pending pending (set_first_read time t)) = t_state t.
Proof. by split; [split_and!|]. Qed.

Section begins.
Context (d : Documents) (now : LogicalInstant) (l : Ledger) (Hwf : ledger_wf l) (Hroom : next_transaction l < int_max u64).

Lemma begin_kept ro : ledger_wf (begin_transaction d ro now l).2.
Proof. apply then_kept; [by apply insert_kept|apply first_read_kept]. Qed.

Lemma begin_read_only_kept : ledger_wf (begin_read_only_transaction d now l).2.
Proof. apply then_kept; [apply begin_kept|intros t; apply both_kept]. Qed.

Lemma begin_read_write_kept : ledger_wf (begin_read_write_transaction d now l).2.
Proof. apply then_kept; [apply begin_kept|intros t; apply both_kept]. Qed.

Lemma begin_at_kept time : ledger_wf (begin_transaction_at d time now l).2.
Proof. unfold begin_transaction_at. destruct (version_at_retained d time); [by apply insert_kept|done]. Qed.

(** A token that is retried is over, and its successor is new. *)
Lemma retry_kept previous : ledger_wf (retry_transaction d previous now l).2.
Proof.
  unfold retry_transaction. destruct (prune_open now l Hwf) as [(_ & Hnext & _) _]. pose proof (prune_wf now l Hwf) as Hwf1. set (l1 := (prune_transactions now l).2) in *. cbv zeta.
  destruct (transactions l1 !! previous) as [t|]; [|done]. destruct (read_only t); [done|]. set (l2 := if is_active t then _ else l1).
  assert (H2 : ledger_wf l2 /\ next_transaction l2 = next_transaction l) by (subst l2; destruct (is_active t); [|done]; split; [by apply finish_wf|]; destruct (finish_open previous RolledBack l1) as [(_ & -> & _) _]; done).
  destruct H2 as [Hwf2 Hnext2]. destruct (transactions l2 !! previous) as [t2|] eqn:Ht2; [|done]. destruct (_ && _) eqn:Hre; [done|]. destruct (ensure_transaction_capacity l2); [|done].
  apply then_kept; [|intros t0; apply pending_kept]. apply insert_kept; case_bool_decide as Hf; try done; [|by rewrite Hnext2|unfold modify_transaction; rewrite Ht2; cbn; by rewrite Hnext2].
  cbn [negb andb] in Hre. apply negb_false_iff in Hre. apply modify_transaction_wf; [done|]. intros t0 Ht0. assert (t0 = t2) as -> by congruence.
  assert (Ha : is_active t2 = false) by (apply is_active_false; intros Hs; by rewrite Hs in Hre). split; [|intros _; by split]. split_and!; try done; rewrite ?Ha; done.
Qed.
End begins.

(** ** Activity *)

Lemma touched_fields d now t : read_only (touched d now t) = read_only t /\ t_state (touched d now t) = t_state t /\ conflict_ledger_bytes (touched d now t) = conflict_ledger_bytes t /\
  read_version (touched d now t) = (if snapshot_pending t then current_version d else read_version t) /\ read_set (touched d now t) = read_set t /\ queries (touched d now t) = queries t.
Proof. unfold touched. cbn zeta. destruct (snapshot_pending (set_activity now t)) eqn:E; cbn in E; rewrite E; destruct (first_read_time _); done. Qed.

Lemma refresh_wf d id now t l : ledger_wf l -> open l id = Some t -> ledger_wf (refresh_activity d id now t l) /\ same_ids l (refresh_activity d id now t l) /\
  forall id', open (refresh_activity d id now t l) id' = if decide (id' = id) then Some (touched d now t) else open l id'.
Proof.
  intros Hwf [Ht Ha]%open_Some. destruct (touched_fields d now t) as (F1 & F2 & F3 & F4 & F5 & F6). unfold refresh_activity. cbv zeta. set (t' := touched d now t) in *.
  assert (Ha' : is_active t' = true) by (apply is_active_true; rewrite F2; by apply is_active_true). pose proof (to_ids l (lw_totals l Hwf)) as Hnext. pose proof (lw_views l Hwf id) as [V1 V2 V3 V4 V5 V6 V7].
  destruct (active_counted l Hwf id t Ht Ha) as (_ & Hcount & _).
  set (versions := if snapshot_pending t && _ then _ else _). set (l' := set_transactions _ _). split_and!; try done.
  - apply (wf_replace l l' id (Some t')); try done; [left; rewrite Ht; cbn [weigh]; unfold one_active; rewrite Ha, Ha'; lia|..].
    + exact (conj (Z.le_refl _) (proj2 Hnext)).
    + intros id' Hne. unfold same_at. subst l'. cbn. rewrite lookup_insert_ne by done. split_and!; try done. intros dl. rewrite elem_of_union, elem_of_difference, !elem_of_singleton. split; [intros [[= _ ?]|[? _]]; done|]. intros Hd. right. split; [done|]. by intros [= _ ?].
    + split; subst l'; cbn -[transaction_deadline]; rewrite ?lookup_insert_eq.
      * intros dl. rewrite elem_of_union, elem_of_difference, !elem_of_singleton, V1. split.
        -- intros [[= ->]|[(t0 & Ht0 & _ & <-) Hne]]; [by exists t'|]. destruct Hne. congruence.
        -- intros (? & [= <-] & _ & <-). by left.
      * rewrite V2, Ht. split; intros (? & [= <-] & _ & Hr); eexists; (split; [done|]); by rewrite ?F1 in *.
      * rewrite V3, Ht. split; intros (? & [= <-] & Hi); congruence.
      * rewrite V4, Ht. split; intros (_ & ? & [= <-] & Hi & _); congruence.
      * intros ? [= <-] Hi. congruence.
      * intros dl Hd. destruct (V6 dl Hd) as [_ Hin]. specialize (Hin t Ht). congruence.
      * intros ? [= <-]. rewrite F3. destruct (V7 t Ht) as (? & ? & _). split_and!; try (done || lia); intros Hi; congruence.
    + rewrite Ht. cbn [weigh]. unfold one_active. rewrite Ha, Ha'. subst l'. cbn. lia.
    + intros v. rewrite Ht. cbn [weigh]. unfold one_reading. rewrite Ha, Ha', F4. subst l' versions. cbn [active_transaction_versions set_transactions set_active andb].
      pose proof (versions_nonzero l Hwf) as Hz. destruct (snapshot_pending t); cbn [andb]; [|split; [lia|apply Hz]]. case_bool_decide as Heq; cbn [negb]; [rewrite Heq; split; [lia|apply Hz]|].
      destruct (increment_lookup (decrement_version_count (active_transaction_versions l) (read_version t)) (current_version d) v) as [-> ?]; [intros u; by apply decrement_lookup| |].
      * destruct (decrement_lookup (active_transaction_versions l) (read_version t) (current_version d)) as [-> _]; [done|done|]. pose proof (version_counted l Hwf (current_version d)). destruct (Z.eqb_spec (read_version t) (current_version d)); [congruence|lia].
      * split; [|done]. destruct (decrement_lookup (active_transaction_versions l) (read_version t) v) as [-> _]; [done|done|]. lia.
    + rewrite Ht. cbn [weigh]. rewrite F3. subst l'. cbn. lia.
    + subst l'. cbn. by apply (bytes_bounded l Hwf).
  - intros id'. rewrite (open_replace l l' id (Some t')) by done. destruct (decide (id' = id)); [|done]. cbn -[is_active]. by rewrite Ha'.
Qed.

(** A finished token takes its snapshot at its first read again: nothing that is open changes. *)
Lemma pin_wf d id now l : serves_retried_read d id l = true -> ledger_wf l -> ledger_wf (modify_transaction id (pin_retried d now) l).
Proof.
  intros Hs Hwf. apply modify_transaction_wf; [done|]. intros t Ht. unfold serves_retried_read in Hs. rewrite Ht in Hs. apply andb_true_iff in Hs as [_ Hs]. rewrite !andb_true_iff, bool_decide_eq_true in Hs. destruct Hs as [[Hs _] _].
  assert (Ha : is_active t = false) by (apply is_active_false; by rewrite Hs). unfold pin_retried. destruct (snapshot_pending t); [|by split; [split_and!|]]. split; [|done]. split_and!; try done; rewrite Ha; done.
Qed.

(** ** The operations keep a database well formed *)

Section kept.
Context (pr db : string).

Lemma ledger_kept s l : store_wf pr db s -> ledger_wf l -> store_wf pr db (with_ledger l s).
Proof. intros [W1 W2 W3 _] Hl. by split. Qed.

Lemma compact_kept now s : store_wf pr db s -> store_wf pr db (compact now s).
Proof.
  intros Hwf. pose proof Hwf as [W1 W2 _ W4]. destruct (compact_step s s now W1 W2 W4 (closes_refl _) eq_refl eq_refl) as (C1 & C2 & _). by apply (wf_compacted pr db s).
Qed.

Lemma touch_kept id now s : store_wf pr db s -> store_wf pr db (touch_transaction id now s).2.
Proof.
  intros Hwf. unfold touch_transaction. set (s1 := if bool_decide _ then _ else s). assert (Hwf1 : store_wf pr db s1).
  { subst s1. case_bool_decide; [|done]. pose proof (prune_wf now _ (sw_ledger _ _ _ Hwf)) as Hl. destruct (prune_transactions now (ledger s)) as [changed l]. cbn [snd] in Hl. destruct changed; [apply compact_kept|]; by apply ledger_kept. }
  clearbody s1. pose proof (sw_ledger _ _ _ Hwf1) as Hl. cbv zeta. destruct (serves_retried_read _ _ _) eqn:Hs; [by apply ledger_kept; [|apply pin_wf]|].
  destruct (transaction (docs s1) id (ledger s1)) as [t|e] eqn:Ht; [|done]. apply transaction_Ok in Ht as [Ho _]. destruct (_ <=? now).
  - pose proof (keep_wf id (transaction_deadline (limit_scope (ledger s1)) t) _ (finish_wf id Finished _ Hl ltac:(done))) as Hk. destruct (keep_lifetime_expired_transaction _ _ _) as [lifetime l]. by apply compact_kept, ledger_kept.
  - apply ledger_kept; [done|]. by apply refresh_wf.
Qed.

Lemma read_kept d id p observed l : ledger_wf l -> ledger_wf (record_transaction_read d id p observed l).2.
Proof. intros Hwf. pose proof (record_read_spec d id p observed l Hwf) as H. destruct (record_transaction_read d id p observed l). by destruct H. Qed.

Lemma get_kept d id p l : ledger_wf l -> ledger_wf (get_in_transaction d id p l).2.
Proof.
  intros Hwf. unfold get_in_transaction. destruct (reading_transaction d id l) as [t|]; [|done]. pose proof (read_kept d id p (get_at d p (read_version t)) l Hwf) as H. by destruct (record_transaction_read _ _ _ _ _) as [[]].
Qed.

Lemma query_kept bytes_of_query d id execution q docs append finished l : ledger_wf l -> ledger_wf (record_transaction_query_observation bytes_of_query d id execution q docs append finished l).2.
Proof. intros Hwf. pose proof (record_query_spec bytes_of_query d id execution q docs append finished l Hwf) as H. destruct (record_transaction_query_observation _ _ _ _ _ _ _ _ _). by destruct H. Qed.

Lemma finish_query_kept d id execution l : ledger_wf l -> ledger_wf (finish_transaction_query_execution d id execution l).2.
Proof. intros Hwf. pose proof (finish_query_spec d id execution l Hwf) as H. destruct (finish_transaction_query_execution _ _ _ _). by destruct H. Qed.

Lemma allocate_kept l : ledger_wf l -> ledger_wf (allocate_query_execution_id l).2.
Proof. intros [Hv [T1 T2 T3 T4]]. split; [|by split]. intros id. destruct (Hv id). by split. Qed.

Lemma rollback_kept d id l : ledger_wf l -> ledger_wf (rollback d id l).2.
Proof. intros Hwf. pose proof (rollback_spec d id l Hwf) as H. destruct (rollback d id l). by destruct H. Qed.

Lemma rollback_at_kept d id now l : ledger_wf l -> ledger_wf (rollback_at d id now l).2.
Proof.
  intros Hwf. unfold rollback_at. destruct (negb _); [by apply rollback_kept|]. cbv zeta. set (over := match transactions l !! id with Some t => is_active t && _ | None => false end). set (l1 := if over then _ else _).
  assert (Hl : ledger_wf l1) by (subst l1; destruct over; [by apply prune_wf|by apply forget_wf]). clearbody l1. destruct (transactions l1 !! id) as [t|]; [destruct (_ && _); [done|]|]; by apply rollback_kept.
Qed.

Lemma forecast_kept now s : store_wf pr db s -> store_wf pr db (reclaimable_history_usage now s).2.
Proof.
  intros [W1 W2 W3 W4]. unfold reclaimable_history_usage. destruct (base_reclaim_form (retention_floor (docs s) (oldest_reading (ledger s)) now) (docs s)) as (u & f & ->). cbn [snd]. destruct W1. by split; [split|..].
Qed.

(** ** Every sequence of operations *)

Context (nearest : Documents -> Query -> option CommitVersion -> result (list Document) FirestoreError) (waits : CommitWaitOwner -> bool)
  (index_usage : LimitScope -> DocumentPath -> fields_map -> result unit FirestoreError) (delete_check : DocumentPath -> fields_map -> result unit FirestoreError) (bytes_of_query : Query -> Z).

(** A request: what it asks and the state it leaves. *)
Inductive request : FirestoreState -> FirestoreState -> Prop :=
| r_commit s writes own now owner admission : has_room s -> writes_ok pr db writes -> request s (commit nearest waits index_usage delete_check writes own now owner admission s).2
| r_touch s id now : request s (touch_transaction id now s).2
| r_begin s ro now : next_transaction (ledger s) < int_max u64 -> request s (with_ledger (begin_transaction (docs s) ro now (ledger s)).2 s)
| r_begin_read_only s now : next_transaction (ledger s) < int_max u64 -> request s (with_ledger (begin_read_only_transaction (docs s) now (ledger s)).2 s)
| r_begin_read_write s now : next_transaction (ledger s) < int_max u64 -> request s (with_ledger (begin_read_write_transaction (docs s) now (ledger s)).2 s)
| r_begin_at s time now : next_transaction (ledger s) < int_max u64 -> request s (with_ledger (begin_transaction_at (docs s) time now (ledger s)).2 s)
| r_retry s previous now : next_transaction (ledger s) < int_max u64 -> request s (with_ledger (retry_transaction (docs s) previous now (ledger s)).2 s)
| r_abandon s id : request s (with_ledger (abandon_transaction id (ledger s)) s)
| r_record s id p observed : request s (with_ledger (record_transaction_read (docs s) id p observed (ledger s)).2 s)
| r_get s id p : request s (with_ledger (get_in_transaction (docs s) id p (ledger s)).2 s)
| r_allocate s : request s (with_ledger (allocate_query_execution_id (ledger s)).2 s)
| r_query s id execution q docs' append finished : request s (with_ledger (record_transaction_query_observation bytes_of_query (docs s) id execution q docs' append finished (ledger s)).2 s)
| r_finish_query s id execution : request s (with_ledger (finish_transaction_query_execution (docs s) id execution (ledger s)).2 s)
| r_rollback s id now : request s (with_ledger (rollback_at (docs s) id now (ledger s)).2 s)
| r_prune s now : request s (with_ledger (prune_transactions now (ledger s)).2 s)
| r_forecast s now : request s (reclaimable_history_usage now s).2
| r_compact s now : request s (compact now s).

Inductive reachable : FirestoreState -> Prop :=
| reach_new scope offset : 0 <= offset <= int_max u64 -> reachable (new_database scope offset)
| reach_step s s' : reachable s -> request s s' -> reachable s'.

Lemma new_wf scope offset : 0 <= offset <= int_max u64 -> store_wf pr db (new_database scope offset).
Proof.
  intros Ho. split.
  - split; cbn.
    + intros p vs. by rewrite lookup_empty.
    + done.
    + split_and!; [done|constructor|]. intros e He. by apply not_elem_of_nil in He.
    + split; cbn; [intros p; by rewrite !lookup_empty|]. intros v p. rewrite lookup_empty. set_solver.
    + intros _. split; [by vm_compute|]. split; [repeat constructor|]; by vm_compute.
    + unfold DEFAULT_MAX_RETAINED_VERSIONS_PER_PATH. lia.
  - unfold view_ok, live_of. cbn. rewrite dom_empty_L, filter_empty_L; [apply no_scopes_view|apply _].
  - intros p. cbn. rewrite dom_empty_L. set_solver.
  - by apply new_ledger_wf.
Qed.

Lemma request_kept s s' : request s s' -> store_wf pr db s -> store_wf pr db s'.
Proof.
  intros Hr Hwf. pose proof (sw_ledger _ _ _ Hwf) as Hl. destruct Hr.
  - pose proof (commit_outcome_spec pr db nearest waits index_usage delete_check writes own now owner admission s Hwf ltac:(done) ltac:(done)) as Hc. destruct (commit _ _ _ _ _ _ _ _ _ s) as [r s']. by destruct Hc.
  - by apply touch_kept.
  - by apply ledger_kept, begin_kept.
  - by apply ledger_kept, begin_read_only_kept.
  - by apply ledger_kept, begin_read_write_kept.
  - by apply ledger_kept, begin_at_kept.
  - by apply ledger_kept, retry_kept.
  - by apply ledger_kept, abandon_wf.
  - by apply ledger_kept, read_kept.
  - by apply ledger_kept, get_kept.
  - by apply ledger_kept, allocate_kept.
  - by apply ledger_kept, query_kept.
  - by apply ledger_kept, finish_query_kept.
  - by apply ledger_kept, rollback_at_kept.
  - by apply ledger_kept, prune_wf.
  - by apply forecast_kept.
  - by apply compact_kept.
Qed.

Lemma reachable_wf s : reachable s -> store_wf pr db s.
Proof. induction 1 as [scope offset Ho|s s' _ IH Hr]; [by apply new_wf|by apply (request_kept s)]. Qed.
End kept.

(** ** What a commit promises *)

(** C5. Every database that requests reach, in any order, is well formed: its commit times are those of its versions and
    increase, its indexes are views of its history - the sets of paths by collection, and the listing hierarchy, of which
    every node counts the retained and the live paths below it and every collection lists its documents with live ones -,
    what it accounts for is, while certified, the recount of what it retains; its transactions are indexed by deadline, by version and by lock exactly as they are, at most 4096 of them are
    open, and what they observed stays within their own and the common budget. *)
Theorem reachable_database_sound (pr db : string) (nearest : Documents -> Query -> option CommitVersion -> result (list Document) FirestoreError) (waits : CommitWaitOwner -> bool)
  (index_usage : LimitScope -> DocumentPath -> fields_map -> result unit FirestoreError) (delete_check : DocumentPath -> fields_map -> result unit FirestoreError) (bytes_of_query : Query -> Z) (s : FirestoreState) :
  reachable pr db nearest waits index_usage delete_check bytes_of_query s ->
  store_wf pr db s /\ trie_view (dom (history (docs s))) (live_of (docs s)) [] (listing_trie (scopes s)) /\ (history_accounting_exact (docs s) = true -> history_usage (docs s) = bounded (documents_charge (docs s))) /\
  active_transaction_count (ledger s) = total one_active (transactions (ledger s)) /\ active_transaction_count (ledger s) <= MAX_ACTIVE_TRANSACTIONS /\
  active_transaction_conflict_ledger_bytes (ledger s) = total conflict_ledger_bytes (transactions (ledger s)) /\ active_transaction_conflict_ledger_bytes (ledger s) <= MAX_ACTIVE_TRANSACTION_CONFLICT_LEDGER_BYTES /\
  forall id t, open (ledger s) id = Some t -> 0 <= conflict_ledger_bytes t <= MAX_TRANSACTION_CONFLICT_LEDGER_BYTES /\ (transaction_deadline (limit_scope (ledger s)) t, id) ∈ active_transaction_deadlines (ledger s) /\
    (read_only t = false -> id ∈ active_read_write_transactions (ledger s)).
Proof.
  intros Hwf%reachable_wf. pose proof (sw_ledger _ _ _ Hwf) as Hl. destruct (lw_totals _ Hl) as [_ [T1 T2] _ [T3 T4]]. pose proof (proj1 (listing_view_nodes _ _ _) (view_listing _ _ _ (sw_view _ _ _ Hwf))) as Htrie. do 2 (split; [assumption|]). split_and!; try done.
  - intros He. by apply (wf_usage _ (sw_docs _ _ _ Hwf)).
  - intros id t [Ht Ha]%open_Some. pose proof (lw_views _ Hl id) as V. split_and!; [by apply (entry_ok _ Hl id t Ht)..| |].
    + apply (va_deadline _ _ V). by exists t.
    + intros Hro. apply (va_rw _ _ V). by exists t.
Qed.


(** C3. A refused commit leaves nothing behind, whatever refused it: the transaction, a lock, a limit, a precondition, the
    writes themselves, the capacity of the history or the events coupled to it.  No latest read changes, none at a version
    that is still served, no version and no commit time is consumed, and no transaction is opened. *)
Theorem commit_refused (pr db : string) nearest waits index_usage delete_check writes own now owner admission (s s' : FirestoreState) (e : FirestoreError) :
  store_wf pr db s -> has_room s -> writes_ok pr db writes -> commit nearest waits index_usage delete_check writes own now owner admission s = (Err e, s') ->
  store_wf pr db s' /\ unseen s s' /\ closes (ledger s) (ledger s').
Proof. intros Hwf Hroom Hw Hc. pose proof (commit_outcome_spec pr db nearest waits index_usage delete_check writes own now owner admission s Hwf Hroom Hw) as H. rewrite Hc in H. tauto. Qed.


(** ** An example: a transaction that reads a document and writes it *)

Definition no_nearest (d : Documents) (q : Query) (at_ : option CommitVersion) : result (list Document) FirestoreError := Ok [].
Definition free_index (scope : LimitScope) (p : DocumentPath) (fs : fields_map) : result unit FirestoreError := Ok tt.
Definition free_delete (p : DocumentPath) (fs : fields_map) : result unit FirestoreError := Ok tt.
Definition admit_all (r : CommitResult) (projection : HistoryProjection) : result unit FirestoreError := Ok tt.

Abbreviation demo_commit writes own now := (commit no_nearest (fun _ => true) free_index free_delete writes own now None admit_all).

Definition demo_write (n : Z) (pre : option Precondition) : Write :=
  {| op := WSet FsDocPath.demo_path {[chars "n" := VInteger n]} None; precondition := pre; transforms := [] |}.

(** One commit, then transaction 1, which reads the document. *)
Definition demo_stored : FirestoreState := (demo_commit [demo_write 1 None] None 5000 (new_database Production 0)).2.
Definition demo_begun : FirestoreState := with_ledger (begin_read_write_transaction (docs demo_stored) 7000 (ledger demo_stored)).2 demo_stored.
Definition demo_touched : FirestoreState := (touch_transaction 1 8000 demo_begun).2.
Definition demo_open : FirestoreState := with_ledger (get_in_transaction (docs demo_touched) 1 FsDocPath.demo_path (ledger demo_touched)).2 demo_touched.

Lemma demo_writes_ok n pre : writes_ok "demo" "(default)" [demo_write n pre].
Proof. intros w ->%list_elem_of_singleton. split; [split; [reflexivity|split; [reflexivity|discriminate]]|exact demo_path_ok]. Qed.

(** The writer outside of the transaction waits for its lock; the transaction commits; a commit that expects no document is refused. *)
Example commit_ex :
  let '(blocked, _) := demo_commit [demo_write 2 None] None 9000 demo_open in let '(done_, s) := demo_commit [demo_write 3 None] (Some 1) 9000 demo_open in
  let '(late, _) := demo_commit [demo_write 4 (Some (Exists false))] None 9500 s in let '(again, _) := demo_commit [] (Some 1) 9600 s in
  blocked = Err Aborted /\ match done_ with Ok r => (r_version r, commit_time r) = (2, 9000) | Err _ => False end /\ late = Err (AlreadyExists FsDocPath.demo_path) /\ again = Err Aborted /\
  FsDocument.version <$> get (docs s) FsDocPath.demo_path = Some 2 /\ FsDocument.version <$> get_at (docs s) FsDocPath.demo_path 1 = Some 1.
Proof. vm_compute. repeat split; reflexivity. Qed.

(** The empty commit of the transaction answers with the time of its first read. *)
Example empty_commit_ex : match demo_commit [] (Some 1) 9000 demo_open with
  | (Ok r, s) => (commit_time r, last_commit_time (docs s)) = (8000, Some 5000)
  | (Err _, _) => False
  end.
Proof. vm_compute. reflexivity. Qed.

Abbreviation demo_reachable := (reachable "demo" "(default)" no_nearest (fun _ => true) free_index free_delete (fun _ => 100)).

Lemma demo_open_reachable : demo_reachable demo_open.
Proof.
  assert (H0 : demo_reachable (new_database Production 0)) by (constructor; split; [done|by vm_compute]). assert (H1 : demo_reachable demo_stored).
  { eapply reach_step; [exact H0|]. apply r_commit; [split; [by vm_compute|done]|apply demo_writes_ok]. }
  assert (H2 : demo_reachable demo_begun) by (eapply reach_step; [exact H1|]; apply r_begin_read_write; vm_compute; reflexivity).
  assert (H3 : demo_reachable demo_touched) by (eapply reach_step; [exact H2|]; apply r_touch). eapply reach_step; [exact H3|]. apply r_get.
Qed.

Lemma demo_open_wf : store_wf "demo" "(default)" demo_open /\ has_room demo_open.
Proof.
  split; [exact (reachable_wf _ _ _ _ _ _ _ _ demo_open_reachable)|]. assert (Ht : last_commit_time (docs demo_open) = Some 5000) by (vm_compute; reflexivity). split; [vm_compute; reflexivity|].
  rewrite Ht. intros t [= <-]. split; vm_compute; discriminate.
Qed.

Example reachable_database_sound_witness : store_wf "demo" "(default)" demo_open /\ active_transaction_count (ledger demo_open) = 1 /\ 0 < active_transaction_conflict_ledger_bytes (ledger demo_open) <= MAX_ACTIVE_TRANSACTION_CONFLICT_LEDGER_BYTES.
Proof.
  destruct (reachable_database_sound _ _ _ _ _ _ _ demo_open demo_open_reachable) as (H1 & _ & _ & _ & _ & _ & H2 & _). split; [exact H1|]. split; [vm_compute; reflexivity|]. split; [vm_compute; reflexivity|exact H2].
Defined.


Example commit_refused_witness : let '(r, s') := demo_commit [demo_write 3 (Some (Exists false))] (Some 1) 9000 demo_open in
  r = Err (AlreadyExists FsDocPath.demo_path) /\ unseen demo_open s' /\ open (ledger s') 1 = None.
Proof.
  destruct (demo_commit [demo_write 3 (Some (Exists false))] (Some 1) 9000 demo_open) as [r s'] eqn:H. assert (Hr : r = Err (AlreadyExists FsDocPath.demo_path) /\ open (ledger s') 1 = None).
  { assert (Hv : (demo_commit [demo_write 3 (Some (Exists false))] (Some 1) 9000 demo_open).1 = Err (AlreadyExists FsDocPath.demo_path) /\ open (ledger (demo_commit [demo_write 3 (Some (Exists false))] (Some 1) 9000 demo_open).2) 1 = None) by (vm_compute; split; reflexivity).
    rewrite H in Hv. exact Hv. }
  destruct Hr as [-> Hopen]. split; [reflexivity|]. split; [|exact Hopen].
  apply (commit_refused "demo" "(default)" _ _ _ _ _ _ _ _ _ demo_open s' _ (proj1 demo_open_wf) (proj2 demo_open_wf) (demo_writes_ok 3 (Some (Exists false))) H).
Defined.

