(* ===== verification/FsReclaim.v ===== *)
(** * What a commit reserves of the history

    Proofs about the accounting of [FsStore.v]: a forecast is what a compaction reclaims, and the
    reclaim that a commit projects is that of the history which it publishes. *)
From S2P Require Import Prelude Time Text Ids Hash FsValue FsDocPath FsSize FsDocument FsValidate FsFilter FsQuery FsSelect FsListing FsUsage FsHistory FsScope FsLedger FsLedgerWf FsTransaction FsRun FsStore FsPublish.
#[local] Set Warnings "-register-all".

(** ** Usages in order *)

Definition usage_le (a b : HistoryUsage) : Prop :=
  live_document_bytes a <= live_document_bytes b /\ historical_document_bytes a <= historical_document_bytes b /\ path_and_index_bytes a <= path_and_index_bytes b /\
  version_metadata_bytes a <= version_metadata_bytes b /\ tombstone_bytes a <= tombstone_bytes b /\ commit_time_bytes a <= commit_time_bytes b /\
  u_versions a <= u_versions b /\ u_tombstones a <= u_tombstones b /\ u_paths a <= u_paths b /\ u_commit_times a <= u_commit_times b.

(** Every field, the total too. *)
Definition within (a b : HistoryUsage) : Prop := usage_le a b /\ total_bytes a <= total_bytes b.

Ltac usage_lia := unfold usage_le in *; plain_usage; lia.

Lemma usage_le_refl a : usage_le a a.
Proof. usage_lia. Qed.

Lemma usage_le_trans a b c : usage_le a b -> usage_le b c -> usage_le a c.
Proof. usage_lia. Qed.

Lemma usage_le_plus a b a' b' : usage_le a a' -> usage_le b b' -> usage_le (plus_usage a b) (plus_usage a' b').
Proof. usage_lia. Qed.

Lemma usage_le_none a : nonneg_usage a -> usage_le no_usage a.
Proof. intros H%nonneg_components. unfold no_usage. usage_lia. Qed.

Lemma usage_le_more a b : nonneg_usage b -> usage_le a (plus_usage b a).
Proof. intros H%nonneg_components. usage_lia. Qed.

Lemma within_refl a : within a a.
Proof. split; [apply usage_le_refl|lia]. Qed.

Lemma within_trans a b c : within a b -> within b c -> within a c.
Proof. intros [H1 H2] [H3 H4]. split; [by eapply usage_le_trans|lia]. Qed.

(** The machine's usages are in the order of the charges. *)
Lemma saturating_u64_mono a b : a <= b -> saturating u64 a <= saturating u64 b.
Proof. unfold saturating. lia. Qed.

Lemma bounded_within a b : nonneg_usage a -> usage_le a b -> within (bounded a) (bounded b).
Proof.
  intros Ha Hle. assert (Hb : nonneg_usage b) by (apply nonneg_components in Ha; unfold nonneg_usage, components, usage_le in *; each_component; lia). split.
  - unfold usage_le in *. unfold bounded. cbn [finish_history_usage saturated combine_usage live_document_bytes historical_document_bytes path_and_index_bytes version_metadata_bytes tombstone_bytes commit_time_bytes u_versions u_tombstones u_paths u_commit_times].
    destruct Hle as (?&?&?&?&?&?&?&?&?&?). split_and!; by apply saturating_u64_mono.
  - rewrite !bounded_total by done. apply saturating_u64_mono. unfold sum_bytes. usage_lia.
Qed.

Lemma usage_le_below a b : usage_le a b -> Forall (fun c => c < int_max u64) (components b) -> Forall (fun c => c < int_max u64) (components a).
Proof. unfold usage_le, components. rewrite !Forall_cons. intros (?&?&?&?&?&?&?&?&?&?) (?&?&?&?&?&?&?&?&?&?&?). split_and!; try done; lia. Qed.

(** ** Machine arithmetic on bounded usages *)

(** The totals of the operands do not matter. *)
Lemma subtract_components a a' b b' : components a = components a' -> components b = components b' -> subtract_history_usage a b = subtract_history_usage a' b'.
Proof. destruct a, a', b, b'. unfold components, subtract_history_usage, combine_usage. cbn -[finish_history_usage]. by intros [= -> -> -> -> -> -> -> -> -> ->] [= -> -> -> -> -> -> -> -> -> ->]. Qed.

Lemma add_components a a' b b' : components a = components a' -> components b = components b' -> add_history_usage a b = add_history_usage a' b'.
Proof. destruct a, a', b, b'. unfold components, add_history_usage, combine_usage. cbn -[finish_history_usage]. by intros [= -> -> -> -> -> -> -> -> -> ->] [= -> -> -> -> -> -> -> -> -> ->]. Qed.

Lemma subtract_part a b : nonneg_usage a -> nonneg_usage b -> Forall (fun c => c < int_max u64) (components (plus_usage a b)) -> subtract_history_usage (bounded (plus_usage a b)) (bounded b) = bounded a.
Proof.
  intros (?&?&?&?&?&?&?&?&?&?)%nonneg_components (?&?&?&?&?&?&?&?&?&?)%nonneg_components Hmax. unfold components in Hmax. rewrite !Forall_cons in Hmax. destruct Hmax as (?&?&?&?&?&?&?&?&?&?&_).
  unfold subtract_history_usage, bounded at 3. f_equal. plain_usage. apply usage_ext; first [reflexivity | apply sat_sub_part; [done|done|by apply saturating_below; [lia|]]].
Qed.

(** ** Sums over paths *)

Lemma sum_usage_zero {A} (r : A -> HistoryUsage) l : (forall x, x ∈ l -> r x = no_usage) -> sum_usage (map r l) = no_usage.
Proof. induction l as [|x l IH]; intros H; [done|]. cbn [map]. rewrite sum_usage_cons, IH by (intros; apply H; by right). by rewrite H by by left. Qed.

(** A sum over a set depends on the elements that contribute. *)
Lemma sum_support {A} `{EqDecision A} (r : A -> HistoryUsage) l m : NoDup l -> NoDup m -> (forall x, x ∈ l -> x ∉ m -> r x = no_usage) -> (forall x, x ∈ m -> x ∉ l -> r x = no_usage) ->
  sum_usage (map r l) = sum_usage (map r m).
Proof.
  intros Hl Hm H1 H2. assert (Hpart : forall l m : list A, NoDup l -> (forall x, x ∈ l -> x ∉ m -> r x = no_usage) -> sum_usage (map r l) = sum_usage (map r (filter (fun x => x ∈ m) l))).
  { clear. intros l m Hl H. rewrite (sum_usage_perm (map r l) (map r (filter (fun x => x ∈ m) l ++ filter (fun x => x ∉ m) l))) by (apply Permutation_map; symmetry; apply filter_app_complement).
    rewrite map_app, sum_usage_app, (sum_usage_zero r (filter (fun x => x ∉ m) l)) by (intros x [Hx1 Hx2]%list_elem_of_filter; by apply H). apply plus_none, sum_usage_total. }
  rewrite (Hpart l m Hl H1), (Hpart m l Hm H2). apply sum_usage_perm, Permutation_map, NoDup_Permutation; [by apply NoDup_filter..|]. intros x. rewrite !list_elem_of_filter. tauto.
Qed.

Lemma sum_usage_le {A} (r s : A -> HistoryUsage) l : (forall x, x ∈ l -> usage_le (r x) (s x)) -> usage_le (sum_usage (map r l)) (sum_usage (map s l)).
Proof. induction l as [|x l IH]; intros H; [apply usage_le_refl|]. cbn [map]. rewrite !sum_usage_cons. apply usage_le_plus; [apply H; by left|]. apply IH. intros. apply H. by right. Qed.

Lemma sum_usage_plus {A} (r s : A -> HistoryUsage) l : sum_usage (map (fun x => plus_usage (r x) (s x)) l) = plus_usage (sum_usage (map r l)) (sum_usage (map s l)).
Proof. induction l as [|x l IH]; [done|]. cbn [map]. rewrite !sum_usage_cons, IH. apply usage_ext; plain_usage; lia. Qed.

(** ** What a compaction reclaims and keeps of a history *)

Section history.
Context (h : gmap DocumentPath Versions).

Definition retained_paths : list DocumentPath := map fst (map_to_list h).

Definition reclaim_at (floor : CommitVersion) (p : DocumentPath) : HistoryUsage := reclaim_charge p (default [] (h !! p)) floor.

Definition kept_at (floor : CommitVersion) (p : DocumentPath) : HistoryUsage := kept_charge p (h !! p ≫= compacted floor).

Definition history_reclaim (floor : CommitVersion) : HistoryUsage := sum_usage (map (reclaim_at floor) retained_paths).
Definition history_kept (floor : CommitVersion) : HistoryUsage := sum_usage (map (kept_at floor) retained_paths).

Lemma elem_of_retained_paths p : p ∈ retained_paths <-> is_Some (h !! p).
Proof.
  unfold retained_paths. rewrite list_elem_of_fmap. split; [intros ([q vs] & -> & Hin%elem_of_map_to_list); by exists vs|]. intros [vs Hp]. exists (p, vs). split; [done|by apply elem_of_map_to_list].
Qed.

Lemma retained_nodup : NoDup retained_paths.
Proof. apply NoDup_fst_map_to_list. Qed.

Lemma history_charge_paths : history_charge h = sum_usage (map (fun p => entry_charge (p, default [] (h !! p))) retained_paths).
Proof.
  unfold history_charge, retained_paths. rewrite map_map. f_equal. apply map_ext_in. intros [p vs] Hin%list_elem_of_In%elem_of_map_to_list. cbn [fst]. by rewrite Hin.
Qed.

Lemma reclaim_at_none floor p : h !! p = None -> reclaim_at floor p = no_usage.
Proof. unfold reclaim_at. intros ->. reflexivity. Qed.

Lemma reclaim_at_same floor p vs : h !! p = Some vs -> vs <> [] -> compacted floor vs = Some vs -> reclaim_at floor p = no_usage.
Proof.
  intros Hp Hne Hc%compacted_same; [|done]. unfold reclaim_at. rewrite Hp. cbn [default from_option id]. apply andb_true_iff in Hc as [Hcut He]. rewrite emptied_dead in He by done. apply negb_true_iff in He.
  unfold reclaim_charge. rewrite He. apply Nat.eqb_eq in Hcut. rewrite Hcut. reflexivity.
Qed.

Context (top : CommitVersion) (Hok : entries_ok top h).

Lemma reclaim_at_nonneg floor p : nonneg_usage (reclaim_at floor p).
Proof. destruct (h !! p) as [vs|] eqn:Hp; [|rewrite reclaim_at_none by done; repeat constructor; done]. unfold reclaim_at. rewrite Hp. by apply (reclaim_nonneg top), Hok. Qed.

Lemma kept_at_nonneg floor p : nonneg_usage (kept_at floor p).
Proof.
  unfold kept_at. destruct (h !! p) as [vs|] eqn:Hp; cbn [mbind option_bind]; [|repeat constructor; done]. destruct (compacted floor vs) as [kept|] eqn:Hc; cbn [kept_charge from_option]; [|repeat constructor; done].
  apply path_charge_nonneg, (entry_sizes_ok top p). by apply (compacted_ok top p vs floor); [apply Hok|].
Qed.

Lemma history_reclaim_nonneg floor : nonneg_usage (history_reclaim floor).
Proof. apply sum_usage_nonneg, Forall_map, Forall_true. intros p. apply reclaim_at_nonneg. Qed.

Lemma history_kept_nonneg floor : nonneg_usage (history_kept floor).
Proof. apply sum_usage_nonneg, Forall_map, Forall_true. intros p. apply kept_at_nonneg. Qed.

Lemma history_splits floor : history_charge h = plus_usage (history_kept floor) (history_reclaim floor).
Proof.
  rewrite history_charge_paths. unfold history_reclaim, history_kept. rewrite <- sum_usage_plus. f_equal. apply map_ext_in. intros p [vs Hp]%list_elem_of_In%elem_of_retained_paths.
  unfold reclaim_at, kept_at. rewrite Hp. cbn [default from_option id mbind option_bind]. rewrite plus_comm. apply reclaim_splits. by apply (Hok p).
Qed.

Lemma compacted_charge floor : history_charge (omap (compacted floor) h) = history_kept floor.
Proof.
  pose proof retained_nodup as Hnd. unfold history_charge. set (kept := omap (compacted floor) h). rewrite (map_ext_in _ (fun e => kept_at floor e.1)).
  - rewrite <- (map_map fst (kept_at floor)). apply sum_support; [apply NoDup_fst_map_to_list|done| |].
    + intros p ([q vs] & -> & Hin%elem_of_map_to_list)%list_elem_of_fmap Hn. destruct Hn. apply elem_of_retained_paths. unfold kept in Hin. rewrite lookup_omap in Hin. cbn [fst]. destruct (h !! q); [by eexists|done].
    + intros p [vs Hp]%elem_of_retained_paths Hn. unfold kept_at. rewrite Hp. cbn [mbind option_bind]. destruct (compacted floor vs) as [vs'|] eqn:Hc; [|done]. destruct Hn. apply list_elem_of_fmap. exists (p, vs'). split; [done|].
      apply elem_of_map_to_list. unfold kept. rewrite lookup_omap, Hp. exact Hc.
  - intros [p vs] Hin%list_elem_of_In%elem_of_map_to_list. unfold kept in Hin. rewrite lookup_omap in Hin. unfold kept_at. cbn [fst]. by rewrite Hin.
Qed.
End history.

(** ** A higher floor keeps less *)

Lemma partition_point_mono {A} (f g : A -> bool) l : (forall x, f x = true -> g x = true) -> (partition_point f l <= partition_point g l)%nat.
Proof. intros H. induction l as [|x l IH]; [done|]. cbn. destruct (f x) eqn:E; [rewrite (H x E); lia|lia]. Qed.

Lemma floor_cut_mono vs floor floor' : floor <= floor' -> (floor_cut vs floor <= floor_cut vs floor')%nat.
Proof. intros Hle. unfold floor_cut. pose proof (partition_point_mono (at_or_before floor) (at_or_before floor') vs) as H. specialize (H ltac:(unfold at_or_before; intros; lia)). lia. Qed.

Lemma floor_cut_lt vs floor : vs <> [] -> (floor_cut vs floor < length vs)%nat.
Proof. intros Hne. unfold floor_cut. pose proof (partition_point_le (at_or_before floor) vs). destruct vs; [done|cbn [length] in *; lia]. Qed.

Lemma dead_mono vs floor floor' : vs <> [] -> floor <= floor' -> dead (drop (floor_cut vs floor) vs) floor = true -> dead (drop (floor_cut vs floor') vs) floor' = true.
Proof.
  intros Hne Hle Hd. pose proof (floor_cut_mono vs floor floor' Hle). pose proof (floor_cut_lt vs floor' Hne). assert (Hlen : length (drop (floor_cut vs floor) vs) = 1%nat) by (destruct (drop _ _) as [|[v [r|]] [|]]; done).
  rewrite length_drop in Hlen. assert (Heq : floor_cut vs floor' = floor_cut vs floor) by lia. rewrite Heq. destruct (drop _ _) as [|[v [r|]] [|]]; try done. unfold dead in *. lia.
Qed.

Lemma kept_antitone top p vs floor floor' : FsHistory.entry_ok top p vs -> floor <= floor' -> usage_le (kept_charge p (compacted floor' vs)) (kept_charge p (compacted floor vs)).
Proof.
  intros Hok Hle. pose proof Hok as (Hne & _). pose proof (entry_sizes_ok _ _ _ Hok) as Hsizes. unfold compacted. rewrite !emptied_dead by done. destruct (dead (drop (floor_cut vs floor) vs) floor) eqn:E.
  { rewrite (dead_mono vs floor floor') by done. apply usage_le_refl. }
  assert (Hkept : forall n, nonneg_usage (entry_charge (p, drop n vs))) by (intros n; apply path_charge_nonneg; cbn [snd]; rewrite sizes_drop; by apply Forall_drop).
  destruct (dead _ floor'); cbn [kept_charge from_option]; [by apply usage_le_none|]. pose proof (floor_cut_mono vs floor floor' Hle). pose proof (floor_cut_lt vs floor' Hne).
  set (n := floor_cut vs floor) in *. set (n' := floor_cut vs floor') in *. assert (Hn : drop n' vs = drop (n' - n) (drop n vs)) by (rewrite drop_drop; f_equal; lia).
  assert (Hsplit : entry_charge (p, drop n vs) = plus_usage (older_charge (history_document_sizes (take (n' - n) (drop n vs)))) (entry_charge (p, drop n' vs))).
  { unfold entry_charge. cbn [fst snd]. rewrite <- (take_drop (n' - n) (drop n vs)) at 1. rewrite <- Hn. unfold history_document_sizes at 1. rewrite map_app. apply path_charge_app.
    intros Hnil%map_eq_nil%(f_equal length). rewrite length_drop in Hnil. cbn in Hnil. lia. }
  rewrite Hsplit. apply usage_le_more, older_nonneg. rewrite sizes_take, sizes_drop. by apply Forall_take, Forall_drop.
Qed.

Lemma history_kept_antitone top h floor floor' : entries_ok top h -> floor <= floor' -> usage_le (history_kept h floor') (history_kept h floor).
Proof.
  intros Hok Hle. apply sum_usage_le. intros p [vs Hp]%elem_of_retained_paths. unfold kept_at. rewrite Hp. cbn [mbind option_bind]. by apply (kept_antitone top); [apply Hok|].
Qed.

(** ** Stores that a compaction has settled *)

(** Nothing is left to drop at the compaction floor. *)
Definition settled (d : Documents) : Prop := forall p vs, history d !! p = Some vs -> compacted (compaction_floor d) vs = Some vs.

Lemma compacted_lower top p vs floor floor' : FsHistory.entry_ok top p vs -> compacted floor vs = Some vs -> floor' <= floor -> compacted floor' vs = Some vs.
Proof. intros (Hne & Hs & _) Hc Hle. rewrite compacted_threshold in * by done. intros v Hv. specialize (Hc v Hv). lia. Qed.

Lemma compacted_idempotent top p vs floor kept : FsHistory.entry_ok top p vs -> compacted floor vs = Some kept -> compacted floor kept = Some kept.
Proof.
  intros Hok Hc. pose proof (compacted_ok _ _ _ _ _ Hok Hc) as (Hne' & Hs' & _). destruct Hok as (Hne & Hs & _). unfold compacted in Hc. destruct (emptied _ _) eqn:He; [done|]. injection Hc as <-.
  destruct (floor_cut_spec vs floor Hs) as [Hcut|(dropped & e & kept & -> & Hcut & Hle & Hgt)].
  - rewrite Hcut, drop_0 in *. unfold compacted. rewrite Hcut, drop_0, He. done.
  - rewrite Hcut, drop_app_length in *. apply compacted_threshold; [done|done|]. intros v. unfold reclaim_threshold. destruct kept as [|x kept]; cbn.
    + destruct e as [v0 [r|]]; [done|]. intros [= <-]. unfold emptied, dead in He. lia.
    + destruct x as [v' o]. intros [= <-]. by apply (Hgt (v', o)); left.
Qed.

Lemma settled_reclaim d floor p : docs_wf d -> settled d -> floor <= compaction_floor d -> reclaim_at (history d) floor p = no_usage.
Proof.
  intros Hwf Hs Hle. destruct (history d !! p) as [vs|] eqn:Hp; [|by apply reclaim_at_none]. pose proof (wf_entries d Hwf p vs Hp) as Hok. apply (reclaim_at_same _ _ _ vs); [done|apply Hok|].
  by apply (compacted_lower _ p vs (compaction_floor d) floor Hok); [apply Hs with p|].
Qed.

(** The commit times that a floor drops. *)
Definition dropped_times (floor : CommitVersion) (d : Documents) : Z := Z.of_nat (length (take_while (fun e => e.1 <? floor) (commit_times d))).

Lemma take_drop_while {A} (f : A -> bool) l : l = take_while f l ++ drop_while f l.
Proof. induction l as [|x l IH]; [done|]. cbn. destruct (f x); [cbn; by f_equal|done]. Qed.

Lemma settled_times d floor : docs_wf d -> floor <= compaction_floor d -> dropped_times floor d = 0.
Proof.
  intros Hwf Hle. destruct (wf_times d Hwf) as (Hv & _). unfold dropped_times. destruct (commit_times d) as [|e times] eqn:Ht; [done|]. cbn [take_while]. destruct (wf_floors d Hwf) as [[? ?] _]. destruct (Z.ltb_spec e.1 floor); [|done].
  assert (He : e.1 ∈ map fst (e :: times)) by by left. rewrite Hv in He. apply elem_of_seqZ in He. lia.
Qed.

(** ** The forecast *)

(** What a compaction at [floor] reclaims, commit times included, and what it keeps. *)
Definition released_charge (d : Documents) (floor : CommitVersion) : HistoryUsage := plus_usage (history_reclaim (history d) floor) (times_charge (dropped_times floor d)).

Definition retained_charge (d : Documents) (floor : CommitVersion) : HistoryUsage :=
  plus_usage (history_kept (history d) floor) (times_charge (Z.of_nat (length (commit_times d)) - dropped_times floor d)).

Lemma dropped_times_le d floor : 0 <= dropped_times floor d <= Z.of_nat (length (commit_times d)).
Proof. unfold dropped_times. pose proof (f_equal length (take_drop_while (fun e : CommitVersion * LogicalInstant => e.1 <? floor) (commit_times d))) as H. rewrite length_app in H. lia. Qed.

Lemma released_nonneg d floor : docs_wf d -> nonneg_usage (released_charge d floor).
Proof. intros Hwf. apply plus_nonneg; [apply (history_reclaim_nonneg _ (current_version d)), (wf_entries d Hwf)|apply times_charge_nonneg, dropped_times_le]. Qed.

Lemma retained_nonneg d floor : docs_wf d -> nonneg_usage (retained_charge d floor).
Proof. intros Hwf. apply plus_nonneg; [apply (history_kept_nonneg _ (current_version d)), (wf_entries d Hwf)|apply times_charge_nonneg; pose proof (dropped_times_le d floor); lia]. Qed.

Lemma documents_split d floor : docs_wf d -> documents_charge d = plus_usage (retained_charge d floor) (released_charge d floor).
Proof.
  intros Hwf. unfold documents_charge, retained_charge, released_charge. rewrite (history_splits _ (current_version d) (wf_entries d Hwf) floor).
  replace (Z.of_nat (length (commit_times d))) with (Z.of_nat (length (commit_times d)) - dropped_times floor d + dropped_times floor d) at 1 by lia. rewrite times_charge_split. apply usage_ext; plain_usage; lia.
Qed.

(** A path is charged nothing for commit times. *)
Definition timeless (u : HistoryUsage) : Prop := commit_time_bytes u = 0 /\ u_commit_times u = 0.

Lemma timeless_path p sizes : timeless (path_charge p sizes).
Proof. unfold path_charge. by destruct (last sizes). Qed.

Lemma timeless_reclaim h floor p : timeless (reclaim_at h floor p).
Proof. unfold reclaim_at, reclaim_charge. destruct (dead _ _); [apply timeless_path|done]. Qed.

Lemma timeless_sum {A} (r : A -> HistoryUsage) l : (forall x, timeless (r x)) -> timeless (sum_usage (map r l)).
Proof. intros H. induction l as [|x l [IH1 IH2]]; [done|]. cbn [map]. rewrite sum_usage_cons. destruct (H x). unfold timeless. plain_usage. lia. Qed.

Lemma with_times_components u n : nonneg_usage u -> timeless u -> 0 <= n < int_max u64 ->
  components (with_commit_times (bounded u) n (saturating u64 (n * HISTORY_COMMIT_TIME_BYTES))) = components (bounded (plus_usage u (times_charge n))).
Proof.
  intros Hu [H1 H2] Hn. unfold bounded, with_commit_times, times_charge, components.
  cbn [plus_usage finish_history_usage saturated combine_usage with_commit_times no_usage live_document_bytes historical_document_bytes path_and_index_bytes version_metadata_bytes tombstone_bytes commit_time_bytes u_versions u_tombstones u_paths u_commit_times].
  rewrite H1, H2, !Z.add_0_r, !Z.add_0_l, (saturating_id u64 n) by (unfold fits; cbn [int_min int_max u64] in *; lia). unfold HISTORY_COMMIT_TIME_BYTES. by rewrite (Z.mul_comm n).
Qed.

(** Documents of which nothing overflows: their accounting is certified. *)
Definition certified_docs (d : Documents) : Prop := history_accounting_exact d = true.

Lemma certified_below d : docs_wf d -> certified_docs d -> history_usage d = bounded (documents_charge d) /\ below_max (documents_charge d).
Proof. intros Hwf He. by apply (wf_usage d Hwf). Qed.

Lemma certified_times d : docs_wf d -> certified_docs d -> Z.of_nat (length (commit_times d)) < int_max u64.
Proof.
  intros Hwf [_ [Hmax _]]%certified_below; [|done]. unfold components in Hmax. rewrite !Forall_cons in Hmax. destruct Hmax as (_&_&_&_&_&_&_&_&_&Hmax&_). unfold documents_charge in Hmax. unfold times_charge, with_commit_times in Hmax. plain_usage.
  pose proof (history_charge_nonneg _ _ (wf_entries d Hwf)) as (_&_&_&_&_&_&_&_&_&H)%nonneg_components. lia.
Qed.

Lemma path_reclaim_bounded d floor p : docs_wf d -> history_path_reclaim_unsaturated p (default [] (history d !! p)) floor = bounded (reclaim_at (history d) floor p).
Proof. intros Hwf. unfold reclaim_at. destruct (history d !! p) as [vs|] eqn:Hp; [|reflexivity]. by apply (reclaim_bounded (current_version d)), (wf_entries d Hwf). Qed.

Lemma forecast_fold d floor l : docs_wf d -> certified_docs d -> forall u, nonneg_usage u -> total_bytes u = 0 ->
  fold_left (fun u p => add_history_usage u (path_reclaim d floor p)) l (bounded u) = bounded (plus_usage u (sum_usage (map (reclaim_at (history d) floor) l))).
Proof.
  intros Hwf He. induction l as [|p l IH]; intros u Hu Ht; cbn [fold_left map].
  - change (sum_usage []) with no_usage. by rewrite plus_none.
  - pose proof (reclaim_at_nonneg (history d) _ (wf_entries d Hwf) floor p) as Hr. unfold path_reclaim at 2. rewrite He, path_reclaim_bounded, add_bounded, IH by (done || by apply plus_nonneg). by rewrite sum_usage_cons, plus_assoc.
Qed.

(** A forecast is what the compaction will reclaim. *)
Lemma forecast_exact d floor : docs_wf d -> certified_docs d -> components (forecast_reclaim floor d).1 = components (bounded (released_charge d floor)).
Proof.
  intros Hwf He. unfold forecast_reclaim. cbn [fst]. rewrite <- bounded_none, forecast_fold by (done || (repeat constructor; done)).
  assert (Hsum : plus_usage no_usage (sum_usage (map (reclaim_at (history d) floor) (reclaim_candidates d floor))) = history_reclaim (history d) floor).
  { rewrite plus_comm, plus_none by apply sum_usage_total. destruct (reclaim_candidates_spec d floor (wf_index d Hwf)) as [Hin Hnd]. apply sum_support; [done|apply retained_nodup| |].
    - intros p Hp%Hin Hn. apply reclaim_at_none. destruct (history d !! p) as [vs|] eqn:E; [|done]. destruct Hn. apply elem_of_retained_paths. by exists vs.
    - intros p [vs Hp]%elem_of_retained_paths Hn. destruct (wf_entries d Hwf p vs Hp) as (Hne & Hs & _). apply (reclaim_at_same _ _ _ vs); [done..|]. apply (nothing_dropped floor d p vs (wf_index d Hwf) Hp Hne Hs). intros v Hv.
      destruct (Z.le_gt_cases v floor); [|lia]. destruct Hn. apply Hin. by exists v. }
  rewrite Hsum. apply with_times_components; [apply (history_reclaim_nonneg _ (current_version d)), (wf_entries d Hwf)|apply timeless_sum; intros; apply timeless_reclaim|].
  pose proof (dropped_times_le d floor). pose proof (certified_times d Hwf He). fold (dropped_times floor d). lia.
Qed.

(** The cached forecast is that of the documents as they are. *)
Definition forecast_ok (d : Documents) : Prop := forall f, compaction_forecast d = Some f -> reclaimed f = (forecast_reclaim (f_floor f) d).1.

Lemma released_settled d floor : docs_wf d -> settled d -> floor <= compaction_floor d -> released_charge d floor = no_usage.
Proof.
  intros Hwf Hs Hle. unfold released_charge, history_reclaim. rewrite (settled_times d floor Hwf Hle), (sum_usage_zero (reclaim_at (history d) floor)); [reflexivity|]. intros p _. by apply settled_reclaim.
Qed.

Lemma base_exact d floor : docs_wf d -> certified_docs d -> settled d -> forecast_ok d -> components (base_compaction_reclaim floor d).1 = components (bounded (released_charge d floor)).
Proof.
  intros Hwf He Hs Hf. unfold base_compaction_reclaim. destruct (Z.leb_spec floor (compaction_floor d)); [by rewrite released_settled|]. destruct (compaction_forecast d) as [f|] eqn:E; [|by apply forecast_exact].
  destruct (_ && _) eqn:Hhit; [|by apply forecast_exact]. apply andb_true_iff in Hhit as [_ Hfl]. apply Z.eqb_eq in Hfl. cbn [fst]. rewrite (Hf f E), Hfl. by apply forecast_exact.
Qed.

(** ** The projected reclaim of a commit *)

Lemma partition_point_snoc {A} (f : A -> bool) l x : (f x = true -> Forall (fun y => f y = true) l) -> partition_point f (l ++ [x]) = (partition_point f l + (if f x then 1 else 0))%nat.
Proof.
  intros H. induction l as [|y l IH]; cbn; [by destruct (f x)|]. destruct (f y) eqn:E.
  - rewrite IH; [done|]. intros Hx. specialize (H Hx). by apply Forall_cons in H as [_ ?].
  - destruct (f x); [|done]. specialize (H eq_refl). apply Forall_cons in H as [H _]. congruence.
Qed.

(** What the projection computes of the versions before is the reclaim of the versions after. *)
Lemma projected_reclaim_pushed p vs o version floor : Forall (fun e : CommitVersion * option RetainedDocument => e.1 < version) vs ->
  projected_history_path_reclaim_unsaturated p vs (logical_bytes <$> o) version floor = history_path_reclaim_unsaturated p (vs ++ [(version, o)]) floor.
Proof.
  intros Hlt. assert (Hcut : (projected_prefix vs version floor - 1)%nat = floor_cut (vs ++ [(version, o)]) floor).
  { unfold projected_prefix, floor_cut. rewrite partition_point_snoc; [unfold at_or_before; cbn [fst]; done|]. intros Hv. eapply Forall_impl; [exact Hlt|]. unfold at_or_before in *. cbn [fst] in *. intros e He. lia. }
  unfold projected_history_path_reclaim_unsaturated, history_path_reclaim_unsaturated. rewrite Hcut. set (cut := floor_cut _ floor). pose proof (floor_cut_lt (vs ++ [(version, o)]) floor) as Hl. fold cut in Hl. rewrite length_app in Hl. cbn [length] in Hl.
  assert (Hle : (cut <= length vs)%nat) by (specialize (Hl ltac:(by destruct vs)); lia). rewrite (drop_app_le vs) by done.
  assert (Hdead : dead (drop cut vs ++ [(version, o)]) floor = bool_decide (cut = length vs) && bool_decide ((logical_bytes <$> o) = None) && (version <=? floor)).
  { destruct (decide (cut = length vs)) as [->|Hne].
    - rewrite drop_all, bool_decide_true by done. cbn. destruct o; [done|]. done.
    - rewrite (bool_decide_false (cut = length vs)) by done. cbn [andb]. destruct (drop cut vs) as [|e l] eqn:E; [apply (f_equal length) in E; rewrite length_drop in E; cbn in E; lia|]. destruct e as [v [r|]]; by destruct l. }
  rewrite Hdead. destruct (_ && _ && _); [unfold history_path_usage; by rewrite sizes_snoc|]. by rewrite take_app_le by done.
Qed.

Lemma path_index_mono p live : history_path_and_index_bytes p false <= history_path_and_index_bytes p live.
Proof. unfold history_path_and_index_bytes, sat_add, saturating, HISTORY_PATH_KEY_OVERHEAD, HISTORY_INDEX_REFERENCE_OVERHEAD. cbn [int_min int_max u64]. destruct live; lia. Qed.

Lemma older_take_le n sizes : Forall size_ok sizes -> usage_le (older_charge (take n sizes)) (older_charge sizes).
Proof. intros H. rewrite <- (take_drop n sizes) at 2. rewrite older_app, plus_comm. by apply usage_le_more, older_nonneg, Forall_drop. Qed.

(** A path is charged for at least what was reclaimed of it before the commit. *)
Lemma reclaim_before_le p vs version o floor : Forall size_ok (history_document_sizes (vs ++ [(version, o)])) -> usage_le (reclaim_charge p vs floor) (entry_charge (p, vs ++ [(version, o)])).
Proof.
  rewrite sizes_snoc, Forall_app, Forall_singleton. intros [Hs Ho]. unfold entry_charge. cbn [fst snd]. rewrite sizes_snoc, path_charge_snoc. pose proof (newest_nonneg p (logical_bytes <$> o) Ho) as Hn. unfold reclaim_charge.
  destruct (dead _ _) eqn:Hd.
  - unfold entry_charge. cbn [fst snd]. destruct (exists_last_dec vs) as [->|(init & [v b] & ->)]; [apply usage_le_none, plus_nonneg; [by apply older_nonneg|done]|].
    assert (Hb : b = None). { destruct b as [r|]; [|done]. exfalso. set (cut := floor_cut _ _) in Hd. pose proof (floor_cut_lt (init ++ [(v, Some r)]) floor) as Hl. fold cut in Hl. rewrite length_app in Hl. cbn [length] in Hl.
      specialize (Hl ltac:(by destruct init)). rewrite drop_app_le in Hd by lia. destruct (drop cut init) as [|[v' [r'|]] [|]]; done. }
    subst b. rewrite sizes_snoc, path_charge_snoc. cbn [fmap option_fmap option_map] in *. rewrite older_app, older_one, plus_assoc. apply usage_le_plus; [apply usage_le_refl|]. revert Ho Hn. generalize (logical_bytes <$> o). intros size Ho Hn.
    pose proof (path_index_mono p (bool_decide (is_Some size))) as Hindex. unfold size_ok in Ho. unfold newest_charge in *. change (bool_decide (is_Some (@None Z))) with false. apply nonneg_components in Hn. destruct size; unfold usage_le; plain_usage; cbn [default from_option id] in *; lia.
  - eapply usage_le_trans; [rewrite sizes_take; by apply older_take_le|]. rewrite plus_comm. by apply usage_le_more.
Qed.

Lemma reclaim_after_le top p vs floor : FsHistory.entry_ok top p vs -> usage_le (reclaim_charge p vs floor) (entry_charge (p, vs)).
Proof.
  intros Hok. pose proof Hok as (Hne & _). rewrite (reclaim_splits p vs floor Hne), plus_comm. apply usage_le_more. destruct (compacted floor vs) as [kept|] eqn:Hc; cbn [kept_charge from_option]; [|repeat constructor; done].
  apply path_charge_nonneg, (entry_sizes_ok top p). by apply (compacted_ok top p vs floor).
Qed.

(** What the changes of a commit reclaim, before and after they are published. *)
Section staged.
Context (d d' : Documents) (Hwf : docs_wf d) (Hwf' : docs_wf d').

(** The change appended one version to its path. *)
Definition appended (c : StagedChange) : Prop := history d' !! change_path c = Some (default [] (history d !! change_path c) ++ [(projected_version d, c.2)]).

Definition charge_after (p : DocumentPath) : HistoryUsage := entry_charge (p, default [] (history d' !! p)).

Lemma charge_after_nonneg p : nonneg_usage (charge_after p).
Proof. unfold charge_after. destruct (history d' !! p) as [vs|] eqn:Hp; [|repeat constructor; done]. apply path_charge_nonneg, (entry_sizes_ok (current_version d') p). by apply (wf_entries d' Hwf'). Qed.

Lemma reclaim_at_before floor c : appended c -> usage_le (reclaim_at (history d) floor (change_path c)) (charge_after (change_path c)).
Proof.
  intros Hc. unfold reclaim_at, charge_after. pose proof (wf_entries d' Hwf' _ _ Hc) as Hok%entry_sizes_ok. rewrite Hc. by apply reclaim_before_le.
Qed.

Lemma reclaim_at_after floor p : usage_le (reclaim_at (history d') floor p) (charge_after p).
Proof.
  unfold reclaim_at, charge_after. destruct (history d' !! p) as [vs|] eqn:Hp; [|apply usage_le_refl]. by apply (reclaim_after_le (current_version d')), (wf_entries d' Hwf').
Qed.

Lemma projected_change floor c : appended c ->
  projected_history_path_reclaim_unsaturated (change_path c) (default [] (history d !! change_path c)) (logical_bytes <$> c.2) (projected_version d) floor = bounded (reclaim_at (history d') floor (change_path c)).
Proof.
  intros Hc. rewrite projected_reclaim_pushed.
  - unfold reclaim_at. rewrite Hc. apply (reclaim_bounded (current_version d')). by apply (wf_entries d' Hwf').
  - destruct (wf_entries d' Hwf' _ _ Hc) as (_ & Hs & _). apply StronglySorted_app in Hs as (Hlt & _ & _). apply Forall_forall. intros e He. apply (Hlt e (projected_version d, c.2)); [done|by apply list_elem_of_singleton].
Qed.

Lemma below_left a b c : nonneg_usage c -> usage_le a b -> Forall (fun x => x < int_max u64) (components (plus_usage b c)) -> Forall (fun x => x < int_max u64) (components (plus_usage a c)).
Proof. intros Hc Hle. apply usage_le_below. by apply usage_le_plus, usage_le_refl. Qed.

(** Change by change, the reclaim before is replaced by the reclaim after. *)
Lemma change_reclaim_fold floor staged : (forall c, c ∈ staged -> appended c) -> forall x u, nonneg_usage x ->
  components u = components (bounded (plus_usage x (sum_usage (map (fun c => reclaim_at (history d) floor (change_path c)) staged)))) ->
  Forall (fun v => v < int_max u64) (components (plus_usage x (sum_usage (map (fun c => charge_after (change_path c)) staged)))) ->
  components (fold_left (change_reclaim d true floor) staged u) = components (bounded (plus_usage x (sum_usage (map (fun c => reclaim_at (history d') floor (change_path c)) staged)))).
Proof.
  induction staged as [|[[p before] after] staged IH]; intros Happ x u Hx Hu Hmax; cbn [fold_left map]; [exact Hu|]. pose proof (Happ (p, before, after) ltac:(by left)) as Hc.
  pose proof (reclaim_at_before floor _ Hc) as Hle. pose proof (reclaim_at_after floor p) as Hle'. pose proof (projected_change floor _ Hc) as Hproj. cbn [map] in Hu, Hmax. rewrite sum_usage_cons in *. change (change_path (p, before, after)) with p in *. cbn [snd] in Hproj.
  pose proof (reclaim_at_nonneg (history d) _ (wf_entries d Hwf) floor p) as Hr. pose proof (reclaim_at_nonneg (history d') _ (wf_entries d' Hwf') floor p) as Hr'.
  set (rest := sum_usage (map _ staged)) in Hu. set (bound := sum_usage (map _ staged)) in Hmax.
  assert (Hrest : nonneg_usage rest) by (apply sum_usage_nonneg, Forall_map, Forall_true; intros c; apply (reclaim_at_nonneg (history d) _ (wf_entries d Hwf))).
  assert (Hrb : usage_le rest bound) by (apply sum_usage_le; intros c Hin; apply reclaim_at_before, Happ; by right).
  assert (Hb : nonneg_usage bound) by (apply sum_usage_nonneg, Forall_map, Forall_true; intros c; apply charge_after_nonneg).
  assert (Hstep : change_reclaim d true floor u (p, before, after) = bounded (plus_usage (plus_usage x (reclaim_at (history d') floor p)) rest)).
  { unfold change_reclaim. rewrite path_reclaim_bounded, Hproj by done. assert (Hcomm : plus_usage x (plus_usage (reclaim_at (history d) floor p) rest) = plus_usage (plus_usage x rest) (reclaim_at (history d) floor p)) by (apply usage_ext; plain_usage; lia).
    rewrite Hcomm in Hu. rewrite (subtract_components u _ _ _ Hu eq_refl), subtract_part, add_bounded; [f_equal; apply usage_ext; plain_usage; lia|by apply plus_nonneg|done|by apply plus_nonneg|done|].
    eapply usage_le_below; [|exact Hmax]. rewrite <- Hcomm. apply usage_le_plus, usage_le_plus; [apply usage_le_refl|done|done]. }
  rewrite Hstep. rewrite (IH ltac:(intros c Hin; apply Happ; by right) (plus_usage x (reclaim_at (history d') floor p))).
  - by rewrite plus_assoc.
  - by apply plus_nonneg.
  - done.
  - rewrite plus_assoc. eapply usage_le_below; [|exact Hmax]. apply usage_le_plus, usage_le_plus; [apply usage_le_refl|done|apply usage_le_refl].
Qed.
End staged.

Lemma take_while_app_stop {A} (f : A -> bool) l m : (forall x, x ∈ m -> f x = false) -> take_while f (l ++ m) = take_while f l.
Proof.
  intros H. induction l as [|x l IH]; cbn; [|by destruct (f x); [f_equal|]]. destruct m as [|y m]; [done|]. cbn. by rewrite H by by left.
Qed.

(** The documents after a commit, before it compacts: its changes are appended, its commit time is the last. *)
Record published (d d' : Documents) (staged : list StagedChange) : Prop := {
  pb_nodup : NoDup (map change_path staged);
  pb_history : history d' = pushed (projected_version d) staged (history d);
  pb_times : exists extra, commit_times d' = commit_times d ++ extra /\ forall e, e ∈ extra -> e.1 = projected_version d;
  pb_floor : compaction_floor d' = compaction_floor d }.

Section published.
Context (d d' : Documents) (staged : list StagedChange) (floor : CommitVersion).
Context (Hwf : docs_wf d) (Hwf' : docs_wf d') (Hpub : published d d' staged) (Hfloor : floor <= projected_version d).

Let changed : list DocumentPath := map change_path staged.
Let rest : list DocumentPath := filter (fun p => p ∉ changed) (retained_paths (history d')).

Lemma published_lookup p : p ∉ changed -> history d' !! p = history d !! p.
Proof. intros Hp. rewrite (pb_history _ _ _ Hpub). destruct (lookup_pushed (projected_version d) staged (pb_nodup _ _ _ Hpub) (history d)) as [H _]. by apply H. Qed.

Lemma published_appended c : c ∈ staged -> appended d d' c.
Proof. intros Hc. unfold appended. rewrite (pb_history _ _ _ Hpub). destruct (lookup_pushed (projected_version d) staged (pb_nodup _ _ _ Hpub) (history d)) as [_ H]. by apply H. Qed.

Lemma changed_retained p : p ∈ changed -> p ∈ retained_paths (history d').
Proof. intros (c & -> & Hc)%list_elem_of_fmap. apply elem_of_retained_paths. rewrite (published_appended c Hc). by eexists. Qed.

Lemma elem_of_parts p : p ∈ changed ++ rest <-> p ∈ retained_paths (history d').
Proof.
  unfold rest. rewrite elem_of_app, list_elem_of_filter. split; [intros [Hp|[_ Hp]]; [by apply changed_retained|done]|]. intros Hp. destruct (decide (p ∈ changed)); [by left|by right].
Qed.

Lemma parts_nodup : NoDup (changed ++ rest).
Proof. apply NoDup_app. split_and!; [apply Hpub| |apply NoDup_filter, retained_nodup]. intros p Hp. unfold rest. rewrite list_elem_of_filter. tauto. Qed.

Lemma sum_parts (r : DocumentPath -> HistoryUsage) : sum_usage (map r (retained_paths (history d'))) = plus_usage (sum_usage (map r rest)) (sum_usage (map (fun c => r (change_path c)) staged)).
Proof.
  rewrite (sum_support r _ (changed ++ rest)); [|apply retained_nodup|apply parts_nodup|intros p Hp Hn; destruct Hn; by apply elem_of_parts|intros p Hp Hn; destruct Hn; by apply elem_of_parts].
  rewrite map_app, sum_usage_app, plus_comm. unfold changed. by rewrite map_map.
Qed.

Lemma reclaim_before_parts : history_reclaim (history d) floor = plus_usage (sum_usage (map (reclaim_at (history d) floor) rest)) (sum_usage (map (fun c => reclaim_at (history d) floor (change_path c)) staged)).
Proof.
  rewrite <- (sum_parts (reclaim_at (history d) floor)). apply sum_support; [apply retained_nodup..| |].
  - intros p [vs Hp]%elem_of_retained_paths Hn. destruct (decide (p ∈ changed)) as [Hc|Hc]; [by destruct Hn; apply changed_retained|]. destruct Hn. apply elem_of_retained_paths. rewrite published_lookup by done. by exists vs.
  - intros p _ Hn. apply reclaim_at_none. destruct (history d !! p) as [vs|] eqn:E; [|done]. destruct Hn. apply elem_of_retained_paths. by exists vs.
Qed.

Lemma rest_same (r : gmap DocumentPath Versions -> DocumentPath -> HistoryUsage) : (forall h h' p, h !! p = h' !! p -> r h p = r h' p) -> sum_usage (map (r (history d)) rest) = sum_usage (map (r (history d')) rest).
Proof. intros Hr. f_equal. apply map_ext_in. intros p [Hp _]%list_elem_of_In%list_elem_of_filter. apply Hr. by rewrite published_lookup. Qed.

Lemma published_dropped : dropped_times floor d' = dropped_times floor d.
Proof. destruct (pb_times _ _ _ Hpub) as (extra & Hx & Hv). unfold dropped_times. rewrite Hx, take_while_app_stop; [done|]. intros e He. rewrite (Hv e He). lia. Qed.

Lemma arrange_le a a' b k n : usage_le a a' -> k <= n -> usage_le (plus_usage (plus_usage a (times_charge k)) b) (plus_usage (plus_usage a' b) (times_charge n)).
Proof. intros H Hk. unfold times_charge, with_commit_times, no_usage. usage_lia. Qed.

(** The reclaim that is projected from before the commit is the reclaim of the documents after it. *)
Lemma released_exact base : components base = components (bounded (released_charge d floor)) -> below_max (documents_charge d') ->
  components (fold_left (change_reclaim d true floor) staged base) = components (bounded (released_charge d' floor)).
Proof.
  intros Hbase [Hmax _]. set (x := plus_usage (sum_usage (map (reclaim_at (history d) floor) rest)) (times_charge (dropped_times floor d))).
  assert (Hx : nonneg_usage x) by (apply plus_nonneg; [apply sum_usage_nonneg, Forall_map, Forall_true; intros p; apply (reclaim_at_nonneg _ (current_version d)), (wf_entries d Hwf)|apply times_charge_nonneg, dropped_times_le]).
  assert (Hafter : released_charge d' floor = plus_usage x (sum_usage (map (fun c => reclaim_at (history d') floor (change_path c)) staged))).
  { unfold released_charge, history_reclaim. rewrite sum_parts, published_dropped. subst x. rewrite (rest_same (fun h => reclaim_at h floor)) by (intros h h' p E; unfold reclaim_at; by rewrite E). apply usage_ext; plain_usage; lia. }
  rewrite Hafter. apply (change_reclaim_fold d d' Hwf Hwf'); [apply published_appended|exact Hx| |].
  - rewrite Hbase. unfold released_charge. rewrite reclaim_before_parts. subst x. do 2 f_equal. apply usage_ext; plain_usage; lia.
  - eapply usage_le_below; [|exact Hmax]. unfold documents_charge. rewrite history_charge_paths. rewrite (sum_parts (fun p => entry_charge (p, default [] (history d' !! p)))). subst x.
    rewrite (rest_same (fun h => reclaim_at h floor)) by (intros h h' p E; unfold reclaim_at; by rewrite E).
    assert (Hrest : usage_le (sum_usage (map (reclaim_at (history d') floor) rest)) (sum_usage (map (fun p => entry_charge (p, default [] (history d' !! p))) rest))) by (apply sum_usage_le; intros p _; by apply reclaim_at_after).
    pose proof (dropped_times_le d floor) as Hd. destruct (pb_times _ _ _ Hpub) as (extra & Hlen & _). apply (f_equal length) in Hlen. rewrite length_app in Hlen.
    apply arrange_le; [exact Hrest|lia].
Qed.
End published.

(** ** The ceiling *)

Lemma retained_antitone d floor floor' : docs_wf d -> floor <= floor' -> usage_le (retained_charge d floor') (retained_charge d floor).
Proof.
  intros Hwf Hle. pose proof (history_kept_antitone (current_version d) (history d) floor floor' (wf_entries d Hwf) Hle) as Hk.
  assert (Hd : dropped_times floor d <= dropped_times floor' d).
  { unfold dropped_times. enough (length (take_while (fun e : CommitVersion * LogicalInstant => (e.1 <? floor)%Z) (commit_times d)) <= length (take_while (fun e : CommitVersion * LogicalInstant => (e.1 <? floor')%Z) (commit_times d)))%nat by lia.
    induction (commit_times d) as [|e l IH]; [done|]. cbn. destruct (Z.ltb_spec e.1 floor); [|cbn; lia]. rewrite (proj2 (Z.ltb_lt _ _)) by lia. cbn. lia. }
  unfold retained_charge, times_charge, with_commit_times, no_usage. usage_lia.
Qed.

(** A compaction leaves what its floor keeps. *)
Lemma compacted_retained d floor : docs_wf d -> settled d -> floor <= current_version d -> documents_charge (compact_to floor d).1 = retained_charge d (Z.max floor (compaction_floor d)).
Proof.
  intros Hwf Hs Hle. destruct (Z.le_gt_cases floor (compaction_floor d)) as [Hsmall|Hlt].
  - unfold compact_to. rewrite (proj2 (Z.leb_le _ _)) by done. cbn [fst]. rewrite Z.max_r by done. rewrite (documents_split d (compaction_floor d)), released_settled by done. by apply plus_none.
  - pose proof (compact_to_spec d floor Hwf ltac:(lia)) as Hspec. destruct (compact_to floor d) as [d' removed]. cbn [fst]. destruct Hspec as (_ & Hh & _ & _ & _ & _ & Ht & _). rewrite Z.max_l by lia.
    unfold documents_charge, retained_charge. rewrite Hh, Ht, (compacted_charge _ floor). do 2 f_equal. unfold dropped_times. pose proof (f_equal length (take_drop_while (fun e : CommitVersion * LogicalInstant => e.1 <? floor) (commit_times d))) as Hlen. rewrite length_app in Hlen. lia.
Qed.

Lemma compact_settled d floor : docs_wf d -> settled d -> floor <= current_version d -> settled (compact_to floor d).1.
Proof.
  intros Hwf Hs Hle. destruct (Z.le_gt_cases floor (compaction_floor d)) as [Hsmall|Hlt]; [unfold compact_to; by rewrite (proj2 (Z.leb_le _ _))|].
  pose proof (compact_to_spec d floor Hwf ltac:(lia)) as Hspec. destruct (compact_to floor d) as [d' removed]. cbn [fst]. destruct Hspec as (_ & Hh & Hf & _). intros p vs. rewrite Hh, lookup_omap, Hf. intros (vs0 & Hp & Hc)%bind_Some.
  by apply (compacted_idempotent (current_version d) p vs0); [apply (wf_entries d Hwf)|].
Qed.

(** A new version leaves nothing to drop at the floor before it. *)
Lemma published_settled d d' staged : docs_wf d -> docs_wf d' -> settled d -> published d d' staged -> current_version d < int_max u64 -> settled d'.
Proof.
  intros Hwf Hwf' Hs Hpub Hroom p vs Hp. pose proof (wf_entries d' Hwf' p vs Hp) as (Hne & Hsorted & _). destruct (wf_floors d Hwf) as [[F1 F2] _]. rewrite (pb_floor _ _ _ Hpub).
  assert (Hv : compaction_floor d < projected_version d) by (unfold projected_version; rewrite saturating_id by (unfold fits; cbn [int_min int_max u64] in *; lia); lia).
  destruct (decide (p ∈ map change_path staged)) as [Hin|Hout]; [|apply (Hs p); by rewrite <- (published_lookup d d' staged Hpub)].
  apply list_elem_of_fmap in Hin as (c & -> & Hc). pose proof (published_appended d d' staged Hpub c Hc) as Happ. unfold appended in Happ. assert (Heq : vs = default [] (history d !! change_path c) ++ [(projected_version d, c.2)]) by congruence.
  apply compacted_threshold; [done|done|]. intros v. destruct (history d !! change_path c) as [old|] eqn:Hold; cbn [default from_option id] in Heq; rewrite Heq.
  - destruct (wf_entries d Hwf _ _ Hold) as (Hne0 & Hs0 & _). pose proof (Hs _ _ Hold) as Hcold. rewrite compacted_threshold in Hcold by done. destruct old as [|e [|e' old]]; [done| |].
    + cbn. by intros [= <-].
    + intros Hthr. by apply Hcold.
  - cbn. destruct c.2; [done|]. by intros [= <-].
Qed.

Lemma certified_start d staged u floor : docs_wf d -> projected_uncompacted_usage d staged = (u, floor, true) -> NoDup (map change_path staged) ->
  (forall c, c ∈ staged -> path_ok (change_path c) /\ c.1.2 = (vs ← history d !! change_path c; newest vs)) -> history_accounting_exact d = true.
Proof.
  intros Hwf Hproj Hnd Hc. unfold projected_uncompacted_usage in Hproj. set (times := match staged with [] => _ | _ => _ end) in Hproj. destruct times as [[count bytes] exact0] eqn:Htimes.
  destruct (fold_left (charge_change d) staged _) as [[u1 floor1] exact1] eqn:Hfold. injection Hproj as <- <- Hexact. apply andb_true_iff in Hexact as [-> Hu].
  destruct (charge_fold_exact d 0 staged ltac:(intros p vs Hp; by destruct (wf_entries d Hwf p vs Hp)) _ _ _ _ _ (history d) Hfold Hnd) as [-> _]; [intros c Hin; destruct (Hc c Hin); by split_and!|].
  subst times. destruct staged; [by injection Htimes as _ _ ->|]. unfold certified_history_add in Htimes. injection Htimes as _ _ He. by certified.
Qed.

(** While it is certified, the ceiling of a commit is what its own floor keeps of the documents after it. *)
Lemma ceiling_exact s staged now u after s0 d' : docs_wf (docs s) -> settled (docs s) -> forecast_ok (docs s) -> current_version (docs s) < int_max u64 -> staged_ok (docs s) staged ->
  docs_wf d' -> published (docs s) d' staged -> Z.of_nat (length (commit_times d')) = Z.of_nat (length (commit_times (docs s))) + (match staged with [] => 0 | _ => 1 end) ->
  projected_history_usage staged now s = (u, after, true, s0) ->
  exists capacity, projected_uncompacted_usage (docs s) staged = (u, capacity, true) /\ history_accounting_exact (docs s) = true /\
    after = bounded (retained_charge d' (projected_retention_floor (docs s) (oldest_projected now (ledger s)) capacity (match staged with [] => current_version (docs s) | _ => projected_version (docs s) end) now)).
Proof.
  intros Hwf Hs Hf Hroom Hstaged Hwf' Hpub Hlen. unfold projected_history_usage. cbv zeta. destruct (projected_uncompacted_usage (docs s) staged) as [[u0 capacity] exact] eqn:Hproj.
  set (floor := projected_retention_floor _ _ _ _ _). destruct (base_compaction_reclaim floor (docs s)) as [base d0] eqn:Hbase. intros [= <- <- Hexact _]. apply andb_true_iff in Hexact as [-> Hu]. exists capacity. split; [done|].
  assert (Hc : forall c, c ∈ staged -> path_ok (change_path c) /\ c.1.2 = (vs ← history (docs s) !! change_path c; newest vs)) by (intros c Hin; split; [by apply (sk_path _ _ Hstaged)|by apply (sk_change _ _ Hstaged c)]).
  pose proof (certified_start _ _ _ _ Hwf Hproj (sk_nodup _ _ Hstaged) Hc) as Hcert. split; [done|].
  destruct (projected_exact (docs s) d' (projected_version (docs s)) staged u0 capacity Hwf Hproj (sk_nodup _ _ Hstaged) Hc (pb_history _ _ _ Hpub) Hlen) as [Hu0 Hmax].
  { apply plus_nonneg; [by apply (history_charge_nonneg (current_version d')), (wf_entries d' Hwf')|apply times_charge_nonneg; lia]. }
  rewrite Hu. cbn [andb]. assert (Hle : floor <= projected_version (docs s)).
  { subst floor. unfold projected_retention_floor. destruct (wf_floors _ Hwf) as [[? ?] _]. unfold projected_version. rewrite saturating_id by (unfold fits; cbn [int_min int_max u64] in *; lia). destruct staged; lia. }
  pose proof (base_exact (docs s) floor Hwf Hcert Hs Hf) as Hb. rewrite Hbase in Hb. cbn [fst] in Hb. pose proof (released_exact (docs s) d' staged floor Hwf Hwf' Hpub Hle base Hb Hmax) as Hrel.
  rewrite (subtract_components _ _ _ _ eq_refl Hrel), Hu0. rewrite (documents_split d' floor Hwf') in *. apply subtract_part; [by apply retained_nonneg|by apply released_nonneg|apply Hmax].
Qed.
