(* ===== verification/FsReserve.v ===== *)
(** * A commit stays within its reservation

    Before a commit is published, [FsStore.v] projects the usage of the history once it has
    compacted, checks it against the limits and hands it to the admission of coupled events as a
    ceiling.  While the accounting is certified, the history that remains is within that ceiling,
    and so within the limits of the database, in every state that requests reach. *)
From S2P Require Import Prelude Time Text Ids Hash FsFieldPath FsValue FsDocPath FsSize FsDocument FsValidate FsFilter FsQuery FsSelect FsListing FsUsage FsHistory FsScope FsLedger FsLedgerWf FsTransaction FsRun FsStore FsPublish FsCommit FsReach FsReclaim.
#[local] Set Warnings "-register-all".

(** ** The documents that a commit publishes *)

Lemma refresh_form p d : exists c t, refresh_reclaim_threshold p d = set_thresholds c t d.
Proof. unfold refresh_reclaim_threshold. case_bool_decide; [exists (compactable d), (reclaim_thresholds d); by destruct d|]. destruct (history d !! p ≫= _); by eexists _, _. Qed.

(** The capacity floor after one change. *)
Definition change_floor (d : Documents) (floor : CommitVersion) (c : StagedChange) : CommitVersion :=
  let existing := default [] (history d !! change_path c) in
  let evicted := (length existing + 1 - max_versions_per_path d)%nat in
  if (0 <? evicted)%nat then Z.max floor (from_option fst (projected_version d) (existing !! evicted)) else floor.

Lemma charged_floor d u floor exact c : (charge_change d (u, floor, exact) c).1.2 = change_floor d floor c.
Proof. destruct c as [[p before] after]. unfold charge_change, change_floor, change_path, certified_history_add, certified_history_sub. cbn [fst snd]. destruct (history d !! p), before, after; reflexivity. Qed.

Lemma charged_floors d changes : forall u floor exact, (fold_left (charge_change d) changes (u, floor, exact)).1.2 = fold_left (change_floor d) changes floor.
Proof.
  induction changes as [|c changes IH]; intros u floor exact; [done|]. cbn [fold_left]. pose proof (charged_floor d u floor exact c) as H. destruct (charge_change d (u, floor, exact) c) as [[u1 floor1] exact1]. cbn [fst snd] in H. subst floor1. apply IH.
Qed.

Lemma projected_capacity d staged : (projected_uncompacted_usage d staged).1.2 = fold_left (change_floor d) staged (capacity_floor d).
Proof.
  unfold projected_uncompacted_usage. destruct (match staged with [] => _ | _ => _ end) as [[count bytes] exact]. rewrite <- (charged_floors d staged (with_commit_times (history_usage d) count bytes) (capacity_floor d) exact). by destruct (fold_left _ _ _) as [[u floor] e].
Qed.

(** What one change leaves of the other fields. *)
Record step_fields (d d' : Documents) : Prop := {
  sf_version : current_version d' = current_version d;
  sf_times : commit_times d' = commit_times d;
  sf_compaction : compaction_floor d' = compaction_floor d;
  sf_bound : max_versions_per_path d' = max_versions_per_path d;
  sf_limits : history_limits d' = history_limits d;
  sf_usage : history_usage d' = history_usage d;
  sf_exact : history_accounting_exact d' = history_accounting_exact d;
  sf_forecast : compaction_forecast d' = compaction_forecast d }.

Lemma step_refl d : step_fields d d.
Proof. by split. Qed.

Lemma step_trans d1 d2 d3 : step_fields d1 d2 -> step_fields d2 d3 -> step_fields d1 d3.
Proof. intros [] []. split; congruence. Qed.

Lemma publish_change_fields version s c d : (0 < max_versions_per_path (docs s))%nat -> max_versions_per_path (docs s) = max_versions_per_path d -> history (docs s) !! change_path c = history d !! change_path c -> version = projected_version d ->
  let s' := publish_change version s c in
  step_fields (docs s) (docs s') /\ history (docs s') = push_change version (history (docs s)) c /\ capacity_floor (docs s') = change_floor d (capacity_floor (docs s)) c.
Proof.
  destruct c as [[p before] after]. unfold change_path. cbn [fst snd]. intros Hpos Hmax Hp Hv. unfold publish_change. cbn zeta. set (h := <[p := _]> _). set (d1 := set_history h (docs s)).
  assert (Hh : history d1 = push_change version (history (docs s)) (p, before, after)) by done. destruct (refresh_form p (record_capacity_pressure p d1)) as (cm & tm & ->). cbn [docs].
  unfold record_capacity_pressure, change_floor, change_path. cbn [fst]. rewrite <- Hp, <- Hmax.
  assert (Hl : history d1 !! p = Some (default [] (history (docs s) !! p) ++ [(version, after)])) by apply lookup_insert_eq. rewrite Hl, length_app. cbn [length]. set (existing := default [] _).
  change (max_versions_per_path d1) with (max_versions_per_path (docs s)) in *. destruct (Nat.leb_spec (length existing + 1) (max_versions_per_path (docs s))) as [Hle|Hgt].
  - rewrite (proj2 (Nat.ltb_ge _ _)) by lia. split_and!; [by split|done|done].
  - rewrite (proj2 (Nat.ltb_lt _ _)) by lia. split_and!; [by split|done|]. cbn [set_thresholds set_floors capacity_floor]. change (capacity_floor d1) with (capacity_floor (docs s)). f_equal.
    destruct (decide (length existing + 1 - max_versions_per_path (docs s) < length existing)%nat) as [Hin|Hout].
    + rewrite lookup_app_l by done. destruct (lookup_lt_is_Some_2 _ _ Hin) as [e ->]. done.
    + assert (Heq : (length existing + 1 - max_versions_per_path (docs s) = length existing)%nat) by lia. rewrite Heq, (list_lookup_middle existing [] _ (length existing)) by done. rewrite (lookup_ge_None_2 existing) by lia. by rewrite <- Hv.
Qed.

Lemma publish_fold_fields version d changes : version = projected_version d -> forall s, NoDup (map change_path changes) -> (0 < max_versions_per_path d)%nat -> max_versions_per_path (docs s) = max_versions_per_path d ->
  (forall c, c ∈ changes -> history (docs s) !! change_path c = history d !! change_path c) ->
  let s' := fold_left (publish_change version) changes s in
  step_fields (docs s) (docs s') /\ history (docs s') = pushed version changes (history (docs s)) /\ capacity_floor (docs s') = fold_left (change_floor d) changes (capacity_floor (docs s)).
Proof.
  intros Hv. induction changes as [|c changes IH]; intros s Hnd Hpos Hmax Hh; [split_and!; [apply step_refl|done|done]|]. cbn [map] in Hnd. apply NoDup_cons in Hnd as [Hin Hnd]. cbn [fold_left].
  destruct (publish_change_fields version s c d) as (P1 & P2 & P3); [by rewrite Hmax|done|apply Hh; by left|done|]. set (s1 := publish_change version s c) in *. destruct (IH s1 Hnd Hpos) as (Q1 & Q2 & Q3).
  - rewrite (sf_bound _ _ P1). done.
  - intros c' Hc'. rewrite P2. unfold push_change. rewrite lookup_insert_ne; [apply Hh; by right|]. intros Heq. apply Hin. rewrite Heq. apply list_elem_of_fmap. by exists c'.
  - split_and!; [by eapply step_trans|by rewrite Q2, P2|by rewrite Q3, P3].
Qed.

(** The published documents: everything that the projection of the commit foresaw. *)
Lemma publish_published s time (snapshot : bool) usage exact staged : docs_wf (docs s) -> current_version (docs s) < int_max u64 -> staged_ok (docs s) staged -> (if snapshot then staged = [] else True) ->
  let d' := docs (publish time snapshot usage exact staged s) in
  published (docs s) d' staged /\ (exists extra, commit_times d' = commit_times (docs s) ++ extra /\ length extra = (match staged with [] => 0 | _ => 1 end)%nat) /\
  capacity_floor d' = (projected_uncompacted_usage (docs s) staged).1.2 /\ history_usage d' = usage /\ history_accounting_exact d' = exact /\ compaction_forecast d' = None /\ history_limits d' = history_limits (docs s) /\
  current_version d' = match staged with [] => current_version (docs s) | _ => projected_version (docs s) end.
Proof.
  intros Hwf Hroom Hstaged Hsnap. rewrite projected_capacity. assert (Hv : next_version (docs s) = projected_version (docs s)).
  { rewrite next_version_id by done. unfold projected_version. destruct (wf_floors _ Hwf) as [[? ?] _]. by rewrite saturating_id by (unfold fits; cbn [int_min int_max u64] in *; lia). }
  unfold publish. destruct staged as [|c staged].
  - destruct snapshot; cbn [docs with_docs]; (split_and!; [split; [apply NoDup_nil_2|done|exists []; rewrite app_nil_r; split; [done|by intros e ?%not_elem_of_nil]|done]|exists []; by rewrite app_nil_r|done..]).
  - destruct snapshot; [done|]. cbn zeta. set (v := next_version _). assert (Hv' : v = projected_version (docs s)) by exact Hv. clearbody v. subst v. set (s0 := with_docs _ s). destruct (publish_fold_fields (projected_version (docs s)) (docs s) (c :: staged) eq_refl s0 (sk_nodup _ _ Hstaged) (wf_bound _ Hwf) eq_refl ltac:(done)) as (F1 & F2 & F3).
    set (s' := fold_left _ _ s0) in *. destruct F1 as [G1 G2 G3 G4 G5 G6 G7 G8]. split_and!; rewrite ?G1, ?G2, ?G5, ?G6, ?G7, ?G8; try done.
    + split; [apply Hstaged|exact F2| |by rewrite G3]. exists [(projected_version (docs s), time)]. rewrite G2. split; [done|]. by intros e ->%list_elem_of_singleton.
    + by exists [(projected_version (docs s), time)].
Qed.

(** ** The floors before and after *)

Lemma time_version d i e : docs_wf d -> commit_times d !! i = Some e -> e.1 = Z.max 1 (compaction_floor d) + Z.of_nat i.
Proof.
  intros Hwf Hi. destruct (wf_times d Hwf) as (Hv & _). assert (Hl : map fst (commit_times d) !! i = Some e.1) by by rewrite list_lookup_fmap, Hi. rewrite Hv in Hl. apply lookup_seqZ in Hl. lia.
Qed.

Lemma partition_point_app_le {A} (f : A -> bool) l m : (partition_point f l <= partition_point f (l ++ m))%nat.
Proof. induction l as [|x l IH]; cbn; [lia|]. destruct (f x); lia. Qed.

Lemma version_at_ge d at_ : docs_wf d -> compaction_floor d <= version_at d at_.
Proof.
  intros Hwf. unfold version_at. destruct (partition_point _ _) as [|i]; [done|]. destruct (commit_times d !! i) as [e|] eqn:E; cbn [from_option]; [|done]. rewrite (time_version d i e) by done. destruct (wf_floors d Hwf). lia.
Qed.

(** A later commit never moves the version of a time back. *)
Lemma version_at_later d d' extra at_ : docs_wf d -> docs_wf d' -> compaction_floor d' = compaction_floor d -> commit_times d' = commit_times d ++ extra -> version_at d at_ <= version_at d' at_.
Proof.
  intros Hwf Hwf' Hf Ht. pose proof (version_at_ge d' at_ Hwf') as Hge. pose proof (partition_point_app_le (time_at_or_before at_) (commit_times d) extra) as Hpp. rewrite <- Ht in Hpp. unfold version_at at 1. destruct (partition_point (time_at_or_before at_) (commit_times d)) as [|i] eqn:Hi; [lia|].
  unfold version_at in *. destruct (partition_point (time_at_or_before at_) (commit_times d')) as [|j] eqn:Hj; [lia|]. pose proof (partition_point_le (time_at_or_before at_) (commit_times d)). pose proof (partition_point_le (time_at_or_before at_) (commit_times d')).
  destruct (lookup_lt_is_Some_2 (commit_times d) i) as [e He]; [lia|]. destruct (lookup_lt_is_Some_2 (commit_times d') j) as [e' He']; [lia|]. rewrite He, He'. cbn [from_option]. rewrite (time_version d i e), (time_version d' j e') by done. lia.
Qed.

Lemma least_below v l : v ∈ l -> exists m, foldr (fun v least => match least with Some m => Some (Z.min v m) | None => Some v end) None l = Some m /\ m <= v.
Proof.
  induction l as [|x l IH]; [by intros ?%not_elem_of_nil|]. intros [->|Hin]%elem_of_cons; cbn [foldr].
  - destruct (foldr _ _ l) as [m|]; eexists; (split; [done|lia]).
  - destruct (IH Hin) as (m & -> & Hle). eexists. split; [done|lia].
Qed.

Lemma total_positive w m : total w m <> 0 -> exists id t, m !! id = Some t /\ w t <> 0.
Proof.
  intros H. destruct (decide (Forall (fun e : TransactionId * Transaction => w e.2 = 0) (map_to_list m))) as [Hz|Hn].
  - destruct H. unfold total, z_sum. clear -Hz. induction Hz as [|e l He _ IH]; cbn; [done|]. rewrite He, IH. done.
  - apply not_Forall_Exists in Hn; [|intros e; apply _]. apply Exists_exists in Hn as ([id t] & Hin%elem_of_map_to_list & Hw). by exists id, t.
Qed.

(** The version that the oldest open transaction reads is foreseen. *)
Lemma oldest_foreseen now l l1 v : ledger_wf l -> ledger_wf l1 -> closes l l1 -> oldest_reading (prune_transactions now l1).2 = Some v -> exists m, oldest_projected now l = Some m /\ m <= v.
Proof.
  intros Hwf Hwf1 [(Hscope & _) Hclose] Hold. pose proof (prune_wf now l1 Hwf1) as Hwf2. destruct (prune_open now l1 Hwf1) as [_ Hopen]. set (l2 := (prune_transactions now l1).2) in *.
  unfold oldest_reading in Hold. apply fmap_Some in Hold as ([v' n] & Hhead & ->). cbn [fst] in *. apply head_Some_elem_of, elem_of_btree_map_iter in Hhead.
  destruct (to_versions _ (lw_totals _ Hwf2) v') as [Htot Hnz]. rewrite Hhead in Htot, Hnz. cbn [default from_option id] in Htot. destruct (total_positive (one_reading v') (transactions l2)) as (id & t & Ht & Hw); [rewrite <- Htot; congruence|].
  unfold one_reading in Hw. destruct (is_active t) eqn:Ha; [|done]. destruct (Z.eqb_spec (read_version t) v') as [Hv|]; [|done]. assert (Ho : open l2 id = Some t) by by apply open_Some. rewrite Hopen in Ho.
  destruct (open l1 id) as [t1|] eqn:Ho1; [|done]. cbn in Ho. destruct (Z.leb_spec (transaction_deadline (limit_scope l1) t1) now) as [|Hlive]; [done|]. injection Ho as ->. destruct (Hclose id t Ho1) as (t0 & Ho0 & legacy & owned & ->).
  apply open_Some in Ho0 as [Ht0 Ha0]. rewrite Hscope in Hlive. change (transaction_deadline (limit_scope l) (set_waits legacy owned t0)) with (transaction_deadline (limit_scope l) t0) in Hlive. change (read_version (set_waits legacy owned t0)) with (read_version t0) in Hv.
  unfold oldest_projected. apply least_below. apply list_elem_of_omap. exists (transaction_deadline (limit_scope l) t0, id). split.
  - apply list_elem_of_filter. split; [|apply elem_of_btree_iter, (va_deadline l id (lw_views l Hwf id)); by exists t0]. unfold ord_lt. cbn. unfold pair_cmp. cbn. destruct (Z.compare_spec now (transaction_deadline (limit_scope l) t0)); [lia|done|lia].
  - cbn [snd]. rewrite Ht0. cbn [mbind option_bind]. rewrite Ha0, (proj2 (Z.ltb_lt _ _)) by done. cbn [andb]. by rewrite Hv.
Qed.

(** The floor of the compaction after a commit is not below the floor that was foreseen. *)
Lemma foreseen_floor d d' extra l l1 now : docs_wf d -> docs_wf d' -> compaction_floor d' = compaction_floor d -> commit_times d' = commit_times d ++ extra -> ledger_wf l -> ledger_wf l1 -> closes l l1 ->
  projected_retention_floor d (oldest_projected now l) (capacity_floor d') (current_version d') now <= retention_floor d' (oldest_reading (prune_transactions now l1).2) now.
Proof.
  intros Hwf Hwf' Hf Ht Hl Hl1 Hc. pose proof (version_at_later d d' extra (oldest_read now) Hwf Hwf' Hf Ht) as Hv. unfold projected_retention_floor, retention_floor.
  destruct (oldest_reading _) as [v|] eqn:Hold; [destruct (oldest_foreseen now l l1 v Hl Hl1 Hc Hold) as (m & -> & Hm); lia|]. destruct (oldest_projected now l); lia.
Qed.

(** ** The invariant *)

Definition within_limits (d : Documents) : Prop :=
  history_accounting_exact d = true -> u_versions (history_usage d) <= max_versions (history_limits d) /\ total_bytes (history_usage d) <= max_bytes (history_limits d).

(** Documents with nothing left to drop, a true forecast, and a certified usage within the limits. *)
Record reserved (d : Documents) : Prop := { rv_settled : settled d; rv_forecast : forecast_ok d; rv_limits : within_limits d }.

Lemma forecast_set_ok d f : (forall g, f = Some g -> reclaimed g = (forecast_reclaim (f_floor g) d).1) -> forecast_ok (set_forecast f d).
Proof. intros H g Hg. exact (H g Hg). Qed.

(** A forecast that is made is true, and changes nothing else. *)
Lemma base_reserved floor d : reserved d -> reserved (base_compaction_reclaim floor d).2.
Proof.
  intros [R1 R2 R3]. assert (Hnew : reserved (forecast_reclaim floor d).2) by (split; [exact R1|apply forecast_set_ok; intros g [= <-]; reflexivity|exact R3]).
  unfold base_compaction_reclaim. destruct (_ <=? _); [done|]. destruct (compaction_forecast d); [destruct (_ && _)|]; done.
Qed.

Lemma compact_path_frame prefix floor c p : compaction_forecast (c_docs (compact_path prefix floor c p)) = compaction_forecast (c_docs c) /\ history_accounting_exact (c_docs (compact_path prefix floor c p)) = history_accounting_exact (c_docs c).
Proof.
  assert (Hr : forall q d, compaction_forecast (refresh_reclaim_threshold q d) = compaction_forecast d /\ history_accounting_exact (refresh_reclaim_threshold q d) = history_accounting_exact d) by (intros q d; by destruct (refresh_form q d) as (? & ? & ->)).
  unfold compact_path. destruct (history (c_docs c) !! p) as [vs|]; [|apply Hr]. destruct prefix; [destruct (_ && _); [apply Hr|]|]; destruct (emptied _ _); apply (Hr p (set_history _ _)).
Qed.

Lemma compact_loop_frame prefix floor l : forall c, compaction_forecast (c_docs (fold_left (compact_path prefix floor) l c)) = compaction_forecast (c_docs c) /\ history_accounting_exact (c_docs (fold_left (compact_path prefix floor) l c)) = history_accounting_exact (c_docs c).
Proof. induction l as [|p l IH]; intros c; [done|]. cbn [fold_left]. destruct (IH (compact_path prefix floor c p)) as [-> ->]. apply compact_path_frame. Qed.

Lemma change_usage_frame l : forall d, compaction_forecast (fold_left change_usage l d) = compaction_forecast d /\ (history_accounting_exact (fold_left change_usage l d) = true -> history_accounting_exact d = true).
Proof. induction l as [|x l IH]; intros d; [done|]. cbn [fold_left]. destruct (IH (change_usage d x)) as [-> H]. split; [done|]. intros [He _]%H%andb_true_iff. done. Qed.

(** A compaction that drops something leaves no forecast, and certifies nothing anew. *)
Lemma compact_to_frame floor d : compaction_floor d < floor -> compaction_forecast (compact_to floor d).1 = None /\ (history_accounting_exact (compact_to floor d).1 = true -> history_accounting_exact d = true).
Proof.
  intros Hlt. unfold compact_to. rewrite (proj2 (Z.leb_gt _ _)) by done. set (d1 := drop_commit_times floor _). cbn [fst]. set (c := fold_left (compact_path _ _) _ _). destruct (change_usage_frame (usage_changes c) (c_docs c)) as [-> H1].
  destruct (compact_loop_frame (history_accounting_exact d1) floor (candidates d1 floor) {| c_docs := d1; removed_paths := []; usage_changes := [] |}) as [H2 H3]. fold c in H2, H3. cbn [c_docs] in H2, H3. rewrite H2. rewrite H3 in H1.
  split; [unfold d1, drop_commit_times; by destruct (certified_history_sub _ _ _), (certified_history_sub _ _ _)|]. intros He%H1. unfold d1, drop_commit_times, certified_history_sub in He. cbn [set_usage history_accounting_exact] in He. by certified.
Qed.

Lemma compact_to_reserved floor d : docs_wf d -> floor <= current_version d -> reserved d -> reserved (compact_to floor d).1.
Proof.
  intros Hwf Hle [R1 R2 R3]. destruct (Z.le_gt_cases floor (compaction_floor d)) as [Hsmall|Hlt]; [unfold compact_to; by rewrite (proj2 (Z.leb_le _ _))|].
  destruct (compact_to_frame floor d Hlt) as [F1 F2]. split.
  - by apply compact_settled.
  - intros f. by rewrite F1.
  - intros He. pose proof (F2 He) as He0. pose proof (compacted_retained d floor Hwf R1 Hle) as Hcharge. pose proof (compact_to_spec d floor Hwf ltac:(lia)) as Hspec. destruct (compact_to floor d) as [d' removed]. cbn [fst] in *.
    destruct Hspec as (Hwf' & _ & _ & _ & _ & _ & _ & _ & Hl & _). destruct (R3 He0) as [L1 L2]. rewrite Hl. destruct (certified_below d Hwf He0) as [Hu _]. destruct (certified_below d' Hwf' He) as [Hu' _].
    assert (Hw : within (history_usage d') (history_usage d)).
    { rewrite Hu, Hu', Hcharge. apply bounded_within; [by apply retained_nonneg|]. rewrite (documents_split d (Z.max floor (compaction_floor d)) Hwf), plus_comm. by apply usage_le_more, released_nonneg. }
    destruct Hw as [(_ & _ & _ & _ & _ & _ & ? & _) ?]. lia.
Qed.

Lemma compact_docs now s : docs (compact now s) = (compact_to (retention_floor (docs s) (oldest_reading (prune_transactions now (ledger s)).2) now) (docs s)).1.
Proof. unfold compact. cbv zeta. by destruct (compact_to _ _). Qed.

Lemma compact_reserved now s : docs_wf (docs s) -> reserved (docs s) -> reserved (docs (compact now s)).
Proof. intros Hwf Hr. rewrite compact_docs. apply compact_to_reserved; [done|apply retention_le|done]. Qed.

(** ** The end of a commit *)

Lemma conclude_reserved pr db time (snapshot : bool) u after exact staged own now s s0 : store_wf pr db s -> reserved (docs s) -> current_version (docs s) < int_max u64 -> staged_ok (docs s) staged -> (forall c, c ∈ staged -> in_db pr db (change_path c)) ->
  projected_history_usage staged now s = (u, after, exact, s0) -> check_history_limits (docs s) after = Ok tt -> (if snapshot then staged = [] else forall t, last_commit_time (docs s) = Some t -> t < time) ->
  let s' := conclude time snapshot u exact staged own now s in
  reserved (docs s') /\ (history_accounting_exact (docs s') = true -> within (history_usage (docs s')) after).
Proof.
  intros [W1 W2 W3 W4] [R1 R2 R3] Hroom Hstaged Hdb Hproj Hlimits Htime s'. destruct (projected_form staged now s) as (u0 & after0 & exact0 & f & Hform & Hu). rewrite Hproj in Hform. injection Hform as <- <- <- _.
  destruct (publish_staged_spec s time snapshot u exact staged W1 W2 (ex_intro _ pr (ex_intro _ db (conj (fun p Hp => proj1 (W3 p Hp)) Hdb))) Hroom Hstaged Hu Htime) as (P1 & P2 & P3 & _). destruct (publish_published s time snapshot u exact staged W1 Hroom Hstaged ltac:(by destruct snapshot)) as (B1 & (extra & B2 & B3) & B4 & B5 & B6 & B7 & B8 & B9).
  pose proof (published_settled _ _ _ W1 P1 R1 B1 Hroom) as Hsettled. subst s'. unfold conclude. set (s1 := publish _ _ _ _ _ s) in *. set (s2 := match own with Some id => _ | None => s1 end).
  assert (H2 : docs s2 = docs s1 /\ ledger_wf (ledger s2) /\ closes (ledger s) (ledger s2)).
  { subst s2. destruct own as [id|]; [|rewrite P3; split_and!; try done; apply closes_refl]. cbn [docs ledger with_ledger]. rewrite P3. split_and!; [done|by apply finish_wf|by apply finish_closes]. }
  destruct H2 as (D2 & L2 & C2). cbv zeta. rewrite compact_docs, D2. set (floor := retention_floor _ _ now). pose proof (retention_le (docs s1) (oldest_reading (prune_transactions now (ledger s2)).2) now) as Hle. fold floor in Hle.
  pose proof (compacted_retained (docs s1) floor P1 Hsettled Hle) as Hcharge. destruct (compact_to_reads (docs s1) floor P1 Hle) as (Hwf' & _).
  assert (Hwithin : history_accounting_exact (compact_to floor (docs s1)).1 = true -> within (history_usage (compact_to floor (docs s1)).1) after).
  { intros He. assert (Hexact : exact = true). { rewrite <- B6. destruct (Z.le_gt_cases floor (compaction_floor (docs s1))) as [Hsmall|Hlt]; [|by apply (compact_to_frame floor)]. unfold compact_to in He. by rewrite (proj2 (Z.leb_le _ _)) in He. }
    rewrite Hexact in Hproj. destruct (ceiling_exact s staged now u after s0 (docs s1) W1 R1 R2 Hroom Hstaged P1 B1) as (capacity & Hcap & _ & ->); [|done|].
    { rewrite B2, length_app, B3. destruct staged; lia. }
    rewrite Hcap in B4. cbn [fst snd] in B4. rewrite <- B9, <- B4. destruct (certified_below _ Hwf' He) as [-> _]. rewrite Hcharge. apply bounded_within; [by apply retained_nonneg|]. apply retained_antitone; [done|].
    pose proof (foreseen_floor (docs s) (docs s1) extra (ledger s) (ledger s2) now W1 P1 (pb_floor _ _ _ B1) B2 W4 L2 C2). fold floor in H. lia. }
  split; [|done]. split.
  - by apply compact_settled.
  - assert (Hf : forecast_ok (docs s1)) by (intros g; by rewrite B7). destruct (Z.le_gt_cases floor (compaction_floor (docs s1))) as [Hsmall|Hlt]; [unfold compact_to; by rewrite (proj2 (Z.leb_le _ _))|]. intros g. by rewrite (proj1 (compact_to_frame floor _ Hlt)).
  - intros He. assert (Hl : history_limits (compact_to floor (docs s1)).1 = history_limits (docs s)).
    { rewrite <- B8. destruct (Z.le_gt_cases floor (compaction_floor (docs s1))) as [Hsmall|Hlt]; [unfold compact_to; by rewrite (proj2 (Z.leb_le _ _))|]. pose proof (compact_to_spec (docs s1) floor P1 ltac:(lia)) as Hspec. destruct (compact_to floor (docs s1)). apply Hspec. }
    rewrite Hl. destruct (Hwithin He) as [(_ & _ & _ & _ & _ & _ & ? & _) ?]. unfold check_history_limits in Hlimits. destruct (Z.ltb_spec (max_versions (history_limits (docs s))) (u_versions after)); [done|].
    destruct (Z.ltb_spec (max_bytes (history_limits (docs s))) (total_bytes after)); [done|]. lia.
Qed.

(** ** Every request *)

Section requests.
Context (pr db : string) (nearest : Documents -> Query -> option CommitVersion -> result (list Document) FirestoreError) (waits : CommitWaitOwner -> bool)
  (index_usage : LimitScope -> DocumentPath -> fields_map -> result unit FirestoreError) (delete_check : DocumentPath -> fields_map -> result unit FirestoreError) (bytes_of_query : Query -> Z).

(** What the admission saw of the history when it let a commit pass: the usage before, and a ceiling of the usage after. *)
Definition admitted (d : Documents) (s' : FirestoreState) (admission : CommitResult -> HistoryProjection -> result unit FirestoreError) (result : CommitResult) : Prop :=
  exists after, admission result (history_usage d, after) = Ok tt /\ check_history_limits d after = Ok tt /\ (history_accounting_exact (docs s') = true -> within (history_usage (docs s')) after).

Lemma projected_docs staged now s : exists floor, (projected_history_usage staged now s).2 = with_docs (base_compaction_reclaim floor (docs s)).2 s.
Proof. unfold projected_history_usage. cbv zeta. destruct (projected_uncompacted_usage _ _) as [[u c] e]. set (fl := projected_retention_floor _ _ _ _ _). exists fl. by destruct (base_compaction_reclaim fl (docs s)). Qed.

Lemma apply_commit_reserved writes own now admission s : store_wf pr db s -> has_room s -> writes_ok pr db writes -> reserved (docs s) ->
  let '(r, s') := apply_commit index_usage delete_check writes own now admission s in
  reserved (docs s') /\ match r with Ok result => admitted (docs s) s' admission result | Err _ => True end.
Proof.
  intros Hwf [Hroom Htimes] Hwrites Hres. unfold apply_commit. cbv zeta. set (snapshot_time := if bool_decide (writes = []) then _ else None). set (time := default _ snapshot_time).
  destruct (stage_writes _ _ _ _ _ _ _) as [[staged results]|refused] eqn:Hstage; [|split; [|done]; by destruct own; [destruct (by_precondition refused)|]].
  destruct (stage_writes_spec _ _ _ _ _ _ _ _ _ Hstage) as (S1 & _). pose proof (staged_changes_ok _ _ _ _ _ S1 eq_refl (fun w Hw => proj2 (Hwrites w Hw))) as Hok. set (cs := staged_changes staged) in *.
  assert (Htime : if bool_decide (is_Some snapshot_time) then cs = [] else forall t, last_commit_time (docs s) = Some t -> t < time).
  { case_bool_decide as Hsn; [|subst time; destruct snapshot_time; [destruct Hsn; by eexists|]; by apply next_commit_later]. subst snapshot_time. case_bool_decide as Hw; [|by destruct Hsn]. rewrite Hw in Hstage. injection Hstage as <- <-. done. }
  destruct (projected_docs cs now s) as [floor Hdocs]. pose proof (base_reserved floor (docs s) Hres) as Hbase. destruct (base_reclaim_form floor (docs s)) as (base & f & Hform).
  destruct (projected_history_usage cs now s) as [[[u after] exact] s0] eqn:Hproj. cbn [snd] in Hdocs. subst s0. rewrite Hform in *. cbn [docs with_docs snd] in *. change (check_history_limits (set_forecast f (docs s)) after) with (check_history_limits (docs s) after).
  destruct (check_history_limits (docs s) after) as [[]|e] eqn:Hlim; [|by split]. destruct (admission _ (history_usage (docs s), after)) as [[]|e] eqn:Hadm; [|by split].
  assert (Hc : conclude time (bool_decide (is_Some snapshot_time)) u exact cs own now (with_docs (set_forecast f (docs s)) s) = conclude time (bool_decide (is_Some snapshot_time)) u exact cs own now s) by (unfold conclude; by rewrite publish_forecast).
  rewrite Hc. destruct (conclude_reserved pr db time _ u after exact cs own now s _ Hwf Hres Hroom Hok (staged_in_db pr db _ _ _ _ _ S1 Hwrites) Hproj Hlim Htime) as [C1 C2]. split; [exact C1|]. by exists after.
Qed.

Lemma validate_reserved id writes now s : docs_wf (docs s) -> reserved (docs s) -> reserved (docs (validate_transaction_commit nearest id writes now s).2).
Proof.
  intros Hwf Hres. unfold validate_transaction_commit. set (s0 := if bool_decide _ then _ else s). assert (Hd : docs s0 = docs s) by (subst s0; by case_bool_decide). clearbody s0. cbv zeta.
  destruct (transaction _ _ _) as [t|e]; [|cbn [snd]; by rewrite Hd]. destruct (_ <=? _); [apply compact_reserved; cbn [docs with_ledger]; by rewrite Hd|].
  destruct (read_only t && _); [cbn [snd]; case_bool_decide; cbn [docs with_ledger]; by rewrite Hd|]. destruct (read_only t); [cbn [snd]; by rewrite Hd|]. destruct (transaction_conflicted _ _ _) as [[]|]; cbn [snd docs with_ledger]; by rewrite Hd.
Qed.

Lemma commit_reserved writes own now owner admission s : store_wf pr db s -> has_room s -> writes_ok pr db writes -> reserved (docs s) ->
  let '(r, s') := commit nearest waits index_usage delete_check writes own now owner admission s in
  reserved (docs s') /\ match r with Ok result => admitted (docs s) s' admission result | Err _ => True end.
Proof.
  intros Hwf Hroom Hwrites Hres. pose proof Hwf as [W1 W2 W3 W4]. unfold commit. set (validated := match own with Some id => _ | None => _ end).
  assert (Hv : reserved (docs validated.2) /\ ledger_wf (ledger validated.2) /\ (validated.1 = Ok tt -> docs validated.2 = docs s /\ scopes validated.2 = scopes s)).
  { subst validated. destruct own as [id|]; [|by split_and!]. pose proof (validate_reserved id writes now s W1 Hres). pose proof (validate_spec nearest id writes now s W1 W2 W4) as Hspec.
    destruct (validate_transaction_commit nearest id writes now s) as [r s1]. destruct Hspec as (_ & V2 & _ & V4). split_and!; [done|done|]. intros Hr. by destruct (V4 Hr) as (? & ? & _). }
  destruct validated as [valid s1]. cbn [fst snd] in Hv. destruct Hv as (V1 & V2 & V3). destruct valid as [[]|e]; [|by split]. destruct (V3 eq_refl) as [D1 S1].
  pose proof (contention_spec waits writes own now owner s1 V2) as Hspec. destruct (check_contention waits writes own now owner s1) as [free s2]. destruct Hspec as (D2 & S2 & L2 & _). assert (Hd : docs s2 = docs s) by congruence. assert (Hs : scopes s2 = scopes s) by congruence.
  destruct free as [[]|e]; [|split; [by rewrite Hd|done]]. destruct (check_transform_budget writes) as [[]|e]; [|split; [by rewrite Hd|done]]. destruct (ledger_step pr db s s2 Hwf Hd Hs L2) as [Hwf2 _].
  pose proof (apply_commit_reserved writes own now admission s2 Hwf2 ltac:(unfold has_room in *; by rewrite Hd) Hwrites ltac:(by rewrite Hd)) as Hspec. destruct (apply_commit _ _ _ _ _ _ s2) as [r s']. by rewrite Hd in Hspec.
Qed.

Lemma touch_reserved id now s : docs_wf (docs s) -> reserved (docs s) -> reserved (docs (touch_transaction id now s).2).
Proof.
  intros Hwf Hres. unfold touch_transaction. set (s1 := if bool_decide _ then _ else s). assert (Hwf1 : docs_wf (docs s1) /\ reserved (docs s1)).
  { subst s1. case_bool_decide; [|done]. destruct (prune_transactions now (ledger s)) as [changed l]. destruct changed; [|done]. rewrite compact_docs. cbn [docs with_ledger ledger]. set (floor := retention_floor _ _ _). pose proof (retention_le (docs s) (oldest_reading (prune_transactions now l).2) now) as Hle. fold floor in Hle.
    destruct (compact_to_reads (docs s) floor Hwf Hle) as [? _]. split; [done|by apply compact_to_reserved]. }
  clearbody s1. destruct Hwf1 as [H1 H2]. cbv zeta. destruct (serves_retried_read _ _ _); [done|]. destruct (transaction _ _ _) as [t|e]; [|done]. destruct (_ <=? _); [|done]. destruct (keep_lifetime_expired_transaction _ _ _) as [lifetime l]. by apply compact_reserved.
Qed.

Abbreviation request := (request pr db nearest waits index_usage delete_check bytes_of_query).
Abbreviation reachable := (reachable pr db nearest waits index_usage delete_check bytes_of_query).

Lemma request_reserved s s' : request s s' -> store_wf pr db s -> reserved (docs s) -> reserved (docs s').
Proof.
  intros Hr Hwf Hres. pose proof (sw_docs _ _ _ Hwf) as Hd. destruct Hr; try exact Hres.
  - pose proof (commit_reserved writes own now owner admission s Hwf ltac:(done) ltac:(done) Hres) as H1. destruct (commit _ _ _ _ _ _ _ _ _ s) as [r s']. apply H1.
  - by apply touch_reserved.
  - unfold reclaimable_history_usage. pose proof (base_reserved (retention_floor (docs s) (oldest_reading (ledger s)) now) (docs s) Hres) as Hb. destruct (base_compaction_reclaim _ _) as [u d]. exact Hb.
  - by apply compact_reserved.
Qed.

Lemma reachable_reserved s : reachable s -> reserved (docs s).
Proof.
  induction 1 as [scope offset Ho|s s' Hr IH Hstep].
  - split; [intros p vs H; change ((∅ : gmap DocumentPath Versions) !! p = Some vs) in H; by rewrite lookup_empty in H|done|intros _; by vm_compute].
  - apply (request_reserved s); [done|by apply (reachable_wf pr db nearest waits index_usage delete_check bytes_of_query)|done].
Qed.
End requests.

(** C4. A database never outgrows its limits, and a commit never its reservation: in every state that requests reach, the
    usage of the history, while it is certified, is within the limits of the database; and an accepted commit showed its
    admission the usage before it and a ceiling within those limits, and what the history holds after the commit and its
    compaction, certified, is within that ceiling in every component and in total. *)
Theorem reservation_holds (pr db : string) (nearest : Documents -> Query -> option CommitVersion -> result (list Document) FirestoreError) (waits : CommitWaitOwner -> bool)
  (index_usage : LimitScope -> DocumentPath -> fields_map -> result unit FirestoreError) (delete_check : DocumentPath -> fields_map -> result unit FirestoreError) (bytes_of_query : Query -> Z) (s : FirestoreState) :
  reachable pr db nearest waits index_usage delete_check bytes_of_query s ->
  within_limits (docs s) /\
  forall writes own now owner admission result s', has_room s -> writes_ok pr db writes -> commit nearest waits index_usage delete_check writes own now owner admission s = (Ok result, s') ->
  exists after, admission result (history_usage (docs s), after) = Ok tt /\ check_history_limits (docs s) after = Ok tt /\
    (history_accounting_exact (docs s') = true -> within (history_usage (docs s')) after).
Proof.
  intros Hr. pose proof (reachable_reserved _ _ _ _ _ _ _ s Hr) as Hres. split; [apply Hres|]. intros writes own now owner admission result s' Hroom Hwrites Hc.
  pose proof (commit_reserved pr db nearest waits index_usage delete_check writes own now owner admission s (reachable_wf _ _ _ _ _ _ _ s Hr) Hroom Hwrites Hres) as H. rewrite Hc in H. apply H.
Qed.

(** The reserved ceiling of the transaction of [commit_ex], which replaces the document, and what is left of it. *)
Definition capped (cap : Z) (r : CommitResult) (projection : HistoryProjection) : result unit FirestoreError := if total_bytes projection.2 <=? cap then Ok tt else Err HistoryCapacity.

Abbreviation capped_commit cap := (commit no_nearest (fun _ => true) free_index free_delete [demo_write 3 None] (Some 1) 9000 None (capped cap)).

Example reservation_holds_witness : within_limits (docs demo_open) /\
  match capped_commit 1000 demo_open with
  | (Ok _, s') => history_accounting_exact (docs s') = true /\ total_bytes (history_usage (docs s')) <= 1000
  | (Err _, _) => False
  end /\ (capped_commit 100 demo_open).1 = Err HistoryCapacity.
Proof.
  destruct (reservation_holds _ _ _ _ _ _ _ demo_open demo_open_reachable) as [Hlim Hcommit]. split; [exact Hlim|]. split; [|vm_compute; reflexivity].
  assert (Hsome : match (capped_commit 1000 demo_open).1 with Ok _ => history_accounting_exact (docs (capped_commit 1000 demo_open).2) | Err _ => false end = true) by (vm_compute; reflexivity).
  destruct (capped_commit 1000 demo_open) as [[result|e] s'] eqn:H; [|discriminate Hsome]. split; [exact Hsome|].
  destruct (Hcommit _ _ _ _ _ result s' (proj2 demo_open_wf) (demo_writes_ok 3 None) H) as (after & Hadm & _ & Hwithin). destruct (Hwithin Hsome) as [_ Htotal]. unfold capped in Hadm. cbn [snd] in Hadm.
  destruct (Z.leb_spec (total_bytes after) 1000) as [Hle|]; [|discriminate Hadm]. exact (Z.le_trans _ _ _ Htotal Hle).
Defined.
